(* ===== verification/_CoqProject ===== *)
-Q . S2P
Prelude.v
Doubles.v
Ints.v
Skiplist.v
SkiplistRep.v
SkiplistInsert.v
SkiplistDelete.v
SkiplistSpec.v
SkiplistThm.v
SkiplistQueries.v
Astar.v
AstarThm.v
ChainBuffer.v
Crc.v
Counter.v
ConnPool.v
StripedMap.v
Uuid.v
Bloom.v
ThreadPool.v
Matrix.v
Bytes.v
Hex.v
Padding.v
Des.v
DesModes.v
DesThm.v
Aes.v
AesThm.v
Digest.v
Rsa.v
RsaThm.v
Gzip.v
GzipThm.v
VectorIndex.v
VectorIndexThm.v
Llama.v
LlamaThm.v
License.v
LicenseThm.v
DateTime.v
Calendar.v
DateTimeThm.v
StringUtil.v
Utf8.v
TcpConn.v
TcpConnThm.v
Dialer.v
DialerThm.v
Ws.v
WsThm.v
Zmq.v
ZmqThm.v
Gpu.v
GpuThm.v
Base64.v
Base64Thm.v
CText.v
Disk.v
DiskThm.v
Host.v
HostThm.v
Filepath.v
FilepathThm.v
Env.v
Board.v
Db.v
DbThm.v
Sqlite.v
SqliteThm.v
Redis.v
RedisThm.v
Qr.v
QrThm.v
Udp.v
Endian.v
Dbuffer.v
SharedMemory.v
Errors.v
Signals.v
