(* ===== verification/Prelude.v ===== *)
(** * High-jump: a verification library

    High-jump ([src/hj]) is a C++17 library of headers: containers and
    algorithms, synchronisation, buffers, encodings, cryptography, and wrappers
    of the operating system, of the network and of third-party libraries.  This
    library models the headers that carry logic of their own, component by
    component, and proves what makes each correct.

    ** How the code is modelled

    A class is a record, a method a function from the record and the arguments
    to the results and the new record, with the method's name.  [option] is for
    undefined behaviour and uncaught exceptions (each file says which); error
    codes are values.  Numbers of a width are integers reduced by [wrap] where
    the code wraps; [Ints] has the C++ integer types with promotion, conversion
    and overflow, [Doubles] the IEEE doubles and their order.  Memory is a heap
    ([Skiplist], [Matrix], [Rsa], [VectorIndex], [Llama], [Gpu]) or a buffer with bounds ([Padding], [Des], [Aes],
    [Bytes], [StringUtil]) where the code has pointers.  Threads are step
    relations whose steps are the critical sections or the atomic operations
    ([Counter], [ConnPool], [StripedMap], [ThreadPool], [Uuid], [License],
    [Dialer], [Dbuffer]).  A loop that is
    not structural has fuel: the caller gives the length of what it consumes
    plus one, and the theorems show that the loop returns; the loops around zlib
    ([Gzip]) take a number of turns, and the theorems show that some number is
    enough.  What the code takes
    from outside of the repository is a parameter, with the laws the theorems
    need as a class ([BlockPrim] in [DesModes], [EvpLaws] in [AesThm],
    [DigestLaws] in [Digest], [RsaLaws] and [PemLaws] in [RsaThm], [ZlibLaws] in [GzipThm],
    [B64Laws] in [Base64Thm],
    [FaissLaws] in [VectorIndexThm], [JwtLaws] in [LicenseThm],
    [LlamaLaws] in [LlamaThm], [BoostLaws] in [Calendar], [Utf8Locale] in [Utf8],
    [CostOps] in [Astar], [SmlLaws] in [Errors], [Copy] in [Dbuffer], [Unmaps] in [SharedMemory]) and an instance of each for the witnesses.

    ** The files

    - [Prelude]: this file: words of a width, bytes, the option monad, programs
      with a state ([State]), tactics, the interface [Codec] of encodings, lemmas on lists of threads.
    - [Doubles], [Ints]: arithmetic.
    - [Skiplist] ([algo/skiplist.hpp]): nodes in a heap with levels and spans.
      [SkiplistRep] says which heaps represent a path, [SkiplistInsert] and
      [SkiplistDelete] prove the pointer surgery, [SkiplistSpec] states the
      abstract sequence, [SkiplistThm] the refinement of every sequence of
      updates, [SkiplistQueries] ranks, ranges, traversals and release.
    - [Astar] ([algo/astar.hpp]): the search; [AstarThm]: soundness,
      completeness, absence of exceptions, path smoothing.
    - [ChainBuffer] ([io/chain_buffer.hpp]): a chain of blocks is a queue of bytes.
    - [Crc] ([algo/crc16.h], [algo/crc32.h]): the tables against the polynomial.
    - [Counter] ([sync/counter.hpp]): bounds, operators, linearizability.
    - [ConnPool] ([db/db_conn_pool.hpp]): connections are counted, lent to one
      thread at a time, and closed.
    - [StripedMap] ([sync/striped_map.hpp]): refinement of one map.
    - [Uuid] ([algo/uuid.hpp]): identifiers are distinct under any clock;
      texts; byte order.
    - [Bloom] ([algo/bloom_filter.hpp]): membership and text form.
    - [ThreadPool] ([sync/thread_pool.hpp]): order, wake-ups, shutdown.
    - [Matrix] ([math/matrix.hpp] and its two iterators).
    - [Bytes] ([encoding/bytes.hpp], [encoding/bits.hpp]), [Hex]
      ([encoding/hex.hpp]): conversions and their round trips.
    - [Padding], [Des], [Aes] ([crypto/des.hpp], [crypto/aes.hpp]): paddings,
      modes, buffers, strings, streams and files.  [DesModes] is the reference
      of the modes, [DesThm] and [AesThm] prove that every form of encryption is
      the reference and that decryption undoes it.
    - [Digest] ([crypto/md5.hpp], [crypto/sha.hpp]): the forms of a digest agree.
    - [Rsa] ([crypto/rsa.hpp]): keys as objects of a heap, blocks, streams, files,
      signatures, generation; [RsaThm]: memory, round trips, generated pairs.
    - [Base64] ([crypto/base64.hpp]): buffers, strings, streams, files and the check
      of a text; [Base64Thm]: RFC 4648, round trips, the grammar of the check.
    - [Gzip] ([compress/gzip.hpp]): the loops around zlib; [GzipThm]: round trips
      in the form that is asked for, in chunks of any positive size, limits.
    - [VectorIndex] ([ai/vector_index.hpp]): owning pointers in a memory with
      exceptions and files; [VectorIndexThm]: ownership, saving.
    - [Llama] ([ai/llama.hpp]): batches, sampler chains, and the classes that own
      models, adapters, contexts and samplers, with what each refers to; [LlamaThm]:
      ownership, what breaking the callers' side ends in, prompts.
    - [License] ([util/license.hpp]): issuers with concurrent callers, verifiers,
      files; [LicenseThm]: the number of times, acceptance, what a token says.
    - [DateTime] ([time/date_time.hpp]): periods, weekdays, working days, the
      epoch.  [Calendar] has the laws of the calendar of the library and the
      Gregorian calendar as their instance, [DateTimeThm] the theorems.
    - [StringUtil] ([util/string_util.hpp]): cutting, replacing, trimming, the
      bounded copy, the cache of regular expressions.
    - [Utf8] ([encoding/utf8.hpp]): validity against RFC 3629 and the overlong
      forms that are let through, and the conversions of strings, buffers and streams.
    - [TcpConn] ([net/tcp/tcp_conn.hpp] over [net/tcp/tcp_socket.hpp]): a
      connection as a machine that runs handlers; [TcpConnThm]: framing, order,
      closing.
    - [Dialer] ([net/tcp/tcp_dialer.hpp], [net/tcp/tcp_listener.hpp]): the set of
      sockets under its lock, the acceptor of an endpoint; [DialerThm]: what is in
      the set, where a listener accepts.
    - [Ws] ([net/http/ws_client.hpp], [net/http/ws_server.hpp]): clients and servers,
      plain and over TLS, with the operations that are pending; [WsThm]: handlers
      called once, messages in order.
    - [Zmq] ([net/zmq.hpp]): multipart messages, channels, the loops that move
      messages, the poller, who closes contexts and sockets; [ZmqThm]: round trip,
      order, refinement of an association list, lifetimes.
    - [Gpu] ([hardware/gpu.h]): devices, contexts, programs, buffers, copies and
      launches over the queues of OpenCL or CUDA; [GpuThm]: copies that do not
      block against those that do, lifetimes, the list of devices, grids.

    - [CText]: strings, arrays, lines, scanned and printed numbers of the C library, and
      their laws.  [Disk] ([hardware/disk.h]) and [Host] ([hardware/ram.h],
      [hardware/cpu.h]): the Linux branches over what the system answers; [DiskThm],
      [HostThm]: files of the kernel read back, sizes within their buffers, what is
      closed, delays that end.

    - [Filepath] ([io/filepath.hpp]): listing, searching, copying, removing in a file
      system of paths; [FilepathThm]: copies that are the same, searches that find all.
    - [Env] ([os/env.h]): the time of compilation, the limits and facts of the system over
      what it answers.
    - [Board] ([hardware/bios.h], [hardware/nic.h]): files of the kernel, the table of the
      firmware byte by byte, interfaces and their counters: what is found is
      what was written.
    - [Db] ([db/db_conn.hpp]): values, tables, the interface [DbConn] of a connection, the
      guard of a transaction over any connection whose transactions have the laws
      [Transactional], rollbacks of the engine itself included, the owner of a handle;
      [DbThm]: the guard commits or rolls back.
    - [Sqlite] ([db/sqlite.hpp]): statements and connections over an engine; [SqliteThm]: what
      is opened is closed, queries, and the guard as an instance of [Transactional].
      [Redis] ([db/redis.hpp]): commands with places; [RedisThm]: words, replies.
    - [Qr] ([ai/qrcode.hpp]): images of modules, files of images; [QrThm]: the image is that
      of the modules, files read back, the cause of every error.
    - [Udp] ([net/udp/udp_socket.hpp]): a socket and the handlers that wait.
    - [Endian] ([encoding/endian.hpp]): swaps against the bytes of numbers.
    - [Dbuffer] ([io/dbuffer.hpp]): two containers and their pointers, methods and the steps of
      threads: one writer, and what goes wrong with two.
    - [SharedMemory] ([sync/shared_memory.hpp]): descriptors and mappings are given back.
    - [Errors] ([testing/error.hpp]): messages of codes; ([testing/error_handler.hpp]): a state
      machine over a library that runs it ([SmlLaws]), errors in order.
    - [Signals] ([os/signal.hpp], the list of [os/process.hpp]): callbacks of signals, and
      what comes in between; processes from the lines of a command.

    Files call each other as the headers do, with one exception: [Padding] is
    shared by two headers that repeat the same enumeration and loops.

    ** What the theorems show

    Refinement of an abstract specification: the skip list (a sorted sequence),
    the chain buffer (a queue), the striped map (a map), DES (steps over the
    blocks of the padded message), AES (the library's cipher on the padded
    message), the cache of regular expressions (no cache), the periods of a date
    (exactly the moments of the period), the messages of a connection (the frames
    of its stream).  Typing: programs on matrices run without undefined behaviour
    exactly when they have a type.  Ownership: keys, indexes of vectors and language models are
    freed once, over every sequence of calls whose callers keep their side, and so
    are statements, connections, descriptors and mappings.  A block under the guard of a
    transaction that stops at its first failure happens or does not.  Handlers of operations, and of errors, are called once.
    Invariants and safety of concurrent components over every interleaving, with the liveness
    the code has: the thread pool loses no wake-up, the clock of the identifiers
    moves on.  Round trips of the encodings and of encryption.  Bounds: the
    counter, the bounded copy, the words of the checksums.  Where the code does
    not do what it means to, a lemma shows the case: they follow the theorems of
    their component.

    ** Not modelled

    The other wrappers of hardware, operating system, network (HTTP, gRPC), ClickHouse,
    telemetry, documents, machine learning and of the formats of third-party libraries,
    whose logic is in what they call; the containers that put one lock, or one call of a
    library, around each operation; the headers that only rename or include;
    formatted input and output, memory allocation that fails, and thread
    affinity.  Floating point conversions of [bytes.hpp] are left out, as is the
    branch of each header for other compilers and systems than GNU on POSIX. *)

From Stdlib Require Import ZArith Lia List Bool.
From stdpp Require Import base list option gmap.

(** ** Notations *)

Declare Scope hj_scope.
Delimit Scope hj_scope with hj.

(** Fallible sequencing: [None] is undefined behaviour of the C++ code (a
    null dereference, an access out of bounds, a read of an uninitialised
    slot, an unsigned subtraction that would wrap where the code relies on it
    not wrapping). *)
Notation "'let*' x ':=' e 'in' k" :=
  (match e with Some x => k | None => None end)
  (at level 10, x pattern, e at level 150, k at level 200, only parsing) : hj_scope.

(** ** Programs with a state *)

(** A program reads and changes a state, and gives a result; [None] is undefined
    behaviour, or never returning. *)
Module State.
Definition M (W A : Type) : Type := W -> option (A * W).
Definition ret {W A} (a : A) : M W A := fun w => Some (a, w).
Definition bind {W A B} (x : M W A) (f : A -> M W B) : M W B :=
  fun w => match x w with Some (a, w) => f a w | None => None end.
Definition undefined {W A} : M W A := fun _ => None.
Definition lift {W A} (o : option A) : M W A := fun w => match o with Some a => Some (a, w) | None => None end.
Definition gets {W A} (f : W -> A) : M W A := fun w => Some (f w, w).
Definition modify {W} (f : W -> W) : M W unit := fun w => Some (tt, f w).
Notation "'do' p <- x ; k" := (bind x (fun y => match y with p => k end)) (at level 10, p pattern, x at level 99, k at level 200).

(** The program returns, with a result and a state in [Q]. *)
Definition post {W A} (x : M W A) (w : W) (Q : A -> W -> Prop) : Prop := match x w with Some (a, w') => Q a w' | None => False end.

Lemma post_ret {W A} (a : A) (w : W) (Q : A -> W -> Prop) : Q a w -> post (ret a) w Q.
Proof. auto. Qed.
Lemma post_bind {W A B} (x : M W A) (f : A -> M W B) w (Q : B -> W -> Prop) : post x w (fun a w' => post (f a) w' Q) -> post (bind x f) w Q.
Proof. unfold post, bind. now destruct (x w) as [[a w']|]. Qed.
Lemma post_gets {W A} (f : W -> A) (w : W) (Q : A -> W -> Prop) : Q (f w) w -> post (gets f) w Q.
Proof. auto. Qed.
Lemma post_modify {W} (f : W -> W) (w : W) (Q : unit -> W -> Prop) : Q tt (f w) -> post (modify f) w Q.
Proof. auto. Qed.
Lemma post_lift {W A} (o : option A) a (w : W) (Q : A -> W -> Prop) : o = Some a -> Q a w -> post (lift o) w Q.
Proof. now intros ->. Qed.
Lemma post_weaken {W A} (x : M W A) w (P Q : A -> W -> Prop) : post x w P -> (forall a w', P a w' -> Q a w') -> post x w Q.
Proof. unfold post. destruct (x w) as [[a w']|]; auto. Qed.
Lemma post_some {W A} (x : M W A) w (Q : A -> W -> Prop) : post x w Q <-> exists a w', x w = Some (a, w') /\ Q a w'.
Proof. unfold post. destruct (x w) as [[a w']|]; split; [eauto|intros (? & ? & [= <- <-] & H); exact H|tauto|intros (? & ? & [=] & _)]. Qed.
End State.

(** ** Machine integers *)

(** Unsigned integers of [w] bits are numbers in [0, 2^w), and arithmetic
    wraps around. *)
Definition wrap (w : Z) (z : Z) : Z := (z mod 2 ^ w)%Z.
Definition uint (w : Z) (z : Z) : Prop := (0 <= z < 2 ^ w)%Z.

(** Two's complement reading of the low [w] bits. *)
Definition sint_of (w : Z) (z : Z) : Z :=
  (if Z.testbit z (w - 1) then wrap w z - 2 ^ w else wrap w z)%Z.
Definition sint (w : Z) (z : Z) : Prop := (- 2 ^ (w - 1) <= z < 2 ^ (w - 1))%Z.

Definition byte (z : Z) : Prop := (0 <= z < 256)%Z.
Definition bytes (l : list Z) : Prop := Forall byte l.

(** Subtraction on sizes that must not wrap: [None] otherwise. *)
Definition nsub (a b : nat) : option nat := if b <=? a then Some (a - b) else None.

(** ** Tactics *)

Create HintDb hj.

(** Case analysis on every boolean test and every [match] of the goal. *)
Ltac break_match :=
  match goal with
  | |- context [match ?x with _ => _ end] => destruct x eqn:?
  end.
Ltac break_match_in H :=
  match type of H with
  | context [match ?x with _ => _ end] => destruct x eqn:?
  end.

(** Boolean comparisons of the context become propositions. *)
Ltac reflect_bools :=
  repeat match goal with
  | H : (_ && _) = true |- _ => apply andb_true_iff in H as [? ?]
  | H : (_ || _) = false |- _ => apply orb_false_iff in H as [? ?]
  | H : negb _ = true |- _ => apply negb_true_iff in H
  | H : negb _ = false |- _ => apply negb_false_iff in H
  | H : (_ <=? _) = true |- _ => apply Nat.leb_le in H
  | H : (_ <=? _) = false |- _ => apply Nat.leb_gt in H
  | H : (_ <? _) = true |- _ => apply Nat.ltb_lt in H
  | H : (_ <? _) = false |- _ => apply Nat.ltb_ge in H
  | H : (_ =? _) = true |- _ => apply Nat.eqb_eq in H
  | H : (_ =? _) = false |- _ => apply Nat.eqb_neq in H
  | H : (_ <=? _)%Z = true |- _ => apply Z.leb_le in H
  | H : (_ <=? _)%Z = false |- _ => apply Z.leb_gt in H
  | H : (_ <? _)%Z = true |- _ => apply Z.ltb_lt in H
  | H : (_ <? _)%Z = false |- _ => apply Z.ltb_ge in H
  | H : (_ =? _)%Z = true |- _ => apply Z.eqb_eq in H
  | H : (_ =? _)%Z = false |- _ => apply Z.eqb_neq in H
  end.

(** Comparisons of the goal that linear arithmetic decides become constants. *)
Ltac decide_cmps :=
  repeat match goal with
  | |- context [(?a <=? ?b)%Z] =>
      first [replace (a <=? b)%Z with true by (symmetry; apply Z.leb_le; lia)
            |replace (a <=? b)%Z with false by (symmetry; apply Z.leb_gt; lia)]
  | |- context [(?a <? ?b)%Z] =>
      first [replace (a <? b)%Z with true by (symmetry; apply Z.ltb_lt; lia)
            |replace (a <? b)%Z with false by (symmetry; apply Z.ltb_ge; lia)]
  | |- context [(?a =? ?b)%Z] =>
      first [replace (a =? b)%Z with true by (symmetry; apply Z.eqb_eq; lia)
            |replace (a =? b)%Z with false by (symmetry; apply Z.eqb_neq; lia)]
  end.

(** Equality of two integers, bit by bit: the goal becomes a boolean equation
    between the bits at a position [i >= 0]. *)
Ltac bitwise i :=
  apply Z.bits_inj'; intros i ?;
  rewrite ?Z.lxor_spec, ?Z.lor_spec, ?Z.land_spec, ?Z.shiftr_spec by lia;
  rewrite ?Z.lxor_spec, ?Z.lor_spec, ?Z.land_spec.

(** ** Integers: shared lemmas *)

Open Scope Z_scope.

Lemma wrap_small w z : uint w z -> wrap w z = z.
Proof. intros H. apply Z.mod_small, H. Qed.

Lemma wrap_uint w z : 0 <= w -> uint w (wrap w z).
Proof. intros H. apply Z.mod_pos_bound. lia. Qed.

Lemma wrap_wrap w z : 0 <= w -> wrap w (wrap w z) = wrap w z.
Proof. intros H. apply wrap_small, wrap_uint, H. Qed.

Lemma wrap_testbit w z i : 0 <= i -> 0 <= w ->
  Z.testbit (wrap w z) i = (i <? w) && Z.testbit z i.
Proof.
  intros Hi Hw. unfold wrap. destruct (Z.ltb_spec i w).
  - now rewrite Z.mod_pow2_bits_low.
  - now rewrite Z.mod_pow2_bits_high by lia.
Qed.

(** A number whose bits from [w] on are clear is below [2 ^ w]. *)
Lemma uint_of_bits w z : 0 <= w -> 0 <= z ->
  (forall i, w <= i -> Z.testbit z i = false) -> uint w z.
Proof.
  intros Hw Hz H. split; [exact Hz|].
  enough (wrap w z = z) as <- by (apply wrap_uint; lia).
  apply Z.bits_inj'. intros i Hi. rewrite wrap_testbit by lia.
  destruct (Z.ltb_spec i w); [reflexivity|]. symmetry. now apply H.
Qed.

Lemma uint_testbit w z i : uint w z -> w <= i -> Z.testbit z i = false.
Proof.
  intros Hz Hi. destruct (Z.lt_ge_cases w 0) as [Hn|Hn].
  - unfold uint in Hz. rewrite Z.pow_neg_r in Hz; lia.
  - rewrite <- (wrap_small w z Hz), wrap_testbit by lia.
    destruct (Z.ltb_spec i w); [lia|reflexivity].
Qed.

Lemma lxor_uint w a b : 0 <= w -> uint w a -> uint w b -> uint w (Z.lxor a b).
Proof.
  intros Hw Ha Hb. apply uint_of_bits; [lia| |].
  - apply Z.lxor_nonneg. unfold uint in *. lia.
  - intros i Hi. rewrite Z.lxor_spec, !(uint_testbit w) by assumption. reflexivity.
Qed.

Lemma lor_uint w a b : 0 <= w -> uint w a -> uint w b -> uint w (Z.lor a b).
Proof.
  intros Hw Ha Hb. apply uint_of_bits; [lia| |].
  - apply Z.lor_nonneg. unfold uint in *. lia.
  - intros i Hi. rewrite Z.lor_spec, !(uint_testbit w) by assumption. reflexivity.
Qed.

Lemma shiftr_uint w a n : 0 <= w -> 0 <= n -> uint w a -> uint w (Z.shiftr a n).
Proof.
  intros Hw Hn Ha. apply uint_of_bits; [lia| |].
  - apply Z.shiftr_nonneg. apply Ha.
  - intros i Hi. rewrite Z.shiftr_spec by lia. apply (uint_testbit w); [assumption|lia].
Qed.

Lemma land_255 z : Z.land z 255 = z mod 256.
Proof. change 255 with (Z.ones 8). now rewrite Z.land_ones by lia. Qed.

Lemma land_255_byte z : byte (Z.land z 255).
Proof. rewrite land_255. apply Z.mod_pos_bound. lia. Qed.

Lemma testbit_255 i : 0 <= i -> Z.testbit 255 i = (i <? 8).
Proof. intros Hi. change 255 with (Z.ones 8). now apply Z.testbit_ones_nonneg. Qed.

Lemma byte_uint z : byte z <-> uint 8 z.
Proof. reflexivity. Qed.

(** Fields that do not overlap: or is addition. *)
Lemma lor_shifted a b k : 0 <= k -> 0 <= a -> uint k b -> Z.lor (a * 2 ^ k) b = a * 2 ^ k + b.
Proof.
  intros Hk Ha Hb. rewrite <- Z.add_lor_land.
  enough (Z.land (a * 2 ^ k) b = 0) as -> by lia.
  apply Z.bits_inj'. intros i Hi. rewrite Z.land_spec, Z.bits_0.
  destruct (Z.lt_ge_cases i k).
  - now rewrite Z.mul_pow2_bits_low by lia.
  - rewrite (uint_testbit k b i) by assumption. apply andb_false_r.
Qed.

(** The bits of a byte mask at position [m]. *)
Lemma testbit_byte_mask m i : 0 <= m -> 0 <= i ->
  Z.testbit (Z.shiftl 255 m) i = (m <=? i) && (i <? m + 8).
Proof.
  intros Hm Hi. rewrite Z.shiftl_spec by lia. destruct (Z.leb_spec m i).
  - rewrite testbit_255 by lia. cbn. destruct (Z.ltb_spec (i - m) 8), (Z.ltb_spec i (m + 8)); try reflexivity; lia.
  - now rewrite Z.testbit_neg_r by lia.
Qed.

#[export] Hint Resolve wrap_uint lxor_uint lor_uint shiftr_uint land_255_byte : hj.

(** A property of every byte is decided by enumerating the 256 bytes. *)
Lemma byte_forall (P : Z -> bool) :
  forallb (fun n => P (Z.of_nat n)) (List.seq 0 256) = true ->
  forall b, byte b -> P b = true.
Proof.
  intros H b [Hb Hb']. rewrite forallb_forall in H.
  rewrite <- (Z2Nat.id b) by assumption. apply H, in_seq. lia.
Qed.

(** Two folds that agree on every element and every accumulator of interest. *)
Lemma fold_left_inv_ext {A B} (I : A -> Prop) (P : B -> Prop) (f g : A -> B -> A) l :
  (forall a b, I a -> P b -> f a b = g a b /\ I (g a b)) ->
  Forall P l -> forall a, I a -> fold_left f l a = fold_left g l a /\ I (fold_left g l a).
Proof.
  intros Hfg. induction 1 as [|b l Hb _ IH]; intros a Ha; cbn [fold_left]; [auto|].
  destruct (Hfg a b Ha Hb) as [-> Ha']. now apply IH.
Qed.

Lemma wrap_lor w a b : 0 <= w -> wrap w (Z.lor a b) = Z.lor (wrap w a) (wrap w b).
Proof.
  intros Hw. apply Z.bits_inj'. intros i Hi. rewrite Z.lor_spec, !wrap_testbit, Z.lor_spec by lia. now destruct (i <? w).
Qed.

(** ** Codecs *)

(** What an encoding promises: decoding gives the value back. *)
Class Codec {A B : Type} (ok : A -> Prop) (enc : A -> B) (dec : B -> option A) : Prop :=
  codec_roundtrip a : ok a -> dec (enc a) = Some a.

(** So distinct values have distinct encodings. *)
Lemma codec_inj {A B} ok (enc : A -> B) dec `{!Codec ok enc dec} a b : ok a -> ok b -> enc a = enc b -> a = b.
Proof. intros Ha Hb E. apply codec_roundtrip in Ha, Hb. rewrite E, Hb in Ha. congruence. Qed.

(** ** Loops *)

(** [for(i = lo; i < lo + n; i++) s = f(i, s)]. *)
Fixpoint for_up {S} (f : nat -> S -> option S) (lo n : nat) (s : S) : option S :=
  match n with
  | O => Some s
  | Datatypes.S n => match f lo s with Some s' => for_up f (Datatypes.S lo) n s' | None => None end
  end.

(** A loop whose body succeeds and steps an invariant succeeds. *)
Lemma for_up_inv {S} (Inv : nat -> S -> Prop) f lo n s :
  Inv lo s ->
  (forall i s, (lo <= i < lo + n)%nat -> Inv i s ->
     exists s', f i s = Some s' /\ Inv (Datatypes.S i) s') ->
  exists s', for_up f lo n s = Some s' /\ Inv (lo + n)%nat s'.
Proof.
  revert lo s. induction n as [|n IH]; intros lo s H0 Hf; cbn [for_up].
  - exists s. now rewrite Nat.add_0_r.
  - destruct (Hf lo s) as (s1 & -> & H1); [lia|exact H0|].
    destruct (IH (Datatypes.S lo) s1 H1) as (s2 & -> & H2).
    + intros i s' Hi. apply Hf. lia.
    + exists s2. split; [reflexivity|]. now rewrite <- Nat.add_succ_comm.
Qed.

(** ** Lists of threads: shared lemmas *)

#[local] Open Scope nat_scope.

Section Update.
Context {A B : Type}.

Lemma list_update_split (l : list A) i x y : l !! i = Some x ->
  exists l1 l2, l = l1 ++ x :: l2 /\ <[i := y]> l = l1 ++ y :: l2.
Proof.
  intros Hl. exists (take i l), (drop (S i) l). split; [now rewrite take_drop_middle|].
  apply insert_take_drop. now apply lookup_lt_Some in Hl.
Qed.

Lemma sum_update (f : A -> nat) l i x y : l !! i = Some x ->
  sum_list_with f (<[i := y]> l) + f x = sum_list_with f l + f y.
Proof.
  intros Hl. destruct (list_update_split l i x y Hl) as (l1 & l2 & -> & ->).
  rewrite !sum_list_with_app. cbn. lia.
Qed.

Lemma concat_update (f : A -> list B) l i x y : l !! i = Some x ->
  concat (f <$> <[i := y]> l) ++ f x ≡ₚ concat (f <$> l) ++ f y.
Proof.
  intros Hl. destruct (list_update_split l i x y Hl) as (l1 & l2 & -> & ->).
  rewrite !fmap_app, !concat_app. cbn. solve_Permutation.
Qed.

Lemma update_cases (l : list A) i x y j z : l !! i = Some x -> <[i := y]> l !! j = Some z ->
  (j = i /\ z = y) \/ (j <> i /\ l !! j = Some z).
Proof.
  intros Hl. destruct (decide (j = i)) as [->|Hj].
  - rewrite list_lookup_insert_eq by (now apply lookup_lt_Some in Hl). intros [= <-]. now left.
  - rewrite list_lookup_insert_ne by congruence. auto.
Qed.
End Update.
