(* ===== verification/Doubles.v ===== *)
(** * IEEE doubles and their comparisons

    The scores of the skip list and the costs of the path search are C++
    [double]s.  They are modelled by the Standard Library's executable
    specification of binary floating point ([spec_float]); comparisons with a
    NaN are false.  On numbers that are not NaN the order is total up to the
    two zeros; the laws below are the ones the clients use. *)

From Stdlib Require Import ZArith Lia Bool.
From Stdlib Require Import Floats.SpecFloat.
From stdpp Require Import base tactics decidable.
From S2P Require Import Prelude.

Open Scope Z_scope.

Abbreviation double := spec_float.

(** [a < b], [a <= b], [a == b]; [a > b] is [b < a]. *)
Definition dlt (a b : double) : bool := SFltb a b.
Definition dle (a b : double) : bool := SFleb a b.
Definition deq (a b : double) : bool := SFeqb a b.

Definition is_nan (a : double) : bool := match a with S754_nan => true | _ => false end.
Definition dzero : double := S754_zero false.

(** ** The lexicographic key of a number

    Class of the number (negative infinity, negative, zero, positive,
    positive infinity), then exponent, then mantissa. *)

Definition dkey (a : double) : Z * Z * Z :=
  match a with
  | S754_nan => (3, 0, 0)
  | S754_infinity s => (if s then -2 else 2, 0, 0)
  | S754_zero _ => (0, 0, 0)
  | S754_finite s m e => if s then (-1, - e, Z.neg m) else (1, e, Z.pos m)
  end.

Definition lex_lt (a b : Z * Z * Z) : Prop :=
  let '(a1, a2, a3) := a in let '(b1, b2, b3) := b in
  a1 < b1 \/ (a1 = b1 /\ (a2 < b2 \/ (a2 = b2 /\ a3 < b3))).

Lemma SFcompare_key a b : is_nan a = false -> is_nan b = false ->
  match SFcompare a b with
  | Some Lt => lex_lt (dkey a) (dkey b)
  | Some Eq => dkey a = dkey b
  | Some Gt => lex_lt (dkey b) (dkey a)
  | None => False
  end.
Proof.
  destruct a as [sa|sa| |sa ma ea], b as [sb|sb| |sb mb eb]; try discriminate; intros _ _;
    try destruct sa; try destruct sb; cbn; try lia; try reflexivity.
  - destruct (Z.compare_spec ea eb); cbn; [|lia|lia].
    change (Pos.compare_cont Eq ma mb) with (Pos.compare ma mb).
    destruct (Pos.compare_spec ma mb); cbn; subst; try lia; reflexivity.
  - destruct (Z.compare_spec ea eb); cbn; [|lia|lia].
    change (Pos.compare_cont Eq ma mb) with (Pos.compare ma mb).
    destruct (Pos.compare_spec ma mb); cbn; subst; try lia; reflexivity.
Qed.

Lemma lex_lt_irrefl a : ~ lex_lt a a.
Proof. destruct a as [[]]. cbn. lia. Qed.
Lemma lex_lt_asym a b : lex_lt a b -> ~ lex_lt b a.
Proof. destruct a as [[]], b as [[]]. cbn. lia. Qed.
Lemma lex_lt_trans a b c : lex_lt a b -> lex_lt b c -> lex_lt a c.
Proof. destruct a as [[]], b as [[]], c as [[]]. cbn. lia. Qed.
Lemma lex_lt_total a b : lex_lt a b \/ a = b \/ lex_lt b a.
Proof.
  destruct a as [[a1 a2] a3], b as [[b1 b2] b3]. cbn.
  destruct (Z.lt_trichotomy a1 b1) as [?|[->|?]]; [lia| |lia].
  destruct (Z.lt_trichotomy a2 b2) as [?|[->|?]]; [lia| |lia].
  destruct (Z.lt_trichotomy a3 b3) as [?|[->|?]]; [lia|auto|lia].
Qed.

(** ** The comparisons through the key *)

Section Comparisons.
Context {a b : double} (Ha : is_nan a = false) (Hb : is_nan b = false).

Lemma dlt_key : dlt a b = true <-> lex_lt (dkey a) (dkey b).
Proof.
  unfold dlt, SFltb. pose proof (SFcompare_key a b Ha Hb) as H.
  destruct (SFcompare a b) as [[]|]; split; intros H'; try done.
  - rewrite H in H'. now apply lex_lt_irrefl in H'.
  - now apply lex_lt_asym in H'.
Qed.

Lemma deq_key : deq a b = true <-> dkey a = dkey b.
Proof.
  unfold deq, SFeqb. pose proof (SFcompare_key a b Ha Hb) as H.
  destruct (SFcompare a b) as [[]|]; split; intros H'; try done;
    rewrite H' in H; now apply lex_lt_irrefl in H.
Qed.

Lemma dle_key : dle a b = true <-> ~ lex_lt (dkey b) (dkey a).
Proof.
  unfold dle, SFleb. pose proof (SFcompare_key a b Ha Hb) as H.
  destruct (SFcompare a b) as [[]|]; split; intros H'; try done.
  - rewrite H. apply lex_lt_irrefl.
  - now apply lex_lt_asym.
Qed.
End Comparisons.

Lemma dlt_nan_l a b : dlt a b = true -> is_nan a = false.
Proof. now destruct a. Qed.
Lemma dlt_nan_r a b : dlt a b = true -> is_nan b = false.
Proof. destruct a, b; cbn; try done. Qed.

(** ** Order laws on numbers *)

Lemma dlt_irrefl a : dlt a a = false.
Proof.
  destruct (dlt a a) eqn:E; [|reflexivity]. pose proof (dlt_nan_l _ _ E) as Ha.
  apply dlt_key in E; [|assumption..]. now apply lex_lt_irrefl in E.
Qed.

Lemma deq_refl a : is_nan a = false -> deq a a = true.
Proof. intros Ha. now apply deq_key. Qed.

Lemma deq_sym a b : is_nan a = false -> is_nan b = false -> deq a b = deq b a.
Proof.
  intros Ha Hb. apply eq_bool_prop_intro. rewrite !Is_true_true, !deq_key by assumption.
  split; congruence.
Qed.

(** [a <= b] is the negation of [b < a]. *)
Lemma dle_negb a b : is_nan a = false -> is_nan b = false -> dle a b = negb (dlt b a).
Proof.
  intros Ha Hb. apply eq_bool_prop_intro. rewrite negb_True, !Is_true_true.
  rewrite dle_key, dlt_key by assumption. reflexivity.
Qed.

Lemma dle_trans a b c :
  is_nan a = false -> is_nan b = false -> is_nan c = false ->
  dle a b = true -> dle b c = true -> dle a c = true.
Proof.
  intros Ha Hb Hc. rewrite !dle_key by assumption. intros H1 H2 H3.
  destruct (lex_lt_total (dkey a) (dkey b)) as [H|[H|H]]; [|congruence|tauto].
  apply H2. now apply lex_lt_trans with (dkey a).
Qed.

(** Trichotomy, as the values of the three comparisons. *)
Lemma double_cases a b : is_nan a = false -> is_nan b = false ->
  (dlt a b = true /\ deq a b = false /\ dlt b a = false)
  \/ (dlt a b = false /\ deq a b = true /\ dlt b a = false)
  \/ (dlt a b = false /\ deq a b = false /\ dlt b a = true).
Proof.
  intros Ha Hb.
  destruct (lex_lt_total (dkey a) (dkey b)) as [H|[H|H]]; [left|right; left|right; right];
    split_and!; try (apply dlt_key; assumption); try (apply deq_key; assumption).
  all: match goal with
       | |- dlt _ _ = false => apply not_true_is_false; rewrite dlt_key by assumption
       | |- deq _ _ = false => apply not_true_is_false; rewrite deq_key by assumption
       end.
  all: try (now apply lex_lt_asym).
  all: try (rewrite H; apply lex_lt_irrefl).
  all: intros H'; rewrite H' in H; now apply lex_lt_irrefl in H.
Qed.

Lemma dlt_trans a b c : dlt a b = true -> dlt b c = true -> dlt a c = true.
Proof.
  intros H1 H2. pose proof (dlt_nan_l _ _ H1). pose proof (dlt_nan_l _ _ H2).
  pose proof (dlt_nan_r _ _ H2). rewrite !dlt_key in * by assumption.
  now apply lex_lt_trans with (dkey b).
Qed.

Lemma dlt_le_trans a b c : is_nan a = false -> is_nan b = false -> is_nan c = false ->
  dlt a b = true -> dle b c = true -> dlt a c = true.
Proof.
  intros Ha Hb Hc H1 H2. rewrite dle_negb in H2 by assumption. apply negb_true_iff in H2.
  destruct (double_cases a c Ha Hc) as [(H & _)|[(_ & H & _)|(_ & _ & H)]]; [exact H| |].
  - apply deq_key in H; [|assumption..]. apply dlt_key in H1; [|assumption..].
    rewrite H in H1. apply dlt_key in H1; [|assumption..]. congruence.
  - pose proof (dlt_trans _ _ _ H H1). congruence.
Qed.

Lemma dle_lt_trans a b c : is_nan a = false -> is_nan b = false -> is_nan c = false ->
  dle a b = true -> dlt b c = true -> dlt a c = true.
Proof.
  intros Ha Hb Hc H1 H2. rewrite dle_negb in H1 by assumption. apply negb_true_iff in H1.
  destruct (double_cases a c Ha Hc) as [(H & _)|[(_ & H & _)|(_ & _ & H)]]; [exact H| |].
  - apply deq_key in H; [|assumption..]. apply dlt_key in H2; [|assumption..].
    rewrite <- H in H2. apply dlt_key in H2; [|assumption..]. congruence.
  - pose proof (dlt_trans _ _ _ H2 H). congruence.
Qed.
