(* ===== verification/Ints.v ===== *)
(** * Integer types

    The integer types of C++: width and signedness, the range, the arithmetic of
    expressions (types narrower than [int] compute in [int], signed overflow is
    undefined behaviour, unsigned arithmetic wraps) and the conversions. *)

From Stdlib Require Import ZArith Lia List Bool.
From stdpp Require Import base tactics option.
From S2P Require Import Prelude.

Open Scope hj_scope.
Open Scope Z_scope.

Record ity := Ity { bits : Z; signed : bool }.

Definition t_min (t : ity) : Z := if signed t then - 2 ^ (bits t - 1) else 0.
Definition t_max (t : ity) : Z := if signed t then 2 ^ (bits t - 1) - 1 else 2 ^ bits t - 1.
Definition in_type (t : ity) (z : Z) : bool := (t_min t <=? z) && (z <=? t_max t).

(** The value of an arithmetic expression whose exact result is [z]. *)
Definition arith (t : ity) (z : Z) : option Z :=
  if bits t <? 32 then (if (- 2 ^ 31 <=? z) && (z <? 2 ^ 31) then Some z else None)
  else if signed t then (if in_type t z then Some z else None)
  else Some (wrap (bits t) z).

(** Conversion of a result back to the type. *)
Definition convert (t : ity) (z : Z) : Z :=
  if signed t then sint_of (bits t) z else wrap (bits t) z.

Definition add (t : ity) (a b : Z) : option Z := arith t (a + b).
Definition sub (t : ity) (a b : Z) : option Z := arith t (a - b).
Definition mul (t : ity) (a b : Z) : option Z := arith t (a * b).
(** Division by zero is undefined, and so is the quotient that overflows. *)
Definition div (t : ity) (a b : Z) : option Z :=
  if b =? 0 then None else arith t (Z.quot a b).

(** ** Conversions *)

(** Two's complement reads the low bits only, and reads back what fits. *)
Lemma sint_of_wrap w z : 0 < w -> sint_of w (wrap w z) = sint_of w z.
Proof.
  intros Hw. unfold sint_of. rewrite wrap_testbit by lia.
  replace (w - 1 <? w) with true by (symmetry; apply Z.ltb_lt; lia). now rewrite wrap_wrap by lia.
Qed.

Lemma sint_of_id w z : 0 < w -> sint w z -> sint_of w z = z.
Proof.
  unfold sint, sint_of. intros Hw [H1 H2]. assert (Hp : 2 ^ w = 2 * 2 ^ (w - 1)).
  { rewrite <- Z.pow_succ_r by lia. f_equal. lia. }
  destruct (Z.le_gt_cases 0 z) as [Hn|Hn].
  - assert (Hbit : Z.testbit z (w - 1) = false) by (apply (uint_testbit (w - 1)); [split; lia|lia]).
    rewrite Hbit. apply wrap_small. unfold uint. lia.
  - assert (Hbit : Z.testbit z (w - 1) = true).
    { replace z with (- - z) by lia. rewrite Z.bits_opp by lia. apply negb_true_iff.
      apply (uint_testbit (w - 1)); [split; lia|lia]. }
    rewrite Hbit. unfold wrap. rewrite <- (Z.mod_add z 1) by lia. rewrite Z.mod_small by lia. lia.
Qed.

Lemma wrap_sint_of w z : 0 < w -> wrap w (sint_of w z) = wrap w z.
Proof.
  intros Hw. unfold sint_of. destruct (Z.testbit z (w - 1)); [|now apply wrap_wrap; lia].
  unfold wrap. rewrite <- (Z.mod_add _ 1) by lia. replace (z mod 2 ^ w - 2 ^ w + 1 * 2 ^ w) with (z mod 2 ^ w) by lia.
  apply Z.mod_mod. lia.
Qed.

Lemma convert_id t z : 0 < bits t -> in_type t z = true -> convert t z = z.
Proof.
  unfold in_type, convert, t_min, t_max. intros Hb Hz. apply andb_true_iff in Hz as [H1 H2].
  apply Z.leb_le in H1, H2. destruct (signed t).
  - apply sint_of_id; [exact Hb|]. unfold sint. lia.
  - apply wrap_small. unfold uint. lia.
Qed.

Lemma arith_exact t z : 0 < bits t -> in_type t z = true -> arith t z = Some z.
Proof.
  intros Hb Hz. unfold arith. pose proof Hz as Hz'. unfold in_type, t_min, t_max in Hz'.
  apply andb_true_iff in Hz' as [H1 H2]. apply Z.leb_le in H1, H2.
  destruct (Z.ltb_spec (bits t) 32).
  - assert (Hle : 2 ^ bits t <= 2 ^ 31) by (apply Z.pow_le_mono_r; lia).
    assert (Hle' : 2 ^ (bits t - 1) <= 2 ^ bits t) by (apply Z.pow_le_mono_r; lia).
    replace ((- 2 ^ 31 <=? z) && (z <? 2 ^ 31)) with true; [reflexivity|].
    symmetry. apply andb_true_iff. rewrite Z.leb_le, Z.ltb_lt. destruct (signed t); lia.
  - destruct (signed t) eqn:Es; [now rewrite Hz|]. f_equal. apply wrap_small. unfold uint. lia.
Qed.
