(* ===== verification/Skiplist.v ===== *)
(** * Skip list: the structure and its operations

    [algo/skiplist.hpp].  Nodes live in a heap ([gmap] from addresses); a node
    has its object, its score, its [backward] pointer and a flexible array of
    levels, each with a [forward] pointer and a [span].  Every operation is in
    the option monad: [None] is undefined behaviour (a dangling or null
    pointer dereferenced, a level outside a node's array, an [update] slot
    outside the 32 of the C++ array or read before it was written, an unsigned
    subtraction below zero).  The proofs are in
    [SkiplistRep], [SkiplistInsert], [SkiplistDelete], [SkiplistSpec],
    [SkiplistThm] and [SkiplistQueries]. *)

From Stdlib Require Import ZArith Lia List Bool.
From Stdlib Require Import Floats.SpecFloat.
From stdpp Require Import base tactics list option gmap.
From S2P Require Import Prelude Doubles.

Open Scope hj_scope.
Open Scope nat_scope.

Definition SKIPLIST_MAXLEVEL : nat := 32.

Abbreviation addr := positive.

(** [node_t::level] *)
Record level := Level { forward : option addr; span : nat }.

Section Skiplist.
Context {T : Type} (T0 : T) (compare : T -> T -> bool).

Record node := Node
  { obj : T; score : double; backward : option addr; levels : list level }.

Abbreviation heap := (gmap addr node).

(** The class members: [_header], [_tail], [_length], [_level]; the heap is
    the memory the nodes are in. *)
Record skiplist := Skip
  { mem : heap; header : addr; tail : option addr; length_ : nat; level_ : nat }.

(** ** Memory access *)

Definition with_levels (n : node) (ls : list level) : node :=
  Node (obj n) (score n) (backward n) ls.
Definition with_backward (n : node) (b : option addr) : node :=
  Node (obj n) (score n) b (levels n).

(** [x->_level[i]] *)
Definition level_at (h : heap) (x : addr) (i : nat) : option level :=
  let* n := h !! x in levels n !! i.

(** [x->_level[i] = l] *)
Definition set_level (h : heap) (x : addr) (i : nat) (l : level) : option heap :=
  let* n := h !! x in
  if i <? length (levels n)
  then Some (<[x := with_levels n (<[i := l]> (levels n))]> h)
  else None.

(** [x->backward = b] *)
Definition set_backward (h : heap) (x : addr) (b : option addr) : option heap :=
  let* n := h !! x in Some (<[x := with_backward n b]> h).

(** [x->_level[i].forward] *)
Definition forward_at (h : heap) (x : addr) (i : nat) : option (option addr) :=
  let* l := level_at h x i in Some (forward l).

(** A local array [A arr[SKIPLIST_MAXLEVEL]]: slots are undefined until
    written, and writes stay inside it. *)
Definition array_set {A} (arr : gmap nat A) (i : nat) (v : A) : option (gmap nat A) :=
  if i <? SKIPLIST_MAXLEVEL then Some (<[i := v]> arr) else None.

(** [_create_node]: placement into a block of [lv] levels the allocator
    returned; the levels of a new node are written before they are read. *)
Definition create_node (lv : nat) (sc : double) (o : T) : node :=
  Node o sc None (replicate lv (Level None 0)).

(** [_free_node] *)
Definition free_node (h : heap) (x : addr) : option heap :=
  let* _ := h !! x in Some (delete x h).

(** The constructor: the allocator returns block [a]. *)
Definition make (a : addr) : skiplist :=
  Skip {[ a := create_node SKIPLIST_MAXLEVEL dzero T0 ]} a None 0 1.

Definition size (s : skiplist) : nat := length_ s.
Definition empty (s : skiplist) : bool := length_ s =? 0.
Definition first (s : skiplist) : option (option addr) := forward_at (mem s) (header s) 0.
Definition last (s : skiplist) : option addr := tail s.

(** ** Iterators: a node pointer, null at the end *)

Definition iter_next (h : heap) (current : option addr) : option (option addr) :=
  match current with None => Some None | Some x => forward_at h x 0 end.
Definition iter_prev (h : heap) (current : option addr) : option (option addr) :=
  match current with None => Some None | Some x => let* n := h !! x in Some (backward n) end.
Definition iter_score (h : heap) (current : option addr) : option double :=
  match current with None => Some dzero | Some x => let* n := h !! x in Some (score n) end.

(** ** The search loops

    [while(x->_level[i].forward && cond) { acc += span; x = forward; }].
    [cond h y sp acc] is the rest of the loop condition: [y] is the forward
    node, [sp] the span to it, [acc] the distance walked so far. *)

Definition cond := heap -> addr -> nat -> nat -> option bool.

Fixpoint walk (fuel : nat) (c : cond) (h : heap) (i : nat) (x : addr) (acc : nat)
  : option (addr * nat) :=
  match fuel with
  | O => None
  | S fuel =>
      let* l := level_at h x i in
      match forward l with
      | None => Some (x, acc)
      | Some y =>
          let* b := c h y (span l) acc in
          if b then walk fuel c h i y (acc + span l) else Some (x, acc)
      end
  end.

(** [for(int i = _level - 1; i >= 0; i--) { while ...; update[i] = x; }], with
    [rank[i]] the distance of [update[i]] from the header. *)
Fixpoint descend (fuel : nat) (c : cond) (h : heap) (i : nat) (x : addr) (acc : nat)
    (update : gmap nat addr) (rank : gmap nat nat)
  : option (addr * nat * gmap nat addr * gmap nat nat) :=
  match i with
  | O => Some (x, acc, update, rank)
  | S i =>
      let* (x, acc) := walk fuel c h i x acc in
      let* update := array_set update i x in
      let* rank := array_set rank i acc in
      descend fuel c h i x acc update rank
  end.

(** A walk visits each node at most once. *)
Definition fuel (s : skiplist) : nat := S (base.size (mem s)).

Definition search (c : cond) (s : skiplist) :=
  descend (fuel s) c (mem s) (level_ s) (header s) 0 ∅ ∅.

(** [forward->score < score || (forward->score == score && _compare(forward->obj, obj))] *)
Definition node_before (n : node) (sc : double) (o : T) : bool :=
  dlt (score n) sc || (deq (score n) sc && compare (obj n) o).
Definition cond_before (sc : double) (o : T) : cond := fun h y _ _ =>
  let* n := h !! y in Some (node_before n sc o).

(** [score == s && !_compare(obj, o) && !_compare(o, obj)] *)
Definition node_matches (n : node) (sc : double) (o : T) : bool :=
  deq (score n) sc && negb (compare (obj n) o) && negb (compare o (obj n)).

Definition cond_score_lt (sc : double) : cond := fun h y _ _ =>
  let* n := h !! y in Some (dlt (score n) sc).
Definition cond_score_le (sc : double) : cond := fun h y _ _ =>
  let* n := h !! y in Some (dle (score n) sc).
(** [(traversed + span - 1) < rank] *)
Definition cond_rank_lt (rank : nat) : cond := fun _ _ sp traversed =>
  let* r := nsub (traversed + sp) 1 in Some (r <? rank).
(** [traversed + span <= start] *)
Definition cond_rank_le (start : nat) : cond := fun _ _ sp traversed =>
  Some (traversed + sp <=? start).

(** ** Insertion *)

(** [_random_level]: [draw k] is the outcome of the [k]-th test
    [_dis(_gen) < SKIPLIST_P]. *)
Fixpoint random_level_loop (draw : nat -> bool) (k : nat) (lv room : nat) : nat :=
  match room with
  | O => lv
  | S room => if draw k then random_level_loop draw (S k) (S lv) room else lv
  end.
Definition random_level (draw : nat -> bool) : nat :=
  random_level_loop draw 0 1 (SKIPLIST_MAXLEVEL - 1).

(** Levels above the current one start at the header. *)
Definition grow_body (hd : addr) (len : nat) (i : nat)
    (st : heap * gmap nat addr * gmap nat nat) : option (heap * gmap nat addr * gmap nat nat) :=
  let '(h, update, rank) := st in
  let* rank := array_set rank i 0 in
  let* update := array_set update i hd in
  let* l := level_at h hd i in
  let* h := set_level h hd i (Level (forward l) len) in
  Some (h, update, rank).

(** Linking the new node [x] at level [i]. *)
Definition splice_body (x : addr) (update : gmap nat addr) (rank : gmap nat nat)
    (i : nat) (h : heap) : option heap :=
  let* u := update !! i in
  let* r0 := rank !! 0 in
  let* ri := rank !! i in
  let* lu := level_at h u i in
  let* lx := level_at h x i in
  let* h := set_level h x i (Level (forward lu) (span lx)) in
  let* h := set_level h u i (Level (Some x) (span lu)) in
  let* d := nsub r0 ri in
  let* sp := nsub (span lu) d in
  let* h := set_level h x i (Level (forward lu) sp) in
  set_level h u i (Level (Some x) (d + 1)).

(** [update[i]->_level[i].span++] *)
Definition bump_body (update : gmap nat addr) (i : nat) (h : heap) : option heap :=
  let* u := update !! i in
  let* lu := level_at h u i in
  set_level h u i (Level (forward lu) (S (span lu))).

(** [insert]: [a] is the block the allocator returns. *)
Definition insert (a : addr) (draw : nat -> bool) (sc : double) (o : T) (s : skiplist)
  : option (addr * skiplist) :=
  let* (_, _, update, rank) := search (cond_before sc o) s in
  let new_level := random_level draw in
  let* (h, update, rank) :=
    if level_ s <? new_level
    then for_up (grow_body (header s) (length_ s)) (level_ s) (new_level - level_ s)
           (mem s, update, rank)
    else Some (mem s, update, rank) in
  let lv := if level_ s <? new_level then new_level else level_ s in
  let h := <[a := create_node new_level sc o]> h in
  let* h := for_up (splice_body a update rank) 0 new_level h in
  let* h := for_up (bump_body update) new_level (lv - new_level) h in
  let* u0 := update !! 0 in
  let* h := set_backward h a (if decide (u0 = header s) then None else Some u0) in
  let* f := forward_at h a 0 in
  match f with
  | Some y =>
      let* h := set_backward h y (Some a) in
      Some (a, Skip h (header s) (tail s) (S (length_ s)) lv)
  | None => Some (a, Skip h (header s) (Some a) (S (length_ s)) lv)
  end.

(** ** Deletion *)

(** One level of [_delete_node_internal].  The source adds [x->span - 1] with
    unsigned wrap-around ([x->span] is 0 when [x] is last); the sum is
    computed here before the 1 is taken off. *)
Definition unlink_body (x : addr) (update : gmap nat addr) (i : nat) (h : heap) : option heap :=
  let* u := update !! i in
  let* lu := level_at h u i in
  if decide (forward lu = Some x) then
    let* lx := level_at h x i in
    let* sp := nsub (span lu + span lx) 1 in
    let* h := set_level h u i (Level (forward lu) sp) in
    set_level h u i (Level (forward lx) sp)
  else
    let* sp := nsub (span lu) 1 in
    set_level h u i (Level (forward lu) sp).

(** [while(_level > 1 && _header->_level[_level - 1].forward == nullptr) _level--;] *)
Fixpoint shrink (h : heap) (hd : addr) (lv : nat) : option nat :=
  match lv with
  | O => Some O
  | S lv' =>
      if 1 <? lv then
        let* f := forward_at h hd lv' in
        match f with None => shrink h hd lv' | Some _ => Some lv end
      else Some lv
  end.

(** [_delete_node_internal] *)
Definition delete_node_internal (x : addr) (update : gmap nat addr) (s : skiplist)
  : option skiplist :=
  let* h := for_up (unlink_body x update) 0 (level_ s) (mem s) in
  let* f := forward_at h x 0 in
  let* n := h !! x in
  let* (h, tl) :=
    match f with
    | Some y => let* h := set_backward h y (backward n) in Some (h, tail s)
    | None => Some (h, backward n)
    end in
  let* h := free_node h x in
  let* lv := shrink h (header s) (level_ s) in
  let* len := nsub (length_ s) 1 in
  Some (Skip h (header s) tl len lv).

(** [delete_node] *)
Definition delete_node (sc : double) (o : T) (s : skiplist) : option (bool * skiplist) :=
  let* (x, _, update, _) := search (cond_before sc o) s in
  let* f := forward_at (mem s) x 0 in
  match f with
  | Some y =>
      let* n := mem s !! y in
      if node_matches n sc o
      then let* s := delete_node_internal y update s in Some (true, s)
      else Some (false, s)
  | None => Some (false, s)
  end.

(** ** Ranks *)

Definition get_element_by_rank (rank : nat) (s : skiplist) : option (option addr) :=
  if length_ s <=? rank then Some None else
  let* (x, _, _, _) := search (cond_rank_lt rank) s in
  forward_at (mem s) x 0.

(** [get_rank]: at each level the walk is followed by a test of the next node,
    which ends the search early. *)
Fixpoint get_rank_loop (fuel : nat) (sc : double) (o : T) (h : heap) (i : nat)
    (x : addr) (rank : nat) (len : nat) : option nat :=
  match i with
  | O => Some len
  | S i =>
      let* (x, rank) := walk fuel (cond_before sc o) h i x rank in
      let* l := level_at h x i in
      match forward l with
      | Some y =>
          let* n := h !! y in
          if node_matches n sc o then nsub (rank + span l) 1
          else get_rank_loop fuel sc o h i x rank len
      | None => get_rank_loop fuel sc o h i x rank len
      end
  end.

Definition get_rank (sc : double) (o : T) (s : skiplist) : option nat :=
  get_rank_loop (fuel s) sc o (mem s) (level_ s) (header s) 0 (length_ s).

(** ** Score ranges *)

(** [_is_in_range] *)
Definition is_in_range (min_score max_score : double) (s : skiplist) : option bool :=
  if dlt max_score min_score then Some false else
  match tail s with
  | None => Some false
  | Some t =>
      let* nt := mem s !! t in
      if dlt (score nt) min_score then Some false else
      let* f := forward_at (mem s) (header s) 0 in
      match f with
      | None => Some false
      | Some x => let* nx := mem s !! x in Some (negb (dlt max_score (score nx)))
      end
  end.

Definition first_in_range (min_score max_score : double) (s : skiplist)
  : option (option addr) :=
  let* b := is_in_range min_score max_score s in
  if negb b then Some None else
  let* (x, _, _, _) := search (cond_score_lt min_score) s in
  let* f := forward_at (mem s) x 0 in
  match f with
  | None => Some None
  | Some y => let* n := mem s !! y in
      Some (if dlt max_score (score n) then None else Some y)
  end.

Definition last_in_range (min_score max_score : double) (s : skiplist)
  : option (option addr) :=
  let* b := is_in_range min_score max_score s in
  if negb b then Some None else
  let* (x, _, _, _) := search (cond_score_le max_score) s in
  let* n := mem s !! x in
  Some (if dlt (score n) min_score then None else Some x).

(** ** Range deletion *)

(** [while(x && keep) { next = x->_level[0].forward; _delete_node_internal(x,
    update); removed++; x = next; }] *)
Fixpoint delete_while (fuel : nat) (keep : node -> nat -> bool) (x : option addr)
    (update : gmap nat addr) (removed : nat) (s : skiplist) : option (nat * skiplist) :=
  match fuel with
  | O => None
  | S fuel =>
      match x with
      | None => Some (removed, s)
      | Some y =>
          let* n := mem s !! y in
          if keep n removed then
            let* next := forward_at (mem s) y 0 in
            let* s := delete_node_internal y update s in
            delete_while fuel keep next update (S removed) s
          else Some (removed, s)
      end
  end.

Definition delete_range_by_score (min_score max_score : double) (s : skiplist)
  : option (nat * skiplist) :=
  let* (x, _, update, _) := search (cond_score_lt min_score) s in
  let* f := forward_at (mem s) x 0 in
  delete_while (fuel s) (fun n _ => dle (score n) max_score) f update 0 s.

(** [current_rank = start + removed] along the loop. *)
Definition delete_range_by_rank (start end_ : nat) (s : skiplist) : option (nat * skiplist) :=
  if (end_ <? start) || (length_ s <=? start) then Some (0, s) else
  let end_ := if length_ s <=? end_ then length_ s - 1 else end_ in
  let* (x, _, update, _) := search (cond_rank_le start) s in
  let* f := forward_at (mem s) x 0 in
  delete_while (fuel s) (fun _ removed => start + removed <=? end_) f update 0 s.

(** ** Validation and release *)

Fixpoint validate_loop (fuel : nat) (h : heap) (x : option addr) (count len : nat)
  : option bool :=
  match fuel with
  | O => None
  | S fuel =>
      match x with
      | None => Some (count =? len)
      | Some y =>
          let* n := h !! y in
          let* f := forward_at h y 0 in
          match f with
          | Some z =>
              let* nz := h !! z in
              if dlt (score nz) (score n) then Some false
              else validate_loop fuel h f (S count) len
          | None => validate_loop fuel h f (S count) len
          end
      end
  end.

Definition validate (s : skiplist) : option bool :=
  let* f := forward_at (mem s) (header s) 0 in
  validate_loop (fuel s) (mem s) f 0 (length_ s).

Fixpoint release_loop (fuel : nat) (h : heap) (x : option addr) : option heap :=
  match fuel with
  | O => None
  | S fuel =>
      match x with
      | None => Some h
      | Some y =>
          let* next := forward_at h y 0 in
          let* h := free_node h y in
          release_loop fuel h next
      end
  end.

(** [release]: the nodes, then the header; the members keep their values. *)
Definition release (s : skiplist) : option skiplist :=
  let* f := forward_at (mem s) (header s) 0 in
  let* h := release_loop (fuel s) (mem s) f in
  let* h := free_node h (header s) in
  Some (Skip h (header s) (tail s) (length_ s) (level_ s)).

(** ** Range results: [range_by_score] and [range_by_rank] *)

Record range_result := RangeResult { nodes : list addr; total_in_range : nat }.

(** A loop over level 0 while the score is in range and [more] holds of the
    number of steps made. *)
Fixpoint scan (fuel : nat) (h : heap) (max_score : double) (more : nat -> bool)
    (x : option addr) (steps : nat) (acc : list addr) : option (option addr * nat * list addr) :=
  match fuel with
  | O => None
  | S fuel =>
      match x with
      | None => Some (None, steps, acc)
      | Some y =>
          let* n := h !! y in
          if dle (score n) max_score && more steps then
            let* f := forward_at h y 0 in
            scan fuel h max_score more f (S steps) (acc ++ [y])
          else Some (x, steps, acc)
      end
  end.

(** [limit] is a [long]; -1 is "no limit". *)
Definition range_by_score (s : skiplist) (min_score max_score : double)
    (offset : nat) (limit : Z) : option range_result :=
  let* x := first_in_range min_score max_score s in
  match x with
  | None => Some (RangeResult [] 0)
  | Some _ =>
      let* (x, skipped, _) :=
        scan (fuel s) (mem s) max_score (fun i => i <? offset) x 0 [] in
      let* (x, collected, ns) :=
        scan (fuel s) (mem s) max_score
          (fun c => (limit =? -1)%Z || (Z.of_nat c <? limit)%Z) x 0 [] in
      let* (_, rest, _) := scan (fuel s) (mem s) max_score (fun _ => true) x 0 [] in
      Some (RangeResult ns (skipped + collected + rest))
  end.

(** Collecting [get_element_by_rank] over a list of ranks. *)
Fixpoint collect_ranks (s : skiplist) (ranks : list nat) (r : range_result)
  : option range_result :=
  match ranks with
  | [] => Some r
  | k :: ranks =>
      let* x := get_element_by_rank k s in
      match x with
      | Some y => collect_ranks s ranks (RangeResult (nodes r ++ [y]) (S (total_in_range r)))
      | None => collect_ranks s ranks r
      end
  end.

Definition range_by_rank (s : skiplist) (start end_param : nat) (reverse : bool)
  : option range_result :=
  if (end_param <? start) || (size s <=? start) then Some (RangeResult [] 0) else
  let end_ := if size s <=? end_param then size s - 1 else end_param in
  let ranks := seq start (S end_ - start) in
  collect_ranks s (if reverse then rev ranks else ranks) (RangeResult [] 0).

End Skiplist.

Arguments node : clear implicits.
Arguments skiplist : clear implicits.

(** ** The model runs *)

Definition score_of (p : positive) : double := S754_finite false p 0.

Example insert_three :
  let lvl1 := fun _ : nat => false in
  let lvl2 := fun k => k =? 0 in
  (let* (_, s) := insert Nat.ltb 2 lvl2 (score_of 5) 50 (make 0 1) in
   let* (_, s) := insert Nat.ltb 3 lvl1 (score_of 3) 30 s in
   let* (_, s) := insert Nat.ltb 4 lvl2 (score_of 4) 40 s in
   let* r := get_rank Nat.ltb (score_of 4) 40 s in
   let* e := get_element_by_rank 2 s in
   let* (b, s') := delete_node Nat.ltb (score_of 3) 30 s in
   let* v := validate s' in
   let* r' := get_rank Nat.ltb (score_of 5) 50 s' in
   Some (r, e, b, v, r', level_ s)) = Some (1, Some 2%positive, true, true, 1, 2).
Proof. vm_compute. reflexivity. Qed.
