(* ===== verification/SkiplistRep.v ===== *)
(** * Skip list: representation

    What a heap must look like to hold a given sequence of entries.  A path is
    the list of the nodes in order, the header first; [nx p i k] is the
    position of the next node after position [k] that reaches level [i], and
    the level-[i] pointer of node [k] leads there, with the distance as span.
    The file proves how [nx] changes when one entry is inserted or removed and
    that the search loops stop at the boundary of a monotone condition. *)

From Stdlib Require Import ZArith Lia List Bool.
From stdpp Require Import base tactics list option gmap.
From S2P Require Import Prelude Doubles Skiplist.

Open Scope nat_scope.

(** ** Positions *)

Record entry (T : Type) := Entry
  { e_loc : addr; e_height : nat; e_score : double; e_obj : T }.
Arguments Entry {T}.
Arguments e_loc {T}.
Arguments e_height {T}.
Arguments e_score {T}.
Arguments e_obj {T}.

Section Positions.
Context {T : Type}.
Implicit Types (p : list (entry T)) (e v : entry T).

(** The node at position [k] reaches level [i]. *)
Definition tall p i k : Prop := exists e, p !! k = Some e /\ i < e_height e.

#[export] Instance tall_dec p i k : Decision (tall p i k).
Proof.
  destruct (p !! k) as [e|] eqn:E.
  - destruct (decide (i < e_height e)) as [H|H]; [left; exists e; auto|].
    right. intros (e' & E' & H'). rewrite E in E'. now simplify_eq.
  - right. intros (e' & E' & _). rewrite E in E'. discriminate.
Defined.

Fixpoint first_above (i : nat) p : nat :=
  match p with
  | [] => 0
  | e :: p => if i <? e_height e then 0 else S (first_above i p)
  end.

(** Next position after [k] that reaches level [i]; [length p] if there is
    none. *)
Definition nx p i k : nat := S k + first_above i (drop (S k) p).

(** Last position up to [k] that reaches level [i]. *)
Fixpoint pv p i k : nat :=
  if decide (tall p i k) then k else match k with O => O | S k => pv p i k end.

Definition is_nx p i k j : Prop :=
  k < j <= length p /\ (forall m, k < m < j -> ~ tall p i m) /\ (j < length p -> tall p i j).
Definition is_pv p i k q : Prop :=
  q <= k /\ tall p i q /\ (forall m, q < m <= k -> ~ tall p i m).

Lemma tall_lt p i k : tall p i k -> k < length p.
Proof. intros (e & H & _). now apply lookup_lt_Some in H. Qed.

Lemma first_above_spec i p :
  first_above i p <= length p
  /\ (forall m, m < first_above i p -> ~ tall p i m)
  /\ (first_above i p < length p -> tall p i (first_above i p)).
Proof.
  induction p as [|e p (H1 & H2 & H3)]; cbn [first_above length]; [repeat split; lia|].
  destruct (Nat.ltb_spec i (e_height e)) as [Hi|Hi].
  - split_and!; [lia|lia|]. intros _. now exists e.
  - split_and!; [lia| |].
    + intros [|m] Hm (e' & E & Hh); cbn in E; [simplify_eq; lia|].
      apply (H2 m); [lia|]. now exists e'.
    + intros Hlt. destruct H3 as (e' & E & Hh); [lia|]. now exists e'.
Qed.

Lemma nx_is p i k : k < length p -> is_nx p i k (nx p i k).
Proof.
  intros Hk. unfold nx. destruct (first_above_spec i (drop (S k) p)) as (H1 & H2 & H3).
  rewrite length_drop in *. split_and!; [lia|lia| |].
  - intros m Hm (e & E & Hh). apply (H2 (m - S k)); [lia|].
    exists e. rewrite lookup_drop. now replace (S k + (m - S k)) with m by lia.
  - intros Hlt. destruct H3 as (e & E & Hh); [lia|].
    exists e. now rewrite lookup_drop in E.
Qed.

Lemma is_nx_uniq p i k j j' : is_nx p i k j -> is_nx p i k j' -> j = j'.
Proof.
  intros (H1 & H2 & H3) (H1' & H2' & H3').
  destruct (Nat.lt_trichotomy j j') as [H|[H|H]]; [|assumption|].
  - exfalso. apply (H2' j); [lia|]. apply H3. lia.
  - exfalso. apply (H2 j'); [lia|]. apply H3'. lia.
Qed.

Lemma nx_uniq p i k j : is_nx p i k j -> nx p i k = j.
Proof.
  intros H. apply (is_nx_uniq p i k); [apply nx_is|exact H]. destruct H. lia.
Qed.

Lemma pv_is p i k : tall p i 0 -> is_pv p i k (pv p i k).
Proof.
  intros H0. induction k as [|k IH]; cbn [pv]; case_decide as Hd.
  - split_and!; [lia|assumption|lia].
  - contradiction.
  - split_and!; [lia|assumption|lia].
  - destruct IH as (H1 & H2 & H3). split_and!; [lia|assumption|].
    intros m Hm. destruct (decide (m = S k)) as [->|]; [assumption|]. apply H3. lia.
Qed.

Lemma is_pv_uniq p i k q q' : is_pv p i k q -> is_pv p i k q' -> q = q'.
Proof.
  intros (H1 & H2 & H3) (H1' & H2' & H3').
  destruct (Nat.lt_trichotomy q q') as [H|[H|H]]; [|assumption|].
  - exfalso. now apply (H3 q'); [lia|].
  - exfalso. now apply (H3' q); [lia|].
Qed.

Lemma pv_uniq p i k q : is_pv p i k q -> pv p i k = q.
Proof.
  intros H. destruct (decide (tall p i k)) as [Ht|Ht].
  - destruct k; cbn [pv]; rewrite decide_True by assumption.
    all: destruct H as (H1 & H2 & H3); destruct (decide (q = 0)).
    all: try lia.
    all: destruct (Nat.lt_trichotomy q (S k)) as [?|[?|?]]; try lia.
    all: exfalso; now apply (H3 (S k)); [lia|].
  - revert H. induction k as [|k IH]; intros (H1 & H2 & H3); cbn [pv].
    + rewrite decide_False by assumption. lia.
    + rewrite decide_False by assumption.
      destruct (decide (q = S k)) as [->|]; [contradiction|].
      destruct (decide (tall p i k)) as [Hk|Hk].
      * destruct k; cbn [pv]; rewrite decide_True by assumption.
        -- lia.
        -- destruct (decide (q = S k)); [lia|]. exfalso. now apply (H3 (S k)); [lia|].
      * apply IH; [assumption|]. split_and!; [lia|assumption|]. intros m Hm. apply H3. lia.
Qed.

(** From the last position of level [i] up to [m], the next one is the next
    one from [m]. *)
Lemma nx_pv p i m q : m < length p -> is_pv p i m q -> nx p i q = nx p i m.
Proof.
  intros Hm (H1 & H2 & H3). apply nx_uniq. destruct (nx_is p i m Hm) as (H4 & H5 & H6).
  split_and!; [lia|lia| |assumption].
  intros k Hk. destruct (decide (k <= m)); [apply H3; lia|apply H5; lia].
Qed.

Lemma nx_pv_gt p i m k : m < length p -> k <= m -> m < nx p i k -> tall p i k -> is_pv p i m k.
Proof.
  intros Hm Hk Hn Ht. split_and!; [assumption|assumption|].
  destruct (nx_is p i k) as (H1 & H2 & H3); [lia|]. intros j Hj. apply H2. lia.
Qed.

(** ** Inserting an entry after position [m] *)

Definition ins p m v : list (entry T) := take (S m) p ++ v :: drop (S m) p.

Lemma ins_low p m v k : m < length p -> k <= m -> ins p m v !! k = p !! k.
Proof.
  intros Hm Hk. unfold ins. rewrite lookup_app_l by (rewrite length_take; lia).
  apply lookup_take_lt. lia.
Qed.
Lemma ins_mid p m v : m < length p -> ins p m v !! S m = Some v.
Proof.
  intros Hm. unfold ins. rewrite lookup_app_r by (rewrite length_take; lia).
  rewrite length_take. now replace (S m - S m `min` length p) with 0 by lia.
Qed.
Lemma ins_high p m v k : m < length p -> m < k -> ins p m v !! S k = p !! k.
Proof.
  intros Hm Hk. unfold ins. rewrite lookup_app_r by (rewrite length_take; lia).
  rewrite length_take. replace (S k - S m `min` length p) with (S (k - S m)) by lia.
  change ((v :: drop (S m) p) !! S (k - S m)) with (drop (S m) p !! (k - S m)).
  rewrite lookup_drop. f_equal. lia.
Qed.
Lemma length_ins p m v : m < length p -> length (ins p m v) = S (length p).
Proof.
  intros Hm. unfold ins. rewrite length_app, length_take. cbn [length].
  rewrite length_drop. lia.
Qed.

Lemma tall_low p m v i k : m < length p -> k <= m -> tall (ins p m v) i k <-> tall p i k.
Proof. intros Hm Hk. unfold tall. now rewrite ins_low. Qed.
Lemma tall_mid p m v i : m < length p -> tall (ins p m v) i (S m) <-> i < e_height v.
Proof.
  intros Hm. unfold tall. rewrite ins_mid by assumption. split.
  - intros (e & E & H). now simplify_eq.
  - intros H. now exists v.
Qed.
Lemma tall_high p m v i k : m < length p -> m < k -> tall (ins p m v) i (S k) <-> tall p i k.
Proof. intros Hm Hk. unfold tall. now rewrite ins_high. Qed.

(** Case analysis of a position of the longer path. *)
Lemma ins_pos m k : k <= m \/ k = S m \/ exists j, k = S j /\ m < j.
Proof.
  destruct (decide (k <= m)); [auto|]. destruct (decide (k = S m)); [auto|].
  right; right. exists (k - 1). lia.
Qed.

Section Insertion.
Context p m v (Hm : m < length p).

Lemma nx_ins_low i k : k <= m -> nx p i k <= m -> nx (ins p m v) i k = nx p i k.
Proof.
  intros Hk Hn. apply nx_uniq. destruct (nx_is p i k) as (H1 & H2 & H3); [lia|].
  split_and!; [lia|rewrite length_ins by assumption; lia| |].
  - intros j Hj. rewrite tall_low by lia. apply H2. lia.
  - intros _. rewrite tall_low by lia. apply H3. lia.
Qed.

Lemma nx_ins_cross_tall i k : k <= m -> m < nx p i k -> i < e_height v ->
  nx (ins p m v) i k = S m.
Proof.
  intros Hk Hn Hv. apply nx_uniq. destruct (nx_is p i k) as (H1 & H2 & H3); [lia|].
  split_and!; [lia|rewrite length_ins by assumption; lia| |].
  - intros j Hj. rewrite tall_low by lia. apply H2. lia.
  - intros _. now apply tall_mid.
Qed.

Lemma nx_ins_cross_short i k : k <= m -> m < nx p i k -> e_height v <= i ->
  nx (ins p m v) i k = S (nx p i k).
Proof.
  intros Hk Hn Hv. apply nx_uniq. destruct (nx_is p i k) as (H1 & H2 & H3); [lia|].
  split_and!; [lia|rewrite length_ins by assumption; lia| |].
  - intros j Hj. destruct (ins_pos m j) as [?|[->|(j' & -> & ?)]].
    + rewrite tall_low by lia. apply H2. lia.
    + rewrite tall_mid by lia. lia.
    + rewrite tall_high by lia. apply H2. lia.
  - rewrite length_ins by assumption. intros Hj. rewrite tall_high by lia. apply H3. lia.
Qed.

Lemma nx_ins_new i : nx (ins p m v) i (S m) = S (nx p i m).
Proof.
  apply nx_uniq. destruct (nx_is p i m Hm) as (H1 & H2 & H3).
  split_and!; [lia|rewrite length_ins by assumption; lia| |].
  - intros j Hj. destruct (ins_pos m j) as [?|[->|(j' & -> & ?)]]; [lia|lia|].
    rewrite tall_high by lia. apply H2. lia.
  - rewrite length_ins by assumption. intros Hj. rewrite tall_high by lia. apply H3. lia.
Qed.

Lemma nx_ins_high i k : m < k < length p -> nx (ins p m v) i (S k) = S (nx p i k).
Proof.
  intros Hk. apply nx_uniq. destruct (nx_is p i k) as (H1 & H2 & H3); [lia|].
  split_and!; [lia|rewrite length_ins by assumption; lia| |].
  - intros j Hj. destruct (ins_pos m j) as [?|[->|(j' & -> & ?)]]; [lia|lia|].
    rewrite tall_high by lia. apply H2. lia.
  - rewrite length_ins by assumption. intros Hj. rewrite tall_high by lia. apply H3. lia.
Qed.

Lemma is_pv_ins i q : is_pv (ins p m v) i m q <-> is_pv p i m q.
Proof.
  unfold is_pv. split; intros (H1 & H2 & H3).
  - rewrite tall_low in H2 by lia. split_and!; [assumption|assumption|].
    intros j Hj. rewrite <- (tall_low p m v) by lia. now apply H3.
  - rewrite tall_low by lia. split_and!; [assumption|assumption|].
    intros j Hj. rewrite tall_low by lia. now apply H3.
Qed.
End Insertion.

(** Removing the entry after position [m] undoes an insertion. *)
Lemma ins_of_lookup p m v : p !! S m = Some v ->
  p = ins (take (S m) p ++ drop (S (S m)) p) m v
  /\ m < length (take (S m) p ++ drop (S (S m)) p).
Proof.
  intros H. pose proof (lookup_lt_Some _ _ _ H) as Hl.
  assert (Ht : length (take (S m) p) = S m) by (rewrite length_take; lia).
  split; [|rewrite length_app; lia]. unfold ins.
  rewrite take_app_length' by lia. rewrite drop_app_length' by lia.
  symmetry. now apply take_drop_middle.
Qed.
End Positions.

(** ** What can be read from a heap

    All that the operations read from a node: its fields, and each of its
    levels.  Writes are specified by their effect on these two. *)

Section Memory.
Context {T : Type}.
Implicit Types (h : gmap addr (node T)) (x y : addr).

Definition fields h x : option (T * double * option addr * nat) :=
  (fun n => (obj n, score n, backward n, length (levels n))) <$> h !! x.

Lemma level_at_lookup h x n i : h !! x = Some n -> level_at h x i = levels n !! i.
Proof. intros E. unfold level_at. now rewrite E. Qed.

Lemma level_at_None h x i : h !! x = None -> level_at h x i = None.
Proof. intros E. unfold level_at. now rewrite E. Qed.

Lemma set_level_spec h x i l l0 : level_at h x i = Some l0 ->
  exists h', set_level h x i l = Some h'
    /\ (forall y j, level_at h' y j = if decide (y = x /\ j = i) then Some l else level_at h y j)
    /\ (forall y, fields h' y = fields h y).
Proof.
  unfold level_at, set_level, fields. destruct (h !! x) as [n|] eqn:E; [|discriminate].
  intros Hl. pose proof (lookup_lt_Some _ _ _ Hl) as Hlt.
  apply Nat.ltb_lt in Hlt as Hb. rewrite Hb. eexists. split; [reflexivity|]. split.
  - intros y j. destruct (decide (y = x)) as [->|Hy].
    + rewrite lookup_insert_eq. cbn [with_levels levels]. rewrite E.
      destruct (decide (j = i)) as [->|Hj].
      * rewrite decide_True by auto. now apply list_lookup_insert_eq.
      * rewrite decide_False by tauto. now apply list_lookup_insert_ne.
    + rewrite decide_False by tauto. now rewrite lookup_insert_ne by congruence.
  - intros y. destruct (decide (y = x)) as [->|Hy].
    + rewrite lookup_insert_eq, E. cbn. now rewrite length_insert.
    + now rewrite lookup_insert_ne by congruence.
Qed.

Lemma set_backward_spec h x b o s b0 k : fields h x = Some (o, s, b0, k) ->
  exists h', set_backward h x b = Some h'
    /\ (forall y j, level_at h' y j = level_at h y j)
    /\ (forall y, fields h' y = if decide (y = x) then Some (o, s, b, k) else fields h y).
Proof.
  unfold level_at, set_backward, fields. destruct (h !! x) as [n|] eqn:E; [|discriminate].
  cbn. intros [= <- <- <- <-]. eexists. split; [reflexivity|]. split.
  - intros y j. destruct (decide (y = x)) as [->|Hy].
    + now rewrite lookup_insert_eq, E.
    + now rewrite lookup_insert_ne by congruence.
  - intros y. destruct (decide (y = x)) as [->|Hy].
    + now rewrite lookup_insert_eq.
    + now rewrite lookup_insert_ne by congruence.
Qed.

Lemma fields_Some h x : is_Some (fields h x) <-> is_Some (h !! x).
Proof. unfold fields. apply fmap_is_Some. Qed.

Lemma fields_dom h h' : (forall y, fields h' y = fields h y) ->
  forall y, is_Some (h' !! y) <-> is_Some (h !! y).
Proof. intros H y. now rewrite <- !fields_Some, H. Qed.

(** A loop over the levels whose [i]-th iteration writes level [i] only. *)
Lemma level_loop (f : nat -> gmap addr (node T) -> option (gmap addr (node T)))
    (target : addr -> nat -> option level) h0 lo n :
  (forall i h, lo <= i < lo + n ->
     (forall y, level_at h y i = level_at h0 y i) ->
     exists h', f i h = Some h'
       /\ (forall y j, level_at h' y j = if decide (j = i) then target y i else level_at h y j)
       /\ (forall y, fields h' y = fields h y)) ->
  exists h', for_up f lo n h0 = Some h'
    /\ (forall y i, level_at h' y i =
          if decide (lo <= i < lo + n) then target y i else level_at h0 y i)
    /\ (forall y, fields h' y = fields h0 y).
Proof.
  intros Hf.
  destruct (for_up_inv (fun i h =>
      (forall y j, level_at h y j =
         if decide (lo <= j < i) then target y j else level_at h0 y j)
      /\ (forall y, fields h y = fields h0 y)) f lo n h0) as (h' & E & H1 & H2).
  - split; [|done]. intros y j. now rewrite decide_False by lia.
  - intros i h Hi [H1 H2]. destruct (Hf i h Hi) as (h' & E & H3 & H4).
    { intros y. rewrite H1, decide_False by lia. reflexivity. }
    exists h'. split; [exact E|]. split.
    + intros y j. rewrite H3. destruct (decide (j = i)) as [->|Hj].
      * now rewrite decide_True by lia.
      * rewrite H1. destruct (decide (lo <= j < i)).
        -- now rewrite decide_True by lia.
        -- now rewrite decide_False by lia.
    + intros y. now rewrite H4.
  - exists h'. auto.
Qed.
End Memory.

(** ** Representation of a path *)

Section Rep.
Context {T : Type} (T0 : T).
Implicit Types (p : list (entry T)) (h : gmap addr (node T)) (s : skiplist T).

(** Target and span of the level-[i] pointer of position [k]. *)
Definition fw p i k : option addr := e_loc <$> p !! nx p i k.
Definition dist p i k : nat := (nx p i k `min` (length p - 1)) - k.
(** [backward] skips the header. *)
Definition back p k : option addr :=
  match k with S (S k) => e_loc <$> p !! S k | _ => None end.

Definition levels_ok h p lv : Prop :=
  forall k e i, p !! k = Some e -> i < e_height e ->
    exists l, level_at h (e_loc e) i = Some l /\ forward l = fw p i k
      /\ (i < lv -> span l = dist p i k).

Definition fields_ok h p : Prop :=
  forall k e, p !! k = Some e ->
    fields h (e_loc e) = Some (e_obj e, e_score e, back p k, e_height e).

Definition heights_ok p lv : Prop :=
  forall k e, p !! S k = Some e -> 1 <= e_height e <= lv.

Definition path_ok p hd : Prop :=
  p !! 0 = Some (Entry hd SKIPLIST_MAXLEVEL dzero T0) /\ NoDup (e_loc <$> p).

Record rep s p : Prop :=
  { rep_path : path_ok p (header s);
    rep_level : 1 <= level_ s <= SKIPLIST_MAXLEVEL;
    rep_heights : heights_ok p (level_ s);
    rep_fields : fields_ok (mem s) p;
    rep_levels : levels_ok (mem s) p (level_ s);
    rep_dom : forall x, is_Some (mem s !! x) -> x ∈ e_loc <$> p;
    rep_tail : tail s = back p (length p);
    rep_length : S (length_ s) = length p }.

(** *** Consequences *)

Lemma path_inj p hd k k' e e' : path_ok p hd ->
  p !! k = Some e -> p !! k' = Some e' -> e_loc e = e_loc e' -> k = k'.
Proof.
  intros [_ Hnd] H H' E. apply (NoDup_lookup (e_loc <$> p) k k' (e_loc e)); [exact Hnd| |].
  - now rewrite list_lookup_fmap, H.
  - rewrite list_lookup_fmap, H'. cbn. now rewrite E.
Qed.

Lemma path_tall0 p hd i : path_ok p hd -> i < SKIPLIST_MAXLEVEL -> tall p i 0.
Proof. intros [H0 _] Hi. eexists. split; [exact H0|]. exact Hi. Qed.

Lemma path_length p hd : path_ok p hd -> 0 < length p.
Proof. intros [H0 _]. now apply lookup_lt_Some in H0. Qed.

Lemma tall_0_pos p lv k : heights_ok p lv -> 0 < k < length p -> tall p 0 k.
Proof.
  intros Hh Hk. destruct k as [|k]; [lia|]. destruct (lookup_lt_is_Some_2 p (S k)) as [e E]; [lia|].
  exists e. split; [exact E|]. specialize (Hh k e E). lia.
Qed.

Lemma tall_0 p hd lv k : path_ok p hd -> heights_ok p lv -> k < length p -> tall p 0 k.
Proof.
  intros Hp Hh Hk. destruct k as [|k].
  - eapply path_tall0; [exact Hp|]. unfold SKIPLIST_MAXLEVEL. lia.
  - eapply tall_0_pos; [exact Hh|lia].
Qed.

Lemma nx_0 p hd lv k : path_ok p hd -> heights_ok p lv -> k < length p -> nx p 0 k = S k.
Proof.
  intros Hp Hh Hk. apply nx_uniq. split_and!; [lia|lia|lia|].
  intros Hlt. eapply tall_0; eauto.
Qed.

Lemma short_pv p hd lv i m : path_ok p hd -> heights_ok p lv -> lv <= i -> i < SKIPLIST_MAXLEVEL ->
  pv p i m = 0.
Proof.
  intros Hp Hh Hi Hi'. apply pv_uniq. split_and!; [lia|eapply path_tall0; eauto|].
  intros k Hk (e & E & H). destruct k as [|k]; [lia|]. specialize (Hh k e E). lia.
Qed.

Lemma short_nx p hd lv i k : path_ok p hd -> heights_ok p lv -> lv <= i -> k < length p ->
  nx p i k = length p.
Proof.
  intros Hp Hh Hi Hk. apply nx_uniq. split_and!; [lia|lia| |lia].
  intros j Hj (e & E & H). destruct j as [|j]; [lia|]. specialize (Hh j e E). lia.
Qed.

Lemma fw_Some p i k j e : nx p i k = j -> p !! j = Some e -> fw p i k = Some (e_loc e).
Proof. intros <- E. unfold fw. now rewrite E. Qed.

Lemma forward_at_rep h p lv k e i : levels_ok h p lv -> p !! k = Some e -> i < e_height e ->
  forward_at h (e_loc e) i = Some (fw p i k).
Proof.
  intros Hl E Hi. destruct (Hl k e i E Hi) as (l & El & Hf & _).
  unfold forward_at. now rewrite El, Hf.
Qed.

(** The level-0 pointer leads to the next position. *)
Lemma forward_0 h p hd lv k e : path_ok p hd -> heights_ok p lv -> levels_ok h p lv ->
  p !! k = Some e -> forward_at h (e_loc e) 0 = Some (e_loc <$> p !! S k).
Proof.
  intros Hp Hh Hl E. assert (Hk : k < length p) by now apply lookup_lt_Some in E.
  destruct (tall_0 p hd lv k Hp Hh Hk) as (e' & E' & Hi). rewrite E in E'. simplify_eq.
  rewrite (forward_at_rep h p lv k e' 0) by assumption.
  unfold fw. now rewrite (nx_0 p hd lv k).
Qed.

Lemma node_of_rep h p k e : fields_ok h p -> p !! k = Some e ->
  exists n, h !! e_loc e = Some n /\ obj n = e_obj e /\ score n = e_score e
    /\ backward n = back p k.
Proof.
  intros Hf E. specialize (Hf k e E). unfold fields in Hf.
  destruct (h !! e_loc e) as [n|]; [|discriminate]. cbn in Hf. injection Hf as <- <- <- _.
  now exists n.
Qed.
End Rep.

(** ** The search loops *)

Section Search.
Context {T : Type} (T0 : T).
Implicit Types (p : list (entry T)) (h : gmap addr (node T)) (s : skiplist T).

(** The loop condition holds exactly of the positions up to [m]. *)
Definition cond_ok h p (c : cond) m : Prop :=
  forall k k' e, k < k' -> k <= m -> p !! k' = Some e ->
    c h (e_loc e) (k' - k) k = Some (bool_decide (k' <= m)).

Lemma tall_le p i j k : tall p i k -> j <= i -> tall p j k.
Proof. intros (e & E & H) Hj. exists e. split; [exact E|lia]. Qed.

Lemma walk_spec h p hd lv c m i k e n :
  path_ok T0 p hd -> levels_ok h p lv -> cond_ok h p c m -> i < lv ->
  m < length p -> k <= m -> p !! k = Some e -> i < e_height e -> length p - k <= n ->
  exists q e', is_pv p i m q /\ p !! q = Some e' /\ walk n c h i (e_loc e) k = Some (e_loc e', q).
Proof.
  intros Hp Hl Hc Hi Hm. revert k e. induction n as [|n IH]; intros k e Hk E Hh Hn.
  { apply lookup_lt_Some in E. lia. }
  cbn [walk]. destruct (Hl k e i E Hh) as (l & -> & Hf & Hs). specialize (Hs Hi).
  pose proof (lookup_lt_Some _ _ _ E) as Hkl.
  destruct (nx_is p i k Hkl) as (H1 & H2 & H3). rewrite Hf. unfold fw.
  destruct (p !! nx p i k) as [e'|] eqn:E'; cbn [fmap option_fmap option_map].
  - pose proof (lookup_lt_Some _ _ _ E') as Hjl.
    assert (Hd : span l = nx p i k - k) by (rewrite Hs; unfold dist; lia).
    rewrite Hd, (Hc k (nx p i k) e') by (auto; lia). case_bool_decide as Hb.
    + destruct (IH (nx p i k) e') as (q & e2 & Hq & E2 & Hw); [lia|assumption| |lia|].
      { destruct (H3 Hjl) as (e2 & E2 & Hh2). rewrite E' in E2. now simplify_eq. }
      exists q, e2. split_and!; [exact Hq|exact E2|].
      now replace (k + (nx p i k - k)) with (nx p i k) by lia.
    + exists k, e. split_and!; [|exact E|reflexivity].
      apply nx_pv_gt; [lia|lia|lia|]. exists e. auto.
  - exists k, e. split_and!; [|exact E|reflexivity].
    apply nx_pv_gt; [lia|lia| |exists e; auto]. apply lookup_ge_None in E'. lia.
Qed.

Lemma descend_spec h p hd lv c m i k e n upd rk :
  path_ok T0 p hd -> levels_ok h p lv -> cond_ok h p c m -> i <= lv <= SKIPLIST_MAXLEVEL ->
  m < length p -> k <= m -> p !! k = Some e -> i <= e_height e -> length p <= n ->
  exists q e' upd' rk',
    descend n c h i (e_loc e) k upd rk = Some (e_loc e', q, upd', rk')
    /\ p !! q = Some e'
    /\ q = (if decide (i = 0) then k else pv p 0 m)
    /\ (forall j, j < i -> upd' !! j = e_loc <$> p !! pv p j m /\ rk' !! j = Some (pv p j m))
    /\ (forall j, i <= j -> upd' !! j = upd !! j /\ rk' !! j = rk !! j).
Proof.
  intros Hp Hl Hc Hi Hm. revert k e upd rk Hi.
  induction i as [|i IH]; intros k e upd rk Hi Hk E Hh Hn; cbn [descend].
  { exists k, e, upd, rk. split_and!; [reflexivity|exact E|reflexivity|lia|auto]. }
  destruct (walk_spec h p hd lv c m i k e n) as (q & e' & Hq & E' & ->);
    [exact Hp|exact Hl|exact Hc|lia|exact Hm|exact Hk|exact E|lia|lia|].
  assert (Hb : (i <? SKIPLIST_MAXLEVEL) = true) by (apply Nat.ltb_lt; lia).
  unfold array_set. rewrite Hb.
  destruct Hq as (Hq1 & (e2 & E2 & Hh2) & Hq3). rewrite E' in E2. simplify_eq.
  destruct (IH q e2 (<[i := e_loc e2]> upd) (<[i := q]> rk)) as
      (q' & e3 & upd' & rk' & -> & E3 & Hq' & Hlo & Hhi); [lia|lia|exact E'|lia|lia|].
  assert (Hpv : pv p i m = q).
  { apply pv_uniq. split_and!; [exact Hq1| |exact Hq3]. now exists e2. }
  exists q', e3, upd', rk'. split_and!; [reflexivity|exact E3| | |].
  - rewrite Hq', (decide_False (P := S i = 0)) by lia. destruct (decide (i = 0)) as [->|]; congruence.
  - intros j Hj. destruct (decide (j = i)) as [->|]; [|apply Hlo; lia].
    destruct (Hhi i) as [-> ->]; [lia|]. rewrite !lookup_insert_eq, Hpv, E'. auto.
  - intros j Hj. destruct (Hhi j) as [-> ->]; [lia|]. now rewrite !lookup_insert_ne by lia.
Qed.

(** The nodes of a path are distinct heap cells, so the fuel is enough. *)
Lemma fuel_enough s p : rep T0 s p -> length p < fuel s.
Proof.
  intros R. unfold fuel. rewrite <- size_dom. apply le_n_S.
  transitivity (base.size (list_to_set (e_loc <$> p) : gset addr)).
  - rewrite size_list_to_set by apply R. now rewrite length_fmap.
  - apply subseteq_size. intros x. rewrite elem_of_list_to_set, elem_of_dom.
    rewrite list_elem_of_fmap. intros (e & -> & He).
    apply list_elem_of_lookup in He as [k E].
    destruct (node_of_rep _ _ _ _ (rep_fields _ _ _ R) E) as (n & -> & _). eauto.
Qed.

Lemma search_spec s p c m : rep T0 s p -> m < length p -> cond_ok (mem s) p c m ->
  exists e upd rk, p !! m = Some e
    /\ search c s = Some (e_loc e, m, upd, rk)
    /\ (forall j, j < level_ s ->
          upd !! j = e_loc <$> p !! pv p j m /\ rk !! j = Some (pv p j m)).
Proof.
  intros R Hm Hc. pose proof (rep_path _ _ _ R) as [Hp0 _].
  pose proof (rep_level _ _ _ R) as Hlv. pose proof (fuel_enough s p R) as Hf.
  destruct (descend_spec (mem s) p (header s) (level_ s) c m (level_ s) 0
              (Entry (header s) SKIPLIST_MAXLEVEL dzero T0) (fuel s) ∅ ∅)
    as (q & e & upd & rk & Hd & E & Hq & Hlo & _);
    [apply R|apply R|exact Hc|lia|exact Hm|lia|exact Hp0|cbn; lia|lia|].
  rewrite decide_False in Hq by lia.
  assert (Hq' : pv p 0 m = m).
  { apply pv_uniq. split_and!; [lia| |lia].
    apply (tall_0 T0 p (header s) (level_ s)); [apply R|apply R|exact Hm]. }
  rewrite Hq' in Hq. subst q. exists e, upd, rk. auto.
Qed.
End Search.
