(* ===== verification/SkiplistInsert.v ===== *)
(** * Skip list: insertion

    [insert] succeeds on every represented path and leaves the path with the
    new entry after the last entry before it. *)

From Stdlib Require Import ZArith Lia List Bool.
From stdpp Require Import base tactics list option gmap.
From S2P Require Import Prelude Doubles Skiplist SkiplistRep.

Open Scope hj_scope.
Open Scope nat_scope.

Lemma random_level_loop_bounds draw k lv room :
  lv <= random_level_loop draw k lv room <= lv + room.
Proof.
  revert k lv. induction room as [|room IH]; intros k lv; cbn [random_level_loop]; [lia|].
  destruct (draw k); [|lia]. specialize (IH (S k) (S lv)). lia.
Qed.

Lemma random_level_bounds draw : 1 <= random_level draw <= SKIPLIST_MAXLEVEL.
Proof.
  pose proof (random_level_loop_bounds draw 0 1 (SKIPLIST_MAXLEVEL - 1)) as H.
  unfold random_level, SKIPLIST_MAXLEVEL in *. lia.
Qed.

Section Insert.
Context {T : Type} (T0 : T) (compare : T -> T -> bool).
Implicit Types (p : list (entry T)) (h : gmap addr (node T)) (s : skiplist T).

(** The arrays a search leaves: the predecessors of the boundary. *)
Definition arrays_ok p m lv (upd : gmap nat addr) (rk : gmap nat nat) : Prop :=
  forall j, j < lv -> upd !! j = e_loc <$> p !! pv p j m /\ rk !! j = Some (pv p j m).

(** ** Raising the level of the list *)

Lemma grow_spec s p m upd rk new : rep T0 s p -> m < length p ->
  arrays_ok p m (level_ s) upd rk -> level_ s <= new <= SKIPLIST_MAXLEVEL ->
  exists h' upd' rk',
    for_up (grow_body (header s) (length_ s)) (level_ s) (new - level_ s) (mem s, upd, rk)
      = Some (h', upd', rk')
    /\ (forall y, fields h' y = fields (mem s) y)
    /\ levels_ok h' p new /\ arrays_ok p m new upd' rk'.
Proof.
  intros R Hm Ha Hnew. pose proof (rep_path _ _ _ R) as Hp. pose proof (rep_heights _ _ _ R) as Hh.
  destruct (for_up_inv (fun i '(h, u, r) =>
      (forall y, fields h y = fields (mem s) y) /\ levels_ok h p i /\ arrays_ok p m i u r)
      (grow_body (header s) (length_ s)) (level_ s) (new - level_ s) (mem s, upd, rk))
    as ([[h' u'] r'] & E & H1 & H2 & H3).
  - split_and!; [reflexivity|apply R|exact Ha].
  - intros i [[h u] r] Hi (H1 & H2 & H3).
    assert (Hb : (i <? SKIPLIST_MAXLEVEL) = true) by (apply Nat.ltb_lt; lia).
    unfold grow_body, array_set. rewrite Hb. destruct Hp as [Hp0 Hnd].
    destruct (H2 0 _ i Hp0) as (l & El & Hf & _); [cbn; lia|]. cbn in El. rewrite El.
    destruct (set_level_spec h (header s) i (Level (forward l) (length_ s)) l El)
      as (h' & -> & Hl' & Hf').
    exists (h', <[i := header s]> u, <[i := 0]> r). split_and!; [reflexivity| | |].
    + intros y. now rewrite Hf'.
    + intros k e j E Hj. rewrite Hl'. case_decide as Hd.
      * destruct Hd as [Hd ->]. assert (k = 0) as ->.
        { eapply (path_inj T0 p (header s)); [split; eassumption|exact E|exact Hp0|exact Hd]. }
        rewrite Hp0 in E. simplify_eq. exists (Level (forward l) (length_ s)).
        split_and!; [reflexivity|exact Hf|]. intros _. cbn [span]. unfold dist.
        rewrite (short_nx T0 p (header s) (level_ s)); [|split; assumption|assumption|lia|].
        -- pose proof (rep_length _ _ _ R). lia.
        -- now apply lookup_lt_Some in Hp0.
      * destruct (H2 k e j E Hj) as (l' & -> & Hfw & Hs). exists l'.
        split_and!; [reflexivity|exact Hfw|]. intros Hj'. apply Hs.
        destruct (decide (j = i)) as [->|]; [|lia]. exfalso. destruct k as [|k].
        -- rewrite Hp0 in E. simplify_eq. now apply Hd.
        -- specialize (Hh k e E). lia.
    + intros j Hj. destruct (decide (j = i)) as [->|Hji].
      * rewrite !lookup_insert_eq.
        rewrite (short_pv T0 p (header s) (level_ s)) by (try (split; assumption); auto; lia).
        now rewrite Hp0.
      * rewrite !lookup_insert_ne by lia. apply H3. lia.
  - replace (level_ s + (new - level_ s)) with new in * by lia.
    exists h', u', r'. auto.
Qed.

(** ** Linking the new node *)

Definition splice_target p m (a : addr) h (y : addr) (i : nat) : option level :=
  let q := pv p i m in
  if decide (y = a) then Some (Level (fw p i q) (dist p i q - (m - q)))
  else if decide (Some y = e_loc <$> p !! q) then Some (Level (Some a) (m - q + 1))
  else level_at h y i.

Definition bump_target p m h (y : addr) (i : nat) : option level :=
  let q := pv p i m in
  if decide (Some y = e_loc <$> p !! q) then Some (Level (fw p i q) (S (dist p i q)))
  else level_at h y i.

(** The predecessor of the boundary at level [i], as a heap cell. *)
Lemma pred_cell p hd h lv i m : path_ok T0 p hd -> levels_ok h p lv -> i < lv ->
  i < SKIPLIST_MAXLEVEL ->
  exists e l, p !! pv p i m = Some e /\ level_at h (e_loc e) i = Some l
    /\ forward l = fw p i (pv p i m) /\ span l = dist p i (pv p i m).
Proof.
  intros Hp Hl Hi Hi'. destruct (pv_is p i m) as (H1 & (e & E & Hh) & _).
  { eapply path_tall0; eauto. }
  destruct (Hl _ e i E Hh) as (l & El & Hf & Hs). exists e, l. auto.
Qed.

(** Boundary arithmetic: the next node after a predecessor lies beyond the
    boundary. *)
Lemma pred_bounds p hd i m : path_ok T0 p hd -> i < SKIPLIST_MAXLEVEL -> m < length p ->
  pv p i m <= m /\ nx p i (pv p i m) = nx p i m /\ m < nx p i m <= length p.
Proof.
  intros Hp Hi Hm. pose proof (pv_is p i m (path_tall0 _ _ _ _ Hp Hi)) as Hq.
  split_and!; [apply Hq|now apply nx_pv| |]; now destruct (nx_is p i m Hm) as (? & _); lia.
Qed.

Lemma splice_spec p hd m a h2 lv upd rk new :
  path_ok T0 p hd -> levels_ok h2 p lv -> m < length p -> heights_ok p lv ->
  arrays_ok p m lv upd rk -> 1 <= new <= lv -> lv <= SKIPLIST_MAXLEVEL ->
  a ∉ e_loc <$> p -> (forall i, i < new -> is_Some (level_at h2 a i)) ->
  exists h3, for_up (splice_body a upd rk) 0 new h2 = Some h3
    /\ (forall y i, level_at h3 y i =
          if decide (i < new) then splice_target p m a h2 y i else level_at h2 y i)
    /\ (forall y, fields h3 y = fields h2 y).
Proof.
  intros Hp Hl Hm Hh Ha Hnew Hlv Hfresh Hal.
  destruct (level_loop (splice_body a upd rk) (splice_target p m a h2) h2 0 new)
    as (h3 & E & H1 & H2).
  - intros i h Hi Hag.
    destruct (Ha i) as [Hu Hr]; [lia|]. destruct (Ha 0) as [_ Hr0]; [lia|].
    destruct (pred_cell p hd h2 lv i m) as (e & lu & Ee & Elu & Hfw & Hsp); [exact Hp|exact Hl|lia|lia|].
    destruct (Hal i) as [lx Elx]; [lia|].
    destruct (pred_bounds p hd i m Hp) as (Hq & Hnx & Hb); [lia|exact Hm|].
    assert (Hpv0 : pv p 0 m = m).
    { apply pv_uniq. split_and!; [lia|eapply (tall_0 T0); eauto|lia]. }
    assert (Hue : e_loc e <> a).
    { intros <-. apply Hfresh. rewrite list_elem_of_fmap. exists e.
      split; [reflexivity|]. now apply list_elem_of_lookup_2 with (pv p i m). }
    unfold splice_body. rewrite Hu, Ee, Hr0, Hr, Hpv0. cbn [fmap option_fmap option_map].
    rewrite !Hag, Elu, Elx.
    destruct (set_level_spec h a i (Level (forward lu) (span lx)) lx) as (h1 & -> & L1 & F1);
      [now rewrite Hag|].
    destruct (set_level_spec h1 (e_loc e) i (Level (Some a) (span lu)) lu) as (h1' & -> & L2 & F2).
    { rewrite L1, decide_False by tauto. now rewrite Hag. }
    unfold nsub. replace (pv p i m <=? m) with true by (symmetry; apply Nat.leb_le; lia).
    assert (Hd : m - pv p i m <= dist p i (pv p i m)) by (unfold dist; lia).
    rewrite Hsp. apply Nat.leb_le in Hd as ->.
    destruct (set_level_spec h1' a i
      (Level (forward lu) (dist p i (pv p i m) - (m - pv p i m))) (Level (forward lu) (span lx)))
      as (h2' & -> & L3 & F3).
    { rewrite L2, decide_False by (intros [? _]; congruence). rewrite L1, decide_True by tauto.
      reflexivity. }
    destruct (set_level_spec h2' (e_loc e) i (Level (Some a) (m - pv p i m + 1))
      (Level (Some a) (span lu))) as (h3' & -> & L4 & F4).
    { rewrite L3, decide_False by tauto. rewrite L2, decide_True by tauto. now rewrite Hsp. }
    exists h3'. split_and!; [reflexivity| |].
    + intros y j. destruct (decide (j = i)) as [->|Hj].
      2: { now rewrite L4, L3, L2, L1, !(decide_False (P := _ /\ j = i)) by tauto. }
      unfold splice_target. rewrite Ee. cbn [fmap option_fmap option_map].
      destruct (decide (y = e_loc e)) as [->|Hyu].
      * rewrite L4, decide_True by auto.
        now rewrite decide_False, decide_True by congruence.
      * rewrite L4, (decide_False (P := y = e_loc e /\ i = i)) by tauto.
        rewrite (decide_False (P := Some y = _)) by congruence. rewrite L3.
        destruct (decide (y = a)) as [->|Hya].
        -- rewrite decide_True by auto. now rewrite Hfw.
        -- now rewrite L2, L1, !decide_False by tauto.
    + intros y. now rewrite F4, F3, F2, F1.
  - exists h3. split_and!; [exact E| |exact H2]. intros y i. rewrite H1. cbn.
    destruct (decide (i < new)); [rewrite decide_True by lia|rewrite decide_False by lia]; reflexivity.
Qed.

Lemma bump_spec p hd m h2 h3 lv upd rk new :
  path_ok T0 p hd -> levels_ok h2 p lv -> arrays_ok p m lv upd rk ->
  new <= lv <= SKIPLIST_MAXLEVEL ->
  (forall y i, new <= i -> level_at h3 y i = level_at h2 y i) ->
  exists h4, for_up (bump_body upd) new (lv - new) h3 = Some h4
    /\ (forall y i, level_at h4 y i =
          if decide (new <= i < lv) then bump_target p m h2 y i else level_at h3 y i)
    /\ (forall y, fields h4 y = fields h3 y).
Proof.
  intros Hp Hl Ha Hnew H3.
  destruct (level_loop (bump_body upd) (bump_target p m h2) h3 new (lv - new))
    as (h4 & E & H1 & H2).
  - intros i h Hi Hag. destruct (Ha i) as [Hu _]; [lia|].
    destruct (pred_cell p hd h2 lv i m) as (e & lu & Ee & Elu & Hfw & Hsp);
      [exact Hp|exact Hl|lia|lia|].
    assert (Elu' : level_at h (e_loc e) i = Some lu) by (rewrite Hag, H3 by lia; exact Elu).
    unfold bump_body. rewrite Hu, Ee. cbn [fmap option_fmap option_map]. rewrite Elu'.
    destruct (set_level_spec h (e_loc e) i (Level (forward lu) (S (span lu))) lu Elu')
      as (h' & -> & L & F).
    exists h'. split_and!; [reflexivity| |exact F]. intros y j. rewrite L.
    destruct (decide (j = i)) as [->|Hj]; [|now rewrite decide_False by tauto].
    unfold bump_target. rewrite Ee. cbn [fmap option_fmap option_map].
    destruct (decide (y = e_loc e)) as [->|Hy].
    + rewrite !decide_True by auto. now rewrite Hfw, Hsp.
    + rewrite !decide_False by (try tauto; congruence). now rewrite Hag, H3 by lia.
  - exists h4. split_and!; [exact E| |exact H2]. intros y i. rewrite H1.
    now replace (new + (lv - new)) with lv by lia.
Qed.

(** ** The new layout *)

(** Where the entry of position [k] of the old path goes. *)
Lemma pred_or_low p hd m k i : path_ok T0 p hd -> i < SKIPLIST_MAXLEVEL -> m < length p ->
  k <= m -> tall p i k ->
  k = pv p i m \/ (k <> pv p i m /\ nx p i k <= m).
Proof.
  intros Hp Hi Hm Hk Ht. destruct (decide (nx p i k <= m)) as [Hn|Hn].
  - right. split; [|exact Hn]. intros ->.
    destruct (pred_bounds p hd i m Hp Hi Hm) as (_ & E & Hb). lia.
  - left. symmetry. apply pv_uniq, nx_pv_gt; [exact Hm|exact Hk|lia|exact Ht].
Qed.

Lemma not_pred p hd m k e i : path_ok T0 p hd -> p !! k = Some e -> k <> pv p i m ->
  Some (e_loc e) <> e_loc <$> p !! pv p i m.
Proof.
  intros Hp E Hk Hd. apply Hk. symmetry in Hd. apply fmap_Some in Hd as (e' & E' & El).
  eapply path_inj; eauto.
Qed.

Lemma fresh_loc p a k e : a ∉ e_loc <$> p -> p !! k = Some e -> e_loc e <> a.
Proof.
  intros Hf E <-. apply Hf. rewrite list_elem_of_fmap. exists e.
  split; [reflexivity|]. now apply list_elem_of_lookup_2 with k.
Qed.

(** A level pointer whose target is at or before the boundary keeps its
    target; one beyond it moves by one position. *)
Lemma fw_ins_low p m v i k : m < length p -> nx p i k <= m ->
  k <= m -> fw (ins p m v) i k = fw p i k.
Proof.
  intros Hm Hn Hk. unfold fw. rewrite nx_ins_low by lia. now rewrite ins_low by lia.
Qed.
Lemma fw_shift p m v i k k' : m < length p -> m < nx p i k ->
  nx (ins p m v) i k' = S (nx p i k) -> fw (ins p m v) i k' = fw p i k.
Proof. intros Hm Hn Hk. unfold fw. rewrite Hk. now rewrite ins_high by lia. Qed.

Lemma layout_spec p hd m a new sc o h2 h4 lv :
  path_ok T0 p hd -> levels_ok h2 p lv -> m < length p -> 1 <= new <= lv ->
  lv <= SKIPLIST_MAXLEVEL -> a ∉ e_loc <$> p ->
  (forall k e, p !! k = Some e -> e_height e <= SKIPLIST_MAXLEVEL) ->
  (forall y i, level_at h4 y i =
     if decide (i < new) then splice_target p m a h2 y i
     else if decide (i < lv) then bump_target p m h2 y i else level_at h2 y i) ->
  levels_ok h4 (ins p m (Entry a new sc o)) lv.
Proof.
  intros Hp Hl Hm Hnew Hlv Hfresh Htall H4 k e i E Hi. rewrite H4.
  assert (Hlen : length (ins p m (Entry a new sc o)) = S (length p)) by now apply length_ins.
  destruct (ins_pos m k) as [Hk|[->|(k' & -> & Hk)]].
  - (* an entry up to the boundary *)
    rewrite ins_low in E by lia. pose proof (Htall k e E) as Hht.
    destruct (Hl k e i E Hi) as (l & El & Hf & Hs).
    assert (Hik : tall p i k) by (exists e; auto).
    assert (Hi32 : i < SKIPLIST_MAXLEVEL) by lia.
    destruct (pred_bounds p hd i m Hp Hi32 Hm) as (Hq & Hnx & Hb).
    destruct (pred_or_low p hd m k i Hp Hi32 Hm Hk Hik) as [Hkq|[Hkq Hn]].
    + rewrite <- Hkq in *. assert (Hpred : Some (e_loc e) = e_loc <$> p !! k) by now rewrite E.
      unfold splice_target, bump_target. rewrite <- Hkq, <- Hpred.
      rewrite (decide_False (P := e_loc e = a)) by (eapply fresh_loc; eauto).
      rewrite !(decide_True (P := Some (e_loc e) = Some (e_loc e))) by reflexivity.
      unfold fw, dist.
      rewrite Hlen. destruct (decide (i < new)) as [Hin|Hin]; [|destruct (decide (i < lv)) as [Hil|Hil]].
      * rewrite nx_ins_cross_tall by (cbn [e_height]; lia).
        eexists. split_and!; [reflexivity| |].
        -- cbn [forward]. now rewrite ins_mid.
        -- cbn [span]. intros _. lia.
      * rewrite nx_ins_cross_short by (cbn [e_height]; lia).
        eexists. split_and!; [reflexivity| |].
        -- cbn [forward]. now rewrite ins_high by lia.
        -- cbn [span]. intros _. lia.
      * exists l. rewrite nx_ins_cross_short by (cbn [e_height]; lia). split_and!; [exact El| |lia].
        rewrite ins_high by lia. exact Hf.
    + unfold splice_target, bump_target.
      rewrite (decide_False (P := e_loc e = a)) by (eapply fresh_loc; eauto).
      rewrite !(decide_False (P := Some (e_loc e) = _)) by (eapply not_pred; eauto).
      exists l. split_and!; [repeat case_decide; exact El|now rewrite fw_ins_low|].
      intros Hil. rewrite (Hs Hil). unfold dist. rewrite nx_ins_low by lia. lia.
  - (* the new entry *)
    rewrite ins_mid in E by lia. simplify_eq. cbn [e_loc e_height] in *.
    rewrite decide_True by lia. unfold splice_target. rewrite decide_True by reflexivity.
    destruct (pred_bounds p hd i m Hp) as (Hq & Hnx & Hb); [lia|exact Hm|].
    eexists. split_and!; [reflexivity| |].
    + cbn [forward]. unfold fw at 1. rewrite Hnx. symmetry.
      unfold fw. rewrite nx_ins_new by assumption. now rewrite ins_high by lia.
    + cbn [span]. intros _. unfold dist. rewrite Hlen, nx_ins_new, Hnx by assumption. lia.
  - (* an entry beyond the boundary *)
    rewrite ins_high in E by lia. destruct (Hl k' e i E Hi) as (l & El & Hf & Hs).
    pose proof (Htall k' e E) as Hht. pose proof (lookup_lt_Some _ _ _ E) as Hlt.
    destruct (pred_bounds p hd i m Hp) as (Hq & Hnx & Hb); [lia|exact Hm|].
    unfold splice_target, bump_target.
    rewrite (decide_False (P := e_loc e = a)) by (eapply fresh_loc; eauto).
    rewrite !(decide_False (P := Some (e_loc e) = _)) by (eapply not_pred; eauto; lia).
    assert (Hnk : m < nx p i k') by (destruct (nx_is p i k' Hlt) as (? & _); lia).
    exists l. split_and!; [repeat case_decide; exact El| |].
    + rewrite Hf. symmetry. apply fw_shift; [assumption|assumption|]. apply nx_ins_high; lia.
    + intros Hil. rewrite (Hs Hil). unfold dist. rewrite Hlen, nx_ins_high by lia. lia.
Qed.

(** ** Fields of the new path *)

Lemma back_ins_low p m v k : m < length p -> k <= S m -> back (ins p m v) k = back p k.
Proof. intros Hm Hk. destruct k as [|[|k]]; cbn [back]; try done. now rewrite ins_low by lia. Qed.

Lemma back_ins_high p m v k : m < length p -> S m < k -> back (ins p m v) (S k) = back p k.
Proof.
  intros Hm Hk. destruct k as [|[|k]]; cbn [back]; try lia. now rewrite ins_high by lia.
Qed.

Lemma back_ins_next p m v : m < length p -> back (ins p m v) (S (S m)) = Some (e_loc v).
Proof. intros Hm. cbn [back]. now rewrite ins_mid. Qed.

Lemma ins_locs p m v : e_loc <$> ins p m v
  = take (S m) (e_loc <$> p) ++ e_loc v :: drop (S m) (e_loc <$> p).
Proof. unfold ins. now rewrite fmap_app, fmap_cons, fmap_take, fmap_drop. Qed.

Lemma ins_perm p m v : e_loc <$> ins p m v ≡ₚ e_loc v :: (e_loc <$> p).
Proof.
  rewrite ins_locs. rewrite <- Permutation_middle. constructor. now rewrite take_drop.
Qed.

Lemma ins_path_ok p hd m v : path_ok T0 p hd -> m < length p -> e_loc v ∉ e_loc <$> p ->
  path_ok T0 (ins p m v) hd.
Proof.
  intros [H0 Hnd] Hm Hv. split; [now rewrite ins_low by lia|].
  rewrite ins_perm. now constructor.
Qed.

Lemma ins_heights_ok p lv m v : heights_ok p lv -> m < length p -> 1 <= e_height v <= lv ->
  heights_ok (ins p m v) lv.
Proof.
  intros Hh Hm Hv k e E. destruct (ins_pos m (S k)) as [Hk|[Hk|(j & Hj & Hk)]].
  - rewrite ins_low in E by lia. eapply Hh; eauto.
  - rewrite Hk, ins_mid in E by lia. now simplify_eq.
  - rewrite Hj, ins_high in E by lia. destruct j as [|j]; [lia|]. eapply Hh; eauto.
Qed.

(** The successor's [backward] pointer, and the tail when there is none. *)
Lemma relink_spec h p hd m v tl : path_ok T0 p hd -> m < length p -> e_loc v ∉ e_loc <$> p ->
  (forall k e, k <= S m -> ins p m v !! k = Some e ->
     fields h (e_loc e) = Some (e_obj e, e_score e, back (ins p m v) k, e_height e)) ->
  (forall k e, m < k -> p !! k = Some e ->
     fields h (e_loc e) = Some (e_obj e, e_score e, back p k, e_height e)) ->
  tl = back p (length p) ->
  exists h', (match e_loc <$> p !! S m with
              | Some y => let* w := set_backward h y (Some (e_loc v)) in Some (w, tl)
              | None => Some (h, Some (e_loc v))
              end) = Some (h', back (ins p m v) (S (length p)))
    /\ fields_ok h' (ins p m v)
    /\ (forall y i, level_at h' y i = level_at h y i)
    /\ (forall y, is_Some (fields h' y) <-> is_Some (fields h y)).
Proof.
  intros Hp Hm Hv Hlow Hhigh ->. pose proof (ins_path_ok p hd m v Hp Hm Hv) as Hp'.
  destruct (p !! S m) as [e|] eqn:E; cbn [fmap option_fmap option_map].
  - pose proof (lookup_lt_Some _ _ _ E) as Hlt.
    destruct (set_backward_spec h (e_loc e) (Some (e_loc v)) _ _ _ _ (Hhigh _ _ (Nat.lt_succ_diag_r m) E))
      as (h' & -> & Hl & Hf).
    exists h'. rewrite back_ins_high by lia. split_and!; [reflexivity| |exact Hl|].
    + intros k e' E'. rewrite Hf.
      assert (Ee : ins p m v !! S (S m) = Some e) by now rewrite ins_high by lia.
      case_decide as Hd.
      * assert (k = S (S m)) as -> by (eapply path_inj; eauto).
        rewrite back_ins_next by lia. rewrite Ee in E'. now simplify_eq.
      * destruct (ins_pos m k) as [Hk|[->|(j & -> & Hk)]]; [apply Hlow; [lia|exact E']..|].
        rewrite ins_high in E' by lia. rewrite (Hhigh j) by auto.
        assert (j <> S m) by (intros ->; congruence). now rewrite back_ins_high by lia.
    + intros y. rewrite Hf. case_decide as Hd; [|reflexivity]. subst.
      rewrite (Hhigh _ _ (Nat.lt_succ_diag_r m) E). split; intros _; eauto.
  - apply lookup_ge_None in E. assert (length p = S m) as -> by lia.
    exists h. rewrite back_ins_next by lia. split_and!; [reflexivity| |done|done].
    intros k e' E'. apply Hlow; [|exact E'].
    apply lookup_lt_Some in E'. rewrite length_ins in E'; lia.
Qed.

Lemma levels_ok_ext h h' p lv : levels_ok h p lv ->
  (forall k e i, p !! k = Some e -> level_at h' (e_loc e) i = level_at h (e_loc e) i) ->
  levels_ok h' p lv.
Proof. intros Hl He k e i E Hi. rewrite (He k e i E). now apply Hl. Qed.

(** The list before the new node is linked: levels raised, node allocated. *)
Lemma prepare_spec s p m upd rk a sc o new : rep T0 s p -> m < length p ->
  arrays_ok p m (level_ s) upd rk -> 1 <= new <= SKIPLIST_MAXLEVEL -> mem s !! a = None ->
  exists h1 upd' rk',
    (if level_ s <? new
     then for_up (grow_body (header s) (length_ s)) (level_ s) (new - level_ s) (mem s, upd, rk)
     else Some (mem s, upd, rk)) = Some (h1, upd', rk')
    /\ (let lv := if level_ s <? new then new else level_ s in
       let h2 := (<[a := create_node new sc o]> h1) in
       (level_ s <= lv /\ new <= lv <= SKIPLIST_MAXLEVEL)
       /\ (forall y, fields h2 y = if decide (y = a) then Some (o, sc, None, new)
                                   else fields (mem s) y)
       /\ levels_ok h2 p lv /\ arrays_ok p m lv upd' rk' /\ heights_ok p lv
       /\ (a ∉ e_loc <$> p) /\ (forall i, i < new -> is_Some (level_at h2 a i))).
Proof.
  intros R Hm Ha Hnew Hfree.
  pose proof (rep_level _ _ _ R) as Hlv.
  assert (Hfresh : a ∉ e_loc <$> p).
  { rewrite list_elem_of_fmap. intros (e & -> & He). apply list_elem_of_lookup in He as [k E].
    destruct (node_of_rep _ _ _ _ (rep_fields _ _ _ R) E) as (n & En & _). congruence. }
  assert (H : exists h1 upd' rk',
    (if level_ s <? new
     then for_up (grow_body (header s) (length_ s)) (level_ s) (new - level_ s) (mem s, upd, rk)
     else Some (mem s, upd, rk)) = Some (h1, upd', rk')
    /\ (forall y, fields h1 y = fields (mem s) y)
    /\ levels_ok h1 p (if level_ s <? new then new else level_ s)
    /\ arrays_ok p m (if level_ s <? new then new else level_ s) upd' rk').
  { destruct (Nat.ltb_spec (level_ s) new).
    - apply grow_spec; [assumption..|lia].
    - exists (mem s), upd, rk. split_and!; [reflexivity|reflexivity|apply R|exact Ha]. }
  destruct H as (h1 & upd' & rk' & E & Hf & Hl & Ha').
  exists h1, upd', rk'. split; [exact E|]. cbn zeta.
  assert (Hle : level_ s <= (if level_ s <? new then new else level_ s)).
  { destruct (Nat.ltb_spec (level_ s) new); lia. }
  split_and!; [exact Hle|destruct (Nat.ltb_spec (level_ s) new); lia
    |destruct (Nat.ltb_spec (level_ s) new); lia| | |exact Ha'| |exact Hfresh|].
  - intros y. unfold fields at 1. destruct (decide (y = a)) as [->|Hy].
    + rewrite lookup_insert_eq. cbn. now rewrite length_replicate.
    + rewrite lookup_insert_ne by congruence. apply Hf.
  - eapply levels_ok_ext; [exact Hl|]. intros k e i Ek. unfold level_at.
    rewrite lookup_insert_ne; [reflexivity|]. symmetry. eapply fresh_loc; eauto.
  - intros k e Ek. pose proof (rep_heights _ _ _ R k e Ek). lia.
  - intros i Hi. unfold level_at. rewrite lookup_insert_eq. cbn [levels create_node].
    rewrite lookup_replicate_2 by lia. eauto.
Qed.

(** [insert] on a represented path. *)
Lemma insert_rep s p m a draw sc o : rep T0 s p -> m < length p ->
  cond_ok (mem s) p (cond_before compare sc o) m -> mem s !! a = None ->
  exists s', insert compare a draw sc o s = Some (a, s')
    /\ rep T0 s' (ins p m (Entry a (random_level draw) sc o)).
Proof.
  intros R Hm Hc Hfree. pose proof (rep_path _ _ _ R) as Hp.
  destruct (search_spec T0 s p _ m R Hm Hc) as (e & upd & rk & Ee & Hs & Ha).
  unfold insert. rewrite Hs. pose proof (random_level_bounds draw) as Hnew.
  set (new := random_level draw) in *. set (v := Entry a new sc o).
  destruct (prepare_spec s p m upd rk a sc o new R Hm Ha Hnew Hfree)
    as (h1 & upd' & rk' & -> & Hlv & Hf & Hl & Ha' & Hh & Hfresh & Hal).
  set (lv := if level_ s <? new then new else level_ s) in *.
  set (h2 := <[a := create_node new sc o]> h1) in *.
  destruct (splice_spec p (header s) m a h2 lv upd' rk' new)
    as (h3 & -> & H3 & F3); [auto; lia..|].
  destruct (bump_spec p (header s) m h2 h3 lv upd' rk' new)
    as (h4 & -> & H4 & F4); [auto; lia..| |].
  { intros y i Hi. now rewrite H3, decide_False by lia. }
  destruct (Ha' 0) as [-> _]; [lia|].
  assert (Hpv0 : pv p 0 m = m).
  { apply pv_uniq. split_and!; [lia|eapply (tall_0 T0); eauto|lia]. }
  rewrite Hpv0, Ee. cbn [fmap option_fmap option_map].
  assert (HF : forall y, fields h4 y = fields h2 y) by (intros y; now rewrite F4, F3).
  assert (Fa : fields h4 a = Some (o, sc, None, new)) by now rewrite HF, Hf, decide_True by auto.
  destruct (set_backward_spec h4 a (if decide (e_loc e = header s) then None else Some (e_loc e))
              _ _ _ _ Fa) as (h5 & -> & L5 & F5).
  assert (Hp' : path_ok T0 (ins p m v) (header s)) by now apply ins_path_ok.
  assert (Hh' : heights_ok (ins p m v) lv) by (apply ins_heights_ok; [assumption..|change (e_height v) with new; lia]).
  assert (Hl5 : levels_ok h5 (ins p m v) lv).
  { eapply levels_ok_ext; [|intros; apply L5].
    eapply layout_spec with (h2 := h2); [eassumption..|lia|lia|assumption| |].
    - intros [|k] e' E'; [destruct Hp as [Hp0 _]; rewrite Hp0 in E'; now simplify_eq|].
      specialize (Hh k e' E'). lia.
    - intros y i. rewrite H4, H3. repeat case_decide; try reflexivity; lia. }
  pose proof (forward_0 T0 h5 (ins p m v) (header s) lv (S m) v Hp' Hh' Hl5 (ins_mid p m v Hm))
    as Hfw.
  rewrite ins_high in Hfw by lia. change (e_loc v) with a in Hfw. rewrite Hfw.
  assert (Hback : (if decide (e_loc e = header s) then None else Some (e_loc e)) = back p (S m)).
  { destruct m as [|m]; cbn [back].
    - destruct Hp as [Hp0 _]. rewrite Hp0 in Ee. simplify_eq. now rewrite decide_True.
    - rewrite Ee. rewrite decide_False; [reflexivity|]. intros Hd.
      destruct Hp as [Hp0 Hnd]. assert (S m = 0); [|lia].
      eapply (path_inj T0 p (header s)); [split; eassumption|exact Ee|exact Hp0|exact Hd]. }
  destruct (relink_spec h5 p (header s) m v (tail s)) as (h6 & Hre & Hf6 & L6 & D6);
    [auto..| | |apply R|].
  { intros k e' Hk E'. rewrite F5. destruct (ins_pos m k) as [Hk'|[->|(j & -> & ?)]]; [| |lia].
    - rewrite ins_low in E' by lia.
      rewrite decide_False by (eapply fresh_loc; eauto).
      rewrite HF, Hf, decide_False by (eapply fresh_loc; eauto).
      rewrite back_ins_low by lia. now apply (rep_fields _ _ _ R).
    - rewrite ins_mid in E' by lia. simplify_eq. cbn [e_loc]. rewrite decide_True by auto.
      now rewrite Hback, back_ins_low by lia. }
  { intros k e' Hk E'. rewrite F5, decide_False by (eapply fresh_loc; eauto).
    rewrite HF, Hf, decide_False by (eapply fresh_loc; eauto). now apply (rep_fields _ _ _ R). }
  remember (back (ins p m v) (S (length p))) as tl' eqn:Etl.
  exists (Skip h6 (header s) tl' (S (length_ s)) lv). split.
  - destruct (p !! S m) as [e'|]; cbn [fmap option_fmap option_map] in Hre |- *.
    + destruct (set_backward h5 (e_loc e') (Some (e_loc v))) as [w|] eqn:Ew; [|discriminate].
      cbn [e_loc] in Ew. change (e_loc v) with a in Ew. rewrite Ew. injection Hre as -> ->.
      reflexivity.
    + injection Hre as -> <-. reflexivity.
  - split; cbn [header level_ mem tail length_]; [exact Hp'|lia|exact Hh'|exact Hf6| | | |].
    + eapply levels_ok_ext; [exact Hl5|]. intros. apply L6.
    + intros x Hx. rewrite ins_perm. apply fields_Some, D6 in Hx. rewrite F5 in Hx.
      apply elem_of_cons. destruct (decide (x = a)) as [->|Hxa]; [left; reflexivity|right].
      rewrite HF, Hf, decide_False in Hx by exact Hxa.
      apply (rep_dom _ _ _ R). now apply fields_Some.
    + now rewrite length_ins, Etl by lia.
    + rewrite length_ins by lia. now rewrite (rep_length _ _ _ R).
Qed.
End Insert.
