(* ===== verification/SkiplistDelete.v ===== *)
(** * Skip list: deletion

    [_delete_node_internal] succeeds on a represented path, given the array of
    predecessors of the node, and leaves the path without the node; the
    predecessors stay those of the same boundary, so the range deletions can
    use one array for every node they remove. *)

From Stdlib Require Import ZArith Lia List Bool.
From stdpp Require Import base tactics list option gmap.
From S2P Require Import Prelude Doubles Skiplist SkiplistRep SkiplistInsert.

Open Scope hj_scope.
Open Scope nat_scope.

Section Delete.
Context {T : Type} (T0 : T).
Implicit Types (p : list (entry T)) (h : gmap addr (node T)) (s : skiplist T).

Definition preds_ok p m lv (upd : gmap nat addr) : Prop :=
  forall j, j < lv -> upd !! j = e_loc <$> p !! pv p j m.

(** ** The path without the node *)

Lemma ins_path_inv p hd m v : path_ok T0 (ins p m v) hd -> m < length p ->
  path_ok T0 p hd /\ e_loc v ∉ e_loc <$> p.
Proof.
  intros [H0 Hnd] Hm. rewrite ins_perm in Hnd. apply NoDup_cons in Hnd as [Hv Hnd].
  rewrite ins_low in H0 by lia. split; [split|]; assumption.
Qed.

Lemma ins_heights_inv p lv m v : heights_ok (ins p m v) lv -> m < length p ->
  heights_ok p lv /\ 1 <= e_height v <= lv.
Proof.
  intros Hh Hm. split; [|apply (Hh m), ins_mid; exact Hm].
  intros k e E. destruct (decide (S k <= m)).
  - apply (Hh k). now rewrite ins_low by lia.
  - apply (Hh (S k)). now rewrite ins_high by lia.
Qed.

Lemma pv_ins p hd m v j : path_ok T0 p hd -> m < length p -> j < SKIPLIST_MAXLEVEL ->
  pv (ins p m v) j m = pv p j m.
Proof.
  intros Hp Hm Hj. apply pv_uniq, is_pv_ins; [exact Hm|].
  apply pv_is. eapply path_tall0; eauto.
Qed.

Lemma preds_ok_ins p hd m v lv upd : path_ok T0 p hd -> m < length p ->
  lv <= SKIPLIST_MAXLEVEL -> preds_ok (ins p m v) m lv upd -> preds_ok p m lv upd.
Proof.
  intros Hp Hm Hlv Ha j Hj. rewrite (Ha j Hj), (pv_ins p hd) by (assumption || lia).
  destruct (pred_bounds T0 p hd j m Hp) as (Hq & _); [lia|exact Hm|].
  now rewrite ins_low.
Qed.

Lemma preds_ok_le p m lv lv' upd : lv' <= lv -> preds_ok p m lv upd -> preds_ok p m lv' upd.
Proof. intros Hle Ha j Hj. apply Ha. lia. Qed.

(** ** Unlinking *)

(** The predecessors get back the pointers of the path without the node. *)
Definition unlink_target p m h (y : addr) (i : nat) : option level :=
  let q := pv p i m in
  if decide (Some y = e_loc <$> p !! q) then Some (Level (fw p i q) (dist p i q))
  else level_at h y i.

(** The level of a predecessor before the node goes. *)
Lemma pred_level p hd h m v lv i : path_ok T0 (ins p m v) hd ->
  levels_ok h (ins p m v) lv -> m < length p -> i < lv -> i < SKIPLIST_MAXLEVEL ->
  exists e lu, p !! pv p i m = Some e /\ level_at h (e_loc e) i = Some lu
    /\ forward lu = (if decide (i < e_height v) then Some (e_loc v) else fw p i (pv p i m))
    /\ span lu = (if decide (i < e_height v) then S m - pv p i m
                  else S (dist p i (pv p i m))).
Proof.
  intros Hp' Hl Hm Hi Hi'. destruct (ins_path_inv p hd m v Hp' Hm) as [Hp Hv].
  destruct (pred_bounds T0 p hd i m Hp Hi' Hm) as (Hq & Hnx & Hb).
  destruct (pred_cell T0 (ins p m v) hd h lv i m Hp' Hl Hi Hi') as (e & lu & E & Elu & Hf & Hs).
  rewrite (pv_ins p hd) in E, Hf, Hs by assumption. rewrite ins_low in E by lia.
  exists e, lu. split_and!; [exact E|exact Elu| |].
  - rewrite Hf. unfold fw. case_decide.
    + rewrite nx_ins_cross_tall by lia. now rewrite ins_mid.
    + rewrite nx_ins_cross_short by lia. now rewrite ins_high by lia.
  - rewrite Hs. unfold dist. rewrite length_ins by assumption. case_decide.
    + rewrite nx_ins_cross_tall by lia. lia.
    + rewrite nx_ins_cross_short by lia. lia.
Qed.

(** The level of the node itself. *)
Lemma node_level p hd h m v lv i : path_ok T0 (ins p m v) hd ->
  levels_ok h (ins p m v) lv -> m < length p -> i < e_height v -> i < lv ->
  i < SKIPLIST_MAXLEVEL ->
  exists lx, level_at h (e_loc v) i = Some lx /\ forward lx = fw p i (pv p i m)
    /\ span lx = dist p i (pv p i m) - (m - pv p i m).
Proof.
  intros Hp' Hl Hm Hi Hlv Hi'. destruct (ins_path_inv p hd m v Hp' Hm) as [Hp _].
  destruct (pred_bounds T0 p hd i m Hp Hi' Hm) as (Hq & Hnx & Hb).
  destruct (Hl (S m) v i (ins_mid p m v Hm) Hi) as (lx & E & Hf & Hs).
  exists lx. split_and!; [exact E| |].
  - rewrite Hf. unfold fw. rewrite nx_ins_new, Hnx by assumption. now rewrite ins_high by lia.
  - rewrite (Hs Hlv). unfold dist. rewrite nx_ins_new, length_ins, Hnx by assumption. lia.
Qed.

Lemma unlink_spec p hd h0 m v lv upd : path_ok T0 (ins p m v) hd ->
  levels_ok h0 (ins p m v) lv -> m < length p -> lv <= SKIPLIST_MAXLEVEL ->
  preds_ok p m lv upd ->
  exists h1, for_up (unlink_body (e_loc v) upd) 0 lv h0 = Some h1
    /\ (forall y i, level_at h1 y i =
          if decide (i < lv) then unlink_target p m h0 y i else level_at h0 y i)
    /\ (forall y, fields h1 y = fields h0 y).
Proof.
  intros Hp' Hl Hm Hlv Ha. destruct (ins_path_inv p hd m v Hp' Hm) as [Hp Hv].
  destruct (level_loop (unlink_body (e_loc v) upd) (unlink_target p m h0) h0 0 lv)
    as (h1 & E & H1 & H2).
  2: { exists h1. split_and!; [exact E| |exact H2]. intros y i. rewrite H1.
       destruct (decide (i < lv)); [now rewrite decide_True by lia|now rewrite decide_False by lia]. }
  intros i h Hi Hag.
  destruct (pred_level p hd h0 m v lv i Hp' Hl Hm) as (e & lu & Ee & Elu & Hf & Hs); [lia..|].
  destruct (pred_bounds T0 p hd i m Hp) as (Hq & Hnx & Hb); [lia|exact Hm|].
  assert (Hne : fw p i (pv p i m) <> Some (e_loc v)).
  { unfold fw. intros Hc. apply fmap_Some in Hc as (e' & E' & Hloc).
    eapply (fresh_loc p); [exact Hv|exact E'|now symmetry]. }
  unfold unlink_body. rewrite (Ha i) by lia. rewrite Ee. cbn [fmap option_fmap option_map].
  rewrite Hag, Elu. rewrite Hf. destruct (decide (i < e_height v)) as [Hiv|Hiv].
  - rewrite decide_True by reflexivity.
    destruct (node_level p hd h0 m v lv i Hp' Hl Hm Hiv) as (lx & Elx & Hfx & Hsx); [lia..|].
    rewrite Hag, Elx. unfold nsub.
    assert (Hsum : span lu + span lx = S (dist p i (pv p i m))).
    { rewrite Hs, Hsx. unfold dist. lia. }
    rewrite Hsum. cbn [Nat.leb]. replace (S _ - 1) with (dist p i (pv p i m)) by lia.
    destruct (set_level_spec h (e_loc e) i
      (Level (Some (e_loc v)) (dist p i (pv p i m))) lu) as (h1 & -> & L1 & F1); [now rewrite Hag|].
    destruct (set_level_spec h1 (e_loc e) i (Level (forward lx) (dist p i (pv p i m)))
      (Level (Some (e_loc v)) (dist p i (pv p i m)))) as (h2 & -> & L2 & F2).
    { now rewrite L1, decide_True by auto. }
    exists h2. split_and!; [reflexivity| |intros y; now rewrite F2].
    intros y j. rewrite L2, L1. unfold unlink_target. rewrite Ee. cbn [fmap option_fmap option_map].
    destruct (decide (j = i)) as [->|]; [|now rewrite !(decide_False (P := _ /\ j = i)) by tauto].
    destruct (decide (y = e_loc e)) as [->|Hy].
    + rewrite !decide_True by auto. now rewrite Hfx.
    + rewrite !decide_False by (tauto || congruence). now rewrite Hag.
  - rewrite decide_False by exact Hne. rewrite Hs. unfold nsub. cbn [Nat.leb].
    replace (S _ - 1) with (dist p i (pv p i m)) by lia.
    destruct (set_level_spec h (e_loc e) i
      (Level (fw p i (pv p i m)) (dist p i (pv p i m))) lu) as (h1 & E1 & L1 & F1);
      [now rewrite Hag|].
    exists h1. split_and!; [exact E1| |exact F1].
    intros y j. rewrite L1. unfold unlink_target. rewrite Ee. cbn [fmap option_fmap option_map].
    destruct (decide (j = i)) as [->|]; [|now rewrite !(decide_False (P := _ /\ j = i)) by tauto].
    destruct (decide (y = e_loc e)) as [->|Hy].
    + now rewrite !decide_True by auto.
    + rewrite !decide_False by (tauto || congruence). now rewrite Hag.
Qed.

Lemma unlink_layout p hd h0 h1 m v lv : path_ok T0 (ins p m v) hd ->
  levels_ok h0 (ins p m v) lv -> m < length p -> heights_ok (ins p m v) lv ->
  lv <= SKIPLIST_MAXLEVEL ->
  (forall y i, level_at h1 y i =
     if decide (i < lv) then unlink_target p m h0 y i else level_at h0 y i) ->
  levels_ok h1 p lv.
Proof.
  intros Hp' Hl Hm Hh' Hlv H1 k e i E Hi.
  destruct (ins_path_inv p hd m v Hp' Hm) as [Hp _].
  destruct (ins_heights_inv p lv m v Hh' Hm) as [Hh Hv].
  pose proof (lookup_lt_Some _ _ _ E) as Hlt. rewrite H1.
  assert (Hi32 : i < SKIPLIST_MAXLEVEL).
  { destruct k as [|k].
    - destruct Hp as [Hp0 _]. rewrite Hp0 in E. simplify_eq. exact Hi.
    - specialize (Hh k e E). lia. }
  destruct (pred_bounds T0 p hd i m Hp Hi32 Hm) as (Hq & Hnx & Hb).
  destruct (decide (k <= m)) as [Hk|Hk].
  - assert (Ht : tall p i k) by (exists e; auto).
    assert (E' : ins p m v !! k = Some e) by now rewrite ins_low.
    destruct (Hl k e i E' Hi) as (l & El & Hf & Hs).
    destruct (pred_or_low T0 p hd m k i Hp Hi32 Hm Hk Ht) as [Hkq|[Hkq Hn]].
    + unfold unlink_target. rewrite <- Hkq, E. cbn [fmap option_fmap option_map].
      rewrite (decide_True (P := Some (e_loc e) = Some (e_loc e))) by reflexivity.
      destruct (decide (i < lv)) as [Hil|Hil].
      { eexists; split_and!; [reflexivity|reflexivity|done]. }
      exists l. split_and!; [exact El| |lia]. rewrite Hf. unfold fw. rewrite <- Hkq in Hnx.
      rewrite nx_ins_cross_short by lia. now rewrite ins_high by lia.
    + exists l. unfold unlink_target.
      rewrite (decide_False (P := Some (e_loc e) = _)) by (eapply not_pred; eauto).
      split_and!; [case_decide; exact El|rewrite Hf; now apply fw_ins_low|].
      intros Hil. rewrite (Hs Hil). unfold dist. rewrite nx_ins_low, length_ins by lia. lia.
  - assert (E' : ins p m v !! S k = Some e) by (rewrite ins_high by lia; exact E).
    destruct (Hl (S k) e i E' Hi) as (l & El & Hf & Hs). exists l. unfold unlink_target.
    rewrite (decide_False (P := Some (e_loc e) = _)) by (eapply not_pred; eauto; lia).
    assert (Hn : m < nx p i k) by (destruct (nx_is p i k Hlt) as (? & _); lia).
    split_and!; [case_decide; exact El| |].
    + rewrite Hf. apply fw_shift; [assumption|assumption|]. apply nx_ins_high; lia.
    + intros Hil. rewrite (Hs Hil). unfold dist. rewrite nx_ins_high, length_ins by lia. lia.
Qed.

(** ** The successor, the tail and the level of the list *)

Lemma unlink_back h p hd m v tl : path_ok T0 (ins p m v) hd -> m < length p ->
  fields_ok h (ins p m v) -> tl = back (ins p m v) (S (length p)) ->
  exists h', (match e_loc <$> p !! S m with
              | Some y => let* w := set_backward h y (back p (S m)) in Some (w, tl)
              | None => Some (h, back p (S m))
              end) = Some (h', back p (length p))
    /\ fields_ok h' p
    /\ (forall y i, level_at h' y i = level_at h y i)
    /\ (forall y, is_Some (fields h' y) <-> is_Some (fields h y)).
Proof.
  intros Hp' Hm Hf ->. destruct (ins_path_inv p hd m v Hp' Hm) as [Hp Hv].
  assert (Hlow : forall k e, k <= m -> p !! k = Some e ->
    fields h (e_loc e) = Some (e_obj e, e_score e, back p k, e_height e)).
  { intros k e Hk E. rewrite <- (back_ins_low p m v) by lia. apply Hf. now rewrite ins_low. }
  destruct (p !! S m) as [e|] eqn:E; cbn [fmap option_fmap option_map].
  - pose proof (lookup_lt_Some _ _ _ E) as Hlt.
    assert (Ee : ins p m v !! S (S m) = Some e) by now rewrite ins_high by lia.
    destruct (set_backward_spec h (e_loc e) (back p (S m)) _ _ _ _ (Hf _ _ Ee))
      as (h' & -> & Hl' & Hf').
    exists h'. rewrite back_ins_high by lia. split_and!; [reflexivity| |exact Hl'|].
    + intros k e' E'. rewrite Hf'. case_decide as Hd.
      * assert (k = S m) as -> by (eapply path_inj; [exact Hp|exact E'|exact E|exact Hd]).
        now simplify_eq.
      * destruct (decide (k <= m)) as [Hk|Hk]; [now apply Hlow|].
        assert (k <> S m) by (intros ->; congruence).
        rewrite <- (back_ins_high p m v) by lia. apply Hf. now rewrite ins_high by lia.
    + intros y. rewrite Hf'. case_decide as Hd; [|reflexivity]. subst.
      rewrite (Hf _ _ Ee). split; intros _; eauto.
  - apply lookup_ge_None in E. assert (length p = S m) as -> by lia.
    exists h. split_and!; [reflexivity| |done|done].
    intros k e' E'. apply Hlow; [|exact E']. apply lookup_lt_Some in E'. lia.
Qed.

Lemma shrink_spec h p hd lv : path_ok T0 p hd -> heights_ok p lv -> levels_ok h p lv ->
  1 <= lv <= SKIPLIST_MAXLEVEL ->
  exists lv', shrink h hd lv = Some lv' /\ 1 <= lv' <= lv /\ heights_ok p lv'.
Proof.
  intros Hp. revert h. induction lv as [|lv IH]; intros h Hh Hl Hlv; [lia|]. cbn [shrink].
  destruct (Nat.ltb_spec 1 (S lv)) as [H1|H1]; [|exists (S lv); split_and!; [reflexivity|lia|lia|exact Hh]].
  pose proof Hp as [Hp0 Hnd]. assert (Hi : lv < SKIPLIST_MAXLEVEL) by lia.
  pose proof (forward_at_rep h p (S lv) 0 _ lv Hl Hp0 Hi) as Hfw. cbn [e_loc] in Hfw. rewrite Hfw.
  destruct (fw p lv 0) as [y|] eqn:F; [exists (S lv); split_and!; [reflexivity|lia|lia|exact Hh]|].
  destruct (IH h) as (lv' & Es & Hle & Hh'); [| |lia|exists lv'; split_and!; [exact Es|lia|lia|exact Hh']].
  - intros k e E. pose proof (Hh k e E) as He. split; [lia|].
    destruct (Nat.le_gt_cases (e_height e) lv) as [|Hgt]; [assumption|exfalso].
    unfold fw in F. apply fmap_None, lookup_ge_None in F.
    assert (Hlt : 0 < length p) by now apply lookup_lt_Some in Hp0.
    pose proof (lookup_lt_Some _ _ _ E) as Hk.
    destruct (nx_is p lv 0 Hlt) as (_ & Hn & _). apply (Hn (S k)); [lia|]. exists e. auto.
  - intros k e i E Hie. destruct (Hl k e i E Hie) as (l & El & Hf & Hs). exists l.
    split_and!; [exact El|exact Hf|]. intros Hil. apply Hs. lia.
Qed.

(** ** [_delete_node_internal] *)

Lemma delete_node_internal_rep s p m v upd : rep T0 s (ins p m v) -> m < length p ->
  preds_ok p m (level_ s) upd ->
  exists s', delete_node_internal (e_loc v) upd s = Some s' /\ rep T0 s' p
    /\ level_ s' <= level_ s /\ header s' = header s.
Proof.
  intros R Hm Ha. pose proof (rep_path _ _ _ R) as Hp'.
  pose proof (rep_level _ _ _ R) as Hlv.
  destruct (ins_path_inv p _ m v Hp' Hm) as [Hp Hv].
  destruct (ins_heights_inv p _ m v (rep_heights _ _ _ R) Hm) as [Hh Hvh].
  destruct (unlink_spec p (header s) (mem s) m v (level_ s) upd)
    as (h1 & Eh1 & L1 & F1); [auto; try apply R; lia..|].
  unfold delete_node_internal. rewrite Eh1.
  assert (Hl1 : levels_ok h1 p (level_ s)).
  { eapply unlink_layout; [exact Hp'|apply R|exact Hm|apply R|lia|exact L1]. }
  assert (Hvl : forall i, level_at h1 (e_loc v) i = level_at (mem s) (e_loc v) i).
  { intros i. rewrite L1. case_decide as Hi; [|reflexivity]. unfold unlink_target.
    rewrite decide_False; [reflexivity|]. intros Hd. symmetry in Hd.
    apply fmap_Some in Hd as (e' & E' & Hloc). eapply (fresh_loc p); eauto. }
  assert (Hf0 : forward_at h1 (e_loc v) 0 = Some (e_loc <$> p !! S m)).
  { unfold forward_at. rewrite Hvl. fold (forward_at (mem s) (e_loc v) 0).
    rewrite (forward_0 T0 (mem s) (ins p m v) (header s) (level_ s) (S m)); [|apply R..|now apply ins_mid].
    now rewrite ins_high by lia. }
  rewrite Hf0.
  assert (Hf1 : fields_ok h1 (ins p m v)).
  { intros k e E. rewrite F1. now apply (rep_fields _ _ _ R). }
  destruct (node_of_rep h1 _ _ _ Hf1 (ins_mid p m v Hm)) as (n & En & _ & _ & Hb).
  rewrite En, Hb, back_ins_low by lia.
  destruct (unlink_back h1 p (header s) m v (tail s)) as (h2 & -> & F2 & L2 & D2);
    [assumption..|rewrite (rep_tail _ _ _ R); now rewrite length_ins by lia|].
  assert (Hsome : is_Some (h2 !! e_loc v)).
  { apply fields_Some, D2, fields_Some. eauto. }
  unfold free_node. destruct Hsome as [nv ->].
  assert (Hl2 : levels_ok (delete (e_loc v) h2) p (level_ s)).
  { eapply levels_ok_ext; [exact Hl1|]. intros k e i E. rewrite <- L2. unfold level_at.
    rewrite lookup_delete_ne; [reflexivity|]. intros Hc. eapply (fresh_loc p); eauto. }
  destruct (shrink_spec (delete (e_loc v) h2) p (header s) (level_ s)) as (lv' & -> & Hle & Hh');
    [assumption..|].
  pose proof (rep_length _ _ _ R) as Hlen. rewrite length_ins in Hlen by lia.
  unfold nsub. replace (1 <=? length_ s) with true by (symmetry; apply Nat.leb_le; lia).
  eexists. split_and!; [reflexivity| |cbn [level_]; lia|reflexivity].
  split; cbn [header level_ mem tail length_]; [exact Hp|lia|exact Hh'| | | |reflexivity|lia].
  - intros k e E. unfold fields. rewrite lookup_delete_ne.
    + apply (F2 k e E).
    + intros Hc. eapply (fresh_loc p); eauto.
  - intros k e i E Hi. destruct (Hl2 k e i E Hi) as (l & El & Hf & Hs). exists l.
    split_and!; [exact El|exact Hf|]. intros Hil. apply Hs. lia.
  - intros x Hx. destruct (decide (x = e_loc v)) as [->|Hxv].
    { rewrite lookup_delete_eq in Hx. now destruct Hx. }
    rewrite lookup_delete_ne in Hx by congruence.
    apply fields_Some, D2, fields_Some in Hx. rewrite (fields_dom _ _ F1) in Hx.
    apply (rep_dom _ _ _ R) in Hx. rewrite ins_perm in Hx.
    apply elem_of_cons in Hx as [|]; [congruence|assumption].
Qed.

(** The node after a boundary: the form the callers need. *)
Lemma unlink_next s p m e upd : rep T0 s p -> p !! S m = Some e ->
  preds_ok p m (level_ s) upd ->
  exists s' p', p' = take (S m) p ++ drop (S (S m)) p
    /\ delete_node_internal (e_loc e) upd s = Some s' /\ rep T0 s' p'
    /\ m < length p' /\ preds_ok p' m (level_ s') upd /\ level_ s' <= level_ s.
Proof.
  intros R E Ha. destruct (ins_of_lookup p m e E) as [Hins Hm].
  set (p' := take (S m) p ++ drop (S (S m)) p) in *. rewrite Hins in R, Ha.
  destruct (ins_path_inv p' _ m e (rep_path _ _ _ R) Hm) as [Hp _].
  pose proof (rep_level _ _ _ R) as Hlv.
  apply (preds_ok_ins p' (header s)) in Ha; [|assumption|assumption|lia].
  destruct (delete_node_internal_rep s p' m e upd R Hm Ha) as (s' & Hd & R' & Hle & _).
  exists s', p'. split_and!; try assumption; [reflexivity|].
  eapply preds_ok_le; eassumption.
Qed.

(** ** The deletion loop

    It removes the longest run of nodes after the boundary that [keep]
    accepts, [removed] counting them. *)
Fixpoint run_length (keep : entry T -> nat -> bool) (l : list (entry T)) (removed : nat) : nat :=
  match l with
  | [] => 0
  | e :: l => if keep e removed then S (run_length keep l (S removed)) else 0
  end.

Lemma run_length_le keep l r : run_length keep l r <= length l.
Proof.
  revert r. induction l as [|e l IH]; intros r; cbn; [lia|]. destruct (keep e r); [|lia].
  specialize (IH (S r)). lia.
Qed.

Lemma delete_while_rep keep keepe m upd n : (forall (nd : node T) (e : entry T),
    obj nd = e_obj e -> score nd = e_score e -> forall r, keep nd r = keepe e r) ->
  forall s p r, rep T0 s p -> m < length p -> preds_ok p m (level_ s) upd ->
  length (drop (S m) p) < n ->
  exists s', let k := run_length keepe (drop (S m) p) r in
    delete_while n keep (e_loc <$> p !! S m) upd r s = Some (r + k, s')
    /\ rep T0 s' (take (S m) p ++ drop (S m + k) p).
Proof.
  intros Hkeep. induction n as [|n IH]; intros s p r R Hm Ha Hn; [lia|].
  cbn [delete_while]. destruct (p !! S m) as [e|] eqn:E; cbn [fmap option_fmap option_map].
  2: { exists s. apply lookup_ge_None in E. rewrite (drop_ge p (S m)) by lia. cbn [run_length].
       rewrite (drop_ge p), app_nil_r, take_ge, Nat.add_0_r by lia. auto. }
  destruct (node_of_rep _ _ _ _ (rep_fields _ _ _ R) E) as (nd & -> & Ho & Hs & _).
  rewrite (Hkeep nd e Ho Hs).
  rewrite (drop_S p e (S m) E). cbn [run_length].
  destruct (keepe e r).
  - rewrite (forward_0 T0 (mem s) p (header s) (level_ s) (S m) e); [|apply R..|exact E].
    destruct (unlink_next s p m e upd R E Ha) as (s1 & p1 & Hp1 & -> & R1 & Hm1 & Ha1 & _).
    pose proof (lookup_lt_Some _ _ _ E) as Hlt.
    assert (Ht : length (take (S m) p) = S m) by (rewrite length_take; lia).
    assert (Ed : drop (S m) p1 = drop (S (S m)) p) by (subst p1; now rewrite drop_app_length').
    assert (El : p1 !! S m = p !! S (S m)).
    { rewrite <- (Nat.add_0_r (S m)), <- lookup_drop, Ed, lookup_drop. f_equal; lia. }
    rewrite <- El. destruct (IH s1 p1 (S r) R1 Hm1 Ha1) as (s' & Hd & R').
    { rewrite Ed, length_drop. rewrite length_drop in Hn. lia. }
    exists s'. rewrite Hd. rewrite Ed in R' |- *. clear Hd.
    set (k := run_length keepe (drop (S (S m)) p) (S r)) in *.
    split; [f_equal; f_equal; lia|].
    assert (Edd : drop (S m + k) p1 = drop (S m + S k) p).
    { rewrite <- drop_drop, Ed, drop_drop. f_equal. lia. }
    rewrite <- Edd. replace (take (S m) p) with (take (S m) p1); [exact R'|].
    subst p1. now rewrite take_app_length'.
  - exists s. rewrite !Nat.add_0_r, take_drop. auto.
Qed.
End Delete.
