(* ===== verification/SkiplistSpec.v ===== *)
(** * Skip list: what it promises

    A skip list holds a sequence of items (address, score, object) ordered by
    score and, for equal scores, by the comparator.  Each operation of
    [algo/skiplist.hpp] is related to an operation on that sequence: it
    succeeds (no undefined behaviour, the loops end) and its result and the
    new sequence are those of the abstract operation. *)

From Stdlib Require Import ZArith Lia List Bool Sorted.
From Stdlib Require Import Floats.SpecFloat.
From stdpp Require Import base tactics list option gmap.
From S2P Require Import Prelude Doubles Skiplist SkiplistRep SkiplistInsert SkiplistDelete.

Open Scope hj_scope.
Open Scope nat_scope.

(** The comparator is a strict weak order, as the C++ standard asks of it. *)
Class StrictWeak {T} (lt : T -> T -> bool) : Prop :=
  { sw_irrefl : forall x, lt x x = false;
    sw_trans : forall x y z, lt x y = true -> lt y z = true -> lt x z = true;
    sw_cotrans : forall x y z, lt x y = true -> lt x z = true \/ lt z y = true }.

#[export] Instance nat_strict_weak : StrictWeak Nat.ltb.
Proof.
  split; intros *; rewrite ?Nat.ltb_lt, ?Nat.ltb_ge; lia.
Qed.

(** ** Prefixes of a list on which a test holds *)

Section Prefixes.
Context {A : Type}.
Implicit Types (q : A -> bool) (c : list A).

Fixpoint prefix_len q c : nat :=
  match c with [] => 0 | x :: c => if q x then S (prefix_len q c) else 0 end.

(** The index of the first element that passes the test, the length if there
    is none. *)
Definition find_index q c : nat := prefix_len (fun x => negb (q x)) c.

(** Once the test fails it fails for the rest. *)
Definition monotone q c : Prop :=
  forall i j a b, i < j -> c !! i = Some a -> c !! j = Some b -> q b = true -> q a = true.

Lemma prefix_len_le q c : prefix_len q c <= length c.
Proof. induction c as [|x c IH]; cbn; [lia|]. destruct (q x); lia. Qed.

Lemma prefix_len_lt q c i a : i < prefix_len q c -> c !! i = Some a -> q a = true.
Proof.
  revert i. induction c as [|x c IH]; intros i; cbn; [lia|].
  destruct (q x) eqn:E; [|lia]. destruct i as [|i]; cbn; intros Hi Ha; [congruence|].
  apply (IH i); [lia|exact Ha].
Qed.

Lemma prefix_len_at q c a : c !! prefix_len q c = Some a -> q a = false.
Proof.
  induction c as [|x c IH]; cbn [prefix_len]; [done|].
  destruct (q x) eqn:E; cbn; [exact IH|congruence].
Qed.

Lemma prefix_len_mono q c i a : monotone q c -> c !! i = Some a ->
  q a = bool_decide (i < prefix_len q c).
Proof.
  intros Hm Ha. case_bool_decide as Hi.
  - now apply (prefix_len_lt q c i).
  - destruct (q a) eqn:Eq; [|reflexivity].
    destruct (c !! prefix_len q c) as [b|] eqn:E.
    + pose proof (prefix_len_at q c b E) as Hb.
      destruct (decide (i = prefix_len q c)) as [->|Hne]; [congruence|].
      rewrite (Hm (prefix_len q c) i b a) in Hb; [discriminate|lia|exact E|exact Ha|exact Eq].
    + apply lookup_ge_None in E. apply lookup_lt_Some in Ha. lia.
Qed.

Lemma prefix_len_uniq q c m : m <= length c ->
  (forall i a, i < m -> c !! i = Some a -> q a = true) ->
  (forall a, c !! m = Some a -> q a = false) -> prefix_len q c = m.
Proof.
  revert m. induction c as [|x c IH]; intros m Hm H1 H2; cbn in *; [lia|].
  destruct m as [|m].
  - now rewrite (H2 x eq_refl).
  - rewrite (H1 0 x) by (reflexivity || lia). f_equal. apply IH; [lia| |exact H2].
    intros i a Hi. apply (H1 (S i)). lia.
Qed.

Lemma monotone_tail q x c : monotone q (x :: c) -> monotone q c.
Proof. intros Hm i j a b Hij Ha Hb. apply (Hm (S i) (S j)); [lia|exact Ha|exact Hb]. Qed.

Lemma monotone_drop q n c : monotone q c -> monotone q (drop n c).
Proof.
  intros Hm i j a b Hij. rewrite !lookup_drop. apply Hm. lia.
Qed.

Lemma filter_all q c : (forall a, a ∈ c -> q a = true) -> List.filter q c = c.
Proof.
  induction c as [|x c IH]; intros H; cbn; [reflexivity|].
  rewrite H by now left. f_equal. apply IH. intros a Ha. apply H. now right.
Qed.

Lemma filter_none q c : (forall a, a ∈ c -> q a = false) -> List.filter q c = [].
Proof.
  induction c as [|x c IH]; intros H; cbn; [reflexivity|].
  rewrite H by now left. apply IH. intros a Ha. apply H. now right.
Qed.

Lemma filter_prefix q c : monotone q c -> List.filter q c = take (prefix_len q c) c.
Proof.
  intros Hm. rewrite <- (take_drop (prefix_len q c) c) at 1. rewrite List.filter_app, filter_all, filter_none, app_nil_r.
  - reflexivity.
  - intros a Ha. apply list_elem_of_lookup in Ha as [i Hi]. rewrite lookup_drop in Hi.
    rewrite (prefix_len_mono q c _ a Hm Hi). apply bool_decide_eq_false_2. lia.
  - intros a Ha. apply list_elem_of_lookup in Ha as [i Hi].
    apply lookup_take_Some in Hi as [Hi Hlt]. now apply (prefix_len_lt q c i).
Qed.

Lemma filter_suffix q c : monotone q c ->
  List.filter (fun a => negb (q a)) c = drop (prefix_len q c) c.
Proof.
  intros Hm. rewrite <- (take_drop (prefix_len q c) c) at 1.
  rewrite List.filter_app, filter_none, filter_all; [reflexivity| |].
  - intros a Ha. apply list_elem_of_lookup in Ha as [i Hi]. rewrite lookup_drop in Hi.
    rewrite (prefix_len_mono q c _ a Hm Hi). apply negb_true_iff, bool_decide_eq_false_2. lia.
  - intros a Ha. apply list_elem_of_lookup in Ha as [i Hi].
    apply lookup_take_Some in Hi as [Hi Hlt]. apply negb_false_iff. now apply (prefix_len_lt q c i).
Qed.

Lemma sublist_in (c c' : list A) x : c' `sublist_of` c -> x ∈ c' -> x ∈ c.
Proof.
  induction 1 as [|y l1 l2 _ IH|y l1 l2 _ IH]; [easy| |].
  - rewrite !elem_of_cons. tauto.
  - rewrite elem_of_cons. tauto.
Qed.

Lemma filter_sublist_of q c : List.filter q c `sublist_of` c.
Proof. induction c as [|x c IH]; cbn; [constructor|]. destruct (q x); now constructor. Qed.

Lemma bfilter_ext (q q' : A -> bool) c : (forall a, a ∈ c -> q a = q' a) ->
  List.filter q c = List.filter q' c.
Proof.
  induction c as [|x c IH]; intros H; cbn; [reflexivity|].
  rewrite (H x) by now left. rewrite IH; [reflexivity|]. intros a Ha. apply H. now right.
Qed.
End Prefixes.

(** ** Items and their order *)

Record item (T : Type) := Item { i_loc : addr; i_score : double; i_obj : T }.
Arguments Item {T}.
Arguments i_loc {T}.
Arguments i_score {T}.
Arguments i_obj {T}.

Section Spec.
Context {T : Type} (T0 : T) (compare : T -> T -> bool).
Implicit Types (it : item T) (c : list (item T)) (p : list (entry T)) (s : skiplist T).

(** [it] comes strictly before (sc, o). *)
Definition before (sc : double) (o : T) it : bool :=
  dlt (i_score it) sc || (deq (i_score it) sc && compare (i_obj it) o).

(** [it] is equivalent to (sc, o). *)
Definition matches (sc : double) (o : T) it : bool :=
  deq (i_score it) sc && negb (compare (i_obj it) o) && negb (compare o (i_obj it)).

Definition number it : Prop := is_nan (i_score it) = false.

(** No item is before one that precedes it in the list. *)
Record ordered c : Prop :=
  { ord_number : Forall number c;
    ord_order : forall i j a b, i < j -> c !! i = Some a -> c !! j = Some b ->
      before (i_score a) (i_obj a) b = false }.

Definition lt_score (x : double) it : bool := dlt (i_score it) x.
Definition le_score (x : double) it : bool := dle (i_score it) x.
Definition in_range (lo hi : double) it : bool := dle lo (i_score it) && dle (i_score it) hi.

(** *** The abstract operations *)

Definition insert_item it c : list (item T) :=
  let m := prefix_len (before (i_score it) (i_obj it)) c in take m c ++ it :: drop m c.
Definition delete_item (sc : double) (o : T) c : bool * list (item T) :=
  let i := find_index (matches sc o) c in (i <? length c, delete i c).
Definition remove_range (lo hi : double) c : nat * list (item T) :=
  (length (List.filter (in_range lo hi) c), List.filter (fun it => negb (in_range lo hi it)) c).
Definition remove_ranks (start end_ : nat) c : nat * list (item T) :=
  (length (take (S end_ - start) (drop start c)), take start c ++ drop (start + (S end_ - start)) c).

(** ** The concrete side *)

Definition item_of (e : entry T) : item T := Item (e_loc e) (e_score e) (e_obj e).
Definition contents p : list (item T) := item_of <$> drop 1 p.

(** The heap holds the sequence. *)
Definition refines s c : Prop := exists p, rep T0 s p /\ contents p = c.

Lemma contents_lookup p k : contents p !! k = item_of <$> p !! S k.
Proof. unfold contents. now rewrite list_lookup_fmap, lookup_drop. Qed.

Lemma length_contents s p : rep T0 s p -> length (contents p) = length_ s.
Proof.
  intros R. unfold contents. rewrite length_fmap, length_drop, <- (rep_length _ _ _ R). lia.
Qed.

Lemma contents_loc p k : e_loc <$> p !! S k = i_loc <$> contents p !! k.
Proof. rewrite contents_lookup. now destruct (p !! S k). Qed.

Lemma contents_ins p m v : m < length p ->
  contents (ins p m v) = take m (contents p) ++ item_of v :: drop m (contents p).
Proof.
  intros Hm. unfold contents, ins. destruct p as [|e p]; [cbn in Hm; lia|].
  cbn. now rewrite !drop_0, fmap_app, fmap_cons, fmap_take, fmap_drop.
Qed.

Lemma contents_cut s p m n : rep T0 s p -> m <= n ->
  contents (take (S m) p ++ drop (S n) p) = take m (contents p) ++ drop n (contents p).
Proof.
  intros R Hn. destruct p as [|e p]; [now pose proof (rep_length _ _ _ R)|].
  unfold contents. cbn. rewrite !drop_0. now rewrite fmap_app, fmap_take, fmap_drop.
Qed.

Lemma node_item p s k it : rep T0 s p -> contents p !! k = Some it ->
  exists n, mem s !! i_loc it = Some n /\ obj n = i_obj it /\ score n = i_score it
    /\ forward_at (mem s) (i_loc it) 0 = Some (i_loc <$> contents p !! S k).
Proof.
  intros R. rewrite contents_lookup. destruct (p !! S k) as [e|] eqn:E; [|discriminate].
  cbn. intros [= <-]. destruct (node_of_rep _ _ _ _ (rep_fields _ _ _ R) E) as (n & En & Ho & Hs & _).
  exists n. split_and!; [exact En|exact Ho|exact Hs|]. cbn [i_loc item_of].
  rewrite (forward_0 T0 _ p (header s) (level_ s) (S k)); [|apply R..|exact E].
  now rewrite contents_loc.
Qed.

Lemma first_item p s : rep T0 s p -> forward_at (mem s) (header s) 0 = Some (i_loc <$> contents p !! 0).
Proof.
  intros R. destruct (rep_path _ _ _ R) as [H0 _].
  pose proof (forward_0 T0 _ p (header s) (level_ s) 0 _ (rep_path _ _ _ R) (rep_heights _ _ _ R)
    (rep_levels _ _ _ R) H0) as H. cbn [e_loc] in H. now rewrite H, contents_loc.
Qed.

(** A condition on the item of the next node stops at the longest prefix. *)
Lemma cond_ok_item s p (qn : node T -> bool) q : rep T0 s p -> monotone q (contents p) ->
  (forall n e, obj n = e_obj e -> score n = e_score e -> qn n = q (item_of e)) ->
  cond_ok (mem s) p (fun h y _ _ => let* n := h !! y in Some (qn n)) (prefix_len q (contents p)).
Proof.
  intros R Hm Hq k k' e Hk Hkm E. destruct k' as [|k']; [lia|].
  destruct (node_of_rep _ _ _ _ (rep_fields _ _ _ R) E) as (n & -> & Ho & Hs & _).
  rewrite (Hq n e Ho Hs).
  rewrite (prefix_len_mono q (contents p) k' (item_of e));
    [|exact Hm|now rewrite contents_lookup, E].
  reflexivity.
Qed.

Lemma prefix_bound s p q : rep T0 s p -> prefix_len q (contents p) < length p.
Proof.
  intros R. pose proof (prefix_len_le q (contents p)) as H.
  rewrite (length_contents s p R) in H. rewrite <- (rep_length _ _ _ R). lia.
Qed.

(** The result of a search at a boundary, in terms of items. *)
Lemma search_item s p (cn : cond) m : rep T0 s p -> m < length p -> cond_ok (mem s) p cn m ->
  exists x upd rk, search cn s = Some (x, m, upd, rk)
    /\ forward_at (mem s) x 0 = Some (i_loc <$> contents p !! m)
    /\ preds_ok p m (level_ s) upd
    /\ (forall k, m = S k -> Some x = i_loc <$> contents p !! k).
Proof.
  intros R Hm Hc. destruct (search_spec T0 s p cn m R Hm Hc) as (e & upd & rk & E & Hs & Ha).
  exists (e_loc e), upd, rk. split_and!; [exact Hs| | |].
  - rewrite (forward_0 T0 _ p (header s) (level_ s) m e); [|apply R..|exact E].
    now rewrite contents_loc.
  - intros j Hj. now apply Ha.
  - intros k ->. now rewrite <- contents_loc, E.
Qed.

(** ** The order of items *)

Section Order.
Context `{!StrictWeak compare}.

Lemma before_key sc o it : is_nan sc = false -> number it ->
  before sc o it = true <->
  lex_lt (dkey (i_score it)) (dkey sc) \/ (dkey (i_score it) = dkey sc /\ compare (i_obj it) o = true).
Proof.
  intros Hsc Hit. unfold before. rewrite orb_true_iff, andb_true_iff.
  now rewrite dlt_key, deq_key by assumption.
Qed.

Lemma before_irrefl it : number it -> before (i_score it) (i_obj it) it = false.
Proof.
  intros Hn. destruct (before _ _ it) eqn:E; [|reflexivity].
  apply before_key in E as [E|[_ E]]; [now apply lex_lt_irrefl in E| |assumption..].
  now rewrite sw_irrefl in E.
Qed.

Lemma before_cotrans sc o a b : is_nan sc = false -> number a -> number b ->
  before sc o a = true -> before (i_score b) (i_obj b) a = true \/ before sc o b = true.
Proof.
  intros Hsc Ha Hb. rewrite !before_key by assumption.
  intros [H|[H1 H2]]; destruct (lex_lt_total (dkey (i_score a)) (dkey (i_score b))) as [H'|[H'|H']].
  - auto.
  - right. left. congruence.
  - right. left. eapply lex_lt_trans; eauto.
  - auto.
  - destruct (sw_cotrans _ _ (i_obj b) H2) as [H3|H3]; [auto|].
    right. right. split; [congruence|exact H3].
  - right. left. congruence.
Qed.

Lemma before_asym a b : number a -> number b ->
  before (i_score b) (i_obj b) a = true -> before (i_score a) (i_obj a) b = false.
Proof.
  intros Ha Hb H. destruct (before _ _ b) eqn:E; [|reflexivity]. exfalso.
  apply before_key in H; [|assumption..]. apply before_key in E; [|assumption..].
  destruct H as [H|[H H']], E as [E|[E E']].
  - now apply lex_lt_asym in E.
  - rewrite E in H. now apply lex_lt_irrefl in H.
  - rewrite H in E. now apply lex_lt_irrefl in E.
  - pose proof (sw_trans _ _ _ H' E') as H2. now rewrite sw_irrefl in H2.
Qed.

(** Equivalence is the absence of order. *)
Lemma matches_before sc o it : is_nan sc = false -> number it ->
  matches sc o it =
    negb (before sc o it) && negb (before (i_score it) (i_obj it) (Item (i_loc it) sc o)).
Proof.
  intros Hsc Hit. unfold matches, before. cbn [i_score i_obj].
  rewrite (deq_sym sc (i_score it)) by assumption.
  destruct (double_cases (i_score it) sc) as [(-> & -> & ->)|[(-> & -> & ->)|(-> & -> & ->)]];
    [assumption..|reflexivity| |reflexivity].
  cbn. now rewrite <- ?andb_assoc.
Qed.

(** ** Ordered sequences *)

Lemma ordered_lookup c i it : ordered c -> c !! i = Some it -> number it.
Proof. intros H Hi. exact (Forall_lookup_1 _ _ _ _ (ord_number _ H) Hi). Qed.

Lemma before_monotone sc o c : is_nan sc = false -> ordered c -> monotone (before sc o) c.
Proof.
  intros Hsc Ho i j a b Hij Ha Hb Hbef.
  destruct (before_cotrans sc o b a) as [H|H]; eauto using ordered_lookup.
  pose proof (ord_order _ Ho i j a b Hij Ha Hb). congruence.
Qed.

Lemma ordered_score c i j a b : ordered c -> i < j -> c !! i = Some a -> c !! j = Some b ->
  dle (i_score a) (i_score b) = true.
Proof.
  intros Ho Hij Ha Hb. pose proof (ord_order _ Ho i j a b Hij Ha Hb) as H.
  unfold before in H. apply orb_false_iff in H as [H _].
  rewrite dle_negb, H; [reflexivity| |]; eapply ordered_lookup; eauto.
Qed.

Lemma lt_score_monotone x c : is_nan x = false -> ordered c -> monotone (lt_score x) c.
Proof.
  intros Hx Ho i j a b Hij Ha Hb H. unfold lt_score in *.
  pose proof (ordered_score c i j a b Ho Hij Ha Hb) as Hle.
  apply ordered_lookup in Ha; [|exact Ho]. apply ordered_lookup in Hb; [|exact Ho].
  exact (dle_lt_trans _ _ _ Ha Hb Hx Hle H).
Qed.

Lemma le_score_monotone x c : is_nan x = false -> ordered c -> monotone (le_score x) c.
Proof.
  intros Hx Ho i j a b Hij Ha Hb H. unfold le_score in *.
  pose proof (ordered_score c i j a b Ho Hij Ha Hb) as Hle.
  apply ordered_lookup in Ha; [|exact Ho]. apply ordered_lookup in Hb; [|exact Ho].
  exact (dle_trans _ _ _ Ha Hb Hx Hle H).
Qed.

(** Every sublist of an ordered sequence is ordered. *)
Lemma ordered_sublist c c' : c' `sublist_of` c -> ordered c -> ordered c'.
Proof.
  intros Hsub Ho. split.
  { apply Forall_forall. intros x Hx. apply (sublist_in c) in Hx; [|exact Hsub].
    now apply (proj1 (Forall_forall _ _) (ord_number _ Ho)). }
  destruct Ho as [_ Ho]. revert Ho. induction Hsub as [|x l1 l2 Hs IH|x l1 l2 Hs IH]; intros Ho.
  - done.
  - intros [|i] [|j] a b Hij Ha Hb; cbn in Ha, Hb; [lia| |lia|].
    + simplify_eq. assert (Hin : b ∈ l2).
      { apply (sublist_in _ l1); [exact Hs|]. now apply list_elem_of_lookup_2 with j. }
      apply list_elem_of_lookup in Hin as [k Hk]. now apply (Ho 0 (S k)); [lia| |].
    + apply (IH (fun i j a b H => Ho (S i) (S j) a b (proj1 (Nat.succ_lt_mono _ _) H)) i j); [lia|assumption..].
  - apply IH. intros i j a b H Ha Hb. apply (Ho (S i) (S j)); [lia|exact Ha|exact Hb].
Qed.

Lemma ordered_insert it c : number it -> ordered c -> ordered (insert_item it c).
Proof.
  intros Hn Ho. pose proof (before_monotone _ (i_obj it) c Hn Ho) as Hmono.
  unfold insert_item. cbn zeta. set (q := before (i_score it) (i_obj it)) in *.
  pose proof (prefix_len_le q c) as Hle. set (m := prefix_len q c) in *.
  assert (Hlow : forall i a, c !! i = Some a -> q a = bool_decide (i < m)).
  { intros i a Ha. now apply prefix_len_mono. }
  assert (Ht : length (take m c) = m) by (rewrite length_take; lia).
  split.
  - apply Forall_app. destruct Ho as [Hnum _]. split; [now apply Forall_take|].
    constructor; [exact Hn|now apply Forall_drop].
  - intros i j a b Hij Ha Hb.
    assert (Hcase : forall k x, (take m c ++ it :: drop m c) !! k = Some x ->
      (k < m /\ c !! k = Some x) \/ (k = m /\ x = it) \/ (m < k /\ c !! (k - 1) = Some x)).
    { intros k x Hx. apply lookup_app_Some in Hx as [Hx|[Hk Hx]].
      - apply lookup_take_Some in Hx. tauto.
      - rewrite Ht in *. rewrite lookup_cons in Hx. destruct (k - m) as [|d] eqn:Ed.
        + right. left. split; [lia|congruence].
        + right. right. rewrite lookup_drop in Hx. split; [lia|]. rewrite <- Hx. f_equal. lia. }
    destruct (Hcase i a Ha) as [[Hi Ha']|[[Hi ->]|[Hi Ha']]];
      destruct (Hcase j b Hb) as [[Hj Hb']|[[Hj ->]|[Hj Hb']]]; try lia.
    + now apply (ord_order _ Ho i j).
    + apply before_asym; [eapply ordered_lookup; eauto|exact Hn|].
      fold q. rewrite (Hlow i a Ha'). apply bool_decide_eq_true_2. lia.
    + apply (ord_order _ Ho i (j - 1)); [lia|assumption..].
    + fold q. rewrite (Hlow _ b Hb'). apply bool_decide_eq_false_2. lia.
    + apply (ord_order _ Ho (i - 1) (j - 1)); [lia|assumption..].
Qed.

(** In an ordered sequence the first equivalent item is at the boundary of
    [before]. *)
Lemma find_matches sc o c : is_nan sc = false -> ordered c ->
  let m := prefix_len (before sc o) c in
  match c !! m with
  | Some it => if matches sc o it then find_index (matches sc o) c = m
               else find_index (matches sc o) c = length c
  | None => find_index (matches sc o) c = length c
  end.
Proof.
  intros Hsc Ho m. pose proof (before_monotone sc o c Hsc Ho) as Hmono.
  assert (Hlow : forall i a, c !! i = Some a -> before sc o a = bool_decide (i < m))
    by (intros i a Ha; now apply prefix_len_mono).
  assert (Hmatch : forall i a, i < m -> c !! i = Some a -> matches sc o a = false).
  { intros i a Hi Ha. rewrite matches_before; [|exact Hsc|eapply ordered_lookup; eauto].
    rewrite (Hlow i a Ha), bool_decide_eq_true_2 by exact Hi. reflexivity. }
  assert (Hm : m <= length c) by apply prefix_len_le.
  destruct (c !! m) as [it|] eqn:E; [destruct (matches sc o it) eqn:Ematch|].
  - apply prefix_len_uniq; [exact Hm| |].
    + intros i a Hi Ha. apply negb_true_iff. eauto.
    + intros a Ha. rewrite E in Ha. simplify_eq. now rewrite Ematch.
  - apply prefix_len_uniq; [lia| |].
    2: { intros a Ha. rewrite lookup_ge_None_2 in Ha by lia. discriminate. }
    intros i a _ Ha. apply negb_true_iff. destruct (decide (i < m)) as [Hi|Hi]; [eauto|].
    destruct (decide (i = m)) as [->|Hne]; [congruence|].
    assert (Hni : number it) by (eapply ordered_lookup; eauto).
    assert (Hna : number a) by (eapply ordered_lookup; eauto).
    rewrite matches_before in Ematch |- * by assumption. rewrite (Hlow m it E) in Ematch.
    rewrite bool_decide_eq_false_2 in Ematch by lia. apply negb_false_iff in Ematch.
    apply andb_false_iff. right. apply negb_false_iff.
    destruct (before_cotrans (i_score it) (i_obj it) (Item (i_loc it) sc o) a) as [H|H];
      [assumption..|exact H|].
    pose proof (ord_order _ Ho m i it a) as H'. rewrite H' in H; [discriminate|lia|assumption..].
  - apply prefix_len_uniq; [lia| |].
    2: { intros a Ha. rewrite lookup_ge_None_2 in Ha by lia. discriminate. }
    intros i a _ Ha. apply negb_true_iff. apply lookup_ge_None in E.
    pose proof (lookup_lt_Some _ _ _ Ha). apply (Hmatch i); [lia|exact Ha].
Qed.

(** ** Score ranges as filters *)

Lemma filter_range lo hi c : is_nan lo = false -> is_nan hi = false -> ordered c ->
  let m := prefix_len (lt_score lo) c in
  let k := prefix_len (le_score hi) (drop m c) in
  List.filter (in_range lo hi) c = take k (drop m c)
  /\ List.filter (fun it => negb (in_range lo hi it)) c = take m c ++ drop (m + k) c.
Proof.
  intros Hlo Hhi Ho m k. pose proof (lt_score_monotone lo c Hlo Ho) as Hmono.
  assert (Hhm : monotone (le_score hi) (drop m c)) by now apply monotone_drop, le_score_monotone.
  assert (Hin : forall i it, c !! i = Some it -> in_range lo hi it = bool_decide (m <= i) && le_score hi it).
  { intros i it Hit. unfold in_range, le_score. f_equal.
    rewrite dle_negb; [|exact Hlo|eapply ordered_lookup; eauto].
    fold (lt_score lo it). rewrite (prefix_len_mono _ c i it Hmono Hit). fold m.
    repeat case_bool_decide; try reflexivity; lia. }
  assert (Hlowin : forall a, a ∈ take m c -> in_range lo hi a = false).
  { intros a Ha. apply list_elem_of_lookup in Ha as [i Ha].
    apply lookup_take_Some in Ha as [Ha Hi]. rewrite (Hin i a Ha).
    now rewrite bool_decide_eq_false_2 by lia. }
  assert (Hhighin : forall a, a ∈ drop m c -> in_range lo hi a = le_score hi a).
  { intros a Ha. apply list_elem_of_lookup in Ha as [i Ha]. rewrite lookup_drop in Ha.
    rewrite (Hin _ a Ha). now rewrite bool_decide_eq_true_2 by lia. }
  split.
  - rewrite <- (take_drop m c) at 1. rewrite List.filter_app, filter_none by exact Hlowin.
    cbn [app]. rewrite (bfilter_ext _ (le_score hi)) by exact Hhighin. now apply filter_prefix.
  - rewrite <- (take_drop m c) at 1. rewrite List.filter_app. f_equal.
    + apply filter_all. intros a Ha. now rewrite Hlowin.
    + rewrite (bfilter_ext _ (fun a => negb (le_score hi a))).
      * rewrite filter_suffix by exact Hhm. now rewrite drop_drop.
      * intros a Ha. now rewrite Hhighin.
Qed.
End Order.
End Spec.
