(* ===== verification/SkiplistThm.v ===== *)
(** * Skip list: the theorems

    Each operation refines its abstract operation on the ordered sequence of
    items; any sequence of updates does; the traversals, the validation and
    the release of the memory behave as promised. *)

From Stdlib Require Import ZArith Lia List Bool.
From Stdlib Require Import Floats.SpecFloat.
From stdpp Require Import base tactics list option gmap.
From S2P Require Import Prelude Doubles Skiplist SkiplistRep SkiplistInsert SkiplistDelete SkiplistSpec.

Open Scope hj_scope.
Open Scope nat_scope.

Section Updates.
Context {T : Type} (T0 : T) (compare : T -> T -> bool) `{!StrictWeak compare}.
Implicit Types (c : list (item T)) (p : list (entry T)) (s : skiplist T).

(** ** The conditions of the search loops at their boundaries *)

Lemma cond_before_ok s p sc o : rep T0 s p -> is_nan sc = false -> ordered compare (contents p) ->
  cond_ok (mem s) p (cond_before compare sc o) (prefix_len (before compare sc o) (contents p)).
Proof.
  intros R Hsc Ho. apply (cond_ok_item T0 s p (fun n => node_before compare n sc o)).
  - exact R.
  - now apply before_monotone.
  - intros n e Hobj Hs. unfold node_before, before. now rewrite Hobj, Hs.
Qed.

Lemma cond_score_lt_ok s p x : rep T0 s p -> is_nan x = false -> ordered compare (contents p) ->
  cond_ok (mem s) p (cond_score_lt x) (prefix_len (lt_score x) (contents p)).
Proof.
  intros R Hx Ho. apply (cond_ok_item T0 s p (fun n => dlt (score n) x)); [exact R| |].
  - now apply (lt_score_monotone compare).
  - intros n e _ Hs. unfold lt_score. now rewrite Hs.
Qed.

Lemma cond_score_le_ok s p x : rep T0 s p -> is_nan x = false -> ordered compare (contents p) ->
  cond_ok (mem s) p (cond_score_le x) (prefix_len (le_score x) (contents p)).
Proof.
  intros R Hx Ho. apply (cond_ok_item T0 s p (fun n => dle (score n) x)); [exact R| |].
  - now apply (le_score_monotone compare).
  - intros n e _ Hs. unfold le_score. now rewrite Hs.
Qed.

Lemma cond_rank_lt_ok (h : gmap addr (node T)) p rank : cond_ok h p (cond_rank_lt rank) rank.
Proof.
  intros k k' e Hk _ _. unfold cond_rank_lt, nsub.
  replace (k + (k' - k)) with k' by lia.
  replace (1 <=? k') with true by (symmetry; apply Nat.leb_le; lia). f_equal.
  case_bool_decide; [apply Nat.ltb_lt|apply Nat.ltb_ge]; lia.
Qed.

Lemma cond_rank_le_ok (h : gmap addr (node T)) p start : cond_ok h p (cond_rank_le start) start.
Proof.
  intros k k' e Hk _ _. unfold cond_rank_le. replace (k + (k' - k)) with k' by lia. f_equal.
  case_bool_decide; [apply Nat.leb_le|apply Nat.leb_gt]; lia.
Qed.

Lemma header_stable s s' p p' : rep T0 s p -> rep T0 s' p' -> p' !! 0 = p !! 0 ->
  header s' = header s.
Proof.
  intros R R' E. destruct (rep_path _ _ _ R) as [H _], (rep_path _ _ _ R') as [H' _].
  rewrite E, H in H'. now injection H' as ->.
Qed.

(** ** Updates and their specification *)

Inductive op :=
| OpInsert (a : addr) (draw : nat -> bool) (sc : double) (o : T)
| OpDelete (sc : double) (o : T)
| OpDeleteScores (lo hi : double)
| OpDeleteRanks (start end_ : nat).

Inductive result := RNode (a : addr) | RFound (b : bool) | RCount (n : nat).

Definition exec (u : op) s : option (result * skiplist T) :=
  match u with
  | OpInsert a draw sc o => let* (x, s) := insert compare a draw sc o s in Some (RNode x, s)
  | OpDelete sc o => let* (b, s) := delete_node compare sc o s in Some (RFound b, s)
  | OpDeleteScores lo hi => let* (n, s) := delete_range_by_score lo hi s in Some (RCount n, s)
  | OpDeleteRanks i j => let* (n, s) := delete_range_by_rank i j s in Some (RCount n, s)
  end.

Definition spec (u : op) c : result * list (item T) :=
  match u with
  | OpInsert a _ sc o => (RNode a, insert_item compare (Item a sc o) c)
  | OpDelete sc o => let '(b, c') := delete_item compare sc o c in (RFound b, c')
  | OpDeleteScores lo hi => let '(n, c') := remove_range lo hi c in (RCount n, c')
  | OpDeleteRanks i j => let '(n, c') := remove_ranks i j c in (RCount n, c')
  end.

(** The allocator returns a free block; scores are numbers. *)
Definition allowed (hd : addr) (u : op) c : Prop :=
  match u with
  | OpInsert a _ sc _ => is_nan sc = false /\ a <> hd /\ a ∉ i_loc <$> c
  | OpDelete sc _ => is_nan sc = false
  | OpDeleteScores lo hi => is_nan lo = false /\ is_nan hi = false
  | OpDeleteRanks _ _ => True
  end.

#[export] Instance allowed_dec hd u c : Decision (allowed hd u c).
Proof. destruct u; cbn [allowed]; apply _. Defined.

Lemma free_block s p a : rep T0 s p -> a <> header s -> a ∉ i_loc <$> contents p -> mem s !! a = None.
Proof.
  intros R Hh Hc. destruct (mem s !! a) as [n|] eqn:E; [|reflexivity]. exfalso.
  assert (Hin : a ∈ e_loc <$> p) by (apply (rep_dom _ _ _ R); eauto).
  apply list_elem_of_lookup in Hin as [k Hk]. rewrite list_lookup_fmap in Hk. destruct k as [|k].
  - destruct (rep_path _ _ _ R) as [H0 _]. rewrite H0 in Hk. cbn in Hk. congruence.
  - apply Hc. apply (list_elem_of_lookup_2 _ k).
    rewrite list_lookup_fmap, <- contents_loc. exact Hk.
Qed.

Definition refined hd s c : Prop := refines T0 s c /\ header s = hd /\ ordered compare c.

Lemma insert_refined hd s c a draw sc o : refined hd s c -> allowed hd (OpInsert a draw sc o) c ->
  exists s', insert compare a draw sc o s = Some (a, s')
    /\ refined hd s' (insert_item compare (Item a sc o) c).
Proof.
  intros ((p & R & <-) & <- & Ho) (Hsc & Hhd & Hfresh).
  set (m := prefix_len (before compare sc o) (contents p)).
  pose proof (prefix_bound T0 s p (before compare sc o) R) as Hm.
  destruct (insert_rep T0 compare s p m a draw sc o) as (s' & E & R').
  { exact R. } { exact Hm. } { now apply cond_before_ok. } { now apply (free_block s p). }
  exists s'. split; [exact E|]. split; [|split].
  - eexists. split; [exact R'|]. now rewrite contents_ins.
  - eapply header_stable; [exact R|exact R'|]. apply ins_low; [exact Hm|lia].
  - now apply ordered_insert.
Qed.

(** Deleting a run of items after a boundary. *)
Lemma cut_refined hd s p m k s' : rep T0 s p -> header s = hd -> m < length p ->
  ordered compare (contents p) -> rep T0 s' (take (S m) p ++ drop (S (m + k)) p) ->
  refined hd s' (take m (contents p) ++ drop (m + k) (contents p)).
Proof.
  intros R <- Hm Ho R'. split; [|split].
  - eexists. split; [exact R'|]. rewrite (contents_cut T0 s) by (exact R || lia). reflexivity.
  - eapply header_stable; [exact R|exact R'|].
    rewrite lookup_app_l by (rewrite length_take; lia). apply lookup_take_lt. lia.
  - apply (ordered_sublist compare (contents p)); [|exact Ho].
    rewrite <- (take_drop m (contents p)) at 3. apply sublist_app; [reflexivity|].
    rewrite <- drop_drop. apply sublist_drop.
Qed.

Lemma delete_node_refined hd s c sc o : refined hd s c -> is_nan sc = false ->
  exists s', delete_node compare sc o s = Some (fst (delete_item compare sc o c), s')
    /\ refined hd s' (snd (delete_item compare sc o c)).
Proof.
  intros ((p & R & <-) & Hhd & Ho) Hsc.
  set (m := prefix_len (before compare sc o) (contents p)).
  pose proof (prefix_bound T0 s p (before compare sc o) R) as Hm.
  destruct (search_item T0 s p (cond_before compare sc o) m R Hm) as (x & upd & rk & Es & Ef & Ha & _).
  { now apply cond_before_ok. }
  pose proof (find_matches compare sc o (contents p) Hsc Ho) as Hfind. cbn zeta in Hfind. fold m in Hfind.
  unfold delete_node, delete_item. cbn [fst snd]. rewrite Es, Ef.
  assert (Hnone : find_index (matches compare sc o) (contents p) = length (contents p) ->
    exists s', Some (false, s) = Some (find_index (matches compare sc o) (contents p) <? length (contents p), s')
      /\ refined hd s' (delete (find_index (matches compare sc o) (contents p)) (contents p))).
  { intros ->. exists s. rewrite Nat.ltb_irrefl. split; [reflexivity|].
    rewrite delete_take_drop, take_ge, drop_ge, app_nil_r by lia.
    split; [exists p; auto|auto]. }
  destruct (contents p !! m) as [it|] eqn:E; cbn [fmap option_fmap option_map]; [|now apply Hnone].
  destruct (node_item T0 p s m it R E) as (n & -> & Hobj & Hs & _).
  assert (Hmatch : node_matches compare n sc o = matches compare sc o it).
  { unfold node_matches, matches. now rewrite Hobj, Hs. }
  rewrite Hmatch. destruct (matches compare sc o it); [|now apply Hnone].
  rewrite contents_lookup in E. destruct (p !! S m) as [e|] eqn:Ee; [|discriminate].
  injection E as <-. cbn [i_loc item_of].
  destruct (unlink_next T0 s p m e upd R Ee Ha) as (s' & p' & Hp' & -> & R' & _).
  exists s'. rewrite Hfind. apply lookup_lt_Some in Ee.
  replace (m <? length (contents p)) with true.
  2: { symmetry. apply Nat.ltb_lt. pose proof (length_contents T0 s p R).
       pose proof (rep_length _ _ _ R). lia. }
  split; [reflexivity|]. rewrite delete_take_drop, <- Nat.add_1_r.
  apply (cut_refined hd s p m 1 s'); [exact R|exact Hhd|exact Hm|exact Ho|].
  rewrite Nat.add_1_r, <- Hp'. exact R'.
Qed.

Lemma run_length_scores hi p r : run_length (fun e _ => dle (e_score e) hi) p r
  = prefix_len (le_score hi) (item_of <$> p).
Proof.
  revert r. induction p as [|e p IH]; intros r; cbn; [reflexivity|].
  unfold le_score at 1. cbn [i_score item_of]. destruct (dle (e_score e) hi); [|reflexivity].
  now rewrite IH.
Qed.

Lemma run_length_ranks start e p r : run_length (fun (_ : entry T) r => start + r <=? e) p r
  = length p `min` (S e - (start + r)).
Proof.
  revert r. induction p as [|x p IH]; intros r; cbn [run_length length]; [lia|].
  destruct (Nat.leb_spec (start + r) e); [|lia]. rewrite IH. lia.
Qed.

Lemma contents_drop p m : item_of <$> drop (S m) p = drop m (contents p).
Proof. unfold contents. destruct p; cbn; rewrite ?drop_nil, ?drop_0; [done|]. now rewrite fmap_drop. Qed.

Lemma delete_range_refined hd s p keep keepe m cn : rep T0 s p -> header s = hd ->
  ordered compare (contents p) -> m < length p -> cond_ok (mem s) p cn m ->
  (forall (nd : node T) (e : entry T), obj nd = e_obj e -> score nd = e_score e ->
     forall r, keep nd r = keepe e r) ->
  let k := run_length keepe (drop (S m) p) 0 in
  exists s', (let* (x, _, update, _) := search cn s in
              let* f := forward_at (mem s) x 0 in
              delete_while (fuel s) keep f update 0 s) = Some (k, s')
    /\ refined hd s' (take m (contents p) ++ drop (m + k) (contents p)).
Proof.
  intros R Hhd Ho Hm Hc Hkeep k.
  destruct (search_item T0 s p cn m R Hm Hc) as (x & upd & rk & -> & -> & Ha & _).
  rewrite <- contents_loc.
  destruct (delete_while_rep T0 keep keepe m upd (fuel s) Hkeep s p 0 R Hm Ha) as (s' & E & R').
  { pose proof (fuel_enough T0 s p R). rewrite length_drop. lia. }
  exists s'. split; [exact E|]. eapply cut_refined; eassumption.
Qed.

Lemma delete_range_by_score_refined hd s c lo hi : refined hd s c ->
  is_nan lo = false -> is_nan hi = false ->
  exists s', delete_range_by_score lo hi s = Some (fst (remove_range lo hi c), s')
    /\ refined hd s' (snd (remove_range lo hi c)).
Proof.
  intros ((p & R & <-) & Hhd & Ho) Hlo Hhi.
  destruct (delete_range_refined hd s p (fun n _ => dle (score n) hi) (fun e _ => dle (e_score e) hi)
    (prefix_len (lt_score lo) (contents p)) (cond_score_lt lo)) as (s' & E & Hr).
  { exact R. } { exact Hhd. } { exact Ho. } { eapply prefix_bound. exact R. } { now apply cond_score_lt_ok. }
  { intros nd e _ -> _. reflexivity. }
  exists s'. unfold delete_range_by_score. rewrite E. clear E.
  destruct (filter_range compare lo hi (contents p) Hlo Hhi Ho) as [H1 H2].
  unfold remove_range. cbn [fst snd]. rewrite H1, H2.
  rewrite run_length_scores, contents_drop in *. split; [|exact Hr].
  rewrite length_take. do 2 f_equal. pose proof (prefix_len_le (le_score hi)
    (drop (prefix_len (lt_score lo) (contents p)) (contents p))). lia.
Qed.

Lemma delete_range_by_rank_refined hd s c i j : refined hd s c ->
  exists s', delete_range_by_rank i j s = Some (fst (remove_ranks i j c), s')
    /\ refined hd s' (snd (remove_ranks i j c)).
Proof.
  intros ((p & R & <-) & Hhd & Ho). unfold delete_range_by_rank, remove_ranks. cbn [fst snd].
  pose proof (length_contents T0 s p R) as Hlen. rewrite length_take, length_drop, Hlen.
  destruct (Nat.ltb_spec j i) as [Hij|Hij].
  { exists s. cbn [orb]. replace (S j - i) with 0 by lia. rewrite Nat.add_0_r, take_drop. cbn.
    split; [reflexivity|]. split; [exists p|]; auto. }
  destruct (Nat.leb_spec (length_ s) i) as [Hi|Hi].
  { exists s. cbn [orb]. rewrite take_ge, drop_ge, app_nil_r by lia.
    split; [do 2 f_equal; lia|]. split; [exists p|]; auto. }
  cbn [orb]. set (j' := if length_ s <=? j then length_ s - 1 else j).
  assert (Hj' : j' = j `min` (length_ s - 1)).
  { subst j'. destruct (Nat.leb_spec (length_ s) j); lia. }
  pose proof (rep_length _ _ _ R) as Hp.
  destruct (delete_range_refined hd s p (fun _ r => i + r <=? j') (fun _ r => i + r <=? j')
    i (cond_rank_le i)) as (s' & E & Hr); [auto..|lia|apply cond_rank_le_ok|auto|].
  exists s'. rewrite E. clear E. rewrite run_length_ranks, length_drop in *.
  split; [do 2 f_equal; lia|].
  destruct (decide (j < length_ s)) as [Hjl|Hjl].
  - replace (S j - i) with ((length p - S i) `min` (S j' - (i + 0))) by lia. exact Hr.
  - rewrite (drop_ge (contents p)) by lia. rewrite (drop_ge (contents p)) in Hr by lia. exact Hr.
Qed.

Lemma exec_refined hd u s c : refined hd s c -> allowed hd u c ->
  exists s', exec u s = Some (fst (spec u c), s') /\ refined hd s' (snd (spec u c)).
Proof.
  intros Hr Ha. destruct u as [a draw sc o|sc o|lo hi|i j]; cbn [exec spec allowed] in *.
  - destruct (insert_refined hd s c a draw sc o Hr Ha) as (s' & -> & H). exists s'. auto.
  - destruct (delete_node_refined hd s c sc o Hr Ha) as (s' & -> & H).
    destruct (delete_item compare sc o c). exists s'. auto.
  - destruct Ha as [H1 H2]. destruct (delete_range_by_score_refined hd s c lo hi Hr H1 H2) as (s' & -> & H).
    destruct (remove_range lo hi c). exists s'. auto.
  - destruct (delete_range_by_rank_refined hd s c i j Hr) as (s' & -> & H).
    destruct (remove_ranks i j c). exists s'. auto.
Qed.

Lemma make_refined a : refined a (make T0 a) [].
Proof.
  split; [|split; [reflexivity|]].
  2: { split; [constructor|]. intros i j x y _ H. now rewrite lookup_nil in H. }
  exists [Entry a SKIPLIST_MAXLEVEL dzero T0]. split; [|reflexivity].
  split; cbn [make mem header tail length_ level_]; try reflexivity.
  - split; [reflexivity|]. cbn. apply NoDup_singleton.
  - unfold SKIPLIST_MAXLEVEL. lia.
  - intros k e H. discriminate H.
  - intros [|k] e H; [|discriminate H]; injection H as <-.
    unfold fields. rewrite lookup_singleton_eq. reflexivity.
  - intros [|k] e i H Hi; [|discriminate H]; injection H as <-. cbn [e_height e_loc] in *.
    exists (Level None 0). unfold level_at. rewrite lookup_singleton_eq. cbn [levels create_node].
    rewrite lookup_replicate_2 by exact Hi. unfold fw, dist.
    assert (nx [Entry a SKIPLIST_MAXLEVEL dzero T0] i 0 = 1) as -> by reflexivity. auto.
  - intros x [n Hn]. apply lookup_singleton_Some in Hn as [-> _]. cbn. now apply list_elem_of_singleton.
Qed.

(** ** Sequences of updates *)

Fixpoint run (us : list op) s : option (list result * skiplist T) :=
  match us with
  | [] => Some ([], s)
  | u :: us => let* (r, s) := exec u s in let* (rs, s) := run us s in Some (r :: rs, s)
  end.

Fixpoint spec_run (us : list op) c : list result * list (item T) :=
  match us with
  | [] => ([], c)
  | u :: us => let '(r, c) := spec u c in let '(rs, c) := spec_run us c in (r :: rs, c)
  end.

Fixpoint all_allowed (hd : addr) (us : list op) c : Prop :=
  match us with
  | [] => True
  | u :: us => allowed hd u c /\ all_allowed hd us (snd (spec u c))
  end.

#[export] Instance all_allowed_dec hd us c : Decision (all_allowed hd us c).
Proof. revert c. induction us as [|u us IH]; intros c; cbn [all_allowed]; apply _. Defined.

Lemma run_refined hd us s c : refined hd s c -> all_allowed hd us c ->
  exists s', run us s = Some (fst (spec_run us c), s') /\ refined hd s' (snd (spec_run us c)).
Proof.
  revert s c. induction us as [|u us IH]; intros s c Hr Ha; cbn [run spec_run].
  - exists s. auto.
  - destruct Ha as [Ha Has]. destruct (exec_refined hd u s c Hr Ha) as (s1 & -> & Hr1).
    destruct (spec u c) as [r c1]. cbn [fst snd] in *.
    destruct (IH s1 c1 Hr1 Has) as (s2 & -> & Hr2).
    destruct (spec_run us c1) as [rs c2]. exists s2. auto.
Qed.
End Updates.

(** ** Theorems *)

(** C1: starting from the constructor, any sequence of insertions, deletions,
    score-range and rank-range deletions (with a correct allocator and scores
    that are numbers) runs without undefined behaviour, terminates, returns
    what the abstract ordered sequence returns, and leaves a heap that holds
    exactly the abstract sequence, still ordered. *)
Theorem skiplist_run {T} (T0 : T) (compare : T -> T -> bool) `{!StrictWeak compare}
    (us : list op) (hd : addr) :
  all_allowed compare hd us [] ->
  exists s', run compare us (make T0 hd) = Some (fst (spec_run compare us []), s')
    /\ refined T0 compare hd s' (snd (spec_run compare us [])).
Proof. intros Ha. apply run_refined; [exact _|apply make_refined|exact Ha]. Qed.

Definition demo_ops : list (op (T := nat)) :=
  [OpInsert 2 (fun k => k =? 0) (score_of 5) 50; OpInsert 3 (fun _ => false) (score_of 3) 30;
   OpInsert 4 (fun k => k <? 3) (score_of 4) 40; OpDelete (score_of 3) 30;
   OpInsert 3 (fun _ => false) (score_of 9) 90; OpDeleteScores (score_of 1) (score_of 4);
   OpDeleteRanks 1 7].

Lemma skiplist_run_witness :
  all_allowed Nat.ltb 1 demo_ops []
  /\ spec_run Nat.ltb demo_ops [] =
     ([RNode 2; RNode 3; RNode 4; RFound true; RNode 3; RCount 1; RCount 1], [Item 2 (score_of 5) 50])
  /\ exists s', run Nat.ltb demo_ops (make 0 1) = Some (fst (spec_run Nat.ltb demo_ops []), s')
    /\ refined 0 Nat.ltb 1 s' (snd (spec_run Nat.ltb demo_ops [])).
Proof.
  assert (H : all_allowed Nat.ltb 1 demo_ops []).
  { apply (bool_decide_unpack _). vm_compute. exact I. }
  split; [exact H|]. split; [vm_compute; reflexivity|].
  exact (skiplist_run 0 Nat.ltb demo_ops 1 H).
Defined.
