(* ===== verification/SkiplistQueries.v ===== *)
(** * Skip list: queries, traversals and release

    The read-only operations of [algo/skiplist.hpp] return what the ordered
    sequence of items says; the iterators visit it in both directions;
    [release] frees every block once. *)

From Stdlib Require Import ZArith Lia List Bool.
From Stdlib Require Import Floats.SpecFloat.
From stdpp Require Import base tactics list option gmap.
From S2P Require Import Prelude Doubles Skiplist SkiplistRep SkiplistInsert SkiplistDelete SkiplistSpec SkiplistThm.

Open Scope hj_scope.
Open Scope nat_scope.

Section Queries.
Context {T : Type} (T0 : T) (compare : T -> T -> bool) `{!StrictWeak compare}.
Implicit Types (c : list (item T)) (p : list (entry T)) (s : skiplist T) (h : gmap addr (node T)).

(** ** Ranks *)

Lemma element_by_rank hd s c rank : refined T0 compare hd s c ->
  get_element_by_rank rank s = Some (i_loc <$> c !! rank).
Proof.
  intros ((p & R & <-) & _). unfold get_element_by_rank.
  pose proof (length_contents T0 s p R) as Hlen.
  destruct (Nat.leb_spec (length_ s) rank) as [Hr|Hr].
  - now rewrite lookup_ge_None_2 by lia.
  - pose proof (rep_length _ _ _ R).
    destruct (search_item T0 s p (cond_rank_lt rank) rank R) as (x & upd & rk & -> & -> & _);
      [lia|apply cond_rank_lt_ok|reflexivity].
Qed.

(** The loop of [get_rank] from position [k] of the level above [i]. *)
Lemma rank_loop s p sc o i : rep T0 s p -> is_nan sc = false -> ordered compare (contents p) ->
  let m := prefix_len (before compare sc o) (contents p) in
  i <= level_ s -> forall k e, k <= m -> p !! k = Some e -> i <= e_height e ->
  exists r, get_rank_loop compare (fuel s) sc o (mem s) i (e_loc e) k (length_ s) = Some r
    /\ ((exists it, contents p !! r = Some it /\ matches compare sc o it = true)
        \/ (r = length_ s /\ (0 < i -> forall it, contents p !! m = Some it -> matches compare sc o it = false))).
Proof.
  intros R Hsc Ho m. pose proof (prefix_bound T0 s p (before compare sc o) R) as Hm. fold m in Hm.
  pose proof (fuel_enough T0 s p R) as Hfuel. pose proof (rep_level _ _ _ R) as Hlv.
  induction i as [|i IH]; intros Hi k e Hk E Hh; cbn [get_rank_loop].
  { exists (length_ s). split; [reflexivity|]. right. split; [reflexivity|lia]. }
  destruct (walk_spec T0 (mem s) p (header s) (level_ s) (cond_before compare sc o) m i k e (fuel s))
    as (q & e' & Hq & E' & ->); [apply R|apply R|now apply (cond_before_ok T0 compare)|lia|lia|lia|exact E|lia|lia|].
  pose proof (nx_pv p i m q Hm Hq) as Hnx. destruct Hq as (Hqm & (e2 & E2 & Hh2) & _).
  rewrite E' in E2. injection E2 as <-.
  destruct (rep_levels _ _ _ R q e' i E' Hh2) as (l & -> & Hf & Hs). rewrite Hf. unfold fw.
  assert (Hrec : exists r, get_rank_loop compare (fuel s) sc o (mem s) i (e_loc e') q (length_ s) = Some r
    /\ ((exists it, contents p !! r = Some it /\ matches compare sc o it = true)
        \/ (r = length_ s /\ (0 < i -> forall it, contents p !! m = Some it -> matches compare sc o it = false))))
    by (apply IH; [lia|lia|exact E'|lia]).
  pose proof (lookup_lt_Some _ _ _ E') as Hql. destruct (nx_is p i q Hql) as (Hn1 & _ & _).
  assert (Hlast : i = 0 -> nx p i q = S m).
  { intros ->. rewrite Hnx. apply (nx_0 T0 p (header s) (level_ s)); [apply R|apply R|exact Hm]. }
  destruct (p !! nx p i q) as [e3|] eqn:E3; cbn [fmap option_fmap option_map].
  - destruct (node_of_rep _ _ _ _ (rep_fields _ _ _ R) E3) as (n & -> & Hobj & Hsc3 & _).
    assert (Hnm : node_matches compare n sc o = matches compare sc o (item_of e3)).
    { unfold node_matches, matches. now rewrite Hobj, Hsc3. }
    rewrite Hnm. destruct (nx p i q) as [|j] eqn:En; [lia|].
    destruct (matches compare sc o (item_of e3)) eqn:Em.
    + apply lookup_lt_Some in E3 as Hl3. unfold nsub.
      assert (Hsp : q + span l = S j) by (rewrite Hs by lia; unfold dist; rewrite En; lia).
      rewrite Hsp. exists j. split; [cbn; f_equal; lia|]. left. exists (item_of e3).
      split; [now rewrite contents_lookup, E3|exact Em].
    + destruct Hrec as (r & Hr & [H|[Hr' H]]); exists r; (split; [exact Hr|]); [now left|right].
      split; [exact Hr'|]. intros _ it Hit. destruct (Nat.eq_dec i 0) as [Hi0|Hi0]; [|apply H; [lia|exact Hit]].
      specialize (Hlast Hi0). assert (j = m) as -> by lia.
      rewrite contents_lookup, E3 in Hit. cbn in Hit. congruence.
  - destruct Hrec as (r & Hr & [H|[Hr' H]]); exists r; (split; [exact Hr|]); [now left|right].
    split; [exact Hr'|]. intros _ it Hit. destruct (Nat.eq_dec i 0) as [Hi0|Hi0]; [|apply H; [lia|exact Hit]].
    rewrite Hlast in E3 by exact Hi0. now rewrite contents_lookup, E3 in Hit.
Qed.

Lemma rank_of hd s c sc o : refined T0 compare hd s c -> is_nan sc = false ->
  exists r, get_rank compare sc o s = Some r
    /\ ((exists it, c !! r = Some it /\ matches compare sc o it = true)
        \/ (r = length c /\ forall it, it ∈ c -> matches compare sc o it = false)).
Proof.
  intros ((p & R & <-) & _ & Ho) Hsc. destruct (rep_path _ _ _ R) as [H0 _].
  pose proof (rep_level _ _ _ R) as Hlv.
  destruct (rank_loop s p sc o (level_ s) R Hsc Ho (le_n _) 0 _ (Nat.le_0_l _) H0) as (r & Hr & H);
    [cbn [e_height]; lia|].
  exists r. split; [exact Hr|]. destruct H as [H|[-> H]]; [now left|right].
  split; [symmetry; eapply length_contents; exact R|]. intros it Hit.
  pose proof (find_matches compare sc o (contents p) Hsc Ho) as Hfind. cbn zeta in Hfind.
  assert (Hall : find_index (matches compare sc o) (contents p) = length (contents p)).
  { destruct (contents p !! prefix_len (before compare sc o) (contents p)) as [it'|] eqn:E; [|exact Hfind].
    now rewrite (H ltac:(lia) it' eq_refl) in Hfind. }
  apply list_elem_of_lookup in Hit as [k Hk]. apply negb_true_iff.
  apply (prefix_len_lt (fun a => negb (matches compare sc o a)) (contents p) k it); [|exact Hk].
  fold (find_index (matches compare sc o) (contents p)). rewrite Hall. now apply lookup_lt_Some in Hk.
Qed.

(** ** Chains of level-0 pointers *)

Fixpoint chain h c : Prop :=
  match c with
  | [] => True
  | it :: c => (exists n, h !! i_loc it = Some n /\ obj n = i_obj it /\ score n = i_score it)
      /\ forward_at h (i_loc it) 0 = Some (i_loc <$> head c) /\ chain h c
  end.

Lemma rep_chain s p : rep T0 s p -> chain (mem s) (contents p).
Proof.
  intros R. assert (H : forall k, chain (mem s) (drop k (contents p))).
  { intros k. remember (drop k (contents p)) as c eqn:Ec. revert k Ec.
    induction c as [|it c IH]; intros k Ec; cbn [chain]; [exact I|].
    assert (Hk : contents p !! k = Some it) by (rewrite <- (Nat.add_0_r k), <- lookup_drop, <- Ec; reflexivity).
    assert (Ec' : c = drop (S k) (contents p)).
    { rewrite (drop_S _ _ _ Hk) in Ec. now injection Ec. }
    destruct (node_item T0 p s k it R Hk) as (n & E & Hob & Hs & Hf).
    split_and!; [now exists n| |exact (IH (S k) Ec')].
    rewrite Hf. do 2 f_equal. rewrite Ec'. rewrite head_lookup, lookup_drop. f_equal. lia. }
  exact (H 0).
Qed.

Lemma chain_drop h c k : chain h c -> chain h (drop k c).
Proof.
  revert c. induction k as [|k IH]; intros [|it c] H; cbn [drop]; try exact H. apply IH, H.
Qed.

Lemma contents_fuel s p : rep T0 s p -> length (contents p) < fuel s.
Proof.
  intros R. pose proof (fuel_enough T0 s p R). pose proof (rep_length _ _ _ R).
  pose proof (length_contents T0 s p R). lia.
Qed.

(** [for(auto it = begin(); it != end(); ++it)] and its reverse from [last()]
    with [operator--]: the nodes visited. *)
Fixpoint visit (n : nat) (move : option addr -> option (option addr)) (x : option addr)
  : option (list addr) :=
  match n with
  | O => None
  | S n =>
      match x with
      | None => Some []
      | Some y => let* z := move x in let* l := visit n move z in Some (y :: l)
      end
  end.

Lemma visit_forward h c n : chain h c -> length c < n ->
  visit n (iter_next h) (i_loc <$> head c) = Some (i_loc <$> c).
Proof.
  revert n. induction c as [|it c IH]; intros [|n] Hc Hn; cbn in Hn; try lia; [reflexivity|].
  destruct Hc as (_ & Hf & Hc). cbn [visit head fmap option_fmap option_map iter_next].
  rewrite Hf, IH by (assumption || lia). reflexivity.
Qed.

Lemma visit_backward s p k n : rep T0 s p -> k < length p -> k < n ->
  visit n (iter_prev (mem s)) (back p (S k)) = Some (i_loc <$> rev (take k (contents p))).
Proof.
  intros R. revert n. induction k as [|k IH]; intros [|n] Hk Hn; try lia; [reflexivity|].
  destruct (lookup_lt_is_Some_2 p (S k) Hk) as [e E].
  cbn [back]. rewrite E. cbn [fmap option_fmap option_map visit iter_prev].
  destruct (node_of_rep _ _ _ _ (rep_fields _ _ _ R) E) as (nd & -> & _ & _ & ->).
  rewrite IH by lia.
  assert (Hit : contents p !! k = Some (item_of e)) by now rewrite contents_lookup, E.
  rewrite (take_S_r _ _ _ Hit), rev_app_distr. reflexivity.
Qed.

(** ** Validation *)

Lemma validate_chain h c n count len : chain h c -> ordered compare c -> length c < n ->
  validate_loop n h (i_loc <$> head c) count len = Some (count + length c =? len).
Proof.
  revert n count. induction c as [|it c IH]; intros [|n] count Hc Ho Hn; cbn in Hn; try lia.
  { cbn. now rewrite Nat.add_0_r. }
  destruct Hc as ((nd & E & _ & Hs) & Hf & Hc). cbn [head fmap option_fmap option_map validate_loop].
  rewrite E, Hf.
  assert (Hrec : validate_loop n h (i_loc <$> head c) (S count) len = Some (count + length (it :: c) =? len)).
  { rewrite IH; [do 2 f_equal; cbn; lia|exact Hc| |lia].
    eapply ordered_sublist; [|exact Ho]. now constructor. }
  destruct c as [|it' c]; [exact Hrec|]. cbn [head fmap option_fmap option_map] in *.
  destruct Hc as ((nd' & -> & _ & Hs') & _). rewrite Hs, Hs'.
  pose proof (ordered_score compare _ 0 1 it it' Ho ltac:(lia) eq_refl eq_refl) as Hle.
  rewrite dle_negb in Hle.
  - apply negb_true_iff in Hle. now rewrite Hle.
  - now apply (ordered_lookup compare _ 0 it Ho).
  - now apply (ordered_lookup compare _ 1 it' Ho).
Qed.

(** ** Release *)

Lemma chain_delete h c x : chain h c -> x ∉ i_loc <$> c -> chain (delete x h) c.
Proof.
  induction c as [|it c IH]; intros Hc Hx; [exact I|].
  cbn [fmap list_fmap] in Hx. apply not_elem_of_cons in Hx as [Hne Hx].
  destruct Hc as (Hn & Hf & Hc). split_and!; [|  |now apply IH].
  - now rewrite lookup_delete_ne by congruence.
  - rewrite <- Hf. unfold forward_at, level_at. now rewrite lookup_delete_ne by congruence.
Qed.

Lemma release_chain h c n : chain h c -> NoDup (i_loc <$> c) -> length c < n ->
  exists h', release_loop n h (i_loc <$> head c) = Some h'
    /\ forall x, h' !! x = if decide (x ∈ i_loc <$> c) then None else h !! x.
Proof.
  revert h n. induction c as [|it c IH]; intros h [|n] Hc Hnd Hn; cbn in Hn; try lia.
  { exists h. split; [reflexivity|]. intros x. rewrite decide_False; [reflexivity|]. apply not_elem_of_nil. }
  destruct Hc as ((nd & E & _) & Hf & Hc). cbn [head fmap option_fmap option_map list_fmap release_loop] in *.
  apply NoDup_cons in Hnd as [Hni Hnd]. rewrite Hf. unfold free_node. rewrite E.
  destruct (IH (delete (i_loc it) h) n) as (h' & -> & Hh'); [now apply chain_delete|exact Hnd|lia|].
  exists h'. split; [reflexivity|]. intros x. rewrite Hh'.
  destruct (decide (x = i_loc it)) as [->|Hx].
  - rewrite lookup_delete_eq. rewrite (decide_True (P := _ ∈ i_loc it :: _)) by now left.
    now case_decide.
  - rewrite lookup_delete_ne by congruence. repeat case_decide; try reflexivity; exfalso;
      rewrite elem_of_cons in *; tauto.
Qed.

(** ** Score ranges *)

Lemma is_in_range_spec s p lo hi : rep T0 s p -> ordered compare (contents p) ->
  is_nan lo = false -> is_nan hi = false ->
  exists b, is_in_range lo hi s = Some b
    /\ (b = false -> List.filter (in_range lo hi) (contents p) = [])
    /\ (b = true -> exists it, contents p !! 0 = Some it /\ le_score hi it = true).
Proof.
  intros R Ho Hlo Hhi. unfold is_in_range.
  assert (Hnum : forall k it, contents p !! k = Some it -> number it) by (intros; eapply ordered_lookup; eauto).
  destruct (dlt hi lo) eqn:Elh.
  { exists false. split_and!; [reflexivity| |discriminate]. intros _. apply filter_none. intros it Hit.
    unfold in_range. apply list_elem_of_lookup in Hit as [k Hk]. specialize (Hnum k it Hk).
    destruct (dle lo (i_score it)) eqn:E; [|reflexivity]. cbn.
    pose proof (dlt_le_trans _ _ _ Hhi Hlo Hnum Elh E). rewrite dle_negb by assumption. now rewrite H. }
  rewrite (rep_tail _ _ _ R). pose proof (rep_length _ _ _ R) as Hlen.
  pose proof (length_contents T0 s p R) as Hlc. rewrite <- Hlen.
  destruct (length_ s) as [|k] eqn:Ek; cbn [back].
  { exists false. split_and!; [reflexivity| |discriminate]. now destruct (contents p). }
  destruct (lookup_lt_is_Some_2 (contents p) k) as [it Hit]; [lia|].
  rewrite contents_loc, Hit. cbn [fmap option_fmap option_map].
  destruct (node_item T0 p s k it R Hit) as (n & -> & _ & -> & _).
  destruct (dlt (i_score it) lo) eqn:El.
  { exists false. split_and!; [reflexivity| |discriminate]. intros _. apply filter_none. intros it' Hit'.
    apply list_elem_of_lookup in Hit' as [j Hj]. unfold in_range. rewrite dle_negb by (assumption || (eapply Hnum; eassumption)).
    replace (dlt (i_score it') lo) with true; [reflexivity|]. symmetry. fold (lt_score lo it').
    destruct (decide (j = k)) as [->|Hne]; [now simplify_eq|].
    pose proof (lookup_lt_Some _ _ _ Hj).
    apply (lt_score_monotone compare lo _ Hlo Ho j k it' it); [lia|exact Hj|exact Hit|exact El]. }
  rewrite (first_item T0 p s R).
  destruct (lookup_lt_is_Some_2 (contents p) 0) as [it0 Hit0]; [lia|]. rewrite Hit0.
  cbn [fmap option_fmap option_map].
  destruct (node_item T0 p s 0 it0 R Hit0) as (n0 & -> & _ & -> & _).
  eexists. split_and!; [reflexivity| |].
  - intros Hb. apply negb_false_iff in Hb. apply filter_none. intros it' Hit'.
    apply list_elem_of_lookup in Hit' as [j Hj]. unfold in_range.
    destruct (dle (i_score it') hi) eqn:E; [|apply andb_false_r]. exfalso.
    destruct (decide (j = 0)) as [->|Hne].
    + simplify_eq. rewrite dle_negb in E by (assumption || (eapply Hnum; eassumption)). rewrite Hb in E. discriminate.
    + pose proof (le_score_monotone compare hi _ Hhi Ho 0 j it0 it') as H.
      unfold le_score in H. specialize (H ltac:(lia) Hit0 Hj E).
      rewrite dle_negb in H by (assumption || (eapply Hnum; eassumption)). rewrite Hb in H. discriminate.
  - intros Hb. exists it0. split; [reflexivity|]. unfold le_score. rewrite dle_negb by (assumption || (eapply Hnum; eassumption)). exact Hb.
Qed.

Lemma first_in_range_item s p lo hi : rep T0 s p -> ordered compare (contents p) ->
  is_nan lo = false -> is_nan hi = false ->
  first_in_range lo hi s = Some (i_loc <$> head (List.filter (in_range lo hi) (contents p))).
Proof.
  intros R Ho Hlo Hhi. unfold first_in_range.
  destruct (is_in_range_spec s p lo hi R Ho Hlo Hhi) as ([] & -> & Hb & _); cbn [negb].
  2: { now rewrite Hb. }
  destruct (search_item T0 s p (cond_score_lt lo) (prefix_len (lt_score lo) (contents p)) R)
    as (x & upd & rk & -> & -> & _); [eapply prefix_bound; exact R|now apply (cond_score_lt_ok T0 compare)|].
  destruct (filter_range compare lo hi (contents p) Hlo Hhi Ho) as [-> _].
  set (m := prefix_len (lt_score lo) (contents p)).
  destruct (contents p !! m) as [it|] eqn:E; cbn [fmap option_fmap option_map].
  - destruct (node_item T0 p s m it R E) as (n & -> & _ & -> & _).
    rewrite (drop_S _ _ _ E). cbn [prefix_len]. unfold le_score at 1.
    rewrite dle_negb by (try assumption; eapply ordered_lookup; eauto).
    destruct (dlt hi (i_score it)); reflexivity.
  - apply lookup_ge_None in E. now rewrite drop_ge by lia.
Qed.

Lemma last_in_range_item s p lo hi : rep T0 s p -> ordered compare (contents p) ->
  is_nan lo = false -> is_nan hi = false ->
  last_in_range lo hi s = Some (i_loc <$> list.last (List.filter (in_range lo hi) (contents p))).
Proof.
  intros R Ho Hlo Hhi. unfold last_in_range.
  destruct (is_in_range_spec s p lo hi R Ho Hlo Hhi) as ([] & -> & Hb & Hfirst); cbn [negb].
  2: { now rewrite Hb. }
  destruct Hfirst as (it0 & Hit0 & Hle0); [reflexivity|].
  set (m := prefix_len (le_score hi) (contents p)).
  pose proof (le_score_monotone compare hi (contents p) Hhi Ho) as Hmono.
  assert (Hm : m <= length (contents p)) by apply prefix_len_le.
  destruct (search_item T0 s p (cond_score_le hi) m R)
    as (x & upd & rk & -> & _ & _ & Hx); [eapply prefix_bound; exact R|now apply (cond_score_le_ok T0 compare)|].
  rewrite (prefix_len_mono _ _ _ _ Hmono Hit0) in Hle0. apply bool_decide_eq_true_1 in Hle0.
  fold m in Hle0. destruct m as [|k] eqn:Em; [lia|]. specialize (Hx k eq_refl).
  destruct (lookup_lt_is_Some_2 (contents p) k) as [it Hit]; [lia|]. rewrite Hit in Hx.
  cbn in Hx. injection Hx as ->.
  destruct (node_item T0 p s k it R Hit) as (n & -> & _ & -> & _).
  assert (Hfil : List.filter (in_range lo hi) (contents p)
    = List.filter (fun it => dle lo (i_score it)) (take (S k) (contents p))).
  { rewrite <- (take_drop (S k) (contents p)) at 1. rewrite List.filter_app.
    rewrite (filter_none _ (drop (S k) _)), app_nil_r.
    - apply bfilter_ext. intros a Ha. apply list_elem_of_lookup in Ha as [i Hi].
      apply lookup_take_Some in Hi as [Hi Hik]. unfold in_range. fold (le_score hi a).
      rewrite (prefix_len_mono _ _ _ _ Hmono Hi). fold m. rewrite Em, bool_decide_eq_true_2 by lia.
      apply andb_true_r.
    - intros a Ha. apply list_elem_of_lookup in Ha as [i Hi]. rewrite lookup_drop in Hi.
      unfold in_range. fold (le_score hi a). rewrite (prefix_len_mono _ _ _ _ Hmono Hi). fold m.
      rewrite Em, bool_decide_eq_false_2 by lia. apply andb_false_r. }
  rewrite Hfil, (take_S_r _ _ _ Hit), List.filter_app. cbn [List.filter].
  rewrite dle_negb by (try assumption; eapply ordered_lookup; eauto).
  destruct (dlt (i_score it) lo) eqn:Elo; cbn [negb].
  - rewrite app_nil_r, filter_none; [reflexivity|]. intros a Ha.
    apply list_elem_of_lookup in Ha as [i Hi]. apply lookup_take_Some in Hi as [Hi Hik].
    rewrite dle_negb by (try assumption; eapply ordered_lookup; eauto).
    apply negb_false_iff. exact (lt_score_monotone compare lo _ Hlo Ho i k a it Hik Hi Hit Elo).
  - now rewrite last_snoc.
Qed.

(** ** Scans of a range *)

Fixpoint scan_len (hi : double) (more : nat -> bool) (steps : nat) c : nat :=
  match c with
  | [] => 0
  | it :: c => if le_score hi it && more steps then S (scan_len hi more (S steps) c) else 0
  end.

Lemma scan_chain h c n hi more steps acc : chain h c -> length c < n ->
  let k := scan_len hi more steps c in
  scan n h hi more (i_loc <$> head c) steps acc
  = Some (i_loc <$> head (drop k c), steps + k, acc ++ (i_loc <$> take k c)).
Proof.
  revert n steps acc. induction c as [|it c IH]; intros [|n] steps acc Hc Hn; cbn in Hn; try lia.
  { cbn. now rewrite Nat.add_0_r, app_nil_r. }
  destruct Hc as ((nd & E & _ & Hs) & Hf & Hc).
  cbn [head fmap option_fmap option_map scan scan_len]. rewrite E, Hs. fold (le_score hi it).
  destruct (le_score hi it && more steps); cbn [drop take head].
  - rewrite Hf, IH by (assumption || lia). rewrite <- app_assoc, Nat.add_succ_comm. reflexivity.
  - cbn. now rewrite Nat.add_0_r, app_nil_r.
Qed.

Lemma scan_len_bound hi n steps c :
  scan_len hi (fun i => i <? n) steps c = prefix_len (le_score hi) c `min` (n - steps).
Proof.
  revert steps. induction c as [|it c IH]; intros steps; cbn [scan_len prefix_len]; [lia|].
  destruct (le_score hi it); cbn [andb]; [|lia].
  destruct (Nat.ltb_spec steps n); [|lia]. rewrite IH. lia.
Qed.

Lemma scan_len_all hi more steps c : (forall i, more i = true) ->
  scan_len hi more steps c = prefix_len (le_score hi) c.
Proof.
  intros Hm. revert steps. induction c as [|it c IH]; intros steps; cbn [scan_len prefix_len]; [reflexivity|].
  rewrite Hm, andb_true_r, IH. now destruct (le_score hi it).
Qed.

Lemma prefix_len_drop {A} (q : A -> bool) (c : list A) k : k <= prefix_len q c ->
  prefix_len q (drop k c) = prefix_len q c - k.
Proof.
  revert c. induction k as [|k IH]; intros [|x c] Hk; cbn in *; try lia.
  destruct (q x); [|lia]. rewrite IH; lia.
Qed.

Definition limited {A} (limit : Z) (l : list A) : list A :=
  if (limit =? -1)%Z then l else take (Z.to_nat limit) l.

Lemma scan_len_limit hi limit c :
  scan_len hi (fun n => (limit =? -1)%Z || (Z.of_nat n <? limit)%Z) 0 c
  = if (limit =? -1)%Z then prefix_len (le_score hi) c
    else prefix_len (le_score hi) c `min` Z.to_nat limit.
Proof.
  destruct (limit =? -1)%Z; [now apply scan_len_all|]. cbn [orb].
  rewrite <- (Nat.sub_0_r (Z.to_nat limit)), <- scan_len_bound.
  generalize 0 as steps. induction c as [|it c IH]; intros steps; cbn [scan_len]; [reflexivity|].
  rewrite IH. replace (Z.of_nat steps <? limit)%Z with (steps <? Z.to_nat limit); [reflexivity|].
  destruct (Nat.ltb_spec steps (Z.to_nat limit)), (Z.ltb_spec (Z.of_nat steps) limit); try reflexivity; lia.
Qed.

Lemma range_by_score_items s p lo hi offset limit : rep T0 s p -> ordered compare (contents p) ->
  is_nan lo = false -> is_nan hi = false ->
  range_by_score s lo hi offset limit =
    let c := List.filter (in_range lo hi) (contents p) in
    Some (RangeResult (i_loc <$> limited limit (drop offset c)) (length c)).
Proof.
  intros R Ho Hlo Hhi. unfold range_by_score. rewrite (first_in_range_item s p) by assumption.
  destruct (filter_range compare lo hi (contents p) Hlo Hhi Ho) as [-> _].
  set (m := prefix_len (lt_score lo) (contents p)). set (c := drop m (contents p)).
  set (k := prefix_len (le_score hi) c). cbn zeta.
  pose proof (chain_drop _ _ m (rep_chain s p R)) as Hc. fold c in Hc.
  pose proof (contents_fuel s p R) as Hfuel.
  assert (Hlc : length c < fuel s) by (subst c; rewrite length_drop; lia).
  assert (Hk : k <= length c) by apply prefix_len_le.
  assert (Hhead : i_loc <$> head (take k c) = if k =? 0 then None else i_loc <$> head c).
  { destruct k as [|k']; [reflexivity|]. now destruct c. }
  rewrite Hhead. destruct (Nat.eqb_spec k 0) as [Hk0|Hk0].
  { rewrite Hk0. unfold limited. now destruct offset, (limit =? -1)%Z, (Z.to_nat limit). }
  destruct (i_loc <$> head c) as [y|] eqn:Eh; [rewrite <- Eh|].
  2: { exfalso. clear -Eh Hk Hk0. subst k. now destruct c. }
  rewrite (scan_chain (mem s) c) by assumption. rewrite scan_len_bound, Nat.sub_0_r. fold k.
  rewrite (scan_chain (mem s) (drop (k `min` offset) c)) by (try (apply chain_drop; assumption); rewrite length_drop; lia).
  rewrite scan_len_limit. rewrite prefix_len_drop by (fold k; lia). fold k.
  set (k2 := if (limit =? -1)%Z then _ else _). rewrite drop_drop.
  rewrite (scan_chain (mem s) (drop (k `min` offset + k2) c)) by (try (apply chain_drop; assumption); rewrite length_drop; lia).
  assert (Hk2 : k2 <= k - k `min` offset) by (subst k2; destruct (limit =? -1)%Z; lia).
  rewrite scan_len_all by reflexivity. rewrite prefix_len_drop by (fold k; lia). fold k.
  do 2 f_equal; [|rewrite length_take; lia]. cbn [app]. f_equal.
  unfold limited. rewrite skipn_firstn_comm.
  destruct (decide (offset <= k)) as [Hof|Hof].
  - replace (k `min` offset) with offset in * by lia.
    subst k2. destruct (limit =? -1)%Z; rewrite ?take_take; f_equal; lia.
  - replace (k - offset) with 0 by lia. replace k2 with 0 by lia.
    destruct (limit =? -1)%Z; [reflexivity|]. now destruct (Z.to_nat limit).
Qed.

(** ** Ranges of ranks *)

Lemma collect_items hd s c ranks r : refined T0 compare hd s c -> Forall (fun k => k < length c) ranks ->
  collect_ranks s ranks r
  = Some (RangeResult (nodes r ++ (i_loc <$> omap (fun k => c !! k) ranks)) (total_in_range r + length ranks)).
Proof.
  intros Hr Hall. revert r. induction Hall as [|k ranks Hk _ IH]; intros r; cbn [collect_ranks omap list_omap].
  { cbn. rewrite app_nil_r, Nat.add_0_r. now destruct r. }
  rewrite (element_by_rank hd s c k Hr). destruct (lookup_lt_is_Some_2 c k Hk) as [it ->].
  cbn [fmap option_fmap option_map list_fmap]. rewrite IH. cbn [nodes total_in_range length].
  rewrite <- app_assoc. cbn. do 2 f_equal. lia.
Qed.

Lemma omap_seq {A} (c : list A) i n : i + n <= length c ->
  omap (fun k => c !! k) (seq i n) = take n (drop i c).
Proof.
  revert i. induction n as [|n IH]; intros i Hn; [reflexivity|]. cbn [seq omap list_omap].
  destruct (lookup_lt_is_Some_2 c i) as [x Hx]; [lia|]. rewrite Hx, (drop_S _ _ _ Hx). cbn [take].
  f_equal. apply IH. lia.
Qed.

Lemma omap_rev {A B} (f : A -> option B) l : omap f (rev l) = rev (omap f l).
Proof.
  induction l as [|x l IH]; [reflexivity|]. cbn [rev]. rewrite omap_app, IH. cbn.
  destruct (f x); cbn; [reflexivity|apply app_nil_r].
Qed.

Lemma range_by_rank_items hd s c i j rv : refined T0 compare hd s c ->
  range_by_rank s i j rv =
    let r := take (S j - i) (drop i c) in
    Some (RangeResult (i_loc <$> (if rv then rev r else r)) (length r)).
Proof.
  intros Hr. unfold range_by_rank, size. cbn zeta.
  assert (Hlen : length_ s = length c).
  { destruct Hr as ((p & R & <-) & _). symmetry. eapply length_contents. exact R. }
  rewrite Hlen. destruct (Nat.ltb_spec j i) as [Hij|Hij].
  { replace (S j - i) with 0 by lia. cbn. now destruct rv. }
  destruct (Nat.leb_spec (length c) i) as [Hi|Hi].
  { cbn [orb]. rewrite drop_ge, take_nil by lia. now destruct rv. }
  cbn [orb]. set (j' := if length c <=? j then length c - 1 else j).
  assert (Hj' : j' = j `min` (length c - 1)).
  { subst j'. destruct (Nat.leb_spec (length c) j); lia. }
  assert (Htake : take (S j - i) (drop i c) = take (S j' - i) (drop i c)).
  { destruct (decide (j < length c)); [f_equal; lia|].
    rewrite !take_ge by (rewrite length_drop; lia). reflexivity. }
  assert (Hall : Forall (fun k => k < length c) (seq i (S j' - i))).
  { apply Forall_forall. intros k Hk. apply elem_of_seq in Hk. lia. }
  rewrite (collect_items hd s c) by (first [exact Hr
    | destruct rv; [rewrite <- (Permutation_rev (seq i (S j' - i)))|]; exact Hall]).
  cbn [nodes total_in_range app]. rewrite Htake. destruct rv.
  - rewrite omap_rev, omap_seq, length_rev, length_seq, length_take, length_drop by lia. do 2 f_equal. lia.
  - rewrite omap_seq, length_seq, length_take, length_drop by lia. do 2 f_equal. lia.
Qed.
End Queries.

(** ** Theorems *)

Section Theorems.
Context {T : Type} (T0 : T) (compare : T -> T -> bool) `{!StrictWeak compare}.
Implicit Types (c : list (item T)) (s : skiplist T).

(** C2: [get_element_by_rank] is the indexing of the sequence (null beyond its
    end); [get_rank] returns the index of an item with the given score and an
    equivalent object when there is one, and the size otherwise. *)
Theorem skiplist_ranks hd s c sc o rank :
  refined T0 compare hd s c -> is_nan sc = false ->
  get_element_by_rank rank s = Some (i_loc <$> c !! rank)
  /\ exists r, get_rank compare sc o s = Some r
     /\ ((exists it, c !! r = Some it /\ matches compare sc o it = true)
         \/ (r = length c /\ forall it, it ∈ c -> matches compare sc o it = false)).
Proof. intros Hr Hsc. split; [eapply element_by_rank; eauto|eapply rank_of; eauto]. Qed.

(** The score queries return the first item, the last item, and the window
    [offset, offset + limit) of the items whose score lies in the closed
    interval, with the number of all of them. *)
Theorem skiplist_score_queries hd s c lo hi offset limit :
  refined T0 compare hd s c -> is_nan lo = false -> is_nan hi = false ->
  let r := List.filter (in_range lo hi) c in
  first_in_range lo hi s = Some (i_loc <$> head r)
  /\ last_in_range lo hi s = Some (i_loc <$> list.last r)
  /\ range_by_score s lo hi offset limit
     = Some (RangeResult (i_loc <$> limited limit (drop offset r)) (length r)).
Proof.
  intros ((p & R & <-) & _ & Ho) Hlo Hhi r. split_and!.
  - now apply (first_in_range_item T0 compare).
  - now apply (last_in_range_item T0 compare).
  - now apply (range_by_score_items T0 compare).
Qed.

(** [range_by_rank] returns the items of the ranks from [i] to [j], as far
    as they exist, in order or in reverse. *)
Theorem skiplist_rank_range hd s c i j rv :
  refined T0 compare hd s c ->
  let r := take (S j - i) (drop i c) in
  range_by_rank s i j rv = Some (RangeResult (i_loc <$> (if rv then rev r else r)) (length r)).
Proof. intros Hr. eapply range_by_rank_items; eauto. Qed.

(** The forward iteration visits the items in order and ends, the backward
    iteration from [last] visits them in reverse, [size] counts them, and
    [validate] accepts. *)
Theorem skiplist_traversal hd s c :
  refined T0 compare hd s c ->
  (let* x := first s in visit (fuel s) (iter_next (mem s)) x) = Some (i_loc <$> c)
  /\ visit (fuel s) (iter_prev (mem s)) (last s) = Some (i_loc <$> rev c)
  /\ size s = length c /\ empty s = (length c =? 0) /\ validate s = Some true.
Proof.
  intros ((p & R & <-) & _ & Ho).
  pose proof (rep_chain T0 s p R) as Hc. pose proof (contents_fuel T0 s p R) as Hf.
  pose proof (length_contents T0 s p R) as Hlen. pose proof (rep_length _ _ _ R) as Hp.
  unfold first, validate, size, empty. rewrite (first_item T0 p s R), <- head_lookup.
  split_and!; [now apply visit_forward| |now symmetry|now rewrite Hlen|].
  - unfold last. rewrite (rep_tail _ _ _ R), <- Hp, (visit_backward T0 s p) by (assumption || lia).
    now rewrite take_ge by lia.
  - rewrite (validate_chain compare) by assumption. cbn. now rewrite Hlen, Nat.eqb_refl.
Qed.

(** [release] frees every node and the header exactly once and leaves no
    block; calling it again, as the destructor does after an explicit call,
    is undefined behaviour. *)
Theorem skiplist_release hd s c :
  refined T0 compare hd s c ->
  exists s', release s = Some s' /\ mem s' = ∅ /\ release s' = None.
Proof.
  intros ((p & R & <-) & <- & Ho). unfold release at 1.
  rewrite (first_item T0 p s R), <- head_lookup.
  destruct (rep_path _ _ _ R) as [H0 Hnd].
  assert (Hlocs : e_loc <$> p = header s :: (i_loc <$> contents p)).
  { destruct p as [|e p]; [discriminate|]. injection H0 as ->. cbn. f_equal.
    unfold contents. cbn. rewrite drop_0. now rewrite <- list_fmap_compose. }
  rewrite Hlocs in Hnd. apply NoDup_cons in Hnd as [Hni Hnd].
  destruct (release_chain (mem s) (contents p) (fuel s)) as (h & -> & Hh);
    [now apply (rep_chain T0)|exact Hnd|now apply (contents_fuel T0)|].
  unfold free_node. rewrite Hh, decide_False by exact Hni.
  destruct (node_of_rep _ _ _ _ (rep_fields _ _ _ R) H0) as (n & E & _). cbn [e_loc] in E. rewrite E.
  assert (Hempty : delete (header s) h = ∅).
  { apply map_empty. intros x. destruct (decide (x = header s)) as [->|Hx].
    - apply lookup_delete_eq.
    - rewrite lookup_delete_ne, Hh by congruence. case_decide as Hin; [reflexivity|].
      destruct (mem s !! x) eqn:Ex; [|reflexivity]. exfalso.
      assert (Hd : x ∈ e_loc <$> p) by (apply (rep_dom _ _ _ R); eauto).
      rewrite Hlocs in Hd. apply elem_of_cons in Hd as [|]; contradiction. }
  eexists. split_and!; [reflexivity|exact Hempty|].
  unfold release. cbn [mem header]. rewrite Hempty. unfold forward_at, level_at.
  now rewrite lookup_empty.
Qed.
End Theorems.

(** ** A list to evaluate on *)

Definition query_ops : list (op (T := nat)) :=
  [OpInsert 2 (fun k => k =? 0) (score_of 5) 50; OpInsert 3 (fun _ => false) (score_of 3) 30;
   OpInsert 4 (fun k => k <? 3) (score_of 4) 40; OpInsert 5 (fun k => k <? 1) (score_of 4) 41].

Definition query_list : skiplist nat :=
  match run Nat.ltb query_ops (make 0 1) with Some (_, s) => s | None => make 0 1 end.

Definition query_items : list (item nat) :=
  [Item 3 (score_of 3) 30; Item 4 (score_of 4) 40; Item 5 (score_of 4) 41; Item 2 (score_of 5) 50].

Lemma query_refined : refined 0 Nat.ltb 1 query_list query_items.
Proof.
  assert (Ha : all_allowed Nat.ltb 1 query_ops []) by (apply (bool_decide_unpack _); vm_compute; exact I).
  destruct (run_refined 0 Nat.ltb 1 query_ops (make 0 1) []) as (s' & E & Hr);
    [apply make_refined|exact Ha|].
  unfold query_list. rewrite E. exact Hr.
Qed.

Lemma skiplist_ranks_witness :
  get_element_by_rank 2 query_list = Some (Some 5%positive)
  /\ exists r, get_rank Nat.ltb (score_of 4) 41 query_list = Some r
     /\ ((exists it, query_items !! r = Some it /\ matches Nat.ltb (score_of 4) 41 it = true)
         \/ (r = 4 /\ forall it, it ∈ query_items -> matches Nat.ltb (score_of 4) 41 it = false)).
Proof. exact (skiplist_ranks 0 Nat.ltb 1 query_list query_items (score_of 4) 41 2 query_refined eq_refl). Defined.

Lemma skiplist_score_queries_witness :
  let r := List.filter (in_range (score_of 4) (score_of 7)) query_items in
  first_in_range (score_of 4) (score_of 7) query_list = Some (i_loc <$> head r)
  /\ last_in_range (score_of 4) (score_of 7) query_list = Some (i_loc <$> list.last r)
  /\ range_by_score query_list (score_of 4) (score_of 7) 1 1
     = Some (RangeResult (i_loc <$> limited 1 (drop 1 r)) (length r)).
Proof.
  exact (skiplist_score_queries 0 Nat.ltb 1 query_list query_items (score_of 4) (score_of 7) 1 1
    query_refined eq_refl eq_refl).
Defined.

Lemma skiplist_rank_range_witness :
  range_by_rank query_list 1 9 true = Some (RangeResult [2%positive; 5%positive; 4%positive] 3).
Proof. exact (skiplist_rank_range 0 Nat.ltb 1 query_list query_items 1 9 true query_refined). Defined.

Lemma skiplist_traversal_witness :
  (let* x := first query_list in visit (fuel query_list) (iter_next (mem query_list)) x)
    = Some [3%positive; 4%positive; 5%positive; 2%positive]
  /\ visit (fuel query_list) (iter_prev (mem query_list)) (last query_list)
    = Some [2%positive; 5%positive; 4%positive; 3%positive]
  /\ size query_list = 4 /\ empty query_list = false /\ validate query_list = Some true.
Proof. exact (skiplist_traversal 0 Nat.ltb 1 query_list query_items query_refined). Defined.

Lemma skiplist_release_witness :
  exists s', release query_list = Some s' /\ mem s' = ∅ /\ release s' = None.
Proof. exact (skiplist_release 0 Nat.ltb 1 query_list query_items query_refined). Defined.
