(* ===== verification/Astar.v ===== *)
(** * A* search

    [algo/astar.hpp]: the grid (adjacency lists, edge weights, obstacles), the
    open list ordered by (priority, location), the search loop with its error
    returns, and the reconstruction of the path.  The arithmetic of [cost_t] is
    an interface with IEEE doubles as its instance; hash maps are finite maps.
    [None] is an uncaught exception or a loop that has not ended. *)

From Stdlib Require Import ZArith Lia List Bool.
From Stdlib Require Import Floats.SpecFloat.
From stdpp Require Import base tactics list option gmap.
From S2P Require Import Prelude Doubles.

Open Scope hj_scope.
Open Scope nat_scope.

(** ** Costs *)

Class CostOps (C : Type) :=
  { czero : C; cone : C; cinf : C;
    cadd : C -> C -> C;
    clt : C -> C -> bool;
    cfinite : C -> bool }.

(** [cost_t = double] *)
#[export] Instance double_cost : CostOps double :=
  { czero := S754_zero false;
    cone := S754_finite false 4503599627370496 (-52);
    cinf := S754_infinity false;
    cadd := SFadd 53 1024;
    clt := dlt;
    cfinite a := match a with S754_zero _ | S754_finite _ _ _ => true | _ => false end }.

(** [search_result] *)
Inductive search_result :=
| found | not_found | invalid_start | invalid_goal | invalid_graph | invalid_cost
| invalid_heuristic | resource_limit_exceeded | cancelled.

Section Astar.
Context {L : Type} `{Countable L} (loc_lt : L -> L -> bool).
Context {C : Type} `{CostOps C}.

(** ** The grid *)

Record grid := Grid
  { adjacency_list : gmap L (list L); edge_weights : gmap (L * L) C; obstacles : gset L }.

Definition empty_grid : grid := Grid ∅ ∅ ∅.

Definition add_location (loc : L) (ns : list L) (g : grid) : grid :=
  Grid (<[loc := ns]> (adjacency_list g)) (edge_weights g) (obstacles g).

Definition add_obstacles (obs : list L) (g : grid) : grid :=
  Grid (adjacency_list g) (edge_weights g) (fold_left (fun o x => {[ x ]} ∪ o) obs (obstacles g)).

Definition is_walkable (g : grid) (loc : L) : bool :=
  bool_decide (is_Some (adjacency_list g !! loc)) && negb (bool_decide (loc ∈ obstacles g)).

Definition set_edge_weight (from to : L) (w : C) (g : grid) : bool * grid :=
  if negb (cfinite w) || clt w czero then (false, g)
  else (true, Grid (adjacency_list g) (<[(from, to) := w]> (edge_weights g)) (obstacles g)).

(** [adjacency_list.at(loc)] throws when [loc] is absent. *)
Definition neighbors (g : grid) (loc : L) : option (list L) := adjacency_list g !! loc.

Definition cost (g : grid) (from to : L) : C :=
  if bool_decide (to ∈ obstacles g) then cinf
  else default cone (edge_weights g !! (from, to)).

(** ** The open list *)

#[local] Notation elem := (C * L)%type.

(** [std::pair]'s [operator<]. *)
Definition elem_lt (a b : elem) : bool :=
  clt a.1 b.1 || (negb (clt b.1 a.1) && loc_lt a.2 b.2).

(** [top()] and [pop()]: the least element leaves the queue. *)
Fixpoint extract_min (e : elem) (q : list elem) : elem * list elem :=
  match q with
  | [] => (e, [])
  | e' :: q =>
      if elem_lt e' e then let '(m, q) := extract_min e' q in (m, e :: q)
      else let '(m, q) := extract_min e q in (m, e' :: q)
  end.

(** ** The search *)

Record search_options := Options
  { heuristic : L -> L -> C; max_expansions : nat;
    (** the answer of the [k]-th call of [should_cancel] *)
    should_cancel : nat -> bool }.

Record state := State
  { frontier : list elem; came_from : gmap L L; cost_so_far : gmap L C;
    closed : gset L; expansions : nat; polls : nat }.

(** The body of the loop over the neighbours. *)
Definition relax (g : grid) (o : search_options) (goal current next : L) (s : state)
  : search_result + state :=
  if negb (is_walkable g next) then inr s else
  let edge_cost := cost g current next in
  if negb (cfinite edge_cost) then inr s else
  let new_cost := cadd (default czero (cost_so_far s !! current)) edge_cost in
  if negb (cfinite new_cost) || clt new_cost czero then inl invalid_cost else
  if match cost_so_far s !! next with None => true | Some c => clt new_cost c end then
    let h := heuristic o next goal in
    if negb (cfinite h) || clt h czero then inl invalid_heuristic
    else inr (State ((cadd new_cost h, next) :: frontier s) (<[next := current]> (came_from s))
           (<[next := new_cost]> (cost_so_far s)) (closed s) (expansions s) (polls s))
  else inr s.

Fixpoint relax_all (g : grid) (o : search_options) (goal current : L) (ns : list L) (s : state)
  : search_result + state :=
  match ns with
  | [] => inr s
  | n :: ns =>
      match relax g o goal current n s with
      | inl r => inl r
      | inr s => relax_all g o goal current ns s
      end
  end.

(** One turn of [while(!frontier.empty())] on a non-empty queue: an early
    return, a [break], or the next state. *)
Inductive turn := Return (r : search_result) | Break (s : state) | Next (s : state).

Definition iterate (g : grid) (o : search_options) (goal : L) (e : elem) (q : list elem) (s : state)
  : option turn :=
  let '((_, current), q) := extract_min e q in
  let s := State q (came_from s) (cost_so_far s) (closed s) (expansions s) (polls s) in
  if bool_decide (current ∈ closed s) then Some (Next s) else
  let s := State q (came_from s) (cost_so_far s) ({[ current ]} ∪ closed s) (expansions s) (polls s) in
  if decide (current = goal) then Some (Break s) else
  if should_cancel o (polls s) then Some (Return cancelled) else
  let ex := if max_expansions o =? 0 then expansions s else S (expansions s) in
  if negb (max_expansions o =? 0) && (max_expansions o <? ex) then Some (Return resource_limit_exceeded)
  else
    let s := State q (came_from s) (cost_so_far s) (closed s) ex (S (polls s)) in
    let* ns := neighbors g current in
    match relax_all g o goal current ns s with
    | inl r => Some (Return r)
    | inr s => Some (Next s)
    end.

Fixpoint search_loop (fuel : nat) (g : grid) (o : search_options) (goal : L) (s : state)
  : option (search_result + state) :=
  match fuel with
  | O => None
  | S fuel =>
      match frontier s with
      | [] => Some (inr s)
      | e :: q =>
          let* t := iterate g o goal e q s in
          match t with
          | Return r => Some (inl r)
          | Break s => Some (inr s)
          | Next s => search_loop fuel g o goal s
          end
      end
  end.

(** [while(current != start)]: [room] is what is left of [max_hops]; the path
    is collected from the goal. *)
Fixpoint rebuild (room : nat) (cf : gmap L L) (start current : L) (path : list L)
  : search_result * list L :=
  if decide (current = start) then (found, rev (path ++ [start])) else
  let path := path ++ [current] in
  match room with
  | O => (invalid_graph, path)
  | S room =>
      match cf !! current with
      | None => (invalid_graph, path)
      | Some p => rebuild room cf start p path
      end
  end.

(** Every queue entry is the start or an edge of an expanded location. *)
Definition search_fuel (g : grid) : nat :=
  S (S (length (concat (snd <$> map_to_list (adjacency_list g))))).

Definition init (start : L) : state :=
  State [(czero, start)] {[ start := start ]} {[ start := czero ]} ∅ 0 0.

Definition search (g : grid) (start goal : L) (o : search_options)
  : option (search_result * list L) :=
  if negb (is_walkable g start) then Some (invalid_start, []) else
  if negb (is_walkable g goal) then Some (invalid_goal, []) else
  if decide (start = goal) then Some (found, [start]) else
  let* r := search_loop (search_fuel g) g o goal (init start) in
  match r with
  | inl r => Some (r, [])
  | inr s =>
      match came_from s !! goal with
      | None => Some (not_found, [])
      | Some _ => Some (rebuild (S (size (came_from s))) (came_from s) start goal [])
      end
  end.

End Astar.

Arguments grid : clear implicits.
Arguments grid L {_ _} C.
Arguments search_options : clear implicits.
Arguments state : clear implicits.
Arguments state L {_ _} C.

(** ** Locations on a plane and path smoothing *)

(** [location<int>] *)
Definition location : Type := Z * Z.

(** [location::operator<] *)
Definition location_lt (a b : location) : bool :=
  if decide (a.1 = b.1) then (a.2 <? b.2)%Z else (a.1 <? b.1)%Z.

(** [grid(int width, int height)]: every location, without neighbours. *)
Definition make_grid {C} (width height : Z) : option (grid location C) :=
  if (width <=? 0)%Z || (height <=? 0)%Z then None
  else Some (fold_left (fun g y => fold_left (fun g x => add_location (Z.of_nat x, Z.of_nat y) [] g)
                (seq 0 (Z.to_nat width)) g) (seq 0 (Z.to_nat height)) empty_grid).

(** [detail::smooth]: the cross product of the two legs; the products of
    differences of 32-bit coordinates are exact in [long double]. *)
Definition collinear (prev curr next : location) : bool :=
  ((curr.1 - prev.1) * (next.2 - curr.2) =? (curr.2 - prev.2) * (next.1 - curr.1))%Z.

Fixpoint smooth_inner (prev curr : location) (rest : list location) : list location :=
  match rest with
  | [] => [curr]
  | next :: rest =>
      if collinear prev curr next then smooth_inner curr next rest
      else curr :: smooth_inner curr next rest
  end.

Definition smooth (path : list location) : list location :=
  match path with
  | p0 :: p1 :: p2 :: rest => p0 :: smooth_inner p0 p1 (p2 :: rest)
  | _ => path
  end.
