(* ===== verification/AstarThm.v ===== *)
(** * A* search: soundness, completeness, termination

    For any grid, any heuristic and any arithmetic of costs (doubles with
    their rounding included): the search ends without an exception, a path it
    returns is a path of the grid, and [not_found] means that there is none. *)

From Stdlib Require Import ZArith Lia List Bool.
From Stdlib Require Import Floats.SpecFloat.
From stdpp Require Import base tactics list option gmap relations.
From S2P Require Import Prelude Doubles Astar.

Open Scope hj_scope.
Open Scope nat_scope.

(** ** Linked lists of steps *)

Section Linked.
Context {A : Type} (R : A -> A -> Prop).

Fixpoint linked (l : list A) : Prop :=
  match l with
  | a :: ((b :: _) as l') => R a b /\ linked l'
  | _ => True
  end.

Lemma linked_snoc l a b : linked (l ++ [a]) -> R a b -> linked (l ++ [a; b]).
Proof.
  induction l as [|x [|y l] IH]; cbn; [auto|intros [H1 H2] H3; auto|].
  intros [H1 H2] H3. split; [exact H1|]. now apply IH.
Qed.

End Linked.

Lemma linked_rev {A} (R : A -> A -> Prop) l : linked (flip R) l -> linked R (rev l).
Proof.
  induction l as [|a [|b l] IH]; cbn; [auto|auto|].
  intros [H1 H2]. specialize (IH H2). cbn [rev] in IH. rewrite <- app_assoc. cbn.
  now apply linked_snoc.
Qed.

Section Search.
Context {L : Type} `{Countable L} (loc_lt : L -> L -> bool).
Context {C : Type} `{CostOps C}.
Implicit Types (g : grid L C) (o : search_options L C) (s : state L C).

(** A step the search may take. *)
Definition edge g (u v : L) : Prop :=
  exists ns, neighbors g u = Some ns /\ v ∈ ns /\ is_walkable g v = true
    /\ cfinite (cost g u v) = true.

(** ** The open list *)

Lemma extract_min_perm (e : C * L) q m q' :
  extract_min loc_lt e q = (m, q') -> (e :: q ≡ₚ m :: q').
Proof.
  revert e m q'. induction q as [|e' q IH]; intros e m q' E; cbn in E.
  { now injection E as <- <-. }
  destruct (elem_lt loc_lt e' e).
  - destruct (extract_min loc_lt e' q) as [m1 q1] eqn:E1. injection E as <- <-.
    rewrite (IH _ _ _ E1). apply perm_swap.
  - destruct (extract_min loc_lt e q) as [m1 q1] eqn:E1. injection E as <- <-.
    rewrite perm_swap, (IH _ _ _ E1). apply perm_swap.
Qed.

(** ** The invariant of the loop *)

Record inv g (start goal : L) s : Prop :=
  { inv_start : came_from s !! start = Some start /\ cost_so_far s !! start = Some czero;
    inv_edge : forall v u, came_from s !! v = Some u -> v = start \/ edge g u v;
    inv_dom : forall v, is_Some (came_from s !! v) <-> is_Some (cost_so_far s !! v);
    inv_walk : forall v, is_Some (came_from s !! v) -> is_walkable g v = true;
    inv_open : forall v, is_Some (came_from s !! v) -> v ∈ closed s \/ v ∈ snd <$> frontier s;
    inv_known : forall v, v ∈ closed s \/ v ∈ snd <$> frontier s -> is_Some (came_from s !! v) }.

(** The neighbours of closed locations are known, except those of [pending]
    and of the goal. *)
Definition expanded g (goal : L) (pending : L -> L -> Prop) s : Prop :=
  forall u v, u ∈ closed s -> u <> goal -> edge g u v -> ~ pending u v -> is_Some (came_from s !! v).

(** *** Relaxing one neighbour *)

(** The state after a better cost [nc] for [next] through [cur]. *)
Definition push s (cur next : L) (nc h : C) : state L C :=
  State ((cadd nc h, next) :: frontier s) (<[next := cur]> (came_from s))
    (<[next := nc]> (cost_so_far s)) (closed s) (expansions s) (polls s).

Definition better s (next : L) (nc : C) : Prop :=
  match cost_so_far s !! next with None => True | Some c => clt nc c = true end.

(** Relaxation changes nothing, because the step is not an edge or does not
    improve, or pushes the neighbour. *)
Lemma relax_cases g o goal cur next s s' : relax g o goal cur next s = inr s' ->
  let nc := cadd (default czero (cost_so_far s !! cur)) (cost g cur next) in
  let h := heuristic o next goal in
  (s' = s /\ (is_walkable g next = true -> cfinite (cost g cur next) = true ->
              exists c, cost_so_far s !! next = Some c /\ clt nc c = false))
  \/ (s' = push s cur next nc h /\ is_walkable g next = true /\ cfinite (cost g cur next) = true
      /\ cfinite nc = true /\ clt nc czero = false /\ better s next nc
      /\ cfinite h = true /\ clt h czero = false).
Proof.
  unfold relax, better. intros E. cbn zeta.
  destruct (is_walkable g next); cbn [negb] in E; [|injection E as <-; left; split; congruence].
  destruct (cfinite (cost g cur next)); cbn [negb] in E; [|injection E as <-; left; split; congruence].
  set (nc := cadd _ _) in *.
  destruct (cfinite nc); [|discriminate]. destruct (clt nc czero); [discriminate|]. cbn [negb orb] in E.
  destruct (cost_so_far s !! next) as [c|].
  - destruct (clt nc c) eqn:Hlt.
    + destruct (cfinite (heuristic o next goal)); [|discriminate].
      destruct (clt (heuristic o next goal) czero); [discriminate|].
      injection E as <-. right. split_and!; reflexivity.
    + injection E as <-. left. split; [reflexivity|]. intros _ _. eauto.
  - destruct (cfinite (heuristic o next goal)); [|discriminate].
    destruct (clt (heuristic o next goal) czero); [discriminate|].
    injection E as <-. right. split_and!; reflexivity.
Qed.

Lemma push_known s cur next nc h v : is_Some (came_from s !! v) \/ v = next <->
  is_Some (came_from (push s cur next nc h) !! v).
Proof.
  cbn. destruct (decide (v = next)) as [->|Hne].
  - rewrite lookup_insert_eq. split; [eauto|now right].
  - rewrite lookup_insert_ne by congruence. tauto.
Qed.

Lemma push_inv g start goal s cur next nc h : inv g start goal s -> edge g cur next ->
  better s next nc -> clt nc czero = false -> inv g start goal (push s cur next nc h).
Proof.
  intros [[Hs1 Hs2] He Hd Hwk Hop Hk] Hedge Hb Hnc.
  assert (Hns : next <> start) by (intros ->; unfold better in Hb; rewrite Hs2 in Hb; congruence).
  split.
  - cbn. now rewrite !lookup_insert_ne by congruence.
  - intros v u. cbn. destruct (decide (v = next)) as [->|Hne].
    + rewrite lookup_insert_eq. intros [= <-]. now right.
    + rewrite lookup_insert_ne by congruence. apply He.
  - intros v. cbn. destruct (decide (v = next)) as [->|Hne].
    + rewrite !lookup_insert_eq. split; eauto.
    + rewrite !lookup_insert_ne by congruence. apply Hd.
  - intros v Hv. apply push_known in Hv as [Hv| ->]; [now apply Hwk|].
    destruct Hedge as (ns & _ & _ & Hw & _). exact Hw.
  - intros v Hv. cbn. rewrite elem_of_cons. apply push_known in Hv as [Hv| ->]; [|auto].
    destruct (Hop v Hv); auto.
  - intros v. change (closed (push s cur next nc h)) with (closed s).
    change (frontier (push s cur next nc h)).*2 with (next :: (frontier s).*2).
    rewrite elem_of_cons. intros Hv. apply push_known.
    destruct Hv as [Hv|[Hv|Hv]]; [left; apply Hk; auto|auto|left; apply Hk; auto].
Qed.

(** A property kept by every push is kept by the loop over the neighbours. *)
Lemma relax_all_ind (P : state L C -> Prop) g o goal cur ns :
  forall s s', relax_all g o goal cur ns s = inr s' -> P s ->
  (forall next s, next ∈ ns -> P s ->
     let nc := cadd (default czero (cost_so_far s !! cur)) (cost g cur next) in
     let h := heuristic o next goal in
     is_walkable g next = true -> cfinite (cost g cur next) = true ->
     cfinite nc = true -> clt nc czero = false -> better s next nc ->
     cfinite h = true -> clt h czero = false -> P (push s cur next nc h)) ->
  P s'.
Proof.
  induction ns as [|n ns IH]; intros s s' E HP Hstep; cbn [relax_all] in E.
  { now injection E as <-. }
  destruct (relax g o goal cur n s) as [r|s1] eqn:E1; [discriminate|].
  apply (IH s1 s' E).
  - destruct (relax_cases _ _ _ _ _ _ _ E1) as [[-> _]|(-> & H1 & H2 & H3 & H4 & H5 & H6 & H7)]; [exact HP|].
    apply Hstep; try assumption. now left.
  - intros next s0 Hin. apply Hstep. now right.
Qed.

(** What the loop leaves alone, and how much it adds to the queue. *)
Lemma relax_all_frame g o goal cur ns s s' : relax_all g o goal cur ns s = inr s' ->
  closed s' = closed s /\ expansions s' = expansions s /\ polls s' = polls s
  /\ (forall v, is_Some (came_from s !! v) -> is_Some (came_from s' !! v))
  /\ (forall v, v ∈ ns -> is_walkable g v = true -> cfinite (cost g cur v) = true ->
       (forall v, is_Some (cost_so_far s !! v) -> is_Some (came_from s !! v)) ->
       is_Some (came_from s' !! v))
  /\ length (frontier s') <= length ns + length (frontier s).
Proof.
  revert s. induction ns as [|n ns IH]; intros s E; cbn [relax_all] in E.
  { injection E as <-. split_and!; auto. intros v Hv. now apply elem_of_nil in Hv. }
  destruct (relax g o goal cur n s) as [r|s1] eqn:E1; [discriminate|].
  destruct (IH s1 E) as (H1 & H2 & H3 & H4 & H5 & H6).
  destruct (relax_cases _ _ _ _ _ _ _ E1) as [[-> Hc]|(-> & _)].
  - split_and!; try assumption; [|cbn; lia].
    intros v Hv Hw Hf Hdom. apply elem_of_cons in Hv as [->|Hv]; [|now apply H5].
    destruct (Hc Hw Hf) as (c & Ec & _). apply H4, Hdom. rewrite Ec. eauto.
  - cbn [push closed expansions polls frontier length] in *. split_and!; try assumption; [| |lia].
    + intros v Hv. apply H4, push_known. now left.
    + intros v Hv Hw Hf Hdom. apply elem_of_cons in Hv as [->|Hv].
      * apply H4, push_known. now right.
      * apply H5; try assumption. intros w Hw'. apply push_known. cbn in Hw'.
        destruct (decide (w = n)) as [->|Hne]; [now right|left].
        rewrite lookup_insert_ne in Hw' by congruence. now apply Hdom.
Qed.

(** *** One turn *)

Definition with_frontier s (q : list (C * L)) : state L C :=
  State q (came_from s) (cost_so_far s) (closed s) (expansions s) (polls s).

Definition enter s (q : list (C * L)) (cur : L) (ex p : nat) : state L C :=
  State q (came_from s) (cost_so_far s) ({[ cur ]} ∪ closed s) ex p.

(** What a turn does, without the details. *)
Lemma iterate_cases g o goal e q s : 
  (forall v, v ∈ snd <$> e :: q -> is_walkable g v = true) ->
  exists pr cur q', (e :: q ≡ₚ (pr, cur) :: q') /\ extract_min loc_lt e q = ((pr, cur), q')
  /\ ((cur ∈ closed s /\ iterate loc_lt g o goal e q s = Some (Next (with_frontier s q')))
     \/ (cur ∉ closed s /\ cur = goal
         /\ iterate loc_lt g o goal e q s = Some (Break (enter s q' cur (expansions s) (polls s))))
     \/ (cur ∉ closed s /\ cur <> goal /\ exists r, r <> found /\ r <> not_found /\ r <> invalid_graph
         /\ iterate loc_lt g o goal e q s = Some (Return r))
     \/ (cur ∉ closed s /\ cur <> goal /\ exists ns ex s', neighbors g cur = Some ns
         /\ relax_all g o goal cur ns (enter s q' cur ex (S (polls s))) = inr s'
         /\ iterate loc_lt g o goal e q s = Some (Next s'))).
Proof.
  intros Hw. destruct (extract_min loc_lt e q) as [[pr cur] q'] eqn:Em.
  pose proof (extract_min_perm _ _ _ _ Em) as Hperm.
  exists pr, cur, q'. split; [exact Hperm|]. split; [reflexivity|].
  unfold iterate. rewrite Em. cbn [closed came_from cost_so_far expansions polls frontier].
  case_bool_decide as Hc; [left; auto|right].
  destruct (decide (cur = goal)) as [Hg|Hg]; [left; auto|right].
  destruct (should_cancel o (polls s)).
  { left. split_and!; auto. exists cancelled. split_and!; done. }
  set (ex := if max_expansions o =? 0 then _ else _).
  destruct (negb (max_expansions o =? 0) && (max_expansions o <? ex)).
  { left. split_and!; auto. exists resource_limit_exceeded. split_and!; done. }
  assert (Hcur : is_walkable g cur = true).
  { apply Hw. rewrite Hperm. cbn. now left. }
  unfold is_walkable in Hcur. apply andb_true_iff in Hcur as [Hcur _].
  apply bool_decide_eq_true_1 in Hcur as [ns Hns]. unfold neighbors. rewrite Hns.
  destruct (relax_all g o goal cur ns _) as [r|s'] eqn:Er.
  - left. split_and!; auto. exists r. enough (r <> found /\ r <> not_found /\ r <> invalid_graph) by tauto.
    clear -Er. revert Er. generalize (State q' (came_from s) (cost_so_far s) ({[cur]} ∪ closed s) ex (S (polls s))) as s0.
    induction ns as [|n ns IH]; intros s0 Er; cbn in Er; [discriminate|].
    destruct (relax g o goal cur n s0) as [r1|s1] eqn:E1; [|exact (IH s1 Er)].
    injection Er as ->. unfold relax in E1.
    repeat (break_match_in E1; try discriminate); now injection E1 as <-.
  - right. split_and!; auto. exists ns, ex, s'. auto.
Qed.

(** ** The loop *)

Lemma inv_with_frontier g start goal s e q pr cur q' : inv g start goal s ->
  frontier s = e :: q -> (e :: q ≡ₚ (pr, cur) :: q') -> cur ∈ closed s ->
  inv g start goal (with_frontier s q').
Proof.
  intros Hi Ef Hperm Hc. split; try apply Hi; cbn [with_frontier frontier closed came_from].
  - intros v Hv. destruct (inv_open _ _ _ _ Hi v Hv) as [Hv'|Hv']; [now left|].
    rewrite Ef, Hperm in Hv'. cbn in Hv'. apply elem_of_cons in Hv' as [->|Hv']; auto.
  - intros v Hv. apply (inv_known _ _ _ _ Hi). destruct Hv as [Hv|Hv]; [now left|right].
    rewrite Ef, Hperm. cbn. now right.
Qed.

Lemma inv_enter g start goal s e q pr cur q' ex p : inv g start goal s ->
  frontier s = e :: q -> (e :: q ≡ₚ (pr, cur) :: q') -> inv g start goal (enter s q' cur ex p).
Proof.
  intros Hi Ef Hperm. split; try apply Hi; cbn [enter frontier closed came_from].
  - intros v Hv. destruct (inv_open _ _ _ _ Hi v Hv) as [Hv'|Hv']; [set_solver|].
    rewrite Ef, Hperm in Hv'. cbn in Hv'. apply elem_of_cons in Hv' as [->|Hv']; set_solver.
  - intros v Hv. apply (inv_known _ _ _ _ Hi). rewrite elem_of_union, elem_of_singleton in Hv.
    rewrite Ef, Hperm. cbn. rewrite elem_of_cons. tauto.
Qed.

Definition closed_known g (goal : L) s : Prop :=
  forall u v, u ∈ closed s -> u <> goal -> edge g u v -> is_Some (came_from s !! v).

Lemma relax_all_inv g o start goal cur ns s s' :
  relax_all g o goal cur ns s = inr s' -> neighbors g cur = Some ns -> inv g start goal s ->
  inv g start goal s'.
Proof.
  intros E Hns Hi. apply (relax_all_ind (inv g start goal) g o goal cur ns s s' E Hi).
  intros next s0 Hin Hi0 nc h Hw Hf _ Hnc Hb _ _. apply push_inv; try assumption.
  exists ns. auto.
Qed.

Lemma length_concat_perm {A B} (l l' : list (A * list B)) : l ≡ₚ l' ->
  length (concat (snd <$> l)) = length (concat (snd <$> l')).
Proof.
  induction 1 as [|x l l' _ IH|x y l|l l' l'' _ IH1 _ IH2]; cbn; rewrite ?length_app; lia.
Qed.

(** What is left to expand. *)
Definition remaining g (cl : gset L) : nat :=
  length (concat (snd <$> map_to_list (filter (fun '(k, _) => k ∉ cl) (adjacency_list g)))).

Lemma remaining_enter g cl cur ns : neighbors g cur = Some ns -> cur ∉ cl ->
  remaining g cl = length ns + remaining g ({[ cur ]} ∪ cl).
Proof.
  intros Hns Hc. unfold remaining.
  assert (E : filter (fun '(k, _) => k ∉ cl) (adjacency_list g) !! cur = Some ns).
  { apply map_lookup_filter_Some. auto. }
  assert (Ed : delete cur (filter (fun '(k, _) => k ∉ cl) (adjacency_list g))
             = filter (fun '(k, _) => k ∉ {[ cur ]} ∪ cl) (adjacency_list g)).
  { apply map_eq. intros k. apply option_eq. intros l.
    rewrite lookup_delete_Some, !map_lookup_filter_Some. set_solver. }
  rewrite <- (length_concat_perm _ _ (map_to_list_delete (M := gmap L) _ cur ns E)), Ed.
  cbn. now rewrite length_app.
Qed.

(** The state the loop stops in: the queue is empty or the goal was taken. *)
Definition stopped (goal : L) s : Prop := frontier s = [] \/ goal ∈ closed s.

Lemma loop_spec n g o start goal s : inv g start goal s -> closed_known g goal s ->
  length (frontier s) + remaining g (closed s) < n ->
  (exists r, search_loop loc_lt n g o goal s = Some (inl r) /\ r <> found /\ r <> not_found /\ r <> invalid_graph)
  \/ (exists s', search_loop loc_lt n g o goal s = Some (inr s') /\ inv g start goal s'
       /\ closed_known g goal s' /\ stopped goal s').
Proof.
  revert s. induction n as [|n IH]; intros s Hi Hc Hn; [lia|]. cbn [search_loop].
  destruct (frontier s) as [|e q] eqn:Ef.
  { right. exists s. split_and!; [reflexivity|exact Hi|exact Hc|now left]. }
  destruct (iterate_cases g o goal e q s) as (pr & cur & q' & Hperm & _ & Hcase).
  { intros v Hv. apply (inv_walk _ _ _ _ Hi), (inv_known _ _ _ _ Hi). right. now rewrite Ef. }
  assert (Hlen : length (e :: q) = S (length q')) by (rewrite Hperm; reflexivity).
  destruct Hcase as [[Hcl ->]|[(Hcl & -> & ->)|[(Hcl & Hg & r & H1 & H2 & H3 & ->)|(Hcl & Hg & ns & ex & s' & Hns & Er & ->)]]].
  - apply IH; [|exact Hc|cbn [with_frontier frontier closed length] in *; lia]. eapply inv_with_frontier; eauto.
  - right. eexists. split; [reflexivity|]. split; [|split].
    + eapply inv_enter; eauto.
    + intros u v Hu Hug He. apply (Hc u v); [|exact Hug|exact He]. cbn in Hu. set_solver.
    + right. cbn. set_solver.
  - left. exists r. auto.
  - destruct (relax_all_frame _ _ _ _ _ _ _ Er) as (F1 & _ & _ & F4 & F5 & F6).
    assert (Hie : inv g start goal (enter s q' cur ex (S (polls s)))) by (eapply inv_enter; eauto).
    cbn [enter closed came_from cost_so_far frontier] in *. apply IH.
    + eapply relax_all_inv; eauto.
    + intros u v Hu Hug He. rewrite F1 in Hu. apply elem_of_union in Hu as [Hu|Hu].
      * apply elem_of_singleton in Hu as ->. destruct He as (ns' & Hns' & Hin & Hw & Hf).
        rewrite Hns in Hns'. injection Hns' as <-. apply F5; try assumption.
        intros w Hw'. now apply (inv_dom _ _ _ _ Hi).
      * apply F4. now apply (Hc u v).
    + rewrite F1. rewrite (remaining_enter g (closed s) cur ns Hns Hcl) in Hn. cbn [length] in *. lia.
Qed.

Lemma init_inv g start goal : is_walkable g start = true -> inv g start goal (init start).
Proof.
  intros Hw. unfold init. split; cbn [came_from cost_so_far frontier closed].
  - now rewrite !lookup_singleton_eq.
  - intros v u E. apply lookup_singleton_Some in E as [-> _]. now left.
  - intros v. split; intros [x E]; apply lookup_singleton_Some in E as [-> _]; rewrite lookup_singleton_eq; eauto.
  - intros v [x E]. now apply lookup_singleton_Some in E as [-> _].
  - intros v [x E]. apply lookup_singleton_Some in E as [-> _]. right. now apply list_elem_of_singleton.
  - intros v [Hv|Hv]; [set_solver|]. apply list_elem_of_singleton in Hv as ->. rewrite lookup_singleton_eq. eauto.
Qed.

Lemma init_fuel g (start : L) : length (frontier (init start)) + remaining g (closed (init start)) < search_fuel g.
Proof.
  unfold search_fuel, remaining. cbn [init frontier closed length].
  replace (filter _ _) with (adjacency_list g); [lia|].
  symmetry. apply map_filter_id. intros k x _. set_solver.
Qed.

(** The three ways a search ends after its checks. *)
Lemma search_loop_ends g o start goal : is_walkable g start = true ->
  (exists r, search_loop loc_lt (search_fuel g) g o goal (init start) = Some (inl r)
     /\ r <> found /\ r <> not_found /\ r <> invalid_graph)
  \/ (exists s', search_loop loc_lt (search_fuel g) g o goal (init start) = Some (inr s')
       /\ inv g start goal s' /\ closed_known g goal s' /\ stopped goal s').
Proof.
  intros Hw. apply loop_spec; [now apply init_inv| |apply init_fuel].
  intros u v Hu. cbn in Hu. set_solver.
Qed.

(** ** The path *)

Definition is_path g (p : list L) : Prop := linked (edge g) p.

Lemma rebuild_sound room g cf start cur path r p :
  (forall v u, cf !! v = Some u -> v = start \/ edge g u v) ->
  linked (flip (edge g)) (path ++ [cur]) ->
  rebuild room cf start cur path = (r, p) -> r = found ->
  is_path g p /\ head p = Some start /\ list.last p = head (path ++ [cur]).
Proof.
  intros Hcf. revert cur path. induction room as [|room IH]; intros cur path Hl E Hr; cbn [rebuild] in E.
  all: destruct (decide (cur = start)) as [->|Hne].
  1, 3: injection E as <- <-; split_and!; [now apply linked_rev|now rewrite rev_app_distr|];
    rewrite rev_alt; apply last_reverse.
  - injection E as <- <-. discriminate.
  - destruct (cf !! cur) as [u|] eqn:Eu; [|injection E as <- <-; discriminate].
    destruct (Hcf cur u Eu) as [->|Hedge]; [contradiction|].
    destruct (IH u (path ++ [cur])) as (H1 & H2 & H3); [|exact E|exact Hr|].
    + rewrite <- app_assoc. now apply linked_snoc.
    + split_and!; [exact H1|exact H2|]. rewrite H3. now destruct path.
Qed.
End Search.

(** ** Theorems *)

Section Theorems.
Context {L : Type} `{Countable L} (loc_lt : L -> L -> bool).
Context {C : Type} `{CostOps C}.
Implicit Types (g : grid L C) (o : search_options L C).

(** The search ends on every grid with every heuristic: it returns a
    result, never an exception of [adjacency_list.at], within a number of turns
    bounded by the number of listed neighbours. *)
Theorem astar_total g o start goal : exists r p, search loc_lt g start goal o = Some (r, p).
Proof.
  unfold search. destruct (is_walkable g start) eqn:Hw; cbn [negb]; [|eauto].
  destruct (is_walkable g goal); cbn [negb]; [|eauto].
  destruct (decide (start = goal)); [eauto|].
  destruct (search_loop_ends loc_lt g o start goal Hw) as [(r & -> & _)|(s' & -> & _)]; [eauto|].
  destruct (came_from s' !! goal); [|eauto].
  destruct (rebuild _ _ _ _ _) as [r p] eqn:E. eauto.
Qed.

(** C3: a path returned with [found] begins at the start, ends at the goal,
    and each of its steps leads to a listed, walkable neighbour at a finite
    cost. *)
Theorem astar_sound g o start goal p :
  search loc_lt g start goal o = Some (found, p) ->
  is_path g p /\ head p = Some start /\ list.last p = Some goal /\ is_walkable g start = true.
Proof.
  unfold search. destruct (is_walkable g start) eqn:Hw; cbn [negb]; [|discriminate].
  destruct (is_walkable g goal); cbn [negb]; [|discriminate].
  destruct (decide (start = goal)) as [<-|Hne]; [intros [= <-]; cbn; auto|].
  destruct (search_loop_ends loc_lt g o start goal Hw) as [(r & -> & Hr & _)|(s' & -> & Hi & _)].
  { intros [= -> _]. contradiction. }
  destruct (came_from s' !! goal); [|discriminate]. intros E. apply Some_inj in E.
  destruct (rebuild_sound _ g _ start goal [] found p (inv_edge _ _ _ _ Hi) I E eq_refl)
    as (H1 & H2 & H3). auto.
Qed.

(** C4: [not_found] is returned only when no path leads from the start to the
    goal, and then the path is empty. *)
Theorem astar_complete g o start goal p :
  search loc_lt g start goal o = Some (not_found, p) -> p = [] /\ ~ rtc (edge g) start goal.
Proof.
  unfold search. destruct (is_walkable g start) eqn:Hw; cbn [negb]; [|discriminate].
  destruct (is_walkable g goal); cbn [negb]; [|discriminate].
  destruct (decide (start = goal)) as [<-|Hne]; [discriminate|].
  destruct (search_loop_ends loc_lt g o start goal Hw) as [(r & -> & _ & Hr & _)|(s' & -> & Hi & Hc & Hs)].
  { intros [= -> _]. contradiction. }
  destruct (came_from s' !! goal) as [u|] eqn:Eg.
  { intros E. apply Some_inj in E. exfalso. revert E. generalize (S (size (came_from s'))), (@nil L), goal.
    induction n as [|n IH]; intros l cur; cbn [rebuild]; destruct (decide (cur = start)); try discriminate.
    destruct (came_from s' !! cur); [apply IH|discriminate]. }
  intros [= <-]. split; [reflexivity|]. intros Hr.
  assert (Hgoal : goal ∉ closed s').
  { intros Hin. destruct (inv_known _ _ _ _ Hi goal (or_introl Hin)) as [x Hx]. congruence. }
  destruct Hs as [Hs|Hs]; [|contradiction].
  assert (Hall : forall v, rtc (edge g) start v -> is_Some (came_from s' !! v)).
  { apply (rtc_ind_r (fun v => is_Some (came_from s' !! v))).
    { rewrite (proj1 (inv_start _ _ _ _ Hi)). eauto. }
    intros v w Hv He IH. destruct (inv_open _ _ _ _ Hi v IH) as [Hin|Hin]; [|rewrite Hs in Hin; now apply elem_of_nil in Hin].
    apply (Hc v w Hin); [|exact He]. intros ->. contradiction. }
  destruct (Hall goal Hr) as [x Hx]. congruence.
Qed.
End Theorems.

(** ** A grid to evaluate on: a 3 x 2 board with one obstacle *)

Definition board : grid location double :=
  let loc := fun x y : Z => (x, y) in
  add_obstacles [loc 1 0]%Z
    (add_location (loc 0 0) [loc 1 0; loc 0 1] (add_location (loc 1 0) [loc 2 0]
    (add_location (loc 0 1) [loc 1 1; loc 0 0] (add_location (loc 1 1) [loc 2 1; loc 1 0]
    (add_location (loc 2 1) [loc 2 0] (add_location (loc 2 0) [] (add_location (loc 5 5) [] empty_grid)))))))%Z.

Definition no_heuristic : search_options location double :=
  Options (fun _ _ => czero) 0 (fun _ => false).

Lemma astar_sound_witness :
  search location_lt board (0, 0)%Z (2, 0)%Z no_heuristic
    = Some (found, [(0, 0); (0, 1); (1, 1); (2, 1); (2, 0)]%Z)
  /\ is_path board [(0, 0); (0, 1); (1, 1); (2, 1); (2, 0)]%Z.
Proof.
  assert (E : search location_lt board (0, 0)%Z (2, 0)%Z no_heuristic
    = Some (found, [(0, 0); (0, 1); (1, 1); (2, 1); (2, 0)]%Z)) by (vm_compute; reflexivity).
  split; [exact E|]. exact (proj1 (astar_sound location_lt board no_heuristic _ _ _ E)).
Defined.

Lemma astar_complete_witness :
  search location_lt board (0, 0)%Z (5, 5)%Z no_heuristic = Some (not_found, [])
  /\ ~ rtc (edge board) (0, 0)%Z (5, 5)%Z.
Proof.
  assert (E : search location_lt board (0, 0)%Z (5, 5)%Z no_heuristic = Some (not_found, []))
    by (vm_compute; reflexivity).
  split; [exact E|]. exact (proj2 (astar_complete location_lt board no_heuristic _ _ _ E)).
Defined.

(** ** Smoothing *)

Lemma smooth_inner_spec prev curr rest :
  smooth_inner prev curr rest `sublist_of` curr :: rest
  /\ list.last (smooth_inner prev curr rest) = list.last (curr :: rest)
  /\ forall i a b c, (prev :: curr :: rest) !! i = Some a -> (prev :: curr :: rest) !! S i = Some b ->
       (prev :: curr :: rest) !! S (S i) = Some c -> collinear a b c = false ->
       b ∈ smooth_inner prev curr rest.
Proof.
  revert prev curr. induction rest as [|next rest IH]; intros prev curr; cbn [smooth_inner].
  { split_and!; [reflexivity|reflexivity|]. intros [|[|i]] a b c; cbn; discriminate. }
  destruct (IH curr next) as (H1 & H2 & H3).
  assert (Hne : smooth_inner curr next rest <> []).
  { intros E. rewrite E in H2. symmetry in H2. now apply last_None in H2. }
  assert (Hlast : list.last (curr :: next :: rest) = list.last (smooth_inner curr next rest)) by now rewrite H2.
  destruct (collinear prev curr next) eqn:Ec.
  - split_and!; [now constructor|now symmetry|].
    intros [|i] a b c Ha Hb Hc Hcol; [cbn in Ha, Hb, Hc; congruence|]. exact (H3 i a b c Ha Hb Hc Hcol).
  - split_and!; [now constructor| |].
    + rewrite Hlast. now destruct (smooth_inner curr next rest).
    + intros [|i] a b c Ha Hb Hc Hcol; [injection Hb as <-; left|].
      right. exact (H3 i a b c Ha Hb Hc Hcol).
Qed.

(** Smoothing keeps the first and the last point and only drops points, and
    the points it drops lie on the line through their two neighbours on the
    original path. *)
Theorem smooth_spec p :
  smooth p `sublist_of` p /\ head (smooth p) = head p /\ list.last (smooth p) = list.last p
  /\ forall i a b c, p !! i = Some a -> p !! S i = Some b -> p !! S (S i) = Some c ->
       b ∈ smooth p \/ collinear a b c = true.
Proof.
  destruct p as [|p0 [|p1 [|p2 rest]]]; try (split_and!; try reflexivity; intros [|[|i]] a b c; discriminate).
  cbn [smooth]. destruct (smooth_inner_spec p0 p1 (p2 :: rest)) as (H1 & H2 & H3).
  split_and!; [now constructor|reflexivity| |].
  - destruct (smooth_inner p0 p1 (p2 :: rest)) eqn:E; [|exact H2].
    symmetry in H2. now apply last_None in H2.
  - intros i a b c Ha Hb Hc. destruct (collinear a b c) eqn:Ecol; [now right|left].
    right. exact (H3 i a b c Ha Hb Hc Ecol).
Qed.
