(* ===== verification/ChainBuffer.v ===== *)
(** * Chain buffer

    [io/chain_buffer.hpp]: a byte queue kept as a vector of blocks with a read
    cursor (block, position).  [None] is undefined behaviour (a block index out
    of range) or, for [append], a loop that has not ended within its fuel. *)

From Stdlib Require Import ZArith Lia List Bool.
From stdpp Require Import base tactics list option.
From S2P Require Import Prelude.

Open Scope hj_scope.
Open Scope nat_scope.

Module Chain.

Record chain_buffer := Chain
  { block_size : nat; blocks : list (list Z); total_size : nat;
    read_pos : nat; read_block : nat }.

(** [size_t] subtraction. *)
Definition usub (a b : nat) : nat := Z.to_nat (wrap 64 (Z.of_nat a - Z.of_nat b)).

Definition make (bs : nat) : chain_buffer := Chain bs [[]] 0 0 0.
Definition size (b : chain_buffer) : nat := total_size b.
Definition empty (b : chain_buffer) : bool := total_size b =? 0.
Definition clear (b : chain_buffer) : chain_buffer := Chain (block_size b) [[]] 0 0 0.

(** [_blocks.back()] *)
Definition back_size (bl : list (list Z)) : nat := length (default [] (list.last bl)).
Definition push_back (bl : list (list Z)) (chunk : list Z) : list (list Z) :=
  alter (fun b => b ++ chunk) (length bl - 1) bl.

(** [while(len > 0)] of [append(const void *, size_t)]. *)
Fixpoint append_loop (fuel : nat) (data : list Z) (b : chain_buffer) : option chain_buffer :=
  match fuel with
  | O => None
  | S fuel =>
      match data with
      | [] => Some b
      | _ =>
          let bl := if (length (blocks b) =? 0) || (back_size (blocks b) =? block_size b)
                    then blocks b ++ [[]] else blocks b in
          let space := usub (block_size b) (back_size bl) in
          let to_copy := space `min` length data in
          append_loop fuel (drop to_copy data)
            (Chain (block_size b) (push_back bl (take to_copy data))
               (total_size b + to_copy) (read_pos b) (read_block b))
      end
  end.

Definition append (data : list Z) (b : chain_buffer) : option chain_buffer :=
  append_loop (S (length data)) data b.

(** The blocks of the other buffer, one [append] each. *)
Fixpoint append_blocks (bl : list (list Z)) (b : chain_buffer) : option chain_buffer :=
  match bl with
  | [] => Some b
  | blk :: bl =>
      if length blk =? 0 then append_blocks bl b
      else let* b := append blk b in append_blocks bl b
  end.

(** [append(chain_buffer &other)] *)
Definition append_buffer (b other : chain_buffer) : option (chain_buffer * chain_buffer) :=
  if empty other then Some (b, other) else
  let* b' :=
    if (read_block b =? 0) && (read_pos b =? 0) && (length (blocks b) =? 1)
         && (length (default [] (head (blocks b))) =? 0)
    then Some (Chain (block_size b) (blocks other) (total_size b) (read_pos b) (read_block b))
    else append_blocks (blocks other) b in
  Some (Chain (block_size b') (blocks b') (total_size b' + total_size other)
          (read_pos b') (read_block b'), clear other).

Fixpoint read_loop (fuel : nat) (bl : list (list Z)) (blk_idx pos len : nat) (out : list Z)
  : option (list Z) :=
  match fuel with
  | O => None
  | S fuel =>
      if (0 <? len) && (blk_idx <? length bl) then
        let* blk := bl !! blk_idx in
        if length blk <=? pos then read_loop fuel bl (S blk_idx) 0 len out
        else
          let to_copy := usub (length blk) pos `min` len in
          read_loop fuel bl blk_idx (pos + to_copy) (usub len to_copy)
            (out ++ take to_copy (drop pos blk))
      else Some out
  end.

Definition read (len : nat) (b : chain_buffer) : option (list Z) :=
  read_loop (S (length (blocks b) + len)) (blocks b) (read_block b) (read_pos b) len [].

(** The loop of [consume]; the flag tells the early return. *)
Fixpoint consume_loop (fuel : nat) (len consumed : nat) (b : chain_buffer)
  : option (bool * nat * chain_buffer) :=
  match fuel with
  | O => None
  | S fuel =>
      if (0 <? len) && negb (length (blocks b) =? 0) then
        let* blk := blocks b !! read_block b in
        let avail := usub (length blk) (read_pos b) in
        if len <? avail then
          Some (true, consumed + len,
            Chain (block_size b) (blocks b) (usub (total_size b) len) (read_pos b + len) (read_block b))
        else
          consume_loop fuel (usub len avail) (consumed + avail)
            (Chain (block_size b) (blocks b) (usub (total_size b) avail) 0 (S (read_block b)))
      else Some (false, consumed, b)
  end.

Definition consume (len : nat) (b : chain_buffer) : option (nat * chain_buffer) :=
  let len := if len <? total_size b then len else total_size b in
  let* (early, consumed, b) := consume_loop (S (length (blocks b))) len 0 b in
  if (early : bool) then Some (consumed, b)
  else if 0 <? read_block b
  then Some (consumed, Chain (block_size b) (drop (read_block b) (blocks b)) (total_size b) (read_pos b) 0)
  else Some (consumed, b).

(** ** Operations in sequence *)

(** The public operations, on any number of buffers; a buffer that is not there is
    undefined. *)
Inductive op := Append (i : nat) (data : list Z) | AppendBuffer (i j : nat) | Read (i len : nat) | Consume (i len : nat) | Clear (i : nat).
Inductive result := Done | Bytes (l : list Z) | Count (n : nat).

Definition exec (o : op) (bs : list chain_buffer) : option (result * list chain_buffer) :=
  match o with
  | Append i data => let* b := bs !! i in let* b := append data b in Some (Done, <[i := b]> bs)
  | AppendBuffer i j =>
      let* b := bs !! i in let* other := bs !! j in
      let* (b, other) := append_buffer b other in Some (Done, <[j := other]> (<[i := b]> bs))
  | Read i len => let* b := bs !! i in let* l := read len b in Some (Bytes l, bs)
  | Consume i len => let* b := bs !! i in let* (n, b) := consume len b in Some (Count n, <[i := b]> bs)
  | Clear i => let* b := bs !! i in Some (Done, <[i := clear b]> bs)
  end.

Fixpoint run (os : list op) (bs : list chain_buffer) : option (list result * list chain_buffer) :=
  match os with
  | [] => Some ([], bs)
  | o :: os => let* (r, bs) := exec o bs in let* (rs, bs) := run os bs in Some (r :: rs, bs)
  end.

(** What a buffer stands for: the queue of its bytes, whether nothing was stored in it
    since it was made or cleared, and whether nothing was consumed. *)
Record queue := Queue { bytes_of : list Z; fresh : bool; whole : bool }.
Definition new_queue : queue := Queue [] true true.
Definition is_nil {A} (l : list A) : bool := match l with [] => true | _ => false end.
Definition appended (data : list Z) (q : queue) : queue := Queue (bytes_of q ++ data) (fresh q && is_nil data) (whole q).
Definition consumed (len : nat) (q : queue) : queue := Queue (drop len (bytes_of q)) (fresh q) (whole q && is_nil (take len (bytes_of q))).

Definition spec (o : op) (qs : list queue) : option (result * list queue) :=
  match o with
  | Append i data => let* q := qs !! i in Some (Done, <[i := appended data q]> qs)
  | AppendBuffer i j =>
      let* q := qs !! i in let* q' := qs !! j in
      if is_nil (bytes_of q') then Some (Done, qs) else Some (Done, <[j := new_queue]> (<[i := appended (bytes_of q') q]> qs))
  | Read i len => let* q := qs !! i in Some (Bytes (take len (bytes_of q)), qs)
  | Consume i len => let* q := qs !! i in Some (Count (len `min` length (bytes_of q)), <[i := consumed len q]> qs)
  | Clear i => let* q := qs !! i in Some (Done, <[i := new_queue]> qs)
  end.

Fixpoint spec_run (os : list op) (qs : list queue) : option (list result * list queue) :=
  match os with
  | [] => Some ([], qs)
  | o :: os => let* (r, qs) := spec o qs in let* (rs, qs) := spec_run os qs in Some (r :: rs, qs)
  end.

(** ** The invariant *)

Definition unread (bl : list (list Z)) (idx pos : nat) : list Z := drop pos (concat (drop idx bl)).

Record holds (b : chain_buffer) (q : list Z) : Prop :=
  { h_bs : 0 < block_size b;
    h_fit : Forall (fun blk => length blk <= block_size b) (blocks b);
    h_cursor : (blocks b = [] /\ read_block b = 0 /\ read_pos b = 0)
               \/ exists blk, blocks b !! read_block b = Some blk /\ read_pos b <= length blk;
    h_queue : q = unread (blocks b) (read_block b) (read_pos b);
    h_total : total_size b = length q }.

(** Every size fits in a [size_t]. *)
Definition small (n : nat) : Prop := (Z.of_nat n < 2 ^ 64)%Z.

Lemma usub_le a b : b <= a -> small a -> usub a b = a - b.
Proof.
  intros Hb Ha. unfold usub, small in *. rewrite wrap_small by (unfold uint; lia). lia.
Qed.

Lemma small_le a b : a <= b -> small b -> small a.
Proof. unfold small. lia. Qed.

(** *** append *)

Lemma push_back_snoc bl b chunk : push_back (bl ++ [b]) chunk = bl ++ [b ++ chunk].
Proof.
  unfold push_back. rewrite length_app. cbn [length].
  replace (length bl + 1 - 1) with (length bl + 0) by lia.
  now rewrite alter_app_r.
Qed.

Lemma unread_snoc bl b chunk idx pos : idx <= length bl ->
  (forall blk, (bl ++ [b]) !! idx = Some blk -> pos <= length blk) ->
  unread (bl ++ [b ++ chunk]) idx pos = unread (bl ++ [b]) idx pos ++ chunk.
Proof.
  intros Hidx Hpos. unfold unread. rewrite !drop_app_le by lia. rewrite !concat_app. cbn.
  rewrite !app_nil_r, (app_assoc (concat _)). rewrite drop_app_le; [reflexivity|].
  rewrite length_app. destruct (decide (idx = length bl)) as [->|Hne].
  - rewrite drop_ge by lia. cbn. apply Hpos. apply list_lookup_middle. reflexivity.
  - destruct (lookup_lt_is_Some_2 bl idx) as [blk E]; [lia|].
    rewrite (drop_S _ _ _ E). cbn. rewrite length_app.
    specialize (Hpos blk). rewrite lookup_app_l in Hpos by lia. specialize (Hpos E). lia.
Qed.

(** One turn of the append loop. *)
Lemma append_step b q x data : holds b q -> small (block_size b) ->
  let bl := if (length (blocks b) =? 0) || (back_size (blocks b) =? block_size b)
            then blocks b ++ [[]] else blocks b in
  let to_copy := usub (block_size b) (back_size bl) `min` length (x :: data) in
  0 < to_copy <= length (x :: data)
  /\ holds (Chain (block_size b) (push_back bl (take to_copy (x :: data))) (total_size b + to_copy)
       (read_pos b) (read_block b)) (q ++ take to_copy (x :: data)).
Proof.
  intros [Hbs Hfit Hcur Hq Ht] Hsm bl to_copy.
  assert (Hbl : exists bl0 b0, bl = bl0 ++ [b0] /\ length b0 < block_size b
    /\ Forall (fun blk => length blk <= block_size b) bl0
    /\ read_block b <= length bl0
    /\ (forall blk, bl !! read_block b = Some blk -> read_pos b <= length blk)
    /\ unread bl (read_block b) (read_pos b) = q).
  { subst bl. destruct (blocks b) as [|b0 bl0] using rev_ind.
    - exists [], []. destruct Hcur as [(_ & Hrb & Hrp)|(blk & E & _)]; [|now rewrite lookup_nil in E].
      cbn. rewrite Hrb, Hrp in *. split_and!; [reflexivity|lia|constructor|lia|lia|now rewrite Hq].
    - clear IHbl0. destruct Hcur as [(Hn & _)|(blk & E & Hp)]; [now destruct bl0|].
      apply Forall_app in Hfit as [Hfit Hb0]. rewrite Forall_singleton in Hb0.
      pose proof (lookup_lt_Some _ _ _ E) as Hlt. rewrite length_app in Hlt. cbn [length] in Hlt.
      unfold back_size. rewrite last_snoc. cbn [from_option]. unfold id.
      rewrite length_app. replace (length bl0 + length [b0] =? 0) with false
        by (symmetry; apply Nat.eqb_neq; cbn; lia). cbn [orb].
      destruct (Nat.eqb_spec (length b0) (block_size b)) as [Hfull|Hfull].
      + exists (bl0 ++ [b0]), []. split_and!; [reflexivity|cbn; lia| | | |].
        * apply Forall_app. split; [exact Hfit|now apply Forall_singleton].
        * rewrite length_app. cbn. lia.
        * intros blk'. rewrite lookup_app_l by (rewrite length_app; cbn; lia). rewrite E.
          intros [= <-]. exact Hp.
        * rewrite Hq. unfold unread. rewrite drop_app_le by (rewrite length_app; cbn; lia).
          rewrite concat_app. cbn. now rewrite app_nil_r.
      + exists bl0, b0. split_and!; [reflexivity|lia|exact Hfit|lia| |now rewrite Hq].
        intros blk'. rewrite E. now intros [= <-]. }
  destruct Hbl as (bl0 & b0 & Ebl & Hb0 & Hfit0 & Hrb & Hpos & Hun). clearbody bl. subst bl.
  assert (Hspace : usub (block_size b) (back_size (bl0 ++ [b0])) = block_size b - length b0).
  { unfold back_size. rewrite last_snoc. apply usub_le; [cbn; lia|exact Hsm]. }
  assert (Htc : to_copy = (block_size b - length b0) `min` length (x :: data))
    by (subst to_copy; now rewrite Hspace).
  cbn [length] in *. split; [lia|]. rewrite push_back_snoc.
  split; cbn [block_size blocks total_size read_pos read_block].
  - exact Hbs.
  - apply Forall_app. split; [exact Hfit0|]. apply Forall_singleton.
    rewrite length_app, length_take. lia.
  - right. destruct (decide (read_block b = length bl0)) as [Heq|Hne].
    + exists (b0 ++ take to_copy (x :: data)). rewrite Heq.
      split; [now apply list_lookup_middle|]. rewrite length_app.
      specialize (Hpos b0). rewrite Heq in Hpos. specialize (Hpos (list_lookup_middle _ _ _ _ eq_refl)). lia.
    + destruct (lookup_lt_is_Some_2 bl0 (read_block b)) as [blk E]; [lia|]. exists blk.
      rewrite lookup_app_l in Hpos |- * by lia. auto.
  - rewrite unread_snoc by assumption. now rewrite Hun.
  - rewrite length_app, length_take, Ht. cbn [length]. lia.
Qed.

Lemma append_loop_holds n b q data : holds b q -> small (block_size b) -> length data < n ->
  exists b', append_loop n data b = Some b' /\ holds b' (q ++ data) /\ block_size b' = block_size b.
Proof.
  revert b q data. induction n as [|n IH]; intros b q data Hh Hsm Hn; [lia|].
  cbn [append_loop]. destruct data as [|x data]; [exists b; now rewrite app_nil_r|].
  destruct (append_step b q x data Hh Hsm) as [Htc Hh'].
  set (tc := usub _ _ `min` _) in *.
  destruct (IH _ _ (drop tc (x :: data)) Hh') as (b' & E & Hb' & Hbs); [exact Hsm| |].
  - rewrite length_drop. lia.
  - exists b'. split; [exact E|]. split; [|exact Hbs]. now rewrite <- app_assoc, take_drop in Hb'.
Qed.

(** *** read *)

Lemma unread_next bl idx blk : bl !! idx = Some blk ->
  unread bl idx (length blk) = unread bl (S idx) 0.
Proof.
  intros E. unfold unread. rewrite (drop_S _ _ _ E). cbn. rewrite drop_app_length. now rewrite drop_0.
Qed.

Lemma unread_split bl idx pos blk : bl !! idx = Some blk -> pos <= length blk ->
  unread bl idx pos = drop pos blk ++ concat (drop (S idx) bl).
Proof. intros E Hp. unfold unread. rewrite (drop_S _ _ _ E). cbn. now rewrite drop_app_le. Qed.

Lemma read_loop_unread n bl idx pos len out :
  (forall blk, bl !! idx = Some blk -> pos <= length blk) ->
  Forall (fun blk => small (length blk)) bl -> small len ->
  (length bl - idx) + len < n ->
  (idx < length bl \/ pos = 0) ->
  read_loop n bl idx pos len out = Some (out ++ take len (unread bl idx pos)).
Proof.
  revert idx pos len out. induction n as [|n IH]; intros idx pos len out Hp Hsm Hlen Hn Hi; [lia|].
  cbn [read_loop]. destruct (Nat.ltb_spec 0 len) as [Hl|Hl]; cbn [andb].
  2: { replace len with 0 by lia. cbn. now rewrite app_nil_r. }
  destruct (Nat.ltb_spec idx (length bl)) as [Hidx|Hidx].
  2: { destruct Hi as [Hi| ->]; [lia|]. unfold unread. rewrite (drop_ge bl) by lia. cbn.
       now rewrite take_nil, app_nil_r. }
  destruct (lookup_lt_is_Some_2 bl idx Hidx) as [blk E]. rewrite E. specialize (Hp blk E).
  assert (Hsb : small (length blk)) by exact (Forall_lookup_1 _ _ _ _ Hsm E).
  destruct (Nat.leb_spec (length blk) pos) as [Hge|Hlt].
  - replace pos with (length blk) by lia. rewrite unread_next by exact E.
    apply IH; [lia|assumption|assumption|lia|auto].
  - rewrite (usub_le (length blk) pos) by (assumption || lia).
    set (tc := (length blk - pos) `min` len). rewrite usub_le by (assumption || lia).
    rewrite IH; [|intros blk' Eb; rewrite E in Eb; injection Eb as <-; lia|assumption| |lia|auto].
    2: { eapply small_le; [|exact Hlen]. lia. }
    rewrite <- app_assoc. do 2 f_equal.
    rewrite (unread_split bl idx pos blk), (unread_split bl idx (pos + tc) blk) by (assumption || lia).
    rewrite <- (drop_drop blk tc pos). set (D := drop pos blk).
    assert (HD : tc <= length D) by (unfold D; rewrite length_drop; lia).
    rewrite <- (drop_app_le D _ tc), <- (take_app_le D (concat (drop (S idx) bl)) tc) by exact HD.
    rewrite take_take_drop. f_equal. lia.
Qed.

(** *** consume *)

Lemma consume_loop_holds n b q len consumed : holds b q -> small (length q) ->
  len <= length q -> length (blocks b) - read_block b < n -> 0 < length (blocks b) ->
  Forall (fun blk => small (length blk)) (blocks b) ->
  exists early b', consume_loop n len consumed b = Some (early, consumed + len, b')
    /\ block_size b' = block_size b /\ blocks b' = blocks b
    /\ total_size b' = length q - len
    /\ unread (blocks b') (read_block b') (read_pos b') = drop len q
    /\ ((exists blk, blocks b' !! read_block b' = Some blk /\ read_pos b' <= length blk)
        \/ (early = false /\ read_block b' = length (blocks b') /\ read_pos b' = 0)).
Proof.
  revert b q len consumed. induction n as [|n IH]; intros b q len consumed Hh Hsm Hlen Hn Hbl Hsb; [lia|].
  pose proof Hh as [Hbs Hfit Hcur Hq Ht].
  destruct Hcur as [(Hnil & _)|(blk & E & Hpos)]; [rewrite Hnil in Hbl; cbn in Hbl; lia|].
  cbn [consume_loop]. destruct (Nat.ltb_spec 0 len) as [Hl|Hl]; cbn [andb].
  2: { replace len with 0 by lia. exists false, b. rewrite Nat.add_0_r, Nat.sub_0_r, drop_0.
       split_and!; try reflexivity; [exact Ht|now symmetry|left; eauto]. }
  replace (length (blocks b) =? 0) with false by (symmetry; apply Nat.eqb_neq; lia). cbn [negb].
  rewrite E. pose proof (Forall_lookup_1 _ _ _ _ Hsb E) as Hsblk. cbn beta in Hsblk.
  rewrite (usub_le (length blk)) by assumption.
  pose proof Hq as Hq'. rewrite (unread_split _ _ _ blk E Hpos) in Hq'.
  destruct (Nat.ltb_spec len (length blk - read_pos b)) as [Hlt|Hge].
  - exists true. eexists. split_and!; [reflexivity|reflexivity|reflexivity| | |].
    + cbn. rewrite Ht, usub_le by (assumption || lia). reflexivity.
    + cbn. unfold unread. rewrite <- drop_drop. fold (unread (blocks b) (read_block b) (read_pos b)).
      now rewrite <- Hq.
    + left. exists blk. cbn. split; [exact E|lia].
  - set (avail := length blk - read_pos b) in *.
    assert (Hdrop : drop avail q = unread (blocks b) (S (read_block b)) 0).
    { rewrite Hq'. rewrite drop_app_length' by (rewrite length_drop; reflexivity). unfold unread.
      now rewrite drop_0. }
    assert (Hq_len : avail <= length q) by lia.
    rewrite (usub_le len) by (try (eapply small_le; [exact Hlen|exact Hsm]); lia).
    rewrite Ht, (usub_le (length q)) by assumption.
    set (b1 := Chain _ _ _ _ _).
    destruct (decide (S (read_block b) < length (blocks b))) as [Hmore|Hmore].
    + assert (Hh1 : holds b1 (drop avail q)).
      { split; cbn; [exact Hbs|exact Hfit| |exact Hdrop|rewrite length_drop; lia].
        right. destruct (lookup_lt_is_Some_2 _ _ Hmore) as [blk' E']. exists blk'. split; [exact E'|lia]. }
      destruct (IH b1 (drop avail q) (len - avail) (consumed + avail) Hh1) as
        (early & b' & E' & H1 & H2 & H3 & H4 & H5).
      { eapply small_le; [|exact Hsm]. rewrite length_drop. lia. }
      { rewrite length_drop. lia. } { cbn. lia. } { exact Hbl. } { exact Hsb. }
      exists early, b'. rewrite E'. split_and!; [do 3 f_equal; lia|exact H1|exact H2| | |exact H5].
      * rewrite H3, length_drop. lia.
      * rewrite H4, drop_drop. f_equal. lia.
    + pose proof (lookup_lt_Some _ _ _ E).
      assert (Hend : unread (blocks b) (S (read_block b)) 0 = []).
      { unfold unread. now rewrite (drop_ge (blocks b)) by lia. }
      rewrite Hend in Hdrop. assert (length (drop avail q) = 0) as Hq0 by now rewrite Hdrop.
      rewrite length_drop in Hq0. assert (len = avail) as -> by lia.
      destruct n as [|n]; [lia|]. cbn [consume_loop]. rewrite Nat.sub_diag. cbn [Nat.ltb Nat.leb andb].
      exists false, b1. split_and!; [reflexivity|reflexivity|reflexivity|cbn; lia| |right; cbn; lia].
      cbn [b1 blocks read_block read_pos]. now rewrite Hend, Hdrop.
Qed.

(** *** Every operation *)

Lemma holds_blocks_small b q : holds b q -> small (block_size b) ->
  Forall (fun blk => small (length blk)) (blocks b).
Proof.
  intros Hh Hs. apply Forall_forall. intros blk Hin. eapply small_le; [|exact Hs].
  exact (proj1 (Forall_forall _ _) (h_fit _ _ Hh) blk Hin).
Qed.

Lemma clear_holds b : 0 < block_size b -> holds (clear b) [].
Proof.
  intros Hb. split; cbn; [exact Hb|apply Forall_singleton; cbn; lia| |reflexivity|reflexivity].
  right. exists []. auto.
Qed.

Lemma read_holds b q len : holds b q -> small (block_size b) -> small len ->
  read len b = Some (take len q).
Proof.
  intros Hh Hs Hl. unfold read. rewrite (h_queue _ _ Hh).
  pose proof (h_cursor _ _ Hh) as Hc.
  rewrite read_loop_unread; [reflexivity| |exact (holds_blocks_small b q Hh Hs)|exact Hl|lia|].
  - intros blk E. destruct Hc as [(Hn & _)|(blk' & E' & Hp)]; [now rewrite Hn, lookup_nil in E|].
    now simplify_eq.
  - destruct Hc as [(_ & _ & ->)|(blk' & E' & Hp)]; [now right|left].
    now apply lookup_lt_Some in E'.
Qed.

Lemma consume_holds b q len : holds b q -> small (block_size b) -> small (length q) ->
  exists b', consume len b = Some (len `min` length q, b')
    /\ holds b' (drop len q) /\ block_size b' = block_size b.
Proof.
  intros Hh Hs Hq. unfold consume. rewrite (h_total _ _ Hh).
  set (n := if len <? length q then len else length q).
  assert (Hn : n = len `min` length q) by (subst n; destruct (Nat.ltb_spec len (length q)); lia).
  assert (Hdrop : drop len q = drop n q).
  { rewrite Hn. destruct (Nat.le_gt_cases len (length q)).
    - now rewrite Nat.min_l by lia.
    - now rewrite Nat.min_r, !drop_ge by lia. }
  rewrite <- Hn, Hdrop.
  destruct (decide (length (blocks b) = 0)) as [Hnil|Hne].
  { pose proof (h_queue _ _ Hh) as Hq0. destruct (h_cursor _ _ Hh) as [(E & Hrb & Hrp)|(blk & E & _)].
    2: { apply lookup_lt_Some in E. lia. }
    rewrite E, Hrb, Hrp in Hq0. cbn in Hq0.
    assert (Hn0 : n = 0) by (rewrite Hn, Hq0; cbn; lia). clearbody n. rewrite Hn0, drop_0.
    cbn [consume_loop Nat.ltb Nat.leb andb]. rewrite Hrb. exists b. auto. }
  destruct (consume_loop_holds (S (length (blocks b))) b q n 0 Hh Hq) as
    (early & b' & -> & Hbs & Hbl & Ht & Hun & Hcur); [lia|lia|lia|exact (holds_blocks_small b q Hh Hs)|].
  cbn [Nat.add].
  assert (Hkeep : (exists blk, blocks b' !! read_block b' = Some blk /\ read_pos b' <= length blk) ->
    holds b' (drop n q)).
  { intros Hc. split; rewrite ?Hbs, ?Hbl; [apply Hh|apply Hh|right; now rewrite <- Hbl|now rewrite <- Hbl|].
    now rewrite length_drop. }
  assert (Hcut : 0 < read_block b' -> holds (Chain (block_size b') (drop (read_block b') (blocks b'))
      (total_size b') (read_pos b') 0) (drop n q)).
  { intros Hpos. split; cbn; rewrite ?Hbs, ?Hbl; [apply Hh|apply Forall_drop, Hh| |now rewrite <- Hbl|now rewrite length_drop].
    destruct Hcur as [(blk & E & Hp)|(_ & Hrb & Hrp)].
    - right. exists blk. rewrite lookup_drop, Nat.add_0_r, <- Hbl. auto.
    - left. split; [apply drop_ge; rewrite Hrb, Hbl; lia|auto]. }
  destruct early; [|destruct (Nat.ltb_spec 0 (read_block b')) as [Hpos|Hpos]].
  - exists b'. split_and!; [reflexivity| |exact Hbs]. apply Hkeep.
    destruct Hcur as [H|(H & _)]; [exact H|discriminate].
  - eexists. split_and!; [reflexivity|now apply Hcut|exact Hbs].
  - exists b'. split_and!; [reflexivity| |exact Hbs]. apply Hkeep.
    destruct Hcur as [H|(_ & H & _)]; [exact H|]. rewrite Hbl in H. lia.
Qed.

(** *** A zero block size *)

Lemma push_back_nil bl : push_back bl [] = bl.
Proof.
  unfold push_back. destruct bl as [|b bl] using rev_ind; [reflexivity|].
  rewrite length_app. cbn [length]. replace (length bl + 1 - 1) with (length bl + 0) by lia.
  rewrite alter_app_r. cbn. now rewrite app_nil_r.
Qed.

Lemma append_zero_stuck n x data b : block_size b = 0 -> Forall (fun blk => blk = []) (blocks b) ->
  append_loop n (x :: data) b = None.
Proof.
  revert b. induction n as [|n IH]; intros b Hb Hall; [reflexivity|]. cbn [append_loop].
  set (bl := if _ : bool then _ else _).
  assert (Hbl : Forall (fun blk => blk = []) bl).
  { subst bl. destruct (_ || _); [|exact Hall]. apply Forall_app. split; [exact Hall|].
    now apply Forall_singleton. }
  assert (Hback : back_size bl = 0).
  { unfold back_size. destruct (list.last bl) as [blk|] eqn:E; [|reflexivity].
    rewrite last_lookup in E. cbn. now rewrite (Forall_lookup_1 _ _ _ _ Hbl E). }
  rewrite Hback, Hb. change (usub 0 0 `min` length (x :: data)) with 0. rewrite drop_0.
  apply IH; [reflexivity|]. cbn [blocks take]. now rewrite push_back_nil.
Qed.

(** *** Appending a buffer *)

Lemma append_blocks_holds bl b q : holds b q -> small (block_size b) ->
  exists b', append_blocks bl b = Some b' /\ holds b' (q ++ concat bl) /\ block_size b' = block_size b.
Proof.
  revert b q. induction bl as [|blk bl IH]; intros b q Hh Hs; cbn [append_blocks concat].
  { exists b. now rewrite app_nil_r. }
  destruct blk as [|x blk]; [now apply IH|]. cbn [length Nat.eqb].
  destruct (append_loop_holds (S (length (x :: blk))) b q (x :: blk) Hh Hs) as (b1 & E & H1 & Hbs); [lia|].
  unfold append. rewrite E. destruct (IH b1 _ H1) as (b2 & -> & H2 & Hbs2); [now rewrite Hbs|].
  exists b2. rewrite <- app_assoc in H2. rewrite Hbs2. auto.
Qed.

(** The first branch of [append(chain_buffer &)]: nothing was ever stored. *)
Definition pristine (b : chain_buffer) : bool :=
  (read_block b =? 0) && (read_pos b =? 0) && (length (blocks b) =? 1)
    && (length (default [] (head (blocks b))) =? 0).

(** *** Sequences *)

(** A buffer of block size [n] that stands for a queue; one that is fresh has one empty
    block, and one that is whole has its cursor at the beginning. *)
Record stands (n : nat) (b : chain_buffer) (q : queue) : Prop :=
  { st_holds : holds b (bytes_of q); st_size : block_size b = n; st_small : small (length (bytes_of q));
    st_fresh : fresh q = true -> blocks b = [[]] /\ read_block b = 0 /\ read_pos b = 0;
    st_whole : whole q = true -> read_block b = 0 /\ read_pos b = 0 }.

(** Sizes that fit, and buffers appended to buffers as the code can do it: an empty one,
    or a whole one to a fresh one. *)
Definition legal (o : op) (qs : list queue) : Prop :=
  match o with
  | Append i data => exists q, qs !! i = Some q /\ small (length (bytes_of q) + length data)
  | AppendBuffer i j => exists q q', qs !! i = Some q /\ qs !! j = Some q' /\ (bytes_of q' = [] \/ fresh q = true /\ whole q' = true)
  | Read i len | Consume i len => is_Some (qs !! i) /\ small len
  | Clear i => is_Some (qs !! i)
  end.
Fixpoint all_legal (os : list op) (qs : list queue) : Prop :=
  match os with [] => True | o :: os => legal o qs /\ forall r qs', spec o qs = Some (r, qs') -> all_legal os qs' end.

Lemma clear_stands n b : 0 < n -> block_size b = n -> stands n (clear b) new_queue.
Proof. intros H <-. split; [now apply (clear_holds b)|easy|unfold small; cbn; lia|easy|easy]. Qed.
Lemma append_cursor n : forall data b b', append_loop n data b = Some b' -> read_block b' = read_block b /\ read_pos b' = read_pos b.
Proof.
  induction n as [|n IH]; intros data b b'; cbn [append_loop]; [easy|]. destruct data as [|x data]; [now intros [= <-]|].
  intros E. destruct (IH _ _ _ E) as [-> ->]. easy.
Qed.
Lemma append_stands n b q data : small n -> stands n b q -> small (length (bytes_of q) + length data) ->
  exists b', append data b = Some b' /\ stands n b' (appended data q).
Proof.
  intros Hn [H S L F W] Hd. unfold append. destruct (append_loop_holds (Datatypes.S (length data)) b _ data H) as (b' & E & H' & S'); [now rewrite S|lia|].
  exists b'. split; [exact E|]. assert (C : read_block b' = read_block b /\ read_pos b' = read_pos b) by exact (append_cursor _ _ _ _ E).
  split; cbn; [exact H'|congruence|now rewrite length_app| |].
  - intros Hf. apply andb_true_iff in Hf as [Hf Hnil]. destruct data; [|easy]. injection E as <-. auto.
  - intros Hw. destruct C as [-> ->]. auto.
Qed.
(** ** Appending a buffer *)

(** [append(chain_buffer &)] moves the whole content when nothing was ever
    stored and the other buffer was not read from; otherwise it copies the
    other's blocks, consumed bytes included, and counts the other's size a
    second time, so that the result holds no queue at all. *)
Theorem chain_append_buffer b o q q' :
  holds b q -> holds o q' -> small (block_size b) -> block_size o = block_size b -> q' <> [] ->
  (pristine b = true -> read_block o = 0 -> read_pos o = 0 ->
   exists b', append_buffer b o = Some (b', clear o) /\ holds b' (q ++ q'))
  /\ (pristine b = false ->
   exists b', append_buffer b o = Some (b', clear o)
     /\ unread (blocks b') (read_block b') (read_pos b') = q ++ concat (blocks o)
     /\ size b' = length q + length (concat (blocks o)) + length q'
     /\ forall q'', ~ holds b' q'').
Proof.
  intros Hh Ho Hs Hbs Hne.
  assert (He : empty o = false).
  { unfold empty. rewrite (h_total _ _ Ho). destruct q'; [contradiction|reflexivity]. }
  unfold append_buffer. rewrite He. fold (pristine b). split; intros Hp; rewrite Hp.
  - intros Hrb Hrp. unfold pristine in Hp. reflect_bools. eexists. split; [reflexivity|].
    assert (Hq : q = []).
    { rewrite (h_queue _ _ Hh). unfold unread. destruct (blocks b) as [|blk [|? ?]]; try discriminate.
      replace (read_block b) with 0 by lia. replace (read_pos b) with 0 by lia. cbn.
      destruct blk; [reflexivity|discriminate]. }
    subst q. pose proof (h_total _ _ Hh) as Ht. cbn in Ht.
    split; cbn; [apply Hh|rewrite <- Hbs; apply Ho| | |].
    + replace (read_block b) with (read_block o) by lia. replace (read_pos b) with (read_pos o) by lia. apply Ho.
    + replace (read_block b) with (read_block o) by lia. replace (read_pos b) with (read_pos o) by lia. apply Ho.
    + rewrite Ht, (h_total _ _ Ho). reflexivity.
  - destruct (append_blocks_holds (blocks o) b q Hh Hs) as (b1 & -> & H1 & Hbs1).
    eexists. split_and!; [reflexivity| | |]; cbn [blocks read_block read_pos size total_size].
    + now rewrite <- (h_queue _ _ H1).
    + rewrite (h_total _ _ H1), (h_total _ _ Ho), length_app. reflexivity.
    + intros q'' H2. pose proof (h_queue _ _ H2) as Hq2. pose proof (h_total _ _ H2) as Ht2.
      cbn [blocks read_block read_pos total_size] in *. rewrite <- (h_queue _ _ H1) in Hq2.
      rewrite (h_total _ _ H1), (h_total _ _ Ho), Hq2 in Ht2. destruct q'; [contradiction|cbn in Ht2; lia].
Qed.

(** ** Theorems *)

Lemma fresh_empty n b q : stands n b q -> fresh q = true -> bytes_of q = [].
Proof. intros [H _ _ F _] Hf. destruct (F Hf) as (B & R & P). rewrite (h_queue _ _ H), B, R, P. reflexivity. Qed.
(** Nothing is consumed: nothing changes, when the cursor is in the first block. *)
Lemma consume_nothing n b q len : stands n b q -> is_nil (take len (bytes_of q)) = true -> read_block b = 0 -> consume len b = Some (0, b).
Proof.
  intros [H _ _ _ _] Hn R. unfold consume. rewrite (h_total _ _ H).
  assert (E : (if len <? length (bytes_of q) then len else length (bytes_of q)) = 0).
  { destruct (bytes_of q) as [|x l]; [now destruct len|]. destruct len; [reflexivity|easy]. }
  rewrite E. cbn [consume_loop Nat.ltb Nat.leb andb]. now rewrite R.
Qed.
Lemma consume_stands n b q len : small n -> stands n b q ->
  exists b', consume len b = Some (len `min` length (bytes_of q), b') /\ stands n b' (consumed len q).
Proof.
  intros Hn I. pose proof I as [H S L F W]. destruct (consume_holds b _ len H) as (b' & E & H' & S'); [now rewrite S|exact L|].
  exists b'. split; [exact E|]. assert (K : is_nil (take len (bytes_of q)) = true -> read_block b = 0 -> b' = b).
  { intros Hk R. rewrite (consume_nothing n b q len I Hk R) in E. now injection E as _ <-. }
  split; cbn; [exact H'|congruence|eapply small_le; [|exact L]; rewrite length_drop; lia| |].
  - intros Hf. destruct (F Hf) as (B & R & P). rewrite K; [auto|now rewrite (fresh_empty _ _ _ I Hf), take_nil|exact R].
  - intros Hw. apply andb_true_iff in Hw as [Hw Hk]. destruct (W Hw) as [R P]. rewrite K; auto.
Qed.
Lemma append_buffer_stands n b o q q' : 0 < n -> small n -> stands n b q -> stands n o q' -> bytes_of q' <> [] -> fresh q = true -> whole q' = true ->
  exists b', append_buffer b o = Some (b', clear o) /\ stands n b' (appended (bytes_of q') q).
Proof.
  intros Hp Hn I J Ne Hf Hw. pose proof I as [H S _ F W]. pose proof J as [H' S' L' _ W']. destruct (F Hf) as (B & R & P). destruct (W' Hw) as [R' P'].
  destruct (chain_append_buffer b o _ _ H H') as [K _]; [now rewrite S|congruence|exact Ne|].
  destruct K as (b' & E & Hb'); [unfold pristine; now rewrite B, R, P|exact R'|exact P'|]. exists b'. split; [exact E|].
  assert (C : block_size b' = n /\ read_block b' = 0 /\ read_pos b' = 0).
  { unfold append_buffer in E. destruct (empty o) eqn:Eo; [injection E as <- _; auto|]. rewrite B, R, P in E. cbn in E. injection E as <-. auto. }
  destruct C as (C1 & C2 & C3). split; cbn; [exact Hb'|exact C1|rewrite (fresh_empty _ _ _ I Hf); exact L'| |auto].
  destruct (bytes_of q'); [easy|]. now rewrite andb_false_r.
Qed.

(** The buffers stand for the queues, each for its own. *)
Definition all_stand (n : nat) : list chain_buffer -> list queue -> Prop := Forall2 (stands n).
Lemma exec_stands n o bs qs : 0 < n -> small n -> all_stand n bs qs -> legal o qs ->
  exists r bs' qs', exec o bs = Some (r, bs') /\ spec o qs = Some (r, qs') /\ all_stand n bs' qs'.
Proof.
  intros Hp Hn A. assert (G : forall i q, qs !! i = Some q -> exists b, bs !! i = Some b /\ stands n b q).
  { intros i q E. destruct (Forall2_lookup_r _ _ _ _ _ A E) as (b & Eb & I). eauto. }
  destruct o as [i data|i j|i len|i len|i]; cbn [legal exec spec].
  - intros (q & E & Hs). destruct (G _ _ E) as (b & -> & I). destruct (append_stands n b q data Hn I Hs) as (b' & -> & I'). rewrite E. do 3 eexists. split; [reflexivity|]. split; [reflexivity|]. now apply Forall2_insert.
  - intros (q & q' & E & E' & K). destruct (G _ _ E) as (b & Eb & I). destruct (G _ _ E') as (b' & Eb' & J). rewrite E, E', Eb, Eb'.
    destruct (bytes_of q') as [|x l] eqn:Q; cbn [is_nil].
    + unfold append_buffer, empty. rewrite (h_total _ _ (st_holds _ _ _ J)), Q. cbn. do 3 eexists. split; [reflexivity|]. split; [reflexivity|].
      rewrite (list_insert_id bs) by exact Eb. rewrite list_insert_id by exact Eb'. exact A.
    + destruct K as [K|[Hf Hw]]; [easy|]. destruct (append_buffer_stands n b b' q q') as (c & -> & I'); try assumption; [now rewrite Q|].
      do 3 eexists. split; [reflexivity|]. split; [now rewrite <- Q|]. apply Forall2_insert; [apply Forall2_insert; [exact A|exact I']|]. apply clear_stands; [exact Hp|apply J].
  - intros [[q E] Hs]. destruct (G _ _ E) as (b & -> & I). rewrite E, (read_holds b _ len (st_holds _ _ _ I)); [|now rewrite (st_size _ _ _ I)|exact Hs]. eauto 8.
  - intros [[q E] _]. destruct (G _ _ E) as (b & -> & I). destruct (consume_stands n b q len Hn I) as (b' & -> & I'). rewrite E. do 3 eexists. split; [reflexivity|]. split; [reflexivity|]. now apply Forall2_insert.
  - intros [q E]. destruct (G _ _ E) as (b & -> & I). rewrite E. do 3 eexists. split; [reflexivity|]. split; [reflexivity|]. apply Forall2_insert; [exact A|]. apply clear_stands; [exact Hp|apply I].
Qed.
Lemma run_stands n os : 0 < n -> small n -> forall bs qs, all_stand n bs qs -> all_legal os qs ->
  exists rs bs' qs', run os bs = Some (rs, bs') /\ spec_run os qs = Some (rs, qs') /\ all_stand n bs' qs'.
Proof.
  intros Hp Hn. induction os as [|o os IH]; intros bs qs A L; [cbn; eauto 8|]. destruct L as [L Ls].
  destruct (exec_stands n o bs qs Hp Hn A L) as (r & bs1 & qs1 & E & E' & A1). destruct (IH bs1 qs1 A1 (Ls _ _ E')) as (rs & bs2 & qs2 & F & F' & A2).
  cbn [run spec_run]. rewrite E, E', F, F'. eauto 8.
Qed.


Definition demo : list op :=
  [Append 0 [1; 2; 3; 4; 5]%Z; Read 0 3; AppendBuffer 1 0; Consume 1 3; Append 1 [6; 7]%Z; Consume 1 1; Read 1 9; AppendBuffer 1 0; Consume 1 9; Append 1 [8]%Z; Clear 0].


(** With block size 0 (which the constructor accepts) the loop of [append]
    never ends: no number of turns appends a byte. *)
Theorem chain_zero_block n x data : append_loop n (x :: data) (make 0) = None.
Proof. apply append_zero_stuck; [reflexivity|]. now apply Forall_singleton. Qed.

(** After such an append, draining the buffer indexes past the last block. *)
Example drained_out_of_bounds :
  (let* b := append [1]%Z (make 4) in let* o := append [2]%Z (make 4) in
   let* (b, _) := append_buffer b o in Some (size b, consume (size b) b)) = Some (3, None).
Proof. vm_compute. reflexivity. Qed.

Definition one : chain_buffer := Chain 4 [[1%Z]] 1 0 0.
Definition two : chain_buffer := Chain 4 [[2%Z]] 1 0 0.

Lemma one_holds : holds one [1%Z] /\ holds two [2%Z].
Proof.
  split; split; cbn; try lia; try reflexivity; try (apply Forall_singleton; cbn; lia); right; eexists;
    split; try reflexivity; cbn; lia.
Qed.

Lemma chain_append_buffer_witness :
  (exists b', append_buffer (make 4) two = Some (b', clear two) /\ holds b' [2%Z])
  /\ exists b', append_buffer one two = Some (b', clear two)
     /\ unread (blocks b') (read_block b') (read_pos b') = [1; 2]%Z
     /\ size b' = 3 /\ forall q'', ~ holds b' q''.
Proof.
  destruct one_holds as [H1 H2]. split.
  - apply (chain_append_buffer (make 4) two [] [2%Z]); try reflexivity; try exact H2; try discriminate.
    exact (clear_holds (make 4) (Nat.lt_0_succ 3)).
  - apply (chain_append_buffer one two [1%Z] [2%Z]); try reflexivity; try exact H1; try exact H2; try discriminate.
Defined.
End Chain.
