(* ===== verification/Counter.v ===== *)
(** * Atomic counter

    [sync/counter.hpp]: a value with bounds and a step, changed by
    compare-exchange loops.  The value type is any integer type, with the
    arithmetic of [Ints]; [None] is undefined behaviour.  [Module Threads]
    runs the loops of several threads interleaved. *)

From Stdlib Require Import ZArith Lia List Bool.
From stdpp Require Import base tactics list option gmap.
From S2P Require Import Prelude Ints.

Open Scope hj_scope.
Open Scope Z_scope.

(** ** The class *)

Module Counter.
Section Ops.
Context (t : ity).

Record counter := Make { _value : Z; _max : Z; _min : Z; _step : Z }.

Definition copy (rhs : counter) : counter := Make (_value rhs) (_max rhs) (_min rhs) (_step rhs).
Definition make1 (value : Z) : counter := Make value (t_max t) (t_min t) 1.
Definition make2 (value min : Z) : counter := Make value (t_max t) min 1.
Definition make3 (value min step : Z) : counter := Make value (t_max t) min step.
Definition make4 (value min max step : Z) : counter := Make value max min step.

Definition with_value (c : counter) (v : Z) : counter := Make v (_max c) (_min c) (_step c).

Definition outside (c : counter) (r : Z) : bool := (_max c <? r) || (r <? _min c).

(** One load, the range test and, if it passes, the exchange: the loaded value
    and the counter afterwards. *)
Definition rmw (f : Z -> option Z) (c : counter) : option (Z * counter) :=
  let tmp := _value c in
  let* r := f tmp in
  if outside c r then Some (tmp, c) else Some (tmp, with_value c (convert t r)).

Definition pre_inc (c : counter) : option counter :=
  let* (_, c') := rmw (fun v => add t v (_step c)) c in Some c'.
(** The value returned is a copy that holds the old value. *)
Definition post_inc (c : counter) : option (counter * counter) :=
  let* (tmp, c') := rmw (fun v => add t v (_step c)) c in Some (with_value c tmp, c').
Definition pre_dec (c : counter) : option counter :=
  let* (_, c') := rmw (fun v => sub t v (_step c)) c in Some c'.
Definition post_dec (c : counter) : option (counter * counter) :=
  let* (tmp, c') := rmw (fun v => sub t v (_step c)) c in Some (with_value c tmp, c').

(** [operator+=] and its companions, on a value or on another counter. *)
Definition add_assign (arg : Z) (c : counter) : option counter :=
  let* (_, c') := rmw (fun v => add t v arg) c in Some c'.
Definition sub_assign (arg : Z) (c : counter) : option counter :=
  let* (_, c') := rmw (fun v => sub t v arg) c in Some c'.
Definition mul_assign (arg : Z) (c : counter) : option counter :=
  let* (_, c') := rmw (fun v => mul t v arg) c in Some c'.
Definition div_assign (arg : Z) (c : counter) : option counter :=
  let* (_, c') := rmw (fun v => div t v arg) c in Some c'.
Definition add_assign_counter (ct c : counter) : option counter := add_assign (_value ct) c.
Definition sub_assign_counter (ct c : counter) : option counter := sub_assign (_value ct) c.
Definition mul_assign_counter (ct c : counter) : option counter := mul_assign (_value ct) c.
Definition div_assign_counter (ct c : counter) : option counter := div_assign (_value ct) c.

(** [operator+] and its companions build a counter with the bounds of the
    left operand. *)
Definition plus (c : counter) (arg : Z) : option counter :=
  let* r := add t (_value c) arg in
  if outside c r then Some (copy c) else Some (with_value c (convert t r)).
Definition minus (c : counter) (arg : Z) : option counter :=
  let* r := sub t (_value c) arg in
  if outside c r then Some (copy c) else Some (with_value c (convert t r)).
Definition times (c : counter) (arg : Z) : option counter :=
  let* r := mul t (_value c) arg in
  if outside c r then Some (copy c) else Some (with_value c (convert t r)).
Definition over (c : counter) (arg : Z) : option counter :=
  let* r := div t (_value c) arg in
  if outside c r then Some (copy c) else Some (with_value c (convert t r)).
Definition plus_counter (c ct : counter) : option counter := plus c (_value ct).
Definition minus_counter (c ct : counter) : option counter := minus c (_value ct).
Definition times_counter (c ct : counter) : option counter := times c (_value ct).
Definition over_counter (c ct : counter) : option counter := over c (_value ct).
(** [arg / ct]: the bounds are those of the divisor. *)
Definition value_over (arg : Z) (ct : counter) : option counter :=
  let* r := div t arg (_value ct) in
  if outside ct r then Some (with_value ct arg) else Some (with_value ct (convert t r)).

Definition assign (ct c : counter) : counter := Make (_value ct) (_max ct) (_min ct) (_step ct).
Definition assign_value (value : Z) (c : counter) : counter := Make value (t_max t) (t_min t) 1.

Definition inc (c : counter) : option counter := pre_inc c.
Definition dec (c : counter) : option counter := pre_dec c.

Definition reset (value : Z) (c : counter) : counter :=
  if outside c value then c else with_value c value.

Definition eqb (c1 c2 : counter) : bool := _value c1 =? _value c2.
Definition neqb (c1 c2 : counter) : bool := negb (_value c1 =? _value c2).
Definition ltb (c1 c2 : counter) : bool := _value c1 <? _value c2.
Definition leb (c1 c2 : counter) : bool := _value c1 <=? _value c2.
Definition gtb (c1 c2 : counter) : bool := _value c2 <? _value c1.
Definition geb (c1 c2 : counter) : bool := _value c2 <=? _value c1.

(** ** Invariant *)

Record ok (c : counter) : Prop :=
  { ok_low : t_min t <= _min c; ok_high : _max c <= t_max t;
    ok_value : _min c <= _value c <= _max c }.

Lemma outside_false c r : outside c r = false <-> _min c <= r <= _max c.
Proof. unfold outside. rewrite orb_false_iff, Z.ltb_ge, Z.ltb_ge. lia. Qed.

Lemma inside_convert c r : 0 < bits t -> ok c -> outside c r = false -> convert t r = r.
Proof.
  intros Hb [H1 H2 H3] Ho. apply outside_false in Ho. apply (convert_id t); [exact Hb|].
  unfold in_type. apply andb_true_iff. rewrite !Z.leb_le. lia.
Qed.

Lemma rmw_ok f c tmp c' : 0 < bits t -> ok c -> rmw f c = Some (tmp, c') ->
  ok c' /\ tmp = _value c
  /\ exists r, f (_value c) = Some r
     /\ (if outside c r then c' = c else c' = with_value c r).
Proof.
  intros Hb Hok. unfold rmw. destruct (f (_value c)) as [r|]; [|discriminate].
  destruct (outside c r) eqn:Ho.
  - intros [= <- <-]. split_and!; [exact Hok|reflexivity|]. exists r. now rewrite Ho.
  - intros [= <- <-]. rewrite (inside_convert c r) by assumption.
    split_and!; [|reflexivity|exists r; now rewrite Ho].
    apply outside_false in Ho. destruct Hok as [H1 H2 H3]. split; assumption.
Qed.
End Ops.
End Counter.

(** ** Threads *)

Module Threads.
Import Counter.
Section Threads.
Context (t : ity).

Inductive op := Inc | Dec | AddA (arg : Z) | SubA (arg : Z) | MulA (arg : Z) | DivA (arg : Z) | Reset (v : Z).

(** The value the loop tries to install over a loaded [v]. *)
Definition effect (c : counter) (o : op) (v : Z) : option Z :=
  match o with
  | Inc => add t v (_step c)
  | Dec => sub t v (_step c)
  | AddA a => add t v a
  | SubA a => sub t v a
  | MulA a => mul t v a
  | DivA a => div t v a
  | Reset a => Some a
  end.

(** Where a thread is in its loop: before the load, between the load and the
    exchange, finished (with or without an update), or past undefined
    behaviour. *)
Inductive pc := Start | Ready (tmp new : Z) | Done (updated : bool) | Undefined.

(** [log] lists the updates in the order of their exchanges. *)
Record system := Sys { shared : counter; threads : gmap nat (op * pc); log : list op }.

Inductive step : system -> system -> Prop :=
| step_load c ts l i o r : ts !! i = Some (o, Start) ->
    effect c o (_value c) = Some r -> outside c r = false ->
    step (Sys c ts l) (Sys c (<[i := (o, Ready (_value c) (convert t r))]> ts) l)
| step_skip c ts l i o r : ts !! i = Some (o, Start) ->
    effect c o (_value c) = Some r -> outside c r = true ->
    step (Sys c ts l) (Sys c (<[i := (o, Done false)]> ts) l)
| step_undefined c ts l i o : ts !! i = Some (o, Start) ->
    effect c o (_value c) = None ->
    step (Sys c ts l) (Sys c (<[i := (o, Undefined)]> ts) l)
| step_exchange c ts l i o tmp new : ts !! i = Some (o, Ready tmp new) ->
    _value c = tmp ->
    step (Sys c ts l) (Sys (with_value c new) (<[i := (o, Done true)]> ts) (l ++ [o]))
| step_retry c ts l i o tmp new : ts !! i = Some (o, Ready tmp new) ->
    (** the weak exchange may fail even on the expected value *)
    step (Sys c ts l) (Sys c (<[i := (o, Start)]> ts) l).

Definition initial (c : counter) (os : list op) : system :=
  Sys c (list_to_map (imap (fun i o => (i, (o, Start))) os)) [].

(** The updates applied one after the other, each within the bounds. *)
Inductive replays (c : counter) : list op -> Z -> Prop :=
| replays_nil : replays c [] (_value c)
| replays_snoc l v o r : replays c l v -> effect c o v = Some r -> outside c r = false ->
    replays c (l ++ [o]) r.

Lemma outside_with_value c v r : outside (with_value c v) r = outside c r.
Proof. reflexivity. Qed.
Lemma effect_with_value c v o : effect (with_value c v) o = effect c o.
Proof. now destruct o. Qed.

Record inv (c0 : counter) (s : system) : Prop :=
  { inv_shape : exists v, shared s = with_value c0 v;
    inv_replays : replays c0 (log s) (_value (shared s));
    inv_ready : forall i o tmp new, threads s !! i = Some (o, Ready tmp new) ->
      effect c0 o tmp = Some new /\ outside c0 new = false }.

Lemma initial_threads c os i o p : threads (initial c os) !! i = Some (o, p) -> p = Start /\ o ∈ os.
Proof.
  cbn. intros E. apply elem_of_list_to_map_2 in E.
  apply elem_of_lookup_imap in E as (j & o' & [= -> -> ->] & Hj).
  split; [reflexivity|]. now apply list_elem_of_lookup_2 with j.
Qed.

Lemma counter_initial_inv c os : inv c (initial c os).
Proof.
  split; [exists (_value c); now destruct c|constructor|].
  intros i o tmp new E. apply initial_threads in E as [E _]. discriminate.
Qed.

Lemma counter_step_inv c0 s s' : 0 < bits t -> ok t c0 -> inv c0 s -> step s s' -> inv c0 s'.
Proof.
  intros Hb Hok [[v Hv] Hr Hrd] Hs.
  destruct Hs as [c ts l i o r E Ef Ho|c ts l i o r E Ef Ho|c ts l i o E Ef|c ts l i o tmp new E Et|c ts l i o tmp new E];
    cbn [shared log threads] in *; rewrite ?Hv in *;
    try rewrite effect_with_value in Ef; try rewrite outside_with_value in Ho.
  - split; cbn [shared log threads]; [eauto|exact Hr|].
    intros j o' tmp new. destruct (decide (j = i)) as [->|Hj].
    + rewrite lookup_insert_eq. intros [= <- <- <-].
      rewrite (inside_convert t c0 r) by assumption. auto.
    + rewrite lookup_insert_ne by congruence. apply Hrd.
  - split; cbn [shared log threads]; [eauto|exact Hr|].
    intros j o' tmp new. destruct (decide (j = i)) as [->|Hj].
    + rewrite lookup_insert_eq. discriminate.
    + rewrite lookup_insert_ne by congruence. apply Hrd.
  - split; cbn [shared log threads]; [eauto|exact Hr|].
    intros j o' tmp new. destruct (decide (j = i)) as [->|Hj].
    + rewrite lookup_insert_eq. discriminate.
    + rewrite lookup_insert_ne by congruence. apply Hrd.
  - destruct (Hrd i o tmp new E) as [H1 H2].
    split; cbn [shared log threads]; [exists new; reflexivity| |].
    + cbn. apply (replays_snoc c0 l tmp o new); [|exact H1|exact H2].
      cbn in Et. subst tmp. exact Hr.
    + intros j o' tmp' new'. destruct (decide (j = i)) as [->|Hj].
      * rewrite lookup_insert_eq. discriminate.
      * rewrite lookup_insert_ne by congruence. apply Hrd.
  - split; cbn [shared log threads]; [eauto|exact Hr|].
    intros j o' tmp' new'. destruct (decide (j = i)) as [->|Hj].
    + rewrite lookup_insert_eq. discriminate.
    + rewrite lookup_insert_ne by congruence. apply Hrd.
Qed.

Lemma counter_steps_inv c0 s s' : 0 < bits t -> ok t c0 -> inv c0 s -> rtc step s s' -> inv c0 s'.
Proof. intros Hb Hok Hi Hs. induction Hs; [assumption|]. eauto using counter_step_inv. Qed.

Lemma replays_bounds c l v : _min c <= _value c <= _max c -> replays c l v -> _min c <= v <= _max c.
Proof. intros H0 Hr. destruct Hr as [|l v o r _ _ Ho]; [exact H0|]. now apply outside_false in Ho. Qed.

(** *** Threads that only increment *)

Definition only_inc (c0 : counter) (s : system) : Prop :=
  (forall i o p, threads s !! i = Some (o, p) -> o = Inc)
  /\ _value (shared s) = _value c0 + _step c0 * Z.of_nat (length (log s))
  /\ (forall i, threads s !! i = Some (Inc, Done false) -> _max c0 < _value (shared s) + _step c0).

Lemma inc_exact c v : 0 < bits t -> ok t c -> 0 <= _step c -> _max c + _step c <= t_max t ->
  _min c <= v <= _max c -> effect c Inc v = Some (v + _step c).
Proof.
  intros Hb [H1 H2 _] Hs Hmax Hv. apply (arith_exact t); [exact Hb|]. unfold in_type.
  apply andb_true_iff. rewrite !Z.leb_le. lia.
Qed.

Lemma step_only_inc c0 s s' : 0 < bits t -> ok t c0 -> 0 <= _step c0 ->
  _max c0 + _step c0 <= t_max t -> inv c0 s -> only_inc c0 s -> step s s' -> only_inc c0 s'.
Proof.
  intros Hb Hok Hst Hmax Hi (Ho & Hv & Hd) Hs. pose proof Hi as [[v Hsh] Hr Hrd].
  pose proof (replays_bounds c0 _ _ (ok_value _ _ Hok) Hr) as Hbd.
  destruct Hs as [c ts l i o r E Ef Hout|c ts l i o r E Ef Hout|c ts l i o E Ef|c ts l i o tmp new E Et|c ts l i o tmp new E];
    cbn [shared log threads] in *; pose proof (Ho _ _ _ E) as ->;
    (split; [intros j o' p; cbn [threads]; destruct (decide (j = i)) as [->|Hj];
      [rewrite lookup_insert_eq; now intros [= <- <-]|rewrite lookup_insert_ne by congruence; eauto]|]);
    cbn [shared log threads].
  - split; [exact Hv|]. intros j. destruct (decide (j = i)) as [->|Hj];
      [rewrite lookup_insert_eq; discriminate|rewrite lookup_insert_ne by congruence; apply Hd].
  - split; [exact Hv|]. intros j. destruct (decide (j = i)) as [->|Hj].
    + intros _. rewrite Hsh in Hout, Ef. rewrite effect_with_value in Ef. rewrite outside_with_value in Hout.
      rewrite Hsh in Hbd. rewrite inc_exact in Ef by assumption. injection Ef as <-.
      rewrite Hsh. cbn [with_value _value] in *. unfold outside in Hout. apply orb_true_iff in Hout as [Hout|Hout]; apply Z.ltb_lt in Hout; lia.
    + rewrite lookup_insert_ne by congruence. apply Hd.
  - split; [exact Hv|]. intros j. destruct (decide (j = i)) as [->|Hj];
      [rewrite lookup_insert_eq; discriminate|rewrite lookup_insert_ne by congruence; apply Hd].
  - destruct (Hrd i Inc tmp new E) as [H1 _].
    rewrite <- Et in H1. rewrite inc_exact in H1 by assumption. injection H1 as <-.
    rewrite length_app. cbn [length with_value _value]. split; [lia|].
    intros j. destruct (decide (j = i)) as [->|Hj]; [rewrite lookup_insert_eq; discriminate|].
    rewrite lookup_insert_ne by congruence. intros Hj'. specialize (Hd j Hj'). lia.
  - split; [exact Hv|]. intros j. destruct (decide (j = i)) as [->|Hj];
      [rewrite lookup_insert_eq; discriminate|rewrite lookup_insert_ne by congruence; apply Hd].
Qed.
End Threads.
End Threads.

(** ** Theorems *)

Import Counter Threads.

(** C9: whatever the interleaving of the loops of any number of threads and
    whatever exchanges fail, the value stays within the bounds, and it is the
    result of applying the successful updates one after the other: no update is
    lost and none takes effect outside the bounds. *)
Theorem counter_linearizable t c os s :
  0 < bits t -> ok t c -> rtc (step t) (initial c os) s ->
  _min c <= _value (shared s) <= _max c /\ replays t c (log s) (_value (shared s)).
Proof.
  intros Hb Hok Hs.
  pose proof (counter_steps_inv t c _ s Hb Hok (counter_initial_inv t c os) Hs) as Hi.
  split; [|apply Hi]. eapply replays_bounds; [apply Hok|apply Hi].
Qed.

(** When the threads only increment and one step past the maximum is still
    in the type, the value counts the successful increments exactly, and an
    increment is refused only when the next step would pass the maximum. *)
Theorem counter_inc_limit t c n s :
  0 < bits t -> ok t c -> 0 <= _step c -> _max c + _step c <= t_max t ->
  rtc (step t) (initial c (replicate n Inc)) s ->
  _value (shared s) = _value c + _step c * Z.of_nat (length (log s))
  /\ (forall i, threads s !! i = Some (Inc, Done false) -> _max c < _value (shared s) + _step c).
Proof.
  intros Hb Hok Hst Hmax Hs.
  enough (H : inv t c s /\ only_inc c s) by (destruct H as [_ (_ & H1 & H2)]; auto).
  assert (H0 : inv t c (initial c (replicate n Inc)) /\ only_inc c (initial c (replicate n Inc))).
  { split; [apply counter_initial_inv|]. split_and!.
    - intros i o p E. apply initial_threads in E as [_ E]. now apply elem_of_replicate in E as [-> _].
    - cbn. lia.
    - intros i E. apply initial_threads in E as [E _]. discriminate. }
  induction Hs as [|s1 s2 s3 H1 H2 IH]; [exact H0|]. apply IH. destruct H0 as [Hi Ho].
  split; [eapply counter_step_inv; eauto|eapply step_only_inc; eauto].
Qed.

(** The sequential operators either leave a counter within its bounds with
    the exact result of the arithmetic, or refuse and leave it unchanged. *)
Theorem counter_operators t c arg :
  0 < bits t -> ok t c ->
  Forall (fun '(f, r) => forall c', r = Some c' ->
      ok t c' /\ exists v, f = Some v /\ c' = (if outside c v then c else with_value c v))
    [(add t (_value c) (_step c), inc t c); (sub t (_value c) (_step c), dec t c);
     (add t (_value c) arg, add_assign t arg c); (sub t (_value c) arg, sub_assign t arg c);
     (mul t (_value c) arg, mul_assign t arg c); (div t (_value c) arg, div_assign t arg c);
     (add t (_value c) arg, plus t c arg); (sub t (_value c) arg, minus t c arg);
     (mul t (_value c) arg, times t c arg); (div t (_value c) arg, over t c arg);
     (Some arg, Some (reset arg c))].
Proof.
  intros Hb Hok.
  assert (Hrmw : forall f c', (let* (_, c') := rmw t f c in Some c') = Some c' ->
    ok t c' /\ exists v, f (_value c) = Some v /\ c' = (if outside c v then c else with_value c v)).
  { intros f c' E. destruct (rmw t f c) as [[tmp c1]|] eqn:Er; [|discriminate]. injection E as <-.
    destruct (rmw_ok t f c tmp c1 Hb Hok Er) as (H1 & _ & r & H2 & H3).
    split; [exact H1|]. exists r. split; [exact H2|]. now destruct (outside c r). }
  assert (Hnew : forall e c', (let* r := e in if outside c r then Some (copy c) else Some (with_value c (convert t r))) = Some c' ->
    ok t c' /\ exists v, e = Some v /\ c' = (if outside c v then c else with_value c v)).
  { intros [r|] c' E; [|discriminate]. apply (Hrmw (fun _ => Some r)). unfold rmw.
    destruct (outside c r); [|exact E]. injection E as <-. now destruct c. }
  repeat (apply Forall_cons; split); [..|constructor]; intros c' E.
  - exact (Hrmw (fun v => add t v (_step c)) c' E).
  - exact (Hrmw (fun v => sub t v (_step c)) c' E).
  - exact (Hrmw (fun v => add t v arg) c' E).
  - exact (Hrmw (fun v => sub t v arg) c' E).
  - exact (Hrmw (fun v => mul t v arg) c' E).
  - exact (Hrmw (fun v => div t v arg) c' E).
  - exact (Hnew _ c' E).
  - exact (Hnew _ c' E).
  - exact (Hnew _ c' E).
  - exact (Hnew _ c' E).
  - injection E as <-. unfold reset. destruct (outside c arg) eqn:Ho.
    + split; [exact Hok|]. exists arg. now rewrite Ho.
    + apply outside_false in Ho as Hbd. destruct Hok as [H1 H2 H3].
      split; [split; assumption|]. exists arg. now rewrite Ho.
Qed.

(** With the default bounds the range test cannot work at the end of the
    type: an unsigned counter of 32 bits or more at its maximum wraps to 0, and
    a signed one overflows, which is undefined behaviour. *)
Theorem counter_type_limit t :
  32 <= bits t ->
  inc t (make1 t (t_max t)) = (if signed t then None else Some (make1 t 0)).
Proof.
  intros Hb. unfold inc, pre_inc, rmw, make1, add, arith. cbn [_value _step].
  replace (bits t <? 32) with false by (symmetry; apply Z.ltb_ge; lia).
  destruct (signed t) eqn:Es.
  - unfold in_type, t_max. rewrite Es. replace (_ <=? 2 ^ (bits t - 1) - 1) with false; [now rewrite andb_false_r|].
    symmetry. apply Z.leb_gt. lia.
  - assert (E : wrap (bits t) (t_max t + 1) = 0).
    { unfold t_max, wrap. rewrite Es. replace (2 ^ bits t - 1 + 1) with (2 ^ bits t) by lia.
      apply Z.mod_same. lia. }
    rewrite E. unfold outside, t_min, t_max. rewrite Es. cbn [_max _min].
    assert (0 < 2 ^ bits t) by lia.
    replace (2 ^ bits t - 1 <? 0) with false by (symmetry; apply Z.ltb_ge; lia). cbn.
    unfold convert, with_value. rewrite Es. cbn. now rewrite wrap_small by (unfold uint; lia).
Qed.

(** *** Witnesses *)

Definition int32 : ity := Ity 32 true.
Definition demo : counter := Make 0 2 0 1.

Lemma demo_ok : ok int32 demo.
Proof. split; cbn; lia. Qed.

(** Three threads increment a counter limited to 2: the first exchange of
    thread 1 fails, and thread 0 is refused. *)
Definition demo_end : system :=
  Sys (Make 2 2 0 1) (<[0%nat := (Inc, Done false)]> (<[1%nat := (Inc, Done true)]> (<[2%nat := (Inc, Done true)]> ∅)))
    [Inc; Inc].

Lemma counter_demo_run : rtc (step int32) (initial demo (replicate 3 Inc)) demo_end.
Proof.
  eapply rtc_l; [apply (step_load int32 demo _ [] 1 Inc 1); reflexivity|].
  eapply rtc_l; [apply (step_load int32 demo _ [] 2 Inc 1); reflexivity|].
  eapply rtc_l; [apply (step_exchange int32 demo _ [] 2 Inc 0 1); reflexivity|].
  eapply rtc_l; [apply (step_retry int32 (Make 1 2 0 1) _ [Inc] 1 Inc 0 1); reflexivity|].
  eapply rtc_l; [apply (step_load int32 (Make 1 2 0 1) _ [Inc] 1 Inc 2); reflexivity|].
  eapply rtc_l; [apply (step_exchange int32 (Make 1 2 0 1) _ [Inc] 1 Inc 1 2); reflexivity|].
  eapply rtc_l; [apply (step_skip int32 (Make 2 2 0 1) _ [Inc; Inc] 0 Inc 3); reflexivity|].
  apply rtc_refl.
Qed.

Lemma counter_linearizable_witness :
  0 <= 2 <= 2 /\ replays int32 demo [Inc; Inc] 2.
Proof.
  exact (counter_linearizable int32 demo (replicate 3 Inc) demo_end ltac:(reflexivity) demo_ok counter_demo_run).
Defined.

Lemma counter_inc_limit_witness :
  2 = 0 + 1 * 2 /\ (forall i, threads demo_end !! i = Some (Inc, Done false) -> 2 < 2 + 1).
Proof.
  apply (counter_inc_limit int32 demo 3 demo_end); [reflexivity|exact demo_ok|discriminate|discriminate|exact counter_demo_run].
Defined.

Lemma counter_operators_witness : inc int32 demo = Some (Make 1 2 0 1) /\ ok int32 (Make 1 2 0 1).
Proof.
  split; [reflexivity|].
  pose proof (counter_operators int32 demo 7 ltac:(reflexivity) demo_ok) as H.
  apply Forall_inv in H. exact (proj1 (H _ eq_refl)).
Defined.

Lemma counter_type_limit_witness : inc (Ity 64 false) (make1 (Ity 64 false) 18446744073709551615)
  = Some (make1 (Ity 64 false) 0).
Proof. exact (counter_type_limit (Ity 64 false) ltac:(discriminate)). Defined.
