(* ===== verification/ConnPool.v ===== *)
(** * Connection pool

    [db/db_conn_pool.hpp]: the critical sections of [acquire], [_release] and
    [close] as functions on the state under the mutex, and the interleavings of
    any number of threads as a step relation.  What [_make] and [_check] return
    is chosen by the environment.  A wait on the condition variable is a step
    that is enabled while its predicate holds: lost wake-ups are not modelled,
    nor is time (a timed wait may give up whenever its predicate is false). *)

From Stdlib Require Import ZArith Lia List Bool.
From stdpp Require Import base tactics list option relations.
From S2P Require Import Prelude.

Open Scope hj_scope.
Open Scope nat_scope.

Module Pool.
Section Pool.
Context {Conn : Type}.

(** The members the mutex protects, and the constants.  [total] is a 64-bit
    unsigned count. *)
Record pool := Pool
  { capa : nat; min_size : nat; conns : list Conn; closed : bool; total : Z }.

Definition decr (s : pool) : pool :=
  Pool (capa s) (min_size s) (conns s) (closed s) (wrap 64 (total s - 1)).

(** The constructor and [_init]: [made i] is the outcome of the [i]-th call of
    [_make] (none on null or an exception). *)
Definition init_loop (made : nat -> option Conn) (i : nat) (s : pool) : option pool :=
  Some match made i with
       | Some c => Pool (capa s) (min_size s) (conns s ++ [c]) (closed s) (wrap 64 (total s + 1))
       | None => s
       end.
Definition create (capa_ min : nat) (made : nat -> option Conn) : option pool :=
  let m := if capa_ <? min then capa_ else min in
  for_up (init_loop made) 0 m (Pool capa_ m [] false 0).

Definition is_closed (s : pool) : bool := closed s.
Definition is_empty (s : pool) : bool := length (conns s) =? 0.
Definition idle (s : pool) : nat := length (conns s).
Definition active (s : pool) : Z := wrap 64 (total s - Z.of_nat (length (conns s))).

(** ** Critical sections *)

Definition wait_cond (s : pool) : bool :=
  negb (length (conns s) =? 0) || closed s || (total s <? Z.of_nat (capa s))%Z.

Inductive taken := Refused | Taken (c : Conn) (s : pool) | Create (s : pool).

(** The first section of [acquire], once the wait is over. *)
Definition take_section (s : pool) : taken :=
  if closed s then Refused else
  match conns s with
  | c :: cs => Taken c (Pool (capa s) (min_size s) cs (closed s) (total s))
  | [] =>
      if (total s <? Z.of_nat (capa s))%Z
      then Create (Pool (capa s) (min_size s) [] (closed s) (wrap 64 (total s + 1)))
      else Refused
  end.

(** The last section of [acquire]: a handle unless the pool was closed. *)
Definition finish_section (s : pool) : bool * pool :=
  if closed s then (false, if (0 <? total s)%Z then decr s else s) else (true, s).

(** [_release] *)
Definition release_section (c : Conn) (s : pool) : pool :=
  if negb (closed s) then
    if length (conns s) <? min_size s
    then Pool (capa s) (min_size s) (conns s ++ [c]) (closed s) (total s)
    else decr s
  else if (0 <? total s)%Z then decr s else s.

(** [close]: the exchange of the flag, then the section that empties the queue. *)
Definition close_flag (s : pool) : option pool :=
  if closed s then None else Some (Pool (capa s) (min_size s) (conns s) true (total s)).
Definition drain_section (s : pool) : pool :=
  Pool (capa s) (min_size s) [] (closed s) (wrap 64 (total s - Z.of_nat (length (conns s)))).

(** ** Threads *)

(** Where a thread is: outside, waiting in [acquire], calling [_make], about to
    give a count back, checking, about to finish, holding a handle, or between
    the two steps of [close].  [timed]: [timeout_ms >= 0]. *)
Inductive pc :=
| Outside
| Waiting (timed : bool)
| Making (timed : bool)
| Dropping (timed : bool)
| Checking (timed : bool) (c : Conn)
| Finishing (c : Conn)
| Holding (c : Conn)
| Draining.

Definition count_of (p : pc) : nat :=
  match p with
  | Making _ | Dropping _ | Checking _ _ | Finishing _ | Holding _ => 1
  | _ => 0
  end.
Definition conns_of (p : pc) : list Conn :=
  match p with Checking _ c | Finishing c | Holding c => [c] | _ => [] end.

Record system := Sys { shared : pool; threads : list pc }.

Definition in_flight (ts : list pc) : nat := sum_list_with count_of ts.
Definition held (ts : list pc) : list Conn := concat (conns_of <$> ts).

Inductive step : system -> system -> Prop :=
| step_acquire s ts i timed : ts !! i = Some Outside ->
    step (Sys s ts) (Sys s (<[i := Waiting timed]> ts))
| step_timeout s ts i : ts !! i = Some (Waiting true) -> wait_cond s = false ->
    step (Sys s ts) (Sys s (<[i := Outside]> ts))
| step_refused s ts i timed : ts !! i = Some (Waiting timed) -> wait_cond s = true ->
    take_section s = Refused -> step (Sys s ts) (Sys s (<[i := Outside]> ts))
| step_taken s ts i timed c s' : ts !! i = Some (Waiting timed) -> wait_cond s = true ->
    take_section s = Taken c s' -> step (Sys s ts) (Sys s' (<[i := Checking timed c]> ts))
| step_create s ts i timed s' : ts !! i = Some (Waiting timed) -> wait_cond s = true ->
    take_section s = Create s' -> step (Sys s ts) (Sys s' (<[i := Making timed]> ts))
| step_made s ts i timed c : ts !! i = Some (Making timed) ->
    (** [_make] returns a new connection *)
    c ∉ conns s ++ held ts -> step (Sys s ts) (Sys s (<[i := Checking timed c]> ts))
| step_not_made s ts i timed : ts !! i = Some (Making timed) ->
    step (Sys s ts) (Sys s (<[i := Dropping timed]> ts))
| step_valid s ts i timed c : ts !! i = Some (Checking timed c) ->
    step (Sys s ts) (Sys s (<[i := Finishing c]> ts))
| step_invalid s ts i timed c : ts !! i = Some (Checking timed c) ->
    step (Sys s ts) (Sys s (<[i := Dropping timed]> ts))
| step_drop s ts i timed : ts !! i = Some (Dropping timed) ->
    step (Sys s ts) (Sys (decr s) (<[i := Waiting timed]> ts))
| step_drop_timeout s ts i : ts !! i = Some (Dropping true) ->
    step (Sys s ts) (Sys (decr s) (<[i := Outside]> ts))
| step_handle s ts i c s' : ts !! i = Some (Finishing c) -> finish_section s = (true, s') ->
    step (Sys s ts) (Sys s' (<[i := Holding c]> ts))
| step_closed s ts i c s' : ts !! i = Some (Finishing c) -> finish_section s = (false, s') ->
    step (Sys s ts) (Sys s' (<[i := Outside]> ts))
| step_release s ts i c : ts !! i = Some (Holding c) ->
    step (Sys s ts) (Sys (release_section c s) (<[i := Outside]> ts))
| step_close s ts i s' : ts !! i = Some Outside -> close_flag s = Some s' ->
    step (Sys s ts) (Sys s' (<[i := Draining]> ts))
| step_drain s ts i : ts !! i = Some Draining ->
    step (Sys s ts) (Sys (drain_section s) (<[i := Outside]> ts)).

Implicit Types (s : pool) (ts : list pc).

(** ** Invariant *)

Record inv (y : system) : Prop :=
  { inv_total : total (shared y) = Z.of_nat (length (conns (shared y)) + in_flight (threads y));
    inv_capa : (total (shared y) <= Z.of_nat (capa (shared y)) < 2 ^ 64)%Z;
    inv_idle : length (conns (shared y)) <= min_size (shared y);
    inv_distinct : NoDup (conns (shared y) ++ held (threads y));
    inv_drained : closed (shared y) = true -> Draining ∉ threads y -> conns (shared y) = [] }.

Lemma wrap_total (n k : nat) : (Z.of_nat n < 2 ^ 64)%Z -> k <= n ->
  wrap 64 (Z.of_nat n - Z.of_nat k) = Z.of_nat (n - k).
Proof. intros Hn Hk. rewrite wrap_small by (unfold uint; lia). lia. Qed.

Lemma in_flight_update ts i p q : ts !! i = Some p ->
  in_flight (<[i := q]> ts) + count_of p = in_flight ts + count_of q.
Proof. apply sum_update. Qed.

Lemma in_flight_pos ts i p : ts !! i = Some p -> count_of p <= in_flight ts.
Proof.
  intros Hi. destruct (list_update_split ts i p p Hi) as (l1 & l2 & -> & _).
  unfold in_flight. rewrite sum_list_with_app. cbn. lia.
Qed.

Lemma held_update ts i p q : ts !! i = Some p ->
  held (<[i := q]> ts) ++ conns_of p ≡ₚ held ts ++ conns_of q.
Proof. apply concat_update. Qed.

Lemma draining_update ts i p q : ts !! i = Some p -> p <> Draining ->
  Draining ∉ <[i := q]> ts -> Draining ∉ ts.
Proof.
  intros Hi Hp Hn Hin. apply Hn. apply list_elem_of_lookup in Hin as [j Hj].
  apply list_elem_of_lookup. exists j. rewrite list_lookup_insert_ne; [exact Hj|].
  intros <-. congruence.
Qed.

(** A thread moves without touching the shared state. *)
Lemma move_inv s ts i p q : inv (Sys s ts) -> ts !! i = Some p -> p <> Draining ->
  count_of p = count_of q -> NoDup (conns s ++ held (<[i := q]> ts)) ->
  inv (Sys s (<[i := q]> ts)).
Proof.
  intros [Ht Hc Hi Hd Hr] E Hp Hq Hnd. split; cbn [shared threads] in *; try assumption.
  - pose proof (in_flight_update ts i p q E). rewrite Ht. do 2 f_equal. lia.
  - intros Hcl Hn. apply Hr; [exact Hcl|]. eapply draining_update; eauto.
Qed.

Lemma held_same ts i p q (cs : list Conn) : ts !! i = Some p -> conns_of p = conns_of q ->
  NoDup (cs ++ held ts) -> NoDup (cs ++ held (<[i := q]> ts)).
Proof.
  intros E Hq Hnd. pose proof (held_update ts i p q E) as Hperm. rewrite Hq in Hperm.
  apply (Permutation_app_inv_r (conns_of q)) in Hperm. now rewrite Hperm.
Qed.

Lemma held_less ts i p q (cs : list Conn) : ts !! i = Some p -> conns_of q = [] ->
  NoDup (cs ++ held ts) -> NoDup (cs ++ held (<[i := q]> ts)).
Proof.
  intros E Hq Hnd. pose proof (held_update ts i p q E) as Hperm. rewrite Hq, app_nil_r in Hperm.
  rewrite <- Hperm, app_assoc in Hnd. now apply list.NoDup_app in Hnd as [Hnd _].
Qed.

(** A thread gives its count (and its connection) back. *)
Lemma decr_inv s ts i p q : inv (Sys s ts) -> ts !! i = Some p -> count_of p = 1 ->
  count_of q = 0 -> conns_of q = [] -> inv (Sys (decr s) (<[i := q]> ts)).
Proof.
  intros [Ht Hc Hi Hd Hr] E Hp Hq Hq'. pose proof (in_flight_update ts i p q E) as Hu.
  pose proof (in_flight_pos ts i p E) as Hpos. cbn [shared threads] in *.
  assert (Hw : total (decr s) = Z.of_nat (length (conns s) + in_flight (<[i := q]> ts))).
  { unfold decr. cbn [total]. rewrite Ht in *. change 1%Z with (Z.of_nat 1).
    rewrite wrap_total by lia. f_equal. lia. }
  split; cbn [shared threads]; [exact Hw|rewrite Hw; cbn [decr capa]; lia|exact Hi| |].
  - eapply held_less; eauto.
  - intros Hcl Hn. apply Hr; [exact Hcl|]. eapply draining_update; [exact E| |exact Hn].
    intros ->. discriminate.
Qed.

Lemma pool_step_inv y y' : inv y -> step y y' -> inv y'.
Proof.
  intros Hinv Hs.
  destruct Hs as [s ts i timed E|s ts i E Hw|s ts i timed E Hw Hts|s ts i timed c s' E Hw Hts
    |s ts i timed s' E Hw Hts|s ts i timed c E Hfresh|s ts i timed E|s ts i timed c E|s ts i timed c E
    |s ts i timed E|s ts i E|s ts i c s' E Hf|s ts i c s' E Hf|s ts i c E|s ts i s' E Hcf|s ts i E].
  - apply (move_inv s ts i Outside); try done. eapply held_same; [exact E|reflexivity|apply Hinv].
  - apply (move_inv s ts i (Waiting true)); try done. eapply held_same; [exact E|reflexivity|apply Hinv].
  - apply (move_inv s ts i (Waiting timed)); try done. eapply held_same; [exact E|reflexivity|apply Hinv].
  - (* taken from the queue *)
    destruct Hinv as [Ht Hc Hi Hd Hr]. cbn [shared threads] in *. unfold take_section in Hts.
    destruct (closed s) eqn:Ecl; [discriminate|]. destruct (conns s) as [|c0 cs] eqn:Ecs.
    { destruct (total s <? Z.of_nat (capa s))%Z; discriminate. }
    injection Hts as <- <-. pose proof (in_flight_update ts i _ (Checking timed c0) E) as Hu.
    pose proof (held_update ts i _ (Checking timed c0) E) as Hh. cbn [count_of conns_of] in *.
    split; cbn [shared threads conns total capa min_size closed].
    + rewrite Ht. f_equal. cbn [length]. lia.
    + exact Hc.
    + cbn [length] in Hi. lia.
    + rewrite app_nil_r in Hh. rewrite Hh. rewrite app_assoc, Permutation_app_comm. exact Hd.
    + try rewrite Ecl. discriminate.
  - (* a new connection is to be made *)
    destruct Hinv as [Ht Hc Hi Hd Hr]. cbn [shared threads] in *. unfold take_section in Hts.
    destruct (closed s) eqn:Ecl; [discriminate|]. destruct (conns s) as [|c0 cs] eqn:Ecs; [|discriminate].
    destruct (Z.ltb_spec (total s) (Z.of_nat (capa s))) as [Hlt|]; [|discriminate].
    injection Hts as <-. pose proof (in_flight_update ts i _ (Making timed) E) as Hu. cbn [count_of] in Hu.
    cbn [length] in *.
    split; cbn [shared threads conns total capa min_size closed length].
    + rewrite wrap_small by (unfold uint; lia). lia.
    + rewrite wrap_small by (unfold uint; lia). lia.
    + lia.
    + eapply held_same; [exact E|reflexivity|exact Hd].
    + try rewrite Ecl. discriminate.
  - apply (move_inv s ts i (Making timed)); try done.
    pose proof (held_update ts i _ (Checking timed c) E) as Hh. cbn [conns_of] in Hh.
    rewrite app_nil_r in Hh. rewrite Hh, app_assoc, Permutation_app_comm. cbn. constructor; [exact Hfresh|apply Hinv].
  - apply (move_inv s ts i (Making timed)); try done. eapply held_same; [exact E|reflexivity|apply Hinv].
  - apply (move_inv s ts i (Checking timed c)); try done. eapply held_same; [exact E|reflexivity|apply Hinv].
  - apply (move_inv s ts i (Checking timed c)); try done. eapply held_less; [exact E|reflexivity|apply Hinv].
  - eapply decr_inv; eauto.
  - eapply decr_inv; eauto.
  - unfold finish_section in Hf. destruct (closed s) eqn:Ecl; [discriminate|]. injection Hf as <-.
    apply (move_inv s ts i (Finishing c)); try done. eapply held_same; [exact E|reflexivity|apply Hinv].
  - unfold finish_section in Hf. destruct (closed s) eqn:Ecl; [|discriminate]. injection Hf as <-.
    pose proof (inv_total _ Hinv) as Ht. pose proof (in_flight_pos ts i _ E) as Hpos. cbn [shared threads count_of] in Ht, Hpos.
    destruct (Z.ltb_spec 0 (total s)); [|lia]. eapply decr_inv; eauto.
  - (* release *)
    unfold release_section. pose proof (inv_total _ Hinv) as Ht. pose proof (in_flight_pos ts i _ E) as Hpos.
    cbn [shared threads count_of] in Ht, Hpos. destruct (closed s) eqn:Ecl; cbn [negb].
    { destruct (Z.ltb_spec 0 (total s)); [|lia]. eapply decr_inv; eauto. }
    destruct (Nat.ltb_spec (length (conns s)) (min_size s)) as [Hlt|Hge]; [|eapply decr_inv; eauto].
    destruct Hinv as [_ Hc Hi Hd Hr]. cbn [shared threads] in *.
    pose proof (in_flight_update ts i _ Outside E) as Hu.
    pose proof (held_update ts i _ Outside E) as Hh. cbn [count_of conns_of] in *.
    rewrite app_nil_r in Hh.
    split; cbn [shared threads conns total capa min_size closed].
    + rewrite Ht, length_app. cbn [length]. f_equal. lia.
    + exact Hc.
    + rewrite length_app. cbn [length]. lia.
    + rewrite <- app_assoc, (Permutation_app_comm [c]), Hh. exact Hd.
    + try rewrite Ecl. discriminate.
  - unfold close_flag in Hcf. destruct (closed s) eqn:Ecl; [discriminate|]. injection Hcf as <-.
    destruct Hinv as [Ht Hc Hi Hd Hr]. cbn [shared threads] in *.
    pose proof (in_flight_update ts i _ Draining E) as Hu. cbn [count_of] in Hu.
    split; cbn [shared threads conns total capa min_size closed]; try assumption.
    + rewrite Ht. f_equal. lia.
    + eapply held_same; [exact E|reflexivity|exact Hd].
    + intros _ Hn. exfalso. apply Hn. apply list_elem_of_lookup. exists i.
      apply list_lookup_insert_eq. now apply lookup_lt_Some in E.
  - destruct Hinv as [Ht Hc Hi Hd Hr]. cbn [shared threads] in *.
    pose proof (in_flight_update ts i _ Outside E) as Hu. cbn [count_of] in Hu.
    unfold drain_section. split; cbn [shared threads conns total capa min_size closed length app].
    + rewrite Ht in *. rewrite wrap_total by lia. f_equal. lia.
    + rewrite Ht in *. rewrite wrap_total by lia. lia.
    + lia.
    + apply (held_same ts i Draining Outside) in Hd; [|exact E|reflexivity]. now apply list.NoDup_app in Hd as (_ & _ & Hd).
    + reflexivity.
Qed.

(** ** The start *)

Definition start (s : pool) (n : nat) : system := Sys s (replicate n Outside).

Lemma held_outside n : held (replicate n Outside) = [].
Proof. induction n as [|n IH]; [reflexivity|exact IH]. Qed.
Lemma in_flight_outside n : in_flight (replicate n Outside) = 0.
Proof. induction n as [|n IH]; [reflexivity|exact IH]. Qed.

(** The calls of [_make] by the constructor return distinct connections. *)
Definition distinct_made (made : nat -> option Conn) : Prop :=
  forall i j c, made i = Some c -> made j = Some c -> i = j.

Lemma create_spec cp mn made n : (Z.of_nat cp < 2 ^ 64)%Z -> distinct_made made ->
  exists s, create cp mn made = Some s /\ inv (start s n) /\ closed s = false /\ capa s = cp.
Proof.
  intros Hcp Hdis. unfold create. set (m := if cp <? mn then cp else mn).
  assert (Hm : m <= cp) by (subst m; destruct (Nat.ltb_spec cp mn); lia).
  destruct (for_up_inv (fun i s => capa s = cp /\ min_size s = m /\ closed s = false
      /\ length (conns s) <= i /\ total s = Z.of_nat (length (conns s)) /\ NoDup (conns s)
      /\ forall c, c ∈ conns s -> exists j, j < i /\ made j = Some c)
    (init_loop made) 0 m (Pool cp m [] false 0)) as (s & -> & H1 & H2 & H3 & H4 & H5 & H6 & _).
  - split_and!; try reflexivity; [constructor|]. intros c Hc. now apply elem_of_nil in Hc.
  - intros i s Hi (H1 & H2 & H3 & H4 & H5 & H6 & H7). unfold init_loop. eexists. split; [reflexivity|].
    destruct (made i) as [c|] eqn:Em; cbn [capa min_size conns closed total].
    2: { split_and!; try assumption; [lia|]. intros c Hc. destruct (H7 c Hc) as (j & Hj & E). exists j. split; [lia|exact E]. }
    split_and!; try assumption.
    + rewrite length_app. cbn [length]. lia.
    + rewrite H5, length_app. cbn [length]. rewrite wrap_small by (unfold uint; lia). lia.
    + apply list.NoDup_app. split_and!; [exact H6| |apply NoDup_singleton].
      intros x Hx Hx'. apply list_elem_of_singleton in Hx' as ->.
      destruct (H7 c Hx) as (j & Hj & E). pose proof (Hdis i j c Em E). lia.
    + intros x Hx. apply elem_of_app in Hx as [Hx|Hx].
      * destruct (H7 x Hx) as (j & Hj & E). exists j. split; [lia|exact E].
      * apply list_elem_of_singleton in Hx as ->. exists i. split; [lia|exact Em].
  - exists s. split_and!; [reflexivity| |exact H3|exact H1].
    unfold start. split; cbn [shared threads].
    + rewrite in_flight_outside, H5. f_equal. lia.
    + rewrite H5, H1. lia.
    + rewrite H2. lia.
    + rewrite held_outside, app_nil_r. exact H6.
    + rewrite H3. discriminate.
Qed.

Lemma pool_steps_inv y y' : inv y -> rtc step y y' -> inv y'.
Proof. intros Hi Hs. induction Hs; [assumption|]. eauto using pool_step_inv. Qed.

Lemma capa_stable y y' : step y y' -> capa (shared y') = capa (shared y).
Proof.
  intros Hs. destruct Hs; cbn [shared]; try reflexivity;
    unfold take_section, finish_section, release_section, close_flag in *;
    repeat match goal with
    | E : context [match ?x with _ => _ end] |- _ => destruct x
    | |- context [match ?x with _ => _ end] => destruct x
    end; simplify_eq; reflexivity.
Qed.

(** ** Theorems *)

(** C10: whatever the interleaving of acquisitions, releases, failed and invalid
    connections and closing, the count is the idle connections plus the threads
    between taking or reserving one and giving it back, it never passes the
    capacity and never wraps, and no more than [min_size] connections idle. *)
Theorem pool_count cp mn made n :
  (Z.of_nat cp < 2 ^ 64)%Z -> distinct_made made ->
  exists s0, create cp mn made = Some s0 /\
  forall y, rtc step (start s0 n) y ->
    total (shared y) = Z.of_nat (idle (shared y) + in_flight (threads y))
    /\ active (shared y) = Z.of_nat (in_flight (threads y))
    /\ (total (shared y) <= Z.of_nat cp)%Z
    /\ idle (shared y) <= min_size (shared y).
Proof.
  intros Hcp Hd. destruct (create_spec cp mn made n Hcp Hd) as (s0 & E & Hi & _ & Hc).
  exists s0. split; [exact E|]. intros y Hy. pose proof (pool_steps_inv _ _ Hi Hy) as [Ht Hcap Hid _ _].
  assert (Hcy : capa (shared y) = cp).
  { rewrite <- Hc. clear -Hy. change s0 with (shared (start s0 n)). induction Hy as [|y1 y2 y3 H1 _ IH]; [reflexivity|].
    rewrite IH. now apply capa_stable. }
  rewrite Hcy in Hcap. split_and!; [exact Ht| |lia|exact Hid].
  unfold active. rewrite Ht in *. rewrite wrap_total by lia. f_equal. lia.
Qed.

(** No connection is in two places: two threads never hold the same
    connection, and an idle one is held by none. *)
Theorem pool_exclusive cp mn made n s0 y :
  (Z.of_nat cp < 2 ^ 64)%Z -> distinct_made made -> create cp mn made = Some s0 ->
  rtc step (start s0 n) y ->
  (forall i j c, threads y !! i = Some (Holding c) -> threads y !! j = Some (Holding c) -> i = j)
  /\ (forall i c, threads y !! i = Some (Holding c) -> c ∉ conns (shared y)).
Proof.
  intros Hcp Hd E Hy. destruct (create_spec cp mn made n Hcp Hd) as (s0' & E' & Hi & _).
  rewrite E in E'. injection E' as <-. pose proof (inv_distinct _ (pool_steps_inv _ _ Hi Hy)) as Hnd.
  split.
  - intros i j c Hti Htj. destruct (decide (i = j)) as [|Hij]; [assumption|exfalso].
    destruct (list_update_split _ i _ Outside Hti) as (l1 & l2 & El & El').
    assert (Hj : <[i := Outside]> (threads y) !! j = Some (Holding c)) by (rewrite list_lookup_insert_ne; auto).
    pose proof (held_update _ i _ Outside Hti) as Hp. cbn [conns_of] in Hp. rewrite app_nil_r in Hp.
    rewrite <- Hp in Hnd. pose proof (held_update _ j _ Outside Hj) as Hp'. cbn [conns_of] in Hp'.
    rewrite app_nil_r in Hp'. rewrite <- Hp' in Hnd.
    apply list.NoDup_app in Hnd as (_ & _ & Hnd). rewrite <- app_assoc in Hnd.
    apply list.NoDup_app in Hnd as (_ & _ & Hnd). cbn in Hnd. apply NoDup_cons in Hnd as [Hnd _].
    apply Hnd. now left.
  - intros i c Hti Hin. pose proof (held_update _ i _ Outside Hti) as Hp. cbn [conns_of] in Hp.
    rewrite app_nil_r in Hp. rewrite <- Hp in Hnd. apply list.NoDup_app in Hnd as (_ & Hnd & _).
    apply (Hnd c Hin). apply elem_of_app. right. now left.
Qed.

(** Once [close] has run and every thread is back, nothing is left: no idle
    connection and a count of 0; and from the closing on no handle is given
    out. *)
Theorem pool_closed cp mn made n s0 y :
  (Z.of_nat cp < 2 ^ 64)%Z -> distinct_made made -> create cp mn made = Some s0 ->
  rtc step (start s0 n) y -> closed (shared y) = true ->
  ((forall p, p ∈ threads y -> p = Outside) -> conns (shared y) = [] /\ total (shared y) = 0%Z)
  /\ (forall y' i c, step y y' -> threads y' !! i = Some (Holding c) -> threads y !! i = Some (Holding c)).
Proof.
  intros Hcp Hd E Hy Hcl. destruct (create_spec cp mn made n Hcp Hd) as (s0' & E' & Hi & _).
  rewrite E in E'. injection E' as <-. pose proof (pool_steps_inv _ _ Hi Hy) as Hinv. split.
  - intros Hout. assert (Hdr : conns (shared y) = []).
    { apply (inv_drained _ Hinv Hcl). intros Hin. specialize (Hout _ Hin). discriminate. }
    split; [exact Hdr|]. rewrite (inv_total _ Hinv), Hdr. cbn [length].
    assert (Hz : in_flight (threads y) = 0); [|rewrite Hz; reflexivity].
    clear -Hout. induction (threads y) as [|p ts IH]; [reflexivity|]. cbn.
    rewrite (Hout p) by now left. cbn. apply IH. intros q Hq. apply Hout. now right.
  - intros y' i c Hs. destruct Hs; cbn [shared threads] in *; intros Hh;
      (eapply update_cases in Hh as [[-> Hh]|[_ Hh]]; [|exact Hh|eassumption]); try discriminate.
    unfold finish_section in *. rewrite Hcl in *. discriminate.
Qed.
End Pool.
End Pool.

(** *** A pool of two, three threads *)

Import Pool.

Definition demo_made (i : nat) : option nat := Some (100 + i).
Definition demo_start : pool (Conn := nat) := Pool.Pool 2 1 [100] false 1.

Lemma demo_distinct : distinct_made demo_made.
Proof. unfold distinct_made, demo_made. intros i j c H1 H2. simplify_eq. lia. Qed.

(** Thread 0 takes the idle connection, thread 1 has one made; thread 2 closes
    the pool. *)
Definition demo_busy : system (Conn := nat) := Sys (Pool.Pool 2 1 [] true 2) [Holding 100; Holding 200; Outside].
Definition demo_done : system (Conn := nat) := Sys (Pool.Pool 2 1 [] true 0) [Outside; Outside; Outside].

Lemma demo_run_busy : rtc step (start demo_start 3) demo_busy.
Proof.
  eapply rtc_l; [apply (step_acquire demo_start _ 0 false); reflexivity|].
  eapply rtc_l; [eapply (step_taken _ _ 0 false 100); reflexivity|].
  eapply rtc_l; [eapply (step_valid _ _ 0 false 100); reflexivity|].
  eapply rtc_l; [eapply (step_handle _ _ 0 100); reflexivity|].
  eapply rtc_l; [eapply (step_acquire _ _ 1 true); reflexivity|].
  eapply rtc_l; [eapply (step_create _ _ 1 true); reflexivity|].
  eapply rtc_l; [eapply (step_made _ _ 1 true 200); [reflexivity|]|].
  { apply (bool_decide_unpack _). vm_compute. exact I. }
  eapply rtc_l; [eapply (step_valid _ _ 1 true 200); reflexivity|].
  eapply rtc_l; [eapply (step_handle _ _ 1 200); reflexivity|].
  eapply rtc_l; [eapply (step_close _ _ 2); reflexivity|].
  eapply rtc_l; [eapply (step_drain _ _ 2); reflexivity|]. apply rtc_refl.
Qed.

Lemma demo_run_done : rtc step (start demo_start 3) demo_done.
Proof.
  etransitivity; [exact demo_run_busy|].
  eapply rtc_l; [eapply (step_release _ _ 0 100); reflexivity|].
  eapply rtc_l; [eapply (step_release _ _ 1 200); reflexivity|]. apply rtc_refl.
Qed.

Lemma pool_count_witness :
  exists s0, create 2 1 demo_made = Some s0 /\
  forall y, rtc step (start s0 3) y ->
    total (shared y) = Z.of_nat (idle (shared y) + in_flight (threads y))
    /\ active (shared y) = Z.of_nat (in_flight (threads y))
    /\ (total (shared y) <= 2)%Z /\ idle (shared y) <= min_size (shared y).
Proof. exact (pool_count 2 1 demo_made 3 ltac:(reflexivity) demo_distinct). Defined.

Lemma pool_exclusive_witness :
  (forall i j c, threads demo_busy !! i = Some (Holding c) -> threads demo_busy !! j = Some (Holding c) -> i = j)
  /\ (forall i c, threads demo_busy !! i = Some (Holding c) -> c ∉ conns (shared demo_busy)).
Proof.
  exact (pool_exclusive 2 1 demo_made 3 demo_start demo_busy ltac:(reflexivity) demo_distinct eq_refl demo_run_busy).
Defined.

Lemma pool_closed_witness :
  ((forall p, p ∈ threads demo_done -> p = Outside) -> conns (shared demo_done) = [] /\ total (shared demo_done) = 0%Z)
  /\ (forall y' i c, step demo_done y' -> threads y' !! i = Some (Holding c) -> threads demo_done !! i = Some (Holding c)).
Proof.
  exact (pool_closed 2 1 demo_made 3 demo_start demo_done ltac:(reflexivity) demo_distinct eq_refl demo_run_done eq_refl).
Defined.
