(* ===== verification/StripedMap.v ===== *)
(** * Striped map

    [sync/striped_map.hpp]: a map split into buckets, each under its own lock; a
    key lives in the bucket a function chooses.  Each operation on a key is one
    critical section of its bucket; [size], [clear] and [range] visit the
    buckets in turn.  [None] is the [std::out_of_range] exception.  The order in
    which an [unordered_map] lists its elements is a parameter. *)

From Stdlib Require Import ZArith Lia List Bool.
From stdpp Require Import base tactics list option gmap.
From S2P Require Import Prelude.

Open Scope hj_scope.
Open Scope nat_scope.

Module Striped.
Section Striped.
Context {K V : Type} `{Countable K}.
(** [_strip_fn], and the iteration order of a bucket. *)
Context (strip_fn : K -> Z) (order : gmap K V -> list (K * V)).

Record striped_map := Striped { buckets : list (gmap K V) }.

Definition make (capa : nat) : striped_map := Striped (replicate capa ∅).

(** The bucket of a key, checked against the number of buckets. *)
Definition bucket_of (key : K) (s : striped_map) : option nat :=
  let b := strip_fn key in
  if (b <? 0)%Z || (Z.of_nat (length (buckets s)) <=? b)%Z then None else Some (Z.to_nat b).

Definition set_bucket (s : striped_map) (b : nat) (m : gmap K V) : striped_map :=
  Striped (<[b := m]> (buckets s)).

(** [unordered_map::emplace] keeps an existing element. *)
Definition emplace (key : K) (value : V) (s : striped_map) : option striped_map :=
  let* b := bucket_of key s in
  let* m := buckets s !! b in
  Some (set_bucket s b (match m !! key with Some _ => m | None => <[key := value]> m end)).

Definition replace (key : K) (value : V) (s : striped_map) : option striped_map :=
  let* b := bucket_of key s in
  let* m := buckets s !! b in
  Some (set_bucket s b (<[key := value]> m)).

Definition find (key : K) (s : striped_map) : option (option V) :=
  let* b := bucket_of key s in
  let* m := buckets s !! b in
  Some (m !! key).

Definition erase (key : K) (s : striped_map) : option (bool * striped_map) :=
  let* b := bucket_of key s in
  let* m := buckets s !! b in
  Some (bool_decide (is_Some (m !! key)), set_bucket s b (delete key m)).

(** [range]: the elements handed to [fn], which stops the walk by returning
    false; the flag tells whether the walk goes on. *)
Fixpoint range_bucket (fn : K -> V -> bool) (l : list (K * V)) : bool * list (K * V) :=
  match l with
  | [] => (true, [])
  | (k, v) :: l =>
      if fn k v then let '(go, seen) := range_bucket fn l in (go, (k, v) :: seen)
      else (false, [(k, v)])
  end.
Fixpoint range_buckets (fn : K -> V -> bool) (bs : list (gmap K V)) : list (K * V) :=
  match bs with
  | [] => []
  | m :: bs =>
      let '(go, seen) := range_bucket fn (order m) in
      if go then seen ++ range_buckets fn bs else seen
  end.
Definition range (fn : K -> V -> bool) (s : striped_map) : list (K * V) := range_buckets fn (buckets s).

Definition size (s : striped_map) : nat :=
  fold_left (fun total m => total + base.size m) (buckets s) 0.
Definition clear (s : striped_map) : striped_map := Striped ((fun _ => ∅) <$> buckets s).

(** ** Iterators: a bucket and what is left of it *)

Record const_iterator := Iter { _bucket : nat; _it : list (K * V) }.

Fixpoint skip_buckets (bs : list (gmap K V)) (bucket : nat) : const_iterator :=
  match bs with
  | [] => Iter bucket []
  | m :: bs => match order m with [] => skip_buckets bs (S bucket) | l => Iter bucket l end
  end.

(** [_advance_to_valid] *)
Definition advance_to_valid (s : striped_map) (it : const_iterator) : const_iterator :=
  match _it it with
  | [] => if _bucket it <? length (buckets s)
          then skip_buckets (drop (S (_bucket it)) (buckets s)) (S (_bucket it))
          else Iter (length (buckets s)) []
  | _ => it
  end.

Definition end_ (s : striped_map) : const_iterator := Iter (length (buckets s)) [].
Definition begin (s : striped_map) : const_iterator :=
  match buckets s with
  | [] => end_ s
  | m :: _ => advance_to_valid s (Iter 0 (order m))
  end.

(** [operator++] and [operator*] *)
Definition next (s : striped_map) (it : const_iterator) : const_iterator :=
  advance_to_valid s (Iter (_bucket it) (tail (_it it))).
Definition deref (it : const_iterator) : option (K * V) := head (_it it).

(** [for(auto it = begin(); it != end(); ++it)] *)
Fixpoint walk (fuel : nat) (s : striped_map) (it : const_iterator) : option (list (K * V)) :=
  match fuel with
  | O => None
  | S fuel =>
      if (_bucket it =? length (buckets s)) then Some []
      else let* x := deref it in let* l := walk fuel s (next s it) in Some (x :: l)
  end.

(** ** Refinement of one map *)

(** A valid key function, and any order that lists each element once. *)
Definition in_capa (capa : nat) : Prop := forall k, (0 <= strip_fn k < Z.of_nat capa)%Z.
Definition fair_order : Prop := forall m, order m ≡ₚ map_to_list m.

Record holds (s : striped_map) (m : gmap K V) : Prop :=
  { h_capa : in_capa (length (buckets s));
    h_place : forall i b k, buckets s !! i = Some b -> is_Some (b !! k) -> strip_fn k = Z.of_nat i;
    h_map : forall k, m !! k = (buckets s !! Z.to_nat (strip_fn k)) ≫= lookup k }.

Lemma bucket_of_holds s m k : holds s m ->
  exists b, bucket_of k s = Some (Z.to_nat (strip_fn k)) /\ buckets s !! Z.to_nat (strip_fn k) = Some b
    /\ m !! k = b !! k.
Proof.
  intros [Hc Hp Hm]. pose proof (Hc k) as Hk. unfold bucket_of.
  replace (strip_fn k <? 0)%Z with false by (symmetry; apply Z.ltb_ge; lia).
  replace (Z.of_nat (length (buckets s)) <=? strip_fn k)%Z with false by (symmetry; apply Z.leb_gt; lia).
  destruct (lookup_lt_is_Some_2 (buckets s) (Z.to_nat (strip_fn k))) as [b Hb]; [lia|].
  exists b. rewrite Hm, Hb. auto.
Qed.

(** Changing a bucket at one key of its own. *)
Lemma set_bucket_holds s m k b b' m' : holds s m -> buckets s !! Z.to_nat (strip_fn k) = Some b ->
  (forall j, j <> k -> b' !! j = b !! j) -> (forall j, j <> k -> m' !! j = m !! j) -> m' !! k = b' !! k ->
  holds (set_bucket s (Z.to_nat (strip_fn k)) b') m'.
Proof.
  intros [Hc Hp Hm] Hb Hne Hm' Hk. pose proof (lookup_lt_Some _ _ _ Hb) as Hlt.
  split; cbn [set_bucket buckets].
  - now rewrite length_insert.
  - intros i c j Hi Hj. destruct (decide (i = Z.to_nat (strip_fn k))) as [->|Hik].
    + rewrite list_lookup_insert_eq in Hi by exact Hlt. injection Hi as <-.
      destruct (decide (j = k)) as [->|Hjk]; [pose proof (Hc k); lia|].
      rewrite Hne in Hj by exact Hjk. exact (Hp _ _ _ Hb Hj).
    + rewrite list_lookup_insert_ne in Hi by congruence. exact (Hp _ _ _ Hi Hj).
  - intros j. destruct (decide (Z.to_nat (strip_fn j) = Z.to_nat (strip_fn k))) as [E|E].
    + rewrite E, list_lookup_insert_eq by exact Hlt. cbn.
      destruct (decide (j = k)) as [->|Hjk]; [exact Hk|].
      rewrite Hne, Hm', Hm, E, Hb by exact Hjk. reflexivity.
    + rewrite list_lookup_insert_ne by congruence. rewrite Hm'; [apply Hm|]. intros ->. contradiction.
Qed.

Lemma make_holds capa : in_capa capa -> holds (make capa) ∅.
Proof.
  intros Hc. split; cbn [make buckets].
  - now rewrite length_replicate.
  - intros i b k Hi Hk. apply lookup_replicate in Hi as [-> _]. rewrite lookup_empty in Hk. now destruct Hk.
  - intros k. rewrite lookup_empty. destruct (replicate capa ∅ !! _) as [b|] eqn:E; [|reflexivity].
    apply lookup_replicate in E as [-> _]. cbn. now rewrite lookup_empty.
Qed.

(** The elements of all buckets are those of the map. *)
Definition all_elements (s : striped_map) : list (K * V) := concat (order <$> buckets s).

Lemma elements_spec s m : fair_order -> holds s m -> all_elements s ≡ₚ map_to_list m.
Proof.
  intros Hf [Hc Hp Hm]. apply NoDup_Permutation; [|apply NoDup_map_to_list|].
  - unfold all_elements.
    assert (Hgo : forall bs n, (forall i b k, bs !! i = Some b -> is_Some (b !! k) -> strip_fn k = Z.of_nat (n + i)) ->
      NoDup (concat (order <$> bs))).
    { clear -Hf. induction bs as [|b bs IH]; intros n Hb; cbn; [constructor|].
      apply list.NoDup_app. split_and!.
      - rewrite (Hf b). apply NoDup_map_to_list.
      - intros [k v] Hin Hin'. rewrite (Hf b) in Hin. apply elem_of_map_to_list in Hin.
        apply list_elem_of_In, in_concat in Hin' as (l & Hl & Hin').
        apply list_elem_of_In in Hl, Hin'. apply list_elem_of_fmap in Hl as (b' & -> & Hb').
        rewrite (Hf b') in Hin'. apply elem_of_map_to_list in Hin'.
        apply list_elem_of_lookup in Hb' as [i Hi].
        pose proof (Hb 0 b k eq_refl ltac:(eauto)) as E1. pose proof (Hb (S i) b' k Hi ltac:(eauto)) as E2. lia.
      - apply (IH (S n)). intros i b' k Hi Hk. rewrite (Hb (S i) b' k Hi Hk). lia. }
    apply (Hgo _ 0). exact Hp.
  - intros [k v]. rewrite elem_of_map_to_list, Hm. unfold all_elements.
    rewrite list_elem_of_In, in_concat. split.
    + intros (l & Hl & Hin). apply list_elem_of_In in Hl, Hin.
      apply list_elem_of_fmap in Hl as (b & -> & Hb). rewrite (Hf b) in Hin.
      apply elem_of_map_to_list in Hin. apply list_elem_of_lookup in Hb as [i Hi].
      rewrite (Hp i b k Hi ltac:(eauto)), Nat2Z.id, Hi. exact Hin.
    + intros E. apply bind_Some in E as (b & Hb & Hk). exists (order b).
      rewrite <- !list_elem_of_In. split.
      * apply list_elem_of_fmap. exists b. split; [reflexivity|]. now apply list_elem_of_lookup_2 with (Z.to_nat (strip_fn k)).
      * rewrite (Hf b). now apply elem_of_map_to_list.
Qed.

Lemma size_elements s : fair_order -> size s = length (all_elements s).
Proof.
  intros Hf. unfold size, all_elements. destruct s as [bs]. cbn [buckets].
  enough (Hn : forall n, fold_left (fun total m => total + base.size m) bs n = n + length (concat (order <$> bs)))
    by apply (Hn 0).
  induction bs as [|b bs IH]; intros n; cbn; [lia|].
  rewrite IH, length_app, (Hf b), length_map_to_list. lia.
Qed.

(** A walk that is never stopped sees everything; a stopped one, the elements
    up to the first on which [fn] is false. *)
Fixpoint until (fn : K -> V -> bool) (l : list (K * V)) : list (K * V) :=
  match l with
  | [] => []
  | (k, v) :: l => (k, v) :: (if fn k v then until fn l else [])
  end.

Lemma range_elements fn s : range fn s = until fn (all_elements s).
Proof.
  unfold range, all_elements. destruct s as [bs]. cbn [buckets].
  induction bs as [|b bs IH]; cbn; [reflexivity|].
  induction (order b) as [|[k v] l IHl]; cbn; [exact IH|].
  destruct (fn k v); [|reflexivity]. destruct (range_bucket fn l) as [go seen]. rewrite <- IHl.
  now destruct go.
Qed.

(** *** Iteration *)

(** What an iterator has still to visit. *)
Definition pending (s : striped_map) (it : const_iterator) : list (K * V) :=
  _it it ++ concat (order <$> drop (S (_bucket it)) (buckets s)).

Definition valid (s : striped_map) (it : const_iterator) : Prop :=
  (_bucket it = length (buckets s) /\ _it it = [])
  \/ (_bucket it < length (buckets s) /\ _it it <> []).

Lemma skip_buckets_spec s bs n : drop n (buckets s) = bs -> n <= length (buckets s) ->
  let it := skip_buckets bs n in valid s it /\ pending s it = concat (order <$> bs).
Proof.
  revert n. induction bs as [|b bs IH]; intros n E Hn; cbn [skip_buckets].
  - assert (n = length (buckets s)) as ->.
    { apply (f_equal length) in E. rewrite length_drop in E. cbn in E. lia. }
    split; [left; auto|]. unfold pending. cbn. now rewrite drop_ge by lia.
  - assert (Hlt : n < length (buckets s)).
    { apply (f_equal length) in E. rewrite length_drop in E. cbn in E. lia. }
    assert (E' : drop (S n) (buckets s) = bs).
    { destruct (lookup_lt_is_Some_2 _ _ Hlt) as [b' Hb']. rewrite (drop_S _ _ _ Hb') in E. now injection E. }
    destruct (order b) as [|x l] eqn:Eo.
    + destruct (IH (S n) E' Hlt) as [H1 H2]. split; [exact H1|]. rewrite H2. cbn. now rewrite Eo.
    + split; [right; cbn; split; [exact Hlt|discriminate]|].
      unfold pending. cbn [_it _bucket]. rewrite E'. cbn. now rewrite Eo.
Qed.

Lemma advance_spec s it : _bucket it < length (buckets s) ->
  valid s (advance_to_valid s it) /\ pending s (advance_to_valid s it) = pending s it.
Proof.
  intros Hb. unfold advance_to_valid. destruct it as [b l]. cbn [_it _bucket] in *. destruct l as [|x l].
  - replace (b <? length (buckets s)) with true by (symmetry; now apply Nat.ltb_lt).
    destruct (skip_buckets_spec s (drop (S b) (buckets s)) (S b) eq_refl Hb) as [H1 H2].
    split; [exact H1|]. rewrite H2. reflexivity.
  - split; [right; cbn; split; [exact Hb|discriminate]|reflexivity].
Qed.

Lemma walk_pending n s it : valid s it -> length (pending s it) < n ->
  walk n s it = Some (pending s it).
Proof.
  revert it. induction n as [|n IH]; intros it Hv Hn; [lia|]. cbn [walk].
  destruct Hv as [[Hb Hl]|[Hb Hl]].
  - rewrite Hb, Nat.eqb_refl. unfold pending. rewrite Hl, Hb, drop_ge by lia. reflexivity.
  - replace (_bucket it =? length (buckets s)) with false by (symmetry; apply Nat.eqb_neq; lia).
    destruct it as [b l]. cbn [_it _bucket deref] in *. unfold deref. cbn [_it]. destruct l as [|x l]; [contradiction|].
    cbn [head]. unfold next. cbn [_bucket _it tail].
    destruct (advance_spec s (Iter b l) Hb) as [H1 H2].
    rewrite IH; [rewrite H2; reflexivity|exact H1|]. rewrite H2. unfold pending in *. cbn in *. lia.
Qed.

Lemma iterate_elements s : exists n, walk n s (begin s) = Some (all_elements s).
Proof.
  exists (S (length (all_elements s))). unfold begin, all_elements. destruct (buckets s) as [|b bs] eqn:E.
  - cbn. unfold end_. now rewrite E.
  - destruct (advance_spec s (Iter 0 (order b))) as [H1 H2]; [cbn; rewrite E; cbn; lia|].
    assert (Hp : pending s (Iter 0 (order b)) = concat (order <$> (b :: bs))).
    { unfold pending. cbn [_it _bucket]. rewrite E. cbn. now rewrite drop_0. }
    rewrite Hp in H2. rewrite walk_pending; [now rewrite H2|exact H1|]. rewrite H2. lia.
Qed.

(** ** Operations in sequence *)

Inductive op := Emplace (k : K) (v : V) | Replace (k : K) (v : V) | Erase (k : K) | Find (k : K) | Size | Clear.
Inductive result := Unit | Erased (b : bool) | Found (v : option V) | Count (n : nat).

Definition exec (o : op) (s : striped_map) : option (result * striped_map) :=
  match o with
  | Emplace k v => let* s := emplace k v s in Some (Unit, s)
  | Replace k v => let* s := replace k v s in Some (Unit, s)
  | Erase k => let* (b, s) := erase k s in Some (Erased b, s)
  | Find k => let* v := find k s in Some (Found v, s)
  | Size => Some (Count (size s), s)
  | Clear => Some (Unit, clear s)
  end.

Definition spec (o : op) (m : gmap K V) : result * gmap K V :=
  match o with
  | Emplace k v => (Unit, match m !! k with Some _ => m | None => <[k := v]> m end)
  | Replace k v => (Unit, <[k := v]> m)
  | Erase k => (Erased (bool_decide (is_Some (m !! k))), delete k m)
  | Find k => (Found (m !! k), m)
  | Size => (Count (base.size m), m)
  | Clear => (Unit, ∅)
  end.

Lemma exec_holds o s m : fair_order -> holds s m ->
  exists s', exec o s = Some (fst (spec o m), s') /\ holds s' (snd (spec o m)).
Proof.
  intros Hf Hh. destruct o as [k v|k v|k|k| |]; cbn [exec spec fst snd].
  1, 2, 3, 4: destruct (bucket_of_holds s m k Hh) as (b & Hk & Hb & Hmk).
  - unfold emplace. rewrite Hk, Hb. eexists. split; [reflexivity|].
    eapply set_bucket_holds; [exact Hh|exact Hb| | |]; rewrite <- ?Hmk; destruct (m !! k) eqn:E.
    + auto.
    + intros j Hj. now rewrite lookup_insert_ne by congruence.
    + auto.
    + intros j Hj. now rewrite lookup_insert_ne by congruence.
    + congruence.
    + now rewrite !lookup_insert_eq.
  - unfold replace. rewrite Hk, Hb. eexists. split; [reflexivity|].
    eapply set_bucket_holds; [exact Hh|exact Hb| | |now rewrite !lookup_insert_eq];
      intros j Hj; now rewrite lookup_insert_ne by congruence.
  - unfold erase. rewrite Hk, Hb, <- Hmk. eexists. split; [reflexivity|].
    eapply set_bucket_holds; [exact Hh|exact Hb| | |now rewrite !lookup_delete_eq];
      intros j Hj; now rewrite lookup_delete_ne by congruence.
  - unfold find. rewrite Hk, Hb, <- Hmk. eauto.
  - exists s. split; [|exact Hh]. do 3 f_equal.
    rewrite size_elements by exact Hf. now rewrite (elements_spec s m Hf Hh), length_map_to_list.
  - eexists. split; [reflexivity|]. destruct Hh as [Hc Hp Hm]. split; cbn [clear buckets].
    + now rewrite length_fmap.
    + intros i b k Hi Hk. rewrite list_lookup_fmap in Hi. apply fmap_Some in Hi as (b' & _ & ->).
      rewrite lookup_empty in Hk. now destruct Hk.
    + intros k. rewrite lookup_empty, list_lookup_fmap. now destruct (buckets s !! _).
Qed.

Fixpoint run (os : list op) (s : striped_map) : option (list result * striped_map) :=
  match os with
  | [] => Some ([], s)
  | o :: os => let* (r, s) := exec o s in let* (rs, s) := run os s in Some (r :: rs, s)
  end.
Fixpoint spec_run (os : list op) (m : gmap K V) : list result * gmap K V :=
  match os with
  | [] => ([], m)
  | o :: os => let '(r, m) := spec o m in let '(rs, m) := spec_run os m in (r :: rs, m)
  end.

(** ** Theorems *)

(** C11: with a key function into the buckets, the striped map is one map: any
    sequence of operations (each key operation being one critical section, any
    interleaving of them is such a sequence) returns what a single map returns
    and never throws. *)
Theorem striped_refines_map capa os : fair_order -> in_capa capa ->
  exists s', run os (make capa) = Some (fst (spec_run os ∅), s') /\ holds s' (snd (spec_run os ∅)).
Proof.
  intros Hf Hc. pose proof (make_holds capa Hc) as Hh. revert Hh. generalize (make capa) as s, (∅ : gmap K V) as m.
  induction os as [|o os IH]; intros s m Hh; cbn [run spec_run]; [eauto|].
  destruct (exec_holds o s m Hf Hh) as (s1 & -> & H1). destruct (spec o m) as [r m1]. cbn [fst snd] in *.
  destruct (IH s1 m1 H1) as (s2 & -> & H2). destruct (spec_run os m1). eauto.
Qed.

(** [range] hands every element of the map to its function exactly once,
    until the function stops it, and the iterators visit the same sequence and
    end. *)
Theorem striped_traversals s m fn : fair_order -> holds s m ->
  exists l, l ≡ₚ map_to_list m /\ range fn s = until fn l
    /\ (exists n, walk n s (begin s) = Some l) /\ size s = length l.
Proof.
  intros Hf Hh. exists (all_elements s). split_and!.
  - now apply elements_spec.
  - apply range_elements.
  - apply iterate_elements.
  - now apply size_elements.
Qed.

(** A key the function sends outside the buckets throws from every key
    operation and changes nothing. *)
Theorem striped_out_of_range s k v : (strip_fn k < 0 \/ Z.of_nat (length (buckets s)) <= strip_fn k)%Z ->
  emplace k v s = None /\ replace k v s = None /\ find k s = None /\ erase k s = None.
Proof.
  intros Hk. assert (E : bucket_of k s = None).
  { unfold bucket_of. destruct Hk as [Hk|Hk].
    - apply Z.ltb_lt in Hk. now rewrite Hk.
    - apply Z.leb_le in Hk. now rewrite Hk, orb_true_r. }
  unfold emplace, replace, find, erase. rewrite E. auto.
Qed.
End Striped.

(** *** Witnesses: three buckets, keys by remainder *)

Definition demo_strip (k : nat) : Z := Z.of_nat (k mod 3).
Definition demo_ops : list (op (K := nat) (V := nat)) :=
  [Emplace 4 40; Emplace 7 70; Emplace 4 41; Replace 7 71; Size; Find 4; Erase 7; Find 7; Emplace 5 50].

Lemma demo_capa : in_capa demo_strip 3.
Proof. intros k. unfold demo_strip. pose proof (Nat.mod_upper_bound k 3). lia. Qed.

Lemma demo_fair : fair_order (K := nat) (V := nat) map_to_list.
Proof. intros m. reflexivity. Qed.

Lemma striped_refines_map_witness :
  fst (spec_run demo_ops ∅) = [Unit; Unit; Unit; Unit; Count 2; Found (Some 40); Erased true; Found None; Unit]
  /\ exists s', run demo_strip demo_ops (make 3) = Some (fst (spec_run demo_ops ∅), s')
    /\ holds demo_strip s' (snd (spec_run demo_ops ∅)).
Proof. split; [reflexivity|]. exact (striped_refines_map demo_strip map_to_list 3 demo_ops demo_fair demo_capa). Defined.

Definition demo_map : striped_map (K := nat) (V := nat) := Striped [∅; {[ 7 := 70 ]}; {[ 5 := 50 ]}].

Lemma demo_holds : holds demo_strip demo_map (<[7 := 70]> {[ 5 := 50 ]}).
Proof.
  assert (H0 : holds demo_strip (make 3) (∅ : gmap nat nat)) by apply (make_holds demo_strip 3 demo_capa).
  assert (H1 : holds demo_strip (set_bucket (make 3) 2 {[ 5 := 50 ]}) {[ 5 := 50 ]}).
  { apply (set_bucket_holds demo_strip (make 3) ∅ 5 ∅ {[ 5 := 50 ]} {[ 5 := 50 ]} H0); try reflexivity;
      intros j Hj; now rewrite lookup_singleton_ne by congruence. }
  apply (set_bucket_holds demo_strip _ _ 7 ∅ {[ 7 := 70 ]} (<[7 := 70]> {[ 5 := 50 ]}) H1); try reflexivity; intros j Hj.
  - now rewrite lookup_singleton_ne by congruence.
  - now rewrite lookup_insert_ne by congruence.
Qed.

Lemma striped_traversals_witness :
  exists l, l ≡ₚ map_to_list (<[7 := 70]> {[ 5 := 50 ]} : gmap nat nat)
    /\ range map_to_list (fun k _ => k =? 5) demo_map = until (fun k _ => k =? 5) l
    /\ (exists n, walk map_to_list n demo_map (begin map_to_list demo_map) = Some l) /\ size demo_map = length l.
Proof.
  exact (striped_traversals demo_strip map_to_list demo_map _ (fun k _ => k =? 5) demo_fair demo_holds).
Defined.

Lemma striped_out_of_range_witness :
  emplace demo_strip 5 50 (make 2) = None /\ replace demo_strip 5 50 (make 2) = None
  /\ find (V := nat) demo_strip 5 (make 2) = None /\ erase (V := nat) demo_strip 5 (make 2) = None.
Proof. apply (striped_out_of_range demo_strip (make 2) 5 50). right. discriminate. Defined.
End Striped.
