(* ===== verification/Uuid.v ===== *)
(** * Snowflake identifiers and UUID strings

    [algo/uuid.hpp]: the snowflake engine with its clock, the byte swap, and
    the UUID text format.  The clock is the sequence of readings of
    [_current_time_ms] in the order they are made; [None] is a wait for a
    reading that never comes.  [next_id] is two critical sections, because it
    releases the mutex while it sleeps after the clock went back. *)

From Stdlib Require Import ZArith Lia List Bool Sorted.
From stdpp Require Import base tactics list option relations.
From S2P Require Import Prelude.

Open Scope hj_scope.
Open Scope Z_scope.

Module Uuid.

(** ** The engine *)

Definition worker_idbits : Z := 10.
Definition seqbits : Z := 12.
Definition max_worker_id : Z := Z.shiftl 1 worker_idbits - 1.
Definition seqmask : Z := Z.shiftl 1 seqbits - 1.
Definition worker_idshift : Z := seqbits.
Definition timestamp_shift : Z := seqbits + worker_idbits.
Definition epoch : Z := 1735689600000.
Definition max_backward_ms : Z := 5000.

Record engine := Engine { worker_id : Z; seq : Z; last_timestamp : Z }.

(** The constructor and [reset_worker_id] throw on a worker above 1023. *)
Definition make (w : Z) : option engine :=
  if max_worker_id <? w then None else Some (Engine w 0 0).
Definition reset_worker_id (w : Z) (e : engine) : option engine :=
  if max_worker_id <? w then None else Some (Engine w (seq e) (last_timestamp e)).

(** [_wait_next_millis]: the first reading after [last], and the readings left. *)
Fixpoint wait_next_millis (last : Z) (clock : list Z) : option (Z * list Z) :=
  match clock with
  | [] => None
  | t :: clock => if t <=? last then wait_next_millis last clock else Some (t, clock)
  end.

Definition compose (t w s : Z) : Z :=
  Z.lor (Z.lor (wrap 64 (Z.shiftl (wrap 64 (t - epoch)) timestamp_shift))
               (wrap 64 (Z.shiftl w worker_idshift))) s.

(** The end of [next_id], from a reading not before the last timestamp. *)
Definition finish (t : Z) (clock : list Z) (e : engine) : option (Z * list Z * engine) :=
  let* (t, s, clock) :=
    if t =? last_timestamp e then
      let s := Z.land (wrap 64 (seq e + 1)) seqmask in
      if s =? 0
      then let* (t, clock) := wait_next_millis (last_timestamp e) clock in Some (t, s, clock)
      else Some (t, s, clock)
    else Some (t, 0, clock) in
  Some (compose t (worker_id e) s, clock, Engine (worker_id e) s t).

Inductive entered := Thrown | Asleep | Id (id : Z) (e : engine).

(** The section before the sleep, with the readings left. *)
Definition enter (clock : list Z) (e : engine) : option (entered * list Z) :=
  match clock with
  | [] => None
  | t :: clock =>
      if t <? last_timestamp e then
        let offset := last_timestamp e - t in
        if max_backward_ms <? offset then Some (Thrown, clock) else Some (Asleep, clock)
      else let* (id, clock, e) := finish t clock e in Some (Id id e, clock)
  end.

(** The section after the sleep: the state may have moved on meanwhile. *)
Definition reenter (clock : list Z) (e : engine) : option (Z * list Z * engine) :=
  match clock with
  | [] => None
  | t :: clock =>
      let* (t, clock) :=
        if t <? last_timestamp e then wait_next_millis (last_timestamp e) clock else Some (t, clock) in
      finish t clock e
  end.

(** ** Threads: [sleeping] counts the calls between their two sections *)

Record system := Sys { eng : engine; readings : list Z; sleeping : nat; ids : list Z }.

Inductive step : system -> system -> Prop :=
| step_id e cl n l id e' cl' : enter cl e = Some (Id id e', cl') ->
    step (Sys e cl n l) (Sys e' cl' n (l ++ [id]))
| step_throw e cl n l cl' : enter cl e = Some (Thrown, cl') ->
    step (Sys e cl n l) (Sys e cl' n l)
| step_sleep e cl n l cl' : enter cl e = Some (Asleep, cl') ->
    step (Sys e cl n l) (Sys e cl' (S n) l)
| step_wake e cl n l id e' cl' : reenter cl e = Some (id, cl', e') ->
    step (Sys e cl (S n) l) (Sys e' cl' n (l ++ [id]))
| step_reset e cl n l w e' : 0 <= w -> reset_worker_id w e = Some e' ->
    step (Sys e cl n l) (Sys e' cl n l).

(** ** Bytes and text *)

(** [swap64]: the portable definition; the builtins do the same. *)
Definition swap64 (val : Z) : Z :=
  let shl k := wrap 64 (Z.shiftl val k) in
  Z.lor (Z.lor (Z.lor (Z.lor (Z.lor (Z.lor (Z.lor
    (Z.shiftr val 56)
    (Z.land (shl 40) 0x00FF000000000000))
    (Z.land (shl 24) 0x0000FF0000000000))
    (Z.land (shl 8) 0x000000FF00000000))
    (Z.land (Z.shiftr val 8) 0x00000000FF000000))
    (Z.land (Z.shiftr val 24) 0x0000000000FF0000))
    (Z.land (Z.shiftr val 40) 0x000000000000FF00))
    (shl 56).

(** [to_endian] on a little-endian machine. *)
Definition to_endian (val : Z) (big_endian : bool) : Z := if big_endian then swap64 val else val.

(** [%0<w>x]: [w] lower-case hexadecimal digits. *)
Definition hex_code (d : Z) : Z := if d <? 10 then 48 + d else 87 + d.
Fixpoint hex_pad (w : nat) (n : Z) : list Z :=
  match w with
  | O => []
  | S w => hex_pad w (Z.shiftr n 4) ++ [hex_code (Z.land n 15)]
  end.

Definition rfc_uuid_format (high low : Z) : list Z :=
  let rfc_high := Z.lor (Z.land high 0xFFFFFFFFFFFF0FFF) 0x8000 in
  let rfc_low := Z.lor (Z.land low 0x3FFFFFFFFFFFFFFF) 0x8000000000000000 in
  hex_pad 8 (Z.shiftr rfc_high 32) ++ [45]
  ++ hex_pad 4 (Z.land (Z.shiftr rfc_high 16) 0xFFFF) ++ [45]
  ++ hex_pad 4 (Z.land rfc_high 0xFFFF) ++ [45]
  ++ hex_pad 4 (Z.land (Z.shiftr rfc_low 48) 0xFFFF) ++ [45]
  ++ hex_pad 12 (Z.land rfc_low 0xFFFFFFFFFFFF).

(** The seed of the second half: one xorshift step. *)
Definition next_seed (seed : Z) : Z :=
  let seed := Z.lxor seed (wrap 64 (Z.shiftl seed 13)) in
  let seed := Z.lxor seed (Z.shiftr seed 7) in
  Z.lxor seed (wrap 64 (Z.shiftl seed 17)).

(** [snowflake::gen_u64] and [snowflake::gen], from an identifier. *)
Definition gen_u64 (id : Z) (big_endian : bool) : Z := to_endian id big_endian.
Definition gen (id seed : Z) : list Z * Z :=
  let seed := next_seed seed in (rfc_uuid_format (gen_u64 id false) seed, seed).

(** ** The layout of an identifier *)

Definition clock_ok (t : Z) : Prop := epoch <= t < epoch + 2 ^ 42.

Lemma compose_sum t w s : clock_ok t -> 0 <= w <= 1023 -> 0 <= s <= 4095 ->
  compose t w s = (t - epoch) * 2 ^ 22 + w * 2 ^ 12 + s.
Proof.
  intros [H1 H2] Hw Hs. unfold compose, timestamp_shift, worker_idshift, seqbits, worker_idbits.
  rewrite (wrap_small 64 (t - epoch)) by (unfold uint; lia).
  rewrite !Z.shiftl_mul_pow2 by lia. change (12 + 10) with 22.
  rewrite !wrap_small by (unfold uint; lia).
  change 4096 with (2 ^ 12) in *.
  rewrite <- Z.lor_assoc. rewrite (lor_shifted w s 12) by (unfold uint; lia).
  rewrite lor_shifted by (unfold uint; lia). lia.
Qed.

Lemma compose_fields t w s : clock_ok t -> 0 <= w <= 1023 -> 0 <= s <= 4095 ->
  let id := compose t w s in
  uint 64 id /\ Z.shiftr id 22 = t - epoch
  /\ Z.land (Z.shiftr id 12) 1023 = w /\ Z.land id 4095 = s.
Proof.
  intros Ht Hw Hs id. subst id. rewrite compose_sum by assumption. destruct Ht as [H1 H2].
  rewrite !Z.shiftr_div_pow2 by lia. change 1023 with (Z.ones 10). change 4095 with (Z.ones 12).
  rewrite !Z.land_ones by lia. split_and!.
  - unfold uint. lia.
  - symmetry. apply Z.div_unique with (w * 2 ^ 12 + s); lia.
  - replace (((t - epoch) * 2 ^ 22 + w * 2 ^ 12 + s) / 2 ^ 12) with ((t - epoch) * 2 ^ 10 + w).
    + rewrite Z.add_comm, Z.mod_add by lia. apply Z.mod_small. lia.
    + apply Z.div_unique with s; lia.
  - replace ((t - epoch) * 2 ^ 22 + w * 2 ^ 12 + s) with (s + ((t - epoch) * 2 ^ 10 + w) * 2 ^ 12) by lia.
    rewrite Z.mod_add by lia. apply Z.mod_small. lia.
Qed.

(** The order of the identifiers of all workers: time, then sequence number. *)
Definition key (id : Z) : Z := Z.shiftr id 22 * 4096 + Z.land id 4095.

Lemma key_compose t w s : clock_ok t -> 0 <= w <= 1023 -> 0 <= s <= 4095 ->
  key (compose t w s) = (t - epoch) * 4096 + s.
Proof.
  intros Ht Hw Hs. destruct (compose_fields t w s Ht Hw Hs) as (_ & H1 & _ & H3).
  unfold key. now rewrite H1, H3.
Qed.

(** ** The invariant of the engine *)

Record engine_ok (e : engine) : Prop :=
  { ok_worker : 0 <= worker_id e <= 1023; ok_seq : 0 <= seq e <= 4095 }.

(** The identifiers so far are in order, and before the next state of the
    engine (whose timestamp is 0 until the first of them). *)
Record inv (y : system) : Prop :=
  { inv_ok : engine_ok (eng y);
    inv_clock : Forall clock_ok (readings y);
    inv_sorted : StronglySorted (fun a b => key a < key b) (ids y);
    inv_ids : Forall (fun id => uint 64 id
      /\ key id <= (last_timestamp (eng y) - epoch) * 4096 + seq (eng y)) (ids y) }.

Lemma wait_spec last clock t clock' : wait_next_millis last clock = Some (t, clock') ->
  Forall clock_ok clock -> last < t /\ clock_ok t /\ Forall clock_ok clock'.
Proof.
  induction clock as [|u clock IH]; [discriminate|]. cbn [wait_next_millis]. intros E Hc.
  apply Forall_cons in Hc as [Hu Hc]. destruct (Z.leb_spec u last); [now apply IH|].
  injection E as <- <-. auto.
Qed.

Lemma wait_progress last clock : Exists (fun t => last < t) clock ->
  exists t clock', wait_next_millis last clock = Some (t, clock').
Proof.
  induction 1 as [t clock Ht|t clock _ IH]; cbn [wait_next_millis].
  - destruct (Z.leb_spec t last); [lia|eauto].
  - destruct (t <=? last); [exact IH|eauto].
Qed.

Lemma finish_spec t clock e id clock' e' : finish t clock e = Some (id, clock', e') ->
  engine_ok e -> clock_ok t -> Forall clock_ok clock -> last_timestamp e <= t ->
  engine_ok e' /\ Forall clock_ok clock' /\ worker_id e' = worker_id e
  /\ id = compose (last_timestamp e') (worker_id e') (seq e') /\ clock_ok (last_timestamp e')
  /\ (last_timestamp e - epoch) * 4096 + seq e < (last_timestamp e' - epoch) * 4096 + seq e'.
Proof.
  unfold finish. intros E [Hw Hs] Ht Hc Hle.
  destruct (Z.eqb_spec t (last_timestamp e)) as [Heq|Hne].
  - set (s := Z.land (wrap 64 (seq e + 1)) seqmask) in E.
    assert (Hsm : s = (seq e + 1) mod 4096).
    { unfold s. rewrite wrap_small by (unfold uint; lia). change seqmask with (Z.ones 12).
      now rewrite Z.land_ones by lia. }
    destruct (Z.eqb_spec s 0) as [Hs0|Hs0].
    + destruct (wait_next_millis (last_timestamp e) clock) as [[t' c']|] eqn:Ew; [|discriminate].
      injection E as <- <- <-. destruct (wait_spec _ _ _ _ Ew Hc) as (H1 & H2 & H3).
      cbn [worker_id seq last_timestamp]. split_and!; auto; [split; cbn; lia|lia].
    + injection E as <- <- <-. cbn [worker_id seq last_timestamp].
      assert (Hs' : s = seq e + 1).
      { rewrite Hsm in *. destruct (Z.eq_dec (seq e) 4095) as [E|E]; [rewrite E in Hs0; now cbn in Hs0|].
        apply Z.mod_small. lia. }
      pose proof (Z.mod_pos_bound (seq e + 1) 4096 ltac:(lia)).
      split_and!; auto; [split; cbn; lia|lia].
  - injection E as <- <- <-. cbn [worker_id seq last_timestamp].
    split_and!; auto; [split; cbn; lia|lia].
Qed.

(** An identifier produced by either section extends the invariant. *)
Lemma emit_inv t clock e cl n n' l id e' cl' : inv (Sys e cl n l) ->
  clock_ok t -> Forall clock_ok clock -> last_timestamp e <= t ->
  finish t clock e = Some (id, cl', e') -> inv (Sys e' cl' n' (l ++ [id])).
Proof.
  intros [Hok _ Hs Hl] Ht Hc Hle E. cbn [eng readings ids] in *.
  destruct (finish_spec _ _ _ _ _ _ E Hok Ht Hc Hle) as (H1 & H2 & H3 & -> & H5 & H6).
  destruct H1 as [Hw Hsq].
  assert (Hk : key (compose (last_timestamp e') (worker_id e') (seq e'))
    = (last_timestamp e' - epoch) * 4096 + seq e') by now apply key_compose.
  split; cbn [eng readings ids]; [now split|exact H2| |].
  - clear -Hs Hl Hk H6. induction Hs as [|a l Hs IH Ha]; cbn; [repeat constructor|].
    apply Forall_cons in Hl as [[_ Hla] Hl]. constructor; [now apply IH|].
    apply Forall_app. split; [exact Ha|]. apply Forall_singleton. lia.
  - apply Forall_app. split.
    + eapply List.Forall_impl; [|exact Hl]. cbn. intros a [Ha Ha']. split; [exact Ha|lia].
    + apply Forall_singleton. split; [now apply compose_fields|lia].
Qed.

Lemma snowflake_step_inv y y' : inv y -> step y y' -> inv y'.
Proof.
  intros Hi Hs. pose proof Hi as [Hok Hcl Hso Hid].
  destruct Hs as [e cl n l id e' cl' E|e cl n l cl' E|e cl n l cl' E|e cl n l id e' cl' E|e cl n l w e' Hw E];
    cbn [eng readings ids] in *.
  - unfold enter in E. destruct cl as [|t cl]; [discriminate|]. apply Forall_cons in Hcl as [Ht Hcl].
    destruct (Z.ltb_spec t (last_timestamp e)); [destruct (_ <? _); discriminate|].
    destruct (finish t cl e) as [[[i c] en]|] eqn:Ef; [|discriminate]. injection E as <- <- <-.
    eapply emit_inv; [exact Hi|exact Ht|exact Hcl|lia|exact Ef].
  - unfold enter in E. destruct cl as [|t cl]; [discriminate|]. apply Forall_cons in Hcl as [Ht Hcl].
    destruct (t <? last_timestamp e); [|destruct (finish t cl e) as [[[? ?] ?]|]; discriminate].
    destruct (_ <? _); [|discriminate]. injection E as <-. now split.
  - unfold enter in E. destruct cl as [|t cl]; [discriminate|]. apply Forall_cons in Hcl as [Ht Hcl].
    destruct (t <? last_timestamp e); [|destruct (finish t cl e) as [[[? ?] ?]|]; discriminate].
    destruct (_ <? _); [discriminate|]. injection E as <-. now split.
  - unfold reenter in E. destruct cl as [|t cl]; [discriminate|]. apply Forall_cons in Hcl as [Ht Hcl].
    destruct (Z.ltb_spec t (last_timestamp e)) as [Hlt|Hge].
    + destruct (wait_next_millis (last_timestamp e) cl) as [[t' c']|] eqn:Ew; [|discriminate].
      destruct (wait_spec _ _ _ _ Ew Hcl) as (H1 & H2 & H3).
      eapply emit_inv; [exact Hi|exact H2|exact H3|lia|exact E].
    + eapply emit_inv; [exact Hi|exact Ht|exact Hcl|lia|exact E].
  - unfold reset_worker_id in E. destruct (Z.ltb_spec max_worker_id w) as [|Hle]; [discriminate|].
    injection E as <-. destruct Hok as [_ Hsq]. split; cbn [eng readings ids]; try assumption.
    split; cbn [worker_id seq]; [change max_worker_id with 1023 in Hle; lia|exact Hsq].
Qed.

Lemma snowflake_initial_inv w e cl : 0 <= w -> make w = Some e -> Forall clock_ok cl -> inv (Sys e cl 0 []).
Proof.
  unfold make. intros Hw E Hc. destruct (Z.ltb_spec max_worker_id w) as [|Hle]; [discriminate|].
  injection E as <-. change max_worker_id with 1023 in Hle.
  split; cbn [eng readings ids]; [split; cbn; lia|exact Hc|constructor|constructor].
Qed.

Lemma snowflake_steps_inv y y' : inv y -> rtc step y y' -> inv y'.
Proof. intros Hi Hs. induction Hs; [assumption|]. eauto using snowflake_step_inv. Qed.

(** ** The byte swap *)

Lemma swap64_masks v : swap64 v =
  Z.lor (Z.lor (Z.lor (Z.lor (Z.lor (Z.lor (Z.lor
    (Z.shiftr v 56)
    (Z.land (wrap 64 (Z.shiftl v 40)) (Z.shiftl 255 48)))
    (Z.land (wrap 64 (Z.shiftl v 24)) (Z.shiftl 255 40)))
    (Z.land (wrap 64 (Z.shiftl v 8)) (Z.shiftl 255 32)))
    (Z.land (Z.shiftr v 8) (Z.shiftl 255 24)))
    (Z.land (Z.shiftr v 24) (Z.shiftl 255 16)))
    (Z.land (Z.shiftr v 40) (Z.shiftl 255 8)))
    (wrap 64 (Z.shiftl v 56)).
Proof. reflexivity. Qed.

(** Bit [r] of byte [q] comes from byte [7 - q]. *)
Lemma swap64_bits v q r : uint 64 v -> 0 <= q < 8 -> 0 <= r < 8 ->
  Z.testbit (swap64 v) (8 * q + r) = Z.testbit v (8 * (7 - q) + r).
Proof.
  intros Hv Hq Hr. rewrite swap64_masks, !Z.lor_spec, !Z.land_spec, !wrap_testbit, !testbit_byte_mask by lia.
  rewrite !Z.shiftl_spec, !Z.shiftr_spec by lia.
  assert (Hcase : q = 0 \/ q = 1 \/ q = 2 \/ q = 3 \/ q = 4 \/ q = 5 \/ q = 6 \/ q = 7) by lia.
  destruct Hcase as [->|[->|[->|[->|[->|[->|[->| ->]]]]]]]; decide_cmps;
    rewrite ?andb_false_l, ?andb_false_r, ?andb_true_l, ?andb_true_r, ?orb_false_l, ?orb_false_r;
    cbn [andb orb]; rewrite ?andb_false_r, ?andb_true_r, ?orb_false_r;
    repeat match goal with
    | |- context [Z.testbit v ?i] =>
        first [rewrite (Z.testbit_neg_r v i) by lia | rewrite (uint_testbit 64 v i) by (assumption || lia)]
    end; rewrite ?orb_false_l, ?orb_false_r;
    apply (f_equal (Z.testbit v)); lia.
Qed.

Lemma swap64_uint v : uint 64 v -> uint 64 (swap64 v).
Proof.
  intros Hv. apply uint_of_bits; [lia| |].
  - unfold swap64. unfold uint in Hv.
    assert (Hw : forall k, 0 <= wrap 64 (Z.shiftl v k)) by (intros k; apply wrap_uint; lia).
    repeat (apply Z.lor_nonneg; split); rewrite ?Z.shiftr_nonneg, ?Z.land_nonneg;
      first [apply Hw | right; lia | lia].
  - intros i Hi. rewrite swap64_masks, !Z.lor_spec, !Z.land_spec, !wrap_testbit, !testbit_byte_mask by lia.
    rewrite !Z.shiftr_spec by lia. decide_cmps. rewrite !andb_false_r. cbn [andb orb].
    rewrite !(uint_testbit 64 v) by (assumption || lia). reflexivity.
Qed.

Lemma swap64_involutive v : uint 64 v -> swap64 (swap64 v) = v.
Proof.
  intros Hv. apply Z.bits_inj'. intros i Hi. destruct (Z.lt_ge_cases i 64) as [Hlt|Hge].
  - replace i with (8 * (i / 8) + i mod 8) by (symmetry; apply Z.div_mod; lia).
    pose proof (Z.mod_pos_bound i 8 ltac:(lia)).
    assert (0 <= i / 8 < 8) by (split; [apply Z.div_pos|apply Z.div_lt_upper_bound]; lia).
    rewrite !swap64_bits by (auto using swap64_uint; lia). apply (f_equal (Z.testbit v)). lia.
  - now rewrite !(uint_testbit 64) by auto using swap64_uint.
Qed.

(** ** The text *)

Lemma hex_pad_length w n : length (hex_pad w n) = w.
Proof. revert n. induction w as [|w IH]; intros n; cbn; [reflexivity|]. rewrite length_app, IH. cbn. lia. Qed.

Definition is_hex (c : Z) : bool := ((48 <=? c) && (c <=? 57)) || ((97 <=? c) && (c <=? 102)).

Lemma hex_code_ok d : 0 <= d < 16 -> is_hex (hex_code d) = true.
Proof.
  intros Hd. unfold is_hex, hex_code. destruct (Z.ltb_spec d 10); decide_cmps; reflexivity.
Qed.

Lemma hex_code_inj a b : 0 <= a < 16 -> 0 <= b < 16 -> hex_code a = hex_code b -> a = b.
Proof. unfold hex_code. destruct (Z.ltb_spec a 10), (Z.ltb_spec b 10); lia. Qed.

Lemma land_15 n : Z.land n 15 = n mod 16.
Proof. change 15 with (Z.ones 4). now rewrite Z.land_ones by lia. Qed.

Lemma hex_pad_ok w n : Forall (fun c => is_hex c = true) (hex_pad w n).
Proof.
  revert n. induction w as [|w IH]; intros n; cbn [hex_pad]; [constructor|].
  apply Forall_app. split; [apply IH|]. apply Forall_singleton, hex_code_ok.
  rewrite land_15. apply Z.mod_pos_bound. lia.
Qed.

(** The digits determine the low [4 w] bits. *)
Lemma hex_pad_inj w a b : hex_pad w a = hex_pad w b -> wrap (4 * Z.of_nat w) a = wrap (4 * Z.of_nat w) b.
Proof.
  revert a b. induction w as [|w IH]; intros a b E; cbn [hex_pad] in E.
  { unfold wrap. cbn. now rewrite !Z.mod_1_r. }
  apply app_inj_2 in E as [E1 E2]; [|reflexivity]. apply IH in E1. injection E2 as E2.
  rewrite !land_15 in E2. apply hex_code_inj in E2; [|apply Z.mod_pos_bound; lia..].
  rewrite !Z.shiftr_div_pow2 in E1 by lia. change (2 ^ 4) with 16 in E1. unfold wrap in *.
  replace (4 * Z.of_nat (S w)) with (4 + 4 * Z.of_nat w) by lia. rewrite Z.pow_add_r by lia.
  change (2 ^ 4) with 16. assert (0 < 2 ^ (4 * Z.of_nat w)) by lia.
  rewrite !Z.rem_mul_r by lia. congruence.
Qed.

Definition rfc_high (high : Z) : Z := Z.lor (Z.land high 0xFFFFFFFFFFFF0FFF) 0x8000.
Definition rfc_low (low : Z) : Z := Z.lor (Z.land low 0x3FFFFFFFFFFFFFFF) 0x8000000000000000.

Lemma hex_pad_4 x : hex_pad 4 x = hex_code (Z.land (Z.shiftr x 12) 15) :: hex_pad 3 x.
Proof. cbn. rewrite !Z.shiftr_shiftr by lia. reflexivity. Qed.

(** Cases of a bit position against the nibbles. *)
Ltac nibble_cases i :=
  let H := fresh in
  assert (H : i = 0 \/ i = 1 \/ i = 2 \/ i = 3 \/ 4 <= i) by lia;
  destruct H as [->|[->|[->|[->|H]]]].

Lemma version_nibble high : Z.land (Z.shiftr (Z.land (rfc_high high) 0xFFFF) 12) 15 = 8.
Proof.
  unfold rfc_high. apply Z.bits_inj'. intros i Hi.
  rewrite Z.land_spec, Z.shiftr_spec, Z.land_spec, Z.lor_spec, Z.land_spec by lia.
  nibble_cases i; cbn [Z.add Z.testbit Pos.testbit]; rewrite ?andb_false_r, ?andb_true_r, ?orb_true_r, ?orb_false_r; try reflexivity.
  rewrite (uint_testbit 4 15), (uint_testbit 4 8) by (unfold uint; lia). apply andb_false_r.
Qed.

Lemma variant_nibble low : uint 64 low ->
  let d := Z.land (Z.shiftr (Z.land (Z.shiftr (rfc_low low) 48) 0xFFFF) 12) 15 in 8 <= d < 12.
Proof.
  intros Hl d. assert (E : d = Z.lor 8 (Z.land d 3)).
  { apply Z.bits_inj'. intros i Hi. subst d. unfold rfc_low.
    rewrite !Z.lor_spec, !Z.land_spec, Z.shiftr_spec, !Z.land_spec, Z.shiftr_spec, Z.lor_spec, Z.land_spec by lia.
    nibble_cases i; cbn [Z.add Z.testbit Pos.testbit];
      rewrite ?andb_false_r, ?andb_true_r, ?orb_true_r, ?orb_false_r, ?orb_false_l; try reflexivity.
    rewrite (uint_testbit 4 15), (uint_testbit 4 8), (uint_testbit 4 3) by (unfold uint; lia).
    now rewrite !andb_false_r. }
  assert (Hr : 0 <= Z.land d 3 < 4).
  { change 3 with (Z.ones 2). rewrite Z.land_ones by lia. apply Z.mod_pos_bound. lia. }
  rewrite E. change 8 with (2 * 2 ^ 2). rewrite lor_shifted by (unfold uint; lia). lia.
Qed.

(** A field of a number, cut out after a mask that keeps it. *)
Lemma high_group_low_nibble w w' : w / 16 = w' / 16 ->
  Z.land (w * 2 ^ 12) 0xFFFFFFFFFFFF0FFF = Z.land (w' * 2 ^ 12) 0xFFFFFFFFFFFF0FFF.
Proof.
  intros E. bitwise i. destruct (Z.lt_ge_cases i 12).
  { now rewrite !Z.mul_pow2_bits_low by lia. }
  rewrite !Z.mul_pow2_bits by lia.
  destruct (Z.lt_ge_cases i 16).
  - replace (Z.testbit 0xFFFFFFFFFFFF0FFF i) with false; [now rewrite !andb_false_r|].
    assert (Hc : i = 12 \/ i = 13 \/ i = 14 \/ i = 15) by lia. destruct Hc as [->|[->|[->| ->]]]; reflexivity.
  - f_equal. replace (i - 12) with ((i - 16) + 4) by lia.
    rewrite <- !Z.div_pow2_bits by lia. change (2 ^ 4) with 16. now rewrite E.
Qed.

Lemma rfc_high_worker t w w' s : clock_ok t -> 0 <= w <= 1023 -> 0 <= w' <= 1023 -> 0 <= s <= 4095 ->
  w / 16 = w' / 16 -> rfc_high (compose t w s) = rfc_high (compose t w' s).
Proof.
  intros Ht Hw Hw' Hs E. unfold rfc_high. f_equal.
  assert (Hc : forall v, 0 <= v <= 1023 -> compose t v s = Z.lor (Z.lor ((t - epoch) * 2 ^ 22) (v * 2 ^ 12)) s).
  { intros v Hv. rewrite compose_sum by assumption. destruct Ht as [H1 H2].
    rewrite <- Z.lor_assoc. rewrite (lor_shifted v s 12) by (unfold uint; lia).
    rewrite lor_shifted by (unfold uint; lia). lia. }
  rewrite !Hc by assumption. rewrite !Z.land_lor_distr_l.
  now rewrite (high_group_low_nibble w w' E).
Qed.

(** ** Theorems *)

(** C12: the identifiers an engine gives to any number of threads, over a clock
    that may stop and go back, are 64-bit numbers, strictly increasing in (time,
    sequence) and so all different, also across changes of the worker. *)
Theorem snowflake_ids w e cl y :
  0 <= w -> make w = Some e -> Forall clock_ok cl -> rtc step (Sys e cl 0 []) y ->
  StronglySorted (fun a b => key a < key b) (ids y) /\ NoDup (ids y)
  /\ Forall (fun id => uint 64 id) (ids y).
Proof.
  intros Hw E Hc Hs. pose proof (snowflake_steps_inv _ _ (snowflake_initial_inv w e cl Hw E Hc) Hs) as [_ _ Hso Hid].
  split_and!; [exact Hso| |].
  - clear -Hso. induction Hso as [|a l _ IH Ha]; constructor; [|exact IH].
    intros Hin. rewrite Forall_forall in Ha. specialize (Ha a Hin). cbn in Ha. lia.
  - eapply List.Forall_impl; [|exact Hid]. cbn. tauto.
Qed.

(** An identifier holds the milliseconds since the epoch, the worker and
    the sequence number in disjoint fields, so engines with different workers
    never give the same one. *)
Theorem snowflake_layout t w s t' w' s' :
  clock_ok t -> 0 <= w <= 1023 -> 0 <= s <= 4095 -> clock_ok t' -> 0 <= w' <= 1023 -> 0 <= s' <= 4095 ->
  Z.shiftr (compose t w s) 22 = t - epoch /\ Z.land (Z.shiftr (compose t w s) 12) 1023 = w
  /\ Z.land (compose t w s) 4095 = s
  /\ (compose t w s = compose t' w' s' -> t = t' /\ w = w' /\ s = s').
Proof.
  intros H1 H2 H3 H4 H5 H6. destruct (compose_fields t w s) as (_ & A & B & D); [assumption..|].
  destruct (compose_fields t' w' s') as (_ & A' & B' & D'); [assumption..|].
  split_and!; [exact A|exact B|exact D|]. intros E. rewrite E in A, B, D.
  split_and!; [lia|congruence|congruence].
Qed.

(** [next_id] throws exactly when the clock is more than five seconds
    behind, sleeps when it is behind by less, and in all other cases, and after
    the sleep, it produces an identifier if the clock ever passes the last
    timestamp. *)
Theorem snowflake_progress t cl e :
  (enter (t :: cl) e = Some (Thrown, cl) <-> max_backward_ms < last_timestamp e - t)
  /\ (enter (t :: cl) e = Some (Asleep, cl) <-> 0 < last_timestamp e - t <= max_backward_ms)
  /\ (Exists (fun u => last_timestamp e < u) cl ->
       (last_timestamp e <= t -> exists id e' cl', enter (t :: cl) e = Some (Id id e', cl'))
       /\ exists id cl' e', reenter (t :: cl) e = Some (id, cl', e')).
Proof.
  unfold enter, reenter, max_backward_ms.
  assert (Hfin : forall u c, (u = last_timestamp e -> Exists (fun u => last_timestamp e < u) c) ->
    exists id c' e', finish u c e = Some (id, c', e')).
  { intros u c Hc. unfold finish. destruct (Z.eqb_spec u (last_timestamp e)) as [Hu|Hu]; [|eauto].
    destruct (_ =? 0); [|eauto]. destruct (wait_progress _ _ (Hc Hu)) as (v & c' & ->). eauto. }
  split_and!.
  - destruct (Z.ltb_spec t (last_timestamp e)).
    + destruct (Z.ltb_spec 5000 (last_timestamp e - t)); split; try discriminate; try lia; auto.
    + destruct (finish t cl e) as [[[? ?] ?]|]; split; try discriminate; lia.
  - destruct (Z.ltb_spec t (last_timestamp e)).
    + destruct (Z.ltb_spec 5000 (last_timestamp e - t)); split; try discriminate; try lia; auto.
    + destruct (finish t cl e) as [[[? ?] ?]|]; split; try discriminate; lia.
  - intros Hex. split.
    + intros Hle. replace (t <? last_timestamp e) with false by (symmetry; apply Z.ltb_ge; lia).
      destruct (Hfin t cl (fun _ => Hex)) as (id & c' & e' & ->). eauto.
    + destruct (Z.ltb_spec t (last_timestamp e)); [|now apply Hfin].
      destruct (wait_progress _ _ Hex) as (u & c' & Ew). rewrite Ew.
      assert (Hu : last_timestamp e < u).
      { clear -Ew. induction cl as [|v cl IH]; [discriminate|]. cbn in Ew.
        destruct (Z.leb_spec v (last_timestamp e)); [now apply IH|]. now injection Ew as <- _. }
      apply Hfin. lia.
Qed.

(** The byte swap of [to_endian] is its own inverse, so the big-endian form
    of an identifier determines the identifier. *)
Theorem endian_roundtrip v big : uint 64 v -> to_endian (to_endian v big) big = v /\ uint 64 (to_endian v big).
Proof.
  intros Hv. destruct big; cbn [to_endian]; [|auto].
  split; [now apply swap64_involutive|now apply swap64_uint].
Qed.

(** The text has 36 characters in groups of 8, 4, 4, 4 and 12 hexadecimal
    digits; the version digit is 8 and the variant digit one of 8, 9, a, b. *)
Theorem uuid_text high low : uint 64 low ->
  exists g1 g2 g3 g4 g5 v,
    rfc_uuid_format high low = g1 ++ [45] ++ g2 ++ [45] ++ (56 :: g3) ++ [45] ++ (v :: g4) ++ [45] ++ g5
    /\ length g1 = 8%nat /\ length g2 = 4%nat /\ length g3 = 3%nat /\ length g4 = 3%nat /\ length g5 = 12%nat
    /\ Forall (fun c => is_hex c = true) (g1 ++ g2 ++ g3 ++ g4 ++ g5)
    /\ v ∈ [56; 57; 97; 98].
Proof.
  intros Hl. unfold rfc_uuid_format. fold (rfc_high high) (rfc_low low).
  rewrite (hex_pad_4 (Z.land (rfc_high high) 65535)), (hex_pad_4 (Z.land (Z.shiftr (rfc_low low) 48) 65535)).
  rewrite version_nibble. pose proof (variant_nibble low Hl) as Hv. cbn zeta in Hv.
  set (d := Z.land (Z.shiftr (Z.land (Z.shiftr (rfc_low low) 48) 65535) 12) 15) in *.
  do 6 eexists. split; [reflexivity|]. rewrite !hex_pad_length. split_and!; try reflexivity.
  - rewrite !Forall_app. repeat split; apply hex_pad_ok.
  - assert (Hc : d = 8 \/ d = 9 \/ d = 10 \/ d = 11) by lia.
    destruct Hc as [->|[->|[->| ->]]]; apply (bool_decide_unpack _); reflexivity.
Qed.

(** The version digit overwrites the low four bits of the worker: two
    workers that agree above them give the same text for the same time,
    sequence and seed. *)
Theorem uuid_text_worker_clash t w w' s seed :
  clock_ok t -> 0 <= w <= 1023 -> 0 <= w' <= 1023 -> 0 <= s <= 4095 -> w / 16 = w' / 16 ->
  gen (compose t w s) seed = gen (compose t w' s) seed.
Proof.
  intros Ht Hw Hw' Hs E. unfold gen, rfc_uuid_format, gen_u64, to_endian.
  fold (rfc_high (compose t w s)) (rfc_high (compose t w' s)).
  now rewrite (rfc_high_worker t w w' s).
Qed.

(** *** Witnesses *)

Definition demo_clock : list Z := [epoch + 7; epoch + 7; epoch + 5; epoch + 6; epoch + 9].

Lemma demo_clock_ok : Forall clock_ok demo_clock.
Proof. repeat constructor; unfold epoch; lia. Qed.

(** Two identifiers in one millisecond, then the clock goes back by 2. *)
Definition demo_end : system := Sys (Engine 3 0 (epoch + 9)) [] 0
  [compose (epoch + 7) 3 0; compose (epoch + 7) 3 1; compose (epoch + 9) 3 0].

Lemma snowflake_demo_run : rtc step (Sys (Engine 3 0 0) demo_clock 0 []) demo_end.
Proof.
  eapply rtc_l; [apply step_id; vm_compute; reflexivity|].
  eapply rtc_l; [apply step_id; vm_compute; reflexivity|].
  eapply rtc_l; [apply step_sleep; vm_compute; reflexivity|].
  eapply rtc_l; [apply step_wake; vm_compute; reflexivity|].
  vm_compute. apply rtc_refl.
Qed.

Lemma snowflake_ids_witness :
  StronglySorted (fun a b => key a < key b) (ids demo_end) /\ NoDup (ids demo_end)
  /\ Forall (fun id => uint 64 id) (ids demo_end).
Proof. exact (snowflake_ids 3 (Engine 3 0 0) demo_clock demo_end ltac:(discriminate) eq_refl demo_clock_ok snowflake_demo_run). Defined.

Lemma snowflake_layout_witness :
  Z.shiftr (compose (epoch + 7) 3 1) 22 = epoch + 7 - epoch /\ Z.land (Z.shiftr (compose (epoch + 7) 3 1) 12) 1023 = 3
  /\ Z.land (compose (epoch + 7) 3 1) 4095 = 1
  /\ (compose (epoch + 7) 3 1 = compose (epoch + 7) 4 1 -> epoch + 7 = epoch + 7 /\ 3 = 4 /\ 1 = 1).
Proof. apply (snowflake_layout (epoch + 7) 3 1 (epoch + 7) 4 1); unfold clock_ok; lia. Defined.

Lemma endian_roundtrip_witness :
  to_endian 0x0102030405060708 true = 0x0807060504030201
  /\ to_endian (to_endian 0x0102030405060708 true) true = 0x0102030405060708.
Proof.
  split; [reflexivity|]. apply (proj1 (endian_roundtrip 0x0102030405060708 true ltac:(unfold uint; lia))).
Defined.

Lemma uuid_text_witness : exists g1 g2 g3 g4 g5 v,
    rfc_uuid_format 1 2 = g1 ++ [45] ++ g2 ++ [45] ++ (56 :: g3) ++ [45] ++ (v :: g4) ++ [45] ++ g5
    /\ length g1 = 8%nat /\ length g2 = 4%nat /\ length g3 = 3%nat /\ length g4 = 3%nat /\ length g5 = 12%nat
    /\ Forall (fun c => is_hex c = true) (g1 ++ g2 ++ g3 ++ g4 ++ g5)
    /\ v ∈ [56; 57; 97; 98].
Proof. apply (uuid_text 1 2). unfold uint. lia. Defined.

Lemma uuid_text_worker_clash_witness :
  gen (compose (epoch + 7) 1 0) 5 = gen (compose (epoch + 7) 2 0) 5.
Proof. apply (uuid_text_worker_clash (epoch + 7) 1 2 0 5); unfold clock_ok; try lia; reflexivity. Defined.

Lemma snowflake_progress_witness :
  exists id cl' e', reenter [epoch; epoch + 8] (Engine 1 4095 (epoch + 7)) = Some (id, cl', e').
Proof.
  apply (snowflake_progress epoch [epoch + 8] (Engine 1 4095 (epoch + 7))). constructor. cbn. lia.
Defined.
End Uuid.
