(* ===== verification/Bloom.v ===== *)
(** * Bloom filter

    [algo/bloom_filter.hpp]: the bit set of 64-bit words, the filter over it,
    its text form, and the sizing formulas in double arithmetic.  [std::hash]
    and [std::log] are parameters.  [None] is undefined behaviour (a word out of
    range, a conversion of a double that does not fit) or a failed assertion. *)

From Stdlib Require Import ZArith Lia List Bool.
From Stdlib Require Import Floats.SpecFloat.
From stdpp Require Import base tactics list option.
From S2P Require Import Prelude Doubles.

Open Scope hj_scope.
Open Scope nat_scope.

Module Bloom.

(** ** [dynamic_bitset] *)

Record bitset := Bits { num_bits : nat; words : list Z }.

Definition make_bitset (n : nat) : bitset := Bits n (replicate ((n + 63) / 64) 0%Z).
Definition reset (b : bitset) : bitset := Bits (num_bits b) (replicate (length (words b)) 0%Z).

Definition set (pos : nat) (value : bool) (b : bitset) : option bitset :=
  if num_bits b <=? pos then Some b else
  let word := pos / 64 in
  let bit := Z.of_nat (pos mod 64) in
  let* w := words b !! word in
  let w' := if value then Z.lor w (Z.shiftl 1 bit)
            else Z.land w (Z.lxor (Z.shiftl 1 bit) (Z.ones 64)) in
  Some (Bits (num_bits b) (<[word := w']> (words b))).

Definition test (pos : nat) (b : bitset) : option bool :=
  if num_bits b <=? pos then Some false else
  let* w := words b !! (pos / 64) in
  Some (negb (Z.land (Z.shiftr w (Z.of_nat (pos mod 64))) 1 =? 0)%Z).

(** The bit at a position, false outside. *)
Definition bit_at (b : bitset) (i : nat) : bool :=
  (i <? num_bits b) && Z.testbit (default 0%Z (words b !! (i / 64))) (Z.of_nat (i mod 64)).

Definition bitset_ok (b : bitset) : Prop := length (words b) = (num_bits b + 63) / 64.

Lemma word_in_range b pos : bitset_ok b -> pos < num_bits b -> pos / 64 < length (words b).
Proof.
  intros Hok Hp. rewrite Hok. pose proof (Nat.div_mod_eq pos 64).
  pose proof (Nat.mod_upper_bound pos 64). pose proof (Nat.div_mod_eq (num_bits b + 63) 64).
  pose proof (Nat.mod_upper_bound (num_bits b + 63) 64). lia.
Qed.

Lemma land_1_testbit z : negb (Z.land z 1 =? 0)%Z = Z.testbit z 0.
Proof.
  change 1%Z with (Z.ones 1). rewrite Z.land_ones by lia. change (2 ^ 1)%Z with 2%Z.
  rewrite Zmod_odd, Z.bit0_odd. now destruct (Z.odd z).
Qed.

Lemma test_bit b pos : bitset_ok b -> test pos b = Some (bit_at b pos).
Proof.
  intros Hok. unfold test, bit_at. destruct (Nat.leb_spec (num_bits b) pos) as [Hle|Hlt].
  - now replace (pos <? num_bits b) with false by (symmetry; apply Nat.ltb_ge; lia).
  - replace (pos <? num_bits b) with true by (symmetry; apply Nat.ltb_lt; lia).
    destruct (lookup_lt_is_Some_2 (words b) (pos / 64)) as [w E]; [now apply word_in_range|].
    rewrite E. cbn [default from_option]. unfold id. rewrite land_1_testbit, Z.shiftr_spec by lia.
    f_equal.
Qed.

Lemma set_bit b pos value : bitset_ok b ->
  exists b', set pos value b = Some b' /\ bitset_ok b' /\ num_bits b' = num_bits b
    /\ forall i, bit_at b' i = if decide (i = pos /\ pos < num_bits b) then value else bit_at b i.
Proof.
  intros Hok. unfold set. destruct (Nat.leb_spec (num_bits b) pos) as [Hle|Hlt].
  { exists b. split_and!; try done. intros i. now rewrite decide_False by lia. }
  destruct (lookup_lt_is_Some_2 (words b) (pos / 64)) as [w E]; [now apply word_in_range|]. rewrite E.
  eexists. split_and!; [reflexivity|unfold bitset_ok; cbn; now rewrite length_insert|reflexivity|].
  intros i. unfold bit_at. cbn [num_bits words].
  destruct (Nat.ltb_spec i (num_bits b)) as [Hi|Hi]; cbn [andb]; [|now rewrite decide_False by lia].
  pose proof (Nat.div_mod_eq i 64) as Ei. pose proof (Nat.div_mod_eq pos 64) as Ep.
  pose proof (Nat.mod_upper_bound i 64 ltac:(lia)). pose proof (Nat.mod_upper_bound pos 64 ltac:(lia)).
  destruct (decide (i / 64 = pos / 64)) as [Hw|Hw].
  2: { rewrite list_lookup_insert_ne by congruence. rewrite decide_False; [reflexivity|]. intros [-> _]. now apply Hw. }
  rewrite Hw, list_lookup_insert_eq by now apply word_in_range. rewrite E. cbn [default from_option]. unfold id.
  assert (Hsh : Z.testbit (Z.shiftl 1 (Z.of_nat (pos mod 64))) (Z.of_nat (i mod 64)) = bool_decide (i = pos)).
  { rewrite Z.shiftl_1_l, Z.pow2_bits_eqb by lia. case_bool_decide.
    - subst. apply Z.eqb_refl.
    - apply Z.eqb_neq. lia. }
  destruct value.
  - rewrite Z.lor_spec, Hsh. case_bool_decide.
    + rewrite decide_True by lia. apply orb_true_r.
    + rewrite decide_False by lia. apply orb_false_r.
  - rewrite Z.land_spec, Z.lxor_spec, Hsh, Z.testbit_ones_nonneg by lia.
    replace (Z.of_nat (i mod 64) <? 64)%Z with true by (symmetry; apply Z.ltb_lt; lia).
    case_bool_decide.
    + rewrite decide_True by lia. apply andb_false_r.
    + rewrite decide_False by lia. apply andb_true_r.
Qed.

Lemma bit_at_zeros n k i : bit_at (Bits n (replicate k 0%Z)) i = false.
Proof.
  unfold bit_at. cbn [num_bits words]. destruct (replicate k 0%Z !! (i / 64)) as [w|] eqn:E.
  - apply lookup_replicate in E as [-> _]. cbn. rewrite Z.bits_0. apply andb_false_r.
  - cbn. rewrite Z.bits_0. apply andb_false_r.
Qed.

(** ** The filter *)

Section Filter.
(** [std::hash<T>], [std::hash<size_t>], and the test of [_assert_not_empty]. *)
Context {T : Type} (h1 : T -> Z) (h2 : Z -> Z) (not_empty : T -> bool).

Record bloom_filter := Bloom { bits : bitset; num_hash_functions : nat }.

(** The constructor, from the two sizes the formulas ask for. *)
Definition clamp (lo hi n : nat) : nat :=
  let n := if n <? lo then lo else n in if hi <? n then hi else n.
Definition MIN_BITS : nat := 64.
Definition MAX_BITS : nat := Pos.to_nat 65536.
Definition make (wanted_bits wanted_hashes : nat) : bloom_filter :=
  Bloom (make_bitset (clamp MIN_BITS MAX_BITS wanted_bits)) (clamp 1 16 wanted_hashes).

Definition clear (f : bloom_filter) : bloom_filter := Bloom (reset (bits f)) (num_hash_functions f).
Definition bit_size (f : bloom_filter) : nat := num_bits (bits f).
Definition hash_count (f : bloom_filter) : nat := num_hash_functions f.

Definition hash_i (value : T) (i : nat) : Z :=
  let hval := h1 value in
  let hmix := wrap 64 (hval + wrap 64 (Z.of_nat i * h2 hval)) in
  Z.land hmix 0x7FFFFFFFFFFFFFFF.
(** [hash % _num_bits] *)
Definition position (f : bloom_filter) (value : T) (i : nat) : nat :=
  Z.to_nat (hash_i value i mod Z.of_nat (bit_size f)).

Definition add (value : T) (f : bloom_filter) : option bloom_filter :=
  if negb (not_empty value) then None else
  let* b := for_up (fun i b => set (position f value i) true b) 0 (num_hash_functions f) (bits f) in
  Some (Bloom b (num_hash_functions f)).

Fixpoint contains_loop (value : T) (f : bloom_filter) (i n : nat) : option bool :=
  match n with
  | O => Some true
  | S n =>
      let* b := test (position f value i) (bits f) in
      if negb b then Some false else contains_loop value f (S i) n
  end.
Definition contains (value : T) (f : bloom_filter) : option bool :=
  if negb (not_empty value) then None else contains_loop value f 0 (num_hash_functions f).

(** Characters '0' and '1'. *)
Definition serialize (f : bloom_filter) : option (list Z) :=
  for_up (fun i s => let* b := test i (bits f) in Some (s ++ [if b : bool then 49%Z else 48%Z]))
    0 (bit_size f) [].
Definition unserialize (s : list Z) (f : bloom_filter) : option (bool * bloom_filter) :=
  if negb (length s =? bit_size f) then Some (false, f) else
  let* b := for_up (fun i b => let* c := s !! i in set i (c =? 49)%Z b) 0 (length s) (bits f) in
  Some (true, Bloom b (num_hash_functions f)).

(** ** Facts about the operations *)

Record filter_ok (f : bloom_filter) : Prop :=
  { ok_bits : bitset_ok (bits f); ok_size : 64 <= bit_size f <= MAX_BITS; ok_hashes : 1 <= num_hash_functions f <= 16 }.

Lemma clamp_bounds lo hi n : lo <= hi -> lo <= clamp lo hi n <= hi.
Proof.
  intros H. unfold clamp. destruct (Nat.ltb_spec n lo); [destruct (Nat.ltb_spec hi lo)|destruct (Nat.ltb_spec hi n)]; lia.
Qed.

Lemma make_ok m k : filter_ok (make m k).
Proof.
  split; cbn [make bits num_hash_functions].
  - unfold bitset_ok, make_bitset. cbn [words num_bits]. apply length_replicate.
  - unfold bit_size. cbn. apply (clamp_bounds 64 MAX_BITS). unfold MAX_BITS. lia.
  - apply (clamp_bounds 1 16). lia.
Qed.

Lemma position_lt f value i : filter_ok f -> position f value i < bit_size f.
Proof.
  intros [_ Hs _]. unfold position. pose proof (Z.mod_pos_bound (hash_i value i) (Z.of_nat (bit_size f)) ltac:(lia)). lia.
Qed.

Lemma add_spec f value : filter_ok f -> not_empty value = true ->
  exists f', add value f = Some f' /\ filter_ok f' /\ bit_size f' = bit_size f
    /\ num_hash_functions f' = num_hash_functions f
    /\ forall j, bit_at (bits f') j = true <->
         bit_at (bits f) j = true \/ exists i, i < num_hash_functions f /\ j = position f value i.
Proof.
  intros Hok Hne. unfold add. rewrite Hne. cbn [negb].
  destruct (for_up_inv (fun k b => bitset_ok b /\ num_bits b = bit_size f
      /\ forall j, bit_at b j = true <-> bit_at (bits f) j = true \/ exists i, i < k /\ j = position f value i)
    (fun i b => set (position f value i) true b) 0 (num_hash_functions f) (bits f)) as (b & -> & H1 & H2 & H3).
  - split_and!; [apply Hok|reflexivity|]. intros j. split; [auto|]. intros [H|(i & Hi & _)]; [exact H|lia].
  - intros i b _ (H1 & H2 & H3).
    destruct (set_bit b (position f value i) true H1) as (b' & -> & H1' & H2' & H3').
    exists b'. split_and!; [reflexivity|exact H1'|congruence|]. intros j. rewrite H3'.
    pose proof (position_lt f value i Hok) as Hp.
    destruct (decide (j = position f value i /\ position f value i < num_bits b)) as [[-> _]|Hn].
    + split; [intros _; right; exists i; split; [lia|reflexivity]|auto].
    + rewrite H3. split; [intros [H|(k & Hk & Ej)]; [auto|right; exists k; split; [lia|exact Ej]]|].
      intros [H|(k & Hk & Ej)]; [auto|]. right. exists k. split; [|exact Ej].
      destruct (decide (k = i)) as [->|]; [exfalso; apply Hn; split; [exact Ej|lia]|lia].
  - cbn [Nat.add] in *. eexists. split_and!; [reflexivity| |exact H2|reflexivity|exact H3].
    destruct Hok as [_ Hs Hh]. split; cbn [bits num_hash_functions]; [exact H1|unfold bit_size in *; cbn; lia|exact Hh].
Qed.

Lemma contains_loop_spec f value i n : filter_ok f ->
  contains_loop value f i n
  = Some (forallb (fun k => bit_at (bits f) (position f value k)) (seq i n)).
Proof.
  intros Hok. revert i. induction n as [|n IH]; intros i; cbn [contains_loop seq forallb]; [reflexivity|].
  rewrite test_bit by apply Hok. destruct (bit_at (bits f) (position f value i)); cbn; [apply IH|reflexivity].
Qed.

Lemma contains_spec f value : filter_ok f -> not_empty value = true ->
  exists b, contains value f = Some b
    /\ (b = true <-> forall i, i < num_hash_functions f -> bit_at (bits f) (position f value i) = true).
Proof.
  intros Hok Hne. unfold contains. rewrite Hne. cbn [negb]. rewrite contains_loop_spec by exact Hok.
  eexists. split; [reflexivity|]. rewrite forallb_forall. split.
  - intros H i Hi. apply H, in_seq. lia.
  - intros H i Hi. apply in_seq in Hi. apply H. lia.
Qed.

Lemma forallb_ext' {A} (p q : A -> bool) l : (forall x, p x = q x) -> forallb p l = forallb q l.
Proof. intros E. induction l as [|x l IH]; cbn; [reflexivity|]. now rewrite E, IH. Qed.

Fixpoint add_all (vs : list T) (f : bloom_filter) : option bloom_filter :=
  match vs with [] => Some f | v :: vs => let* f := add v f in add_all vs f end.

Lemma position_same f f' value i : bit_size f' = bit_size f -> position f' value i = position f value i.
Proof. intros E. unfold position. now rewrite E. Qed.

Lemma add_all_spec vs f : filter_ok f -> Forall (fun v => not_empty v = true) vs ->
  exists f', add_all vs f = Some f' /\ filter_ok f' /\ bit_size f' = bit_size f
    /\ num_hash_functions f' = num_hash_functions f
    /\ forall j, bit_at (bits f') j = true <->
         bit_at (bits f) j = true \/ exists v i, v ∈ vs /\ i < num_hash_functions f /\ j = position f v i.
Proof.
  intros Hok Hall. revert f Hok. induction Hall as [|v vs Hv _ IH]; intros f Hok; cbn [add_all].
  - exists f. split_and!; try done. intros j. split; [auto|]. intros [H|(v & i & Hin & _)]; [exact H|].
    now apply elem_of_nil in Hin.
  - destruct (add_spec f v Hok Hv) as (f1 & -> & H1 & H2 & H3 & H4).
    destruct (IH f1 H1) as (f2 & -> & G1 & G2 & G3 & G4).
    exists f2. split_and!; [reflexivity|exact G1|congruence|congruence|]. intros j. rewrite G4, H4, H3.
    setoid_rewrite elem_of_cons. split.
    + intros [[H|(i & Hi & Ej)]|(w & i & Hw & Hi & Ej)]; [auto|right; exists v, i; auto|].
      right. exists w, i. rewrite (position_same f f1) in Ej by exact H2. auto.
    + intros [H|(w & i & [->|Hw] & Hi & Ej)]; [auto|left; right; eauto|].
      right. exists w, i. rewrite (position_same f f1) by exact H2. auto.
Qed.

(** *** The text form *)

Definition digit (b : bool) : Z := if b then 49%Z else 48%Z.

Lemma serialize_spec f : filter_ok f ->
  exists s, serialize f = Some s /\ length s = bit_size f
    /\ forall i, i < bit_size f -> s !! i = Some (digit (bit_at (bits f) i)).
Proof.
  intros Hok. unfold serialize.
  destruct (for_up_inv (fun k s => length s = k /\ forall i, i < k -> s !! i = Some (digit (bit_at (bits f) i)))
    (fun i s => let* b := test i (bits f) in Some (s ++ [if b : bool then 49%Z else 48%Z])) 0 (bit_size f) [])
    as (s & -> & H1 & H2).
  - split; [reflexivity|lia].
  - intros i s Hi [H1 H2]. rewrite test_bit by apply Hok. eexists. split; [reflexivity|]. split.
    + rewrite length_app. cbn. lia.
    + intros j Hj. destruct (decide (j = i)) as [->|Hne].
      * rewrite <- H1. now apply list_lookup_middle.
      * rewrite lookup_app_l by lia. apply H2. lia.
  - exists s. auto.
Qed.

Lemma unserialize_spec s f : filter_ok f -> length s = bit_size f ->
  exists f', unserialize s f = Some (true, f') /\ filter_ok f' /\ bit_size f' = bit_size f
    /\ num_hash_functions f' = num_hash_functions f
    /\ forall i c, s !! i = Some c -> bit_at (bits f') i = (c =? 49)%Z.
Proof.
  intros Hok Hs. unfold unserialize. rewrite Hs, Nat.eqb_refl. cbn [negb].
  destruct (for_up_inv (fun k b => bitset_ok b /\ num_bits b = bit_size f
      /\ forall i c, i < k -> s !! i = Some c -> bit_at b i = (c =? 49)%Z)
    (fun i b => let* c := s !! i in set i (c =? 49)%Z b) 0 (bit_size f) (bits f)) as (b & -> & H1 & H2 & H3).
  - split_and!; [apply Hok|reflexivity|lia].
  - intros i b Hi (H1 & H2 & H3). destruct (lookup_lt_is_Some_2 s i) as [c Ec]; [lia|]. rewrite Ec.
    destruct (set_bit b i (c =? 49)%Z H1) as (b' & -> & H1' & H2' & H3').
    exists b'. split_and!; [reflexivity|exact H1'|congruence|]. intros j c' Hj Ej. rewrite H3'.
    destruct (decide (j = i /\ i < num_bits b)) as [[-> _]|Hn]; [congruence|].
    apply H3; [|exact Ej]. destruct (decide (j = i)) as [->|]; [|lia]. exfalso. apply Hn. lia.
  - eexists. split_and!; [reflexivity| |exact H2|reflexivity|].
    + destruct Hok as [_ Hsz Hh]. split; cbn [bits num_hash_functions]; [exact H1|unfold bit_size in *; cbn; lia|exact Hh].
    + intros i c Ei. apply H3; [|exact Ei]. apply lookup_lt_Some in Ei. lia.
Qed.

(** ** Theorems *)

(** No false negatives, and the exact answer: after any number of additions
    to a new filter, [contains] answers without failing, and answers true
    exactly when each position of the value was set by some added value; so it
    answers true for every added value. *)
Theorem bloom_membership m k vs x :
  Forall (fun v => not_empty v = true) vs -> not_empty x = true ->
  exists f, add_all vs (make m k) = Some f /\ exists b, contains x f = Some b
    /\ (b = true <-> forall i, i < hash_count f ->
           exists v j, v ∈ vs /\ j < hash_count f /\ position f x i = position f v j)
    /\ (x ∈ vs -> b = true).
Proof.
  intros Hall Hx. destruct (add_all_spec vs (make m k) (make_ok m k) Hall) as (f & E & Hok & Hsz & Hh & Hb).
  exists f. split; [exact E|]. destruct (contains_spec f x Hok Hx) as (b & Eb & Hbt).
  exists b. split; [exact Eb|]. unfold hash_count.
  assert (Hiff : b = true <-> forall i, i < num_hash_functions f ->
           exists v j, v ∈ vs /\ j < num_hash_functions f /\ position f x i = position f v j).
  { rewrite Hbt. split; intros H i Hi.
    - apply H in Hi. apply Hb in Hi as [Hi|(v & j & Hv & Hj & Ej)].
      + cbn in Hi. unfold make_bitset in Hi. now rewrite bit_at_zeros in Hi.
      + exists v, j. rewrite Hh. rewrite (position_same (make m k) f) by exact Hsz.
        rewrite (position_same (make m k) f) in Ej |- * by exact Hsz. auto.
    - destruct (H i Hi) as (v & j & Hv & Hj & Ej). apply Hb. right. exists v, j.
      rewrite <- Hh. rewrite Ej, (position_same (make m k) f) by exact Hsz. auto. }
  split; [exact Hiff|]. intros Hin. apply Hiff. intros i Hi. eauto.
Qed.

(** [unserialize] of a serialized filter of the same size restores every
    bit; a text of another length is refused and changes nothing. *)
Theorem bloom_roundtrip f g :
  filter_ok f -> filter_ok g ->
  exists s, serialize f = Some s /\ length s = bit_size f
    /\ (bit_size g <> bit_size f -> unserialize s g = Some (false, g))
    /\ (bit_size g = bit_size f -> exists g', unserialize s g = Some (true, g')
          /\ (forall i, bit_at (bits g') i = bit_at (bits f) i)
          /\ (hash_count g = hash_count f -> forall x, contains x g' = contains x f)).
Proof.
  intros Hf Hg. destruct (serialize_spec f Hf) as (s & E & Hl & Hs). exists s. split; [exact E|]. split; [exact Hl|]. split.
  - intros Hne. unfold unserialize. rewrite Hl. now replace (bit_size f =? bit_size g) with false by (symmetry; apply Nat.eqb_neq; lia).
  - intros Hsz. destruct (unserialize_spec s g Hg ltac:(lia)) as (g' & E' & Hok & Hsz' & Hh & Hb).
    exists g'. split; [exact E'|].
    assert (Hbits : forall i, bit_at (bits g') i = bit_at (bits f) i).
    { intros i. destruct (Nat.lt_ge_cases i (bit_size f)) as [Hi|Hi].
      - rewrite (Hb i _ (Hs i Hi)). unfold digit. now destruct (bit_at (bits f) i).
      - unfold bit_at. unfold bit_size in *. rewrite Hsz', Hsz.
        now replace (i <? num_bits (bits f)) with false by (symmetry; apply Nat.ltb_ge; lia). }
    split; [exact Hbits|]. unfold hash_count. intros Hhc x. unfold contains. destruct (negb (not_empty x)); [reflexivity|].
    rewrite !contains_loop_spec by assumption. rewrite Hh, Hhc. f_equal.
    apply forallb_ext'. intros i. rewrite Hbits. now rewrite (position_same f g') by congruence.
Qed.

(** After [clear] nothing is contained. *)
Theorem bloom_clear f x : filter_ok f -> not_empty x = true -> contains x (clear f) = Some false.
Proof.
  intros Hok Hx. assert (Hok' : filter_ok (clear f)).
  { destruct Hok as [Hb Hs Hh]. split; [|exact Hs|exact Hh].
    unfold bitset_ok in *. cbn. now rewrite length_replicate. }
  destruct (contains_spec (clear f) x Hok' Hx) as ([] & -> & Hb); [|reflexivity].
  pose proof (ok_hashes _ Hok') as Hh. destruct Hb as [Hb _]. specialize (Hb eq_refl 0 ltac:(lia)).
  unfold clear, reset in Hb. cbn [bits] in Hb. now rewrite bit_at_zeros in Hb.
Qed.
End Filter.

(** ** The sizing formulas *)

Section Sizing.
(** [std::log] and [std::pow]. *)
Context (log : double -> double) (pow : double -> double -> double).

(** Conversions between [size_t] and [double]; the conversion back is undefined
    unless the truncated value fits. *)
Definition of_size (n : Z) : double := binary_normalize 53 1024 n 0 false.
Definition to_size (d : double) : option Z :=
  match d with
  | S754_zero _ => Some 0%Z
  | S754_finite s m e =>
      let t := Z.shiftl (Z.pos m) e in
      if s then (if (t =? 0)%Z then Some 0%Z else None)
      else if (t <? 2 ^ 64)%Z then Some t else None
  | _ => None
  end.

Definition two : double := of_size 2.

(** [-1 * n * std::log(p) / std::pow(std::log(2), 2)]: the first product is
    one of [size_t]. *)
Definition optimal_num_of_bits (n : Z) (p : double) : option Z :=
  let minus_n := wrap 64 (-1 * n) in
  to_size (SFdiv 53 1024 (SFmul 53 1024 (of_size minus_n) (log p)) (pow (log two) two)).

(** 0.01, and the logarithms and the square as the C library rounds them. *)
Definition rate : double := S754_finite false 5764607523034235 (-59).
Definition log_rate : double := S754_finite true 5184960683398421 (-50).
Definition log_two : double := S754_finite false 6243314768165359 (-53).
Definition log_two_squared : double := S754_finite false 8655072057804174 (-54).

(** [-1 * n] wraps around to [2^64 - n], so the number of bits asked for is
    the conversion of a large negative double, which is undefined: at the
    default rate of 0.01 for every number of insertions up to 3000. *)
Theorem bloom_sizing_undefined n :
  log rate = log_rate -> log two = log_two -> pow log_two two = log_two_squared ->
  (1 <= n <= 3000)%Z -> optimal_num_of_bits n rate = None.
Proof.
  intros H1 H2 H3 Hn. unfold optimal_num_of_bits. rewrite H1, H2, H3.
  assert (Hall : forallb (fun k => match to_size (SFdiv 53 1024 (SFmul 53 1024
      (of_size (wrap 64 (-1 * Z.of_nat k))) log_rate) log_two_squared) with None => true | _ => false end)
      (seq 1 3000) = true) by (vm_compute; reflexivity).
  rewrite forallb_forall in Hall. specialize (Hall (Z.to_nat n)).
  rewrite Z2Nat.id in Hall by lia.
  destruct (to_size _); [|reflexivity]. assert (Hin : In (Z.to_nat n) (seq 1 3000)) by (apply in_seq; lia).
  specialize (Hall Hin). discriminate.
Qed.
End Sizing.

(** *** Witnesses *)

Definition demo_h1 (v : nat) : Z := Z.of_nat v * 0x9e3779b97f4a7c15.
Definition demo_h2 (z : Z) : Z := z.
Definition demo_log (d : double) : double := if dlt d (of_size 1) then log_rate else log_two.

Lemma bloom_membership_witness :
  exists f, add_all demo_h1 demo_h2 (fun v => negb (v =? 0)) [3; 5; 8] (make 70 3) = Some f
    /\ exists b, contains demo_h1 demo_h2 (fun v => negb (v =? 0)) 5 f = Some b
    /\ (b = true <-> forall i, i < hash_count f ->
           exists v j, v ∈ [3; 5; 8] /\ j < hash_count f /\ position demo_h1 demo_h2 f 5 i = position demo_h1 demo_h2 f v j)
    /\ (5 ∈ [3; 5; 8] -> b = true).
Proof.
  apply (bloom_membership demo_h1 demo_h2 (fun v => negb (v =? 0)) 70 3 [3; 5; 8] 5); [repeat constructor|reflexivity].
Defined.

Lemma bloom_roundtrip_witness :
  exists s, serialize (make 70 3) = Some s /\ length s = bit_size (make 70 3)
    /\ (bit_size (make 99 3) <> bit_size (make 70 3) -> unserialize s (make 99 3) = Some (false, make 99 3))
    /\ (bit_size (make 99 3) = bit_size (make 70 3) -> exists g', unserialize s (make 99 3) = Some (true, g')
          /\ (forall i, bit_at (bits g') i = bit_at (bits (make 70 3)) i)
          /\ (hash_count (make 99 3) = hash_count (make 70 3) ->
               forall x, contains demo_h1 demo_h2 (fun _ => true) x g' = contains demo_h1 demo_h2 (fun _ => true) x (make 70 3))).
Proof.
  exact (bloom_roundtrip demo_h1 demo_h2 (fun _ => true) (make 70 3) (make 99 3) (make_ok 70 3) (make_ok 99 3)).
Defined.

Lemma bloom_clear_witness : contains demo_h1 demo_h2 (fun _ => true) 4 (clear (make 70 3)) = Some false.
Proof. exact (bloom_clear demo_h1 demo_h2 (fun _ => true) (make 70 3) 4 (make_ok 70 3) eq_refl). Defined.

Lemma bloom_sizing_undefined_witness :
  optimal_num_of_bits demo_log (fun _ _ => log_two_squared) 100 rate = None.
Proof.
  apply (bloom_sizing_undefined demo_log (fun _ _ => log_two_squared) 100); try (vm_compute; reflexivity). lia.
Defined.
End Bloom.
