(* ===== verification/ThreadPool.v ===== *)
(** * Thread pool

    [sync/thread_pool.hpp]: the critical sections as functions on the state the
    mutex protects, and the interleavings of the workers with any number of
    callers of [enqueue] and of [clear] or the destructor as a step relation.
    The condition variable is modelled as such: a worker whose predicate is
    false sleeps until it is notified (or wakes up spuriously), and a caller
    notifies in a step of its own, after the section.  Affinity and the futures
    are not modelled; a task that throws ends like one that returns, since the
    packaged task catches what it throws.  At most one caller is in [clear] or
    the destructor at a time, and the flag is read and written atomically. *)

From Stdlib Require Import ZArith Lia List Bool.
From stdpp Require Import base tactics list option relations.
From S2P Require Import Prelude.

Open Scope hj_scope.
Open Scope nat_scope.

Module TPool.
Section TPool.
Context {Task : Type}.

(** ** State *)

(** A worker: about to evaluate the predicate of the wait, asleep in the
    condition variable, running a task, returned, or joined. *)
Inductive worker := Checking | Sleeping | Running (t : Task) | Returned | Joined.

(** A caller: outside, between the section of [enqueue] and its notification,
    between the section of [clear] and its notification, or joining the
    [k]-th worker; [reset] is false in the destructor. *)
Inductive caller := Outside | Notifying | Stopping (reset : bool) | Joining (reset : bool) (k : nat).

(** The last three fields record the history: the tasks accepted, started and
    finished, in order. *)
Record pool := Pool
  { _workers : list worker; _tasks : list Task; _is_stop : bool; callers : list caller;
    accepted : list Task; started : list Task; finished : list Task }.

Definition with_caller (i : nat) (c : caller) (s : pool) : pool :=
  Pool (_workers s) (_tasks s) (_is_stop s) (<[i := c]> (callers s)) (accepted s) (started s) (finished s).
Definition with_worker (j : nat) (w : worker) (s : pool) : pool :=
  Pool (<[j := w]> (_workers s)) (_tasks s) (_is_stop s) (callers s) (accepted s) (started s) (finished s).
Definition with_stop (b : bool) (s : pool) : pool :=
  Pool (_workers s) (_tasks s) b (callers s) (accepted s) (started s) (finished s).

(** ** Operations *)

Definition make (nthread ncallers : nat) : pool :=
  let nthread := if nthread <? 1 then 1 else nthread in
  Pool (replicate nthread Checking) [] false (replicate ncallers Outside) [] [] [].

Definition size (s : pool) : nat := length (_workers s).

(** The section of [enqueue]: none when the pool is stopped. *)
Definition enqueue_section (t : Task) (s : pool) : option pool :=
  if _is_stop s then None else
  Some (Pool (_workers s) (_tasks s ++ [t]) (_is_stop s) (callers s) (accepted s ++ [t]) (started s) (finished s)).

(** The predicate of the wait. *)
Definition wait_pred (s : pool) : bool := _is_stop s || negb (length (_tasks s) =? 0).

(** A worker with the mutex: it goes to sleep, returns, or takes a task. *)
Definition worker_section (j : nat) (s : pool) : pool :=
  if negb (wait_pred s) then with_worker j Sleeping s else
  match _tasks s with
  | [] => with_worker j Returned s
  | t :: ts =>
      Pool (<[j := Running t]> (_workers s)) ts (_is_stop s) (callers s)
        (accepted s) (started s ++ [t]) (finished s)
  end.

(** The task is over, and the loop goes round. *)
Definition task_end (j : nat) (t : Task) (s : pool) : pool :=
  Pool (<[j := Checking]> (_workers s)) (_tasks s) (_is_stop s) (callers s)
    (accepted s) (started s) (finished s ++ [t]).

Definition wake (w : worker) : worker := match w with Sleeping => Checking | w => w end.
Definition notify_all (s : pool) : pool :=
  Pool (wake <$> _workers s) (_tasks s) (_is_stop s) (callers s) (accepted s) (started s) (finished s).

(** The end of [clear] resets the flag, the destructor does not. *)
Definition close_end (reset : bool) (s : pool) : pool := if reset then with_stop false s else s.

Definition closing (c : caller) : bool :=
  match c with Stopping _ | Joining _ _ => true | _ => false end.

(** ** Steps *)

(** [act]: the steps of the program. *)
Inductive act : pool -> pool -> Prop :=
| act_enqueue s s' i t : callers s !! i = Some Outside -> enqueue_section t s = Some s' ->
    act s (with_caller i Notifying s')
| act_notify s i j : callers s !! i = Some Notifying -> _workers s !! j = Some Sleeping ->
    act s (with_caller i Outside (with_worker j Checking s))
| act_notify_none s i : callers s !! i = Some Notifying -> Sleeping ∉ _workers s ->
    act s (with_caller i Outside s)
| act_section s j : _workers s !! j = Some Checking -> act s (worker_section j s)
| act_task s j t : _workers s !! j = Some (Running t) -> act s (task_end j t s)
| act_stop s i reset : callers s !! i = Some Outside -> (forall c, c ∈ callers s -> closing c = false) ->
    act s (with_caller i (Stopping reset) (with_stop true s))
| act_notify_all s i reset : callers s !! i = Some (Stopping reset) ->
    act s (with_caller i (Joining reset 0) (notify_all s))
| act_join s i reset k : callers s !! i = Some (Joining reset k) -> _workers s !! k = Some Returned ->
    act s (with_caller i (Joining reset (S k)) (with_worker k Joined s))
| act_joined s i reset k : callers s !! i = Some (Joining reset k) -> _workers s !! k = Some Joined ->
    (** not joinable *)
    act s (with_caller i (Joining reset (S k)) s)
| act_close_end s i reset k : callers s !! i = Some (Joining reset k) -> k = length (_workers s) ->
    act s (with_caller i Outside (close_end reset s)).

(** A sleeping worker may also wake up for no reason. *)
Inductive step : pool -> pool -> Prop :=
| step_act s s' : act s s' -> step s s'
| step_spurious s j : _workers s !! j = Some Sleeping -> step s (with_worker j Checking s).

(** ** Counts *)

Definition n_checking (ws : list worker) : nat :=
  sum_list_with (fun w => match w with Checking => 1 | _ => 0 end) ws.
Definition n_notifying (cs : list caller) : nat :=
  sum_list_with (fun c => match c with Notifying => 1 | _ => 0 end) cs.
Definition n_closing (cs : list caller) : nat :=
  sum_list_with (fun c => if closing c then 1 else 0) cs.
Definition task_of (w : worker) : list Task := match w with Running t => [t] | _ => [] end.
Definition running (ws : list worker) : list Task := concat (task_of <$> ws).

Lemma n_checking_update ws j w w' : ws !! j = Some w ->
  n_checking (<[j := w']> ws) + n_checking [w] = n_checking ws + n_checking [w'].
Proof. intros E. unfold n_checking. pose proof (sum_update (fun w => match w with Checking => 1 | _ => 0 end) ws j w w' E). cbn. lia. Qed.
Lemma n_notifying_update cs i c c' : cs !! i = Some c ->
  n_notifying (<[i := c']> cs) + n_notifying [c] = n_notifying cs + n_notifying [c'].
Proof. intros E. unfold n_notifying. pose proof (sum_update (fun c => match c with Notifying => 1 | _ => 0 end) cs i c c' E). cbn. lia. Qed.
Lemma n_closing_update cs i c c' : cs !! i = Some c ->
  n_closing (<[i := c']> cs) + n_closing [c] = n_closing cs + n_closing [c'].
Proof. intros E. unfold n_closing. pose proof (sum_update (fun c => if closing c then 1 else 0) cs i c c' E). cbn. lia. Qed.
Lemma running_update ws j w w' : ws !! j = Some w ->
  running (<[j := w']> ws) ++ task_of w ≡ₚ running ws ++ task_of w'.
Proof. apply concat_update. Qed.

Lemma n_closing_pos cs i c : cs !! i = Some c -> closing c = true -> 1 <= n_closing cs.
Proof.
  intros E Hc. pose proof (n_closing_update cs i c Outside E) as H. unfold n_closing in *. cbn in H. rewrite Hc in H. lia.
Qed.

Lemma n_closing_unique cs i j c d : n_closing cs <= 1 -> cs !! i = Some c -> cs !! j = Some d ->
  closing c = true -> closing d = true -> i = j.
Proof.
  intros Hn Ei Ej Hc Hd. destruct (decide (i = j)) as [|Hij]; [assumption|exfalso].
  pose proof (n_closing_update cs i c Outside Ei) as H.
  assert (Ej' : <[i := Outside]> cs !! j = Some d) by (rewrite list_lookup_insert_ne; auto).
  pose proof (n_closing_pos _ j d Ej' Hd). unfold n_closing in *. cbn in H. rewrite Hc in H. lia.
Qed.

Lemma n_closing_none cs : (forall c, c ∈ cs -> closing c = false) -> n_closing cs = 0.
Proof.
  induction cs as [|c cs IH]; intros H; [reflexivity|]. unfold n_closing. cbn.
  rewrite (H c) by now left. apply IH. intros d Hd. apply H. now right.
Qed.

(** ** Invariant *)

(** Once a worker has returned, nothing waits, unless all have been joined. *)
Definition emptied (s : pool) : Prop :=
  forall w, w ∈ _workers s -> w = Returned \/ w = Joined ->
    (_is_stop s = true /\ _tasks s = []) \/ (forall w, w ∈ _workers s -> w = Joined).

Record inv (s : pool) : Prop :=
  { inv_fifo : accepted s = started s ++ _tasks s;
    inv_once : started s ≡ₚ finished s ++ running (_workers s);
    inv_awake : Sleeping ∈ _workers s -> length (_tasks s) <= n_checking (_workers s) + n_notifying (callers s);
    inv_one : n_closing (callers s) <= 1;
    inv_stop : forall i c, callers s !! i = Some c -> closing c = true -> _is_stop s = true;
    inv_asleep : _is_stop s = true -> Sleeping ∈ _workers s -> exists i reset, callers s !! i = Some (Stopping reset);
    inv_emptied : emptied s;
    inv_joined : forall i reset k, callers s !! i = Some (Joining reset k) ->
      k <= length (_workers s) /\ forall j, j < k -> _workers s !! j = Some Joined }.

Lemma insert_in {A} (l : list A) j x y z : l !! j = Some x -> z ∈ <[j := y]> l -> z = y \/ z ∈ l.
Proof.
  intros Hl Hz. apply list_elem_of_lookup in Hz as [i Hi].
  destruct (update_cases l j x y i z Hl Hi) as [[_ ->]|[_ H]]; [auto|right].
  now apply list_elem_of_lookup_2 in H.
Qed.

Lemma insert_in_ne {A} (l : list A) j x y z : l !! j = Some x -> z ∈ l -> z <> x -> z ∈ <[j := y]> l.
Proof.
  intros Hl Hz Hne. apply list_elem_of_lookup in Hz as [i Hi]. apply list_elem_of_lookup. exists i.
  rewrite list_lookup_insert_ne; [exact Hi|]. intros ->. congruence.
Qed.

Lemma make_inv n m : inv (make n m).
Proof.
  unfold make. generalize (if n <? 1 then 1 else n). intros p.
  split; cbn [_workers _tasks _is_stop callers accepted started finished]; try reflexivity.
  - enough (running (replicate p Checking) = []) as -> by reflexivity.
    unfold running. induction p; cbn; auto.
  - intros H. apply elem_of_replicate in H as [H _]. discriminate.
  - enough (n_closing (replicate m Outside) = 0) by lia.
    apply n_closing_none. intros c Hc. now apply elem_of_replicate in Hc as [-> _].
  - intros i c E Hc. apply lookup_replicate in E as [-> _]. discriminate.
  - discriminate.
  - intros w Hw [-> | ->]; cbn in Hw; apply elem_of_replicate in Hw as [Hw _]; discriminate.
  - intros i r k E. apply lookup_replicate in E as [E _]. discriminate.
Qed.

(** A caller that neither starts nor ends closing. *)
Lemma caller_inv s i c c' : inv s -> callers s !! i = Some c -> closing c = false -> closing c' = false ->
  (Sleeping ∈ _workers s -> length (_tasks s) <= n_checking (_workers s) + n_notifying (<[i := c']> (callers s))) ->
  inv (with_caller i c' s).
Proof.
  intros [H1 H2 H3 H4 H5 H6 H7 H8] E Hc Hc' Hn.
  split; cbn [with_caller _workers _tasks _is_stop callers accepted started finished]; try assumption.
  - pose proof (n_closing_update _ i c c' E) as H. unfold n_closing in *. cbn in H. rewrite Hc, Hc' in H. lia.
  - intros j d Ej Hd. destruct (update_cases _ i c c' j d E Ej) as [[_ ->]|[_ H]]; [congruence|eauto].
  - intros Hs Hw. destruct (H6 Hs Hw) as (j & r & Ej). exists j, r. rewrite list_lookup_insert_ne; [exact Ej|].
    intros ->. rewrite E in Ej. injection Ej as ->. discriminate.
  - intros j r k Ej. destruct (update_cases _ i c c' j _ E Ej) as [[_ <-]|[_ H]]; [discriminate|eauto].
Qed.

Lemma enqueue_inv s s' i t : inv s -> callers s !! i = Some Outside -> enqueue_section t s = Some s' ->
  inv (with_caller i Notifying s').
Proof.
  intros Hi E. unfold enqueue_section. destruct (_is_stop s) eqn:Es; [discriminate|]. intros [= <-].
  pose proof (n_notifying_update _ i _ Notifying E) as Hn. cbn in Hn.
  pose proof (n_closing_update _ i _ Notifying E) as Hcl. cbn in Hcl.
  destruct Hi as [H1 H2 H3 H4 H5 H6 H7 H8].
  split; cbn [with_caller _workers _tasks _is_stop callers accepted started finished].
  - now rewrite H1, app_assoc.
  - exact H2.
  - intros Hw. apply H3 in Hw. rewrite length_app. cbn. lia.
  - lia.
  - intros j d Ej Hd. destruct (update_cases _ i _ _ j d E Ej) as [[_ ->]|[_ H]]; [discriminate|].
    rewrite <- Es. eauto.
  - congruence.
  - intros w Hw Hd. cbn [_workers _tasks _is_stop] in *. destruct (H7 w Hw Hd) as [[Hs _]|H]; [congruence|now right].
  - intros j r k Ej. destruct (update_cases _ i _ _ j _ E Ej) as [[_ H]|[_ H]]; [discriminate|eauto].
Qed.

(** A worker that wakes up. *)
Lemma wake_inv s j : inv s -> _workers s !! j = Some Sleeping -> inv (with_worker j Checking s).
Proof.
  intros [H1 H2 H3 H4 H5 H6 H7 H8] E.
  assert (Hin : forall w, w ∈ <[j := Checking]> (_workers s) -> w = Checking \/ w ∈ _workers s) by (intros w; now apply insert_in with Sleeping).
  assert (Hs : Sleeping ∈ _workers s) by now apply list_elem_of_lookup_2 in E.
  pose proof (n_checking_update _ j _ Checking E) as Hn. cbn in Hn.
  split; cbn [with_worker _workers _tasks _is_stop callers accepted started finished]; try assumption.
  - rewrite H2. pose proof (running_update _ j _ Checking E) as Hr. cbn in Hr. rewrite !app_nil_r in Hr. now rewrite Hr.
  - intros _. specialize (H3 Hs). lia.
  - intros Hst _. eauto.
  - intros w Hw Hd. cbn [_workers _tasks _is_stop] in *. apply Hin in Hw as [->|Hw]; [destruct Hd; discriminate|].
    destruct (H7 w Hw Hd) as [H|H]; [now left|]. specialize (H _ Hs). discriminate.
  - intros i r k Ei. destruct (H8 i r k Ei) as [Hk H]. rewrite length_insert. split; [exact Hk|].
    intros l Hl. rewrite list_lookup_insert_ne; [auto|]. intros ->. specialize (H _ Hl). congruence.
Qed.

Lemma notify_inv s i j : inv s -> callers s !! i = Some Notifying -> _workers s !! j = Some Sleeping ->
  inv (with_caller i Outside (with_worker j Checking s)).
Proof.
  intros Hi E Ej. apply (caller_inv _ i Notifying); [now apply wake_inv|exact E|reflexivity|reflexivity|].
  intros _. cbn [with_worker _workers _tasks callers].
  pose proof (inv_awake s Hi (list_elem_of_lookup_2 _ _ _ Ej)).
  pose proof (n_checking_update _ j _ Checking Ej) as H1. pose proof (n_notifying_update _ i _ Outside E) as H2.
  cbn in H1, H2. lia.
Qed.

(** A worker that takes a task, sleeps or returns. *)
Lemma section_inv s j : inv s -> _workers s !! j = Some Checking -> inv (worker_section j s).
Proof.
  intros [H1 H2 H3 H4 H5 H6 H7 H8] E.
  assert (Hin : forall w w', w ∈ <[j := w']> (_workers s) -> w = w' \/ w ∈ _workers s) by (intros w w'; now apply insert_in with Checking).
  assert (Hc : Checking ∈ _workers s) by now apply list_elem_of_lookup_2 in E.
  assert (Hjoin : forall i r k w', callers s !! i = Some (Joining r k) ->
     k <= length (<[j := w']> (_workers s)) /\ forall l, l < k -> <[j := w']> (_workers s) !! l = Some Joined).
  { intros i r k w' Ei. destruct (H8 i r k Ei) as [Hk H]. rewrite length_insert. split; [exact Hk|].
    intros l Hl. rewrite list_lookup_insert_ne; [auto|]. intros ->. specialize (H _ Hl). congruence. }
  assert (Hrun : forall w', task_of w' = [] -> started s ≡ₚ finished s ++ running (<[j := w']> (_workers s))).
  { intros w' Hw'. rewrite H2. pose proof (running_update _ j _ w' E) as Hr. rewrite Hw' in Hr. cbn in Hr.
    rewrite !app_nil_r in Hr. now rewrite Hr. }
  assert (Hpend : forall w, w ∈ _workers s -> w = Returned \/ w = Joined -> _is_stop s = true /\ _tasks s = []).
  { intros w Hw Hd. destruct (H7 w Hw Hd) as [H|H]; [exact H|]. specialize (H _ Hc). discriminate. }
  unfold worker_section, wait_pred. destruct (negb (_is_stop s || negb (length (_tasks s) =? 0))) eqn:Ep.
  - apply negb_true_iff, orb_false_iff in Ep as [Es Et]. apply negb_false_iff, Nat.eqb_eq, nil_length_inv in Et.
    split; cbn [with_worker _workers _tasks _is_stop callers accepted started finished]; try assumption.
    + now apply Hrun.
    + intros _. rewrite Et. cbn. lia.
    + congruence.
    + intros w Hw Hd. cbn [with_worker _workers _tasks _is_stop] in *. apply Hin in Hw as [->|Hw]; [destruct Hd; discriminate|]. left. eauto.
    + eauto.
  - destruct (_tasks s) as [|t ts] eqn:Et.
    + cbn in Ep. rewrite orb_false_r in Ep. apply negb_false_iff in Ep.
      split; cbn [with_worker _workers _tasks _is_stop callers accepted started finished]; try assumption.
      * now rewrite Et.
      * now apply Hrun.
      * intros _. rewrite Et. cbn. lia.
      * intros Hs Hw. apply Hin in Hw as [Hw|Hw]; [discriminate|auto].
      * intros w Hw Hd. cbn [with_worker _workers _tasks _is_stop] in *. now left.
      * eauto.
    + split; cbn [_workers _tasks _is_stop callers accepted started finished]; try assumption.
      * rewrite H1, <- app_assoc. reflexivity.
      * pose proof (running_update _ j _ (Running t) E) as Hr. cbn in Hr. rewrite app_nil_r in Hr. rewrite Hr, app_assoc. now rewrite <- H2.
      * intros Hw. apply Hin in Hw as [Hw|Hw]; [discriminate|]. specialize (H3 Hw). cbn in H3.
        pose proof (n_checking_update _ j _ (Running t) E) as Hn. cbn in Hn. lia.
      * intros Hs Hw. apply Hin in Hw as [Hw|Hw]; [discriminate|auto].
      * intros w Hw Hd. cbn [_workers _tasks _is_stop] in *. apply Hin in Hw as [->|Hw]; [destruct Hd; discriminate|].
        destruct (Hpend w Hw Hd) as [_ H]. discriminate.
      * eauto.
Qed.

Lemma task_end_inv s j t : inv s -> _workers s !! j = Some (Running t) -> inv (task_end j t s).
Proof.
  intros [H1 H2 H3 H4 H5 H6 H7 H8] E.
  assert (Hin : forall w, w ∈ <[j := Checking]> (_workers s) -> w = Checking \/ w ∈ _workers s)
    by (intros w; now apply insert_in with (Running t)).
  split; cbn [task_end _workers _tasks _is_stop callers accepted started finished]; try assumption.
  - rewrite H2, <- app_assoc. apply Permutation_app_head. pose proof (running_update _ j _ Checking E) as Hr.
    cbn in Hr. rewrite app_nil_r in Hr. rewrite <- Hr. apply Permutation_app_comm.
  - intros Hw. apply Hin in Hw as [Hw|Hw]; [discriminate|]. specialize (H3 Hw).
    pose proof (n_checking_update _ j _ Checking E) as Hn. cbn in Hn. lia.
  - intros Hs Hw. apply Hin in Hw as [Hw|Hw]; [discriminate|auto].
  - intros w Hw Hd. cbn [task_end _workers _tasks _is_stop] in *. apply Hin in Hw as [->|Hw]; [destruct Hd; discriminate|].
    destruct (H7 w Hw Hd) as [H|H]; [now left|]. specialize (H _ (list_elem_of_lookup_2 _ _ _ E)). discriminate.
  - intros i r k Ei. destruct (H8 i r k Ei) as [Hk H]. rewrite length_insert. split; [exact Hk|].
    intros l Hl. rewrite list_lookup_insert_ne; [auto|]. intros ->. specialize (H _ Hl). congruence.
Qed.

Lemma stop_inv s i reset : inv s -> callers s !! i = Some Outside -> (forall c, c ∈ callers s -> closing c = false) ->
  inv (with_caller i (Stopping reset) (with_stop true s)).
Proof.
  intros [H1 H2 H3 H4 H5 H6 H7 H8] E Hnone.
  pose proof (n_notifying_update _ i _ (Stopping reset) E) as Hn. cbn in Hn.
  pose proof (n_closing_update _ i _ (Stopping reset) E) as Hcl. cbn in Hcl. rewrite (n_closing_none (callers s) Hnone) in Hcl.
  split; cbn [with_caller with_stop _workers _tasks _is_stop callers accepted started finished]; try assumption.
  - intros Hw. specialize (H3 Hw). lia.
  - lia.
  - reflexivity.
  - intros _ _. exists i, reset. apply list_lookup_insert_eq. now apply lookup_lt_Some in E.
  - intros w Hw Hd. cbn [with_caller with_stop _workers _tasks _is_stop] in *. destruct (H7 w Hw Hd) as [[_ H]|H]; [now left|now right].
  - intros j r k Ej. destruct (update_cases _ i _ _ j _ E Ej) as [[_ H]|[_ H]]; [discriminate|eauto].
Qed.

Lemma wake_not_sleeping (ws : list worker) : Sleeping ∉ wake <$> ws.
Proof. intros H. apply list_elem_of_fmap in H as (w & Hw & _). now destruct w. Qed.

Lemma running_wake (ws : list worker) : running (wake <$> ws) = running ws.
Proof.
  unfold running. induction ws as [|w ws IH]; [reflexivity|]. cbn. rewrite IH. now destruct w.
Qed.

Lemma notify_all_inv s i reset : inv s -> callers s !! i = Some (Stopping reset) ->
  inv (with_caller i (Joining reset 0) (notify_all s)).
Proof.
  intros [H1 H2 H3 H4 H5 H6 H7 H8] E.
  pose proof (n_closing_update _ i _ (Joining reset 0) E) as Hcl. cbn in Hcl.
  split; cbn [with_caller notify_all _workers _tasks _is_stop callers accepted started finished]; try assumption.
  - now rewrite running_wake.
  - intros Hw. now apply wake_not_sleeping in Hw.
  - lia.
  - intros j d Ej Hd. destruct (update_cases _ i _ _ j d E Ej) as [_|[_ H]]; eauto.
  - intros _ Hw. now apply wake_not_sleeping in Hw.
  - intros w Hw Hd. cbn [with_caller notify_all _workers _tasks _is_stop] in *.
    apply list_elem_of_fmap in Hw as (v & -> & Hv).
    assert (Hd' : v = Returned \/ v = Joined) by (destruct v; destruct Hd; try discriminate; auto).
    destruct (H7 v Hv Hd') as [H|H]; [now left|right]. intros w Hw.
    apply list_elem_of_fmap in Hw as (u & -> & Hu). now rewrite (H u Hu).
  - intros j r k Ej. rewrite length_fmap. destruct (update_cases _ i _ _ j _ E Ej) as [[_ [= -> ->]]|[_ H]].
    + split; [lia|intros l Hl; lia].
    + destruct (H8 j r k H) as [Hk Hl]. split; [exact Hk|]. intros l Hlk.
      rewrite list_lookup_fmap, (Hl l Hlk). reflexivity.
Qed.

(** Joining a worker that has returned, or one already joined. *)
Lemma joining_inv s s' i reset k : inv s -> callers s !! i = Some (Joining reset k) ->
  (s' = s /\ _workers s !! k = Some Joined) \/ (s' = with_worker k Joined s /\ _workers s !! k = Some Returned) ->
  inv (with_caller i (Joining reset (S k)) s').
Proof.
  intros [H1 H2 H3 H4 H5 H6 H7 H8] E Hs'.
  set (ws := <[k := Joined]> (_workers s)).
  assert (Hws : _workers s' = ws /\ _tasks s' = _tasks s /\ _is_stop s' = _is_stop s /\ callers s' = callers s
     /\ accepted s' = accepted s /\ started s' = started s /\ finished s' = finished s).
  { destruct Hs' as [[-> Hk]|[-> Hk]]; subst ws; cbn; [|done]. split_and!; try done. now rewrite list_insert_id. }
  assert (Hold : exists w, _workers s !! k = Some w /\ (w = Returned \/ w = Joined)) by (destruct Hs' as [[_ Hk]|[_ Hk]]; eauto).
  destruct Hold as (w & Ew & Hw). clear Hs'. destruct Hws as (E1 & E2 & E3 & E4 & E5 & E6 & E7).
  assert (Hsleep : Sleeping ∈ ws -> Sleeping ∈ _workers s).
  { intros H. apply (insert_in _ k w) in H as [H|H]; [discriminate|exact H|exact Ew]. }
  pose proof (n_closing_update _ i _ (Joining reset (S k)) E) as Hcl. cbn in Hcl.
  pose proof (n_notifying_update _ i _ (Joining reset (S k)) E) as Hn. cbn in Hn.
  pose proof (n_checking_update _ k w Joined Ew) as Hc. cbn in Hc.
  pose proof (running_update _ k w Joined Ew) as Hr. cbn in Hr.
  split; unfold emptied; cbn [with_caller _workers _tasks _is_stop callers accepted started finished]; rewrite ?E1, ?E2, ?E3, ?E4, ?E5, ?E6, ?E7.
  - exact H1.
  - rewrite H2. subst ws. destruct Hw as [-> | ->]; cbn in Hr; rewrite !app_nil_r in Hr; now rewrite Hr.
  - intros H. specialize (H3 (Hsleep H)). subst ws. destruct Hw as [-> | ->]; cbn in Hc; lia.
  - lia.
  - intros j d Ej Hd. destruct (update_cases _ i _ _ j d E Ej) as [_|[_ H]]; eauto.
  - intros Hs H. destruct (H6 Hs (Hsleep H)) as (j & r & Ej). exists j, r.
    rewrite list_lookup_insert_ne; [exact Ej|]. intros ->. congruence.
  - intros v Hv Hd. destruct (H7 w (list_elem_of_lookup_2 _ _ _ Ew) Hw) as [H|H]; [now left|right].
    intros u Hu. subst ws. apply (insert_in _ k w) in Hu as [Hu|Hu]; [exact Hu|now apply H|exact Ew].
  - intros j r l Ej. subst ws. rewrite length_insert. pose proof (lookup_lt_Some _ _ _ Ew) as Hk.
    assert (Hcase : (l = S k) \/ exists r, callers s !! j = Some (Joining r l)).
    { destruct (update_cases _ i _ _ j _ E Ej) as [[_ [= _ ->]]|[_ H]]; eauto. }
    assert (Hlt : forall m, m < k -> _workers s !! m = Some Joined) by (intros m Hm; now apply (H8 i reset k E)).
    assert (Hkk : <[k := Joined]> (_workers s) !! k = Some Joined) by now apply list_lookup_insert_eq.
    assert (Hne : forall m, _workers s !! m = Some Joined -> <[k := Joined]> (_workers s) !! m = Some Joined).
    { intros m Hm. destruct (decide (m = k)) as [->|]; [exact Hkk|]. now rewrite list_lookup_insert_ne by congruence. }
    destruct Hcase as [->|[r' Ej']].
    + split; [lia|]. intros m Hm. destruct (decide (m = k)) as [->|]; [exact Hkk|]. apply Hne, Hlt. lia.
    + destruct (H8 j r' l Ej') as [Hl Hm]. split; [exact Hl|]. intros m Hml. apply Hne. auto.
Qed.

Lemma all_joined s i reset : inv s -> callers s !! i = Some (Joining reset (length (_workers s))) ->
  forall w, w ∈ _workers s -> w = Joined.
Proof.
  intros Hi E w Hw. destruct (inv_joined s Hi i reset _ E) as [_ H].
  apply list_elem_of_lookup in Hw as [j Hj]. pose proof (H j (lookup_lt_Some _ _ _ Hj)). congruence.
Qed.

Lemma close_end_inv s i reset : inv s -> callers s !! i = Some (Joining reset (length (_workers s))) ->
  inv (with_caller i Outside (close_end reset s)).
Proof.
  intros Hi E. pose proof (all_joined s i reset Hi E) as Hall. destruct Hi as [H1 H2 H3 H4 H5 H6 H7 H8].
  assert (Hsleep : Sleeping ∉ _workers s) by (intros H; apply Hall in H; discriminate).
  assert (Hws : _workers (close_end reset s) = _workers s /\ callers (close_end reset s) = callers s
     /\ _tasks (close_end reset s) = _tasks s /\ accepted (close_end reset s) = accepted s
     /\ started (close_end reset s) = started s /\ finished (close_end reset s) = finished s) by (destruct reset; done).
  destruct Hws as (E1 & E2 & E3 & E4 & E5 & E6).
  pose proof (n_closing_update _ i _ Outside E) as Hcl. cbn in Hcl.
  split; unfold emptied; cbn [with_caller _workers _tasks _is_stop callers accepted started finished]; rewrite ?E1, ?E2, ?E3, ?E4, ?E5, ?E6; try assumption.
  - intros H. contradiction.
  - lia.
  - intros j d Ej Hd. destruct (update_cases _ i _ _ j d E Ej) as [[_ ->]|[Hne H]]; [discriminate|].
    exfalso. apply Hne. symmetry. eapply n_closing_unique; [exact H4|exact E|exact H|reflexivity|exact Hd].
  - intros _ H. contradiction.
  - now right.
  - intros j r k Ej. destruct (update_cases _ i _ _ j _ E Ej) as [[_ H]|[_ H]]; [discriminate|eauto].
Qed.

Lemma tpool_act_inv s s' : inv s -> act s s' -> inv s'.
Proof.
  intros Hi Ha. destruct Ha as [s s' i t E Es|s i j E Ej|s i E Hn|s j E|s j t E|s i r E Hn|s i r E|s i r k E Ew|s i r k E Ew|s i r k E ->];
    [eapply enqueue_inv|eapply notify_inv| |eapply section_inv|eapply task_end_inv|eapply stop_inv|eapply notify_all_inv
    |eapply joining_inv|eapply joining_inv|eapply close_end_inv]; eauto.
  apply (caller_inv s i Notifying); try done.
Qed.

Lemma tpool_steps_inv s s' : inv s -> rtc step s s' -> inv s'.
Proof.
  intros Hi Hs. induction Hs as [|s1 s2 s3 H _ IH]; [assumption|]. apply IH.
  destruct H as [s1 s2 H|s1 j H]; [eapply tpool_act_inv; eauto|now apply wake_inv].
Qed.

(** ** Shutting down *)

(** No more than this many steps remain once the flag is set. *)
Definition worker_left (w : worker) : nat :=
  match w with Sleeping => 2 | Running _ => 2 | Checking => 1 | _ => 0 end.
Definition caller_left (n : nat) (c : caller) : nat :=
  match c with Outside => 0 | Notifying => 1 | Stopping _ => n + 2 | Joining _ k => n + 1 - k end.
Definition steps_left (s : pool) : nat :=
  sum_list_with worker_left (_workers s) + 3 * length (_tasks s)
  + sum_list_with (caller_left (length (_workers s))) (callers s).

Lemma wake_left ws : sum_list_with worker_left (wake <$> ws) <= sum_list_with worker_left ws.
Proof. induction ws as [|w ws IH]; cbn; [lia|]. destruct w; cbn; lia. Qed.

(** A worker, then a caller, changes. *)
Lemma left_worker ws j w w' : ws !! j = Some w ->
  sum_list_with worker_left (<[j := w']> ws) + worker_left w = sum_list_with worker_left ws + worker_left w'.
Proof. apply sum_update. Qed.
Lemma left_caller n cs i c c' : cs !! i = Some c ->
  sum_list_with (caller_left n) (<[i := c']> cs) + caller_left n c = sum_list_with (caller_left n) cs + caller_left n c'.
Proof. apply sum_update. Qed.

Lemma spurious_left s j : _workers s !! j = Some Sleeping -> steps_left (with_worker j Checking s) < steps_left s.
Proof.
  intros E. unfold steps_left. cbn [with_worker _workers _tasks callers]. rewrite length_insert.
  pose proof (left_worker _ j _ Checking E) as H. cbn in H. lia.
Qed.

Lemma section_left s j : _is_stop s = true -> _workers s !! j = Some Checking ->
  steps_left (worker_section j s) < steps_left s.
Proof.
  intros Hs E. unfold worker_section, wait_pred. rewrite Hs. cbn [orb negb].
  destruct (_tasks s) as [|t ts] eqn:Et; unfold steps_left; cbn [with_worker _workers _tasks callers]; rewrite length_insert.
  - pose proof (left_worker _ j _ Returned E) as H. cbn in H. lia.
  - pose proof (left_worker _ j _ (Running t) E) as H. cbn in H. rewrite Et. cbn [length]. lia.
Qed.

Lemma close_end_left s i reset k : callers s !! i = Some (Joining reset k) -> k <= length (_workers s) ->
  steps_left (with_caller i Outside (close_end reset s)) < steps_left s.
Proof.
  intros E Hk. pose proof (left_caller (length (_workers s)) _ i _ Outside E) as H. cbn in H.
  destruct reset; unfold steps_left; cbn [with_caller close_end with_stop _workers _tasks callers]; lia.
Qed.

(** Every step while a caller is closing leaves fewer steps. *)
Lemma step_left s s' i c : inv s -> callers s !! i = Some c -> closing c = true -> step s s' ->
  steps_left s' < steps_left s.
Proof.
  intros Hi Ec Hc Hs. pose proof (inv_stop s Hi i c Ec Hc) as Hst.
  destruct Hs as [s s' Ha|s j E]; [|now apply spurious_left].
  destruct Ha as [s s' l t E Es|s l j E Ej|s l E Hn|s j E|s j t E|s l r E Hn|s l r E|s l r k E Ew|s l r k E Ew|s l r k E Hk].
  - unfold enqueue_section in Es. now rewrite Hst in Es.
  - pose proof (left_caller (length (_workers s)) _ l _ Outside E) as H. cbn in H.
    pose proof (spurious_left s j Ej) as H'. revert H'. unfold steps_left.
    cbn [with_caller with_worker _workers _tasks callers]. rewrite length_insert. lia.
  - pose proof (left_caller (length (_workers s)) _ l _ Outside E) as H. cbn in H.
    unfold steps_left. cbn [with_caller _workers _tasks callers]. lia.
  - now apply section_left.
  - pose proof (left_worker _ j _ Checking E) as H. cbn in H. unfold steps_left.
    cbn [task_end _workers _tasks callers]. rewrite length_insert. lia.
  - rewrite (Hn c) in Hc by (now apply list_elem_of_lookup_2 in Ec). discriminate.
  - pose proof (left_caller (length (_workers s)) _ l _ (Joining r 0) E) as H. cbn in H.
    pose proof (wake_left (_workers s)). unfold steps_left.
    cbn [with_caller notify_all _workers _tasks callers]. rewrite length_fmap. lia.
  - pose proof (left_caller (length (_workers s)) _ l _ (Joining r (S k)) E) as H. cbn in H.
    pose proof (left_worker _ k _ Joined Ew) as H'. cbn in H'. apply lookup_lt_Some in Ew.
    unfold steps_left. cbn [with_caller with_worker _workers _tasks callers]. rewrite length_insert. lia.
  - pose proof (left_caller (length (_workers s)) _ l _ (Joining r (S k)) E) as H. cbn in H. apply lookup_lt_Some in Ew.
    unfold steps_left. cbn [with_caller _workers _tasks callers]. lia.
  - apply (close_end_left s l r k E). lia.
Qed.

(** While a caller is closing the program can go on. *)
Lemma closing_progress s i c : inv s -> callers s !! i = Some c -> closing c = true -> exists s', act s s'.
Proof.
  intros Hi Ec Hc. destruct c as [| |r|r k]; try discriminate.
  { eexists. eapply act_notify_all, Ec. }
  destruct (inv_joined s Hi i r k Ec) as [Hk _].
  destruct (decide (k = length (_workers s))) as [Hkl|Hkl]; [eexists; eapply act_close_end; eauto|].
  destruct (lookup_lt_is_Some_2 (_workers s) k ltac:(lia)) as [w Ew].
  destruct w as [| |t| |].
  - eexists. eapply act_section, Ew.
  - exfalso. destruct (inv_asleep s Hi (inv_stop s Hi i _ Ec Hc) (list_elem_of_lookup_2 _ _ _ Ew)) as (j & r' & Ej).
    assert (i = j) as <- by (eapply n_closing_unique; [apply (inv_one s Hi)|exact Ec|exact Ej|reflexivity|reflexivity]).
    congruence.
  - eexists. eapply act_task, Ew.
  - eexists. eapply act_join; eauto.
  - eexists. eapply act_joined; eauto.
Qed.

(** [P] is reached whatever the schedule, and no schedule gets stuck before. *)
Inductive inevitable (P : pool -> Prop) (s : pool) : Prop :=
| inevitable_now : P s -> inevitable P s
| inevitable_next : (exists s', act s s') -> (forall s', step s s' -> inevitable P s') -> inevitable P s.

(** Every worker joined, every accepted task finished. *)
Definition all_done (s : pool) : Prop :=
  (forall w, w ∈ _workers s -> w = Joined) /\ finished s ≡ₚ accepted s.

(** A worker is left, or there is nothing left to do. *)
Definition gone (s : pool) : Prop := forall w, w ∈ _workers s -> w = Joined.
Definition draining (s : pool) : Prop := _tasks s = [] \/ exists w, w ∈ _workers s /\ w <> Joined.

Lemma inevitable_mono (P Q : pool -> Prop) s : (forall t, P t -> Q t) -> inevitable P s -> inevitable Q s.
Proof. intros H. induction 1 as [s Hp|s Hx _ IH]; [apply inevitable_now; auto|apply inevitable_next; assumption]. Qed.
Lemma gone_dec s : gone s \/ exists w, w ∈ _workers s /\ w <> Joined.
Proof.
  unfold gone. induction (_workers s) as [|w ws IH]; [left; intros w Hw; now apply elem_of_nil in Hw|].
  destruct w; try (right; eexists; split; [now left|discriminate]).
  destruct IH as [IH|(w & Hw & Hn)]; [left; intros v Hv; apply elem_of_cons in Hv as [->|Hv]; auto|right; exists w; split; [now right|exact Hn]].
Qed.
Lemma joined_running ws : (forall w, w ∈ ws -> w = Joined) -> running ws = [].
Proof.
  induction ws as [|w ws IH]; intros H; [reflexivity|]. unfold running. cbn. rewrite (H w) by now left.
  apply IH. intros v Hv. apply H. now right.
Qed.

Lemma draining_same s s' : _tasks s' = _tasks s -> _workers s' = _workers s -> draining s -> draining s'.
Proof. intros E1 E2. unfold draining. now rewrite E1, E2. Qed.

Lemma draining_worker s s' j w : j < length (_workers s) -> w <> Joined -> _workers s' = <[j := w]> (_workers s) -> draining s'.
Proof.
  intros Hj Hw E. right. exists w. split; [|exact Hw]. rewrite E. apply list_elem_of_lookup_2 with j.
  now apply list_lookup_insert_eq.
Qed.

Lemma draining_section s j : _workers s !! j = Some Checking -> draining (worker_section j s).
Proof.
  intros E. apply lookup_lt_Some in E. unfold worker_section.
  destruct (negb (wait_pred s)); [now apply (draining_worker s _ j Sleeping)|].
  destruct (_tasks s) as [|t ts]; [now apply (draining_worker s _ j Returned)|now apply (draining_worker s _ j (Running t))].
Qed.

Lemma draining_step s s' i c : inv s -> callers s !! i = Some c -> closing c = true -> draining s -> step s s' -> draining s'.
Proof.
  intros Hi Ec Hc Hd Hs. pose proof (inv_stop s Hi i c Ec Hc) as Hst.
  destruct Hs as [s s' Ha|s j E]; [|apply (draining_worker s _ j Checking); [now apply lookup_lt_Some in E|done|done]].
  destruct Ha as [s s' l t E Es|s l j E Ej|s l E Hn|s j E|s j t E|s l r E Hn|s l r E|s l r k E Ew|s l r k E Ew|s l r k E Hk];
    try exact Hd.
  - unfold enqueue_section in Es. now rewrite Hst in Es.
  - apply (draining_worker s _ j Checking); [now apply lookup_lt_Some in Ej|done|done].
  - now apply draining_section.
  - apply (draining_worker s _ j Checking); [now apply lookup_lt_Some in E|done|done].
  - destruct Hd as [Ht|(w & Hw & Hne)]; [now left|right]. exists (wake w).
    split; [now apply list_elem_of_fmap_2|now destruct w].
  - left. destruct (inv_emptied s Hi Returned (list_elem_of_lookup_2 _ _ _ Ew) (or_introl eq_refl)) as [[_ H]|H]; [exact H|].
    specialize (H _ (list_elem_of_lookup_2 _ _ _ Ew)). discriminate.
  - apply (draining_same s); [now destruct r|now destruct r|exact Hd].
Qed.

(** The closing caller goes on closing, or is done. *)
Lemma closing_step s s' i c : inv s -> callers s !! i = Some c -> closing c = true -> step s s' ->
  (exists c', callers s' !! i = Some c' /\ closing c' = true) \/
  (callers s' !! i = Some Outside /\ gone s' /\ started s' ≡ₚ finished s' /\ started s' = started s /\ (draining s -> all_done s')).
Proof.
  intros Hi Ec Hc Hs. pose proof (inv_stop s Hi i c Ec Hc) as Hst. pose proof (lookup_lt_Some _ _ _ Ec) as Hlt.
  destruct Hs as [s s' Ha|s j E]; [|left; eauto].
  assert (Hother : forall l d, closing d = true -> exists c', <[l := d]> (callers s) !! i = Some c' /\ closing c' = true).
  { intros l d Hdc. destruct (decide (l = i)) as [->|Hl].
    - exists d. split; [now apply list_lookup_insert_eq|exact Hdc].
    - exists c. now rewrite list_lookup_insert_ne. }
  assert (Hkeep : forall l d d', callers s !! l = Some d -> closing d = false ->
      exists c', <[l := d']> (callers s) !! i = Some c' /\ closing c' = true).
  { intros l d d' El Hdc. exists c. rewrite list_lookup_insert_ne; [auto|]. intros ->. congruence. }
  destruct Ha as [s s' l t E Es|s l j E Ej|s l E Hn|s j E|s j t E|s l r E Hn|s l r E|s l r k E Ew|s l r k E Ew|s l r k E Hk];
    cbn [with_caller with_worker task_end notify_all callers].
  - unfold enqueue_section in Es. now rewrite Hst in Es.
  - left. eauto.
  - left. eauto.
  - left. exists c. split; [|exact Hc]. unfold worker_section. destruct (negb (wait_pred s)); [exact Ec|].
    destruct (_tasks s); exact Ec.
  - left. eauto.
  - left. eauto.
  - left. now apply Hother.
  - left. now apply Hother.
  - left. now apply Hother.
  - right. assert (l = i) as -> by (eapply n_closing_unique; [apply (inv_one s Hi)|exact E|exact Ec|reflexivity|exact Hc]).
    subst k. pose proof (all_joined s i r Hi E) as Hall.
    pose proof (inv_once s Hi) as Ho. rewrite (joined_running _ Hall), app_nil_r in Ho.
    split; [destruct r; now apply list_lookup_insert_eq|]. split; [destruct r; exact Hall|]. split; [destruct r; exact Ho|]. split; [now destruct r|]. intros Hd.
    assert (Ht : _tasks s = []) by (destruct Hd as [H|(w & Hw & Hne)]; [exact H|now apply Hall in Hw]).
    pose proof (inv_fifo s Hi) as Hf. rewrite Ht, app_nil_r in Hf.
    unfold all_done. destruct r; cbn [with_caller close_end with_stop _workers finished accepted]; (split; [exact Hall|]); rewrite Hf; now symmetry.
Qed.

(** A property that the steps keep while [i] is closing holds until it is done. *)
Lemma shutdown_inevitable (R : pool -> Prop) i n s c :
  (forall s s' c, inv s -> callers s !! i = Some c -> closing c = true -> R s -> step s s' -> R s') ->
  inv s -> callers s !! i = Some c -> closing c = true -> R s -> steps_left s <= n ->
  inevitable (fun s' => callers s' !! i = Some Outside /\ gone s' /\ started s' ≡ₚ finished s' /\ exists t, R t /\ started s' = started t /\ (draining t -> all_done s')) s.
Proof.
  intros HR. revert s c. induction n as [n IH] using lt_wf_ind. intros s c Hi Ec Hc Hd Hn.
  apply inevitable_next; [now apply (closing_progress s i c)|]. intros s' Hs.
  pose proof (step_left s s' i c Hi Ec Hc Hs) as Hlt.
  destruct (closing_step s s' i c Hi Ec Hc Hs) as [(c' & Ec' & Hc')|(H1 & H2 & H3 & H4 & H5)]; [|apply inevitable_now; eauto 8].
  apply (IH (steps_left s') ltac:(lia) s' c'); [|exact Ec'|exact Hc'|now apply (HR s s' c)|lia].
  apply (tpool_steps_inv s s' Hi). eapply rtc_l; [exact Hs|apply rtc_refl].
Qed.

(** ** A pool whose workers are gone *)

Lemma dead_step s s' : (forall w, w ∈ _workers s -> w = Joined) -> step s s' ->
  _workers s' = _workers s /\ started s' = started s /\ (accepted s `prefix_of` accepted s').
Proof.
  intros Hall Hs.
  assert (Hno : forall j w, _workers s !! j = Some w -> w = Joined) by (intros j w E; apply Hall; now apply list_elem_of_lookup_2 in E).
  destruct Hs as [s s' Ha|s j E]; [|now apply Hno in E].
  destruct Ha as [s s' l t E Es|s l j E Ej|s l E Hn|s j E|s j t E|s l r E Hn|s l r E|s l r k E Ew|s l r k E Ew|s l r k E Hk];
    try (now apply Hno in Ej); try (now apply Hno in E); try (now apply Hno in Ew); try done.
  - unfold enqueue_section in Es. destruct (_is_stop s); [discriminate|]. injection Es as <-. cbn.
    split_and!; try done. now apply prefix_app_r.
  - cbn. split_and!; try done. clear -Hall. induction (_workers s) as [|w ws IH]; [reflexivity|]. cbn.
    rewrite IH by (intros v Hv; apply Hall; now right). rewrite (Hall w) by now left. reflexivity.
  - destruct r; done.
Qed.

Lemma dead_steps s s' : (forall w, w ∈ _workers s -> w = Joined) -> rtc step s s' ->
  started s' = started s /\ (accepted s `prefix_of` accepted s').
Proof.
  intros Hall Hs. induction Hs as [|s1 s2 s3 H _ IH]; [done|]. destruct (dead_step s1 s2 Hall H) as (E1 & E2 & E3).
  rewrite E1 in IH. destruct (IH Hall) as [E4 E5]. split; [congruence|now transitivity (accepted s2)].
Qed.

(** ** Theorems *)

(** C6: in every reachable state the tasks accepted are, in order, those
    started followed by those waiting, and those started are the finished ones
    and those running: a task is started in its turn, once, and none is lost. *)
Theorem thread_pool_fifo n m s :
  rtc step (make n m) s ->
  accepted s = started s ++ _tasks s /\ started s ≡ₚ finished s ++ running (_workers s).
Proof. intros Hs. pose proof (tpool_steps_inv _ _ (make_inv n m) Hs) as Hi. split; apply Hi. Qed.

(** C7: no wake-up is lost: a worker sleeps only while each waiting task has
    a worker or a notification on its way to it, and no worker sleeps once the
    pool is stopped unless the broadcast is about to come. *)
Theorem thread_pool_wakeups n m s :
  rtc step (make n m) s -> Sleeping ∈ _workers s ->
  length (_tasks s) <= n_checking (_workers s) + n_notifying (callers s)
  /\ (_is_stop s = true -> exists i reset, callers s !! i = Some (Stopping reset)).
Proof.
  intros Hs Hw. pose proof (tpool_steps_inv _ _ (make_inv n m) Hs) as Hi.
  split; [now apply inv_awake|intros Hst; now apply (inv_asleep s Hi)].
Qed.

(** C8: [clear] and the destructor return, under every schedule in which the
    running tasks end: whatever happens, a caller that has set the flag gets past
    its joins, and at that point every worker has been joined and every task that
    was started has finished.  If a worker was left when the flag was set, as it is
    the first time, every task ever accepted has finished then; if none was left,
    since a [clear] had joined them all, no task is started any more, and those
    that were accepted in between wait for ever. *)
Theorem thread_pool_shutdown n m s i reset :
  rtc step (make n m) s -> callers s !! i = Some (Stopping reset) ->
  inevitable (fun s' => callers s' !! i = Some Outside /\ gone s' /\ started s' ≡ₚ finished s' /\
    ((exists w, w ∈ _workers s /\ w <> Joined) -> all_done s') /\ (gone s -> started s' = started s)) s.
Proof.
  intros Hs E. pose proof (tpool_steps_inv _ _ (make_inv n m) Hs) as Hi.
  destruct (gone_dec s) as [G|L].
  - eapply inevitable_mono; [|apply (shutdown_inevitable (fun t => gone t /\ started t = started s) i (steps_left s) s (Stopping reset)); try easy].
    + intros t (A & B & C & u & [_ D] & F & _). split; [exact A|]. split; [exact B|]. split; [exact C|]. split; [|congruence]. intros (w & Hw & Hn). now destruct Hn; apply G.
    + intros t t' c _ _ _ [G' St] Ht. destruct (dead_step t t' G' Ht) as (E1 & E2 & _). split; [unfold gone; now rewrite E1|congruence].
  - eapply inevitable_mono; [|apply (shutdown_inevitable draining i (steps_left s) s (Stopping reset)); try easy].
    + intros t (A & B & C & u & D & _ & F). split; [exact A|]. split; [exact B|]. split; [exact C|]. split; [intros _; now apply F|]. intros G. destruct L as (w & Hw & Hn). now destruct Hn; apply G.
    + intros t t' c It Et Ec Dt Ht. now apply (draining_step t t' i c).
    + now right.
Qed.

(** After [clear] the pool accepts tasks again and never starts one: a
    state where the last join of [clear] is over leads to one that accepts any
    task, and from there nothing is ever started. *)
Theorem thread_pool_after_clear n m s i :
  rtc step (make n m) s -> callers s !! i = Some (Joining true (size s)) ->
  exists s1, act s s1 /\ callers s1 !! i = Some Outside /\ (forall t, is_Some (enqueue_section t s1))
  /\ forall s2, rtc step s1 s2 -> started s2 = started s1 /\ (accepted s1 `prefix_of` accepted s2).
Proof.
  intros Hs E. pose proof (tpool_steps_inv _ _ (make_inv n m) Hs) as Hi.
  eexists. split; [apply (act_close_end s i true _ E); reflexivity|]. split_and!.
  - apply list_lookup_insert_eq. now apply lookup_lt_Some in E.
  - intros t. eexists. reflexivity.
  - intros s2 Hs2. apply dead_steps in Hs2; [exact Hs2|]. cbn. apply (all_joined s i true Hi E).
Qed.
End TPool.

(** *** A pool of one worker and two callers *)

Definition demo_stopping : pool := Pool [Running 7] [8] true [Stopping true; Outside] [7; 8] [7] [].

Lemma demo_stopping_reached : rtc step (make 0 2) demo_stopping.
Proof.
  eapply rtc_l; [apply step_act; eapply (act_section _ 0); reflexivity|].
  eapply rtc_l; [apply step_act; eapply (act_enqueue _ _ 1 7); reflexivity|].
  eapply rtc_l; [apply step_act; eapply (act_notify _ 1 0); reflexivity|].
  eapply rtc_l; [apply step_act; eapply (act_section _ 0); reflexivity|].
  eapply rtc_l; [apply step_act; eapply (act_enqueue _ _ 1 8); reflexivity|].
  eapply rtc_l; [apply step_act; eapply (act_notify_none _ 1); [reflexivity|]|].
  { cbn. intros H. apply list_elem_of_singleton in H. discriminate. }
  eapply rtc_l; [apply step_act; eapply (act_stop _ 0 true); [reflexivity|]|].
  { cbn. intros c Hc. repeat (apply elem_of_cons in Hc as [->|Hc]; [reflexivity|]). now apply elem_of_nil in Hc. }
  apply rtc_refl.
Qed.

Definition demo_joining : pool := Pool [Joined] [] true [Joining true 1; Outside] [7; 8] [7; 8] [7; 8].

Lemma demo_joining_reached : rtc step (make 0 2) demo_joining.
Proof.
  etransitivity; [exact demo_stopping_reached|].
  eapply rtc_l; [apply step_act; eapply (act_notify_all _ 0); reflexivity|].
  eapply rtc_l; [apply step_act; eapply (act_task _ 0 7); reflexivity|].
  eapply rtc_l; [apply step_act; eapply (act_section _ 0); reflexivity|].
  eapply rtc_l; [apply step_act; eapply (act_task _ 0 8); reflexivity|].
  eapply rtc_l; [apply step_act; eapply (act_section _ 0); reflexivity|].
  eapply rtc_l; [apply step_act; eapply (act_join _ 0 true 0); reflexivity|]. apply rtc_refl.
Qed.

Definition demo_asleep : pool (Task := nat) := Pool [Sleeping] [] false [Outside; Outside] [] [] [].

Lemma demo_asleep_reached : rtc step (make 0 2) demo_asleep.
Proof. eapply rtc_l; [apply step_act; eapply (act_section _ 0); reflexivity|]. apply rtc_refl. Qed.

Lemma thread_pool_fifo_witness :
  accepted demo_stopping = started demo_stopping ++ _tasks demo_stopping
  /\ started demo_stopping ≡ₚ finished demo_stopping ++ running (_workers demo_stopping).
Proof. exact (thread_pool_fifo 0 2 demo_stopping demo_stopping_reached). Defined.

Lemma thread_pool_wakeups_witness :
  length (_tasks demo_asleep) <= n_checking (_workers demo_asleep) + n_notifying (callers demo_asleep)
  /\ (_is_stop demo_asleep = true -> exists i reset, callers demo_asleep !! i = Some (Stopping reset)).
Proof. apply (thread_pool_wakeups 0 2 demo_asleep demo_asleep_reached). now left. Defined.

Lemma thread_pool_shutdown_witness :
  inevitable (fun s' => callers s' !! 0 = Some Outside /\ gone s' /\ started s' ≡ₚ finished s' /\
    ((exists w, w ∈ _workers demo_stopping /\ w <> Joined) -> all_done s') /\ (gone demo_stopping -> started s' = started demo_stopping)) demo_stopping.
Proof. apply (thread_pool_shutdown 0 2 demo_stopping 0 true demo_stopping_reached). reflexivity. Defined.

Lemma thread_pool_after_clear_witness :
  exists s1, act demo_joining s1 /\ callers s1 !! 0 = Some Outside /\ (forall t, is_Some (enqueue_section t s1))
  /\ forall s2, rtc step s1 s2 -> started s2 = started s1 /\ (accepted s1 `prefix_of` accepted s2).
Proof. exact (thread_pool_after_clear 0 2 demo_joining 0 demo_joining_reached eq_refl). Defined.
End TPool.
