(* ===== verification/Matrix.v ===== *)
(** * Matrices and their iterators

    [math/matrix.hpp], [math/matrix_iterator.hpp] and
    [math/matrix_vertical_iterator.hpp]: a buffer of pointers to rows, allocated
    row by row, and the row-major and column-major random access iterators over
    it.  Sizes are non-negative [int]s.  [None] is undefined behaviour: an
    access outside an allocation or through a pointer never set, the read of an
    element never written, a division by zero, an [int] overflow. *)

From Stdlib Require Import ZArith Lia List Bool.
From stdpp Require Import base tactics list option.
From S2P Require Import Prelude.

Open Scope hj_scope.
Open Scope nat_scope.

Module Matrix.

(** A product of [int]s. *)
Definition int_mul (a b : Z) : option Z := if (a * b <? 2 ^ 31)%Z then Some (a * b)%Z else None.

(** A loop that returns false on the first failure of its test. *)
Fixpoint all_up (f : nat -> option bool) (lo n : nat) : option bool :=
  match n with
  | O => Some true
  | S n => let* b := f lo in if negb b then Some false else all_up f (S lo) n
  end.

Lemma all_up_spec f (p : nat -> bool) lo n : (forall i, lo <= i < lo + n -> f i = Some (p i)) ->
  exists b, all_up f lo n = Some b /\ (b = true <-> forall i, lo <= i < lo + n -> p i = true).
Proof.
  revert lo. induction n as [|n IH]; intros lo Hf; cbn [all_up].
  - exists true. split; [reflexivity|]. split; [intros _ i Hi; lia|reflexivity].
  - rewrite (Hf lo) by lia. destruct (p lo) eqn:Ep; cbn [negb].
    + destruct (IH (S lo)) as (b & E & Hb); [intros i Hi; apply Hf; lia|]. exists b. split; [exact E|]. rewrite Hb. split.
      * intros H i Hi. destruct (decide (i = lo)) as [->|]; [exact Ep|apply H; lia].
      * intros H i Hi. apply H. lia.
    + exists false. split; [reflexivity|]. split; [discriminate|]. intros H. specialize (H lo ltac:(lia)). congruence.
Qed.

Section Matrix.
(** [fresh]: what [new T] leaves in an element (nothing for the plain types). *)
Context {T : Type} (fresh : option T).

(** ** Data *)

(** The array of row pointers, each unset or an array of elements. *)
#[local] Abbreviation buffer := (list (option (list (option T)))).
Record matrix := Mat { _buf : buffer; _row_n : nat; _col_n : nat }.

(** [buf[row][col]] *)
Definition read (b : buffer) (row col : nat) : option T :=
  let* p := b !! row in let* r := p in let* c := r !! col in c.
Definition write (row col : nat) (v : T) (b : buffer) : option buffer :=
  let* p := b !! row in let* r := p in
  if col <? length r then Some (<[row := Some (<[col := Some v]> r)]> b) else None.

(** ** Private operations *)

Definition create (row_n col_n : nat) : option buffer :=
  for_up (fun row bak =>
      if row <? length bak then Some (<[row := Some (replicate col_n fresh)]> bak) else None)
    0 row_n (replicate col_n None).

(** [delete[] buf[row]] for each row. *)
Definition clean (row_n : nat) (b : buffer) : option unit :=
  for_up (fun row u => let* p := b !! row in let* _ := p in Some u) 0 row_n tt.

(** The two loops over a rectangle. *)
Definition for_cells {A} (row_n col_n : nat) (f : nat -> nat -> A -> option A) : A -> option A :=
  for_up (fun row => for_up (f row) 0 col_n) 0 row_n.

(** [rhs] reads the container. *)
Definition copy_from (rhs : nat -> nat -> option T) (row_n col_n : nat) (m : matrix) : option matrix :=
  let row_n := if _row_n m <? row_n then _row_n m else row_n in
  let col_n := if _col_n m <? col_n then _col_n m else col_n in
  let* b := for_cells row_n col_n (fun row col b => let* v := rhs row col in write row col v b) (_buf m) in
  Some (Mat b (_row_n m) (_col_n m)).
Definition copy_from_matrix (rhs : matrix) (m : matrix) : option matrix :=
  let* b := for_cells (_row_n m) (_col_n m)
      (fun row col b => let* v := read (_buf rhs) row col in write row col v b) (_buf m) in
  Some (Mat b (_row_n m) (_col_n m)).

Definition size (m : matrix) : option Z := int_mul (Z.of_nat (_row_n m)) (Z.of_nat (_col_n m)).

(** Once [n] is 0 the function returns, that is, nothing more is written. *)
Definition copy_n (value : T) (n : Z) (m : matrix) : option matrix :=
  let* sz := size m in
  let n := (if (-1 <? n) && (n <=? sz) then n else sz)%Z in
  let* (b, _) := for_cells (_row_n m) (_col_n m)
      (fun row col '(b, n) =>
         if (n =? 0)%Z then Some (b, n) else let* b := write row col value b in Some (b, (n - 1)%Z))
      (_buf m, n) in
  Some (Mat b (_row_n m) (_col_n m)).

(** ** Constructors and assignment *)

Definition make (row_n col_n : nat) : option matrix :=
  let* b := create row_n col_n in Some (Mat b row_n col_n).
Definition make0 : option matrix := make 0 0.
Definition make_value (row_n col_n : nat) (value : T) : option matrix :=
  let* m := make row_n col_n in copy_n value (-1) m.
(** From a vector of vectors, whose indexing is unchecked. *)
Definition make_from (v : list (list T)) : option matrix :=
  let row_n := length v in
  let col_n := match v with [] => 0 | r :: _ => length r end in
  let* m := make row_n col_n in
  copy_from (fun row col => let* r := v !! row in r !! col) row_n col_n m.
Definition make_copy (rhs : matrix) : option matrix :=
  let* m := make (_row_n rhs) (_col_n rhs) in copy_from_matrix rhs m.
Definition destroy (m : matrix) : option unit := clean (_row_n m) (_buf m).
(** [self]: whether the argument is the object itself. *)
Definition assign (self : bool) (rhs m : matrix) : option matrix :=
  if self then Some m else
  let* _ := clean (_row_n m) (_buf m) in make_copy rhs.

(** ** Access *)

Definition get (m : matrix) (row col : nat) : option T := read (_buf m) row col.
Definition set (row col : nat) (v : T) (m : matrix) : option matrix :=
  let* b := write row col v (_buf m) in Some (Mat b (_row_n m) (_col_n m)).
(** [at]: none is the exception; otherwise the element referred to. *)
Definition at_ (m : matrix) (row col : Z) : option (nat * nat) :=
  if ((row <? 0) || (Z.of_nat (_row_n m) <=? row) || (col <? 0) || (Z.of_nat (_col_n m) <=? col))%Z
  then None else Some (Z.to_nat row, Z.to_nat col).

Definition eqb (eqT : T -> T -> bool) (a b : matrix) : option bool :=
  if negb (_row_n a =? _row_n b) || negb (_col_n a =? _col_n b) then Some false else
  all_up (fun row => all_up (fun col =>
      let* x := get a row col in let* y := get b row col in Some (eqT x y)) 0 (_col_n a)) 0 (_row_n a).
Definition neqb (eqT : T -> T -> bool) (a b : matrix) : option bool := let* r := eqb eqT a b in Some (negb r).

Definition resize (row_n col_n : nat) (m : matrix) : option ((nat * nat) * matrix) :=
  let* b := create row_n col_n in
  let* m' := copy_from (read (_buf m)) row_n col_n (Mat b (_row_n m) (_col_n m)) in
  let* _ := clean (_row_n m) (_buf m) in
  Some ((row_n, col_n), Mat (_buf m') row_n col_n).

Definition row_n (m : matrix) : nat := _row_n m.
Definition col_n (m : matrix) : nat := _col_n m.

(** ** What a matrix holds *)

(** Each row is allocated at full length, and its cells are those of [f]. *)
Definition rows_hold (b : buffer) (row_n col_n : nat) (f : nat -> nat -> option T) : Prop :=
  forall row, row < row_n -> exists r, b !! row = Some (Some r) /\ length r = col_n
    /\ forall col, col < col_n -> r !! col = Some (f row col).
Definition holds (m : matrix) (f : nat -> nat -> option T) : Prop :=
  rows_hold (_buf m) (_row_n m) (_col_n m) f /\ _row_n m <= _col_n m.

Lemma read_element_holds b rn cn f row col : rows_hold b rn cn f -> row < rn -> col < cn -> read b row col = f row col.
Proof. intros H Hr Hc. destruct (H row Hr) as (r & E & _ & Hf). unfold read. now rewrite E, (Hf col Hc). Qed.

Lemma write_holds b rn cn f row col v : rows_hold b rn cn f -> row < rn -> col < cn ->
  exists b', write row col v b = Some b'
    /\ rows_hold b' rn cn (fun i j => if decide (i = row /\ j = col) then Some v else f i j).
Proof.
  intros H Hr Hc. destruct (H row Hr) as (r & E & El & Hf). unfold write. rewrite E.
  replace (col <? length r) with true by (symmetry; apply Nat.ltb_lt; lia).
  eexists. split; [reflexivity|]. intros i Hi. destruct (decide (i = row)) as [->|Hne].
  - exists (<[col := Some v]> r). rewrite list_lookup_insert_eq by (now apply lookup_lt_Some in E).
    rewrite length_insert. split_and!; [reflexivity|exact El|]. intros j Hj. destruct (decide (j = col)) as [->|Hjc].
    + rewrite list_lookup_insert_eq by lia. now rewrite decide_True.
    + rewrite list_lookup_insert_ne by congruence. rewrite decide_False by tauto. now apply Hf.
  - destruct (H i Hi) as (r' & E' & El' & Hf'). exists r'. rewrite list_lookup_insert_ne by congruence.
    split_and!; [exact E'|exact El'|]. intros j Hj. rewrite decide_False by tauto. now apply Hf'.
Qed.

Lemma rows_hold_ext b rn cn f g : (forall i j, i < rn -> j < cn -> f i j = g i j) -> rows_hold b rn cn f -> rows_hold b rn cn g.
Proof.
  intros Hfg H i Hi. destruct (H i Hi) as (r & E & El & Hf). exists r. split_and!; [exact E|exact El|].
  intros j Hj. rewrite <- Hfg by assumption. now apply Hf.
Qed.

Lemma create_matrix_spec rn cn : rn <= cn ->
  exists b, create rn cn = Some b /\ rows_hold b rn cn (fun _ _ => fresh).
Proof.
  intros Hle. unfold create.
  destruct (for_up_inv (fun k b => length b = cn /\ rows_hold b k cn (fun _ _ => fresh))
    (fun row bak => if row <? length bak then Some (<[row := Some (replicate cn fresh)]> bak) else None)
    0 rn (replicate cn None)) as (b & E & _ & H).
  - split; [apply length_replicate|]. intros row Hr. lia.
  - intros row b Hrow [El H]. replace (row <? length b) with true by (symmetry; apply Nat.ltb_lt; lia).
    eexists. split; [reflexivity|]. split; [now rewrite length_insert|]. intros i Hi.
    destruct (decide (i = row)) as [->|Hne].
    + exists (replicate cn fresh). rewrite list_lookup_insert_eq by lia. split_and!; [reflexivity|apply length_replicate|].
      intros j Hj. now apply lookup_replicate_2.
    + destruct (H i ltac:(lia)) as (r & E' & H'). exists r. now rewrite list_lookup_insert_ne by congruence.
  - exists b. split; [exact E|exact H].
Qed.

(** The pointer array has one slot per column, not per row. *)
Lemma create_overflow rn cn : cn < rn -> create rn cn = None.
Proof.
  intros Hlt. unfold create.
  assert (Hgen : forall k lo b, length b = cn -> lo <= cn < lo + k ->
    for_up (fun row bak => if row <? length bak then Some (<[row := Some (replicate cn fresh)]> bak) else None) lo k b = None).
  { induction k as [|k IH]; intros lo b Hb Hk; [lia|]. cbn [for_up]. rewrite Hb.
    destruct (Nat.ltb_spec lo cn); [|reflexivity]. apply IH; [now rewrite length_insert|lia]. }
  apply Hgen; [apply length_replicate|lia].
Qed.

Lemma clean_spec b rn cn f : rows_hold b rn cn f -> clean rn b = Some tt.
Proof.
  intros H. unfold clean.
  destruct (for_up_inv (fun _ _ => True) (fun row u => let* p := b !! row in let* _ := p in Some u) 0 rn tt I)
    as ([] & E & _); [|exact E].
  intros row [] Hrow _. destruct (H row ltac:(lia)) as (r & -> & _). eauto.
Qed.

(** ** The loops over a rectangle *)

Lemma for_cells_inv {A} (Inv : nat -> nat -> A -> Prop) (rn cn : nat) f s :
  Inv 0 0 s ->
  (forall row col s, row < rn -> col < cn -> Inv row col s -> exists s', f row col s = Some s' /\ Inv row (S col) s') ->
  (forall row s, row < rn -> Inv row cn s -> Inv (S row) 0 s) ->
  exists s', for_cells rn cn f s = Some s' /\ Inv rn 0 s'.
Proof.
  intros H0 Hf Hnext. unfold for_cells.
  destruct (for_up_inv (fun row s => Inv row 0 s) (fun row => for_up (f row) 0 cn) 0 rn s H0) as (s' & E & H); [|eauto].
  intros row t Hrow Ht.
  destruct (for_up_inv (fun col s => Inv row col s) (f row) 0 cn t Ht) as (t' & -> & Ht').
  - intros col u Hcol Hu. apply Hf; [lia|lia|exact Hu].
  - exists t'. split; [reflexivity|]. apply Hnext; [lia|exact Ht'].
Qed.

(** Cells visited before the position [(row, col)]. *)
Definition before (row col i j : nat) : bool := (i <? row) || ((i =? row) && (j <? col)).

Lemma before_next row col i j : before row (S col) i j = before row col i j || ((i =? row) && (j =? col)).
Proof.
  unfold before. destruct (Nat.ltb_spec i row), (Nat.eqb_spec i row), (Nat.ltb_spec j (S col)), (Nat.ltb_spec j col), (Nat.eqb_spec j col); cbn; try reflexivity; lia.
Qed.

Lemma before_row row cn i j : j < cn -> before row cn i j = before (S row) 0 i j.
Proof.
  intros Hj. unfold before. destruct (Nat.ltb_spec i row), (Nat.ltb_spec i (S row)), (Nat.eqb_spec i row), (Nat.ltb_spec j cn); cbn; try lia;
  try reflexivity; destruct (i =? S row); reflexivity.
Qed.

(** Filling the first [rn'] rows up to column [cn'] from [src]. *)
Definition overlay (rn cn : nat) (g : nat -> nat -> option T) (f : nat -> nat -> option T) (i j : nat) : option T :=
  if (i <? rn) && (j <? cn) then g i j else f i j.

Lemma fill_spec src g b f rn cn rn' cn' : rows_hold b rn cn f -> rn' <= rn -> cn' <= cn ->
  (forall i j, i < rn' -> j < cn' -> src i j = g i j /\ is_Some (g i j)) ->
  exists b', for_cells rn' cn' (fun row col b => let* v := src row col in write row col v b) b = Some b'
    /\ rows_hold b' rn cn (overlay rn' cn' g f).
Proof.
  intros Hb Hr Hc Hsrc.
  destruct (for_cells_inv (fun row col b => rows_hold b rn cn (fun i j =>
        if before row col i j && (j <? cn') then g i j else f i j)) rn' cn'
      (fun row col b => let* v := src row col in write row col v b) b) as (b' & E & H).
  - eapply rows_hold_ext; [|exact Hb]. intros i j Hi Hj. unfold before. cbn. now destruct (i =? 0).
  - intros row col c Hrow Hcol H. destruct (Hsrc row col Hrow Hcol) as [-> [w Ew]]. rewrite Ew.
    destruct (write_holds c rn cn _ row col w H ltac:(lia) ltac:(lia)) as (c' & E & H').
    exists c'. split; [exact E|]. eapply rows_hold_ext; [|exact H']. intros i j Hi Hj. cbv beta.
    rewrite before_next. destruct (decide (i = row /\ j = col)) as [[-> ->]|Hne].
    + rewrite !Nat.eqb_refl, orb_true_r, Ew. now replace (col <? cn') with true by (symmetry; apply Nat.ltb_lt; lia).
    + replace ((i =? row) && (j =? col)) with false; [now rewrite orb_false_r|].
      symmetry. apply andb_false_iff. rewrite !Nat.eqb_neq. lia.
  - intros row c Hrow H. eapply rows_hold_ext; [|exact H]. intros i j Hi Hj. cbv beta.
    destruct (Nat.ltb_spec j cn'); [now rewrite (before_row row cn')|]. now rewrite !andb_false_r.
  - exists b'. split; [exact E|]. eapply rows_hold_ext; [|exact H]. intros i j Hi Hj. unfold overlay, before. cbv beta.
    replace ((i <? rn') || (i =? rn') && (j <? 0)) with (i <? rn') by (cbn; rewrite andb_false_r; now rewrite orb_false_r).
    reflexivity.
Qed.

(** [value] everywhere. *)
Lemma copy_n_spec value m f : holds m f -> (Z.of_nat (_row_n m) * Z.of_nat (_col_n m) < 2 ^ 31)%Z ->
  exists m', copy_n value (-1) m = Some m' /\ holds m' (fun _ _ => Some value)
    /\ _row_n m' = _row_n m /\ _col_n m' = _col_n m.
Proof.
  intros [Hb Hle] Hsz. unfold copy_n, size, int_mul. replace (_ <? 2 ^ 31)%Z with true by (symmetry; now apply Z.ltb_lt).
  cbn [Z.ltb Z.compare Pos.compare Pos.compare_cont CompOpp andb].
  set (rn := _row_n m) in *. set (cn := _col_n m) in *.
  destruct (for_cells_inv (fun row col '(b, n) =>
      n = ((Z.of_nat rn - Z.of_nat row) * Z.of_nat cn - Z.of_nat col)%Z
      /\ rows_hold b rn cn (fun i j => if before row col i j then Some value else f i j)) rn cn
      (fun row col '(b, n) => if (n =? 0)%Z then Some (b, n) else let* b := write row col value b in Some (b, (n - 1)%Z))
      (_buf m, (Z.of_nat rn * Z.of_nat cn)%Z)) as ([b n] & E & _ & H).
  - split; [lia|]. eapply rows_hold_ext; [|exact Hb]. intros i j Hi Hj. unfold before. cbn. now destruct (i =? 0).
  - intros row col [b n] Hrow Hcol [-> H]. replace (_ =? 0)%Z with false by (symmetry; apply Z.eqb_neq; nia).
    destruct (write_holds b rn cn _ row col value H Hrow Hcol) as (b' & -> & H').
    eexists. split; [reflexivity|]. split; [lia|]. eapply rows_hold_ext; [|exact H']. intros i j Hi Hj. cbv beta.
    rewrite before_next. destruct (decide (i = row /\ j = col)) as [[-> ->]|Hne].
    + now rewrite !Nat.eqb_refl, orb_true_r.
    + replace ((i =? row) && (j =? col)) with false; [now rewrite orb_false_r|].
      symmetry. apply andb_false_iff. rewrite !Nat.eqb_neq. lia.
  - intros row [b n] Hrow [-> H]. split; [lia|]. eapply rows_hold_ext; [|exact H]. intros i j Hi Hj. cbv beta.
    now rewrite before_row.
  - rewrite E. eexists. split; [reflexivity|]. split_and!; [|reflexivity|reflexivity]. split; [|exact Hle].
    cbn [_buf _row_n _col_n]. eapply rows_hold_ext; [|exact H]. intros i j Hi Hj. unfold before.
    now replace (i <? rn) with true by (symmetry; now apply Nat.ltb_lt).
Qed.

(** ** The operations *)

Lemma make_spec rn cn : rn <= cn -> exists m, make rn cn = Some m /\ holds m (fun _ _ => fresh)
  /\ _row_n m = rn /\ _col_n m = cn.
Proof.
  intros Hle. unfold make. destruct (create_matrix_spec rn cn Hle) as (b & -> & Hb).
  eexists. split; [reflexivity|]. split_and!; [split; [exact Hb|exact Hle]|reflexivity|reflexivity].
Qed.

Lemma copy_from_spec src g m f rn cn : holds m f ->
  (forall i j, i < Nat.min (_row_n m) rn -> j < Nat.min (_col_n m) cn -> src i j = g i j /\ is_Some (g i j)) ->
  exists m', copy_from src rn cn m = Some m' /\ _row_n m' = _row_n m /\ _col_n m' = _col_n m
    /\ holds m' (overlay (Nat.min (_row_n m) rn) (Nat.min (_col_n m) cn) g f).
Proof.
  intros [Hb Hle] Hsrc. unfold copy_from.
  replace (if _row_n m <? rn then _row_n m else rn) with (Nat.min (_row_n m) rn) by (destruct (Nat.ltb_spec (_row_n m) rn); lia).
  replace (if _col_n m <? cn then _col_n m else cn) with (Nat.min (_col_n m) cn) by (destruct (Nat.ltb_spec (_col_n m) cn); lia).
  destruct (fill_spec src g (_buf m) f (_row_n m) (_col_n m) _ _ Hb (Nat.le_min_l _ _) (Nat.le_min_l _ _) Hsrc) as (b' & -> & Hb').
  eexists. split; [reflexivity|]. split_and!; [reflexivity|reflexivity|]. split; [exact Hb'|exact Hle].
Qed.

(** The cells of the first rows and columns are set. *)
Definition all_set (rn cn : nat) (f : nat -> nat -> option T) : Prop := forall i j, i < rn -> j < cn -> is_Some (f i j).

Lemma make_copy_spec m g : holds m g -> all_set (_row_n m) (_col_n m) g ->
  exists m', make_copy m = Some m' /\ holds m' g
    /\ _row_n m' = _row_n m /\ _col_n m' = _col_n m.
Proof.
  intros [Hb Hle] Hset. unfold make_copy. destruct (make_spec (_row_n m) (_col_n m) Hle) as (m0 & -> & [Hb0 _] & Hr & Hc).
  unfold copy_from_matrix. rewrite Hr, Hc in *.
  destruct (fill_spec (read (_buf m)) g (_buf m0) _ (_row_n m) (_col_n m) (_row_n m) (_col_n m) Hb0 (le_n _) (le_n _)) as (b & -> & Hb').
  - intros i j Hi Hj. split; [now apply (read_element_holds _ _ _ _ _ _ Hb)|now apply Hset].
  - eexists. split; [reflexivity|]. split_and!; [|reflexivity|reflexivity]. split; [|exact Hle]. cbn [_buf _row_n _col_n].
    eapply rows_hold_ext; [|exact Hb']. intros i j Hi Hj. unfold overlay.
    replace (i <? _row_n m) with true by (symmetry; now apply Nat.ltb_lt).
    now replace (j <? _col_n m) with true by (symmetry; now apply Nat.ltb_lt).
Qed.

Lemma get_holds m f row col : holds m f -> row < _row_n m -> col < _col_n m -> get m row col = f row col.
Proof. intros [Hb _]. now apply (read_element_holds (_buf m) (_row_n m) (_col_n m)). Qed.

Lemma set_spec m f row col v : holds m f -> row < _row_n m -> col < _col_n m ->
  exists m', set row col v m = Some m' /\ _row_n m' = _row_n m /\ _col_n m' = _col_n m
    /\ holds m' (fun i j => if decide (i = row /\ j = col) then Some v else f i j).
Proof.
  intros [Hb Hle] Hr Hc. unfold set. destruct (write_holds _ _ _ _ row col v Hb Hr Hc) as (b' & -> & Hb').
  eexists. split; [reflexivity|]. split_and!; [reflexivity|reflexivity|]. now split.
Qed.

Lemma resize_spec rn cn m g : holds m g -> rn <= cn -> all_set (Nat.min (_row_n m) rn) (Nat.min (_col_n m) cn) g ->
  exists m', resize rn cn m = Some ((rn, cn), m') /\ _row_n m' = rn /\ _col_n m' = cn
    /\ holds m' (overlay (_row_n m) (_col_n m) g (fun _ _ => fresh)).
Proof.
  intros [Hb Hle] Hrc Hset. unfold resize. destruct (create_matrix_spec rn cn Hrc) as (b0 & -> & Hb0).
  unfold copy_from. cbn [_row_n _col_n _buf].
  replace (if _row_n m <? rn then _row_n m else rn) with (Nat.min (_row_n m) rn) by (destruct (Nat.ltb_spec (_row_n m) rn); lia).
  replace (if _col_n m <? cn then _col_n m else cn) with (Nat.min (_col_n m) cn) by (destruct (Nat.ltb_spec (_col_n m) cn); lia).
  destruct (fill_spec (read (_buf m)) g b0 _ rn cn (Nat.min (_row_n m) rn) (Nat.min (_col_n m) cn) Hb0 (Nat.le_min_r _ _) (Nat.le_min_r _ _)) as (b & -> & Hb').
  { intros i j Hi Hj. split; [apply (read_element_holds _ _ _ _ _ _ Hb); lia|now apply Hset]. }
  rewrite (clean_spec _ _ _ _ Hb). eexists. split; [reflexivity|]. split_and!; [reflexivity|reflexivity|].
  split; [|exact Hrc]. cbn [_buf _row_n _col_n]. eapply rows_hold_ext; [|exact Hb']. intros i j Hi Hj. unfold overlay.
  destruct (Nat.ltb_spec i (_row_n m)), (Nat.ltb_spec j (_col_n m)), (Nat.ltb_spec i (Nat.min (_row_n m) rn)), (Nat.ltb_spec j (Nat.min (_col_n m) cn)); cbn; try reflexivity; lia.
Qed.
End Matrix.
End Matrix.

(** ** Iterators *)

(** [++_offset] and [--_offset] on [int], and the conversion of a
    [ptrdiff_t] to [int]. *)
Definition int_succ (z : Z) : option Z := if (z + 1 <? 2 ^ 31)%Z then Some (z + 1)%Z else None.
Definition int_pred (z : Z) : option Z := if (- 2 ^ 31 <=? z - 1)%Z then Some (z - 1)%Z else None.
Definition to_int (z : Z) : Z := sint_of 32 z.
(** [/] and [%] *)
Definition int_div (a b : Z) : option Z := if (b =? 0)%Z then None else Some (Z.quot a b).
Definition int_rem (a b : Z) : option Z := if (b =? 0)%Z then None else Some (Z.rem a b).

(** [matrix_iterator<matrix<T>, T>]; [_mat] is the address of the matrix. *)
Module Iter.
Record iterator := It { _mat : nat; _offset : Z; _n_row : Z; _n_col : Z }.

Definition row (it : iterator) : option Z := int_div (_offset it) (_n_col it).
Definition col (it : iterator) : option Z := int_rem (_offset it) (_n_col it).
(** The element referred to; a negative index is out of the array. *)
Definition deref {T} (m : Matrix.matrix (T := T)) (it : iterator) : option T :=
  let* r := row it in let* c := col it in
  if (r <? 0)%Z || (c <? 0)%Z then None else Matrix.get m (Z.to_nat r) (Z.to_nat c).
Definition with_offset (it : iterator) (o : Z) : iterator := It (_mat it) o (_n_row it) (_n_col it).
Definition pre_inc (it : iterator) : option iterator := let* o := int_succ (_offset it) in Some (with_offset it o).
Definition post_inc (it : iterator) : option (iterator * iterator) := let* it' := pre_inc it in Some (it, it').
Definition pre_dec (it : iterator) : option iterator := let* o := int_pred (_offset it) in Some (with_offset it o).
Definition post_dec (it : iterator) : option (iterator * iterator) := let* it' := pre_dec it in Some (it, it').
Definition plus (it : iterator) (n : Z) : iterator := with_offset it (to_int (_offset it + n)).
Definition plus_assign (n : Z) (it : iterator) : iterator := with_offset it (to_int (_offset it + n)).
Definition minus (it : iterator) (n : Z) : iterator := with_offset it (to_int (_offset it - n)).
Definition minus_assign (n : Z) (it : iterator) : iterator := with_offset it (to_int (_offset it - n)).
Definition distance (a b : iterator) : option Z :=
  let d := (_offset a - _offset b)%Z in
  if ((- 2 ^ 31 <=? d) && (d <? 2 ^ 31))%Z then Some d else None.
Definition eqb (a b : iterator) : bool := (_mat a =? _mat b) && (_offset a =? _offset b)%Z.
Definition neqb (a b : iterator) : bool := negb (eqb a b).
Definition ltb (a b : iterator) : bool := (_offset a <? _offset b)%Z.
Definition gtb (a b : iterator) : bool := (_offset b <? _offset a)%Z.
Definition leb (a b : iterator) : bool := (_offset a <=? _offset b)%Z.
Definition geb (a b : iterator) : bool := (_offset b <=? _offset a)%Z.

(** [begin], [end] and [find] of the matrix at address [addr]. *)
Section Of.
Context {T : Type} (addr : nat) (m : Matrix.matrix (T := T)).
Definition begin_ : iterator := It addr 0 (Z.of_nat (Matrix.row_n m)) (Z.of_nat (Matrix.col_n m)).
Definition end_ : option iterator :=
  let* o := Matrix.int_mul (Z.of_nat (Matrix.row_n m)) (Z.of_nat (Matrix.col_n m)) in
  Some (It addr o (Z.of_nat (Matrix.row_n m)) (Z.of_nat (Matrix.col_n m))).
Definition find (r c : nat) : option iterator :=
  let* o := Matrix.int_mul (Z.of_nat r) (Z.of_nat (Matrix.col_n m)) in
  if (o + Z.of_nat c <? 2 ^ 31)%Z
  then Some (It addr (o + Z.of_nat c) (Z.of_nat (Matrix.row_n m)) (Z.of_nat (Matrix.col_n m))) else None.
End Of.

(** [for(it = begin(); it != end(); ++it)]: the elements visited. *)
Fixpoint traverse {T} (fuel : nat) (m : Matrix.matrix (T := T)) (it last : iterator) : option (list T) :=
  if negb (neqb it last) then Some [] else
  match fuel with
  | O => None
  | S fuel =>
      let* x := deref m it in let* it := pre_inc it in
      let* l := traverse fuel m it last in Some (x :: l)
  end.
End Iter.

(** [matrix_vertical_iterator<matrix<T>, T>] *)
Module VIter.
Record iterator := It { _mat : nat; _offset : Z; _n_row : Z; _n_col : Z }.

Definition row (it : iterator) : option Z := int_rem (_offset it) (_n_row it).
Definition col (it : iterator) : option Z := int_div (_offset it) (_n_row it).
(** The element referred to; a negative index is out of the array. *)
Definition deref {T} (m : Matrix.matrix (T := T)) (it : iterator) : option T :=
  let* c := col it in let* r := row it in
  if (r <? 0)%Z || (c <? 0)%Z then None else Matrix.get m (Z.to_nat r) (Z.to_nat c).
Definition with_offset (it : iterator) (o : Z) : iterator := It (_mat it) o (_n_row it) (_n_col it).
Definition pre_inc (it : iterator) : option iterator := let* o := int_succ (_offset it) in Some (with_offset it o).
Definition post_inc (it : iterator) : option (iterator * iterator) := let* it' := pre_inc it in Some (it, it').
Definition pre_dec (it : iterator) : option iterator := let* o := int_pred (_offset it) in Some (with_offset it o).
Definition post_dec (it : iterator) : option (iterator * iterator) := let* it' := pre_dec it in Some (it, it').
Definition plus (it : iterator) (n : Z) : iterator := with_offset it (to_int (_offset it + n)).
Definition plus_assign (n : Z) (it : iterator) : iterator := with_offset it (to_int (_offset it + n)).
Definition minus (it : iterator) (n : Z) : iterator := with_offset it (to_int (_offset it - n)).
Definition minus_assign (n : Z) (it : iterator) : iterator := with_offset it (to_int (_offset it - n)).
Definition distance (a b : iterator) : option Z :=
  let d := (_offset a - _offset b)%Z in
  if ((- 2 ^ 31 <=? d) && (d <? 2 ^ 31))%Z then Some d else None.
Definition eqb (a b : iterator) : bool := (_mat a =? _mat b) && (_offset a =? _offset b)%Z.
Definition neqb (a b : iterator) : bool := negb (eqb a b).
Definition ltb (a b : iterator) : bool := (_offset a <? _offset b)%Z.
Definition gtb (a b : iterator) : bool := (_offset b <? _offset a)%Z.
Definition leb (a b : iterator) : bool := (_offset a <=? _offset b)%Z.
Definition geb (a b : iterator) : bool := (_offset b <=? _offset a)%Z.

(** [vbegin], [vend] and [vfind] of the matrix at address [addr]. *)
Section Of.
Context {T : Type} (addr : nat) (m : Matrix.matrix (T := T)).
Definition vbegin : iterator := It addr 0 (Z.of_nat (Matrix.row_n m)) (Z.of_nat (Matrix.col_n m)).
Definition vend : option iterator :=
  let* o := Matrix.int_mul (Z.of_nat (Matrix.col_n m)) (Z.of_nat (Matrix.row_n m)) in
  Some (It addr o (Z.of_nat (Matrix.row_n m)) (Z.of_nat (Matrix.col_n m))).
Definition vfind (r c : nat) : option iterator :=
  let* o := Matrix.int_mul (Z.of_nat c) (Z.of_nat (Matrix.row_n m)) in
  if (o + Z.of_nat r <? 2 ^ 31)%Z
  then Some (It addr (o + Z.of_nat r) (Z.of_nat (Matrix.row_n m)) (Z.of_nat (Matrix.col_n m))) else None.
End Of.

(** [for(it = vbegin(); it != vend(); ++it)]: the elements visited. *)
Fixpoint traverse {T} (fuel : nat) (m : Matrix.matrix (T := T)) (it last : iterator) : option (list T) :=
  if negb (neqb it last) then Some [] else
  match fuel with
  | O => None
  | S fuel =>
      let* x := deref m it in let* it := pre_inc it in
      let* l := traverse fuel m it last in Some (x :: l)
  end.
End VIter.

(** ** Traversals *)

Lemma map_seq_shift {A} (f : nat -> A) k a n : map f (seq (k + a) n) = map (fun j => f (k + j)) (seq a n).
Proof.
  revert a. induction n as [|n IH]; intros a; cbn [seq map]; [reflexivity|]. f_equal.
  now rewrite <- IH, Nat.add_succ_r.
Qed.

(** Positions in row-major order. *)
Lemma grid_positions {A} (h : nat -> nat -> A) rn cn :
  map (fun o => h (o / cn) (o mod cn)) (seq 0 (rn * cn)) = flat_map (fun i => map (h i) (seq 0 cn)) (seq 0 rn).
Proof.
  destruct (decide (cn = 0)) as [->|Hcn].
  { rewrite Nat.mul_0_r. cbn. induction (seq 0 rn); [reflexivity|assumption]. }
  induction rn as [|rn IH]; [reflexivity|].
  replace (S rn * cn) with (rn * cn + cn) by lia. rewrite seq_app, map_app, IH, seq_S, flat_map_app.
  apply (f_equal (app _)). cbn [flat_map Nat.add]. rewrite app_nil_r.
  replace (rn * cn) with (rn * cn + 0) by lia. rewrite map_seq_shift.
  apply map_ext_in. intros j Hj. apply in_seq in Hj. cbv beta.
  rewrite Nat.add_comm, Nat.div_add, Nat.Div0.mod_add by lia. now rewrite Nat.div_small, Nat.mod_small by lia.
Qed.

Lemma quot_nat a b : b <> 0 -> int_div (Z.of_nat a) (Z.of_nat b) = Some (Z.of_nat (a / b)).
Proof.
  intros Hb. unfold int_div. replace (_ =? 0)%Z with false by (symmetry; apply Z.eqb_neq; lia).
  f_equal. rewrite Z.quot_div_nonneg by lia. symmetry. apply Nat2Z.inj_div.
Qed.
Lemma rem_nat a b : b <> 0 -> int_rem (Z.of_nat a) (Z.of_nat b) = Some (Z.of_nat (a mod b)).
Proof.
  intros Hb. unfold int_rem. replace (_ =? 0)%Z with false by (symmetry; apply Z.eqb_neq; lia).
  f_equal. rewrite Z.rem_mod_nonneg by lia. symmetry. apply Nat2Z.inj_mod.
Qed.

Section Traversals.
Context {T : Type} (addr : nat) (m : Matrix.matrix (T := T)) (g : nat -> nat -> T).
Context (Hm : Matrix.holds m (fun i j => Some (g i j))).
#[local] Abbreviation rn := (Matrix._row_n m).
#[local] Abbreviation cn := (Matrix._col_n m).

Lemma iter_deref o : o < rn * cn ->
  Iter.deref m (Iter.It addr (Z.of_nat o) (Z.of_nat rn) (Z.of_nat cn)) = Some (g (o / cn) (o mod cn)).
Proof.
  intros Ho. assert (Hc : cn <> 0) by lia. unfold Iter.deref, Iter.row, Iter.col. cbn [Iter._offset Iter._n_col].
  rewrite quot_nat, rem_nat by assumption. decide_cmps. cbn [orb]. rewrite !Nat2Z.id.
  apply (Matrix.get_holds m _ _ _ Hm); [apply Nat.Div0.div_lt_upper_bound; lia|apply Nat.mod_upper_bound; lia].
Qed.

Lemma viter_deref o : o < rn * cn ->
  VIter.deref m (VIter.It addr (Z.of_nat o) (Z.of_nat rn) (Z.of_nat cn)) = Some (g (o mod rn) (o / rn)).
Proof.
  intros Ho. assert (Hc : rn <> 0) by lia. unfold VIter.deref, VIter.row, VIter.col. cbn [VIter._offset VIter._n_row].
  rewrite quot_nat, rem_nat by assumption. decide_cmps. cbn [orb]. rewrite !Nat2Z.id.
  apply (Matrix.get_holds m _ _ _ Hm); [apply Nat.mod_upper_bound; lia|apply Nat.Div0.div_lt_upper_bound; lia].
Qed.

Lemma iter_traverse n o fuel : o + n = rn * cn -> n <= fuel -> (Z.of_nat (rn * cn) < 2 ^ 31)%Z ->
  Iter.traverse fuel m (Iter.It addr (Z.of_nat o) (Z.of_nat rn) (Z.of_nat cn))
    (Iter.It addr (Z.of_nat (rn * cn)) (Z.of_nat rn) (Z.of_nat cn))
  = Some (map (fun o => g (o / cn) (o mod cn)) (seq o n)).
Proof.
  intros Hn Hf Hsz. revert o fuel Hn Hf. induction n as [|n IH]; intros o fuel Hn Hf.
  - replace o with (rn * cn) by lia. destruct fuel; cbn [Iter.traverse]; unfold Iter.neqb, Iter.eqb; cbn [Iter._mat Iter._offset];
      now rewrite Nat.eqb_refl, Z.eqb_refl.
  - destruct fuel as [|fuel]; [lia|]. cbn [Iter.traverse]. unfold Iter.neqb, Iter.eqb. cbn [Iter._mat Iter._offset].
    rewrite Nat.eqb_refl. cbn [andb]. decide_cmps. cbn [negb]. rewrite iter_deref by lia.
    unfold Iter.pre_inc, int_succ, Iter.with_offset. cbn [Iter._offset Iter._mat Iter._n_row Iter._n_col]. decide_cmps.
    replace (Z.of_nat o + 1)%Z with (Z.of_nat (S o)) by lia. rewrite IH by lia. reflexivity.
Qed.

Lemma viter_traverse n o fuel : o + n = rn * cn -> n <= fuel -> (Z.of_nat (rn * cn) < 2 ^ 31)%Z ->
  VIter.traverse fuel m (VIter.It addr (Z.of_nat o) (Z.of_nat rn) (Z.of_nat cn))
    (VIter.It addr (Z.of_nat (rn * cn)) (Z.of_nat rn) (Z.of_nat cn))
  = Some (map (fun o => g (o mod rn) (o / rn)) (seq o n)).
Proof.
  intros Hn Hf Hsz. revert o fuel Hn Hf. induction n as [|n IH]; intros o fuel Hn Hf.
  - replace o with (rn * cn) by lia. destruct fuel; cbn [VIter.traverse]; unfold VIter.neqb, VIter.eqb; cbn [VIter._mat VIter._offset];
      now rewrite Nat.eqb_refl, Z.eqb_refl.
  - destruct fuel as [|fuel]; [lia|]. cbn [VIter.traverse]. unfold VIter.neqb, VIter.eqb. cbn [VIter._mat VIter._offset].
    rewrite Nat.eqb_refl. cbn [andb]. decide_cmps. cbn [negb]. rewrite viter_deref by lia.
    unfold VIter.pre_inc, int_succ, VIter.with_offset. cbn [VIter._offset VIter._mat VIter._n_row VIter._n_col]. decide_cmps.
    replace (Z.of_nat o + 1)%Z with (Z.of_nat (S o)) by lia. rewrite IH by lia. reflexivity.
Qed.
End Traversals.

(** ** Theorems *)

Import Matrix.

Definition rectangular {T} (vv : list (list T)) (cn : nat) : Prop := forall r, r ∈ vv -> length r = cn.

(** A matrix with no more rows than columns is built without undefined
    behaviour, from a value and from a rectangular vector of vectors, and has
    the elements it was given. *)
Theorem matrix_construct {T} (fresh : option T) rn cn v vv :
  rn <= cn -> (Z.of_nat rn * Z.of_nat cn < 2 ^ 31)%Z -> length vv = rn -> rectangular vv cn ->
  (exists m, make_value fresh rn cn v = Some m /\ row_n m = rn /\ col_n m = cn
     /\ forall i j, i < rn -> j < cn -> get m i j = Some v)
  /\ (rn <> 0 -> exists m, make_from fresh vv = Some m /\ row_n m = rn /\ col_n m = cn
     /\ forall i j, i < rn -> j < cn -> get m i j = (let* r := vv !! i in r !! j)).
Proof.
  intros Hle Hsz Hlen Hrect. destruct (make_spec fresh rn cn Hle) as (m0 & E0 & Hm0 & Hr0 & Hc0). split.
  - unfold make_value. rewrite E0.
    destruct (copy_n_spec v m0 _ Hm0) as (m & -> & Hm & Hr & Hc); [now rewrite Hr0, Hc0|].
    exists m. unfold row_n, col_n. split_and!; [reflexivity|congruence|congruence|]. intros i j Hi Hj.
    now rewrite (get_holds m _ i j Hm) by lia.
  - intros Hrn. unfold make_from. rewrite Hlen.
    assert (Hcn : match vv with [] => 0 | r :: _ => length r end = cn).
    { destruct vv as [|r vv]; [cbn in Hlen; lia|]. apply Hrect. now left. }
    rewrite Hcn, E0.
    assert (Hcell : forall i j, i < rn -> j < cn -> is_Some (let* r := vv !! i in r !! j)).
    { intros i j Hi Hj. destruct (lookup_lt_is_Some_2 vv i ltac:(lia)) as [r Er]. rewrite Er.
      apply lookup_lt_is_Some_2. apply list_elem_of_lookup_2 in Er. now rewrite (Hrect r Er). }
    destruct (copy_from_spec (fun i j => let* r := vv !! i in r !! j)
      (fun i j => let* r := vv !! i in r !! j) m0 _ rn cn Hm0) as (m & -> & Hr & Hc & Hm).
    { intros i j Hi Hj. split; [reflexivity|apply Hcell; lia]. }
    exists m. unfold row_n, col_n. split_and!; [reflexivity|congruence|congruence|]. intros i j Hi Hj.
    rewrite (get_holds m _ i j Hm) by lia. unfold overlay. rewrite Hr0, Hc0, !Nat.min_id.
    replace (i <? rn) with true by (symmetry; now apply Nat.ltb_lt).
    now replace (j <? cn) with true by (symmetry; now apply Nat.ltb_lt).
Qed.

Lemma eqb_spec {T} (eqT : T -> T -> bool) a ga b gb :
  (forall x y, eqT x y = true <-> x = y) ->
  holds a (fun i j => Some (ga i j)) -> holds b (fun i j => Some (gb i j)) ->
  exists r, eqb eqT a b = Some r /\ (r = true <->
      _row_n a = _row_n b /\ _col_n a = _col_n b /\ forall i j, i < _row_n a -> j < _col_n a -> ga i j = gb i j).
Proof.
  intros Heq Ha Hb. unfold eqb.
  destruct (Nat.eqb_spec (_row_n a) (_row_n b)) as [Er|Er]; [|exists false; cbn; intuition congruence].
  destruct (Nat.eqb_spec (_col_n a) (_col_n b)) as [Ec|Ec]; [|exists false; cbn; intuition congruence]. cbn [negb orb].
  destruct (all_up_spec (fun row => all_up (fun col =>
      let* x := get a row col in let* y := get b row col in Some (eqT x y)) 0 (_col_n a))
    (fun row => forallb (fun col => eqT (ga row col) (gb row col)) (seq 0 (_col_n a))) 0 (_row_n a)) as (r & E & Hr).
  - intros row Hrow.
    destruct (all_up_spec (fun col => let* x := get a row col in let* y := get b row col in Some (eqT x y))
      (fun col => eqT (ga row col) (gb row col)) 0 (_col_n a)) as (r & E & Hr).
    { intros col Hcol. rewrite (get_holds a _ row col Ha), (get_holds b _ row col Hb) by lia. reflexivity. }
    rewrite E. apply (f_equal Some). apply eq_true_iff_eq. rewrite Hr, forallb_forall. split.
    + intros H x Hx. apply in_seq in Hx. apply H. lia.
    + intros H x Hx. apply H, in_seq. lia.
  - exists r. split; [exact E|]. rewrite Hr. split.
    + intros H. split_and!; [exact Er|exact Ec|]. intros i j Hi Hj. specialize (H i ltac:(lia)).
      rewrite forallb_forall in H. apply Heq, H, in_seq. lia.
    + intros (_ & _ & H) i Hi. apply forallb_forall. intros j Hj. apply in_seq in Hj. apply Heq, H; lia.
Qed.

(** On a matrix whose elements are all set: copying and assigning give an
    equal matrix and [operator==] decides equality of the elements; writing
    changes one element; [at] throws exactly outside; [resize] keeps the common
    rectangle and leaves the rest as [new] does; and the destructor succeeds. *)
Theorem matrix_operations {T} (eqT : T -> T -> bool) (fresh : option T) m g m2 g2 :
  (forall x y, eqT x y = true <-> x = y) ->
  holds m (fun i j => Some (g i j)) -> holds m2 (fun i j => Some (g2 i j)) ->
  (exists m', make_copy fresh m = Some m' /\ assign fresh false m m2 = Some m' /\ eqb eqT m' m = Some true)
  /\ (exists b, eqb eqT m m2 = Some b /\ (b = true <->
        row_n m = row_n m2 /\ col_n m = col_n m2 /\ forall i j, i < row_n m -> j < col_n m -> g i j = g2 i j))
  /\ (forall r c v, r < row_n m -> c < col_n m -> exists m', set r c v m = Some m'
        /\ forall i j, i < row_n m -> j < col_n m -> get m' i j = Some (if decide (i = r /\ j = c) then v else g i j))
  /\ (forall r c, at_ m r c = None <-> ~ ((0 <= r < Z.of_nat (row_n m)) /\ (0 <= c < Z.of_nat (col_n m)))%Z)
  /\ (forall rn cn, rn <= cn -> exists m', resize fresh rn cn m = Some ((rn, cn), m')
        /\ forall i j, i < rn -> j < cn -> get m' i j = if (i <? row_n m) && (j <? col_n m) then Some (g i j) else fresh)
  /\ destroy m = Some tt.
Proof.
  intros Heq Hm Hm2.
  split_and!.
  - destruct (make_copy_spec fresh m _ Hm (fun i j _ _ => ltac:(eauto))) as (m' & E & Hm' & Hr & Hc). exists m'. split; [exact E|]. split.
    + unfold assign. destruct Hm2 as [Hb2 _]. now rewrite (clean_spec _ _ _ _ Hb2).
    + destruct (eqb_spec eqT m' g m g Heq Hm' Hm) as (b & -> & Hb). f_equal. now apply Hb.
  - exact (eqb_spec eqT m g m2 g2 Heq Hm Hm2).
  - intros r c v Hr Hc. destruct (set_spec m _ r c v Hm Hr Hc) as (m' & E & Er & Ec & Hm'). exists m'. split; [exact E|].
    unfold row_n, col_n. intros i j Hi Hj. rewrite (get_holds m' _ i j Hm') by lia. now destruct (decide (i = r /\ j = c)).
  - intros r c. unfold at_, row_n, col_n.
    destruct (Z.ltb_spec r 0), (Z.leb_spec (Z.of_nat (_row_n m)) r), (Z.ltb_spec c 0), (Z.leb_spec (Z.of_nat (_col_n m)) c);
      cbn; split; intros H'; try discriminate; try reflexivity; lia.
  - unfold row_n, col_n. intros rn cn Hmax. destruct (resize_spec fresh rn cn m _ Hm Hmax (fun i j _ _ => ltac:(eauto))) as (m' & E & Er & Ec & Hm').
    exists m'. split; [exact E|]. intros i j Hi Hj. now rewrite (get_holds m' _ i j Hm') by lia.
  - destruct Hm as [Hb _]. unfold destroy. exact (clean_spec _ _ _ _ Hb).
Qed.

(** ** Programs on any number of matrices *)

(** A pointer that was never set, past the rows: what lies behind it is
    nothing. *)
Definition beyond {T} (m : matrix (T := T)) : Prop := forall row r, _buf m !! row = Some (Some r) -> row < _row_n m.

Lemma for_up_keeps {S} (P : S -> Prop) f lo n s s' : for_up f lo n s = Some s' ->
  (forall i s s', lo <= i < lo + n -> f i s = Some s' -> P s -> P s') -> P s -> P s'.
Proof.
  revert lo s. induction n as [|n IH]; intros lo s E Hf Hs; cbn [for_up] in E; [now simplify_eq|].
  destruct (f lo s) as [s1|] eqn:E1; [|discriminate]. apply (IH (Datatypes.S lo) s1 E).
  - intros i t t' Hi. apply Hf. lia.
  - apply (Hf lo s s1); [lia|exact E1|exact Hs].
Qed.

(** A loop one of whose rounds fails, whatever the state, fails. *)
Lemma for_up_stuck {S} (f : nat -> S -> option S) lo n i s : lo <= i < lo + n -> (forall s, f i s = None) -> for_up f lo n s = None.
Proof.
  revert lo s. induction n as [|n IH]; intros lo s Hi Hf; [lia|]. cbn [for_up].
  destruct (decide (i = lo)) as [->|]; [now rewrite Hf|]. destruct (f lo s); [|reflexivity]. apply IH; [lia|exact Hf].
Qed.

Lemma for_cells_keeps {A} (P : A -> Prop) rn cn f (s s' : A) : for_cells rn cn f s = Some s' ->
  (forall row col s s', f row col s = Some s' -> P s -> P s') -> P s -> P s'.
Proof.
  intros E Hf. unfold for_cells in E. apply (for_up_keeps P _ _ _ _ _ E). intros i t t' _ Et.
  apply (for_up_keeps P _ _ _ _ _ Et). intros j u u' _. apply Hf.
Qed.

Lemma for_cells_stuck {A} rn cn (f : nat -> nat -> A -> option A) row col s : row < rn -> col < cn ->
  (forall s, f row col s = None) -> for_cells rn cn f s = None.
Proof. intros Hr Hc Hf. apply (for_up_stuck _ 0 rn row); [lia|]. intros t. apply (for_up_stuck _ 0 cn col); [lia|exact Hf]. Qed.

Section Beyond.
Context {T : Type} (fresh : option T).
#[local] Abbreviation past rn b := (forall row r, b !! row = Some (Some r) -> row < rn).

Lemma write_past rn row col v (b b' : list (option (list (option T)))) : write row col v b = Some b' -> past rn b -> past rn b'.
Proof.
  unfold write. intros E H. destruct (b !! row) as [[r|]|] eqn:Er; try discriminate. destruct (col <? length r); simplify_eq.
  intros i r' Ei. destruct (decide (i = row)) as [->|]; [exact (H _ _ Er)|]. rewrite list_lookup_insert_ne in Ei by congruence. exact (H _ _ Ei).
Qed.

Lemma create_past rn cn b : create fresh rn cn = Some b -> past rn b.
Proof.
  unfold create. intros E. refine (for_up_keeps (fun b => past rn b) _ _ _ _ _ E _ _).
  - intros i s s' Hi Es H. destruct (i <? length s); simplify_eq. intros j r Ej. destruct (decide (j = i)) as [->|]; [lia|].
    rewrite list_lookup_insert_ne in Ej by congruence. exact (H _ _ Ej).
  - intros row r Er. apply lookup_replicate in Er as [Er _]. discriminate.
Qed.

Lemma fill_past rn rn' cn' src (b b' : list (option (list (option T)))) :
  for_cells rn' cn' (fun row col b => let* v := src row col in write row col v b) b = Some b' -> past rn b -> past rn b'.
Proof.
  intros E. refine (for_cells_keeps (fun b => past rn b) _ _ _ _ _ E _). intros row col s s' Es.
  destruct (src row col) as [v|]; [|discriminate]. exact (write_past rn row col v s s' Es).
Qed.

Lemma make_beyond rn cn m : make fresh rn cn = Some m -> beyond m.
Proof. unfold make. destruct (create fresh rn cn) as [b|] eqn:E; intros E'; simplify_eq. exact (create_past rn cn b E). Qed.

Lemma copy_from_beyond src rn cn (m m' : matrix (T := T)) : copy_from src rn cn m = Some m' -> beyond m -> beyond m'.
Proof. unfold copy_from. destruct (for_cells _ _ _ _) as [b|] eqn:E; intros E'; simplify_eq. exact (fill_past _ _ _ src _ _ E). Qed.

Lemma copy_beyond (m m' : matrix (T := T)) : make_copy fresh m = Some m' -> beyond m'.
Proof.
  unfold make_copy. destruct (make fresh _ _) as [m0|] eqn:E0; [|discriminate]. unfold copy_from_matrix.
  destruct (for_cells _ _ _ _) as [b|] eqn:E; intros E'; simplify_eq. exact (fill_past _ _ _ _ _ _ E (make_beyond _ _ _ E0)).
Qed.

Lemma copy_n_beyond v n (m m' : matrix (T := T)) : copy_n v n m = Some m' -> beyond m -> beyond m'.
Proof.
  unfold copy_n. destruct (size m) as [z|]; [|discriminate]. destruct (for_cells _ _ _ _) as [[b k]|] eqn:E; intros E' H; simplify_eq.
  refine (for_cells_keeps (fun c => past (_row_n m) c.1) _ _ _ _ _ E _ H). intros row col [s ns] [s' ns'] Es. cbn [fst].
  destruct (ns =? 0)%Z; simplify_eq; [trivial|]. destruct (write row col v s) as [u|] eqn:Eu; simplify_eq. exact (write_past _ _ _ _ _ _ Eu).
Qed.

Lemma set_beyond r c v (m m' : matrix (T := T)) : set r c v m = Some m' -> beyond m -> beyond m'.
Proof. unfold set. destruct (write r c v (_buf m)) as [b|] eqn:E; intros E'; simplify_eq. exact (write_past _ _ _ _ _ _ E). Qed.

Lemma resize_beyond rn cn (m : matrix (T := T)) p m' : resize fresh rn cn m = Some (p, m') -> beyond m'.
Proof.
  unfold resize. destruct (create fresh rn cn) as [b|] eqn:E0; [|discriminate].
  destruct (copy_from _ _ _ _) as [m1|] eqn:E1; [|discriminate]. destruct (clean _ _); intros E'; simplify_eq.
  unfold copy_from in E1. destruct (for_cells _ _ _ _) as [b1|] eqn:E; simplify_eq. exact (fill_past _ _ _ _ _ _ E (create_past rn cn b E0)).
Qed.
End Beyond.

(** A type: the shape, and which cells are set. *)
Record type := Ty { rows : nat; cols : nat; cell_set : nat -> nat -> bool }.

Definition has_type {T} (m : matrix (T := T)) (t : type) : Prop :=
  _row_n m = rows t /\ _col_n m = cols t /\ beyond m
  /\ exists f, holds m f /\ forall i j, i < rows t -> j < cols t -> (cell_set t i j = true <-> is_Some (f i j)).

(** Statements; objects are numbered as they are made. *)
Inductive statement (T : Type) :=
  | Make0 | Make (rn cn : nat) | MakeValue (rn cn : nat) (v : T) | MakeFrom (vv : list (list T)) | Copy (x : nat)
  | Assign (x y : nat) | Set_ (x r c : nat) (v : T) | Get (x r c : nat) | PutAt (x : nat) (r c : Z) (v : T)
  | Resize (x rn cn : nat) | Size (x : nat).
#[global] Arguments Make0 {T}. #[global] Arguments Make {T}. #[global] Arguments MakeValue {T}. #[global] Arguments MakeFrom {T}.
#[global] Arguments Copy {T}. #[global] Arguments Assign {T}. #[global] Arguments Set_ {T}. #[global] Arguments Get {T}.
#[global] Arguments PutAt {T}. #[global] Arguments Resize {T}. #[global] Arguments Size {T}.

(** A new object, and a change of one that exists. *)
Definition declare {A} (o : option A) (l : list A) : option (list A) := let* a := o in Some (l ++ [a]).
Definition update {A} (x : nat) (f : A -> option A) (l : list A) : option (list A) :=
  let* a := l !! x in let* a' := f a in Some (<[x := a']> l).

(** What a statement does to the objects; an exception of [at] changes
    nothing. *)
Definition execute {T} (fresh : option T) (st : statement T) (ms : list (matrix (T := T))) : option (list (matrix (T := T))) :=
  match st with
  | Make0 => declare (make0 fresh) ms
  | Make rn cn => declare (make fresh rn cn) ms
  | MakeValue rn cn v => declare (make_value fresh rn cn v) ms
  | MakeFrom vv => declare (make_from fresh vv) ms
  | Copy x => declare (let* m := ms !! x in make_copy fresh m) ms
  | Assign x y => update x (fun m => let* rhs := ms !! y in assign fresh (x =? y) rhs m) ms
  | Set_ x r c v => update x (set r c v) ms
  | Get x r c => update x (fun m => let* _ := get m r c in Some m) ms
  | PutAt x r c v => update x (fun m => match at_ m r c with None => Some m | Some (i, j) => set i j v m end) ms
  | Resize x rn cn => update x (fun m => let* r := resize fresh rn cn m in Some r.2) ms
  | Size x => update x (fun m => let* _ := size m in Some m) ms
  end.
Fixpoint run {T} (fresh : option T) (prog : list (statement T)) (ms : list (matrix (T := T))) : option (list (matrix (T := T))) :=
  match prog with [] => Some ms | st :: prog => let* ms := execute fresh st ms in run fresh prog ms end.

(** The typing rules, which see the types of the objects only.  [plain]: a new
    element has a value. *)
Section Typing.
Context {T : Type} (plain : bool).

Definition guarded {A} (b : bool) (a : A) : option A := if b then Some a else None.
Definition is_set_upto (rn cn : nat) (t : type) : bool :=
  forallb (fun i => forallb (fun j => cell_set t i j) (seq 0 cn)) (seq 0 rn).
(** Row pointers are allocated one per column. *)
Definition type_new (rn cn : nat) : option type := guarded (rn <=? cn) (Ty rn cn (fun _ _ => plain)).
Definition type_copy (t : type) : option type := guarded (is_set_upto (rows t) (cols t) t) t.

Definition infer_one (st : statement T) (G : list type) : option (list type) :=
  match st with
  | Make0 => declare (type_new 0 0) G
  | Make rn cn => declare (type_new rn cn) G
  | MakeValue rn cn v => declare (guarded ((rn <=? cn) && (Z.of_nat rn * Z.of_nat cn <? 2 ^ 31)%Z) (Ty rn cn (fun _ _ => true))) G
  | MakeFrom vv =>
      let cn := match vv with [] => 0 | r :: _ => length r end in
      declare (guarded ((length vv <=? cn) && forallb (fun r => cn <=? length r) vv) (Ty (length vv) cn (fun _ _ => true))) G
  | Copy x => declare (let* t := G !! x in type_copy t) G
  | Assign x y => update x (fun t => let* u := G !! y in if x =? y then Some t else type_copy u) G
  | Set_ x r c v => update x (fun t => guarded ((r <? rows t) && (c <? cols t))
      (Ty (rows t) (cols t) (fun i j => ((i =? r) && (j =? c)) || cell_set t i j))) G
  | Get x r c => update x (fun t => guarded ((r <? rows t) && (c <? cols t) && cell_set t r c) t) G
  | PutAt x r c v => update x (fun t => Some (Ty (rows t) (cols t)
      (fun i j => ((Z.of_nat i =? r) && (Z.of_nat j =? c))%Z || cell_set t i j))) G
  | Resize x rn cn => update x (fun t => guarded ((rn <=? cn) && is_set_upto (Nat.min (rows t) rn) (Nat.min (cols t) cn) t)
      (Ty rn cn (fun i j => ((i <? rows t) && (j <? cols t)) || plain))) G
  | Size x => update x (fun t => guarded (Z.of_nat (rows t) * Z.of_nat (cols t) <? 2 ^ 31)%Z t) G
  end.
Fixpoint infer (prog : list (statement T)) (G : list type) : option (list type) :=
  match prog with [] => Some G | st :: prog => let* G := infer_one st G in infer prog G end.
End Typing.

(** ** Soundness and completeness of typing *)

(** What is computed has the type computed, or both fail. *)
Definition agrees {T} (o : option (matrix (T := T))) (t : option type) : Prop :=
  match t with Some t => exists m, o = Some m /\ has_type m t | None => o = None end.
Definition agree {T} (o : option (list (matrix (T := T)))) (G : option (list type)) : Prop :=
  match G with Some G => exists ms, o = Some ms /\ Forall2 has_type ms G | None => o = None end.

Lemma declare_agree {T} (o : option (matrix (T := T))) t ms G : Forall2 has_type ms G -> agrees o t -> agree (declare o ms) (declare t G).
Proof.
  intros H Ha. unfold declare. destruct t as [t|]; cbn in *; [|now rewrite Ha]. destruct Ha as (m & -> & Hm).
  eexists. split; [reflexivity|]. apply Forall2_app; [exact H|]. constructor; [exact Hm|constructor].
Qed.

Lemma update_agree {T} x (f : matrix (T := T) -> option matrix) g ms G : Forall2 has_type ms G ->
  (forall m t, ms !! x = Some m -> G !! x = Some t -> has_type m t -> agrees (f m) (g t)) -> agree (update x f ms) (update x g G).
Proof.
  intros H Hf. unfold update. destruct (G !! x) as [t|] eqn:Et.
  - destruct (Forall2_lookup_r _ _ _ _ _ H Et) as (m & Em & Hm). rewrite Em. specialize (Hf m t Em eq_refl Hm).
    destruct (g t) as [t'|]; cbn in *; [|now rewrite Hf]. destruct Hf as (m' & -> & Hm'). eexists. split; [reflexivity|].
    now apply Forall2_insert.
  - cbn. replace (ms !! x) with (@None (matrix (T := T))); [reflexivity|]. symmetry. apply lookup_ge_None. apply Forall2_length in H. rewrite H. now apply lookup_ge_None.
Qed.

Section Agreement.
Context {T : Type} (fresh : option T).
#[local] Abbreviation plain := (match fresh with Some _ => true | None => false end).

Lemma guarded_agrees b (o : option (matrix (T := T))) t :
  (b = true -> exists m, o = Some m /\ has_type m t) -> (b = false -> o = None) -> agrees o (guarded b t).
Proof. destruct b; cbn; auto. Qed.

Lemma forallb_false {A} (p : A -> bool) l : forallb p l = false -> exists a, In a l /\ p a = false.
Proof.
  induction l as [|a l IH]; cbn; [discriminate|]. intros E. apply andb_false_iff in E as [E|E]; [eauto|].
  destruct (IH E) as (b & Hb & Eb). eauto.
Qed.

Lemma is_set_upto_spec rn cn t (f : nat -> nat -> option T) : rn <= rows t -> cn <= cols t ->
  (forall i j, i < rows t -> j < cols t -> (cell_set t i j = true <-> is_Some (f i j))) ->
  if is_set_upto rn cn t then all_set rn cn f else exists i j, i < rn /\ j < cn /\ f i j = None.
Proof.
  intros Hr Hc Hf. unfold is_set_upto. destruct (forallb _ (seq 0 rn)) eqn:E.
  - intros i j Hi Hj. apply Hf; [lia|lia|]. rewrite forallb_forall in E. specialize (E i ltac:(apply in_seq; lia)).
    rewrite forallb_forall in E. apply E, in_seq. lia.
  - apply forallb_false in E as (i & Hi & E). apply forallb_false in E as (j & Hj & Ec). apply in_seq in Hi, Hj.
    exists i, j. split_and!; [lia|lia|]. apply eq_None_not_Some. intros Hs. apply Hf in Hs; [congruence|lia|lia].
Qed.

Lemma plain_spec : plain = true <-> is_Some fresh.
Proof. destruct fresh; split; intros H; try discriminate; [eauto|trivial|now destruct H]. Qed.

Lemma make_agrees rn cn : agrees (make fresh rn cn) (type_new plain rn cn).
Proof.
  apply guarded_agrees; intros E.
  - apply Nat.leb_le in E. destruct (make_spec fresh rn cn E) as (m & Em & Hm & Hr & Hc). exists m. split; [exact Em|].
    split_and!; [exact Hr|exact Hc|exact (make_beyond _ _ _ _ Em)|]. eexists. split; [exact Hm|]. intros i j _ _. cbn.
    apply plain_spec.
  - apply Nat.leb_gt in E. unfold make. now rewrite (create_overflow fresh rn cn E).
Qed.

Lemma make_value_agrees rn cn v : agrees (make_value fresh rn cn v)
  (guarded ((rn <=? cn) && (Z.of_nat rn * Z.of_nat cn <? 2 ^ 31)%Z) (Ty rn cn (fun _ _ => true))).
Proof.
  unfold make_value. apply guarded_agrees; intros E.
  - apply andb_true_iff in E as [E1 E2]. apply Nat.leb_le in E1. apply Z.ltb_lt in E2.
    destruct (make_spec fresh rn cn E1) as (m & Em & Hm & Hr & Hc). rewrite Em.
    destruct (copy_n_spec v m _ Hm) as (m' & Em' & Hm' & Hr' & Hc'); [now rewrite Hr, Hc|]. rewrite Em'. exists m'. split; [reflexivity|].
    split_and!; [cbn; congruence|cbn; congruence|exact (copy_n_beyond _ _ _ _ Em' (make_beyond _ _ _ _ Em))|].
    eexists. split; [exact Hm'|]. cbn. intros i j _ _. split; eauto.
  - destruct (Nat.leb_spec rn cn) as [E1|E1]; [|unfold make; now rewrite (create_overflow fresh rn cn E1)].
    cbn [andb] in E. destruct (make_spec fresh rn cn E1) as (m & -> & _ & Hr & Hc). unfold copy_n, size, int_mul. now rewrite Hr, Hc, E.
Qed.

(** A cell that cannot be read stops the copy of its rectangle. *)
Lemma copy_from_stuck src rn cn (m : matrix (T := T)) i j : i < Nat.min (_row_n m) rn -> j < Nat.min (_col_n m) cn ->
  src i j = None -> copy_from src rn cn m = None.
Proof.
  intros Hi Hj E. unfold copy_from.
  replace (if _row_n m <? rn then _row_n m else rn) with (Nat.min (_row_n m) rn) by (destruct (Nat.ltb_spec (_row_n m) rn); lia).
  replace (if _col_n m <? cn then _col_n m else cn) with (Nat.min (_col_n m) cn) by (destruct (Nat.ltb_spec (_col_n m) cn); lia).
  rewrite (for_cells_stuck _ _ _ i j); [reflexivity|exact Hi|exact Hj|]. intros b. now rewrite E.
Qed.

Lemma make_from_agrees vv : let cn := match vv with [] => 0 | r :: _ => length r end in
  agrees (make_from fresh vv) (guarded ((length vv <=? cn) && forallb (fun r => cn <=? length r) vv) (Ty (length vv) cn (fun _ _ => true))).
Proof.
  intros cn. unfold make_from. fold cn. apply guarded_agrees; intros E.
  - apply andb_true_iff in E as [E1 E2]. apply Nat.leb_le in E1. rewrite forallb_forall in E2.
    destruct (make_spec fresh _ _ E1) as (m & Em & Hm & Hr & Hc). rewrite Em.
    destruct (copy_from_spec (fun i j => let* r := vv !! i in r !! j) (fun i j => let* r := vv !! i in r !! j) m _ (length vv) cn Hm)
      as (m' & Em' & Hr' & Hc' & Hm').
    { intros i j Hi Hj. split; [reflexivity|]. destruct (lookup_lt_is_Some_2 vv i ltac:(lia)) as [r Er]. rewrite Er.
      apply lookup_lt_is_Some_2. apply list_elem_of_lookup_2, list_elem_of_In, E2, Nat.leb_le in Er. lia. }
    rewrite Em'. exists m'. split; [reflexivity|].
    split_and!; [cbn; congruence|cbn; congruence|exact (copy_from_beyond _ _ _ _ _ Em' (make_beyond _ _ _ _ Em))|].
    eexists. split; [exact Hm'|]. cbn. intros i j Hi Hj. split; [intros _|trivial]. unfold overlay. rewrite Hr, Hc, !Nat.min_id.
    replace (i <? length vv) with true by (symmetry; now apply Nat.ltb_lt). replace (j <? cn) with true by (symmetry; now apply Nat.ltb_lt).
    cbn [andb]. destruct (lookup_lt_is_Some_2 vv i Hi) as [r Er]. rewrite Er.
    apply lookup_lt_is_Some_2. apply list_elem_of_lookup_2, list_elem_of_In, E2, Nat.leb_le in Er. lia.
  - destruct (Nat.leb_spec (length vv) cn) as [E1|E1]; [|unfold make; now rewrite (create_overflow fresh _ _ E1)].
    cbn [andb] in E. destruct (make_spec fresh _ _ E1) as (m & -> & _ & Hr & Hc).
    assert (H : exists i r, vv !! i = Some r /\ length r < cn).
    { clear -E. generalize dependent cn. intros n E. induction vv as [|r l IH]; [discriminate|]. cbn in E. apply andb_false_iff in E as [E|E].
      - exists 0, r. split; [reflexivity|]. now apply Nat.leb_gt in E.
      - destruct (IH E) as (i & r' & Hi & Hl). now exists (S i), r'. }
    destruct H as (i & r & Er & Hl). apply (copy_from_stuck _ _ _ _ i (length r)).
    + apply lookup_lt_Some in Er. lia.
    + lia.
    + rewrite Er. apply lookup_ge_None. lia.
Qed.

Lemma copy_agrees (m : matrix (T := T)) t : has_type m t -> agrees (make_copy fresh m) (type_copy t).
Proof.
  intros (Hr & Hc & Hb & f & Hm & Hf). pose proof (is_set_upto_spec _ _ t f (le_n _) (le_n _) Hf) as Hs.
  apply guarded_agrees; intros E; rewrite E in Hs.
  - destruct (make_copy_spec fresh m f Hm) as (m' & Em' & Hm' & Hr' & Hc'); [now rewrite Hr, Hc|]. exists m'. split; [exact Em'|].
    split_and!; [congruence|congruence|exact (copy_beyond _ _ _ Em')|]. eauto.
  - destruct Hs as (i & j & Hi & Hj & En). unfold make_copy. destruct Hm as [Hh Hle].
    destruct (make_spec fresh _ _ Hle) as (m0 & -> & _ & Hr0 & Hc0). unfold copy_from_matrix.
    rewrite (for_cells_stuck _ _ _ i j); [reflexivity|lia|lia|]. intros b. rewrite (read_element_holds _ _ _ _ _ _ Hh) by lia. now rewrite En.
Qed.

Lemma read_out (m : matrix (T := T)) f r c : holds m f -> beyond m -> ~ (r < _row_n m /\ c < _col_n m) ->
  read (_buf m) r c = None /\ forall v, write r c v (_buf m) = None.
Proof.
  intros [Hh _] Hb Hout. unfold read, write. destruct (_buf m !! r) as [[l|]|] eqn:E; [|easy|easy]. pose proof (Hb _ _ E) as Hr.
  destruct (Hh r Hr) as (l' & E' & Hl & _). simplify_eq. rewrite lookup_ge_None_2 by lia.
  replace (c <? length l) with false by (symmetry; apply Nat.ltb_ge; lia). easy.
Qed.

Lemma set_agrees (m : matrix (T := T)) t r c v : has_type m t -> agrees (set r c v m)
  (guarded ((r <? rows t) && (c <? cols t)) (Ty (rows t) (cols t) (fun i j => ((i =? r) && (j =? c)) || cell_set t i j))).
Proof.
  intros (Hr & Hc & Hb & f & Hm & Hf). apply guarded_agrees; intros E.
  - apply andb_true_iff in E as [E1 E2]. apply Nat.ltb_lt in E1, E2.
    destruct (set_spec m f r c v Hm ltac:(lia) ltac:(lia)) as (m' & Em' & Hr' & Hc' & Hm'). exists m'. split; [exact Em'|].
    split_and!; [cbn; congruence|cbn; congruence|exact (set_beyond _ _ _ _ _ Em' Hb)|]. eexists. split; [exact Hm'|].
    cbn. intros i j Hi Hj. rewrite orb_true_iff, andb_true_iff, !Nat.eqb_eq, Hf by assumption.
    destruct (decide (i = r /\ j = c)); split; eauto; tauto.
  - unfold set. destruct (read_out m f r c Hm Hb) as [_ ->]; [|reflexivity]. apply andb_false_iff in E. rewrite !Nat.ltb_ge in E. lia.
Qed.

Lemma get_agrees (m : matrix (T := T)) t r c : has_type m t ->
  is_Some (get m r c) <-> r < rows t /\ c < cols t /\ cell_set t r c = true.
Proof.
  intros (Hr & Hc & Hb & f & Hm & Hf). destruct (decide (r < rows t /\ c < cols t)) as [[H1 H2]|Hout].
  - rewrite (get_holds m f r c Hm) by lia. rewrite Hf by assumption. tauto.
  - unfold get. destruct (read_out m f r c Hm Hb) as [-> _]; [lia|]. split; [intros [? ?]; discriminate|tauto].
Qed.

Lemma put_at_agrees (m : matrix (T := T)) t r c v : has_type m t ->
  agrees (match at_ m r c with None => Some m | Some (i, j) => set i j v m end)
    (Some (Ty (rows t) (cols t) (fun i j => ((Z.of_nat i =? r) && (Z.of_nat j =? c))%Z || cell_set t i j))).
Proof.
  intros Hm. pose proof Hm as (Hr & Hc & Hb & f & Hh & Hf). unfold at_. rewrite Hr, Hc.
  destruct ((r <? 0) || (Z.of_nat (rows t) <=? r) || (c <? 0) || (Z.of_nat (cols t) <=? c))%Z eqn:E.
  - exists m. split; [reflexivity|]. split_and!; [exact Hr|exact Hc|exact Hb|]. exists f. split; [exact Hh|]. cbn [rows cols cell_set].
    intros i j Hi Hj. rewrite <- Hf by assumption. replace ((Z.of_nat i =? r) && (Z.of_nat j =? c))%Z with false; [reflexivity|].
    symmetry. apply andb_false_iff. rewrite !Z.eqb_neq. rewrite !orb_true_iff, !Z.ltb_lt, !Z.leb_le in E. lia.
  - rewrite !orb_false_iff, !Z.ltb_ge, !Z.leb_gt in E. pose proof (set_agrees m t (Z.to_nat r) (Z.to_nat c) v Hm) as Hs.
    replace (Z.to_nat r <? rows t) with true in Hs by (symmetry; apply Nat.ltb_lt; lia).
    replace (Z.to_nat c <? cols t) with true in Hs by (symmetry; apply Nat.ltb_lt; lia). cbn [andb guarded agrees] in Hs.
    destruct Hs as (m' & Em & Hm'). exists m'. split; [exact Em|]. destruct Hm' as (Hr' & Hc' & Hb' & g & Hg & Hs). split_and!; [exact Hr'|exact Hc'|exact Hb'|].
    exists g. split; [exact Hg|]. intros i j Hi Hj. rewrite <- (Hs i j Hi Hj). cbn [cell_set].
    rewrite !orb_true_iff, !andb_true_iff, !Z.eqb_eq, !Nat.eqb_eq. intuition lia.
Qed.

Lemma resize_agrees (m : matrix (T := T)) t rn cn : has_type m t -> agrees (let* r := resize fresh rn cn m in Some r.2)
  (guarded ((rn <=? cn) && is_set_upto (Nat.min (rows t) rn) (Nat.min (cols t) cn) t)
     (Ty rn cn (fun i j => ((i <? rows t) && (j <? cols t)) || plain))).
Proof.
  intros (Hr & Hc & Hb & f & Hm & Hf).
  pose proof (is_set_upto_spec _ _ t f (Nat.le_min_l (rows t) rn) (Nat.le_min_l (cols t) cn) Hf) as Hs.
  apply guarded_agrees; intros E.
  - apply andb_true_iff in E as [E1 E2]. apply Nat.leb_le in E1. rewrite E2 in Hs.
    destruct (resize_spec fresh rn cn m f Hm E1) as (m' & Em' & Hr' & Hc' & Hm'); [now rewrite Hr, Hc|]. rewrite Em'. cbn [snd].
    exists m'. split; [reflexivity|]. split_and!; [exact Hr'|exact Hc'|exact (resize_beyond _ _ _ _ _ _ Em')|].
    eexists. split; [exact Hm'|]. cbn [rows cols cell_set]. intros i j Hi Hj. unfold overlay. rewrite Hr, Hc.
    destruct ((i <? rows t) && (j <? cols t)) eqn:Ein; cbn [orb].
    + apply andb_true_iff in Ein as [Ei Ej]. apply Nat.ltb_lt in Ei, Ej. split; [intros _; apply Hs; lia|trivial].
    + apply plain_spec.
  - unfold resize. destruct (Nat.leb_spec rn cn) as [E1|E1]; [|now rewrite (create_overflow fresh _ _ E1)].
    cbn [andb] in E. rewrite E in Hs. destruct Hs as (i & j & Hi & Hj & En). destruct (create_matrix_spec fresh rn cn E1) as (b & -> & _).
    rewrite (copy_from_stuck _ _ _ _ i j); [reflexivity|cbn; lia|cbn; lia|]. destruct Hm as [Hh _].
    rewrite (read_element_holds _ _ _ _ _ _ Hh) by lia. exact En.
Qed.

(** One statement, typed or not. *)
Lemma execute_agrees st ms G : Forall2 has_type ms G -> agree (execute fresh st ms) (infer_one plain st G).
Proof.
  intros H. destruct st as [|rn cn|rn cn v|vv|x|x y|x r c v|x r c|x r c v|x rn cn|x]; cbn [execute infer_one].
  - apply declare_agree; [exact H|]. apply (make_agrees 0 0).
  - apply declare_agree; [exact H|]. apply make_agrees.
  - apply declare_agree; [exact H|]. apply make_value_agrees.
  - apply declare_agree; [exact H|]. apply make_from_agrees.
  - apply declare_agree; [exact H|]. destruct (G !! x) as [t|] eqn:Et.
    + destruct (Forall2_lookup_r _ _ _ _ _ H Et) as (m & -> & Hm). now apply copy_agrees.
    + cbn. replace (ms !! x) with (@None (matrix (T := T))); [reflexivity|]. symmetry. apply lookup_ge_None. apply Forall2_length in H. rewrite H. now apply lookup_ge_None.
  - apply update_agree; [exact H|]. intros m t _ _ Hm. destruct (G !! y) as [u|] eqn:Eu.
    + destruct (Forall2_lookup_r _ _ _ _ _ H Eu) as (rhs & -> & Hr). unfold assign. destruct (x =? y); [now exists m|].
      destruct Hm as (_ & _ & _ & f & [Hh _] & _). rewrite (clean_spec _ _ _ _ Hh). now apply copy_agrees.
    + cbn. replace (ms !! y) with (@None (matrix (T := T))); [reflexivity|]. symmetry. apply lookup_ge_None. apply Forall2_length in H. rewrite H. now apply lookup_ge_None.
  - apply update_agree; [exact H|]. intros m t _ _ Hm. now apply set_agrees.
  - apply update_agree; [exact H|]. intros m t _ _ Hm. pose proof (get_agrees m t r c Hm) as Hg. apply guarded_agrees; intros E.
    + rewrite !andb_true_iff, !Nat.ltb_lt in E. destruct (proj2 Hg ltac:(tauto)) as [v ->]. now exists m.
    + destruct (get m r c); [|reflexivity]. destruct (proj1 Hg ltac:(eauto)) as (H1 & H2 & H3). apply Nat.ltb_lt in H1, H2.
      now rewrite H1, H2, H3 in E.
  - apply update_agree; [exact H|]. intros m t _ _ Hm. now apply put_at_agrees.
  - apply update_agree; [exact H|]. intros m t _ _ Hm. now apply resize_agrees.
  - apply update_agree; [exact H|]. intros m t _ _ Hm. pose proof Hm as (Hr & Hc & _). unfold size, int_mul. rewrite Hr, Hc.
    destruct (_ <? _)%Z; cbn; [|reflexivity]. now exists m.
Qed.
End Agreement.


(** Growing an [int] matrix leaves cells unset: a second resize reads them. *)
Example typing_demo (v : Z) :
  (let prog := [MakeValue 1 2 v; Resize 0 2 2; Resize 0 2 3] in infer false prog [] = None /\ run None prog [] = None)
  /\ (let prog := [MakeValue 1 2 v; Resize 0 2 2; Set_ 0 1 0 v; Set_ 0 1 1 v; Resize 0 2 3; Copy 0] in
      infer false prog [] = None /\ run (Some v) prog [] <> None).
Proof. vm_compute. split_and!; try reflexivity. discriminate. Qed.


(** From [begin] to [end] every element is visited once, row by row; from
    [vbegin] to [vend] column by column; and the iterators of [find] and [vfind]
    are at the row and column asked for. *)
Theorem matrix_traversal {T} addr (m : matrix (T := T)) g :
  holds m (fun i j => Some (g i j)) -> (Z.of_nat (row_n m * col_n m) < 2 ^ 31)%Z ->
  (exists e, Iter.end_ addr m = Some e /\ Iter.traverse (row_n m * col_n m) m (Iter.begin_ addr m) e
     = Some (flat_map (fun i => map (g i) (seq 0 (col_n m))) (seq 0 (row_n m))))
  /\ (exists e, VIter.vend addr m = Some e /\ VIter.traverse (row_n m * col_n m) m (VIter.vbegin addr m) e
     = Some (flat_map (fun j => map (fun i => g i j) (seq 0 (row_n m))) (seq 0 (col_n m))))
  /\ (forall i j, i < row_n m -> j < col_n m ->
       (exists it, Iter.find addr m i j = Some it /\ Iter.deref m it = Some (g i j)
          /\ Iter.row it = Some (Z.of_nat i) /\ Iter.col it = Some (Z.of_nat j))
       /\ (exists it, VIter.vfind addr m i j = Some it /\ VIter.deref m it = Some (g i j)
          /\ VIter.row it = Some (Z.of_nat i) /\ VIter.col it = Some (Z.of_nat j))).
Proof.
  unfold row_n, col_n. intros Hm Hsz. split_and!.
  - unfold Iter.end_, Iter.begin_, int_mul, row_n, col_n. rewrite <- Nat2Z.inj_mul. decide_cmps.
    eexists. split; [reflexivity|]. rewrite <- (grid_positions g).
    now apply (iter_traverse addr m g Hm (_row_n m * _col_n m) 0).
  - unfold VIter.vend, VIter.vbegin, int_mul, row_n, col_n. rewrite <- Nat2Z.inj_mul, (Nat.mul_comm (_col_n m)). decide_cmps.
    eexists. split; [reflexivity|]. rewrite <- (grid_positions (fun j i => g i j)), (Nat.mul_comm (_col_n m)).
    now apply (viter_traverse addr m g Hm (_row_n m * _col_n m) 0).
  - intros i j Hi Hj. unfold Iter.find, VIter.vfind, int_mul, row_n, col_n. rewrite <- !Nat2Z.inj_mul.
    assert (i * _col_n m + j < _row_n m * _col_n m) by nia. assert (j * _row_n m + i < _row_n m * _col_n m) by nia.
    decide_cmps. rewrite <- !Nat2Z.inj_add. decide_cmps.
    assert (Hd : forall a b n, b < n -> (a * n + b) / n = a /\ (a * n + b) mod n = b).
    { intros a b n Hb. rewrite Nat.add_comm, Nat.div_add, Nat.Div0.mod_add, Nat.div_small, Nat.mod_small by lia. split; lia. }
    destruct (Hd i j (_col_n m) Hj) as [Hd1 Hm1]. destruct (Hd j i (_row_n m) Hi) as [Hd2 Hm2]. split.
    + eexists. split; [reflexivity|]. rewrite (iter_deref addr m g Hm) by lia. unfold Iter.row, Iter.col.
      cbn [Iter._offset Iter._n_col]. rewrite quot_nat, rem_nat by lia. now rewrite Hd1, Hm1.
    + eexists. split; [reflexivity|]. rewrite (viter_deref addr m g Hm) by lia. unfold VIter.row, VIter.col.
      cbn [VIter._offset VIter._n_row]. rewrite quot_nat, rem_nat by lia. now rewrite Hd2, Hm2.
Qed.

(** The array of row pointers is allocated with one slot per column, so
    every constructor and [resize] with more rows than columns writes outside
    of it. *)
Theorem matrix_row_overflow {T} (fresh : option T) rn cn v vv m :
  cn < rn -> length vv = rn -> rectangular vv cn ->
  make fresh rn cn = None /\ make_value fresh rn cn v = None /\ make_from fresh vv = None
  /\ resize fresh rn cn m = None.
Proof.
  intros Hlt Hlen Hrect. pose proof (create_overflow fresh rn cn Hlt) as E.
  assert (Em : make fresh rn cn = None) by (unfold make; now rewrite E).
  split_and!; [exact Em| | |].
  - unfold make_value. now rewrite Em.
  - unfold make_from. rewrite Hlen.
    replace (match vv with [] => 0 | r :: _ => length r end) with cn; [now rewrite Em|].
    destruct vv as [|r vv]; [cbn in Hlen; lia|]. symmetry. apply Hrect. now left.
  - unfold resize. now rewrite E.
Qed.

(** *** Witnesses *)

Definition demo : matrix (T := Z) := Mat [Some [Some 1; Some 2; Some 3]; Some [Some 4; Some 5; Some 6]; None]%Z 2 3.
Definition demo_cell (i j : nat) : Z := Z.of_nat (3 * i + j + 1).

Lemma demo_matrix_holds : holds demo (fun i j => Some (demo_cell i j)).
Proof.
  split; [|cbn; lia]. intros row Hr. cbn in Hr.
  destruct row as [|[|row]]; [| |lia]; (eexists; split_and!; [reflexivity|reflexivity|]);
    intros col Hc; cbn in Hc; destruct col as [|[|[|col]]]; try reflexivity; lia.
Qed.

Lemma matrix_construct_witness :
  (exists m, make_value None 2 3 7%Z = Some m /\ row_n m = 2 /\ col_n m = 3
     /\ forall i j, i < 2 -> j < 3 -> get m i j = Some 7%Z)
  /\ (2 <> 0 -> exists m, make_from None [[1; 2; 3]; [4; 5; 6]]%Z = Some m /\ row_n m = 2 /\ col_n m = 3
     /\ forall i j, i < 2 -> j < 3 -> get m i j = (let* r := [[1; 2; 3]; [4; 5; 6]]%Z !! i in r !! j)).
Proof.
  apply (matrix_construct None 2 3 7%Z [[1; 2; 3]; [4; 5; 6]]%Z); [lia|reflexivity|reflexivity|].
  intros r Hr. repeat (apply elem_of_cons in Hr as [->|Hr]; [reflexivity|]). now apply elem_of_nil in Hr.
Defined.

Lemma matrix_operations_witness :
  (exists m', make_copy None demo = Some m' /\ assign None false demo demo = Some m' /\ eqb Z.eqb m' demo = Some true)
  /\ (exists b, eqb Z.eqb demo demo = Some b /\ (b = true <->
        2 = 2 /\ 3 = 3 /\ forall i j, i < 2 -> j < 3 -> demo_cell i j = demo_cell i j))
  /\ (forall r c v, r < 2 -> c < 3 -> exists m', set r c v demo = Some m'
        /\ forall i j, i < 2 -> j < 3 -> get m' i j = Some (if decide (i = r /\ j = c) then v else demo_cell i j))
  /\ (forall r c, at_ demo r c = None <-> ~ ((0 <= r < 2) /\ (0 <= c < 3))%Z)
  /\ (forall rn cn, rn <= cn -> exists m', resize None rn cn demo = Some ((rn, cn), m')
        /\ forall i j, i < rn -> j < cn -> get m' i j = if (i <? 2) && (j <? 3) then Some (demo_cell i j) else None)
  /\ destroy demo = Some tt.
Proof. exact (matrix_operations Z.eqb None demo demo_cell demo demo_cell Z.eqb_eq demo_matrix_holds demo_matrix_holds). Defined.

Lemma matrix_traversal_witness :
  (exists e, Iter.end_ 0 demo = Some e /\ Iter.traverse 6 demo (Iter.begin_ 0 demo) e = Some [1; 2; 3; 4; 5; 6]%Z)
  /\ (exists e, VIter.vend 0 demo = Some e /\ VIter.traverse 6 demo (VIter.vbegin 0 demo) e = Some [1; 4; 2; 5; 3; 6]%Z)
  /\ (forall i j, i < 2 -> j < 3 ->
       (exists it, Iter.find 0 demo i j = Some it /\ Iter.deref demo it = Some (demo_cell i j)
          /\ Iter.row it = Some (Z.of_nat i) /\ Iter.col it = Some (Z.of_nat j))
       /\ (exists it, VIter.vfind 0 demo i j = Some it /\ VIter.deref demo it = Some (demo_cell i j)
          /\ VIter.row it = Some (Z.of_nat i) /\ VIter.col it = Some (Z.of_nat j))).
Proof. exact (matrix_traversal 0 demo demo_cell demo_matrix_holds ltac:(reflexivity)). Defined.

Lemma matrix_row_overflow_witness :
  make (T := Z) None 3 2 = None /\ make_value None 3 2 7%Z = None /\ make_from None [[1; 2]; [3; 4]; [5; 6]]%Z = None
  /\ resize None 3 2 demo = None.
Proof.
  apply (matrix_row_overflow None 3 2 7%Z [[1; 2]; [3; 4]; [5; 6]]%Z demo); [lia|reflexivity|].
  intros r Hr. repeat (apply elem_of_cons in Hr as [->|Hr]; [reflexivity|]). now apply elem_of_nil in Hr.
Defined.
