(* ===== verification/Bytes.v ===== *)
(** * Bytes and bits

    [encoding/bytes.hpp] (conversions between bytes and booleans, integers and
    strings; those of floating point numbers copy their object representation
    and are left out) and [encoding/bits.hpp].  The conversions exist twice: over
    a container, whose elements may be [char]s, and over a pointer to [unsigned
    char] with a size.  [None] is undefined behaviour: an element out of range, a
    failed assertion, a shift by the width or more. *)

From Stdlib Require Import ZArith Lia List Bool.
From stdpp Require Import base tactics list option.
From S2P Require Import Prelude Ints.

Open Scope hj_scope.
Open Scope Z_scope.

Definition u8 : ity := Ity 8 false.
(** [char] on the targets where it is signed. *)
Definition s8 : ity := Ity 8 true.

Module Bytes.

(** [e]: the type of the elements. *)
Section Container.
Context (e : ity).

(** [bytes[i] = v] *)
Definition store (i : nat) (v : Z) (bytes : list Z) : option (list Z) :=
  if (i <? length bytes)%nat then Some (<[i := convert e v]> bytes) else None.

Definition bytes_to_bool (bytes : list Z) : option bool :=
  let* b := bytes !! 0%nat in Some (Z.land b 1 =? 1).
Definition bool_to_bytes (b : bool) (bytes : list Z) : option (list Z) := store 0 (if b then 1 else 0) bytes.

(** [n |= uint_w(bytes[i]) << sh] *)
Definition load (w : Z) (bytes : list Z) (i : nat) (sh n : Z) : option Z :=
  let* b := bytes !! i in Some (Z.lor n (wrap w (Z.shiftl (wrap w b) sh))).

Definition bytes_to_int32 (bytes : list Z) (big_endian : bool) : option Z :=
  let n := 0 in
  let* n := (if big_endian then
    let* n := load 32 bytes 0 24 n in
    let* n := load 32 bytes 1 16 n in
    let* n := load 32 bytes 2 8 n in
    load 32 bytes 3 0 n
  else
    let* n := load 32 bytes 3 24 n in
    let* n := load 32 bytes 2 16 n in
    let* n := load 32 bytes 1 8 n in
    load 32 bytes 0 0 n) in
  Some (sint_of 32 n).

(** [(n >> sh) & 0xFF] *)
Definition octet (n sh : Z) : Z := Z.land (Z.shiftr n sh) 255.

Definition int32_to_bytes (n : Z) (big_endian : bool) (bytes : list Z) : option (list Z) :=
  if big_endian then
    let* b := store 0 (octet n 24) bytes in
    let* b := store 1 (octet n 16) b in
    let* b := store 2 (octet n 8) b in
    store 3 (Z.land n 255) b
  else
    let* b := store 3 (octet n 24) bytes in
    let* b := store 2 (octet n 16) b in
    let* b := store 1 (octet n 8) b in
    store 0 (Z.land n 255) b.

Definition bytes_to_int64 (bytes : list Z) (big_endian : bool) : option Z :=
  let n := 0 in
  let* n := (if big_endian then for_up (fun i n => load 64 bytes i (56 - 8 * Z.of_nat i) n) 0 8 n
             else for_up (fun i n => load 64 bytes i (8 * Z.of_nat i) n) 0 8 n) in
  Some (sint_of 64 n).
Definition int64_to_bytes (n : Z) (big_endian : bool) (bytes : list Z) : option (list Z) :=
  if big_endian then for_up (fun i b => store i (octet n (56 - 8 * Z.of_nat i)) b) 0 8 bytes
  else for_up (fun i b => store i (octet n (8 * Z.of_nat i)) b) 0 8 bytes.

(** The constructor of [std::string] from a pointer and a length. *)
Definition bytes_to_string (bytes : list Z) (sz : nat) : option (list Z) :=
  if (sz <=? length bytes)%nat then Some (convert s8 <$> take sz bytes) else None.
Definition string_to_bytes (str : list Z) (bytes : list Z) : list Z :=
  let k := Nat.min (length str) (length bytes) in (convert e <$> take k str) ++ drop k bytes.
End Container.

(** The overloads over a pointer: the size is asserted, and set. *)
Definition bytes_to_bool_ptr (bytes : list Z) (sz : nat) : option bool :=
  if (1 <=? sz)%nat then bytes_to_bool bytes else None.
Definition bool_to_bytes_ptr (bytes : list Z) (sz : nat) (b : bool) : option (list Z * nat) :=
  if (1 <=? sz)%nat then let* r := bool_to_bytes u8 b bytes in Some (r, 1%nat) else None.
Definition bytes_to_int32_ptr (bytes : list Z) (sz : nat) (big_endian : bool) : option Z :=
  if (4 <=? sz)%nat then bytes_to_int32 bytes big_endian else None.
Definition int32_to_bytes_ptr (bytes : list Z) (sz : nat) (n : Z) (big_endian : bool) : option (list Z * nat) :=
  if (4 <=? sz)%nat then let* r := int32_to_bytes u8 n big_endian bytes in Some (r, 4%nat) else None.
Definition bytes_to_int64_ptr (bytes : list Z) (sz : nat) (big_endian : bool) : option Z :=
  if (8 <=? sz)%nat then bytes_to_int64 bytes big_endian else None.
Definition int64_to_bytes_ptr (bytes : list Z) (sz : nat) (n : Z) (big_endian : bool) : option (list Z * nat) :=
  if (8 <=? sz)%nat then let* r := int64_to_bytes u8 n big_endian bytes in Some (r, 8%nat) else None.
Definition string_to_bytes_ptr (bytes : list Z) (sz : nat) (str : list Z) : option (list Z * nat) :=
  if (length str <=? sz)%nat then
    let sz := Nat.min (length str) sz in
    if (sz <=? length bytes)%nat then Some ((convert u8 <$> take sz str) ++ drop sz bytes, sz) else None
  else None.

(** ** Reference: the number in base 256 *)

Fixpoint big_value (l : list Z) : Z :=
  match l with [] => 0 | b :: l => b * 256 ^ Z.of_nat (length l) + big_value l end.
Definition value (big_endian : bool) (l : list Z) : Z := big_value (if big_endian then l else rev l).

(** A byte shifted into place, and or-ed below or above what is there. *)
Lemma piece w b sh : 0 <= sh -> sh + 8 <= w -> byte b -> wrap w (Z.shiftl (wrap w b) sh) = b * 2 ^ sh.
Proof.
  intros Hs Hw Hb. assert (H8 : 2 ^ (sh + 8) = 256 * 2 ^ sh) by (rewrite Z.pow_add_r by lia; lia).
  assert (Hle : 2 ^ (sh + 8) <= 2 ^ w) by (apply Z.pow_le_mono_r; lia).
  assert (Hle' : 2 ^ 8 <= 2 ^ w) by (apply Z.pow_le_mono_r; lia). change (2 ^ 8) with 256 in Hle'.
  unfold byte, uint in *. rewrite (wrap_small w b) by (unfold uint; lia). rewrite Z.shiftl_mul_pow2 by lia.
  apply wrap_small. unfold uint. nia.
Qed.

Lemma load_high w a b l i sh : 0 <= sh -> sh + 8 <= w -> 0 <= a -> l !! i = Some b -> byte b ->
  load w l i sh (a * 2 ^ (sh + 8)) = Some ((a * 256 + b) * 2 ^ sh).
Proof.
  intros Hs Hw Ha El Hb. unfold load. rewrite El, (piece w b sh) by assumption. f_equal.
  assert (H8 : 2 ^ (sh + 8) = 256 * 2 ^ sh) by (rewrite Z.pow_add_r by lia; lia).
  rewrite lor_shifted; [rewrite H8; lia|lia|exact Ha|]. unfold uint, byte in *. nia.
Qed.

Lemma load_low w n b l i sh : 0 <= sh -> sh + 8 <= w -> uint sh n -> l !! i = Some b -> byte b ->
  load w l i sh n = Some (b * 2 ^ sh + n).
Proof.
  intros Hs Hw Hn El Hb. unfold load. rewrite El, (piece w b sh) by assumption. f_equal.
  rewrite Z.lor_comm. apply lor_shifted; [exact Hs|unfold byte in Hb; lia|exact Hn].
Qed.

(** Cutting a number into octets. *)
Lemma octet_byte n sh : byte (octet n sh).
Proof. apply land_255_byte. Qed.

Lemma octet_step n k : 0 <= k -> wrap (k + 8) n = octet n k * 2 ^ k + wrap k n.
Proof.
  intros Hk. unfold wrap, octet. rewrite land_255, Z.shiftr_div_pow2, Z.pow_add_r by lia.
  rewrite Z.rem_mul_r by lia. change (2 ^ 8) with 256. lia.
Qed.

Lemma octet_low n : Z.land n 255 = octet n 0.
Proof. unfold octet. now rewrite Z.shiftr_0_r. Qed.

Lemma convert_u8 b : byte b -> convert u8 b = b.
Proof. intros Hb. apply wrap_small. exact Hb. Qed.

Lemma store_u8 i v l : (i < length l)%nat -> byte v -> store u8 i v l = Some (<[i := v]> l).
Proof. intros Hi Hv. unfold store. rewrite convert_u8 by exact Hv. now rewrite (proj2 (Nat.ltb_lt _ _) Hi). Qed.

Lemma octets32 n : octet n 24 * 2 ^ 24 + octet n 16 * 2 ^ 16 + octet n 8 * 2 ^ 8 + octet n 0 = wrap 32 n.
Proof.
  pose proof (octet_step n 24 ltac:(lia)) as H1. pose proof (octet_step n 16 ltac:(lia)) as H2.
  pose proof (octet_step n 8 ltac:(lia)) as H3. pose proof (octet_step n 0 ltac:(lia)) as H4.
  change (24 + 8) with 32 in H1. change (16 + 8) with 24 in H2. change (8 + 8) with 16 in H3. change (0 + 8) with 8 in H4.
  rewrite H1, H2, H3, H4. unfold wrap at 1. rewrite Z.mod_1_r. lia.
Qed.

Lemma octets64 n : octet n 56 * 2 ^ 56 + octet n 48 * 2 ^ 48 + octet n 40 * 2 ^ 40 + octet n 32 * 2 ^ 32
  + octet n 24 * 2 ^ 24 + octet n 16 * 2 ^ 16 + octet n 8 * 2 ^ 8 + octet n 0 = wrap 64 n.
Proof.
  pose proof (octet_step n 56 ltac:(lia)) as H1. pose proof (octet_step n 48 ltac:(lia)) as H2.
  pose proof (octet_step n 40 ltac:(lia)) as H3. pose proof (octet_step n 32 ltac:(lia)) as H4.
  change (56 + 8) with 64 in H1. change (48 + 8) with 56 in H2. change (40 + 8) with 48 in H3. change (32 + 8) with 40 in H4.
  rewrite H1, H2, H3, H4, <- octets32. lia.
Qed.

(** Four, or eight, elements and the rest. *)
Lemma split4 (l : list Z) : (4 <= length l)%nat -> bytes (take 4 l) ->
  exists a b c d r, l = a :: b :: c :: d :: r /\ byte a /\ byte b /\ byte c /\ byte d.
Proof.
  intros Hl Hb. destruct l as [|a [|b [|c [|d r]]]]; cbn in Hl; try lia. exists a, b, c, d, r.
  cbn in Hb. split; [reflexivity|]. unfold bytes in Hb. repeat (apply Forall_cons_1 in Hb as [? Hb]). tauto.
Qed.

Lemma split8 (l : list Z) : (8 <= length l)%nat -> bytes (take 8 l) ->
  exists a b c d e f g h r, l = a :: b :: c :: d :: e :: f :: g :: h :: r
    /\ byte a /\ byte b /\ byte c /\ byte d /\ byte e /\ byte f /\ byte g /\ byte h.
Proof.
  intros Hl Hb. destruct l as [|a [|b [|c [|d [|e [|f [|g [|h r]]]]]]]]; cbn in Hl; try lia. exists a, b, c, d, e, f, g, h, r.
  cbn in Hb. split; [reflexivity|]. unfold bytes in Hb. repeat (apply Forall_cons_1 in Hb as [? Hb]). tauto.
Qed.

Lemma bytes_to_int32_value l be : (4 <= length l)%nat -> bytes (take 4 l) ->
  bytes_to_int32 l be = Some (sint_of 32 (value be (take 4 l))).
Proof.
  intros Hl Hb. destruct (split4 l Hl Hb) as (a & b & c & d & r & -> & Ha & Hb' & Hc & Hd). unfold byte in *.
  unfold bytes_to_int32, value. change 0 with (0 * 2 ^ (24 + 8)) at 1 3.
  cbn [take]. rewrite take_0. destruct be; cbn [rev app big_value length].
  - rewrite (load_high 32 0 a) by (try reflexivity; unfold byte; lia). change 24 with (16 + 8) at 1.
    rewrite (load_high 32 _ b) by (try reflexivity; unfold byte; lia). change 16 with (8 + 8) at 1.
    rewrite (load_high 32 _ c) by (try reflexivity; unfold byte; lia). change 8 with (0 + 8) at 1.
    rewrite (load_high 32 _ d) by (try reflexivity; unfold byte; lia). apply (f_equal Some), (f_equal (sint_of 32)). cbn [Z.of_nat Pos.of_succ_nat Pos.succ]. lia.
  - rewrite (load_high 32 0 d) by (try reflexivity; unfold byte; lia). change 24 with (16 + 8) at 1.
    rewrite (load_high 32 _ c) by (try reflexivity; unfold byte; lia). change 16 with (8 + 8) at 1.
    rewrite (load_high 32 _ b) by (try reflexivity; unfold byte; lia). change 8 with (0 + 8) at 1.
    rewrite (load_high 32 _ a) by (try reflexivity; unfold byte; lia). apply (f_equal Some), (f_equal (sint_of 32)). cbn [Z.of_nat Pos.of_succ_nat Pos.succ]. lia.
Qed.

Lemma bytes_to_int64_value l be : (8 <= length l)%nat -> bytes (take 8 l) ->
  bytes_to_int64 l be = Some (sint_of 64 (value be (take 8 l))).
Proof.
  intros Hl Hb. destruct (split8 l Hl Hb) as (a & b & c & d & e & f & g & h & r & -> & Ha & Hb' & Hc & Hd & He & Hf & Hg & Hh).
  unfold byte in *. unfold bytes_to_int64, value. cbn [take]. rewrite take_0.
  destruct be; cbn [for_up rev app big_value length].
  - change 0 with (0 * 2 ^ (56 + 8)) at 1.
    rewrite (load_high 64 0 a) by (try reflexivity; unfold byte; lia). change (56 - 8 * Z.of_nat 0) with (48 + 8).
    rewrite (load_high 64 _ b) by (try reflexivity; unfold byte; lia). change (56 - 8 * Z.of_nat 1) with (40 + 8).
    rewrite (load_high 64 _ c) by (try reflexivity; unfold byte; lia). change (56 - 8 * Z.of_nat 2) with (32 + 8).
    rewrite (load_high 64 _ d) by (try reflexivity; unfold byte; lia). change (56 - 8 * Z.of_nat 3) with (24 + 8).
    rewrite (load_high 64 _ e) by (try reflexivity; unfold byte; lia). change (56 - 8 * Z.of_nat 4) with (16 + 8).
    rewrite (load_high 64 _ f) by (try reflexivity; unfold byte; lia). change (56 - 8 * Z.of_nat 5) with (8 + 8).
    rewrite (load_high 64 _ g) by (try reflexivity; unfold byte; lia). change (56 - 8 * Z.of_nat 6) with (0 + 8).
    rewrite (load_high 64 _ h) by (try reflexivity; unfold byte; lia).
    apply (f_equal Some), (f_equal (sint_of 64)). cbn [Z.of_nat Pos.of_succ_nat Pos.succ]. lia.
  - rewrite (load_low 64 0 a) by (try reflexivity; unfold byte, uint; lia).
    rewrite (load_low 64 _ b) by (try reflexivity; unfold byte, uint; lia).
    rewrite (load_low 64 _ c) by (try reflexivity; unfold byte, uint; lia).
    rewrite (load_low 64 _ d) by (try reflexivity; unfold byte, uint; lia).
    rewrite (load_low 64 _ e) by (try reflexivity; unfold byte, uint; lia).
    rewrite (load_low 64 _ f) by (try reflexivity; unfold byte, uint; lia).
    rewrite (load_low 64 _ g) by (try reflexivity; unfold byte, uint; lia).
    rewrite (load_low 64 _ h) by (try reflexivity; unfold byte, uint; lia).
    apply (f_equal Some), (f_equal (sint_of 64)). cbn [Z.of_nat Pos.of_succ_nat Pos.succ]. lia.
Qed.

Lemma int32_to_bytes_spec n be l : (4 <= length l)%nat ->
  exists l', int32_to_bytes u8 n be l = Some l' /\ length l' = length l /\ drop 4 l' = drop 4 l
    /\ bytes (take 4 l') /\ value be (take 4 l') = wrap 32 n.
Proof.
  intros Hl. destruct l as [|a [|b [|c [|d r]]]]; cbn in Hl; try lia.
  exists ((if be then [octet n 24; octet n 16; octet n 8; octet n 0] else [octet n 0; octet n 8; octet n 16; octet n 24]) ++ r).
  split_and!.
  - unfold int32_to_bytes. rewrite octet_low. destruct be; repeat (rewrite store_u8 by (apply octet_byte || (cbn; lia))); reflexivity.
  - now destruct be.
  - now destruct be.
  - destruct be; cbn [take app]; rewrite take_0; repeat apply List.Forall_cons; try apply octet_byte; constructor.
  - rewrite <- (octets32 n). unfold value. destruct be; cbn [take app]; rewrite take_0;
      cbn [rev app big_value length Z.of_nat Pos.of_succ_nat Pos.succ]; lia.
Qed.

Lemma int64_to_bytes_spec n be l : (8 <= length l)%nat ->
  exists l', int64_to_bytes u8 n be l = Some l' /\ length l' = length l /\ drop 8 l' = drop 8 l
    /\ bytes (take 8 l') /\ value be (take 8 l') = wrap 64 n.
Proof.
  intros Hl. destruct l as [|a [|b [|c [|d [|e [|f [|g [|h r]]]]]]]]; cbn in Hl; try lia.
  exists ((if be then [octet n 56; octet n 48; octet n 40; octet n 32; octet n 24; octet n 16; octet n 8; octet n 0]
           else [octet n 0; octet n 8; octet n 16; octet n 24; octet n 32; octet n 40; octet n 48; octet n 56]) ++ r).
  split_and!.
  - unfold int64_to_bytes. destruct be; cbn [for_up]; repeat (rewrite store_u8 by (apply octet_byte || (cbn; lia))); reflexivity.
  - now destruct be.
  - now destruct be.
  - destruct be; cbn [take app]; rewrite take_0; repeat apply List.Forall_cons; try apply octet_byte; constructor.
  - rewrite <- (octets64 n). unfold value. destruct be; cbn [take app]; rewrite take_0;
      cbn [rev app big_value length Z.of_nat Pos.of_succ_nat Pos.succ]; lia.
Qed.

(** ** Theorems *)

(** Writing a 32 or 64-bit integer in either byte order, through a
    container or a pointer, sets the first 4 or 8 bytes to its digits in base
    256 and no other, and reading it back gives it. *)
Theorem bytes_int_roundtrip n be l sz :
  (8 <= length l)%nat -> (8 <= sz)%nat ->
  (sint 32 n -> exists l', int32_to_bytes u8 n be l = Some l' /\ int32_to_bytes_ptr l sz n be = Some (l', 4%nat)
     /\ length l' = length l /\ drop 4 l' = drop 4 l /\ bytes (take 4 l') /\ value be (take 4 l') = wrap 32 n
     /\ bytes_to_int32 l' be = Some n /\ bytes_to_int32_ptr l' sz be = Some n)
  /\ (sint 64 n -> exists l', int64_to_bytes u8 n be l = Some l' /\ int64_to_bytes_ptr l sz n be = Some (l', 8%nat)
     /\ length l' = length l /\ drop 8 l' = drop 8 l /\ bytes (take 8 l') /\ value be (take 8 l') = wrap 64 n
     /\ bytes_to_int64 l' be = Some n /\ bytes_to_int64_ptr l' sz be = Some n).
Proof.
  intros Hl Hsz. split; intros Hn.
  - destruct (int32_to_bytes_spec n be l ltac:(lia)) as (l' & E & H1 & H2 & H3 & H4).
    assert (Hr : bytes_to_int32 l' be = Some n).
    { rewrite bytes_to_int32_value, H4, sint_of_wrap, sint_of_id by (assumption || lia). reflexivity. }
    exists l'. unfold int32_to_bytes_ptr, bytes_to_int32_ptr. rewrite (proj2 (Nat.leb_le 4 sz)), E by lia. auto 10.
  - destruct (int64_to_bytes_spec n be l Hl) as (l' & E & H1 & H2 & H3 & H4).
    assert (Hr : bytes_to_int64 l' be = Some n).
    { rewrite bytes_to_int64_value, H4, sint_of_wrap, sint_of_id by (assumption || lia). reflexivity. }
    exists l'. unfold int64_to_bytes_ptr, bytes_to_int64_ptr. rewrite (proj2 (Nat.leb_le 8 sz)), E by lia. auto 10.
Qed.

(** C2: in a container of [char]s an element of 128 or more is read as a
    negative number whose sign covers the bytes above it: what is read is not
    what was written. *)
Theorem bytes_char_container : exists l', int32_to_bytes s8 128 true [0; 0; 0; 0] = Some l'
  /\ bytes_to_int32 l' true = Some (-128).
Proof. exists [0; 0; 0; -128]. split; vm_compute; reflexivity. Qed.

(** C3: booleans and strings read back; a string longer than the destination
    is cut by the container overload and is undefined behaviour for the
    other. *)
Theorem bytes_string_roundtrip str l :
  Forall (fun c => sint 8 c) str ->
  (forall b, l <> [] -> exists l', bool_to_bytes u8 b l = Some l' /\ bytes_to_bool l' = Some b)
  /\ bytes_to_string (string_to_bytes u8 str l) (Nat.min (length str) (length l)) = Some (take (length l) str)
  /\ ((length str <= length l)%nat -> exists l', string_to_bytes_ptr l (length l) str = Some (l', length str)
        /\ l' = string_to_bytes u8 str l /\ bytes_to_string l' (length str) = Some str)
  /\ ((length l < length str)%nat -> string_to_bytes_ptr l (length l) str = None).
Proof.
  intros Hs.
  assert (Hback : forall k, convert s8 <$> (convert u8 <$> take k str) = take k str).
  { intros k. apply (Forall_take _ k) in Hs. induction Hs as [|c l' Hc _ IH]; [reflexivity|]. rewrite !fmap_cons, IH. f_equal.
    unfold convert. cbn [s8 u8 signed bits]. rewrite sint_of_wrap by lia. now apply sint_of_id. }
  assert (Hread : forall k, (k <= length str)%nat -> forall r, bytes_to_string ((convert u8 <$> take k str) ++ r) k = Some (take k str)).
  { intros k Hk r. assert (Hlen : length (convert u8 <$> take k str) = k) by (rewrite length_fmap, length_take; lia).
    unfold bytes_to_string. rewrite length_app, Hlen, (proj2 (Nat.leb_le _ _)) by lia. rewrite take_app_length' by (symmetry; exact Hlen).
    now rewrite Hback. }
  split_and!.
  - intros b Hl. destruct l as [|a l]; [congruence|]. eexists. split; [reflexivity|]. now destruct b.
  - unfold string_to_bytes. rewrite Hread by lia. f_equal.
    destruct (Nat.le_ge_cases (length str) (length l)); [rewrite Nat.min_l by lia; now rewrite !take_ge by lia|now rewrite Nat.min_r by lia].
  - intros Hle. unfold string_to_bytes_ptr, string_to_bytes. rewrite Nat.min_l by lia.
    rewrite !(proj2 (Nat.leb_le _ _)) by lia. eexists. split_and!; [reflexivity|reflexivity|].
    rewrite Hread by lia. now rewrite take_ge by lia.
  - intros Hlt. unfold string_to_bytes_ptr. now rewrite (proj2 (Nat.leb_gt _ _)) by lia.
Qed.

(** *** Witnesses *)

Lemma bytes_int_roundtrip_witness :
  (exists l', int32_to_bytes u8 (-2) true [0; 0; 0; 0; 0; 0; 0; 9] = Some l'
     /\ int32_to_bytes_ptr [0; 0; 0; 0; 0; 0; 0; 9] 8 (-2) true = Some (l', 4%nat)
     /\ length l' = 8%nat /\ drop 4 l' = [0; 0; 0; 9] /\ bytes (take 4 l') /\ value true (take 4 l') = 4294967294
     /\ bytes_to_int32 l' true = Some (-2) /\ bytes_to_int32_ptr l' 8 true = Some (-2)).
Proof.
  refine (proj1 (bytes_int_roundtrip (-2) true [0; 0; 0; 0; 0; 0; 0; 9] 8 _ _) _); [cbn; lia|lia|unfold sint; cbn; lia].
Defined.

Lemma bytes_string_roundtrip_witness :
  (forall b, [0; 0; 0] <> [] -> exists l', bool_to_bytes u8 b [0; 0; 0] = Some l' /\ bytes_to_bool l' = Some b)
  /\ bytes_to_string (string_to_bytes u8 [104; -61] [0; 0; 0]) 2 = Some [104; -61]
  /\ ((2 <= 3)%nat -> exists l', string_to_bytes_ptr [0; 0; 0] 3 [104; -61] = Some (l', 2%nat)
        /\ l' = string_to_bytes u8 [104; -61] [0; 0; 0] /\ bytes_to_string l' 2 = Some [104; -61])
  /\ ((3 < 2)%nat -> string_to_bytes_ptr [0; 0; 0] 3 [104; -61] = None).
Proof.
  refine (bytes_string_roundtrip [104; -61] [0; 0; 0] _). apply (bool_decide_unpack _). vm_compute. exact I.
Defined.
End Bytes.

(** ** [encoding/bits.hpp]: positions are counted from 1 *)

Module Bits.
Section Bits.
Context (t : ity).

(** The width of the operands of a shift, after promotion. *)
Definition promoted : Z := Z.max 32 (bits t).

Definition get (src : Z) (pos : Z) : option bool :=
  let k := wrap 32 (pos - 1) in
  if k <? promoted then Some (negb (Z.land (Z.shiftr src k) 1 =? 0)) else None.

(** [1 << (pos - 1)], an [int]. *)
Definition mask (pos : Z) : option Z :=
  let k := wrap 32 (pos - 1) in if k <? 32 then Some (sint_of 32 (Z.shiftl 1 k)) else None.

Definition put (src : Z) (pos : Z) : option Z :=
  let* m := mask pos in Some (convert t (Z.lor src m)).
Definition put_bit (src : Z) (pos : Z) (bit : bool) : option Z :=
  let* m := mask pos in
  Some (if bit then convert t (Z.lor src m) else convert t (Z.land src (Z.lnot m))).
Definition reset (bit : bool) : Z := convert t (if bit then Z.lnot 0 else 0).
Definition flip (src : Z) : Z := convert t (Z.lnot src).

(** Characters '0' and '1', most significant bit first, and the terminator. *)
Definition to_string_buf (src : Z) (buf : list Z) : option (list Z) :=
  let sz := Z.to_nat (bits t) in
  if (S sz <=? length buf)%nat then
    let buf := replicate sz 48 ++ drop sz buf in
    let* buf := for_up (fun i buf =>
        let* c := buf !! i in
        Some (<[i := c + Z.land (Z.shiftr src (Z.of_nat (sz - 1 - i))) 1]> buf)) 0 sz buf in
    Some (<[sz := 0]> buf)
  else None.
(** [std::bitset<N>::to_string] of the value as an unsigned number. *)
Definition to_string (src : Z) : list Z :=
  (fun i => if Z.testbit (wrap (bits t) src) (bits t - 1 - Z.of_nat i) then 49 else 48) <$> seq 0 (Z.to_nat (bits t)).

(** The built-ins, which are undefined on 0. *)
Definition builtin_clz (w x : Z) : Z := w - 1 - Z.log2 x.
Definition count_leading_zeros (src : Z) : Z :=
  if src =? 0 then bits t else
  if bits t =? 64 then builtin_clz 64 (wrap 64 src)
  else if bits t =? 32 then builtin_clz 32 (wrap 32 src)
  else builtin_clz 32 (wrap 32 (wrap (bits t) src)) - (32 - bits t).
(** The portable loop. *)
Fixpoint clz_loop (src : Z) (i : nat) (count : Z) : Z :=
  match i with
  | O => count
  | S i => if Z.land (Z.shiftr src (Z.of_nat i)) 1 =? 0 then clz_loop src i (count + 1) else count
  end.
Definition count_leading_zeros_loop (src : Z) : Z :=
  if src =? 0 then bits t else clz_loop src (Z.to_nat (bits t)) 0.

(** ** Facts *)

Context (Hw : 8 <= bits t <= 64).

Lemma convert_testbit z i : 0 <= i < bits t -> Z.testbit (convert t z) i = Z.testbit z i.
Proof.
  intros Hi. assert (Hwr : Z.testbit (wrap (bits t) (convert t z)) i = Z.testbit z i).
  { unfold convert. destruct (signed t); [rewrite wrap_sint_of by lia|rewrite wrap_wrap by lia];
      rewrite wrap_testbit by lia; now rewrite (proj2 (Z.ltb_lt _ _)) by lia. }
  rewrite wrap_testbit in Hwr by lia. now rewrite (proj2 (Z.ltb_lt i (bits t))) in Hwr by lia.
Qed.

Lemma land_1_bit z k : 0 <= k -> Z.land (Z.shiftr z k) 1 = Z.b2z (Z.testbit z k).
Proof.
  intros Hk. change 1 with (Z.ones 1) at 1. rewrite Z.land_ones by lia. change (2 ^ 1) with 2.
  rewrite Zmod_odd, <- Z.bit0_odd, Z.shiftr_spec by lia. change (0 + k) with k. now destruct (Z.testbit z k).
Qed.

Lemma get_bit src pos : 1 <= pos <= bits t -> get src pos = Some (Z.testbit src (pos - 1)).
Proof.
  intros Hp. unfold get, promoted. rewrite wrap_small by (unfold uint; lia).
  rewrite (proj2 (Z.ltb_lt _ _)) by lia. rewrite land_1_bit by lia. now destruct (Z.testbit src (pos - 1)).
Qed.

(** The bits of the mask: one, and from 31 on all of them at position 32. *)
Lemma mask_bits pos : 1 <= pos <= 32 -> exists m, mask pos = Some m
  /\ forall i, 0 <= i -> Z.testbit m i = (i =? pos - 1) || ((pos =? 32) && (31 <=? i)).
Proof.
  intros Hp. unfold mask. rewrite wrap_small by (unfold uint; lia). rewrite (proj2 (Z.ltb_lt (pos - 1) 32)) by lia.
  eexists. split; [reflexivity|]. intros i Hi. rewrite Z.shiftl_1_l.
  destruct (Z.eqb_spec pos 32) as [->|Hne].
  - change (sint_of 32 (2 ^ (32 - 1))) with (- 2 ^ 31).
    rewrite Z.bits_opp by lia. change (Z.pred (2 ^ 31)) with (Z.ones 31). rewrite Z.testbit_ones_nonneg by lia.
    destruct (Z.ltb_spec i 31), (Z.leb_spec 31 i), (Z.eqb_spec i (32 - 1)); try reflexivity; lia.
  - rewrite sint_of_id; [|lia|unfold sint; split; [pose proof (Z.pow_nonneg 2 (pos - 1)); lia|apply Z.pow_lt_mono_r; lia]].
    rewrite Z.pow2_bits_eqb by lia. rewrite orb_false_r. apply Z.eqb_sym.
Qed.

Lemma clz_loop_spec src n count : (forall i, (i < n)%nat -> Z.testbit src (Z.of_nat i) = false) -> clz_loop src n count = count + Z.of_nat n.
Proof.
  revert count. induction n as [|n IH]; intros count H; cbn [clz_loop]; [lia|].
  rewrite land_1_bit, (H n) by lia. cbn [Z.b2z Z.eqb]. rewrite IH by (intros i Hi; apply H; lia). lia.
Qed.

Lemma clz_loop_hit src k n count : Z.testbit src (Z.of_nat k) = true -> (k < n)%nat ->
  (forall i, (k < i < n)%nat -> Z.testbit src (Z.of_nat i) = false) -> clz_loop src n count = count + Z.of_nat (n - 1 - k).
Proof.
  intros Hk. revert count. induction n as [|n IH]; intros count Hn H; [lia|]. cbn [clz_loop]. rewrite land_1_bit by lia.
  destruct (decide (n = k)) as [->|Hne].
  - rewrite Hk. cbn [Z.b2z Z.eqb]. lia.
  - rewrite (H n) by lia. cbn [Z.b2z Z.eqb]. rewrite IH; [lia|lia|]. intros i Hi. apply H. lia.
Qed.
End Bits.

(** *** Theorems *)

(** [put] changes the bit at its position and no other, [flip] all of
    them, [reset] sets all to its argument; positions 1 to 32, for types of no
    more than 32 bits, and 1 to 31 for the wider ones. *)
Theorem bits_access t src pos pos' b :
  8 <= bits t <= 64 -> 1 <= pos <= bits t -> 1 <= pos' <= bits t -> (pos <= 31 \/ bits t <= 32) ->
  (exists r, put_bit t src pos b = Some r /\ get t r pos' = if pos' =? pos then Some b else get t src pos')
  /\ put t src pos = put_bit t src pos true
  /\ get t (flip t src) pos' = option_map negb (get t src pos')
  /\ get t (reset t b) pos' = Some b.
Proof.
  intros Hw Hp Hp' Hle. assert (Hm32 : pos <= 32) by lia.
  destruct (mask_bits pos) as (m & Em & Hm); [lia|].
  assert (Hm' : forall i, 0 <= i < bits t -> Z.testbit m i = (i =? pos - 1)).
  { intros i Hi. rewrite Hm by lia. destruct (Z.eqb_spec pos 32), (Z.leb_spec 31 i), (Z.eqb_spec i (pos - 1)); try reflexivity; lia. }
  assert (Heq : (pos' - 1 =? pos - 1) = (pos' =? pos)) by (destruct (Z.eqb_spec pos' pos), (Z.eqb_spec (pos' - 1) (pos - 1)); lia).
  unfold put_bit, put, flip, reset. rewrite Em. split_and!.
  - eexists. split; [reflexivity|]. destruct b; rewrite !get_bit, convert_testbit by lia.
    + rewrite Z.lor_spec, Hm', Heq by lia. destruct (pos' =? pos); [now rewrite orb_true_r|now rewrite orb_false_r].
    + rewrite Z.land_spec, Z.lnot_spec, Hm', Heq by lia. destruct (pos' =? pos); cbn [negb]; [now rewrite andb_false_r|now rewrite andb_true_r].
  - reflexivity.
  - rewrite !get_bit, convert_testbit by lia. now rewrite Z.lnot_spec by lia.
  - rewrite get_bit, convert_testbit by lia. destruct b; [now rewrite Z.lnot_spec, Z.bits_0 by lia|now rewrite Z.bits_0].
Qed.

(** C5: on a 64-bit type the mask is an [int]: [put] at position 32 sets the
    upper half as well, and above 32 it is undefined. *)
Theorem bits_put_wide sg src pos i :
  (pos = 32 -> 32 <= i <= 64 -> exists r, put (Ity 64 sg) src pos = Some r /\ get (Ity 64 sg) r i = Some true)
  /\ (33 <= pos <= 64 -> put (Ity 64 sg) src pos = None).
Proof.
  split.
  - intros -> Hi. destruct (mask_bits 32 ltac:(lia)) as (m & Em & Hm). unfold put. rewrite Em.
    eexists. split; [reflexivity|]. rewrite get_bit, convert_testbit by (cbn; lia). rewrite Z.lor_spec, Hm by lia.
    rewrite (proj2 (Z.leb_le _ _)) by lia. change (32 =? 32) with true. now rewrite !orb_true_r.
  - intros Hp. unfold put, mask. rewrite wrap_small by (unfold uint; lia). now rewrite (proj2 (Z.ltb_ge _ _)) by lia.
Qed.

Lemma in_type_wrap_0 t src : 0 < bits t -> in_type t src = true -> src <> 0 -> 0 < wrap (bits t) src.
Proof.
  intros Hw Hin Hnz. pose proof (wrap_uint (bits t) src ltac:(lia)) as [Hlo _].
  destruct (Z.eq_dec (wrap (bits t) src) 0) as [E|]; [|lia]. exfalso. apply Hnz.
  rewrite <- (convert_id t src Hw Hin). unfold convert. destruct (signed t); [|exact E].
  rewrite <- sint_of_wrap, E by lia. unfold sint_of. rewrite Z.bits_0. reflexivity.
Qed.

(** The two conversions to text agree, and the built-in count of leading
    zeros is that of the portable loop, for each of the four widths. *)
Theorem bits_text_and_zeros t src buf :
  bits t ∈ [8; 16; 32; 64] -> in_type t src = true ->
  ((Z.to_nat (bits t) < length buf)%nat -> exists buf', to_string_buf t src buf = Some buf'
     /\ take (Z.to_nat (bits t)) buf' = to_string t src /\ buf' !! Z.to_nat (bits t) = Some 0)
  /\ count_leading_zeros t src = count_leading_zeros_loop t src.
Proof.
  intros Hin Ht. assert (Hw : 8 <= bits t <= 64).
  { repeat (apply elem_of_cons in Hin as [->|Hin]; [lia|]). now apply elem_of_nil in Hin. }
  split.
  - intros Hlen. unfold to_string_buf. rewrite (proj2 (Nat.leb_le _ _)) by lia. set (n := Z.to_nat (bits t)) in *.
    destruct (for_up_inv (fun k b => length b = length buf /\ (forall i, (i < k)%nat -> b !! i = to_string t src !! i)
        /\ (forall i, (k <= i < n)%nat -> b !! i = Some 48))
      (fun i b => let* c := b !! i in Some (<[i := c + Z.land (Z.shiftr src (Z.of_nat (n - 1 - i))) 1]> b)) 0 n
      (replicate n 48 ++ drop n buf)) as (b & -> & H1 & H2 & _).
    + split_and!; [rewrite length_app, length_replicate, length_drop; lia|lia|].
      intros i Hi. rewrite lookup_app_l by (rewrite length_replicate; lia). apply lookup_replicate_2. lia.
    + intros i b Hi (H1 & H2 & H3). rewrite (H3 i) by lia. eexists. split; [reflexivity|].
      split_and!; [now rewrite length_insert| |].
      * intros j Hj. destruct (decide (j = i)) as [->|Hne]; [|rewrite list_lookup_insert_ne by congruence; apply H2; lia].
        rewrite list_lookup_insert_eq by lia. unfold to_string. fold n. rewrite list_lookup_fmap, lookup_seq_lt by lia.
        cbn [fmap option_fmap option_map]. rewrite land_1_bit, wrap_testbit by lia.
        rewrite (proj2 (Z.ltb_lt _ _)) by lia. replace (bits t - 1 - Z.of_nat (0 + i)) with (Z.of_nat (n - 1 - i)) by lia.
        now destruct (Z.testbit src _).
      * intros j Hj. rewrite list_lookup_insert_ne by lia. apply H3. lia.
    + eexists. split; [reflexivity|]. split; [|apply list_lookup_insert_eq; lia].
      assert (Hs : length (to_string t src) = n) by (unfold to_string; now rewrite length_fmap, length_seq).
      apply list_eq. intros i. destruct (Nat.lt_ge_cases i n) as [Hi|Hi].
      * rewrite lookup_take, decide_True by lia. rewrite list_lookup_insert_ne by lia. now apply H2.
      * rewrite !lookup_ge_None_2; [reflexivity|lia|rewrite length_take; lia].
  - unfold count_leading_zeros, count_leading_zeros_loop. destruct (Z.eqb_spec src 0) as [|Hnz]; [reflexivity|].
    pose proof (in_type_wrap_0 t src ltac:(lia) Ht Hnz) as Hpos. pose proof (wrap_uint (bits t) src ltac:(lia)) as [_ Hhi].
    pose proof (Z.log2_nonneg (wrap (bits t) src)) as Hlog. set (u := wrap (bits t) src) in *.
    assert (Hlt : Z.log2 u < bits t) by (now apply Z.log2_lt_pow2).
    assert (Hbit : forall i, 0 <= i < bits t -> Z.testbit src i = Z.testbit u i).
    { intros i Hi. unfold u. rewrite wrap_testbit by lia. now rewrite (proj2 (Z.ltb_lt _ _)) by lia. }
    rewrite (clz_loop_hit src (Z.to_nat (Z.log2 u))); [| |lia|].
    + assert (Hclz : forall w, bits t <= w -> builtin_clz w (wrap w u) = w - 1 - Z.log2 u).
      { intros w Hle. unfold builtin_clz. rewrite wrap_small; [reflexivity|]. split; [lia|].
        apply Z.lt_le_trans with (2 ^ bits t); [exact Hhi|apply Z.pow_le_mono_r; lia]. }
      assert (Hu : forall w, w = bits t -> wrap w src = u) by (intros w ->; reflexivity).
      destruct (Z.eqb_spec (bits t) 64) as [E|]; [rewrite (Hu 64) by lia; unfold builtin_clz; lia|].
      destruct (Z.eqb_spec (bits t) 32) as [E|]; [rewrite (Hu 32) by lia; unfold builtin_clz; lia|].
      rewrite Hclz; [lia|]. repeat (apply elem_of_cons in Hin as [?|Hin]; [lia|]). now apply elem_of_nil in Hin.
    + rewrite Z2Nat.id, Hbit by lia. now apply Z.bit_log2.
    + intros i Hi. rewrite Hbit by lia. apply Z.bits_above_log2; lia.
Qed.

(** *** Witnesses *)

Lemma bits_access_witness :
  (exists r, put_bit u8 5 2 true = Some r /\ get u8 r 3 = Some true)
  /\ put u8 5 2 = put_bit u8 5 2 true /\ get u8 (flip u8 5) 3 = Some false /\ get u8 (reset u8 true) 3 = Some true.
Proof. apply (bits_access u8 5 2 3 true); cbn; lia. Defined.

Lemma bits_text_and_zeros_witness :
  ((8 < 9)%nat -> exists buf', to_string_buf s8 (-3) (replicate 9 0) = Some buf'
     /\ take 8 buf' = [49; 49; 49; 49; 49; 49; 48; 49] /\ buf' !! 8%nat = Some 0)
  /\ count_leading_zeros s8 (-3) = 0.
Proof. apply (bits_text_and_zeros s8 (-3) (replicate 9 0)); [now left|reflexivity]. Defined.

Lemma bits_put_wide_witness :
  (32 = 32 -> 32 <= 40 <= 64 -> exists r, put (Ity 64 false) 0 32 = Some r /\ get (Ity 64 false) r 40 = Some true)
  /\ (33 <= 32 <= 64 -> put (Ity 64 false) 0 32 = None).
Proof. exact (bits_put_wide false 0 32 40). Defined.
End Bits.
