(* ===== verification/Hex.v ===== *)
(** * Hexadecimal text

    [encoding/hex.hpp].  Characters are [char]s, from -128 to 127.  Decoding
    drops what is not a digit, pads to an even length and reads pairs into a
    string, a vector of bytes or another container, or shifts the digits into an
    integer; encoding goes through a stream with [std::hex].  The functions on
    files open streams and call those on streams.  [None] is undefined
    behaviour: a left shift of a negative number, or past the width.  Buffers
    are shorter than 2^31 characters (the loop index of [is_valid] is an
    [int]). *)

From Stdlib Require Import ZArith Lia List Bool.
From stdpp Require Import base tactics list option.
From S2P Require Import Prelude Ints.

Open Scope hj_scope.
Open Scope Z_scope.

Module Hex.

(** [char] and [unsigned char]. *)
Definition char : ity := Ity 8 true.
Definition uchar : ity := Ity 8 false.

Definition hex_char_to_value (c : Z) : Z :=
  if (48 <=? c) && (c <=? 57) then c - 48
  else if (65 <=? c) && (c <=? 70) then c - 65 + 10
  else if (97 <=? c) && (c <=? 102) then c - 97 + 10
  else -1.

(** ** Decoding *)

(** The loop on pairs; past the end the string reads as 0. *)
Fixpoint decode_pairs {A} (conv : Z -> A) (s : list Z) : list A :=
  match s with
  | c1 :: c2 :: s =>
      let high := hex_char_to_value c1 in
      let low := hex_char_to_value c2 in
      if (0 <=? high) && (0 <=? low)
      then conv (wrap 8 (Z.lor (Z.shiftl high 4) low)) :: decode_pairs conv s
      else decode_pairs conv s
  | [c1] =>
      let high := hex_char_to_value c1 in
      let low := hex_char_to_value 0 in
      if (0 <=? high) && (0 <=? low) then [conv (wrap 8 (Z.lor (Z.shiftl high 4) low))] else []
  | [] => []
  end.
Definition decode_impl_string : list Z -> list Z := decode_pairs (convert char).
Definition decode_impl_vector : list Z -> list Z := decode_pairs (fun b => b).
(** [conv]: the conversion to the value type. *)
Definition decode_impl_container {A} (conv : Z -> A) : list Z -> list A := decode_pairs conv.

(** [result << 4] in the promoted type. *)
Definition shl4 (t : ity) (r : Z) : option Z :=
  let w := Z.max 32 (bits t) in
  if signed t || (bits t <? 32) then
    (if r <? 0 then None else if r * 16 <? 2 ^ w then Some (sint_of w (r * 16)) else None)
  else Some (wrap w (r * 16)).
Fixpoint decode_int_loop (t : ity) (s : list Z) (result : Z) : option Z :=
  match s with
  | [] => Some result
  | c :: s =>
      let value := hex_char_to_value c in
      if 0 <=? value then
        let* r := shl4 t result in decode_int_loop t s (convert t (Z.lor r value))
      else decode_int_loop t s result
  end.
Definition decode_impl_int (t : ity) (s : list Z) : option Z := decode_int_loop t s 0.

(** The digits, with a '0' in front if their number is odd. *)
Definition normalize (str : list Z) : list Z :=
  let hex_str := List.filter (fun c => 0 <=? hex_char_to_value c) str in
  if negb (Nat.even (length hex_str)) then 48 :: hex_str else hex_str.
Definition decode_string (str : list Z) : list Z := decode_impl_string (normalize str).
Definition decode_vector (str : list Z) : list Z := decode_impl_vector (normalize str).
Definition decode_container {A} (conv : Z -> A) (str : list Z) : list A := decode_impl_container conv (normalize str).
Definition decode_int (t : ity) (str : list Z) : option Z := decode_impl_int t (normalize str).
(** On streams: whether they are good, and the contents of the input; the
    result and what is written. *)
Definition decode_stream (out_good in_good : bool) (content : list Z) : bool * list Z :=
  if negb out_good || negb in_good then (false, []) else (true, decode_string content).

(** ** Encoding *)

(** [oss << n] under [std::hex], and under [std::setw(2) << std::setfill('0')]. *)
Definition digit (upper : bool) (d : Z) : Z := if d <? 10 then 48 + d else (if upper then 55 else 87) + d.
Fixpoint print_hex (fuel : nat) (upper : bool) (n : Z) : list Z :=
  match fuel with
  | O => []
  | S fuel =>
      if n <? 16 then [digit upper n]
      else print_hex fuel upper (Z.shiftr n 4) ++ [digit upper (Z.land n 15)]
  end.
Definition put_byte (upper : bool) (b : Z) : list Z :=
  let s := print_hex 16 upper b in replicate (2 - length s) 48 ++ s.

(** A [char] type is printed as a character, the others as numbers of no more
    than 64 bits. *)
Definition encode_impl_int (t : ity) (upper : bool) (value : Z) : list Z :=
  if bits t =? 8 then [convert char value] else print_hex 16 upper (wrap (bits t) value).
Definition encode_impl_string (upper : bool) (value : list Z) : list Z :=
  flat_map (fun c => put_byte upper (convert uchar c)) value.
Definition encode_impl_vector (upper : bool) (value : list Z) : list Z :=
  flat_map (put_byte upper) value.
Definition encode_impl_container {A} (conv : A -> Z) (upper : bool) (value : list A) : list Z :=
  flat_map (fun x => put_byte upper (convert uchar (conv x))) value.
Definition encode_stream (out_good in_good : bool) (upper : bool) (content : list Z) : bool * list Z :=
  if negb out_good || negb in_good then (false, []) else
  (true, flat_map (fun c => put_byte upper (convert uchar c)) content).

(** ** Validation *)

Definition is_digit (c : Z) : bool :=
  ((48 <=? c) && (c <=? 57)) || ((97 <=? c) && (c <=? 102)) || ((65 <=? c) && (c <=? 70)).
(** [null]: the buffer pointer is null. *)
Definition is_valid (null : bool) (buf : list Z) : bool :=
  if (length buf =? 0)%nat || null then false else
  if negb (Nat.even (length buf)) then false else
  forallb (fun b => is_digit (convert char b)) buf.
Definition is_valid_string (s : list Z) : bool := is_valid false (convert uchar <$> s).

(** From a stream, by blocks of [HEX_BUF_SZ]: false, or the total length. *)
Definition HEX_BUF_SZ : nat := Pos.to_nat 4096.
Fixpoint valid_blocks (fuel : nat) (content : list Z) (total : nat) : option nat :=
  match fuel with
  | O => None
  | S fuel =>
      let buf := take HEX_BUF_SZ content in
      if (length buf =? 0)%nat then Some total else
      if forallb (fun b => is_digit (convert char b)) buf
      then valid_blocks fuel (drop HEX_BUF_SZ content) (total + length buf)
      else None
  end.
Definition is_valid_stream (is_open : bool) (content : list Z) : bool :=
  if negb is_open then false else
  match valid_blocks (S (length content)) content 0 with
  | None => false
  | Some total_len => if (total_len =? 0)%nat || negb (Nat.even total_len) then false else true
  end.

(** ** Digits *)

Lemma digit_value up d : 0 <= d < 16 -> hex_char_to_value (digit up d) = d.
Proof.
  intros Hd. unfold digit, hex_char_to_value. destruct (Z.ltb_spec d 10); [|destruct up]; decide_cmps; cbn [andb]; lia.
Qed.

Lemma value_range c : -1 <= hex_char_to_value c < 16.
Proof.
  unfold hex_char_to_value.
  destruct (Z.leb_spec 48 c), (Z.leb_spec c 57), (Z.leb_spec 65 c), (Z.leb_spec c 70), (Z.leb_spec 97 c), (Z.leb_spec c 102); cbn [andb]; lia.
Qed.

Lemma is_digit_value c : is_digit c = (0 <=? hex_char_to_value c).
Proof.
  unfold is_digit, hex_char_to_value.
  destruct (Z.leb_spec 48 c), (Z.leb_spec c 57), (Z.leb_spec 65 c), (Z.leb_spec c 70), (Z.leb_spec 97 c), (Z.leb_spec c 102);
    cbn [andb orb]; try (exfalso; lia); decide_cmps; reflexivity.
Qed.

Lemma put_byte_digits up b : byte b -> put_byte up b = [digit up (Z.shiftr b 4); digit up (Z.land b 15)].
Proof.
  intros Hb. assert (H : forall b, byte b -> (bool_decide (put_byte true b = [digit true (Z.shiftr b 4); digit true (Z.land b 15)])
    && bool_decide (put_byte false b = [digit false (Z.shiftr b 4); digit false (Z.land b 15)])) = true).
  { apply byte_forall. vm_compute. reflexivity. }
  specialize (H b Hb).
  apply andb_true_iff in H as [H1 H2]. apply bool_decide_eq_true in H1, H2. now destruct up.
Qed.

Lemma nibbles b : byte b -> 0 <= Z.shiftr b 4 < 16 /\ 0 <= Z.land b 15 < 16
  /\ wrap 8 (Z.lor (Z.shiftl (Z.shiftr b 4) 4) (Z.land b 15)) = b.
Proof.
  intros Hb. assert (H : forall b, byte b -> ((0 <=? Z.shiftr b 4) && (Z.shiftr b 4 <? 16) && (0 <=? Z.land b 15) && (Z.land b 15 <? 16)
    && (wrap 8 (Z.lor (Z.shiftl (Z.shiftr b 4) 4) (Z.land b 15)) =? b)) = true).
  { apply byte_forall. vm_compute. reflexivity. }
  specialize (H b Hb).
  reflect_bools. lia.
Qed.

(** *** Pairs *)

Lemma decode_pairs_encoded {A} (conv : Z -> A) up bs : bytes bs ->
  decode_pairs conv (flat_map (put_byte up) bs) = map conv bs.
Proof.
  induction 1 as [|b bs Hb _ IH]; [reflexivity|]. destruct (nibbles b Hb) as (H1 & H2 & E).
  cbn [flat_map map]. rewrite put_byte_digits by exact Hb. cbn [app decode_pairs].
  rewrite !digit_value by assumption. decide_cmps. cbn [andb]. now rewrite E, IH.
Qed.

Definition digits_only (s : list Z) : Prop := Forall (fun c => (0 <=? hex_char_to_value c) = true) s.

Lemma filter_digits s : digits_only s -> List.filter (fun c => 0 <=? hex_char_to_value c) s = s.
Proof. induction 1 as [|c s Hc _ IH]; [reflexivity|]. cbn. now rewrite Hc, IH. Qed.

Lemma normalize_id s : digits_only s -> Nat.even (length s) = true -> normalize s = s.
Proof. intros Hs He. unfold normalize. rewrite filter_digits by exact Hs. now rewrite He. Qed.

Lemma normalize_ok s : digits_only (normalize s) /\ Nat.even (length (normalize s)) = true.
Proof.
  assert (Hf : digits_only (List.filter (fun c => 0 <=? hex_char_to_value c) s)).
  { apply List.Forall_forall. intros c Hc. now apply filter_In in Hc as [_ Hc]. }
  unfold normalize. destruct (Nat.even (length _)) eqn:E; cbn [negb]; [auto|].
  split; [now constructor|]. cbn [length]. now rewrite Nat.even_succ, <- Nat.negb_even, E.
Qed.

Lemma encoded_ok up bs : bytes bs -> digits_only (flat_map (put_byte up) bs) /\ Nat.even (length (flat_map (put_byte up) bs)) = true
  /\ length (flat_map (put_byte up) bs) = (2 * length bs)%nat.
Proof.
  intros Hbs. assert (Hl : length (flat_map (put_byte up) bs) = (2 * length bs)%nat).
  { induction Hbs as [|b bs Hb _ IH]; [reflexivity|]. cbn [flat_map]. rewrite length_app, IH, put_byte_digits by exact Hb. cbn. lia. }
  split_and!; [|rewrite Hl; now rewrite Nat.even_mul|exact Hl].
  induction Hbs as [|b bs Hb _ IH]; [constructor|]. cbn [flat_map]. apply Forall_app. split.
  - rewrite put_byte_digits by exact Hb. destruct (nibbles b Hb) as (H1 & H2 & _).
    repeat constructor; rewrite digit_value by assumption; decide_cmps; reflexivity.
  - apply IH. cbn [flat_map] in Hl. rewrite length_app, put_byte_digits in Hl by exact Hb. cbn in Hl. lia.
Qed.

(** Decoding pairs of digits and encoding again prints them in upper case. *)
Definition upper (c : Z) : Z := digit true (hex_char_to_value c).

Lemma pair_byte a b : 0 <= a < 16 -> 0 <= b < 16 -> byte (wrap 8 (Z.lor (Z.shiftl a 4) b))
  /\ Z.shiftr (wrap 8 (Z.lor (Z.shiftl a 4) b)) 4 = a /\ Z.land (wrap 8 (Z.lor (Z.shiftl a 4) b)) 15 = b.
Proof.
  intros Ha Hb. rewrite Z.shiftl_mul_pow2, lor_shifted by (unfold uint; lia). change (2 ^ 4) with 16.
  rewrite wrap_small by (unfold uint; lia). split_and!; [unfold byte; lia| |].
  - rewrite Z.shiftr_div_pow2 by lia. change (2 ^ 4) with 16. rewrite Z.add_comm, Z.div_add by lia. rewrite Z.div_small; lia.
  - change 15 with (Z.ones 4). rewrite Z.land_ones by lia. change (2 ^ 4) with 16. rewrite Z.add_comm, Z.mod_add by lia. now apply Z.mod_small.
Qed.

Lemma decode_pairs_digits n s : length s = (2 * n)%nat -> digits_only s ->
  flat_map (put_byte true) (decode_pairs (fun b => b) s) = map upper s
  /\ length (decode_pairs (fun b => b) s) = n /\ bytes (decode_pairs (fun b => b) s).
Proof.
  revert s. induction n as [|n IH]; intros s Hl Hs.
  - destruct s; [|cbn in Hl; lia]. split_and!; constructor.
  - destruct s as [|c1 [|c2 s]]; [cbn in Hl; lia|cbn in Hl; lia|]. cbn [length] in Hl.
    apply Forall_cons_1 in Hs as [H1 Hs]. apply Forall_cons_1 in Hs as [H2 Hs].
    destruct (IH s ltac:(lia) Hs) as (E1 & E2 & E3). cbn [decode_pairs]. rewrite H1, H2. cbn [andb flat_map map length].
    pose proof (value_range c1). pose proof (value_range c2). apply Z.leb_le in H1, H2.
    destruct (pair_byte (hex_char_to_value c1) (hex_char_to_value c2)) as (Hb & Hhi & Hlo); [lia|lia|].
    split_and!; [|now rewrite E2|now constructor]. rewrite put_byte_digits, Hhi, Hlo, E1 by exact Hb. reflexivity.
Qed.

(** *** Integers *)

Definition number (s : list Z) : Z := fold_left (fun r c => r * 16 + hex_char_to_value c) s 0.

Lemma number_snoc s c : number (s ++ [c]) = number s * 16 + hex_char_to_value c.
Proof. unfold number. now rewrite fold_left_app. Qed.

Lemma print_hex_spec fuel up n : 0 <= n < 16 ^ Z.of_nat (S fuel) ->
  digits_only (print_hex (S fuel) up n) /\ number (print_hex (S fuel) up n) = n.
Proof.
  revert n. induction fuel as [|fuel IH]; intros n Hn; cbn [print_hex].
  - change (16 ^ Z.of_nat 1) with 16 in Hn. rewrite (proj2 (Z.ltb_lt n 16)) by lia. split.
    + repeat constructor. rewrite digit_value by lia. now apply Z.leb_le.
    + unfold number. cbn [fold_left]. rewrite digit_value by lia. lia.
  - destruct (Z.ltb_spec n 16) as [Hlt|Hge].
    + split; [repeat constructor; rewrite digit_value by lia; now apply Z.leb_le|].
      unfold number. cbn [fold_left]. rewrite digit_value by lia. lia.
    + assert (Hs : Z.shiftr n 4 = n / 16) by (rewrite Z.shiftr_div_pow2 by lia; reflexivity).
      assert (Hl : Z.land n 15 = n mod 16) by (change 15 with (Z.ones 4); rewrite Z.land_ones by lia; reflexivity).
      destruct (IH (Z.shiftr n 4)) as [H1 H2].
      { rewrite Hs. split; [apply Z.div_pos; lia|]. apply Z.div_lt_upper_bound; [lia|].
        replace (16 * 16 ^ Z.of_nat (S fuel)) with (16 ^ Z.of_nat (S (S fuel))); [lia|].
        rewrite (Nat2Z.inj_succ (S fuel)), Z.pow_succ_r; lia. }
      change (if Z.shiftr n 4 <? 16 then [digit up (Z.shiftr n 4)] else print_hex fuel up (Z.shiftr (Z.shiftr n 4) 4) ++ [digit up (Z.land (Z.shiftr n 4) 15)])
        with (print_hex (S fuel) up (Z.shiftr n 4)).
      assert (Hd : 0 <= n mod 16 < 16) by (apply Z.mod_pos_bound; lia). split.
      * apply Forall_app. split; [exact H1|]. repeat constructor. rewrite Hl, digit_value by exact Hd. now apply Z.leb_le.
      * rewrite number_snoc, H2, Hl, digit_value, Hs by exact Hd. pose proof (Z.div_mod n 16). lia.
Qed.

Lemma number_nonneg s : digits_only s -> 0 <= number s.
Proof.
  induction s as [|c s IH] using rev_ind; intros Hs; [reflexivity|]. apply Forall_app in Hs as [Hs Hc].
  apply Forall_cons_1 in Hc as [Hc _]. apply Z.leb_le in Hc. rewrite number_snoc. specialize (IH Hs). lia.
Qed.

Lemma decode_int_loop_app t s1 s2 r :
  decode_int_loop t (s1 ++ s2) r = (let* r := decode_int_loop t s1 r in decode_int_loop t s2 r).
Proof.
  revert r. induction s1 as [|c s1 IH]; intros r; cbn [app decode_int_loop]; [reflexivity|].
  destruct (0 <=? hex_char_to_value c); [|apply IH]. destruct (shl4 t r); [apply IH|reflexivity].
Qed.

(** The value depends on the bits that fit only. *)
Lemma convert_wrap t a b : 0 < bits t -> wrap (bits t) a = wrap (bits t) b -> convert t a = convert t b.
Proof. intros Hw E. unfold convert. destruct (signed t); [|exact E]. now rewrite <- (sint_of_wrap _ a), <- (sint_of_wrap _ b), E by lia. Qed.

Lemma wrap_wrap_ge w w' z : 0 <= w <= w' -> wrap w (wrap w' z) = wrap w z.
Proof.
  intros Hw. apply Z.bits_inj'. intros i Hi. rewrite !wrap_testbit by lia.
  destruct (Z.ltb_spec i w), (Z.ltb_spec i w'); try reflexivity; lia.
Qed.

Lemma shl4_spec t r : 8 <= bits t -> (signed t || (bits t <? 32) = true -> 0 <= r /\ r * 16 < 2 ^ Z.max 32 (bits t)) ->
  exists r', shl4 t r = Some r' /\ wrap (bits t) r' = wrap (bits t) (r * 16).
Proof.
  intros Hw H. unfold shl4. destruct (signed t || (bits t <? 32)).
  - destruct (H eq_refl) as [H1 H2]. rewrite (proj2 (Z.ltb_ge r 0)), (proj2 (Z.ltb_lt _ _)) by lia.
    eexists. split; [reflexivity|]. rewrite <- (wrap_wrap_ge (bits t) (Z.max 32 (bits t))) by lia.
    rewrite wrap_sint_of by lia. now rewrite wrap_wrap_ge by lia.
  - eexists. split; [reflexivity|]. now rewrite wrap_wrap_ge by lia.
Qed.

Lemma lor_digit t r r' v : 4 <= bits t -> 0 <= r -> 0 <= v < 16 -> wrap (bits t) r' = wrap (bits t) (r * 16) ->
  wrap (bits t) (Z.lor r' v) = wrap (bits t) (r * 16 + v).
Proof.
  intros Hw Hr Hv E. rewrite wrap_lor, E, <- wrap_lor by lia. f_equal. change 16 with (2 ^ 4). apply lor_shifted; [lia|exact Hr|exact Hv].
Qed.

(** An unsigned result is the number reduced to the width. *)
Lemma decode_int_unsigned t s : signed t = false -> 32 <= bits t -> digits_only s ->
  exists r, decode_int_loop t s 0 = Some r /\ r = wrap (bits t) (number s).
Proof.
  intros Hsg Hw. induction s as [|c s IH] using rev_ind; intros Hs.
  - exists 0. split; [reflexivity|]. now rewrite wrap_small by (split; [reflexivity|now apply Z.pow_pos_nonneg; lia]).
  - apply Forall_app in Hs as [Hs Hc]. apply Forall_cons_1 in Hc as [Hc _].
    destruct (IH Hs) as (r & E & Hr). rewrite decode_int_loop_app, E. cbn [decode_int_loop]. rewrite Hc. apply Z.leb_le in Hc.
    destruct (shl4_spec t r ltac:(lia)) as (r' & -> & Er').
    { rewrite Hsg, (proj2 (Z.ltb_ge _ _)) by lia. discriminate. }
    eexists. split; [reflexivity|]. pose proof (value_range c). pose proof (wrap_uint (bits t) (number s) ltac:(lia)) as Hu.
    unfold convert. rewrite Hsg, (lor_digit t r), number_snoc by (try exact Er'; unfold uint in Hu; lia).
    rewrite Hr. unfold wrap. rewrite Z.add_mod, Z.mul_mod_idemp_l, <- Z.add_mod by lia. reflexivity.
Qed.

(** What was printed is read back, at any width and signedness: before the
    last digit the number is small. *)
Lemma decode_int_printed t fuel up n : 16 <= bits t -> 0 <= n < 2 ^ bits t -> n < 16 ^ Z.of_nat (S fuel) ->
  decode_int_loop t (print_hex (S fuel) up n) 0 = Some (convert t n).
Proof.
  intros Hw. revert n. induction fuel as [|fuel IH]; intros n Hn Hf.
  - cbn [print_hex]. change (16 ^ Z.of_nat 1) with 16 in Hf. rewrite (proj2 (Z.ltb_lt n 16)) by lia.
    cbn [decode_int_loop]. rewrite digit_value by lia. rewrite (proj2 (Z.leb_le 0 n)) by lia.
    destruct (shl4_spec t 0) as (r' & -> & Er'); [lia|split; [lia|now apply Z.pow_pos_nonneg; lia]|].
    f_equal. apply convert_wrap; [lia|]. now rewrite (lor_digit t 0 r' n) by (try exact Er'; lia).
  - change (print_hex (S (S fuel)) up n) with (if n <? 16 then [digit up n] else print_hex (S fuel) up (Z.shiftr n 4) ++ [digit up (Z.land n 15)]).
    destruct (Z.ltb_spec n 16) as [Hlt|Hge].
    { replace [digit up n] with (print_hex (S fuel) up n) by (cbn [print_hex]; now rewrite (proj2 (Z.ltb_lt n 16))).
      apply (IH n Hn). apply Z.lt_le_trans with (16 ^ 1); [exact Hlt|apply Z.pow_le_mono_r; lia]. }
    assert (Hs : Z.shiftr n 4 = n / 16) by (rewrite Z.shiftr_div_pow2 by lia; reflexivity).
    assert (Hl : Z.land n 15 = n mod 16) by (change 15 with (Z.ones 4); rewrite Z.land_ones by lia; reflexivity).
    assert (Hp : 2 ^ bits t = 16 * 2 ^ (bits t - 4)).
    { change 16 with (2 ^ 4). rewrite <- Z.pow_add_r by lia. f_equal. lia. }
    assert (Hq : 0 <= n / 16 < 2 ^ (bits t - 4)) by (split; [apply Z.div_pos; lia|apply Z.div_lt_upper_bound; lia]).
    assert (Hd : 0 <= n mod 16 < 16) by (apply Z.mod_pos_bound; lia).
    rewrite decode_int_loop_app, (IH (Z.shiftr n 4)).
    2: { rewrite Hs. lia. }
    2: { rewrite Hs. apply Z.div_lt_upper_bound; [lia|].
         replace (16 * 16 ^ Z.of_nat (S fuel)) with (16 ^ Z.of_nat (S (S fuel))); [lia|].
         rewrite (Nat2Z.inj_succ (S fuel)), Z.pow_succ_r; lia. }
    assert (Hc : convert t (Z.shiftr n 4) = n / 16).
    { rewrite Hs. apply convert_id; [lia|]. unfold in_type, t_min, t_max.
      assert (2 ^ (bits t - 4) <= 2 ^ (bits t - 1)) by (apply Z.pow_le_mono_r; lia). pose proof (Z.pow_nonneg 2 (bits t - 1)).
      apply andb_true_iff. rewrite !Z.leb_le. destruct (signed t); lia. }
    rewrite Hc. cbn [decode_int_loop]. rewrite Hl, digit_value by exact Hd. rewrite (proj2 (Z.leb_le 0 _)) by lia.
    destruct (shl4_spec t (n / 16)) as (r' & -> & Er').
    { lia. }
    { intros _. split; [lia|]. assert (2 ^ bits t <= 2 ^ Z.max 32 (bits t)) by (apply Z.pow_le_mono_r; lia). lia. }
    f_equal. apply convert_wrap; [lia|]. rewrite (lor_digit t (n / 16) r') by (try exact Er'; lia).
    f_equal. pose proof (Z.div_mod n 16). lia.
Qed.

(** A leading zero changes nothing. *)
Lemma decode_int_zero t s : 8 <= bits t -> decode_int_loop t (48 :: s) 0 = decode_int_loop t s 0.
Proof.
  intros Hw. cbn [decode_int_loop]. change (hex_char_to_value 48) with 0. cbn [Z.leb Z.compare].
  destruct (shl4_spec t 0) as (r' & -> & Er'); [lia|split; [lia|now apply Z.pow_pos_nonneg; lia]|].
  rewrite Z.lor_0_r. replace (convert t r') with 0; [reflexivity|].
  rewrite (convert_wrap t r' 0) by (try exact Er'; lia). unfold convert, sint_of. rewrite Z.bits_0. now destruct (signed t).
Qed.

Lemma decode_int_digits t s : 8 <= bits t -> digits_only s -> decode_int t s = decode_int_loop t s 0.
Proof.
  intros Hw Hs. unfold decode_int, decode_impl_int, normalize. rewrite filter_digits by exact Hs.
  destruct (negb (Nat.even (length s))); [now apply decode_int_zero|reflexivity].
Qed.

(** *** Validation *)

Lemma valid_digits (l : list Z) : forallb (fun b => is_digit (convert char b)) l = true <-> digits_only (convert char <$> l).
Proof.
  unfold digits_only. rewrite Forall_fmap, forallb_forall, List.Forall_forall.
  split; intros H x Hx; specialize (H x Hx); cbv [compose] in *; rewrite is_digit_value in *; exact H.
Qed.

Lemma valid_blocks_spec fuel content total : (length content < fuel)%nat ->
  valid_blocks fuel content total
  = if forallb (fun b => is_digit (convert char b)) content then Some (total + length content)%nat else None.
Proof.
  revert content total. induction fuel as [|fuel IH]; intros content total Hf; [lia|]. cbn [valid_blocks].
  assert (Hb : (0 < HEX_BUF_SZ)%nat) by (unfold HEX_BUF_SZ; lia).
  rewrite length_take. destruct (Nat.eqb_spec (HEX_BUF_SZ `min` length content) 0) as [E|E].
  - assert (content = []) as -> by (apply nil_length_inv; lia). cbn. f_equal. lia.
  - rewrite IH by (rewrite length_drop; lia). rewrite length_drop.
    assert (Hsp : forallb (fun b => is_digit (convert char b)) content
      = forallb (fun b => is_digit (convert char b)) (take HEX_BUF_SZ content)
        && forallb (fun b => is_digit (convert char b)) (drop HEX_BUF_SZ content)) by (now rewrite <- forallb_app, take_drop).
    rewrite Hsp. clear Hsp.
    destruct (forallb _ (take HEX_BUF_SZ content)); [|reflexivity]. cbn [andb].
    destruct (forallb _ (drop HEX_BUF_SZ content)); [|reflexivity]. f_equal. lia.
Qed.

Lemma chars_back (s : list Z) : Forall (sint 8) s -> convert char <$> (convert uchar <$> s) = s.
Proof.
  induction 1 as [|c s Hc _ IH]; [reflexivity|]. rewrite !fmap_cons, IH. f_equal. unfold convert. cbn [signed bits char uchar].
  rewrite sint_of_wrap by lia. now apply sint_of_id.
Qed.

Lemma chars_bytes (s : list Z) : bytes (convert uchar <$> s).
Proof. apply Forall_fmap, Forall_true. intros c. apply (wrap_uint 8). lia. Qed.

Lemma encode_string_vector up s : encode_impl_string up s = encode_impl_vector up (convert uchar <$> s).
Proof.
  unfold encode_impl_string, encode_impl_vector. induction s as [|c s IH]; [reflexivity|].
  rewrite fmap_cons. cbn [flat_map]. now rewrite IH.
Qed.

(** *** The codecs *)

#[export] Instance string_codec up : Codec (Forall (sint 8)) (encode_impl_string up) (fun s => Some (decode_string s)).
Proof.
  intros s Hs. f_equal. rewrite encode_string_vector. unfold decode_string, encode_impl_vector.
  destruct (encoded_ok up _ (chars_bytes s)) as (H1 & H2 & _). rewrite normalize_id by assumption.
  unfold decode_impl_string. rewrite decode_pairs_encoded by apply chars_bytes. exact (chars_back s Hs).
Qed.

#[export] Instance vector_codec up : Codec bytes (encode_impl_vector up) (fun s => Some (decode_vector s)).
Proof.
  intros bs Hbs. f_equal. unfold decode_vector, encode_impl_vector.
  destruct (encoded_ok up bs Hbs) as (H1 & H2 & _). rewrite normalize_id by assumption.
  unfold decode_impl_vector. rewrite decode_pairs_encoded by exact Hbs. apply map_id.
Qed.

#[export] Instance int_codec t up : 16 <= bits t <= 64 -> Codec (fun n => in_type t n = true) (encode_impl_int t up) (decode_int t).
Proof.
  intros Hw n Hn. unfold encode_impl_int. rewrite (proj2 (Z.eqb_neq _ _)) by lia.
  pose proof (wrap_uint (bits t) n ltac:(lia)) as Hu.
  assert (H64 : 2 ^ bits t <= 16 ^ Z.of_nat 16) by (change (16 ^ Z.of_nat 16) with (2 ^ 64); apply Z.pow_le_mono_r; lia).
  unfold uint in Hu. destruct (print_hex_spec 15 up (wrap (bits t) n)) as [Hd _]; [lia|].
  rewrite decode_int_digits, decode_int_printed by (assumption || lia).
  f_equal. rewrite (convert_wrap t _ n) by (rewrite ?wrap_wrap by lia; reflexivity || lia). apply convert_id; [lia|exact Hn].
Qed.

Lemma decode_string_vector str : decode_string str = convert char <$> decode_vector str.
Proof.
  unfold decode_string, decode_vector, decode_impl_string, decode_impl_vector. generalize (normalize str). intros l.
  enough (H : forall k l, (length l <= k)%nat -> decode_pairs (convert char) l = convert char <$> decode_pairs (fun b => b) l)
    by (now apply (H (length l))).
  clear l. induction k as [|k IH]; intros l Hl; [destruct l; [reflexivity|cbn in Hl; lia]|].
  destruct l as [|c1 [|c2 l]]; [reflexivity| |]; cbn [decode_pairs].
  - now destruct ((0 <=? hex_char_to_value c1) && (0 <=? hex_char_to_value 0)).
  - cbn in Hl. rewrite (IH l) by lia. now destruct ((0 <=? hex_char_to_value c1) && (0 <=? hex_char_to_value c2)).
Qed.

Lemma decode_vector_digits str :
  encode_impl_vector true (decode_vector str) = map upper (normalize str)
  /\ (2 * length (decode_vector str))%nat = length (normalize str) /\ bytes (decode_vector str).
Proof.
  destruct (normalize_ok str) as [Hd He]. apply Nat.even_spec in He as [n Hn].
  destruct (decode_pairs_digits n (normalize str) Hn Hd) as (H1 & H2 & H3).
  split_and!; [exact H1|rewrite Hn; f_equal; exact H2|exact H3].
Qed.

(** ** Theorems *)

(** Decoding what was encoded gives it back, in either case: strings,
    byte vectors and integers of 16 to 64 bits, signed or not; the text of a
    string is valid unless it is empty, and distinct strings have distinct
    texts. *)
Theorem hex_roundtrip up s bs t n :
  Forall (sint 8) s -> bytes bs -> 16 <= bits t <= 64 -> in_type t n = true ->
  decode_string (encode_impl_string up s) = s
  /\ decode_vector (encode_impl_vector up bs) = bs
  /\ decode_int t (encode_impl_int t up n) = Some n
  /\ is_valid_string (encode_impl_string up s) = negb (length s =? 0)%nat
  /\ decode_stream true true (snd (encode_stream true true up s)) = (true, s)
  /\ (forall s', Forall (sint 8) s' -> encode_impl_string up s = encode_impl_string up s' -> s = s').
Proof.
  intros Hs Hbs Ht Hn. pose proof (int_codec t up Ht) as Hint.
  assert (Hdec : decode_string (encode_impl_string up s) = s).
  { pose proof (codec_roundtrip (enc := encode_impl_string up) (dec := fun s => Some (decode_string s)) s Hs). congruence. }
  split_and!.
  - exact Hdec.
  - pose proof (codec_roundtrip (enc := encode_impl_vector up) (dec := fun s => Some (decode_vector s)) bs Hbs). congruence.
  - exact (codec_roundtrip n Hn).
  - rewrite encode_string_vector. unfold is_valid_string, is_valid, encode_impl_vector.
    destruct (encoded_ok up _ (chars_bytes s)) as (H1 & H2 & H3). rewrite length_fmap, H2, H3, length_fmap.
    replace (2 * length s =? 0)%nat with (length s =? 0)%nat
      by (destruct (Nat.eqb_spec (length s) 0), (Nat.eqb_spec (2 * length s) 0); lia).
    destruct (Nat.eqb_spec (length s) 0); cbn [orb negb]; [reflexivity|].
    apply valid_digits. rewrite chars_back; [exact H1|].
    eapply List.Forall_impl; [|exact H1]. intros c Hc. pose proof Hc as Hc'. unfold hex_char_to_value in Hc'. unfold sint.
    destruct (Z.leb_spec 48 c), (Z.leb_spec c 57), (Z.leb_spec 65 c), (Z.leb_spec c 70), (Z.leb_spec 97 c), (Z.leb_spec c 102);
      cbn in Hc'; try discriminate; cbn; lia.
  - unfold decode_stream, encode_stream. cbn [negb orb snd]. now f_equal.
  - intros s' Hs'. exact (codec_inj (Forall (sint 8)) (encode_impl_string up) _ s s' Hs Hs').
Qed.

(** Decoding is total: whatever the text, the bytes are those whose
    upper-case text is the digits it has, after padding; and an unsigned integer
    of 32 bits or more is their number reduced to the width. *)
Theorem hex_decode_any str t :
  32 <= bits t -> signed t = false ->
  encode_impl_vector true (decode_vector str) = map upper (normalize str)
  /\ (2 * length (decode_vector str))%nat = length (normalize str)
  /\ decode_string str = convert char <$> decode_vector str
  /\ decode_int t str = Some (wrap (bits t) (number (normalize str))).
Proof.
  intros Hw Hsg. destruct (decode_vector_digits str) as (H1 & H2 & _).
  split_and!; [exact H1|exact H2|apply decode_string_vector|]. destruct (normalize_ok str) as [Hd _].
  destruct (decode_int_unsigned t (normalize str) Hsg Hw Hd) as (r & E & ->). exact E.
Qed.

(** The three validations agree: a text is valid when it is not empty and
    consists of an even number of digits. *)
Theorem hex_is_valid s :
  Forall (sint 8) s ->
  (is_valid_string s = true <-> s <> [] /\ Nat.even (length s) = true /\ digits_only s)
  /\ is_valid_stream true (convert uchar <$> s) = is_valid_string s
  /\ (is_valid_string s = true -> encode_impl_string true (decode_string s) = map upper s).
Proof.
  intros Hs. unfold is_valid_string, is_valid. rewrite length_fmap.
  assert (Hiff : forallb (fun b => is_digit (convert char b)) (convert uchar <$> s) = true <-> digits_only s).
  { rewrite valid_digits, chars_back by exact Hs. reflexivity. }
  assert (Hv : (if (length s =? 0)%nat || false then false else if negb (Nat.even (length s)) then false
      else forallb (fun b => is_digit (convert char b)) (convert uchar <$> s)) = true
      <-> s <> [] /\ Nat.even (length s) = true /\ digits_only s).
  { rewrite orb_false_r. destruct s as [|c s]; cbn [length Nat.eqb]; [split; [discriminate|intros [H _]; congruence]|].
    destruct (Nat.even (S (length s))); cbn [negb]; [rewrite Hiff; split; [|tauto]|split; [discriminate|intros (_ & H & _); discriminate]].
    intros H. split_and!; [discriminate|reflexivity|exact H]. }
  split_and!; [exact Hv| |].
  - unfold is_valid_stream. cbn [negb]. rewrite valid_blocks_spec by lia. rewrite orb_false_r.
    destruct (forallb _ (convert uchar <$> s)); cbn [Nat.add]; rewrite ?length_fmap;
      destruct (length s =? 0)%nat, (Nat.even (length s)); reflexivity.
  - intros H. apply Hv in H as (_ & He & Hd).
    destruct (decode_vector_digits s) as (H1 & _ & H3). rewrite normalize_id in H1 by assumption.
    rewrite encode_string_vector, decode_string_vector. replace (convert uchar <$> (convert char <$> decode_vector s)) with (decode_vector s); [exact H1|].
    symmetry. clear -H3. induction H3 as [|b l Hb _ IH]; [reflexivity|]. rewrite !fmap_cons, IH. f_equal.
    unfold convert. cbn [signed bits char uchar]. rewrite wrap_sint_of by lia. now apply wrap_small.
Qed.

(** A signed integer given more digits than it holds: the shift is undefined
    behaviour. *)
Lemma hex_int_undefined : decode_int (Ity 32 true) [49; 70; 70; 70; 70; 70; 70; 70; 70] = None.
Proof. reflexivity. Qed.

(** An 8-bit integer is written as the character itself, which is not what
    decoding reads. *)
Lemma hex_byte_raw up : encode_impl_int uchar up 65 = [65] /\ decode_int uchar [65] = Some 10.
Proof. split; reflexivity. Qed.

(** *** Witnesses *)

Lemma hex_roundtrip_witness :
  decode_string (encode_impl_string true [104; -1]) = [104; -1]
  /\ decode_vector (encode_impl_vector true [0; 255]) = [0; 255]
  /\ decode_int (Ity 32 true) (encode_impl_int (Ity 32 true) true (-2)) = Some (-2)
  /\ is_valid_string (encode_impl_string true [104; -1]) = true
  /\ decode_stream true true (snd (encode_stream true true true [104; -1])) = (true, [104; -1])
  /\ (forall s', Forall (sint 8) s' -> encode_impl_string true [104; -1] = encode_impl_string true s' -> [104; -1] = s').
Proof.
  apply (hex_roundtrip true [104; -1] [0; 255] (Ity 32 true) (-2)).
  - repeat constructor; cbn; lia.
  - repeat constructor; cbn; lia.
  - cbn. lia.
  - reflexivity.
Defined.

(** "1g2-3" *)
Lemma hex_decode_any_witness :
  encode_impl_vector true (decode_vector [49; 103; 50; 45; 51]) = map upper (normalize [49; 103; 50; 45; 51])
  /\ (2 * length (decode_vector [49; 103; 50; 45; 51]%Z))%nat = 4%nat
  /\ decode_string [49; 103; 50; 45; 51] = convert char <$> [1; 35]
  /\ decode_int (Ity 32 false) [49; 103; 50; 45; 51] = Some 291.
Proof. apply (hex_decode_any [49; 103; 50; 45; 51] (Ity 32 false)); [cbn; lia|reflexivity]. Defined.

Lemma hex_is_valid_witness :
  (is_valid_string [49; 102] = true <-> [49; 102] <> [] /\ Nat.even 2 = true /\ digits_only [49; 102])
  /\ is_valid_stream true (convert uchar <$> [49; 102]) = is_valid_string [49; 102]
  /\ (is_valid_string [49; 102] = true -> encode_impl_string true (decode_string [49; 102]) = [49; 70]).
Proof. apply (hex_is_valid [49; 102]). repeat constructor; cbn; lia. Defined.
End Hex.
