(* ===== verification/Padding.v ===== *)
(** * Padding

    The styles of padding of [crypto/des.hpp] and [crypto/aes.hpp], whose
    enumerations have the same values; the memory and string operations and the
    loops both files use; the bytes each style appends, and when they can be
    told from the message. *)

From Stdlib Require Import ZArith Lia List Bool.
From stdpp Require Import base tactics list option.
From S2P Require Import Prelude.

Open Scope hj_scope.
Open Scope nat_scope.

Inductive padding := pkcs5 | pkcs7 | zero | iso10126 | ansix923 | iso_iec_7816_4 | no_padding.
#[export] Instance padding_eq_dec : EqDecision padding.
Proof. solve_decision. Defined.

(** [memcpy(dst + idx, bs, ...)] *)
Definition write (dst : list Z) (idx : nat) (bs : list Z) : option (list Z) :=
  if idx + length bs <=? length dst then Some (take idx dst ++ bs ++ drop (idx + length bs) dst) else None.

(** [buf[start .. stop)] holds a byte other than [v]: nothing is read when
    [start] has wrapped around. *)
Definition differs (buf : list Z) (start : Z) (stop : nat) (v : Z) : option bool :=
  if (start <? Z.of_nat stop)%Z then
    if stop <=? length buf then Some (negb (forallb (fun b => b =? v)%Z (take (stop - Z.to_nat start) (drop (Z.to_nat start) buf))))
    else None
  else Some false.

(** The length without the bytes 0 that end the first [n] bytes. *)
Fixpoint strip (buf : list Z) (n : nat) : option nat :=
  match n with
  | O => Some 0
  | S n' => let* b := buf !! n' in if (b =? 0)%Z then strip buf n' else Some n
  end.


(** [std::string::resize]; none is the exception of a length too large. *)
Definition resize (s : list Z) (n : Z) : option (list Z) :=
  if (n <? 2 ^ 63)%Z then Some (take (Z.to_nat n) s ++ replicate (Z.to_nat n - length s) 0%Z) else None.

(** ** The bytes appended *)

Section Tail.
Context (rd : nat -> Z).

(** What is appended when [k] bytes are missing, at least one. *)
Definition tail (pad : padding) (k : nat) : list Z :=
  match pad with
  | pkcs5 | pkcs7 => replicate k (Z.of_nat k)
  | iso10126 => ((fun i => wrap 8 (rd i)) <$> seq 0 (k - 1)) ++ [Z.of_nat k]
  | ansix923 => replicate (k - 1) 0%Z ++ [Z.of_nat k]
  | iso_iec_7816_4 => 0x80%Z :: replicate (k - 1) 0%Z
  | zero | no_padding => replicate k 0%Z
  end.

Lemma tail_length pad k : 1 <= k -> length (tail pad k) = k.
Proof.
  intros Hk. destruct pad; cbn [tail]; rewrite ?length_app, ?length_fmap, ?length_replicate, ?length_seq; cbn [length];
    rewrite ?length_replicate; lia.
Qed.

Lemma tail_bytes pad k : 1 <= k <= 255 -> bytes (tail pad k).
Proof.
  intros Hk. assert (Hb : byte (Z.of_nat k)) by (unfold byte; lia). assert (H0 : byte 0) by (unfold byte; lia).
  assert (Hr : forall n x, byte x -> bytes (replicate n x)).
  { intros n x Hx. now apply Forall_replicate. }
  destruct pad; cbn [tail]; try (now apply Hr).
  - apply Forall_app. split; [|constructor; [exact Hb|apply List.Forall_nil]]. apply Forall_fmap, Forall_true. intros i. apply (wrap_uint 8). lia.
  - apply Forall_app. split; [now apply Hr|constructor; [exact Hb|apply List.Forall_nil]].
  - constructor; [unfold byte; lia|now apply Hr].
Qed.

End Tail.

(** When the padding can be told from the message: bytes 0 at its end are lost
    by the zero padding. *)
Definition recoverable (pad : padding) (src : list Z) : Prop :=
  match pad with zero => forall b, list.last src = Some b -> b <> 0%Z | _ => True end.

(** The lengths on which the padding is removed: the loop of ISO/IEC 7816-4
    counts with an [int]. *)
Definition max_len (pad : padding) : Z :=
  match pad with iso_iec_7816_4 => 2 ^ 31 - 16 | _ => 2 ^ 62 end.

Lemma strip_zeros buf n k : (forall i, n <= i < n + k -> buf !! i = Some 0%Z) -> strip buf (n + k) = strip buf n.
Proof.
  induction k as [|k IH]; intros H; [now rewrite Nat.add_0_r|]. rewrite Nat.add_succ_r. cbn [strip].
  rewrite (H (n + k)) by lia. cbn [Z.eqb]. apply IH. intros i Hi. apply H. lia.
Qed.

Lemma strip_stop buf n b : buf !! n = Some b -> b <> 0%Z -> strip buf (S n) = Some (S n).
Proof. intros E Hb. cbn [strip]. rewrite E. now rewrite (proj2 (Z.eqb_neq _ _)). Qed.

Lemma differs_none src mid rest v n : length src = n -> (forall b, b ∈ mid -> b = v) ->
  differs (src ++ mid ++ rest) (Z.of_nat n) (n + length mid) v = Some false.
Proof.
  intros <- H. unfold differs. destruct (_ <? _)%Z; [|reflexivity].
  rewrite !length_app, (proj2 (Nat.leb_le _ _)) by lia. rewrite Nat2Z.id, drop_app_length.
  rewrite take_app_length' by lia. f_equal. apply negb_false_iff, forallb_forall. intros b Hb. apply Z.eqb_eq, H.
  now apply list_elem_of_In.
Qed.

(** Dropping the pad bytes. *)
Lemma unpadding_last src mid rest k b : length mid = k -> 1 <= k -> (Z.of_nat k <= b)%Z -> (Z.of_nat (length src) < 2 ^ 62)%Z ->
  list.last mid = Some (Z.of_nat k) ->
  (src ++ mid ++ rest) !! (length src + k - 1) = Some (Z.of_nat k)
  /\ ((Z.of_nat k =? 0) || (b <? Z.of_nat k))%Z = false
  /\ wrap 64 (Z.of_nat (length src + k) - Z.of_nat k) = Z.of_nat (length src)
  /\ (Z.of_nat (length src) <? 2 ^ 63)%Z = true.
Proof.
  intros Hm Hk Hb Hs Hl. split_and!.
  - rewrite lookup_app_r by lia. rewrite lookup_app_l by lia. rewrite last_lookup in Hl. rewrite <- Hl. f_equal. lia.
  - decide_cmps. reflexivity.
  - replace (Z.of_nat (length src + k) - Z.of_nat k)%Z with (Z.of_nat (length src)) by lia. apply wrap_small. unfold uint. lia.
  - apply Z.ltb_lt. lia.
Qed.

Lemma last_snoc_some {A} (l : list A) x : list.last (l ++ [x]) = Some x.
Proof. apply last_snoc. Qed.

Lemma insert_last {A} (l : list A) k y : length l = k -> 1 <= k -> <[k - 1 := y]> l = take (k - 1) l ++ [y].
Proof. intros Hl Hk. rewrite insert_take_drop by lia. now rewrite drop_ge by lia. Qed.

Lemma last_replicate {A} (x : A) k : 1 <= k -> list.last (replicate k x) = Some x.
Proof. intros Hk. replace k with (k - 1 + 1) by lia. rewrite replicate_add. apply (last_snoc_some (replicate (k - 1) x)). Qed.

(** The zeros appended to a message that does not end in one. *)
Lemma strip_zero_tail src rest k : recoverable zero src ->
  strip (src ++ replicate k 0%Z ++ rest) (length src + k) = Some (length src).
Proof.
  intros Hrec. rewrite strip_zeros.
  - destruct (length src) as [|n] eqn:En; [reflexivity|]. cbn [recoverable] in Hrec. rewrite last_lookup, En in Hrec. cbn [Nat.pred] in Hrec.
    destruct (lookup_lt_is_Some_2 src n ltac:(lia)) as [b Eb]. apply (strip_stop _ n b); [|now apply Hrec].
    now rewrite lookup_app_l by lia.
  - intros i Hi. rewrite lookup_app_r by lia. rewrite lookup_app_l by (rewrite length_replicate; lia). apply lookup_replicate_2. lia.
Qed.

(** The mark appended, and the zeros behind it. *)
Lemma strip_mark_tail src rest k : 1 <= k ->
  strip (src ++ (0x80%Z :: replicate (k - 1) 0%Z) ++ rest) (length src + k) = Some (S (length src))
  /\ (src ++ (0x80%Z :: replicate (k - 1) 0%Z) ++ rest) !! length src = Some 0x80%Z.
Proof.
  intros Hk. assert (Hl : (src ++ (0x80%Z :: replicate (k - 1) 0%Z) ++ rest) !! length src = Some 0x80%Z).
  { rewrite lookup_app_r, Nat.sub_diag by lia. reflexivity. }
  split; [|exact Hl]. replace (length src + k) with (S (length src) + (k - 1)) by lia. rewrite strip_zeros.
  - apply (strip_stop _ _ 0x80%Z); [exact Hl|discriminate].
  - intros i Hi. rewrite lookup_app_r by lia. rewrite lookup_app_l by (cbn; rewrite length_replicate; lia).
    replace (i - length src) with (S (i - length src - 1)) by lia. cbn. apply lookup_replicate_2. lia.
Qed.

Lemma recoverable_drop pad src n : recoverable pad src -> recoverable pad (drop n src).
Proof.
  intros H. destruct pad; cbn in *; auto. intros b Hb. destruct (Nat.lt_ge_cases n (length src)) as [Hn|Hn].
  - apply H. rewrite !last_lookup, length_drop, lookup_drop in *. rewrite <- Hb. f_equal. lia.
  - rewrite drop_ge in Hb by lia. discriminate.
Qed.

(** ** Memory *)

(** Writing after a prefix of the right length. *)
Lemma write_next done dst idx bs : length done = idx -> idx + length bs <= length dst ->
  write (done ++ drop idx dst) idx bs = Some ((done ++ bs) ++ drop (idx + length bs) dst).
Proof.
  intros Hd Hl. unfold write. rewrite length_app, length_drop, (proj2 (Nat.leb_le _ _)) by lia.
  rewrite take_app_length' by lia. rewrite drop_app_ge by lia. rewrite drop_drop, <- app_assoc. do 4 f_equal. lia.
Qed.

Lemma write_first dst bs : length bs <= length dst -> write dst 0 bs = Some (bs ++ drop (length bs) dst).
Proof. intros H. exact (write_next [] dst 0 bs eq_refl H). Qed.

Lemma resize_take (s : list Z) n : (Z.of_nat n < 2 ^ 63)%Z -> n <= length s -> resize s (Z.of_nat n) = Some (take n s).
Proof.
  intros H Hl. unfold resize. rewrite (proj2 (Z.ltb_lt _ _)) by exact H. rewrite Nat2Z.id.
  replace (n - length s) with 0 by lia. cbn. now rewrite app_nil_r.
Qed.
