(* ===== verification/Des.v ===== *)
(** * DES in its modes of operation

    [crypto/des.hpp]: the block modes written by hand over the single-block
    primitive of the cryptographic library, the paddings, and the functions on
    buffers, strings, streams and files.  The primitive, its key schedules and
    [std::random_device] are parameters.  Bytes are numbers below 256, a pointer
    is a list or none, and a [DES_cblock] a list of 8 bytes.  [None] is undefined
    behaviour: a read or a write outside of a buffer.  The loops over blocks are
    written by block number. *)

From Stdlib Require Import ZArith Lia List Bool.
From stdpp Require Import base tactics list option.
From S2P Require Import Prelude Padding.

Open Scope hj_scope.
Open Scope nat_scope.

Module Des.

Inductive error_code :=
| ok | invalid_key | invalid_iv | invalid_plain | invalid_padding | invalid_input | invalid_output
| buffer_too_small | encrypt_failed | decrypt_failed | file_io_failed | unsupported_algorithm | unknown.
Inductive mode := ecb | cbc | cfb | ofb | ctr.

#[export] Instance error_code_eq_dec : EqDecision error_code.
Proof. solve_decision. Defined.
#[export] Instance mode_eq_dec : EqDecision mode.
Proof. solve_decision. Defined.

Definition block_size : nat := 8.

(** ** Memory *)

(** [memcpy(block, src + idx, 8)] *)
Definition read8 (src : list Z) (idx : nat) : option (list Z) :=
  if idx + 8 <=? length src then Some (take 8 (drop idx src)) else None.
Definition memset0 (dst : list Z) (idx n : nat) : option (list Z) := write dst idx (replicate n 0%Z).
Definition xor (a b : list Z) : list Z := zip_with Z.lxor a b.

(** [for(i = 7; i >= 0; --i) if(++ctr_block[i] != 0) break;] *)
Fixpoint incr_rev (l : list Z) : list Z :=
  match l with
  | [] => []
  | b :: l => let b' := wrap 8 (b + 1) in if (b' =? 0)%Z then b' :: incr_rev l else b' :: l
  end.
Definition incr (ctr_block : list Z) : list Z := rev (incr_rev (rev ctr_block)).

(** ** Validation *)

Definition is_key_valid (key : option (list Z)) : bool :=
  match key with None => false | Some k => negb ((length k <? 8) || negb (length k mod 8 =? 0)) end.
Definition is_iv_valid (mod_ : mode) (iv : option (list Z)) : bool :=
  if bool_decide (mod_ <> ecb) && match iv with None => true | Some v => negb (length v =? 8) end then false else true.
Definition is_plain_valid (src : option (list Z)) (pad_style : padding) : bool :=
  match src with
  | None => false
  | Some s =>
      if length s =? 0 then false
      else if bool_decide (pad_style = no_padding) && negb (length s mod 8 =? 0) then false else true
  end.
(** On a stream of which [rest] is not read yet. *)
Definition is_plain_valid_stream (rest : list Z) (pad_style : padding) : bool :=
  if bool_decide (pad_style = no_padding) then
    if (length rest =? 0) || negb (length rest mod 8 =? 0) then false else true
  else true.
Definition is_need_padding (pad_style : padding) : bool :=
  match pad_style with no_padding => false | _ => true end.

Definition encrypt_len_reserve (src_len : nat) : nat := src_len / 8 * 8 + 8.
Definition decrypt_len_reserve (src_len : nat) : nat := src_len / 8 * 8 + 8.

Section Des.
Context {KS : Type} (DES_set_key_unchecked : list Z -> KS)
  (** the direction, encryption or not, first *)
  (DES_ecb_encrypt : bool -> KS -> list Z -> list Z)
  (** successive values of the random device *)
  (rd : nat -> Z).

(** ** Padding *)

(** The first [src_len] bytes of [src], the rest by the style; at most
    [dst_len - 1] bytes are given. *)
Definition padding_block (dst_len : nat) (src : list Z) (src_len : nat) (pad_style : padding) : list Z :=
  let dst := take dst_len (take src_len src ++ replicate dst_len 0%Z) in
  let pad_val := wrap 8 (Z.of_nat (dst_len - src_len)) in
  match pad_style with
  | pkcs5 | pkcs7 => take src_len dst ++ replicate (dst_len - src_len) pad_val
  | iso10126 => <[dst_len - 1 := pad_val]> (take src_len dst ++ ((fun i => wrap 8 (rd i)) <$> seq 0 (dst_len - src_len)))
  | ansix923 => <[dst_len - 1 := pad_val]> dst
  | iso_iec_7816_4 => if src_len <? dst_len then <[src_len := 0x80%Z]> dst else dst
  | zero | no_padding => dst
  end.

(** The buffer, and the length as a [size_t]: the subtraction of the pad byte
    may wrap. *)
Definition unpadding_block (buf : list Z) (len : nat) (pad_style : padding) : option (list Z * Z) :=
  let same := Some (buf, Z.of_nat len) in
  match pad_style with
  | pkcs5 | pkcs7 =>
      if len =? 0 then same else
      let* pad := buf !! (len - 1) in
      if (pad =? 0)%Z || (8 <? pad)%Z then same else
      let start := wrap 64 (Z.of_nat len - pad) in
      let* d := differs buf start len pad in
      if d : bool then same else
      (if (start <? 2 ^ 63)%Z then let* buf := memset0 buf (Z.to_nat start) (Z.to_nat pad) in Some (buf, start) else None)
  | zero =>
      let* len := strip buf len in
      let* buf := (if len <? block_size then memset0 buf len (block_size - len) else Some buf) in
      Some (buf, Z.of_nat len)
  | iso10126 =>
      if len =? 0 then same else
      let* pad := buf !! (len - 1) in
      if (pad =? 0)%Z || (8 <? pad)%Z then same else
      let start := wrap 64 (Z.of_nat len - pad) in
      (if (start <? 2 ^ 63)%Z then let* buf := memset0 buf (Z.to_nat start) (Z.to_nat pad) in Some (buf, start) else None)
  | ansix923 =>
      if len =? 0 then same else
      let* pad := buf !! (len - 1) in
      if (pad =? 0)%Z || (8 <? pad)%Z then same else
      let start := wrap 64 (Z.of_nat len - pad) in
      let* d := differs buf start (len - 1) 0 in
      if d : bool then same else Some (buf, start)
  | iso_iec_7816_4 =>
      (* the index is [static_cast<int>(len - 1)] *)
      let i := sint_of 32 (wrap 64 (Z.of_nat len - 1)) in
      let* n := strip buf (Z.to_nat (i + 1)) in
      let* hit := (match n with O => Some false | S i => let* b := buf !! i in Some (b =? 0x80)%Z end) in
      let len := if hit : bool then n - 1 else len in
      let* buf := (if len <? block_size then memset0 buf len (block_size - len) else Some buf) in
      Some (buf, Z.of_nat len)
  | no_padding => same
  end.

(** ** Keys *)

Definition multiple_key (key : list Z) : list KS :=
  (fun i => DES_set_key_unchecked (take 8 (drop (i * 8) key))) <$> seq 0 (length key / 8).

Fixpoint ede_encrypt_from (i : nat) (ks : list KS) (block : list Z) : list Z :=
  match ks with
  | [] => block
  | k :: ks => ede_encrypt_from (S i) ks (DES_ecb_encrypt (i mod 2 =? 0) k block)
  end.
Definition ede_encrypt (ks : list KS) (block : list Z) : list Z :=
  match ks with
  | [k0] => DES_ecb_encrypt true k0 block
  | [k0; k1] => DES_ecb_encrypt true k0 (DES_ecb_encrypt false k1 (DES_ecb_encrypt true k0 block))
  | [k0; k1; k2] => DES_ecb_encrypt true k2 (DES_ecb_encrypt false k1 (DES_ecb_encrypt true k0 block))
  | _ => ede_encrypt_from 0 ks block
  end.

(** From the last schedule down. *)
Fixpoint ede_decrypt_from (i : nat) (ks : list KS) (block : list Z) : list Z :=
  match ks with
  | [] => block
  | k :: ks => DES_ecb_encrypt (negb (i mod 2 =? 0)) k (ede_decrypt_from (S i) ks block)
  end.
Definition ede_decrypt (ks : list KS) (block : list Z) : list Z :=
  match ks with
  | [k0] => DES_ecb_encrypt false k0 block
  | [k0; k1] => DES_ecb_encrypt false k0 (DES_ecb_encrypt true k1 (DES_ecb_encrypt false k0 block))
  | [k0; k1; k2] => DES_ecb_encrypt false k0 (DES_ecb_encrypt true k1 (DES_ecb_encrypt false k2 block))
  | _ => ede_decrypt_from 0 ks block
  end.

(** ** Encryption of a buffer *)

(** What a function on buffers leaves: its result, the destination, and the
    length it sets. *)
Record outcome := Out { ec : error_code; buffer : list Z; out_len : nat }.

(** The branch without padding of an input that ends within a block; [dst_len]
    is 0 there, so nothing is cleared. *)
Definition refuse (dst : list Z) : option outcome := Some (Out invalid_padding dst 0).

Definition encrypt_ecb (ks : list KS) (pad_style : padding) (src dst : list Z) : option outcome :=
  let n := length src / 8 in
  let* dst := for_up (fun i dst =>
      let* block := read8 src (8 * i) in write dst (8 * i) (ede_encrypt ks block)) 0 n dst in
  let idx := 8 * n in
  let remain := length src - idx in
  if bool_decide (pad_style = no_padding) && (0 <? remain) then refuse dst else
  if (0 <? remain) || is_need_padding pad_style then
    let last_block := padding_block 8 (drop idx src) remain pad_style in
    let* dst := write dst idx (ede_encrypt ks last_block) in
    Some (Out ok dst (idx + 8))
  else Some (Out ok dst idx).

Definition encrypt_cbc (ks : list KS) (pad_style : padding) (iv : list Z) (src dst : list Z) : option outcome :=
  let* iv_block := read8 iv 0 in
  let n := length src / 8 in
  let* (dst, iv_block) := for_up (fun i '(dst, iv_block) =>
      let* block := read8 src (8 * i) in
      let block := ede_encrypt ks (xor block iv_block) in
      let* dst := write dst (8 * i) block in Some (dst, block)) 0 n (dst, iv_block) in
  let idx := 8 * n in
  let remain := length src - idx in
  if bool_decide (pad_style = no_padding) && (0 <? remain) then refuse dst else
  if (0 <? remain) || is_need_padding pad_style then
    let last_block := xor (padding_block 8 (drop idx src) remain pad_style) iv_block in
    let* dst := write dst idx (ede_encrypt ks last_block) in
    Some (Out ok dst (idx + 8))
  else Some (Out ok dst idx).

Definition encrypt_cfb (ks : list KS) (pad_style : padding) (iv : list Z) (src dst : list Z) : option outcome :=
  let* iv_block := read8 iv 0 in
  let full_blocks := length src / 8 in
  let remain := length src mod 8 in
  let* (dst, iv_block) := for_up (fun i '(dst, iv_block) =>
      let block := ede_encrypt ks iv_block in
      let* s := read8 src (i * 8) in
      let* dst := write dst (i * 8) (xor s block) in
      let* iv_block := read8 dst (i * 8) in Some (dst, iv_block)) 0 full_blocks (dst, iv_block) in
  let idx := full_blocks * 8 in
  if is_need_padding pad_style then
    let last_block := if 0 <? remain then padding_block 8 (drop idx src) remain pad_style
                      else padding_block 8 [] 0 pad_style in
    let block := ede_encrypt ks iv_block in
    let* dst := write dst idx (xor last_block block) in
    Some (Out ok dst (idx + 8))
  else if 0 <? remain then
    if bool_decide (pad_style = no_padding) then refuse dst else
    let block := ede_encrypt ks iv_block in
    let* dst := write dst idx (xor (take remain (drop idx src)) block) in
    Some (Out ok dst (idx + remain))
  else Some (Out ok dst idx).

Definition encrypt_ofb (ks : list KS) (pad_style : padding) (iv : list Z) (src dst : list Z) : option outcome :=
  let* iv_block := read8 iv 0 in
  let full_blocks := length src / 8 in
  let remain := length src mod 8 in
  if bool_decide (pad_style = no_padding) && (0 <? remain) then refuse dst else
  let* (dst, iv_block) := for_up (fun i '(dst, iv_block) =>
      let block := ede_encrypt ks iv_block in
      let* s := read8 src (i * 8) in
      let* dst := write dst (i * 8) (xor s block) in Some (dst, block)) 0 full_blocks (dst, iv_block) in
  let idx := full_blocks * 8 in
  if is_need_padding pad_style then
    let last_block := if 0 <? remain then padding_block 8 (drop idx src) remain pad_style
                      else padding_block 8 [] 0 pad_style in
    let block := ede_encrypt ks iv_block in
    let* dst := write dst idx (xor last_block block) in
    Some (Out ok dst (idx + 8))
  else if 0 <? remain then
    let block := ede_encrypt ks iv_block in
    let* dst := write dst idx (xor (take remain (drop idx src)) block) in
    Some (Out ok dst (idx + remain))
  else Some (Out ok dst idx).

(** The loop runs while [idx < padded_len]. *)
Definition encrypt_ctr (ks : list KS) (pad_style : padding) (iv : list Z) (src dst : list Z) : option outcome :=
  let* ctr_block := read8 iv 0 in
  let src_len := length src in
  let padded_len := if is_need_padding pad_style then
      let pad := 8 - src_len mod 8 in let pad := if pad =? 0 then 8 else pad in src_len + pad
    else src_len in
  let* (dst, _) := for_up (fun i '(dst, ctr_block) =>
      let idx := 8 * i in
      let* block := (if idx + 8 <=? src_len then read8 src idx
                     else if idx <? src_len then Some (padding_block 8 (drop idx src) (src_len - idx) pad_style)
                     else Some (padding_block 8 [] 0 pad_style)) in
      let keystream := ede_encrypt ks ctr_block in
      let* dst := write dst idx (xor block keystream) in
      Some (dst, incr ctr_block)) 0 ((padded_len + 7) / 8) (dst, ctr_block) in
  Some (Out ok dst padded_len).

(** A null [dst] is none; its length argument is kept when nothing is done. *)
Definition encrypt (dst : option (list Z)) (dst_len : nat) (src key : option (list Z)) (mod_ : mode)
    (pad_style : padding) (iv : option (list Z)) : option outcome :=
  let fail e := Some (Out e (default [] dst) dst_len) in
  if negb (is_key_valid key) then fail invalid_key else
  if negb (is_iv_valid mod_ iv) then fail invalid_iv else
  if negb (is_plain_valid src pad_style) then fail invalid_plain else
  match dst, src, key with
  | None, _, _ => fail buffer_too_small
  | Some dst, Some src, Some key =>
      let ks := multiple_key key in
      match mod_, iv with
      | ecb, _ => encrypt_ecb ks pad_style src dst
      | _, None => Some (Out invalid_iv dst 0)
      | cbc, Some iv => encrypt_cbc ks pad_style iv src dst
      | cfb, Some iv => encrypt_cfb ks pad_style iv src dst
      | ofb, Some iv => encrypt_ofb ks pad_style iv src dst
      | ctr, Some iv => encrypt_ctr ks pad_style iv src dst
      end
  | _, _, _ => None
  end.

(** ** Decryption of a buffer *)

(** [for(; idx < src_len; idx += 8)] *)
Definition decrypt_ecb (ks : list KS) (src dst : list Z) : option (list Z * nat) :=
  let n := (length src + 7) / 8 in
  let* dst := for_up (fun i dst =>
      let* block := read8 src (8 * i) in write dst (8 * i) (ede_decrypt ks block)) 0 n dst in
  Some (dst, 8 * n).
Definition decrypt_cbc (ks : list KS) (iv : list Z) (src dst : list Z) : option (list Z * nat) :=
  let* iv_block := read8 iv 0 in
  let n := (length src + 7) / 8 in
  let* (dst, _) := for_up (fun i '(dst, iv_block) =>
      let* tmp := read8 src (8 * i) in
      let* dst := write dst (8 * i) (xor (ede_decrypt ks tmp) iv_block) in Some (dst, tmp)) 0 n (dst, iv_block) in
  Some (dst, 8 * n).
Definition decrypt_cfb (ks : list KS) (iv : list Z) (src dst : list Z) : option (list Z * nat) :=
  let* iv_block := read8 iv 0 in
  let full_blocks := length src / 8 in
  let remain := length src mod 8 in
  let* (dst, iv_block) := for_up (fun i '(dst, iv_block) =>
      let block := ede_encrypt ks iv_block in
      let* s := read8 src (i * 8) in
      let* dst := write dst (i * 8) (xor s block) in Some (dst, s)) 0 full_blocks (dst, iv_block) in
  let idx := full_blocks * 8 in
  if 0 <? remain then
    let block := ede_encrypt ks iv_block in
    let* dst := write dst idx (xor (take remain (drop idx src)) block) in Some (dst, idx + remain)
  else Some (dst, idx).
Definition decrypt_ofb (ks : list KS) (iv : list Z) (src dst : list Z) : option (list Z * nat) :=
  let* iv_block := read8 iv 0 in
  let full_blocks := length src / 8 in
  let remain := length src mod 8 in
  let* (dst, iv_block) := for_up (fun i '(dst, iv_block) =>
      let block := ede_encrypt ks iv_block in
      let* s := read8 src (i * 8) in
      let* dst := write dst (i * 8) (xor s block) in Some (dst, block)) 0 full_blocks (dst, iv_block) in
  let idx := full_blocks * 8 in
  if 0 <? remain then
    let block := ede_encrypt ks iv_block in
    let* dst := write dst idx (xor (take remain (drop idx src)) block) in Some (dst, idx + remain)
  else Some (dst, idx).
Definition decrypt_ctr (ks : list KS) (iv : list Z) (src dst : list Z) : option (list Z * nat) :=
  let* ctr_block := read8 iv 0 in
  let src_len := length src in
  let* (dst, _) := for_up (fun i '(dst, ctr_block) =>
      let idx := 8 * i in
      let keystream := ede_encrypt ks ctr_block in
      let chunk := if 8 <=? src_len - idx then 8 else src_len - idx in
      let* dst := write dst idx (xor (take chunk (drop idx src)) keystream) in
      Some (dst, incr ctr_block)) 0 ((src_len + 7) / 8) (dst, ctr_block) in
  Some (dst, src_len).

(** The length set is a [size_t]. *)
Definition decrypt (dst : option (list Z)) (dst_len : Z) (src : list Z) (key : option (list Z)) (mod_ : mode)
    (pad_style : padding) (iv : option (list Z)) : option (error_code * list Z * Z) :=
  let fail e := Some (e, default [] dst, dst_len) in
  if negb (is_key_valid key) then fail invalid_key else
  if negb (is_iv_valid mod_ iv) then fail invalid_iv else
  match dst, key with
  | None, _ => fail buffer_too_small
  | Some dst, Some key =>
      let ks := multiple_key key in
      let* (dst, n) := (match mod_, iv with
        | ecb, _ => decrypt_ecb ks src dst
        | cbc, Some iv => decrypt_cbc ks iv src dst
        | cfb, Some iv => decrypt_cfb ks iv src dst
        | ofb, Some iv => decrypt_ofb ks iv src dst
        | ctr, Some iv => decrypt_ctr ks iv src dst
        | _, None => None
        end) in
      let* (dst, n) := unpadding_block dst n pad_style in
      Some (ok, dst, n)
  | _, _ => None
  end.

(** ** Strings *)

Definition iv_ptr (mod_ : mode) (iv : list Z) : option (list Z) :=
  if bool_decide (mod_ = ecb) then None else Some iv.

Definition encrypt_string (src key : list Z) (mod_ : mode) (pad_style : padding) (iv : list Z) : option (error_code * list Z) :=
  let dst_len := encrypt_len_reserve (length src) in
  let* o := encrypt (Some (replicate dst_len 0%Z)) dst_len (Some src) (Some key) mod_ pad_style (iv_ptr mod_ iv) in
  if bool_decide (ec o = ok) then let* s := resize (buffer o) (Z.of_nat (out_len o)) in Some (ok, s)
  else Some (ec o, []).
Definition decrypt_string (src key : list Z) (mod_ : mode) (pad_style : padding) (iv : list Z) : option (error_code * list Z) :=
  let dst_len := decrypt_len_reserve (length src) in
  let* (e, dst, n) := decrypt (Some (replicate dst_len 0%Z)) (Z.of_nat dst_len) src (Some key) mod_ pad_style (iv_ptr mod_ iv) in
  if bool_decide (e = ok) then let* s := resize dst n in Some (ok, s) else Some (e, []).

(** ** Streams *)

(** The chaining blocks: [iv_block] and [ctr_block]. *)
#[local] Abbreviation chain := (list Z * list Z)%type.

(** [_stream_block_encrypt]: the block written, and the chaining blocks. *)
Definition stream_block_encrypt (ks : list KS) (mod_ : mode) (c : chain) (inbuf : list Z) : list Z * chain :=
  let '(iv_block, ctr_block) := c in
  match mod_ with
  | ecb => (ede_encrypt ks inbuf, c)
  | cbc => let block := ede_encrypt ks (xor inbuf iv_block) in (block, (block, ctr_block))
  | cfb => let outbuf := xor inbuf (ede_encrypt ks iv_block) in (outbuf, (outbuf, ctr_block))
  | ofb => let block := ede_encrypt ks iv_block in (xor inbuf block, (block, ctr_block))
  | ctr => (xor inbuf (ede_encrypt ks ctr_block), (iv_block, incr ctr_block))
  end.

(** The switch of the decryption loop. *)
Definition stream_block_decrypt (ks : list KS) (mod_ : mode) (c : chain) (inbuf : list Z) : list Z * chain :=
  let '(iv_block, ctr_block) := c in
  match mod_ with
  | ecb => (ede_decrypt ks inbuf, c)
  | cbc => (xor (ede_decrypt ks inbuf) iv_block, (inbuf, ctr_block))
  | cfb => (xor inbuf (ede_encrypt ks iv_block), (inbuf, ctr_block))
  | ofb => let block := ede_encrypt ks iv_block in (xor inbuf block, (block, ctr_block))
  | ctr => (xor inbuf (ede_encrypt ks ctr_block), (iv_block, incr ctr_block))
  end.

(** Blocks that are never set are empty: no mode reads them. *)
Definition chain_init (mod_ : mode) (iv : option (list Z)) : chain :=
  match iv with
  | Some v =>
      if 8 <=? length v then
        (if bool_decide (mod_ <> ecb) then take 8 v else [], if bool_decide (mod_ = ctr) then take 8 v else [])
      else ([], [])
  | None => ([], [])
  end.

(** The loop, over what is left of the input; a block is the last when the
    next byte cannot be read. *)
Fixpoint encrypt_stream_loop (fuel : nat) (ks : list KS) (mod_ : mode) (pad_style : padding) (c : chain) (rest out : list Z)
    : option (error_code * list Z) :=
  match fuel with
  | O => None
  | S fuel =>
      let inbuf := take block_size rest in
      let read_len := length inbuf in
      let rest := drop block_size rest in
      if read_len =? 0 then Some (ok, out) else
      let is_last_block := (read_len <? block_size) || (length rest =? 0) in
      if negb is_last_block then
        let '(o, c) := stream_block_encrypt ks mod_ c inbuf in
        encrypt_stream_loop fuel ks mod_ pad_style c rest (out ++ o)
      else if bool_decide (pad_style = no_padding) then
        if negb (read_len =? block_size) then Some (invalid_padding, out) else
        let '(o, c) := stream_block_encrypt ks mod_ c inbuf in Some (ok, out ++ o)
      else if read_len =? block_size then
        let '(o1, c) := stream_block_encrypt ks mod_ c inbuf in
        let '(o2, c) := stream_block_encrypt ks mod_ c (padding_block block_size [] 0 pad_style) in
        Some (ok, out ++ o1 ++ o2)
      else
        let '(o, c) := stream_block_encrypt ks mod_ c (padding_block block_size inbuf read_len pad_style) in
        Some (ok, out ++ o)
  end.
(** [in_good], [out_good]: the states of the streams; the result and what is
    written. *)
Definition encrypt_stream (out_good in_good : bool) (content : list Z) (key : option (list Z)) (mod_ : mode)
    (pad_style : padding) (iv : option (list Z)) : option (error_code * list Z) :=
  if negb in_good || negb out_good then Some (file_io_failed, []) else
  if negb (is_key_valid key) then Some (invalid_key, []) else
  if negb (is_iv_valid mod_ iv) then Some (invalid_iv, []) else
  let ks := multiple_key (default [] key) in
  encrypt_stream_loop (S (length content)) ks mod_ pad_style (chain_init mod_ iv) content [].

(** The loop writes each block when the next one has been read. *)
Fixpoint decrypt_stream_loop (fuel : nat) (ks : list KS) (mod_ : mode) (pad_style : padding) (c : chain)
    (prev : option (list Z)) (rest out : list Z) : option (error_code * list Z) :=
  match fuel with
  | O => None
  | S fuel =>
      let inbuf := take block_size rest in
      let read_len := length inbuf in
      let rest := drop block_size rest in
      if read_len =? 0 then Some (ok, out) else
      if negb (read_len =? block_size) then Some (invalid_padding, out) else
      let '(outbuf, c) := stream_block_decrypt ks mod_ c inbuf in
      let has_next_block := negb (length rest =? 0) in
      let out := match prev with Some p => out ++ p | None => out end in
      if negb has_next_block then
        if bool_decide (pad_style = no_padding) then Some (ok, out ++ outbuf) else
        let* (outbuf, final_len) := unpadding_block outbuf block_size pad_style in
        Some (ok, out ++ take (Z.to_nat final_len) outbuf)
      else decrypt_stream_loop fuel ks mod_ pad_style c (Some outbuf) rest out
  end.
Definition decrypt_stream (out_good in_good : bool) (content : list Z) (key : option (list Z)) (mod_ : mode)
    (pad_style : padding) (iv : option (list Z)) : option (error_code * list Z) :=
  if negb in_good then Some (invalid_input, []) else
  if negb out_good then Some (invalid_output, []) else
  if negb (is_key_valid key) then Some (invalid_key, []) else
  if negb (is_iv_valid mod_ iv) then Some (invalid_iv, []) else
  let ks := multiple_key (default [] key) in
  decrypt_stream_loop (S (length content)) ks mod_ pad_style (chain_init mod_ iv) None content [].

(** ** Files *)

(** [src], [dst]: whether the files could be opened; [content] of the first. *)
Definition encrypt_file (dst src : bool) (content : list Z) (key : option (list Z)) (mod_ : mode) (pad_style : padding)
    (iv : option (list Z)) : option (error_code * list Z) :=
  if negb src then Some (file_io_failed, []) else
  if negb dst then Some (file_io_failed, []) else encrypt_stream true true content key mod_ pad_style iv.
Definition encrypt_file_string (dst src : bool) (content key : list Z) (mod_ : mode) (pad_style : padding) (iv : list Z) :=
  encrypt_file dst src content (Some key) mod_ pad_style (iv_ptr mod_ iv).
Definition decrypt_file (dst src : bool) (content : list Z) (key : option (list Z)) (mod_ : mode) (pad_style : padding)
    (iv : option (list Z)) : option (error_code * list Z) :=
  if negb src then Some (file_io_failed, []) else
  if negb dst then Some (file_io_failed, []) else decrypt_stream true true content key mod_ pad_style iv.
Definition decrypt_file_string (dst src : bool) (content key : list Z) (mod_ : mode) (pad_style : padding) (iv : list Z) :=
  decrypt_file dst src content (Some key) mod_ pad_style (iv_ptr mod_ iv).
End Des.
End Des.
