(* ===== verification/DesModes.v ===== *)
(** * DES: the modes as steps on blocks

    The reference for [Des]: a mode is a step from a chaining state and a block
    to a block and a chaining state, run over the list of blocks of the padded
    message.  The single-block primitive is known by the laws of [BlockPrim].
    The steps of decryption undo those of encryption, and every loop of the
    functions on buffers and streams is a run of the steps. *)

From Stdlib Require Import ZArith Lia List Bool.
From stdpp Require Import base tactics list option.
From S2P Require Import Prelude Ints Padding Des.

Open Scope hj_scope.
Open Scope nat_scope.

Import Des.

(** ** Blocks *)

Definition block (b : list Z) : Prop := length b = 8 /\ bytes b.

(** What the library promises of its primitive: it maps blocks to blocks, and
    each direction undoes the other. *)
Class BlockPrim {KS : Type} (prim : bool -> KS -> list Z -> list Z) : Prop :=
  { prim_block e k b : block b -> block (prim e k b);
    prim_inverse e k b : block b -> prim (negb e) k (prim e k b) = b }.

Lemma xor_length a b : length a = length b -> length (xor a b) = length a.
Proof. intros E. unfold xor. rewrite length_zip_with. lia. Qed.

Lemma xor_bytes a b : bytes a -> bytes b -> bytes (xor a b).
Proof.
  intros Ha. revert b. induction Ha as [|x a Hx _ IH]; intros b Hb; [constructor|].
  destruct Hb as [|y b Hy Hb]; [constructor|]. constructor; [apply (lxor_uint 8); [lia|exact Hx|exact Hy]|now apply IH].
Qed.

Lemma xor_block a b : block a -> block b -> block (xor a b).
Proof. intros [H1 H2] [H3 H4]. split; [rewrite xor_length; lia|now apply xor_bytes]. Qed.

Lemma xor_twice a b : length a = length b -> xor (xor a b) b = a.
Proof.
  revert b. induction a as [|x a IH]; intros [|y b] E; try reflexivity; try discriminate.
  cbn. f_equal; [now rewrite Z.lxor_assoc, Z.lxor_nilpotent, Z.lxor_0_r|]. apply IH. now injection E.
Qed.

Lemma incr_rev_bytes l : bytes l -> bytes (incr_rev l).
Proof.
  induction 1 as [|x l Hx Hl IH]; [constructor|]. cbn [incr_rev].
  assert (Hw : byte (wrap 8 (x + 1))) by (apply (wrap_uint 8); lia).
  destruct (wrap 8 (x + 1) =? 0)%Z; constructor; assumption.
Qed.

Lemma incr_rev_length l : length (incr_rev l) = length l.
Proof. induction l as [|x l IH]; [reflexivity|]. cbn [incr_rev]. destruct (_ =? 0)%Z; cbn; congruence. Qed.

Lemma bytes_rev l : bytes l -> bytes (rev l).
Proof. intros H. apply List.Forall_rev. exact H. Qed.

Lemma incr_block b : block b -> block (incr b).
Proof.
  intros [H1 H2]. split.
  - unfold incr. now rewrite length_rev, incr_rev_length, length_rev.
  - now apply bytes_rev, incr_rev_bytes, bytes_rev.
Qed.

(** ** Reads and writes *)

Lemma read8_take src idx : idx + 8 <= length src -> read8 src idx = Some (take 8 (drop idx src)).
Proof. intros H. unfold read8. now rewrite (proj2 (Nat.leb_le _ _)) by lia. Qed.

Lemma read8_written done rest idx bs : length done = idx -> length bs = 8 -> read8 ((done ++ bs) ++ rest) idx = Some bs.
Proof.
  intros Hd Hb. rewrite read8_take by (rewrite !length_app; lia).
  rewrite <- app_assoc, drop_app_length' by lia. now rewrite take_app_length' by lia.
Qed.

(** ** Running a mode *)

#[local] Abbreviation chain := (list Z * list Z)%type.

Section Run.
Context (stepf : chain -> list Z -> list Z * chain).

Fixpoint run (c : chain) (bs : list (list Z)) : list (list Z) * chain :=
  match bs with
  | [] => ([], c)
  | b :: bs => let '(o, c) := stepf c b in let '(os, c) := run c bs in (o :: os, c)
  end.

Lemma run_snoc c bs b :
  run c (bs ++ [b]) = let '(os, c) := run c bs in let '(o, c) := stepf c b in (os ++ [o], c).
Proof.
  revert c. induction bs as [|b' bs IH]; intros c; cbn [app run].
  - destruct (stepf c b) as [o c1]. reflexivity.
  - destruct (stepf c b') as [o c1]. rewrite IH. destruct (run c1 bs) as [os c2]. destruct (stepf c2 b) as [o' c3]. reflexivity.
Qed.

Lemma run_length c bs : length (run c bs).1 = length bs.
Proof.
  revert c. induction bs as [|b bs IH]; intros c; [reflexivity|]. cbn [run].
  destruct (stepf c b) as [o c1]. specialize (IH c1). destruct (run c1 bs) as [os c2]. cbn in *. lia.
Qed.

Context (okc : chain -> Prop)
  (step_ok : forall c b, okc c -> block b -> block (stepf c b).1 /\ okc (stepf c b).2).

Lemma run_ok c bs : okc c -> Forall block bs -> Forall block (run c bs).1 /\ okc (run c bs).2.
Proof.
  intros Hc Hbs. revert c Hc. induction Hbs as [|b bs Hb _ IH]; intros c Hc; cbn [run]; [split; [constructor|exact Hc]|].
  destruct (step_ok c b Hc Hb) as [H1 H2]. destruct (stepf c b) as [o c1]. cbn [fst snd] in *.
  destruct (IH c1 H2) as [H3 H4]. destruct (run c1 bs) as [os c2]. cbn [fst snd] in *. split; [now constructor|exact H4].
Qed.

(** A loop that, at each turn, writes what the step gives for the block [blk i]:
    [R] relates its state to the destination and the chaining state. *)
Lemma loop_run {St} (R : St -> list Z -> chain -> Prop) (body : nat -> St -> option St) (blk : nat -> list Z) n s dst c :
  R s dst c -> okc c -> 8 * n <= length dst -> (forall i, i < n -> block (blk i)) ->
  (forall i s d d' c, i < n -> okc c -> R s d c -> write d (8 * i) (stepf c (blk i)).1 = Some d' ->
     read8 d' (8 * i) = Some (stepf c (blk i)).1 ->
     exists s', body i s = Some s' /\ R s' d' (stepf c (blk i)).2) ->
  exists s', for_up body 0 n s = Some s'
    /\ R s' (concat (run c (blk <$> seq 0 n)).1 ++ drop (8 * n) dst) (run c (blk <$> seq 0 n)).2.
Proof.
  intros HR Hc Hlen Hblk Hbody.
  destruct (for_up_inv (fun k s => R s (concat (run c (blk <$> seq 0 k)).1 ++ drop (8 * k) dst) (run c (blk <$> seq 0 k)).2)
    body 0 n s) as (s' & E & H).
  - cbn. now rewrite drop_0.
  - intros k t [_ Hk] Ht. cbn [Nat.add] in Hk. rewrite seq_S, fmap_app. cbn [fmap list_fmap Nat.add]. rewrite run_snoc.
    assert (Hall : Forall block (blk <$> seq 0 k)).
    { apply Forall_fmap, List.Forall_forall. intros i Hi. apply in_seq in Hi. apply Hblk. lia. }
    destruct (run_ok c _ Hc Hall) as [Hos Hck]. pose proof (run_length c (blk <$> seq 0 k)) as Hl.
    destruct (run c (blk <$> seq 0 k)) as [os ck]. cbn [fst snd] in *. rewrite length_fmap, length_seq in Hl.
    destruct (step_ok ck (blk k) Hck (Hblk k Hk)) as [[Ho Hob] _].
    assert (Hcl : length (concat os) = 8 * k).
    { clear -Hos Hl. revert k Hl. induction Hos as [|o os [Ho _] _ IH]; intros k Hl; cbn in *; [lia|].
      rewrite length_app, Ho, (IH (length os) eq_refl). lia. }
    pose proof (write_next (concat os) dst (8 * k) (stepf ck (blk k)).1 Hcl ltac:(lia)) as Hw.
    destruct (Hbody k t _ _ ck Hk Hck Ht Hw) as (s' & E & Hs').
    { apply read8_written; lia. }
    exists s'. split; [exact E|]. destruct (stepf ck (blk k)) as [o c']. cbn [fst snd] in *.
    rewrite concat_app. cbn [concat]. rewrite app_nil_r. rewrite Ho in Hs'. replace (8 * S k) with (8 * k + 8) by lia. exact Hs'.
  - exists s'. split; [exact E|exact H].
Qed.
End Run.

(** Decryption that undoes each step undoes the run. *)
Lemma run_inverse enc dec (okc : chain -> Prop) c bs :
  (forall c b, okc c -> block b -> block (enc c b).1 /\ okc (enc c b).2) ->
  (forall c b, okc c -> block b -> dec c (enc c b).1 = (b, (enc c b).2)) ->
  okc c -> Forall block bs -> run dec c (run enc c bs).1 = (bs, (run enc c bs).2).
Proof.
  intros Hok Hinv Hc Hbs. revert c Hc. induction Hbs as [|b bs Hb _ IH]; intros c Hc; [reflexivity|]. cbn [run].
  pose proof (Hinv c b Hc Hb) as E. destruct (Hok c b Hc Hb) as [_ Hc']. destruct (enc c b) as [o c1]. cbn [fst snd] in *.
  specialize (IH c1 Hc'). destruct (run enc c1 bs) as [os c2]. cbn [fst run] in *. now rewrite E, IH.
Qed.

(** ** The steps *)

Section Steps.
Context {KS : Type} (prim : bool -> KS -> list Z -> list Z) `{!BlockPrim prim}.

Lemma prim_inverse' e k b : block b -> prim e k (prim (negb e) k b) = b.
Proof. intros Hb. rewrite <- (negb_involutive e) at 1. now apply prim_inverse. Qed.

Lemma ede_from_inverse ks : forall i b, block b ->
  block (ede_encrypt_from prim i ks b) /\ ede_decrypt_from prim i ks (ede_encrypt_from prim i ks b) = b.
Proof.
  induction ks as [|k ks IH]; intros i b Hb; [split; [exact Hb|reflexivity]|]. cbn [ede_encrypt_from ede_decrypt_from].
  destruct (IH (S i) (prim (i mod 2 =? 0) k b)) as [H1 H2]; [now apply prim_block|].
  split; [exact H1|]. rewrite H2. now apply prim_inverse.
Qed.

(** The cascade of any number of keys is undone. *)
Lemma ede_inverse ks b : block b -> block (ede_encrypt prim ks b) /\ ede_decrypt prim ks (ede_encrypt prim ks b) = b.
Proof.
  intros Hb. unfold ede_encrypt, ede_decrypt.
  destruct ks as [|k0 [|k1 [|k2 [|k3 ks]]]]; try apply (ede_from_inverse _ 0 b Hb).
  - split; [now apply prim_block|]. now apply (prim_inverse true).
  - split; [repeat apply prim_block; exact Hb|].
    rewrite (prim_inverse true), (prim_inverse false), (prim_inverse true) by (repeat apply prim_block; exact Hb). reflexivity.
  - split; [repeat apply prim_block; exact Hb|].
    rewrite (prim_inverse true), (prim_inverse false), (prim_inverse true) by (repeat apply prim_block; exact Hb). reflexivity.
Qed.

(** The chaining blocks a mode reads are set. *)
Definition chain_ok (m : mode) (c : chain) : Prop :=
  match m with ecb => True | ctr => block c.2 | _ => block c.1 end.

Lemma step_ok ks m c b : chain_ok m c -> block b ->
  block (stream_block_encrypt prim ks m c b).1 /\ chain_ok m (stream_block_encrypt prim ks m c b).2.
Proof.
  intros Hc Hb. destruct c as [iv ct]. destruct m; cbn in *.
  - split; [now apply ede_inverse|exact I].
  - assert (H : block (ede_encrypt prim ks (xor b iv))) by now apply ede_inverse, xor_block. auto.
  - assert (H : block (xor b (ede_encrypt prim ks iv))) by now apply xor_block, ede_inverse. auto.
  - split; [now apply xor_block, ede_inverse|now apply ede_inverse].
  - split; [now apply xor_block, ede_inverse|now apply incr_block].
Qed.

Lemma step_inverse ks m c b : chain_ok m c -> block b ->
  stream_block_decrypt prim ks m c (stream_block_encrypt prim ks m c b).1 = (b, (stream_block_encrypt prim ks m c b).2).
Proof.
  intros Hc Hb. destruct c as [iv ct]. pose proof Hb as [Hl _].
  assert (He : forall x, block x -> length x = length (ede_encrypt prim ks x)).
  { intros x Hx. destruct (ede_inverse ks x Hx) as [[E _] _]. destruct Hx as [E' _]. lia. }
  destruct m; cbn in *.
  - f_equal. now apply ede_inverse.
  - f_equal. destruct (ede_inverse ks (xor b iv)) as [_ E]; [now apply xor_block|]. rewrite E. apply xor_twice. destruct Hc. lia.
  - f_equal. apply xor_twice. rewrite <- He by exact Hc. destruct Hc. lia.
  - f_equal. apply xor_twice. rewrite <- He by exact Hc. destruct Hc. lia.
  - f_equal. apply xor_twice. rewrite <- He by exact Hc. destruct Hc. lia.
Qed.

Lemma chain_init_ok m iv : is_iv_valid m iv = true -> (match iv with Some v => bytes v | None => True end) -> chain_ok m (chain_init m iv).
Proof.
  unfold is_iv_valid, chain_init. intros Hv Hb. destruct iv as [v|].
  - destruct (bool_decide_reflect (m <> ecb)) as [Hm|Hm]; [|destruct m; [exact I|exfalso; apply Hm; discriminate..]].
    cbn [andb] in Hv. destruct (Nat.eqb_spec (length v) 8) as [E|E]; [|discriminate]. rewrite E. cbn [Nat.leb].
    assert (Hblk : block (take 8 v)) by (rewrite take_ge by lia; split; [exact E|exact Hb]).
    destruct m; cbn; try exact Hblk; exact I.
  - destruct m; [exact I|discriminate..].
Qed.
End Steps.

(** ** Padding *)

Section Padding.
Context (rd : nat -> Z).

(** [_padding_block] of a partial block. *)
Lemma padding_block_tail s pad : length s < 8 -> padding_block rd 8 s (length s) pad = s ++ tail rd pad (8 - length s).
Proof.
  intros Hs. unfold padding_block. set (k := 8 - length s). assert (Hk : 1 <= k <= 8) by lia.
  assert (Hdst : take 8 (take (length s) s ++ replicate 8 0%Z) = s ++ replicate k 0%Z).
  { rewrite (take_ge s) by lia. rewrite take_app_ge by lia. rewrite take_replicate. do 2 f_equal. lia. }
  rewrite Hdst, take_app_length. assert (Hw : wrap 8 (Z.of_nat k) = Z.of_nat k) by (apply wrap_small; unfold uint; lia).
  rewrite Hw. destruct pad; cbn [tail]; try reflexivity.
  - rewrite insert_app_r_alt by lia. f_equal. replace (8 - 1 - length s) with (k - 1) by lia.
    rewrite insert_last by (rewrite ?length_fmap, ?length_seq; lia). f_equal. rewrite <- fmap_take. f_equal.
    replace k with (k - 1 + 1) at 2 by lia. rewrite seq_app, take_app_length' by (now rewrite length_seq). reflexivity.
  - rewrite insert_app_r_alt by lia. f_equal. replace (8 - 1 - length s) with (k - 1) by lia.
    rewrite insert_last by (rewrite ?length_replicate; lia). f_equal. rewrite take_replicate. f_equal. lia.
  - rewrite (proj2 (Nat.ltb_lt _ _)) by lia. rewrite insert_app_r_alt, Nat.sub_diag by lia. f_equal.
    destruct k as [|k']; [lia|]. cbn. now rewrite Nat.sub_0_r.
Qed.

Lemma memset0_app src mid rest : memset0 (src ++ mid ++ rest) (length src) (length mid)
  = Some (src ++ replicate (length mid) 0%Z ++ rest).
Proof.
  unfold memset0, write. rewrite length_replicate, !length_app, (proj2 (Nat.leb_le _ _)) by lia.
  rewrite take_app_length, drop_app_ge by lia. rewrite (drop_app_ge mid) by lia.
  replace (length src + length mid - length src - length mid) with 0 by lia. now rewrite drop_0.
Qed.

(** Clearing up to the end of the first block. *)
Lemma memset0_block buf n : 8 <= length buf -> exists buf',
  (if n <? block_size then memset0 buf n (block_size - n) else Some buf) = Some buf'
  /\ length buf' = length buf /\ take n buf' = take n buf.
Proof.
  intros Hl. destruct (Nat.ltb_spec n block_size) as [H|H]; [|eauto]. unfold block_size in *. unfold memset0, write.
  rewrite length_replicate, (proj2 (Nat.leb_le _ _)) by lia. eexists. split; [reflexivity|]. split.
  - rewrite !length_app, length_take, length_replicate, length_drop. lia.
  - rewrite take_app_length' by (rewrite length_take; lia). reflexivity.
Qed.

Lemma unpadding_tail pad src rest k : pad <> no_padding -> recoverable pad src -> 1 <= k <= 8 -> 8 <= length src + k ->
  (Z.of_nat (length src) < max_len pad)%Z ->
  exists buf', unpadding_block (src ++ tail rd pad k ++ rest) (length src + k) pad = Some (buf', Z.of_nat (length src))
    /\ take (length src) buf' = src /\ length buf' = length (src ++ tail rd pad k ++ rest).
Proof.
  intros Hp Hrec Hk Hlen Hmax. assert (Hs : (Z.of_nat (length src) < 2 ^ 62)%Z) by (destruct pad; cbn in Hmax; lia). pose proof (tail_length rd pad k ltac:(lia)) as Htl.
  assert (Hne : (length src + k =? 0) = false) by (apply Nat.eqb_neq; lia).
  assert (Hclear : exists buf', memset0 (src ++ tail rd pad k ++ rest) (length src) k = Some buf'
    /\ take (length src) buf' = src /\ length buf' = length (src ++ tail rd pad k ++ rest)).
  { pose proof (memset0_app src (tail rd pad k) rest) as E. rewrite Htl in E. rewrite E. eexists. split_and!; [reflexivity|apply take_app_length|].
    rewrite !length_app, length_replicate, Htl. reflexivity. }
  assert (Hblk : forall n, exists buf', (if n <? block_size then memset0 (src ++ tail rd pad k ++ rest) n (block_size - n)
      else Some (src ++ tail rd pad k ++ rest)) = Some buf' /\ length buf' = length (src ++ tail rd pad k ++ rest)
      /\ take n buf' = take n (src ++ tail rd pad k ++ rest)).
  { intros n. apply memset0_block. rewrite !length_app. lia. }
  pose proof (last_replicate (Z.of_nat k) k ltac:(lia)) as Hpk.
  unfold unpadding_block. rewrite Hne. destruct pad; try congruence; cbn [tail] in *.
  - destruct (unpadding_last src _ rest k 8 Htl ltac:(lia) ltac:(lia) Hs Hpk) as (-> & -> & -> & ->).
    pose proof (differs_none src (replicate k (Z.of_nat k)) rest (Z.of_nat k) _ eq_refl) as Hd. rewrite Htl in Hd.
    rewrite Hd by (intros b Hb; now apply elem_of_replicate in Hb as [-> _]).
    destruct Hclear as (buf' & E & H1 & H2). rewrite !Nat2Z.id, E. eauto.
  - destruct (unpadding_last src _ rest k 8 Htl ltac:(lia) ltac:(lia) Hs Hpk) as (-> & -> & -> & ->).
    pose proof (differs_none src (replicate k (Z.of_nat k)) rest (Z.of_nat k) _ eq_refl) as Hd. rewrite Htl in Hd.
    rewrite Hd by (intros b Hb; now apply elem_of_replicate in Hb as [-> _]).
    destruct Hclear as (buf' & E & H1 & H2). rewrite !Nat2Z.id, E. eauto.
  - rewrite (strip_zero_tail src rest k Hrec). destruct (Hblk (length src)) as (buf' & -> & H1 & H2). rewrite take_app_length in H2. eauto.
  - destruct (unpadding_last src _ rest k 8 Htl ltac:(lia) ltac:(lia) Hs (last_snoc_some _ _)) as (-> & -> & -> & ->).
    destruct Hclear as (buf' & E & H1 & H2). rewrite !Nat2Z.id, E. eauto.
  - destruct (unpadding_last src _ rest k 8 Htl ltac:(lia) ltac:(lia) Hs (last_snoc_some _ _)) as (-> & -> & -> & _).
    pose proof (differs_none src (replicate (k - 1) 0%Z) ([Z.of_nat k] ++ rest) 0 _ eq_refl) as Hd.
    rewrite length_replicate in Hd. rewrite <- app_assoc. replace (length src + k - 1) with (length src + (k - 1)) by lia.
    rewrite Hd by (intros b Hb; now apply elem_of_replicate in Hb as [-> _]).
    eexists. split_and!; [reflexivity|apply take_app_length|reflexivity].
  - destruct (strip_mark_tail src rest k ltac:(lia)) as [Hst Hmk].
    rewrite wrap_small by (unfold uint; cbn in Hmax; lia). rewrite sint_of_id by (unfold sint; cbn in Hmax; lia).
    replace (Z.to_nat (Z.of_nat (length src + k) - 1 + 1)) with (length src + k) by lia.
    rewrite Hst, Hmk. cbn [Z.eqb Pos.eqb].
    replace (S (length src) - 1) with (length src) by lia.
    destruct (Hblk (length src)) as (buf' & -> & H1 & H2). rewrite take_app_length in H2. eauto.
Qed.
End Padding.
