(* ===== verification/DesThm.v ===== *)
(** * DES: theorems

    Encryption of a buffer and of a stream is the run of the mode over the
    blocks of the padded message ([DesModes]); decryption runs the inverse steps
    and removes the padding. *)

From Stdlib Require Import ZArith Lia List Bool.
From stdpp Require Import base tactics list option.
From S2P Require Import Prelude Padding Des DesModes.

Open Scope hj_scope.
Open Scope nat_scope.

Import Des.

#[local] Abbreviation chain := (list Z * list Z)%type.

(** ** The blocks of the padded message *)

Definition blocks (src : list Z) (n : nat) : list (list Z) := (fun i => take 8 (drop (8 * i) src)) <$> seq 0 n.
Definition all_blocks (rd : nat -> Z) (pad : padding) (src : list Z) : list (list Z) :=
  let n := length src / 8 in
  blocks src n ++ (if is_need_padding pad then [padding_block rd 8 (drop (8 * n) src) (length src - 8 * n) pad] else []).

(** A message the mode accepts: padded, or a whole number of blocks. *)
Definition fits (pad : padding) (src : list Z) : Prop := is_need_padding pad = true \/ length src mod 8 = 0.

Lemma blocks_cons src n : blocks src (S n) = take 8 src :: blocks (drop 8 src) n.
Proof.
  unfold blocks. cbn [seq fmap list_fmap]. rewrite drop_0. f_equal. rewrite <- fmap_S_seq, <- list_fmap_compose.
  apply list_fmap_ext. intros i k _. cbv [compose]. rewrite drop_drop. f_equal. f_equal. lia.
Qed.

Lemma all_blocks_cons rd pad src : 8 <= length src -> all_blocks rd pad src = take 8 src :: all_blocks rd pad (drop 8 src).
Proof.
  intros Hl. unfold all_blocks. rewrite length_drop.
  assert (Hn : length src / 8 = S ((length src - 8) / 8)).
  { replace (length src) with ((length src - 8) + 1 * 8) at 1 by lia. rewrite Nat.div_add by lia. lia. }
  rewrite Hn, blocks_cons. cbn [app]. do 2 f_equal. destruct (is_need_padding pad); [|reflexivity].
  rewrite drop_drop. f_equal. f_equal; [f_equal; lia|lia].
Qed.

Lemma all_blocks_short rd pad src : length src < 8 ->
  all_blocks rd pad src = if is_need_padding pad then [padding_block rd 8 src (length src) pad] else [].
Proof. intros Hl. unfold all_blocks. rewrite Nat.div_small by exact Hl. cbn. now rewrite drop_0, Nat.sub_0_r. Qed.

(** Induction on the number of whole blocks. *)
Lemma message_ind (P : list Z -> Prop) :
  (forall src : list Z, length src < 8 -> P src) -> (forall src : list Z, 8 <= length src -> P (drop 8 src) -> P src) -> forall src, P src.
Proof.
  intros H1 H2 src. induction src as [src IH] using (induction_ltof1 _ (@length Z)). unfold ltof in IH.
  destruct (Nat.lt_ge_cases (length src) 8) as [H|H]; [now apply H1|]. apply H2; [exact H|]. apply IH. rewrite length_drop. lia.
Qed.

Lemma mod8_drop (src : list Z) : 8 <= length src -> length (drop 8 src) mod 8 = length src mod 8.
Proof. intros H. rewrite length_drop. replace (length src) with ((length src - 8) + 1 * 8) at 2 by lia. now rewrite Nat.Div0.mod_add. Qed.

Lemma bytes_app (a b : list Z) : bytes (a ++ b) <-> bytes a /\ bytes b.
Proof. apply Forall_app. Qed.

Lemma all_blocks_block rd pad src : bytes src -> fits pad src -> Forall block (all_blocks rd pad src).
Proof.
  induction src as [src Hs|src Hl IH] using message_ind; intros Hb Hf.
  - rewrite all_blocks_short by exact Hs. destruct Hf as [-> |Hm].
    + constructor; [|constructor]. rewrite padding_block_tail by exact Hs. split.
      * rewrite length_app, tail_length by lia. lia.
      * apply bytes_app. split; [exact Hb|apply tail_bytes; lia].
    + destruct (is_need_padding pad); [|constructor]. constructor; [|constructor]. rewrite padding_block_tail by exact Hs. split.
      * rewrite length_app, tail_length by lia. lia.
      * apply bytes_app. split; [exact Hb|apply tail_bytes; lia].
  - rewrite all_blocks_cons by exact Hl. rewrite <- (take_drop 8 src) in Hb. apply bytes_app in Hb as [H1 H2]. constructor.
    + split; [rewrite length_take; lia|exact H1].
    + apply IH; [exact H2|]. destruct Hf as [Hf|Hf]; [now left|right]. now rewrite mod8_drop.
Qed.

Lemma all_blocks_concat rd pad src : fits pad src ->
  concat (all_blocks rd pad src) = src ++ (if is_need_padding pad then tail rd pad (8 - length src mod 8) else []).
Proof.
  induction src as [src Hs|src Hl IH] using message_ind; intros Hf.
  - rewrite all_blocks_short by exact Hs. rewrite Nat.mod_small by exact Hs. destruct (is_need_padding pad) eqn:Ep; cbn [concat].
    + rewrite app_nil_r. now apply padding_block_tail.
    + destruct Hf as [Hf|Hf]; [congruence|]. rewrite Nat.mod_small in Hf by exact Hs. apply nil_length_inv in Hf. now subst.
  - rewrite all_blocks_cons by exact Hl. cbn [concat]. rewrite IH, mod8_drop by (exact Hl || (destruct Hf; [now left|right; now rewrite mod8_drop])).
    now rewrite app_assoc, take_drop.
Qed.

Lemma length_concat_blocks (bs : list (list Z)) : Forall block bs -> length (concat bs) = 8 * length bs.
Proof. induction 1 as [|b bs [Hb _] _ IH]; [reflexivity|]. cbn [concat length]. rewrite length_app. lia. Qed.

Lemma bytes_concat (bs : list (list Z)) : Forall block bs -> bytes (concat bs).
Proof. induction 1 as [|b bs [_ Hb] _ IH]; [constructor|]. cbn [concat]. now apply bytes_app. Qed.

(** Cutting a concatenation of blocks gives the blocks. *)
Lemma blocks_concat bs rest n : Forall block bs -> n = length bs -> blocks (concat bs ++ rest) n = bs.
Proof.
  intros Hb. revert n. induction Hb as [|b bs [Hl _] _ IH]; intros n ->; [reflexivity|]. cbn [length concat].
  rewrite blocks_cons, <- app_assoc. rewrite take_app_length', drop_app_length' by lia. f_equal. now apply IH.
Qed.

Lemma all_blocks_length rd pad src : length (all_blocks rd pad src) = length src / 8 + (if is_need_padding pad then 1 else 0).
Proof. unfold all_blocks, blocks. rewrite length_app, length_fmap, length_seq. now destruct (is_need_padding pad). Qed.

(** The whole message is cut at the same places by the loop of [ctr]. *)
Lemma all_blocks_seq rd pad src : fits pad src ->
  all_blocks rd pad src = (fun i => if 8 * i + 8 <=? length src then take 8 (drop (8 * i) src)
     else padding_block rd 8 (drop (8 * i) src) (length src - 8 * i) pad) <$> seq 0 (length (all_blocks rd pad src)).
Proof.
  intros Hf. rewrite all_blocks_length. unfold all_blocks, blocks. set (n := length src / 8).
  pose proof (Nat.div_mod_eq (length src) 8) as Hd. pose proof (Nat.mod_upper_bound (length src) 8). fold n in Hd.
  rewrite seq_app, fmap_app. f_equal.
  - apply list_fmap_ext. intros k i Hi. apply lookup_seq in Hi as [-> Hi]. now rewrite (proj2 (Nat.leb_le _ _)) by lia.
  - destruct (is_need_padding pad); [|reflexivity]. cbn [seq fmap list_fmap Nat.add]. now rewrite (proj2 (Nat.leb_gt _ _)) by lia.
Qed.

(** ** Buffers *)

Section Modes.
Context {KS : Type} (prim : bool -> KS -> list Z -> list Z) `{!BlockPrim prim} (rd : nat -> Z) (ks : list KS).

Definition enc_run (m : mode) (iv : option (list Z)) := run (stream_block_encrypt prim ks m) (chain_init m iv).
Definition dec_run (m : mode) (iv : option (list Z)) := run (stream_block_decrypt prim ks m) (chain_init m iv).

(** Writing the last block. *)
Lemma last_write m c bs b dst : chain_ok m c -> Forall block bs -> block b -> 8 * length bs + 8 <= length dst ->
  let stepf := stream_block_encrypt prim ks m in
  write (concat (run stepf c bs).1 ++ drop (8 * length bs) dst) (8 * length bs) (stepf (run stepf c bs).2 b).1
  = Some (concat (run stepf c (bs ++ [b])).1 ++ drop (8 * length bs + 8) dst).
Proof.
  intros Hc Hbs Hb Hl stepf. destruct (run_ok stepf (chain_ok m) (step_ok prim ks m) c bs Hc Hbs) as [Hos Hck].
  pose proof (run_length stepf c bs) as Hn. rewrite run_snoc. destruct (run stepf c bs) as [os ck]. cbn [fst snd] in *.
  destruct (step_ok prim ks m ck b Hck Hb) as [[Ho _] _]. fold stepf in Ho. destruct (stepf ck b) as [o c']. cbn [fst snd] in *.
  rewrite write_next by (rewrite ?length_concat_blocks by exact Hos; lia). rewrite concat_app, Ho. cbn [concat]. now rewrite app_nil_r.
Qed.

Lemma blocks_block src n : bytes src -> 8 * n <= length src -> forall i, i < n -> block (take 8 (drop (8 * i) src)).
Proof.
  intros Hb Hn i Hi. split; [rewrite length_take, length_drop; lia|]. now apply Forall_take, Forall_drop.
Qed.

Lemma blocks_length src n : length (blocks src n) = n.
Proof. unfold blocks. now rewrite length_fmap, length_seq. Qed.

Lemma blocks_forall src n : bytes src -> 8 * n <= length src -> Forall block (blocks src n).
Proof.
  intros Hb Hn. apply Forall_fmap, List.Forall_forall. intros i Hi. apply in_seq in Hi. apply (blocks_block src n); auto. lia.
Qed.

(** The parts of a message: whole blocks, and what the padding completes. *)
Lemma message_parts pad src : bytes src -> fits pad src -> let n := length src / 8 in
  8 * n <= length src /\ (forall i, i < n -> block (take 8 (drop (8 * i) src))) /\ Forall block (blocks src n)
  /\ length src - 8 * n = length src mod 8 /\ length (drop (8 * n) src) = length src mod 8
  /\ (if is_need_padding pad then block (padding_block rd 8 (drop (8 * n) src) (length src mod 8) pad)
        /\ all_blocks rd pad src = blocks src n ++ [padding_block rd 8 (drop (8 * n) src) (length src mod 8) pad]
      else length src mod 8 = 0 /\ all_blocks rd pad src = blocks src n).
Proof.
  intros Hb Hf n. pose proof (Nat.div_mod_eq (length src) 8) as Hd. pose proof (Nat.mod_upper_bound (length src) 8). fold n in Hd.
  assert (Hn : 8 * n <= length src) by lia. assert (Hr : length src - 8 * n = length src mod 8) by lia.
  pose proof (all_blocks_block rd pad src Hb Hf) as Hall.
  assert (Hab : all_blocks rd pad src = blocks src n ++ (if is_need_padding pad then [padding_block rd 8 (drop (8 * n) src) (length src mod 8) pad] else [])).
  { unfold all_blocks. fold n. now rewrite Hr. }
  split_and!; [exact Hn|now apply blocks_block|now apply blocks_forall|exact Hr|now rewrite length_drop|].
  rewrite Hab in Hall |- *. destruct (is_need_padding pad) eqn:Ep.
  - split; [|reflexivity]. apply Forall_app in Hall as [_ Hl]. now apply Forall_cons_1 in Hl as [Hl _].
  - rewrite app_nil_r. split; [|reflexivity]. destruct Hf as [Hf|Hf]; congruence.
Qed.

(** What encryption leaves in the destination. *)
Definition encrypted (m : mode) (pad : padding) (iv : option (list Z)) (src dst : list Z) : outcome :=
  let bs := all_blocks rd pad src in
  Out ok (concat (enc_run m iv bs).1 ++ drop (8 * length bs) dst) (8 * length bs).

Lemma iv_read iv : length iv = 8 -> read8 iv 0 = Some (take 8 iv).
Proof. intros H. rewrite read8_take by lia. now rewrite drop_0. Qed.

Lemma chain_init_eq m iv : length iv = 8 ->
  chain_init m (Some iv) = match m with ecb => ([], []) | ctr => (take 8 iv, take 8 iv) | _ => (take 8 iv, []) end.
Proof. intros H. unfold chain_init. rewrite H. now destruct m. Qed.

Lemma iv_block iv : length iv = 8 -> bytes iv -> block (take 8 iv).
Proof. intros H Hb. rewrite take_ge by lia. now split. Qed.

Lemma zero_remain n : n mod 8 = 0 -> (0 <? n mod 8) = false.
Proof. intros ->. reflexivity. Qed.

Lemma needed pad : is_need_padding pad = true -> pad <> no_padding.
Proof. now destruct pad. Qed.
Lemma not_needed pad : is_need_padding pad = false -> pad = no_padding.
Proof. now destruct pad. Qed.

Lemma encrypt_ecb_run pad src dst : bytes src -> fits pad src -> 8 * length (all_blocks rd pad src) <= length dst ->
  encrypt_ecb prim rd ks pad src dst = Some (encrypted ecb pad None src dst).
Proof.
  intros Hb Hf Hl. destruct (message_parts pad src Hb Hf) as (Hn & Hblk & Hbs & Hr & Hdl & Hcase).
  unfold encrypt_ecb, encrypted, enc_run. cbv zeta. set (n := length src / 8) in *. cbn [chain_init].
  assert (Hl' : 8 * n <= length dst).
  { rewrite all_blocks_length in Hl. fold n in Hl. lia. }
  destruct (loop_run (stream_block_encrypt prim ks ecb) (chain_ok ecb) (step_ok prim ks ecb) (fun s d _ => s = d)
    (fun i dst => let* block := read8 src (8 * i) in write dst (8 * i) (ede_encrypt prim ks block))
    (fun i => take 8 (drop (8 * i) src)) n dst dst ([], []) eq_refl I Hl' Hblk) as (s' & E & Hs').
  { intros i s d d' [c1 c2] Hi _ -> Hw _. exists d'. split; [|reflexivity]. rewrite read8_take by lia. exact Hw. }
  rewrite E. cbn iota beta. fold (blocks src n) in Hs'. rewrite Hs', Hr. destruct (is_need_padding pad) eqn:Ep.
  - destruct Hcase as [Hp ->]. rewrite bool_decide_eq_false_2 by now apply needed. rewrite orb_true_r. cbn [andb].
    pose proof (last_write ecb ([], []) (blocks src n) _ dst I Hbs Hp) as Hw. rewrite blocks_length in Hw. cbv zeta in Hw.
    rewrite length_app, blocks_length. cbn [length]. replace (8 * (n + 1)) with (8 * n + 8) by lia.
    destruct (run (stream_block_encrypt prim ks ecb) ([], []) (blocks src n)) as [os [c1 c2]] eqn:Er. cbn [fst snd stream_block_encrypt] in *.
    rewrite Hw; [reflexivity|]. rewrite all_blocks_length, Ep in Hl. fold n in Hl. lia.
  - destruct Hcase as [Hm ->]. rewrite zero_remain by exact Hm. rewrite andb_false_r. cbn [orb]. now rewrite blocks_length.
Qed.

(** The block that ends a padded message. *)
Lemma final_block pad src : let n := length src / 8 in
  (if 0 <? length src mod 8 then padding_block rd 8 (drop (n * 8) src) (length src mod 8) pad else padding_block rd 8 [] 0 pad)
  = padding_block rd 8 (drop (8 * n) src) (length src mod 8) pad.
Proof.
  cbv zeta. rewrite (Nat.mul_comm (length src / 8)). destruct (Nat.ltb_spec 0 (length src mod 8)) as [H|H]; [reflexivity|].
  assert (E : length src mod 8 = 0) by lia. rewrite E. rewrite drop_ge; [reflexivity|]. pose proof (Nat.div_mod_eq (length src) 8). lia.
Qed.

(** The functions that keep a chaining block beside the destination. *)
Lemma encrypt_chained m pad iv src dst (body : nat -> list Z * list Z -> option (list Z * list Z)) (sel : chain -> list Z) :
  bytes src -> fits pad src -> length iv = 8 -> bytes iv -> 8 * length (all_blocks rd pad src) <= length dst ->
  let stepf := stream_block_encrypt prim ks m in
  let c0 := chain_init m (Some iv) in
  let n := length src / 8 in
  (forall i d d' c b, i < n -> read8 src (8 * i) = Some b -> write d (8 * i) (stepf c b).1 = Some d' ->
     read8 d' (8 * i) = Some (stepf c b).1 -> body i (d, sel c) = Some (d', sel (stepf c b).2)) ->
  let mid := run stepf c0 (blocks src n) in
  for_up body 0 n (dst, sel c0) = Some (concat mid.1 ++ drop (8 * n) dst, sel mid.2)
  /\ (if is_need_padding pad then
        write (concat mid.1 ++ drop (8 * n) dst) (8 * n) (stepf mid.2 (padding_block rd 8 (drop (8 * n) src) (length src mod 8) pad)).1
        = Some (buffer (encrypted m pad (Some iv) src dst)) /\ 8 * length (all_blocks rd pad src) = 8 * n + 8
      else length src mod 8 = 0 /\ concat mid.1 ++ drop (8 * n) dst = buffer (encrypted m pad (Some iv) src dst)
        /\ 8 * length (all_blocks rd pad src) = 8 * n).
Proof.
  intros Hb Hf Hi8 Hib Hl stepf c0 n Hbody mid. destruct (message_parts pad src Hb Hf) as (Hn & Hblk & Hbs & Hr & Hdl & Hcase). fold n in Hn, Hblk, Hbs, Hcase.
  assert (Hl' : 8 * n + (if is_need_padding pad then 8 else 0) <= length dst).
  { rewrite all_blocks_length in Hl. fold n in Hl. destruct (is_need_padding pad); lia. }
  assert (Hc0 : chain_ok m c0).
  { apply (chain_init_ok m (Some iv)); [|exact Hib]. unfold is_iv_valid. rewrite Hi8. cbn. now rewrite andb_false_r. }
  destruct (loop_run stepf (chain_ok m) (step_ok prim ks m) (fun s d c => s = (d, sel c)) body (fun i => take 8 (drop (8 * i) src)) n
    (dst, sel c0) dst c0 eq_refl Hc0 ltac:(lia) Hblk) as (s' & E & Hs').
  { intros i s d d' c Hi _ -> Hw Hrd. eexists. split; [|reflexivity]. apply (Hbody i d d' c (take 8 (drop (8 * i) src)) Hi); auto.
    apply read8_take. lia. }
  fold (blocks src n) in Hs'. fold mid in Hs'. split; [rewrite E, Hs'; reflexivity|]. unfold encrypted, enc_run. cbn [buffer]. fold stepf c0.
  destruct (is_need_padding pad) eqn:Ep.
  - destruct Hcase as [Hp ->]. pose proof (last_write m c0 (blocks src n) _ dst Hc0 Hbs Hp) as Hw. cbv zeta in Hw. fold stepf mid in Hw.
    rewrite length_app, blocks_length in *. cbn [length]. replace (8 * (n + 1)) with (8 * n + 8) by lia. split; [|reflexivity].
    apply Hw. lia.
  - destruct Hcase as [Hm ->]. rewrite blocks_length. auto.
Qed.

Lemma encrypt_cbc_run pad iv src dst : bytes src -> fits pad src -> length iv = 8 -> bytes iv ->
  8 * length (all_blocks rd pad src) <= length dst -> encrypt_cbc prim rd ks pad iv src dst = Some (encrypted cbc pad (Some iv) src dst).
Proof.
  intros Hb Hf Hi8 Hib Hl. unfold encrypt_cbc. rewrite iv_read by exact Hi8. destruct (message_parts pad src Hb Hf) as (_ & _ & _ & Hr & _ & _).
  match goal with |- context [for_up ?bd _ _ _] => destruct (encrypt_chained cbc pad iv src dst bd fst Hb Hf Hi8 Hib Hl) as [E H] end.
  { intros i d d' [c1 c2] b Hi Hrd Hw _. cbn [fst snd stream_block_encrypt] in *. now rewrite Hrd, Hw. }
  rewrite chain_init_eq in E, H by exact Hi8. cbn [fst] in E. cbv zeta. rewrite E. cbn iota beta. rewrite Hr.
  destruct (run _ _ _) as [os [c1 c2]]. cbn [fst snd stream_block_encrypt] in *. destruct (is_need_padding pad) eqn:Ep.
  - rewrite bool_decide_eq_false_2 by now apply needed. rewrite orb_true_r. cbn [andb]. destruct H as [Hw Hlen].
    rewrite Hw. now rewrite <- Hlen.
  - destruct H as (Hm & Hd & Hlen). rewrite zero_remain by exact Hm. rewrite andb_false_r. cbn [orb]. rewrite Hd. now rewrite <- Hlen.
Qed.

Lemma encrypt_cfb_run pad iv src dst : bytes src -> fits pad src -> length iv = 8 -> bytes iv ->
  8 * length (all_blocks rd pad src) <= length dst -> encrypt_cfb prim rd ks pad iv src dst = Some (encrypted cfb pad (Some iv) src dst).
Proof.
  intros Hb Hf Hi8 Hib Hl. unfold encrypt_cfb. rewrite iv_read by exact Hi8.
  match goal with |- context [for_up ?bd _ _ _] => destruct (encrypt_chained cfb pad iv src dst bd fst Hb Hf Hi8 Hib Hl) as [E H] end.
  { intros i d d' [c1 c2] b Hi Hrd Hw Hrd'. cbn [fst snd stream_block_encrypt] in *. rewrite (Nat.mul_comm i 8). now rewrite Hrd, Hw, Hrd'. }
  rewrite chain_init_eq in E, H by exact Hi8. cbn [fst] in E. cbv zeta. rewrite E. cbn iota beta. rewrite final_block.
  destruct (run _ _ _) as [os [c1 c2]]. cbn [fst snd stream_block_encrypt] in *. rewrite (Nat.mul_comm (length src / 8) 8).
  destruct (is_need_padding pad) eqn:Ep.
  - destruct H as [Hw Hlen]. rewrite Hw. now rewrite <- Hlen.
  - destruct H as (Hm & Hd & Hlen). rewrite zero_remain by exact Hm. rewrite Hd. now rewrite <- Hlen.
Qed.

Lemma encrypt_ofb_run pad iv src dst : bytes src -> fits pad src -> length iv = 8 -> bytes iv ->
  8 * length (all_blocks rd pad src) <= length dst -> encrypt_ofb prim rd ks pad iv src dst = Some (encrypted ofb pad (Some iv) src dst).
Proof.
  intros Hb Hf Hi8 Hib Hl. unfold encrypt_ofb. rewrite iv_read by exact Hi8.
  match goal with |- context [for_up ?bd _ _ _] => destruct (encrypt_chained ofb pad iv src dst bd fst Hb Hf Hi8 Hib Hl) as [E H] end.
  { intros i d d' [c1 c2] b Hi Hrd Hw _. cbn [fst snd stream_block_encrypt] in *. rewrite (Nat.mul_comm i 8). now rewrite Hrd, Hw. }
  rewrite chain_init_eq in E, H by exact Hi8. cbn [fst] in E. cbv zeta. rewrite E. cbn iota beta. rewrite final_block.
  destruct (run _ _ _) as [os [c1 c2]]. cbn [fst snd stream_block_encrypt] in *. rewrite (Nat.mul_comm (length src / 8) 8).
  destruct (is_need_padding pad) eqn:Ep.
  - rewrite bool_decide_eq_false_2 by now apply needed. cbn [andb]. destruct H as [Hw Hlen]. rewrite Hw. now rewrite <- Hlen.
  - destruct H as (Hm & Hd & Hlen). rewrite zero_remain by exact Hm. rewrite andb_false_r. rewrite Hd. now rewrite <- Hlen.
Qed.

Lemma padded_length pad src : fits pad src ->
  (if is_need_padding pad then length src + (if 8 - length src mod 8 =? 0 then 8 else 8 - length src mod 8) else length src) = 8 * length (all_blocks rd pad src).
Proof.
  intros Hf. rewrite all_blocks_length. pose proof (Nat.div_mod_eq (length src) 8) as Hd. pose proof (Nat.mod_upper_bound (length src) 8).
  destruct (is_need_padding pad) eqn:Ep.
  - rewrite (proj2 (Nat.eqb_neq _ _)) by lia. lia.
  - destruct Hf as [Hf|Hf]; [congruence|lia].
Qed.

Lemma turns n : (8 * n + 7) / 8 = n.
Proof. rewrite Nat.mul_comm, Nat.div_add_l by lia. cbn. lia. Qed.

Lemma encrypt_ctr_run pad iv src dst : bytes src -> fits pad src -> length iv = 8 -> bytes iv ->
  8 * length (all_blocks rd pad src) <= length dst -> encrypt_ctr prim rd ks pad iv src dst = Some (encrypted ctr pad (Some iv) src dst).
Proof.
  intros Hb Hf Hi8 Hib Hl. unfold encrypt_ctr. rewrite iv_read by exact Hi8. cbv zeta. rewrite (padded_length pad src Hf), turns.
  pose proof (all_blocks_seq rd pad src Hf) as Hseq. pose proof (all_blocks_block rd pad src Hb Hf) as Hall.
  unfold encrypted, enc_run. cbv zeta. rewrite chain_init_eq by exact Hi8. set (n := length (all_blocks rd pad src)) in *.
  set (blk := fun i => if 8 * i + 8 <=? length src then _ else _) in Hseq. rewrite Hseq in Hall |- *.
  assert (Hblk : forall i, i < n -> block (blk i)).
  { intros i Hi. rewrite Forall_forall in Hall. apply Hall, in_map, in_seq. lia. }
  match goal with |- context [for_up ?bd _ _ _] =>
    destruct (loop_run (stream_block_encrypt prim ks ctr) (chain_ok ctr) (step_ok prim ks ctr) (fun s d c => s = (d, c.2)) bd blk n
      (dst, take 8 iv) dst (take 8 iv, take 8 iv) eq_refl (iv_block iv Hi8 Hib) Hl Hblk) as (s' & E & Hs') end.
  { intros i s d d' [c1 c2] Hi _ -> Hw _. exists (d', incr c2). split; [|reflexivity]. cbn [fst snd stream_block_encrypt] in *.
    assert (Hblki : (if 8 * i + 8 <=? length src then read8 src (8 * i)
       else if 8 * i <? length src then Some (padding_block rd 8 (drop (8 * i) src) (length src - 8 * i) pad)
       else Some (padding_block rd 8 [] 0 pad)) = Some (blk i)).
    { unfold blk. destruct (Nat.leb_spec (8 * i + 8) (length src)); [now apply read8_take|].
      destruct (Nat.ltb_spec (8 * i) (length src)); [reflexivity|]. rewrite drop_ge by lia. now replace (length src - 8 * i) with 0 by lia. }
    now rewrite Hblki, Hw. }
  rewrite E, Hs'. reflexivity.
Qed.
End Modes.

(** ** Encryption *)

Section Encrypt.
Context {KS : Type} (setk : list Z -> KS) (prim : bool -> KS -> list Z -> list Z) `{!BlockPrim prim} (rd : nat -> Z).

(** The arguments the checks accept. *)
Record valid (m : mode) (pad : padding) (src key iv : list Z) : Prop := Valid
  { valid_key : is_key_valid (Some key) = true;
    valid_iv : m <> ecb -> length iv = 8;
    valid_iv_bytes : bytes iv;
    valid_src : bytes src;
    valid_fits : fits pad src;
    valid_nonempty : src <> [];
    valid_size : (Z.of_nat (length src) < max_len pad)%Z }.

(** The reference: the mode over the blocks of the padded message. *)
Definition ciphertext (m : mode) (pad : padding) (src key iv : list Z) : list Z :=
  concat (enc_run prim (multiple_key setk key) m (iv_ptr m iv) (all_blocks rd pad src)).1.

Lemma valid_size' m pad src key iv : valid m pad src key iv -> (Z.of_nat (length src) < 2 ^ 62)%Z.
Proof. intros H. pose proof (valid_size _ _ _ _ _ H) as Hs. destruct pad; cbn in Hs; lia. Qed.

Lemma iv_ptr_valid m iv : (m <> ecb -> length iv = 8) -> is_iv_valid m (iv_ptr m iv) = true.
Proof.
  intros H. unfold is_iv_valid, iv_ptr. destruct (decide (m = ecb)) as [->|Hm]; [reflexivity|].
  rewrite (bool_decide_eq_false_2 (m = ecb)) by exact Hm. rewrite H by exact Hm. cbn. now rewrite andb_false_r.
Qed.

Lemma iv_ptr_chain_ok m iv : (m <> ecb -> length iv = 8) -> bytes iv -> chain_ok m (chain_init m (iv_ptr m iv)).
Proof. intros H Hb. apply chain_init_ok; [now apply iv_ptr_valid|]. unfold iv_ptr. now case_bool_decide. Qed.

Lemma plain_valid pad src : src <> [] -> fits pad src -> is_plain_valid (Some src) pad = true.
Proof.
  intros Hn Hf. unfold is_plain_valid. destruct src as [|b src]; [congruence|]. cbn [length Nat.eqb].
  destruct (bool_decide_reflect (pad = no_padding)) as [->|Hp]; [|reflexivity]. destruct Hf as [Hf|Hf]; [discriminate|].
  cbn [length] in Hf. rewrite Hf. reflexivity.
Qed.

Lemma encrypt_run m pad src key iv dst dl : valid m pad src key iv -> 8 * length (all_blocks rd pad src) <= length dst ->
  encrypt setk prim rd (Some dst) dl (Some src) (Some key) m pad (iv_ptr m iv)
  = Some (encrypted prim rd (multiple_key setk key) m pad (iv_ptr m iv) src dst).
Proof.
  intros [Hk Hi Hib Hb Hf Hn _] Hl. unfold encrypt. rewrite Hk, iv_ptr_valid, plain_valid by assumption. cbn [negb].
  unfold iv_ptr. destruct m; cbn [bool_decide decide mode_eq_dec].
  - now apply encrypt_ecb_run.
  - apply encrypt_cbc_run; auto.
  - apply encrypt_cfb_run; auto.
  - apply encrypt_ofb_run; auto.
  - apply encrypt_ctr_run; auto.
Qed.

Lemma run_blocks m pad src key iv : valid m pad src key iv ->
  Forall block (enc_run prim (multiple_key setk key) m (iv_ptr m iv) (all_blocks rd pad src)).1
  /\ length (enc_run prim (multiple_key setk key) m (iv_ptr m iv) (all_blocks rd pad src)).1 = length (all_blocks rd pad src).
Proof.
  intros [Hk Hi Hib Hb Hf Hn _]. split; [|apply run_length].
  apply (run_ok _ (chain_ok m) (step_ok prim (multiple_key setk key) m)); [now apply iv_ptr_chain_ok|now apply all_blocks_block].
Qed.

(** The reserve of the string functions is enough. *)
Lemma reserve_enough pad src : 8 * length (all_blocks rd pad src) <= encrypt_len_reserve (length src).
Proof. rewrite all_blocks_length. unfold encrypt_len_reserve. destruct (is_need_padding pad); lia. Qed.

Lemma resize_prefix s rest : (Z.of_nat (length s) < 2 ^ 63)%Z -> resize (s ++ rest) (Z.of_nat (length s)) = Some s.
Proof.
  intros H. unfold resize. rewrite (proj2 (Z.ltb_lt _ _)) by exact H. rewrite Nat2Z.id, take_app_length, length_app.
  replace (length s - (length s + length rest)) with 0 by lia. cbn. now rewrite app_nil_r.
Qed.

Lemma encrypt_string_run m pad src key iv : valid m pad src key iv ->
  encrypt_string setk prim rd src key m pad iv = Some (ok, ciphertext m pad src key iv).
Proof.
  intros Hv. unfold encrypt_string. pose proof (reserve_enough pad src) as Hr.
  rewrite (encrypt_run m pad src key iv _ _ Hv) by (now rewrite length_replicate).
  destruct (run_blocks m pad src key iv Hv) as [Hb Hl]. pose proof (length_concat_blocks _ Hb) as Hc. rewrite Hl in Hc.
  unfold encrypted. cbn [ec buffer out_len]. change (bool_decide (ok = ok)) with true. cbn iota. fold (ciphertext m pad src key iv) in Hc |- *.
  rewrite <- Hc, resize_prefix; [reflexivity|]. rewrite Hc. pose proof (valid_size' _ _ _ _ _ Hv).
  rewrite all_blocks_length. pose proof (Nat.div_mod_eq (length src) 8). destruct (is_need_padding pad); lia.
Qed.

(** The loop on the stream runs the same steps over the same blocks, whatever
    was written before. *)
Lemma encrypt_stream_loop_run ks m pad src : forall fuel c out, length src < fuel -> bytes src -> fits pad src -> src <> [] ->
  encrypt_stream_loop prim rd fuel ks m pad c src out
  = Some (ok, out ++ concat (run (stream_block_encrypt prim ks m) c (all_blocks rd pad src)).1).
Proof.
  induction src as [src Hs|src Hl IH] using message_ind; intros [|fuel] c out Hfu Hb Hf Hn; try lia; cbn [encrypt_stream_loop].
  - assert (Hpos : length src <> 0) by (intros E; now apply nil_length_inv in E). unfold block_size.
    rewrite (take_ge src) by lia. rewrite (drop_ge src) by lia. cbn [length].
    rewrite (proj2 (Nat.eqb_neq _ _)) by exact Hpos. rewrite (proj2 (Nat.ltb_lt _ _)) by exact Hs. cbn [orb negb].
    rewrite all_blocks_short by exact Hs. destruct Hf as [Hf|Hf]; [|rewrite Nat.mod_small in Hf by exact Hs; congruence].
    rewrite Hf, bool_decide_eq_false_2 by now apply needed. rewrite (proj2 (Nat.eqb_neq _ 8)) by lia. cbn [run].
    destruct (stream_block_encrypt prim ks m c _) as [o c']. cbn [concat fst]. now rewrite app_nil_r.
  - unfold block_size. assert (H8 : length (take 8 src) = 8) by (rewrite length_take; lia). rewrite H8. cbn [Nat.eqb Nat.ltb Nat.leb orb negb].
    rewrite all_blocks_cons by exact Hl. cbn [run]. destruct (stream_block_encrypt prim ks m c (take 8 src)) as [o c'] eqn:Eo.
    rewrite <- (take_drop 8 src) in Hb. apply bytes_app in Hb as [H1 H2].
    assert (Hfd : fits pad (drop 8 src)) by (destruct Hf; [now left|right; now rewrite mod8_drop]).
    destruct (Nat.eqb_spec (length (drop 8 src)) 0) as [E|E]; cbn [negb].
    + apply nil_length_inv in E. rewrite E, all_blocks_short by (cbn; lia). cbn [length].
      destruct (is_need_padding pad) eqn:Ep.
      * rewrite bool_decide_eq_false_2 by now apply needed. cbn [run].
        destruct (stream_block_encrypt prim ks m c' _) as [o2 c2]. cbn [concat fst]. now rewrite app_nil_r.
      * rewrite bool_decide_eq_true_2 by now apply not_needed. cbn [run concat fst]. now rewrite app_nil_r.
    + assert (Hd : drop 8 src <> []) by (intros En; now rewrite En in E).
      rewrite IH by (auto; rewrite length_drop; lia).
      destruct (run _ c' _) as [os c2]. cbn [concat fst]. now rewrite app_assoc.
Qed.

Lemma encrypt_stream_run m pad src key iv : valid m pad src key iv ->
  encrypt_stream setk prim rd true true src (Some key) m pad (iv_ptr m iv) = Some (ok, ciphertext m pad src key iv).
Proof.
  intros [Hk Hi Hib Hb Hf Hn _]. unfold encrypt_stream. rewrite Hk, iv_ptr_valid by assumption. cbn [negb orb default].
  now rewrite encrypt_stream_loop_run by (auto; lia).
Qed.
End Encrypt.

(** ** Decryption of a buffer *)

Section DecryptModes.
Context {KS : Type} (prim : bool -> KS -> list Z -> list Z) `{!BlockPrim prim} (ks : list KS).

Lemma ede_decrypt_from_block i b : block b -> block (ede_decrypt_from prim i ks b).
Proof. revert i. induction ks as [|k ks' IH]; intros i Hb; cbn [ede_decrypt_from]; [exact Hb|]. now apply prim_block, IH. Qed.

Lemma ede_decrypt_block b : block b -> block (ede_decrypt prim ks b).
Proof.
  intros Hb. unfold ede_decrypt. pose proof (ede_decrypt_from_block 0 b Hb) as H.
  destruct ks as [|k0 [|k1 [|k2 [|k3 ks']]]]; try exact H; repeat apply prim_block; exact Hb.
Qed.

Lemma dec_step_ok m c b : chain_ok m c -> block b ->
  block (stream_block_decrypt prim ks m c b).1 /\ chain_ok m (stream_block_decrypt prim ks m c b).2.
Proof.
  intros Hc Hb. destruct c as [iv ct]. destruct m; cbn in *.
  - split; [now apply ede_decrypt_block|exact I].
  - split; [now apply xor_block; [apply ede_decrypt_block|]|exact Hb].
  - split; [now apply xor_block, ede_inverse|exact Hb].
  - split; [now apply xor_block, ede_inverse|now apply ede_inverse].
  - split; [now apply xor_block, ede_inverse|now apply incr_block].
Qed.

(** A whole number of blocks to decrypt. *)
Record whole (src : list Z) (n : nat) (iv : list Z) (dst : list Z) : Prop := Whole
  { whole_bytes : bytes src; whole_length : length src = 8 * n; whole_iv : length iv = 8; whole_iv_bytes : bytes iv;
    whole_dst : 8 * n <= length dst }.

Definition decrypted (m : mode) (iv src dst : list Z) (n : nat) : list Z * nat :=
  (concat (dec_run prim ks m (Some iv) (blocks src n)).1 ++ drop (8 * n) dst, 8 * n).

Lemma decrypt_loop {St} m src n iv dst (R : St -> list Z -> chain -> Prop) (body : nat -> St -> option St) s :
  whole src n iv dst -> R s dst (chain_init m (Some iv)) ->
  (forall i s d d' c b, i < n -> b = take 8 (drop (8 * i) src) -> read8 src (8 * i) = Some b -> R s d c ->
     write d (8 * i) (stream_block_decrypt prim ks m c b).1 = Some d' ->
     exists s', body i s = Some s' /\ R s' d' (stream_block_decrypt prim ks m c b).2) ->
  exists s', for_up body 0 n s = Some s' /\ exists c, R s' (decrypted m iv src dst n).1 c.
Proof.
  intros [Hb Hl Hi Hib Hd] HR Hbody.
  assert (Hc0 : chain_ok m (chain_init m (Some iv))).
  { apply (chain_init_ok m (Some iv)); [|exact Hib]. unfold is_iv_valid. rewrite Hi. cbn. now rewrite andb_false_r. }
  destruct (loop_run (stream_block_decrypt prim ks m) (chain_ok m) (dec_step_ok m) R body (fun i => take 8 (drop (8 * i) src)) n s dst
    (chain_init m (Some iv)) HR Hc0 Hd) as (s' & E & Hs').
  - apply blocks_block; [exact Hb|lia].
  - intros i t d d' c Hin _ Ht Hw _. apply (Hbody i t d d' c _ Hin eq_refl); auto. apply read8_take. lia.
  - exists s'. split; [exact E|]. eexists. exact Hs'.
Qed.

Lemma decrypt_ecb_run src n iv dst : whole src n iv dst -> decrypt_ecb prim ks src dst = Some (decrypted ecb iv src dst n).
Proof.
  intros Hw. unfold decrypt_ecb. rewrite (whole_length _ _ _ _ Hw), turns. cbv zeta.
  match goal with |- context [for_up ?bd _ _ _] => destruct (decrypt_loop ecb src n iv dst (fun s d _ => s = d) bd dst Hw eq_refl) as (s' & E & c & Hs') end.
  { intros i s d d' [c1 c2] b Hin _ Hr -> Hwr. exists d'. now rewrite Hr. }
  rewrite E. now subst s'.
Qed.

Lemma decrypt_cbc_run src n iv dst : whole src n iv dst -> decrypt_cbc prim ks iv src dst = Some (decrypted cbc iv src dst n).
Proof.
  intros Hw. unfold decrypt_cbc. rewrite iv_read by apply Hw. rewrite (whole_length _ _ _ _ Hw), turns. cbv zeta.
  match goal with |- context [for_up ?bd _ _ _] =>
    destruct (decrypt_loop cbc src n iv dst (fun s d c => s = (d, c.1)) bd (dst, take 8 iv) Hw) as (s' & E & c & Hs') end.
  { now rewrite chain_init_eq by apply Hw. }
  { intros i s d d' [c1 c2] b Hin _ Hr -> Hwr. exists (d', b). cbn [fst snd stream_block_decrypt] in *. now rewrite Hr, Hwr. }
  rewrite E, Hs'. reflexivity.
Qed.

Lemma blocks_of n : 8 * n / 8 = n /\ (8 * n) mod 8 = 0.
Proof. rewrite Nat.mul_comm. split; [now apply Nat.div_mul|apply Nat.Div0.mod_mul]. Qed.

Lemma decrypt_cfb_run src n iv dst : whole src n iv dst -> decrypt_cfb prim ks iv src dst = Some (decrypted cfb iv src dst n).
Proof.
  intros Hw. unfold decrypt_cfb. rewrite iv_read by apply Hw. rewrite (whole_length _ _ _ _ Hw). destruct (blocks_of n) as [-> ->]. cbv zeta.
  match goal with |- context [for_up ?bd _ _ _] =>
    destruct (decrypt_loop cfb src n iv dst (fun s d c => s = (d, c.1)) bd (dst, take 8 iv) Hw) as (s' & E & c & Hs') end.
  { now rewrite chain_init_eq by apply Hw. }
  { intros i s d d' [c1 c2] b Hin _ Hr -> Hwr. exists (d', b). cbn [fst snd stream_block_decrypt] in *. rewrite (Nat.mul_comm i 8). now rewrite Hr, Hwr. }
  rewrite E, Hs'. cbn [Nat.ltb Nat.leb]. now rewrite (Nat.mul_comm n 8).
Qed.

Lemma decrypt_ofb_run src n iv dst : whole src n iv dst -> decrypt_ofb prim ks iv src dst = Some (decrypted ofb iv src dst n).
Proof.
  intros Hw. unfold decrypt_ofb. rewrite iv_read by apply Hw. rewrite (whole_length _ _ _ _ Hw). destruct (blocks_of n) as [-> ->]. cbv zeta.
  match goal with |- context [for_up ?bd _ _ _] =>
    destruct (decrypt_loop ofb src n iv dst (fun s d c => s = (d, c.1)) bd (dst, take 8 iv) Hw) as (s' & E & c & Hs') end.
  { now rewrite chain_init_eq by apply Hw. }
  { intros i s d d' [c1 c2] b Hin _ Hr -> Hwr. eexists. cbn [fst snd stream_block_decrypt] in *. rewrite (Nat.mul_comm i 8). rewrite Hr, Hwr. split; reflexivity. }
  rewrite E, Hs'. cbn [Nat.ltb Nat.leb]. now rewrite (Nat.mul_comm n 8).
Qed.

Lemma decrypt_ctr_run src n iv dst : whole src n iv dst -> decrypt_ctr prim ks iv src dst = Some (decrypted ctr iv src dst n).
Proof.
  intros Hw. unfold decrypt_ctr. rewrite iv_read by apply Hw. rewrite (whole_length _ _ _ _ Hw), turns. cbv zeta.
  match goal with |- context [for_up ?bd _ _ _] =>
    destruct (decrypt_loop ctr src n iv dst (fun s d c => s = (d, c.2)) bd (dst, take 8 iv) Hw) as (s' & E & c & Hs') end.
  { now rewrite chain_init_eq by apply Hw. }
  { intros i s d d' [c1 c2] b Hin Hb Hr -> Hwr. eexists. cbn [fst snd stream_block_decrypt] in *.
    rewrite (proj2 (Nat.leb_le _ _)) by lia. rewrite <- Hb, Hwr. split; reflexivity. }
  rewrite E, Hs'. reflexivity.
Qed.
End DecryptModes.

(** ** Round trips *)

Section RoundTrip.
Context {KS : Type} (setk : list Z -> KS) (prim : bool -> KS -> list Z -> list Z) `{!BlockPrim prim} (rd : nat -> Z).

Lemma decrypt_run m pad src n key iv dst dl : is_key_valid (Some key) = true -> (m <> ecb -> length iv = 8) -> bytes iv ->
  bytes src -> length src = 8 * n -> 8 * n <= length dst ->
  decrypt setk prim (Some dst) dl src (Some key) m pad (iv_ptr m iv)
  = let* (d, l) := unpadding_block (concat (dec_run prim (multiple_key setk key) m (iv_ptr m iv) (blocks src n)).1 ++ drop (8 * n) dst)
                     (8 * n) pad in Some (ok, d, l).
Proof.
  intros Hk Hi Hib Hb Hl Hd. unfold decrypt. rewrite Hk, iv_ptr_valid by assumption. cbn [negb].
  assert (Hw : forall iv', length iv' = 8 -> bytes iv' -> whole src n iv' dst) by (intros; now constructor).
  destruct m.
  - change (iv_ptr ecb iv) with (@None (list Z)). rewrite (decrypt_ecb_run prim _ src n (replicate 8 0%Z) dst) by (apply Hw; [reflexivity|apply Forall_replicate; unfold byte; lia]).
    reflexivity.
  - change (iv_ptr cbc iv) with (Some iv). cbv iota. rewrite (decrypt_cbc_run prim _ src n iv dst) by (apply Hw; auto). reflexivity.
  - change (iv_ptr cfb iv) with (Some iv). cbv iota. rewrite (decrypt_cfb_run prim _ src n iv dst) by (apply Hw; auto). reflexivity.
  - change (iv_ptr ofb iv) with (Some iv). cbv iota. rewrite (decrypt_ofb_run prim _ src n iv dst) by (apply Hw; auto). reflexivity.
  - change (iv_ptr ctr iv) with (Some iv). cbv iota. rewrite (decrypt_ctr_run prim _ src n iv dst) by (apply Hw; auto). reflexivity.
Qed.

(** Decrypting the blocks of the ciphertext gives those of the message. *)
Lemma dec_enc_run m pad src key iv : valid m pad src key iv ->
  let enc := enc_run prim (multiple_key setk key) m (iv_ptr m iv) (all_blocks rd pad src) in
  (dec_run prim (multiple_key setk key) m (iv_ptr m iv) enc.1).1 = all_blocks rd pad src.
Proof.
  intros [Hk Hi Hib Hb Hf _ _]. cbv zeta. unfold enc_run, dec_run.
  rewrite (run_inverse (stream_block_encrypt prim (multiple_key setk key) m) _ (chain_ok m)); [reflexivity|..].
  - intros c b. apply (step_ok prim).
  - intros c b. apply (step_inverse prim).
  - now apply iv_ptr_chain_ok.
  - now apply all_blocks_block.
Qed.

Lemma ciphertext_blocks m pad src key iv : valid m pad src key iv ->
  let n := length (all_blocks rd pad src) in let ct := ciphertext setk prim rd m pad src key iv in
  bytes ct /\ length ct = 8 * n /\ blocks ct n = (enc_run prim (multiple_key setk key) m (iv_ptr m iv) (all_blocks rd pad src)).1.
Proof.
  intros Hv. cbv zeta. destruct (run_blocks setk prim rd m pad src key iv Hv) as [Hb Hl]. unfold ciphertext.
  split_and!; [now apply bytes_concat|rewrite length_concat_blocks by exact Hb; lia|].
  rewrite <- (app_nil_r (concat _)). now apply blocks_concat.
Qed.

Lemma reserve_decrypt n : 8 * n <= decrypt_len_reserve (8 * n).
Proof. unfold decrypt_len_reserve. destruct (blocks_of n) as [-> _]. lia. Qed.

Lemma decrypt_string_run m pad src key iv : valid m pad src key iv -> recoverable pad src ->
  decrypt_string setk prim (ciphertext setk prim rd m pad src key iv) key m pad iv = Some (ok, src).
Proof.
  intros Hv Hrec. destruct (ciphertext_blocks m pad src key iv Hv) as (Hcb & Hcl & Hbl). unfold decrypt_string.
  rewrite Hcl. pose proof (reserve_decrypt (length (all_blocks rd pad src))) as Hr.
  rewrite (decrypt_run m pad _ (length (all_blocks rd pad src))) by (try apply Hv; auto; now rewrite length_replicate).
  rewrite Hbl, dec_enc_run by exact Hv. rewrite all_blocks_concat by apply Hv. rewrite <- app_assoc.
  pose proof (valid_size' _ _ _ _ _ Hv) as Hs. pose proof (Nat.mod_upper_bound (length src) 8) as Hm. pose proof (Nat.div_mod_eq (length src) 8) as Hd.
  pose proof (all_blocks_length rd pad src) as Hn. set (rest := drop _ _). destruct (is_need_padding pad) eqn:Ep.
  - destruct (unpadding_tail rd pad src rest (8 - length src mod 8)) as (b & E & H1 & H2); auto; try lia; [now apply needed|apply Hv|].
    replace (8 * length (all_blocks rd pad src)) with (length src + (8 - length src mod 8)) by lia. rewrite E. cbn iota beta.
    change (bool_decide (ok = ok)) with true. cbn iota. rewrite resize_take by (rewrite ?H2, ?length_app; lia). now rewrite H1.
  - destruct (valid_fits _ _ _ _ _ Hv) as [Hf|Hf]; [congruence|].
    assert (Hn' : 8 * length (all_blocks rd pad src) = length src) by lia. rewrite Hn', (not_needed pad Ep). cbn [unpadding_block app].
    change (bool_decide (ok = ok)) with true. cbn iota. rewrite resize_take by (rewrite ?length_app; lia).
    now rewrite take_app_length.
Qed.

(** The loop on the stream, which keeps one block back. *)
Lemma decrypt_stream_loop_run ks m pad b : forall bs fuel c prev out, length (concat (bs ++ [b])) < fuel ->
  Forall block (bs ++ [b]) ->
  decrypt_stream_loop prim fuel ks m pad c prev (concat (bs ++ [b])) out
  = let '(os, c1) := run (stream_block_decrypt prim ks m) c bs in
    let outbuf := (stream_block_decrypt prim ks m c1 b).1 in
    let out := (out ++ default [] prev) ++ concat os in
    if bool_decide (pad = no_padding) then Some (ok, out ++ outbuf)
    else let* (outbuf, final_len) := unpadding_block outbuf block_size pad in Some (ok, out ++ take (Z.to_nat final_len) outbuf).
Proof.
  assert (Hpre : forall (out : list Z) prev, (match prev with Some p => out ++ p | None => out end) = out ++ default [] prev).
  { intros out [p|]; [reflexivity|]. cbn. now rewrite app_nil_r. }
  induction bs as [|a bs IH]; intros [|fuel] c prev out Hfu Hb; try lia; cbn [app concat decrypt_stream_loop]; unfold block_size;
    apply Forall_cons_1 in Hb as [[Hb1 Hbb] Hb]; rewrite take_app_length', drop_app_length' by lia; rewrite Hb1; cbn [Nat.eqb negb].
  - cbn [run concat length]. destruct (stream_block_decrypt prim ks m c b) as [o c']. cbn [Nat.eqb fst]. now rewrite Hpre, !app_nil_r.
  - change (Forall block (bs ++ [b])) in Hb. cbn [run]. destruct (stream_block_decrypt prim ks m c a) as [o c']. pose proof (length_concat_blocks _ Hb) as Hl.
    rewrite length_app in Hl. cbn [length] in Hl. rewrite (proj2 (Nat.eqb_neq _ 0)) by lia. cbn [negb].
    cbn [app concat] in Hfu. rewrite length_app in Hfu. rewrite IH by (auto; lia). rewrite Hpre.
    destruct (run _ c' bs) as [os c1]. cbn [default concat]. unfold default, id. now rewrite !app_assoc.
Qed.

Lemma snoc_blocks pad src : src <> [] -> fits pad src -> exists bs b, all_blocks rd pad src = bs ++ [b]
  /\ if is_need_padding pad then bs = blocks src (length src / 8)
       /\ b = drop (8 * (length src / 8)) src ++ tail rd pad (8 - length src mod 8)
       /\ concat bs = take (8 * (length src / 8)) src
     else concat bs ++ b = src.
Proof.
  intros Hn Hf. pose proof (Nat.div_mod_eq (length src) 8) as Hd. pose proof (Nat.mod_upper_bound (length src) 8) as Hm.
  pose proof (all_blocks_length rd pad src) as Hl. pose proof (all_blocks_concat rd pad src Hf) as Hc.
  destruct (all_blocks rd pad src) as [|b bs _] eqn:E using rev_ind.
  { exfalso. change (length []) with 0 in Hl. destruct (is_need_padding pad) eqn:Ep; [lia|]. destruct Hf as [Hf|Hf]; [congruence|].
    apply Hn, nil_length_inv. lia. }
  exists bs, b. split; [reflexivity|]. destruct (is_need_padding pad) eqn:Ep.
  - unfold all_blocks in E. rewrite Ep in E. apply app_inj_tail in E as [E1 E2]. split_and!; [now subst|..].
    + rewrite <- E2. assert (Hld : length (drop (8 * (length src / 8)) src) = length src - 8 * (length src / 8)) by now rewrite length_drop.
      rewrite <- Hld, padding_block_tail by lia. do 2 f_equal. lia.
    + rewrite concat_app in Hc. cbn [concat] in Hc. rewrite app_nil_r in Hc.
      rewrite <- E2 in Hc. assert (Hld : length (drop (8 * (length src / 8)) src) = length src - 8 * (length src / 8)) by now rewrite length_drop.
      rewrite <- Hld, padding_block_tail, Hld in Hc by lia. rewrite app_assoc in Hc.
      replace (8 - (length src - 8 * (length src / 8))) with (8 - length src mod 8) in Hc by lia. apply app_inv_tail in Hc.
      apply (app_inv_tail (drop (8 * (length src / 8)) src)). now rewrite take_drop.
  - rewrite app_nil_r, concat_app in Hc. cbn [concat] in Hc. now rewrite app_nil_r in Hc.
Qed.

Lemma decrypt_stream_run m pad src key iv : valid m pad src key iv -> recoverable pad src ->
  decrypt_stream setk prim true true (ciphertext setk prim rd m pad src key iv) (Some key) m pad (iv_ptr m iv) = Some (ok, src).
Proof.
  intros Hv Hrec. destruct (run_blocks setk prim rd m pad src key iv Hv) as [Hob Hol]. pose proof (dec_enc_run m pad src key iv Hv) as Hdec.
  unfold decrypt_stream. pose proof Hv as [Hk Hi Hib Hb Hf Hn Hs]. rewrite Hk, iv_ptr_valid by assumption. cbn [negb default].
  destruct (snoc_blocks pad src Hn Hf) as (bs & b & Eb & Hparts). unfold ciphertext. cbv zeta in Hdec. unfold id.
  destruct (enc_run prim (multiple_key setk key) m (iv_ptr m iv) (all_blocks rd pad src)).1 as [|o os _] eqn:Eo using rev_ind.
  { rewrite Eb, length_app in Hol. cbn in Hol. lia. }
  rewrite decrypt_stream_loop_run by (auto; lia). unfold dec_run in Hdec. rewrite run_snoc in Hdec.
  destruct (run _ (chain_init m (iv_ptr m iv)) os) as [ds c1]. destruct (stream_block_decrypt prim (multiple_key setk key) m c1 o) as [d c2].
  cbn [fst] in Hdec |- *. rewrite Eb in Hdec. apply app_inj_tail in Hdec as [-> ->]. cbn [default app]. destruct (is_need_padding pad) eqn:Ep.
  - destruct Hparts as (_ & -> & ->). rewrite bool_decide_eq_false_2 by now apply needed. cbv zeta.
    pose proof (Nat.div_mod_eq (length src) 8) as Hd. pose proof (Nat.mod_upper_bound (length src) 8) as Hm.
    set (l := drop (8 * (length src / 8)) src). assert (Hl : length l = length src mod 8) by (unfold l; rewrite length_drop; lia).
    destruct (unpadding_tail rd pad l [] (8 - length src mod 8)) as (d & E & H1 & H2); try lia; [now apply needed|now apply recoverable_drop|].
    rewrite app_nil_r in E. replace (length l + (8 - length src mod 8)) with block_size in E by (unfold block_size; lia).
    rewrite E, Nat2Z.id, H1. unfold l. now rewrite take_drop.
  - rewrite bool_decide_eq_true_2 by now apply not_needed. cbv zeta. now rewrite Hparts.
Qed.
End RoundTrip.

(** ** Theorems *)

(** A primitive for the witnesses: it adds the key to a block and reverses it. *)
Definition toy_key (key : list Z) : Z := fold_right Z.add 0%Z key.
Definition toy_prim (e : bool) (k : Z) (b : list Z) : list Z :=
  let mask := wrap 8 k :: replicate 7 0%Z in if e then rev (xor b mask) else xor (rev b) mask.
#[export] Instance toy_BlockPrim : BlockPrim toy_prim.
Proof.
  assert (Hm : forall k, block (wrap 8 k :: replicate 7 0%Z)).
  { intros k. split; [reflexivity|]. constructor; [apply (wrap_uint 8); lia|]. apply Forall_replicate. unfold byte. lia. }
  assert (Hr : forall b, block b -> block (rev b)) by (intros b [H1 H2]; split; [now rewrite length_rev|now apply bytes_rev]).
  split; intros e k b Hb; unfold toy_prim; cbv zeta; pose proof (Hm k) as Hk; revert Hk; generalize (wrap 8 k :: replicate 7 0%Z); intros mk Hk.
  - destruct e; [now apply Hr, xor_block|now apply xor_block; [apply Hr|]].
  - destruct (Hr b Hb) as [H1 _]. destruct Hk as [H2 _], Hb as [H3 _]. destruct e; cbn [negb].
    + rewrite rev_involutive. apply xor_twice. lia.
    + rewrite xor_twice by lia. apply rev_involutive.
Qed.

Definition demo_iv : list Z := [1; 2; 3; 4; 5; 6; 7; 8]%Z.
Definition demo_key : list Z := Z.of_nat <$> seq 7 24.
Lemma demo_valid m pad src : bytes src -> fits pad src -> src <> [] -> (Z.of_nat (length src) < max_len pad)%Z -> valid m pad src demo_key demo_iv.
Proof. intros H1 H2 H3 H4. constructor; auto. repeat constructor; unfold byte; lia. Qed.

(** Every mode, on strings, on streams and on files, gives the same bytes:
    the mode's steps over the blocks of the padded message, in whole blocks. *)
Theorem des_encrypt_modes {KS : Type} (setk : list Z -> KS) (prim : bool -> KS -> list Z -> list Z) (HP : BlockPrim prim) (rd : nat -> Z)
    (m : mode) (pad : padding) (src key iv : list Z) (Hv : valid m pad src key iv) :
  let c := ciphertext setk prim rd m pad src key iv in
  encrypt_string setk prim rd src key m pad iv = Some (ok, c)
  /\ encrypt_stream setk prim rd true true src (Some key) m pad (iv_ptr m iv) = Some (ok, c)
  /\ encrypt_file_string setk prim rd true true src key m pad iv = Some (ok, c)
  /\ length c = 8 * (length src / 8 + (if is_need_padding pad then 1 else 0)) /\ bytes c.
Proof.
  cbv zeta. split_and!.
  - now apply encrypt_string_run.
  - now apply encrypt_stream_run.
  - unfold encrypt_file_string, encrypt_file. cbn [negb]. now apply encrypt_stream_run.
  - destruct (ciphertext_blocks setk prim rd m pad src key iv Hv) as (_ & H & _). rewrite H. f_equal. apply all_blocks_length.
  - now destruct (ciphertext_blocks setk prim rd m pad src key iv Hv) as (H & _).
Qed.

Lemma des_encrypt_modes_witness :
  encrypt_string toy_key toy_prim Z.of_nat [1; 2; 3]%Z demo_key cbc pkcs7 demo_iv
  = encrypt_stream toy_key toy_prim Z.of_nat true true [1; 2; 3]%Z (Some demo_key) cbc pkcs7 (Some demo_iv)
  /\ encrypt_string toy_key toy_prim Z.of_nat [1; 2; 3]%Z demo_key cbc pkcs7 demo_iv = Some (ok, [13; 2; 3; 0; 1; 0; 0; 20]%Z).
Proof.
  assert (Hv : valid cbc pkcs7 [1; 2; 3]%Z demo_key demo_iv).
  { apply demo_valid; [repeat constructor; unfold byte; lia|now left|discriminate|reflexivity]. }
  destruct (des_encrypt_modes toy_key toy_prim toy_BlockPrim Z.of_nat cbc pkcs7 [1; 2; 3]%Z demo_key demo_iv Hv) as (E1 & E2 & _).
  split; [now rewrite E1; exact (eq_sym E2)|vm_compute; reflexivity].
Defined.

(** C14: what is encrypted on strings, streams or files is decrypted to the
    message, in every mode with every padding: with the padding by zeros when
    the message does not end in a zero, without padding when it is a whole
    number of blocks. *)
Theorem des_roundtrip {KS : Type} (setk : list Z -> KS) (prim : bool -> KS -> list Z -> list Z) (HP : BlockPrim prim) (rd : nat -> Z)
    (m : mode) (pad : padding) (src key iv : list Z) (Hv : valid m pad src key iv) (Hr : recoverable pad src) :
  exists c, encrypt_string setk prim rd src key m pad iv = Some (ok, c)
  /\ decrypt_string setk prim c key m pad iv = Some (ok, src)
  /\ encrypt_stream setk prim rd true true src (Some key) m pad (iv_ptr m iv) = Some (ok, c)
  /\ decrypt_stream setk prim true true c (Some key) m pad (iv_ptr m iv) = Some (ok, src)
  /\ decrypt_file_string setk prim true true c key m pad iv = Some (ok, src).
Proof.
  exists (ciphertext setk prim rd m pad src key iv). split_and!.
  - now apply encrypt_string_run.
  - now apply decrypt_string_run.
  - now apply encrypt_stream_run.
  - now apply decrypt_stream_run.
  - unfold decrypt_file_string, decrypt_file. cbn [negb]. now apply decrypt_stream_run.
Qed.

Lemma des_roundtrip_witness :
  exists c, encrypt_string toy_key toy_prim Z.of_nat [9; 0; 7]%Z demo_key ctr iso10126 demo_iv = Some (ok, c)
  /\ decrypt_string toy_key toy_prim c demo_key ctr iso10126 demo_iv = Some (ok, [9; 0; 7]%Z).
Proof.
  assert (Hv : valid ctr iso10126 [9; 0; 7]%Z demo_key demo_iv).
  { apply demo_valid; [repeat constructor; unfold byte; lia|now left|discriminate|reflexivity]. }
  destruct (des_roundtrip toy_key toy_prim toy_BlockPrim Z.of_nat ctr iso10126 [9; 0; 7]%Z demo_key demo_iv Hv I) as (c & E1 & E2 & _).
  exists c. split; [exact E1|exact E2].
Defined.

(** A pad byte larger than what is there: the subtraction wraps, and bytes are
    cleared outside of the buffer, or the length of the result is out of range. *)
Lemma des_unpadding_underflow (buf : list Z) (len : nat) (pad : Z) :
  buf !! (len - 1) = Some pad -> 0 < len -> (Z.of_nat len < pad <= 8)%Z ->
  unpadding_block buf len pkcs7 = None /\ unpadding_block buf len iso10126 = None
  /\ (forall n, unpadding_block buf len ansix923 = Some (buf, n) -> n <> Z.of_nat len -> resize buf n = None).
Proof.
  intros E Hl Hp. unfold unpadding_block. rewrite E, (proj2 (Nat.eqb_neq len 0)) by lia.
  assert (Hc : ((pad =? 0) || (8 <? pad))%Z = false) by (decide_cmps; reflexivity). rewrite Hc. cbv zeta.
  assert (Hw : (wrap 64 (Z.of_nat len - pad) = 2 ^ 64 + Z.of_nat len - pad)%Z).
  { unfold wrap. rewrite <- (Z.mod_small (2 ^ 64 + Z.of_nat len - pad) (2 ^ 64)) by lia.
    replace (2 ^ 64 + Z.of_nat len - pad)%Z with (Z.of_nat len - pad + 1 * 2 ^ 64)%Z by lia. now rewrite Z.mod_add by lia. }
  assert (Hd : forall stop v, (Z.of_nat stop < 9)%Z -> differs buf (wrap 64 (Z.of_nat len - pad)) stop v = Some false).
  { intros stop v Hs. unfold differs. now rewrite (proj2 (Z.ltb_ge _ _)) by lia. }
  rewrite !Hd by lia. rewrite (proj2 (Z.ltb_ge _ (2 ^ 63))) by lia. split_and!; [reflexivity..|].
  intros n [= <-] _. unfold resize. now rewrite (proj2 (Z.ltb_ge _ _)) by lia.
Qed.

(** A ciphertext of one byte meets it. *)
Lemma des_short_ciphertext : decrypt_string toy_key toy_prim [13]%Z demo_key cfb iso10126 demo_iv = None.
Proof. vm_compute. reflexivity. Qed.

(** In the modes on whole blocks the last block is read past the end of a
    ciphertext that is not a whole number of blocks. *)
Lemma des_unaligned_ciphertext :
  decrypt_string toy_key toy_prim [1; 2; 3; 4; 5]%Z demo_key ecb pkcs7 [] = None
  /\ decrypt_string toy_key toy_prim [1; 2; 3; 4; 5]%Z demo_key cbc pkcs7 demo_iv = None.
Proof. split; vm_compute; reflexivity. Qed.

(** The padding of ISO/IEC 7816-4 stays on a buffer of more than 2^31 bytes:
    the index is negative. *)
Lemma des_iso7816_large (buf : list Z) (len : nat) : (2 ^ 31 < Z.of_nat len <= 2 ^ 32)%Z ->
  unpadding_block buf len iso_iec_7816_4 = Some (buf, Z.of_nat len).
Proof.
  intros H. unfold unpadding_block. rewrite (wrap_small 64) by (unfold uint; lia).
  assert (Hi : (sint_of 32 (Z.of_nat len - 1) < 0)%Z).
  { unfold sint_of. rewrite wrap_small by (unfold uint; lia).
    assert (Ht : Z.testbit (Z.of_nat len - 1) (32 - 1) = true).
    { rewrite Z.testbit_true by lia. rewrite <- (Z.div_unique (Z.of_nat len - 1) (2 ^ (32 - 1)) 1 (Z.of_nat len - 1 - 2 ^ 31)) by lia. reflexivity. }
    rewrite Ht. lia. }
  replace (Z.to_nat (sint_of 32 (Z.of_nat len - 1) + 1)) with 0 by lia. cbn [strip]. cbv zeta.
  rewrite (proj2 (Nat.ltb_ge _ _)) by (unfold block_size; lia). reflexivity.
Qed.
