(* ===== verification/Aes.v ===== *)
(** * AES through the envelope interface

    [crypto/aes.hpp]: the checks of keys, initialisation vectors and plain
    texts, the choice of the cipher, the paddings, and the sequences of calls on
    a cipher context that encrypt and decrypt buffers, strings, streams and
    files.  The operations on contexts are those of the cryptographic library,
    a parameter ([evp]); a call that does not return 1 is none.  Bytes are
    numbers below 256, a pointer is a list or none; lengths fit an [int].
    [None] is undefined behaviour or an exception of the standard library. *)

From Stdlib Require Import ZArith Lia List Bool.
From stdpp Require Import base tactics list option.
From S2P Require Import Prelude Padding.

Open Scope hj_scope.
Open Scope nat_scope.

Module Aes.

Inductive error_code :=
| ok | key_invalid | iv_invalid | plain_invalid | padding_style_invalid | input_stream_invalid | output_stream_invalid
| ctx_alloc_failed | cipher_ctl_failed | get_tag_failed | file_open_failed | file_read_failed | file_write_failed
| param_invalid | passwd_invalid | pbkdf2_derive_failed
| encrypt_failed | encrypt_init_failed | encrypt_update_failed | encrypt_final_failed
| decrypt_failed | decrypt_init_failed | decrypt_update_failed | decrypt_final_failed.

(** [cfb] is [cfb128]; [key_wrap] is the source's [wrap]. *)
Inductive mode :=
| ecb | cbc | cfb1 | cfb8 | cfb128 | ofb | ctr | gcm | ccm | xts | key_wrap | wrap_pad | cbc_hmac_sha1 | cbc_hmac_sha256 | ocb.

#[export] Instance error_code_eq_dec : EqDecision error_code.
Proof. solve_decision. Defined.
#[export] Instance mode_eq_dec : EqDecision mode.
Proof. solve_decision. Defined.

(** [EVP_aes_<bits>_<mode>()] *)
Inductive cipher := EVP_aes (bits : nat) (mod_ : mode).

(** ** Tables *)

Definition select_cipher (mod_ : mode) (key_len : nat) : option cipher :=
  let three := match key_len with
    | 16 => Some (EVP_aes 128 mod_) | 24 => Some (EVP_aes 192 mod_) | 32 => Some (EVP_aes 256 mod_) | _ => None end in
  let two := match key_len with 16 => Some (EVP_aes 128 mod_) | 32 => Some (EVP_aes 256 mod_) | _ => None end in
  match mod_ with
  | ecb | gcm | cbc | cfb1 | cfb8 | cfb128 | ofb | ctr | ccm | key_wrap | wrap_pad | ocb => three
  | xts | cbc_hmac_sha1 | cbc_hmac_sha256 => two
  end.

Definition is_key_valid (mod_ : mode) (key : option (list Z)) (key_len : nat) : bool :=
  match key with
  | None => false
  | Some _ =>
      match mod_ with
      | ecb | gcm | cbc | cfb1 | cfb8 | cfb128 | ofb | ctr | ccm | key_wrap | wrap_pad | ocb =>
          (key_len =? 16) || (key_len =? 24) || (key_len =? 32)
      | xts | cbc_hmac_sha1 | cbc_hmac_sha256 => (key_len =? 16) || (key_len =? 32)
      end
  end.

Definition is_iv_valid (mod_ : mode) (iv : option (list Z)) : bool :=
  match mod_, iv with
  | ecb, None | key_wrap, None | wrap_pad, None => true
  | ecb, Some _ | key_wrap, Some _ | wrap_pad, Some _ => false
  | _, None => false
  | gcm, Some iv => 1 <=? length iv
  | ccm, Some iv => (7 <=? length iv) && (length iv <=? 13)
  | (cfb1 | cfb8), Some iv => 0 <? length iv
  | ocb, Some iv => (1 <=? length iv) && (length iv <=? 15)
  | _, Some iv => length iv =? 16
  end.

Definition is_stream_mode (mod_ : mode) : bool :=
  match mod_ with cfb1 | cfb8 | cfb128 | ofb | ctr => true | _ => false end.
Definition is_aead_mode (mod_ : mode) : bool := match mod_ with gcm | ccm => true | _ => false end.

Definition decrypt_len_reserve (src_len : nat) : nat := src_len.

(** ** The library *)

(** Contexts are freed on every path: a context is a value here. *)
Record evp (Ctx : Type) := Evp
  { EVP_CIPHER_CTX_new : option Ctx;
    (* a null cipher may not be asked for its block size *)
    EVP_CIPHER_block_size : option cipher -> option nat;
    (* the cipher, the key and the initialisation vector; none is [NULL] *)
    EVP_EncryptInit_ex : option cipher -> option (list Z) -> option (list Z) -> Ctx -> option Ctx;
    EVP_DecryptInit_ex : option cipher -> option (list Z) -> option (list Z) -> Ctx -> option Ctx;
    SET_IVLEN : nat -> Ctx -> option Ctx;
    no_auto_padding : Ctx -> Ctx;
    EVP_EncryptUpdate : Ctx -> list Z -> option (list Z * Ctx);
    EVP_DecryptUpdate : Ctx -> list Z -> option (list Z * Ctx);
    EVP_EncryptFinal : Ctx -> option (list Z * Ctx);
    EVP_DecryptFinal : Ctx -> option (list Z * Ctx);
    GET_TAG : Ctx -> option (list Z);
    SET_TAG : list Z -> Ctx -> option Ctx }.
#[global] Arguments EVP_CIPHER_CTX_new {Ctx}. #[global] Arguments EVP_CIPHER_block_size {Ctx}.
#[global] Arguments EVP_EncryptInit_ex {Ctx}. #[global] Arguments EVP_DecryptInit_ex {Ctx}. #[global] Arguments SET_IVLEN {Ctx}.
#[global] Arguments no_auto_padding {Ctx}.
#[global] Arguments EVP_EncryptUpdate {Ctx}. #[global] Arguments EVP_DecryptUpdate {Ctx}.
#[global] Arguments EVP_EncryptFinal {Ctx}. #[global] Arguments EVP_DecryptFinal {Ctx}.
#[global] Arguments GET_TAG {Ctx}. #[global] Arguments SET_TAG {Ctx}.

(** A call whose failure returns an error code. *)
#[local] Notation "'let!' p := o 'or' fail 'in' k" := (match o with Some p => k | None => fail end)
  (at level 10, p pattern, o at level 99, fail at level 99, k at level 200).

Section Aes.
Context {Ctx : Type} (e : evp Ctx)
  (** successive values of [rand()] *)
  (rand : nat -> Z)
  (** a macro *)
  (AES_BUF_SIZE : nat).

Definition get_block_size (mod_ : mode) (key_len : nat) : option nat :=
  match mod_ with
  | ecb | cbc | cfb128 | ofb | ctr => Some 16
  | cfb8 | cfb1 => Some 1
  | _ => EVP_CIPHER_block_size e (select_cipher mod_ key_len)
  end.
(** A remainder by 0 is undefined. *)
Definition rem (a b : nat) : option nat := if b =? 0 then None else Some (a mod b).

Definition encrypt_len_reserve (src_len : nat) (mod_ : mode) (key_len : nat) : option nat :=
  let* block_size := get_block_size mod_ key_len in
  Some (if 8 <=? block_size then (src_len / block_size + 2) * block_size else src_len + 16).

Definition is_plain_valid (mod_ : mode) (key_len : nat) (pad_style : padding) (plain_len : nat) : option bool :=
  let* block_sz := get_block_size mod_ key_len in
  if bool_decide (pad_style = no_padding) then let* r := rem plain_len block_sz in Some (r =? 0) else Some true.
(** On a stream of which [rest] is left. *)
Definition is_plain_valid_stream (mod_ : mode) (key_len : nat) (pad_style : padding) (in_good : bool) (rest : list Z) : option bool :=
  if negb in_good then Some false else
  if bool_decide (pad_style = no_padding) then
    let* block_size := get_block_size mod_ key_len in let* r := rem (length rest) block_size in Some (r =? 0)
  else Some true.

(** ** Padding *)

Definition padding_block (mod_ : mode) (key_len : nat) (pad_style : padding) (src : list Z) : option (list Z) :=
  let* block_size := get_block_size mod_ key_len in
  if bool_decide (pad_style <> no_padding) && (1 <? block_size) then
    let src_len := length src in
    let pad_val := wrap 8 (Z.of_nat (block_size - src_len mod block_size)) in
    let pad_val := if (pad_val =? 0)%Z then wrap 8 (Z.of_nat block_size) else pad_val in
    let n := Z.to_nat pad_val in
    let padded_len := src_len + n in
    let padded_src := src ++ replicate n 0%Z in
    Some (match pad_style with
      | pkcs5 | pkcs7 => src ++ replicate n pad_val
      | zero | no_padding => padded_src
      | iso10126 => <[padded_len - 1 := pad_val]> (src ++ ((fun i => (rand i mod 256)%Z) <$> seq 0 n))
      | ansix923 => <[padded_len - 1 := pad_val]> padded_src
      | iso_iec_7816_4 => <[src_len := 0x80%Z]> padded_src
      end)
  else Some src.

(** The length that is left, a [size_t]. *)
Definition unpadding_block (dst : list Z) (dst_len : nat) (mod_ : mode) (pad_style : padding) (block_size : nat) : option Z :=
  let same := Some (Z.of_nat dst_len) in
  if negb (is_aead_mode mod_) && bool_decide (pad_style <> no_padding) && (1 <? block_size) then
    match pad_style with
    | pkcs5 | pkcs7 =>
        if dst_len =? 0 then same else
        let* pad := dst !! (dst_len - 1) in
        if (pad =? 0)%Z || (Z.of_nat block_size <? pad)%Z then same else
        let start := wrap 64 (Z.of_nat dst_len - pad) in
        let* d := differs dst start dst_len pad in
        if d : bool then same else Some start
    | zero => let* n := strip dst dst_len in Some (Z.of_nat n)
    | iso10126 =>
        if dst_len =? 0 then same else
        let* pad := dst !! (dst_len - 1) in
        if (pad =? 0)%Z || (Z.of_nat block_size <? pad)%Z then same else
        Some (wrap 64 (Z.of_nat dst_len - pad))
    | ansix923 =>
        if dst_len =? 0 then same else
        let* pad := dst !! (dst_len - 1) in
        if (pad =? 0)%Z || (Z.of_nat block_size <? pad)%Z then same else
        let start := wrap 64 (Z.of_nat dst_len - pad) in
        let* d := differs dst start (dst_len - 1) 0 in
        if d : bool then same else Some start
    | iso_iec_7816_4 =>
        (* the index is an [int] *)
        let i := sint_of 32 (wrap 64 (Z.of_nat dst_len - 1)) in
        let* n := strip dst (Z.to_nat (i + 1)) in
        match n with
        | O => same
        | S i => let* b := dst !! i in if (b =? 0x80)%Z then Some (Z.of_nat i) else same
        end
    | no_padding => same
    end
  else same.

(** ** Contexts *)

(** The calls that prepare a context: cipher, length of the initialisation
    vector, key, automatic padding.  The second call names the cipher again,
    except when a buffer is decrypted. *)
Definition encrypt_init (mod_ : mode) (key : list Z) (key_len : nat) (iv : option (list Z)) : error_code + Ctx :=
  let! ctx := EVP_CIPHER_CTX_new e or inl ctx_alloc_failed in
  let! c := select_cipher mod_ key_len or inl encrypt_init_failed in
  let! ctx := EVP_EncryptInit_ex e (Some c) None None ctx or inl encrypt_init_failed in
  let! ctx := (match iv with
      | Some v => if is_aead_mode mod_ && (0 <? length v) then SET_IVLEN e (length v) ctx else Some ctx
      | None => Some ctx end) or inl cipher_ctl_failed in
  let! ctx := EVP_EncryptInit_ex e (Some c) (Some key) iv ctx or inl encrypt_init_failed in
  inr (if is_aead_mode mod_ then ctx else no_auto_padding e ctx).
Definition decrypt_init (again : bool) (mod_ : mode) (key : list Z) (key_len : nat) (iv : option (list Z)) : error_code + Ctx :=
  let! ctx := EVP_CIPHER_CTX_new e or inl ctx_alloc_failed in
  let! c := select_cipher mod_ key_len or inl decrypt_init_failed in
  let! ctx := EVP_DecryptInit_ex e (Some c) None None ctx or inl decrypt_init_failed in
  let! ctx := (match iv with
      | Some v => if is_aead_mode mod_ && (0 <? length v) then SET_IVLEN e (length v) ctx else Some ctx
      | None => Some ctx end) or inl cipher_ctl_failed in
  let! ctx := EVP_DecryptInit_ex e (if again then Some c else None) (Some key) iv ctx or inl decrypt_init_failed in
  inr (if is_aead_mode mod_ then ctx else no_auto_padding e ctx).

(** ** Buffers *)

(** The result, the destination and the length set. *)
Definition encrypt (dst : list Z) (dst_len : Z) (src : list Z) (key : option (list Z)) (key_len : nat) (mod_ : mode)
    (pad_style : padding) (iv : option (list Z)) : option (error_code * list Z * Z) :=
  let fail code := Some (code, dst, dst_len) in
  let* pv := is_plain_valid mod_ key_len pad_style (length src) in
  if negb pv then fail plain_invalid else
  if negb (is_key_valid mod_ key key_len) then fail key_invalid else
  if negb (is_iv_valid mod_ iv) then fail iv_invalid else
  let* padded_src := padding_block mod_ key_len pad_style src in
  match encrypt_init mod_ (default [] key) key_len iv with
  | inl code => fail code
  | inr ctx =>
      let! (out1, ctx) := EVP_EncryptUpdate e ctx padded_src or fail encrypt_update_failed in
      let* dst := write dst 0 out1 in
      let! (out2, ctx) := EVP_EncryptFinal e ctx or Some (encrypt_final_failed, dst, dst_len) in
      let* dst := write dst (length out1) out2 in
      let n := length out1 + length out2 in
      if is_aead_mode mod_ then
        let! tag := GET_TAG e ctx or Some (cipher_ctl_failed, dst, Z.of_nat n) in
        let* dst := write dst n tag in Some (ok, dst, Z.of_nat (n + length tag))
      else Some (ok, dst, Z.of_nat n)
  end.

Definition decrypt (dst : list Z) (dst_len : Z) (src : list Z) (key : option (list Z)) (key_len : nat) (mod_ : mode)
    (pad_style : padding) (iv : option (list Z)) : option (error_code * list Z * Z) :=
  let fail code := Some (code, dst, dst_len) in
  if negb (is_key_valid mod_ key key_len) then fail key_invalid else
  if negb (is_iv_valid mod_ iv) then fail iv_invalid else
  let* block_size := get_block_size mod_ key_len in
  let* refused := (if bool_decide (pad_style = no_padding) then let* r := rem (length src) block_size in Some (negb (r =? 0)) else Some false) in
  if refused : bool then fail padding_style_invalid else
  let tagged := is_aead_mode mod_ && (16 <? length src) in
  let cipher_len := if tagged then length src - 16 else length src in
  match decrypt_init false mod_ (default [] key) key_len iv with
  | inl code => fail code
  | inr ctx =>
      let! ctx := (if tagged then SET_TAG e (drop cipher_len src) ctx else Some ctx) or fail cipher_ctl_failed in
      let! (out1, ctx) := EVP_DecryptUpdate e ctx (take cipher_len src) or fail decrypt_update_failed in
      let* dst := write dst 0 out1 in
      let! (out2, _) := EVP_DecryptFinal e ctx or Some (decrypt_final_failed, dst, dst_len) in
      let* dst := write dst (length out1) out2 in
      let* n := unpadding_block dst (length out1 + length out2) mod_ pad_style block_size in
      Some (ok, dst, n)
  end.

(** ** Strings *)

Definition iv_ptr (mod_ : mode) (iv : list Z) : option (list Z) := if bool_decide (mod_ = ecb) then None else Some iv.
(** The destination is left as it is when encryption fails. *)
Definition encrypt_string (src key : list Z) (mod_ : mode) (pad_style : padding) (iv : list Z) : option (error_code * list Z) :=
  let* dst_len := encrypt_len_reserve (length src) mod_ (length key) in
  let* (code, dst, n) := encrypt (replicate dst_len 0%Z) (Z.of_nat dst_len) src (Some key) (length key) mod_ pad_style (iv_ptr mod_ iv) in
  if bool_decide (code = ok) then let* s := resize dst n in Some (ok, s) else Some (code, dst).
Definition decrypt_string (src key : list Z) (mod_ : mode) (pad_style : padding) (iv : list Z) : option (error_code * list Z) :=
  let dst_len := decrypt_len_reserve (length src) in
  let* (code, dst, n) := decrypt (replicate dst_len 0%Z) (Z.of_nat dst_len) src (Some key) (length key) mod_ pad_style (iv_ptr mod_ iv) in
  if bool_decide (code = ok) then let* s := resize dst n in Some (ok, s) else Some (code, []).

(** ** Streams *)

(** What a call gives fits the buffer. *)
Definition fits (out : list Z) (block_size : nat) : bool := length out <=? AES_BUF_SIZE + block_size * 2.

(** The loop over full chunks: an error and what is written, or the context, the
    last chunk and what is written. *)
Fixpoint encrypt_chunks (fuel : nat) (block_size : nat) (ctx : Ctx) (rest out : list Z) : option (error_code * list Z + Ctx * list Z * list Z) :=
  match fuel with
  | O => None
  | S fuel =>
      let inbuf := take AES_BUF_SIZE rest in
      let rest := drop AES_BUF_SIZE rest in
      if length inbuf <? AES_BUF_SIZE then Some (inr (ctx, inbuf, out)) else
      let! (o, ctx) := EVP_EncryptUpdate e ctx inbuf or Some (inl (encrypt_update_failed, out)) in
      if fits o block_size then encrypt_chunks fuel block_size ctx rest (out ++ o) else None
  end.
Definition encrypt_stream (out_good in_good : bool) (content : list Z) (key : option (list Z)) (key_len : nat) (mod_ : mode)
    (pad_style : padding) (iv : option (list Z)) : option (error_code * list Z) :=
  if negb in_good then Some (input_stream_invalid, []) else
  if negb out_good then Some (output_stream_invalid, []) else
  let* pv := is_plain_valid_stream mod_ key_len pad_style in_good content in
  if negb pv then Some (plain_invalid, []) else
  if negb (is_key_valid mod_ key key_len) then Some (key_invalid, []) else
  if negb (is_iv_valid mod_ iv) then Some (iv_invalid, []) else
  let* block_size := get_block_size mod_ key_len in
  match encrypt_init mod_ (default [] key) key_len iv with
  | inl code => Some (code, [])
  | inr ctx =>
      let* r := encrypt_chunks (S (length content)) block_size ctx content [] in
      match r with
      | inl r => Some r
      | inr (ctx, last_plain, out) =>
          let* padded_plain := padding_block mod_ key_len pad_style last_plain in
          let! (o1, ctx) := (if 0 <? length padded_plain then EVP_EncryptUpdate e ctx padded_plain else Some ([], ctx))
            or Some (encrypt_update_failed, out) in
          if negb (fits o1 block_size) then None else
          let out := out ++ o1 in
          let! (o2, ctx) := EVP_EncryptFinal e ctx or Some (encrypt_final_failed, out) in
          let out := out ++ o2 in
          if is_aead_mode mod_ then
            let! tag := GET_TAG e ctx or Some (get_tag_failed, out) in Some (ok, out ++ tag)
          else Some (ok, out)
      end
  end.

(** The loop while [total_read < cipher_len]: [rest] is the input up to
    [cipher_len]. *)
Fixpoint decrypt_chunks (fuel : nat) (block_size : nat) (ctx : Ctx) (rest out : list Z) : option (error_code * list Z + Ctx * list Z * list Z) :=
  match fuel with
  | O => None
  | S fuel =>
      if length rest =? 0 then Some (inr (ctx, [], out)) else
      let inbuf := take AES_BUF_SIZE rest in
      let rest := drop AES_BUF_SIZE rest in
      if length rest =? 0 then Some (inr (ctx, inbuf, out)) else
      let! (o, ctx) := EVP_DecryptUpdate e ctx inbuf or Some (inl (decrypt_update_failed, out)) in
      if fits o block_size then decrypt_chunks fuel block_size ctx rest (out ++ o) else None
  end.
(** [pos] is the position of the input, which the code takes for its size. *)
Definition decrypt_stream (out_good in_good : bool) (content : list Z) (pos : nat) (key : option (list Z)) (key_len : nat) (mod_ : mode)
    (pad_style : padding) (iv : option (list Z)) : option (error_code * list Z) :=
  if negb in_good then Some (input_stream_invalid, []) else
  if negb out_good then Some (output_stream_invalid, []) else
  if negb (is_key_valid mod_ key key_len) then Some (key_invalid, []) else
  if negb (is_iv_valid mod_ iv) then Some (iv_invalid, []) else
  let file_size := pos in
  let* block_size := get_block_size mod_ key_len in
  let is_aead := is_aead_mode mod_ in
  let cipher_len := if is_aead && (16 <? file_size) then file_size - 16 else file_size in
  let tag := if is_aead && (16 <? file_size) then take 16 (drop cipher_len content) else replicate 16 0%Z in
  match decrypt_init true mod_ (default [] key) key_len iv with
  | inl code => Some (code, [])
  | inr ctx =>
      let! ctx := (if is_aead then SET_TAG e tag ctx else Some ctx) or Some (cipher_ctl_failed, []) in
      let* r := decrypt_chunks (S cipher_len) block_size ctx (take cipher_len content) [] in
      match r with
      | inl r => Some r
      | inr (ctx, last_cipher, out) =>
          let! (o1, ctx) := (if 0 <? length last_cipher then EVP_DecryptUpdate e ctx last_cipher else Some ([], ctx))
            or Some (decrypt_update_failed, out) in
          let! (o2, _) := EVP_DecryptFinal e ctx or Some (decrypt_final_failed, out) in
          if negb (fits (o1 ++ o2) block_size) then None else
          let* plain_len := unpadding_block (o1 ++ o2) (length o1 + length o2) mod_ pad_style block_size in
          if (plain_len <=? Z.of_nat (length (o1 ++ o2)))%Z then Some (ok, out ++ take (Z.to_nat plain_len) (o1 ++ o2)) else None
      end
  end.

(** ** Files *)

(** Whether the files could be opened, and the content of the source. *)
Definition encrypt_file (dst src : bool) (content : list Z) (key : option (list Z)) (key_len : nat) (mod_ : mode) (pad_style : padding)
    (iv : option (list Z)) : option (error_code * list Z) :=
  if negb src || negb dst then Some (file_open_failed, []) else encrypt_stream true true content key key_len mod_ pad_style iv.
Definition encrypt_file_string (dst src : bool) (content key : list Z) (mod_ : mode) (pad_style : padding) (iv : list Z) :=
  encrypt_file dst src content (Some key) (length key) mod_ pad_style (iv_ptr mod_ iv).
(** The file is opened at its end. *)
Definition decrypt_file (dst src : bool) (content : list Z) (key : option (list Z)) (key_len : nat) (mod_ : mode) (pad_style : padding)
    (iv : option (list Z)) : option (error_code * list Z) :=
  if negb src then Some (file_open_failed, []) else
  if negb dst then Some (file_open_failed, []) else decrypt_stream true true content (length content) key key_len mod_ pad_style iv.
Definition decrypt_file_string (dst src : bool) (content key : list Z) (mod_ : mode) (pad_style : padding) (iv : list Z) :=
  decrypt_file dst src content (Some key) (length key) mod_ pad_style (iv_ptr mod_ iv).

(** ** Keys *)

(** [RAND_bytes] and the derivation from a password are the library's: the key
    written, or none. *)
Definition keygen (RAND_bytes : nat -> option (list Z)) (PBKDF2 : list Z -> option (list Z) -> Z -> nat -> option (list Z))
    (key : option (list Z)) (key_len : nat) (password salt : option (list Z)) (iterations : Z) : error_code * option (list Z) :=
  match key with
  | None => (param_invalid, key)
  | Some _ =>
      if negb (key_len =? 16) && negb (key_len =? 24) && negb (key_len =? 32) then (param_invalid, key) else
      match password with
      | Some ((_ :: _) as p) =>
          match PBKDF2 p salt iterations key_len with Some k => (ok, Some k) | None => (pbkdf2_derive_failed, key) end
      | _ => match RAND_bytes key_len with Some k => (ok, Some k) | None => (passwd_invalid, key) end
      end
  end.
End Aes.
End Aes.
