(* ===== verification/AesThm.v ===== *)
(** * AES: theorems

    What is relied on of the library's contexts ([EvpLaws]), call by call, as
    documented: a call that names a cipher sets the context up, with the length
    of the initialisation vector the cipher has; in the modes that take a message
    piece by piece, pieces of whole blocks are encrypted and decrypted as the
    message they form, and the tag of a message is accepted.  From it: buffers, strings, streams and files give the same
    bytes, and decryption gives the message back. *)

From Stdlib Require Import ZArith Lia List Bool.
From stdpp Require Import base tactics list option.
From S2P Require Import Prelude Ints Padding Aes.

Open Scope hj_scope.
Open Scope nat_scope.

Import Aes.

(** The modes that take a message piece by piece. *)
Definition piecewise (m : mode) : bool :=
  match m with ecb | cbc | cfb1 | cfb8 | cfb128 | ofb | ctr | gcm => true | _ => false end.
(** Their blocks: [gcm] is a stream cipher for the library. *)
Definition block_of (m : mode) : nat := match m with ecb | cbc | cfb128 | ofb | ctr => 16 | _ => 1 end.

Section Laws.
Context {Ctx : Type}.

(** The ciphers of the library as functions of a session: the mode, the key and
    the initialisation vector. *)
Record session := Session { s_mode : mode; s_key : list Z; s_iv : option (list Z) }.

(** What a context stands for: a cipher is chosen and it expects an
    initialisation vector of a length; or it has a session and a number of
    bytes, pads by itself or not, and, when it decrypts, expects a tag. *)
Record reference := Ref
  { cipher_of : session -> list Z -> list Z; plain_of : session -> list Z -> list Z; tag_of : session -> list Z -> list Z;
    to_encrypt : Ctx -> cipher -> nat -> Prop; to_decrypt : Ctx -> cipher -> nat -> Prop;
    encrypting : Ctx -> session -> bool -> list Z -> Prop;
    decrypting : Ctx -> session -> bool -> option (list Z) -> list Z -> Prop }.

(** The bits of a cipher's key, its mode, and the length of the initialisation
    vector it expects until another one is set. *)
Definition key_bits (c : cipher) : nat := match c with EVP_aes bits _ => bits end.
Definition mode_of (c : cipher) : mode := match c with EVP_aes _ m => m end.
Definition default_ivlen (m : mode) : nat := match m with ecb => 0 | gcm => 12 | _ => 16 end.
Definition iv_length (iv : option (list Z)) : nat := match iv with Some v => length v | None => 0 end.

(** A key and an initialisation vector of the lengths the cipher expects. *)
Definition accepted (s : session) : Prop :=
  piecewise (s_mode s) = true /\ is_key_valid (s_mode s) (Some (s_key s)) (length (s_key s)) = true
  /\ is_iv_valid (s_mode s) (s_iv s) = true /\ iv_length (s_iv s) = default_ivlen (s_mode s).
Definition whole (m : mode) (p : list Z) : Prop := length p mod block_of m = 0.
(** The library keeps no block back and adds none. *)
Definition unpadded (m : mode) (auto : bool) : Prop := auto = false \/ block_of m = 1.

Class EvpLaws (e : evp Ctx) (r : reference) : Prop :=
  { law_new : is_Some (EVP_CIPHER_CTX_new e);
    law_gcm_block b : EVP_CIPHER_block_size e (Some (EVP_aes b gcm)) = Some 1;
    law_cipher_length s p : length (cipher_of r s p) = length p;
    law_cipher_prefix s p q : whole (s_mode s) p -> take (length p) (cipher_of r s (p ++ q)) = cipher_of r s p;
    law_plain_length s p : length (plain_of r s p) = length p;
    law_plain_prefix s p q : whole (s_mode s) p -> take (length p) (plain_of r s (p ++ q)) = plain_of r s p;
    law_inverse s p : whole (s_mode s) p -> plain_of r s (cipher_of r s p) = p;
    law_tag_length s p : length (tag_of r s p) = 16;
    (* a call with a cipher sets the context up, whatever it was *)
    law_encrypt_choose ctx c : piecewise (mode_of c) = true ->
      exists ctx', EVP_EncryptInit_ex e (Some c) None None ctx = Some ctx' /\ to_encrypt r ctx' c (default_ivlen (mode_of c));
    law_encrypt_all ctx c k iv : piecewise (mode_of c) = true -> 8 * length k = key_bits c -> iv_length iv = default_ivlen (mode_of c) ->
      exists ctx', EVP_EncryptInit_ex e (Some c) (Some k) iv ctx = Some ctx' /\ encrypting r ctx' (Session (mode_of c) k iv) true [];
    law_decrypt_choose ctx c : piecewise (mode_of c) = true ->
      exists ctx', EVP_DecryptInit_ex e (Some c) None None ctx = Some ctx' /\ to_decrypt r ctx' c (default_ivlen (mode_of c));
    law_decrypt_all ctx c k iv : piecewise (mode_of c) = true -> 8 * length k = key_bits c -> iv_length iv = default_ivlen (mode_of c) ->
      exists ctx', EVP_DecryptInit_ex e (Some c) (Some k) iv ctx = Some ctx' /\ decrypting r ctx' (Session (mode_of c) k iv) true None [];
    (* without one it sets the rest of the context *)
    law_decrypt_key ctx c n k iv : to_decrypt r ctx c n -> 8 * length k = key_bits c -> iv_length iv = n ->
      exists ctx', EVP_DecryptInit_ex e None (Some k) iv ctx = Some ctx' /\ decrypting r ctx' (Session (mode_of c) k iv) true None [];
    law_encrypt_ivlen ctx c n n' : to_encrypt r ctx c n -> mode_of c = gcm -> 1 <= n' <= 16 ->
      exists ctx', SET_IVLEN e n' ctx = Some ctx' /\ to_encrypt r ctx' c n';
    law_decrypt_ivlen ctx c n n' : to_decrypt r ctx c n -> mode_of c = gcm -> 1 <= n' <= 16 ->
      exists ctx', SET_IVLEN e n' ctx = Some ctx' /\ to_decrypt r ctx' c n';
    law_encrypt_padding ctx s auto p : encrypting r ctx s auto p -> encrypting r (no_auto_padding e ctx) s false p;
    law_decrypt_padding ctx s auto t p : decrypting r ctx s auto t p -> decrypting r (no_auto_padding e ctx) s false t p;
    law_encrypt_update ctx s auto p q : encrypting r ctx s auto p -> unpadded (s_mode s) auto -> whole (s_mode s) p -> whole (s_mode s) q ->
      exists ctx', EVP_EncryptUpdate e ctx q = Some (drop (length p) (cipher_of r s (p ++ q)), ctx') /\ encrypting r ctx' s auto (p ++ q);
    law_encrypt_final ctx s auto p : encrypting r ctx s auto p -> unpadded (s_mode s) auto -> whole (s_mode s) p ->
      exists ctx', EVP_EncryptFinal e ctx = Some ([], ctx') /\ (is_aead_mode (s_mode s) = true -> GET_TAG e ctx' = Some (tag_of r s p));
    law_set_tag ctx s auto t : decrypting r ctx s auto None [] -> is_aead_mode (s_mode s) = true -> length t = 16 ->
      exists ctx', SET_TAG e t ctx = Some ctx' /\ decrypting r ctx' s auto (Some t) [];
    law_decrypt_update ctx s auto t p q : decrypting r ctx s auto t p -> unpadded (s_mode s) auto -> whole (s_mode s) p -> whole (s_mode s) q ->
      exists ctx', EVP_DecryptUpdate e ctx q = Some (drop (length p) (plain_of r s (p ++ q)), ctx') /\ decrypting r ctx' s auto t (p ++ q);
    law_decrypt_final ctx s auto t p : decrypting r ctx s auto t p -> unpadded (s_mode s) auto -> whole (s_mode s) p ->
      (is_aead_mode (s_mode s) = true -> t = Some (tag_of r s (plain_of r s p))) ->
      exists ctx', EVP_DecryptFinal e ctx = Some ([], ctx') }.
End Laws.
#[global] Arguments reference : clear implicits.

(** The cipher chosen is that of the mode with as many bits as the key has. *)
Lemma select_accepted m k : is_key_valid m (Some k) (length k) = true -> m <> xts ->
  exists c, select_cipher m (length k) = Some c /\ mode_of c = m /\ key_bits c = 8 * length k.
Proof.
  unfold is_key_valid. intros H Hx.
  assert (Hl : length k = 16 \/ length k = 32 \/ length k = 24 /\ match m with xts | cbc_hmac_sha1 | cbc_hmac_sha256 => False | _ => True end).
  { destruct m; repeat (apply orb_true_iff in H as [H|H]); apply Nat.eqb_eq in H; auto. }
  destruct Hl as [->|[->|[-> Hm]]]; destruct m; try contradiction; cbn; eexists; split_and!; reflexivity.
Qed.

Section Theorems.
Context {Ctx : Type} (e : evp Ctx) (r : reference Ctx) `{!EvpLaws e r} (rd : nat -> Z).

(** ** The preparation of a context *)

(** Whether the library pads by itself once the context is prepared. *)
Definition auto_of (m : mode) : bool := is_aead_mode m.
Lemma auto_unpadded m : piecewise m = true -> unpadded m (auto_of m).
Proof. destruct m; try discriminate; intros _; (now left) || now right. Qed.

(** In the one mode that has its length set, the length set is the default. *)
Lemma ivlen_accepted s : accepted s -> is_aead_mode (s_mode s) = true -> s_mode s = gcm /\ iv_length (s_iv s) = 12.
Proof. intros (Hp & _ & _ & Hi) Ha. destruct (s_mode s); try discriminate. now split. Qed.

Lemma encrypt_start s : accepted s ->
  exists ctx, encrypt_init e (s_mode s) (s_key s) (length (s_key s)) (s_iv s) = inr ctx /\ encrypting r ctx s (auto_of (s_mode s)) [].
Proof.
  intros Ha. pose proof Ha as (Hp & Hk & _ & Hi). pose proof (ivlen_accepted s Ha) as Hgcm.
  destruct s as [m k iv]. cbn [s_mode s_key s_iv] in *. unfold encrypt_init.
  destruct (law_new (e := e) (r := r)) as [ctx0 ->]. destruct (select_accepted m k Hk ltac:(now intros ->)) as (c & -> & <- & Hb).
  destruct (law_encrypt_choose ctx0 c Hp) as (ctx1 & -> & H1).
  assert (Hset : exists ctx2, match iv with
      | Some v => if is_aead_mode (mode_of c) && (0 <? length v) then SET_IVLEN e (length v) ctx1 else Some ctx1
      | None => Some ctx1 end = Some ctx2).
  { destruct iv as [v|]; [|eauto]. destruct (is_aead_mode (mode_of c)) eqn:Ea; [|eauto]. destruct (Hgcm eq_refl) as [Hm Hl]. cbn in Hl.
    destruct (law_encrypt_ivlen ctx1 c _ (length v) H1 Hm ltac:(lia)) as (ctx2 & E & _). exists ctx2. now destruct (0 <? length v) eqn:E0; [|apply Nat.ltb_ge in E0; lia]. }
  destruct Hset as [ctx2 ->]. destruct (law_encrypt_all ctx2 c k iv Hp ltac:(lia) Hi) as (ctx3 & -> & H3).
  eexists. split; [reflexivity|]. unfold auto_of. destruct (is_aead_mode (mode_of c)); [exact H3|]. now apply (law_encrypt_padding _ _ true).
Qed.

Lemma decrypt_start again s : accepted s ->
  exists ctx, decrypt_init e again (s_mode s) (s_key s) (length (s_key s)) (s_iv s) = inr ctx /\ decrypting r ctx s (auto_of (s_mode s)) None [].
Proof.
  intros Ha. pose proof Ha as (Hp & Hk & _ & Hi). pose proof (ivlen_accepted s Ha) as Hgcm.
  destruct s as [m k iv]. cbn [s_mode s_key s_iv] in *. unfold decrypt_init.
  destruct (law_new (e := e) (r := r)) as [ctx0 ->]. destruct (select_accepted m k Hk ltac:(now intros ->)) as (c & -> & <- & Hb).
  destruct (law_decrypt_choose ctx0 c Hp) as (ctx1 & -> & H1).
  assert (Hset : exists ctx2, match iv with
      | Some v => if is_aead_mode (mode_of c) && (0 <? length v) then SET_IVLEN e (length v) ctx1 else Some ctx1
      | None => Some ctx1 end = Some ctx2 /\ to_decrypt r ctx2 c (iv_length iv)).
  { destruct iv as [v|]; [|rewrite Hi; eauto]. destruct (is_aead_mode (mode_of c)) eqn:Ea; [|rewrite Hi; eauto].
    destruct (Hgcm eq_refl) as [Hm Hl]. cbn in Hl. destruct (law_decrypt_ivlen ctx1 c _ (length v) H1 Hm ltac:(lia)) as (ctx2 & E & H2).
    exists ctx2. split; [now destruct (0 <? length v) eqn:E0; [|apply Nat.ltb_ge in E0; lia]|exact H2]. }
  destruct Hset as (ctx2 & -> & H2).
  assert (Hkey : exists ctx3, EVP_DecryptInit_ex e (if again then Some c else None) (Some k) iv ctx2 = Some ctx3
      /\ decrypting r ctx3 (Session (mode_of c) k iv) true None []).
  { destruct again; [now apply law_decrypt_all|]. now apply (law_decrypt_key ctx2 c (iv_length iv)). }
  destruct Hkey as (ctx3 & -> & H3).
  eexists. split; [reflexivity|]. unfold auto_of. destruct (is_aead_mode (mode_of c)); [exact H3|]. now apply (law_decrypt_padding _ _ true).
Qed.

Lemma block_size_of m k : piecewise m = true -> is_key_valid m (Some k) (length k) = true -> get_block_size e m (length k) = Some (block_of m).
Proof.
  intros Hm Hk. destruct m; try discriminate; try reflexivity. cbn [get_block_size block_of]. unfold is_key_valid in Hk.
  assert (H : exists b, select_cipher gcm (length k) = Some (EVP_aes b gcm)).
  { apply orb_true_iff in Hk as [[Hk|Hk]%orb_true_iff|Hk]; apply Nat.eqb_eq in Hk; rewrite Hk; cbn; eauto. }
  destruct H as [b ->]. apply law_gcm_block.
Qed.

Lemma block_of_pos m : 1 <= block_of m <= 16.
Proof. destruct m; cbn; lia. Qed.

Lemma buffer_whole m n : n mod 16 = 0 -> n mod block_of m = 0.
Proof. intros H. destruct m; cbn [block_of]; try exact H; apply Nat.mod_1_r. Qed.

Lemma whole_app m p q : whole m p -> whole m q -> whole m (p ++ q).
Proof.
  unfold whole. intros Hp Hq. rewrite length_app. pose proof (block_of_pos m).
  rewrite Nat.Div0.add_mod, Hp, Hq. apply Nat.mod_small. lia.
Qed.

(** ** Padding *)

(** The padded message. *)
Definition padded (m : mode) (pad : padding) (src : list Z) : list Z :=
  src ++ (if bool_decide (pad <> no_padding) && (1 <? block_of m) then tail rd pad (block_of m - length src mod block_of m) else []).

Lemma padding_block_padded m k pad src : piecewise m = true -> is_key_valid m (Some k) (length k) = true ->
  padding_block e rd m (length k) pad src = Some (padded m pad src).
Proof.
  intros Hm Hk. unfold padding_block, padded. rewrite block_size_of by assumption.
  destruct (bool_decide (pad <> no_padding) && (1 <? block_of m)) eqn:Ep; [|now rewrite app_nil_r].
  apply andb_true_iff in Ep as [Hp%bool_decide_eq_true Hb%Nat.ltb_lt]. pose proof (block_of_pos m) as Hbs.
  pose proof (Nat.mod_upper_bound (length src) (block_of m) ltac:(lia)) as Hr.
  set (n := block_of m - length src mod block_of m) in *. assert (Hn : 1 <= n <= 16) by lia.
  assert (Hw : wrap 8 (Z.of_nat n) = Z.of_nat n) by (apply wrap_small; unfold uint; lia). rewrite Hw.
  rewrite (proj2 (Z.eqb_neq _ 0)) by lia. rewrite Nat2Z.id. f_equal.
  assert (Hlast : forall l : list Z, length l = n -> <[length src + n - 1 := Z.of_nat n]> (src ++ l) = src ++ take (n - 1) l ++ [Z.of_nat n]).
  { intros l Hl. rewrite insert_app_r_alt by lia. f_equal. replace (length src + n - 1 - length src) with (n - 1) by lia. apply insert_last; lia. }
  destruct pad; cbn [tail]; try reflexivity.
  - rewrite Hlast by (now rewrite length_fmap, length_seq). do 2 f_equal. rewrite <- fmap_take. f_equal.
    replace n with (n - 1 + 1) at 2 by lia. rewrite seq_app. now rewrite take_app_length' by (now rewrite length_seq).
  - rewrite Hlast by apply length_replicate. do 2 f_equal. rewrite take_replicate. f_equal. lia.
  - rewrite insert_app_r_alt, Nat.sub_diag by lia. f_equal. destruct n as [|n']; [lia|]. cbn. now rewrite Nat.sub_0_r.
Qed.

(** What is written is whole blocks: all of them when padded. *)
Lemma padded_whole m pad src : pad <> no_padding \/ whole m src -> whole m (padded m pad src).
Proof.
  intros H. unfold padded, whole in *. pose proof (block_of_pos m) as Hb. rewrite length_app.
  destruct (bool_decide_reflect (pad <> no_padding)) as [Hp|Hp]; cbn [andb].
  - destruct (Nat.ltb_spec 1 (block_of m)) as [H1|H1].
    + pose proof (Nat.mod_upper_bound (length src) (block_of m) ltac:(lia)) as Hr. rewrite tail_length by lia.
      pose proof (Nat.div_mod_eq (length src) (block_of m)) as Hd.
      replace (length src + (block_of m - length src mod block_of m)) with ((length src / block_of m + 1) * block_of m) by lia.
      apply Nat.Div0.mod_mul.
    + replace (block_of m) with 1 by lia. apply Nat.mod_1_r.
  - cbn [length]. rewrite Nat.add_0_r. now destruct H.
Qed.

(** Only the end of the message matters to the padding. *)
Lemma padded_app m pad p q : whole m p -> padded m pad (p ++ q) = p ++ padded m pad q.
Proof.
  intros Hp. unfold padded. rewrite <- app_assoc. do 3 f_equal. rewrite length_app. pose proof (block_of_pos m).
  rewrite Nat.Div0.add_mod, Hp. cbn [Nat.add]. now rewrite Nat.Div0.mod_mod.
Qed.

(** Removing the padding: the aead modes have none. *)
Lemma unpadding_padded m pad src rest : recoverable pad src -> (Z.of_nat (length src) < max_len pad)%Z ->
  unpadding_block (padded m pad src ++ rest) (length (padded m pad src)) m pad (block_of m) = Some (Z.of_nat (length src)).
Proof.
  intros Hrec Hmax. unfold unpadding_block, padded. pose proof (block_of_pos m) as Hb.
  destruct (bool_decide (pad <> no_padding) && (1 <? block_of m)) eqn:Ep.
  2: { rewrite app_nil_r. rewrite <- andb_assoc, Ep, andb_false_r. reflexivity. }
  apply andb_true_iff in Ep as [Hp%bool_decide_eq_true Hb1%Nat.ltb_lt]. rewrite (bool_decide_eq_true_2 _ Hp), (proj2 (Nat.ltb_lt _ _) Hb1).
  assert (Ha : is_aead_mode m = false) by (destruct m; cbn in *; lia || reflexivity). rewrite Ha. cbn [negb andb].
  pose proof (Nat.mod_upper_bound (length src) (block_of m) ltac:(lia)) as Hr. set (k := block_of m - length src mod block_of m).
  assert (Hk : 1 <= k <= block_of m) by lia. pose proof (tail_length rd pad k ltac:(lia)) as Htl.
  assert (Hs : (Z.of_nat (length src) < 2 ^ 62)%Z) by (destruct pad; cbn in Hmax; lia).
  rewrite length_app, Htl. rewrite (proj2 (Nat.eqb_neq (length src + k) 0)) by lia. rewrite <- app_assoc.
  pose proof (last_replicate (Z.of_nat k) k ltac:(lia)) as Hpk.
  destruct pad; try congruence; cbn [tail] in *.
  - destruct (unpadding_last src _ rest k (Z.of_nat (block_of m)) Htl ltac:(lia) ltac:(lia) Hs Hpk) as (-> & -> & -> & _).
    pose proof (differs_none src (replicate k (Z.of_nat k)) rest (Z.of_nat k) _ eq_refl) as Hd. rewrite Htl in Hd.
    now rewrite Hd by (intros b H; now apply elem_of_replicate in H as [-> _]).
  - destruct (unpadding_last src _ rest k (Z.of_nat (block_of m)) Htl ltac:(lia) ltac:(lia) Hs Hpk) as (-> & -> & -> & _).
    pose proof (differs_none src (replicate k (Z.of_nat k)) rest (Z.of_nat k) _ eq_refl) as Hd. rewrite Htl in Hd.
    now rewrite Hd by (intros b H; now apply elem_of_replicate in H as [-> _]).
  - now rewrite (strip_zero_tail src rest k Hrec).
  - now destruct (unpadding_last src _ rest k (Z.of_nat (block_of m)) Htl ltac:(lia) ltac:(lia) Hs (last_snoc_some _ _)) as (-> & -> & -> & _).
  - destruct (unpadding_last src _ rest k (Z.of_nat (block_of m)) Htl ltac:(lia) ltac:(lia) Hs (last_snoc_some _ _)) as (-> & -> & -> & _).
    pose proof (differs_none src (replicate (k - 1) 0%Z) ([Z.of_nat k] ++ rest) 0 _ eq_refl) as Hd.
    rewrite length_replicate in Hd. rewrite <- (app_assoc (replicate _ _)). replace (length src + k - 1) with (length src + (k - 1)) by lia.
    now rewrite Hd by (intros b H; now apply elem_of_replicate in H as [-> _]).
  - destruct (strip_mark_tail src rest k ltac:(lia)) as [Hst Hmk].
    rewrite wrap_small by (unfold uint; cbn in Hmax; lia). rewrite sint_of_id by (unfold sint; cbn in Hmax; lia).
    replace (Z.to_nat (Z.of_nat (length src + k) - 1 + 1)) with (length src + k) by lia. now rewrite Hst, Hmk.
Qed.

(** ** Encryption *)

Record valid (m : mode) (pad : padding) (src key iv : list Z) : Prop := Valid
  { v_accepted : accepted (Session m key (iv_ptr m iv));
    v_fits : pad <> no_padding \/ whole m src;
    v_size : (Z.of_nat (length src) < 2 ^ 31 - 16)%Z }.

(** The reference: the library's cipher on the padded message, and the tag. *)
Definition ciphertext (m : mode) (pad : padding) (src key iv : list Z) : list Z :=
  let s := Session m key (iv_ptr m iv) in
  cipher_of r s (padded m pad src) ++ (if is_aead_mode m then tag_of r s (padded m pad src) else []).

(** The output of pieces is the output of the whole. *)
Lemma glue (F : list Z -> list Z) m p q t :
  (forall p q, whole m p -> take (length p) (F (p ++ q)) = F p) -> whole m p -> whole m q ->
  drop (length p) (F (p ++ q)) ++ drop (length (p ++ q)) (F ((p ++ q) ++ t)) = drop (length p) (F (p ++ q ++ t)).
Proof.
  intros HF Hp Hq. rewrite <- (HF (p ++ q) t) by now apply whole_app. rewrite <- app_assoc. set (X := F (p ++ q ++ t)).
  rewrite <- (take_drop (length (p ++ q)) X) at 3. rewrite length_app.
  destruct (Nat.le_gt_cases (length p) (length (take (length p + length q) X))) as [H|H].
  - now rewrite drop_app_le by exact H.
  - rewrite length_take in H. rewrite (drop_ge X (length p + length q)) by lia. now rewrite !app_nil_r.
Qed.

Lemma rem_whole m n : n mod block_of m = 0 -> rem n (block_of m) = Some 0.
Proof. intros H. unfold rem. rewrite (proj2 (Nat.eqb_neq _ 0)) by (pose proof (block_of_pos m); lia). now rewrite H. Qed.

Lemma aes_plain_valid m pad key src : piecewise m = true -> is_key_valid m (Some key) (length key) = true ->
  pad <> no_padding \/ whole m src -> is_plain_valid e m (length key) pad (length src) = Some true.
Proof.
  intros Hm Hk Hf. unfold is_plain_valid. rewrite block_size_of by assumption. case_bool_decide as Hp; [|reflexivity].
  destruct Hf as [Hf|Hf]; [contradiction|]. now rewrite rem_whole.
Qed.

Lemma whole_nil m : whole m [].
Proof. unfold whole. cbn. apply Nat.Div0.mod_0_l. Qed.

Lemma ciphertext_length m pad src key iv :
  length (ciphertext m pad src key iv) = length (padded m pad src) + (if is_aead_mode m then 16 else 0).
Proof. unfold ciphertext. rewrite length_app, law_cipher_length. destruct (is_aead_mode m); [now rewrite law_tag_length|reflexivity]. Qed.

Lemma aes_encrypt_run m pad src key iv dst dl : valid m pad src key iv -> length (ciphertext m pad src key iv) <= length dst ->
  let c := ciphertext m pad src key iv in
  encrypt e rd dst dl src (Some key) (length key) m pad (iv_ptr m iv) = Some (ok, c ++ drop (length c) dst, Z.of_nat (length c)).
Proof.
  intros [Ha Hf Hsz] Hl c. pose proof Ha as (Hm & Hk & Hi & Hil). cbn [s_mode s_key s_iv] in *. unfold encrypt.
  rewrite aes_plain_valid, Hk, Hi, padding_block_padded by assumption. cbn [negb]. change (default [] (Some key)) with key.
  destruct (encrypt_start _ Ha) as (ctx & Ei & Hctx). cbn [s_mode s_key s_iv] in Ei. rewrite Ei.
  destruct (law_encrypt_update _ _ _ _ (padded m pad src) Hctx (auto_unpadded m Hm) (whole_nil m) (padded_whole m pad src Hf)) as (ctx1 & -> & Hctx1).
  destruct (law_encrypt_final _ _ _ _ Hctx1 (auto_unpadded m Hm) (padded_whole m pad src Hf)) as (ctx2 & -> & Htag). cbn [app length drop s_mode s_key] in *.
  unfold c in *. rewrite ciphertext_length in Hl |- *. unfold ciphertext.
  set (E := cipher_of r _ _) in *. assert (HE : length E = length (padded m pad src)) by apply law_cipher_length.
  rewrite drop_0, write_first by lia. rewrite (write_next E dst (length E) []) by (cbn; lia). cbn [length].
  rewrite app_nil_r, Nat.add_0_r. destruct (is_aead_mode m) eqn:Ea.
  - rewrite Htag by reflexivity. rewrite write_next by (rewrite ?law_tag_length; lia). rewrite law_tag_length, HE. reflexivity.
  - rewrite app_nil_r, Nat.add_0_r, HE. reflexivity.
Qed.

Lemma aes_reserve_enough m pad src key : piecewise m = true -> is_key_valid m (Some key) (length key) = true ->
  exists n, encrypt_len_reserve e (length src) m (length key) = Some n
  /\ length (padded m pad src) + (if is_aead_mode m then 16 else 0) <= n.
Proof.
  intros Hm Hk. unfold encrypt_len_reserve. rewrite block_size_of by assumption. eexists. split; [reflexivity|].
  unfold padded. rewrite length_app. pose proof (block_of_pos m). pose proof (Nat.div_mod_eq (length src) (block_of m)).
  pose proof (Nat.mod_upper_bound (length src) (block_of m) ltac:(lia)).
  assert (Ht : length (if bool_decide (pad <> no_padding) && (1 <? block_of m) then tail rd pad (block_of m - length src mod block_of m) else []) <= (if 1 <? block_of m then block_of m else 0)).
  { destruct (bool_decide (pad <> no_padding)), (1 <? block_of m); cbn [andb]; rewrite ?tail_length by lia; cbn; lia. }
  destruct m; try discriminate; cbn [block_of Nat.leb Nat.ltb is_aead_mode] in *; try lia.
Qed.

Lemma valid_small m pad src key iv : valid m pad src key iv -> (Z.of_nat (length src) < 2 ^ 62)%Z.
Proof. intros [_ _ H]. lia. Qed.

Lemma small_max pad n : (n < 2 ^ 31 - 16)%Z -> (n < max_len pad)%Z.
Proof. destruct pad; cbn; lia. Qed.

Lemma aes_padded_length m pad src : length src <= length (padded m pad src) <= length src + 16.
Proof.
  unfold padded. rewrite length_app. pose proof (block_of_pos m). pose proof (Nat.mod_upper_bound (length src) (block_of m) ltac:(lia)).
  destruct (_ && _); [rewrite tail_length by lia|cbn]; lia.
Qed.

Lemma aes_encrypt_string_run m pad src key iv : valid m pad src key iv ->
  encrypt_string e rd src key m pad iv = Some (ok, ciphertext m pad src key iv).
Proof.
  intros Hv. pose proof (valid_small _ _ _ _ _ Hv) as Hs. destruct (v_accepted _ _ _ _ _ Hv) as (Hm & Hk & Hi & Hil). cbn in Hm, Hk.
  unfold encrypt_string. destruct (aes_reserve_enough m pad src key Hm Hk) as (n & -> & Hn).
  pose proof (ciphertext_length m pad src key iv) as Hc. pose proof (aes_padded_length m pad src) as Hp.
  rewrite aes_encrypt_run by (rewrite ?length_replicate; auto; lia). cbn iota beta. change (bool_decide (ok = ok)) with true. cbn iota.
  rewrite resize_take; [now rewrite take_app_length| |rewrite length_app; lia]. rewrite Hc. destruct (is_aead_mode m); lia.
Qed.

(** ** Decryption *)

(** What decryption needs besides: an authenticated message is not empty. *)
Definition tagged (m : mode) (src : list Z) : Prop := is_aead_mode m = true -> src <> [].

(** The parts of a ciphertext. *)
Lemma ciphertext_parts m pad src key iv : valid m pad src key iv -> tagged m src ->
  let s := Session m key (iv_ptr m iv) in let c := ciphertext m pad src key iv in
  let body := cipher_of r s (padded m pad src) in
  length body = length (padded m pad src) /\ whole m body
  /\ (if is_aead_mode m && (16 <? length c) then length c - 16 else length c) = length body
  /\ take (length body) c = body
  /\ (is_aead_mode m = true -> (16 <? length c) = true /\ drop (length body) c = tag_of r s (padded m pad src))
  /\ plain_of r s body = padded m pad src.
Proof.
  intros [Ha Hf Hsz] Ht s c body. assert (Hb : length body = length (padded m pad src)) by apply law_cipher_length.
  assert (Hw : whole m (padded m pad src)) by now apply padded_whole.
  assert (Hinv : plain_of r s body = padded m pad src) by now apply (law_inverse s).
  assert (Hwb : whole m body) by (unfold whole; rewrite Hb; exact Hw).
  pose proof (ciphertext_length m pad src key iv) as Hc. fold c in Hc. pose proof (aes_padded_length m pad src) as Hp.
  assert (Ec : c = body ++ (if is_aead_mode m then tag_of r s (padded m pad src) else [])) by reflexivity.
  unfold tagged in Ht. clearbody c. clearbody body. subst c. destruct (is_aead_mode m) eqn:Ea.
  - assert (Hne : 0 < length src) by (specialize (Ht eq_refl); destruct src; [congruence|cbn; lia]).
    rewrite (proj2 (Nat.ltb_lt _ _)) by lia. cbn [andb].
    split_and!; auto; first [lia|apply take_app_length|intros _; split; [reflexivity|apply drop_app_length]].
  - cbn [andb]. rewrite app_nil_r. split_and!; auto; [now rewrite take_ge by lia|discriminate].
Qed.

Lemma aes_decrypt_run m pad src key iv dst dl : valid m pad src key iv -> tagged m src -> recoverable pad src ->
  length (padded m pad src) <= length dst ->
  decrypt e dst dl (ciphertext m pad src key iv) (Some key) (length key) m pad (iv_ptr m iv)
  = Some (ok, padded m pad src ++ drop (length (padded m pad src)) dst, Z.of_nat (length src)).
Proof.
  intros Hv Ht Hrec Hl. pose proof (ciphertext_parts m pad src key iv Hv Ht) as Hparts. cbv zeta in Hparts.
  destruct Hparts as (Hb & Hw & Hcl & Htk & Htag & Hinv).
  pose proof Hv as [Ha Hf Hsz]. pose proof Ha as (Hm & Hk & Hi & Hil). cbn [s_mode s_key s_iv] in *. unfold decrypt.
  rewrite Hk, Hi, block_size_of by assumption. cbn [negb]. change (default [] (Some key)) with key.
  set (s := Session m key (iv_ptr m iv)) in *. set (body := cipher_of r s (padded m pad src)) in *. set (c := ciphertext m pad src key iv) in *.
  assert (Hpad : (if bool_decide (pad = no_padding) then let* r := rem (length c) (block_of m) in Some (negb (r =? 0)) else Some false) = Some false).
  { case_bool_decide as Hp; [|reflexivity]. rewrite rem_whole; [reflexivity|].
    unfold c. rewrite ciphertext_length. destruct (is_aead_mode m) eqn:Ea; [destruct m; try discriminate; apply Nat.mod_1_r|].
    rewrite Nat.add_0_r. now apply padded_whole. }
  rewrite Hpad. destruct (decrypt_start false _ Ha) as (ctx & Ei & Hctx). cbn [s s_mode s_key s_iv] in Ei. rewrite Ei, Hcl, Htk.
  assert (Hset : exists ctx1 t, (if is_aead_mode m && (16 <? length c) then SET_TAG e (drop (length body) c) ctx else Some ctx) = Some ctx1
      /\ decrypting r ctx1 s (auto_of m) t [] /\ (is_aead_mode m = true -> t = Some (tag_of r s (padded m pad src)))).
  { destruct (is_aead_mode m) eqn:Ea; cbn [andb]; [|exists ctx, None; split_and!; [reflexivity|exact Hctx|discriminate]].
    destruct (Htag eq_refl) as [-> Hd]. rewrite Hd.
    destruct (law_set_tag _ _ _ _ Hctx Ea (law_tag_length s (padded m pad src))) as (ctx1 & E & H1).
    exists ctx1. eexists. split_and!; [exact E|exact H1|reflexivity]. }
  destruct Hset as (ctx1 & t & -> & Hctx1 & Ht1).
  destruct (law_decrypt_update _ _ _ _ _ body Hctx1 (auto_unpadded m Hm) (whole_nil m) Hw) as (ctx2 & -> & Hctx2). cbn [app length] in Hctx2 |- *.
  rewrite Hinv, drop_0. rewrite write_first by lia.
  destruct (law_decrypt_final _ _ _ _ _ Hctx2 (auto_unpadded m Hm) Hw) as (ctx3 & ->); [now rewrite Hinv|].
  rewrite (write_next (padded m pad src) dst (length (padded m pad src)) []) by (cbn; lia). cbn [length]. rewrite app_nil_r, Nat.add_0_r.
  now rewrite unpadding_padded by (auto; now apply small_max).
Qed.

Lemma padded_prefix m pad src rest : take (length src) (padded m pad src ++ rest) = src.
Proof. unfold padded. rewrite <- app_assoc. apply take_app_length. Qed.

Lemma aes_decrypt_string_run m pad src key iv : valid m pad src key iv -> tagged m src -> recoverable pad src ->
  decrypt_string e (ciphertext m pad src key iv) key m pad iv = Some (ok, src).
Proof.
  intros Hv Ht Hrec. unfold decrypt_string, decrypt_len_reserve. pose proof (ciphertext_length m pad src key iv) as Hc.
  rewrite aes_decrypt_run by (rewrite ?length_replicate; auto; lia). cbn iota beta. change (bool_decide (ok = ok)) with true. cbn iota.
  pose proof (valid_small _ _ _ _ _ Hv). pose proof (aes_padded_length m pad src).
  rewrite resize_take by (rewrite ?length_app; lia). now rewrite padded_prefix.
Qed.

(** ** Streams *)

Section Streams.
(** The buffer size of the streams: a macro. *)
Context (B : nat) (HB : 0 < B) (HB16 : B mod 16 = 0).

(** The loop on a stream feeds whole chunks, and leaves less than one. *)
Lemma encrypt_chunks_run s bs : forall fuel ctx p rest out, length rest < fuel -> encrypting r ctx s (auto_of (s_mode s)) p -> piecewise (s_mode s) = true -> whole (s_mode s) p ->
  exists ctx' q last, rest = q ++ last /\ length last < B /\ whole (s_mode s) q /\ encrypting r ctx' s (auto_of (s_mode s)) (p ++ q)
  /\ encrypt_chunks e B fuel bs ctx rest out = Some (inr (ctx', last, out ++ drop (length p) (cipher_of r s (p ++ q)))).
Proof.
  induction fuel as [|fuel IH]; intros ctx p rest out Hf Hctx Hpw Hp; [lia|]. cbn [encrypt_chunks]. rewrite length_take.
  destruct (Nat.ltb_spec (B `min` length rest) B) as [Hl|Hl].
  - exists ctx, [], rest. rewrite app_nil_r. split_and!; [reflexivity|lia|apply whole_nil|exact Hctx|].
    rewrite take_ge by lia. rewrite drop_ge by (rewrite law_cipher_length; lia). now rewrite app_nil_r.
  - assert (Ht : length (take B rest) = B) by (rewrite length_take; lia).
    assert (Hq : whole (s_mode s) (take B rest)) by (unfold whole; rewrite Ht; now apply buffer_whole).
    destruct (law_encrypt_update _ _ _ _ _ Hctx (auto_unpadded _ Hpw) Hp Hq) as (ctx1 & -> & Hctx1). set (o := drop _ _).
    assert (Ho : length o = B) by (unfold o; rewrite length_drop, law_cipher_length, length_app; lia).
    unfold fits. rewrite (proj2 (Nat.leb_le _ _)) by lia.
    destruct (IH ctx1 (p ++ take B rest) (drop B rest) (out ++ o)) as (ctx' & q & last & E & H1 & H2 & H3 & H4);
      [rewrite length_drop; lia|exact Hctx1|exact Hpw|now apply whole_app|].
    exists ctx', (take B rest ++ q), last. rewrite <- app_assoc, <- E, take_drop. rewrite <- app_assoc in H3.
    split_and!; auto; [now apply whole_app|]. rewrite H4, <- (app_assoc out). do 4 f_equal. apply (glue (cipher_of r s) (s_mode s)); auto. intros. now apply law_cipher_prefix.
Qed.

Lemma aes_encrypt_stream_run m pad src key iv : valid m pad src key iv ->
  encrypt_stream e rd B true true src (Some key) (length key) m pad (iv_ptr m iv) = Some (ok, ciphertext m pad src key iv).
Proof.
  intros [Ha Hf Hsz]. pose proof Ha as (Hm & Hk & Hi & Hil). cbn [s_mode s_key s_iv] in *. unfold encrypt_stream. cbn [negb].
  assert (Hpv : is_plain_valid_stream e m (length key) pad true src = Some true).
  { pose proof (aes_plain_valid m pad key src Hm Hk Hf) as H. unfold is_plain_valid_stream. unfold is_plain_valid in H.
    rewrite block_size_of in H |- * by assumption. cbn [negb]. exact H. }
  rewrite Hpv, Hk, Hi, block_size_of by assumption. cbn [negb]. change (default [] (Some key)) with key.
  destruct (encrypt_start _ Ha) as (ctx & Ei & Hctx). cbn [s_mode s_key s_iv] in Ei. rewrite Ei.
  set (s := Session m key (iv_ptr m iv)) in *.
  destruct (encrypt_chunks_run s (block_of m) (S (length src)) ctx [] src [] ltac:(lia) Hctx Hm (whole_nil m)) as (ctx1 & q & last & E & H1 & H2 & H3 & H4).
  cbn [app length] in *. rewrite drop_0 in H4. rewrite H4, padding_block_padded by assumption.
  assert (Hpd : padded m pad src = q ++ padded m pad last) by (rewrite E; now apply padded_app).
  assert (Hw : whole m (padded m pad last)).
  { apply padded_whole. destruct Hf as [Hf|Hf]; [now left|right]. unfold whole in *. rewrite E, length_app in Hf. cbn in H2.
    rewrite Nat.Div0.add_mod, H2 in Hf. cbn [Nat.add] in Hf. now rewrite Nat.Div0.mod_mod in Hf. }
  assert (Hup : exists ctx2, (if 0 <? length (padded m pad last) then EVP_EncryptUpdate e ctx1 (padded m pad last) else Some ([], ctx1))
      = Some (drop (length q) (cipher_of r s (q ++ padded m pad last)), ctx2) /\ encrypting r ctx2 s (auto_of m) (q ++ padded m pad last)).
  { destruct (Nat.ltb_spec 0 (length (padded m pad last))) as [Hl|Hl].
    - destruct (law_encrypt_update _ _ _ _ _ H3 (auto_unpadded m Hm) H2 Hw) as (ctx2 & E2 & Hctx2). eauto.
    - assert (En : padded m pad last = []) by (apply nil_length_inv; lia). rewrite En, app_nil_r.
      rewrite drop_ge by (rewrite law_cipher_length; lia). eauto. }
  destruct Hup as (ctx2 & -> & Hctx2). set (o1 := drop _ _).
  assert (Ho1 : length o1 = length (padded m pad last)) by (unfold o1; rewrite length_drop, law_cipher_length, length_app; lia).
  unfold fits. rewrite Ho1. rewrite (proj2 (Nat.leb_le _ _)).
  2: { unfold padded. rewrite length_app. pose proof (block_of_pos m). pose proof (Nat.mod_upper_bound (length last) (block_of m) ltac:(lia)).
       destruct (_ && _); [rewrite tail_length by lia|cbn]; lia. }
  cbn [negb]. destruct (law_encrypt_final _ _ _ _ Hctx2 (auto_unpadded m Hm) (whole_app _ _ _ H2 Hw)) as (ctx3 & -> & Htag). cbn [s s_mode] in Htag. rewrite app_nil_r.
  assert (Hout : cipher_of r s q ++ o1 = cipher_of r s (padded m pad src)).
  { rewrite Hpd. unfold o1. rewrite <- (law_cipher_prefix s q (padded m pad last)) at 1 by exact H2. apply take_drop. }
  rewrite Hout. unfold ciphertext. fold s. destruct (is_aead_mode m); [|now rewrite app_nil_r].
  rewrite Htag by reflexivity. now rewrite Hpd.
Qed.

(** The loop on a stream feeds all chunks but the last. *)
Lemma decrypt_chunks_run s t bs : forall fuel ctx p rest out, length rest < fuel -> decrypting r ctx s (auto_of (s_mode s)) t p -> piecewise (s_mode s) = true -> whole (s_mode s) p ->
  exists ctx' q last, rest = q ++ last /\ length last <= B /\ (rest <> [] -> last <> []) /\ whole (s_mode s) q /\ decrypting r ctx' s (auto_of (s_mode s)) t (p ++ q)
  /\ decrypt_chunks e B fuel bs ctx rest out = Some (inr (ctx', last, out ++ drop (length p) (plain_of r s (p ++ q)))).
Proof.
  assert (Hnil : forall p, drop (length p) (plain_of r s (p ++ [])) = []).
  { intros p. apply drop_ge. rewrite law_plain_length, app_nil_r. lia. }
  induction fuel as [|fuel IH]; intros ctx p rest out Hf Hctx Hpw Hp; [lia|]. cbn [decrypt_chunks].
  destruct (Nat.eqb_spec (length rest) 0) as [Hz|Hz].
  { apply nil_length_inv in Hz. subst. exists ctx, [], []. rewrite Hnil, !app_nil_r. split_and!; auto; [cbn; lia|apply whole_nil]. }
  destruct (Nat.eqb_spec (length (drop B rest)) 0) as [Hd|Hd]; rewrite length_drop in Hd.
  - exists ctx, [], rest. rewrite Hnil, !app_nil_r, take_ge by lia. split_and!; auto; [lia|apply whole_nil].
  - assert (Htk : length (take B rest) = B) by (rewrite length_take; lia).
    assert (Hq : whole (s_mode s) (take B rest)) by (unfold whole; rewrite Htk; now apply buffer_whole).
    destruct (law_decrypt_update _ _ _ _ _ _ Hctx (auto_unpadded _ Hpw) Hp Hq) as (ctx1 & -> & Hctx1). set (o := drop _ (plain_of r s _)).
    assert (Ho : length o = B) by (unfold o; rewrite length_drop, law_plain_length, length_app; lia).
    unfold fits. rewrite (proj2 (Nat.leb_le _ _)) by lia.
    destruct (IH ctx1 (p ++ take B rest) (drop B rest) (out ++ o)) as (ctx' & q & last & E & H1 & H2 & H3 & H4 & H5);
      [rewrite length_drop; lia|exact Hctx1|exact Hpw|now apply whole_app|].
    exists ctx', (take B rest ++ q), last. rewrite <- app_assoc, <- E, take_drop. rewrite <- app_assoc in H4.
    split_and!; auto; [intros _; apply H2; intros En; apply (f_equal length) in En; rewrite length_drop in En; cbn in En; lia|now apply whole_app|].
    rewrite H5, <- (app_assoc out). do 4 f_equal. apply (glue (plain_of r s) (s_mode s)); auto. intros. now apply law_plain_prefix.
Qed.

(** A cut at a whole number of blocks that leaves some of the padded message is
    a cut of the message. *)
Lemma padded_cut m pad src n : n mod block_of m = 0 -> n < length (padded m pad src) \/ n = 0 -> whole m (padded m pad src) ->
  n <= length src /\ drop n (padded m pad src) = padded m pad (drop n src).
Proof.
  intros Hn Hl Hw. pose proof (block_of_pos m) as Hb. assert (Hle : n <= length src).
  { destruct Hl as [Hl| ->]; [|lia]. unfold whole in Hw. pose proof (Nat.div_mod_eq n (block_of m)) as H1.
    pose proof (Nat.div_mod_eq (length (padded m pad src)) (block_of m)) as H2. rewrite Hn in H1. rewrite Hw in H2.
    pose proof (Nat.mod_upper_bound (length src) (block_of m) ltac:(lia)) as Hr.
    assert (H3 : length (padded m pad src) <= length src + block_of m).
    { unfold padded. rewrite length_app. destruct (_ && _); [rewrite tail_length by lia|cbn]; lia. }
    assert (n / block_of m + 1 <= length (padded m pad src) / block_of m) by nia. nia. }
  split; [exact Hle|]. rewrite <- (take_drop n src) at 1. rewrite padded_app.
  - apply drop_app_length'. rewrite length_take. lia.
  - unfold whole. rewrite length_take. now replace (n `min` length src) with n by lia.
Qed.

Lemma aes_decrypt_stream_run m pad src key iv : valid m pad src key iv -> tagged m src -> recoverable pad src ->
  let c := ciphertext m pad src key iv in
  decrypt_stream e B true true c (length c) (Some key) (length key) m pad (iv_ptr m iv) = Some (ok, src).
Proof.
  intros Hv Ht Hrec. cbv zeta. pose proof (ciphertext_parts m pad src key iv Hv Ht) as Hparts. cbv zeta in Hparts.
  destruct Hparts as (Hb & Hw & Hcl & Htk & Htag & Hinv). pose proof Hv as [Ha Hf Hsz]. pose proof Ha as (Hm & Hk & Hi & Hil). cbn [s_mode s_key s_iv] in *.
  unfold decrypt_stream. cbn [negb]. rewrite Hk, Hi, block_size_of by assumption. cbn [negb]. change (default [] (Some key)) with key. cbv zeta.
  set (s := Session m key (iv_ptr m iv)) in *. set (c := ciphertext m pad src key iv) in *. set (body := cipher_of r s (padded m pad src)) in *.
  destruct (decrypt_start true _ Ha) as (ctx & Ei & Hctx). cbn [s s_mode s_key s_iv] in Ei. rewrite Ei, Hcl, Htk.
  assert (Hset : exists ctx1 t, (if is_aead_mode m
        then SET_TAG e (if is_aead_mode m && (16 <? length c) then take 16 (drop (length body) c) else replicate 16 0%Z) ctx else Some ctx) = Some ctx1
      /\ decrypting r ctx1 s (auto_of m) t [] /\ (is_aead_mode m = true -> t = Some (tag_of r s (padded m pad src)))).
  { destruct (is_aead_mode m) eqn:Ea; cbn [andb]; [|exists ctx, None; split_and!; [reflexivity|exact Hctx|discriminate]].
    destruct (Htag eq_refl) as [-> Hd]. rewrite Hd, take_ge by (rewrite law_tag_length; lia).
    destruct (law_set_tag _ _ _ _ Hctx Ea (law_tag_length s (padded m pad src))) as (ctx1 & E & H1).
    exists ctx1. eexists. split_and!; [exact E|exact H1|reflexivity]. }
  destruct Hset as (ctx1 & t & -> & Hctx1 & Ht1).
  destruct (decrypt_chunks_run s t (block_of m) (S (length body)) ctx1 [] body [] ltac:(lia) Hctx1 Hm (whole_nil m))
    as (ctx2 & q & last & E & H1 & H2 & H3 & H4 & H5). cbn [app length] in H4, H5. rewrite drop_0 in H5. rewrite H5. cbn [app].
  assert (Hwl : whole m last).
  { unfold whole in *. cbn in H3. rewrite E, length_app, Nat.Div0.add_mod, H3 in Hw. cbn [Nat.add] in Hw. now rewrite Nat.Div0.mod_mod in Hw. }
  assert (Hup : exists ctx3, (if 0 <? length last then EVP_DecryptUpdate e ctx2 last else Some ([], ctx2))
      = Some (drop (length q) (padded m pad src), ctx3) /\ decrypting r ctx3 s (auto_of m) t body).
  { destruct (Nat.ltb_spec 0 (length last)) as [Hl|Hl].
    - destruct (law_decrypt_update _ _ _ _ _ last H4 (auto_unpadded m Hm) H3 Hwl) as (ctx3 & E3 & Hctx3). rewrite <- E, Hinv in E3. rewrite <- E in Hctx3. eauto.
    - assert (En : last = []) by (apply nil_length_inv; lia). subst last. rewrite app_nil_r in E. subst q.
      rewrite drop_ge by lia. eauto. }
  destruct Hup as (ctx3 & -> & Hctx3). destruct (law_decrypt_final _ _ _ _ _ Hctx3 (auto_unpadded m Hm) Hw) as (ctx4 & ->); [now rewrite Hinv|].
  assert (Hlq : length body = length q + length last) by (now rewrite E, length_app).
  destruct (padded_cut m pad src (length q)) as [Hle Hcut]; [exact H3| |now apply padded_whole|].
  { destruct last as [|z l]; [|left; cbn in Hlq; lia]. right. destruct body as [|z l]; [destruct q; [reflexivity|discriminate]|].
    exfalso. now apply H2. }
  rewrite Hcut, app_nil_r. cbn [length]. rewrite Nat.add_0_r. unfold fits.
  rewrite (proj2 (Nat.leb_le _ _)) by (rewrite <- Hcut, length_drop; lia). cbn [negb].
  pose proof (unpadding_padded m pad (drop (length q) src) [] ltac:(now apply recoverable_drop) ltac:(rewrite length_drop; apply small_max; lia)) as Hu.
  rewrite app_nil_r in Hu. rewrite Hu. pose proof (aes_padded_length m pad (drop (length q) src)).
  rewrite (proj2 (Z.leb_le _ _)) by lia. rewrite Nat2Z.id. pose proof (padded_prefix m pad (drop (length q) src) []) as Hpp.
  rewrite app_nil_r in Hpp. rewrite Hpp. do 2 f_equal.
  assert (Hpq : plain_of r s q = take (length q) src).
  { rewrite <- (law_plain_prefix s q last) by exact H3. rewrite <- E, Hinv. unfold padded. now rewrite take_app_le by lia. }
  rewrite Hpq. apply take_drop.
Qed.
End Streams.
End Theorems.

(** ** A library for the witnesses *)

Definition toy_byte (s : session) : Z := wrap 8 (fold_right Z.add 0%Z (s_key s ++ default [] (s_iv s))).
Definition toy_cipher (s : session) (p : list Z) : list Z := (fun b => Z.lxor b (toy_byte s)) <$> p.
Definition toy_tag (s : session) (p : list Z) : list Z := replicate 16 (wrap 8 (fold_right Z.add (toy_byte s) p)).
(** A session, the length expected of the initialisation vector, whether blocks
    are completed, the bytes taken and the tag expected. *)
Record toy_ctx := ToyCtx
  { t_session : session; t_ivlen : nat; t_auto : bool; t_taken : list Z; t_tag : option (list Z) }.
(** A cipher sets the context up anew; a key and an initialisation vector, of
    which the length expected is read, start a session. *)
Definition toy_init (c : option cipher) (k iv : option (list Z)) (ctx : toy_ctx) : option toy_ctx :=
  let ctx := match c with
    | Some c => ToyCtx (Session (mode_of c) [] None) (default_ivlen (mode_of c)) true [] None
    | None => ctx end in
  Some (match k with
    | Some k => ToyCtx (Session (s_mode (t_session ctx)) k (take (t_ivlen ctx) <$> iv)) (t_ivlen ctx) (t_auto ctx) [] None
    | None => ctx end).
Definition toy_update (c : toy_ctx) (q : list Z) : option (list Z * toy_ctx) :=
  Some (toy_cipher (t_session c) q, ToyCtx (t_session c) (t_ivlen c) (t_auto c) (t_taken c ++ q) (t_tag c)).
Definition toy_padding (c : toy_ctx) : list Z := if t_auto c && (1 <? block_of (s_mode (t_session c))) then replicate 16 16%Z else [].
Definition toy : evp toy_ctx :=
  Evp toy_ctx (Some (ToyCtx (Session ecb [] None) 0 true [] None))
    (fun c => Some (match c with Some (EVP_aes _ gcm) => 1 | Some _ => 16 | None => 0 end))
    toy_init toy_init (fun n c => Some (ToyCtx (t_session c) n (t_auto c) (t_taken c) (t_tag c)))
    (fun c => ToyCtx (t_session c) (t_ivlen c) false (t_taken c) (t_tag c)) toy_update toy_update
    (fun c => Some (toy_padding c, c))
    (fun c => let s := t_session c in
       if is_aead_mode (s_mode s) && negb (bool_decide (t_tag c = Some (toy_tag s (toy_cipher s (t_taken c))))) then None else Some ([], c))
    (fun c => Some (toy_tag (t_session c) (t_taken c)))
    (fun t c => Some (ToyCtx (t_session c) (t_ivlen c) (t_auto c) (t_taken c) (Some t))).
Definition toy_chosen (ctx : toy_ctx) (c : cipher) (n : nat) : Prop := s_mode (t_session ctx) = mode_of c /\ t_ivlen ctx = n /\ t_auto ctx = true.
Definition toy_reference : reference toy_ctx :=
  Ref toy_cipher toy_cipher toy_tag toy_chosen toy_chosen
    (fun c s auto p => t_session c = s /\ t_auto c = auto /\ t_taken c = p)
    (fun c s auto t p => t_session c = s /\ t_auto c = auto /\ t_tag c = t /\ t_taken c = p).

Lemma toy_cipher_app s p q : toy_cipher s (p ++ q) = toy_cipher s p ++ toy_cipher s q.
Proof. apply fmap_app. Qed.
Lemma toy_cipher_length s p : length (toy_cipher s p) = length p.
Proof. apply length_fmap. Qed.
Lemma toy_cipher_twice s p : toy_cipher s (toy_cipher s p) = p.
Proof.
  unfold toy_cipher. rewrite <- list_fmap_compose. rewrite <- (list_fmap_id p) at 2. apply list_fmap_ext. intros _ b _. cbv [compose id].
  now rewrite Z.lxor_assoc, Z.lxor_nilpotent, Z.lxor_0_r.
Qed.
Lemma toy_prefix s p q : take (length p) (toy_cipher s (p ++ q)) = toy_cipher s p.
Proof. rewrite toy_cipher_app. apply take_app_length'. now rewrite toy_cipher_length. Qed.
Lemma toy_next s p q : drop (length p) (toy_cipher s (p ++ q)) = toy_cipher s q.
Proof. rewrite toy_cipher_app. apply drop_app_length'. now rewrite toy_cipher_length. Qed.

Lemma toy_iv n iv : iv_length iv = n -> take n <$> iv = iv.
Proof. destruct iv as [v|]; [|reflexivity]. cbn. intros <-. now rewrite take_ge. Qed.
Lemma toy_no_padding c : unpadded (s_mode (t_session c)) (t_auto c) -> toy_padding c = [].
Proof. unfold toy_padding. intros [->| ->]; [reflexivity|]. now rewrite andb_false_r. Qed.

#[export] Instance toy_EvpLaws : EvpLaws toy toy_reference.
Proof.
  split; try reflexivity.
  - eexists. reflexivity.
  - intros s p. apply toy_cipher_length.
  - intros s p q _. apply toy_prefix.
  - intros s p. apply toy_cipher_length.
  - intros s p q _. apply toy_prefix.
  - intros s p _. apply toy_cipher_twice.
  - intros ctx c _. eexists. split; [reflexivity|]. repeat split.
  - intros ctx c k iv _ _ Hi. eexists. split; [reflexivity|]. cbn. now rewrite (toy_iv _ iv Hi).
  - intros ctx c _. eexists. split; [reflexivity|]. repeat split.
  - intros ctx c k iv _ _ Hi. eexists. split; [reflexivity|]. cbn. now rewrite (toy_iv _ iv Hi).
  - intros ctx c n k iv (Hm & Hn & Hauto) _ Hi. eexists. split; [reflexivity|]. cbn. now rewrite Hn, (toy_iv _ iv Hi), Hm.
  - intros ctx c n n' (Hm & _ & Hauto) _ _. eexists. split; [reflexivity|]. now split.
  - intros ctx c n n' (Hm & _ & Hauto) _ _. eexists. split; [reflexivity|]. now split.
  - intros ctx s auto p (Hs & _ & Hp). split_and!; easy.
  - intros ctx s auto t p (Hs & _ & Ht & Hp). split_and!; easy.
  - intros ctx s auto p q (<- & <- & <-) _ _ _. eexists. split; [cbn -[drop toy_cipher]; now rewrite toy_next|]. split_and!; easy.
  - intros ctx s auto p (<- & <- & <-) Hu _. eexists. cbn -[toy_padding]. rewrite toy_no_padding by exact Hu. split; reflexivity.
  - intros ctx s auto t (<- & <- & _ & Hp) _ _. eexists. split; [reflexivity|]. split_and!; easy.
  - intros ctx s auto t p q (<- & <- & <- & <-) _ _ _. eexists. split; [cbn -[drop toy_cipher]; now rewrite toy_next|]. split_and!; easy.
  - intros ctx s auto t p (<- & <- & <- & <-) _ _ Ht. eexists. cbn. destruct (is_aead_mode _); [|reflexivity].
    now rewrite (bool_decide_eq_true_2 _ (Ht eq_refl)).
Qed.

(** ** Theorems *)

(** C15: in ecb, cbc, cfb1, cfb8, cfb128, ofb, ctr and gcm, with a key of 16, 24 or
    32 bytes and an initialisation vector of the length of the cipher (none for
    ecb, 12 bytes for gcm, 16 for the others), strings, streams of any length,
    cut into chunks of any whole number of blocks, and files are encrypted to the
    same bytes: the library's cipher of that mode and that many bits, under that
    key and vector, on the message padded by the code, and the tag.  A message
    without padding must be whole blocks; a message is shorter than an [int] says.
    The laws are about the calls of the library, one by one: a context prepared
    with another cipher, without its key or with automatic padding left on gives
    nothing. *)
Theorem aes_encrypt_modes {Ctx : Type} (e : evp Ctx) (r : reference Ctx) (HE : EvpLaws e r) (rd : nat -> Z) (B : nat)
    (HB : 0 < B) (HB16 : B mod 16 = 0) (m : mode) (pad : padding) (src key iv : list Z) (Hv : valid m pad src key iv) :
  let c := ciphertext r rd m pad src key iv in
  encrypt_string e rd src key m pad iv = Some (ok, c)
  /\ encrypt_stream e rd B true true src (Some key) (length key) m pad (iv_ptr m iv) = Some (ok, c)
  /\ encrypt_file_string e rd B true true src key m pad iv = Some (ok, c).
Proof.
  cbv zeta. split_and!; [now apply aes_encrypt_string_run|now apply aes_encrypt_stream_run|]. unfold encrypt_file_string, encrypt_file. cbn [negb orb].
  now apply aes_encrypt_stream_run.
Qed.

Definition demo_key : list Z := Z.of_nat <$> seq 3 24.
Definition demo_iv : list Z := Z.of_nat <$> seq 7 16.
Lemma aes_demo_valid m pad src : piecewise m = true -> m <> ecb -> pad <> no_padding -> (Z.of_nat (length src) < 2 ^ 31 - 16)%Z -> valid m pad src demo_key (take (default_ivlen m) demo_iv).
Proof.
  intros Hm He Hp Hs. constructor; [|now left|exact Hs]. unfold accepted, iv_ptr. cbn [s_mode s_key s_iv]. rewrite bool_decide_eq_false_2 by exact He.
  destruct m; try discriminate; try congruence; split_and!; reflexivity.
Qed.

Lemma aes_encrypt_modes_witness :
  encrypt_string toy Z.of_nat [1; 2; 3]%Z demo_key cbc pkcs7 demo_iv = encrypt_stream toy Z.of_nat 32 true true [1; 2; 3]%Z (Some demo_key) 24 cbc pkcs7 (Some demo_iv).
Proof.
  destruct (aes_encrypt_modes toy toy_reference toy_EvpLaws Z.of_nat 32 ltac:(lia) eq_refl cbc pkcs7 [1; 2; 3]%Z demo_key demo_iv
    (aes_demo_valid cbc pkcs7 [1; 2; 3]%Z eq_refl ltac:(discriminate) ltac:(discriminate) eq_refl)) as (E1 & E2 & _).
  rewrite E1. exact (eq_sym E2).
Defined.

(** C16: in the modes and with the keys and initialisation vectors of the cipher's
    own lengths, what is encrypted on strings, streams or files is decrypted to
    the message, whatever whole number of blocks the streams are cut into.  Side
    conditions: without padding the message is whole blocks; under zero padding it
    does not end in a zero; under gcm it is not empty (its tag alone would be
    taken for a text); it is shorter than an [int] says; and a stream decrypted
    stands at its end, since its position is taken for its size. *)
Theorem aes_roundtrip {Ctx : Type} (e : evp Ctx) (r : reference Ctx) (HE : EvpLaws e r) (rd : nat -> Z) (B : nat)
    (HB : 0 < B) (HB16 : B mod 16 = 0) (m : mode) (pad : padding) (src key iv : list Z) (Hv : valid m pad src key iv)
    (Ht : tagged m src) (Hr : recoverable pad src) :
  exists c, encrypt_string e rd src key m pad iv = Some (ok, c)
  /\ decrypt_string e c key m pad iv = Some (ok, src)
  /\ encrypt_stream e rd B true true src (Some key) (length key) m pad (iv_ptr m iv) = Some (ok, c)
  /\ decrypt_stream e B true true c (length c) (Some key) (length key) m pad (iv_ptr m iv) = Some (ok, src)
  /\ decrypt_file_string e B true true c key m pad iv = Some (ok, src).
Proof.
  exists (ciphertext r rd m pad src key iv). split_and!.
  - now apply aes_encrypt_string_run.
  - now apply aes_decrypt_string_run.
  - now apply aes_encrypt_stream_run.
  - now apply aes_decrypt_stream_run.
  - unfold decrypt_file_string, decrypt_file. cbn [negb]. now apply aes_decrypt_stream_run.
Qed.

Lemma aes_roundtrip_witness :
  exists c, encrypt_string toy Z.of_nat [9; 0; 7]%Z demo_key gcm pkcs7 (take 12 demo_iv) = Some (ok, c)
  /\ decrypt_string toy c demo_key gcm pkcs7 (take 12 demo_iv) = Some (ok, [9; 0; 7]%Z) /\ length c = 19.
Proof.
  destruct (aes_roundtrip toy toy_reference toy_EvpLaws Z.of_nat 32 ltac:(lia) eq_refl gcm pkcs7 [9; 0; 7]%Z demo_key (take 12 demo_iv)
    (aes_demo_valid gcm pkcs7 [9; 0; 7]%Z eq_refl ltac:(discriminate) ltac:(discriminate) eq_refl) ltac:(discriminate) I) as (c & E1 & E2 & _).
  exists c. split; [exact E1|]. split; [exact E2|].
  assert (E : encrypt_string toy Z.of_nat [9; 0; 7]%Z demo_key gcm pkcs7 (take 12 demo_iv) = Some (ok, c)) by exact E1. vm_compute in E. injection E as <-. reflexivity.
Defined.

(** The tag of an empty message is taken for its ciphertext. *)
Lemma aes_gcm_empty : exists c, encrypt_string toy Z.of_nat [] demo_key gcm pkcs7 (take 12 demo_iv) = Some (ok, c)
  /\ length c = 16 /\ decrypt_string toy c demo_key gcm pkcs7 (take 12 demo_iv) = Some (decrypt_final_failed, []).
Proof. eexists. split; [vm_compute; reflexivity|]. split; [reflexivity|]. vm_compute. reflexivity. Qed.

(** Encryption names the cipher again when it gives the key, which sets the
    context up anew: the length set for the initialisation vector is lost.  The
    decryption of a buffer does not, and keeps it. *)
Lemma aes_gcm_iv_length : is_iv_valid gcm (Some demo_iv) = true
  /\ exists c, encrypt_string toy Z.of_nat [9; 0; 7]%Z demo_key gcm pkcs7 demo_iv = Some (ok, c)
  /\ decrypt_string toy c demo_key gcm pkcs7 demo_iv = Some (decrypt_final_failed, [])
  /\ decrypt_string toy c demo_key gcm pkcs7 (take 12 demo_iv) = Some (ok, [9; 0; 7]%Z).
Proof. split; [reflexivity|]. eexists. split; [vm_compute; reflexivity|]. split; vm_compute; reflexivity. Qed.

(** A stream that stands at its beginning is decrypted to nothing, with [ok]. *)
Lemma aes_stream_position content : decrypt_stream toy 32 true true content 0 (Some demo_key) 24 cbc pkcs7 (Some demo_iv) = Some (ok, []).
Proof. unfold decrypt_stream. cbn -[toy]. reflexivity. Qed.

(** A pad byte larger than the text: the length wraps. *)
Lemma aes_unpadding_underflow (dst : list Z) (dst_len : nat) (pad : Z) (m : mode) : m = cfb128 \/ m = ofb \/ m = ctr ->
  dst !! (dst_len - 1) = Some pad -> 0 < dst_len -> (Z.of_nat dst_len < pad <= 16)%Z ->
  exists n, unpadding_block dst dst_len m iso10126 16 = Some n /\ resize dst n = None.
Proof.
  intros Hm E Hl Hp. exists (2 ^ 64 + Z.of_nat dst_len - pad)%Z. split.
  - unfold unpadding_block. rewrite E, (proj2 (Nat.eqb_neq dst_len 0)) by lia.
    assert (Ha : is_aead_mode m = false) by (destruct Hm as [->|[->| ->]]; reflexivity). rewrite Ha.
    change (bool_decide (iso10126 <> no_padding)) with true. cbn [negb andb Nat.ltb Nat.leb].
    assert (Hc : ((pad =? 0) || (Z.of_nat 16 <? pad))%Z = false) by (change (Z.of_nat 16) with 16%Z; decide_cmps; reflexivity). rewrite Hc.
    f_equal. unfold wrap. rewrite <- (Z.mod_small (2 ^ 64 + Z.of_nat dst_len - pad) (2 ^ 64)) by lia.
    replace (2 ^ 64 + Z.of_nat dst_len - pad)%Z with (Z.of_nat dst_len - pad + 1 * 2 ^ 64)%Z by lia. now rewrite Z.mod_add by lia.
  - unfold resize. now rewrite (proj2 (Z.ltb_ge _ _)) by lia.
Qed.

(** The plain text is checked before the key: a key of a wrong length has no
    cipher, the block size 0, and the remainder is undefined. *)
Lemma aes_unknown_cipher : is_plain_valid toy gcm 5 no_padding 3 = None.
Proof. reflexivity. Qed.
