(* ===== verification/Digest.v ===== *)
(** * Message digests

    [crypto/md5.hpp] and [crypto/sha.hpp]: the digest of a buffer, a string, an
    array, a stream and a file, and its hexadecimal text.  The contexts of the
    cryptographic library ([MD5_CTX], [SHA256_CTX], ...) are an interface,
    [digest_ops], with the law that updates with the pieces of a message are an
    update with the message.  Bytes are numbers below 256; the buffer sizes are
    macros.  A stream is whether it is good and what is left to read.  Files are
    a map from paths to contents and which paths can be opened for writing; a
    file is emptied when it is opened for writing, before the source is read. *)

From Stdlib Require Import ZArith Lia List Bool.
From stdpp Require Import base tactics list option gmap strings.
From S2P Require Import Prelude Ints Padding Hex.

Open Scope hj_scope.
Open Scope nat_scope.

(** ** The library *)

Record digest_ops (Ctx : Type) := DigestOps
  { Init : Ctx; Update : Ctx -> list Z -> Ctx; Final : Ctx -> list Z; digest_length : nat }.
#[global] Arguments Init {Ctx}. #[global] Arguments Update {Ctx}. #[global] Arguments Final {Ctx}.
#[global] Arguments digest_length {Ctx}. #[global] Arguments DigestOps {Ctx}.

(** [H] is the digest of a message, [holds c m] a context that has taken [m]. *)
Class DigestLaws {Ctx : Type} (o : digest_ops Ctx) (H : list Z -> list Z) (holds : Ctx -> list Z -> Prop) : Prop :=
  { law_init : holds (Init o) [];
    law_update c m p : holds c m -> holds (Update o c p) (m ++ p);
    law_final c m : holds c m -> Final o c = H m;
    law_length m : length (H m) = digest_length o;
    law_bytes m : bytes (H m) }.

(** The loop [while((sz = in.read(buf, BUF).gcount()) > 0) Update(&ctx, buf, sz);] *)
Fixpoint read_loop {Ctx} (fuel : nat) (buf_size : nat) (o : digest_ops Ctx) (c : Ctx) (rest : list Z) : option Ctx :=
  match fuel with
  | O => None
  | S fuel =>
      let buf := take buf_size rest in
      if length buf =? 0 then Some c else read_loop fuel buf_size o (Update o c buf) (drop buf_size rest)
  end.

(** The files: [std::ifstream] opens what exists, [std::ofstream] what
    [writable] allows, and empties it. *)
Abbreviation files := (gmap string (list Z)).
Definition truncate (fs : files) (path : string) : files := <[path := []]> fs.
Definition content_of (fs : files) (path : string) : list Z := default [] (fs !! path).

Definition stream_digest {Ctx} (buf_size : nat) (o : digest_ops Ctx) (content : list Z) : option (list Z) :=
  let* c := read_loop (S (length content)) buf_size o (Init o) content in Some (Final o c).

Module Md5.
Inductive error_code := ok | invalid_input | invalid_output | buffer_too_small | unknown.

Section Md5.
Context {Ctx : Type} (o : digest_ops Ctx) (MD5_BUF_SZ : nat).

Definition MD5_DIGEST_LENGTH : nat := 16.
(** A buffer of at least [dst_len] bytes. *)
Definition encode (dst : list Z) (dst_len : nat) (src : list Z) : option (error_code * list Z * nat) :=
  if dst_len <? MD5_DIGEST_LENGTH then Some (buffer_too_small, dst, dst_len) else
  let* dst := write dst 0 (Final o (Update o (Init o) src)) in Some (ok, dst, MD5_DIGEST_LENGTH).
Definition encode_string (src : list Z) : option (error_code * list Z) :=
  let* (ec, dst, len) := encode (replicate MD5_DIGEST_LENGTH 0%Z) MD5_DIGEST_LENGTH src in
  match ec with ok => let* s := resize dst (Z.of_nat len) in Some (ok, s) | _ => Some (ec, []) end.
Definition encode_array (dst src : list Z) : option (error_code * list Z) :=
  let* (ec, dst, _) := encode dst (length dst) src in
  match ec with ok => Some (ok, dst) | _ => Some (ec, replicate (length dst) 0%Z) end.
Definition encode_stream_string (in_good : bool) (content : list Z) : option (error_code * list Z) :=
  if negb in_good then Some (invalid_input, []) else
  let* d := stream_digest MD5_BUF_SZ o content in
  let* out := write (replicate MD5_DIGEST_LENGTH 0%Z) 0 d in Some (ok, out).
Definition encode_stream (out_good in_good : bool) (content : list Z) : option (error_code * list Z) :=
  if negb in_good then Some (invalid_input, []) else
  if negb out_good then Some (invalid_output, []) else
  let* d := stream_digest MD5_BUF_SZ o content in
  let* md := write (replicate MD5_DIGEST_LENGTH 0%Z) 0 d in Some (ok, md).
Definition encode_file (writable : string -> bool) (fs : files) (dst_file_path src_file_path : string) : option (error_code * files) :=
  match fs !! src_file_path with
  | None => Some (invalid_input, fs)
  | Some _ =>
      if negb (writable dst_file_path) then Some (invalid_output, fs) else
      let fs := truncate fs dst_file_path in
      let* (ec, out) := encode_stream true true (content_of fs src_file_path) in
      Some (ec, <[dst_file_path := out]> fs)
  end.
Definition encode_file_string (writable : string -> bool) (fs : files) (dst_file_path src_file_path : string) :=
  encode_file writable fs dst_file_path src_file_path.
(** [setw(2) << setfill('0')] of each of the first bytes. *)
Definition to_hex (str : list Z) (upper_case : bool) : list Z := flat_map (Hex.put_byte upper_case) (take MD5_DIGEST_LENGTH str).
Definition encode_len_reserve : nat := MD5_DIGEST_LENGTH.
End Md5.
End Md5.

Module Sha.
Inductive error_code := ok | invalid_input | invalid_output | buffer_too_small | not_supported_algo | unknown.
Inductive algorithm := sha1 | sha224 | sha256 | sha384 | sha512.

Definition get_digest_length (algo : algorithm) : nat :=
  match algo with sha1 => 20 | sha224 => 28 | sha256 => 32 | sha384 => 48 | sha512 => 64 end.
Definition encode_len_reserve (algo : algorithm) : nat := get_digest_length algo.

Section Sha.
(** The contexts of the five algorithms, and [SHA1], ..., on whole buffers. *)
Context {Ctx : algorithm -> Type} (o : forall a, digest_ops (Ctx a)) (one_shot : algorithm -> list Z -> list Z) (SHA_BUF_SIZE : nat).

Definition encode (dst : list Z) (dst_len : nat) (src : list Z) (algo : algorithm) : option (error_code * list Z * nat) :=
  let required_len := get_digest_length algo in
  if dst_len <? required_len then Some (buffer_too_small, dst, dst_len) else
  let* dst := write dst 0 (one_shot algo src) in Some (ok, dst, required_len).
Definition encode_string (src : list Z) (algo : algorithm) : option (error_code * list Z) :=
  let digest_len := get_digest_length algo in
  let* dst := write (replicate digest_len 0%Z) 0 (one_shot algo src) in Some (ok, dst).
(** On an array, which keeps its size. *)
Definition encode_array (dst src : list Z) (algo : algorithm) : option (error_code * list Z) :=
  let* (ec, dst, _) := encode dst (length dst) src algo in
  match ec with ok => Some (ok, dst) | _ => Some (ec, replicate (length dst) 0%Z) end.
(** [_encode_stream_<algo>] *)
Definition encode_stream_algo (algo : algorithm) (dst content : list Z) : option (list Z) :=
  let* d := stream_digest SHA_BUF_SIZE (o algo) content in write dst 0 d.
Definition encode_stream_string (in_good : bool) (content : list Z) (algo : algorithm) : option (error_code * list Z) :=
  if negb in_good then Some (invalid_output, []) else
  let* dst := encode_stream_algo algo (replicate (get_digest_length algo) 0%Z) content in Some (ok, dst).
Definition encode_stream (out_good in_good : bool) (content : list Z) (algo : algorithm) : option (error_code * list Z) :=
  if negb in_good then Some (invalid_input, []) else
  if negb out_good then Some (invalid_output, []) else
  let* (ec, hash_result) := encode_stream_string in_good content algo in
  match ec with ok => Some (ok, hash_result) | _ => Some (ec, []) end.
Definition encode_file (writable : string -> bool) (fs : files) (dst_file_path src_file_path : string) (algo : algorithm) : option (error_code * files) :=
  match fs !! src_file_path with
  | None => Some (invalid_input, fs)
  | Some _ =>
      if negb (writable dst_file_path) then Some (invalid_output, fs) else
      let fs := truncate fs dst_file_path in
      let* (ec, out) := encode_stream true true (content_of fs src_file_path) algo in
      Some (ec, <[dst_file_path := out]> fs)
  end.
Definition encode_file_string (writable : string -> bool) (fs : files) (dst_file_path src_file_path : string) (algo : algorithm) :=
  encode_file writable fs dst_file_path src_file_path algo.
(** [sha1], ..., [sha512] on strings. *)
Definition sha_string (algo : algorithm) (src : list Z) : option (error_code * list Z) := encode_string src algo.
End Sha.
End Sha.

(** ** Theorems *)

Section Laws.
Context {Ctx : Type} (o : digest_ops Ctx) (H : list Z -> list Z) (holds : Ctx -> list Z -> Prop) `{!DigestLaws o H holds}.

Lemma whole_digest m : Final o (Update o (Init o) m) = H m.
Proof. apply (law_final _ m). apply (law_update _ []). apply law_init. Qed.

(** Pieces make a message, and the loop ends. *)
Lemma read_loop_digest B rest : forall fuel c m, 0 < B -> length rest < fuel -> holds c m -> exists c',
  read_loop fuel B o c rest = Some c' /\ holds c' (m ++ rest).
Proof.
  intros fuel. revert rest. induction fuel as [|fuel IH]; intros rest c m HB Hf Hc; [lia|]. cbn [read_loop]. rewrite length_take.
  destruct (Nat.eqb_spec (B `min` length rest) 0) as [Hz|Hz].
  - exists c. assert (rest = []) as -> by (apply nil_length_inv; lia). now rewrite app_nil_r.
  - destruct (IH (drop B rest) (Update o c (take B rest)) (m ++ take B rest)) as (c' & E & Hc');
      [exact HB|rewrite length_drop; lia|now apply law_update|].
    exists c'. split; [exact E|]. now rewrite <- app_assoc, take_drop in Hc'.
Qed.

Lemma stream_digest_whole B content : 0 < B -> stream_digest B o content = Some (H content).
Proof.
  intros HB. unfold stream_digest. destruct (read_loop_digest B content (S (length content)) (Init o) [] HB ltac:(lia) law_init) as (c & -> & Hc).
  cbn [app] in Hc. f_equal. now apply law_final.
Qed.
End Laws.

(** A buffer of the right size is overwritten. *)
Lemma write_all (d : list Z) n : length d = n -> write (replicate n 0%Z) 0 d = Some d.
Proof. intros <-. rewrite write_first by (rewrite length_replicate; lia). now rewrite drop_ge, app_nil_r by (rewrite length_replicate; lia). Qed.

(** What is read of the source once the destination is open. *)
Lemma content_truncated (fs : files) dst src m : fs !! src = Some m ->
  content_of (truncate fs dst) src = if decide (dst = src) then [] else m.
Proof.
  intros E. unfold content_of, truncate. case_decide as D.
  - subst. now rewrite lookup_insert_eq.
  - rewrite lookup_insert_ne by done. now rewrite E.
Qed.

(** Strings, arrays, streams of any length and files have the MD5 digest of
    their bytes, buffers that are too small are refused, and the hexadecimal
    text of a digest is decoded to it.  A file that is its own destination is
    empty by the time it is read. *)
Theorem md5_forms {Ctx : Type} (o : digest_ops Ctx) H holds (HL : DigestLaws o H holds) (Hlen : digest_length o = 16) (B : nat) (HB : 0 < B)
    (m dst : list Z) (dst_len : nat) (Hd : dst_len <= length dst) (upper : bool) :
  Md5.encode o dst dst_len m = Some (if dst_len <? 16 then (Md5.buffer_too_small, dst, dst_len) else (Md5.ok, H m ++ drop 16 dst, 16))
  /\ Md5.encode_string o m = Some (Md5.ok, H m)
  /\ Md5.encode_array o (replicate 16 0%Z) m = Some (Md5.ok, H m)
  /\ Md5.encode_stream_string o B true m = Some (Md5.ok, H m)
  /\ Md5.encode_stream o B true true m = Some (Md5.ok, H m)
  /\ (forall writable fs dst_path src_path, fs !! src_path = Some m -> writable dst_path = true ->
        Md5.encode_file_string o B writable fs dst_path src_path
          = Some (Md5.ok, <[dst_path := H (if decide (dst_path = src_path) then [] else m)]> fs))
  /\ Hex.decode_vector (Md5.to_hex (H m) upper) = H m.
Proof.
  pose proof (law_length m) as Hl. rewrite Hlen in Hl. pose proof (whole_digest o H holds m) as Hw. pose proof (stream_digest_whole o H holds B m HB) as Hs.
  assert (Hr : resize (H m) (Z.of_nat Md5.MD5_DIGEST_LENGTH) = Some (H m)).
  { change Md5.MD5_DIGEST_LENGTH with 16. rewrite resize_take by lia. now rewrite take_ge by lia. }
  assert (Hwr : write (replicate Md5.MD5_DIGEST_LENGTH 0%Z) 0 (H m) = Some (H m)) by (now apply write_all).
  assert (Hst : forall c, Md5.encode_stream o B true true c = Some (Md5.ok, H c)).
  { intros c. unfold Md5.encode_stream. cbn [negb]. rewrite (stream_digest_whole o H holds B c HB).
    pose proof (law_length c) as Hc. rewrite Hlen in Hc. now rewrite (write_all (H c) Md5.MD5_DIGEST_LENGTH Hc). }
  split_and!.
  - unfold Md5.encode, Md5.MD5_DIGEST_LENGTH. destruct (Nat.ltb_spec dst_len 16) as [Hlt|Hge]; [reflexivity|].
    rewrite Hw, write_first by lia. now rewrite Hl.
  - unfold Md5.encode_string, Md5.encode. change (Md5.MD5_DIGEST_LENGTH <? Md5.MD5_DIGEST_LENGTH) with false. cbn iota.
    rewrite Hw, Hwr. cbn iota beta. now rewrite Hr.
  - unfold Md5.encode_array, Md5.encode. rewrite length_replicate. change (16 <? Md5.MD5_DIGEST_LENGTH) with false. cbn iota.
    rewrite Hw. change 16 with Md5.MD5_DIGEST_LENGTH. now rewrite Hwr.
  - unfold Md5.encode_stream_string. cbn [negb]. now rewrite Hs, Hwr.
  - apply Hst.
  - intros writable fs dp sp Hm Hw'. unfold Md5.encode_file_string, Md5.encode_file. rewrite Hm, Hw'. cbn [negb].
    rewrite (content_truncated fs dp sp m Hm), Hst. unfold truncate. now rewrite insert_insert_eq.
  - unfold Md5.to_hex. rewrite take_ge by (unfold Md5.MD5_DIGEST_LENGTH; lia).
    pose proof (codec_roundtrip (Codec := Hex.vector_codec upper) (H m) (law_bytes m)) as E.
    now injection E.
Qed.

(** For each algorithm the forms of SHA agree, when the library's function on
    whole buffers is the digest of its contexts; a file written onto itself gets
    the digest of nothing. *)
Theorem sha_forms {Ctx : Sha.algorithm -> Type} (o : forall a, digest_ops (Ctx a)) (one_shot : Sha.algorithm -> list Z -> list Z) holds
    (HL : forall a, DigestLaws (o a) (one_shot a) (holds a)) (Hlen : forall a, digest_length (o a) = Sha.get_digest_length a) (B : nat) (HB : 0 < B)
    (a : Sha.algorithm) (m dst : list Z) (dst_len : nat) (Hd : dst_len <= length dst) :
  let n := Sha.get_digest_length a in
  Sha.encode one_shot dst dst_len m a
    = Some (if dst_len <? n then (Sha.buffer_too_small, dst, dst_len) else (Sha.ok, one_shot a m ++ drop n dst, n))
  /\ Sha.encode_string one_shot m a = Some (Sha.ok, one_shot a m)
  /\ Sha.encode_array one_shot (replicate n 0%Z) m a = Some (Sha.ok, one_shot a m)
  /\ Sha.encode_stream_string o B true m a = Some (Sha.ok, one_shot a m)
  /\ Sha.encode_stream o B true true m a = Some (Sha.ok, one_shot a m)
  /\ (forall writable fs dst_path src_path, fs !! src_path = Some m -> writable dst_path = true ->
        Sha.encode_file_string o B writable fs dst_path src_path a
          = Some (Sha.ok, <[dst_path := one_shot a (if decide (dst_path = src_path) then [] else m)]> fs)).
Proof.
  intros n. pose proof (law_length (DigestLaws := HL a) m) as Hl. rewrite Hlen in Hl. fold n in Hl.
  assert (Hwr : write (replicate n 0%Z) 0 (one_shot a m) = Some (one_shot a m)) by (now apply write_all).
  assert (Hss : forall c, Sha.encode_stream_string o B true c a = Some (Sha.ok, one_shot a c)).
  { intros c. unfold Sha.encode_stream_string, Sha.encode_stream_algo. cbn [negb]. fold n.
    rewrite (stream_digest_whole (o a) (one_shot a) (holds a) B c HB).
    pose proof (law_length (DigestLaws := HL a) c) as Hc. rewrite Hlen in Hc. fold n in Hc. now rewrite (write_all (one_shot a c) n Hc). }
  assert (Hst : forall c, Sha.encode_stream o B true true c a = Some (Sha.ok, one_shot a c)).
  { intros c. unfold Sha.encode_stream. cbn [negb]. now rewrite Hss. }
  split_and!; try apply Hss; try apply Hst.
  - unfold Sha.encode. fold n. destruct (Nat.ltb_spec dst_len n) as [Hlt|Hge]; [reflexivity|]. rewrite write_first by lia. now rewrite Hl.
  - unfold Sha.encode_string. fold n. now rewrite Hwr.
  - unfold Sha.encode_array, Sha.encode. rewrite length_replicate. fold n. rewrite (proj2 (Nat.ltb_ge n n)) by lia. now rewrite Hwr.
  - intros writable fs dp sp Hm Hw'. unfold Sha.encode_file_string, Sha.encode_file. rewrite Hm, Hw'. cbn [negb].
    rewrite (content_truncated fs dp sp m Hm), Hst. unfold truncate. now rewrite insert_insert_eq.
Qed.

(** A digest for the witnesses: the sum of the bytes, repeated. *)
Definition toy_digest (n : nat) : digest_ops (list Z) :=
  DigestOps [] (fun c p => c ++ p) (fun c => replicate n (wrap 8 (fold_right Z.add 0%Z c))) n.
#[export] Instance toy_DigestLaws n : DigestLaws (toy_digest n) (fun m => replicate n (wrap 8 (fold_right Z.add 0%Z m))) eq.
Proof.
  split; try reflexivity.
  - intros c m p ->. reflexivity.
  - intros c m ->. reflexivity.
  - intros m. apply length_replicate.
  - intros m. apply Forall_replicate, (wrap_uint 8). lia.
Qed.

Lemma md5_forms_witness : Md5.encode_stream (toy_digest 16) 2 true true [1; 2; 3]%Z = Some (Md5.ok, replicate 16 6%Z)
  /\ Md5.encode_string (toy_digest 16) [1; 2; 3]%Z = Some (Md5.ok, replicate 16 6%Z).
Proof.
  destruct (md5_forms (toy_digest 16) _ eq (toy_DigestLaws 16) eq_refl 2 ltac:(lia) [1; 2; 3]%Z [] 0 ltac:(cbn; lia) true) as (_ & E1 & _ & _ & E2 & _).
  split; [exact E2|exact E1].
Defined.

Lemma sha_forms_witness : Sha.encode_stream (fun a => toy_digest (Sha.get_digest_length a)) 2 true true [1; 2; 3]%Z Sha.sha1 = Some (Sha.ok, replicate 20 6%Z).
Proof.
  destruct (sha_forms (fun a => toy_digest (Sha.get_digest_length a)) (fun a m => replicate (Sha.get_digest_length a) (wrap 8 (fold_right Z.add 0%Z m)))
    (fun _ => eq) (fun a => toy_DigestLaws (Sha.get_digest_length a)) (fun a => eq_refl) 2 ltac:(lia) Sha.sha1 [1; 2; 3]%Z [] 0 ltac:(cbn; lia)) as (_ & _ & _ & _ & E & _).
  exact E.
Defined.
