(* ===== verification/Rsa.v ===== *)
(** * RSA over the cryptographic library

    [crypto/rsa.hpp]: loading keys from their texts, encrypting and decrypting
    buffers, strings, streams and files, signatures, generation of key pairs,
    the checks of sizes and passwords.  The keys, the texts of keys and the
    operations on one block are those of the cryptographic library, a parameter
    ([rsa_ops]).  An [RSA *] is a location of a heap, so that a key that is used
    after [RSA_free], freed twice or never freed shows; [BIO], [BIGNUM] and
    [EVP_PKEY] objects are freed on every path and are values here.  Randomness
    is the number of draws so far.  Operations are in a monad over the heap that
    fails on undefined behaviour.  Bytes are numbers below 256, a pointer is
    the memory behind it or none; lengths fit an [int].  The ciphers that a
    build of the library may leave out are there. *)

From Stdlib Require Import ZArith Lia List Bool.
From stdpp Require Import base tactics list option gmap strings.
From S2P Require Import Prelude Padding Digest.

Open Scope hj_scope.
Open Scope nat_scope.

Module Rsa.

Inductive error_code :=
| ok | invalid_input | invalid_output | invalid_pubkey_pem | invalid_prikey_pem | invalid_key_bits | buffer_too_small
| key_generation_failed | key_loading_failed | encryption_failed | decryption_failed | signing_failed | verification_failed
| not_supported_padding | no_padding_specified | write_failed | read_failed | mode_and_password_mismatch | unknown.

Inductive key_format := x509 | pkcs1_format.

Inductive mode :=
| none
| aes_128_ecb | aes_192_ecb | aes_256_ecb | aes_128_cbc | aes_192_cbc | aes_256_cbc
| aes_128_cfb | aes_192_cfb | aes_256_cfb | aes_128_ofb | aes_192_ofb | aes_256_ofb
| des_ede3_ecb | des_ede3_cbc | des_ede3_cfb | des_ede3_ofb | des_ede_cbc
| des_ecb | des_cbc | des_cfb | des_ofb
| bf_ecb | bf_cbc | bf_cfb | bf_ofb
| cast5_ecb | cast5_cbc | cast5_cfb | cast5_ofb
| rc2_ecb | rc2_cbc | rc2_cfb | rc2_ofb.

Inductive padding := pkcs1 | no_padding | pkcs1_oaep | x931 | pkcs1_pss.

#[export] Instance error_code_eq_dec : EqDecision error_code.
Proof. solve_decision. Defined.
#[export] Instance mode_eq_dec : EqDecision mode.
Proof. solve_decision. Defined.
#[export] Instance padding_eq_dec : EqDecision padding.
Proof. solve_decision. Defined.

(** [EVP_<family>_<chaining>()] *)
Inductive family := aes_128 | aes_192 | aes_256 | des_ede3 | des_ede | des | bf | cast5 | rc2.
Inductive chaining := cbc | cfb | ofb.
Inductive cipher := EVP (f : family) (c : chaining).

Definition select_cipher (mod_ : mode) : option cipher :=
  match mod_ with
  | none => None
  | aes_128_ecb => Some (EVP aes_128 cbc) | aes_192_ecb => Some (EVP aes_192 cbc) | aes_256_ecb => Some (EVP aes_256 cbc)
  | aes_128_cbc => Some (EVP aes_128 cbc) | aes_192_cbc => Some (EVP aes_192 cbc) | aes_256_cbc => Some (EVP aes_256 cbc)
  | aes_128_cfb => Some (EVP aes_128 cfb) | aes_192_cfb => Some (EVP aes_192 cfb) | aes_256_cfb => Some (EVP aes_256 cfb)
  | aes_128_ofb => Some (EVP aes_128 ofb) | aes_192_ofb => Some (EVP aes_192 ofb) | aes_256_ofb => Some (EVP aes_256 ofb)
  | des_ede3_ecb | des_ede3_cbc => Some (EVP des_ede3 cbc) | des_ede3_cfb => Some (EVP des_ede3 cfb) | des_ede3_ofb => Some (EVP des_ede3 ofb)
  | des_ede_cbc => Some (EVP des_ede cbc)
  | des_ecb | des_cbc => Some (EVP des cbc) | des_cfb => Some (EVP des cfb) | des_ofb => Some (EVP des ofb)
  | bf_ecb | bf_cbc => Some (EVP bf cbc) | bf_cfb => Some (EVP bf cfb) | bf_ofb => Some (EVP bf ofb)
  | cast5_ecb | cast5_cbc => Some (EVP cast5 cbc) | cast5_cfb => Some (EVP cast5 cfb) | cast5_ofb => Some (EVP cast5 ofb)
  | rc2_ecb | rc2_cbc => Some (EVP rc2 cbc) | rc2_cfb => Some (EVP rc2 cfb) | rc2_ofb => Some (EVP rc2 ofb)
  end.

Definition validate_password_for_cipher (mod_ : mode) (password_len : nat) : bool :=
  match mod_ with
  | none => true
  | des_ecb | des_cbc | des_cfb | des_ofb | des_ede_cbc | des_ede3_ecb | des_ede3_cbc | des_ede3_cfb | des_ede3_ofb => 8 <=? password_len
  | aes_128_ecb | aes_128_cbc | aes_128_cfb | aes_128_ofb | aes_192_ecb | aes_192_cbc | aes_192_cfb | aes_192_ofb
  | aes_256_ecb | aes_256_cbc | aes_256_cfb | aes_256_ofb => 8 <=? password_len
  | _ => 4 <=? password_len
  end.

Definition is_key_pair_bits_valid (bits : nat) : bool :=
  (bits =? 512) || (bits =? 1024) || (bits =? 2048) || (bits =? 3072) || (bits =? 4096).

(** The switch of [is_pubkey_valid] and [is_prikey_valid]. *)
Definition padding_known (pad : padding) : bool := match pad with x931 => false | _ => true end.

Definition RSA_MAX_KEY_LENGTH : nat := 4096.

(** What [strlen] and [strcpy] see: undefined without a zero. *)
Fixpoint c_str (p : list Z) : option (list Z) :=
  match p with
  | [] => None
  | b :: p => if (b =? 0)%Z then Some [] else let* s := c_str p in Some (b :: s)
  end.

(** ** The library *)

Record rsa_ops (Key PKey : Type) := RsaOps
  { PEM_read_bio_RSA_PUBKEY : list Z -> option Key;
    PEM_read_bio_RSAPublicKey : list Z -> option Key;
    (* whether a text is encrypted, so that the password is asked for *)
    PEM_encrypted : list Z -> bool;
    PEM_read_bio_RSAPrivateKey : list Z -> option (list Z) -> option Key;
    PEM_read_bio_PrivateKey : list Z -> option (list Z) -> option PKey;
    EVP_PKEY_get1_RSA : PKey -> option Key;
    EVP_PKEY_set1_RSA : Key -> option PKey;
    key_size_of : Key -> nat;
    RSA_generate_key_ex : nat -> nat -> option Key;
    RSA_check_key : Key -> bool;
    PEM_write_bio_RSA_PUBKEY : Key -> option (list Z);
    PEM_write_bio_RSAPublicKey : Key -> option (list Z);
    PEM_write_bio_PrivateKey : nat -> PKey -> option (cipher * list Z) -> option (list Z);
    PEM_write_bio_RSAPrivateKey : nat -> Key -> option (cipher * list Z) -> option (list Z);
    public_encrypt : nat -> Key -> padding -> list Z -> option (list Z);
    private_decrypt : Key -> padding -> list Z -> option (list Z);
    private_encrypt : Key -> padding -> list Z -> option (list Z);
    public_decrypt : Key -> padding -> list Z -> option (list Z) }.
#[global] Arguments PEM_read_bio_RSA_PUBKEY {Key PKey}. #[global] Arguments PEM_read_bio_RSAPublicKey {Key PKey}.
#[global] Arguments PEM_encrypted {Key PKey}. #[global] Arguments PEM_read_bio_RSAPrivateKey {Key PKey}.
#[global] Arguments PEM_read_bio_PrivateKey {Key PKey}. #[global] Arguments EVP_PKEY_get1_RSA {Key PKey}.
#[global] Arguments EVP_PKEY_set1_RSA {Key PKey}. #[global] Arguments key_size_of {Key PKey}.
#[global] Arguments RSA_generate_key_ex {Key PKey}. #[global] Arguments RSA_check_key {Key PKey}.
#[global] Arguments PEM_write_bio_RSA_PUBKEY {Key PKey}. #[global] Arguments PEM_write_bio_RSAPublicKey {Key PKey}.
#[global] Arguments PEM_write_bio_PrivateKey {Key PKey}. #[global] Arguments PEM_write_bio_RSAPrivateKey {Key PKey}.
#[global] Arguments public_encrypt {Key PKey}. #[global] Arguments private_decrypt {Key PKey}.
#[global] Arguments private_encrypt {Key PKey}. #[global] Arguments public_decrypt {Key PKey}.

(** ** The heap of keys *)

Record heap (Key : Type) := Heap { objs : gmap nat Key; fresh_loc : nat; draws : nat }.
#[global] Arguments Heap {Key}. #[global] Arguments objs {Key}. #[global] Arguments fresh_loc {Key}. #[global] Arguments draws {Key}.

Section Rsa.
Context {Key PKey : Type} (o : rsa_ops Key PKey).

Definition M (A : Type) : Type := heap Key -> option (A * heap Key).
Definition ret {A} (a : A) : M A := fun h => Some (a, h).
Definition bind {A B} (m : M A) (f : A -> M B) : M B := fun h => match m h with Some (a, h') => f a h' | None => None end.
(** Undefined behaviour when there is no value. *)
Definition defined {A} (x : option A) : M A := fun h => match x with Some a => Some (a, h) | None => None end.
#[local] Notation "'do' p <- m ; k" := (bind m (fun x => match x with p => k end))
  (at level 10, p pattern, m at level 99, k at level 200).

Definition RSA_alloc (k : Key) : M nat := fun h =>
  Some (fresh_loc h, Heap (<[fresh_loc h := k]> (objs h)) (S (fresh_loc h)) (draws h)).
Definition RSA_get (rsa : nat) : M Key := fun h => let* k := objs h !! rsa in Some (k, h).
Definition RSA_size (rsa : nat) : M nat := do k <- RSA_get rsa; ret (key_size_of o k).
Definition RSA_free (rsa : nat) : M unit := fun h =>
  let* _ := objs h !! rsa in Some (tt, Heap (delete rsa (objs h)) (fresh_loc h) (draws h)).
Definition draw : M nat := fun h => Some (draws h, Heap (objs h) (fresh_loc h) (S (draws h))).

Definition RSA_public_encrypt (rsa : nat) (pad : padding) (src : list Z) : M (option (list Z)) :=
  do k <- RSA_get rsa; do d <- draw; ret (public_encrypt o d k pad src).
Definition RSA_private_decrypt (rsa : nat) (pad : padding) (src : list Z) : M (option (list Z)) :=
  do k <- RSA_get rsa; ret (private_decrypt o k pad src).
Definition RSA_private_encrypt (rsa : nat) (pad : padding) (src : list Z) : M (option (list Z)) :=
  do k <- RSA_get rsa; ret (private_encrypt o k pad src).
Definition RSA_public_decrypt (rsa : nat) (pad : padding) (src : list Z) : M (option (list Z)) :=
  do k <- RSA_get rsa; ret (public_decrypt o k pad src).

(** [memset(dst, 0, n)] *)
Definition clear (dst : list Z) (n : nat) : option (list Z) := write dst 0 (replicate n 0%Z).

(** ** Loading keys *)

Definition load_public_key (pubkey_pem : option (list Z)) : M (option nat) :=
  match pubkey_pem with
  | None | Some [] => ret None
  | Some pem =>
      let rsa := match PEM_read_bio_RSA_PUBKEY o pem with Some k => Some k | None => PEM_read_bio_RSAPublicKey o pem end in
      match rsa with Some k => do l <- RSA_alloc k; ret (Some l) | None => ret None end
  end.

(** The password as the library reads it, when it does: up to the first zero. *)
Definition password_arg (pem : list Z) (password : option (list Z)) (password_len : nat) : option (option (list Z)) :=
  match password with
  | Some p => if (0 <? password_len) && PEM_encrypted o pem then let* s := c_str p in Some (Some s) else Some None
  | None => Some None
  end.
Definition load_private_key (prikey_pem : option (list Z)) (password : option (list Z)) (password_len : nat) : M (option nat) :=
  match prikey_pem with
  | None | Some [] => ret None
  | Some pem =>
      do u <- defined (password_arg pem password password_len);
      let rsa := match PEM_read_bio_RSAPrivateKey o pem u with
        | Some k => Some k
        | None => let* pkey := PEM_read_bio_PrivateKey o pem u in EVP_PKEY_get1_RSA o pkey end in
      match rsa with Some k => do l <- RSA_alloc k; ret (Some l) | None => ret None end
  end.

(** The object is not freed. *)
Definition encrypt_len_reserve (pubkey_pem : option (list Z)) : M nat :=
  do rsa <- load_public_key pubkey_pem;
  match rsa with None => ret 0 | Some l => RSA_size l end.
Definition decrypt_len_reserve (prikey_pem : option (list Z)) (password : option (list Z)) (password_len : nat) : M nat :=
  do rsa <- load_private_key prikey_pem password password_len;
  match rsa with None => ret 0 | Some l => RSA_size l end.

(** ** Checks *)

(** The differences are of type [size_t]. *)
Definition is_plain_valid_size (plain_len : nat) (pad_style : padding) (key_size : nat) : bool :=
  let at_most (overhead : Z) := negb (wrap 64 (Z.of_nat key_size - overhead) <? Z.of_nat plain_len)%Z in
  if key_size =? 0 then false else
  match pad_style with
  | pkcs1 => at_most 11%Z
  | pkcs1_oaep => at_most 42%Z
  | no_padding => plain_len =? key_size
  | x931 => at_most 11%Z
  | pkcs1_pss => at_most 42%Z
  end.
Definition is_plain_valid_rsa (plain_len : nat) (pad_style : padding) (rsa : option nat) : M bool :=
  match rsa with
  | None => ret false
  | Some l => do key_size <- RSA_size l; ret (is_plain_valid_size plain_len pad_style key_size)
  end.

(** [rest] is what follows the position of the stream. *)
Definition is_stream_valid (rest : list Z) (pad_style : padding) (key_size : nat) : option bool :=
  match pad_style with
  | no_padding => if key_size =? 0 then None else Some (length rest mod key_size =? 0)
  | _ => Some (0 <? length rest)
  end.

Definition is_pubkey_valid (pubkey_pem : option (list Z)) (pad : padding) : M bool :=
  do rsa <- load_public_key pubkey_pem;
  match rsa with None => ret false | Some l => do _ <- RSA_free l; ret (padding_known pad) end.
Definition is_prikey_valid (prikey_pem : option (list Z)) (pad : padding) (password : option (list Z)) (password_len : nat) : M bool :=
  do rsa <- load_private_key prikey_pem password password_len;
  match rsa with None => ret false | Some l => do _ <- RSA_free l; ret (padding_known pad) end.

Definition is_plain_valid (plain_len : nat) (pad_style : padding) (pubkey_pem : option (list Z)) : M bool :=
  do rsa <- load_public_key pubkey_pem;
  match rsa with
  | None => ret false
  | Some l => do valid <- is_plain_valid_rsa plain_len pad_style (Some l); do _ <- RSA_free l; ret valid
  end.
Definition is_plain_valid_stream (rest : list Z) (pad_style : padding) (pubkey_pem : option (list Z)) : M bool :=
  do rsa <- load_public_key pubkey_pem;
  match rsa with
  | None => ret false
  | Some l => do key_size <- RSA_size l; do _ <- RSA_free l; defined (is_stream_valid rest pad_style key_size)
  end.
Definition is_cipher_valid_stream (rest : list Z) (pad : padding) (prikey_pem : option (list Z)) : M bool :=
  do rsa <- load_private_key prikey_pem None 0;
  match rsa with
  | None => ret false
  | Some l => do key_size <- RSA_size l; do _ <- RSA_free l; defined (is_stream_valid rest pad key_size)
  end.
Definition is_cipher_valid_string (cipher : list Z) (pad : padding) (prikey_pem : list Z) : M bool :=
  is_cipher_valid_stream cipher pad (Some prikey_pem).
Definition is_cipher_valid (cipher : list Z) (cipher_len : nat) (pad : padding) (prikey_pem : option (list Z)) : M bool :=
  if cipher_len <=? length cipher then is_cipher_valid_stream (take cipher_len cipher) pad prikey_pem else fun _ => None.

(** ** Buffers *)

(** The result, the destination and its length. *)
Definition encrypt (dst : option (list Z)) (dst_len : nat) (src : option (list Z)) (pubkey_pem : option (list Z)) (pad : padding) :
    M (error_code * option (list Z) * nat) :=
  match dst, src, pubkey_pem with
  | None, _, _ => ret (invalid_output, dst, dst_len)
  | _, None, _ => ret (invalid_input, dst, dst_len)
  | _, _, (None | Some []) => ret (invalid_pubkey_pem, dst, dst_len)
  | Some d, Some src, _ =>
      do rsa <- load_public_key pubkey_pem;
      match rsa with
      | None => ret (key_loading_failed, dst, dst_len)
      | Some l =>
          do r <- (do pv <- is_plain_valid_rsa (length src) pad (Some l);
                   if negb pv then ret None else
                   do size <- RSA_size l;
                   if dst_len <? size then ret None else RSA_public_encrypt l pad src);
          do _ <- RSA_free l;
          match r with
          | Some bs => do d <- defined (write d 0 bs); ret (ok, Some d, length bs)
          | None => do d <- defined (clear d dst_len); ret (encryption_failed, Some d, dst_len)
          end
      end
  end.

Definition decrypt (dst : option (list Z)) (dst_len : nat) (src : option (list Z)) (prikey_pem : option (list Z)) (pad : padding)
    (password : option (list Z)) (password_len : nat) : M (error_code * option (list Z) * nat) :=
  match dst, src, prikey_pem with
  | None, _, _ => ret (invalid_output, dst, dst_len)
  | Some d, _, _ => if dst_len =? 0 then ret (invalid_output, dst, dst_len) else
      match src, prikey_pem with
      | (None | Some []), _ => ret (invalid_input, dst, dst_len)
      | _, (None | Some []) => ret (invalid_prikey_pem, dst, dst_len)
      | Some src, _ =>
          do rsa <- load_private_key prikey_pem password password_len;
          match rsa with
          | None => do d <- defined (clear d dst_len); ret (key_loading_failed, Some d, dst_len)
          | Some l =>
              do r <- (do size <- RSA_size l;
                       if dst_len <? size then ret None else RSA_private_decrypt l pad src);
              do _ <- RSA_free l;
              match r with
              | Some bs => do d <- defined (write d 0 bs); ret (ok, Some d, length bs)
              | None => do d <- defined (clear d dst_len); ret (decryption_failed, Some d, dst_len)
              end
          end
      end
  end.

(** Neither checks its pointers: a null source or destination is given to the
    library. *)
Definition signature (dst : list Z) (dst_len : nat) (src : list Z) (prikey_pem : option (list Z)) (pad : padding)
    (password : option (list Z)) (password_len : nat) : M (error_code * list Z * nat) :=
  do rsa <- load_private_key prikey_pem password password_len;
  match rsa with
  | None => ret (key_loading_failed, dst, dst_len)
  | Some l =>
      do size <- RSA_size l;
      if dst_len <? size then ret (buffer_too_small, dst, dst_len) else
      do r <- RSA_private_encrypt l pad src;
      do _ <- RSA_free l;
      match r with
      | None => ret (encryption_failed, dst, dst_len)
      | Some bs => do d <- defined (write dst 0 bs); ret (ok, d, length bs)
      end
  end.
Definition verify_signature (dst : list Z) (dst_len : nat) (src : list Z) (pubkey_pem : option (list Z)) (pad : padding) :
    M (error_code * list Z * nat) :=
  do rsa <- load_public_key pubkey_pem;
  match rsa with
  | None => ret (key_loading_failed, dst, dst_len)
  | Some l =>
      do size <- RSA_size l;
      if dst_len <? size then ret (buffer_too_small, dst, dst_len) else
      do r <- RSA_public_decrypt l pad src;
      do _ <- RSA_free l;
      match r with
      | None => ret (verification_failed, dst, dst_len)
      | Some bs => do d <- defined (write dst 0 bs); ret (ok, d, length bs)
      end
  end.

(** ** Strings *)

Definition encrypt_string (dst src pubkey_pem : list Z) (pad : padding) : M (error_code * list Z) :=
  do n <- encrypt_len_reserve (Some pubkey_pem);
  do dst <- defined (resize dst (Z.of_nat n));
  do (ec, d, len) <- encrypt (Some dst) (length dst) (Some src) (Some pubkey_pem) pad;
  if bool_decide (ec = ok) then do s <- defined (resize (default [] d) (Z.of_nat len)); ret (ok, s) else ret (ec, []).

(** The memory behind [c_str()] ends in a zero. *)
Definition password_ptr (password : list Z) : option (list Z) :=
  match password with [] => None | _ => Some (password ++ [0%Z]) end.
(** The length is asked for without the password. *)
Definition decrypt_string (dst src prikey_pem : list Z) (pad : padding) (password : list Z) : M (error_code * list Z) :=
  do n <- decrypt_len_reserve (Some prikey_pem) None 0;
  do dst <- defined (resize dst (Z.of_nat n));
  do (ec, d, len) <- decrypt (Some dst) (length dst) (Some src) (Some prikey_pem) pad (password_ptr password) (length password);
  if bool_decide (ec = ok) then do s <- defined (resize (default [] d) (Z.of_nat len)); ret (ok, s) else ret (ec, []).

(** ** Streams *)

(** The size of a chunk, an [int]. *)
Definition max_chunk (pad : padding) (key_size : nat) : option Z :=
  match pad with
  | pkcs1 => Some (Z.of_nat key_size - 11)%Z
  | pkcs1_oaep => Some (Z.of_nat key_size - 2 * 20 - 2)%Z
  | x931 => Some (Z.of_nat key_size - 11)%Z
  | no_padding => Some (Z.of_nat key_size)
  | pkcs1_pss => None
  end.

(** [inbuf] and [outbuf] have [RSA_MAX_KEY_LENGTH] bytes. *)
Definition fits (bs : list Z) : M unit := if length bs <=? RSA_MAX_KEY_LENGTH then ret tt else fun _ => None.

Fixpoint encrypt_chunks (fuel : nat) (l : nat) (pad : padding) (key_size chunk : nat) (rest out : list Z) : M (error_code * list Z) :=
  match fuel with
  | O => fun _ => None
  | S fuel =>
      let inbuf := take chunk rest in
      do _ <- fits inbuf;
      if length inbuf <? 1 then do _ <- RSA_free l; ret (ok, out) else
      if bool_decide (pad = no_padding) && negb (length inbuf =? key_size) then do _ <- RSA_free l; ret (no_padding_specified, out) else
      do r <- RSA_public_encrypt l pad inbuf;
      match r with
      | None => do _ <- RSA_free l; ret (encryption_failed, out)
      | Some bs => do _ <- fits bs; encrypt_chunks fuel l pad key_size chunk (drop chunk rest) (out ++ bs)
      end
  end.
Definition encrypt_stream (out_good in_good : bool) (rest : list Z) (pubkey_pem : option (list Z)) (pad : padding) : M (error_code * list Z) :=
  if negb in_good then ret (invalid_input, []) else
  if negb out_good then ret (invalid_output, []) else
  do rsa <- load_public_key pubkey_pem;
  match rsa with
  | None => ret (key_loading_failed, [])
  | Some l =>
      do key_size <- RSA_size l;
      do valid <- (if length (default [] pubkey_pem) <? key_size then ret false else defined (is_stream_valid rest pad key_size));
      if negb valid then do _ <- RSA_free l; ret (verification_failed, []) else
      match max_chunk pad key_size with
      | None => do _ <- RSA_free l; ret (not_supported_padding, [])
      | Some chunk => encrypt_chunks (S (length rest)) l pad key_size (Z.to_nat chunk) rest []
      end
  end.

Fixpoint decrypt_chunks (fuel : nat) (l : nat) (pad : padding) (key_size : nat) (rest out : list Z) : M (error_code * list Z) :=
  match fuel with
  | O => fun _ => None
  | S fuel =>
      let inbuf := take key_size rest in
      do _ <- fits inbuf;
      if length inbuf <? 1 then do _ <- RSA_free l; ret (ok, out) else
      do r <- RSA_private_decrypt l pad inbuf;
      match r with
      | None => do _ <- RSA_free l; ret (write_failed, out)
      | Some bs => do _ <- fits bs; decrypt_chunks fuel l pad key_size (drop key_size rest) (out ++ bs)
      end
  end.
Definition decrypt_stream (out_good in_good : bool) (rest : list Z) (prikey_pem : option (list Z)) (pad : padding)
    (password : option (list Z)) (password_len : nat) : M (error_code * list Z) :=
  if negb in_good then ret (invalid_input, []) else
  if negb out_good then ret (invalid_output, []) else
  do rsa <- load_private_key prikey_pem password password_len;
  match rsa with
  | None => ret (key_loading_failed, [])
  | Some l =>
      do key_size <- RSA_size l;
      do valid <- (if length (default [] prikey_pem) <? key_size then ret false else defined (is_stream_valid rest pad key_size));
      if negb valid then do _ <- RSA_free l; ret (verification_failed, []) else
      decrypt_chunks (S (length rest)) l pad key_size rest []
  end.

(** ** Files *)

(** The source is opened, then the destination, which empties it; then both are
    tested. *)
Definition with_files (writable : string -> bool) (fs : files) (dst_file_path src_file_path : string)
    (op : bool -> bool -> list Z -> M (error_code * list Z)) : M (error_code * files) :=
  let in_good := bool_decide (is_Some (fs !! src_file_path)) in
  let out_good := writable dst_file_path in
  let fs := if out_good then truncate fs dst_file_path else fs in
  do (ec, out) <- op out_good in_good (content_of fs src_file_path);
  ret (ec, if out_good then <[dst_file_path := out]> fs else fs).
Definition encrypt_file (writable : string -> bool) (fs : files) (dst_file_path src_file_path : string) (pubkey_pem : option (list Z))
    (pad : padding) : M (error_code * files) :=
  with_files writable fs dst_file_path src_file_path (fun out_good in_good rest => encrypt_stream out_good in_good rest pubkey_pem pad).
Definition encrypt_file_string (writable : string -> bool) (fs : files) (dst_file_path src_file_path : string) (pubkey_pem : list Z)
    (pad : padding) : M (error_code * files) :=
  encrypt_file writable fs dst_file_path src_file_path (Some pubkey_pem) pad.
Definition decrypt_file (writable : string -> bool) (fs : files) (dst_file_path src_file_path : string) (prikey_pem : option (list Z))
    (pad : padding) (password : option (list Z)) (password_len : nat) : M (error_code * files) :=
  with_files writable fs dst_file_path src_file_path
    (fun out_good in_good rest => decrypt_stream out_good in_good rest prikey_pem pad password password_len).
Definition decrypt_file_string (writable : string -> bool) (fs : files) (dst_file_path src_file_path : string) (prikey_pem : list Z)
    (pad : padding) (password : list Z) : M (error_code * files) :=
  decrypt_file writable fs dst_file_path src_file_path (Some prikey_pem) pad (password_ptr password) (length password).

(** ** Key pairs *)

Definition write_pubkey (format : key_format) (l : nat) : M (option (list Z)) :=
  do k <- RSA_get l;
  ret (match format with x509 => PEM_write_bio_RSA_PUBKEY o k | pkcs1_format => PEM_write_bio_RSAPublicKey o k end).
(** The cipher and the password, [password_len] bytes of it. *)
Definition enc_arg (mod_ : mode) (password : option (list Z)) (password_len : nat) : option (option (cipher * list Z)) :=
  match select_cipher mod_ with
  | None => Some None
  | Some c =>
      let p := default [] password in
      if password_len <=? length p then Some (Some (c, take password_len p)) else None
  end.
Definition write_prikey (format : key_format) (mod_ : mode) (password : option (list Z)) (password_len : nat) (l : nat) : M (option (list Z)) :=
  do k <- RSA_get l;
  do d <- draw;
  match format with
  | x509 =>
      match EVP_PKEY_set1_RSA o k with
      | None => ret None
      | Some pkey => do enc <- defined (enc_arg mod_ password password_len); ret (PEM_write_bio_PrivateKey o d pkey enc)
      end
  | pkcs1_format => do enc <- defined (enc_arg mod_ password password_len); ret (PEM_write_bio_RSAPrivateKey o d k enc)
  end.

(** [memcpy(buf, text, len); buf[len] = 0] *)
Definition copy_text (buf text : list Z) : option (list Z) := write buf 0 (text ++ [0%Z]).

(** The body of [do ... while(false)] once there is a key: the two texts. *)
Definition key_texts (pubkey_pem_len prikey_pem_len : nat) (format : key_format) (mod_ : mode) (password : option (list Z))
    (password_len : nat) (l : nat) : M (option (list Z * list Z)) :=
  do k <- RSA_get l;
  if negb (RSA_check_key o k) then ret None else
  do pub <- write_pubkey format l;
  match pub with
  | None => ret None
  | Some pub_buf =>
      do pri <- write_prikey format mod_ password password_len l;
      match pri with
      | None => ret None
      | Some pri_buf =>
          if (length pub_buf <? 1) || (pubkey_pem_len <? length pub_buf) then ret None else
          if (length pri_buf <? 1) || (prikey_pem_len <? length pri_buf) then ret None else ret (Some (pub_buf, pri_buf))
      end
  end.

Definition keygen (pubkey_pem : option (list Z)) (pubkey_pem_len : nat) (prikey_pem : option (list Z)) (prikey_pem_len : nat)
    (bits : nat) (format : key_format) (mod_ : mode) (password : option (list Z)) (password_len : nat) :
    M (error_code * (option (list Z) * nat) * (option (list Z) * nat)) :=
  let fail ec := ret (ec, (pubkey_pem, pubkey_pem_len), (prikey_pem, prikey_pem_len)) in
  match pubkey_pem with None => fail invalid_pubkey_pem | Some pub =>
  if pubkey_pem_len <? 256 then fail invalid_pubkey_pem else
  match prikey_pem with None => fail invalid_prikey_pem | Some pri =>
  if prikey_pem_len <? 512 then fail invalid_prikey_pem else
  if negb (is_key_pair_bits_valid bits) then fail invalid_key_bits else
  if bool_decide (mod_ <> none) && (bool_decide (password = None) || negb (validate_password_for_cipher mod_ password_len))
  then fail mode_and_password_mismatch else
  do d <- draw;
  match RSA_generate_key_ex o d bits with
  | None => fail key_generation_failed
  | Some k =>
      do l <- RSA_alloc k;
      do r <- key_texts pubkey_pem_len prikey_pem_len format mod_ password password_len l;
      do done <- (match r with
        | None => ret None
        | Some (pub_buf, pri_buf) =>
            do pub <- defined (copy_text pub pub_buf);
            do pri <- defined (copy_text pri pri_buf);
            ret (Some (ok, (Some pub, length pub_buf), (Some pri, length pri_buf))) end);
      do _ <- RSA_free l;
      match done with Some res => ret res | None => fail key_generation_failed end
  end end end.

(** A string of [n] bytes may be written a zero at its end. *)
Definition keygen_string (pubkey_pem prikey_pem : list Z) (bits : nat) (format : key_format) (mod_ : mode) (password : list Z) :
    M (error_code * list Z * list Z) :=
  do pub <- defined (resize pubkey_pem (Z.of_nat RSA_MAX_KEY_LENGTH));
  do pri <- defined (resize prikey_pem (Z.of_nat RSA_MAX_KEY_LENGTH));
  do (ec, (pub, pub_len), (pri, pri_len)) <-
    keygen (Some (pub ++ [0%Z])) (length pub) (Some (pri ++ [0%Z])) (length pri) bits format mod_ (Some (password ++ [0%Z])) (length password);
  if bool_decide (ec = ok) then
    do pub <- defined (resize (take RSA_MAX_KEY_LENGTH (default [] pub)) (Z.of_nat pub_len));
    do pri <- defined (resize (take RSA_MAX_KEY_LENGTH (default [] pri)) (Z.of_nat pri_len));
    ret (ok, pub, pri)
  else ret (ec, [], []).

End Rsa.
End Rsa.
