(* ===== verification/RsaThm.v ===== *)
(** * RSA: theorems

    Each operation of [Rsa] returns, frees the key it loads and stays within
    its buffers, with the exceptions shown; encryption and decryption, signature
    and verification are inverse on buffers, strings, streams and files; a
    generated pair of keys is loaded back and fits together.  The laws of the
    library are the class [RsaLaws], with a library that has them for the
    witnesses. *)

From Stdlib Require Import ZArith Lia List Bool.
From stdpp Require Import base tactics list option gmap strings.
From S2P Require Import Prelude Padding Digest Rsa.
Import Rsa.

Open Scope hj_scope.
Open Scope nat_scope.

(** ** Evaluation on a heap *)

Section Heap.
Context {Key PKey : Type} (o : rsa_ops Key PKey).

(** Locations are not reused. *)
Definition wf (h : heap Key) : Prop := forall l, fresh_loc h <= l -> objs h !! l = None.
(** One more key, and [n] more draws. *)
Definition held (h : heap Key) (k : Key) (n : nat) : heap Key :=
  Heap (<[fresh_loc h := k]> (objs h)) (S (fresh_loc h)) (draws h + n).
(** That key is freed. *)
Definition freed (h : heap Key) (n : nat) : heap Key := Heap (objs h) (S (fresh_loc h)) (draws h + n).

Lemma alloc_held h k : RSA_alloc k h = Some (fresh_loc h, held h k 0).
Proof. unfold RSA_alloc, held. now rewrite Nat.add_0_r. Qed.
Lemma get_held h k n : RSA_get (fresh_loc h) (held h k n) = Some (k, held h k n).
Proof. unfold RSA_get. cbn [objs held]. now rewrite lookup_insert_eq. Qed.
Lemma size_held h k n : RSA_size o (fresh_loc h) (held h k n) = Some (key_size_of o k, held h k n).
Proof. unfold RSA_size, bind. now rewrite get_held. Qed.
Lemma draw_held h k n : draw (held h k n) = Some (draws h + n, held h k (S n)).
Proof. unfold draw, held. cbn [draws objs fresh_loc]. now rewrite Nat.add_succ_r. Qed.
Lemma free_held h k n : wf h -> RSA_free (fresh_loc h) (held h k n) = Some (tt, freed h n).
Proof. intros H. unfold RSA_free. cbn [objs held]. rewrite lookup_insert_eq. cbn. unfold freed. rewrite delete_insert_id; [reflexivity|]. now apply H. Qed.

(** The keys that loading gives. *)
Definition public_of (pem : option (list Z)) : option Key :=
  match pem with
  | None | Some [] => None
  | Some p => match PEM_read_bio_RSA_PUBKEY o p with Some k => Some k | None => PEM_read_bio_RSAPublicKey o p end
  end.
Definition private_of (pem : option (list Z)) (u : option (list Z)) : option Key :=
  match pem with
  | None | Some [] => None
  | Some p => match PEM_read_bio_RSAPrivateKey o p u with
      | Some k => Some k
      | None => let* pkey := PEM_read_bio_PrivateKey o p u in EVP_PKEY_get1_RSA o pkey end
  end.

Definition loaded (h : heap Key) (k : option Key) : option (option nat * heap Key) :=
  match k with Some k => Some (Some (fresh_loc h), held h k 0) | None => Some (None, h) end.
Lemma load_public h pem : load_public_key o pem h = loaded h (public_of pem).
Proof.
  unfold load_public_key, public_of. destruct pem as [[|b p]|]; try reflexivity.
  destruct (match PEM_read_bio_RSA_PUBKEY o (b :: p) with Some k => Some k | None => _ end) as [k|]; [|reflexivity].
  unfold bind. now rewrite alloc_held.
Qed.
Lemma load_private h pem password len u : password_arg o (default [] pem) password len = Some u ->
  load_private_key o pem password len h = loaded h (private_of pem u).
Proof.
  intros Hu. unfold load_private_key, private_of. destruct pem as [[|b p]|]; try reflexivity. cbn [default from_option id] in Hu.
  unfold bind at 1, defined. rewrite Hu. cbn iota beta.
  destruct (match PEM_read_bio_RSAPrivateKey o (b :: p) u with Some k => Some k | None => _ end) as [k|]; [|reflexivity].
  unfold bind. now rewrite alloc_held.
Qed.
Lemma load_private_null h password len : load_private_key o None password len h = loaded h None.
Proof. reflexivity. Qed.

Lemma public_encrypt_held h k n pad src :
  RSA_public_encrypt o (fresh_loc h) pad src (held h k n) = Some (public_encrypt o (draws h + n) k pad src, held h k (S n)).
Proof. unfold RSA_public_encrypt, bind. now rewrite get_held, draw_held. Qed.
Lemma private_decrypt_held h k n pad src :
  RSA_private_decrypt o (fresh_loc h) pad src (held h k n) = Some (private_decrypt o k pad src, held h k n).
Proof. unfold RSA_private_decrypt, bind. now rewrite get_held. Qed.
Lemma private_encrypt_held h k n pad src :
  RSA_private_encrypt o (fresh_loc h) pad src (held h k n) = Some (private_encrypt o k pad src, held h k n).
Proof. unfold RSA_private_encrypt, bind. now rewrite get_held. Qed.
Lemma public_decrypt_held h k n pad src :
  RSA_public_decrypt o (fresh_loc h) pad src (held h k n) = Some (public_decrypt o k pad src, held h k n).
Proof. unfold RSA_public_decrypt, bind. now rewrite get_held. Qed.
Lemma plain_valid_held h k n len pad :
  is_plain_valid_rsa o len pad (Some (fresh_loc h)) (held h k n) = Some (is_plain_valid_size len pad (key_size_of o k), held h k n).
Proof. unfold is_plain_valid_rsa, bind. now rewrite size_held. Qed.
End Heap.

(** A step of the evaluation. *)
Ltac rsa_step :=
  first
    [ rewrite load_public | erewrite load_private by eassumption | rewrite size_held | rewrite plain_valid_held
    | rewrite public_encrypt_held | rewrite private_decrypt_held | rewrite private_encrypt_held | rewrite public_decrypt_held
    | rewrite get_held | rewrite draw_held | rewrite alloc_held | rewrite free_held by assumption ];
  cbn beta iota.
Ltac rsa_eval := unfold bind, ret, defined; cbn beta iota; repeat (rsa_step; unfold loaded; cbn beta iota).

(** ** Memory *)

(** What the library writes is at most a key's size, and keys are below its
    limit. *)
Class RsaSizes {Key PKey : Type} (o : rsa_ops Key PKey) : Prop :=
  { key_size_range k : 0 < key_size_of o k <= RSA_MAX_KEY_LENGTH;
    public_encrypt_size d k pad m c : public_encrypt o d k pad m = Some c -> length c <= key_size_of o k;
    private_decrypt_size k pad m c : private_decrypt o k pad m = Some c -> length c <= key_size_of o k;
    private_encrypt_size k pad m c : private_encrypt o k pad m = Some c -> length c <= key_size_of o k;
    public_decrypt_size k pad m c : public_decrypt o k pad m = Some c -> length c <= key_size_of o k }.

Lemma write_prefix (d bs : list Z) n : length bs <= n -> n <= length d ->
  exists e, write d 0 bs = Some e /\ length e = length d /\ drop n e = drop n d /\ take (length bs) e = bs.
Proof.
  intros Hb Hn. rewrite write_first by lia. eexists. split; [reflexivity|].
  rewrite length_app, length_drop, drop_app_ge, drop_drop, take_app_length by lia.
  split_and!; [lia| |reflexivity]. f_equal. lia.
Qed.

Section Memory.
Context {Key PKey : Type} (o : rsa_ops Key PKey) `{!RsaSizes o}.
Implicit Types h : heap Key.

(** The operation returns, the keys of the heap are those there were, and the
    result is as said. *)
Definition tidy {A} (m : M A) (P : A -> Prop) h : Prop :=
  exists r h', m h = Some (r, h') /\ objs h' = objs h /\ wf h' /\ P r.
(** The same with one key more: the one loaded. *)
Definition leaks {A} (k : Key) (m : M A) (P : A -> Prop) h : Prop :=
  exists r h', m h = Some (r, h') /\ objs h' = <[fresh_loc h := k]> (objs h) /\ wf h' /\ P r.

(** Bytes behind [dst_len] stay, and on an error so does the length. *)
Definition in_bounds (dst : list Z) (dst_len : nat) (ec : error_code) (dst' : list Z) (dst_len' : nat) : Prop :=
  length dst' = length dst /\ drop dst_len dst' = drop dst_len dst /\ dst_len' <= dst_len /\ (ec <> ok -> dst_len' = dst_len).
(** After an error nothing is left in the buffer. *)
Definition wiped (dst_len : nat) (ec : error_code) (dst' : list Z) : Prop :=
  (ec = encryption_failed \/ ec = decryption_failed) -> take dst_len dst' = replicate dst_len 0%Z.

Lemma tidy_ret {A} (a : A) (P : A -> Prop) h : wf h -> P a -> tidy (ret a) P h.
Proof. intros Hh Ha. now exists a, h. Qed.
Lemma freed_wf h n : wf h -> wf (freed h n).
Proof. intros H l Hl. cbn in *. apply H. lia. Qed.
Lemma held_wf h k n : wf h -> wf (held h k n).
Proof. intros H l Hl. cbn in *. rewrite lookup_insert_ne by lia. apply H. lia. Qed.
Hint Resolve freed_wf held_wf : hj.
Lemma tidy_freed {A} (m : M A) a n (P : A -> Prop) h : wf h -> m h = Some (a, freed h n) -> P a -> tidy m P h.
Proof. intros Hh E Ha. exists a, (freed h n). split_and!; auto with hj. Qed.
Lemma in_bounds_refl d n ec : in_bounds d n ec d n.
Proof. repeat split; auto. Qed.

Definition buffer_ok (dst : option (list Z)) (dst_len : nat) : Prop :=
  match dst with Some d => dst_len <= length d | None => True end.
Definition buffer_post (dst : option (list Z)) (dst_len : nat) (r : error_code * option (list Z) * nat) : Prop :=
  let '(ec, dst', len') := r in
  match dst, dst' with
  | Some d, Some d' => in_bounds d dst_len ec d' len' /\ wiped dst_len ec d'
  | None, None => ec = invalid_output /\ len' = dst_len
  | _, _ => False
  end.

Lemma buffer_post_refl dst n ec : ec <> ok -> ec <> encryption_failed -> ec <> decryption_failed -> (dst = None -> ec = invalid_output) ->
  buffer_post dst n (ec, dst, n).
Proof.
  intros H1 H2 H3 H4. destruct dst as [d|]; cbn; [|now split; [apply H4|]].
  split; [apply in_bounds_refl|]. intros [|]; contradiction.
Qed.

(** What becomes of the buffer when the block operation fails, and when it
    gives [bs]. *)
Lemma clear_tidy d n ec h a : wf h -> n <= length d -> ec = encryption_failed \/ ec = decryption_failed ->
  tidy (bind (defined (clear d n)) (fun e => ret (ec, Some e, n))) (buffer_post (Some d) n) (freed h a).
Proof.
  intros Hh Hn Hec. destruct (write_prefix d (replicate n 0%Z) n) as (e & E & El & Ed & Et); [rewrite length_replicate; lia|exact Hn|].
  rewrite length_replicate in Et. unfold tidy, bind, defined, ret, clear. rewrite E.
  exists (ec, Some e, n), (freed h a). split_and!; auto with hj. cbn. repeat split; auto. now intros _.
Qed.
Lemma write_tidy d n bs h a : wf h -> n <= length d -> length bs <= n ->
  tidy (bind (defined (write d 0 bs)) (fun e => ret (ok, Some e, length bs))) (buffer_post (Some d) n) (freed h a).
Proof.
  intros Hh Hn Hb. destruct (write_prefix d bs n Hb Hn) as (e & E & El & Ed & Et). unfold tidy, bind, defined, ret. rewrite E.
  exists (ok, Some e, length bs), (freed h a). split_and!; auto with hj. cbn. repeat split; auto; [easy|now intros [|]].
Qed.
(** Through the objects of a heap that has the same keys. *)
Lemma tidy_after {A B} (m : M A) (f : A -> M B) (P : B -> Prop) h x a : m h = Some (x, freed h a) -> tidy (f x) P (freed h a) -> tidy (bind m f) P h.
Proof. intros E (r & h' & E' & Ho & Hw & HP). exists r, h'. unfold bind. rewrite E. now split_and!. Qed.

Lemma encrypt_tidy dst dst_len src pem pad h : wf h -> buffer_ok dst dst_len ->
  tidy (encrypt o dst dst_len src pem pad) (buffer_post dst dst_len) h.
Proof.
  intros Hh Hd. unfold encrypt. destruct dst as [d|]; [|now apply tidy_ret].
  destruct src as [src|]; [|now apply tidy_ret, buffer_post_refl].
  destruct pem as [[|b p]|]; try (now apply tidy_ret, buffer_post_refl). set (pem := Some (b :: p)). clearbody pem.
  unfold tidy, bind at 1. rewrite load_public. destruct (public_of o pem) as [k|]; cbn [loaded];
    [|now apply tidy_ret, buffer_post_refl].
  unfold bind at 1 2. rewrite plain_valid_held. cbn beta iota. destruct (is_plain_valid_size _ _ _); cbn [negb].
  2: { unfold bind at 1, ret at 1. rewrite free_held by assumption. cbn beta iota. apply clear_tidy; auto. }
  unfold bind at 1. rewrite size_held. cbn beta iota. destruct (Nat.ltb_spec dst_len (key_size_of o k)).
  { unfold bind at 1, ret at 1. rewrite free_held by assumption. cbn beta iota. apply clear_tidy; auto. }
  rewrite public_encrypt_held. unfold bind at 1. rewrite free_held by assumption. cbn beta iota.
  destruct (public_encrypt o _ k pad src) as [bs|] eqn:E; [|apply clear_tidy; auto].
  apply public_encrypt_size in E. apply write_tidy; auto. lia.
Qed.

(** The password ends in a zero, when it is read. *)
Definition readable (pem password : option (list Z)) (password_len : nat) : Prop :=
  is_Some (password_arg o (default [] pem) password password_len).

Lemma decrypt_tidy dst dst_len src pem pad password password_len h : wf h -> buffer_ok dst dst_len -> readable pem password password_len ->
  tidy (decrypt o dst dst_len src pem pad password password_len) (buffer_post dst dst_len) h.
Proof.
  intros Hh Hd [u Hu]. unfold decrypt. destruct dst as [d|]; [|now apply tidy_ret].
  destruct (dst_len =? 0); [now apply tidy_ret, buffer_post_refl|].
  destruct src as [[|s0 src]|]; try (now apply tidy_ret, buffer_post_refl).
  destruct pem as [[|b p]|]; try (now apply tidy_ret, buffer_post_refl). set (pem := Some (b :: p)) in *.
  unfold tidy, bind at 1. rewrite (load_private o h pem _ _ u Hu). destruct (private_of o pem u) as [k|]; cbn [loaded].
  2: { destruct (write_prefix d (replicate dst_len 0%Z) dst_len) as (e & E & El & Ed & Et); [rewrite length_replicate; lia|exact Hd|].
       unfold bind, defined, ret, clear. rewrite E. exists (key_loading_failed, Some e, dst_len), h. split_and!; auto.
       cbn. repeat split; auto. now intros [|]. }
  unfold bind at 1 2. rewrite size_held. cbn beta iota. destruct (Nat.ltb_spec dst_len (key_size_of o k)).
  { unfold bind at 1, ret at 1. rewrite free_held by assumption. cbn beta iota. apply clear_tidy; auto. }
  rewrite private_decrypt_held. unfold bind at 1. rewrite free_held by assumption. cbn beta iota.
  destruct (private_decrypt o k pad _) as [bs|] eqn:E; [|apply clear_tidy; auto].
  apply private_decrypt_size in E. apply write_tidy; auto. lia.
Qed.

Definition signature_post (d : list Z) (n : nat) (r : error_code * list Z * nat) : Prop := let '(ec, d', len') := r in in_bounds d n ec d' len'.
(** A signature, or the check of one, that finds the buffer too small does not
    free its key. *)
Definition sign_outcome (k : option Key) (dst_len : nat) (m : M (error_code * list Z * nat)) (P : error_code * list Z * nat -> Prop) h : Prop :=
  match k with
  | Some k => if dst_len <? key_size_of o k then leaks k m (fun r => P r /\ fst (fst r) = buffer_too_small) h else tidy m P h
  | None => tidy m P h
  end.

Lemma signed_tidy d n bs h a : wf h -> n <= length d -> length bs <= n ->
  tidy (bind (defined (write d 0 bs)) (fun e => ret (ok, e, length bs))) (signature_post d n) (freed h a).
Proof.
  intros Hh Hn Hb. destruct (write_prefix d bs n Hb Hn) as (e & E & El & Ed & Et). unfold tidy, bind, defined, ret. rewrite E.
  exists (ok, e, length bs), (freed h a). split_and!; auto with hj. cbn. now repeat split.
Qed.
Lemma signature_tidy d n src pem pad password password_len u h : wf h -> n <= length d ->
  password_arg o (default [] pem) password password_len = Some u ->
  sign_outcome (private_of o pem u) n (signature o d n src pem pad password password_len) (signature_post d n) h.
Proof.
  intros Hh Hd Hu. unfold sign_outcome. pose proof (load_private o h pem _ _ u Hu) as L. destruct (private_of o pem u) as [k|]; cbn [loaded] in L; unfold signature.
  2: { unfold tidy, bind at 1. rewrite L. apply tidy_ret; [exact Hh|apply in_bounds_refl]. }
  destruct (Nat.ltb_spec n (key_size_of o k)) as [Hn|Hn]; unfold leaks, tidy, bind at 1; rewrite L; cbn beta iota;
    unfold bind at 1; rewrite size_held; cbn beta iota.
  { rewrite (proj2 (Nat.ltb_lt _ _) Hn). unfold ret. eexists _, (held h k 0).
    repeat apply conj; auto with hj; apply in_bounds_refl. }
  rewrite (proj2 (Nat.ltb_ge _ _) Hn). unfold bind at 1. rewrite private_encrypt_held. cbn beta iota. unfold bind at 1.
  rewrite free_held by assumption. cbn beta iota. destruct (private_encrypt o k pad src) as [bs|] eqn:E.
  - apply private_encrypt_size in E. apply signed_tidy; auto. lia.
  - unfold ret. eexists _, (freed h 0). repeat apply conj; auto with hj; apply in_bounds_refl.
Qed.
Lemma verify_tidy d n src pem pad h : wf h -> n <= length d ->
  sign_outcome (public_of o pem) n (verify_signature o d n src pem pad) (signature_post d n) h.
Proof.
  intros Hh Hd. unfold sign_outcome. pose proof (load_public o h pem) as L. destruct (public_of o pem) as [k|]; cbn [loaded] in L; unfold verify_signature.
  2: { unfold tidy, bind at 1. rewrite L. apply tidy_ret; [exact Hh|apply in_bounds_refl]. }
  destruct (Nat.ltb_spec n (key_size_of o k)) as [Hn|Hn]; unfold leaks, tidy, bind at 1; rewrite L; cbn beta iota;
    unfold bind at 1; rewrite size_held; cbn beta iota.
  { rewrite (proj2 (Nat.ltb_lt _ _) Hn). unfold ret. eexists _, (held h k 0).
    repeat apply conj; auto with hj; apply in_bounds_refl. }
  rewrite (proj2 (Nat.ltb_ge _ _) Hn). unfold bind at 1. rewrite public_decrypt_held. cbn beta iota. unfold bind at 1.
  rewrite free_held by assumption. cbn beta iota. destruct (public_decrypt o k pad src) as [bs|] eqn:E.
  - apply public_decrypt_size in E. apply signed_tidy; auto. lia.
  - unfold ret. eexists _, (freed h 0). repeat apply conj; auto with hj; apply in_bounds_refl.
Qed.

(** ** Streams keep the heap *)

Lemma fits_key {A} (bs : list Z) k (f : unit -> M A) h : length bs <= key_size_of o k -> bind (fits bs) f h = f tt h.
Proof.
  intros Hb. pose proof (key_size_range k). unfold bind, fits. now rewrite (proj2 (Nat.leb_le _ _)) by lia.
Qed.

Lemma encrypt_chunks_tidy h k pad chunk : wf h -> chunk <= key_size_of o k -> forall fuel rest out n, length rest < fuel ->
  exists ec out' n', encrypt_chunks o fuel (fresh_loc h) pad (key_size_of o k) chunk rest out (held h k n) = Some (ec, out', freed h n').
Proof.
  intros Hh Hc. induction fuel as [|fuel IH]; intros rest out n Hf; [lia|]. cbn [encrypt_chunks].
  rewrite (fits_key _ k) by (rewrite length_take; lia).
  destruct (Nat.ltb_spec (length (take chunk rest)) 1) as [Hz|Hz]; [unfold bind; rewrite free_held by assumption; now eexists _, _, _|].
  destruct (_ && _); [unfold bind; rewrite free_held by assumption; now eexists _, _, _|].
  unfold bind at 1. rewrite public_encrypt_held. cbn beta iota. destruct (public_encrypt o _ k pad _) as [bs|] eqn:E.
  - apply public_encrypt_size in E. rewrite (fits_key _ k) by exact E. apply IH. rewrite length_take in Hz. rewrite length_drop. lia.
  - unfold bind. rewrite free_held by assumption. now eexists _, _, _.
Qed.
Lemma decrypt_chunks_tidy h k pad : wf h -> forall fuel rest out n, length rest < fuel ->
  exists ec out' n', decrypt_chunks o fuel (fresh_loc h) pad (key_size_of o k) rest out (held h k n) = Some (ec, out', freed h n').
Proof.
  intros Hh. induction fuel as [|fuel IH]; intros rest out n Hf; [lia|]. cbn [decrypt_chunks].
  rewrite (fits_key _ k) by (rewrite length_take; lia).
  destruct (Nat.ltb_spec (length (take (key_size_of o k) rest)) 1) as [Hz|Hz]; [unfold bind; rewrite free_held by assumption; now eexists _, _, _|].
  unfold bind at 1. rewrite private_decrypt_held. cbn beta iota. destruct (private_decrypt o k pad _) as [bs|] eqn:E.
  - apply private_decrypt_size in E. rewrite (fits_key _ k) by exact E. apply IH. rewrite length_take in Hz. rewrite length_drop. lia.
  - unfold bind. rewrite free_held by assumption. now eexists _, _, _.
Qed.

Lemma stream_valid_defined rest pad k : exists b, is_stream_valid rest pad (key_size_of o k) = Some b.
Proof.
  pose proof (key_size_range k). unfold is_stream_valid. destruct pad; try (now eexists).
  rewrite (proj2 (Nat.eqb_neq _ _)) by lia. now eexists.
Qed.
(** The checks a stream starts with, and what runs behind them. *)
Lemma stream_tidy {A} (m : M A) h k n : wf h -> (exists r n', m (held h k n) = Some (r, freed h n')) ->
  exists r h', m (held h k n) = Some (r, h') /\ objs h' = objs h /\ wf h' /\ True.
Proof. intros Hh (r & n' & E). exists r, (freed h n'). split_and!; auto with hj. Qed.
Lemma checked_tidy {A} (c b : bool) (v : option bool) (bad good : M A) h k n : wf h -> v = Some b ->
  (exists r n', bad (held h k n) = Some (r, freed h n')) -> (exists r n', good (held h k n) = Some (r, freed h n')) ->
  exists r h', bind (if c then ret false else defined v) (fun x => if negb x then bad else good) (held h k n) = Some (r, h')
    /\ objs h' = objs h /\ wf h' /\ True.
Proof.
  intros Hh -> Hb Hg. unfold bind, defined, ret. destruct c; cbn; [|destruct b; cbn]; now apply stream_tidy.
Qed.
Lemma free_ends {A} (a : A) h k n : wf h -> exists r n', bind (RSA_free (fresh_loc h)) (fun _ => ret a) (held h k n) = Some (r, freed h n').
Proof. intros Hh. unfold bind. rewrite free_held by assumption. now eexists _, _. Qed.

Lemma encrypt_stream_tidy out_good in_good rest pem pad h : wf h ->
  tidy (encrypt_stream o out_good in_good rest pem pad) (fun _ => True) h.
Proof.
  intros Hh. unfold encrypt_stream. destruct in_good; cbn [negb]; [|now apply tidy_ret]. destruct out_good; cbn [negb]; [|now apply tidy_ret].
  unfold tidy, bind at 1. rewrite load_public. destruct (public_of o pem) as [k|]; cbn [loaded]; [|now apply tidy_ret].
  unfold bind at 1. rewrite size_held. cbn beta iota. destruct (stream_valid_defined rest pad k) as [b Eb].
  apply (checked_tidy _ b); [exact Hh|exact Eb|now apply free_ends|].
  destruct (max_chunk pad _) as [chunk|] eqn:Ec; [|now apply free_ends].
  destruct (encrypt_chunks_tidy h k pad (Z.to_nat chunk) Hh) with (fuel := S (length rest)) (rest := rest) (out := @nil Z) (n := 0)
    as (ec & out & n' & E); [destruct pad; cbn in Ec; simplify_eq; lia|lia|].
  now exists (ec, out), n'.
Qed.
Lemma decrypt_stream_tidy out_good in_good rest pem pad password password_len h : wf h -> readable pem password password_len ->
  tidy (decrypt_stream o out_good in_good rest pem pad password password_len) (fun _ => True) h.
Proof.
  intros Hh [u Hu]. unfold decrypt_stream. destruct in_good; cbn [negb]; [|now apply tidy_ret]. destruct out_good; cbn [negb]; [|now apply tidy_ret].
  unfold tidy, bind at 1. rewrite (load_private o h pem _ _ u Hu). destruct (private_of o pem u) as [k|]; cbn [loaded]; [|now apply tidy_ret].
  unfold bind at 1. rewrite size_held. cbn beta iota. destruct (stream_valid_defined rest pad k) as [b Eb].
  apply (checked_tidy _ b); [exact Hh|exact Eb|now apply free_ends|].
  destruct (decrypt_chunks_tidy h k pad Hh (S (length rest)) rest [] 0 ltac:(lia)) as (ec & out & n' & E).
  now exists (ec, out), n'.
Qed.
Lemma with_files_tidy writable fs dst src op h :
  (forall out_good in_good rest, tidy (op out_good in_good rest) (fun _ => True) h) ->
  tidy (with_files (Key := Key) writable fs dst src op) (fun r => forall path, path <> dst -> snd r !! path = fs !! path) h.
Proof.
  intros H. unfold with_files. set (good := bool_decide _). set (fs' := if writable dst then _ else _).
  destruct (H (writable dst) good (content_of fs' src)) as ([ec out] & h' & E & Ho & Hw & _).
  unfold tidy, bind, ret. rewrite E. eexists _, h'. split_and!; [reflexivity|assumption..|].
  intros path Hp. cbn. subst fs'. destruct (writable dst); [|reflexivity]. unfold truncate. now rewrite !lookup_insert_ne.
Qed.

(** ** The checks of keys and texts *)

Lemma checks_tidy pem pad password password_len plain_len rest h : wf h -> readable pem password password_len ->
  tidy (is_pubkey_valid o pem pad) (fun _ => True) h /\ tidy (is_prikey_valid o pem pad password password_len) (fun _ => True) h
  /\ tidy (is_plain_valid o plain_len pad pem) (fun _ => True) h /\ tidy (is_plain_valid_stream o rest pad pem) (fun _ => True) h
  /\ tidy (is_cipher_valid_stream o rest pad pem) (fun _ => True) h.
Proof.
  intros Hh [u Hu].
  assert (Hsz : forall k, tidy (bind (defined (is_stream_valid rest pad (key_size_of o k))) (fun b => ret b)) (fun _ => True) (freed h 0)).
  { intros k. destruct (stream_valid_defined rest pad k) as [b Eb]. unfold bind, defined. rewrite Eb. apply tidy_ret; auto with hj. }
  repeat apply conj.
  - unfold is_pubkey_valid, tidy, bind. rewrite load_public. destruct (public_of o pem) as [k|]; cbn [loaded]; [|now apply tidy_ret].
    rewrite free_held by assumption. apply (tidy_ret _ _ (freed h 0)); auto with hj.
  - unfold is_prikey_valid, tidy, bind. rewrite (load_private o h pem _ _ u Hu).
    destruct (private_of o pem u) as [k|]; cbn [loaded]; [|now apply tidy_ret].
    rewrite free_held by assumption. apply (tidy_ret _ _ (freed h 0)); auto with hj.
  - unfold is_plain_valid, tidy, bind. rewrite load_public. destruct (public_of o pem) as [k|]; cbn [loaded]; [|now apply tidy_ret].
    rewrite plain_valid_held. cbn beta iota. rewrite free_held by assumption. apply (tidy_ret _ _ (freed h 0)); auto with hj.
  - unfold is_plain_valid_stream, tidy, bind. rewrite load_public. destruct (public_of o pem) as [k|]; cbn [loaded]; [|now apply tidy_ret].
    rewrite size_held. cbn beta iota. rewrite free_held by assumption. cbn beta iota. destruct (stream_valid_defined rest pad k) as [b Eb].
    unfold defined. rewrite Eb. apply (tidy_ret _ _ (freed h 0)); auto with hj.
  - unfold is_cipher_valid_stream, tidy, bind. rewrite (load_private o h pem None 0 None eq_refl).
    destruct (private_of o pem None) as [k|]; cbn [loaded]; [|now apply tidy_ret].
    rewrite size_held. cbn beta iota. rewrite free_held by assumption. cbn beta iota. destruct (stream_valid_defined rest pad k) as [b Eb].
    unfold defined. rewrite Eb. apply (tidy_ret _ _ (freed h 0)); auto with hj.
Qed.

(** The length of a destination is asked for with a key that stays. *)
Lemma reserve_leaks pem password password_len u h : wf h -> password_arg o (default [] pem) password password_len = Some u ->
  match public_of o pem with
  | Some k => leaks k (encrypt_len_reserve o pem) (fun n => n = key_size_of o k) h
  | None => tidy (encrypt_len_reserve o pem) (fun n => n = 0) h
  end
  /\ match private_of o pem u with
     | Some k => leaks k (decrypt_len_reserve o pem password password_len) (fun n => n = key_size_of o k) h
     | None => tidy (decrypt_len_reserve o pem password password_len) (fun n => n = 0) h
     end.
Proof.
  intros Hh Hu. pose proof (load_public o h pem) as L. pose proof (load_private o h pem _ _ u Hu) as L'.
  unfold encrypt_len_reserve, decrypt_len_reserve, leaks, tidy, bind. split.
  - destruct (public_of o pem) as [k|]; rewrite L; cbn [loaded]; [|now apply tidy_ret]. rewrite size_held.
    eexists _, (held h k 0). split_and!; auto with hj.
  - destruct (private_of o pem u) as [k|]; rewrite L'; cbn [loaded]; [|now apply tidy_ret]. rewrite size_held.
    eexists _, (held h k 0). split_and!; auto with hj.
Qed.

(** ** Generation *)

(** The password has the length given. *)
Definition password_held (mod_ : mode) (password : option (list Z)) (password_len : nat) : Prop :=
  mod_ <> none -> password_len <= length (default [] password).
Lemma enc_arg_defined mod_ password password_len : password_held mod_ password password_len ->
  exists enc, enc_arg mod_ password password_len = Some enc /\ (mod_ = none -> enc = None)
    /\ forall c, enc = Some c -> snd c = take password_len (default [] password).
Proof.
  intros H. unfold enc_arg. destruct (decide (mod_ = none)) as [->|Hm]; [now exists None|].
  rewrite (proj2 (Nat.leb_le _ _)) by (now apply H).
  destruct (select_cipher mod_); eexists; (split; [reflexivity|]); split; (easy || now intros ? [= <-]).
Qed.

(** The text of the private key. *)
Definition prikey_text (format : key_format) (d : nat) (k : Key) (enc : option (cipher * list Z)) : option (list Z) :=
  match format with
  | x509 => let* pkey := EVP_PKEY_set1_RSA o k in PEM_write_bio_PrivateKey o d pkey enc
  | pkcs1_format => PEM_write_bio_RSAPrivateKey o d k enc
  end.
Definition pubkey_text (format : key_format) (k : Key) : option (list Z) :=
  match format with x509 => PEM_write_bio_RSA_PUBKEY o k | pkcs1_format => PEM_write_bio_RSAPublicKey o k end.
Definition texts_of (pub_max pri_max : nat) (format : key_format) (d : nat) (k : Key) (enc : option (cipher * list Z)) : option (list Z * list Z) :=
  if negb (RSA_check_key o k) then None else
  let* pub := pubkey_text format k in let* pri := prikey_text format d k enc in
  if (length pub <? 1) || (pub_max <? length pub) then None else
  if (length pri <? 1) || (pri_max <? length pri) then None else Some (pub, pri).

Lemma key_texts_held pub_max pri_max format mod_ password password_len enc h k n :
  enc_arg mod_ password password_len = Some enc ->
  exists n', key_texts o pub_max pri_max format mod_ password password_len (fresh_loc h) (held h k n)
    = Some (texts_of pub_max pri_max format (draws h + n) k enc, held h k n').
Proof.
  intros He. unfold key_texts, write_pubkey, write_prikey, texts_of, pubkey_text, prikey_text, bind, ret, defined.
  rewrite !get_held. cbn beta iota.
  destruct (RSA_check_key o k); cbn beta iota; cbn [negb]; [|now eexists].
  assert (Hend : forall (pub : list Z) (pri : option (list Z)) n', exists n'', (match pri with
      | None => fun h : heap Key => Some (None, h)
      | Some pri_buf => if (length pub <? 1) || (pub_max <? length pub) then fun h => Some (None, h) else
          if (length pri_buf <? 1) || (pri_max <? length pri_buf) then fun h => Some (None, h) else fun h => Some (Some (pub, pri_buf), h)
      end) (held h k n') = Some ((let* pri := pri in if (length pub <? 1) || (pub_max <? length pub) then None else
          if (length pri <? 1) || (pri_max <? length pri) then None else Some (pub, pri)), held h k n'')).
  { intros pub pri n'. exists n'. destruct pri; [|reflexivity]. now repeat destruct (_ || _). }
  destruct format; rewrite ?get_held; cbn beta iota;
    (match goal with |- context [match ?x with Some _ => _ | None => _ end] => destruct x as [pub|] end; [|now eexists]);
    rewrite get_held; cbn beta iota; rewrite draw_held; cbn beta iota; rewrite ?He.
  - destruct (EVP_PKEY_set1_RSA o k); [|now eexists]. apply Hend.
  - apply Hend.
Qed.

(** A text and a zero behind it. *)
Definition text_in (buf : list Z) (len : nat) (text : list Z) : Prop := take len buf = text /\ buf !! len = Some 0%Z /\ length text = len.
Definition keygen_post (pub : option (list Z)) (pub_len : nat) (pri : option (list Z)) (pri_len : nat)
    (r : error_code * (option (list Z) * nat) * (option (list Z) * nat)) : Prop :=
  let '(ec, (pub', pub_len'), (pri', pri_len')) := r in
  if bool_decide (ec = ok)
  then exists b b' t t', pub' = Some b /\ pri' = Some b' /\ text_in b pub_len' t /\ text_in b' pri_len' t' /\ 0 < pub_len' <= pub_len /\ 0 < pri_len' <= pri_len
  else (pub', pub_len', pri', pri_len') = (pub, pub_len, pri, pri_len).

Lemma copy_text_in buf text n : length text <= n -> n < length buf ->
  exists e, copy_text buf text = Some e /\ length e = length buf /\ text_in e (length text) text.
Proof.
  intros Ht Hn. destruct (write_prefix buf (text ++ [0%Z]) (S n)) as (e & E & El & _ & Et); [rewrite length_app; cbn; lia|lia|].
  exists e. split_and!; [exact E|exact El|]. rewrite length_app in Et. cbn [length] in Et.
  assert (Ha : take (length text) e = text).
  { replace (length text) with (length text `min` (length text + 1)) at 1 by lia. now rewrite <- take_take, Et, take_app_length. }
  repeat split; [exact Ha|]. rewrite <- (lookup_take_lt e (length text + 1)) by lia. rewrite Et. now apply list_lookup_middle.
Qed.

Lemma copy_text_out buf text : length buf <= length text -> copy_text buf text = None.
Proof. intros H. unfold copy_text, write. rewrite length_app. cbn [length]. now rewrite (proj2 (Nat.leb_gt _ _)) by lia. Qed.

(** A text that is as long as the buffer it is copied to: the zero behind it is
    written past the end. *)
Definition filled (pub pri : option (list Z)) (pub_len pri_len : nat) (t t' : list Z) : Prop :=
  length t <= pub_len /\ length t' <= pri_len
  /\ ((exists b, pub = Some b /\ length b <= length t) \/ (exists b, pri = Some b /\ length b <= length t')).

(** How an operation ends: as it should, or undefined for a reason. *)
Definition ends {A} (P : A -> Prop) (why : Prop) h (out : option (A * heap Key)) : Prop :=
  (exists r h', out = Some (r, h') /\ objs h' = objs h /\ wf h' /\ P r) \/ out = None /\ why.
Lemma ends_ret {A} (P : A -> Prop) why h (r : A) : wf h -> P r -> ends P why h (ret r h).
Proof. left. now exists r, h. Qed.

Lemma keygen_ends pub pub_len pri pri_len bits format mod_ password password_len h : wf h -> password_held mod_ password password_len ->
  tidy (keygen o pub pub_len pri pri_len bits format mod_ password password_len) (keygen_post pub pub_len pri pri_len) h
  \/ keygen o pub pub_len pri pri_len bits format mod_ password password_len h = None
     /\ exists t t', filled pub pri pub_len pri_len t t'.
Proof.
  intros Hh Hpw. change (ends (keygen_post pub pub_len pri pri_len) (exists t t', filled pub pri pub_len pri_len t t') h
    (keygen o pub pub_len pri pri_len bits format mod_ password password_len h)). unfold keygen. destruct pub as [b|]; [|now apply ends_ret]. destruct (_ <? 256); [now apply ends_ret|].
  destruct pri as [b'|]; [|now apply ends_ret]. destruct (_ <? 512); [now apply ends_ret|].
  destruct (negb _); [now apply ends_ret|]. destruct (_ && _); [now apply ends_ret|].
  set (h1 := Heap (objs h) (fresh_loc h) (S (draws h))). assert (Hh1 : wf h1) by exact Hh.
  unfold bind at 1. change (draw h) with (Some (draws h, h1)). cbn beta iota.
  destruct (RSA_generate_key_ex o (draws h) bits) as [k|]; [|now left; exists (key_generation_failed, (Some b, pub_len), (Some b', pri_len)), h1].
  destruct (enc_arg_defined _ _ _ Hpw) as (enc & He & _). unfold bind at 1. rewrite alloc_held. cbn beta iota.
  destruct (key_texts_held pub_len pri_len format mod_ password password_len enc h1 k 0 He) as [n E].
  unfold bind at 1. rewrite E. cbn beta iota.
  destruct (texts_of _ _ _ _ _ _) as [[tp tk]|] eqn:Et.
  2: { left. unfold bind at 1, ret at 1. cbn beta iota. unfold bind at 1. rewrite free_held by assumption. cbn beta iota.
       exists (key_generation_failed, (Some b, pub_len), (Some b', pri_len)), (freed h1 n). split_and!; [reflexivity|reflexivity|now apply (freed_wf h1)|reflexivity]. }
  assert (Hlen : 1 <= length tp <= pub_len /\ 1 <= length tk <= pri_len).
  { unfold texts_of in Et. repeat case_match; try discriminate. injection Et as <- <-. reflect_bools. lia. }
  unfold bind, defined, ret. destruct (Nat.lt_ge_cases (length tp) (length b)) as [Hb|Hb].
  2: { right. rewrite copy_text_out by exact Hb. split; [reflexivity|]. exists tp, tk. split_and!; [lia|lia|eauto]. }
  destruct (copy_text_in b tp (length tp)) as (e & -> & _ & He1); [lia|exact Hb|]. destruct (Nat.lt_ge_cases (length tk) (length b')) as [Hb'|Hb'].
  2: { right. rewrite (copy_text_out b') by exact Hb'. split; [reflexivity|]. exists tp, tk. split_and!; [lia|lia|eauto]. }
  destruct (copy_text_in b' tk (length tk)) as (e' & -> & _ & He2); [lia|exact Hb'|].
  left. rewrite free_held by assumption. cbn beta iota.
  eexists _, (freed h1 n). split_and!; [reflexivity|reflexivity|now apply (freed_wf h1)|].
  exists e, e', tp, tk. split_and!; try reflexivity; try assumption; lia.
Qed.

(** ** Strings *)

(** How the functions on strings end. *)
Lemma string_end (m : M (error_code * option (list Z) * nat)) d h : (Z.of_nat (length d) < 2 ^ 63)%Z ->
  tidy m (buffer_post (Some d) (length d)) h ->
  tidy (bind m (fun r => let '(ec, d, len) := r in
    if bool_decide (ec = ok) then bind (defined (resize (default [] d) (Z.of_nat len))) (fun s => ret (ok, s)) else ret (ec, []))) (fun _ => True) h.
Proof.
  intros Hd ([[ec d'] len'] & h' & E & Ho & Hw & HP). unfold tidy, bind at 1. rewrite E. cbn beta iota.
  destruct d' as [d'|]; [|easy]. destruct HP as [(Hl & _ & Hn & _) _]. case_bool_decide; [|now eexists _, h'].
  unfold bind, defined, ret, resize. cbn [default from_option id]. rewrite (proj2 (Z.ltb_lt _ _)) by lia. now eexists _, h'.
Qed.

Lemma held_objs_leak {A} (m : M A) (P : A -> Prop) k h : tidy m P (held h k 0) -> exists r h', m (held h k 0) = Some (r, h') /\ objs h' = <[fresh_loc h := k]> (objs h) /\ wf h' /\ P r.
Proof. intros (r & h' & E & Ho & Hw & HP). exists r, h'. now split_and!. Qed.

Lemma resize_defined (s : list Z) n : n <= RSA_MAX_KEY_LENGTH -> exists d, resize s (Z.of_nat n) = Some d /\ (Z.of_nat (length d) < 2 ^ 63)%Z.
Proof.
  intros Hn. assert (Z.of_nat n <= 4096)%Z by (unfold RSA_MAX_KEY_LENGTH in Hn; lia). unfold resize. rewrite (proj2 (Z.ltb_lt _ _)) by lia.
  eexists. split; [reflexivity|]. rewrite length_app, length_take, length_replicate. lia.
Qed.

(** The key of the length that is asked for stays. *)
Definition string_outcome {A} (k : option Key) (m : M A) h : Prop :=
  match k with Some k => leaks k m (fun _ => True) h | None => tidy m (fun _ => True) h end.
Lemma reserved {A} (k : option Key) (res : M nat) (f : list Z -> M A) (s : list Z) h : wf h ->
  match k with Some k => res h = Some (key_size_of o k, held h k 0) | None => res h = Some (0, h) end ->
  (forall d h', wf h' -> (Z.of_nat (length d) < 2 ^ 63)%Z -> tidy (f d) (fun _ => True) h') ->
  string_outcome k (bind res (fun n => bind (defined (resize s (Z.of_nat n))) f)) h.
Proof.
  intros Hh E Hf. unfold string_outcome. destruct k as [k|]; unfold leaks, tidy, bind at 1; rewrite E; cbn beta iota; unfold bind, defined.
  - destruct (resize_defined s (key_size_of o k)) as (d & -> & Hd); [apply key_size_range|]. apply (held_objs_leak (f d)). apply Hf; auto with hj.
  - destruct (resize_defined s 0) as (d & -> & Hd); [lia|]. now apply Hf.
Qed.
Lemma encrypt_string_outcome dst src pem pad h : wf h -> string_outcome (public_of o (Some pem)) (encrypt_string o dst src pem pad) h.
Proof.
  intros Hh. apply reserved; [exact Hh| |].
  - unfold encrypt_len_reserve, bind. rewrite load_public. destruct (public_of o (Some pem)); cbn [loaded]; [apply size_held|reflexivity].
  - intros d h' Hh' Hd. apply (string_end _ d); [exact Hd|]. apply encrypt_tidy; [exact Hh'|apply Nat.le_refl].
Qed.
Lemma decrypt_string_outcome dst src pem pad password h : wf h ->
  readable (Some pem) (password_ptr password) (length password) ->
  string_outcome (private_of o (Some pem) None) (decrypt_string o dst src pem pad password) h.
Proof.
  intros Hh Hp. apply reserved; [exact Hh| |].
  - unfold decrypt_len_reserve, bind. rewrite (load_private o h (Some pem) None 0 None eq_refl).
    destruct (private_of o (Some pem) None); cbn [loaded]; [apply size_held|reflexivity].
  - intros d h' Hh' Hd. apply (string_end _ d); [exact Hd|]. apply decrypt_tidy; [exact Hh'|apply Nat.le_refl|exact Hp].
Qed.
End Memory.

(** ** Round trips *)

(** [paired k k'] : the public key [k] and the private key [k'] belong together.
    What PKCS 1 and OAEP leave for a message is accepted; a block that is
    accepted is as long as the key and is decrypted; a text of a key is longer
    than the key. *)
Class RsaLaws {Key PKey : Type} (o : rsa_ops Key PKey) (paired : Key -> Key -> Prop) : Prop :=
  { law_sizes :: RsaSizes o;
    law_least k : 64 <= key_size_of o k;
    law_pair_size k k' : paired k k' -> key_size_of o k' = key_size_of o k;
    law_pkcs1 d k k' m : paired k k' -> length m + 11 <= key_size_of o k -> is_Some (public_encrypt o d k pkcs1 m);
    law_oaep d k k' m : paired k k' -> length m + 42 <= key_size_of o k -> is_Some (public_encrypt o d k pkcs1_oaep m);
    law_decrypt d k k' pad m c : paired k k' -> public_encrypt o d k pad m = Some c ->
      length c = key_size_of o k /\ private_decrypt o k' pad c = Some m;
    law_sign k k' m : paired k k' -> length m + 11 <= key_size_of o k ->
      exists c, private_encrypt o k' pkcs1 m = Some c /\ length c = key_size_of o k /\ public_decrypt o k pkcs1 c = Some m;
    law_public_text p k : public_of o (Some p) = Some k -> key_size_of o k <= length p;
    law_private_text p u k : private_of o (Some p) u = Some k -> key_size_of o k <= length p }.

Section RoundTrip.
Context {Key PKey : Type} (o : rsa_ops Key PKey) (paired : Key -> Key -> Prop) `{!RsaLaws o paired}.
Implicit Types h : heap Key.

(** The messages of one block. *)
Definition plain (pad : padding) (k : Key) (m : list Z) : Prop :=
  match pad with
  | pkcs1 => length m + 11 <= key_size_of o k
  | pkcs1_oaep => length m + 42 <= key_size_of o k
  | no_padding => length m = key_size_of o k /\ forall d, is_Some (public_encrypt o d k no_padding m)
  | x931 | pkcs1_pss => False
  end.
(** The messages of streams: without padding, whole blocks. *)
Definition stream_plain (pad : padding) (k : Key) (m : list Z) : Prop :=
  match pad with
  | pkcs1 | pkcs1_oaep => m <> []
  | no_padding => length m mod key_size_of o k = 0
      /\ forall i, i * key_size_of o k < length m -> plain no_padding k (take (key_size_of o k) (drop (i * key_size_of o k) m))
  | x931 | pkcs1_pss => False
  end.

Lemma block_roundtrip d k k' pad m : paired k k' -> plain pad k m ->
  exists c, public_encrypt o d k pad m = Some c /\ length c = key_size_of o k /\ private_decrypt o k' pad c = Some m.
Proof using RsaLaws0.
  intros Hk Hm. assert (is_Some (public_encrypt o d k pad m)) as [c E].
  { destruct pad; cbn in Hm; [eapply law_pkcs1; eauto|apply Hm|eapply law_oaep; eauto|easy|easy]. }
  exists c. split; [exact E|]. now apply (law_decrypt d).
Qed.
Lemma plain_size pad k m : plain pad k m -> is_plain_valid_size (length m) pad (key_size_of o k) = true.
Proof using RsaLaws0.
  pose proof (law_least k). pose proof (key_size_range k) as Hr. unfold RSA_MAX_KEY_LENGTH in Hr. intros Hm.
  assert (Z.of_nat (key_size_of o k) <= 4096)%Z by lia.
  unfold is_plain_valid_size. rewrite (proj2 (Nat.eqb_neq _ _)) by lia.
  destruct pad; cbn in Hm; try easy; [|now apply Nat.eqb_eq|]; rewrite wrap_small by (unfold uint; lia); apply negb_true_iff, Z.ltb_ge; lia.
Qed.

(** The size of the pieces of a stream. *)
Definition piece (pad : padding) (size : nat) : nat := match max_chunk pad size with Some c => Z.to_nat c | None => 0 end.
Definition pieces_plain (pad : padding) (k : Key) (m : list Z) : Prop :=
  forall i, i * piece pad (key_size_of o k) < length m ->
    plain pad k (take (piece pad (key_size_of o k)) (drop (i * piece pad (key_size_of o k)) m)).
Lemma stream_pieces pad k m : stream_plain pad k m -> pieces_plain pad k m.
Proof using RsaLaws0.
  pose proof (law_least k). unfold pieces_plain, piece. destruct pad; cbn; intros Hm i Hi; try easy.
  - rewrite length_take, length_drop. lia.
  - rewrite Nat2Z.id in *. now apply Hm.
  - rewrite length_take, length_drop. lia.
Qed.
Lemma piece_range pad k m : plain pad k m -> 0 < piece pad (key_size_of o k) <= key_size_of o k.
Proof using RsaLaws0. pose proof (law_least k). unfold piece. destruct pad; cbn; try easy; lia. Qed.

Lemma chunks_roundtrip h h' k k' pad (Hk : paired k k') (Hh : wf h) (Hh' : wf h') : forall fuel rest out n,
  length rest < fuel -> pieces_plain pad k rest ->
  exists c n' q, encrypt_chunks o fuel (fresh_loc h) pad (key_size_of o k) (piece pad (key_size_of o k)) rest out (held h k n)
      = Some (ok, out ++ c, freed h n')
    /\ length c = q * key_size_of o k /\ (rest <> [] -> 0 < q)
    /\ forall fuel' out', length c < fuel' ->
       decrypt_chunks o fuel' (fresh_loc h') pad (key_size_of o k) c out' (held h' k' 0) = Some (ok, out' ++ rest, freed h' 0).
Proof using RsaLaws0.
  set (size := key_size_of o k). set (p := piece pad size).
  assert (Hs : key_size_of o k' = size) by (now apply law_pair_size). pose proof (law_least k) as Hl. fold size in Hl.
  induction fuel as [|fuel IH]; intros rest out n Hf Hp; [lia|]. cbn [encrypt_chunks].
  destruct rest as [|b rest'].
  - exists [], n, 0. rewrite take_nil. cbn [length Nat.ltb Nat.leb]. unfold bind at 1, fits. cbn [length Nat.leb]. unfold ret at 1.
    unfold bind. rewrite free_held by assumption. rewrite app_nil_r. split_and!; [reflexivity|lia|easy|].
    intros [|fuel'] out' Hf'; [easy|]. cbn [decrypt_chunks]. rewrite take_nil. cbn. unfold bind, fits, ret. cbn. rewrite free_held by assumption.
    now rewrite app_nil_r.
  - set (rest := b :: rest') in *. assert (H0 := Hp 0). fold size p in H0. rewrite Nat.mul_0_l, drop_0 in H0. specialize (H0 ltac:(cbn; lia)).
    pose proof (piece_range _ _ _ H0) as Hpr. fold size p in Hpr.
    rewrite (fits_key o _ k) by (rewrite length_take; fold size; lia).
    rewrite (proj2 (Nat.ltb_ge _ _)) by (rewrite length_take; cbn [length rest]; lia).
    replace (bool_decide (pad = no_padding) && negb (length (take p rest) =? size)) with false.
    2: { case_bool_decide as Hpad; [subst pad|reflexivity]. symmetry. apply negb_false_iff, Nat.eqb_eq. apply H0. }
    unfold bind at 1. rewrite public_encrypt_held. cbn beta iota.
    destruct (block_roundtrip (draws h + n) k k' pad (take p rest) Hk H0) as (c & -> & Hc & Hd). fold size in Hc.
    rewrite (fits_key o _ k) by (fold size; lia).
    destruct (IH (drop p rest) (out ++ c) (S n)) as (c' & n' & q & E & Hc' & _ & Hdec).
    { rewrite length_drop. cbn [length rest] in *. lia. }
    { intros i Hi. rewrite drop_drop. fold size p. fold size p in Hi. rewrite length_drop in Hi.
      replace (p + i * p) with (S i * p) by lia. apply Hp. fold size p. lia. }
    exists (c ++ c'), n', (S q). rewrite E, <- app_assoc. split_and!; [reflexivity|rewrite length_app; lia|lia|].
    intros [|fuel'] out' Hf'; [easy|]. rewrite length_app in Hf'. cbn [decrypt_chunks].
    rewrite take_app_length' by lia. rewrite (fits_key o _ k) by (fold size; lia).
    rewrite (proj2 (Nat.ltb_ge _ _)) by lia. unfold bind at 1. rewrite private_decrypt_held. cbn beta iota. rewrite Hd.
    rewrite (fits_key o _ k) by (rewrite length_take; fold size; lia).
    rewrite drop_app_length' by lia. rewrite Hdec by lia. now rewrite <- app_assoc, take_drop.
Qed.

Section Pair.
Context (pub pri : list Z) (password : option (list Z)) (password_len : nat) (u : option (list Z)) (k k' : Key)
  (Hpub : public_of o (Some pub) = Some k) (Hu : password_arg o pri password password_len = Some u)
  (Hpri : private_of o (Some pri) u = Some k') (Hk : paired k k').

Lemma load_pub h : load_public_key o (Some pub) h = Some (Some (fresh_loc h), held h k 0).
Proof using Hpub. now rewrite load_public, Hpub. Qed.
Lemma load_pri h : load_private_key o (Some pri) password password_len h = Some (Some (fresh_loc h), held h k' 0).
Proof using Hu Hpri. now rewrite (load_private o h (Some pri) _ _ u Hu), Hpri. Qed.

Lemma stream_roundtrip pad m h h' : wf h -> wf h' -> stream_plain pad k m ->
  exists c n, encrypt_stream o true true m (Some pub) pad h = Some (ok, c, freed h n)
    /\ decrypt_stream o true true c (Some pri) pad password password_len h' = Some (ok, m, freed h' 0).
Proof using All.
  intros Hh Hh' Hm. pose proof (law_least k) as Hl. pose proof (law_pair_size k k' Hk) as Hs.
  destruct (chunks_roundtrip h h' k k' pad Hk Hh Hh' (S (length m)) m [] 0 ltac:(lia) (stream_pieces pad k m Hm)) as (c & n & q & E & Hc & Hq & Hd).
  exists c, n. cbn [app] in E. specialize (Hd (S (length c)) [] ltac:(lia)). cbn [app] in Hd.
  assert (Hv : is_stream_valid m pad (key_size_of o k) = Some true).
  { unfold is_stream_valid. rewrite (proj2 (Nat.eqb_neq _ _)) by lia. destruct pad; cbn in Hm; try easy.
    - destruct m; [easy|reflexivity].
    - destruct Hm as [-> _]. reflexivity.
    - destruct m; [easy|reflexivity]. }
  assert (Hv' : is_stream_valid c pad (key_size_of o k) = Some true).
  { assert (0 < q -> 0 < length c) by nia.
    unfold is_stream_valid. rewrite (proj2 (Nat.eqb_neq _ _)) by lia. destruct pad; cbn in Hm; try easy.
    - now rewrite (proj2 (Nat.ltb_lt _ _)) by auto.
    - now rewrite Hc, Nat.Div0.mod_mul.
    - now rewrite (proj2 (Nat.ltb_lt _ _)) by auto. }
  unfold encrypt_stream, decrypt_stream. cbn [negb]. split.
  - unfold bind at 1. rewrite load_pub. cbn beta iota. unfold bind at 1. rewrite size_held. cbn beta iota. cbn [default from_option id].
    pose proof (law_public_text pub k Hpub). rewrite (proj2 (Nat.ltb_ge _ _)) by lia. unfold bind at 1, defined. rewrite Hv. cbn [negb].
    unfold piece in E. destruct (max_chunk pad (key_size_of o k)) as [ch|] eqn:Ec; [exact E|now destruct pad].
  - unfold bind at 1. rewrite load_pri. cbn beta iota. unfold bind at 1. rewrite size_held. cbn beta iota. cbn [default from_option id].
    pose proof (law_private_text pri u k' Hpri). rewrite (proj2 (Nat.ltb_ge _ _)) by lia. rewrite Hs. unfold bind at 1, defined. rewrite Hv'. cbn [negb].
    exact Hd.
Qed.

Lemma buffer_roundtrip pad m d n d' n' h h' : wf h -> wf h' -> plain pad k m ->
  key_size_of o k <= n <= length d -> key_size_of o k <= n' <= length d' ->
  exists c e a e', encrypt o (Some d) n (Some m) (Some pub) pad h = Some (ok, Some e, key_size_of o k, freed h a)
    /\ take (key_size_of o k) e = c /\ length c = key_size_of o k
    /\ decrypt o (Some d') n' (Some c) (Some pri) pad password password_len h' = Some (ok, Some e', length m, freed h' 0)
    /\ take (length m) e' = m.
Proof using All.
  intros Hh Hh' Hm Hd Hd'. pose proof (law_least k) as Hl. pose proof (law_pair_size k k' Hk) as Hs.
  pose proof (law_public_text pub k Hpub). pose proof (law_private_text pri u k' Hpri).
  destruct (block_roundtrip (draws h + 0) k k' pad m Hk Hm) as (c & E & Hc & Ed).
  pose proof (private_decrypt_size _ _ _ _ Ed) as Hml.
  destruct (write_prefix d c n) as (e & Ew & _ & _ & Et); [lia|lia|]. destruct (write_prefix d' m n') as (e' & Ew' & _ & _ & Et'); [lia|lia|].
  exists c, e, 1, e'. rewrite Hc in Et. split_and!; [|exact Et|exact Hc| |exact Et'].
  - pose proof load_pub as Lp. unfold encrypt. destruct pub as [|b p]; [cbn in *; lia|]. unfold bind at 1. rewrite Lp. cbn beta iota. unfold bind at 1 2.
    rewrite plain_valid_held. cbn beta iota. rewrite plain_size by exact Hm. cbn [negb]. unfold bind at 1. rewrite size_held. cbn beta iota.
    rewrite (proj2 (Nat.ltb_ge _ _)) by lia. rewrite public_encrypt_held, E. unfold bind, defined, ret. rewrite free_held by assumption.
    cbn beta iota. now rewrite Ew, Hc.
  - pose proof load_pri as Lp. unfold decrypt. rewrite (proj2 (Nat.eqb_neq _ _)) by lia. destruct c as [|c0 c]; [cbn in *; lia|].
    destruct pri as [|b p]; [cbn in *; lia|]. unfold bind at 1. rewrite Lp. cbn beta iota. unfold bind at 1 2.
    rewrite size_held. cbn beta iota. rewrite (proj2 (Nat.ltb_ge _ _)) by lia. rewrite private_decrypt_held, Ed.
    unfold bind, defined, ret. rewrite free_held by assumption. cbn beta iota. now rewrite Ew'.
Qed.

Lemma file_roundtrip pad m writable (fs : files) src dst back h h' : wf h -> wf h' -> stream_plain pad k m ->
  fs !! src = Some m -> writable dst = true -> writable back = true -> dst <> src -> back <> dst ->
  exists fs1 fs2 n, encrypt_file o writable fs dst src (Some pub) pad h = Some (ok, fs1, freed h n)
    /\ decrypt_file o writable fs1 back dst (Some pri) pad password password_len h' = Some (ok, fs2, freed h' 0) /\ fs2 !! back = Some m.
Proof using All.
  intros Hh Hh' Hm Hsrc Hw Hw' Hne Hne'. destruct (stream_roundtrip pad m h h' Hh Hh' Hm) as (c & n & E & Ed).
  unfold encrypt_file, decrypt_file, with_files. rewrite Hw, Hw'.
  exists (<[dst:=c]> (truncate fs dst)), (<[back:=m]> (truncate (<[dst:=c]> (truncate fs dst)) back)), n.
  rewrite bool_decide_true by (now rewrite Hsrc). rewrite bool_decide_true by (now rewrite lookup_insert_eq).
  unfold bind, ret. rewrite (content_truncated fs dst src m Hsrc), decide_False by done. rewrite E.
  rewrite (content_truncated _ back dst c) by (now rewrite lookup_insert_eq). rewrite decide_False by done. rewrite Ed.
  split_and!; [reflexivity..|]. now rewrite lookup_insert_eq.
Qed.

Lemma signature_roundtrip m d n d' n' h h' : wf h -> wf h' -> length m + 11 <= key_size_of o k ->
  key_size_of o k <= n <= length d -> key_size_of o k <= n' <= length d' ->
  exists e e', signature o d n m (Some pri) pkcs1 password password_len h = Some (ok, e, key_size_of o k, freed h 0)
    /\ verify_signature o d' n' (take (key_size_of o k) e) (Some pub) pkcs1 h' = Some (ok, e', length m, freed h' 0)
    /\ take (length m) e' = m.
Proof using All.
  intros Hh Hh' Hm Hd Hd'. pose proof (law_pair_size k k' Hk) as Hs.
  destruct (law_sign k k' m Hk Hm) as (c & E & Hc & Ev).
  destruct (write_prefix d c n) as (e & Ew & _ & _ & Et); [lia|lia|]. destruct (write_prefix d' m n') as (e' & Ew' & _ & _ & Et'); [lia|lia|].
  exists e, e'. rewrite Hc in Et. split_and!; [| |exact Et'].
  - unfold signature, bind at 1. rewrite load_pri. cbn beta iota. unfold bind at 1. rewrite size_held. cbn beta iota.
    rewrite Hs, (proj2 (Nat.ltb_ge _ _)) by lia. unfold bind at 1. rewrite private_encrypt_held, E. unfold bind, defined, ret.
    rewrite free_held by assumption. cbn beta iota. now rewrite Ew, Hc.
  - rewrite Et. unfold verify_signature, bind at 1. rewrite load_pub. cbn beta iota. unfold bind at 1. rewrite size_held. cbn beta iota.
    rewrite (proj2 (Nat.ltb_ge _ _)) by lia. unfold bind at 1. rewrite public_decrypt_held, Ev. unfold bind, defined, ret.
    rewrite free_held by assumption. cbn beta iota. now rewrite Ew'.
Qed.
End Pair.

(** ** Strings *)

Lemma password_unread pri password password_len : PEM_encrypted o pri = false -> password_arg o pri password password_len = Some None.
Proof. intros E. unfold password_arg. destruct password; [|reflexivity]. now rewrite E, andb_false_r. Qed.

Lemma string_roundtrip pub pri k k' pad m password old old' h h' : public_of o (Some pub) = Some k -> private_of o (Some pri) None = Some k' ->
  PEM_encrypted o pri = false -> paired k k' -> wf h -> wf h' -> plain pad k m ->
  exists c h1 h2, encrypt_string o old m pub pad h = Some (ok, c, h1) /\ decrypt_string o old' c pri pad password h' = Some (ok, m, h2).
Proof using RsaLaws0.
  intros Hpub Hpri Hplain Hk Hh Hh' Hm. pose proof (law_pair_size k k' Hk) as Hs. pose proof (key_size_range k) as Hr.
  pose proof (password_unread pri (password_ptr password) (length password) Hplain) as Hu.
  assert (Hz : (Z.of_nat (key_size_of o k) <= 4096)%Z) by (unfold RSA_MAX_KEY_LENGTH in Hr; lia).
  assert (Hdst : forall s, exists d, resize s (Z.of_nat (key_size_of o k)) = Some d /\ length d = key_size_of o k).
  { intros s. unfold resize. rewrite (proj2 (Z.ltb_lt _ _)) by lia. eexists. split; [reflexivity|].
    rewrite length_app, length_take, length_replicate. lia. }
  destruct (Hdst old) as (d & Ed & Hd). destruct (Hdst old') as (d' & Ed' & Hd').
  destruct (buffer_roundtrip pub pri (password_ptr password) (length password) None k k' Hpub Hu Hpri Hk pad m d (length d) d' (length d')
      (held h k 0) (held h' k' 0)) as (c & e & a & e' & E & Ec & Hc & E' & Em); [now apply held_wf|now apply held_wf|exact Hm|lia|lia|].
  assert (Hml : length m <= key_size_of o k).
  { destruct (block_roundtrip 0 k k' pad m Hk Hm) as (c0 & _ & _ & Hc0). apply private_decrypt_size in Hc0. lia. }
  assert (Hel : key_size_of o k <= length e /\ length m <= length e').
  { rewrite <- Hc, <- Ec, <- Em, !length_take. lia. }
  exists c, (freed (held h k 0) a), (freed (held h' k' 0) 0). unfold encrypt_string, decrypt_string, encrypt_len_reserve, decrypt_len_reserve. split.
  - unfold bind at 1 2. rewrite load_public, Hpub. cbn [loaded]. rewrite size_held. cbn beta iota. unfold bind at 1, defined at 1. rewrite Ed.
    unfold bind at 1. rewrite E. cbn beta iota. rewrite bool_decide_true by reflexivity. unfold bind, defined, ret. cbn [default from_option id].
    rewrite resize_take by lia. now rewrite Ec.
  - unfold bind at 1 2. rewrite (load_private o h' (Some pri) None 0 None eq_refl), Hpri. cbn [loaded]. rewrite size_held. cbn beta iota.
    rewrite Hs. unfold bind at 1, defined at 1. rewrite Ed'. unfold bind at 1. rewrite E'. cbn beta iota.
    rewrite bool_decide_true by reflexivity. unfold bind, defined, ret. cbn [default from_option id]. rewrite resize_take by lia. now rewrite Em.
Qed.

(** A key that is kept under a password: its length is asked for without it. *)
Lemma string_protected pri c pad password old h : private_of o (Some pri) None = None ->
  decrypt_string o old c pri pad password h = Some (invalid_output, [], h).
Proof.
  intros Hpri. unfold decrypt_string, decrypt_len_reserve, bind at 1 2. rewrite (load_private o h (Some pri) None 0 None eq_refl), Hpri. cbn [loaded].
  unfold ret at 1. cbn beta iota. unfold bind at 1, defined, resize. rewrite (proj2 (Z.ltb_lt _ _)) by lia. cbn [Z.of_nat Z.to_nat replicate Nat.sub take app].
  rewrite take_0. cbn [app length]. unfold decrypt. cbn [Nat.eqb]. reflexivity.
Qed.
End RoundTrip.

(** ** Generated pairs *)

(** The public part of a key, and texts that are read back.  A password is read
    up to its first zero and up to 1024 bytes. *)
Class PemLaws {Key PKey : Type} (o : rsa_ops Key PKey) (paired : Key -> Key -> Prop) (public_part : Key -> Key) : Prop :=
  { law_part k : RSA_check_key o k = true -> paired (public_part k) k;
    law_x509 k t : PEM_write_bio_RSA_PUBKEY o k = Some t -> PEM_read_bio_RSA_PUBKEY o t = Some (public_part k);
    law_pkcs1_text k t : PEM_write_bio_RSAPublicKey o k = Some t ->
      PEM_read_bio_RSA_PUBKEY o t = None /\ PEM_read_bio_RSAPublicKey o t = Some (public_part k);
    law_prikey format d k enc t : prikey_text o format d k enc = Some t ->
      PEM_encrypted o t = (match enc with Some _ => true | None => false end)
      /\ forall u, match enc with Some (_, p) => u = Some p /\ length p <= 1024 | None => True end -> PEM_read_bio_RSAPrivateKey o t u = Some k }.

Lemma c_str_terminated p : Forall (fun b => b <> 0%Z) p -> c_str (p ++ [0%Z]) = Some p.
Proof.
  induction 1 as [|b p Hb _ IH]; [reflexivity|]. cbn [c_str app]. now rewrite (proj2 (Z.eqb_neq _ _)), IH.
Qed.

Section Keygen.
Context {Key PKey : Type} (o : rsa_ops Key PKey) (paired : Key -> Key -> Prop) (public_part : Key -> Key) `{!RsaSizes o} `{!PemLaws o paired public_part}.
Implicit Types h : heap Key.

(** What [keygen] gives on strings. *)
Definition keygen_result (bits : nat) (format : key_format) (mod_ : mode) (password : list Z) h : error_code * list Z * list Z :=
  if negb (is_key_pair_bits_valid bits) then (invalid_key_bits, [], []) else
  if bool_decide (mod_ <> none) && negb (validate_password_for_cipher mod_ (length password)) then (mode_and_password_mismatch, [], []) else
  let texts := let* k := RSA_generate_key_ex o (draws h) bits in
    texts_of o RSA_MAX_KEY_LENGTH RSA_MAX_KEY_LENGTH format (S (draws h)) k
      ((fun c => (c, password)) <$> select_cipher mod_) in
  match texts with Some (tp, tk) => (ok, tp, tk) | None => (key_generation_failed, [], []) end.

Lemma resize_max s : exists d, resize s (Z.of_nat RSA_MAX_KEY_LENGTH) = Some d /\ length d = RSA_MAX_KEY_LENGTH.
Proof.
  unfold resize. replace (Z.of_nat RSA_MAX_KEY_LENGTH <? 2 ^ 63)%Z with true by reflexivity. eexists. split; [reflexivity|].
  rewrite length_app, length_take, length_replicate, Nat2Z.id. lia.
Qed.
Lemma texts_range pub_max pri_max format d k enc tp tk : texts_of o pub_max pri_max format d k enc = Some (tp, tk) ->
  1 <= length tp <= pub_max /\ 1 <= length tk <= pri_max.
Proof. unfold texts_of. intros Et. repeat case_match; try discriminate. injection Et as <- <-. reflect_bools. lia. Qed.
Lemma enc_arg_string mod_ password : enc_arg mod_ (Some (password ++ [0%Z])) (length password) = Some ((fun c => (c, password)) <$> select_cipher mod_).
Proof.
  unfold enc_arg. destruct (select_cipher mod_); [|reflexivity]. cbn [default from_option id].
  rewrite (proj2 (Nat.leb_le _ _)) by (rewrite length_app; lia). now rewrite take_app_length.
Qed.
(** The string cut out of its memory. *)
Lemma text_out e n text : text_in e (length text) text -> length text <= n -> n < length e -> (Z.of_nat n < 2 ^ 63)%Z ->
  resize (take n e) (Z.of_nat (length text)) = Some text.
Proof.
  intros (Et & _ & _) Hn He Hz. rewrite resize_take by (rewrite ?length_take; lia). rewrite take_take, Nat.min_l by exact Hn. now rewrite Et.
Qed.

Lemma keygen_string_result old old' bits format mod_ password h : wf h ->
  exists h', keygen_string o old old' bits format mod_ password h = Some (keygen_result bits format mod_ password h, h') /\ objs h' = objs h.
Proof using RsaSizes0.
  intros Hh. destruct (resize_max old) as (d & Ed & Hd). destruct (resize_max old') as (d' & Ed' & Hd').
  unfold keygen_string, keygen_result. unfold bind at 1, defined at 1. rewrite Ed. unfold bind at 1, defined at 1. rewrite Ed'.
  unfold bind at 1, keygen. rewrite Hd, Hd'. change (RSA_MAX_KEY_LENGTH <? 256) with false. change (RSA_MAX_KEY_LENGTH <? 512) with false. cbn iota.
  destruct (negb (is_key_pair_bits_valid bits)); [exists h; split; reflexivity|]. rewrite (bool_decide_false (Some _ = None)) by done. cbn [orb].
  destruct (_ && _); [exists h; split; reflexivity|].
  set (h1 := Heap (objs h) (fresh_loc h) (S (draws h))). assert (Hh1 : wf h1) by exact Hh.
  unfold bind at 1. change (draw h) with (Some (draws h, h1)). cbn beta iota.
  destruct (RSA_generate_key_ex o (draws h) bits) as [k|]; [|exists h1; split; reflexivity].
  unfold bind at 1. rewrite alloc_held. cbn beta iota.
  destruct (key_texts_held o RSA_MAX_KEY_LENGTH RSA_MAX_KEY_LENGTH format mod_ _ (length password) _ h1 k 0 (enc_arg_string mod_ password)) as [n E].
  unfold bind at 1. rewrite E. cbn beta iota.
  set (T := texts_of o RSA_MAX_KEY_LENGTH RSA_MAX_KEY_LENGTH format (S (draws h)) k _).
  assert (ET : texts_of o RSA_MAX_KEY_LENGTH RSA_MAX_KEY_LENGTH format (draws h1 + 0) k ((fun c => (c, password)) <$> select_cipher mod_) = T).
  { subst T. f_equal. cbn. lia. }
  rewrite ET. destruct T as [[tp tk]|] eqn:Et; subst T.
  2: { unfold bind, defined, ret. cbn beta iota. rewrite free_held by assumption. cbn beta iota. exists (freed h1 n); split; reflexivity. }
  apply texts_range in Et as [Hp Hk].
  destruct (copy_text_in (d ++ [0%Z]) tp RSA_MAX_KEY_LENGTH) as (e & Ee & Hle & He1); [lia|rewrite length_app; cbn [length]; lia|].
  destruct (copy_text_in (d' ++ [0%Z]) tk RSA_MAX_KEY_LENGTH) as (e' & Ee' & Hle' & He2); [lia|rewrite length_app; cbn [length]; lia|].
  unfold bind, defined, ret. rewrite Ee, Ee'. cbn beta iota. rewrite free_held by assumption. cbn beta iota. rewrite bool_decide_true by reflexivity.
  rewrite length_app, Hd in Hle. rewrite length_app, Hd' in Hle'. cbn [length] in Hle, Hle'.
  cbn [default from_option id].
  rewrite (text_out e RSA_MAX_KEY_LENGTH tp He1) by (first [exact (proj2 Hp)|reflexivity|lia]).
  rewrite (text_out e' RSA_MAX_KEY_LENGTH tk He2) by (first [exact (proj2 Hk)|reflexivity|lia]).
  exists (freed h1 n); split; reflexivity.
Qed.

(** The texts of a key are loaded as its parts. *)
Lemma select_none mod_ : select_cipher mod_ = None <-> mod_ = none.
Proof. now destruct mod_. Qed.
Lemma generated_loads pub_max pri_max format d k mod_ password tp tk :
  texts_of o pub_max pri_max format d k ((fun c => (c, password)) <$> select_cipher mod_) = Some (tp, tk) ->
  (mod_ <> none -> Forall (fun b => b <> 0%Z) password /\ length password <= 1024) ->
  (mod_ <> none -> validate_password_for_cipher mod_ (length password) = true) ->
  paired (public_part k) k /\ public_of o (Some tp) = Some (public_part k)
  /\ exists u, password_arg o tk (password_ptr password) (length password) = Some u /\ private_of o (Some tk) u = Some k
     /\ PEM_encrypted o tk = negb (bool_decide (mod_ = none)).
Proof using PemLaws0.
  intros Et Hpw Hv. destruct (texts_range _ _ _ _ _ _ _ _ Et) as [Htp Htk].
  unfold texts_of in Et. destruct (RSA_check_key o k) eqn:Ec; cbn [negb] in Et; [|discriminate].
  destruct (pubkey_text o format k) as [tp'|] eqn:Ep; [|discriminate]. destruct (prikey_text o format d k _) as [tk'|] eqn:Ek; [|discriminate].
  repeat case_match; try discriminate. injection Et as -> ->. split; [now apply law_part|]. split.
  { unfold public_of. destruct tp as [|b tp]; [cbn in *; lia|]. destruct format; cbn in Ep.
    - now rewrite (law_x509 k _ Ep).
    - destruct (law_pkcs1_text k _ Ep) as [-> ->]. reflexivity. }
  destruct (law_prikey format d k _ tk Ek) as [He Hr]. destruct tk as [|b tk]; [cbn in *; lia|].
  destruct (decide (mod_ = none)) as [Hm|Hm].
  - subst mod_. cbn in He, Hr. exists None. rewrite bool_decide_true by done. cbn [negb].
    split; [|split; [|exact He]]; [unfold password_arg; destruct (password_ptr password); [|reflexivity]; now rewrite He, andb_false_r|].
    unfold private_of. now rewrite Hr.
  - destruct (select_cipher mod_) as [c|] eqn:Es; [|now apply select_none in Es]. cbn in He, Hr. destruct (Hpw Hm) as [Hz Hl].
    assert (Hn : 4 <= length password).
    { specialize (Hv Hm). destruct mod_; cbn [validate_password_for_cipher] in Hv; try easy; apply Nat.leb_le in Hv; lia. }
    exists (Some password). rewrite bool_decide_false by done. cbn [negb]. split; [|split; [|exact He]].
    + unfold password_arg, password_ptr. destruct password as [|b0 password]; [cbn in Hn; lia|]. rewrite He, andb_true_r.
      rewrite (proj2 (Nat.ltb_lt _ _)) by (cbn; lia). now rewrite (c_str_terminated _ Hz).
    + unfold private_of. now rewrite Hr.
Qed.
End Keygen.

(** ** A library with these laws *)

(** Keys are their sizes; blocks are padded as PKCS 1 says, the bytes of the
    padding taken from the draws, and not hidden. *)
Module Sample.
Definition size (k : nat) : nat := 64 + k `min` 448.
Definition pad_block (header : Z) (filler : Z) (size : nat) (m : list Z) : list Z :=
  0%Z :: header :: replicate (size - length m - 3) filler ++ 0%Z :: m.
Fixpoint after_zero (l : list Z) : option (list Z) :=
  match l with [] => None | b :: l => if (b =? 0)%Z then Some l else after_zero l end.
Definition unpad_block (size : nat) (c : list Z) : option (list Z) := if length c =? size then after_zero (drop 2 c) else None.
Definition seal (header filler : Z) (overhead k : nat) (m : list Z) : option (list Z) :=
  if length m + overhead <=? size k then Some (pad_block header filler (size k) m) else None.
Definition enc (d k : nat) (pad : padding) (m : list Z) : option (list Z) :=
  let filler := Z.of_nat (1 + d mod 255) in
  match pad with
  | pkcs1 => seal 2 filler 11 k m
  | pkcs1_oaep => seal 4 filler 42 k m
  | no_padding => if length m =? size k then Some m else None
  | _ => None
  end.
Definition dec (k : nat) (pad : padding) (c : list Z) : option (list Z) :=
  match pad with
  | pkcs1 | pkcs1_oaep => unpad_block (size k) c
  | no_padding => if length c =? size k then Some c else None
  | _ => None
  end.
Definition sign (k : nat) (pad : padding) (m : list Z) : option (list Z) := match pad with pkcs1 => seal 1 255 11 k m | _ => None end.
Definition check (k : nat) (pad : padding) (c : list Z) : option (list Z) := match pad with pkcs1 => unpad_block (size k) c | _ => None end.

Definition text (tag : Z) (k : nat) (rest : list Z) : list Z := tag :: Z.of_nat k :: replicate (size k) 7%Z ++ rest.
(** The key of a text and what follows. *)
Definition parse (tag : Z) (p : list Z) : option (nat * list Z) :=
  match p with
  | t :: k :: rest => if (t =? tag)%Z && (size (Z.to_nat k) <=? length rest) then Some (Z.to_nat k, drop (size (Z.to_nat k)) rest) else None
  | _ => None
  end.
Definition read_private (p : list Z) (u : option (list Z)) : option nat :=
  match parse 3 p, parse 4 p with
  | Some (k, _), _ => Some k
  | None, Some (k, password) => if bool_decide (u = Some password) then Some k else None
  | None, None => None
  end.
Definition write_private (k : nat) (enc : option (cipher * list Z)) : option (list Z) :=
  Some (match enc with None => text 3 k [] | Some (_, p) => text 4 k p end).

Definition lib : rsa_ops nat nat :=
  {| PEM_read_bio_RSA_PUBKEY p := fst <$> parse 1 p; PEM_read_bio_RSAPublicKey p := fst <$> parse 2 p;
     PEM_encrypted p := match parse 4 p with Some _ => true | None => false end;
     PEM_read_bio_RSAPrivateKey := read_private; PEM_read_bio_PrivateKey _ _ := None;
     EVP_PKEY_get1_RSA k := Some k; EVP_PKEY_set1_RSA k := Some k; key_size_of := size;
     RSA_generate_key_ex _ bits := Some (bits / 8 - 64); RSA_check_key _ := true;
     PEM_write_bio_RSA_PUBKEY k := Some (text 1 k []); PEM_write_bio_RSAPublicKey k := Some (text 2 k []);
     PEM_write_bio_PrivateKey _ := write_private; PEM_write_bio_RSAPrivateKey _ := write_private;
     public_encrypt := enc; private_decrypt := dec; private_encrypt := sign; public_decrypt := check |}.

Lemma after_zero_size l m : after_zero l = Some m -> length m <= length l.
Proof. induction l as [|b l IH]; [easy|]. cbn. destruct (b =? 0)%Z; [intros [= <-]; lia|]. intros E. apply IH in E. lia. Qed.
Lemma unpad_size s c m : unpad_block s c = Some m -> length m <= s.
Proof. unfold unpad_block. destruct (Nat.eqb_spec (length c) s); [|easy]. intros E. apply after_zero_size in E. rewrite length_drop in E. lia. Qed.
Lemma seal_open header filler overhead k m c : filler <> 0%Z -> 3 <= overhead -> seal header filler overhead k m = Some c ->
  length c = size k /\ unpad_block (size k) c = Some m.
Proof.
  intros Hf Ho. unfold seal. destruct (Nat.leb_spec (length m + overhead) (size k)); [|easy]. intros [= <-].
  assert (Hl : length (pad_block header filler (size k) m) = size k).
  { unfold pad_block. cbn [length]. rewrite length_app, length_replicate. cbn [length]. lia. }
  split; [exact Hl|]. unfold unpad_block. rewrite Hl, Nat.eqb_refl. unfold pad_block. cbn [drop].
  induction (size k - length m - 3) as [|n IH]; cbn; [reflexivity|]. now rewrite (proj2 (Z.eqb_neq _ _)).
Qed.
Lemma seal_size header filler overhead k m c : 3 <= overhead -> seal header filler overhead k m = Some c -> length c <= size k.
Proof.
  intros Ho. unfold seal. destruct (Nat.leb_spec (length m + overhead) (size k)); [|easy]. intros [= <-].
  unfold pad_block. cbn [length]. rewrite length_app, length_replicate. cbn [length]. lia.
Qed.
Lemma filler_nonzero d : Z.of_nat (1 + d mod 255) <> 0%Z.
Proof. lia. Qed.

#[export] Instance lib_sizes : RsaSizes lib.
Proof.
  split.
  - intros k. cbn [key_size_of lib]. unfold size, RSA_MAX_KEY_LENGTH. lia.
  - intros d k [] m c; cbn [public_encrypt lib enc key_size_of]; try easy; [apply seal_size; lia| |apply seal_size; lia].
    destruct (Nat.eqb_spec (length m) (size k)); [intros [= <-]; lia|easy].
  - intros k [] m c; cbn [private_decrypt lib dec key_size_of]; try easy; [apply unpad_size| |apply unpad_size].
    destruct (Nat.eqb_spec (length m) (size k)); [intros [= <-]; lia|easy].
  - intros k [] m c; cbn [private_encrypt lib sign key_size_of]; try easy. apply seal_size. lia.
  - intros k [] m c; cbn [public_decrypt lib check key_size_of]; try easy. apply unpad_size.
Qed.

Lemma parse_size tag p k rest : parse tag p = Some (k, rest) -> size k <= length p.
Proof.
  unfold parse. destruct p as [|t [|k0 p]]; try easy. destruct (_ =? _)%Z; cbn [andb]; [|easy].
  destruct (Nat.leb_spec (size (Z.to_nat k0)) (length p)); [|easy]. intros [= <- _]. cbn [length]. lia.
Qed.
Lemma parse_text tag tag' k rest : parse tag' (text tag k rest) = if (tag =? tag')%Z then Some (k, rest) else None.
Proof.
  unfold parse, text. rewrite Nat2Z.id. rewrite length_app, length_replicate, (proj2 (Nat.leb_le _ _)), andb_true_r by lia.
  now rewrite drop_app_length' by (symmetry; apply length_replicate).
Qed.

#[export] Instance lib_laws : RsaLaws lib eq.
Proof.
  split.
  - apply lib_sizes.
  - intros k. cbn [key_size_of lib]. unfold size. lia.
  - now intros k k' ->.
  - intros d k k' m <-. cbn [key_size_of lib public_encrypt enc]. intros H. unfold seal. rewrite (proj2 (Nat.leb_le _ _) H). now eexists.
  - intros d k k' m <-. cbn [key_size_of lib public_encrypt enc]. intros H. unfold seal. rewrite (proj2 (Nat.leb_le _ _) H). now eexists.
  - intros d k k' pad m c <-. cbn [key_size_of lib public_encrypt private_decrypt]. unfold enc, dec.
    destruct pad; intros E; try discriminate; try (eapply seal_open; [apply filler_nonzero| |exact E]; lia).
    destruct (Nat.eqb_spec (length m) (size k)) as [Em|]; [|discriminate]. injection E as <-. now rewrite Em, Nat.eqb_refl.
  - intros k k' m <-. cbn [key_size_of lib private_encrypt public_decrypt sign check]. intros H.
    assert (E : seal 1 255 11 k m = Some (pad_block 1 255 (size k) m)) by (unfold seal; now rewrite (proj2 (Nat.leb_le _ _) H)).
    eexists. split; [exact E|]. eapply seal_open; [|exact (le_S _ _ (Nat.le_add_r 3 7))|exact E]. lia.
  - intros p k. unfold public_of. destruct p as [|b p]; [easy|]. cbn [PEM_read_bio_RSA_PUBKEY PEM_read_bio_RSAPublicKey lib key_size_of].
    destruct (parse 1 (b :: p)) as [[k1 r1]|] eqn:E1; [intros [= <-]; now apply parse_size in E1|].
    destruct (parse 2 (b :: p)) as [[k2 r2]|] eqn:E2; [intros [= <-]; now apply parse_size in E2|discriminate].
  - intros p u k. unfold private_of. destruct p as [|b p]; [easy|].
    cbn [PEM_read_bio_RSAPrivateKey PEM_read_bio_PrivateKey lib key_size_of]. unfold read_private.
    destruct (parse 3 (b :: p)) as [[k1 r1]|] eqn:E1; [intros [= <-]; now apply parse_size in E1|].
    destruct (parse 4 (b :: p)) as [[k2 r2]|] eqn:E2; [|easy]. case_bool_decide; [|easy]. intros [= <-]. now apply parse_size in E2.
Qed.

#[export] Instance lib_pem : PemLaws lib eq (fun k => k).
Proof.
  split.
  - easy.
  - intros k t [= <-]. cbn [PEM_read_bio_RSA_PUBKEY lib]. now rewrite parse_text.
  - intros k t [= <-]. cbn [PEM_read_bio_RSA_PUBKEY PEM_read_bio_RSAPublicKey lib]. now rewrite !parse_text.
  - intros format d k e t E. assert (t = match e with None => text 3 k [] | Some (_, p) => text 4 k p end) as ->.
    { destruct format; cbn in E; unfold write_private in E; congruence. }
    cbn [PEM_encrypted PEM_read_bio_RSAPrivateKey lib]. unfold read_private. destruct e as [[c p]|]; rewrite !parse_text; cbn; [|easy].
    split; [reflexivity|]. intros u [-> _]. now rewrite bool_decide_true.
Qed.
End Sample.

(** ** The theorems *)

(** What an operation returns, without the heap. *)
Definition result {Key A} (m : M A) (h : heap Key) : option A := fst <$> m h.


(** The empty heap, and a text of a key of 64 bytes. *)
Definition heap0 : heap nat := Heap ∅ 0 0.
Lemma heap0_wf : wf heap0.
Proof. intros l _. apply lookup_empty. Qed.


(** C22: With the two keys of a pair, decryption gives back what was encrypted: on
    buffers and strings every message that fits a block with its padding, on
    streams and files every message that is not empty, cut into blocks and joined
    again (without padding: whole blocks).  Verification gives back what was
    signed.  Strings under a key that is kept under a password are the
    exception: they are refused as an invalid output. *)
Theorem rsa_roundtrip {Key PKey : Type} (o : rsa_ops Key PKey) (paired : Key -> Key -> Prop) (HL : RsaLaws o paired)
    (pub pri password : list Z) (k k' : Key) (u : option (list Z)) (Hpub : public_of o (Some pub) = Some k)
    (Hu : password_arg o pri (password_ptr password) (length password) = Some u) (Hpri : private_of o (Some pri) u = Some k')
    (Hk : paired k k') (h h' : heap Key) (Hh : wf h) (Hh' : wf h') (pad : padding) (m : list Z) :
  (stream_plain o pad k m -> exists c, result (encrypt_stream o true true m (Some pub) pad) h = Some (ok, c)
     /\ result (decrypt_stream o true true c (Some pri) pad (password_ptr password) (length password)) h' = Some (ok, m))
  /\ (forall writable (fs : files) src dst back, stream_plain o pad k m -> fs !! src = Some m -> writable dst = true -> writable back = true ->
     dst <> src -> back <> dst -> exists fs1 fs2,
       result (encrypt_file_string o writable fs dst src pub pad) h = Some (ok, fs1)
       /\ result (decrypt_file_string o writable fs1 back dst pri pad password) h' = Some (ok, fs2) /\ fs2 !! back = Some m)
  /\ (forall d n d' n', plain o pad k m -> key_size_of o k <= n <= length d -> key_size_of o k <= n' <= length d' -> exists e e',
       result (encrypt o (Some d) n (Some m) (Some pub) pad) h = Some (ok, Some e, key_size_of o k)
       /\ result (decrypt o (Some d') n' (Some (take (key_size_of o k) e)) (Some pri) pad (password_ptr password) (length password)) h'
          = Some (ok, Some e', length m) /\ take (length m) e' = m)
  /\ (plain o pad k m -> PEM_encrypted o pri = false -> forall old old', exists c,
       result (encrypt_string o old m pub pad) h = Some (ok, c) /\ result (decrypt_string o old' c pri pad password) h' = Some (ok, m))
  /\ (private_of o (Some pri) None = None -> forall old c, result (decrypt_string o old c pri pad password) h' = Some (invalid_output, []))
  /\ (forall d n d' n', plain o pkcs1 k m -> key_size_of o k <= n <= length d -> key_size_of o k <= n' <= length d' -> exists e e',
       result (signature o d n m (Some pri) pkcs1 (password_ptr password) (length password)) h = Some (ok, e, key_size_of o k)
       /\ result (verify_signature o d' n' (take (key_size_of o k) e) (Some pub) pkcs1) h' = Some (ok, e', length m) /\ take (length m) e' = m).
Proof.
  repeat apply conj.
  - intros Hm. destruct (stream_roundtrip o paired pub pri _ _ u k k' Hpub Hu Hpri Hk pad m h h' Hh Hh' Hm) as (c & n & E & Ed).
    exists c. unfold result. now rewrite E, Ed.
  - intros writable fs src dst back Hm Hs Hw Hw' Hne Hne'.
    destruct (file_roundtrip o paired pub pri _ _ u k k' Hpub Hu Hpri Hk pad m writable fs src dst back h h' Hh Hh' Hm Hs Hw Hw' Hne Hne')
      as (fs1 & fs2 & n & E & Ed & Ef).
    exists fs1, fs2. unfold result, encrypt_file_string, decrypt_file_string. now rewrite E, Ed.
  - intros d n d' n' Hm Hd Hd'.
    destruct (buffer_roundtrip o paired pub pri _ _ u k k' Hpub Hu Hpri Hk pad m d n d' n' h h' Hh Hh' Hm Hd Hd') as (c & e & a & e' & E & Ec & _ & Ed & Em).
    exists e, e'. unfold result. rewrite Ec. now rewrite E, Ed.
  - intros Hm Ep old old'. assert (u = None) as -> by (rewrite (password_unread o pri _ _ Ep) in Hu; congruence).
    destruct (string_roundtrip o paired pub pri k k' pad m password old old' h h' Hpub Hpri Ep Hk Hh Hh' Hm) as (c & h1 & h2 & E & Ed).
    exists c. unfold result. now rewrite E, Ed.
  - intros Hn old c. unfold result. now rewrite (string_protected o pri c pad password old h' Hn).
  - intros d n d' n' Hm Hd Hd'.
    destruct (signature_roundtrip o paired pub pri _ _ u k k' Hpub Hu Hpri Hk m d n d' n' h h' Hh Hh' Hm Hd Hd') as (e & e' & E & Ev & Em).
    exists e, e'. unfold result. now rewrite E, Ev.
Qed.

(** A message of 200 bytes under a key of 64 bytes that is kept under a
    password. *)
Definition sample_password : list Z := [104; 106; 45; 115; 101; 99; 114; 101; 116]%Z.
Lemma rsa_roundtrip_witness :
  (public_of Sample.lib (Some (Sample.text 1 0 [])) = Some 0
   /\ private_of Sample.lib (Some (Sample.text 4 0 sample_password)) (Some sample_password) = Some 0 /\ wf heap0)
  /\ exists c, result (encrypt_stream Sample.lib true true (replicate 200 9%Z) (Some (Sample.text 1 0 [])) pkcs1) heap0 = Some (ok, c)
     /\ result (decrypt_stream Sample.lib true true c (Some (Sample.text 4 0 sample_password)) pkcs1 (password_ptr sample_password) 9) heap0
        = Some (ok, replicate 200 9%Z).
Proof.
  split; [split; [vm_compute; reflexivity|split; [vm_compute; reflexivity|exact heap0_wf]]|].
  apply (proj1 (rsa_roundtrip Sample.lib eq Sample.lib_laws (Sample.text 1 0 []) (Sample.text 4 0 sample_password) sample_password 0 0
    (Some sample_password) ltac:(vm_compute; reflexivity) ltac:(vm_compute; reflexivity) ltac:(vm_compute; reflexivity) eq_refl heap0 heap0
    heap0_wf heap0_wf pkcs1 (replicate 200 9%Z))). discriminate.
Defined.

(** Generating a pair of keys as strings gives the two texts of the key that
    the library generates, or an error and two empty strings: for a number of
    bits that is not allowed, for a password that is too short for the cipher,
    when the library fails or a text is longer than the buffer.  No key is left
    in the heap.  The texts are loaded as the two keys of a pair; so is a text
    kept under a password, when it is loaded with it and it has no byte 0. *)
Theorem rsa_keygen {Key PKey : Type} (o : rsa_ops Key PKey) (paired : Key -> Key -> Prop) (public_part : Key -> Key) (Hs : RsaSizes o)
    (HP : PemLaws o paired public_part) (old old' : list Z) (bits : nat) (format : key_format) (mod_ : mode) (password : list Z)
    (h : heap Key) (Hh : wf h) :
  (exists h', keygen_string o old old' bits format mod_ password h = Some (keygen_result o bits format mod_ password h, h') /\ objs h' = objs h)
  /\ (is_key_pair_bits_valid bits = false -> result (keygen_string o old old' bits format mod_ password) h = Some (invalid_key_bits, [], []))
  /\ (forall pub pri, result (keygen_string o old old' bits format mod_ password) h = Some (ok, pub, pri) ->
      (mod_ <> none -> Forall (fun b => b <> 0%Z) password /\ length password <= 1024) ->
      exists k, RSA_generate_key_ex o (draws h) bits = Some k /\ paired (public_part k) k
        /\ public_of o (Some pub) = Some (public_part k)
        /\ exists u, password_arg o pri (password_ptr password) (length password) = Some u /\ private_of o (Some pri) u = Some k
          /\ PEM_encrypted o pri = negb (bool_decide (mod_ = none))).
Proof.
  destruct (keygen_string_result o old old' bits format mod_ password h Hh) as (h' & E & Ho).
  assert (Er : result (keygen_string o old old' bits format mod_ password) h = Some (keygen_result o bits format mod_ password h))
    by (unfold result; now rewrite E).
  split; [now exists h'|]. rewrite Er. split; [intros Hb; unfold keygen_result; now rewrite Hb|].
  intros pub pri [= Eok] Hpw. unfold keygen_result in Eok. destruct (negb _); [discriminate|]. destruct (_ && _) eqn:Ev; [discriminate|].
  destruct (RSA_generate_key_ex o (draws h) bits) as [k|]; [|discriminate]. cbn beta iota in Eok.
  destruct (texts_of _ _ _ _ _ _) as [[tp tk]|] eqn:Et; [|discriminate]. injection Eok as -> ->.
  exists k. split; [reflexivity|]. apply (generated_loads o paired public_part _ _ _ _ _ _ _ _ _ Et); [exact Hpw|].
  intros Hm. apply andb_false_iff in Ev as [Ev|Ev]; [now apply bool_decide_eq_false in Ev|]. now apply negb_false_iff in Ev.
Qed.

Lemma rsa_keygen_witness :
  (wf heap0 /\ RsaSizes Sample.lib)
  /\ exists k pub pri, result (keygen_string Sample.lib [] [] 1024 x509 aes_256_cbc sample_password) heap0 = Some (ok, pub, pri)
     /\ public_of Sample.lib (Some pub) = Some k /\ private_of Sample.lib (Some pri) (Some sample_password) = Some k.
Proof.
  split; [split; [exact heap0_wf|exact Sample.lib_sizes]|].
  destruct (rsa_keygen Sample.lib eq (fun k => k) Sample.lib_sizes Sample.lib_pem [] [] 1024 x509 aes_256_cbc sample_password heap0 heap0_wf)
    as [(h' & E & _) _].
  exists 64, (Sample.text 1 64 []), (Sample.text 4 64 sample_password). split; [unfold result; rewrite E; vm_compute; reflexivity|].
  split; vm_compute; reflexivity.
Defined.

(** ** Cases that go wrong *)

(** A buffer of exactly the length that is given is written one byte behind its
    end when the text fills it. *)
Lemma keygen_overflow : exists b b' : list Z,
  length b = 258 /\ length b' = 600
  /\ keygen Sample.lib (Some b) 258 (Some b') 600 2048 x509 none None 0 heap0 = None.
Proof. exists (replicate 258 0%Z), (replicate 600 0%Z). split_and!; vm_compute; reflexivity. Qed.

(** A password with a byte 0 in it protects a key that is not loaded with it. *)
Definition zero_password : list Z := [104; 106; 45; 115; 0; 99; 114; 101; 116]%Z.
Lemma zero_password_lost :
  match result (keygen_string Sample.lib [] [] 512 x509 aes_256_cbc zero_password) heap0 with
  | Some (ec, _, pri) => ec = ok /\ result (load_private_key Sample.lib (Some pri) (password_ptr zero_password) 9) heap0 = Some None
  | None => False
  end.
Proof. vm_compute. now split. Qed.

(** A source that does not exist: the destination is emptied all the same. *)
Lemma missing_source_empties {Key PKey : Type} (o : rsa_ops Key PKey) writable (fs : files) dst src pem pad h :
  fs !! src = None -> writable dst = true ->
  exists fs', result (encrypt_file o writable fs dst src pem pad) h = Some (invalid_input, fs') /\ fs' !! dst = Some [].
Proof.
  intros Hs Hw. unfold encrypt_file, with_files. rewrite Hw, Hs. rewrite bool_decide_false by (intros [? [=]]).
  eexists. split; [reflexivity|]. apply lookup_insert_eq.
Qed.

(** What is decrypted before a block fails stays in the output, and the failure
    is said to be one of writing. *)
Lemma failed_block_is_write_failed :
  let good := Sample.enc 0 0 pkcs1 [1; 2; 3]%Z in
  match good with
  | Some c => result (decrypt_stream Sample.lib true true (c ++ [9]%Z) (Some (Sample.text 3 0 [])) pkcs1 None 0) heap0 = Some (write_failed, [1; 2; 3]%Z)
  | None => False
  end.
Proof. vm_compute. reflexivity. Qed.
