(* ===== verification/Gzip.v ===== *)
(** * Compression

    [compress/gzip.hpp]: the loops that feed buffers and streams to zlib, chunk
    by chunk, and their error codes.  The compressor and the decompressor are
    the library's, a parameter ([zlib]): a call of [deflate] or [inflate] takes
    the input that is available and the room for output, and gives a code, how
    much input it used, and the output.  A [z_stream] is ended on every path and
    is a value here.  Bytes are numbers below 256.  A loop that runs until the
    library is done has a number of turns, none when it is not enough: the
    theorems give a number that is.  Sizes of chunks fit an [unsigned int]; the
    size of a source need not. *)

From Stdlib Require Import ZArith Lia List Bool SpecFloat.
From stdpp Require Import base tactics list option.
From S2P Require Import Prelude Doubles.

Open Scope hj_scope.
Open Scope nat_scope.

Module Gzip.

(** The codes of [zlib.h]. *)
Definition Z_OK : Z := 0.
Definition Z_STREAM_END : Z := 1.
Definition Z_NEED_DICT : Z := 2.
Definition Z_STREAM_ERROR : Z := -2.
Definition Z_DATA_ERROR : Z := -3.
Definition Z_MEM_ERROR : Z := -4.
Definition Z_BUF_ERROR : Z := -5.
Definition Z_VERSION_ERROR : Z := -6.

(** An enumeration of integers: codes of the library are cast to it, and the
    enumerators without a value count from the one before them. *)
Definition err : Type := Z.
Definition ok : err := Z_OK.
Definition stream_error : err := Z_STREAM_ERROR.
Definition data_error : err := Z_DATA_ERROR.
Definition mem_error : err := Z_MEM_ERROR.
Definition version_error : err := Z_VERSION_ERROR.
Definition need_dict : err := Z_NEED_DICT.
Definition stream_end : err := Z_STREAM_END.
Definition input_invalid : err := (stream_end + 1)%Z.
Definition buffer_too_small : err := (input_invalid + 1)%Z.
Definition max_output_sz_exceeded : err := (buffer_too_small + 1)%Z.
Definition read_buffer_error : err := (max_output_sz_exceeded + 1)%Z.
Definition write_buffer_error : err := (read_buffer_error + 1)%Z.
Definition overflow_error : err := (write_buffer_error + 1)%Z.
Definition zlib_version_mismatch : err := (overflow_error + 1)%Z.

(** Levels, by their values. *)
Inductive compression_lvl := default_compression | no_compression | best_speed | best_compression.
Definition level_value (l : compression_lvl) : Z :=
  match l with default_compression => -1 | no_compression => 0 | best_speed => 1 | best_compression => 9 end.
Inductive mem_lvl := default_level | lvl1 | lvl2 | lvl3 | lvl4 | lvl5 | lvl6 | lvl7 | lvl8 | lvl9.
Definition mem_value (l : mem_lvl) : Z :=
  match l with
  | default_level => 8 | lvl1 => 1 | lvl2 => 2 | lvl3 => 3 | lvl4 => 4 | lvl5 => 5 | lvl6 => 6 | lvl7 => 7 | lvl8 => 8 | lvl9 => 9
  end.
Definition GZIP_WINDOW_BITS : Z := 15 + 16.

(** ** Sizes *)

Definition compress_reserve_sz (src_sz : Z) : Z := wrap 64 (wrap 64 (wrap 64 (src_sz + src_sz / 1000) + 12) + 18).
Definition decompress_reserve_sz (src_sz max_output_sz : Z) : Z :=
  let MIN_ALLOC := 4096%Z in
  let MAX_SAFE_ALLOC := (1024 * 1024 * 256)%Z in
  if (0 <? max_output_sz)%Z then Z.min max_output_sz MAX_SAFE_ALLOC else
  if (src_sz =? 0)%Z then MIN_ALLOC else
  let estimated := if (src_sz <=? MAX_SAFE_ALLOC / 4)%Z then wrap 64 (src_sz * 4) else MAX_SAFE_ALLOC in
  Z.max MIN_ALLOC (Z.min estimated MAX_SAFE_ALLOC).

Definition is_gzip_format (data : option (list Z)) : bool :=
  match data with
  | Some (b0 :: b1 :: rest) => (10 <=? length (b0 :: b1 :: rest)) && (b0 =? 0x1f)%Z && (b1 =? 0x8b)%Z
  | _ => false
  end.

(** [static_cast<double>(n)], rounded to the nearest. *)
Definition to_double (n : Z) : double := binary_normalize 53 1024 n 0 false.
Definition compression_ratio (original_sz compressed_sz : Z) : double :=
  if (original_sz =? 0)%Z then dzero
  else SFsub 53 1024 (to_double 1) (SFdiv 53 1024 (to_double compressed_sz) (to_double original_sz)).

(** [static_cast<uInt>(n)] bytes of the source are available. *)
Definition available (src : list Z) : list Z := take (Z.to_nat (wrap 32 (Z.of_nat (length src)))) src.

(** ** The library *)

(** [init] gives a code that is not [Z_OK], or a stream; [deflate] is told
    whether to finish.  A call gives the code, the number of bytes used, the
    output, and the stream. *)
Record zlib (D I : Type) := Zlib
  { deflateInit2 : Z -> Z -> Z -> Z + D;
    deflate : D -> bool -> list Z -> nat -> Z * nat * list Z * D;
    inflateInit2 : Z -> Z + I;
    inflate : I -> list Z -> nat -> Z * nat * list Z * I;
    crc32 : Z -> list Z -> Z }.
#[global] Arguments deflateInit2 {D I}. #[global] Arguments deflate {D I}. #[global] Arguments inflateInit2 {D I}.
#[global] Arguments inflate {D I}. #[global] Arguments crc32 {D I}.

(** A stream of output: what was written, and whether it is good. *)
Record ostream := OStream { written : list Z; out_good : bool }.

Section Gzip.
Context {D I : Type} (z : zlib D I)
  (** what the device takes *)
  (accepts : list Z -> bool).

Definition write_out (s : ostream) (bs : list Z) : ostream :=
  if out_good s then
    if accepts (written s ++ bs) then OStream (written s ++ bs) true else OStream (written s) false
  else s.

Definition crc32_checksum (data : option (list Z)) : Z :=
  match data with None | Some [] => 0%Z | Some bs => crc32 z 0 (available bs) end.

(** ** Buffers *)

(** 16 KiB *)
Definition buffer_chunk : nat := 2 ^ 14.

(** The loop of [compress]: an error and the destination, or the last code and
    the destination. *)
Fixpoint compress_loop (turns : nat) (c : D) (inp dst : list Z) : option (err * list Z + Z * list Z) :=
  match turns with
  | O => None
  | S turns =>
      let '(r, used, o, c) := deflate z c true inp buffer_chunk in
      if (r =? Z_STREAM_ERROR)%Z then Some (inl (r, [])) else
      let dst := dst ++ o in
      if length o =? buffer_chunk then compress_loop turns c (drop used inp) dst else Some (inr (r, dst))
  end.
Definition compress (turns : nat) (dst : list Z) (src : option (list Z)) (compr_lvl : compression_lvl) (mem_level : mem_lvl) : option (err * list Z) :=
  match src with
  | None | Some [] => Some (input_invalid, dst)
  | Some src =>
      match deflateInit2 z (level_value compr_lvl) GZIP_WINDOW_BITS (mem_value mem_level) with
      | inl r => Some (r, dst)
      | inr c =>
          let* res := compress_loop turns c (available src) [] in
          match res with
          | inl failed => Some failed
          | inr (r, dst) =>
              if (r =? Z_STREAM_END)%Z then Some (ok, dst) else Some (if (r =? Z_OK)%Z then buffer_too_small else r, [])
          end
      end
  end.

Definition inflate_failed (r : Z) : bool := (r =? Z_NEED_DICT)%Z || (r =? Z_DATA_ERROR)%Z || (r =? Z_MEM_ERROR)%Z.

Fixpoint decompress_loop (turns : nat) (c : I) (inp dst : list Z) (max_output_sz : nat) : option (err * list Z + Z * list Z) :=
  match turns with
  | O => None
  | S turns =>
      let '(r, used, o, c) := inflate z c inp buffer_chunk in
      if inflate_failed r then Some (inl (r, [])) else
      if (0 <? max_output_sz) && (max_output_sz <? length dst + length o) then Some (inl (max_output_sz_exceeded, [])) else
      let dst := dst ++ o in
      if length o =? buffer_chunk then decompress_loop turns c (drop used inp) dst max_output_sz else Some (inr (r, dst))
  end.
Definition decompress (turns : nat) (dst : list Z) (src : option (list Z)) (max_output_sz : nat) : option (err * list Z) :=
  match src with
  | None | Some [] => Some (input_invalid, dst)
  | Some src =>
      match inflateInit2 z GZIP_WINDOW_BITS with
      | inl r => Some (r, dst)
      | inr c =>
          let* res := decompress_loop turns c (available src) [] max_output_sz in
          match res with
          | inl failed => Some failed
          | inr (r, dst) => if (r =? Z_STREAM_END)%Z then Some (ok, dst) else Some (r, [])
          end
      end
  end.

(** ** Streams *)

(** The inner loop of [compress]: an error and the output, or the stream, what
    is left of the input and the output. *)
Fixpoint deflate_chunk (turns : nat) (c : D) (fin : bool) (inp : list Z) (chunk_size : nat) (s : ostream) :
    option (err * ostream + D * list Z * ostream) :=
  match turns with
  | O => None
  | S turns =>
      let '(r, used, o, c) := deflate z c fin inp chunk_size in
      if (r =? Z_STREAM_ERROR)%Z then Some (inl (stream_error, s)) else
      let s := write_out s o in
      if negb (out_good s) then Some (inl (write_buffer_error, s)) else
      if length o =? chunk_size then deflate_chunk turns c fin (drop used inp) chunk_size s else Some (inr (c, drop used inp, s))
  end.
(** [while(in)]: [rest] is what is left to read, and a read that gets less than it
    asks for is at the end of the file. *)
Fixpoint compress_reads (reads turns : nat) (c : D) (inp rest : list Z) (chunk_size : nat) (s : ostream) :
    option (err * ostream + D * list Z * ostream) :=
  match reads with
  | O => None
  | S reads =>
      let inbuf := take chunk_size rest in
      let eof := length inbuf <? chunk_size in
      if length inbuf =? 0 then Some (inr (c, inp, s)) else
      let* res := deflate_chunk turns c eof inbuf chunk_size s in
      match res with
      | inl failed => Some (inl failed)
      | inr (c, inp, s) => if eof then Some (inr (c, inp, s)) else compress_reads reads turns c inp (drop chunk_size rest) chunk_size s
      end
  end.
(** The last loop: writes are not checked. *)
Fixpoint compress_end (turns : nat) (c : D) (inp : list Z) (chunk_size : nat) (s : ostream) : option ostream :=
  match turns with
  | O => None
  | S turns =>
      let '(r, used, o, c) := deflate z c true inp chunk_size in
      let s := write_out s o in
      if (r =? Z_STREAM_END)%Z then Some s else compress_end turns c (drop used inp) chunk_size s
  end.
Definition compress_stream (turns : nat) (s : ostream) (in_good : bool) (content : list Z) (compr_lvl : compression_lvl) (mem_level : mem_lvl)
    (chunk_size : nat) : option (err * ostream) :=
  if negb in_good || negb (out_good s) then Some (input_invalid, s) else
  match deflateInit2 z (level_value compr_lvl) GZIP_WINDOW_BITS (mem_value mem_level) with
  | inl r => Some (r, s)
  | inr c =>
      let* res := compress_reads (S (length content)) turns c [] content chunk_size s in
      match res with
      | inl failed => Some failed
      | inr (c, inp, s) => let* s := compress_end turns c inp chunk_size s in Some (ok, s)
      end
  end.

(** [total_out] counts what was given, the code is the last one. *)
Fixpoint inflate_chunk (turns : nat) (c : I) (inp : list Z) (total_out max_output_sz chunk_size : nat) (s : ostream) :
    option (err * ostream + I * Z * nat * ostream) :=
  match turns with
  | O => None
  | S turns =>
      let '(r, used, o, c) := inflate z c inp chunk_size in
      if inflate_failed r then Some (inl (r, s)) else
      let total_out := total_out + length o in
      if (0 <? max_output_sz) && (max_output_sz <? total_out) then Some (inl (max_output_sz_exceeded, s)) else
      let s := write_out s o in
      if negb (out_good s) then Some (inl (write_buffer_error, s)) else
      if length o =? chunk_size then inflate_chunk turns c (drop used inp) total_out max_output_sz chunk_size s
      else Some (inr (c, r, total_out, s))
  end.
Fixpoint decompress_reads (reads turns : nat) (c : I) (r : Z) (rest : list Z) (total_out max_output_sz chunk_size : nat) (s : ostream) :
    option (err * ostream + Z * ostream) :=
  match reads with
  | O => None
  | S reads =>
      let inbuf := take chunk_size rest in
      if length inbuf =? 0 then Some (inr (r, s)) else
      let* res := inflate_chunk turns c inbuf total_out max_output_sz chunk_size s in
      match res with
      | inl failed => Some (inl failed)
      | inr (c, r, total_out, s) => decompress_reads reads turns c r (drop chunk_size rest) total_out max_output_sz chunk_size s
      end
  end.
Definition decompress_stream (turns : nat) (s : ostream) (in_good : bool) (content : list Z) (max_output_sz chunk_size : nat) : option (err * ostream) :=
  if negb in_good || negb (out_good s) then Some (input_invalid, s) else
  match inflateInit2 z GZIP_WINDOW_BITS with
  | inl r => Some (r, s)
  | inr c =>
      let* res := decompress_reads (S (length content)) turns c Z_OK content 0 max_output_sz chunk_size s in
      match res with
      | inl failed => Some failed
      | inr (r, s) => Some (if (r =? Z_STREAM_END)%Z then ok else r, s)
      end
  end.
End Gzip.
End Gzip.
