(* ===== verification/GzipThm.v ===== *)
(** * Compression: theorems

    Whatever zlib does, decompression keeps the limit on its output and a
    failure leaves nothing in a buffer.  With the laws of zlib ([ZlibLaws]),
    buffers and streams are compressed to a gzip text of their content and
    decompressed to it, for chunks of any positive size, and every loop ends.  [Sample] is
    a library with the laws, for the witnesses. *)

From Stdlib Require Import ZArith Lia List Bool SpecFloat.
From stdpp Require Import base tactics list option.
From S2P Require Import Prelude Doubles Gzip.
Import Gzip.

Open Scope hj_scope.
Open Scope nat_scope.

(** ** The laws of zlib *)

(** The forms of a text, and how the bits of the window choose one ([zlib.h]):
    16 more for gzip, negative for no header at all; when a text is read 32 more
    for either header.  A window of 15 bits reads what any window wrote. *)
Inductive form := gzip_form | zlib_form | raw_form.
Definition deflate_form (w : Z) : option form :=
  (if (9 <=? w) && (w <=? 15) then Some zlib_form
   else if (25 <=? w) && (w <=? 31) then Some gzip_form
   else if (-15 <=? w) && (w <=? -9) then Some raw_form else None)%Z.
Definition inflate_reads (w : Z) (f : form) : bool :=
  (match f with
   | gzip_form => (w =? 15 + 16) || (w =? 15 + 32)
   | zlib_form => (w =? 15) || (w =? 15 + 32)
   | raw_form => w =? -15
   end)%Z.

(** [text f e d]: the text [e] is the form [f] of [d].  [taking f b c d e]: the
    stream [c] took [d] and gave [e], of the form [f]; when it was told to finish,
    [b] is the input it was given and has not used, and must be given again.
    [giving f c t d]: a stream that reads [f] took [t] and gave [d].  [ended]: it
    said it was at the end.  A call that leaves room in the output used all the
    input, and has ended when it was told to finish; what is still to come is
    bounded ([coming]).  A stream that has ended says so again. *)
Class ZlibLaws {D I : Type} (z : zlib D I) (text : form -> list Z -> list Z -> Prop) (taking : form -> option (list Z) -> D -> list Z -> list Z -> Prop)
    (ended : D -> Prop) (coming : D -> nat -> nat) (giving : form -> I -> list Z -> list Z -> Prop) (done : I -> Prop) : Prop :=
  { law_magic e d : text gzip_form e d -> is_gzip_format (Some e) = true;
    law_deflate_init lvl w mem f : (-1 <= lvl <= 9)%Z -> (1 <= mem <= 9)%Z -> deflate_form w = Some f ->
      exists c, deflateInit2 z lvl w mem = inr c /\ taking f None c [] [];
    law_deflate f b c d e fin inp n r used o c' : taking f b c d e -> 0 < n ->
      match b with Some kept => fin = true /\ inp = kept | None => True end ->
      deflate z c fin inp n = (r, used, o, c') ->
      used <= length inp /\ length o <= n /\ r <> Z_STREAM_ERROR
      /\ ((r = Z_STREAM_END /\ fin = true /\ used = length inp /\ text f (e ++ o) (d ++ inp) /\ ended c')
          \/ (r <> Z_STREAM_END /\ taking f (if fin then Some (drop used inp) else None) c' (d ++ take used inp) (e ++ o)
              /\ (length o < n -> fin = false /\ used = length inp) /\ length o + coming c' (length inp - used) <= coming c (length inp)));
    law_deflate_end c n : ended c -> 0 < n -> exists c', deflate z c true [] n = (Z_STREAM_END, 0, [], c') /\ ended c';
    law_inflate_init w f : inflate_reads w f = true -> exists c, inflateInit2 z w = inr c /\ giving f c [] [];
    (* the text of [d] is [t] and what follows it, of which [inp] is available *)
    law_inflate f c t d0 inp more d n r used o c' : giving f c t d0 -> text f (t ++ inp ++ more) d -> 0 < n ->
      inflate z c inp n = (r, used, o, c') ->
      used <= length inp /\ length o <= n /\ inflate_failed r = false
      /\ ((r = Z_STREAM_END /\ more = [] /\ used = length inp /\ d0 ++ o = d /\ done c')
          \/ (r <> Z_STREAM_END /\ giving f c' (t ++ take used inp) (d0 ++ o) /\ (d0 ++ o) `prefix_of` d
              /\ (length o < n -> used = length inp /\ more <> [])));
    law_inflate_done c n : done c -> 0 < n -> exists c', inflate z c [] n = (Z_STREAM_END, 0, [], c') /\ done c' }.

(** ** Limits, whatever the library does *)

Section Limits.
Context {D I : Type} (z : zlib D I) (accepts : list Z -> bool).

Lemma decompress_loop_limit max : 0 < max -> forall turns c inp dst res, decompress_loop z turns c inp dst max = Some res ->
  length dst <= max ->
  match res with inl (r, d) => d = [] /\ (r = max_output_sz_exceeded \/ inflate_failed r = true) | inr (r, d) => length d <= max end.
Proof.
  intros Hm. induction turns as [|turns IH]; [easy|]. intros c inp dst res. cbn [decompress_loop].
  destruct (inflate z c inp buffer_chunk) as [[[r used] o] c']. destruct (inflate_failed r) eqn:Er; [intros [= <-]; auto|].
  rewrite (proj2 (Nat.ltb_lt 0 max) Hm). cbn [andb]. destruct (Nat.ltb_spec max (length dst + length o)); [intros [= <-]; auto|].
  destruct (_ =? _); intros E Hd; [apply IH in E; [exact E|rewrite length_app; lia]|]. injection E as <-. rewrite length_app. lia.
Qed.
Lemma inflate_chunk_limit max n : 0 < max -> forall turns c inp total s res,
  inflate_chunk z accepts turns c inp total max n s = Some res -> length (written s) <= total <= max ->
  match res with inl (_, s') => length (written s') <= max | inr (_, _, total', s') => length (written s') <= total' <= max end.
Proof.
  intros Hm. induction turns as [|turns IH]; [easy|]. intros c inp total s res. cbn [inflate_chunk].
  destruct (inflate z c inp n) as [[[r used] o] c']. destruct (inflate_failed r); [intros [= <-]; lia|].
  rewrite (proj2 (Nat.ltb_lt 0 max) Hm). cbn [andb]. destruct (Nat.ltb_spec max (total + length o)); [intros [= <-]; lia|].
  intros E Ht.
  assert (Hw : length (written (write_out accepts s o)) <= total + length o).
  { unfold write_out. destruct (out_good s); [destruct (accepts _)|]; cbn [written]; rewrite ?length_app; lia. }
  destruct (negb _); [injection E as <-; lia|]. destruct (_ =? _); [apply IH in E; [exact E|lia]|]. injection E as <-. lia.
Qed.
Lemma decompress_reads_limit max n : 0 < max -> forall reads turns c r rest total s res,
  decompress_reads z accepts reads turns c r rest total max n s = Some res -> length (written s) <= total <= max ->
  match res with inl (_, s') | inr (_, s') => length (written s') <= max end.
Proof.
  intros Hm. induction reads as [|reads IH]; [easy|]. intros turns c r rest total s res. cbn [decompress_reads].
  destruct (_ =? 0); [intros [= <-]; lia|]. destruct (inflate_chunk _ _ _ _ _ _ _ _ _) as [[[e s']|[[[c' r'] total'] s']]|] eqn:E; [| |easy].
  - intros [= <-] Hs. now apply inflate_chunk_limit in E.
  - intros E' Hs. apply inflate_chunk_limit in E; [|exact Hm|exact Hs]. now apply IH in E'.
Qed.
Lemma compress_loop_failed : forall turns c inp dst r d, compress_loop z turns c inp dst = Some (inl (r, d)) -> d = [].
Proof.
  induction turns as [|turns IH]; [easy|]. intros c inp dst r d. cbn [compress_loop].
  destruct (deflate z c true inp buffer_chunk) as [[[r' used] o] c']. destruct (_ =? _)%Z; [now intros [= _ <-]|].
  destruct (_ =? _); [apply IH|easy].
Qed.
End Limits.

(** ** Compression gives a gzip text, and ends *)

Section Laws.
Context {D I : Type} (z : zlib D I) text takes (ended : D -> Prop) coming gives (done : I -> Prop)
  `{HZ : !ZlibLaws z text takes ended coming gives done}.
#[local] Abbreviation gz := (text gzip_form).
#[local] Abbreviation taking := (takes gzip_form).
#[local] Abbreviation giving := (gives gzip_form).

(** The parameters the code gives are those of the gzip form. *)
Lemma init_gzip lvl mem : exists c, deflateInit2 z (level_value lvl) GZIP_WINDOW_BITS (mem_value mem) = inr c /\ taking None c [] [].
Proof using HZ. apply law_deflate_init; [destruct lvl; cbn; lia|destruct mem; cbn; lia|reflexivity]. Qed.
Lemma init_read : exists c, inflateInit2 z GZIP_WINDOW_BITS = inr c /\ giving c [] [].
Proof using HZ. now apply law_inflate_init. Qed.

(** A number of turns that is enough: with it and with any more the loop gives
    the same result. *)
Definition settles {A} (f : nat -> option A) (a : A) : Prop := exists n, forall m, n <= m -> f m = Some a.
Lemma settles_step {A} (f g : nat -> option A) a : (forall n, f (S n) = g n) -> settles g a -> settles f a.
Proof using. intros Hfg [n Hn]. exists (S n). intros [|m] Hm; [lia|]. rewrite Hfg. apply Hn. lia. Qed.
Lemma settles_now {A} (f : nat -> option A) a : (forall n, f (S n) = Some a) -> settles f a.
Proof using. intros H. exists 1. intros [|m] Hm; [lia|apply H]. Qed.
Lemma settles_bind {A B} (f : nat -> option A) (g : A -> nat -> option B) a b : settles f a -> settles (g a) b ->
  settles (fun n => let* x := f n in g x n) b.
Proof using. intros [n Hn] [m Hm]. exists (n `max` m). intros k Hk. rewrite (Hn k) by lia. apply Hm. lia. Qed.
Lemma settles_map {A B} (f : nat -> option A) (g : A -> option B) a b : settles f a -> g a = Some b -> settles (fun n => let* x := f n in g x) b.
Proof using. intros Hf Hg. apply (settles_bind f (fun x _ => g x) a b Hf). now exists 0. Qed.

Lemma chunk_positive : 0 < buffer_chunk.
Proof using. apply Nat.neq_0_lt_0, Nat.pow_nonzero. lia. Qed.

Lemma used_all {A} (l : list A) n : n = length l -> drop n l = [] /\ take n l = l.
Proof using. intros ->. split; [apply drop_all|apply firstn_all]. Qed.

Lemma compress_loop_ended c : ended c -> forall dst, settles (fun n => compress_loop z n c [] dst) (inr (Z_STREAM_END, dst)).
Proof using HZ.
  intros Hc dst. destruct (law_deflate_end c buffer_chunk Hc chunk_positive) as (c' & E & _). apply settles_now. intros n. cbn [compress_loop].
  rewrite E. cbn [length]. rewrite app_nil_r. now rewrite (proj2 (Nat.eqb_neq 0 buffer_chunk)) by (pose proof chunk_positive; lia).
Qed.
Lemma compress_loop_settles : forall left b c inp dst d, coming c (length inp) <= left -> taking b c d dst ->
  match b with Some kept => inp = kept | None => True end ->
  exists out, gz (dst ++ out) (d ++ inp) /\ settles (fun n => compress_loop z n c inp dst) (inr (Z_STREAM_END, dst ++ out)).
Proof using HZ.
  pose proof chunk_positive as Hp. induction left as [left IH] using lt_wf_ind. intros b c inp dst d Hl Ht Hb.
  destruct (deflate z c true inp buffer_chunk) as [[[r used] o] c'] eqn:E.
  assert (Hb' : match b with Some kept => true = true /\ inp = kept | None => True end) by (destruct b; auto).
  destruct (law_deflate gzip_form b c d dst true inp buffer_chunk r used o c' Ht Hp Hb' E) as (Hu & Ho & Hr & [(-> & _ & -> & Hg & He)|(Hn & Ht' & Hroom & Hc)]).
  - exists o. split; [exact Hg|]. destruct (decide (length o = buffer_chunk)) as [Eo|Eo].
    + apply (settles_step _ (fun n => compress_loop z n c' [] (dst ++ o))); [|now apply compress_loop_ended].
      intros n. cbn [compress_loop]. rewrite E. cbn [Z.eqb]. now rewrite (proj2 (Nat.eqb_eq _ _) Eo), drop_all.
    + apply settles_now. intros n. cbn [compress_loop]. rewrite E. now rewrite (proj2 (Nat.eqb_neq _ _) Eo).
  - assert (Eo : length o = buffer_chunk).
    { destruct (Nat.lt_ge_cases (length o) buffer_chunk) as [Hlt|]; [|lia]. destruct (Hroom Hlt) as [[=] _]. }
    destruct (IH (coming c' (length inp - used)) ltac:(lia) (Some (drop used inp)) c' (drop used inp) (dst ++ o) (d ++ take used inp))
      as (out & Hg & Hs); [now rewrite length_drop|exact Ht'|reflexivity|].
    exists (o ++ out). rewrite <- !app_assoc, take_drop in Hg. split; [exact Hg|]. rewrite app_assoc.
    apply (settles_step _ (fun n => compress_loop z n c' (drop used inp) (dst ++ o))); [|exact Hs].
    intros n. cbn [compress_loop]. rewrite E. rewrite (proj2 (Z.eqb_neq _ _) Hr). now rewrite (proj2 (Nat.eqb_eq _ _) Eo).
Qed.

Lemma available_all src : (Z.of_nat (length src) < 2 ^ 32)%Z -> available src = src.
Proof using. intros H. unfold available. rewrite wrap_small by (unfold uint; lia). apply take_ge. lia. Qed.

Lemma compress_settles old src lvl mem : src <> [] ->
  exists e, gz e (available src) /\ settles (fun n => compress z n old (Some src) lvl mem) (ok, e).
Proof using HZ.
  intros Hs. destruct (init_gzip lvl mem) as (c & E & Ht).
  destruct (compress_loop_settles _ None c (available src) [] [] (le_n _) Ht Logic.I) as (out & Hg & Hsettle). cbn [app] in *.
  exists out. split; [exact Hg|]. unfold compress. destruct src as [|b src]; [easy|]. rewrite E. now apply (settles_map _ _ _ _ Hsettle).
Qed.

(** *** Streams *)

(** A device that takes everything. *)
Definition all : list Z -> bool := fun _ => true.
Definition out_of (w : list Z) : ostream := OStream w true.
Lemma write_all_out w o : write_out all (out_of w) o = out_of (w ++ o).
Proof using. reflexivity. Qed.

Lemma deflate_chunk_ended c w n : ended c -> 0 < n ->
  exists c', ended c' /\ settles (fun t => deflate_chunk z all t c true [] n (out_of w)) (inr (c', [], out_of w)).
Proof using HZ.
  intros Hc Hn. destruct (law_deflate_end c n Hc Hn) as (c' & E & He). exists c'. split; [exact He|].
  apply settles_now. intros t. cbn [deflate_chunk]. rewrite E. cbn [Z.eqb length]. rewrite write_all_out, app_nil_r. cbn [out_good out_of negb].
  now rewrite (proj2 (Nat.eqb_neq 0 n)) by lia.
Qed.
Lemma deflate_chunk_settles fin n : 0 < n -> forall left b c inp w d, coming c (length inp) <= left -> taking b c d w ->
  match b with Some kept => fin = true /\ inp = kept | None => True end ->
  exists c' w', settles (fun t => deflate_chunk z all t c fin inp n (out_of w)) (inr (c', [], out_of w'))
    /\ if fin then ended c' /\ gz w' (d ++ inp) else taking None c' (d ++ inp) w'.
Proof using HZ.
  intros Hp. induction left as [left IH] using lt_wf_ind. intros b c inp w d Hl Ht Hb.
  destruct (deflate z c fin inp n) as [[[r used] o] c'] eqn:E.
  destruct (law_deflate gzip_form b c d w fin inp n r used o c' Ht Hp Hb E) as (Hu & Ho & Hr & Hcase).
  assert (Hstep : forall t, deflate_chunk z all (S t) c fin inp n (out_of w)
    = if length o =? n then deflate_chunk z all t c' fin (drop used inp) n (out_of (w ++ o)) else Some (inr (c', drop used inp, out_of (w ++ o)))).
  { intros t. cbn [deflate_chunk]. rewrite E, (proj2 (Z.eqb_neq _ _) Hr). now rewrite write_all_out. }
  destruct Hcase as [(-> & -> & -> & Hg & He)|(Hn & Ht' & Hroom & Hc)].
  - rewrite drop_all in Hstep. destruct (Nat.eqb_spec (length o) n) as [Eo|Eo].
    + destruct (deflate_chunk_ended c' (w ++ o) n He Hp) as (c2 & He2 & Hs). exists c2, (w ++ o). split; [|now split].
      exact (settles_step _ _ _ Hstep Hs).
    + exists c', (w ++ o). split; [now apply settles_now|now split].
  - destruct (Nat.eqb_spec (length o) n) as [Eo|Eo].
    + destruct (IH (coming c' (length inp - used)) ltac:(lia) (if fin then Some (drop used inp) else None) c' (drop used inp) (w ++ o)
        (d ++ take used inp)) as (c2 & w2 & Hs & Hend); [now rewrite length_drop|exact Ht'|now destruct fin|].
      rewrite <- app_assoc, take_drop in Hend. exists c2, w2. split; [exact (settles_step _ _ _ Hstep Hs)|exact Hend].
    + destruct (Hroom ltac:(lia)) as [-> ->]. rewrite drop_all in Hstep. rewrite firstn_all in Ht'.
      exists c', (w ++ o). split; [now apply settles_now|exact Ht'].
Qed.

Lemma compress_end_settles n : 0 < n -> forall left b c inp w d, coming c (length inp) <= left -> taking b c d w ->
  match b with Some kept => inp = kept | None => True end ->
  exists w', settles (fun t => compress_end z all t c inp n (out_of w)) (out_of w') /\ gz w' (d ++ inp).
Proof using HZ.
  intros Hp. induction left as [left IH] using lt_wf_ind. intros b c inp w d Hl Ht Hb.
  destruct (deflate z c true inp n) as [[[r used] o] c'] eqn:E.
  assert (Hb' : match b with Some kept => true = true /\ inp = kept | None => True end) by (destruct b; auto).
  destruct (law_deflate gzip_form b c d w true inp n r used o c' Ht Hp Hb' E) as (Hu & Ho & Hr & [(-> & _ & -> & Hg & He)|(Hn & Ht' & Hroom & Hc)]).
  - exists (w ++ o). split; [|exact Hg]. apply settles_now. intros t. cbn [compress_end]. now rewrite E.
  - assert (Eo : length o = n).
    { destruct (Nat.lt_ge_cases (length o) n) as [Hlt|]; [|lia]. destruct (Hroom Hlt) as [[=] _]. }
    destruct (IH (coming c' (length inp - used)) ltac:(lia) (Some (drop used inp)) c' (drop used inp) (w ++ o) (d ++ take used inp))
      as (w' & Hs & Hg); [now rewrite length_drop|exact Ht'|reflexivity|].
    rewrite <- app_assoc, take_drop in Hg. exists w'. split; [|exact Hg].
    apply (settles_step _ (fun t => compress_end z all t c' (drop used inp) n (out_of (w ++ o)))); [|exact Hs].
    intros t. cbn [compress_end]. rewrite E, (proj2 (Z.eqb_neq _ _) Hn). now rewrite write_all_out.
Qed.
Lemma compress_end_ended n c w : 0 < n -> ended c -> settles (fun t => compress_end z all t c [] n (out_of w)) (out_of w).
Proof using HZ.
  intros Hp Hc. destruct (law_deflate_end c n Hc Hp) as (c' & E & _). apply settles_now. intros t. cbn [compress_end].
  rewrite E, write_all_out, app_nil_r. reflexivity.
Qed.

Lemma compress_reads_settles n : 0 < n -> forall reads rest c w d, length rest < reads -> taking None c d w ->
  exists c' w', settles (fun t => compress_reads z all reads t c [] rest n (out_of w)) (inr (c', [], out_of w'))
    /\ (taking None c' (d ++ rest) w' \/ ended c' /\ gz w' (d ++ rest)).
Proof using HZ.
  intros Hp. induction reads as [|reads IH]; intros rest c w d Hl Ht; [lia|]. cbn [compress_reads].
  destruct (Nat.eqb_spec (length (take n rest)) 0) as [H0|H0].
  { exists c, w. assert (rest = []) as -> by (apply nil_length_inv; rewrite length_take in H0; lia). rewrite app_nil_r. split; [now exists 0|now left]. }
  destruct (deflate_chunk_settles (length (take n rest) <? n) n Hp _ None c (take n rest) w d (le_n _) Ht Logic.I) as (c1 & w1 & Hs & Hend).
  rewrite length_take in *. destruct (Nat.ltb_spec (n `min` length rest) n) as [Heof|Heof].
  - rewrite take_ge in Hend by lia. exists c1, w1. split; [|now right]. apply (settles_map _ _ _ _ Hs). reflexivity.
  - destruct (IH (drop n rest) c1 w1 (d ++ take n rest)) as (c2 & w2 & Hs2 & Hend2); [rewrite length_drop; lia|exact Hend|].
    rewrite <- app_assoc, take_drop in Hend2. exists c2, w2. split; [|exact Hend2]. exact (settles_bind _ _ _ _ Hs Hs2).
Qed.

Lemma compress_stream_settles content lvl mem n : 0 < n ->
  exists e, gz e content /\ settles (fun t => compress_stream z all t (out_of []) true content lvl mem n) (ok, out_of e).
Proof using HZ.
  intros Hp. destruct (init_gzip lvl mem) as (c & E & Ht).
  unfold compress_stream. cbn [out_good out_of negb orb]. rewrite E.
  destruct (compress_reads_settles n Hp (S (length content)) content c [] [] ltac:(lia) Ht) as (c' & w & Hs & [Ht'|[He Hg]]); cbn [app] in *.
  - destruct (compress_end_settles n Hp _ None c' [] w content (le_n _) Ht' Logic.I) as (w' & Hs' & Hg). rewrite app_nil_r in Hg.
    exists w'. split; [exact Hg|]. apply (settles_bind _ _ _ _ Hs). exact (settles_map _ _ _ _ Hs' eq_refl).
  - exists w. split; [exact Hg|]. apply (settles_bind _ _ _ _ Hs). exact (settles_map _ _ _ _ (compress_end_ended n c' w Hp He) eq_refl).
Qed.

(** ** Decompression gives the content back, and ends *)

(** The limit is off, or large enough. *)
Definition within (max : nat) (d : list Z) : Prop := max = 0 \/ length d <= max.
Lemma within_test max (d0 o d : list Z) : within max d -> (d0 ++ o) `prefix_of` d -> (0 <? max) && (max <? length d0 + length o) = false.
Proof using.
  intros Hw Hp. apply prefix_length in Hp. rewrite length_app in Hp. apply andb_false_iff.
  destruct Hw as [->|Hw]; [now left|right]. apply Nat.ltb_ge. lia.
Qed.

Lemma decompress_loop_done c dst max d : done c -> within max d -> dst = d ->
  settles (fun n => decompress_loop z n c [] dst max) (inr (Z_STREAM_END, dst)).
Proof using HZ.
  intros Hc Hw ->. destruct (law_inflate_done c buffer_chunk Hc chunk_positive) as (c' & E & _). apply settles_now. intros n. cbn [decompress_loop].
  rewrite E. change (inflate_failed Z_STREAM_END) with false. cbn iota. rewrite (within_test max d [] d Hw) by (now rewrite app_nil_r).
  cbn [length]. rewrite app_nil_r. now rewrite (proj2 (Nat.eqb_neq 0 buffer_chunk)) by (pose proof chunk_positive; lia).
Qed.
Lemma decompress_loop_settles max d : within max d -> forall left c t inp dst, length d - length dst <= left -> giving c t dst ->
  gz (t ++ inp) d -> settles (fun n => decompress_loop z n c inp dst max) (inr (Z_STREAM_END, d)).
Proof using HZ.
  intros Hw. pose proof chunk_positive as Hp. induction left as [left IH] using lt_wf_ind. intros c t inp dst Hl Hg He.
  destruct (inflate z c inp buffer_chunk) as [[[r used] o] c'] eqn:E.
  assert (He' : gz (t ++ inp ++ []) d) by (now rewrite app_nil_r).
  destruct (law_inflate gzip_form c t dst inp [] d buffer_chunk r used o c' Hg He' Hp E) as (Hu & Ho & Hr & Hcase).
  assert (Hpre : (dst ++ o) `prefix_of` d) by (destruct Hcase as [(_ & _ & _ & -> & _)|(_ & _ & H & _)]; [reflexivity|exact H]).
  assert (Hstep : forall n, decompress_loop z (S n) c inp dst max
    = if length o =? buffer_chunk then decompress_loop z n c' (drop used inp) (dst ++ o) max else Some (inr (r, dst ++ o))).
  { intros n. cbn [decompress_loop]. now rewrite E, Hr, (within_test max dst o d Hw Hpre). }
  destruct Hcase as [(-> & _ & -> & Hd & Hdone)|(Hn & Hg' & _ & Hroom)].
  - rewrite drop_all, Hd in Hstep. destruct (Nat.eqb_spec (length o) buffer_chunk); [|now apply settles_now].
    apply (settles_step _ _ _ Hstep). now apply (decompress_loop_done c' d max d).
  - destruct (Nat.eqb_spec (length o) buffer_chunk) as [Eo|Eo]; [|now destruct (Hroom ltac:(lia))].
    apply (settles_step _ _ _ Hstep). apply prefix_length in Hpre. rewrite length_app in Hpre.
    apply (IH (length d - length (dst ++ o)) ltac:(rewrite length_app; lia) c' (t ++ take used inp)); [lia|exact Hg'|].
    now rewrite <- app_assoc, take_drop.
Qed.

Lemma gz_nonempty e d : gz e d -> e <> [].
Proof using HZ. intros H ->. now apply law_magic in H. Qed.

Lemma decompress_settles old e d max : gz e d -> (Z.of_nat (length e) < 2 ^ 32)%Z -> within max d ->
  settles (fun n => decompress z n old (Some e) max) (ok, d).
Proof using HZ.
  intros He Hl Hw. destruct init_read as (c & E & Hg).
  pose proof (decompress_loop_settles max d Hw _ c [] (available e) [] (le_n _) Hg ltac:(now rewrite available_all)) as Hs.
  unfold decompress. pose proof (gz_nonempty e d He). destruct e as [|b e]; [easy|]. rewrite E. now apply (settles_map _ _ _ _ Hs).
Qed.

Lemma inflate_chunk_done c max d n : done c -> within max d -> 0 < n ->
  exists c', settles (fun t => inflate_chunk z all t c [] (length d) max n (out_of d)) (inr (c', Z_STREAM_END, length d, out_of d)).
Proof using HZ.
  intros Hc Hw Hn. destruct (law_inflate_done c n Hc Hn) as (c' & E & _). exists c'. apply settles_now. intros t. cbn [inflate_chunk].
  rewrite E. change (inflate_failed Z_STREAM_END) with false. cbn iota. pose proof (within_test max d [] d Hw ltac:(now rewrite app_nil_r)) as Ht.
  cbn [length] in Ht |- *. rewrite Nat.add_0_r in Ht |- *. rewrite Ht, write_all_out, app_nil_r. cbn [out_good out_of negb].
  now rewrite (proj2 (Nat.eqb_neq 0 n)) by lia.
Qed.
Lemma inflate_chunk_settles max d n more : within max d -> 0 < n -> forall left c t inp d0, length d - length d0 <= left -> giving c t d0 ->
  gz (t ++ inp ++ more) d -> exists c' r w, settles (fun k => inflate_chunk z all k c inp (length d0) max n (out_of d0)) (inr (c', r, length w, out_of w))
    /\ (r = Z_STREAM_END /\ w = d /\ more = [] \/ giving c' (t ++ inp) w /\ more <> []).
Proof using HZ.
  intros Hw Hp. induction left as [left IH] using lt_wf_ind. intros c t inp d0 Hl Hg He.
  destruct (inflate z c inp n) as [[[r used] o] c'] eqn:E.
  destruct (law_inflate gzip_form c t d0 inp more d n r used o c' Hg He Hp E) as (Hu & Ho & Hr & Hcase).
  assert (Hpre : (d0 ++ o) `prefix_of` d) by (destruct Hcase as [(_ & _ & _ & -> & _)|(_ & _ & H & _)]; [reflexivity|exact H]).
  assert (Hstep : forall k, inflate_chunk z all (S k) c inp (length d0) max n (out_of d0)
    = if length o =? n then inflate_chunk z all k c' (drop used inp) (length (d0 ++ o)) max n (out_of (d0 ++ o))
      else Some (inr (c', r, length (d0 ++ o), out_of (d0 ++ o)))).
  { intros k. cbn [inflate_chunk]. rewrite E, Hr, (within_test max d0 o d Hw Hpre), length_app. reflexivity. }
  destruct Hcase as [(-> & -> & -> & Hd & Hdone)|(Hn & Hg' & _ & Hroom)].
  - rewrite drop_all, Hd in Hstep. destruct (Nat.eqb_spec (length o) n) as [Eo|Eo].
    + destruct (inflate_chunk_done c' max d n Hdone Hw Hp) as (c2 & Hs). exists c2, Z_STREAM_END, d.
      split; [exact (settles_step _ _ _ Hstep Hs)|now left].
    + exists c', Z_STREAM_END, d. split; [now apply settles_now|now left].
  - destruct (Nat.eqb_spec (length o) n) as [Eo|Eo].
    + apply prefix_length in Hpre. rewrite length_app in Hpre.
      destruct (IH (length d - length (d0 ++ o)) ltac:(rewrite length_app; lia) c' (t ++ take used inp) (drop used inp) (d0 ++ o))
        as (c2 & r2 & w2 & Hs & Hend); [lia|exact Hg'|now rewrite <- app_assoc, (app_assoc (take used inp)), take_drop|].
      rewrite <- app_assoc, take_drop in Hend. exists c2, r2, w2. split; [exact (settles_step _ _ _ Hstep Hs)|exact Hend].
    + destruct (Hroom ltac:(lia)) as [-> Hmore]. rewrite firstn_all in Hg'.
      exists c', r, (d0 ++ o). split; [now apply settles_now|now right].
Qed.

Lemma decompress_reads_settles max d n : within max d -> 0 < n -> forall reads rest c r t d0, length rest < reads -> giving c t d0 ->
  gz (t ++ rest) d -> rest <> [] ->
  settles (fun k => decompress_reads z all reads k c r rest (length d0) max n (out_of d0)) (inr (Z_STREAM_END, out_of d)).
Proof using HZ.
  intros Hw Hp. induction reads as [|reads IH]; intros rest c r t d0 Hl Hg He Hr; [lia|]. cbn [decompress_reads].
  assert (Hlen : 0 < length rest) by (destruct rest; [easy|cbn; lia]).
  rewrite (proj2 (Nat.eqb_neq _ 0)) by (rewrite length_take; lia).
  destruct (inflate_chunk_settles max d n (drop n rest) Hw Hp _ c t (take n rest) d0 (le_n _) Hg) as (c' & r' & w & Hs & Hend);
    [now rewrite take_drop|].
  destruct Hend as [(-> & -> & Hmore)|(Hg' & Hmore)].
  - refine (settles_bind _ (fun res k => match res with inl failed => Some (inl failed)
        | inr (c, r, total, s) => decompress_reads z all reads k c r (drop n rest) total max n s end) _ _ Hs _).
    rewrite Hmore. exists 0. intros k _. destruct reads; [lia|]. cbn [decompress_reads]. now rewrite take_nil.
  - refine (settles_bind _ (fun res k => match res with inl failed => Some (inl failed)
        | inr (c, r, total, s) => decompress_reads z all reads k c r (drop n rest) total max n s end) _ _ Hs _).
    apply (IH _ _ _ (t ++ take n rest)); [rewrite length_drop; lia|exact Hg'|now rewrite <- app_assoc, take_drop|exact Hmore].
Qed.

Lemma decompress_stream_settles e d max n : gz e d -> within max d -> 0 < n ->
  settles (fun t => decompress_stream z all t (out_of []) true e max n) (ok, out_of d).
Proof using HZ.
  intros He Hw Hn. destruct init_read as (c & E & Hg).
  pose proof (decompress_reads_settles max d n Hw Hn (S (length e)) e c Z_OK [] [] ltac:(lia) Hg He (gz_nonempty e d He)) as Hs.
  unfold decompress_stream. cbn [out_good out_of negb orb]. rewrite E. now apply (settles_map _ _ _ _ Hs).
Qed.
End Laws.

(** ** A library with these laws *)

(** A text is a header of 10 bytes, a mark 1 before each byte, and a mark 0. *)
Module Sample.
Definition head (f : form) : list Z :=
  match f with
  | gzip_form => [0x1f; 0x8b; 8; 0; 0; 0; 0; 0; 0; 3] | zlib_form => 0x78 :: replicate 9 0 | raw_form => replicate 10 0 end%Z.
Definition header : list Z := head gzip_form.
Definition body (d : list Z) : list Z := flat_map (fun b => [1; b]%Z) d ++ [0%Z].
Definition text (f : form) (e d : list Z) : Prop := e = head f ++ body d.
Definition gz : list Z -> list Z -> Prop := text gzip_form.

(** What is still to be given, and whether the end was told. *)
Definition deflater : Type := list Z * bool.
Definition deflate (c : deflater) (fin : bool) (inp : list Z) (n : nat) : Z * nat * list Z * deflater :=
  let '(p, f) := c in
  let p := p ++ flat_map (fun b => [1; b]%Z) inp ++ (if fin && negb f then [0%Z] else []) in
  let r := if (f || fin) && (length p <=? n) then Z_STREAM_END else if (n =? 0) || (length p =? 0) then Z_BUF_ERROR else Z_OK in
  (r, length inp, take n p, (drop n p, f || fin)).

Fixpoint parse (t : list Z) : list Z * bool :=
  match t with
  | m :: t => if (m =? 0)%Z then ([], true) else match t with b :: t => let (d, fin) := parse t in (b :: d, fin) | [] => ([], false) end
  | [] => ([], false)
  end.
(** What was taken, and how many bytes were given. *)
Definition inflater : Type := list Z * nat.
Definition inflate (c : inflater) (inp : list Z) (n : nat) : Z * nat * list Z * inflater :=
  let '(t, g) := c in
  let (d, fin) := parse (drop 10 (t ++ inp)) in
  let o := take n (drop g d) in
  let g := g + length o in
  let r := if fin && (g =? length d) then Z_STREAM_END else if (length o =? 0) && (length inp =? 0) then Z_BUF_ERROR else Z_OK in
  (r, length inp, o, (t ++ inp, g)).
Definition lib : zlib deflater inflater := Zlib _ _
  (fun _ w _ => match deflate_form w with Some f => inr (head f, false) | None => inl Z_STREAM_ERROR end) deflate
  (fun w => if existsb (inflate_reads w) [gzip_form; zlib_form; raw_form] then inr ([], 0) else inl Z_STREAM_ERROR) inflate (fun c _ => c).

Definition taking (f : form) (b : option (list Z)) (c : deflater) (d e : list Z) : Prop :=
  let '(p, fin) := c in
  e ++ p = head f ++ flat_map (fun b => [1; b]%Z) d ++ (if fin : bool then [0%Z] else []) /\ b = (if fin then Some [] else None).
Definition ended (c : deflater) : Prop := c = ([], true).
Definition coming (c : deflater) (n : nat) : nat := length (fst c) + 2 * n + (if snd c then 0 else 1).
Definition giving (f : form) (c : inflater) (t d : list Z) : Prop :=
  let '(t', g) := c in t' = t /\ d = take g (fst (parse (drop 10 t))) /\ g <= length (fst (parse (drop 10 t))).
Definition done (c : inflater) : Prop := let '(t, g) := c in exists f d, t = head f ++ body d /\ g = length d.

Lemma marks_length (l : list Z) : length (flat_map (fun b => [1; b]%Z) l) = 2 * length l.
Proof. induction l as [|b l IH]; [reflexivity|]. cbn. lia. Qed.

Lemma form_head_length f : length (head f) = 10.
Proof. now destruct f. Qed.

(** A part of a text is parsed to a part of its content. *)
Lemma parse_part d : forall x y, body d = x ++ y -> parse x = (take (length x / 2) d, bool_decide (y = [])).
Proof.
  induction d as [|b d IH]; intros x y E.
  - destruct x as [|m [|? x]]; cbn in E; [|injection E as <- <-; reflexivity|discriminate].
    subst y. reflexivity.
  - unfold body in E. cbn [flat_map app] in E. destruct x as [|m [|b' x]].
    + cbn in E. subst y. reflexivity.
    + injection E as <- <-. reflexivity.
    + injection E as <- <- E. cbn [parse Z.eqb length]. rewrite (IH x y E). change (S (S (length x))) with (2 + length x).
      replace ((2 + length x) / 2) with (S (length x / 2)) by (rewrite (Nat.div_add_l 1 2) by lia; lia). reflexivity.
Qed.
Lemma text_parsed f t y d : t ++ y = head f ++ body d ->
  parse (drop 10 t) = (take (length (drop 10 t) / 2) d, bool_decide (y = [])).
Proof.
  intros E. assert (Hl : length t + length y = 11 + 2 * length d).
  { rewrite <- length_app, E, length_app, form_head_length. unfold body. rewrite length_app, marks_length. cbn. lia. }
  destruct (Nat.le_gt_cases 10 (length t)) as [Ht|Ht].
  - apply (parse_part d). replace (body d) with (drop 10 (head f ++ body d)) by (now destruct f). rewrite <- E, drop_app_le by lia. reflexivity.
  - rewrite drop_ge by lia. cbn. rewrite bool_decide_false; [reflexivity|]. intros ->. cbn in Hl. lia.
Qed.
Lemma whole_length f t d : t = head f ++ body d -> length (drop 10 t) / 2 = length d.
Proof.
  intros ->. replace (drop 10 (head f ++ body d)) with (body d) by (now destruct f). unfold body. rewrite length_app, marks_length. cbn [length].
  rewrite Nat.mul_comm, Nat.div_add_l by lia. cbn. lia.
Qed.

Lemma deflate_law g b c d e fin inp n r used o c' : taking g b c d e -> 0 < n ->
  match b with Some kept => fin = true /\ inp = kept | None => True end ->
  deflate c fin inp n = (r, used, o, c') ->
  used <= length inp /\ length o <= n /\ r <> Z_STREAM_ERROR
  /\ ((r = Z_STREAM_END /\ fin = true /\ used = length inp /\ text g (e ++ o) (d ++ inp) /\ ended c')
      \/ (r <> Z_STREAM_END /\ taking g (if fin then Some (drop used inp) else None) c' (d ++ take used inp) (e ++ o)
          /\ (length o < n -> fin = false /\ used = length inp) /\ length o + coming c' (length inp - used) <= coming c (length inp))).
Proof.
  destruct c as [p f]. intros [He Hb] Hn Hin. unfold deflate. set (p' := p ++ _). intros [= <- <- <- <-].
  assert (Hp : e ++ p' = head g ++ flat_map (fun b => [1; b]%Z) (d ++ inp) ++ (if f || fin then [0%Z] else [])).
  { subst p'. rewrite app_assoc, He, flat_map_app, <- !app_assoc. destruct f; [|now destruct fin].
    subst b. destruct Hin as [-> ->]. now rewrite app_nil_r. }
  assert (Hfin : fin = f || fin) by (destruct f; [subst b; destruct Hin as [-> _]|]; reflexivity).
  rewrite length_take. split_and!; [lia|lia|repeat case_match; (discriminate || reflexivity)|]. rewrite <- Hfin in *. rewrite firstn_all.
  destruct fin; cbn [andb].
  - destruct (Nat.leb_spec (length p') n) as [Hle|Hgt].
    + left. rewrite take_ge, drop_ge by lia. split_and!; try reflexivity. exact Hp.
    + right. split; [match goal with |- (if ?b then _ else _) <> _ => now destruct b end|]. rewrite drop_all. split; [|split; [lia|]].
      * split; [|reflexivity]. now rewrite <- app_assoc, take_drop.
      * unfold coming. cbn [fst snd]. rewrite length_drop. subst p'. rewrite !length_app, marks_length in *.
        destruct f; cbn [negb andb length] in *; lia.
  - right. split; [match goal with |- (if ?b then _ else _) <> _ => now destruct b end|]. assert (f = false) as -> by (now destruct f). split; [|split; [auto|]].
    * split; [|reflexivity]. now rewrite <- app_assoc, take_drop.
    * unfold coming. cbn [fst snd]. rewrite length_drop. subst p'. rewrite !length_app, marks_length. cbn [negb andb length]. lia.
Qed.

Lemma inflate_law f c t d0 inp more d n r used o c' : giving f c t d0 -> text f (t ++ inp ++ more) d -> 0 < n ->
  inflate c inp n = (r, used, o, c') ->
  used <= length inp /\ length o <= n /\ inflate_failed r = false
  /\ ((r = Z_STREAM_END /\ more = [] /\ used = length inp /\ d0 ++ o = d /\ done c')
      \/ (r <> Z_STREAM_END /\ giving f c' (t ++ take used inp) (d0 ++ o) /\ (d0 ++ o) `prefix_of` d
          /\ (length o < n -> used = length inp /\ more <> []))).
Proof.
  destruct c as [t' g]. intros (-> & -> & Hg) He Hn. unfold inflate.
  assert (E : parse (drop 10 (t ++ inp)) = (take (length (drop 10 (t ++ inp)) / 2) d, bool_decide (more = []))).
  { apply (text_parsed f). now rewrite <- app_assoc. }
  rewrite (text_parsed f t _ d He) in *. cbn [fst] in *. rewrite length_take in Hg. rewrite E.
  set (k := length (drop 10 (t ++ inp)) / 2) in *.
  assert (Hk : length (drop 10 t) / 2 <= k).
  { apply Nat.Div0.div_le_mono. rewrite !length_drop, length_app. lia. }
  intros [= <- <- <- <-].
  assert (Ho : take g (take (length (drop 10 t) / 2) d) ++ take n (drop g (take k d)) = take (g + n) (take k d)).
  { rewrite take_take, Nat.min_l by lia. replace (take g d) with (take g (take k d)) by (rewrite take_take; f_equal; lia).
    apply take_take_drop. }
  rewrite firstn_all, length_take, length_drop, length_take. split_and!; [lia|lia|repeat case_match; (discriminate || reflexivity)|].
  case_bool_decide as Hm; cbn [andb].
  - subst more. assert (Hkd : k = length d).
    { apply (whole_length f). rewrite app_nil_r in He. exact He. }
    destruct (Nat.eqb_spec (g + n `min` (k `min` length d - g)) (k `min` length d)) as [Eq|Ne].
    + left. split_and!; try reflexivity.
      * rewrite Ho, (take_ge d k) by lia. apply take_ge. lia.
      * exists f, d. rewrite app_nil_r in He. split; [exact He|lia].
    + right. split; [match goal with |- (if ?b then _ else _) <> _ => now destruct b end|]. split_and!.
      * unfold giving. rewrite E. cbn [fst]. split_and!; [reflexivity| |rewrite length_take; lia]. rewrite Ho.
        rewrite (take_ge d k) by lia. destruct (Nat.le_gt_cases n (length d - g)); [f_equal; lia|]. lia.
      * rewrite Ho, take_take. apply prefix_take.
      * lia.
  - right. split; [match goal with |- (if ?b then _ else _) <> _ => now destruct b end|]. split_and!.
    + unfold giving. rewrite E. cbn [fst]. split_and!; [reflexivity| |rewrite length_take; lia]. rewrite Ho.
      destruct (Nat.le_gt_cases n (k `min` length d - g)) as [Hle|Hgt]; [f_equal; lia|].
      trans (take k d); [|symmetry]; apply take_ge; rewrite length_take; lia.
    + rewrite Ho, take_take. apply prefix_take.
    + auto.
Qed.

#[export] Instance lib_laws : ZlibLaws lib text taking ended coming giving done.
Proof.
  split.
  - intros e d ->. reflexivity.
  - intros lvl w mem f _ _ E. cbn [deflateInit2 lib]. rewrite E. eexists. split; [reflexivity|]. split; [|reflexivity]. cbn. now rewrite app_nil_r.
  - exact deflate_law.
  - intros c n -> Hn. exists ([], true). split; [|reflexivity]. cbn. destruct n; reflexivity.
  - intros w f E. cbn [inflateInit2 lib]. replace (existsb _ _) with true by (symmetry; apply existsb_exists; exists f; split; [destruct f; cbn; tauto|exact E]).
    eexists. split; [reflexivity|]. cbn. split_and!; [reflexivity..|lia].
  - exact inflate_law.
  - intros [t g] n (f & d & Ht & ->) Hn. exists (t, length d). split; [|now exists f, d]. cbn [Gzip.inflate lib]. unfold inflate.
    rewrite app_nil_r, (text_parsed f t [] d) by (now rewrite app_nil_r). rewrite (whole_length f t d Ht), firstn_all, bool_decide_true by done.
    rewrite drop_all, take_nil. cbn [length andb]. now rewrite Nat.add_0_r, Nat.eqb_refl.
Qed.
End Sample.

(** ** The theorems *)

(** C23: Compressing a buffer that is not empty and is shorter than 4 GiB, or a
    stream of any length read in chunks of any positive size, at any level, ends
    with a text of the content in the gzip form (the library writes the form that
    the window bits it is given ask for); decompressing the text, as a buffer or as a stream in chunks
    of any other size, ends with the content, whether the limit on the output is
    off or as large as the content.  (With enough turns of the loops, and with
    any more, the result is the one said.)  With chunks of size 0 compression never
    ends. *)
Theorem gzip_roundtrip {D I : Type} (z : zlib D I) text taking ended coming giving done (HZ : ZlibLaws z text taking ended coming giving done) :
  let gz := text gzip_form in
  (forall old src lvl mem, src <> [] -> (Z.of_nat (length src) < 2 ^ 32)%Z -> exists e,
     gz e src /\ is_gzip_format (Some e) = true /\ settles (fun t => compress z t old (Some src) lvl mem) (ok, e))
  /\ (forall content lvl mem n, 0 < n -> exists e,
     gz e content /\ is_gzip_format (Some e) = true
     /\ settles (fun t => compress_stream z all t (out_of []) true content lvl mem n) (ok, out_of e))
  /\ (forall e content max, gz e content -> within max content ->
     (forall old, (Z.of_nat (length e) < 2 ^ 32)%Z -> settles (fun t => decompress z t old (Some e) max) (ok, content))
     /\ (forall n, 0 < n -> settles (fun t => decompress_stream z all t (out_of []) true e max n) (ok, out_of content))).
Proof.
  intros gz. split_and!.
  - intros old src lvl mem Hs Hl. destruct (compress_settles z text taking ended coming giving done old src lvl mem Hs) as (e & He & Hc).
    rewrite available_all in He by exact Hl. exists e. split_and!; [exact He|exact (law_magic e src He)|exact Hc].
  - intros content lvl mem n Hn. destruct (compress_stream_settles z text taking ended coming giving done content lvl mem n Hn) as (e & He & Hc).
    exists e. split_and!; [exact He|exact (law_magic e content He)|exact Hc].
  - intros e content max He Hw. split.
    + intros old Hl. exact (decompress_settles z text taking ended coming giving done old e content max He Hl Hw).
    + intros n Hn. exact (decompress_stream_settles z text taking ended coming giving done e content max n He Hw Hn).
Qed.

Lemma gzip_roundtrip_witness : (Sample.gz (Sample.header ++ Sample.body [7; 8; 9]%Z) [7; 8; 9]%Z /\ within 3 [7; 8; 9]%Z)
  /\ settles (fun t => decompress_stream Sample.lib all t (out_of []) true (Sample.header ++ Sample.body [7; 8; 9]%Z) 3 4) (ok, out_of [7; 8; 9]%Z).
Proof.
  split; [split; [reflexivity|now right]|].
  destruct (gzip_roundtrip Sample.lib Sample.text Sample.taking Sample.ended Sample.coming Sample.giving Sample.done Sample.lib_laws) as (_ & _ & H).
  apply (H (Sample.header ++ Sample.body [7; 8; 9]%Z) [7; 8; 9]%Z 3); [reflexivity|now right|lia].
Defined.

(** C24: Whatever the library does and whatever it is given: a buffer is not
    decompressed to more than the limit, when there is one, nor is more written
    to a stream that was empty; a buffer that is not decompressed or compressed
    with success is empty or as it was, and text that is more than the limit is
    reported as such or as an error of the library.  The guessed sizes of
    buffers do not wrap: they are at most 256 MiB for decompression. *)
Theorem gzip_limits {D I : Type} (z : zlib D I) (accepts : list Z -> bool) (max : nat) (Hm : 0 < max) :
  (forall turns old src r d, decompress z turns old src max = Some (r, d) ->
     (length d <= max \/ d = old) /\ (r <> ok -> d = [] \/ d = old))
  /\ (forall turns s in_good content n r s', decompress_stream z accepts turns s in_good content max n = Some (r, s') -> written s = [] ->
     length (written s') <= max)
  /\ (forall turns old src lvl mem r d, compress z turns old src lvl mem = Some (r, d) -> r <> ok -> d = [] \/ d = old)
  /\ (forall src_sz, (0 <= src_sz < 2 ^ 63)%Z -> (src_sz <= compress_reserve_sz src_sz < 2 ^ 64)%Z
     /\ forall m, (0 <= m < 2 ^ 64)%Z -> (0 < decompress_reserve_sz src_sz m <= 2 ^ 28)%Z /\ ((0 < m)%Z -> (decompress_reserve_sz src_sz m <= m)%Z)).
Proof.
  split_and!.
  - intros turns old src r d. unfold decompress. destruct src as [[|b src]|]; try (intros [= <- <-]; auto).
    destruct (inflateInit2 z _); [intros [= <- <-]; auto|].
    destruct (decompress_loop z turns i _ [] max) as [res|] eqn:E; [|easy].
    apply decompress_loop_limit in E; [|exact Hm|apply Nat.le_0_l].
    destruct res as [[r' d']|[r' d']]; [destruct E as [-> _]; intros [= <- <-]; split; auto; left; apply Nat.le_0_l|].
    destruct (_ =? _)%Z; intros [= <- <-]; [now split; [left|]|split; auto; left; apply Nat.le_0_l].
  - intros turns s in_good content n r s' E Hs. unfold decompress_stream in E. destruct (_ || _); [injection E as <- <-; rewrite Hs; apply Nat.le_0_l|].
    destruct (inflateInit2 z _); [injection E as <- <-; rewrite Hs; apply Nat.le_0_l|].
    destruct (decompress_reads z _ _ _ _ _ _ _ _ _ _) as [[[r' d']|[r' d']]|] eqn:E'; [| |easy];
      apply decompress_reads_limit in E'; rewrite ?Hs; cbn [length]; try lia; now injection E as _ <-.
  - intros turns old src lvl mem r d. unfold compress. destruct src as [[|b src]|]; try (intros [= <- <-]; auto).
    destruct (deflateInit2 z _); [intros [= <- <-]; auto|].
    destruct (compress_loop z turns _ _ []) as [[[r' d']|[r' d']]|] eqn:E; [| |easy].
    + apply compress_loop_failed in E as ->. intros [= <- <-]. auto.
    + destruct (_ =? _)%Z; intros [= <- <-]; [easy|auto].
  - intros src_sz Hs. unfold compress_reserve_sz, decompress_reserve_sz.
    pose proof (Z.mul_div_le src_sz 1000 ltac:(lia)). pose proof (Z.div_pos src_sz 1000 ltac:(lia) ltac:(lia)).
    rewrite (wrap_small 64 (src_sz + _)) by (unfold uint; lia). rewrite (wrap_small 64 (src_sz + src_sz / 1000 + 12)) by (unfold uint; lia).
    rewrite wrap_small by (unfold uint; lia). split; [lia|]. intros m Hmm.
    destruct (Z.ltb_spec 0 m); [lia|]. destruct (src_sz =? 0)%Z; [lia|]. split; lia.
Qed.

Lemma gzip_limits_witness : 0 < 2 /\ decompress Sample.lib 9 [5]%Z (Some (Sample.header ++ Sample.body [7; 8; 9]%Z)) 2 = Some (max_output_sz_exceeded, [])
  /\ (length (@nil Z) <= 2 \/ @nil Z = [5]%Z).
Proof.
  assert (E : decompress Sample.lib 9 [5]%Z (Some (Sample.header ++ Sample.body [7; 8; 9]%Z)) 2 = Some (max_output_sz_exceeded, [])) by (vm_compute; reflexivity).
  split; [lia|]. split; [exact E|]. refine (proj1 (proj1 (gzip_limits Sample.lib all 2 _) _ _ _ _ _ E)). lia.
Defined.

(** ** Cases that go wrong *)

(** Two enumerators have one value. *)
Lemma codes_collide : input_invalid = need_dict.
Proof. reflexivity. Qed.

(** A text that is cut off: the last code is [Z_OK], which is returned as a
    success: of a buffer nothing is left, of a stream a part. *)
Lemma truncated_is_ok :
  let e := Sample.header ++ Sample.body [7; 8; 9]%Z in
  decompress Sample.lib 9 [] (Some (take 14 e)) 0 = Some (ok, [])
  /\ decompress_stream Sample.lib all 9 (out_of []) true (take 14 e) 0 4 = Some (ok, out_of [7; 8]%Z).
Proof. vm_compute. now split. Qed.

(** Nor is a stream without any text refused. *)
Lemma empty_text_is_ok {D I : Type} (z : zlib D I) accepts turns max n c : inflateInit2 z GZIP_WINDOW_BITS = inr c ->
  decompress_stream z accepts turns (out_of []) true [] max n = Some (ok, out_of []).
Proof. intros E. unfold decompress_stream. cbn [negb orb out_good out_of]. rewrite E. cbn [length decompress_reads]. now rewrite take_nil. Qed.

(** Of a source of 4 GiB or more only the length modulo 4 GiB is compressed, with
    success. *)
Lemma long_source_cut {D I : Type} (z : zlib D I) text taking ended coming giving done `{!ZlibLaws z text taking ended coming giving done}
    old src k lvl mem : (0 <= k < 2 ^ 32)%Z -> Z.of_nat (length src) = (2 ^ 32 + k)%Z ->
  exists e, text gzip_form e (take (Z.to_nat k) src) /\ settles (fun t => compress z t old (Some src) lvl mem) (ok, e).
Proof.
  intros Hk Hl. destruct (compress_settles z text taking ended coming giving done old src lvl mem) as (e & He & Hs).
  { intros ->. cbn in Hl. lia. }
  exists e. split; [|exact Hs]. unfold available in He. rewrite Hl in He. unfold wrap in He.
  now rewrite <- Z.add_mod_idemp_l, Z.mod_same, Z.add_0_l, Z.mod_small in He by lia.
Qed.

(** A device that is full when the last chunk is flushed: the writes of the last
    loop are not looked at. *)
Lemma last_writes_unchecked :
  exists w, compress_stream Sample.lib (fun l => length l <=? 18) 9 (out_of []) true [7; 8; 9; 10]%Z default_compression default_level 4
    = Some (ok, OStream w false) /\ ~ Sample.gz w [7; 8; 9; 10]%Z.
Proof. eexists. split; [vm_compute; reflexivity|]. discriminate. Qed.

(** Chunks of size 0: the last loop never ends. *)
Lemma zero_chunk_hangs : forall turns content, compress_stream Sample.lib all turns (out_of []) true content default_compression default_level 0 = None.
Proof.
  intros turns content. unfold compress_stream. cbn [negb orb out_good out_of deflateInit2 Sample.lib].
  change (deflate_form GZIP_WINDOW_BITS) with (Some gzip_form). cbn [compress_reads length]. rewrite take_0. cbn [length Nat.eqb].
  assert (H : forall turns p f s, 0 < length p -> compress_end Sample.lib all turns (p, f) [] 0 s = None).
  { clear. induction turns as [|turns IH]; [easy|]. intros p f s Hp. cbn [compress_end deflate Sample.lib]. unfold Sample.deflate. cbn [flat_map app].
    rewrite !take_0, !drop_0, length_app. rewrite (proj2 (Nat.leb_gt _ _)) by lia. rewrite andb_false_r. cbn [orb Nat.eqb Z.eqb].
    change (Z_BUF_ERROR =? Z_STREAM_END)%Z with false. cbn iota. apply IH. rewrite length_app. lia. }
  rewrite H; [reflexivity|]. cbn. lia.
Qed.
