(* ===== verification/VectorIndex.v ===== *)
(** * Indexes of vectors

    [ai/vector_index.hpp]: an object that owns an index of the search library
    through a raw pointer.  The memory has the wrapper objects (whose [_index] is
    a location or null), the indexes by location, and the files; so a pointer that
    dangles, an index that is freed twice or never shows.  The indexes and their
    operations are the library's, a parameter ([faiss]); an operation that gives
    none throws.  An operation returns or throws, in both cases with a memory;
    [None] is undefined behaviour.  Numbers of vectors and identifiers are signed
    64-bit integers. *)

From Stdlib Require Import ZArith Lia List Bool.
From stdpp Require Import base tactics list option gmap strings.
From S2P Require Import Prelude.

Open Scope hj_scope.
Open Scope nat_scope.

Module VectorIndex.

(** The enumeration [metric] is handed to the library. *)
Inductive metric := inner_product | l2 | l1 | linf | lp | canberra | bray_curtis | jensen_shannon | jaccard | nan_euclidean | gower.

(** ** The library *)

(** [is_T]: the dynamic type is the one of the template; [F] are floating point
    numbers.  What is written to a file may be cut off by an exception. *)
Record faiss (Idx F Arg : Type) := Faiss
  { is_T : Idx -> bool; is_idmap : Idx -> bool;
    make : list Arg -> option Idx;
    ntotal : Idx -> Z; dim : Idx -> Z;
    idx_add : Idx -> Z -> list F -> option Idx;
    idx_add_with_ids : Idx -> Z -> list F -> list Z -> option Idx;
    idx_merge_from : Idx -> Idx -> Z -> option (Idx * Idx);
    idx_reconstruct : Idx -> Z -> option (list F);
    idx_reconstruct_keys : Idx -> Z -> list Z -> option (list F);
    idx_reconstruct_n : Idx -> Z -> Z -> option (list F);
    idx_search : Idx -> Z -> list F -> Z -> option (list F * list Z);
    idx_range_search : Idx -> Z -> list F -> F -> option (list F * list Z);
    idx_reset : Idx -> Idx;
    write_index : Idx -> option (list Z);
    write_file : Idx -> list Z * bool;
    read_index : list Z -> option (option Idx) }.
#[global] Arguments is_T {Idx F Arg}. #[global] Arguments is_idmap {Idx F Arg}. #[global] Arguments make {Idx F Arg}.
#[global] Arguments ntotal {Idx F Arg}. #[global] Arguments dim {Idx F Arg}. #[global] Arguments idx_add {Idx F Arg}.
#[global] Arguments idx_add_with_ids {Idx F Arg}. #[global] Arguments idx_merge_from {Idx F Arg}. #[global] Arguments idx_reconstruct {Idx F Arg}.
#[global] Arguments idx_reconstruct_keys {Idx F Arg}. #[global] Arguments idx_reconstruct_n {Idx F Arg}. #[global] Arguments idx_search {Idx F Arg}.
#[global] Arguments idx_range_search {Idx F Arg}. #[global] Arguments idx_reset {Idx F Arg}. #[global] Arguments write_index {Idx F Arg}.
#[global] Arguments write_file {Idx F Arg}. #[global] Arguments read_index {Idx F Arg}.

(** ** Memory and outcomes *)

Record memory (Idx : Type) := Memory
  { objects : gmap nat (option nat);  (* [_index] of each wrapper *)
    indexes : gmap nat Idx; next_loc : nat; disk : gmap string (list Z) }.
#[global] Arguments Memory {Idx}. #[global] Arguments objects {Idx}. #[global] Arguments indexes {Idx}.
#[global] Arguments next_loc {Idx}. #[global] Arguments disk {Idx}.

Inductive outcome (Idx A : Type) := Ret (a : A) (m : memory Idx) | Throw (m : memory Idx).
#[global] Arguments Ret {Idx A}. #[global] Arguments Throw {Idx A}.

Section VectorIndex.
Context {Idx F Arg : Type} (o : faiss Idx F Arg).

Definition M (A : Type) : Type := memory Idx -> option (outcome Idx A).
Definition ret {A} (a : A) : M A := fun m => Some (Ret a m).
Definition throw {A} : M A := fun m => Some (Throw m).
Definition bind {A B} (x : M A) (f : A -> M B) : M B := fun m =>
  match x m with None => None | Some (Throw m) => Some (Throw m) | Some (Ret a m) => f a m end.
(** [try { x } catch(...) { handler }] *)
Definition try_catch {A} (x handler : M A) : M A := fun m => match x m with Some (Throw m) => handler m | r => r end.
#[local] Notation "'do' p <- x ; k" := (bind x (fun y => match y with p => k end)) (at level 10, p pattern, x at level 99, k at level 200).
(** A call of the library that may throw. *)
Definition call {A} (x : option A) : M A := match x with Some a => ret a | None => throw end.
Definition undefined {A} : M A := fun _ => None.

Definition get (self : nat) : M (option nat) := fun m => let* i := objects m !! self in Some (Ret i m).
Definition put (self : nat) (i : option nat) : M unit := fun m =>
  let* _ := objects m !! self in Some (Ret tt (Memory (<[self := i]> (objects m)) (indexes m) (next_loc m) (disk m))).
Definition new_index (x : Idx) : M nat := fun m =>
  Some (Ret (next_loc m) (Memory (objects m) (<[next_loc m := x]> (indexes m)) (S (next_loc m)) (disk m))).
Definition deref (l : nat) : M Idx := fun m => let* x := indexes m !! l in Some (Ret x m).
Definition store (l : nat) (x : Idx) : M unit := fun m =>
  let* _ := indexes m !! l in Some (Ret tt (Memory (objects m) (<[l := x]> (indexes m)) (next_loc m) (disk m))).
Definition free (l : nat) : M unit := fun m =>
  let* _ := indexes m !! l in Some (Ret tt (Memory (objects m) (delete l (indexes m)) (next_loc m) (disk m))).
(** [delete p] for a pointer that may be null. *)
Definition delete_ptr (i : option nat) : M unit := match i with Some l => free l | None => ret tt end.
Definition read_file (path : string) : M (option (list Z)) := fun m => Some (Ret (disk m !! path) m).
Definition set_file (path : string) (content : option (list Z)) : M unit := fun m =>
  Some (Ret tt (Memory (objects m) (indexes m) (next_loc m) (match content with Some c => <[path := c]> (disk m) | None => delete path (disk m) end))).

(** ** Construction and ownership *)

Definition construct (self : nat) (idx : option nat) : M unit := fun m =>
  match objects m !! self with
  | Some _ => None
  | None => Some (Ret tt (Memory (<[self := idx]> (objects m)) (indexes m) (next_loc m) (disk m)))
  end.
Definition vector_index (self : nat) : M unit := construct self None.
Definition vector_index_from (self : nat) (idx : option nat) : M unit := construct self idx.
Definition vector_index_move (self other : nat) : M unit :=
  do i <- get other; do _ <- construct self i; put other None.
Definition assign_move (self other : nat) : M unit :=
  if self =? other then ret tt else
  do i <- get self; do _ <- delete_ptr i; do j <- get other; do _ <- put self j; put other None.
Definition destroy (self : nat) : M unit :=
  do i <- get self; do _ <- delete_ptr i;
  fun m => Some (Ret tt (Memory (delete self (objects m)) (indexes m) (next_loc m) (disk m))).
Definition get_index (self : nat) : M (option nat) := get self.
Definition set_index (self : nat) (idx : option nat) : M unit :=
  do i <- get self; do _ <- delete_ptr i; put self idx.
(** The index there was is not deleted. *)
Definition build (self : nat) (args : list Arg) : M unit :=
  do x <- call (make o args); do l <- new_index x; put self (Some l).

(** ** Contents *)

(** [if(!_index) return none; ...] *)
Definition with_index {A} (self : nat) (none : A) (f : nat -> Idx -> M A) : M A :=
  do i <- get self; match i with None => ret none | Some l => do x <- deref l; f l x end.

Definition add (self : nat) (vectors_num : Z) (vectors : list F) : M bool :=
  with_index self false (fun l x => do y <- call (idx_add o x vectors_num vectors); do _ <- store l y; ret true).
Definition add_with_ids (self : nat) (vectors_num : Z) (vectors : list F) (ids : list Z) : M bool :=
  with_index self false (fun l x => if negb (is_idmap o x) then ret false else
    do y <- call (idx_add_with_ids o x vectors_num vectors ids); do _ <- store l y; ret true).
(** The other index is not tested for null. *)
Definition merge_from (self other : nat) (add_id : Z) : M bool :=
  with_index self false (fun l x =>
    do j <- get other;
    match j with
    | None => undefined
    | Some l' => do x' <- deref l'; do (y, y') <- call (idx_merge_from o x x' add_id); do _ <- store l' y'; do _ <- store l y; ret true
    end).
Definition reconstruct (self : nat) (key : Z) : M (option (list F)) :=
  with_index self None (fun _ x => do v <- call (idx_reconstruct o x key); ret (Some v)).
Definition reconstruct_batch (self : nat) (n : Z) (keys : list Z) : M (option (list F)) :=
  with_index self None (fun _ x => do v <- call (idx_reconstruct_keys o x n keys); ret (Some v)).
Definition search (self : nat) (vectors_num : Z) (vectors : list F) (ret_num : Z) : M (option (list F * list Z)) :=
  with_index self None (fun _ x => do r <- call (idx_search o x vectors_num vectors ret_num); ret (Some r)).
Definition range_search (self : nat) (vectors_num : Z) (vectors : option (list F)) (radius : F) (result_ptr : bool) : M (option (list F * list Z)) :=
  with_index self None (fun _ x => match vectors with
    | Some vectors => if result_ptr then do r <- call (idx_range_search o x vectors_num vectors radius); ret (Some r) else ret None
    | None => ret None end).
Definition get_vector (self : nat) (idx : Z) (vec_ptr : bool) : M (option (list F)) :=
  with_index self None (fun _ x =>
    if (idx <? 0)%Z || (ntotal o x <=? idx)%Z || negb vec_ptr then ret None else do v <- call (idx_reconstruct o x idx); ret (Some v)).
(** [vec] is resized, to what is then written; a negative size is a length error. *)
Definition get_vector_resized (self : nat) (idx : Z) : M (option (list F)) :=
  with_index self None (fun _ x =>
    if (idx <? 0)%Z || (ntotal o x <=? idx)%Z then ret None else
    if (sint_of 32 (dim o x) <? 0)%Z then throw else do v <- call (idx_reconstruct o x idx); ret (Some v)).
(** The product is one of [int]. *)
Definition get_all_vectors (self : nat) : M (option (list F)) :=
  with_index self None (fun _ x =>
    if (ntotal o x =? 0)%Z then ret None else
    let dim := sint_of 32 (dim o x) in
    let n := sint_of 32 (ntotal o x) in
    if negb ((- 2 ^ 31 <=? n * dim) && (n * dim <? 2 ^ 31))%Z then undefined else
    if (n * dim <? 0)%Z then throw else do v <- call (idx_reconstruct_n o x 0 n); ret (Some v)).
Definition reset (self : nat) : M unit := with_index self tt (fun l x => store l (idx_reset o x)).
Definition total (self : nat) : M Z := with_index self 0%Z (fun _ x => ret (ntotal o x)).

(** ** Bytes and files *)

Definition serialize (self : nat) : M (option (list Z)) :=
  with_index self None (fun _ x => do b <- call (write_index o x); ret (Some b)).
(** The pointer that [read_index] gives: null or a new object. *)
Definition read_new (content : list Z) : M (option nat) :=
  do r <- call (read_index o content); match r with None => ret None | Some x => do l <- new_index x; ret (Some l) end.
Definition deserialize (self : nat) (buffer : list Z) : M bool :=
  match buffer with [] => ret false | _ =>
  do r <- read_new buffer;
  match r with
  | None => ret false
  | Some l =>
      do x <- deref l;
      if negb (is_T o x) then do _ <- free l; ret false else
      do old <- get self; do _ <- put self (Some l); do _ <- delete_ptr old; ret true
  end end.
(** [static_cast<T *>] of an object of another type. *)
Definition static_cast (l : nat) : M unit := do x <- deref l; if is_T o x then ret tt else undefined.

Definition write_to (path : string) (x : Idx) : M unit :=
  let '(bytes, thrown) := write_file o x in do _ <- set_file path (Some bytes); if thrown : bool then throw else ret tt.
Definition save (self : nat) (filename : string) : M bool := with_index self false (fun _ x => do _ <- write_to filename x; ret true).
(** [now]: the count of the clock as a text; [rename_fails]: the system refuses. *)
Definition save_s (self : nat) (filename now : string) (rename_fails : bool) : M bool :=
  with_index self false (fun _ x =>
    let temp_file := (filename ++ ".tmp" ++ now)%string in
    try_catch
      (do _ <- write_to temp_file x;
       do content <- read_file temp_file;
       match content with
       | None | Some [] => throw
       | Some bytes =>
           do loaded <- read_new bytes;
           match loaded with
           | None => throw
           | Some l =>
               do y <- deref l;
               if negb (ntotal o y =? ntotal o x)%Z then throw else
               do _ <- free l;
               if rename_fails then throw else
               do _ <- set_file filename (Some bytes); do _ <- set_file temp_file None; ret true
           end
       end)
      (do _ <- set_file temp_file None; ret false)).
(** The index is deleted first; a file that does not exist throws. *)
Definition load (self : nat) (filename : string) : M bool :=
  do i <- get self; do _ <- delete_ptr i;
  do content <- read_file filename;
  do bytes <- call content;
  do r <- read_new bytes;
  match r with None => ret false | Some l => do _ <- static_cast l; do _ <- put self (Some l); ret true end.
Definition load_s (self : nat) (filename : option string) : M bool :=
  match filename with
  | None | Some EmptyString => ret false
  | Some filename =>
      do content <- read_file filename;
      match content with
      | None | Some [] => ret false
      | Some bytes =>
          try_catch
            (do r <- read_new bytes;
             match r with
             | None => ret false
             | Some l => do _ <- static_cast l; do old <- get self; do _ <- put self (Some l); do _ <- delete_ptr old; ret true
             end)
            (ret false)
      end
  end.
End VectorIndex.
End VectorIndex.
