(* ===== verification/VectorIndexThm.v ===== *)
(** * Indexes of vectors: theorems

    Who owns what: every pointer of a wrapper is to an index of its own, over
    every sequence of operations whose callers keep their side ([allowed]), with
    exceptions anywhere; and no index is lost, but for the cases said.  Bytes and
    files: what is serialized is read back, a safe save leaves the old file or
    the new one. *)

From Stdlib Require Import ZArith Lia List Bool.
From stdpp Require Import base tactics list option gmap strings.
From S2P Require Import Prelude VectorIndex.
Import VectorIndex.

Open Scope hj_scope.
Open Scope nat_scope.

(** Operations keep the type of an index. *)
Class FaissLaws {Idx F Arg : Type} (o : faiss Idx F Arg) : Prop :=
  { law_make args x : make o args = Some x -> is_T o x = true;
    law_add x n v y : idx_add o x n v = Some y -> is_T o y = is_T o x;
    law_add_ids x n v ids y : idx_add_with_ids o x n v ids = Some y -> is_T o y = is_T o x;
    law_merge x x' k y y' : idx_merge_from o x x' k = Some (y, y') -> is_T o y = is_T o x /\ is_T o y' = is_T o x';
    law_reset x : is_T o (idx_reset o x) = is_T o x }.

Section Ownership.
Context {Idx F Arg : Type} (o : faiss Idx F Arg) `{!FaissLaws o}.
Implicit Types m : memory Idx.

Definition owns m (self l : nat) : Prop := objects m !! self = Some (Some l).
Record sound m : Prop :=
  { sound_live self l : owns m self l -> exists x, indexes m !! l = Some x /\ is_T o x = true;
    sound_own self self' l : owns m self l -> owns m self' l -> self = self';
    sound_fresh l : next_loc m <= l -> indexes m !! l = None }.
Definition no_leak m : Prop := forall l x, indexes m !! l = Some x -> exists self, owns m self l.

(** What holds after an operation that returns, and after one that throws. *)
Definition wp {A} (x : M A) (Q : A -> memory Idx -> Prop) (E : memory Idx -> Prop) m : Prop :=
  match x m with None => False | Some (Ret a m') => Q a m' | Some (Throw m') => E m' end.
Lemma wp_bind {A B} (x : M A) (f : A -> M B) Q E m : wp x (fun a => wp (f a) Q E) E m -> wp (bind x f) Q E m.
Proof. unfold wp, bind. now destruct (x m) as [[a m'|m']|]. Qed.
Lemma wp_mono {A} (x : M A) (Q Q' : A -> memory Idx -> Prop) (E E' : memory Idx -> Prop) m : (forall a m', Q a m' -> Q' a m') -> (forall m', E m' -> E' m') ->
  wp x Q E m -> wp x Q' E' m.
Proof. unfold wp. destruct (x m) as [[a m'|m']|]; auto. Qed.
Lemma wp_call {A} (r : option A) (Q : A -> memory Idx -> Prop) (E : memory Idx -> Prop) m : (forall a, r = Some a -> Q a m) -> E m -> wp (call r) Q E m.
Proof. intros HQ HE. destruct r; cbn; auto. Qed.
Lemma wp_try {A} (x h : M A) Q E m : wp x Q (wp h Q E) m -> wp (try_catch x h) Q E m.
Proof. unfold wp, try_catch. now destruct (x m) as [[a m'|m']|]. Qed.

(** The memories in which only the contents of an owned index differ. *)
Lemma sound_store m self l y : sound m -> owns m self l -> is_T o y = true ->
  sound (Memory (objects m) (<[l := y]> (indexes m)) (next_loc m) (disk m)).
Proof.
  intros [Hl Ho Hf] Hs Hy. split; unfold owns in *; cbn in *.
  - intros s l' H. destruct (decide (l = l')) as [->|Hne]; [exists y; now rewrite lookup_insert_eq|].
    rewrite lookup_insert_ne by done. now apply (Hl s).
  - exact Ho.
  - intros l' H. rewrite lookup_insert_ne; [now apply Hf|]. intros ->. destruct (Hl _ _ Hs) as (x & Hx & _). rewrite (Hf l' H) in Hx. discriminate.
Qed.
Lemma no_leak_store m self l y : no_leak m -> owns m self l -> no_leak (Memory (objects m) (<[l := y]> (indexes m)) (next_loc m) (disk m)).
Proof.
  intros Hn Hs l' x. cbn. destruct (decide (l = l')) as [->|Hne]; [intros _; now exists self|]. rewrite lookup_insert_ne by done. apply Hn.
Qed.
(** The files do not matter. *)
Lemma sound_disk m d : sound m -> sound (Memory (objects m) (indexes m) (next_loc m) d).
Proof. now intros [? ? ?]. Qed.
(** An index that nobody owns: made, or freed again. *)
Lemma sound_new m x : sound m -> sound (Memory (objects m) (<[next_loc m := x]> (indexes m)) (S (next_loc m)) (disk m)).
Proof.
  intros [Hl Ho Hf]. split; unfold owns in *; cbn in *; [|exact Ho|].
  - intros s l H. destruct (Hl _ _ H) as (y & Hy & HT). exists y. split; [|exact HT]. rewrite lookup_insert_ne; [exact Hy|].
    intros <-. rewrite (Hf (next_loc m)) in Hy by lia. discriminate.
  - intros l H. rewrite lookup_insert_ne by lia. apply Hf. lia.
Qed.
Lemma sound_free m l : sound m -> (forall self, ~ owns m self l) -> sound (Memory (objects m) (delete l (indexes m)) (next_loc m) (disk m)).
Proof.
  intros [Hl Ho Hf] Hn. split; unfold owns in *; cbn in *; [|exact Ho|].
  - intros s l' H. rewrite lookup_delete_ne; [now apply (Hl s)|]. intros ->. now apply (Hn s).
  - intros l' H. destruct (decide (l = l')) as [->|Hne]; [apply lookup_delete_eq|]. rewrite lookup_delete_ne by done. now apply Hf.
Qed.
(** A wrapper takes an index that nobody owns, or none. *)
Lemma sound_put m self i : sound m -> match i with
    | Some l => (exists x, indexes m !! l = Some x /\ is_T o x = true) /\ (forall s, owns m s l -> s = self) | None => True end ->
  sound (Memory (<[self := i]> (objects m)) (indexes m) (next_loc m) (disk m)).
Proof.
  intros [Hl Ho Hf] Hi. split; unfold owns in *; cbn in *; [| |exact Hf].
  - intros s l H. destruct (decide (self = s)) as [->|Hne]; [|rewrite lookup_insert_ne in H by done; now apply (Hl s)].
    rewrite lookup_insert_eq in H. injection H as ->. apply Hi.
  - intros s s' l H H'. destruct (decide (self = s)) as [<-|Hne], (decide (self = s')) as [<-|Hne']; simplify_map_eq.
    + reflexivity.
    + symmetry. now apply Hi.
    + now apply Hi.
    + now apply (Ho s s' l).
Qed.
Lemma sound_destroy m self : sound m -> sound (Memory (delete self (objects m)) (indexes m) (next_loc m) (disk m)).
Proof.
  intros [Hl Ho Hf]. assert (H : forall s l, delete self (objects m) !! s = Some (Some l) -> owns m s l).
  { intros s l. destruct (decide (self = s)) as [->|Hne]; [now rewrite lookup_delete_eq|]. now rewrite lookup_delete_ne. }
  split; unfold owns in *; cbn in *; [|intros; eapply Ho; eauto|exact Hf]. intros s l Hs. now apply (Hl s), H.
Qed.

(** ** An index is replaced *)

Definition del (i : option nat) (mp : gmap nat Idx) : gmap nat Idx := match i with Some l => delete l mp | None => mp end.
(** The wrapper takes a new index, and its old one is deleted. *)
Definition swap m (self : nat) (old : option nat) (x : Idx) : memory Idx :=
  Memory (<[self := Some (next_loc m)]> (objects m)) (del old (<[next_loc m := x]> (indexes m))) (S (next_loc m)) (disk m).

Lemma sound_swap m self old x : sound m -> objects m !! self = Some old -> is_T o x = true -> sound (swap m self old x).
Proof using.
  intros Hm Hs HT. pose proof (sound_new m x Hm) as H1.
  assert (H2 : sound (Memory (<[self := Some (next_loc m)]> (objects m)) (<[next_loc m := x]> (indexes m)) (S (next_loc m)) (disk m))).
  { apply (sound_put _ self (Some (next_loc m)) H1). cbn. split; [exists x; now rewrite lookup_insert_eq|].
    intros s Hown. destruct (sound_live m Hm s _ Hown) as (y & Hy & _). rewrite (sound_fresh m Hm (next_loc m)) in Hy by lia. discriminate. }
  destruct old as [l|]; [|exact H2]. apply (sound_free _ l H2). intros s Hown. unfold owns in Hown. cbn in Hown.
  destruct (decide (self = s)) as [<-|Hne].
  - rewrite lookup_insert_eq in Hown. injection Hown as <-. destruct (sound_live m Hm self _ Hs) as (y & Hy & _).
    rewrite (sound_fresh m Hm (next_loc m)) in Hy by lia. discriminate.
  - rewrite lookup_insert_ne in Hown by done. now apply Hne, (sound_own m Hm self s l).
Qed.
Lemma swap_lookup m self old x : sound m -> objects m !! self = Some old -> indexes (swap m self old x) !! next_loc m = Some x.
Proof using.
  intros Hm Hs. cbn. destruct old as [l|]; [|apply lookup_insert_eq]. cbn. rewrite lookup_delete_ne; [apply lookup_insert_eq|].
  intros ->. destruct (sound_live m Hm self _ Hs) as (y & Hy & _). rewrite (sound_fresh m Hm (next_loc m)) in Hy by lia. discriminate.
Qed.
Lemma no_leak_swap m self old x : sound m -> no_leak m -> objects m !! self = Some old -> no_leak (swap m self old x).
Proof using.
  intros Hm Hn Hs l y. unfold owns. cbn. destruct (decide (l = next_loc m)) as [->|Hne]; [intros _; exists self; apply lookup_insert_eq|].
  intros Hl. assert (Hl' : indexes m !! l = Some y /\ old <> Some l).
  { unfold del in Hl. destruct old as [l0|]; [|rewrite lookup_insert_ne in Hl by done; now split].
    destruct (decide (l0 = l)) as [->|Hl0]; [now rewrite lookup_delete_eq in Hl|].
    rewrite lookup_delete_ne, lookup_insert_ne in Hl by done. split; [exact Hl|congruence]. }
  destruct Hl' as [Hl1 Hl2]. destruct (Hn l y Hl1) as (s & Hown). exists s. rewrite lookup_insert_ne; [exact Hown|].
  intros <-. unfold owns in Hown. congruence.
Qed.

(** The evaluation of the steps of a replacement. *)
Lemma del_eval m old self (d : gmap nat (option nat)) idx n k : sound m -> objects m !! self = Some old ->
  (forall l, old = Some l -> idx !! l = indexes m !! l) ->
  delete_ptr old (Memory d idx n k) = Some (Ret tt (Memory d (del old idx) n k)).
Proof using.
  intros Hm Hs Hi. destruct old as [l|]; [|reflexivity]. cbn. unfold free. cbn. rewrite (Hi l eq_refl).
  destruct (sound_live m Hm self l Hs) as (x & -> & _). reflexivity.
Qed.
Lemma delete_old m self old : sound m -> objects m !! self = Some old ->
  delete_ptr old m = Some (Ret tt (Memory (objects m) (del old (indexes m)) (next_loc m) (disk m))).
Proof using. intros Hm Hs. pose proof (del_eval m old self (objects m) (indexes m) (next_loc m) (disk m) Hm Hs (fun _ _ => eq_refl)). now destruct m. Qed.
Lemma old_not_new m self old x : sound m -> objects m !! self = Some old -> forall l, old = Some l -> <[next_loc m := x]> (indexes m) !! l = indexes m !! l.
Proof using.
  intros Hm Hs l ->. apply lookup_insert_ne. intros <-. destruct (sound_live m Hm self _ Hs) as (y & Hy & _).
  rewrite (sound_fresh m Hm (next_loc m)) in Hy by lia. discriminate.
Qed.
Lemma replace_eval {A} m self old x (k : M A) : sound m -> objects m !! self = Some old ->
  bind (get self) (fun i => bind (put self (Some (next_loc m))) (fun _ => bind (delete_ptr i) (fun _ => k)))
    (Memory (objects m) (<[next_loc m := x]> (indexes m)) (S (next_loc m)) (disk m)) = k (swap m self old x).
Proof using.
  intros Hm Hs. unfold bind at 1, get. cbn. rewrite Hs. unfold bind at 1, put. cbn. rewrite Hs. unfold bind at 1.
  rewrite (del_eval m old self) by (first [assumption|now apply (old_not_new m self old x)]). reflexivity.
Qed.
Lemma set_index_eval m self old x : sound m -> objects m !! self = Some old ->
  bind (new_index x) (fun l => set_index self (Some l)) m = Some (Ret tt (swap m self old x)).
Proof using.
  intros Hm Hs. unfold bind at 1, new_index, set_index. unfold bind at 1, get. cbn [objects]. rewrite Hs. unfold bind.
  rewrite (del_eval m old self) by (first [assumption|now apply (old_not_new m self old x)]). unfold put. cbn [objects]. rewrite Hs. reflexivity.
Qed.

(** ** Operations as commands *)

Inductive cmd :=
| CNew (self : nat) | CFrom (self : nat) (x : Idx) | CMove (self other : nat) | CAssign (self other : nat) | CDestroy (self : nat)
| CSet (self : nat) (x : Idx) | CUnset (self : nat) | CBuild (self : nat) (args : list Arg)
| CAdd (self : nat) (n : Z) (v : list F) | CAddIds (self : nat) (n : Z) (v : list F) (ids : list Z) | CMerge (self other : nat) (add_id : Z)
| CReconstruct (self : nat) (key : Z) | CReconstructBatch (self : nat) (n : Z) (keys : list Z)
| CSearch (self : nat) (n : Z) (v : list F) (k : Z) | CRange (self : nat) (n : Z) (v : option (list F)) (radius : F) (p : bool)
| CVector (self : nat) (idx : Z) (p : bool) | CVectorResized (self : nat) (idx : Z) | CAll (self : nat) | CReset (self : nat) | CTotal (self : nat)
| CSerialize (self : nat) | CDeserialize (self : nat) (buffer : list Z)
| CSave (self : nat) (f : string) | CSaveS (self : nat) (f now : string) (rename_fails : bool) | CLoad (self : nat) (f : string) | CLoadS (self : nat) (f : option string).

Definition drop_result {A} (x : M (Idx := Idx) A) : M (Idx := Idx) unit := bind x (fun _ => ret tt).
(** [CFrom] and [CSet] are given a pointer to an index the caller just made. *)
Definition step (c : cmd) : M (Idx := Idx) unit :=
  match c with
  | CNew self => vector_index self
  | CFrom self x => bind (new_index x) (fun l => vector_index_from self (Some l))
  | CMove self other => vector_index_move self other
  | CAssign self other => assign_move self other
  | CDestroy self => destroy self
  | CSet self x => bind (new_index x) (fun l => set_index self (Some l))
  | CUnset self => set_index self None
  | CBuild self args => build o self args
  | CAdd self n v => drop_result (add o self n v)
  | CAddIds self n v ids => drop_result (add_with_ids o self n v ids)
  | CMerge self other k => drop_result (merge_from o self other k)
  | CReconstruct self key => drop_result (reconstruct o self key)
  | CReconstructBatch self n keys => drop_result (reconstruct_batch o self n keys)
  | CSearch self n v k => drop_result (search o self n v k)
  | CRange self n v r p => drop_result (range_search o self n v r p)
  | CVector self idx p => drop_result (get_vector o self idx p)
  | CVectorResized self idx => drop_result (get_vector_resized o self idx)
  | CAll self => drop_result (get_all_vectors o self)
  | CReset self => reset o self
  | CTotal self => drop_result (total o self)
  | CSerialize self => drop_result (serialize o self)
  | CDeserialize self buffer => drop_result (deserialize o self buffer)
  | CSave self f => drop_result (save o self f)
  | CSaveS self f now rf => drop_result (save_s o self f now rf)
  | CLoad self f => drop_result (load o self f)
  | CLoadS self f => drop_result (load_s o self f)
  end.

(** Whatever the file is read as has the type of the template. *)
Definition typed_file m (f : string) : Prop := forall bytes x, disk m !! f = Some bytes -> read_index o bytes = Some (Some x) -> is_T o x = true.
Definition int_range (z : Z) : Prop := (- 2 ^ 31 <= z < 2 ^ 31)%Z.
(** The callers' side: wrappers exist, or not yet; another index that is merged is
    there; the numbers of all vectors fit an [int]; files are of the type, and
    [load] over an index is of a file that can be read. *)
Definition allowed (c : cmd) m : Prop :=
  match c with
  | CNew self => objects m !! self = None
  | CFrom self x => objects m !! self = None /\ is_T o x = true
  | CMove self other => objects m !! self = None /\ is_Some (objects m !! other)
  | CAssign self other => is_Some (objects m !! self) /\ is_Some (objects m !! other)
  | CSet self x => is_Some (objects m !! self) /\ is_T o x = true
  | CMerge self other _ => is_Some (objects m !! self) /\ exists l, owns m other l
  | CAll self => is_Some (objects m !! self)
      /\ forall l x, owns m self l -> indexes m !! l = Some x -> int_range (sint_of 32 (ntotal o x) * sint_of 32 (dim o x))
  | CLoad self f => is_Some (objects m !! self) /\ typed_file m f
      /\ (objects m !! self = Some None \/ exists bytes x, disk m !! f = Some bytes /\ read_index o bytes = Some (Some x))
  | CLoadS self f => is_Some (objects m !! self) /\ match f with Some f => typed_file m f | None => True end
  | CDestroy self | CUnset self | CBuild self _ | CAdd self _ _ | CAddIds self _ _ _ | CReconstruct self _ | CReconstructBatch self _ _
  | CSearch self _ _ _ | CRange self _ _ _ _ | CVector self _ _ | CVectorResized self _ | CReset self | CTotal self
  | CSerialize self | CDeserialize self _ | CSave self _ | CSaveS self _ _ _ => is_Some (objects m !! self)
  end.
(** The operations that lose no index: [build] on a wrapper without one, [save_s]
    when the file is read back as it was written. *)
Definition frugal (c : cmd) m : Prop :=
  match c with
  | CBuild self _ => objects m !! self = Some None
  | CSaveS self _ _ _ => forall l x y, owns m self l -> indexes m !! l = Some x -> read_index o (fst (write_file o x)) = Some (Some y) ->
      ntotal o y = ntotal o x
  | _ => True
  end.

(** ** Each command keeps ownership *)

(** What a command makes of the memory. *)
Definition good m (lose : Prop) m' : Prop := sound m' /\ (lose -> no_leak m -> no_leak m').
Lemma good_refl m lose : sound m -> good m lose m.
Proof using. now split. Qed.
Lemma good_swap m self old x lose : sound m -> objects m !! self = Some old -> is_T o x = true -> good m lose (swap m self old x).
Proof using. intros Hm Hs HT. split; [now apply sound_swap|intros _ Hn; now apply no_leak_swap]. Qed.
Lemma good_store m self l y lose : sound m -> owns m self l -> is_T o y = true ->
  good m lose (Memory (objects m) (<[l := y]> (indexes m)) (next_loc m) (disk m)).
Proof using. intros Hm Hs HT. split; [now apply (sound_store m self)|intros _ Hn; now apply (no_leak_store m self)]. Qed.

Lemma wp_drop {A} (x : M (Idx := Idx) A) (E : memory Idx -> Prop) m : wp x (fun _ => E) E m -> wp (drop_result x) (fun _ => E) E m.
Proof using. intros H. apply wp_bind. exact H. Qed.
(** A step whose rest is to be shown at its memory. *)
Lemma wp_eval {A B} (x : M A) (f : A -> M B) a m m' (Q : B -> memory Idx -> Prop) (E : memory Idx -> Prop) :
  x m = Some (Ret a m') -> wp (f a) Q E m' -> wp (bind x f) Q E m.
Proof using. intros H. unfold wp, bind. now rewrite H. Qed.

Lemma wp_index {A} m self (none : A) (f : nat -> Idx -> M A) (Q : A -> memory Idx -> Prop) (E : memory Idx -> Prop) : sound m ->
  is_Some (objects m !! self) -> Q none m ->
  (forall l x, owns m self l -> indexes m !! l = Some x -> is_T o x = true -> wp (f l x) Q E m) -> wp (with_index self none f) Q E m.
Proof using.
  intros Hm [i Hi] Hn Hf. unfold with_index. apply (wp_eval _ _ i m m); [unfold get; now rewrite Hi|]. destruct i as [l|]; [|exact Hn].
  destruct (sound_live m Hm self l Hi) as (x & Hx & HT). apply (wp_eval _ _ x m m); [unfold deref; now rewrite Hx|]. now apply Hf.
Qed.
(** A question leaves the memory as it is. *)
Lemma wp_query {A B} m (r : option A) (f : A -> M B) (Q : B -> memory Idx -> Prop) (E : memory Idx -> Prop) :
  (forall a, wp (f a) Q E m) -> E m -> wp (bind (call r) f) Q E m.
Proof using. intros Hf HE. apply wp_bind, wp_call; auto. Qed.
Lemma store_eval m l x y : indexes m !! l = Some x -> store l y m = Some (Ret tt (Memory (objects m) (<[l := y]> (indexes m)) (next_loc m) (disk m))).
Proof using. intros H. unfold store. now rewrite H. Qed.
(** The index is replaced by one of the same type, or the library throws. *)
Lemma wp_update {B} m self l x (r : option Idx) (k : M B) (b : B) lose : sound m -> owns m self l -> indexes m !! l = Some x ->
  (forall y, r = Some y -> is_T o y = true) -> k = ret b ->
  wp (bind (call r) (fun y => bind (store l y) (fun _ => k))) (fun _ => good m lose) (good m lose) m.
Proof using.
  intros Hm Hs Hx HT ->. apply wp_bind, wp_call; [|now apply good_refl]. intros y E.
  eapply wp_eval; [exact (store_eval m l x y Hx)|]. apply (good_store m self); auto.
Qed.

(** A new object for what was read, when there is one. *)
Lemma wp_read {B} m bytes (f : option nat -> M B) (Q : B -> memory Idx -> Prop) (E : memory Idx -> Prop) : E m ->
  (read_index o bytes = Some None -> wp (f None) Q E m) ->
  (forall x, read_index o bytes = Some (Some x) ->
     wp (f (Some (next_loc m))) Q E (Memory (objects m) (<[next_loc m := x]> (indexes m)) (S (next_loc m)) (disk m))) ->
  wp (bind (read_new o bytes) f) Q E m.
Proof using.
  intros HE Hn Hx. unfold read_new. apply wp_bind, wp_bind, wp_call; [|exact HE]. intros [x|] Er; [now apply Hx|now apply Hn].
Qed.

Lemma deserialize_good m self buffer lose : sound m -> is_Some (objects m !! self) ->
  wp (deserialize o self buffer) (fun _ => good m lose) (good m lose) m.
Proof using.
  intros Hm [i Hi]. unfold deserialize. destruct buffer as [|b buffer]; [now apply good_refl|].
  apply wp_read; [now apply good_refl|intros _; now apply good_refl|]. intros x Er.
  eapply wp_eval; [unfold deref; cbn; now rewrite lookup_insert_eq|]. destruct (is_T o x) eqn:HT; cbn [negb].
  - unfold wp. rewrite (replace_eval m self i x (ret true) Hm Hi). now apply good_swap.
  - eapply wp_eval; [unfold free; cbn; now rewrite lookup_insert_eq|]. split; cbn.
    + rewrite delete_insert_id by (apply (sound_fresh m Hm); lia). destruct Hm as [Hl Ho Hf]. split; [exact Hl|exact Ho|]. cbn. intros l H. apply Hf. lia.
    + intros _ Hn l y. cbn. rewrite delete_insert_id by (apply (sound_fresh m Hm); lia). apply Hn.
Qed.
Lemma load_s_good m self f lose : sound m -> is_Some (objects m !! self) -> match f with Some f => typed_file m f | None => True end ->
  wp (load_s o self f) (fun _ => good m lose) (good m lose) m.
Proof using.
  intros Hm [i Hi] Hf. unfold load_s. destruct f as [[|c f]|]; try (now apply good_refl). set (f0 := String c f) in *.
  eapply wp_eval; [reflexivity|]. destruct (disk m !! f0) as [[|b bytes]|] eqn:Ed; try (now apply good_refl).
  apply wp_try. apply wp_read; [now apply good_refl|intros _; now apply good_refl|]. intros x Er. pose proof (Hf _ x Ed Er) as HT.
  eapply wp_eval; [unfold static_cast, bind, deref; cbn; now rewrite lookup_insert_eq, HT|].
  unfold wp at 1. rewrite (replace_eval m self i x (ret true) Hm Hi). now apply good_swap.
Qed.
Lemma load_good m self f lose : sound m -> is_Some (objects m !! self) -> typed_file m f ->
  (objects m !! self = Some None \/ exists bytes x, disk m !! f = Some bytes /\ read_index o bytes = Some (Some x)) ->
  wp (load o self f) (fun _ => good m lose) (good m lose) m.
Proof using.
  intros Hm [i Hi] Hf Hread. unfold load. eapply wp_eval; [unfold get; now rewrite Hi|].
  eapply wp_eval; [exact (delete_old m self i Hm Hi)|].
  eapply wp_eval; [reflexivity|]. cbn [disk].
  assert (Hend : forall x, is_T o x = true -> wp (bind (static_cast o (next_loc m)) (fun _ => bind (put self (Some (next_loc m))) (fun _ => ret true)))
    (fun _ => good m lose) (good m lose) (Memory (objects m) (<[next_loc m := x]> (del i (indexes m))) (S (next_loc m)) (disk m))).
  { intros x HT. eapply wp_eval; [unfold static_cast, bind, deref; cbn; now rewrite lookup_insert_eq, HT|].
    eapply wp_eval; [unfold put; cbn; now rewrite Hi|]. cbn.
    replace (<[next_loc m := x]> (del i (indexes m))) with (del i (<[next_loc m := x]> (indexes m))); [now apply (good_swap m self i x)|].
    destruct i as [l|]; [|reflexivity]. cbn. apply delete_insert_ne. intros ->.
    destruct (sound_live m Hm self _ Hi) as (y & Hy & _). rewrite (sound_fresh m Hm (next_loc m)) in Hy by lia. discriminate. }
  destruct Hread as [Hnull|(bytes & x & Ed & Er)].
  - assert (i = None) as -> by congruence. cbn [del] in *. destruct m as [d idx n k]. cbn in *. destruct (k !! f) as [bytes|] eqn:Ed; [|now apply good_refl].
    apply (wp_eval _ _ bytes _ (Memory d idx n k)); [reflexivity|]. apply wp_read; [now apply good_refl|intros _; now apply good_refl|].
    intros x Er. apply Hend. now apply (Hf bytes x).
  - rewrite Ed. eapply wp_eval; [reflexivity|]. unfold read_new. rewrite Er. unfold call. apply wp_bind. cbn.
    exact (Hend x (Hf bytes x Ed Er)).
Qed.

(** ** Saving *)

Definition temp_of (filename now : string) : string := (filename ++ ".tmp" ++ now)%string.
Lemma append_length a b : String.length (a ++ b)%string = String.length a + String.length b.
Proof using. induction a as [|c a IH]; [reflexivity|]. change (String c a ++ b)%string with (String c (a ++ b)). cbn. now rewrite IH. Qed.
Lemma temp_differs f now : temp_of f now <> f.
Proof using. intros E. apply (f_equal String.length) in E. unfold temp_of in E. rewrite !append_length in E. cbn in E. lia. Qed.

(** After [save_s]: on success the file has what the library wrote for the index,
    which is read as an index of as many vectors; in any case no file but these
    two is another, the temporary one is gone, and on failure the old file is
    there. *)
Definition saved m (x : Idx) (filename now : string) (b : bool) m' : Prop :=
  disk m' !! temp_of filename now = None
  /\ (forall p, p <> filename -> p <> temp_of filename now -> disk m' !! p = disk m !! p)
  /\ if b then exists y bytes, write_file o x = (bytes, false) /\ bytes <> [] /\ disk m' !! filename = Some bytes
        /\ read_index o bytes = Some (Some y) /\ ntotal o y = ntotal o x
     else disk m' !! filename = disk m !! filename.

Lemma good_disk m lose d : sound m -> good m lose (Memory (objects m) (indexes m) (next_loc m) d).
Proof using. intros Hm. split; [now apply sound_disk|now intros _ Hn]. Qed.
Lemma save_s_wp m self l x filename now rf : sound m -> owns m self l -> indexes m !! l = Some x -> is_T o x = true ->
  wp (save_s o self filename now rf)
    (fun b m' => good m (forall y, read_index o (fst (write_file o x)) = Some (Some y) -> ntotal o y = ntotal o x) m' /\ saved m x filename now b m')
    (fun _ => False) m.
Proof using.
  intros Hm Hs Hx HT. set (lose := forall y, _). unfold save_s, with_index.
  eapply wp_eval; [unfold get; now rewrite Hs|]. eapply wp_eval; [unfold deref; now rewrite Hx|].
  fold (temp_of filename now). set (tmp := temp_of filename now). pose proof (temp_differs filename now) as Ht. fold tmp in Ht.
  assert (Hfail : forall idx n d, sound (Memory (objects m) idx n d) -> (lose -> no_leak m -> no_leak (Memory (objects m) idx n d)) ->
    (forall p, p <> tmp -> d !! p = disk m !! p) ->
    wp (bind (set_file tmp None) (fun _ => ret false)) (fun b m' => good m lose m' /\ saved m x filename now b m') (fun _ => False)
      (Memory (objects m) idx n d)).
  { intros idx n d H1 H2 H3. split; [split; [exact (sound_disk _ (delete tmp d) H1)|exact H2]|]. split; [apply lookup_delete_eq|]. cbn. split.
    - intros p _ Hp. fold tmp in Hp. rewrite lookup_delete_ne by done. now apply H3.
    - rewrite lookup_delete_ne by done. now apply H3. }
  apply wp_try. unfold write_to. destruct (write_file o x) as [bytes thrown] eqn:Ew.
  assert (Hd : forall p, p <> tmp -> <[tmp := bytes]> (disk m) !! p = disk m !! p) by (intros p Hp; now rewrite lookup_insert_ne).
  assert (Hw : sound (Memory (objects m) (indexes m) (next_loc m) (<[tmp := bytes]> (disk m)))) by (now apply sound_disk).
  destruct thrown; cbn [fst snd] in *.
  { apply wp_bind. eapply wp_eval; [reflexivity|]. cbn. apply (Hfail _ _ _ Hw); [now intros _ Hn|exact Hd]. }
  eapply wp_eval; [reflexivity|]. eapply wp_eval; [unfold read_file; cbn; now rewrite lookup_insert_eq|].
  destruct bytes as [|b0 bytes]; [apply (Hfail _ _ _ Hw); [now intros _ Hn|exact Hd]|]. set (bs := b0 :: bytes) in *.
  assert (H0 : wp (bind (set_file tmp None) (fun _ => ret false)) (fun b m' => good m lose m' /\ saved m x filename now b m') (fun _ => False)
    (Memory (objects m) (indexes m) (next_loc m) (<[tmp := bs]> (disk m)))) by (apply (Hfail _ _ _ Hw); [now intros _ Hn|exact Hd]).
  apply wp_read; [exact H0|intros _; exact H0|]. cbn [next_loc objects indexes disk]. intros y Er.
  eapply wp_eval; [unfold deref; cbn; now rewrite lookup_insert_eq|]. pose proof (sound_new _ y Hw) as Hnew. cbn in Hnew.
  destruct (Z.eqb_spec (ntotal o y) (ntotal o x)) as [En|En]; cbn [negb].
  2: { apply (Hfail _ _ _ Hnew); [|exact Hd]. intros Hl. now rewrite (Hl y Er) in En. }
  eapply wp_eval; [unfold free; cbn; now rewrite lookup_insert_eq|]. cbn.
  assert (Hfresh : indexes m !! next_loc m = None) by (apply (sound_fresh m Hm); lia). rewrite delete_insert_id by exact Hfresh.
  assert (Hend : forall d, sound (Memory (objects m) (indexes m) (S (next_loc m)) d)).
  { intros d. destruct Hm as [Hl Ho Hf]. split; [exact Hl|exact Ho|]. cbn. intros l' H. apply Hf. lia. }
  destruct rf; [apply (Hfail _ _ _ (Hend _)); [now intros _ Hn|exact Hd]|].
  split; [split; [apply Hend|now intros _ Hn]|]. split; [apply lookup_delete_eq|]. cbn. split.
  - intros p Hp Hp'. fold tmp in Hp'. rewrite lookup_delete_ne, lookup_insert_ne by done. now apply Hd.
  - exists y, bs. split_and!; [exact Ew|done| |exact Er|exact En]. rewrite lookup_delete_ne by done. apply lookup_insert_eq.
Qed.

(** ** Construction, moves and destruction *)

(** The wrappers change, the indexes do not. *)
Lemma no_leak_objects m d : no_leak m -> (forall s l, owns m s l -> exists s', d !! s' = Some (Some l)) ->
  no_leak (Memory d (indexes m) (next_loc m) (disk m)).
Proof using. intros Hn Hd l x Hx. destruct (Hn l x Hx) as (s & Hs). exact (Hd s l Hs). Qed.
Lemma good_objects m d lose : sound m -> (forall s l, d !! s = Some (Some l) -> exists s', owns m s' l) ->
  (forall s s' l, d !! s = Some (Some l) -> d !! s' = Some (Some l) -> s = s') ->
  (forall s l, owns m s l -> exists s', d !! s' = Some (Some l)) -> good m lose (Memory d (indexes m) (next_loc m) (disk m)).
Proof using.
  intros [Hl Ho Hf] H1 H2 H3. split; [|intros _ Hn; now apply no_leak_objects].
  split; [|exact H2|exact Hf]. intros s l Hs. destruct (H1 s l Hs) as (s' & Hs'). exact (Hl s' l Hs').
Qed.
(** An index that its wrapper gives up and that is deleted. *)
Lemma good_delete m self old d lose : sound m -> objects m !! self = Some old -> (forall s, s <> self -> d !! s = objects m !! s) ->
  (forall l, d !! self <> Some (Some l)) -> good m lose (Memory d (del old (indexes m)) (next_loc m) (disk m)).
Proof using.
  intros Hm Hs Hd Hself.
  assert (Hown : forall s l, d !! s = Some (Some l) -> s <> self /\ owns m s l /\ old <> Some l).
  { intros s l H. destruct (decide (s = self)) as [->|Hne]; [now apply Hself in H|]. rewrite Hd in H by done. split_and!; [exact Hne|exact H|].
    intros ->. now apply Hne, (sound_own m Hm s self l). }
  assert (Hkeep : forall l, old <> Some l -> del old (indexes m) !! l = indexes m !! l).
  { intros l Hl. destruct old as [l0|]; [|reflexivity]. cbn. apply lookup_delete_ne. congruence. }
  split; [split|]; unfold owns; cbn.
  - intros s l H. destruct (Hown s l H) as (_ & Ho & Hne). rewrite Hkeep by done. exact (sound_live m Hm s l Ho).
  - intros s s' l H H'. apply (sound_own m Hm s s' l); [apply (Hown s l H)|apply (Hown s' l H')].
  - intros l H. pose proof (sound_fresh m Hm l H) as Hf. destruct old as [l0|]; [|exact Hf]. cbn.
    destruct (decide (l0 = l)) as [->|]; [apply lookup_delete_eq|now rewrite lookup_delete_ne].
  - intros _ Hn l x. unfold owns. cbn. intros Hx. assert (Hne : old <> Some l).
    { intros ->. cbn in Hx. now rewrite lookup_delete_eq in Hx. }
    rewrite Hkeep in Hx by done. destruct (Hn l x Hx) as (s & Ho). exists s. rewrite Hd; [exact Ho|]. intros ->. unfold owns in Ho. congruence.
Qed.

Lemma new_good m self lose : sound m -> objects m !! self = None -> wp (vector_index self) (fun _ => good m lose) (good m lose) m.
Proof using.
  intros Hm Hs. unfold vector_index, construct, wp. rewrite Hs. apply good_objects; [exact Hm| | |].
  - intros s l. destruct (decide (self = s)) as [->|Hne]; [rewrite lookup_insert_eq; congruence|]. rewrite lookup_insert_ne by done. now exists s.
  - intros s s' l. destruct (decide (self = s)) as [<-|Hne]; [rewrite lookup_insert_eq; congruence|].
    destruct (decide (self = s')) as [<-|Hne']; [rewrite lookup_insert_eq; congruence|]. rewrite !lookup_insert_ne by done. apply (sound_own m Hm).
  - intros s l Ho. exists s. rewrite lookup_insert_ne; [exact Ho|]. intros <-. unfold owns in Ho. congruence.
Qed.
Lemma from_good m self x lose : sound m -> objects m !! self = None -> is_T o x = true ->
  wp (bind (new_index x) (fun l => vector_index_from self (Some l))) (fun _ => good m lose) (good m lose) m.
Proof using.
  intros Hm Hs HT. eapply wp_eval; [reflexivity|]. unfold vector_index_from, construct, wp. cbn [objects]. rewrite Hs.
  assert (Hm' : sound (Memory (<[self := None]> (objects m)) (indexes m) (next_loc m) (disk m))) by (now apply (sound_put m self None)).
  replace (<[self := Some (next_loc m)]> (objects m)) with (<[self := Some (next_loc m)]> (<[self := None]> (objects m))) by apply insert_insert_eq.
  split; [exact (sound_swap _ self None x Hm' (lookup_insert_eq _ _ _) HT)|]. intros _ Hn.
  apply (no_leak_swap (Memory (<[self := None]> (objects m)) (indexes m) (next_loc m) (disk m)) self None x Hm'); [|apply lookup_insert_eq].
  apply no_leak_objects; [exact Hn|]. intros s l Ho. exists s. rewrite lookup_insert_ne; [exact Ho|]. intros <-. unfold owns in Ho. congruence.
Qed.
Lemma move_good m self other lose : sound m -> objects m !! self = None -> is_Some (objects m !! other) ->
  wp (vector_index_move self other) (fun _ => good m lose) (good m lose) m.
Proof using.
  intros Hm Hs [i Hi]. assert (Hne : self <> other) by congruence. unfold vector_index_move.
  eapply wp_eval; [unfold get; now rewrite Hi|]. eapply wp_eval; [unfold construct; now rewrite Hs|].
  unfold wp, put. cbn [objects]. rewrite lookup_insert_ne, Hi by done. cbn [indexes next_loc disk].
  assert (Hd : forall s, s <> other -> s <> self -> <[other := None]> (<[self := i]> (objects m)) !! s = objects m !! s).
  { intros s H1 H2. now rewrite !lookup_insert_ne. }
  assert (Hself : <[other := None]> (<[self := i]> (objects m)) !! self = Some i) by (rewrite lookup_insert_ne by done; apply lookup_insert_eq).
  assert (Hback : forall s l, <[other := None]> (<[self := i]> (objects m)) !! s = Some (Some l) ->
    s <> other /\ (s = self /\ owns m other l \/ s <> self /\ owns m s l)).
  { intros s l H. destruct (decide (s = other)) as [->|Ho]; [rewrite lookup_insert_eq in H; discriminate|]. split; [exact Ho|].
    destruct (decide (s = self)) as [->|Hs']; [left; split; [reflexivity|]; unfold owns; congruence|right]. rewrite Hd in H by done. now split. }
  apply good_objects; [exact Hm| | |].
  - intros s l H. destruct (Hback s l H) as (_ & [[_ Ho]|[_ Ho]]); eauto.
  - intros s s' l H H'. destruct (Hback s l H) as (N & [[-> Ho]|[N2 Ho]]), (Hback s' l H') as (N' & [[-> Ho']|[N2' Ho']]); [reflexivity| | |].
    + now destruct N'; apply (sound_own m Hm s' other l).
    + now destruct N; apply (sound_own m Hm s other l).
    + exact (sound_own m Hm s s' l Ho Ho').
  - intros s l Ho. destruct (decide (s = other)) as [->|H1]; [exists self; unfold owns in Ho; congruence|]. exists s. rewrite Hd; [exact Ho|exact H1|].
    intros ->. unfold owns in Ho. congruence.
Qed.
Lemma destroy_good m self lose : sound m -> is_Some (objects m !! self) -> wp (destroy self) (fun _ => good m lose) (good m lose) m.
Proof using.
  intros Hm [i Hi]. unfold destroy. eapply wp_eval; [unfold get; now rewrite Hi|]. eapply wp_eval; [exact (delete_old m self i Hm Hi)|].
  apply (good_delete m self i); [exact Hm|exact Hi| |].
  - intros s Hne. now rewrite lookup_delete_ne.
  - intros l. now rewrite lookup_delete_eq.
Qed.
Lemma unset_good m self lose : sound m -> is_Some (objects m !! self) -> wp (set_index self None) (fun _ => good m lose) (good m lose) m.
Proof using.
  intros Hm [i Hi]. unfold set_index. eapply wp_eval; [unfold get; now rewrite Hi|]. eapply wp_eval; [exact (delete_old m self i Hm Hi)|].
  unfold wp, put. cbn [objects]. rewrite Hi. apply (good_delete m self i); [exact Hm|exact Hi| |].
  - intros s Hne. now rewrite lookup_insert_ne.
  - intros l. rewrite lookup_insert_eq. congruence.
Qed.
Lemma good_trans m m1 m2 lose : good m lose m1 -> (sound m1 -> good m1 lose m2) -> good m lose m2.
Proof using. intros [H1 H2] H. destruct (H H1) as [H3 H4]. split; auto. Qed.

(** The other's index is moved into a wrapper that has none. *)
Lemma steal_good m self other j lose : sound m -> self <> other -> objects m !! self = Some None -> objects m !! other = Some j ->
  good m lose (Memory (<[other := None]> (<[self := j]> (objects m))) (indexes m) (next_loc m) (disk m)).
Proof using.
  intros Hm Hne Hs Hj.
  assert (Hm' : sound (Memory (delete self (objects m)) (indexes m) (next_loc m) (disk m))) by (now apply sound_destroy).
  pose proof (move_good _ self other lose Hm' (lookup_delete_eq _ _)) as H.
  cbn [objects] in H. rewrite lookup_delete_ne in H by done. specialize (H ltac:(now exists j)).
  unfold vector_index_move, wp, bind, get, construct, put in H. cbn [objects indexes next_loc disk] in H.
  rewrite lookup_delete_ne, Hj in H by done. cbn beta iota in H. cbn [objects indexes next_loc disk] in H.
  rewrite lookup_delete_eq in H. cbn beta iota in H. cbn [objects indexes next_loc disk] in H.
  rewrite lookup_insert_ne, lookup_delete_ne, Hj in H by done. cbn beta iota in H. cbn [objects indexes next_loc disk] in H. rewrite insert_delete_eq in H.
  destruct H as [H1 H2]. split; [exact H1|]. intros Hl Hn. apply H2; [exact Hl|]. apply no_leak_objects; [exact Hn|].
  intros s l Ho. exists s. rewrite lookup_delete_ne; [exact Ho|]. intros <-. unfold owns in Ho. congruence.
Qed.
Lemma assign_good m self other lose : sound m -> is_Some (objects m !! self) -> is_Some (objects m !! other) ->
  wp (assign_move self other) (fun _ => good m lose) (good m lose) m.
Proof using.
  intros Hm [i Hi] [j Hj]. unfold assign_move. destruct (Nat.eqb_spec self other) as [|Hne]; [now apply good_refl|].
  eapply wp_eval; [unfold get; now rewrite Hi|]. eapply wp_eval; [exact (delete_old m self i Hm Hi)|].
  eapply wp_eval; [unfold get; cbn; now rewrite Hj|]. eapply wp_eval; [unfold put; cbn; now rewrite Hi|].
  unfold wp, put. cbn [objects]. rewrite lookup_insert_ne, Hj by done. cbn [indexes next_loc disk].
  eapply (good_trans m (Memory (<[self := None]> (objects m)) (del i (indexes m)) (next_loc m) (disk m))).
  - apply (good_delete m self i); [exact Hm|exact Hi| |]; intros s; [intros N; now rewrite lookup_insert_ne|rewrite lookup_insert_eq; congruence].
  - intros Hm'. pose proof (steal_good _ self other j lose Hm' Hne (lookup_insert_eq _ _ _)) as H. cbn [objects indexes next_loc disk] in H.
    rewrite insert_insert_eq in H. apply H. now rewrite lookup_insert_ne.
Qed.
Lemma build_good m self args : sound m -> is_Some (objects m !! self) ->
  wp (build o self args) (fun _ => good m (objects m !! self = Some None)) (good m (objects m !! self = Some None)) m.
Proof using FaissLaws0.
  intros Hm [i Hi]. unfold build. apply wp_bind, wp_call; [|now apply good_refl]. intros x E. eapply wp_eval; [reflexivity|].
  unfold wp, put. cbn [objects]. rewrite Hi. cbn [indexes next_loc disk].
  assert (HT : is_T o x = true) by (exact (law_make args x E)). split.
  - apply (sound_put _ self (Some (next_loc m)) (sound_new m x Hm)). cbn. split; [exists x; now rewrite lookup_insert_eq|].
    intros s Ho. destruct (sound_live m Hm s _ Ho) as (y & Hy & _). rewrite (sound_fresh m Hm (next_loc m)) in Hy by lia. discriminate.
  - intros Hnull Hn. apply (no_leak_swap m self None x Hm Hn). congruence.
Qed.

(** ** Every command *)

Lemma merge_good m self other k lose : sound m -> is_Some (objects m !! self) -> (exists l, owns m other l) ->
  wp (merge_from o self other k) (fun _ => good m lose) (good m lose) m.
Proof using FaissLaws0.
  intros Hm Hs [l' Ho']. unfold merge_from. apply wp_index; [exact Hm|exact Hs|now apply good_refl|]. intros l x Ho Hx HT.
  destruct (sound_live m Hm other l' Ho') as (x' & Hx' & HT').
  eapply wp_eval; [unfold get; unfold owns in Ho'; now rewrite Ho'|]. eapply wp_eval; [unfold deref; now rewrite Hx'|].
  apply wp_bind, wp_call; [|now apply good_refl]. intros [y y'] E. destruct (law_merge x x' k y y' E) as [Hy Hy'].
  eapply wp_eval; [exact (store_eval m l' x' y' Hx')|].
  pose proof (good_store m other l' y' lose Hm Ho' ltac:(congruence)) as H1. set (m1 := Memory _ _ _ _) in *.
  assert (exists x1, indexes m1 !! l = Some x1) as [x1 Hx1].
  { cbn. destruct (decide (l' = l)) as [->|]; [rewrite lookup_insert_eq; eauto|rewrite lookup_insert_ne by done; eauto]. }
  eapply wp_eval; [exact (store_eval m1 l x1 y Hx1)|]. eapply (good_trans m m1); [exact H1|]. intros Hm1.
  apply (good_store m1 self l y); [exact Hm1|exact Ho|congruence].
Qed.

Lemma step_good c m : sound m -> allowed c m -> wp (step c) (fun _ => good m (frugal c m)) (good m (frugal c m)) m.
Proof using FaissLaws0.
  intros Hm Ha. destruct c; cbn [step allowed] in *.
  - now apply new_good.
  - destruct Ha. now apply from_good.
  - destruct Ha. now apply move_good.
  - destruct Ha. now apply assign_good.
  - now apply destroy_good.
  - destruct Ha as [[i Hi] HT]. unfold wp. rewrite (set_index_eval m self i x Hm Hi). now apply good_swap.
  - now apply unset_good.
  - now apply build_good.
  - apply wp_drop, wp_index; [exact Hm|exact Ha|now apply good_refl|]. intros l x Ho Hx HT.
    eapply wp_update; eauto. intros y E. now rewrite (law_add x n v y E).
  - apply wp_drop, wp_index; [exact Hm|exact Ha|now apply good_refl|]. intros l x Ho Hx HT. destruct (negb _); [now apply good_refl|].
    eapply wp_update; eauto. intros y E. now rewrite (law_add_ids x n v ids y E).
  - destruct Ha. now apply wp_drop, merge_good.
  - apply wp_drop, wp_index; [exact Hm|exact Ha|now apply good_refl|]. intros l x Ho Hx HT. apply wp_query; intros; now apply good_refl.
  - apply wp_drop, wp_index; [exact Hm|exact Ha|now apply good_refl|]. intros l x Ho Hx HT. apply wp_query; intros; now apply good_refl.
  - apply wp_drop, wp_index; [exact Hm|exact Ha|now apply good_refl|]. intros l x Ho Hx HT. apply wp_query; intros; now apply good_refl.
  - apply wp_drop, wp_index; [exact Hm|exact Ha|now apply good_refl|]. intros l x Ho Hx HT. destruct v; [|now apply good_refl].
    destruct p; [|now apply good_refl]. apply wp_query; intros; now apply good_refl.
  - apply wp_drop, wp_index; [exact Hm|exact Ha|now apply good_refl|]. intros l x Ho Hx HT. destruct (_ || _); [now apply good_refl|].
    apply wp_query; intros; now apply good_refl.
  - apply wp_drop, wp_index; [exact Hm|exact Ha|now apply good_refl|]. intros l x Ho Hx HT. destruct (_ || _); [now apply good_refl|].
    destruct (_ <? _)%Z; [now apply good_refl|]. apply wp_query; intros; now apply good_refl.
  - destruct Ha as [Ha Hr]. apply wp_drop, wp_index; [exact Hm|exact Ha|now apply good_refl|]. intros l x Ho Hx HT.
    destruct (_ =? _)%Z; [now apply good_refl|]. pose proof (Hr l x Ho Hx) as Hi. unfold int_range in Hi. cbv zeta.
    rewrite (proj2 (Z.leb_le _ _)), (proj2 (Z.ltb_lt _ (2 ^ 31))) by lia. cbn [andb negb].
    destruct (_ <? _)%Z; [now apply good_refl|]. apply wp_query; intros; now apply good_refl.
  - apply wp_index; [exact Hm|exact Ha|now apply good_refl|]. intros l x Ho Hx HT.
    unfold wp. rewrite (store_eval m l x _ Hx). apply (good_store m self); [exact Hm|exact Ho|]. now rewrite law_reset.
  - apply wp_drop, wp_index; [exact Hm|exact Ha|now apply good_refl|]. intros l x Ho Hx HT. now apply good_refl.
  - apply wp_drop, wp_index; [exact Hm|exact Ha|now apply good_refl|]. intros l x Ho Hx HT. apply wp_query; intros; now apply good_refl.
  - now apply wp_drop, deserialize_good.
  - apply wp_drop, wp_index; [exact Hm|exact Ha|now apply good_refl|]. intros l x Ho Hx HT. unfold write_to.
    destruct (write_file o x) as [bytes thrown]. apply wp_bind. eapply wp_eval; [reflexivity|]. cbn.
    destruct thrown; now apply (good_disk m _ _).
  - destruct Ha as [[l|] Hl].
    + destruct (sound_live m Hm self l Hl) as (x & Hx & HT). apply wp_drop.
      eapply wp_mono; [| |exact (save_s_wp m self l x f now rename_fails Hm Hl Hx HT)]; [|easy].
      intros b m' [[H1 H2] _]. split; [exact H1|]. intros Hf. apply H2. intros y E. exact (Hf l x y Hl Hx E).
    + apply wp_drop. unfold save_s, with_index. eapply wp_eval; [unfold get; now rewrite Hl|]. now apply good_refl.
  - destruct Ha as (H1 & H2 & H3). now apply wp_drop, load_good.
  - destruct Ha. now apply wp_drop, load_s_good.
Qed.

(** ** Sequences of commands *)

Definition after {A} (out : outcome Idx A) : memory Idx := match out with Ret _ m => m | Throw m => m end.
(** The caller goes on after an exception. *)
Fixpoint run (cs : list cmd) m : option (memory Idx) :=
  match cs with [] => Some m | c :: cs => let* out := step c m in run cs (after out) end.
(** A condition on each command where it runs. *)
Fixpoint along (P : cmd -> memory Idx -> Prop) (cs : list cmd) m : Prop :=
  match cs with [] => True | c :: cs => P c m /\ match step c m with Some out => along P cs (after out) | None => True end end.

Lemma run_good cs : forall m, sound m -> along allowed cs m ->
  exists m', run cs m = Some m' /\ sound m' /\ (along frugal cs m -> no_leak m -> no_leak m').
Proof using FaissLaws0.
  induction cs as [|c cs IH]; intros m Hm Ha; [now exists m|]. destruct Ha as [Hc Ha]. cbn [run along].
  pose proof (step_good c m Hm Hc) as H. unfold wp in H. destruct (step c m) as [out|]; [|easy].
  assert (Hg : good m (frugal c m) (after out)) by (now destruct out). destruct Hg as [Hm' Hn].
  destruct (IH (after out) Hm' Ha) as (m' & Er & Hs & Hl). exists m'. split_and!; [exact Er|exact Hs|]. intros [Hf1 Hf2] H0. auto.
Qed.
(** ** The conditions are needed *)

(** [load] over an index frees it before it reads: a file that cannot be read
    leaves the pointer dangling. *)
Lemma load_fails m self l f : sound m -> owns m self l ->
  ~ (exists bytes x, disk m !! f = Some bytes /\ read_index o bytes = Some (Some x)) ->
  exists out, load o self f m = Some out /\ owns (after out) self l /\ indexes (after out) !! l = None.
Proof using.
  intros Hm Ho Hf. destruct (sound_live m Hm self l Ho) as (x & Hx & _). unfold owns in Ho.
  assert (E : load o self f m = bind (read_file f) (fun content => bind (call content) (fun bytes => bind (read_new o bytes)
      (fun r => match r with None => ret false | Some l => bind (static_cast o l) (fun _ => bind (put self (Some l)) (fun _ => ret true)) end)))
      (Memory (objects m) (delete l (indexes m)) (next_loc m) (disk m))).
  { unfold load. unfold bind at 1, get. rewrite Ho. unfold bind at 1. cbn [delete_ptr]. unfold free. now rewrite Hx. }
  rewrite E. unfold bind at 1, read_file. cbn [disk]. destruct (disk m !! f) as [bytes|] eqn:Ed.
  - unfold bind at 1. cbn [call ret]. unfold bind at 1, read_new, bind at 1. destruct (read_index o bytes) as [[y|]|] eqn:Er.
    + exfalso. apply Hf. eauto.
    + eexists. split; [reflexivity|]. split; [exact Ho|apply lookup_delete_eq].
    + eexists. split; [reflexivity|]. split; [exact Ho|apply lookup_delete_eq].
  - eexists. split; [reflexivity|]. split; [exact Ho|apply lookup_delete_eq].
Qed.

(** [build] over an index loses it. *)
Lemma build_over m self l args x : sound m -> owns m self l -> make o args = Some x ->
  exists m', build o self args m = Some (Ret tt m') /\ is_Some (indexes m' !! l) /\ forall s, ~ owns m' s l.
Proof using.
  intros Hm Ho Hx. destruct (sound_live m Hm self l Ho) as (y & Hy & _). pose proof (sound_own m Hm) as Hown. unfold owns in *.
  assert (Hne : next_loc m <> l) by (intros <-; rewrite (sound_fresh m Hm) in Hy by lia; discriminate).
  unfold build, bind, call, new_index, put. rewrite Hx. cbn [ret objects]. rewrite Ho. eexists. split; [reflexivity|]. cbn. split.
  - rewrite lookup_insert_ne by exact Hne. now exists y.
  - intros s Hs. destruct (decide (self = s)) as [<-|Hd]; [rewrite lookup_insert_eq in Hs; congruence|].
    rewrite lookup_insert_ne in Hs by exact Hd. now apply Hd, (Hown self s l).
Qed.

(** The index to merge is not tested for null. *)
Lemma merge_null m self other l k : sound m -> owns m self l -> objects m !! other = Some None -> merge_from o self other k m = None.
Proof using.
  intros Hm Ho Hn. destruct (sound_live m Hm self l Ho) as (x & Hx & _). unfold owns in Ho. unfold merge_from, with_index, bind at 1, get. rewrite Ho.
  unfold bind at 1, deref. rewrite Hx. unfold bind at 1, get. now rewrite Hn.
Qed.
End Ownership.

(** ** A library with these laws *)

(** An index is its dimension, its number of vectors and their components. *)
Module Sample.
Definition index : Type := Z * Z * list Z.
Definition bytes_of (x : index) : list Z := let '(d, n, v) := x in d :: n :: v.
Definition lib : faiss index Z Z :=
  {| is_T _ := true; is_idmap _ := false;
     make args := match args with [d] => Some (d, 0%Z, []) | _ => None end;
     ntotal x := snd (fst x); dim x := fst (fst x);
     idx_add x n v := if (Z.of_nat (length v) =? n * fst (fst x))%Z then Some (fst (fst x), (snd (fst x) + n)%Z, snd x ++ v) else None;
     idx_add_with_ids _ _ _ _ := None;
     idx_merge_from x y _ := Some ((fst (fst x), (snd (fst x) + snd (fst y))%Z, snd x ++ snd y), (fst (fst y), 0%Z, []));
     idx_reconstruct x k := Some (take (Z.to_nat (fst (fst x))) (drop (Z.to_nat (k * fst (fst x))) (snd x)));
     idx_reconstruct_keys _ _ _ := None; idx_reconstruct_n x _ _ := Some (snd x);
     idx_search _ _ _ _ := None; idx_range_search _ _ _ _ := None;
     idx_reset x := (fst (fst x), 0%Z, []);
     write_index x := Some (bytes_of x); write_file x := (bytes_of x, false);
     read_index b := match b with d :: n :: v => Some (Some (d, n, v)) | _ => None end |}.
#[export] Instance lib_laws : FaissLaws lib.
Proof. now split. Qed.
Definition empty : memory index := Memory ∅ ∅ 0 ∅.
Lemma empty_sound : sound lib empty.
Proof.
  split; unfold owns, empty; cbn; [|intros s s' l H; now rewrite lookup_empty in H|intros l _; apply lookup_empty].
  intros s l H. now rewrite lookup_empty in H.
Qed.
End Sample.

(** ** The theorems *)


(** Two wrappers: one is built and filled, saved, moved; the other loads the
    file; both are destroyed. *)
Definition sample_commands : list (cmd (Idx := Sample.index) (F := Z) (Arg := Z)) :=
  [CNew 0; CNew 1; CBuild 0 [2%Z]; CAdd 0 2 [1; 0; 0; 1]%Z; CSaveS 0 "a" "7" false; CLoadS 1 (Some "a"%string); CMerge 0 1 0; CAssign 1 0;
   CDestroy 0; CDestroy 1].

(** [save_s] returns, never throws, and leaves the old file or a whole new
    one: on success the file is what the library wrote of the index and is read
    as an index of as many vectors, which [load_s] then takes into any wrapper;
    on failure the file is as it was.  No other file changes and the temporary
    one is gone, whatever the library does.  Where the library reads back what it
    writes, a wrapper that deserializes the bytes of another has an equal
    index. *)
Theorem vindex_save {Idx F Arg : Type} (o : faiss Idx F Arg) (m : memory Idx) (Hm : sound o m) (self l : nat) (x : Idx) (Ho : owns m self l)
    (Hx : indexes m !! l = Some x) :
  (forall filename now rename_fails, exists b m', save_s o self filename now rename_fails m = Some (Ret b m') /\ sound o m'
     /\ saved o m x filename now b m'
     /\ (b = true -> filename <> EmptyString -> typed_file o m' filename -> forall other, is_Some (objects m' !! other) ->
         exists y m2, load_s o other (Some filename) m' = Some (Ret true m2) /\ ntotal o y = ntotal o x
           /\ exists l2, owns m2 other l2 /\ indexes m2 !! l2 = Some y))
  /\ (forall bytes other, write_index o x = Some bytes -> bytes <> [] -> read_index o bytes = Some (Some x) -> is_Some (objects m !! other) ->
     serialize o self m = Some (Ret (Some bytes) m)
     /\ exists m' l', deserialize o other bytes m = Some (Ret true m') /\ sound o m' /\ owns m' other l' /\ indexes m' !! l' = Some x).
Proof.
  destruct (sound_live o m Hm self l Ho) as (x0 & Hx0 & HT). assert (x0 = x) as -> by congruence. split.
  - intros filename now rf. pose proof (save_s_wp o m self l x filename now rf Hm Ho Hx HT) as H. unfold wp in H.
    destruct (save_s o self filename now rf m) as [[b m'|m']|]; try easy. destruct H as [[Hm' _] Hsv]. exists b, m'.
    split_and!; [reflexivity|exact Hm'|exact Hsv|]. intros -> Hne Hty other [i Hi]. destruct Hsv as (_ & _ & y & bytes & Ew & Hb & Ed & Er & En).
    exists y, (swap m' other i y). assert (HTy : is_T o y = true) by exact (Hty bytes y Ed Er).
    split_and!; [|exact En|exists (next_loc m'); split; [apply lookup_insert_eq|]].
    + unfold load_s. destruct filename as [|c f]; [easy|]. unfold bind at 1, read_file. rewrite Ed. destruct bytes as [|b0 bytes]; [easy|].
      unfold try_catch, bind at 1, read_new, bind at 1. rewrite Er. cbn [call ret]. unfold bind at 1, new_index, ret at 1.
      unfold bind at 1, static_cast, bind at 1, deref. cbn [indexes]. rewrite lookup_insert_eq, HTy. unfold ret at 1.
      now rewrite (replace_eval o m' other i y (ret true) Hm' Hi).
    + exact (swap_lookup o m' other i y Hm' Hi).
  - intros bytes other Ew Hne Er [i Hi]. split.
    + unfold serialize, with_index, bind at 1, get. unfold owns in Ho. rewrite Ho. unfold bind at 1, deref. rewrite Hx. unfold bind, call. now rewrite Ew.
    + exists (swap m other i x), (next_loc m). split_and!; [|now apply sound_swap|apply lookup_insert_eq|].
      * unfold deserialize. destruct bytes as [|b bytes]; [easy|]. unfold bind at 1, read_new, bind at 1. rewrite Er. cbn [call ret].
        unfold bind at 1, new_index, ret at 1. unfold bind at 1, deref. cbn [indexes]. rewrite lookup_insert_eq, HT. cbn [negb].
        exact (replace_eval o m other i x (ret true) Hm Hi).
      * exact (swap_lookup o m other i x Hm Hi).
Qed.

Definition one_index : memory Sample.index := Memory {[0 := Some 0; 1 := None]} {[0 := (2, 1, [5; 6])%Z]} 1 {["a"%string := [9]%Z]}.
Lemma one_index_sound : sound Sample.lib one_index.
Proof.
  assert (H : forall s l, owns one_index s l -> s = 0 /\ l = 0).
  { intros s l Ho. change (({[0 := Some 0; 1 := None]} : gmap nat (option nat)) !! s = Some (Some l)) in Ho.
    rewrite lookup_insert_Some, lookup_singleton_Some in Ho. destruct Ho as [[<- [= <-]]|[_ [_ [=]]]]. auto. }
  split.
  - intros s l Ho. destruct (H s l Ho) as [-> ->]. now eexists.
  - intros s s' l Ho Ho'. destruct (H s l Ho) as [-> _]. now destruct (H s' l Ho') as [-> _].
  - intros l Hl. change (({[0 := (2, 1, [5; 6])%Z]} : gmap nat Sample.index) !! l = None). cbn in Hl. apply lookup_singleton_None. lia.
Qed.
Lemma vindex_save_witness : (sound Sample.lib one_index /\ owns one_index 0 0 /\ indexes one_index !! 0 = Some (2, 1, [5; 6])%Z)
  /\ exists m' l', deserialize Sample.lib 1 [2; 1; 5; 6]%Z one_index = Some (Ret true m') /\ sound Sample.lib m'
     /\ owns m' 1 l' /\ indexes m' !! l' = Some (2, 1, [5; 6])%Z.
Proof.
  split; [split; [exact one_index_sound|split; reflexivity]|].
  refine (proj2 (proj2 (vindex_save Sample.lib one_index one_index_sound 0 0 (2, 1, [5; 6])%Z _ _) [2; 1; 5; 6]%Z 1 _ _ _ _));
    [reflexivity|reflexivity|reflexivity|discriminate|reflexivity|now eexists].
Defined.

(** ** Cases that go wrong *)

(** [load] over an index deletes it first: when the file cannot be read it throws
    and the pointer dangles, so that even the destructor is undefined. *)
Lemma load_dangles :
  exists m', load Sample.lib 0 "missing" one_index = Some (Throw m') /\ owns m' 0 0 /\ indexes m' !! 0 = None /\ destroy 0 m' = None
    /\ exists m2, load_s Sample.lib 0 (Some "missing"%string) one_index = Some (Ret false m2) /\ m2 = one_index.
Proof. eexists. split_and!; [reflexivity..|]. eexists. split; reflexivity. Qed.

(** [build] over an index loses it. *)
Lemma build_leaks : exists m', build Sample.lib 0 [3%Z] one_index = Some (Ret tt m') /\ indexes m' !! 0 = Some (2, 1, [5; 6])%Z /\ ~ exists self, owns m' self 0.
Proof.
  eexists. split_and!; [reflexivity..|]. intros (s & Hs).
  change (<[0 := Some 1]> ({[0 := Some 0; 1 := None]} : gmap nat (option nat)) !! s = Some (Some 0)) in Hs.
  rewrite !lookup_insert_Some, lookup_singleton_Some in Hs. destruct Hs as [[_ [=]]|[H0 [[H1 _]|[_ [_ [=]]]]]]. contradiction.
Qed.

(** [save_s] whose file is read back as an index of another size loses what was
    read. *)
Lemma save_s_leaks {Idx F Arg : Type} (o : faiss Idx F Arg) m self l x y b bytes filename now rf : owns m self l -> indexes m !! l = Some x ->
  write_file o x = (b :: bytes, false) -> read_index o (b :: bytes) = Some (Some y) -> ntotal o y <> ntotal o x ->
  exists m', save_s o self filename now rf m = Some (Ret false m') /\ indexes m' !! next_loc m = Some y.
Proof.
  intros Ho Hx Ew Er Hn. unfold save_s, with_index, bind at 1, get. unfold owns in Ho. rewrite Ho. unfold bind at 1, deref. rewrite Hx.
  unfold try_catch, write_to. rewrite Ew. unfold bind. cbn [fst snd set_file read_file ret disk objects indexes next_loc].
  rewrite lookup_insert_eq. unfold read_new, bind, call. rewrite Er. cbn [fst snd ret new_index deref objects indexes next_loc disk].
  rewrite lookup_insert_eq. rewrite (proj2 (Z.eqb_neq _ _) Hn). cbn. eexists. split; [reflexivity|]. cbn. apply lookup_insert_eq.
Qed.

(** The index to merge is not tested for null. *)
Lemma merge_null_undefined : merge_from Sample.lib 0 1 0 one_index = None.
Proof. reflexivity. Qed.

(** The number of components is a product of [int]: for 65536 vectors of 32768 it
    overflows. *)
Lemma all_vectors_overflow :
  get_all_vectors Sample.lib 0 (Memory {[0 := Some 0]} {[0 := (32768, 65536, [])%Z]} 1 ∅) = None.
Proof. reflexivity. Qed.

(** A file of an index of another type: [load_s] casts it unseen, [deserialize]
    looks. *)
Lemma load_s_unchecked_type {Idx F Arg : Type} (o : faiss Idx F Arg) m self f b bytes x : is_Some (objects m !! self) -> f <> EmptyString ->
  disk m !! f = Some (b :: bytes) -> read_index o (b :: bytes) = Some (Some x) -> is_T o x = false ->
  load_s o self (Some f) m = None /\ exists m', deserialize o self (b :: bytes) m = Some (Ret false m') /\ objects m' = objects m.
Proof.
  intros _ Hf Ed Er HT. split.
  - unfold load_s. destruct f; [easy|]. unfold bind at 1, read_file. rewrite Ed. unfold try_catch, read_new, static_cast, deref, bind, call. rewrite Er.
    cbn [ret new_index objects indexes next_loc disk]. now rewrite lookup_insert_eq, HT.
  - unfold deserialize, read_new, deref, free, bind, call. rewrite Er. cbn [ret new_index objects indexes next_loc disk].
    rewrite lookup_insert_eq, HT. cbn [negb objects indexes next_loc disk]. rewrite lookup_insert_eq.
    eexists. split; reflexivity.
Qed.
