(* ===== verification/Llama.v ===== *)
(** * Language models

    [ai/llama.hpp]: classes that own objects of the inference library through raw
    pointers.  The memory has the C++ objects (a kind and a location or null), the
    library's objects by location, and the handles to the memory of a context; so
    a pointer that dangles or is freed twice shows.  What the library does with a
    model or a context is a parameter ([llama]).  [None] is undefined behaviour.
    A batch, which is never shared, is a value. *)

From Stdlib Require Import ZArith Lia List Bool Ascii String Floats.SpecFloat.
From stdpp Require Import base tactics list option gmap strings.
From S2P Require Import Prelude Ints Doubles.

Open Scope hj_scope.
Open Scope nat_scope.

(** ** [batch] *)

Module Batch.
(** [llama_batch_init] allocates tokens, or embeddings when [embd] is not zero, and for each
    entry a position, a number of sequences, [n_seq_max] sequences, and whether
    its logits are wanted.  What is not written yet is [None]. *)
Record llama_batch := Arrays { token : option (list (option Z)); embd : option Z; pos : list (option Z); n_seq_id : list (option Z);
  seq_id : list (list (option Z)); logits : list (option bool); n_tokens : Z }.
Record batch := Batch { _capacity : Z; _batch : llama_batch }.
Definition zeroed : llama_batch := Arrays None None [] [] [] [] 0.

Definition llama_batch_init (n : Z) (embd : Z) (n_seq_max : Z) : option llama_batch :=
  if (n <? 0)%Z || (n_seq_max <? 0)%Z || (embd <? 0)%Z then None else
  let k := Z.to_nat n in
  Some (Arrays (if (embd =? 0)%Z then Some (replicate k None) else None) (if (embd =? 0)%Z then None else Some (n * embd)%Z)
    (replicate k None) (replicate k None) (replicate k (replicate (Z.to_nat n_seq_max) None)) (replicate k None) 0).
Definition make (n : Z) (embd : Z) (n_seq_max : Z) : option batch := let* b := llama_batch_init n embd n_seq_max in Some (Batch n b).

Definition store {A} (i : nat) (x : A) (l : list A) : option (list A) := if i <? length l then Some (<[i := x]> l) else None.
(** The body of the loop: an index out of an array, and a null array, are undefined. *)
Definition set_token (tokens : list Z) (start_pos : Z) (i : nat) (b : llama_batch) : option llama_batch :=
  let* arr := token b in
  let* t := tokens !! i in
  let* arr := store i (Some t) arr in
  let* p := Ints.add (Ity 32 true) start_pos (Z.of_nat i) in
  let* ps := store i (Some p) (pos b) in
  let* ns := store i (Some 1%Z) (n_seq_id b) in
  let* row := seq_id b !! i in
  let* row := store 0 (Some 0%Z) row in
  let* ss := store i row (seq_id b) in
  let* ls := store i (Some false) (logits b) in
  Some (Arrays (Some arr) (embd b) ps ns ss ls (n_tokens b)).
Definition set_tokens (tokens : list Z) (n : Z) (start_pos : Z) (b : batch) : option batch :=
  let safe_tokens := Z.min n (_capacity b) in
  let* a := for_up (set_token tokens start_pos) 0 (Z.to_nat safe_tokens) (_batch b) in
  Some (Batch (_capacity b) (Arrays (token a) (embd a) (pos a) (n_seq_id a) (seq_id a) (logits a) safe_tokens)).
(** [batch(tokens)] and [batch(tokens, n_tokens)] *)
Definition of_tokens (tokens : list Z) (n : Z) : option batch :=
  let* b := make n 0 1 in set_tokens tokens n 0 b.
Definition set_logits (idx : Z) (value : bool) (b : batch) : option batch :=
  if (0 <=? idx)%Z && (idx <? n_tokens (_batch b))%Z then
    let a := _batch b in
    let* ls := store (Z.to_nat idx) (Some value) (logits a) in
    Some (Batch (_capacity b) (Arrays (token a) (embd a) (pos a) (n_seq_id a) (seq_id a) ls (n_tokens a)))
  else Some b.
(** The new batch and the one that was moved from. *)
Definition move (other : batch) : batch * batch := (other, Batch 0 zeroed).
(** Whether the destructor frees the arrays. *)
Definition frees (b : batch) : bool := match token (_batch b), embd (_batch b) with None, None => false | _, _ => true end.
End Batch.

(** ** The chain of a sampler *)

Module Chain.
(** Floats are IEEE numbers; texts and vocabularies are not looked into. *)
Inductive stage :=
  | Greedy | Dist (seed : Z) | TopK (k : Z) | TopP (p : double) (min_keep : Z) | MinP (p : double) (min_keep : Z) | Typical (p : double) (min_keep : Z)
  | Temp (t : double) | TempExt (t delta exponent : double) | Xtc (p t : double) (min_keep seed : Z) | TopNSigma (n : double)
  | Mirostat (n_vocab seed : Z) (tau eta : double) (m : Z) | MirostatV2 (seed : Z) (tau eta : double)
  | Grammar (grammar_str grammar_root : string) | GrammarLazy (grammar_str grammar_root : string) (words : list string) (tokens : list Z)
  | GrammarPatterns (grammar_str grammar_root : string) (patterns : list string) (tokens : list Z)
  | Penalties (last_n : Z) (repeat freq present : double)
  | Dry (n_ctx_train : Z) (multiplier base : double) (allowed_length last_n : Z) (breakers : list string)
  | AdaptiveP (target decay : double) (seed : Z) | LogitBias (n_vocab : Z) (bias : list (Z * double)) | Infill.

Record params := Params { penalty_last_n : Z; penalty_repeat : double; penalty_frequency : double; penalty_present : double;
  temperature : double; temperature_ext : double; temperature_ext_delta : double; temperature_ext_exponent : double;
  seed : Z; top_k : Z; top_p : double; top_p_min_keep : Z; min_p : double; min_p_min_keep : Z }.
(** The default member initialisers. *)
Definition default_params : params := Params 64 dzero dzero dzero dzero dzero dzero dzero 0 0 dzero 0 dzero 0.
Definition f_one : double := S754_finite false 8388608 (-23).  (* 1.0f *)

Definition positive (x : double) : bool := dlt dzero x.
Definition within (x : double) : bool := dlt dzero x && dlt x f_one.
Definition min_keep (k : Z) : Z := if (0 <? k)%Z then k else 1%Z.
(** [init_top_k] adds nothing for a number that is not positive. *)
Definition init_top_k (k : Z) (chain : list stage) : list stage := if (k <=? 0)%Z then chain else chain ++ [TopK k].
Definition init (s : stage) (chain : list stage) : list stage := match s with TopK k => init_top_k k chain | _ => chain ++ [s] end.
(** The constructor with parameters, on a new chain. *)
Definition configure (p : params) : list stage :=
  let chain := [] in
  let chain := if (0 <? penalty_last_n p)%Z && (negb (deq (penalty_repeat p) f_one) || negb (deq (penalty_frequency p) dzero) || negb (deq (penalty_present p) dzero))
    then init (Penalties (penalty_last_n p) (penalty_repeat p) (penalty_frequency p) (penalty_present p)) chain else chain in
  let chain := if (0 <? top_k p)%Z then init_top_k (top_k p) chain else chain in
  let chain := if within (top_p p) then init (TopP (top_p p) (min_keep (top_p_min_keep p))) chain else chain in
  let chain := if within (min_p p) then init (MinP (min_p p) (min_keep (min_p_min_keep p))) chain else chain in
  let chain := if positive (temperature p) then init (Temp (temperature p)) chain else chain in
  let chain := if positive (temperature_ext p) then init (TempExt (temperature_ext p) (temperature_ext_delta p) (temperature_ext_exponent p)) chain else chain in
  init (Dist (seed p)) chain.
End Chain.

(** ** The classes that own *)

Module Llama.

(** Where a model is loaded from; [None] is a null pointer. *)
Inductive source := FromFile (filename : string) | FromPtr (file : option nat) | FromSplits (paths : list string) | FromUser (tensors : nat).
(** The questions that take no argument, those that take a number or a text, and
    those that fill a buffer. *)
Inductive ask := Size | N_ctx_train | N_embd | N_embd_inp | N_embd_out | N_layer | N_head | N_head_kv | N_swa | N_vocab | Rope_type | Rope_freq_scale
  | N_cls_out | Meta_count | N_params | Has_encoder | Has_decoder | Decoder_start_token | Is_recurrent | Is_hybrid | Is_diffusion
  | Token_is_eog (token : Z) | Get_vocab | Cls_label (i : Z).
Inductive fill := Token_to_piece (token : Z) (lstrip : Z) (special : bool) | Meta_val_str (key : string) | Meta_key_by_index (i : Z).
Inductive ask_adapter := A_meta_count | A_n_invocation_tokens | A_invocation_tokens.
Inductive ask_context := State_get_size | N_ctx | N_ctx_seq | N_batch | N_ubatch | N_seq_max | Embeddings | Embeddings_ith (i : Z) | Embeddings_seq (s : Z) | Logits_ith (i : Z).
(** The changes of a context that give a number, and of its memory. *)
Inductive act_context := Decode (b : Batch.llama_batch) | State_set_data (src : list Z) | Set_adapter_cvec (data : option (list double)) (len n_embd il_start il_end : Z)
  | Attach_threadpool (pool pool_batch : nat) | Detach_threadpool.
Inductive act_memory := Clear (data : bool) | Seq_rm (s p0 p1 : Z) | Seq_cp (s d p0 p1 : Z) | Seq_keep (s : Z) | Seq_add (s p0 p1 delta : Z) | Seq_div (s p0 p1 d : Z)
  | Seq_pos_min (s : Z) | Seq_pos_max (s : Z).

(** The library. [tokenize] is given the room there is, and gives a number and what it
    wrote; [model_desc] and [chat_template] give a text, and its length or null. *)
Record llama (Model Ctx Params : Type) := Library
  { load_model : source -> Params -> option Model; exists_file : string -> bool;
    model_ask : Model -> ask -> Z; model_fill : Model -> fill -> Z -> Z * string;
    l_tokenize : Model -> string -> Z -> bool -> bool -> nat -> Z * list Z;
    model_desc : Model -> Z * string; l_chat_template : Model -> option string -> option string;
    init_adapter : Model -> string -> bool; adapter_ask : Model -> ask_adapter -> Z; adapter_fill : Model -> fill -> Z -> Z * string;
    init_context : option Model -> Params -> option Ctx; context_ask : Ctx -> ask_context -> Z; context_act : Ctx -> act_context -> Z * Ctx;
    set_adapters : Ctx -> list nat -> list double -> Z * Ctx;
    memory_act : Ctx -> act_memory -> Ctx; l_can_shift : Ctx -> bool;
    l_sample : list Chain.stage -> Ctx -> Z -> Z; sampler_init : bool }.
#[global] Arguments load_model {Model Ctx Params}. #[global] Arguments exists_file {Model Ctx Params}. #[global] Arguments model_ask {Model Ctx Params}.
#[global] Arguments model_fill {Model Ctx Params}. #[global] Arguments l_tokenize {Model Ctx Params}. #[global] Arguments model_desc {Model Ctx Params}.
#[global] Arguments l_chat_template {Model Ctx Params}. #[global] Arguments init_adapter {Model Ctx Params}. #[global] Arguments adapter_ask {Model Ctx Params}.
#[global] Arguments adapter_fill {Model Ctx Params}. #[global] Arguments init_context {Model Ctx Params}. #[global] Arguments context_ask {Model Ctx Params}.
#[global] Arguments context_act {Model Ctx Params}. #[global] Arguments set_adapters {Model Ctx Params}. #[global] Arguments memory_act {Model Ctx Params}.
#[global] Arguments l_can_shift {Model Ctx Params}. #[global] Arguments l_sample {Model Ctx Params}. #[global] Arguments sampler_init {Model Ctx Params}.

(** An object of the library: an adapter and a context know the location of their model,
    and a context those of the adapters it was given. *)
Inductive res (Model Ctx : Type) := RModel (x : Model) | RAdapter (model : nat) | RContext (c : Ctx) (model : nat) (loras : list nat) | RSampler (chain : list Chain.stage).
#[global] Arguments RModel {Model Ctx}. #[global] Arguments RAdapter {Model Ctx}. #[global] Arguments RContext {Model Ctx}. #[global] Arguments RSampler {Model Ctx}.
(** The classes: [model], [adapter_lora], [context], [sampler]. *)
Inductive kind := KModel | KAdapter | KContext | KSampler.
#[global] Instance kind_dec : EqDecision kind.
Proof. solve_decision. Defined.
Definition kind_of {Model Ctx} (r : res Model Ctx) : kind :=
  match r with RModel _ => KModel | RAdapter _ => KAdapter | RContext _ _ _ => KContext | RSampler _ => KSampler end.

(** [handles] are objects of the class [memory]: the location of a context, or null. *)
Record memory (Model Ctx : Type) := Memory
  { objects : gmap nat (kind * option nat); heap : gmap nat (res Model Ctx); handles : gmap nat (option nat); next_loc : nat }.
#[global] Arguments Memory {Model Ctx}. #[global] Arguments objects {Model Ctx}. #[global] Arguments heap {Model Ctx}.
#[global] Arguments handles {Model Ctx}. #[global] Arguments next_loc {Model Ctx}.

Section Llama.
Context {Model Ctx Params : Type} (o : llama Model Ctx Params).

Definition M (A : Type) : Type := memory Model Ctx -> option (A * memory Model Ctx).
Definition ret {A} (a : A) : M A := fun m => Some (a, m).
Definition bind {A B} (x : M A) (f : A -> M B) : M B := fun m => match x m with Some (a, m) => f a m | None => None end.
Definition undefined {A} : M A := fun _ => None.
#[local] Notation "'do' p <- x ; k" := (bind x (fun y => match y with p => k end)) (at level 10, p pattern, x at level 99, k at level 200).

(** The pointer of an object of a class. *)
Definition get (k : kind) (self : nat) : M (option nat) := fun m =>
  match objects m !! self with Some (k', p) => if decide (k' = k) then Some (p, m) else None | None => None end.
Definition put (k : kind) (self : nat) (p : option nat) : M unit := fun m =>
  let* _ := objects m !! self in Some (tt, Memory (<[self := (k, p)]> (objects m)) (heap m) (handles m) (next_loc m)).
Definition construct (k : kind) (self : nat) (p : option nat) : M unit := fun m =>
  match objects m !! self with
  | Some _ => None
  | None => Some (tt, Memory (<[self := (k, p)]> (objects m)) (heap m) (handles m) (next_loc m))
  end.
Definition forget (self : nat) : M unit := fun m => Some (tt, Memory (delete self (objects m)) (heap m) (handles m) (next_loc m)).
Definition alloc (r : res Model Ctx) : M nat := fun m =>
  Some (next_loc m, Memory (objects m) (<[next_loc m := r]> (heap m)) (handles m) (S (next_loc m))).
Definition deref (l : nat) : M (res Model Ctx) := fun m => let* r := heap m !! l in Some (r, m).
Definition update (l : nat) (r : res Model Ctx) : M unit := fun m =>
  let* _ := heap m !! l in Some (tt, Memory (objects m) (<[l := r]> (heap m)) (handles m) (next_loc m)).
(** Freeing an object that is not there is undefined. *)
Definition free (l : nat) : M unit := fun m =>
  let* _ := heap m !! l in Some (tt, Memory (objects m) (delete l (heap m)) (handles m) (next_loc m)).
Definition free_ptr (p : option nat) : M unit := match p with Some l => free l | None => ret tt end.
Definition as_model (r : res Model Ctx) : M Model := match r with RModel x => ret x | _ => undefined end.
Definition as_context (r : res Model Ctx) : M (Ctx * nat * list nat) := match r with RContext c l ls => ret (c, l, ls) | _ => undefined end.
Definition as_sampler (r : res Model Ctx) : M (list Chain.stage) := match r with RSampler c => ret c | _ => undefined end.
(** The destructors: [model], [adapter_lora], [context], [sampler]. *)
Definition destroy (k : kind) (self : nat) : M unit := do p <- get k self; do _ <- free_ptr p; forget self.
(** The copy constructor the compiler makes, of the classes that delete none. *)
Definition copy (k : kind) (self other : nat) : M unit := do p <- get k other; construct k self p.

(** *** [model] *)

Definition model_null (self : nat) : M unit := construct KModel self None.
Definition new_model (src : source) (ps : Params) : M (option nat) :=
  match load_model o src ps with Some x => do l <- alloc (RModel x); ret (Some l) | None => ret None end.
Definition model_from (self : nat) (src : source) (ps : Params) : M unit := do p <- new_model src ps; construct KModel self p.
Definition model_move (self other : nat) : M unit := do p <- get KModel other; do _ <- construct KModel self p; put KModel other None.
Definition load (self : nat) (src : source) (ps : Params) : M bool :=
  if match src with FromFile filename => negb (exists_file o filename) | FromPtr None => true | _ => false end then ret false else
  do p <- get KModel self;
  do _ <- free_ptr p;
  do model <- new_model src ps;
  let p := match model with Some l => Some l | None => p end in
  do _ <- put KModel self p;
  ret (match p with Some _ => true | None => false end).
Definition model_free (self : nat) : M bool :=
  do p <- get KModel self;
  match p with None => ret false | Some l => do _ <- free l; do _ <- put KModel self None; ret true end.
(** A question to the model, with the answer when there is none. *)
Definition on_model {A} (self : nat) (null : A) (f : Model -> M A) : M A :=
  do p <- get KModel self;
  match p with None => ret null | Some l => do r <- deref l; do x <- as_model r; f x end.
Definition model_save (self : nat) : M bool := on_model self false (fun _ => ret true).
(** What is returned without a model; a null pointer and false are 0. *)
Definition null_answer (q : ask) : Z := match q with Meta_count | Decoder_start_token => -1 | _ => 0 end.
Definition model_query (self : nat) (q : ask) : M Z := on_model self (null_answer q) (fun x => ret (model_ask o x q)).
Definition model_buffer (self : nat) (q : fill) (length : Z) : M (Z * string) := on_model self ((-1)%Z, EmptyString) (fun x => ret (model_fill o x q length)).
(** [std::abs] of the least [int] is undefined. *)
Definition abs32 (z : Z) : option Z := if (z =? - 2 ^ 31)%Z then None else Some (Z.abs z).
Definition tokenize (self : nat) (prompt : string) (add_special parse_special : bool) : M (list Z) :=
  on_model self [] (fun x =>
    let len := convert (Ity 32 true) (Z.of_nat (String.length prompt)) in
    match abs32 (fst (l_tokenize o x prompt len add_special parse_special 0)) with
    | None => undefined
    | Some n =>
        if (n <=? 0)%Z then ret [] else
        let tokens := replicate (Z.to_nat n) 0%Z in
        let (n2, out) := l_tokenize o x prompt len add_special parse_special (length tokens) in
        match abs32 n2 with
        | None => undefined
        | Some n2 => let k := Z.to_nat n2 in ret (resize k 0%Z (out ++ drop (length out) tokens))
        end
    end).
Definition LLAMA_MODEL_DESC_SIZE : nat := 2048.
(** The text is cut to the buffer; its length is not.  A negative length throws. *)
Definition desc (self : nat) : M (option string) :=
  on_model self (Some EmptyString) (fun x =>
    let (sz, text) := model_desc o x in
    if (sz <? 0)%Z then ret None else
    if LLAMA_MODEL_DESC_SIZE <? Z.to_nat sz then undefined else ret (Some (substring 0 (Z.to_nat sz) text))).
Definition chat_template (self : nat) (name : option string) : M string :=
  on_model self EmptyString (fun x => match l_chat_template o x name with Some s => ret s | None => undefined end).

(** *** [adapter_lora] *)

Definition adapter_null (self : nat) : M unit := construct KAdapter self None.
Definition adapter_lora (self model : nat) (path : option string) : M unit :=
  do p <- get KModel model;
  match p, path with
  | Some l, Some path =>
      do r <- deref l; do x <- as_model r;
      if init_adapter o x path then do a <- alloc (RAdapter l); construct KAdapter self (Some a) else construct KAdapter self None
  | _, _ => construct KAdapter self None
  end.
Definition on_adapter {A} (self : nat) (null : A) (f : Model -> A) : M A :=
  do p <- get KAdapter self;
  match p with
  | None => ret null
  | Some l => do r <- deref l; match r with RAdapter ml => do r <- deref ml; do x <- as_model r; ret (f x) | _ => undefined end
  end.
Definition adapter_query (self : nat) (q : ask_adapter) : M Z :=
  on_adapter self (match q with A_meta_count => -1 | _ => 0 end)%Z (fun x => adapter_ask o x q).
Definition adapter_buffer (self : nat) (q : fill) (length : Z) : M (Z * string) := on_adapter self ((-1)%Z, EmptyString) (fun x => adapter_fill o x q length).

(** *** [context] and [memory] *)

Definition context_null (self : nat) : M unit := construct KContext self None.
(** [llama_init_from_model] of the pointer of a model. *)
Definition new_context (model : nat) (ps : Params) : M (option nat) :=
  do p <- get KModel model;
  match p with
  | None => match init_context o None ps with Some _ => undefined | None => ret None end
  | Some l => do r <- deref l; do x <- as_model r;
      match init_context o (Some x) ps with Some c => do a <- alloc (RContext c l []); ret (Some a) | None => ret None end
  end.
Definition context (self model : nat) (ps : Params) : M unit := do p <- new_context model ps; construct KContext self p.
Definition context_init (self model : nat) (ps : Params) : M unit :=
  do p <- get KContext self; do _ <- free_ptr p; do p <- new_context model ps; put KContext self p.
Definition on_context {A} (self : nat) (null : A) (f : nat -> Ctx -> nat -> list nat -> M A) : M A :=
  do p <- get KContext self;
  match p with None => ret null | Some l => do r <- deref l; do c <- as_context r; f l (fst (fst c)) (snd (fst c)) (snd c) end.
(** A new [model] on the pointer of the context; a new handle. *)
Definition get_model (self out : nat) : M bool := on_context self false (fun _ _ ml _ => do _ <- construct KModel out (Some ml); ret true).
Definition get_memory (self out : nat) : M bool :=
  on_context self false (fun l _ _ _ m =>
    match handles m !! out with
    | Some _ => None
    | None => Some (true, Memory (objects m) (heap m) (<[out := Some l]> (handles m)) (next_loc m))
    end).
Definition context_query (self : nat) (q : ask_context) : M Z := on_context self 0%Z (fun _ c _ _ => ret (context_ask o c q)).
Definition null_act (a : act_context) : Z := match a with Decode _ | Set_adapter_cvec _ _ _ _ _ => -1 | _ => 0 end.
(** The library uses each adapter: it has to be there. *)
Fixpoint derefs (ls : list nat) : M unit :=
  match ls with [] => ret tt | l :: ls => do r <- deref l; match r with RAdapter _ => derefs ls | _ => undefined end end.
(** Decoding uses the model and the adapters of the context, sampling its model. *)
Definition decodes (a : act_context) : bool := match a with Decode _ => true | _ => false end.
Definition uses (ml : nat) (ls : list nat) : M unit := do r <- deref ml; do _ <- as_model r; derefs ls.
Definition context_do (self : nat) (a : act_context) : M Z :=
  on_context self (null_act a) (fun l c ml ls =>
    do _ <- (if decodes a then uses ml ls else ret tt);
    let (z, c) := context_act o c a in do _ <- update l (RContext c ml ls); ret z).
(** [decode(const batch &)] *)
Definition decode (self : nat) (b : Batch.batch) : M Z := context_do self (Decode (Batch._batch b)).
Fixpoint lora_ptrs (loras : list nat) : M (option (list nat)) :=
  match loras with
  | [] => ret (Some [])
  | a :: loras => do p <- get KAdapter a;
      match p with None => ret None | Some l => do ls <- lora_ptrs loras; ret ((l ::.) <$> ls) end
  end.
(** The context keeps the pointers, in the place of those it had; when the library
    refuses them it may have kept some of either. *)
Definition set_adapter_lora (self : nat) (loras : list nat) (scales : list double) : M Z :=
  on_context self (-1)%Z (fun l c ml old =>
    do ls <- lora_ptrs loras;
    match ls with
    | None => ret (-1)%Z
    | Some ls => do _ <- derefs ls;
        let (z, c) := set_adapters o c ls scales in
        do _ <- update l (RContext c ml (if (z =? 0)%Z then ls else old ++ ls)); ret z
    end).

Definition handle_null (self : nat) : M unit := fun m =>
  match handles m !! self with
  | Some _ => None
  | None => Some (tt, Memory (objects m) (heap m) (<[self := None]> (handles m)) (next_loc m))
  end.
(** [if(_mem)] and a call on the memory of the context. *)
Definition memory_do (self : nat) (a : act_memory) : M unit := fun m =>
  match handles m !! self with
  | None => None
  | Some None => Some (tt, m)
  | Some (Some l) => (do r <- deref l; do c <- as_context r; update l (RContext (memory_act o (fst (fst c)) a) (snd (fst c)) (snd c))) m
  end.
Definition can_shift (self : nat) : M bool := fun m =>
  match handles m !! self with
  | None => None
  | Some None => Some (false, m)
  | Some (Some l) => (do r <- deref l; do c <- as_context r; ret (l_can_shift o (fst (fst c)))) m
  end.
Definition memory_destroy (self : nat) : M unit :=
  do _ <- memory_do self (Clear true);
  fun m => Some (tt, Memory (objects m) (heap m) (delete self (handles m)) (next_loc m)).

(** *** [sampler] *)

(** [llama_sampler_chain_init], which may give none. *)
Definition new_chain (chain : list Chain.stage) : M (option nat) := if sampler_init o then do l <- alloc (RSampler chain); ret (Some l) else ret None.
Definition sampler (self : nat) : M unit := do p <- new_chain []; construct KSampler self p.
Definition sampler_params (self : nat) (ps : Chain.params) : M unit := do p <- new_chain (Chain.configure ps); construct KSampler self p.
Definition on_sampler {A} (self : nat) (null : A) (f : nat -> list Chain.stage -> M A) : M A :=
  do p <- get KSampler self;
  match p with None => ret null | Some l => do r <- deref l; do c <- as_sampler r; f l c end.
(** Every [init_...] *)
Definition init_stage (self : nat) (s : Chain.stage) : M unit := on_sampler self tt (fun l c => update l (RSampler (Chain.init s c))).
(** [reset] and [accept] change what the stages remember, which is not kept. *)
Definition sampler_touch (self : nat) : M unit := on_sampler self tt (fun _ _ => ret tt).
Definition sample (self ctx : nat) (idx : Z) : M Z :=
  on_sampler self (-1)%Z (fun _ chain => on_context ctx (-1)%Z (fun _ c ml _ => do _ <- uses ml []; ret (l_sample o chain c idx))).
End Llama.
End Llama.
