(* ===== verification/LlamaThm.v ===== *)
(** * Language models: theorems

    A batch is filled within its arrays; the objects of the library have one owner
    each, over every sequence of operations whose callers keep their side; a prompt
    is turned into all its tokens; a sampler is configured in the order its stages
    need.  The operations that no caller can use safely are at the end. *)

From Stdlib Require Import ZArith Lia List Bool Ascii String Sorting.Sorted.
From stdpp Require Import base tactics list option gmap strings.
From S2P Require Import Prelude Ints Doubles Llama.

Open Scope hj_scope.
Open Scope nat_scope.

(** ** Batches *)

Section Batches.
Import Batch.

(** Room for [k] entries with a sequence each, and tokens; the arrays of embeddings
    are not of this kind. *)
Record shaped (k : nat) (a : llama_batch) : Prop :=
  { sh_token : exists arr, token a = Some arr /\ length arr = k;
    sh_pos : length (pos a) = k; sh_nseq : length (n_seq_id a) = k; sh_seq : length (seq_id a) = k;
    sh_rows : Forall (fun row => 0 < length row) (seq_id a); sh_logits : length (logits a) = k }.
Definition wf (b : batch) : Prop := (0 <= _capacity b)%Z /\ shaped (Z.to_nat (_capacity b)) (_batch b) /\ (n_tokens (_batch b) <= _capacity b)%Z.

Lemma make_wf n k : (0 <= n)%Z -> (0 < k)%Z -> exists b, make n 0 k = Some b /\ wf b /\ _capacity b = n.
Proof.
  intros Hn Hk. unfold make, llama_batch_init. replace ((n <? 0)%Z || (k <? 0)%Z || (0 <? 0)%Z) with false.
  2:{ symmetry. rewrite !orb_false_iff, !Z.ltb_ge. lia. }
  eexists. split; [reflexivity|]. split; [|reflexivity]. split; [exact Hn|]. split; [|exact Hn]. cbn.
  split; cbn; rewrite ?length_replicate; auto.
  - eexists. split; [reflexivity|]. apply length_replicate.
  - apply Forall_replicate. rewrite length_replicate. lia.
Qed.

Lemma store_ok {A} i (x : A) l : i < length l -> store i x l = Some (<[i := x]> l).
Proof. intros H. unfold store. apply Nat.ltb_lt in H. now rewrite H. Qed.

(** An entry is as the loop leaves it. *)
Definition entry (tokens : list Z) (start_pos : Z) (a : llama_batch) (i : nat) : Prop :=
  (exists arr t, token a = Some arr /\ tokens !! i = Some t /\ arr !! i = Some (Some t))
  /\ pos a !! i = Some (Some (start_pos + Z.of_nat i)%Z) /\ n_seq_id a !! i = Some (Some 1%Z)
  /\ (exists row, seq_id a !! i = Some row /\ row !! 0 = Some (Some 0%Z)) /\ logits a !! i = Some (Some false).

Lemma set_token_ok k tokens start_pos i a : shaped k a -> i < k -> i < length tokens ->
  (- 2 ^ 31 <= start_pos + Z.of_nat i < 2 ^ 31)%Z ->
  exists a', set_token tokens start_pos i a = Some a' /\ shaped k a' /\ entry tokens start_pos a' i
    /\ forall i', i' <> i -> entry tokens start_pos a i' -> entry tokens start_pos a' i'.
Proof.
  intros [(arr & Ha & Hl) Hp Hn Hs Hr Hg] Hi Ht Hz. unfold set_token. rewrite Ha.
  destruct (lookup_lt_is_Some_2 tokens i Ht) as [t Et]. rewrite Et.
  assert (Hadd : Ints.add (Ity 32 true) start_pos (Z.of_nat i) = Some (start_pos + Z.of_nat i)%Z).
  { apply arith_exact; [reflexivity|]. unfold in_type, t_min, t_max; cbn. apply andb_true_iff. rewrite !Z.leb_le. lia. }
  rewrite Hadd, !store_ok by lia. destruct (lookup_lt_is_Some_2 (seq_id a) i ltac:(lia)) as [row Erow]. rewrite Erow.
  pose proof (proj1 (list.Forall_lookup _ _) Hr i row Erow) as Hrow. cbn in Hrow. rewrite !store_ok by lia.
  eexists. split; [reflexivity|]. split_and!.
  - split; cbn; rewrite ?length_insert; auto.
    + eexists. split; [reflexivity|]. now rewrite length_insert.
    + apply Forall_insert; [exact Hr|]. now rewrite length_insert.
  - unfold entry; cbn. rewrite !list_lookup_insert_eq by lia. split_and!; auto.
    + eexists _, t. split; [reflexivity|]. split; [exact Et|]. apply list_lookup_insert_eq. lia.
    + eexists. split; [reflexivity|]. now apply list_lookup_insert_eq.
  - intros i' Hne (E1 & E2 & E3 & E4 & E5). unfold entry; cbn. rewrite !list_lookup_insert_ne by congruence. split_and!; auto.
    destruct E1 as (arr' & t' & H1 & H2 & H3). rewrite Ha in H1. injection H1 as <-. eexists _, t'. split; [reflexivity|].
    split; [exact H2|]. now rewrite list_lookup_insert_ne by congruence.
Qed.

Lemma set_tokens_ok b tokens n start_pos : wf b -> (n <= Z.of_nat (length tokens))%Z ->
  (- 2 ^ 31 <= start_pos)%Z -> (start_pos + Z.min n (_capacity b) <= 2 ^ 31)%Z ->
  exists b', set_tokens tokens n start_pos b = Some b' /\ wf b' /\ _capacity b' = _capacity b
    /\ n_tokens (_batch b') = Z.min n (_capacity b)
    /\ forall i, (Z.of_nat i < Z.min n (_capacity b))%Z -> entry tokens start_pos (_batch b') i.
Proof.
  intros (Hc & Hs & Hn) Ht H1 H2. unfold set_tokens. set (k := Z.to_nat (_capacity b)) in *.
  destruct (for_up_inv (fun i a => shaped k a /\ forall j, j < i -> entry tokens start_pos a j)
      (set_token tokens start_pos) 0 (Z.to_nat (Z.min n (_capacity b))) (_batch b)) as (a & -> & Ha & He).
  - split; [exact Hs|]. lia.
  - intros i a Hi [Ha He]. destruct (set_token_ok k tokens start_pos i a Ha) as (a' & -> & Ha' & Hi' & Hold); [lia|lia|lia|].
    exists a'. split; [reflexivity|]. split; [exact Ha'|]. intros j Hj. destruct (decide (j = i)) as [->|]; [exact Hi'|]. apply Hold; [assumption|]. apply He. lia.
  - eexists. split; [reflexivity|]. split_and!; auto; cbn.
    + split; [exact Hc|]. cbn. split; [destruct Ha; split; assumption|lia].
    + intros i Hi. apply He. lia.
Qed.

Lemma set_logits_ok b idx v : wf b -> exists b', set_logits idx v b = Some b' /\ wf b' /\ token (_batch b') = token (_batch b).
Proof.
  intros (Hc & [Hs1 Hs2 Hs3 Hs4 Hs5 Hs6] & Hn). unfold set_logits. destruct (_ && _) eqn:E; [|exists b; repeat split; auto].
  apply andb_true_iff in E as [E1%Z.leb_le E2%Z.ltb_lt]. rewrite store_ok by lia. eexists. split; [reflexivity|]. split; [|reflexivity].
  split; [exact Hc|]. split; [|exact Hn]. split; cbn; rewrite ?length_insert; auto.
Qed.
End Batches.

(** ** Samplers *)

Section Samplers.
Import Chain.

(** What comes before what. *)
Definition rank (s : stage) : nat :=
  match s with Penalties _ _ _ _ => 0 | TopK _ => 1 | TopP _ _ => 2 | MinP _ _ => 3 | Temp _ => 4 | TempExt _ _ _ => 5 | _ => 6 end.

(** Each stage at most once, in this order, the distribution last; the cuts are
    proper and keep a token, numbers that are none add nothing. *)
Lemma configure_order p : (exists l, configure p = l ++ [Dist (seed p)])
  /\ StronglySorted lt (rank <$> configure p)
  /\ Forall (fun s => match s with
       | TopK k => (0 < k)%Z | TopP x k | MinP x k => is_nan x = false /\ dlt dzero x = true /\ (0 < k)%Z | Temp t => dlt dzero t = true | _ => True end) (configure p).
Proof.
  split; [unfold configure; eexists; reflexivity|].
  unfold configure, init, init_top_k, within, positive.
  assert (Hmk : forall k, (0 < min_keep k)%Z) by (intros k; unfold min_keep; destruct (Z.ltb_spec 0 k); lia).
  repeat match goal with |- context [if ?c then _ else _] => destruct c eqn:? end; reflect_bools; try lia;
    cbn [app fmap list_fmap rank]; (split;
    [repeat (constructor; [|repeat constructor; lia]); constructor
    |repeat (constructor; [try exact I; try assumption; try (split_and!; [eapply dlt_nan_r; eassumption|assumption|apply Hmk])|]); constructor]).
Qed.
End Samplers.

(** ** Ownership *)

Import Llama.

(** Tokens are counted as the library says: the negated number when there is no room. *)
Class LlamaLaws {Model Ctx Params : Type} (o : llama Model Ctx Params) (T : Model -> string -> bool -> bool -> list Z) : Prop :=
  { law_tokenize x text a p room : (Z.of_nat (String.length text) < 2 ^ 31)%Z -> (Z.of_nat (length (T x text a p)) < 2 ^ 31)%Z ->
      l_tokenize o x text (Z.of_nat (String.length text)) a p room
        = if room <? length (T x text a p) then ((- Z.of_nat (length (T x text a p)))%Z, []) else (Z.of_nat (length (T x text a p)), T x text a p);
    law_null ps : init_context o None ps = None }.

Section Ownership.
Context {Model Ctx Params : Type} (o : llama Model Ctx Params) (T : Model -> string -> bool -> bool -> list Z) `{!LlamaLaws o T}.
Implicit Types m : memory Model Ctx.

Definition owns m (self : nat) (k : kind) (l : nat) : Prop := objects m !! self = Some (k, Some l).
Definition has m (k : kind) (self : nat) : Prop := exists p, objects m !! self = Some (k, p).
(** What an object of the library refers to: the model it was made from, and the
    adapters a context was given. *)
Definition needs (r : res Model Ctx) : list (kind * nat) :=
  match r with RAdapter ml => [(KModel, ml)] | RContext _ ml ls => (KModel, ml) :: ((fun l => (KAdapter, l)) <$> ls) | _ => [] end.
Definition there m (x : kind * nat) : Prop := exists r, heap m !! snd x = Some r /\ kind_of r = fst x.

Record sound m : Prop :=
  { s_live s k l : owns m s k l -> exists r, heap m !! l = Some r /\ kind_of r = k;
    s_own s s' k k' l : owns m s k l -> owns m s' k' l -> s = s';
    s_fresh l : next_loc m <= l -> heap m !! l = None;
    s_needs l r : heap m !! l = Some r -> Forall (there m) (needs r);
    s_handle h l : handles m !! h = Some (Some l) -> there m (KContext, l);
    s_leak l r : heap m !! l = Some r -> exists s k, owns m s k l }.
(** Nothing refers to the object, and no handle is to it. *)
Definition releasable m (p : option nat) : Prop :=
  forall l, p = Some l -> (forall l' r, heap m !! l' = Some r -> Forall (fun x => snd x <> l) (needs r)) /\ (forall h, handles m !! h <> Some (Some l)).

Lemma releasable_dec m p : bool_decide (map_Forall (fun _ r => Forall (fun x => Some (snd x) <> p) (needs r)) (heap m)) && bool_decide (map_Forall (fun _ q => q <> p) (handles m)) = true ->
  releasable m p.
Proof using. intros [H1%bool_decide_eq_true H2%bool_decide_eq_true]%andb_true_iff l ->. split.
  { intros l' r E. eapply Forall_impl; [exact (H1 l' r E)|]. intros x Hx Ex. apply Hx. now f_equal. }
  intros h E. exact (H2 h _ E eq_refl). Qed.

(** What an operation does: it returns, in a memory. *)
Definition safe {A} (x : M A) (Q : A -> memory Model Ctx -> Prop) m : Prop := exists a m', x m = Some (a, m') /\ Q a m'.
Lemma safe_ret {A} (a : A) (Q : A -> memory Model Ctx -> Prop) m : Q a m -> safe (ret a) Q m.
Proof using. intros H. exists a, m. auto. Qed.
Lemma safe_bind {A B} (x : M A) (f : A -> M B) Q m : safe x (fun a => safe (f a) Q) m -> safe (bind x f) Q m.
Proof using. intros (a & m' & E & a' & m2 & E' & H). exists a', m2. unfold bind. rewrite E. auto. Qed.
Lemma safe_eval {A B} (x : M A) (f : A -> M B) a m m' Q : x m = Some (a, m') -> safe (f a) Q m' -> safe (bind x f) Q m.
Proof using. intros E (a' & m2 & E' & H). exists a', m2. unfold bind. rewrite E. auto. Qed.
Lemma safe_mono {A} (x : M A) (Q Q' : A -> memory Model Ctx -> Prop) m : (forall a m', Q a m' -> Q' a m') -> safe x Q m -> safe x Q' m.
Proof using. intros H (a & m' & E & HQ). exists a, m'. auto. Qed.

Lemma get_eval m k s p : objects m !! s = Some (k, p) -> get k s m = Some (p, m).
Proof using. intros E. unfold get. now rewrite E, decide_True. Qed.
Lemma put_eval m k s p e : objects m !! s = Some e -> put k s p m = Some (tt, Memory (<[s := (k, p)]> (objects m)) (heap m) (handles m) (next_loc m)).
Proof using. intros E. unfold put. now rewrite E. Qed.
Lemma construct_eval m k s p : objects m !! s = None -> construct k s p m = Some (tt, Memory (<[s := (k, p)]> (objects m)) (heap m) (handles m) (next_loc m)).
Proof using. intros E. unfold construct. now rewrite E. Qed.
Lemma deref_eval m l r : heap m !! l = Some r -> deref l m = Some (r, m).
Proof using. intros E. unfold deref. now rewrite E. Qed.

Definition del (p : option nat) (h : gmap nat (res Model Ctx)) : gmap nat (res Model Ctx) := match p with Some l => delete l h | None => h end.
Lemma free_ptr_eval m s k p : sound m -> objects m !! s = Some (k, p) ->
  free_ptr p m = Some (tt, Memory (objects m) (del p (heap m)) (handles m) (next_loc m)).
Proof using.
  intros Hm Hs. destruct p as [l|]; [|now destruct m]. destruct (s_live m Hm s k l Hs) as (r & E & _). cbn. unfold free. now rewrite E.
Qed.

Lemma owned m s k l : sound m -> owns m s k l -> exists r, heap m !! l = Some r /\ kind_of r = k.
Proof using. intros Hm. apply (s_live m Hm). Qed.
Lemma owned_old m s k l : sound m -> owns m s k l -> l < next_loc m.
Proof using.
  intros Hm Hs. destruct (s_live m Hm s k l Hs) as (r & E & _). destruct (decide (next_loc m <= l)) as [H|]; [|lia].
  rewrite (s_fresh m Hm l H) in E. discriminate.
Qed.

(** An object takes a new object of the library, or none, or ends; its old one is freed. *)
Definition replaced m (self : nat) (old : option nat) (entry : option kind) (new : option (res Model Ctx)) : memory Model Ctx :=
  let l := next_loc m in
  Memory (match entry with Some k => <[self := (k, match new with Some _ => Some l | None => None end)]> (objects m) | None => delete self (objects m) end)
    (match new with Some r => <[l := r]> (del old (heap m)) | None => del old (heap m) end) (handles m)
    (match new with Some _ => S l | None => l end).

Lemma del_lookup p (h : gmap nat (res Model Ctx)) l r : del p h !! l = Some r <-> h !! l = Some r /\ p <> Some l.
Proof using.
  destruct p as [l'|]; cbn; [|split; [|tauto]; intros; split; [assumption|discriminate]].
  rewrite lookup_delete_Some. intuition congruence.
Qed.

Lemma replaced_owns m self old entry new s k l : (entry = None -> new = None) ->
  owns (replaced m self old entry new) s k l <->
    (s <> self /\ owns m s k l) \/ (s = self /\ entry = Some k /\ l = next_loc m /\ new <> None).
Proof using.
  intros Hn. unfold owns, replaced; cbn. destruct entry as [k'|].
  - rewrite lookup_insert_Some. destruct new as [r|]; split.
    + intros [[-> [= -> <-]]|[Hne H]]; [right; repeat split; congruence|left; auto].
    + intros [[Hne H]|(-> & [= ->] & -> & _)]; [right|left]; auto.
    + intros [[-> [=]]|[Hne H]]; left; auto.
    + intros [[Hne H]|(_ & _ & _ & H)]; [right; auto|congruence].
  - rewrite lookup_delete_Some. rewrite (Hn eq_refl). intuition congruence.
Qed.

Lemma replaced_heap m self old entry new l r : sound m ->
  heap (replaced m self old entry new) !! l = Some r <->
    (heap m !! l = Some r /\ old <> Some l) \/ (l = next_loc m /\ new = Some r).
Proof using.
  intros Hm. unfold replaced; cbn. pose proof (s_fresh m Hm (next_loc m) (Nat.le_refl _)) as Hf. destruct new as [r'|].
  - rewrite lookup_insert_Some, del_lookup. split.
    + intros [[<- <-]|(Hne & H)]; [right|left]; auto.
    + intros [[H1 H2]|[-> [= ->]]]; [right|left; auto]. split; [congruence|auto].
  - rewrite del_lookup. split; [left; auto|intros [H|[_ [=]]]; exact H].
Qed.

Lemma replaced_sound m self old entry new : sound m ->
  (objects m !! self = None /\ old = None \/ exists k, objects m !! self = Some (k, old)) ->
  releasable m old ->
  match new with Some r => entry = Some (kind_of r) /\ Forall (fun x => there m x /\ old <> Some (snd x)) (needs r) | None => True end ->
  sound (replaced m self old entry new).
Proof using.
  intros Hm Hs Hr Hn.
  assert (Hen : entry = None -> new = None) by (intros ->; destruct new; [destruct Hn; discriminate|reflexivity]).
  assert (Hold : forall s k l, s <> self -> owns m s k l -> old <> Some l).
  { intros s k l Hne H E. destruct Hs as [[_ ->]|[k' Hs]]; [discriminate|]. subst old. now apply Hne, (s_own m Hm s self k k' l). }
  assert (Hkeep : forall l x, heap m !! l = Some x -> old <> Some l -> heap (replaced m self old entry new) !! l = Some x).
  { intros l x H1 H2. rewrite replaced_heap by exact Hm. auto. }
  split.
  - intros s k l [[Hne H]|(-> & -> & -> & Hnew)]%replaced_owns; [| |exact Hen].
    + destruct (s_live m Hm s k l H) as (r & E & Hk). exists r. split; [|exact Hk]. eauto.
    + destruct new as [r|]; [|congruence]. destruct Hn as [[= ->] _]. exists r. split; [|reflexivity]. rewrite replaced_heap by exact Hm. auto.
  - intros s s' k k' l [[Hne H]|(-> & _ & El & _)]%replaced_owns [[Hne' H']|(-> & _ & El' & _)]%replaced_owns; try exact Hen.
    + now apply (s_own m Hm s s' k k' l).
    + subst l. apply (owned_old m s k) in H; [lia|exact Hm].
    + subst l. apply (owned_old m s' k') in H'; [lia|exact Hm].
    + reflexivity.
  - intros l Hl. destruct (heap (replaced m self old entry new) !! l) as [r|] eqn:E; [|reflexivity].
    assert (Hle : next_loc m <= l) by (destruct new; cbn in Hl; lia).
    apply replaced_heap in E as [[E _]|[-> E]]; [|subst new; cbn in Hl; lia|exact Hm]. rewrite (s_fresh m Hm l) in E by lia. discriminate.
  - intros l r [[E1 E2]|[-> ->]]%replaced_heap; [| |exact Hm].
    + apply list.Forall_forall. intros x Hx. destruct (proj1 (list.Forall_forall _ _) (s_needs m Hm l r E1) x Hx) as (r' & Er & Ek).
      exists r'. split; [|exact Ek]. apply Hkeep; [exact Er|]. intros ->. now apply (proj1 (list.Forall_forall _ _) (proj1 (Hr _ eq_refl) l r E1) x Hx).
    + destruct Hn as [_ Hn]. eapply Forall_impl; [exact Hn|]. intros x [(r' & Er & Ek) Hne]. exists r'. auto.
  - intros h l Hh. destruct (s_handle m Hm h l Hh) as (r & E & Ek). exists r. split; [|exact Ek]. apply Hkeep; [exact E|]. intros ->. now apply (proj2 (Hr l eq_refl) h).
  - intros l r [[E1 E2]|[-> ->]]%replaced_heap; [| |exact Hm].
    + destruct (s_leak m Hm l r E1) as (s & k & H). exists s, k. apply replaced_owns; [exact Hen|]. left. split; [|exact H]. intros ->.
      destruct Hs as [[Hs _]|[k' Hs]]; unfold owns in H; rewrite Hs in H; [discriminate|]. injection H as _ ->. now apply E2.
    + destruct Hn as [-> _]. exists self, (kind_of r). apply replaced_owns; [discriminate|]. right. repeat split. discriminate.
Qed.

(** An object of the library changes, but not its kind; a handle; a move. *)
Lemma there_update m l r r' hs n x : heap m !! l = Some r -> kind_of r' = kind_of r -> there m x -> there (Memory (objects m) (<[l := r']> (heap m)) hs n) x.
Proof using.
  intros Hl Hk (r0 & E & Ek). unfold there; cbn. destruct (decide (l = snd x)) as [->|Hne].
  - exists r'. rewrite lookup_insert_eq. split; [reflexivity|]. rewrite Hk, <- Ek. f_equal. rewrite Hl in E. now injection E.
  - exists r0. now rewrite lookup_insert_ne.
Qed.
Lemma update_sound m l r r' : sound m -> heap m !! l = Some r -> kind_of r' = kind_of r -> Forall (there m) (needs r') ->
  sound (Memory (objects m) (<[l := r']> (heap m)) (handles m) (next_loc m)).
Proof using.
  intros Hm Hl Hk Hnd. split; unfold owns in *; cbn [objects heap handles next_loc] in *.
  - intros s k l' H. exact (there_update m l r r' (handles m) (next_loc m) (k, l') Hl Hk (s_live m Hm s k l' H)).
  - exact (s_own m Hm).
  - intros l' H. rewrite lookup_insert_ne; [now apply (s_fresh m Hm)|]. intros ->. rewrite (s_fresh m Hm l' H) in Hl. discriminate.
  - intros l' r0 H. assert (H' : Forall (there m) (needs r0)).
    { apply lookup_insert_Some in H as [[_ <-]|[_ H]]; [exact Hnd|exact (s_needs m Hm l' r0 H)]. }
    eapply Forall_impl; [exact H'|]. intros x Hx. now apply there_update with r.
  - intros h l' H. apply there_update with r; auto. exact (s_handle m Hm h l' H).
  - intros l' r0 H. apply lookup_insert_Some in H as [[<- _]|[_ H]]; [exact (s_leak m Hm l r Hl)|exact (s_leak m Hm l' r0 H)].
Qed.

Lemma handles_sound m hs : sound m -> (forall h l, hs !! h = Some (Some l) -> there m (KContext, l)) ->
  sound (Memory (objects m) (heap m) hs (next_loc m)).
Proof using. intros [] H. split; auto. Qed.

Lemma move_sound m self other p : sound m -> objects m !! self = None -> objects m !! other = Some (KModel, p) ->
  sound (Memory (<[other := (KModel, None)]> (<[self := (KModel, p)]> (objects m))) (heap m) (handles m) (next_loc m)).
Proof using.
  intros Hm Hs Ho. assert (Hne : self <> other) by congruence.
  (** Who owns what afterwards. *)
  assert (Hown : forall s k l, <[other := (KModel, None)]> (<[self := (KModel, p)]> (objects m)) !! s = Some (k, Some l) ->
    (s = self /\ owns m other k l) \/ (s <> self /\ s <> other /\ owns m s k l)).
  { intros s k l. rewrite !lookup_insert_Some. intros [[_ [=]]|(H1 & [[<- [= <- ->]]|[H2 H]])]; [left; auto|right; split_and!; [congruence|congruence|exact H]]. }
  split; unfold owns in *; cbn [objects heap handles next_loc] in *.
  - intros s k l H. destruct (Hown s k l H) as [[_ H']|(_ & _ & H')]; exact (s_live m Hm _ k l H').
  - intros s s' k k' l H H'. destruct (Hown s k l H) as [[-> H1]|(N1 & N2 & H1)], (Hown s' k' l H') as [[-> H2]|(N3 & N4 & H2)]; auto.
    + exfalso. apply N4. symmetry. exact (s_own m Hm _ _ _ _ _ H1 H2).
    + exfalso. apply N2. exact (s_own m Hm _ _ _ _ _ H1 H2).
    + exact (s_own m Hm _ _ _ _ _ H1 H2).
  - exact (s_fresh m Hm).
  - exact (s_needs m Hm).
  - exact (s_handle m Hm).
  - intros l r H. destruct (s_leak m Hm l r H) as (s & k & Hs'). unfold owns in Hs'. destruct (decide (s = other)) as [->|Hso].
    + rewrite Ho in Hs'. injection Hs' as <- ->. exists self, KModel. now rewrite lookup_insert_ne, lookup_insert_eq by congruence.
    + exists s, k. rewrite !lookup_insert_ne by congruence. exact Hs'.
Qed.

(** *** The pieces of the operations *)

Definition good {A} : A -> memory Model Ctx -> Prop := fun _ => sound.

Lemma on_model_safe {A} m self (null : A) f Q : sound m -> has m KModel self -> Q null m ->
  (forall l x, owns m self KModel l -> heap m !! l = Some (RModel x) -> safe (f x) Q m) -> safe (on_model self null f) Q m.
Proof using.
  intros Hm [p Hs] Hn Hf. unfold on_model. eapply safe_eval; [exact (get_eval m _ self p Hs)|]. destruct p as [l|]; [|now apply safe_ret].
  destruct (s_live m Hm self KModel l Hs) as ([x|?|? ? ?|?] & E & Hk); try discriminate.
  eapply safe_eval; [exact (deref_eval m l _ E)|]. eapply safe_eval; [reflexivity|]. now apply (Hf l).
Qed.

Lemma on_adapter_safe {A} m self (null : A) f : sound m -> has m KAdapter self -> safe (on_adapter self null f) good m.
Proof using.
  intros Hm [p Hs]. unfold on_adapter. eapply safe_eval; [exact (get_eval m _ self p Hs)|]. destruct p as [l|]; [|now apply safe_ret].
  destruct (s_live m Hm self KAdapter l Hs) as ([x|ml|? ? ?|?] & E & Hk); try discriminate.
  eapply safe_eval; [exact (deref_eval m l _ E)|]. destruct (proj1 (Forall_singleton _ _) (s_needs m Hm l _ E)) as ([x|?|? ? ?|?] & Ex & Hkx); try discriminate.
  eapply safe_eval; [exact (deref_eval m ml _ Ex)|]. eapply safe_eval; [reflexivity|]. now apply safe_ret.
Qed.

Lemma on_context_safe {A} m self (null : A) f Q : sound m -> has m KContext self -> Q null m ->
  (forall l c ml ls, owns m self KContext l -> heap m !! l = Some (RContext c ml ls) -> safe (f l c ml ls) Q m) -> safe (on_context self null f) Q m.
Proof using.
  intros Hm [p Hs] Hn Hf. unfold on_context. eapply safe_eval; [exact (get_eval m _ self p Hs)|]. destruct p as [l|]; [|now apply safe_ret].
  destruct (s_live m Hm self KContext l Hs) as ([x|?|c ml ls|?] & E & Hk); try discriminate.
  eapply safe_eval; [exact (deref_eval m l _ E)|]. eapply safe_eval; [reflexivity|]. now apply Hf.
Qed.

Lemma on_sampler_safe {A} m self (null : A) f Q : sound m -> has m KSampler self -> Q null m ->
  (forall l c, owns m self KSampler l -> heap m !! l = Some (RSampler c) -> safe (f l c) Q m) -> safe (on_sampler self null f) Q m.
Proof using.
  intros Hm [p Hs] Hn Hf. unfold on_sampler. eapply safe_eval; [exact (get_eval m _ self p Hs)|]. destruct p as [l|]; [|now apply safe_ret].
  destruct (s_live m Hm self KSampler l Hs) as ([x|?|? ? ?|c] & E & Hk); try discriminate.
  eapply safe_eval; [exact (deref_eval m l _ E)|]. eapply safe_eval; [reflexivity|]. now apply Hf.
Qed.

(** A context changes in place. *)
Lemma update_context m l c c' ml ls ls' {A} (a : A) : sound m -> heap m !! l = Some (RContext c ml ls) -> Forall (fun x => there m (KAdapter, x)) ls' ->
  safe (bind (update l (RContext c' ml ls')) (fun _ => ret a)) good m.
Proof using.
  intros Hm E Hl. eapply safe_eval; [unfold update; rewrite E; reflexivity|]. apply safe_ret.
  apply (update_sound m l (RContext c ml ls)); auto. pose proof (s_needs m Hm l _ E) as H. inversion H; subst. constructor; [assumption|].
  now apply list.Forall_fmap.
Qed.
(** The adapters of a context are there. *)
Lemma loras_there m l c ml ls : sound m -> heap m !! l = Some (RContext c ml ls) -> Forall (fun x => there m (KAdapter, x)) ls.
Proof using. intros Hm E. pose proof (s_needs m Hm l _ E) as H. apply Forall_cons_iff in H as [_ H]. exact (proj1 (list.Forall_fmap _ _ _) H). Qed.
Lemma derefs_eval m ls : Forall (fun x => there m (KAdapter, x)) ls -> derefs ls m = Some (tt, m).
Proof using.
  induction 1 as [|l ls (r & E & Hk) _ IH]; [reflexivity|]. cbn [derefs]. unfold bind. rewrite (deref_eval m l r E). destruct r; try discriminate. exact IH.
Qed.
Lemma uses_eval m l c ml ls ls' : sound m -> heap m !! l = Some (RContext c ml ls) -> Forall (fun x => there m (KAdapter, x)) ls' -> uses ml ls' m = Some (tt, m).
Proof using.
  intros Hm E Hl. pose proof (s_needs m Hm l _ E) as H. apply Forall_cons_iff in H as [([x|?|? ? ?|?] & Ex & Hk) _]; try discriminate.
  unfold uses, bind. rewrite (deref_eval m ml _ Ex). cbn [as_model]. unfold ret. now apply derefs_eval.
Qed.

(** A new object on what was loaded, made or nothing. *)
Lemma construct_new m self k (new : option (res Model Ctx)) : sound m -> objects m !! self = None ->
  match new with Some r => k = kind_of r /\ Forall (there m) (needs r) | None => True end ->
  safe (bind (match new with Some r => bind (alloc r) (fun l => ret (Some l)) | None => ret None end) (construct k self)) good m.
Proof using.
  intros Hm Hs Hn. assert (H : sound (replaced m self None (Some k) new)).
  { apply replaced_sound; [exact Hm|now left|now intros l [=]|]. destruct new as [r|]; [|exact I]. destruct Hn as [-> Hn]. split; [reflexivity|].
    eapply Forall_impl; [exact Hn|]. intros x Hx. split; [exact Hx|discriminate]. }
  destruct new as [r|]; (eapply safe_eval; [reflexivity|]); unfold safe; rewrite construct_eval by exact Hs; eexists _, _; split; try reflexivity; exact H.
Qed.

(** ** Operations as commands *)

Inductive cmd :=
| CModel (self : nat) | CModelFrom (self : nat) (src : source) (ps : Params) | CModelMove (self other : nat) | CLoad (self : nat) (src : source) (ps : Params)
| CModelFree (self : nat) | CSave (self : nat) | CQuery (self : nat) (q : ask) | CBuffer (self : nat) (q : fill) (len : Z)
| CTokenize (self : nat) (text : string) (a p : bool) | CDesc (self : nat) | CTemplate (self : nat) (name : option string)
| CAdapter0 (self : nat) | CAdapter (self model : nat) (path : option string) | CAQuery (self : nat) (q : ask_adapter) | CABuffer (self : nat) (q : fill) (len : Z)
| CContext0 (self : nat) | CContext (self model : nat) (ps : Params) | CInit (self model : nat) (ps : Params) | CCQuery (self : nat) (q : ask_context)
| CDo (self : nat) (a : act_context) | CDecode (self : nat) (b : Batch.batch) | CLoras (self : nat) (loras : list nat) (scales : list double) | CGetMemory (self out : nat)
| CGetModel (self out : nat) | CCopy (k : kind) (self other : nat)
| CHandle (self : nat) | CMem (self : nat) (a : act_memory) | CShift (self : nat) | CHandleEnd (self : nat)
| CSampler (self : nat) | CSamplerParams (self : nat) (ps : Chain.params) | CStage (self : nat) (st : Chain.stage) | CTouch (self : nat) | CSample (self ctx : nat) (idx : Z)
| CDestroy (k : kind) (self : nat).

Definition drop_result {A} (x : M (Model := Model) (Ctx := Ctx) A) : M (Model := Model) (Ctx := Ctx) unit := bind x (fun _ => ret tt).
Definition step (c : cmd) : M (Model := Model) (Ctx := Ctx) unit :=
  match c with
  | CModel s => model_null s | CModelFrom s src ps => model_from o s src ps | CModelMove s other => model_move s other
  | CLoad s src ps => drop_result (load o s src ps) | CModelFree s => drop_result (model_free s) | CSave s => drop_result (model_save s)
  | CQuery s q => drop_result (model_query o s q) | CBuffer s q len => drop_result (model_buffer o s q len)
  | CTokenize s text a p => drop_result (tokenize o s text a p) | CDesc s => drop_result (desc o s) | CTemplate s name => drop_result (chat_template o s name)
  | CAdapter0 s => adapter_null s | CAdapter s model path => adapter_lora o s model path
  | CAQuery s q => drop_result (adapter_query o s q) | CABuffer s q len => drop_result (adapter_buffer o s q len)
  | CContext0 s => context_null s | CContext s model ps => context o s model ps | CInit s model ps => context_init o s model ps
  | CCQuery s q => drop_result (context_query o s q) | CDo s a => drop_result (context_do o s a) | CDecode s b => drop_result (decode o s b)
  | CLoras s loras scales => drop_result (set_adapter_lora o s loras scales) | CGetMemory s out => drop_result (get_memory s out)
  | CGetModel s out => drop_result (get_model s out) | CCopy k s other => copy k s other
  | CHandle s => handle_null s | CMem s a => memory_do o s a | CShift s => drop_result (can_shift o s) | CHandleEnd s => memory_destroy o s
  | CSampler s => sampler o s | CSamplerParams s ps => sampler_params o s ps | CStage s st => init_stage s st | CTouch s => sampler_touch s
  | CSample s ctx idx => drop_result (sample o s ctx idx)
  | CDestroy k s => destroy k s
  end.

Definition fits (text : string) (a p : bool) (x : Model) : Prop :=
  (Z.of_nat (String.length text) < 2 ^ 31)%Z /\ (Z.of_nat (length (T x text a p)) < 2 ^ 31)%Z.
(** The callers' side: objects exist, or not yet; what is freed is not in use; a
    model is loaded over another only from what can be loaded; texts and numbers of
    tokens fit an [int]; the description fits its buffer, and the template is there;
    [get_model] and copies are of objects that hold a null pointer. *)
Definition allowed (c : cmd) m : Prop :=
  match c with
  | CModel s | CModelFrom s _ _ | CAdapter0 s | CContext0 s | CSampler s | CSamplerParams s _ => objects m !! s = None
  | CModelMove s other => objects m !! s = None /\ has m KModel other
  | CLoad s src ps => exists p, objects m !! s = Some (KModel, p) /\ releasable m p /\ (p = None \/ load_model o src ps <> None)
  | CModelFree s => exists p, objects m !! s = Some (KModel, p) /\ releasable m p
  | CSave s | CQuery s _ | CBuffer s _ _ => has m KModel s
  | CTokenize s text a p => has m KModel s /\ forall l x, owns m s KModel l -> heap m !! l = Some (RModel x) -> fits text a p x
  | CDesc s => has m KModel s /\ forall x, (fst (model_desc o x) <= 2048)%Z
  | CTemplate s name => has m KModel s /\ forall x, l_chat_template o x name <> None
  | CAdapter s model _ | CContext s model _ => objects m !! s = None /\ has m KModel model
  | CInit s model _ => (exists p, objects m !! s = Some (KContext, p) /\ releasable m p) /\ has m KModel model
  | CAQuery s _ | CABuffer s _ _ => has m KAdapter s
  | CCQuery s _ | CDo s _ | CDecode s _ => has m KContext s
  | CLoras s loras _ => has m KContext s /\ Forall (has m KAdapter) loras
  | CGetMemory s out => has m KContext s /\ handles m !! out = None
  | CGetModel s out => objects m !! s = Some (KContext, None)
  | CCopy k s other => k <> KModel /\ objects m !! s = None /\ objects m !! other = Some (k, None)
  | CHandle s => handles m !! s = None
  | CMem s _ | CShift s | CHandleEnd s => is_Some (handles m !! s)
  | CStage s _ | CTouch s => has m KSampler s
  | CSample s ctx _ => has m KSampler s /\ has m KContext ctx
  | CDestroy k s => exists p, objects m !! s = Some (k, p) /\ releasable m p
  end.

(** *** Each command keeps ownership *)

Lemma drop_safe {A} (x : M (Model := Model) (Ctx := Ctx) A) m : safe x good m -> safe (drop_result x) good m.
Proof using. intros (a & m' & E & H). eapply safe_eval; [exact E|]. now apply safe_ret. Qed.

Lemma construct_null m self k : sound m -> objects m !! self = None -> safe (construct k self None) good m.
Proof using.
  intros Hm Hs. exists tt, (replaced m self None (Some k) None). split; [now rewrite construct_eval|].
  apply replaced_sound; [exact Hm|now left|now intros l [=]|exact I].
Qed.

Lemma model_from_safe m self src ps : sound m -> objects m !! self = None -> safe (model_from o self src ps) good m.
Proof using.
  intros Hm Hs. pose proof (construct_new m self KModel (RModel <$> load_model o src ps) Hm Hs) as H.
  unfold model_from, new_model. destruct (load_model o src ps); apply H; [split; [reflexivity|constructor]|exact I].
Qed.

Lemma chain_safe m self chain : sound m -> objects m !! self = None -> safe (bind (new_chain o chain) (construct KSampler self)) good m.
Proof using.
  intros Hm Hs. pose proof (construct_new m self KSampler (if sampler_init o then Some (RSampler chain) else None) Hm Hs) as H.
  unfold new_chain. destruct (sampler_init o); apply H; [split; [reflexivity|constructor]|exact I].
Qed.

Lemma load_safe m self src ps p : sound m -> objects m !! self = Some (KModel, p) -> releasable m p -> (p = None \/ load_model o src ps <> None) ->
  safe (load o self src ps) good m.
Proof using.
  intros Hm Hs Hr Hl. unfold load. destruct (match src with FromFile _ => _ | _ => _ end); [now apply safe_ret|].
  eapply safe_eval; [exact (get_eval m _ self p Hs)|]. eapply safe_eval; [exact (free_ptr_eval m self _ p Hm Hs)|].
  pose proof (replaced_sound m self p (Some KModel) (RModel <$> load_model o src ps) Hm ltac:(eauto) Hr) as H.
  unfold new_model. destruct (load_model o src ps) as [x|].
  - eapply safe_eval; [reflexivity|]. cbn. eapply safe_eval; [apply (put_eval _ _ _ _ (KModel, p)); exact Hs|]. apply safe_ret. apply H. split; [reflexivity|constructor].
  - destruct Hl as [->|Hl]; [|congruence]. eapply safe_eval; [reflexivity|]. cbn. eapply safe_eval; [apply (put_eval _ _ _ _ (KModel, None)); exact Hs|].
    apply safe_ret. now apply H.
Qed.

Lemma model_free_safe m self p : sound m -> objects m !! self = Some (KModel, p) -> releasable m p -> safe (model_free self) good m.
Proof using.
  intros Hm Hs Hr. unfold model_free. eapply safe_eval; [exact (get_eval m _ self p Hs)|]. destruct p as [l|]; [|now apply safe_ret].
  eapply safe_eval; [exact (free_ptr_eval m self _ (Some l) Hm Hs)|]. eapply safe_eval; [apply (put_eval _ _ _ _ (KModel, Some l)); exact Hs|].
  apply safe_ret. apply (replaced_sound m self (Some l) (Some KModel) None); eauto.
Qed.

Lemma destroy_safe m k self p : sound m -> objects m !! self = Some (k, p) -> releasable m p -> safe (destroy k self) good m.
Proof using.
  intros Hm Hs Hr. unfold destroy. eapply safe_eval; [exact (get_eval m _ self p Hs)|]. eapply safe_eval; [exact (free_ptr_eval m self _ p Hm Hs)|].
  eexists _, _. split; [reflexivity|]. apply (replaced_sound m self p None None); eauto.
Qed.

Lemma model_move_safe m self other : sound m -> objects m !! self = None -> has m KModel other -> safe (model_move self other) good m.
Proof using.
  intros Hm Hs [p Ho]. unfold model_move. eapply safe_eval; [exact (get_eval m _ other p Ho)|].
  eapply safe_eval; [exact (construct_eval m _ self p Hs)|]. assert (Hne : self <> other) by congruence.
  eexists _, _. split; [apply (put_eval _ _ _ _ (KModel, p)); cbn; now rewrite lookup_insert_ne|]. exact (move_sound m self other p Hm Hs Ho).
Qed.

Lemma tokenize_exact m self text a p l x : owns m self KModel l -> heap m !! l = Some (RModel x) -> fits text a p x ->
  tokenize o self text a p m = Some (T x text a p, m).
Proof using LlamaLaws0.
  intros Hs Hl [H1 H2]. unfold tokenize, on_model, bind. rewrite (get_eval m _ self _ Hs), (deref_eval m l _ Hl). cbn [as_model ret].
  set (toks := T x text a p) in *. assert (Hlen : convert (Ity 32 true) (Z.of_nat (String.length text)) = Z.of_nat (String.length text)).
  { apply convert_id; [reflexivity|]. unfold in_type, t_min, t_max; cbn. apply andb_true_iff. rewrite !Z.leb_le. lia. }
  rewrite Hlen, (law_tokenize x text a p) by (fold toks; assumption). fold toks.
  assert (Habs : forall z, (Z.abs z < 2 ^ 31)%Z -> abs32 z = Some (Z.abs z)).
  { intros z Hz. unfold abs32. destruct (Z.eqb_spec z (- 2 ^ 31)); [lia|reflexivity]. }
  destruct toks as [|t toks'] eqn:Et; [reflexivity|]. rewrite <- Et in *. assert (Hpos : 0 < length toks) by (rewrite Et; cbn; lia).
  replace (0 <? length toks) with true by (symmetry; apply Nat.ltb_lt; lia). cbn [fst]. rewrite Habs, Z.abs_opp, Z.abs_eq by lia.
  replace (Z.of_nat (length toks) <=? 0)%Z with false by (symmetry; apply Z.leb_gt; lia).
  rewrite length_replicate, Nat2Z.id, (law_tokenize x text a p) by (fold toks; assumption). fold toks.
  rewrite Nat.ltb_irrefl, Habs, Z.abs_eq by lia. unfold ret. rewrite Nat2Z.id.
  rewrite drop_ge by (rewrite length_replicate; lia). now rewrite app_nil_r, resize_all.
Qed.

Lemma adapter_safe m self model path : sound m -> objects m !! self = None -> has m KModel model -> safe (adapter_lora o self model path) good m.
Proof using.
  intros Hm Hs [p Hp]. unfold adapter_lora. eapply safe_eval; [exact (get_eval m _ model p Hp)|].
  destruct p as [l|]; [|now apply construct_null]. destruct path as [path|]; [|now apply construct_null].
  destruct (s_live m Hm model KModel l Hp) as ([x|?|? ? ?|?] & E & Hk); try discriminate.
  eapply safe_eval; [exact (deref_eval m l _ E)|]. eapply safe_eval; [reflexivity|]. destruct (init_adapter o x path); [|now apply construct_null].
  destruct (construct_new m self KAdapter (Some (RAdapter l)) Hm Hs) as (a & m' & Ec & H).
  { split; [reflexivity|]. constructor; [|constructor]. exists (RModel x). auto. }
  exists a, m'. split; [exact Ec|exact H].
Qed.

(** The new context of a model that is there. *)
Lemma new_context_eval m model ps l x : objects m !! model = Some (KModel, Some l) -> heap m !! l = Some (RModel x) ->
  new_context o model ps m = match init_context o (Some x) ps with
    | Some c => Some (Some (next_loc m), Memory (objects m) (<[next_loc m := RContext c l []]> (heap m)) (handles m) (S (next_loc m)))
    | None => Some (None, m) end.
Proof using.
  intros Hp Hl. unfold new_context, bind. rewrite (get_eval m _ model _ Hp), (deref_eval m l _ Hl). cbn [as_model ret].
  unfold ret. now destruct (init_context o (Some x) ps).
Qed.
Lemma new_context_null m model ps : objects m !! model = Some (KModel, None) -> new_context o model ps m = Some (None, m).
Proof using LlamaLaws0. intros Hp. unfold new_context, bind. rewrite (get_eval m _ model _ Hp). now rewrite (law_null ps). Qed.

Lemma context_safe m self model ps : sound m -> objects m !! self = None -> has m KModel model -> safe (context o self model ps) good m.
Proof using LlamaLaws0.
  intros Hm Hs [p Hp]. unfold context. destruct p as [l|].
  - destruct (s_live m Hm model KModel l Hp) as ([x|?|? ? ?|?] & E & Hk); try discriminate.
    eapply safe_eval; [rewrite (new_context_eval m model ps l x Hp E); instantiate (1 := match init_context o (Some x) ps with
      Some c => Memory (objects m) (<[next_loc m := RContext c l []]> (heap m)) (handles m) (S (next_loc m)) | None => m end);
      instantiate (1 := match init_context o (Some x) ps with Some _ => Some (next_loc m) | None => None end); now destruct (init_context o (Some x) ps)|].
    destruct (init_context o (Some x) ps) as [c|]; [|now apply construct_null].
    destruct (construct_new m self KContext (Some (RContext c l [])) Hm Hs) as (a & m' & Ec & H).
    { split; [reflexivity|]. constructor; [|constructor]. exists (RModel x). auto. }
    exists a, m'. split; [exact Ec|exact H].
  - eapply safe_eval; [exact (new_context_null m model ps Hp)|]. now apply construct_null.
Qed.

Lemma init_safe m self model ps p : sound m -> objects m !! self = Some (KContext, p) -> releasable m p -> has m KModel model ->
  safe (context_init o self model ps) good m.
Proof using LlamaLaws0.
  intros Hm Hs Hr [q Hq]. unfold context_init. eapply safe_eval; [exact (get_eval m _ self p Hs)|].
  eapply safe_eval; [exact (free_ptr_eval m self _ p Hm Hs)|]. set (m1 := Memory _ _ _ _).
  assert (Hend : forall new, match new with Some r => KContext = kind_of r /\ Forall (fun x => fst x = KModel /\ there m x) (needs r) | None => True end ->
    sound (replaced m self p (Some KContext) new)).
  { intros new Hn. apply replaced_sound; eauto. destruct new as [r|]; [|exact I]. destruct Hn as [-> Hn]. split; [reflexivity|].
    eapply Forall_impl; [exact Hn|]. intros [k ml] [Hk (x & Ex & Hx)]. cbn in *. subst k. split; [exists x; auto|]. intros ->.
    destruct (s_live m Hm self KContext ml Hs) as (r' & E & Hk). congruence. }
  destruct q as [l|].
  - destruct (s_live m Hm model KModel l Hq) as ([x|?|? ? ?|?] & E & Hk); try discriminate.
    assert (E1 : heap m1 !! l = Some (RModel x)).
    { cbn. apply del_lookup. split; [exact E|]. intros ->. destruct (s_live m Hm self KContext l Hs) as (r' & E' & Hk').
      rewrite E in E'. injection E' as <-. discriminate. }
    pose proof (new_context_eval m1 model ps l x Hq E1) as Hn. destruct (init_context o (Some x) ps) as [c|]; (eapply safe_eval; [exact Hn|]);
      (eexists _, _; split; [apply (put_eval _ _ _ _ (KContext, p)); exact Hs|]).
    + apply (Hend (Some (RContext c l []))). split; [reflexivity|]. constructor; [|constructor]. split; [reflexivity|]. exists (RModel x). auto.
    + now apply (Hend None).
  - eapply safe_eval; [exact (new_context_null m1 model ps Hq)|]. eexists _, _; split; [apply (put_eval _ _ _ _ (KContext, p)); exact Hs|]. now apply (Hend None).
Qed.

Lemma lora_ptrs_safe m loras : sound m -> Forall (has m KAdapter) loras ->
  exists r, lora_ptrs loras m = Some (r, m) /\ forall ls, r = Some ls -> Forall (fun x => there m (KAdapter, x)) ls.
Proof using.
  intros Hm. induction 1 as [|a loras [p Hp] _ (r & Er & Hd)]; cbn [lora_ptrs].
  - exists (Some []). split; [reflexivity|]. intros ls [= <-]. constructor.
  - unfold bind at 1. rewrite (get_eval m _ a p Hp). destruct p as [l|]; [|exists None; split; [reflexivity|discriminate]].
    unfold bind. rewrite Er. exists ((l ::.) <$> r). split; [reflexivity|]. intros ls E. apply fmap_Some in E as (ls' & -> & ->).
    constructor; [exact (s_live m Hm a KAdapter l Hp)|now apply Hd].
Qed.

Lemma loras_safe m self loras scales : sound m -> has m KContext self -> Forall (has m KAdapter) loras -> safe (set_adapter_lora o self loras scales) good m.
Proof using.
  intros Hm Hs Hl. unfold set_adapter_lora. apply on_context_safe; [exact Hm|exact Hs|exact Hm|]. intros l c ml old _ E.
  destruct (lora_ptrs_safe m loras Hm Hl) as (r & Er & Hd). eapply safe_eval; [exact Er|]. destruct r as [ls|]; [|now apply safe_ret].
  eapply safe_eval; [exact (derefs_eval m ls (Hd ls eq_refl))|]. destruct (set_adapters o c ls scales) as [z c'].
  apply (update_context m l c c' ml old _ z); [exact Hm|exact E|]. destruct (z =? 0)%Z; [now apply Hd|]. apply Forall_app. split; [|now apply Hd].
  now apply (loras_there m l c ml).
Qed.

Lemma do_safe m self a : sound m -> has m KContext self -> safe (context_do o self a) good m.
Proof using.
  intros Hm Hs. unfold context_do. apply on_context_safe; [exact Hm|exact Hs|exact Hm|]. intros l c ml ls _ E.
  pose proof (loras_there m l c ml ls Hm E) as Hl. eapply (safe_eval _ _ tt m m).
  - destruct (decodes a); [now apply (uses_eval m l c ml ls)|reflexivity].
  - destruct (context_act o c a) as [z c']. now apply update_context with c ls.
Qed.

(** What a handle does on the context it is to. *)
Lemma memory_do_safe m self a : sound m -> is_Some (handles m !! self) ->
  safe (memory_do o self a) (fun _ m' => sound m' /\ handles m' = handles m) m.
Proof using.
  intros Hm [[l|] Hh]; unfold memory_do, safe; rewrite Hh; [|exists tt, m; auto].
  destruct (s_handle m Hm self l Hh) as ([x|?|c ml ls|?] & E & Hk); try discriminate. cbn [snd] in E.
  unfold bind. rewrite (deref_eval m l _ E). unfold update; cbn. rewrite E.
  eexists _, _. split; [reflexivity|]. split; [|reflexivity]. apply (update_sound m l (RContext c ml ls)); auto. exact (s_needs m Hm l _ E).
Qed.

Lemma handle_end_safe m self : sound m -> is_Some (handles m !! self) -> safe (memory_destroy o self) good m.
Proof using.
  intros Hm Hh. unfold memory_destroy. destruct (memory_do_safe m self (Clear true) Hm Hh) as ([] & m' & E & Hm' & Hhs).
  eapply safe_eval; [exact E|]. eexists _, _. split; [reflexivity|]. apply handles_sound; [exact Hm'|].
  intros h l [_ H]%lookup_delete_Some. exact (s_handle m' Hm' h l H).
Qed.

Lemma shift_safe m self : sound m -> is_Some (handles m !! self) -> safe (can_shift o self) good m.
Proof using.
  intros Hm [[l|] Hh]; unfold can_shift, safe; rewrite Hh; [|eexists _, _; split; [reflexivity|exact Hm]].
  destruct (s_handle m Hm self l Hh) as ([x|?|c ml ls|?] & E & Hk); try discriminate. cbn [snd] in E.
  unfold bind. rewrite (deref_eval m l _ E). cbn. eexists _, _. split; [reflexivity|exact Hm].
Qed.

(** One command. *)
Lemma step_safe c m : sound m -> allowed c m -> safe (step c) good m.
Proof using LlamaLaws0.
  intros Hm Ha. destruct c; cbn [step allowed] in *; try apply drop_safe.
  - now apply construct_null.
  - now apply model_from_safe.
  - now apply model_move_safe.
  - destruct Ha as (p & H1 & H2 & H3). now apply load_safe with p.
  - destruct Ha as (p & H1 & H2). now apply model_free_safe with p.
  - apply on_model_safe; auto. intros. now apply safe_ret.
  - apply on_model_safe; auto. intros. now apply safe_ret.
  - apply on_model_safe; auto. intros. now apply safe_ret.
  - destruct Ha as [[[l|] Hs] Hf].
    + destruct (s_live m Hm self KModel l Hs) as ([x|?|? ? ?|?] & E & Hk); try discriminate.
      eexists _, _. split; [exact (tokenize_exact m self text a p l x Hs E (Hf l x Hs E))|exact Hm].
    + apply on_model_safe; [exact Hm|now exists None|exact Hm|]. intros l x H. unfold owns in H. congruence.
  - destruct Ha as [Hs Hd]. apply on_model_safe; auto. intros l x _ _. specialize (Hd x). destruct (model_desc o x) as [sz text]. cbn in Hd.
    destruct (sz <? 0)%Z; [now apply safe_ret|]. replace (LLAMA_MODEL_DESC_SIZE <? Z.to_nat sz) with false; [now apply safe_ret|].
    symmetry. apply Nat.ltb_ge. change LLAMA_MODEL_DESC_SIZE with (Z.to_nat 2048). lia.
  - destruct Ha as [Hs Hd]. apply on_model_safe; auto. intros l x _ _. specialize (Hd x). destruct (l_chat_template o x name); [now apply safe_ret|congruence].
  - now apply construct_null.
  - destruct Ha. now apply adapter_safe.
  - now apply on_adapter_safe.
  - now apply on_adapter_safe.
  - now apply construct_null.
  - destruct Ha. now apply context_safe.
  - destruct Ha as ((p & H1 & H2) & H3). now apply init_safe with p.
  - apply on_context_safe; auto. intros. now apply safe_ret.
  - now apply do_safe.
  - now apply do_safe.
  - destruct Ha. now apply loras_safe.
  - destruct Ha as [Hs Ho]. apply on_context_safe; auto. intros l c ml ls _ E. unfold safe. rewrite Ho. eexists _, _. split; [reflexivity|].
    apply handles_sound; [exact Hm|]. intros h l' [[_ [= <-]]|[_ H]]%lookup_insert_Some; [exists (RContext c ml ls); auto|exact (s_handle m Hm h l' H)].
  - unfold get_model, on_context. eapply safe_eval; [exact (get_eval m _ self None Ha)|]. now apply safe_ret.
  - destruct Ha as (_ & Hs & Ho). unfold copy. eapply safe_eval; [exact (get_eval m _ other None Ho)|]. now apply construct_null.
  - unfold handle_null, safe. rewrite Ha. eexists _, _. split; [reflexivity|]. apply handles_sound; [exact Hm|].
    intros h l [[_ [=]]|[_ H]]%lookup_insert_Some. exact (s_handle m Hm h l H).
  - eapply safe_mono; [|now apply memory_do_safe]. now intros x m' [H _].
  - now apply shift_safe.
  - now apply handle_end_safe.
  - now apply chain_safe.
  - now apply chain_safe.
  - apply on_sampler_safe; auto. intros l c Hs E. unfold safe, update. rewrite E. eexists _, _. split; [reflexivity|].
    apply (update_sound m l (RSampler c)); auto.
  - apply on_sampler_safe; auto. intros. now apply safe_ret.
  - destruct Ha as [H1 H2]. apply on_sampler_safe; auto. intros l ch _ _. apply on_context_safe; auto. intros l' c ml ls _ E.
    eapply safe_eval; [apply (uses_eval m l' c ml ls []); auto|]. now apply safe_ret.
  - destruct Ha as (p & H1 & H2). now apply destroy_safe with p.
Qed.

(** *** What the callers' side excludes *)

(** A model that cannot be loaded over another: the old one is freed, its pointer
    kept, the answer is true, and the destructor frees it again. *)
Lemma llama_load_dangles m self l x src ps : objects m !! self = Some (KModel, Some l) -> heap m !! l = Some (RModel x) -> load_model o src ps = None ->
  match src with FromFile f => exists_file o f = true | FromPtr p => p <> None | _ => True end ->
  exists m', load o self src ps m = Some (true, m') /\ destroy KModel self m' = None.
Proof.
  intros Hs Hl Hn Hsrc. unfold load.
  assert (Hc : match src with FromFile filename => negb (exists_file o filename) | FromPtr None => true | _ => false end = false).
  { destruct src as [f|[q|]| |]; auto; [now rewrite Hsrc|congruence]. }
  assert (Hfree : free l m = Some (tt, Memory (objects m) (delete l (heap m)) (handles m) (next_loc m))) by (unfold free; now rewrite Hl).
  rewrite Hc. unfold bind, new_model. rewrite (get_eval m KModel self _ Hs), Hn. cbn [free_ptr]. rewrite Hfree. cbn [ret]. unfold ret.
  rewrite (put_eval _ KModel self (Some l) (KModel, Some l)) by exact Hs. eexists. split; [reflexivity|].
  unfold destroy, bind. rewrite (get_eval _ KModel self (Some l)); [|cbn; now rewrite lookup_insert_eq]. cbn. unfold free; cbn. now rewrite lookup_delete_eq.
Qed.

(** The model of a context is the context's: the destructor of what [get_model] gives
    frees it, and then that of its owner does. *)
Lemma get_model_frees m ctx self out l ml c ls x : objects m !! ctx = Some (KContext, Some l) -> heap m !! l = Some (RContext c ml ls) ->
  objects m !! self = Some (KModel, Some ml) -> heap m !! ml = Some (RModel x) -> objects m !! out = None ->
  exists m' m2, get_model ctx out m = Some (true, m') /\ destroy KModel out m' = Some (tt, m2) /\ destroy KModel self m2 = None.
Proof.
  intros Hc Hlc Hs Hl Ho. assert (Hne : out <> self) by congruence.
  unfold get_model, on_context, bind. rewrite (get_eval m KContext ctx _ Hc), (deref_eval m l _ Hlc). cbn [as_context ret fst snd]. unfold ret.
  rewrite (construct_eval m KModel out _ Ho). eexists _, _. split; [reflexivity|]. split.
  - unfold destroy, bind. rewrite (get_eval _ KModel out (Some ml)); [|cbn; now rewrite lookup_insert_eq]. cbn. unfold free; cbn. rewrite Hl. reflexivity.
  - unfold destroy, bind. rewrite (get_eval _ KModel self (Some ml)); [|cbn; now rewrite lookup_delete_ne, lookup_insert_ne by congruence].
    cbn. unfold free; cbn. now rewrite lookup_delete_eq.
Qed.

(** Adapters, contexts and samplers can be copied, as a vector does that grows: both
    destructors free the same object. *)
Lemma copies_free_twice m k self other l r : objects m !! other = Some (k, Some l) -> heap m !! l = Some r -> objects m !! self = None ->
  exists m' m2, copy k self other m = Some (tt, m') /\ destroy k other m' = Some (tt, m2) /\ destroy k self m2 = None.
Proof.
  intros Ho Hl Hs. assert (Hne : other <> self) by congruence. unfold copy, bind. rewrite (get_eval m k other _ Ho), (construct_eval m k self _ Hs).
  eexists _, _. split; [reflexivity|]. split.
  - unfold destroy, bind. rewrite (get_eval _ k other (Some l)); [|cbn; now rewrite lookup_insert_ne]. cbn. unfold free; cbn. rewrite Hl. reflexivity.
  - unfold destroy, bind. rewrite (get_eval _ k self (Some l)); [|cbn; now rewrite lookup_delete_ne, lookup_insert_eq]. cbn. unfold free; cbn. now rewrite lookup_delete_eq.
Qed.

Lemma derefs_none m ls a : heap m !! a = None -> a ∈ ls -> derefs ls m = None.
Proof using.
  intros Hn. induction ls as [|x ls IH]; intros [<-|Ha]%elem_of_cons || intros []%elem_of_nil; cbn [derefs]; unfold bind, deref; [now rewrite Hn|].
  destruct (heap m !! x) as [r|]; [|reflexivity]. destruct r; try reflexivity. now apply IH.
Qed.
Lemma uses_none m ml ls k a : (k, a) ∈ (KModel, ml) :: ((fun l => (KAdapter, l)) <$> ls) -> heap m !! a = None -> uses ml ls m = None.
Proof using.
  intros Ha Hn. unfold uses, bind, deref. apply elem_of_cons in Ha as [[= -> ->]|Ha]; [now rewrite Hn|].
  apply list_elem_of_fmap in Ha as (a' & [= -> <-] & Ha). destruct (heap m !! ml) as [r|]; [|reflexivity].
  destruct r; try reflexivity. exact (derefs_none m ls a Hn Ha).
Qed.
(** What a context uses, the model it was made from or an adapter it was given, is
    freed: decoding uses it after that. *)
Lemma freed_in_use m ctx s k l c ml ls a b : sound m -> owns m ctx KContext l -> heap m !! l = Some (RContext c ml ls) ->
  (k, a) ∈ needs (RContext c ml ls) -> owns m s k a ->
  exists m', destroy k s m = Some (tt, m') /\ decode o ctx b m' = None.
Proof using.
  intros Hm Hc Hl Ha Hs. destruct (proj1 (list.Forall_forall _ _) (s_needs m Hm l _ Hl) _ Ha) as (r & Er & Hk). cbn [fst snd] in Er, Hk.
  assert (Hkind : k <> KContext) by (intros ->; cbn in Ha; apply elem_of_cons in Ha as [[=]|Ha]; apply list_elem_of_fmap in Ha as (? & [=] & _)).
  assert (Hne : ctx <> s) by (unfold owns in *; congruence).
  assert (Hla : l <> a) by (intros ->; rewrite Hl in Er; injection Er as <-; cbn in Hk; congruence).
  unfold destroy, bind. rewrite (get_eval m k s _ Hs). cbn [free_ptr]. unfold free. rewrite Er. eexists. split; [reflexivity|].
  unfold decode, context_do, on_context, bind. rewrite (get_eval _ KContext ctx (Some l)); [|cbn; now rewrite lookup_delete_ne by congruence].
  rewrite (deref_eval _ l (RContext c ml ls)); [|cbn; now rewrite lookup_delete_ne by congruence]. cbn [as_context ret fst snd decodes]. unfold ret.
  rewrite (uses_none _ ml ls k a Ha); [reflexivity|]. apply lookup_delete_eq.
Qed.
(** A context is freed while there is a handle to its memory. *)
Lemma freed_under_handle m ctx h l a : sound m -> owns m ctx KContext l -> handles m !! h = Some (Some l) ->
  exists m', destroy KContext ctx m = Some (tt, m') /\ memory_do o h a m' = None.
Proof using.
  intros Hm Hc Hh. destruct (s_live m Hm ctx KContext l Hc) as (r & Er & _).
  unfold destroy, bind. rewrite (get_eval m KContext ctx _ Hc). cbn [free_ptr]. unfold free. rewrite Er. eexists. split; [reflexivity|].
  unfold memory_do, bind, deref; cbn. rewrite Hh. now rewrite lookup_delete_eq.
Qed.

(** A run: each command at the memory the ones before it left. *)
Fixpoint runs (cs : list cmd) m : Prop :=
  match cs with [] => True | c :: cs => allowed c m /\ forall m', step c m = Some (tt, m') -> runs cs m' end.
Fixpoint run (cs : list cmd) : M (Model := Model) (Ctx := Ctx) unit := match cs with [] => ret tt | c :: cs => bind (step c) (fun _ => run cs) end.
Lemma empty_heap m : sound m -> objects m = ∅ -> heap m = ∅.
Proof using.
  intros Hm Ho. apply map_empty. intros l. destruct (heap m !! l) as [r|] eqn:El; [|reflexivity].
  destruct (s_leak m Hm l r El) as (s & k & H). unfold owns in H. rewrite Ho, lookup_empty in H. discriminate.
Qed.
Definition start : memory Model Ctx := Memory ∅ ∅ ∅ 0.

Lemma start_sound : sound start.
Proof using. split; unfold owns, start; cbn; try (intros *; rewrite ?lookup_empty; discriminate). reflexivity. Qed.

Lemma run_safe cs m : sound m -> runs cs m -> safe (run cs) good m.
Proof using LlamaLaws0.
  revert m. induction cs as [|c cs IH]; intros m Hm Hr; [now apply safe_ret|]. destruct Hr as [Ha Hr].
  destruct (step_safe c m Hm Ha) as ([] & m' & E & Hm'). cbn [run]. eapply safe_eval; [exact E|]. apply IH; auto.
Qed.
End Ownership.

(** ** A library *)

Module Sample.
(** A token for each character. *)
Definition tokens (_ : unit) (text : string) (_ _ : bool) : list Z := (fun c => Z.of_nat (nat_of_ascii c)) <$> list_ascii_of_string text.
Definition ops : llama unit bool unit :=
  Library _ _ _ (fun src _ => match src with FromFile _ => Some tt | _ => None end) (fun _ => true) (fun _ _ => 7%Z) (fun _ _ _ => (0%Z, EmptyString))
    (fun x text _ a p room => let t := tokens x text a p in if room <? length t then ((- Z.of_nat (length t))%Z, []) else (Z.of_nat (length t), t))
    (fun _ => (4%Z, "tiny"%string)) (fun _ _ => Some EmptyString) (fun _ _ => true) (fun _ _ => 0%Z) (fun _ _ _ => (0%Z, EmptyString))
    (fun x _ => match x with Some _ => Some false | None => None end) (fun _ _ => 0%Z) (fun c _ => (0%Z, c)) (fun c _ _ => (0%Z, c))
    (fun c a => match a with Clear true => true | _ => c end) (fun _ => true) (fun _ _ _ => 5%Z) true.
#[global] Instance laws : LlamaLaws ops tokens.
Proof. split; reflexivity. Qed.
End Sample.

(** ** Theorems *)



(** A prompt becomes all its tokens, whatever room the library was first given,
    and a batch of them has each at its position, of sequence 0 and without logits;
    more generally filling any batch for tokens stays within its arrays: it stores
    as many tokens as fit, and marking logits at any index is harmless. *)
Theorem llama_prompt {Model Ctx Params} (o : llama Model Ctx Params) T `{!LlamaLaws o T} m self l x text a p :
  owns m self KModel l -> heap m !! l = Some (RModel x) -> fits T text a p x ->
  let toks := T x text a p in
  tokenize o self text a p m = Some (toks, m)
  /\ (exists b, Batch.of_tokens toks (Z.of_nat (length toks)) = Some b /\ Batch.n_tokens (Batch._batch b) = Z.of_nat (length toks)
       /\ forall i, i < length toks -> entry toks 0 (Batch._batch b) i)
  /\ (forall b n pos, wf b -> (n <= Z.of_nat (length toks))%Z -> (- 2 ^ 31 <= pos)%Z -> (pos + Z.min n (Batch._capacity b) <= 2 ^ 31)%Z ->
       exists b', Batch.set_tokens toks n pos b = Some b' /\ wf b' /\ Batch.n_tokens (Batch._batch b') = Z.min n (Batch._capacity b)
       /\ (forall i, (Z.of_nat i < Z.min n (Batch._capacity b))%Z -> entry toks pos (Batch._batch b') i)
       /\ forall idx v, exists b2, Batch.set_logits idx v b' = Some b2 /\ wf b2).
Proof.
  intros Hs Hl Hf toks. split; [now apply (tokenize_exact o T m self text a p l x)|]. destruct Hf as [_ Hf]. fold toks in Hf. split.
  - unfold Batch.of_tokens. destruct (make_wf (Z.of_nat (length toks)) 1 ltac:(lia) ltac:(lia)) as (b & -> & Hwf & Hc).
    destruct (set_tokens_ok b toks (Z.of_nat (length toks)) 0 Hwf ltac:(lia) ltac:(lia) ltac:(rewrite Hc; lia)) as (b' & -> & _ & _ & Hn & He).
    rewrite Hc in Hn, He. exists b'. split; [reflexivity|]. split; [lia|]. intros i Hi. apply He. lia.
  - intros b n pos Hwf H1 H2 H3. destruct (set_tokens_ok b toks n pos Hwf H1 H2 H3) as (b' & E & Hwf' & _ & Hn & He).
    exists b'. split_and!; auto. intros idx v. destruct (set_logits_ok b' idx v Hwf') as (b2 & E2 & Hwf2 & _). eauto.
Qed.

Lemma llama_prompt_witness :
  let m : memory unit bool := Memory {[0 := (KModel, Some 0)]} {[0 := RModel tt]} ∅ 1 in
  tokenize Sample.ops 0 "ab" true true m = Some ([97%Z; 98%Z], m)
  /\ exists b, Batch.of_tokens [97%Z; 98%Z] 2 = Some b /\ Batch.n_tokens (Batch._batch b) = 2%Z.
Proof.
  intros m. destruct (llama_prompt Sample.ops Sample.tokens m 0 0 tt "ab" true true) as (H1 & (b & H2 & H3 & _) & _); try reflexivity.
  - split; reflexivity.
  - split; [exact H1|]. exists b. split; [exact H2|exact H3].
Defined.

(** ** What no caller can use safely, and other differences *)

Section Findings.
Context {Model Ctx Params : Type} (o : llama Model Ctx Params).
Implicit Types m : memory Model Ctx.

(** The destructor of a handle empties the memory of the context. *)
Lemma handle_clears m self l c ml ls : handles m !! self = Some (Some l) -> heap m !! l = Some (RContext c ml ls) ->
  exists m', memory_destroy o self m = Some (tt, m') /\ heap m' !! l = Some (RContext (memory_act o c (Clear true)) ml ls).
Proof.
  intros Hh Hl. unfold memory_destroy, memory_do, bind. rewrite Hh. rewrite (deref_eval m l _ Hl). unfold update; cbn. rewrite Hl.
  eexists. split; [reflexivity|]. cbn. apply lookup_insert_eq.
Qed.

(** A model without the template, and a description that does not fit. *)
Lemma no_template m self l x name : objects m !! self = Some (KModel, Some l) -> heap m !! l = Some (RModel x) -> l_chat_template o x name = None ->
  chat_template o self name m = None.
Proof. intros Hs Hl Hn. unfold chat_template, on_model, bind. rewrite (get_eval m _ self _ Hs), (deref_eval m l _ Hl). cbn. now rewrite Hn. Qed.
Lemma long_description m self l x : objects m !! self = Some (KModel, Some l) -> heap m !! l = Some (RModel x) -> (2048 < fst (model_desc o x))%Z ->
  desc o self m = None.
Proof.
  intros Hs Hl Hn. unfold desc, on_model, bind. rewrite (get_eval m _ self _ Hs), (deref_eval m l _ Hl). cbn [as_model ret]. unfold ret.
  destruct (model_desc o x) as [sz text]. cbn [fst] in Hn. replace (sz <? 0)%Z with false by (symmetry; apply Z.ltb_ge; lia).
  replace (LLAMA_MODEL_DESC_SIZE <? Z.to_nat sz) with true; [reflexivity|]. symmetry. apply Nat.ltb_lt. change LLAMA_MODEL_DESC_SIZE with (Z.to_nat 2048). lia.
Qed.
End Findings.

(** A batch of embeddings has no array of tokens. *)
Lemma embeddings_no_tokens t tokens : (let* b := Batch.make 1 8 1 in Batch.set_tokens (t :: tokens) 1 0 b) = None.
Proof. reflexivity. Qed.

(** The default parameters ask for penalties, of a factor that is 0 where 1 is none. *)
Lemma default_penalties : Chain.configure Chain.default_params = [Chain.Penalties 64 dzero dzero dzero; Chain.Dist 0].
Proof. reflexivity. Qed.
