(* ===== verification/License.v ===== *)
(** * Licences

    [util/license.hpp]: an issuer that signs a bounded number of tokens, a
    verifier that checks them, and the parser that shows what a token says.  The
    tokens are those of the library of JSON web tokens, a parameter ([jwt]); an
    operation of it that gives none throws.  Times are in nanoseconds since the
    epoch.  The outer [None] is undefined behaviour. *)

From Stdlib Require Import ZArith Lia List Bool Ascii String.
From stdpp Require Import base tactics list option gmap strings.
From S2P Require Import Prelude Ints.

Open Scope hj_scope.
Open Scope nat_scope.

Module License.

(** ** Errors *)

Inductive sign_algo := none | rsa256.
#[global] Instance sign_algo_dec : EqDecision sign_algo.
Proof. solve_decision. Defined.

Inductive error_code := ok | err_start | invalid_times | claim_mismatch | keys_not_changed | keys_not_enough | file_not_exist
  | input_stream_invalid | output_stream_invalid | invalid_algorithm | crypto_error | system_call_failed | insufficient_permissions
  | network_error | timeout_error | memory_allocation_failed | invalid_configuration | parse_license_info_failed.
Definition enumerators : list error_code := [ok; err_start; invalid_times; claim_mismatch; keys_not_changed; keys_not_enough; file_not_exist;
  input_stream_invalid; output_stream_invalid; invalid_algorithm; crypto_error; system_call_failed; insufficient_permissions;
  network_error; timeout_error; memory_allocation_failed; invalid_configuration; parse_license_info_failed].
Definition value (e : error_code) : Z :=
  match e with
  | ok => 0 | err_start => 1000 | invalid_times => 1001 | claim_mismatch => 1002 | keys_not_changed => 1003 | keys_not_enough => 1004
  | file_not_exist => 1005 | input_stream_invalid => 1006 | output_stream_invalid => 1007 | invalid_algorithm => 1008
  | crypto_error => 1009 | system_call_failed => 1010 | insufficient_permissions => 1011 | network_error => 1012
  | timeout_error => 1013 | memory_allocation_failed => 1014 | invalid_configuration => 1015 | parse_license_info_failed => 1016
  end.
(** [detail::error_category::message] *)
Definition message (ev : Z) : string :=
  match find (fun e => (value e =? ev)%Z) enumerators with
  | Some ok => "Ok" | Some invalid_times => "Invalid time configuration" | Some claim_mismatch => "License claim verification failed"
  | Some keys_not_changed => "Cryptographic keys unchanged" | Some keys_not_enough => "Insufficient cryptographic keys"
  | Some file_not_exist => "License file not found" | Some input_stream_invalid => "Invalid input stream"
  | Some output_stream_invalid => "Invalid output stream" | Some invalid_algorithm => "Unsupported cryptographic algorithm"
  | Some crypto_error => "Cryptographic operation failed" | Some system_call_failed => "System call failed"
  | Some insufficient_permissions => "Insufficient permissions" | Some network_error => "Network operation failed"
  | Some timeout_error => "Operation timeout" | Some memory_allocation_failed => "Memory allocation failed"
  | Some invalid_configuration => "Invalid configuration" | Some parse_license_info_failed => "Failed to parse license information"
  | _ => "Unknown error"
  end.

(** An error is a number in a category: of the system, this header, or the library. *)
Inductive category := System | Licence | Jwt_errors.
Record err_t := Err { cat : category; code : Z }.
Definition make_err (e : error_code) : err_t := Err Licence (value e).
Definition no_error : err_t := Err System 0.
Definition failed (e : err_t) : bool := negb (code e =? 0)%Z.

(** ** The library *)

Inductive json := JStr (s : string) | JInt (z : Z) | JOther (text : string).
#[global] Instance json_dec : EqDecision json.
Proof. solve_decision. Defined.
Definition payload := gmap string json.
Definition pair_t : Type := string * string.

(** Algorithms, decoded tokens, and what is called on them.  [sign] gives an error
    number and a token; [verifier_verify] is a verifier with an algorithm, a type, an
    issuer, an audience and a leeway, run at a time. *)
Record jwt (Alg Dec : Type) := Jwt
  { rs256 : string -> string -> string -> string -> option Alg;
    alg_none : Alg;
    sign : Alg -> string -> payload -> Z * string;
    decode : string -> option Dec;
    verifier_verify : Alg -> string -> string -> string -> Z -> Z -> Dec -> option Z;
    get_payload : Dec -> payload;
    get_issuer : Dec -> option string; get_audience : Dec -> option (list string);
    get_issued_at : Dec -> option Z; get_expires_at : Dec -> option Z;
    items : payload -> list (string * json); dump : json -> option string }.
#[global] Arguments rs256 {Alg Dec}. #[global] Arguments alg_none {Alg Dec}. #[global] Arguments sign {Alg Dec}.
#[global] Arguments decode {Alg Dec}. #[global] Arguments verifier_verify {Alg Dec}. #[global] Arguments get_payload {Alg Dec}.
#[global] Arguments get_issuer {Alg Dec}. #[global] Arguments get_audience {Alg Dec}. #[global] Arguments get_issued_at {Alg Dec}.
#[global] Arguments get_expires_at {Alg Dec}. #[global] Arguments items {Alg Dec}. #[global] Arguments dump {Alg Dec}.

Inductive outcome (A : Type) := Ret (a : A) | Throw.
#[global] Arguments Ret {A}. #[global] Arguments Throw {A}.

Definition JWT_TYPE : string := "JWT".
Definition i64 : ity := Ity 64 true.
Definition second : Z := 1000000000.

(** *** The serial number of the disk *)

Definition is_blank (c : ascii) : bool := existsb (fun n => nat_of_ascii c =? n) [32; 9; 10; 13; 12; 11].
Fixpoint drop_blank (l : list ascii) : list ascii :=
  match l with [] => [] | c :: l' => if is_blank c then drop_blank l' else l end.
Definition trim (l : list ascii) : list ascii := rev (drop_blank (rev (drop_blank l))).

(** [fgets(buffer, n + 1, pipe)]: up to [n] characters or the end of a line. *)
Fixpoint fgets (n : nat) (l : list ascii) : list ascii * list ascii :=
  match n, l with
  | O, _ | _, [] => ([], l)
  | S n, c :: l => if nat_of_ascii c =? 10 then ([c], l) else let (b, r) := fgets n l in (c :: b, r)
  end.
(** [result += buffer] stops at a null character. *)
Fixpoint c_str (l : list ascii) : list ascii :=
  match l with [] => [] | c :: l => if nat_of_ascii c =? 0 then [] else c :: c_str l end.
Fixpoint read_pipe (fuel : nat) (l : list ascii) : list ascii :=
  match fuel, l with
  | O, _ | _, [] => []
  | S fuel, _ => let (b, r) := fgets 255 l in c_str b ++ read_pipe fuel r
  end.
(** What the command prints, if it runs. *)
Definition execute_command_safe (shell : string -> option string) (command : string) : option string :=
  match shell command with
  | None => Some EmptyString
  | Some out => let l := list_ascii_of_string out in Some (string_of_list_ascii (trim (read_pipe (length l) l)))
  end.
Definition commands : list string :=
  ["lsblk -ndo SERIAL $(lsblk -ndo NAME | head -1) 2>/dev/null";
   "cat /sys/block/$(lsblk -ndo NAME | head -1)/device/serial 2>/dev/null";
   "lsblk -ndo SERIAL /dev/sda 2>/dev/null";
   "hdparm -I /dev/sda 2>/dev/null | grep 'Serial Number' | awk '{print $3}'";
   "cat /sys/block/sda/device/serial 2>/dev/null"]%string.
Fixpoint try_commands (shell : string -> option string) (cmds : list string) : string :=
  match cmds with
  | [] => EmptyString
  | cmd :: cmds =>
      match execute_command_safe shell cmd with
      | Some (String c s) => String c s
      | _ => try_commands shell cmds
      end
  end.
Definition get_disk_sn (shell : string -> option string) : string := try_commands shell commands.

Section License.
Context {Alg Dec : Type} (j : jwt Alg Dec).

(** ** [detail::issue] and [detail::verify] *)

Definition set_payload_claim (k : string) (v : json) (p : payload) : payload := <[k := v]> p.
Definition set_claims (claims : list pair_t) (p : payload) : payload :=
  fold_left (fun p '(k, v) => set_payload_claim k (JStr v) p) claims p.
(** [issue_tm + std::chrono::seconds(valid_secs)] *)
Definition expiry (issue_tm valid_secs : Z) : option Z :=
  let* ns := mul i64 (convert i64 valid_secs) second in add i64 issue_tm ns.
Definition key (keys : list string) (i : nat) : string := nth i keys EmptyString.

Definition build (issuer licensee : string) (issue_tm expires : Z) (claims : list pair_t) : payload :=
  set_claims claims (set_payload_claim "exp" (JInt (Z.quot expires second)) (set_payload_claim "iat" (JInt (Z.quot issue_tm second))
    (set_payload_claim "aud" (JStr licensee) (set_payload_claim "iss" (JStr issuer) ∅)))).

(** The error and the token afterwards. *)
Definition detail_issue (token issuer licensee : string) (issue_tm valid_secs : Z) (algo : sign_algo) (keys : list string)
    (claims : list pair_t) : option (outcome (err_t * string)) :=
  let* expires := expiry issue_tm valid_secs in
  let lic := build issuer licensee issue_tm expires claims in
  let done (a : Alg) := let (e, token) := sign j a JWT_TYPE lic in Ret (if (e =? 0)%Z then no_error else Err Jwt_errors e, token) in
  match algo with
  | rsa256 =>
      if length keys <? 2 then Some (Ret (make_err keys_not_enough, token)) else
      match rs256 j (key keys 0) (key keys 1) (key keys 2) (key keys 3) with Some a => Some (done a) | None => Some Throw end
  | none => Some (done (alg_none j))
  end.

(** Missing claims, and claims that are no strings, throw. *)
Fixpoint check_claims (p : payload) (claims : list pair_t) : outcome err_t :=
  match claims with
  | [] => Ret no_error
  | (k, v) :: claims =>
      match p !! k with
      | Some (JStr s) => if decide (s = v) then check_claims p claims else Ret (make_err claim_mismatch)
      | _ => Throw
      end
  end.
Definition detail_verify (now : Z) (token issuer licensee : string) (algo : sign_algo) (keys : list string)
    (claims : list pair_t) (leeway_secs : Z) : outcome err_t :=
  match decode j token with
  | None => Throw
  | Some decoded =>
      let run (a : Alg) :=
        match verifier_verify j a JWT_TYPE issuer licensee leeway_secs now decoded with
        | None => Throw
        | Some e => if (e =? 0)%Z then check_claims (get_payload j decoded) claims else Ret (Err Jwt_errors e)
        end in
      match algo with
      | rsa256 =>
          if length keys <? 1 then Ret (make_err keys_not_enough) else
          match rs256 j (key keys 0) (key keys 1) (key keys 2) (key keys 3) with Some a => run a | None => Throw end
      | none => run (alg_none j)
      end
  end.

(** ** [issuer] *)

Record issuer := Issuer { _id : string; _algo : sign_algo; _keys : list string; _valid_times : nat }.
Definition set_keys (keys : list string) (i : issuer) : issuer := Issuer (_id i) (_algo i) keys (_valid_times i).
Definition with_times (n : nat) (i : issuer) : issuer := Issuer (_id i) (_algo i) (_keys i) n.
Definition release (algo : sign_algo) (keys : list string) (i : issuer) : err_t * issuer :=
  if bool_decide (algo = _algo i) && bool_decide (keys = _keys i) then (make_err keys_not_changed, i)
  else (no_error, Issuer (_id i) algo keys (_valid_times i)).

(** The product of unsigned 64-bit integers. *)
Definition valid_secs (valid_days : Z) : Z := wrap 64 (wrap 64 (wrap 64 (valid_days * 24) * 60) * 60).
(** What is done with the lock held. *)
Definition locked_issue (now : Z) (token licensee : string) (valid_days : Z) (claims : list pair_t) (i : issuer) : option (outcome (err_t * string)) :=
  detail_issue token (_id i) licensee now (valid_secs valid_days) (_algo i) (_keys i) claims.
(** [issue(token, ...)] by one thread; [Race] has the loop of the exchange. *)
Definition issue (now : Z) (token licensee : string) (valid_days : Z) (claims : list pair_t) (i : issuer)
    : option (outcome (err_t * string) * issuer) :=
  match _valid_times i with
  | O => Some (Ret (make_err invalid_times, token), i)
  | S n => let i := with_times n i in let* r := locked_issue now token licensee valid_days claims i in Some (r, i)
  end.

(** A stream takes [room] more characters. *)
Record ostream := Out { good : bool; room : nat; written : string }.
Definition insert (s : string) (out : ostream) : ostream :=
  if String.length s <=? room out then Out (good out) (room out - String.length s) (written out ++ s)
  else Out false 0 (written out ++ substring 0 (room out) s).
Definition issue_stream (now : Z) (out : ostream) (licensee : string) (valid_days : Z) (claims : list pair_t) (i : issuer)
    : option (outcome err_t * ostream * issuer) :=
  if negb (good out) then Some (Ret (make_err output_stream_invalid), out, i) else
  let* (r, i) := issue now EmptyString licensee valid_days claims i in
  match r with
  | Throw => Some (Throw, out, i)
  | Ret (e, token) =>
      if failed e then Some (Ret e, out, i) else
      let out := insert token out in
      if negb (good out) then Some (Ret (make_err output_stream_invalid), out, i) else Some (Ret no_error, out, i)
  end.

(** Whether the file opens, how much the stream takes, and how much of it reaches
    the file when the stream is destroyed. *)
Record filing := Filing { opens : bool; takes : nat; flushed : nat }.
Definition issue_file (now : Z) (f : filing) (filepath licensee : string) (valid_days : Z) (claims : list pair_t)
    (disk : gmap string string) (i : issuer) : option (outcome err_t * gmap string string * issuer) :=
  if negb (opens f) then Some (Ret (make_err file_not_exist), disk, i) else
  let* (r, out, i) := issue_stream now (Out true (takes f) EmptyString) licensee valid_days claims i in
  Some (r, <[filepath := substring 0 (flushed f) (written out)]> disk, i).

(** ** [verifier] *)

Record verifier := Verifier { v_id : string; v_algo : sign_algo; v_keys : list string }.
Definition v_set_keys (keys : list string) (v : verifier) : verifier := Verifier (v_id v) (v_algo v) keys.
Definition verify (now : Z) (token licensee : string) (claims : list pair_t) (leeway_secs : Z) (v : verifier) : outcome err_t :=
  detail_verify now token (v_id v) licensee (v_algo v) (v_keys v) claims leeway_secs.

(** [std::getline]: the line and what is left. *)
Fixpoint getline (s : string) : string * string :=
  match s with
  | EmptyString => (EmptyString, EmptyString)
  | String c s => if nat_of_ascii c =? 10 then (EmptyString, s) else let (l, r) := getline s in (String c l, r)
  end.
(** Every line takes a character; at the end none is left. *)
Fixpoint read_lines (fuel : nat) (s buf : string) : string :=
  match fuel, s with
  | O, _ | _, EmptyString => buf
  | S fuel, _ => let (line, rest) := getline s in read_lines fuel rest (buf ++ line)
  end.
(** A stream with what it still has to give, none if it has failed. *)
Definition verify_stream (now : Z) (input : option string) (licensee : string) (claims : list pair_t) (leeway_secs : Z) (v : verifier) : outcome err_t :=
  match input with
  | None => Ret (make_err input_stream_invalid)
  | Some s =>
      match read_lines (String.length s) s EmptyString with
      | EmptyString => Ret (make_err input_stream_invalid)
      | buf => detail_verify now buf (v_id v) licensee (v_algo v) (v_keys v) claims leeway_secs
      end
  end.
Definition verify_file (now : Z) (filepath licensee : string) (claims : list pair_t) (leeway_secs : Z) (disk : gmap string string) (v : verifier) : outcome err_t :=
  match disk !! filepath with
  | None => Ret (make_err file_not_exist)
  | Some s => verify_stream now (Some s) licensee claims leeway_secs v
  end.

(** ** [parse] *)

Record license_info := Info { info_issuer : string; audience : string; issued_at : Z; expires_at : Z; claims : list pair_t }.
Definition reserved : list string := ["iss"; "aud"; "iat"; "exp"]%string.
Definition add_claim (k v : string) (info : license_info) : license_info :=
  Info (info_issuer info) (audience info) (issued_at info) (expires_at info) (claims info ++ [(k, v)]).
(** Printing a value may throw: then what is there stays. *)
Fixpoint add_claims (l : list (string * json)) (info : license_info) : bool * license_info :=
  match l with
  | [] => (true, info)
  | (k, v) :: l =>
      if existsb (String.eqb k) reserved then add_claims l info else
      match v with
      | JStr s => add_claims l (add_claim k s info)
      | _ => match dump j v with Some s => add_claims l (add_claim k s info) | None => (false, info) end
      end
  end.
Definition parse (info : license_info) (token : string) : err_t * license_info :=
  let caught (info : license_info) := (make_err parse_license_info_failed, info) in
  match decode j token with None => caught info | Some decoded =>
  match get_issuer j decoded with None => caught info | Some s =>
  let info := Info s (audience info) (issued_at info) (expires_at info) (claims info) in
  match get_issued_at j decoded with None => caught info | Some t =>
  let info := Info (info_issuer info) (audience info) t (expires_at info) (claims info) in
  match get_expires_at j decoded with None => caught info | Some t =>
  let info := Info (info_issuer info) (audience info) (issued_at info) t (claims info) in
  match get_audience j decoded with None => caught info | Some aud =>
  let info := match aud with [] => info | a :: _ => Info (info_issuer info) a (issued_at info) (expires_at info) (claims info) end in
  let (fine, info) := add_claims (items j (get_payload j decoded)) info in
  if fine then (make_err ok, info) else caught info
  end end end end end.
End License.
End License.

(** ** Callers of [issue] on several threads *)

Module Race.
Import License.
Section Race.
Context {Alg Dec : Type} (j : jwt Alg Dec).

Record request := Request { licensee : string; days : Z; wanted : list pair_t }.
(** Where a caller is: before the load, in the loop with [old_count], past the
    exchange, refused for want of times, done, or past undefined behaviour. *)
Inductive pc := Start | Loop (old_count : nat) | Took | Refused | Done (r : outcome (err_t * string)) | Undefined.
(** [configs] are the algorithms and keys the issuer has had, the last first. *)
Record system := Sys { shared : issuer; configs : list (sign_algo * list string); threads : list (request * pc) }.
Definition config (i : issuer) : sign_algo * list string := (_algo i, _keys i).
Definition set_thread (t : nat) (q : request) (p : pc) (s : system) : system := Sys (shared s) (configs s) (<[t := (q, p)]> (threads s)).
Definition set_shared (i : issuer) (s : system) : system := Sys i (config i :: configs s) (threads s).

(** A step of a caller, an exchange that fails on the expected value, or a call that
    changes the keys. *)
Inductive event := Caller | Spurious | Owner.
Inductive step : event -> system -> system -> Prop :=
| step_load t q s : threads s !! t = Some (q, Start) ->
    step Caller s (set_thread t q (Loop (_valid_times (shared s))) s)
| step_refuse t q s : threads s !! t = Some (q, Loop 0) -> step Caller s (set_thread t q Refused s)
| step_exchange t q n s : threads s !! t = Some (q, Loop (S n)) -> _valid_times (shared s) = S n ->
    step Caller s (set_thread t q Took (Sys (with_times n (shared s)) (configs s) (threads s)))
| step_changed t q n s : threads s !! t = Some (q, Loop (S n)) -> _valid_times (shared s) <> S n ->
    step Caller s (set_thread t q (Loop (_valid_times (shared s))) s)
| step_spurious t q n s : threads s !! t = Some (q, Loop (S n)) -> _valid_times (shared s) = S n ->
    step Spurious s s
| step_sign t q now r s : threads s !! t = Some (q, Took) ->
    locked_issue j now EmptyString (licensee q) (days q) (wanted q) (shared s) = Some r ->
    step Caller s (set_thread t q (Done r) s)
| step_undefined t q now s : threads s !! t = Some (q, Took) ->
    locked_issue j now EmptyString (licensee q) (days q) (wanted q) (shared s) = None ->
    step Caller s (set_thread t q Undefined s)
| step_set_keys keys s : step Owner s (set_shared (set_keys keys (shared s)) s)
| step_release algo keys s : step Owner s (set_shared (snd (release algo keys (shared s))) s).

Definition initial (i : issuer) (qs : list request) : system := Sys i [config i] ((fun q => (q, Start)) <$> qs).
Inductive steps : nat -> system -> system -> Prop :=
| steps_refl s : steps 0 s s
| steps_caller n s1 s2 s3 : step Caller s1 s2 -> steps n s2 s3 -> steps (S n) s1 s3
| steps_other n e s1 s2 s3 : e <> Caller -> step e s1 s2 -> steps n s2 s3 -> steps n s1 s3.
End Race.
End Race.
