(* ===== verification/LicenseThm.v ===== *)
(** * Licences: theorems

    What [util/license.hpp] promises: no more tokens than times, whatever the
    interleaving; a token is accepted exactly by the verifier it is for, in its
    time, for the claims it has; and it says what was put in it. *)

From Stdlib Require Import ZArith Lia List Bool Ascii String.
From stdpp Require Import base tactics list option gmap strings countable.
From S2P Require Import Prelude Ints License.

Open Scope hj_scope.
Open Scope nat_scope.

Import License.

(** ** The number of times *)

Section Quota.
Import Race.
Context {Alg Dec : Type} (j : jwt Alg Dec).

Definition took (p : request * pc) : nat := match p.2 with Took | Done _ | Undefined => 1 | _ => 0 end.

(** What is known of a caller, with [v] times left. *)
Definition thread_ok (i0 : issuer) (cs : list (sign_algo * list string)) (v : nat) (q : request) (p : pc) : Prop :=
  match p with
  | Loop n => v <= n
  | Refused => v = 0
  | Done r => exists now i, config i ∈ cs /\ _id i = _id i0
      /\ locked_issue j now EmptyString (licensee q) (days q) (wanted q) i = Some r
  | _ => True
  end.

Record inv (i0 : issuer) (s : system) : Prop :=
  { inv_count : _valid_times (shared s) + sum_list_with took (threads s) = _valid_times i0;
    inv_id : _id (shared s) = _id i0;
    inv_config : config (shared s) ∈ configs s;
    inv_thread : forall t q p, threads s !! t = Some (q, p) ->
      thread_ok i0 (configs s) (_valid_times (shared s)) q p }.

Lemma initial_inv i qs : inv i (initial i qs).
Proof.
  split; cbn.
  - enough (sum_list_with took ((fun q => (q, Start)) <$> qs) = 0) by lia.
    induction qs as [|q qs IH]; [reflexivity|exact IH].
  - reflexivity.
  - constructor.
  - intros t q p. rewrite list_lookup_fmap_Some. intros (q' & [= -> ->] & _). exact I.
Qed.

Lemma thread_ok_less i0 cs c v w q p : w <= v -> thread_ok i0 cs v q p -> thread_ok i0 (c :: cs) w q p /\ thread_ok i0 cs w q p.
Proof.
  intros Hw. destruct p; cbn; intros H; try (split; lia); auto.
  destruct H as (now & i & H1 & H2). split; exists now, i; [split; [now constructor|exact H2]|auto].
Qed.

(** A change of one thread and of the number of times. *)
Lemma inv_set_thread i0 t q p p' n s : inv i0 s -> threads s !! t = Some (q, p) ->
  n <= _valid_times (shared s) -> n + took (q, p') = _valid_times (shared s) + took (q, p) ->
  thread_ok i0 (configs s) n q p' ->
  inv i0 (set_thread t q p' (Sys (with_times n (shared s)) (configs s) (threads s))).
Proof.
  intros [Hc Hi Hg Ht] Et Hn Hsum Hp. split; cbn [set_thread shared configs threads with_times _valid_times].
  - pose proof (sum_update took _ _ _ (q, p') Et). lia.
  - exact Hi.
  - exact Hg.
  - intros t' q' r Hr. destruct (update_cases _ _ _ _ _ _ Et Hr) as [[-> [= -> ->]]|[_ Hr']]; [exact Hp|].
    now apply (thread_ok_less i0 (configs s) (config (shared s)) (_valid_times (shared s))), Ht with t'.
Qed.

Lemma inv_keep i0 t q p p' s : inv i0 s -> threads s !! t = Some (q, p) -> took (q, p') = took (q, p) ->
  thread_ok i0 (configs s) (_valid_times (shared s)) q p' -> inv i0 (set_thread t q p' s).
Proof.
  intros Hi Et Hk Hp. pose proof (inv_set_thread i0 t q p p' _ s Hi Et (Nat.le_refl _) ltac:(lia) Hp) as H.
  now destruct s as [[] ? ?].
Qed.

(** The owner changes the algorithm and the keys only. *)
Lemma inv_owner i0 i s : inv i0 s -> _valid_times i = _valid_times (shared s) -> _id i = _id (shared s) -> inv i0 (set_shared i s).
Proof.
  intros [Hc Hid Hg Ht] Hv Hi. split; cbn [set_shared shared configs threads]; [congruence|congruence|constructor|].
  intros t q p Et. rewrite Hv. eapply (thread_ok_less i0 (configs s) (config i) (_valid_times (shared s)) _ q p (Nat.le_refl _)), Ht, Et.
Qed.

Lemma release_fields algo keys i : _valid_times (release algo keys i).2 = _valid_times i /\ _id (release algo keys i).2 = _id i.
Proof. unfold release. now destruct (_ && _). Qed.

Lemma step_inv i0 e s s' : inv i0 s -> step j e s s' -> inv i0 s'.
Proof.
  intros Hi Hs. pose proof Hi as [Hc Hid Hg Ht].
  destruct Hs as [t q s E|t q s E|t q n s E Ev|t q n s E Ev|t q n s E Ev|t q now r s E Er|t q now s E Er|keys s|algo keys s];
    try (pose proof (Ht _ _ _ E) as Hp; cbn in Hp).
  - apply (inv_keep i0 t q Start); cbn; auto.
  - apply (inv_keep i0 t q (Loop 0)); cbn; auto; lia.
  - apply (inv_set_thread i0 t q (Loop (S n)) Took n s Hi E); cbn; [lia|lia|exact I].
  - apply (inv_keep i0 t q (Loop (S n))); cbn; auto.
  - exact Hi.
  - apply (inv_keep i0 t q Took); cbn; auto. exists now, (shared s). auto.
  - apply (inv_keep i0 t q Took); cbn; auto.
  - now apply inv_owner.
  - apply inv_owner; [exact Hi|apply release_fields|apply release_fields].
Qed.

(** The steps a caller has left: an exchange that fails on a changed value is paid
    by the exchange that changed it. *)
Definition left_of (v : nat) (p : request * pc) : nat :=
  match p.2 with Start => 4 | Loop n => if n =? v then 2 else 3 | Took => 1 | _ => 0 end.
Definition measure (s : system) : nat :=
  sum_list_with (left_of (_valid_times (shared s))) (threads s) + _valid_times (shared s) * length (threads s).

Lemma left_of_change v w l : sum_list_with (left_of v) l <= sum_list_with (left_of w) l + length l.
Proof.
  induction l as [|[q p] l IH]; cbn; [lia|]. enough (left_of v (q, p) <= left_of w (q, p) + 1) by lia.
  unfold left_of; cbn. destruct p; try lia. destruct (_ =? v), (_ =? w); lia.
Qed.

Lemma left_of_step t q p p' s : threads s !! t = Some (q, p) ->
  left_of (_valid_times (shared s)) (q, p') < left_of (_valid_times (shared s)) (q, p) ->
  measure (set_thread t q p' s) < measure s.
Proof.
  intros Et Hl. unfold measure, set_thread; cbn [shared threads]. rewrite length_insert.
  pose proof (sum_update (left_of (_valid_times (shared s))) _ _ _ (q, p') Et). lia.
Qed.

Lemma measure_step s s' : step j Caller s s' -> measure s' < measure s.
Proof.
  remember Caller as e eqn:Ee. intros Hs.
  destruct Hs as [t q s E|t q s E|t q n s E Ev|t q n s E Ev|t q n s E Ev|t q now r s E Er|t q now s E Er|keys s|algo keys s]; try discriminate.
  - apply (left_of_step t q Start); [exact E|]. cbn. rewrite Nat.eqb_refl. lia.
  - apply (left_of_step t q (Loop 0)); [exact E|]. cbn. destruct (_valid_times (shared s)); lia.
  - unfold measure, set_thread, with_times; cbn [shared threads _valid_times]. rewrite length_insert, Ev.
    pose proof (sum_update (left_of n) _ _ _ (q, Took) E) as Hu. pose proof (left_of_change n (S n) (threads s)) as Hc.
    assert (Hl : left_of n (q, Loop (S n)) = 3) by (unfold left_of; cbn [snd]; destruct (S n =? n) eqn:Hn; [apply Nat.eqb_eq in Hn; lia|reflexivity]).
    change (left_of n (q, Took)) with 1 in Hu. rewrite Hl in Hu. lia.
  - apply (left_of_step t q (Loop (S n))); [exact E|]. unfold left_of; cbn [snd]. rewrite Nat.eqb_refl.
    apply not_eq_sym, Nat.eqb_neq in Ev. rewrite Ev. lia.
  - apply (left_of_step t q Took); [exact E|]. cbn. lia.
  - apply (left_of_step t q Took); [exact E|]. cbn. lia.
Qed.

Lemma measure_other e s s' : e <> Caller -> step j e s s' -> measure s' = measure s.
Proof.
  intros He Hs. destruct Hs; try done. unfold measure, set_shared, release; cbn [shared threads].
  now destruct (_ && _).
Qed.

Lemma steps_inv i0 n s s' : inv i0 s -> steps j n s s' -> inv i0 s'.
Proof. intros Hi Hs. induction Hs; [exact Hi|eauto using step_inv|eauto using step_inv]. Qed.

Lemma steps_measure n s s' : steps j n s s' -> n + measure s' <= measure s.
Proof.
  intros Hs. induction Hs as [|n s1 s2 s3 H _ IH|n e s1 s2 s3 He H _ IH]; [lia| |].
  - apply measure_step in H. lia.
  - apply measure_other in H; [lia|exact He].
Qed.
End Quota.

(** ** What the library promises *)

Definition iss : string := "iss".
Definition aud : string := "aud".
(** The times a library checks are absent or numbers, and the moment is within them. *)
Definition dated (p : payload) : Prop := forall k, k ∈ ["iat"; "exp"; "nbf"]%string -> match p !! k with None | Some (JInt _) => True | _ => False end.
Definition timely (p : payload) (now leeway : Z) : Prop :=
  (forall t, p !! "exp"%string = Some (JInt t) -> now <= (t + leeway) * second)%Z
  /\ (forall k t, k ∈ ["iat"; "nbf"]%string -> p !! k = Some (JInt t) -> (t - leeway) * second <= now)%Z.

(** [Sig b d]: the signature of [d] is one of the algorithm [b]; [Pair a b]: [b] checks
    what [a] signs; [typ] is the type in the header. *)
Class JwtLaws {Alg Dec : Type} (j : jwt Alg Dec) (Sig : Alg -> Dec -> Prop) (Pair : Alg -> Alg -> Prop) (typ : Dec -> option string) : Prop :=
  { sign_token : forall a ty p token, sign j a ty p = (0%Z, token) ->
      exists d, decode j token = Some d /\ typ d = Some ty /\ get_payload j d = p /\ (forall b, Sig b d <-> Pair a b);
    sign_error : forall a ty p e token, sign j a ty p = (e, token) -> e <> 0%Z -> token = EmptyString;
    sign_line : forall a ty p e token, sign j a ty p = (e, token) -> ascii_of_nat 10 ∉ list_ascii_of_string token;
    decode_empty : decode j EmptyString = None;
    verify_dated : forall a ty i l leeway now d, dated (get_payload j d) ->
      exists e, verifier_verify j a ty i l leeway now d = Some e
      /\ (e = 0%Z <-> Sig a d /\ typ d = Some ty /\ get_payload j d !! iss = Some (JStr i)
                  /\ get_payload j d !! aud = Some (JStr l) /\ timely (get_payload j d) now leeway);
    verify_undated : forall a ty i l leeway now d s, get_payload j d !! "exp"%string = Some (JStr s) ->
      verifier_verify j a ty i l leeway now d <> Some 0%Z;
    read_issuer : forall d s, get_payload j d !! iss = Some (JStr s) -> get_issuer j d = Some s;
    read_audience : forall d s, get_payload j d !! aud = Some (JStr s) -> get_audience j d = Some [s];
    read_issued_at : forall d t, get_payload j d !! "iat"%string = Some (JInt t) -> get_issued_at j d = Some (t * second)%Z;
    read_expires_at : forall d t, get_payload j d !! "exp"%string = Some (JInt t) -> get_expires_at j d = Some (t * second)%Z;
    items_perm : forall p, items j p ≡ₚ map_to_list p }.

(** ** The payload *)

(** The last value given for a name. *)
Definition last_value (cs : list pair_t) (k : string) : option string :=
  fold_left (fun r '(k', v) => if decide (k' = k) then Some v else r) cs None.

Definition free_names (cs : list pair_t) : Prop := forall k v, (k, v) ∈ cs -> k ∉ ("nbf"%string :: reserved).

Lemma free_names_dec cs : forallb (fun p : pair_t => bool_decide (p.1 ∉ ("nbf"%string :: reserved))) cs = true -> free_names cs.
Proof. rewrite forallb_forall. intros H k v Hin%list_elem_of_In. apply H in Hin. now apply bool_decide_eq_true in Hin. Qed.

Lemma last_value_app cs k v k' : last_value (cs ++ [(k, v)]) k' = if decide (k = k') then Some v else last_value cs k'.
Proof. unfold last_value. now rewrite fold_left_app. Qed.

Lemma set_claims_lookup cs p k : set_claims cs p !! k = match last_value cs k with Some v => Some (JStr v) | None => p !! k end.
Proof.
  induction cs as [|[k' v] cs IH] using rev_ind; [reflexivity|]. rewrite last_value_app.
  unfold set_claims in *. rewrite fold_left_app. cbn [fold_left]. unfold set_payload_claim at 1; unfold payload in *.
  destruct (decide (k' = k)) as [->|Hk]; [now rewrite lookup_insert_eq|now rewrite lookup_insert_ne].
Qed.

Lemma last_value_in cs k v : last_value cs k = Some v -> (k, v) ∈ cs.
Proof.
  induction cs as [|[k' v'] cs IH] using rev_ind; [discriminate|]. rewrite last_value_app, elem_of_app, list_elem_of_singleton.
  destruct (decide (k' = k)) as [->|]; [intros [= ->]; auto|auto].
Qed.

Lemma last_value_free cs k : free_names cs -> k ∈ ("nbf"%string :: reserved) -> last_value cs k = None.
Proof.
  intros Hf Hk. destruct (last_value cs k) as [v|] eqn:E; [|reflexivity].
  apply last_value_in in E. now destruct (Hf _ _ E).
Qed.

Lemma build_lookup i l t e cs k : build i l t e cs !! k =
  match last_value cs k with
  | Some v => Some (JStr v)
  | None => if decide (k = "exp"%string) then Some (JInt (Z.quot e second)) else if decide (k = "iat"%string) then Some (JInt (Z.quot t second))
      else if decide (k = aud) then Some (JStr l) else if decide (k = iss) then Some (JStr i) else None
  end.
Proof.
  unfold build. rewrite set_claims_lookup. destruct (last_value cs k); [reflexivity|].
  unfold set_payload_claim, aud, iss, payload. repeat (destruct (decide _) as [->|]; [now simplify_map_eq|]). now simplify_map_eq.
Qed.

(** What the names of the library hold when the claims leave them alone. *)
Lemma build_reserved i l t e cs : free_names cs ->
  build i l t e cs !! iss = Some (JStr i) /\ build i l t e cs !! aud = Some (JStr l)
  /\ build i l t e cs !! "iat"%string = Some (JInt (Z.quot t second)) /\ build i l t e cs !! "exp"%string = Some (JInt (Z.quot e second))
  /\ build i l t e cs !! "nbf"%string = None.
Proof.
  intros Hf. rewrite !build_lookup, !(last_value_free _ _ Hf) by (unfold reserved, iss, aud; set_solver). repeat split.
Qed.

Lemma build_free i l t e cs k : k ∉ reserved -> build i l t e cs !! k = JStr <$> last_value cs k.
Proof.
  intros Hk. rewrite build_lookup. destruct (last_value cs k); [reflexivity|].
  repeat (destruct (decide _) as [->|]; [exfalso; apply Hk; unfold reserved, iss, aud; set_solver|]). reflexivity.
Qed.

Lemma build_dated i l t e cs : free_names cs -> dated (build i l t e cs).
Proof.
  intros Hf k Hk. destruct (build_reserved i l t e cs Hf) as (_ & _ & H1 & H2 & H3).
  rewrite !elem_of_cons, elem_of_nil in Hk. destruct Hk as [->|[->|[->|[]]]]; [rewrite H1|rewrite H2|rewrite H3]; exact I.
Qed.

Lemma build_timely i l t e cs now leeway : free_names cs ->
  timely (build i l t e cs) now leeway <-> ((Z.quot t second - leeway) * second <= now <= (Z.quot e second + leeway) * second)%Z.
Proof.
  intros Hf. destruct (build_reserved i l t e cs Hf) as (_ & _ & H1 & H2 & H3). unfold timely. split.
  - intros [Ha Hb]. split; [|now apply Ha]. apply (Hb "iat"%string); [set_solver|exact H1].
  - intros [Ha Hb]. split.
    + intros z. rewrite H2. now intros [= <-].
    + intros k z Hk. rewrite !elem_of_cons, elem_of_nil in Hk. destruct Hk as [->|[->|[]]]; [rewrite H1; now intros [= <-]|now rewrite H3].
Qed.

(** ** Claims, times, lines *)

Lemma check_claims_ok p cs : (exists r, check_claims p cs = Ret r /\ failed r = false) <-> (forall k v, (k, v) ∈ cs -> p !! k = Some (JStr v)).
Proof.
  induction cs as [|[k v] cs IH]; cbn [check_claims].
  - split; [set_solver|intros _; now exists no_error].
  - split.
    + intros (r & Hr & Hf). destruct (p !! k) as [[s| |]|] eqn:Ek; try discriminate.
      destruct (decide (s = v)) as [->|]; [|injection Hr as <-; discriminate].
      intros k' v' [[= -> ->]|Hin]%elem_of_cons; [exact Ek|]. apply IH; eauto.
    + intros H. rewrite (H k v) by (now left). rewrite decide_True by reflexivity. apply IH. intros k' v' Hin. apply H. now right.
Qed.

Lemma check_claims_returns p cs : (forall k v, (k, v) ∈ cs -> exists s, p !! k = Some (JStr s)) -> check_claims p cs <> Throw.
Proof.
  induction cs as [|[k v] cs IH]; cbn [check_claims]; [discriminate|]. intros H.
  destruct (H k v) as [s ->]; [now left|]. destruct (decide (s = v)); [|discriminate]. apply IH. intros k' v' Hin. apply (H k' v'). now right.
Qed.

(** *** Times *)

Lemma valid_secs_exact days : (0 <= days < 2 ^ 32)%Z -> valid_secs days = (days * 86400)%Z.
Proof.
  intros Hd. unfold valid_secs. rewrite (wrap_small 64 (days * 24)) by (unfold uint; lia).
  rewrite (wrap_small 64 (days * 24 * 60)) by (unfold uint; lia). rewrite wrap_small by (unfold uint; lia). lia.
Qed.

Lemma expiry_exact t days expires : (0 <= days < 2 ^ 32)%Z -> expiry t (valid_secs days) = Some expires -> expires = (t + days * 86400 * second)%Z.
Proof.
  intros Hd. unfold expiry. rewrite valid_secs_exact by exact Hd. rewrite convert_id.
  - unfold mul, add, arith. cbn. destruct (in_type i64 (days * 86400 * second)); [|discriminate].
    destruct (in_type i64 (t + days * 86400 * second)); [now intros [= <-]|discriminate].
  - reflexivity.
  - unfold in_type, t_min, t_max; cbn. apply andb_true_iff. rewrite !Z.leb_le. lia.
Qed.

Lemma quot_expires t days : (0 <= t)%Z -> (0 <= days)%Z -> Z.quot (t + days * 86400 * second) second = (Z.quot t second + days * 86400)%Z.
Proof. intros Ht Hd. unfold second. rewrite !Z.quot_div_nonneg by lia. rewrite Z.div_add by lia. reflexivity. Qed.

(** *** Streams and files *)

Fixpoint join_lines (s : string) : string :=
  match s with EmptyString => EmptyString | String c s => if nat_of_ascii c =? 10 then join_lines s else String c (join_lines s) end.

Lemma app_assoc_string (a b c : string) : ((a ++ b) ++ c)%string = (a ++ (b ++ c))%string.
Proof. induction a as [|x a IH]; [reflexivity|]. exact (f_equal (String x) IH). Qed.
Lemma app_empty_string (a : string) : (a ++ EmptyString)%string = a.
Proof. induction a as [|x a IH]; [reflexivity|]. exact (f_equal (String x) IH). Qed.

Lemma getline_split s : let (line, rest) := getline s in
  join_lines s = (line ++ join_lines rest)%string /\ (s <> EmptyString -> String.length rest < String.length s).
Proof.
  induction s as [|c s IH]; [done|]. cbn [getline join_lines String.length]. destruct (_ =? 10); [split; [reflexivity|lia]|].
  destruct (getline s) as [line rest] eqn:E. destruct IH as [-> Hl]. split; [reflexivity|]. intros _.
  destruct s; [injection E as <- <-; cbn; lia|]. specialize (Hl ltac:(discriminate)). lia.
Qed.

Lemma read_lines_join fuel s buf : String.length s <= fuel -> read_lines fuel s buf = (buf ++ join_lines s)%string.
Proof.
  revert s buf. induction fuel as [|fuel IH]; intros [|c s] buf Hl; cbn [String.length] in Hl; try lia;
    try (cbn; now rewrite app_empty_string). cbn [read_lines].
  pose proof (getline_split (String c s)) as Hg. destruct (getline (String c s)) as [line rest]. destruct Hg as [-> Hr].
  specialize (Hr ltac:(discriminate)). cbn [String.length] in Hr. rewrite IH by lia. apply app_assoc_string.
Qed.

Lemma join_lines_same s : ascii_of_nat 10 ∉ list_ascii_of_string s -> join_lines s = s.
Proof.
  induction s as [|c s IH]; cbn; [reflexivity|]. rewrite not_elem_of_cons. intros [Hc Hs].
  destruct (Nat.eqb_spec (nat_of_ascii c) 10) as [E|]; [|now rewrite IH]. destruct Hc. now rewrite <- E, ascii_nat_embedding.
Qed.

Lemma substring_whole s n : String.length s <= n -> substring 0 n s = s.
Proof. revert n. induction s as [|c s IH]; intros [|n] Hn; cbn in *; try lia; [reflexivity|reflexivity|]. f_equal. apply IH. lia. Qed.

(** The claims among the items: those the code does not skip. *)
Definition shown (l : list (string * json)) : list pair_t :=
  omap (fun '(k, v) => match v with JStr s => if existsb (String.eqb k) reserved then None else Some (k, s) | _ => None end) l.

Lemma reserved_spec k : existsb (String.eqb k) reserved = bool_decide (k ∈ reserved).
Proof.
  apply eq_true_iff_eq. rewrite existsb_exists, bool_decide_eq_true. split.
  - intros (x & Hx & ->%String.eqb_eq). now apply list_elem_of_In.
  - intros H. exists k. split; [now apply list_elem_of_In|apply String.eqb_refl].
Qed.

Lemma elem_of_shown k s l : (k, s) ∈ shown l <-> (k, JStr s) ∈ l /\ k ∉ reserved.
Proof.
  unfold shown. rewrite list_elem_of_omap. split.
  - intros ([k' v] & Hin & E). rewrite reserved_spec in E. destruct v as [s'| |]; try discriminate.
    destruct (bool_decide_reflect (k' ∈ reserved)); [discriminate|]. injection E as -> ->. auto.
  - intros [Hin Hr]. exists (k, JStr s). split; [exact Hin|]. rewrite reserved_spec. now rewrite bool_decide_eq_false_2.
Qed.

Lemma shown_nodup l : NoDup l.*1 -> NoDup (shown l).*1.
Proof.
  induction l as [|[k v] l IH]; [constructor|]. rewrite fmap_cons. cbn [fst]. intros [Hk Hl]%list.NoDup_cons. specialize (IH Hl).
  destruct v as [s| |]; [|exact IH|exact IH]. unfold shown. cbn [omap list_omap]. fold (shown l).
  destruct (existsb (String.eqb k) reserved); [exact IH|]. rewrite fmap_cons. cbn [fst]. constructor; [|exact IH].
  contradict Hk. apply list_elem_of_fmap in Hk as ([k' s'] & -> & Hin). apply elem_of_shown in Hin as [Hin _].
  apply list_elem_of_fmap. now exists (k', JStr s').
Qed.

(** ** Issuing and verifying *)

Section Tokens.
Context {Alg Dec : Type} (j : jwt Alg Dec) (Sig : Alg -> Dec -> Prop) (Pair : Alg -> Alg -> Prop) (typ : Dec -> option string).
Context `{!JwtLaws j Sig Pair typ}.

(** The algorithm of a configuration: [least] keys are asked for. *)
Definition algorithm (least : nat) (algo : sign_algo) (keys : list string) : option Alg :=
  match algo with
  | none => Some (alg_none j)
  | rsa256 => if length keys <? least then None else rs256 j (key keys 0) (key keys 1) (key keys 2) (key keys 3)
  end.

Lemma detail_issue_ok token0 i l t secs algo keys cs e token :
  detail_issue j token0 i l t secs algo keys cs = Some (Ret (e, token)) -> failed e = false ->
  exists a expires, algorithm 2 algo keys = Some a /\ expiry t secs = Some expires
    /\ sign j a JWT_TYPE (build i l t expires cs) = (0%Z, token).
Proof.
  unfold detail_issue, algorithm. destruct (expiry t secs) as [expires|]; [|discriminate]. intros H Hf.
  assert (Hd : forall a, Some (let (e, token) := sign j a JWT_TYPE (build i l t expires cs) in
      Ret (if (e =? 0)%Z then no_error else Err Jwt_errors e, token)) = Some (Ret (e, token)) ->
    sign j a JWT_TYPE (build i l t expires cs) = (0%Z, token)).
  { intros a. destruct (sign j a _ _) as [z tok]. destruct (Z.eqb_spec z 0) as [->|Hz]; intros [= <- <-]; [reflexivity|].
    unfold failed in Hf; cbn in Hf. apply negb_false_iff, Z.eqb_eq in Hf. contradiction. }
  destruct algo; [now exists (alg_none j), expires; auto|].
  destruct (length keys <? 2); [injection H as <- <-; discriminate|].
  destruct (rs256 j _ _ _ _) as [a|]; [now exists a, expires; auto|discriminate].
Qed.

Lemma detail_verify_run now token i l algo keys cs leeway b d : algorithm 1 algo keys = Some b -> decode j token = Some d ->
  detail_verify j now token i l algo keys cs leeway =
    match verifier_verify j b JWT_TYPE i l leeway now d with
    | None => Throw
    | Some e => if (e =? 0)%Z then check_claims (get_payload j d) cs else Ret (Err Jwt_errors e)
    end.
Proof.
  unfold detail_verify, algorithm. intros Hb ->. destruct algo; [now injection Hb as <-|].
  destruct (length keys <? 1); [discriminate|]. now rewrite Hb.
Qed.

(** A token that was issued, as the library reads it. *)
Lemma issue_ok now token0 l days cs who e token who' :
  (0 <= days < 2 ^ 32)%Z -> (0 <= now)%Z ->
  issue j now token0 l days cs who = Some (Ret (e, token), who') -> failed e = false ->
  exists a n expires d, _valid_times who = S n /\ who' = with_times n who /\ algorithm 2 (_algo who) (_keys who) = Some a
    /\ Z.quot expires second = (Z.quot now second + days * 86400)%Z
    /\ sign j a JWT_TYPE (build (_id who) l now expires cs) = (0%Z, token)
    /\ decode j token = Some d /\ typ d = Some JWT_TYPE /\ get_payload j d = build (_id who) l now expires cs
    /\ (forall b, Sig b d <-> Pair a b).
Proof.
  intros Hd Hnow. unfold issue. destruct (_valid_times who) as [|n] eqn:En; [intros [= <- <- <-]; discriminate|].
  destruct (locked_issue j now token0 l days cs (with_times n who)) as [r|] eqn:El; [|discriminate]. intros [= -> <-] He.
  destruct (detail_issue_ok _ _ _ _ _ _ _ _ _ _ El He) as (a & expires & Ha & Hx & Hs).
  destruct (sign_token _ _ _ _ Hs) as (d & D1 & D2 & D3 & D4). exists a, n, expires, d.
  split_and!; auto. apply expiry_exact in Hx as ->; [|exact Hd]. apply quot_expires; lia.
Qed.

(** *** Streams and tokens *)

(** Line ends anywhere in the text are ignored. *)
Lemma verify_stream_join now s token l cs leeway v : join_lines s = token -> token <> EmptyString ->
  verify_stream j now (Some s) l cs leeway v = verify j now token l cs leeway v.
Proof.
  intros <- Hne. unfold verify_stream. rewrite read_lines_join by reflexivity. cbn [String.append].
  change (EmptyString ++ join_lines s)%string with (join_lines s). now destruct (join_lines s).
Qed.

(** *** Reading a token *)

Lemma add_claims_shown l info : (forall k v, (k, v) ∈ l -> k ∉ reserved -> exists s, v = JStr s) ->
  add_claims j l info = (true, Info (info_issuer info) (audience info) (issued_at info) (expires_at info) (claims info ++ shown l)).
Proof.
  revert info. induction l as [|[k v] l IH]; intros info Hl; cbn [add_claims].
  - cbn. rewrite app_nil_r. now destruct info.
  - assert (Hl' : forall k v, (k, v) ∈ l -> k ∉ reserved -> exists s, v = JStr s) by (intros k' v' Hin; apply Hl; now right).
    pose proof (Hl k v) as Hk. rewrite reserved_spec in *. unfold shown. cbn [omap list_omap]. rewrite reserved_spec.
    destruct (bool_decide_reflect (k ∈ reserved)) as [Hr|Hr].
    + rewrite IH by exact Hl'. now destruct v.
    + destruct (Hk (list_elem_of_here _ _) Hr) as [s ->]. rewrite IH by exact Hl'. cbn. now rewrite <- app_assoc.
Qed.

Lemma items_lookup (p : payload) k v : (k, v) ∈ items j p <-> p !! k = Some v.
Proof. rewrite (items_perm p). apply elem_of_map_to_list. Qed.

Lemma items_build i l t e cs k v : (k, v) ∈ items j (build i l t e cs) -> k ∉ reserved -> exists s, v = JStr s /\ last_value cs k = Some s.
Proof.
  intros H Hk. rewrite items_lookup, build_free in H by exact Hk.
  apply fmap_Some in H as (s & H1 & H2). eauto.
Qed.
End Tokens.

(** ** A library *)

Module Sample.
(** Keys: the private key [k] has the public key [Pk]; each token is its algorithm,
    type and payload in binary. *)
Definition alg : Type := option (bool * string).
Definition dec : Type := alg * string * payload.
#[global] Instance json_countable : Countable json.
Proof.
  apply (inj_countable' (fun v => match v with JStr s => inl s | JInt z => inr (inl z) | JOther s => inr (inr s) end)
    (fun v => match v with inl s => JStr s | inr (inl z) => JInt z | inr (inr s) => JOther s end)). now intros [].
Defined.
#[global] Instance dec_countable : Countable dec.
Proof. unfold dec, alg, payload. apply _. Defined.

Fixpoint digits (p : positive) : string :=
  match p with xH => EmptyString | xO p => String "0" (digits p) | xI p => String "1" (digits p) end.
Fixpoint undigits (s : string) : positive :=
  match s with EmptyString => xH | String c s => if ascii_dec c "0" then xO (undigits s) else xI (undigits s) end.
Lemma undigits_digits p : undigits (digits p) = p.
Proof. induction p as [p IH|p IH|]; cbn; congruence. Qed.
Lemma digits_line p : ascii_of_nat 10 ∉ list_ascii_of_string (digits p).
Proof. induction p as [p IH|p IH|]; cbn; rewrite ?not_elem_of_cons; [split; [discriminate|exact IH]..|apply not_elem_of_nil]. Qed.

Definition mk (pub priv _ _ : string) : option alg :=
  match priv, pub with
  | EmptyString, String "P" k => Some (Some (false, k))
  | EmptyString, _ => None
  | k, _ => Some (Some (true, k))
  end.
Definition sign (a : alg) (ty : string) (p : payload) : Z * string :=
  match a with
  | Some (false, _) => (1%Z, EmptyString)
  | _ => (0%Z, String "t" (digits (encode (a, ty, p))))
  end.
Definition decode (s : string) : option dec := match s with String "t" s => countable.decode (undigits s) | _ => None end.
Definition pair (a b : alg) : bool :=
  match a, b with None, None => true | Some (true, k), Some (_, k') => bool_decide (k = k') | _, _ => false end.
Definition time_ok (f : Z -> bool) (v : option json) : option bool := match v with None => Some true | Some (JInt t) => Some (f t) | _ => None end.
Definition verify (b : alg) (ty i l : string) (leeway now : Z) (d : dec) : option Z :=
  let '(a, ty', p) := d in
  match time_ok (fun t => now <=? (t + leeway) * second)%Z (p !! "exp"%string), time_ok (fun t => (t - leeway) * second <=? now)%Z (p !! "iat"%string),
    time_ok (fun t => (t - leeway) * second <=? now)%Z (p !! "nbf"%string) with
  | Some e1, Some e2, Some e3 =>
      Some (if pair a b && bool_decide (ty' = ty) && bool_decide (p !! iss = Some (JStr i)) && bool_decide (p !! aud = Some (JStr l)) && e1 && e2 && e3 then 0%Z else 2%Z)
  | _, _, _ => None
  end.
Definition number (v : option json) : option Z := match v with Some (JInt t) => Some (t * second)%Z | _ => None end.
Definition ops : jwt alg dec :=
  Jwt _ _ mk None sign decode verify snd
    (fun d => match d.2 !! iss with Some (JStr s) => Some s | _ => None end)
    (fun d => match d.2 !! aud with Some (JStr s) => Some [s] | _ => None end)
    (fun d => number (d.2 !! "iat"%string)) (fun d => number (d.2 !! "exp"%string))
    map_to_list (fun v => match v with JOther s => Some s | _ => None end).

Lemma time_ok_spec f v : (match v with None | Some (JInt _) => True | _ => False end) ->
  exists b, time_ok f v = Some b /\ (b = true <-> forall t, v = Some (JInt t) -> f t = true).
Proof.
  destruct v as [[s|t|s]|]; try done; intros _; cbn; eexists; (split; [reflexivity|]); split; try done.
  - now intros H t' [= <-].
  - intros H. now apply H.
Qed.

#[global] Instance laws : JwtLaws ops (fun b d => pair d.1.1 b = true) (fun a b => pair a b = true) (fun d => Some d.1.2).
Proof.
  split.
  - intros a ty p token. cbn. unfold sign. intros H. exists (a, ty, p).
    assert (H' : token = String "t" (digits (encode (a, ty, p)))) by (destruct a as [[[] k]|]; now injection H). subst token.
    cbn. rewrite undigits_digits, decode_encode. auto.
  - intros a ty p e token. cbn. unfold sign. destruct a as [[[] k]|]; intros [= <- <-]; done.
  - intros a ty p e token. cbn. unfold sign. destruct a as [[[] k]|]; intros [= <- <-]; cbn; rewrite ?not_elem_of_cons; try apply not_elem_of_nil; (split; [discriminate|apply digits_line]).
  - reflexivity.
  - intros b ty i l leeway now [[a ty'] p] Hd. cbn in *. unfold verify, timely.
    assert (K1 : "exp"%string ∈ ["iat"; "exp"; "nbf"]%string) by (rewrite !elem_of_cons; auto).
    assert (K2 : "iat"%string ∈ ["iat"; "exp"; "nbf"]%string) by (rewrite !elem_of_cons; auto).
    assert (K3 : "nbf"%string ∈ ["iat"; "exp"; "nbf"]%string) by (rewrite !elem_of_cons; auto).
    destruct (time_ok_spec (fun t => now <=? (t + leeway) * second)%Z _ (Hd _ K1)) as (e1 & E1 & He1).
    destruct (time_ok_spec (fun t => (t - leeway) * second <=? now)%Z _ (Hd _ K2)) as (e2 & E2 & He2).
    destruct (time_ok_spec (fun t => (t - leeway) * second <=? now)%Z _ (Hd _ K3)) as (e3 & E3 & He3). clear K1 K2 K3.
    rewrite E1, E2, E3. eexists. split; [reflexivity|].
    assert (Hif : forall c : bool, (if c then 0%Z else 2%Z) = 0%Z <-> c = true) by (now intros []).
    rewrite Hif, !andb_true_iff, !bool_decide_eq_true, He1, He2, He3. setoid_rewrite Z.leb_le.
    setoid_rewrite elem_of_cons. setoid_rewrite list_elem_of_singleton. split.
    + intros ((((((A & B) & C) & D) & E) & F) & G). split_and!; auto; [congruence|]. intros k t [->| ->]; auto.
    + intros (A & B & C & D & E & F). injection B as ->. split_and!; eauto.
  - intros b ty i l leeway now [[a ty'] p] s H. cbn in *. unfold verify. now rewrite H.
  - intros d s H. cbn in *. now rewrite H.
  - intros d s H. cbn in *. now rewrite H.
  - intros d t H. cbn in *. now rewrite H.
  - intros d t H. cbn in *. now rewrite H.
  - reflexivity.
Qed.
End Sample.

(** ** Theorems *)

(** C26: whatever the interleaving of any number of calls of [issue] and of changes
    of the keys, and whatever exchanges fail, the times left and the calls that took
    one add up to the times given, so no more tokens are issued; a call is refused
    only when all times are taken; a call that is done signed with an algorithm and
    keys the issuer had together at some moment.  The calls take a bounded number of
    steps, and a call that is not over can take one. *)
Theorem license_quota {Alg Dec} (j : jwt Alg Dec) i qs n s :
  Race.steps j n (Race.initial i qs) s ->
  _valid_times (Race.shared s) + sum_list_with took (Race.threads s) = _valid_times i
  /\ (forall t q, Race.threads s !! t = Some (q, Race.Refused) -> sum_list_with took (Race.threads s) = _valid_times i)
  /\ (forall t q r, Race.threads s !! t = Some (q, Race.Done r) -> exists now i', Race.config i' ∈ Race.configs s /\ _id i' = _id i
       /\ locked_issue j now EmptyString (Race.licensee q) (Race.days q) (Race.wanted q) i' = Some r)
  /\ n <= (4 + _valid_times i) * length qs
  /\ (forall t q p, Race.threads s !! t = Some (q, p) ->
       match p with Race.Refused | Race.Done _ | Race.Undefined => True | _ => exists s', Race.step j Race.Caller s s' end).
Proof.
  intros Hs. pose proof (steps_inv j i n _ s (initial_inv j i qs) Hs) as [Hc Hid Hg Ht].
  pose proof (steps_measure j n _ s Hs) as Hm. split_and!.
  - exact Hc.
  - intros t q E. specialize (Ht t q _ E). cbn in Ht. lia.
  - intros t q r E. exact (Ht t q _ E).
  - enough (measure (Race.initial i qs) = (4 + _valid_times i) * length qs) by lia.
    unfold measure, Race.initial; cbn [Race.shared Race.threads]. rewrite length_fmap.
    enough (sum_list_with (left_of (_valid_times i)) ((fun q => (q, Race.Start)) <$> qs) = 4 * length qs) by lia.
    induction qs as [|q qs IH] in |- *; [reflexivity|]. cbn in *. lia.
  - intros t q p E. destruct p as [|[|m]| | | |]; try exact I.
    + eexists. eapply Race.step_load, E.
    + eexists. eapply Race.step_refuse, E.
    + destruct (decide (_valid_times (Race.shared s) = S m)); eexists; [eapply Race.step_exchange|eapply Race.step_changed]; eauto.
    + destruct (locked_issue j 0%Z EmptyString (Race.licensee q) (Race.days q) (Race.wanted q) (Race.shared s)) as [r|] eqn:El;
        eexists; [eapply Race.step_sign|eapply Race.step_undefined]; eauto.
Qed.

(** Two calls for one time: the second loses the exchange and is refused. *)
Lemma license_quota_witness :
  let i := Issuer "issuer" none [] 1 in let q := Race.Request "harry" 30%Z [] in
  let r := default Throw (locked_issue Sample.ops 0%Z EmptyString "harry" 30%Z [] i) in
  let s := Race.Sys (with_times 0 i) [Race.config i] [(q, Race.Done r); (q, Race.Refused)] in
  Race.steps Sample.ops 6 (Race.initial i [q; q]) s
  /\ _valid_times (Race.shared s) + sum_list_with took (Race.threads s) = _valid_times i.
Proof.
  intros i q r s. assert (Hs : Race.steps Sample.ops 6 (Race.initial i [q; q]) s).
  { eapply Race.steps_caller; [apply (Race.step_load _ 0 q); reflexivity|].
    eapply Race.steps_caller; [apply (Race.step_load _ 1 q); reflexivity|].
    eapply Race.steps_caller; [apply (Race.step_exchange _ 0 q 0); reflexivity|].
    eapply Race.steps_caller; [apply (Race.step_changed _ 1 q 0); [reflexivity|discriminate]|].
    eapply Race.steps_caller; [apply (Race.step_refuse _ 1 q); reflexivity|].
    eapply Race.steps_caller; [apply (Race.step_sign _ 0 q 0%Z r); vm_compute; reflexivity|]. apply Race.steps_refl. }
  split; [exact Hs|]. exact (proj1 (license_quota Sample.ops i [q; q] 6 _ Hs)).
Defined.

(** A token that was issued, for a licensee, a number of days and claims whose
    names are not the library's, is accepted by a verifier exactly when its
    algorithm checks what the issuer's signs, its identifier and licensee are those
    of the token, the moment is between the issue and the last day, give or take
    the leeway, and every claim asked for is in the token with the last value given
    for it.  A claim the token has never makes the verifier throw. *)
Theorem license_accepts {Alg Dec} (j : jwt Alg Dec) Sig Pair typ `{!JwtLaws j Sig Pair typ}
    who v tm token0 l days cs e token who' a b now l' cs' leeway :
  free_names cs -> free_names cs' -> (0 <= days < 2 ^ 32)%Z -> (0 <= tm)%Z ->
  issue j tm token0 l days cs who = Some (Ret (e, token), who') -> failed e = false ->
  algorithm j 2 (_algo who) (_keys who) = Some a -> algorithm j 1 (v_algo v) (v_keys v) = Some b ->
  let issued := Z.quot tm second in
  ((exists r, verify j now token l' cs' leeway v = Ret r /\ failed r = false)
   <-> Pair a b /\ v_id v = _id who /\ l' = l
       /\ ((issued - leeway) * second <= now <= (issued + days * 86400 + leeway) * second)%Z
       /\ forall k x, (k, x) ∈ cs' -> last_value cs k = Some x)
  /\ ((forall k x, (k, x) ∈ cs' -> is_Some (last_value cs k)) -> verify j now token l' cs' leeway v <> Throw)
  /\ S (_valid_times who') = _valid_times who.
Proof.
  intros Hf Hf' Hd Htm Hi He Ha Hb issued.
  destruct (issue_ok j Sig Pair typ _ _ _ _ _ _ _ _ _ Hd Htm Hi He) as (a' & n & ex & d & En & -> & Ha' & Hex & _ & D1 & D2 & D3 & D4).
  rewrite Ha in Ha'. injection Ha' as <-. set (p := build _ _ _ _ _) in *.
  assert (Hp : forall k x, (k, x) ∈ cs' -> p !! k = JStr <$> last_value cs k).
  { intros k x Hin. apply build_free. specialize (Hf' k x Hin). now rewrite not_elem_of_cons in Hf'. }
  destruct (build_reserved (_id who) l tm ex cs Hf) as (R1 & R2 & _).
  unfold verify. rewrite (detail_verify_run j _ _ _ _ _ _ _ _ b d Hb D1).
  destruct (verify_dated b JWT_TYPE (v_id v) l' leeway now d) as (z & -> & Hz); [rewrite D3; now apply build_dated|].
  rewrite D3 in Hz |- *. fold p in R1, R2. rewrite D2, D4, R1, R2 in Hz. unfold p in Hz at 1. rewrite build_timely, Hex in Hz by exact Hf.
  fold issued in Hz. split_and!.
  - destruct (Z.eqb_spec z 0) as [->|Hn].
    + rewrite (check_claims_ok p cs'). destruct (proj1 Hz eq_refl) as (H1 & _ & [= H3] & [= H4] & H5).
      split; [|intros (_ & _ & _ & _ & H) k x Hin; rewrite (Hp k x Hin), (H k x Hin); reflexivity].
      intros H. split; [exact H1|]. split; [congruence|]. split; [congruence|]. split; [exact H5|]. intros k x Hin. specialize (H k x Hin). rewrite (Hp k x Hin) in H.
      destruct (last_value cs k); [now injection H as ->|discriminate].
    + split.
      * intros (r & [= <-] & Hr). unfold failed in Hr; cbn in Hr. now apply negb_false_iff, Z.eqb_eq in Hr.
      * intros (H1 & H2 & -> & H4 & _). destruct Hn. apply Hz. rewrite H2. auto.
  - intros H. destruct (z =? 0)%Z; [|discriminate]. apply check_claims_returns. intros k x Hin.
    rewrite (Hp k x Hin). destruct (H k x Hin) as [y ->]. now exists y.
  - cbn. now rewrite En.
Qed.

(** An expired, an early and a good check, and a claim that differs. *)
Lemma license_accepts_witness :
  let who := Issuer "issuer" rsa256 [""; "k"]%string 2 in let v := Verifier "issuer" rsa256 ["Pk"]%string in
  let cs := [("disk", "1"); ("disk", "2")]%string in
  exists token who', issue Sample.ops 1000000000 EmptyString "harry" 30 cs who = Some (Ret (no_error, token), who')
  /\ ((exists r, verify Sample.ops (31 * 86400 * second) token "harry" cs 5 v = Ret r /\ failed r = false) -> False)
  /\ (exists r, verify Sample.ops (29 * 86400 * second) token "harry" [("disk", "2")]%string 5 v = Ret r /\ failed r = false).
Proof.
  intros who v cs. eexists _, _. split; [vm_compute; reflexivity|].
  pose proof (fun now cs' Hf' => license_accepts Sample.ops _ _ _ who v 1000000000 EmptyString "harry" 30 cs no_error _ _
    (Some (true, "k"%string)) (Some (false, "k"%string)) now "harry" cs' 5 (free_names_dec cs eq_refl)
    Hf' ltac:(lia) ltac:(lia) eq_refl eq_refl eq_refl eq_refl) as H. split.
  - intros Hr. apply H in Hr as (_ & _ & _ & Ht & _); [exact (proj2 Ht eq_refl)|now apply free_names_dec].
  - apply H; [now apply free_names_dec|]. split_and!; try (vm_compute; reflexivity); try (vm_compute; discriminate).
    intros k x [[= -> ->]|[]%not_elem_of_nil]%elem_of_cons. reflexivity.
Defined.

(** What was issued can be stored and read.  Issuing to a file that takes the
    token replaces the file by it, and verifying the file is verifying the token, as
    it is for any stream that has the token with line ends anywhere.  Parsing it
    gives the issuer, the licensee, the times and, after the claims that were there,
    each claim once with the last value given for it. *)
Theorem license_text {Alg Dec} (j : jwt Alg Dec) Sig Pair typ `{!JwtLaws j Sig Pair typ}
    who tm l days cs e token who' :
  free_names cs -> (0 <= days < 2 ^ 32)%Z -> (0 <= tm)%Z ->
  issue j tm EmptyString l days cs who = Some (Ret (e, token), who') -> failed e = false ->
  let issued := Z.quot tm second in
  (forall f path disk, opens f = true -> String.length token <= takes f -> String.length token <= flushed f ->
     issue_file j tm f path l days cs disk who = Some (Ret no_error, <[path := token]> disk, who')
     /\ forall now l' cs' leeway v, verify_file j now path l' cs' leeway (<[path := token]> disk) v = verify j now token l' cs' leeway v)
  /\ (forall s now l' cs' leeway v, join_lines s = token -> verify_stream j now (Some s) l' cs' leeway v = verify j now token l' cs' leeway v)
  /\ (forall info, exists cs', NoDup cs'.*1 /\ (forall k x, (k, x) ∈ cs' <-> last_value cs k = Some x)
       /\ parse j info token = (make_err ok, Info (_id who) l (issued * second) ((issued + days * 86400) * second) (claims info ++ cs'))).
Proof.
  intros Hf Hd Htm Hi He issued.
  destruct (issue_ok j Sig Pair typ _ _ _ _ _ _ _ _ _ Hd Htm Hi He) as (a & n & ex & d & En & -> & Ha & Hex & Hs & D1 & D2 & D3 & _).
  assert (Hne : token <> EmptyString) by (intros ->; rewrite decode_empty in D1; discriminate).
  assert (Hj : join_lines token = token) by (apply join_lines_same; eapply sign_line, Hs).
  split_and!.
  - intros f path disk Ho Ht Hfl. split.
    + unfold issue_file, issue_stream. rewrite Ho. cbn [negb good]. rewrite Hi, He. unfold insert. cbn [room good written].
      apply Nat.leb_le in Ht. rewrite Ht. cbn [negb good written]. change (EmptyString ++ token)%string with token. now rewrite substring_whole.
    + intros now l' cs' leeway v. unfold verify_file. rewrite lookup_insert_eq. now apply verify_stream_join.
  - intros s now l' cs' leeway v Hjs. now apply verify_stream_join.
  - intros info. exists (shown (items j (build (_id who) l tm ex cs))). split_and!.
    + apply shown_nodup. rewrite (items_perm (build (_id who) l tm ex cs)). apply NoDup_fst_map_to_list.
    + intros k x. rewrite elem_of_shown, (items_lookup j Sig Pair typ). split.
      * intros [H Hk]. rewrite build_free in H by exact Hk. now apply fmap_Some in H as (y & -> & [= ->]).
      * intros H. assert (Hk : k ∉ reserved) by (specialize (Hf k x (last_value_in _ _ _ H)); now rewrite not_elem_of_cons in Hf).
        now rewrite build_free, H.
    + destruct (build_reserved (_id who) l tm ex cs Hf) as (R1 & R2 & R3 & R4 & _). rewrite <- D3 in R1, R2, R3, R4.
      unfold parse. rewrite D1, (read_issuer _ _ R1), (read_issued_at _ _ R3), (read_expires_at _ _ R4), (read_audience _ _ R2), D3, Hex.
      rewrite (add_claims_shown j); [reflexivity|]. intros k v Hin Hk.
      destruct (items_build j Sig Pair typ _ _ _ _ _ _ _ Hin Hk) as (s & -> & _). now exists s.
Qed.

Lemma license_text_witness :
  let who := Issuer "issuer" none [] 1 in let cs := [("disk", "1")]%string in
  exists token who', issue Sample.ops 0 EmptyString "harry" 30 cs who = Some (Ret (no_error, token), who')
  /\ exists shown, parse Sample.ops (Info "" "" 0 0 []) token = (make_err ok, Info "issuer" "harry" 0 (2592000 * second) shown)
       /\ ("disk", "1")%string ∈ shown.
Proof.
  intros who cs. eexists _, _. split; [vm_compute; reflexivity|].
  destruct (license_text Sample.ops _ _ _ who 0 "harry" 30 cs no_error _ _ (free_names_dec cs eq_refl) ltac:(lia) ltac:(lia) eq_refl eq_refl)
    as (_ & _ & H). destruct (H (Info "" "" 0 0 [])) as (shown & _ & H1 & H2).
  exists shown. split; [exact H2|]. now apply H1.
Defined.

(** ** The serial number *)

Lemma fgets_split n l : let (b, r) := fgets n l in l = b ++ r /\ (n <> 0 -> l <> [] -> length r < length l).
Proof.
  revert l. induction n as [|n IH]; intros [|c l]; cbn [fgets]; [split; [reflexivity|done]..|]. destruct (nat_of_ascii c =? 10); [split; [reflexivity|cbn; lia]|].
  specialize (IH l). destruct (fgets n l) as [b r]. destruct IH as [-> Hr]. split; [reflexivity|]. intros _ _. cbn [length]. rewrite length_app. lia.
Qed.

Lemma c_str_same l : Forall (fun c => nat_of_ascii c <> 0) l -> c_str l = l.
Proof. induction 1 as [|c l Hc _ IH]; cbn; [reflexivity|]. apply Nat.eqb_neq in Hc. now rewrite Hc, IH. Qed.

(** Blocks of any size: the output of a command is read whole, if it has no null
    character. *)
Lemma read_pipe_whole fuel l : Forall (fun c => nat_of_ascii c <> 0) l -> length l <= fuel -> read_pipe fuel l = l.
Proof.
  revert l. induction fuel as [|fuel IH]; intros [|c l] Hl Hn; cbn [length] in Hn; try reflexivity; [lia|].
  cbn [read_pipe]. pose proof (fgets_split 255 (c :: l)) as Hg. destruct (fgets 255 (c :: l)) as [b r]. destruct Hg as [E Hr].
  specialize (Hr ltac:(discriminate) ltac:(discriminate)). cbn [length] in Hr. rewrite E in Hl |- *. apply Forall_app in Hl as [Hb Hl].
  rewrite c_str_same by exact Hb. now rewrite IH by (assumption || lia).
Qed.

(** The serial number is the first output that is not blank. *)
Lemma get_disk_sn_first shell :
  match list_find (fun s => s <> EmptyString) (default EmptyString ∘ execute_command_safe shell <$> commands) with
  | Some (_, s) => get_disk_sn shell = s
  | None => get_disk_sn shell = EmptyString
  end.
Proof.
  unfold get_disk_sn. induction commands as [|cmd cmds IH]; [reflexivity|]. rewrite fmap_cons. cbn [list_find try_commands].
  change ((default EmptyString ∘ execute_command_safe shell) cmd) with (default EmptyString (execute_command_safe shell cmd)).
  destruct (execute_command_safe shell cmd) as [[|c s]|]; cbn [default from_option id]; try (rewrite decide_True by discriminate; reflexivity);
    (rewrite decide_False by (intros H; now apply H)); now destruct (list_find _ _) as [[]|].
Qed.

(** ** Where the code differs from what it means *)

(** A call that signs nothing has taken a time: too few keys, or keys that do not load. *)
Lemma failed_issue_takes {Alg Dec} (j : jwt Alg Dec) now l cs id n :
  issue j now EmptyString l 30 cs (Issuer id rsa256 [] (S n))
    = match expiry now (valid_secs 30) with
      | Some _ => Some (Ret (make_err keys_not_enough, EmptyString), Issuer id rsa256 [] n)
      | None => None
      end.
Proof. unfold issue, locked_issue, detail_issue. cbn [_valid_times _keys _algo _id with_times]. now destruct (expiry _ _). Qed.

(** A call that is refused has emptied the file. *)
Lemma refused_issue_truncates {Alg Dec} (j : jwt Alg Dec) now f path l days cs disk id algo keys : opens f = true ->
  issue_file j now f path l days cs disk (Issuer id algo keys 0)
    = Some (Ret (make_err invalid_times), <[path := EmptyString]> disk, Issuer id algo keys 0).
Proof. intros Ho. unfold issue_file. rewrite Ho. cbn. now destruct (flushed f). Qed.

(** A file that keeps nothing of what its stream took is reported as written. *)
Lemma lost_write_reported {Alg Dec} (j : jwt Alg Dec) now path l days cs disk who token who' :
  issue j now EmptyString l days cs who = Some (Ret (no_error, token), who') ->
  issue_file j now (Filing true (String.length token) 0) path l days cs disk who = Some (Ret no_error, <[path := EmptyString]> disk, who').
Proof.
  intros H. unfold issue_file, issue_stream. cbn [opens negb good takes]. rewrite H. unfold insert; cbn [room good written failed no_error code negb Z.eqb].
  rewrite Nat.leb_refl. cbn [good negb written flushed]. now destruct (EmptyString ++ token)%string.
Qed.

(** A claim may take the name of the library's: the token is issued, and no verifier
    accepts it. *)
Lemma reserved_claim_breaks {Alg Dec} (j : jwt Alg Dec) Sig Pair typ `{!JwtLaws j Sig Pair typ} who tm l days e token who' :
  (0 <= days < 2 ^ 32)%Z -> (0 <= tm)%Z ->
  issue j tm EmptyString l days [("exp", "never")]%string who = Some (Ret (e, token), who') -> failed e = false ->
  forall v now l' leeway r, verify j now token l' [] leeway v = Ret r -> failed r = true.
Proof.
  intros Hd Htm Hi He v now l' leeway r.
  destruct (issue_ok j Sig Pair typ _ _ _ _ _ _ _ _ _ Hd Htm Hi He) as (a & n & ex & d & _ & _ & _ & _ & _ & D1 & _ & D3 & _).
  destruct (algorithm j 1 (v_algo v) (v_keys v)) as [b|] eqn:Hb.
  - unfold verify. rewrite (detail_verify_run j _ _ _ _ _ _ _ _ b d Hb D1).
    pose proof (verify_undated b JWT_TYPE (v_id v) l' leeway now d "never"%string) as Hu. rewrite D3 in Hu.
    destruct (verifier_verify j b JWT_TYPE (v_id v) l' leeway now d) as [z|]; [|discriminate].
    destruct (Z.eqb_spec z 0) as [->|Hz]; [now destruct Hu|]. intros [= <-]. unfold failed; cbn. now apply negb_true_iff, Z.eqb_neq.
  - unfold verify, detail_verify, algorithm in *. rewrite D1. destruct (v_algo v); [discriminate|].
    destruct (length (v_keys v) <? 1); [now intros [= <-]|]. rewrite Hb. discriminate.
Qed.

(** A text that is no token makes the verifier throw, where [parse] gives an error. *)
Lemma malformed_throws {Alg Dec} (j : jwt Alg Dec) now token l cs leeway v info : decode j token = None ->
  verify j now token l cs leeway v = Throw /\ parse j info token = (make_err parse_license_info_failed, info).
Proof. intros H. unfold verify, detail_verify, parse. now rewrite H. Qed.

(** So does a claim the token does not have. *)
Lemma missing_claim_throws p k v cs : p !! k = None -> check_claims p ((k, v) :: cs) = Throw.
Proof. intros H. cbn. now rewrite H. Qed.

(** Numbers of days: the seconds wrap around, or the nanoseconds overflow. *)
Lemma days_wrap : valid_secs (2 ^ 57) = 0%Z.
Proof. reflexivity. Qed.
Lemma days_overflow now : expiry now (valid_secs 106752) = None.
Proof. reflexivity. Qed.
