(* ===== verification/DateTime.v ===== *)
(** * Dates and times

    [time/date_time.hpp]: a moment with its calendar, the boundaries of days,
    weeks, months, quarters, half years and years, steps by periods, by weekdays
    and by working days, seconds and milliseconds since the epoch, time zones.

    The dates, moments and durations of [boost::date_time] are an interface,
    [Boost.ops]: dates and moments are opaque, durations are microseconds, a
    number of days is an integer.  [DateTimeThm] states the laws of the interface
    and proves the theorems, [Gregorian] is an instance.  [None] is an exception
    (a date that does not exist), a read of an uninitialised field, or a loop
    that has used its fuel. *)

From Stdlib Require Import ZArith List Bool Ascii String.
From stdpp Require Import base tactics option.
From S2P Require Import Prelude Ints.

Open Scope hj_scope.
Open Scope Z_scope.

(** ** The library *)

Module Boost.
Record ops (date ptime : Type) := Ops
  { (* [boost::gregorian::date] *)
    of_ymd : Z -> Z -> Z -> option date; year : date -> Z; month : date -> Z; day : date -> Z;
    day_of_week : date -> Z; day_of_year : date -> Z; end_of_month : date -> date;
    plus_days : date -> Z -> date; plus_months : date -> Z -> date; pos_infin : date;
    (* [boost::posix_time::ptime] *)
    make : date -> Z -> ptime; plus : ptime -> Z -> ptime; minus : ptime -> ptime -> Z;
    date_of : ptime -> date; time_of_day : ptime -> Z; eqb : ptime -> ptime -> bool; ltb : ptime -> ptime -> bool;
    not_a_date_time : ptime; from_time_t : Z -> ptime; to_time_t : ptime -> Z;
    from_tm : Z -> Z -> Z -> Z -> Z -> Z -> option ptime; (* the fields of a [struct tm], seconds last *)
    (* [boost::posix_time::time_duration] *)
    time_duration : Z -> Z -> Z -> Z -> Z; seconds_of : Z -> Z; milliseconds_of : Z -> Z;
    total_seconds : Z -> Z; total_milliseconds : Z -> Z; hours : Z -> Z; minutes : Z -> Z; seconds : Z -> Z }.
#[global] Arguments Ops {date ptime}.
#[global] Arguments of_ymd {date ptime}. #[global] Arguments year {date ptime}. #[global] Arguments month {date ptime}.
#[global] Arguments day {date ptime}. #[global] Arguments day_of_week {date ptime}. #[global] Arguments day_of_year {date ptime}.
#[global] Arguments end_of_month {date ptime}. #[global] Arguments plus_days {date ptime}. #[global] Arguments plus_months {date ptime}.
#[global] Arguments pos_infin {date ptime}. #[global] Arguments make {date ptime}. #[global] Arguments plus {date ptime}.
#[global] Arguments minus {date ptime}. #[global] Arguments date_of {date ptime}. #[global] Arguments time_of_day {date ptime}.
#[global] Arguments eqb {date ptime}. #[global] Arguments ltb {date ptime}. #[global] Arguments not_a_date_time {date ptime}.
#[global] Arguments from_time_t {date ptime}. #[global] Arguments to_time_t {date ptime}. #[global] Arguments from_tm {date ptime}.
#[global] Arguments time_duration {date ptime}. #[global] Arguments seconds_of {date ptime}. #[global] Arguments milliseconds_of {date ptime}.
#[global] Arguments total_seconds {date ptime}. #[global] Arguments total_milliseconds {date ptime}. #[global] Arguments hours {date ptime}.
#[global] Arguments minutes {date ptime}. #[global] Arguments seconds {date ptime}.
End Boost.

(** The clocks at one moment: [microsec_clock] and [day_clock]. *)
Record clocks (date ptime : Type) := Clocks
  { universal_time : ptime; local_time : ptime; universal_day : date; local_day : date }.
#[global] Arguments Clocks {date ptime}.
#[global] Arguments universal_time {date ptime}. #[global] Arguments local_time {date ptime}.
#[global] Arguments universal_day {date ptime}. #[global] Arguments local_day {date ptime}.

Definition ulong : ity := Ity 64 false.
Definition long : ity := Ity 64 true.
Definition int : ity := Ity 32 true.

(** ** Enumerations *)

(** Enumerations with a fixed underlying type: the last constructor is a value
    without a name. *)
Inductive weekday := sunday | monday | tuesday | wednesday | thursday | friday | saturday | weekday_other (z : Z).
Inductive moon :=
  | january | february | march | april | may | june | july | august | september | october | november | december
  | moon_other (z : Z).

Definition weekday_of (z : Z) : weekday :=
  match z with
  | 0 => sunday | 1 => monday | 2 => tuesday | 3 => wednesday | 4 => thursday | 5 => friday | 6 => saturday
  | _ => weekday_other z
  end.
Definition weekday_Z (d : weekday) : Z :=
  match d with
  | sunday => 0 | monday => 1 | tuesday => 2 | wednesday => 3 | thursday => 4 | friday => 5 | saturday => 6
  | weekday_other z => z
  end.
Definition moon_of (z : Z) : moon :=
  match z with
  | 1 => january | 2 => february | 3 => march | 4 => april | 5 => may | 6 => june | 7 => july | 8 => august
  | 9 => september | 10 => october | 11 => november | 12 => december | _ => moon_other z
  end.
Definition moon_Z (m : moon) : Z :=
  match m with
  | january => 1 | february => 2 | march => 3 | april => 4 | may => 5 | june => 6 | july => 7 | august => 8
  | september => 9 | october => 10 | november => 11 | december => 12 | moon_other z => z
  end.

Definition sec : Z := 1.
Definition minute_secs : Z := 60 * sec.
Definition hour_secs : Z := 60 * minute_secs.
Definition day_secs : Z := 24 * hour_secs.
Definition week_secs : Z := 7 * day_secs.

(** ** Time zones *)

(** A string literal: its address, which is what the code compares, and its
    characters. *)
Record literal := Lit { addr : Z; chars : string }.
Record timezone_info := Tz
  { name : literal; abbreviation : string; hours_offset : Z; minutes_offset : Z; description : string }.

(** [struct tm]: a field is [None] while it is uninitialised. *)
Record tm := Tm
  { tm_sec : option Z; tm_min : option Z; tm_hour : option Z; tm_mday : option Z; tm_mon : option Z; tm_year : option Z }.
Definition tm_zero : tm := Tm (Some 0) (Some 0) (Some 0) (Some 0) (Some 0) (Some 0).
Definition tm_uninitialised : tm := Tm None None None None None None.

Record date_time (ptime : Type) := Dt { _tm : ptime }.
#[global] Arguments Dt {ptime}.
#[global] Arguments _tm {ptime}.

(** The zones of the header; each name is a literal of its own. *)
Module timezone.
Open Scope string_scope.
Open Scope Z_scope.
Definition BEIJING : timezone_info := Tz (Lit 1 "Asia/Shanghai") "CST" 8 0 "China Standard Time".
Definition HONG_KONG : timezone_info := Tz (Lit 2 "Asia/Hong_Kong") "HKT" 8 0 "Hong Kong Time".
Definition TOKYO : timezone_info := Tz (Lit 3 "Asia/Tokyo") "JST" 9 0 "Japan Standard Time".
Definition SEOUL : timezone_info := Tz (Lit 4 "Asia/Seoul") "KST" 9 0 "Korea Standard Time".
Definition MUMBAI : timezone_info := Tz (Lit 5 "Asia/Kolkata") "IST" 5 30 "India Standard Time".
Definition BANGKOK : timezone_info := Tz (Lit 6 "Asia/Bangkok") "ICT" 7 0 "Indochina Time".
Definition SINGAPORE : timezone_info := Tz (Lit 7 "Asia/Singapore") "SGT" 8 0 "Singapore Standard Time".
Definition DUBAI : timezone_info := Tz (Lit 8 "Asia/Dubai") "GST" 4 0 "Gulf Standard Time".
Definition LONDON : timezone_info := Tz (Lit 9 "Europe/London") "GMT" 0 0 "Greenwich Mean Time".
Definition BERLIN : timezone_info := Tz (Lit 10 "Europe/Berlin") "CET" 1 0 "Central European Time".
Definition PARIS : timezone_info := Tz (Lit 11 "Europe/Paris") "CET" 1 0 "Central European Time".
Definition ROME : timezone_info := Tz (Lit 12 "Europe/Rome") "CET" 1 0 "Central European Time".
Definition MOSCOW : timezone_info := Tz (Lit 13 "Europe/Moscow") "MSK" 3 0 "Moscow Standard Time".
Definition STOCKHOLM : timezone_info := Tz (Lit 14 "Europe/Stockholm") "CET" 1 0 "Central European Time".
Definition NEW_YORK : timezone_info := Tz (Lit 15 "America/New_York") "EST" (-5) 0 "Eastern Standard Time".
Definition CHICAGO : timezone_info := Tz (Lit 16 "America/Chicago") "CST" (-6) 0 "Central Standard Time".
Definition DENVER : timezone_info := Tz (Lit 17 "America/Denver") "MST" (-7) 0 "Mountain Standard Time".
Definition LOS_ANGELES : timezone_info := Tz (Lit 18 "America/Los_Angeles") "PST" (-8) 0 "Pacific Standard Time".
Definition TORONTO : timezone_info := Tz (Lit 19 "America/Toronto") "EST" (-5) 0 "Eastern Standard Time".
Definition SAO_PAULO : timezone_info := Tz (Lit 20 "America/Sao_Paulo") "BRT" (-3) 0 "Brazil Time".
Definition MEXICO_CITY : timezone_info := Tz (Lit 21 "America/Mexico_City") "CST" (-6) 0 "Central Standard Time".
Definition SYDNEY : timezone_info := Tz (Lit 22 "Australia/Sydney") "AEST" 10 0 "Australian Eastern Standard Time".
Definition MELBOURNE : timezone_info := Tz (Lit 23 "Australia/Melbourne") "AEST" 10 0 "Australian Eastern Standard Time".
Definition AUCKLAND : timezone_info := Tz (Lit 24 "Pacific/Auckland") "NZST" 12 0 "New Zealand Standard Time".
Definition PERTH : timezone_info := Tz (Lit 25 "Australia/Perth") "AWST" 8 0 "Australian Western Standard Time".
Definition CAIRO : timezone_info := Tz (Lit 26 "Africa/Cairo") "EET" 2 0 "Eastern European Time".
Definition JOHANNESBURG : timezone_info := Tz (Lit 27 "Africa/Johannesburg") "SAST" 2 0 "South Africa Standard Time".
Definition LAGOS : timezone_info := Tz (Lit 28 "Africa/Lagos") "WAT" 1 0 "West Africa Time".
Definition UTC : timezone_info := Tz (Lit 29 "UTC") "UTC" 0 0 "Coordinated Universal Time".
Definition LOCAL : timezone_info := Tz (Lit 30 "LOCAL") "LOCAL" 0 0 "Local Time".
End timezone.

(** ** The class *)

Module DateTime.
Section DateTime.
Context {date ptime : Type} (o : Boost.ops date ptime).
Abbreviation date_time := (date_time ptime).

(** [boost::gregorian::date(y, m, d)] takes [unsigned short]s. *)
Definition greg_date (y m d : Z) : option date := Boost.of_ymd o (wrap 16 y) (wrap 16 m) (wrap 16 d).
Definition NullTime : ptime := Boost.make o (Boost.pos_infin o) (Boost.time_duration o 0 0 0 0).
Definition date_of (dt : date_time) : date := Boost.date_of o (_tm dt).
Definition year_of (dt : date_time) : Z := Boost.year o (date_of dt).

(** *** Constructors *)

Definition null : date_time := Dt NullTime.
Definition copy (dt : date_time) : date_time := Dt (_tm dt).
(** [boost::posix_time::ptime_from_tm] reads every field. *)
Definition ptime_from_tm (t : tm) : option ptime :=
  let* y := tm_year t in let* mo := tm_mon t in let* d := tm_mday t in
  let* h := tm_hour t in let* mi := tm_min t in let* s := tm_sec t in Boost.from_tm o y mo d h mi s.
Definition of_tm (t : tm) (ms : Z) : option date_time :=
  let* p := ptime_from_tm t in
  let* us := mul long ms 1000 in Some (Dt (Boost.plus o p (Boost.time_duration o 0 0 0 us))).
Definition of_time_t (time ms : Z) : option date_time :=
  let* us := mul long ms 1000 in
  Some (Dt (Boost.plus o (Boost.from_time_t o time) (Boost.time_duration o 0 0 0 us))).
Definition of_ymd (year month day hour minute seconds ms : Z) : option date_time :=
  let* d := greg_date year month day in
  let* us := mul long ms 1000 in Some (Dt (Boost.make o d (Boost.time_duration o hour minute seconds us))).
Definition of_ptime (p : ptime) : date_time := Dt p.
Definition of_date_at (d : date) (hour minute seconds ms : Z) : option date_time :=
  let* us := mul long ms 1000 in Some (Dt (Boost.make o d (Boost.time_duration o hour minute seconds us))).
Definition of_date (d : date) : option date_time := of_date_at d 0 0 0 0.
(** [system_clock::time_point], in ticks of which there are [per_sec] in a second. *)
Definition of_time_point (per_sec ticks : Z) : option date_time := of_time_t (Z.quot ticks per_sec) 0.
Definition of_timeval (tv_sec tv_usec : Z) : option date_time :=
  let* us := mul long tv_usec 1000 in
  Some (Dt (Boost.plus o (Boost.from_time_t o tv_sec) (Boost.time_duration o 0 0 0 us))).

Definition assign (self dt : date_time) : date_time := Dt (_tm dt).

(** *** Comparisons *)

Definition eqb (self other : date_time) : bool := Boost.eqb o (_tm self) (_tm other).
Definition neqb (self other : date_time) : bool := negb (Boost.eqb o (_tm self) (_tm other)).
Definition ltb (self other : date_time) : bool := Boost.ltb o (_tm self) (_tm other).
Definition leb (self other : date_time) : bool := negb (Boost.ltb o (_tm other) (_tm self)).
Definition gtb (self other : date_time) : bool := Boost.ltb o (_tm other) (_tm self).
Definition geb (self other : date_time) : bool := negb (Boost.ltb o (_tm self) (_tm other)).
Definition is_bigger := gtb.
Definition is_smaller := ltb.
Definition is_equal := eqb.
Definition is_null (self : date_time) : bool := Boost.eqb o NullTime (_tm self).

(** *** Now *)

Definition now (c : clocks date ptime) (tz : timezone_info) : date_time :=
  if addr (name tz) =? addr (name timezone.UTC) then of_ptime (universal_time c)
  else if addr (name tz) =? addr (name timezone.LOCAL) then of_ptime (local_time c)
  else of_ptime (Boost.plus o (universal_time c) (Boost.time_duration o (hours_offset tz) (minutes_offset tz) 0 0)).
Definition today (c : clocks date ptime) (tz : timezone_info) : option date_time :=
  if addr (name tz) =? addr (name timezone.UTC) then of_date (universal_day c)
  else if addr (name tz) =? addr (name timezone.LOCAL) then of_date (local_day c)
  else
    let offset := Boost.time_duration o (hours_offset tz) (minutes_offset tz) 0 0 in
    of_date_at (universal_day c) (Boost.hours o offset) (Boost.minutes o offset) 0 0.

(** *** Seconds and milliseconds since the epoch *)

Definition epoch_time : option date_time := let* d := greg_date 1970 1 1 in Some (Dt (Boost.make o d 0)).
Definition sec_since_epoch (self : date_time) : option Z :=
  let* e := epoch_time in Some (Boost.total_seconds o (Boost.minus o (_tm self) (_tm e))).
Definition from_sec_since_epoch (sec : Z) : option date_time :=
  let* e := epoch_time in Some (Dt (Boost.plus o (_tm e) (Boost.seconds_of o sec))).
Definition current_sec_since_epoch (c : clocks date ptime) : option Z := sec_since_epoch (now c timezone.LOCAL).
Definition ms_since_epoch (self : date_time) : option Z :=
  let* e := epoch_time in Some (Boost.total_milliseconds o (Boost.minus o (_tm self) (_tm e))).
Definition from_ms_since_epoch (ms : Z) : option date_time :=
  let* e := epoch_time in Some (Dt (Boost.plus o (_tm e) (Boost.milliseconds_of o ms))).
Definition current_ms_since_epoch (c : clocks date ptime) : option Z := ms_since_epoch (now c timezone.LOCAL).

(** *** Fields *)

Definition time (self : date_time) : Z := Boost.to_time_t o (_tm self).
Definition seconds (self : date_time) : Z := Boost.seconds o (Boost.time_of_day o (_tm self)).
Definition minute (self : date_time) : Z := Boost.minutes o (Boost.time_of_day o (_tm self)).
Definition hour (self : date_time) : Z := Boost.hours o (Boost.time_of_day o (_tm self)).
Definition day (self : date_time) : Z := Boost.day o (date_of self).
Definition seconds_to (self dt : date_time) : Z := Boost.total_seconds o (Boost.minus o (_tm dt) (_tm self)).
Definition minutes_to (self dt : date_time) : Z := Z.quot (Boost.total_seconds o (Boost.minus o (_tm dt) (_tm self))) 60.
Definition hours_to (self dt : date_time) : Z := Z.quot (Boost.total_seconds o (Boost.minus o (_tm dt) (_tm self))) 3600.
Definition days_to (self dt : date_time) : Z := Z.quot (Boost.total_seconds o (Boost.minus o (_tm dt) (_tm self))) 86400.
Definition day_of_week (self : date_time) : weekday :=
  if is_null self then sunday else weekday_of (Boost.day_of_week o (date_of self)).
Definition day_of_week_str (self : date_time) : string :=
  (if is_null self then "???" else
   match day_of_week self with
   | monday => "Mon" | tuesday => "Tue" | wednesday => "Wed" | thursday => "Thu" | friday => "Fri"
   | saturday => "Sat" | sunday => "Sun" | weekday_other _ => "???"
   end)%string.
Definition day_of_month (self : date_time) : Z := Boost.day o (date_of self).
Definition day_of_year (self : date_time) : Z := Boost.day_of_year o (date_of self).
Definition month (self : date_time) : moon := if is_null self then january else moon_of (Boost.month o (date_of self)).
Definition month_str (self : date_time) : string :=
  (if is_null self then "???" else
   match month self with
   | january => "January" | february => "February" | march => "March" | april => "April" | may => "May" | june => "June"
   | july => "July" | august => "August" | september => "September" | october => "October" | november => "November"
   | december => "December" | moon_other _ => "???"
   end)%string.
Definition year (self : date_time) : Z := Boost.year o (date_of self).
Definition is_weekend (self : date_time) : bool :=
  match weekday_of (Boost.day_of_week o (date_of self)) with saturday | sunday => true | _ => false end.

(** *** Boundaries *)

Definition start_of_day (self : date_time) : option date_time := of_date (date_of self).
Definition end_of_day (self : date_time) : option date_time :=
  let d := date_of self in of_ymd (Boost.year o d) (Boost.month o d) (Boost.day o d) 23 59 59 0.
Definition start_of_week (self : date_time) : option date_time :=
  match day_of_week self with
  | sunday => let* d := of_date (Boost.plus_days o (date_of self) (-6)) in start_of_day d
  | w => let* d := of_date (Boost.plus_days o (date_of self) (1 - weekday_Z w)) in start_of_day d
  end.
Definition end_of_week (self : date_time) : option date_time :=
  match day_of_week self with
  | sunday => of_date_at (date_of self) 23 59 59 0
  | w => of_date_at (Boost.plus_days o (date_of self) (7 - weekday_Z w)) 23 59 59 0
  end.
Definition start_of_month (self : date_time) : option date_time := of_ymd (year self) (moon_Z (month self)) 1 0 0 0 0.
Definition end_of_month (self : date_time) : option date_time :=
  of_date_at (Boost.end_of_month o (date_of self)) 23 59 59 0.
Definition start_of_quarter (self : date_time) : option date_time :=
  let m := moon_Z (month self) in
  if m <=? 3 then of_ymd (year self) 1 1 0 0 0 0 else if m <=? 6 then of_ymd (year self) 4 1 0 0 0 0
  else if m <=? 9 then of_ymd (year self) 7 1 0 0 0 0 else of_ymd (year self) 10 1 0 0 0 0.
Definition end_of_quarter (self : date_time) : option date_time :=
  let m := moon_Z (month self) in
  if m <=? 3 then of_ymd (year self) 3 31 23 59 59 0 else if m <=? 6 then of_ymd (year self) 6 30 23 59 59 0
  else if m <=? 9 then of_ymd (year self) 9 30 23 59 59 0 else of_ymd (year self) 12 31 23 59 59 0.
Definition start_of_half_year (self : date_time) : option date_time :=
  if moon_Z (month self) <=? moon_Z june then of_ymd (year self) 1 1 0 0 0 0 else of_ymd (year self) 7 1 0 0 0 0.
Definition end_of_half_year (self : date_time) : option date_time :=
  if moon_Z (month self) <=? moon_Z june then of_ymd (year self) 6 30 23 59 59 0 else of_ymd (year self) 12 31 23 59 59 0.
Definition start_of_year (self : date_time) : option date_time := of_ymd (year self) 1 1 0 0 0 0.
Definition end_of_year (self : date_time) : option date_time := of_ymd (year self) 12 31 23 59 59 0.

(** *** Days *)

Definition next_day (self : date_time) (n : Z) : option date_time :=
  of_date (Boost.plus_days o (date_of self) (convert long n)).
Definition pre_day (self : date_time) (n : Z) : option date_time :=
  of_date (Boost.plus_days o (date_of self) (- convert long n)).
(** The arithmetic is on [unsigned long]s. *)
Definition next_weekday (self : date_time) (target_day : weekday) (n_week : Z) : option date_time :=
  let current_day := convert ulong (weekday_Z (day_of_week self)) in
  let target := convert ulong (weekday_Z target_day) in
  if current_day <? target then next_day self (convert ulong (target - current_day + n_week * 7))
  else next_day self (convert ulong (7 - (current_day - target) + n_week * 7)).
Definition pre_weekday (self : date_time) (target_day : weekday) (n_week : Z) : option date_time :=
  let current_day := convert ulong (weekday_Z (day_of_week self)) in
  let target := convert ulong (weekday_Z target_day) in
  if target <? current_day then pre_day self (convert ulong (current_day - target + n_week * 7))
  else pre_day self (convert ulong (7 - (target - current_day) + n_week * 7)).

(** *** Working days *)

(** The function [get_working_day_func] starts with, and the virtual call of
    whatever it has been set to. *)
Definition default_working_day (dt : date_time) : bool :=
  match weekday_of (Boost.day_of_week o (date_of dt)) with saturday | sunday => false | _ => true end.

Section Working.
Variable get_working_day_func : date_time -> bool.

Definition is_working_day (self : date_time) : bool := get_working_day_func self.
(** [while(!current.is_working_day()) current = step(current)], where [step] is
    [next_day(1)] or [pre_day(1)]. *)
Fixpoint find_working_day (step : date_time -> option date_time) (fuel : nat) (current : date_time) : option date_time :=
  match fuel with
  | O => None
  | S fuel =>
      if negb (is_working_day current) then let* c := step current in find_working_day step fuel c else Some current
  end.
(** The loop of the other branch: [count] is an [unsigned long]. *)
Fixpoint count_working_days (step : date_time -> option date_time) (n_day : Z) (fuel : nat) (count : Z) (current : date_time) : option date_time :=
  match fuel with
  | O => None
  | S fuel =>
      if is_working_day current then
        let count := convert ulong (count + 1) in
        if count =? n_day then Some current
        else let* c := step current in count_working_days step n_day fuel count c
      else let* c := step current in count_working_days step n_day fuel count c
  end.
Definition next_working_day (fuel : nat) (self : date_time) (n_day : Z) : option date_time :=
  let step d := next_day d 1 in
  let* current := next_day self 1 in
  if n_day =? 0 then find_working_day step fuel current else count_working_days step n_day fuel 0 current.
Definition pre_working_day (fuel : nat) (self : date_time) (n_day : Z) : option date_time :=
  let step d := pre_day d 1 in
  let* current := pre_day self 1 in
  if n_day =? 0 then find_working_day step fuel current else count_working_days step n_day fuel 0 current.
End Working.

(** *** Months, quarters, half years, years *)

Definition next_month (self : date_time) (n : Z) : option date_time :=
  let target_date := Boost.plus_months o (date_of self) (convert int n) in
  let* d := greg_date (Boost.year o target_date) (Boost.month o target_date) 1 in of_date d.
Definition pre_month (self : date_time) (n : Z) : option date_time :=
  let target_date := Boost.plus_months o (date_of self) (- convert int n) in
  let* d := greg_date (Boost.year o target_date) (Boost.month o target_date) 1 in of_date d.

(** [while(target < 0) { target += per_year; year--; }] *)
Fixpoint borrow_years (per_year : Z) (fuel : nat) (target target_year : Z) : option (Z * Z) :=
  match fuel with
  | O => None
  | S fuel =>
      if target <? 0 then
        let* target := add int target per_year in
        let* target_year := sub int target_year 1 in borrow_years per_year fuel target target_year
      else Some (target, target_year)
  end.
Definition next_quarter (self : date_time) (n : Z) : option date_time :=
  let current_month := Boost.month o (date_of self) in
  let current_quarter := Z.quot (current_month - 1) 3 in
  let target_quarter := convert int (convert ulong (current_quarter + n)) in
  let* target_year := add int (Boost.year o (date_of self)) (Z.quot target_quarter 4) in
  let target_quarter := Z.rem target_quarter 4 in
  let target_month := target_quarter * 3 + 1 in
  let* d := greg_date target_year target_month 1 in of_date d.
Definition pre_quarter (self : date_time) (n : Z) : option date_time :=
  let current_month := Boost.month o (date_of self) in
  let current_quarter := Z.quot (current_month - 1) 3 in
  let target_quarter := convert int (convert ulong (current_quarter - n)) in
  let* (target_quarter, target_year) :=
    borrow_years 4 (S (Z.to_nat (- target_quarter))) target_quarter (Boost.year o (date_of self)) in
  let target_month := target_quarter * 3 + 1 in
  let* d := greg_date target_year target_month 1 in of_date d.
Definition next_half_year (self : date_time) (n : Z) : option date_time :=
  let current_month := Boost.month o (date_of self) in
  let current_half := Z.quot (current_month - 1) 6 in
  let target_half := convert int (convert ulong (current_half + n)) in
  let* target_year := add int (Boost.year o (date_of self)) (Z.quot target_half 2) in
  let target_half := Z.rem target_half 2 in
  let target_month := target_half * 6 + 1 in
  let* d := greg_date target_year target_month 1 in of_date d.
Definition pre_half_year (self : date_time) (n : Z) : option date_time :=
  let current_month := Boost.month o (date_of self) in
  let current_half := Z.quot (current_month - 1) 6 in
  let target_half := convert int (convert ulong (current_half - n)) in
  let* (target_half, target_year) :=
    borrow_years 2 (S (Z.to_nat (- target_half))) target_half (Boost.year o (date_of self)) in
  let target_month := target_half * 6 + 1 in
  let* d := greg_date target_year target_month 1 in of_date d.
Definition next_year (self : date_time) (n : Z) : option date_time :=
  let target_year := convert int (convert ulong (Boost.year o (date_of self) + n)) in
  let* d := greg_date target_year 1 1 in of_date d.
Definition pre_year (self : date_time) (n : Z) : option date_time :=
  let target_year := convert int (convert ulong (Boost.year o (date_of self) - n)) in
  let* d := greg_date target_year 1 1 in of_date d.

(** *** Text *)

(** [strftime], [strptime], [std::get_time], which fills the fields its format
    names and may fail, and [boost::posix_time::to_tm]. *)
Section Text.
Context (strftime : string -> tm -> string) (strptime : string -> string -> tm -> tm)
  (get_time : string -> string -> tm -> option tm) (to_tm : ptime -> option tm).

Definition TIME_FMT : string := "%Y-%m-%d %H:%M:%S".
(** [strftime(buf, sz, fmt, &tm)]: nothing can be read of [buf] when the text
    and its terminator do not fit. *)
Definition strftime_buf (sz : nat) (fmt : string) (t : tm) : option string :=
  let text := strftime fmt t in if (String.length text <? sz)%nat then Some text else None.
Definition format_buf (dt : date_time) (sz : nat) (fmt : string) : option string :=
  let* t := to_tm (_tm dt) in strftime_buf sz fmt t.
Definition format (dt : date_time) (fmt : string) : option string :=
  let* t := to_tm (_tm dt) in strftime_buf 256 fmt t.
Definition string_of (self : date_time) (fmt : string) : option string :=
  let* t := to_tm (_tm self) in strftime_buf 256 fmt t.
Definition date_fields (self : date_time) : option tm := to_tm (_tm self).
Definition of_string (str fmt : string) : option date_time :=
  match get_time str fmt tm_zero with
  | Some t => let* p := ptime_from_tm t in Some (Dt p)
  | None => Some (Dt (Boost.not_a_date_time o))
  end.
Definition of_cstring (str fmt : string) : option date_time :=
  let* p := ptime_from_tm (strptime str fmt tm_uninitialised) in Some (Dt p).
Definition parse (str fmt : string) : option date_time :=
  match get_time str fmt tm_uninitialised with None => Some (Dt NullTime) | Some t => of_tm t 0 end.
Definition parse_into (dt : date_time) (str fmt : string) : option date_time :=
  match get_time str fmt tm_uninitialised with
  | None => Some dt
  | Some t => let* p := ptime_from_tm t in Some (Dt p)
  end.
End Text.
End DateTime.
End DateTime.
