(* ===== verification/Calendar.v ===== *)
(** * The calendar that dates rely on

    The laws of the interface of [DateTime], as the documentation of
    [boost::date_time] states them: the Gregorian calendar from 1400 to 9999,
    days counted from 1 January 1970 by [num], moments counted in microseconds by
    [us], both [None] on special values; and the calendar itself as an instance,
    which the witnesses use. *)

From Stdlib Require Import ZArith Lia List Bool.
From stdpp Require Import base tactics option.
From S2P Require Import Prelude Ints DateTime.

Open Scope hj_scope.
Open Scope Z_scope.

(** ** Laws *)

Definition leap (y : Z) : bool := (y mod 4 =? 0) && (negb (y mod 100 =? 0) || (y mod 400 =? 0)).
Definition last_day (y m : Z) : Z :=
  match m with 2 => if leap y then 29 else 28 | 4 | 6 | 9 | 11 => 30 | _ => 31 end.
Definition valid_ymd (y m d : Z) : Prop := 1400 <= y <= 9999 /\ 1 <= m <= 12 /\ 1 <= d <= last_day y m.

(** 1 January 1400 and 31 December 9999. *)
Definition min_day : Z := -208188.
Definition max_day : Z := 2932896.
Definition DAY : Z := 86400000000.
Definition in_days (n : Z) : Prop := min_day <= n <= max_day.
Definition in_time (t : Z) : Prop := min_day * DAY <= t < (max_day + 1) * DAY.

(** Lexicographic order. *)
Definition before (y m d y' m' d' : Z) : Prop := y < y' \/ (y = y' /\ (m < m' \/ (m = m' /\ d < d'))).

Class BoostLaws {date ptime : Type} (o : Boost.ops date ptime) (num : date -> option Z) (us : ptime -> option Z) : Prop :=
  { law_range d n : num d = Some n -> in_days n;
    law_fields d n : num d = Some n -> valid_ymd (Boost.year o d) (Boost.month o d) (Boost.day o d);
    law_ymd y m d : valid_ymd y m d -> exists x n, Boost.of_ymd o y m d = Some x /\ num x = Some n
      /\ Boost.year o x = y /\ Boost.month o x = m /\ Boost.day o x = d;
    law_ymd_bad y m d : ~ valid_ymd y m d -> Boost.of_ymd o y m d = None;
    law_before d n d' n' : num d = Some n -> num d' = Some n' ->
      n < n' <-> before (Boost.year o d) (Boost.month o d) (Boost.day o d) (Boost.year o d') (Boost.month o d') (Boost.day o d');
    law_epoch d : Boost.of_ymd o 1970 1 1 = Some d -> num d = Some 0;
    law_weekday d n : num d = Some n -> Boost.day_of_week o d = (n + 4) mod 7;
    law_end_of_month d n : num d = Some n -> exists n', num (Boost.end_of_month o d) = Some n'
      /\ Boost.year o (Boost.end_of_month o d) = Boost.year o d /\ Boost.month o (Boost.end_of_month o d) = Boost.month o d
      /\ Boost.day o (Boost.end_of_month o d) = last_day (Boost.year o d) (Boost.month o d);
    law_plus_days d n k : num d = Some n -> in_days (n + k) -> num (Boost.plus_days o d k) = Some (n + k);
    law_plus_months d n k : num d = Some n ->
      let i := 12 * Boost.year o d + (Boost.month o d - 1) + k in 1400 <= i / 12 <= 9999 ->
      exists n', num (Boost.plus_months o d k) = Some n' /\ Boost.year o (Boost.plus_months o d k) = i / 12
        /\ Boost.month o (Boost.plus_months o d k) = i mod 12 + 1;
    law_make d n u : num d = Some n -> in_time (n * DAY + u) -> us (Boost.make o d u) = Some (n * DAY + u);
    law_us_range p t : us p = Some t -> in_time t;
    law_date_of p t : us p = Some t -> num (Boost.date_of o p) = Some (t / DAY) /\ Boost.time_of_day o p = t mod DAY;
    law_plus p t k : us p = Some t -> in_time (t + k) -> us (Boost.plus o p k) = Some (t + k);
    law_minus p t q u : us p = Some t -> us q = Some u -> Boost.minus o p q = t - u;
    law_compare p t q u : us p = Some t -> us q = Some u -> Boost.eqb o p q = (t =? u) /\ Boost.ltb o p q = (t <? u);
    law_null p t : us p = Some t -> Boost.eqb o (Boost.make o (Boost.pos_infin o) 0) p = false;
    law_null_null : Boost.eqb o (Boost.make o (Boost.pos_infin o) 0) (Boost.make o (Boost.pos_infin o) 0) = true;
    law_null_nadt : Boost.eqb o (Boost.make o (Boost.pos_infin o) 0) (Boost.not_a_date_time o) = false;
    law_from_time_t s : in_time (s * 10 ^ 6) -> us (Boost.from_time_t o s) = Some (s * 10 ^ 6);
    law_duration h m s f : 0 <= h /\ 0 <= m /\ 0 <= s /\ 0 <= f \/ h <= 0 /\ m <= 0 /\ s <= 0 /\ f <= 0 ->
      Boost.time_duration o h m s f = (h * 3600 + m * 60 + s) * 10 ^ 6 + f;
    law_seconds_of s : Z.abs s <= 9 * 10 ^ 12 -> Boost.seconds_of o s = s * 10 ^ 6;
    law_milliseconds_of s : Z.abs s <= 9 * 10 ^ 15 -> Boost.milliseconds_of o s = s * 10 ^ 3;
    law_totals t : Boost.total_seconds o t = Z.quot t (10 ^ 6) /\ Boost.total_milliseconds o t = Z.quot t (10 ^ 3);
    law_clock t : 0 <= t -> Boost.hours o t = t / (3600 * 10 ^ 6) /\ Boost.minutes o t = t / (60 * 10 ^ 6) mod 60
      /\ Boost.seconds o t = t / 10 ^ 6 mod 60 }.

(** ** The Gregorian calendar *)

Module Gregorian.
(** Days before 1 January of year [y], from 1 January of year 1. *)
Definition year_start (y : Z) : Z := 365 * (y - 1) + (y - 1) / 4 - (y - 1) / 100 + (y - 1) / 400.
Definition epoch : Z := 719162.
Definition month_start (y m : Z) : Z :=
  match m with 1 => 0 | 2 => 31 | 3 => 59 | 4 => 90 | 5 => 120 | 6 => 151 | 7 => 181 | 8 => 212 | 9 => 243 | 10 => 273 | 11 => 304 | _ => 334 end
  + (if (2 <? m) && leap y then 1 else 0).
Definition number (y m d : Z) : Z := year_start y + month_start y m + d - 1 - epoch.

Definition year (n : Z) : Z :=
  let k := n + epoch in
  let g := 400 * k / 146097 + 1 in
  if k <? year_start g then g - 1 else if year_start (g + 1) <=? k then g + 1 else g.
Definition month (n : Z) : Z :=
  let y := year n in
  let k := n + epoch - year_start y in
  if k <? month_start y 2 then 1 else if k <? month_start y 3 then 2 else if k <? month_start y 4 then 3
  else if k <? month_start y 5 then 4 else if k <? month_start y 6 then 5 else if k <? month_start y 7 then 6
  else if k <? month_start y 8 then 7 else if k <? month_start y 9 then 8 else if k <? month_start y 10 then 9
  else if k <? month_start y 11 then 10 else if k <? month_start y 12 then 11 else 12.
Definition day (n : Z) : Z := n + epoch - year_start (year n) - month_start (year n) (month n) + 1.

Definition valid (y m d : Z) : bool :=
  (1400 <=? y) && (y <=? 9999) && (1 <=? m) && (m <=? 12) && (1 <=? d) && (d <=? last_day y m).

Lemma year_start_next y : year_start (y + 1) = year_start y + (if leap y then 366 else 365).
Proof.
  unfold year_start, leap. replace (y + 1 - 1) with (y - 1 + 1) by lia.
  destruct (Z.eqb_spec (y mod 4) 0), (Z.eqb_spec (y mod 100) 0), (Z.eqb_spec (y mod 400) 0); cbn [andb orb negb]; Z.to_euclidean_division_equations; lia.
Qed.

Lemma year_bounds n : year_start (year n) <= n + epoch < year_start (year n + 1).
Proof.
  unfold year. set (k := n + epoch). set (g := 400 * k / 146097 + 1).
  assert (year_start (g - 1) <= k < year_start (g + 2)).
  { unfold g, year_start. clear. Z.to_euclidean_division_equations. lia. }
  destruct (Z.ltb_spec k (year_start g)).
  - replace (g - 1 + 1) with g by lia. lia.
  - destruct (Z.leb_spec (year_start (g + 1)) k); [|lia]. replace (g + 1 + 1) with (g + 2) by lia. lia.
Qed.

Lemma year_start_mono y y' : y <= y' -> year_start y <= year_start y'.
Proof. unfold year_start. intros H. Z.to_euclidean_division_equations. lia. Qed.

Lemma year_unique n y : year_start y <= n + epoch < year_start (y + 1) -> year n = y.
Proof.
  intros H. pose proof (year_bounds n). destruct (Z.lt_trichotomy (year n) y) as [L|[E|L]]; [|exact E|].
  - pose proof (year_start_mono (year n + 1) y ltac:(lia)). lia.
  - pose proof (year_start_mono (y + 1) (year n) ltac:(lia)). lia.
Qed.

(** Comparisons with the first days of given months. *)
Ltac by_month y := cbv iota; unfold month_start, last_day in *; cbn -[leap Z.lt Z.le] in *; destruct (leap y); lia.
(** The twelve cases of a month. *)
Ltac months m :=
  let E := fresh in
  assert (m = 1 \/ m = 2 \/ m = 3 \/ m = 4 \/ m = 5 \/ m = 6 \/ m = 7 \/ m = 8 \/ m = 9 \/ m = 10 \/ m = 11 \/ m = 12) as E by lia;
  repeat destruct E as [E|E]; subst m.

Lemma last_day_bounds y m : 28 <= last_day y m <= 31.
Proof. unfold last_day. repeat break_match; lia. Qed.

Lemma month_bounds n : let y := year n in let m := month n in let k := n + epoch - year_start y in
  1 <= m <= 12 /\ month_start y m <= k < month_start y m + last_day y m.
Proof.
  intros y m k. pose proof (year_bounds n) as Hy. fold y in Hy. rewrite year_start_next in Hy.
  assert (Hk : 0 <= k < if leap y then 366 else 365) by lia.
  unfold m, month. fold y. fold k. clearbody k. clear Hy m.
  repeat (match goal with |- context [k <? ?x] => destruct (Z.ltb_spec k x) end; [by_month y|]); by_month y.
Qed.

Lemma month_unique n m : let y := year n in let k := n + epoch - year_start y in
  1 <= m <= 12 -> month_start y m <= k < month_start y m + last_day y m -> month n = m.
Proof.
  intros y k Hm Hk. unfold month. fold y. fold k. clearbody k.
  months m; repeat (match goal with |- context [k <? ?x] => destruct (Z.ltb_spec k x) end); try by_month y; reflexivity.
Qed.

Lemma month_start_bounds y m : 1 <= m <= 12 -> 0 <= month_start y m /\ month_start y m + last_day y m <= if leap y then 366 else 365.
Proof.
  intros Hm. months m; by_month y.
Qed.

Lemma number_fields y m d : 1 <= m <= 12 -> 1 <= d <= last_day y m ->
  year (number y m d) = y /\ month (number y m d) = m /\ day (number y m d) = d.
Proof.
  intros Hm Hd. pose proof (month_start_bounds y m Hm) as Hb. pose proof (year_start_next y) as Hn.
  assert (Ey : year (number y m d) = y) by (apply year_unique; unfold number; lia).
  assert (Em : month (number y m d) = m).
  { apply month_unique; [lia|]. rewrite Ey. unfold number. lia. }
  split_and!; [exact Ey|exact Em|]. unfold day. rewrite Ey, Em. unfold number. lia.
Qed.

Lemma number_of_fields n : number (year n) (month n) (day n) = n.
Proof. unfold number, day. lia. Qed.

Lemma fields_valid n : 1 <= month n <= 12 /\ 1 <= day n <= last_day (year n) (month n).
Proof. destruct (month_bounds n) as [Hm Hk]. unfold day. lia. Qed.

Lemma fields_in_range n : in_days n -> 1400 <= year n <= 9999.
Proof.
  intros [H1 H2]. pose proof (year_bounds n) as Hb. unfold min_day, max_day, epoch in *. split.
  - destruct (Z.lt_ge_cases (year n) 1400); [|lia]. pose proof (year_start_mono (year n + 1) 1400 ltac:(lia)).
    change (year_start 1400) with 510974 in *. lia.
  - destruct (Z.lt_ge_cases 9999 (year n)); [|lia]. pose proof (year_start_mono 10000 (year n) ltac:(lia)).
    change (year_start 10000) with 3652059 in *. lia.
Qed.

Lemma number_in_range y m d : valid_ymd y m d -> in_days (number y m d).
Proof.
  intros (Hy & Hm & Hd). pose proof (month_start_bounds y m Hm) as Hb. pose proof (year_start_next y) as Hn.
  pose proof (year_start_mono 1400 y ltac:(lia)) as H1. pose proof (year_start_mono (y + 1) 10000 ltac:(lia)) as H2.
  change (year_start 1400) with 510974 in *. change (year_start 10000) with 3652059 in *.
  unfold in_days, min_day, max_day, number, epoch. lia.
Qed.

(** Numbers are in the order of the fields. *)
Lemma before_number y m d y' m' d' : 1 <= m <= 12 -> 1 <= d <= last_day y m -> 1 <= m' <= 12 -> 1 <= d' <= last_day y' m' ->
  before y m d y' m' d' -> number y m d < number y' m' d'.
Proof.
  intros Hm Hd Hm' Hd' B. unfold number. destruct B as [L|[-> [L|[-> L]]]]; [| |lia].
  - pose proof (month_start_bounds y m Hm). pose proof (month_start_bounds y' m' Hm'). pose proof (year_start_next y).
    pose proof (year_start_mono (y + 1) y' ltac:(lia)). lia.
  - assert (month_start y' m + last_day y' m <= month_start y' m'); [|lia].
    clear Hd Hd'. months m; months m'; try lia; by_month y'.
Qed.

Lemma before_trichotomy y m d y' m' d' : before y m d y' m' d' \/ (y = y' /\ m = m' /\ d = d') \/ before y' m' d' y m d.
Proof. unfold before. lia. Qed.

Lemma number_before n n' : n < n' <-> before (year n) (month n) (day n) (year n') (month n') (day n').
Proof.
  pose proof (fields_valid n) as [Hm Hd]. pose proof (fields_valid n') as [Hm' Hd'].
  rewrite <- (number_of_fields n) at 1. rewrite <- (number_of_fields n') at 1. split; [|now apply before_number].
  intros L. destruct (before_trichotomy (year n) (month n) (day n) (year n') (month n') (day n')) as [B|[(E1 & E2 & E3)|B]]; [exact B| |].
  - rewrite E1, E2, E3 in L. lia.
  - apply before_number in B; [lia|assumption..].
Qed.

(** *** The instance *)

Definition date : Type := option Z.
Definition ptime : Type := option (option Z).
Definition day_number (d : date) : Z := match d with Some n => n | None => 0 end.
Definition micros (p : ptime) : Z := match p with Some (Some t) => t | _ => 0 end.
Definition num (d : date) : option Z :=
  let* n := d in if (min_day <=? n) && (n <=? max_day) then Some n else None.
Definition us (p : ptime) : option Z :=
  let* q := p in let* t := q in if (min_day * DAY <=? t) && (t <? (max_day + 1) * DAY) then Some t else None.

Definition of_ymd (y m d : Z) : option date := if valid y m d then Some (Some (number y m d)) else None.
Definition calendar : Boost.ops date ptime :=
  Boost.Ops of_ymd (fun d => year (day_number d)) (fun d => month (day_number d)) (fun d => day (day_number d))
    (fun d => (day_number d + 4) mod 7) (fun d => let n := day_number d in n + epoch - year_start (year n) + 1)
    (fun d => let n := day_number d in Some (number (year n) (month n) (last_day (year n) (month n))))
    (fun d k => Some (day_number d + k))
    (fun d k => let n := day_number d in let i := 12 * year n + (month n - 1) + k in
       let y := i / 12 in let m := i mod 12 + 1 in Some (number y m (Z.min (day n) (last_day y m))))
    None
    (fun d u => Some (match d with Some n => Some (n * DAY + u) | None => None end))
    (fun p k => Some (Some (micros p + k))) (fun p q => micros p - micros q)
    (fun p => Some (micros p / DAY)) (fun p => micros p mod DAY)
    (fun p q => bool_decide (p = q)) (fun p q => micros p <? micros q)
    None (fun s => Some (Some (s * 10 ^ 6))) (fun p => micros p / 10 ^ 6)
    (fun y mo d h mi s => let* n := of_ymd (y + 1900) (mo + 1) d in
       Some (Some (Some (day_number n * DAY + (h * 3600 + mi * 60 + s) * 10 ^ 6))))
    (fun h m s f => (h * 3600 + m * 60 + s) * 10 ^ 6 + f) (fun s => s * 10 ^ 6) (fun s => s * 10 ^ 3)
    (fun t => Z.quot t (10 ^ 6)) (fun t => Z.quot t (10 ^ 3))
    (fun t => t / (3600 * 10 ^ 6)) (fun t => t / (60 * 10 ^ 6) mod 60) (fun t => t / 10 ^ 6 mod 60).

Lemma num_Some d n : num d = Some n <-> d = Some n /\ in_days n.
Proof.
  unfold num, in_days. destruct d as [x|]; [|now split; [|intros [? _]]]. destruct (Z.leb_spec min_day x), (Z.leb_spec x max_day); cbn [andb];
    split; try (intros [E ?]; simplify_eq; lia); intros E; simplify_eq; (split; [reflexivity|lia]) || (destruct E; simplify_eq; reflexivity).
Qed.

Lemma us_Some p t : us p = Some t <-> p = Some (Some t) /\ in_time t.
Proof.
  unfold us, in_time. destruct p as [[x|]|]; [|now split; [|intros [? _]]..]. destruct (Z.leb_spec (min_day * DAY) x), (Z.ltb_spec x ((max_day + 1) * DAY)); cbn [andb];
    split; try (intros [E ?]; simplify_eq; lia); intros E; simplify_eq; (split; [reflexivity|lia]) || (destruct E; simplify_eq; reflexivity).
Qed.

Lemma valid_spec y m d : valid y m d = true <-> valid_ymd y m d.
Proof. unfold valid, valid_ymd. rewrite !andb_true_iff, !Z.leb_le. tauto. Qed.

Lemma in_time_day t : in_time t -> in_days (t / DAY).
Proof. unfold in_time, in_days, min_day, max_day, DAY. Z.to_euclidean_division_equations. lia. Qed.

#[export] Instance calendar_laws : BoostLaws calendar num us.
Proof.
  split; cbn [calendar Boost.of_ymd Boost.year Boost.month Boost.day Boost.day_of_week Boost.end_of_month Boost.plus_days Boost.plus_months
    Boost.make Boost.plus Boost.minus Boost.date_of Boost.time_of_day Boost.eqb Boost.ltb Boost.pos_infin Boost.not_a_date_time Boost.from_time_t
    Boost.time_duration Boost.seconds_of Boost.milliseconds_of Boost.total_seconds Boost.total_milliseconds Boost.hours Boost.minutes Boost.seconds].
  - now intros d n [-> H]%num_Some.
  - intros d n [-> H]%num_Some. split; [now apply fields_in_range|]. apply fields_valid.
  - intros y m d H. exists (Some (number y m d)), (number y m d). unfold of_ymd. rewrite (proj2 (valid_spec y m d) H).
    split; [reflexivity|]. split; [apply num_Some; split; [reflexivity|now apply number_in_range]|]. now apply number_fields; apply H.
  - intros y m d H. unfold of_ymd. destruct (valid y m d) eqn:E; [|reflexivity]. now apply valid_spec in E.
  - intros d n d' n' [-> _]%num_Some [-> _]%num_Some. apply number_before.
  - intros d. vm_compute (of_ymd _ _ _). intros [= <-]. reflexivity.
  - now intros d n [-> H]%num_Some.
  - intros d n [-> H]%num_Some. cbn [day_number]. pose proof (fields_valid n) as [Hm Hd]. pose proof (last_day_bounds (year n) (month n)).
    destruct (number_fields (year n) (month n) (last_day (year n) (month n)) Hm ltac:(lia)) as (E1 & E2 & E3).
    eexists. split; [apply num_Some; split; [reflexivity|apply number_in_range]|cbn [day_number]; now rewrite E1, E2, E3].
    split; [now apply fields_in_range|lia].
  - intros d n k [-> _]%num_Some H. now apply num_Some.
  - intros d n k [-> H]%num_Some. cbn [day_number]. set (i := 12 * year n + (month n - 1) + k). intros Hi. pose proof (Z.mod_pos_bound i 12 ltac:(lia)) as Hm.
    pose proof (last_day_bounds (i / 12) (i mod 12 + 1)). pose proof (fields_valid n) as [_ Hd].
    destruct (number_fields (i / 12) (i mod 12 + 1) (Z.min (day n) (last_day (i / 12) (i mod 12 + 1))) ltac:(lia) ltac:(lia)) as (E1 & E2 & E3).
    eexists. split; [apply num_Some; split; [reflexivity|apply number_in_range; repeat split; lia]|cbn [day_number]; now rewrite E1, E2].
  - intros d n u [-> _]%num_Some H. now apply us_Some.
  - now intros p t [_ H]%us_Some.
  - intros p t [-> H]%us_Some. split; [|reflexivity]. apply num_Some. split; [reflexivity|now apply in_time_day].
  - intros p t k [-> _]%us_Some H. now apply us_Some.
  - now intros p t q u [-> _]%us_Some [-> _]%us_Some.
  - intros p t q u [-> _]%us_Some [-> _]%us_Some. split; [|reflexivity]. destruct (Z.eqb_spec t u) as [->|N].
    + now apply bool_decide_eq_true.
    + apply bool_decide_eq_false. congruence.
  - now intros p t [-> _]%us_Some.
  - reflexivity.
  - reflexivity.
  - intros s H. now apply us_Some.
  - reflexivity.
  - reflexivity.
  - reflexivity.
  - intros t. now split.
  - intros t _. now repeat split.
Qed.
End Gregorian.
