(* ===== verification/DateTimeThm.v ===== *)
(** * Dates and times: theorems

    For moments between 1400 and 9999: the boundaries of a period hold exactly
    the moments of the period, the steps by months, quarters, half years and
    years reach the first moment of the period so many later or earlier, or fail
    at the ends of the calendar; steps by weekdays and working days; conversions
    to seconds and milliseconds; the order.  The witnesses use the Gregorian
    calendar. *)

From Stdlib Require Import ZArith Lia List Bool String.
From stdpp Require Import base tactics option.
From S2P Require Import Prelude Ints DateTime Calendar.

Open Scope hj_scope.
Open Scope Z_scope.
Import DateTime.DateTime.

Lemma convert_ulong z : 0 <= z < 2 ^ 64 -> convert ulong z = z.
Proof. intros H. apply convert_id; [cbn; lia|]. unfold in_type, t_min, t_max, ulong. cbn -[Z.pow Z.sub]. apply andb_true_iff. rewrite !Z.leb_le. lia. Qed.
Lemma convert_long z : - 2 ^ 63 <= z < 2 ^ 63 -> convert long z = z.
Proof. intros H. apply convert_id; [cbn; lia|]. unfold in_type, t_min, t_max, long. cbn -[Z.pow Z.sub Z.opp]. apply andb_true_iff. rewrite !Z.leb_le. lia. Qed.
Lemma convert_int z : - 2 ^ 31 <= z < 2 ^ 31 -> convert int z = z.
Proof. intros H. apply convert_id; [cbn; lia|]. unfold in_type, t_min, t_max, int. cbn -[Z.pow Z.sub Z.opp]. apply andb_true_iff. rewrite !Z.leb_le. lia. Qed.
(** A number goes through [unsigned long] on its way to [int]. *)
Lemma wrap_narrow w v z : 0 <= w <= v -> wrap w (wrap v z) = wrap w z.
Proof. intros H. apply Z.bits_inj'. intros i Hi. rewrite !wrap_testbit by lia. destruct (Z.ltb_spec i w), (Z.ltb_spec i v); try reflexivity; lia. Qed.
Lemma convert_int_ulong z : - 2 ^ 31 <= z < 2 ^ 31 -> convert int (convert ulong z) = z.
Proof.
  intros H. rewrite <- (convert_int z) at 2 by exact H. cbn [convert signed ulong int bits].
  rewrite <- (sint_of_wrap 32 (wrap 64 z)), <- (sint_of_wrap 32 z) by lia. now rewrite wrap_narrow by lia.
Qed.
Lemma add_int a b : - 2 ^ 31 <= a + b < 2 ^ 31 -> add int a b = Some (a + b).
Proof.
  intros H. apply arith_exact; [cbn; lia|]. unfold in_type, t_min, t_max, int. cbn -[Z.pow Z.sub Z.opp]. apply andb_true_iff. rewrite !Z.leb_le. lia.
Qed.

(** ** Moments *)

Section Laws.
Context {date ptime : Type} (o : Boost.ops date ptime) (num : date -> option Z) (us : ptime -> option Z) `{!BoostLaws o num us}.
Abbreviation date_time := (date_time ptime).

(** The moment of a [date_time], in microseconds since the epoch. *)
Definition at_us (dt : date_time) (t : Z) : Prop := us (_tm dt) = Some t.

Lemma NullTime_eq : NullTime o = Boost.make o (Boost.pos_infin o) 0.
Proof. unfold NullTime. rewrite law_duration by lia. reflexivity. Qed.

Lemma not_null dt t : at_us dt t -> is_null o dt = false.
Proof. intros H. unfold is_null. rewrite NullTime_eq. now apply (law_null _ t). Qed.

Lemma date_num dt t : at_us dt t -> num (date_of o dt) = Some (t / DAY).
Proof. intros H. now apply (law_date_of (_tm dt) t). Qed.

(** Fields of the date of a moment. *)
Lemma fields_of dt t : at_us dt t ->
  valid_ymd (Boost.year o (date_of o dt)) (Boost.month o (date_of o dt)) (Boost.day o (date_of o dt)).
Proof. intros H. apply (law_fields _ (t / DAY)). now apply date_num. Qed.

Lemma last_day_31 y m d : d <= last_day y m -> d <= 31.
Proof. pose proof (Gregorian.last_day_bounds y m). lia. Qed.

Lemma greg_date_valid y m d : valid_ymd y m d -> exists x n, greg_date o y m d = Some x /\ num x = Some n
  /\ Boost.year o x = y /\ Boost.month o x = m /\ Boost.day o x = d.
Proof.
  intros H. unfold greg_date. pose proof H as (Hy & Hm & Hd). pose proof (last_day_31 y m d). 
  rewrite !wrap_small by (unfold uint; lia). now apply law_ymd.
Qed.

Lemma greg_date_invalid y m d : -55000 <= y <= 65000 -> 1 <= m <= 12 -> 1 <= d <= 31 -> ~ (1400 <= y <= 9999) -> greg_date o y m d = None.
Proof.
  intros Hy Hm Hd N. unfold greg_date. apply law_ymd_bad. intros [V _]. revert V. unfold wrap.
  destruct (Z.lt_ge_cases y 0).
  - rewrite <- (Z.mod_add y 1), Z.mod_small by lia. lia.
  - rewrite Z.mod_small by lia. lia.
Qed.

Lemma duration_pos h m s : 0 <= h -> 0 <= m -> 0 <= s -> Boost.time_duration o h m s 0 = (h * 3600 + m * 60 + s) * 10 ^ 6.
Proof. intros. rewrite law_duration by lia. lia. Qed.

(** A time of a day. *)
Lemma make_at d n h m s : num d = Some n -> 0 <= h < 24 -> 0 <= m < 60 -> 0 <= s < 60 ->
  exists dt, of_date_at o d h m s 0 = Some dt /\ at_us dt (n * DAY + (h * 3600 + m * 60 + s) * 10 ^ 6).
Proof.
  intros Hn Hh Hm Hs. unfold of_date_at, at_us. eexists. split; [reflexivity|]. cbn [_tm]. rewrite duration_pos by lia.
  pose proof (law_range d n Hn) as R. apply law_make; [exact Hn|]. unfold in_time, in_days, DAY in *. lia.
Qed.

Lemma of_ymd_at y mo d h m s : valid_ymd y mo d -> 0 <= h < 24 -> 0 <= m < 60 -> 0 <= s < 60 ->
  exists x n dt, num x = Some n /\ Boost.year o x = y /\ Boost.month o x = mo /\ Boost.day o x = d
    /\ of_ymd o y mo d h m s 0 = Some dt /\ at_us dt (n * DAY + (h * 3600 + m * 60 + s) * 10 ^ 6).
Proof.
  intros V Hh Hm Hs. destruct (greg_date_valid y mo d V) as (x & n & Ex & Hn & Fy & Fm & Fd).
  destruct (make_at x n h m s Hn Hh Hm Hs) as (dt & E & A). exists x, n, dt. unfold of_ymd. rewrite Ex. now split_and!.
Qed.

Lemma moon_Z_of z : moon_Z (moon_of z) = z.
Proof. unfold moon_of. repeat (break_match; try reflexivity). Qed.
Lemma weekday_Z_of z : weekday_Z (weekday_of z) = z.
Proof. unfold weekday_of. repeat (break_match; try reflexivity). Qed.

Lemma month_Z dt t : at_us dt t -> moon_Z (month o dt) = Boost.month o (date_of o dt).
Proof. intros H. unfold month. rewrite (not_null dt t H). apply moon_Z_of. Qed.

Lemma weekday_at dt t : at_us dt t -> day_of_week o dt = weekday_of ((t / DAY + 4) mod 7).
Proof. intros H. unfold day_of_week. rewrite (not_null dt t H). f_equal. now apply law_weekday, date_num. Qed.

Lemma weekday_num dt t : at_us dt t -> weekday_Z (day_of_week o dt) = (t / DAY + 4) mod 7.
Proof. intros H. now rewrite (weekday_at dt t H), weekday_Z_of. Qed.

(** Days from [ns] to [ne] are the moments up to the end of the last second. *)
Lemma span_days ns ne u : ns * DAY + (0 * 3600 + 0 * 60 + 0) * 10 ^ 6 <= u < ne * DAY + (23 * 3600 + 59 * 60 + 59) * 10 ^ 6 + 10 ^ 6
  <-> ns <= u / DAY <= ne.
Proof. unfold DAY. Z.to_euclidean_division_equations. lia. Qed.

(** ** Periods *)

Inductive period := Day | Week | Month | Quarter | Half_year | Year.
Definition start_of (p : period) : date_time -> option date_time :=
  match p with
  | Day => start_of_day o | Week => start_of_week o | Month => start_of_month o | Quarter => start_of_quarter o
  | Half_year => start_of_half_year o | Year => start_of_year o
  end.
Definition end_of (p : period) : date_time -> option date_time :=
  match p with
  | Day => end_of_day o | Week => end_of_week o | Month => end_of_month o | Quarter => end_of_quarter o
  | Half_year => end_of_half_year o | Year => end_of_year o
  end.
(** The period a moment is in, by number; weeks start on Monday. *)
Definition key (p : period) (dt : date_time) : Z :=
  let d := date_of o dt in
  match p with
  | Day => default 0 (num d) | Week => (default 0 (num d) + 3) / 7
  | Month => 12 * Boost.year o d + (Boost.month o d - 1) | Quarter => 4 * Boost.year o d + (Boost.month o d - 1) / 3
  | Half_year => 2 * Boost.year o d + (Boost.month o d - 1) / 6 | Year => Boost.year o d
  end.

(** The dates of a calendar period: from the first day of a month to the last of
    another. *)
Lemma span_months (y m1 m2 d2 : Z) n1 n2 x1 x2 : num x1 = Some n1 -> num x2 = Some n2 ->
  Boost.year o x1 = y -> Boost.month o x1 = m1 -> Boost.day o x1 = 1 ->
  Boost.year o x2 = y -> Boost.month o x2 = m2 -> Boost.day o x2 = d2 -> last_day y m2 = d2 ->
  forall d n, num d = Some n -> n1 <= n <= n2 <-> Boost.year o d = y /\ m1 <= Boost.month o d <= m2.
Proof.
  intros H1 H2 Ey1 Em1 Ed1 Ey2 Em2 Ed2 Hl d n Hn. pose proof (law_before d n x1 n1 Hn H1) as B1. pose proof (law_before x2 n2 d n H2 Hn) as B2.
  rewrite Ey1, Em1, Ed1 in B1. rewrite Ey2, Em2, Ed2 in B2. unfold before in *. pose proof (law_fields d n Hn) as (_ & Hm & Hd).
  assert (Boost.month o d = m2 -> Boost.year o d = y -> Boost.day o d <= d2) by (intros <- <-; lia).
  split.
  - intros Hb. assert (~ n < n1) as N1 by lia. assert (~ n2 < n) as N2 by lia. rewrite B1 in N1. rewrite B2 in N2. lia.
  - intros Hb. destruct (Z.le_gt_cases n1 n) as [L1|L1]; [|exfalso; rewrite B1 in L1; lia].
    destruct (Z.le_gt_cases n n2) as [L2|L2]; [lia|exfalso; rewrite B2 in L2; lia].
Qed.

Lemma of_ymd_date y mo d : valid_ymd y mo d -> exists x n, num x = Some n /\ Boost.year o x = y /\ Boost.month o x = mo /\ Boost.day o x = d
  /\ forall h m s, of_ymd o y mo d h m s 0 = of_date_at o x h m s 0.
Proof.
  intros V. destruct (greg_date_valid y mo d V) as (x & n & Ex & Hn & F). exists x, n. split; [exact Hn|].
  split_and!; try apply F. intros h m s. unfold of_ymd. now rewrite Ex.
Qed.

(** The bounds of a period hold exactly its moments. *)
Definition bounds_of (p : period) (dt : date_time) : Prop :=
  exists s e S E, start_of p dt = Some s /\ end_of p dt = Some e /\ at_us s S /\ at_us e E
    /\ forall dt' u, at_us dt' u -> S <= u < E + 10 ^ 6 <-> key p dt' = key p dt.

Lemma day_bounds p dt x1 n1 x2 n2 : num x1 = Some n1 -> num x2 = Some n2 ->
  start_of p dt = of_date o x1 -> end_of p dt = of_date_at o x2 23 59 59 0 ->
  (forall dt' u, at_us dt' u -> n1 <= u / DAY <= n2 <-> key p dt' = key p dt) -> bounds_of p dt.
Proof.
  intros N1 N2 Hs He Hk. destruct (make_at x1 n1 0 0 0 N1 ltac:(lia) ltac:(lia) ltac:(lia)) as (s & E1 & A1).
  destruct (make_at x2 n2 23 59 59 N2 ltac:(lia) ltac:(lia) ltac:(lia)) as (e & E2 & A2).
  exists s, e. do 2 eexists. split_and!; [now rewrite Hs|now rewrite He|exact A1|exact A2|].
  intros dt' u Hu. rewrite span_days. now apply Hk.
Qed.

(** Periods of whole months. *)
Lemma whole_month_bounds p dt t m1 m2 x2 n2 : at_us dt t -> let y := Boost.year o (date_of o dt) in 1 <= m1 <= 12 ->
  start_of p dt = of_ymd o y m1 1 0 0 0 0 ->
  num x2 = Some n2 -> Boost.year o x2 = y -> Boost.month o x2 = m2 -> Boost.day o x2 = last_day y m2 ->
  end_of p dt = of_date_at o x2 23 59 59 0 ->
  (forall dt' u, at_us dt' u -> key p dt' = key p dt <-> Boost.year o (date_of o dt') = y /\ m1 <= Boost.month o (date_of o dt') <= m2) ->
  bounds_of p dt.
Proof.
  intros H y Hm1 Hs N2 Y2 M2 D2 He Hk. pose proof (fields_of dt t H) as (Hy & _ & _). fold y in Hy. pose proof (Gregorian.last_day_bounds y m1).
  destruct (of_ymd_date y m1 1 ltac:(unfold valid_ymd; lia)) as (x1 & n1 & N1 & Y1 & M1 & D1 & E1).
  apply (day_bounds p dt x1 n1 x2 n2 N1 N2); [now rewrite Hs|exact He|]. intros dt' u Hu. rewrite (Hk dt' u Hu).
  apply (span_months y m1 m2 (last_day y m2) n1 n2 x1 x2); try assumption; [reflexivity|]. now apply date_num.
Qed.

Lemma num_eq d n d' n' : num d = Some n -> num d' = Some n' -> Boost.year o d = Boost.year o d' -> Boost.month o d = Boost.month o d' ->
  Boost.day o d = Boost.day o d' -> n = n'.
Proof.
  intros H H' Ey Em Ed. pose proof (law_before d n d' n' H H') as B. pose proof (law_before d' n' d n H' H) as B'.
  rewrite Ey, Em, Ed in B, B'. unfold before in *. lia.
Qed.

Lemma week_bounds dt t : at_us dt t -> min_day + 6 <= t / DAY <= max_day - 6 -> bounds_of Week dt.
Proof.
  intros H Hr. pose proof (date_num dt t H) as Hn. pose proof (weekday_at dt t H) as HW.
  set (n := t / DAY) in *. set (k := (n + 3) mod 7).
  assert (Hk : 0 <= k < 7) by (apply Z.mod_pos_bound; lia).
  assert (Hd : forall j, Z.abs j <= 6 -> num (Boost.plus_days o (date_of o dt) j) = Some (n + j)).
  { intros j Hj. apply law_plus_days; [exact Hn|]. unfold in_days. lia. }
  assert (Hs : start_of Week dt = (let* d := of_date o (Boost.plus_days o (date_of o dt) (- k)) in start_of_day o d)
    /\ exists x, num x = Some (n + 6 - k) /\ end_of Week dt = of_date_at o x 23 59 59 0).
  { cbn [start_of end_of]. unfold start_of_week, end_of_week. rewrite HW.
    assert (Ek : (n + 4) mod 7 = if k =? 6 then 0 else k + 1).
    { unfold k. clear. clearbody n. destruct (Z.eqb_spec ((n + 3) mod 7) 6); Z.to_euclidean_division_equations; lia. }
    rewrite Ek. clearbody k. clear Ek HW.
    assert (k = 0 \/ k = 1 \/ k = 2 \/ k = 3 \/ k = 4 \/ k = 5 \/ k = 6) as E by lia.
    repeat destruct E as [E|E]; subst k; (split; [reflexivity|]);
      first [exists (date_of o dt); split; [rewrite Hn; f_equal; lia|reflexivity]
            |eexists; split; [|reflexivity]; cbn [Z.eqb Pos.eqb Z.add Pos.add Pos.succ weekday_of weekday_Z Z.sub Z.opp Z.pos_sub Pos.pred_double Pos.pred_N Z.pred_double];
             rewrite Hd by (cbn; lia); f_equal; cbn; lia]. }
  destruct Hs as (Hs & x & Nx & He).
  destruct (make_at _ _ 0 0 0 (Hd (- k) ltac:(lia)) ltac:(lia) ltac:(lia) ltac:(lia)) as (s & E1 & A1).
  pose proof (date_num s _ A1) as Ns.
  apply (day_bounds Week dt (date_of o s) (n - k) x (n + 6 - k)).
  - rewrite Ns. f_equal. unfold DAY. clearbody k n. Z.to_euclidean_division_equations. lia.
  - exact Nx.
  - rewrite Hs. unfold of_date. now rewrite E1.
  - exact He.
  - intros dt' u Hu. cbn [key]. rewrite Hn, (date_num dt' u Hu). cbn [default]. fold n. unfold k. clear. unfold from_option, id.
    generalize (u / DAY). intros q. clearbody n. Z.to_euclidean_division_equations. lia.
Qed.

Lemma block_key k y m y' m' : k = 3 \/ k = 6 \/ k = 12 -> 1 <= m <= 12 -> 1 <= m' <= 12 ->
  12 / k * y' + (m' - 1) / k = 12 / k * y + (m - 1) / k <-> y' = y /\ k * ((m - 1) / k) + 1 <= m' <= k * ((m - 1) / k) + k.
Proof.
  intros [->|[->| ->]] Hm Hm'; [change (12 / 3) with 4|change (12 / 6) with 2|change (12 / 12) with 1]; Z.to_euclidean_division_equations; lia.
Qed.

(** Quarters, half years and years: blocks of [k] months. *)
Lemma block_bounds p dt t k : at_us dt t -> k = 3 \/ k = 6 \/ k = 12 ->
  let y := Boost.year o (date_of o dt) in let b := (Boost.month o (date_of o dt) - 1) / k in
  start_of p dt = of_ymd o y (k * b + 1) 1 0 0 0 0 ->
  end_of p dt = of_ymd o y (k * b + k) (last_day y (k * b + k)) 23 59 59 0 ->
  (forall dt' u, at_us dt' u -> key p dt' = 12 / k * Boost.year o (date_of o dt') + (Boost.month o (date_of o dt') - 1) / k) ->
  bounds_of p dt.
Proof.
  intros H Hk y b Hs He Hkey. pose proof (fields_of dt t H) as (Hy & Hm & _). fold y in Hy.
  assert (Hb : 1 <= k * b + 1 <= 12 /\ 1 <= k * b + k <= 12).
  { unfold b. destruct Hk as [->|[->| ->]]; Z.to_euclidean_division_equations; lia. }
  pose proof (Gregorian.last_day_bounds y (k * b + k)).
  destruct (of_ymd_date y (k * b + k) (last_day y (k * b + k)) ltac:(unfold valid_ymd; lia)) as (x & n & N & Y & M & D & E).
  apply (whole_month_bounds p dt t (k * b + 1) (k * b + k) x n H); try assumption; [lia|now rewrite He, E|].
  intros dt' u Hu. pose proof (fields_of dt' u Hu) as (_ & Hm' & _). rewrite (Hkey dt' u Hu), (Hkey dt t H). now apply block_key.
Qed.

(** C17: for each period (the week, away from the ends of the calendar) the
    start and the end exist, and the moments from the start to the end of the
    last second are exactly those of the period. *)
Theorem period_bounds p dt t : at_us dt t -> (p = Week -> min_day + 6 <= t / DAY <= max_day - 6) -> bounds_of p dt.
Proof.
  intros H Hw. pose proof (fields_of dt t H) as V. pose proof V as (Hy & Hm & Hd). pose proof (date_num dt t H) as Hn.
  pose proof (month_Z dt t H) as HM. set (y := Boost.year o (date_of o dt)) in *. set (m := Boost.month o (date_of o dt)) in *.
  destruct p.
  - destruct (of_ymd_date y m (Boost.day o (date_of o dt)) V) as (x & n & N & Fy & Fm & Fd & E).
    pose proof (num_eq x n _ _ N Hn Fy Fm Fd) as ->.
    apply (day_bounds Day dt (date_of o dt) (t / DAY) x (t / DAY) Hn N); [reflexivity|apply E|].
    intros dt' u Hu. cbn [key]. rewrite Hn, (date_num dt' u Hu). cbn. lia.
  - now apply (week_bounds dt t H), Hw.
  - destruct (law_end_of_month _ _ Hn) as (n2 & N2 & Y2 & M2 & D2).
    apply (whole_month_bounds Month dt t m m (Boost.end_of_month o (date_of o dt)) n2 H Hm); try assumption.
    + cbn [start_of]. unfold start_of_month. now rewrite HM.
    + reflexivity.
    + intros dt' u Hu. cbn [key]. fold y m. pose proof (fields_of dt' u Hu) as (_ & ? & _). lia.
  - apply (block_bounds Quarter dt t 3 H); [lia| | |reflexivity]; cbn [start_of end_of]; unfold start_of_quarter, end_of_quarter; rewrite HM; fold m y;
      change (year o dt) with y; clear HM; clearbody m y; Gregorian.months m; reflexivity.
  - apply (block_bounds Half_year dt t 6 H); [lia| | |reflexivity]; cbn [start_of end_of]; unfold start_of_half_year, end_of_half_year; rewrite HM; fold m y;
      change (year o dt) with y; clear HM; clearbody m y; Gregorian.months m; reflexivity.
  - apply (block_bounds Year dt t 12 H); [lia| | |]; cbn [start_of end_of key]; unfold start_of_year, end_of_year; fold m y;
      change (year o dt) with y.
    + clear HM. clearbody m y. Gregorian.months m; reflexivity.
    + clear HM. clearbody m y. Gregorian.months m; reflexivity.
    + intros dt' u Hu. pose proof (fields_of dt' u Hu) as (_ & Hm' & _). change (12 / 12) with 1. rewrite Z.div_small by lia. lia.
Qed.

(** ** Steps by periods *)

Definition step_of (p : period) (forward : bool) : date_time -> Z -> option date_time :=
  match p with
  | Day => if forward then next_day o else pre_day o
  | Week => fun _ _ => None
  | Month => if forward then next_month o else pre_month o
  | Quarter => if forward then next_quarter o else pre_quarter o
  | Half_year => if forward then next_half_year o else pre_half_year o
  | Year => if forward then next_year o else pre_year o
  end.
(** How many of a period make a year, and its months. *)
Definition per_year (p : period) : Z := match p with Month => 12 | Quarter => 4 | Half_year => 2 | _ => 1 end.
Definition months_in (p : period) : Z := match p with Month => 1 | Quarter => 3 | Half_year => 6 | _ => 12 end.
Definition in_calendar (p : period) (k : Z) : Prop := match p with Day => in_days k | _ => 1400 <= k / per_year p <= 9999 end.

(** [dt] is the first moment of period [k]. *)
Definition first_of (p : period) (k : Z) (dt : date_time) : Prop :=
  exists u, at_us dt u /\ key p dt = k /\ forall dt' v, at_us dt' v -> key p dt' = k -> u <= v.

Lemma borrow_years_spec per fuel : per = 4 \/ per = 2 -> forall target y, - 2 ^ 31 <= target < per -> - 2 ^ 30 <= y <= 9999 ->
  - 2 ^ 30 <= y + target / per -> (Z.to_nat (- target) < fuel)%nat ->
  borrow_years per fuel target y = Some (target mod per, y + target / per).
Proof.
  intros Hp. induction fuel as [|fuel IH]; intros target y Ht Hy Hb Hf; [lia|]. cbn [borrow_years].
  destruct (Z.ltb_spec target 0) as [L|L].
  - rewrite add_int by lia. cbn iota. unfold sub. change (arith int (y - 1)) with (add int y (- 1)).
    assert (Hd : (target + per) / per = target / per + 1) by (destruct Hp as [->| ->]; Z.to_euclidean_division_equations; lia).
    assert (Hn : target / per < 0) by (destruct Hp as [->| ->]; Z.to_euclidean_division_equations; lia).
    rewrite add_int by lia. cbn iota. rewrite IH by lia. rewrite Hd. f_equal. f_equal; [|lia].
    destruct Hp as [->| ->]; Z.to_euclidean_division_equations; lia.
  - rewrite Z.mod_small, Z.div_small by lia. f_equal. f_equal. lia.
Qed.

(** The first moment of a month. *)
Lemma month_start y m : 1400 <= y <= 9999 -> 1 <= m <= 12 -> exists dt u,
  (let* d := greg_date o y m 1 in of_date o d) = Some dt /\ at_us dt u
  /\ Boost.year o (date_of o dt) = y /\ Boost.month o (date_of o dt) = m
  /\ forall dt' v, at_us dt' v -> y < Boost.year o (date_of o dt') \/ y = Boost.year o (date_of o dt') /\ m <= Boost.month o (date_of o dt') -> u <= v.
Proof.
  intros Hy Hm. pose proof (Gregorian.last_day_bounds y m).
  destruct (greg_date_valid y m 1 ltac:(unfold valid_ymd; lia)) as (x & n & -> & Hn & Fy & Fm & Fd).
  destruct (make_at x n 0 0 0 Hn ltac:(lia) ltac:(lia) ltac:(lia)) as (dt & E & A).
  pose proof (date_num dt _ A) as N. assert (En : (n * DAY + (0 * 3600 + 0 * 60 + 0) * 10 ^ 6) / DAY = n) by (unfold DAY; Z.to_euclidean_division_equations; lia).
  rewrite En in N. destruct (law_fields _ _ N) as (_ & _ & Hd).
  exists dt. eexists. split; [exact E|]. split; [exact A|].
  assert (S : Boost.year o (date_of o dt) = y /\ Boost.month o (date_of o dt) = m).
  { pose proof (law_before _ _ _ _ N Hn) as B. pose proof (law_before _ _ _ _ Hn N) as B'. unfold before in *. lia. }
  split_and!; try apply S. intros dt' v Hv Hle. pose proof (date_num dt' v Hv) as N'. pose proof (law_before _ _ _ _ N' Hn) as B.
  pose proof (fields_of dt' v Hv) as (_ & _ & Hd'). assert (~ v / DAY < n) as L by (rewrite B; unfold before; lia).
  revert L. unfold DAY. Z.to_euclidean_division_equations. lia.
Qed.

(** The first moment of a block of months. *)
Lemma block_start p y q : p = Month \/ p = Quarter \/ p = Half_year \/ p = Year -> 1400 <= y <= 9999 -> 0 <= q < per_year p ->
  exists dt, (let* d := greg_date o y (q * (months_in p) + 1) 1 in of_date o d) = Some dt /\ first_of p (per_year p * y + q) dt.
Proof.
  intros Hp Hy Hq. assert (Hm : 1 <= q * (months_in p) + 1 <= 12).
  { destruct Hp as [->|[->|[->| ->]]]; cbn [per_year months_in] in *; Z.to_euclidean_division_equations; lia. }
  destruct (month_start y _ Hy Hm) as (dt & u & E & A & Fy & Fm & L). exists dt. split; [exact E|]. exists u. split; [exact A|]. split.
  - clear L. destruct Hp as [->|[->|[->| ->]]]; cbn [key per_year months_in] in *; rewrite Fy; try rewrite Fm; Z.to_euclidean_division_equations; lia.
  - intros dt' v Hv Hk. apply (L dt' v Hv). clear L. pose proof (fields_of dt' v Hv) as (_ & Hm' & _).
    destruct Hp as [->|[->|[->| ->]]]; cbn [key per_year months_in] in *; Z.to_euclidean_division_equations; lia.
Qed.

(** What a step does, given the period it reaches. *)
Definition steps_to (p : period) (k n : Z) (result : option date_time) : Prop :=
  (in_calendar p k -> exists dt, result = Some dt /\ first_of p k dt)
  /\ (p = Quarter \/ p = Half_year \/ p = Year -> n <= 40000 -> ~ in_calendar p k -> result = None).

Lemma block_steps p y q n : p = Quarter \/ p = Half_year \/ p = Year -> 0 <= q < per_year p -> (n <= 40000 -> -55000 <= y <= 65000) ->
  steps_to p (per_year p * y + q) n (let* d := greg_date o y (q * months_in p + 1) 1 in of_date o d).
Proof.
  intros Hp Hq Hy. assert (Ey : (per_year p * y + q) / per_year p = y).
  { destruct Hp as [->|[->| ->]]; cbn [per_year] in *; Z.to_euclidean_division_equations; lia. }
  assert (Ei : in_calendar p (per_year p * y + q) <-> 1400 <= y <= 9999) by (destruct Hp as [->|[->| ->]]; unfold in_calendar; now rewrite Ey).
  split.
  - intros H. apply block_start; [tauto|now apply Ei|exact Hq].
  - intros _ Hn N. rewrite greg_date_invalid; [reflexivity|lia| |lia|now rewrite <- Ei].
    destruct Hp as [->|[->| ->]]; cbn [per_year months_in] in *; lia.
Qed.

(** Quarters and half years: [cur] is the current one, and [fuel] loops at least
    borrow the years. *)
Lemma next_block p dt t n : p = Quarter \/ p = Half_year -> at_us dt t -> 0 <= n <= 2 ^ 30 ->
  steps_to p (key p dt + n) n (step_of p true dt n).
Proof.
  intros Hp H Hn. pose proof (fields_of dt t H) as (Hy & Hm & _). set (y := Boost.year o (date_of o dt)) in *. set (m := Boost.month o (date_of o dt)) in *.
  set (q := (m - 1) / months_in p). assert (Hq : 0 <= q < per_year p).
  { unfold q. destruct Hp as [->| ->]; cbn [per_year months_in]; Z.to_euclidean_division_equations; lia. }
  set (y' := y + (q + n) / per_year p). assert (Hy' : y <= y' <= y + n).
  { unfold y'. destruct Hp as [->| ->]; cbn [per_year] in *; Z.to_euclidean_division_equations; lia. }
  assert (Hi : - 2 ^ 31 <= y' < 2 ^ 31) by (clearbody y' y; lia).
  replace (key p dt + n) with (per_year p * y' + (q + n) mod per_year p).
  2: { destruct Hp as [->| ->]; cbn [key per_year months_in] in *; fold y m; unfold y', q; cbn [months_in]; Z.to_euclidean_division_equations; lia. }
  assert (E : step_of p true dt n = (let* d := greg_date o y' ((q + n) mod per_year p * months_in p + 1) 1 in of_date o d)).
  { destruct Hp as [->| ->]; cbn [step_of per_year months_in] in *; unfold next_quarter, next_half_year; fold y m;
      rewrite (Z.quot_div_nonneg (m - 1)) by lia; first [change ((m - 1) / 3) with q|change ((m - 1) / 6) with q]; rewrite convert_int_ulong by lia; rewrite Z.quot_div_nonneg, Z.rem_mod_nonneg by lia;
      rewrite add_int by (exact Hi); reflexivity. }
  rewrite E. apply block_steps; [tauto| |lia]. destruct Hp as [->| ->]; cbn [per_year]; apply Z.mod_pos_bound; lia.
Qed.

Lemma pre_block p dt t n : p = Quarter \/ p = Half_year -> at_us dt t -> 0 <= n <= 2 ^ 30 ->
  steps_to p (key p dt - n) n (step_of p false dt n).
Proof.
  intros Hp H Hn. pose proof (fields_of dt t H) as (Hy & Hm & _). set (y := Boost.year o (date_of o dt)) in *. set (m := Boost.month o (date_of o dt)) in *.
  set (q := (m - 1) / months_in p). assert (Hq : 0 <= q < per_year p).
  { unfold q. destruct Hp as [->| ->]; cbn [per_year months_in]; Z.to_euclidean_division_equations; lia. }
  set (y' := y + (q - n) / per_year p). assert (Hy' : y - n <= y' <= y).
  { unfold y'. destruct Hp as [->| ->]; cbn [per_year] in *; Z.to_euclidean_division_equations; lia. }
  assert (Hr : - 2 ^ 31 <= q - n < per_year p) by (clear - Hq Hn; lia).
  assert (Hi : - 2 ^ 30 <= y' /\ - 2 ^ 30 <= y <= 9999) by (clearbody y' y; lia).
  assert (Hc : - 2 ^ 31 <= q - n < 2 ^ 31) by (clear - Hr Hp; destruct Hp as [->| ->]; cbn [per_year] in *; lia).
  replace (key p dt - n) with (per_year p * y' + (q - n) mod per_year p).
  2: { destruct Hp as [->| ->]; cbn [key per_year months_in] in *; fold y m; unfold y', q; cbn [months_in]; Z.to_euclidean_division_equations; lia. }
  assert (E : step_of p false dt n = (let* d := greg_date o y' ((q - n) mod per_year p * months_in p + 1) 1 in of_date o d)).
  { destruct Hp as [->| ->]; cbn [step_of per_year months_in] in *; unfold pre_quarter, pre_half_year; fold y m;
      rewrite (Z.quot_div_nonneg (m - 1)) by lia; first [change ((m - 1) / 3) with q|change ((m - 1) / 6) with q]; rewrite convert_int_ulong by exact Hc;
      (rewrite borrow_years_spec; [reflexivity|tauto|exact Hr|exact (proj2 Hi)|exact (proj1 Hi)|lia]). }
  rewrite E. apply block_steps; [tauto| |lia]. destruct Hp as [->| ->]; cbn [per_year]; apply Z.mod_pos_bound; lia.
Qed.

(** The first moment of a day. *)
Lemma day_step dt t j : at_us dt t -> in_days (t / DAY + j) ->
  exists dt', of_date o (Boost.plus_days o (date_of o dt) j) = Some dt' /\ first_of Day (t / DAY + j) dt'.
Proof.
  intros H Hr. destruct (make_at (Boost.plus_days o (date_of o dt) j) (t / DAY + j) 0 0 0) as (dt' & E & A);
    [apply law_plus_days; [now apply date_num|exact Hr]|lia..|].
  exists dt'. split; [exact E|]. eexists. split; [exact A|]. cbn [key]. rewrite (date_num dt' _ A). split.
  - unfold default, from_option, id, DAY. Z.to_euclidean_division_equations. lia.
  - intros d v Hv Hk. rewrite (date_num d v Hv) in Hk. unfold default, from_option, id, DAY in *. Z.to_euclidean_division_equations. lia.
Qed.

Lemma month_step dt t j : at_us dt t -> in_calendar Month (key Month dt + j) -> let target := Boost.plus_months o (date_of o dt) j in
  exists dt', (let* d := greg_date o (Boost.year o target) (Boost.month o target) 1 in of_date o d) = Some dt' /\ first_of Month (key Month dt + j) dt'.
Proof.
  intros H Hr target. unfold in_calendar, per_year in Hr. cbn [key] in *.
  destruct (law_plus_months _ _ j (date_num dt t H) Hr) as (n' & _ & Ey & Em). fold target in Ey, Em. rewrite Ey, Em.
  set (i := 12 * Boost.year o (date_of o dt) + (Boost.month o (date_of o dt) - 1) + j) in *.
  pose proof (Z.mod_pos_bound i 12 ltac:(lia)) as Hm.
  destruct (block_start Month (i / 12) (i mod 12) ltac:(tauto) Hr Hm) as (dt' & E & F). cbn [months_in per_year] in *.
  rewrite Z.mul_1_r in E. exists dt'. split; [exact E|]. now rewrite (Z.div_mod i 12) by lia.
Qed.

Lemma year_step (forward : bool) dt t n : at_us dt t -> 0 <= n <= 2 ^ 30 ->
  let k := key Year dt + (if forward then n else - n) in steps_to Year k n (step_of Year forward dt n).
Proof.
  intros H Hn k. pose proof (fields_of dt t H) as (Hy & _ & _). cbn [key] in k.
  assert (Hi : - 2 ^ 31 <= k < 2 ^ 31) by (unfold k; destruct forward; lia).
  assert (E : step_of Year forward dt n = (let* d := greg_date o k (0 * months_in Year + 1) 1 in of_date o d)).
  { destruct forward; cbn [step_of]; unfold next_year, pre_year; rewrite convert_int_ulong by exact Hi; reflexivity. }
  rewrite E. replace k with (per_year Year * k + 0) at 1 by (cbn [per_year]; lia).
  apply block_steps; [tauto|cbn; lia|]. unfold k. destruct forward; lia.
Qed.

(** [next_month(n)], ..., [pre_year(n)], and the days, return, and give the
    first moment of the period that is [n] later or earlier when the calendar has
    it; quarters, half years and years outside of the calendar are refused. *)
Theorem period_steps p (forward : bool) dt t n : at_us dt t -> p <> Week -> 0 <= n <= 2 ^ 30 ->
  steps_to p (key p dt + (if forward then n else - n)) n (step_of p forward dt n).
Proof.
  intros H Hp Hn. assert (Hday : forall j, key Day dt + j = t / DAY + j) by (intros j; cbn [key]; now rewrite (date_num dt t H)).
  destruct p; [| |split; [|intros [|[]]; discriminate]|..]; [|congruence|..].
  - rewrite Hday. split; [|intros [|[]]; discriminate]. intros Hr. cbn [in_calendar step_of] in *. unfold next_day, pre_day.
    destruct forward; rewrite convert_long by lia; now apply day_step.
  - intros Hr. cbn [step_of]. unfold next_month, pre_month.
    destruct forward; rewrite convert_int by lia; now apply (month_step dt t).
  - destruct forward; [now apply (next_block Quarter dt t); [tauto|..]|now apply (pre_block Quarter dt t); [tauto|..]].
  - destruct forward; [now apply (next_block Half_year dt t); [tauto|..]|now apply (pre_block Half_year dt t); [tauto|..]].
  - now apply (year_step forward dt t).
Qed.

(** A year is a number of 16 bits: 65536 years later is the same year. *)
Lemma next_year_wraps dt t : at_us dt t -> next_year o dt 65536 = start_of_year o dt.
Proof.
  intros H. pose proof (fields_of dt t H) as (Hy & _ & _). unfold next_year, start_of_year, of_ymd. rewrite convert_int_ulong by lia.
  unfold greg_date. replace (wrap 16 (Boost.year o (date_of o dt) + 65536)) with (wrap 16 (Boost.year o (date_of o dt))); [reflexivity|].
  unfold wrap. change 65536 with (1 * 2 ^ 16). symmetry. apply Z.mod_add. lia.
Qed.

(** ** Weekdays *)

Definition named (w : weekday) : Prop := 0 <= weekday_Z w < 7.

(** [next_weekday(w, n)] is midnight of the [n + 1]-st day [w] after the day,
    [pre_weekday(w, n)] of the [n + 1]-st before it. *)
Theorem weekday_steps dt t w n : at_us dt t -> named w -> 0 <= n <= 10 ^ 6 ->
  (in_days (t / DAY + 7 * n + 7) -> exists dt' k, next_weekday o dt w n = Some dt' /\ first_of Day k dt'
     /\ (k + 4) mod 7 = weekday_Z w /\ t / DAY + 7 * n < k <= t / DAY + 7 * n + 7)
  /\ (in_days (t / DAY - 7 * n - 7) -> exists dt' k, pre_weekday o dt w n = Some dt' /\ first_of Day k dt'
     /\ (k + 4) mod 7 = weekday_Z w /\ t / DAY - 7 * n - 7 <= k < t / DAY - 7 * n).
Proof.
  intros H Hw Hn. pose proof (law_range _ _ (date_num dt t H)) as Hr. unfold next_weekday, pre_weekday. rewrite (weekday_num dt t H).
  unfold named in Hw. set (D := t / DAY) in *. set (z := weekday_Z w) in *. clearbody z.
  set (c := (D + 4) mod 7). assert (Hc : 0 <= c < 7) by (apply Z.mod_pos_bound; lia).
  rewrite (convert_ulong c), (convert_ulong z) by lia. split; intros Hd.
  - set (k := (if c <? z then z - c else 7 - (c - z)) + n * 7). assert (Hk : n * 7 < k <= n * 7 + 7) by (unfold k; destruct (Z.ltb_spec c z); lia).
    destruct (day_step dt t k H) as (dt' & E & F); [unfold in_days in *; fold D; lia|]. exists dt', (D + k). split_and!; [|exact F| |lia|lia].
    + rewrite <- E. unfold next_day, k. destruct (c <? z) eqn:B; cbn [k] in *; rewrite convert_ulong, convert_long by (unfold k in Hk; lia); reflexivity.
    + unfold k. destruct (Z.ltb_spec c z); unfold c in *; clear - Hw H0; clearbody D; Z.to_euclidean_division_equations; lia.
  - set (k := (if z <? c then c - z else 7 - (z - c)) + n * 7). assert (Hk : n * 7 < k <= n * 7 + 7) by (unfold k; destruct (Z.ltb_spec z c); lia).
    destruct (day_step dt t (- k) H) as (dt' & E & F); [unfold in_days in *; fold D; lia|]. exists dt', (D + - k). split_and!; [|exact F| |lia|lia].
    + rewrite <- E. unfold pre_day, k. destruct (z <? c) eqn:B; cbn [k] in *; rewrite convert_ulong, convert_long by (unfold k in Hk; lia); reflexivity.
    + unfold k. destruct (Z.ltb_spec z c); unfold c in *; clear - Hw H0; clearbody D; Z.to_euclidean_division_equations; lia.
Qed.

(** ** Working days *)

(** [steps] of a day: forwards or backwards. *)
Definition day_by (s : Z) (d : date_time) : option date_time := if s =? 1 then next_day o d 1 else pre_day o d 1.
Definition working_day_by (s : Z) (fn : date_time -> bool) (fuel : nat) (d : date_time) (n : Z) : option date_time :=
  if s =? 1 then next_working_day o fn fuel d n else pre_working_day o fn fuel d n.

Section Working.
Context (fn : date_time -> bool) (working : Z -> bool) (fn_working : forall d k, at_us d (k * DAY) -> fn d = working k)
  (s : Z) (s_unit : s = 1 \/ s = -1).

(** Working days among the [len] days from day [D] on, in the direction [s]. *)
Fixpoint worked (D : Z) (len : nat) : Z :=
  match len with
  | O => 0
  | S len => worked D len + (if working (D + s * Z.of_nat (S len)) then 1 else 0)
  end.

Lemma worked_mono D i j : (i <= j)%nat -> 0 <= worked D i <= worked D j.
Proof.
  intros H. induction H as [|j H IH].
  - enough (0 <= worked D i) by lia. induction i as [|i IH]; cbn [worked]; [lia|]. destruct (working _); lia.
  - cbn [worked]. destruct (working _); lia.
Qed.

(** Searching is counting to 1. *)
Lemma find_is_count step fuel d : find_working_day fn step fuel d = count_working_days fn step 1 fuel 0 d.
Proof.
  revert d. induction fuel as [|fuel IH]; intros d; [reflexivity|]. cbn [find_working_day count_working_days]. unfold is_working_day.
  destruct (fn d); cbn [negb]; [reflexivity|]. destruct (step d); [apply IH|reflexivity].
Qed.

Lemma day_by_at d k : at_us d (k * DAY) -> in_days (k + s) -> exists d', day_by s d = Some d' /\ at_us d' ((k + s) * DAY).
Proof.
  intros H Hr. assert (Ek : k * DAY / DAY = k) by (apply Z.div_mul; discriminate).
  destruct (day_step d (k * DAY) s H) as (d' & E & u & A & F & L); [now rewrite Ek|].
  assert (u = (k + s) * DAY).
  { rewrite Ek in F. cbn [key] in F. rewrite (date_num d' u A) in F. cbn in F. pose proof (law_range _ _ (date_num d' u A)) as R.
    destruct (make_at (date_of o d') (u / DAY) 0 0 0 (date_num d' u A)) as (d2 & _ & A2); [lia..|].
    specialize (L d2 _ A2). cbn [key] in L. rewrite (date_num d2 _ A2) in L. cbn in L. rewrite Ek in L.
    unfold id, DAY in *. Z.to_euclidean_division_equations. lia. }
  subst u. exists d'. split; [|exact A]. rewrite <- E. unfold day_by, next_day, pre_day. destruct s_unit as [->| ->]; reflexivity.
Qed.

Lemma count_days D n fuel : 1 <= n < 2 ^ 64 -> forall i d, at_us d ((D + s * Z.of_nat (S i)) * DAY) -> worked D i < n ->
  (forall j, (i < j <= i + fuel)%nat -> in_days (D + s * Z.of_nat j)) ->
  (forall j, (i < j <= i + fuel)%nat -> working (D + s * Z.of_nat j) = true -> worked D j = n ->
     exists d', count_working_days fn (day_by s) n fuel (worked D i) d = Some d' /\ at_us d' ((D + s * Z.of_nat j) * DAY))
  /\ (worked D (i + fuel) < n -> count_working_days fn (day_by s) n fuel (worked D i) d = None).
Proof.
  intros Hn. induction fuel as [|fuel IH]; intros i d Hd Hi Hr.
  - split; [lia|reflexivity].
  - cbn [count_working_days]. unfold is_working_day. rewrite (fn_working d _ Hd). pose proof (worked_mono D i i ltac:(lia)) as Hp.
    assert (Hstep : fuel <> O -> exists d', day_by s d = Some d' /\ at_us d' ((D + s * Z.of_nat (S (S i))) * DAY)).
    { intros Hf. destruct (day_by_at d _ Hd) as (d' & E & A).
      - replace (D + s * Z.of_nat (S i) + s) with (D + s * Z.of_nat (S (S i))) by lia. apply Hr. lia.
      - exists d'. split; [exact E|]. now replace (D + s * Z.of_nat (S (S i))) with (D + s * Z.of_nat (S i) + s) by lia. }
    assert (Hzero : fuel = O -> forall c, (let* x := day_by s d in count_working_days fn (day_by s) n fuel c x) = None).
    { intros -> c. now destruct (day_by s d). }
    assert (Hr' : forall j, (S i < j <= S i + fuel)%nat -> in_days (D + s * Z.of_nat j)) by (intros j Hj; apply Hr; lia).
    replace (i + S fuel)%nat with (S i + fuel)%nat by lia.
    assert (Hnext : worked D (S i) < n ->
      (forall j, (S i < j <= S i + fuel)%nat -> working (D + s * Z.of_nat j) = true -> worked D j = n ->
         exists d', (let* x := day_by s d in count_working_days fn (day_by s) n fuel (worked D (S i)) x) = Some d' /\ at_us d' ((D + s * Z.of_nat j) * DAY))
      /\ (worked D (S i + fuel) < n -> (let* x := day_by s d in count_working_days fn (day_by s) n fuel (worked D (S i)) x) = None)).
    { intros Hlt. destruct (decide (fuel = O)) as [F|F].
      - split; [lia|]. intros _. now apply Hzero.
      - destruct (Hstep F) as (d' & -> & A). now apply IH. }
    assert (Hw1 : working (D + s * Z.of_nat (S i)) = true -> worked D (S i) = worked D i + 1) by (intros W; cbn [worked]; now rewrite W).
    destruct (working (D + s * Z.of_nat (S i))) eqn:W; cbn [worked] in Hnext; rewrite W in Hnext.
    + rewrite convert_ulong by lia. destruct (Z.eqb_spec (worked D i + 1) n) as [En|En].
      * split.
        -- intros j Hj Wj Ej. assert (j = S i) as ->; [|now exists d].
           destruct j as [|j]; [lia|]. destruct (decide (j = i)) as [->|Nj]; [reflexivity|].
           pose proof (worked_mono D (S i) j ltac:(lia)) as Hm. cbn [worked] in Hm, Ej. rewrite W in Hm. rewrite Wj in Ej. lia.
        -- pose proof (worked_mono D (S i) (S i + fuel) ltac:(lia)) as Hm. rewrite Hw1 in Hm by reflexivity. lia.
      * destruct (Hnext ltac:(lia)) as [N1 N2]. split; [|exact N2]. intros j Hj Wj Ej.
        destruct (decide (j = S i)) as [->|Nj]; [cbn [worked] in Ej; rewrite W in Ej; lia|]. apply N1; [lia|assumption..].
    + rewrite Z.add_0_r in Hnext. destruct (Hnext Hi) as [N1 N2]. split; [|exact N2]. intros j Hj Wj Ej.
      destruct (decide (j = S i)) as [->|Nj]; [congruence|]. apply N1; [lia|assumption..].
Qed.

Lemma midnight_first d k : at_us d (k * DAY) -> first_of Day k d.
Proof.
  intros A. exists (k * DAY). split; [exact A|]. cbn [key]. rewrite (date_num d _ A). split.
  - cbn. apply Z.div_mul. discriminate.
  - intros d' v Hv Hk. rewrite (date_num d' v Hv) in Hk. cbn in Hk. unfold id, DAY in *. Z.to_euclidean_division_equations. lia.
Qed.

(** The function returns the day on which the count is reached, if it is among
    the next [fuel] days, and otherwise goes on. *)
Lemma working_day_by_spec fuel dt t n : at_us dt t -> 0 <= n < 2 ^ 64 ->
  let D := t / DAY in (forall j, (1 <= j <= fuel)%nat -> in_days (D + s * Z.of_nat j)) ->
  (forall j, (1 <= j <= fuel)%nat -> working (D + s * Z.of_nat j) = true -> worked D j = Z.max 1 n ->
     exists d, working_day_by s fn fuel dt n = Some d /\ first_of Day (D + s * Z.of_nat j) d)
  /\ (worked D fuel < Z.max 1 n -> working_day_by s fn fuel dt n = None).
Proof.
  intros H Hn D Hr.
  assert (E : working_day_by s fn fuel dt n = (let* c := day_by s dt in count_working_days fn (day_by s) (Z.max 1 n) fuel 0 c)).
  { unfold working_day_by, next_working_day, pre_working_day, day_by. destruct s_unit as [->| ->]; cbn [Z.eqb Pos.eqb].
    - destruct (next_day o dt 1); [|reflexivity]. destruct (Z.eqb_spec n 0) as [->|N]; [apply find_is_count|]. now replace (Z.max 1 n) with n by lia.
    - destruct (pre_day o dt 1); [|reflexivity]. destruct (Z.eqb_spec n 0) as [->|N]; [apply find_is_count|]. now replace (Z.max 1 n) with n by lia. }
  rewrite E. clear E. destruct (decide (fuel = O)) as [->|F]; [split; [lia|intros _; now destruct (day_by s dt)]|].
  assert (Hday : exists d, day_by s dt = Some d /\ at_us d ((D + s) * DAY)).
  { destruct (make_at (date_of o dt) D 0 0 0 (date_num dt t H)) as (d0 & _ & A0); [lia..|].
    destruct (day_by_at d0 D) as (d & E & A).
    - now replace (D * DAY) with (D * DAY + (0 * 3600 + 0 * 60 + 0) * 10 ^ 6) by lia.
    - replace (D + s) with (D + s * Z.of_nat 1) by lia. apply Hr. lia.
    - destruct (day_step dt t s H) as (d' & E' & F'); [fold D; replace (D + s) with (D + s * Z.of_nat 1) by lia; apply Hr; lia|].
      exists d'. split; [rewrite <- E'; unfold day_by, next_day, pre_day; now destruct s_unit as [->| ->]|].
      destruct F' as (u & A' & K' & L'). specialize (L' d _ A). fold D in K', L'. cbn [key] in K', L'. rewrite (date_num d' u A') in K'. rewrite (date_num d _ A) in L'.
      cbn in K', L'. unfold at_us. rewrite A'. f_equal. unfold id, DAY in *. Z.to_euclidean_division_equations. lia. }
  destruct Hday as (d & -> & A).
  destruct (count_days D (Z.max 1 n) fuel ltac:(lia) 0 d) as [N1 N2]; [now replace (D + s * Z.of_nat 1) with (D + s) by lia|cbn; lia|intros j Hj; apply Hr; lia|].
  cbn [worked Nat.add] in N1, N2. split; [|exact N2]. intros j Hj Wj Ej. destruct (N1 j ltac:(lia) Wj Ej) as (d' & E & A'). exists d'. split; [exact E|].
  now apply midnight_first.
Qed.
End Working.

(** Monday to Friday. *)
Definition monday_to_friday (k : Z) : bool := let w := (k + 4) mod 7 in (1 <=? w) && (w <=? 5).

Lemma default_working d k : at_us d (k * DAY) -> default_working_day o d = monday_to_friday k.
Proof.
  intros H. unfold default_working_day, monday_to_friday. rewrite (law_weekday _ _ (date_num d _ H)), Z.div_mul by discriminate.
  assert (Hb : 0 <= (k + 4) mod 7 < 7) by (apply Z.mod_pos_bound; lia). set (w := (k + 4) mod 7) in *. clearbody w.
  assert (w = 0 \/ w = 1 \/ w = 2 \/ w = 3 \/ w = 4 \/ w = 5 \/ w = 6) as E by lia. repeat destruct E as [E|E]; subst w; reflexivity.
Qed.

(** There is a working day among any three. *)
Lemma worked_default s D m : s = 1 \/ s = -1 -> exists j, (j <= 3 * m)%nat /\ worked monday_to_friday s D j = Z.of_nat m
  /\ (m <> O -> j <> O /\ monday_to_friday (D + s * Z.of_nat j) = true).
Proof.
  intros Hs. induction m as [|m (j & Hj & Ej & _)].
  - exists O. split_and!; [lia|reflexivity|congruence].
  - set (k := D + s * Z.of_nat j).
    assert (E1 : D + s * Z.of_nat (S j) = k + s) by (unfold k; lia). assert (E2 : D + s * Z.of_nat (S (S j)) = k + s + s) by (unfold k; lia).
    assert (E3 : D + s * Z.of_nat (S (S (S j))) = k + s + s + s) by (unfold k; lia).
    destruct (monday_to_friday (k + s)) eqn:W1.
    + exists (S j). cbn [worked]. rewrite E1, W1. split_and!; [lia|lia|now split].
    + destruct (monday_to_friday (k + s + s)) eqn:W2.
      * exists (S (S j)). cbn [worked]. rewrite E1, E2, W1, W2. split_and!; [lia|lia|now split].
      * destruct (monday_to_friday (k + s + s + s)) eqn:W3.
        -- exists (S (S (S j))). cbn [worked]. rewrite E1, E2, E3, W1, W2, W3. split_and!; [lia|lia|now split].
        -- exfalso. revert W1 W2 W3. unfold monday_to_friday. rewrite !andb_false_iff, !Z.leb_gt. clearbody k.
           destruct Hs as [->| ->]; Z.to_euclidean_division_equations; lia.
Qed.

(** [next_working_day(n)] and [pre_working_day(n)] give the midnight of the
    [n]-th working day (the first, for 0) after or before the day, whatever
    decides which days are working days; they do not return while there are not
    so many; with the function the class starts with they always return. *)
Theorem working_days (fn : date_time -> bool) (working : Z -> bool) (forward : bool) (fuel : nat) dt t n :
  (forall d k, at_us d (k * DAY) -> fn d = working k) -> at_us dt t -> 0 <= n < 2 ^ 64 ->
  let s := if forward then 1 else -1 in let D := t / DAY in
  (forall j, (1 <= j <= fuel)%nat -> in_days (D + s * Z.of_nat j)) ->
  (forall j, (1 <= j <= fuel)%nat -> working (D + s * Z.of_nat j) = true -> worked working s D j = Z.max 1 n ->
     exists d, working_day_by s fn fuel dt n = Some d /\ first_of Day (D + s * Z.of_nat j) d)
  /\ (worked working s D fuel < Z.max 1 n -> working_day_by s fn fuel dt n = None)
  /\ (3 * Z.max 1 n <= Z.of_nat fuel -> exists j d, working_day_by s (default_working_day o) fuel dt n = Some d
        /\ first_of Day (D + s * Z.of_nat j) d /\ worked monday_to_friday s D j = Z.max 1 n).
Proof.
  intros Hfn H Hn s D Hr. assert (Hs : s = 1 \/ s = -1) by (destruct forward; [now left|now right]).
  destruct (working_day_by_spec fn working Hfn s Hs fuel dt t n H Hn Hr) as [N1 N2]. split_and!; [exact N1|exact N2|].
  intros Hf. destruct (worked_default s D (Z.to_nat (Z.max 1 n)) Hs) as (j & Hj & Ej & Wj).
  destruct (Wj ltac:(lia)) as [Hj0 Wj']. destruct (working_day_by_spec (default_working_day o) monday_to_friday default_working s Hs fuel dt t n H Hn Hr) as [N _].
  assert (Ez : worked monday_to_friday s D j = Z.max 1 n) by (rewrite Ej; lia).
  destruct (N j ltac:(lia) Wj' Ez) as (d & E & F). exists j, d. split_and!; [exact E|exact F|lia].
Qed.

(** ** Seconds and milliseconds *)

Lemma epoch_at : exists e, epoch_time o = Some e /\ at_us e 0.
Proof.
  unfold epoch_time, greg_date. change (wrap 16 1970) with 1970. change (wrap 16 1) with 1.
  destruct (law_ymd 1970 1 1) as (x & n & E & Hn & _); [unfold valid_ymd; cbn; lia|]. rewrite E. eexists. split; [reflexivity|].
  unfold at_us. cbn [_tm]. apply (law_make x 0 0); [now apply law_epoch|]. unfold in_time, min_day, max_day, DAY. lia.
Qed.

(** Seconds and milliseconds since the epoch give the moment back when it has
    no finer part, and are rounded towards the epoch when it has; the differences
    in seconds, minutes, hours and days are rounded towards zero. *)
Theorem epoch_roundtrip dt t n : at_us dt t ->
  sec_since_epoch o dt = Some (Z.quot t (10 ^ 6)) /\ ms_since_epoch o dt = Some (Z.quot t (10 ^ 3))
  /\ (in_time (n * 10 ^ 6) -> exists d, from_sec_since_epoch o n = Some d /\ at_us d (n * 10 ^ 6) /\ sec_since_epoch o d = Some n)
  /\ (in_time (n * 10 ^ 3) -> exists d, from_ms_since_epoch o n = Some d /\ at_us d (n * 10 ^ 3) /\ ms_since_epoch o d = Some n)
  /\ (forall d u, at_us d u -> seconds_to o dt d = Z.quot (u - t) (10 ^ 6) /\ minutes_to o dt d = Z.quot (u - t) (60 * 10 ^ 6)
        /\ hours_to o dt d = Z.quot (u - t) (3600 * 10 ^ 6) /\ days_to o dt d = Z.quot (u - t) DAY).
Proof.
  intros H. destruct epoch_at as (e & Ee & Ae).
  assert (Hs : forall d u, at_us d u -> sec_since_epoch o d = Some (Z.quot u (10 ^ 6)) /\ ms_since_epoch o d = Some (Z.quot u (10 ^ 3))).
  { intros d u Hd. unfold sec_since_epoch, ms_since_epoch. rewrite Ee, (law_minus _ _ _ _ Hd Ae). destruct (law_totals (u - 0)) as [-> ->]. now rewrite Z.sub_0_r. }
  split; [now apply Hs|]. split; [now apply Hs|]. split_and!.
  - intros Hr. unfold from_sec_since_epoch. rewrite Ee. eexists. split; [reflexivity|]. rewrite law_seconds_of by (unfold in_time, min_day, max_day, DAY in Hr; lia).
    assert (A : at_us (Dt (Boost.plus o (_tm e) (n * 10 ^ 6))) (n * 10 ^ 6)) by (unfold at_us; cbn [_tm]; now apply (law_plus (_tm e) 0)).
    split; [exact A|]. rewrite (proj1 (Hs _ _ A)). now rewrite Z.quot_mul by lia.
  - intros Hr. unfold from_ms_since_epoch. rewrite Ee. eexists. split; [reflexivity|]. rewrite law_milliseconds_of by (unfold in_time, min_day, max_day, DAY in Hr; lia).
    assert (A : at_us (Dt (Boost.plus o (_tm e) (n * 10 ^ 3))) (n * 10 ^ 3)) by (unfold at_us; cbn [_tm]; now apply (law_plus (_tm e) 0)).
    split; [exact A|]. rewrite (proj2 (Hs _ _ A)). now rewrite Z.quot_mul by lia.
  - intros d u Hd. unfold seconds_to, minutes_to, hours_to, days_to. rewrite (law_minus _ _ _ _ Hd H). destruct (law_totals (u - t)) as [-> _].
    rewrite !Z.quot_quot by lia. now split_and!.
Qed.

(** The comparisons are those of the moments; the null time is no moment. *)
Theorem date_time_order dt t d u : at_us dt t -> at_us d u ->
  eqb o dt d = (t =? u) /\ neqb o dt d = negb (t =? u) /\ ltb o dt d = (t <? u) /\ leb o dt d = (t <=? u)
  /\ gtb o dt d = (u <? t) /\ geb o dt d = (u <=? t) /\ is_null o dt = false /\ is_null o (null o) = true.
Proof.
  intros H H'. unfold eqb, neqb, ltb, leb, gtb, geb. destruct (law_compare _ _ _ _ H H') as [-> ->]. destruct (law_compare _ _ _ _ H' H) as [_ ->].
  rewrite <- !Z.leb_antisym. split_and!; try reflexivity; [now apply (not_null dt t)|].
  unfold is_null, null. cbn [_tm]. rewrite NullTime_eq. apply law_null_null.
Qed.

(** ** Where the code does not do what it means to *)

(** A text that cannot be read gives a time that is not null. *)
Lemma unreadable_not_null get_time str fmt : get_time str fmt tm_zero = None ->
  exists d, of_string o get_time str fmt = Some d /\ is_null o d = false.
Proof.
  intros E. unfold of_string. rewrite E. eexists. split; [reflexivity|]. unfold is_null. cbn [_tm]. rewrite NullTime_eq. apply law_null_nadt.
Qed.

(** Parsing by a format without the hour reads an uninitialised field. *)
Lemma parse_uninitialised get_time str fmt dt t : get_time str fmt tm_uninitialised = Some t -> tm_hour t = None ->
  parse o get_time str fmt = None /\ parse_into o get_time dt str fmt = None.
Proof.
  intros E Hh. unfold parse, parse_into, of_tm. rewrite E. unfold ptime_from_tm. rewrite Hh.
  now destruct (tm_year t), (tm_mon t), (tm_mday t).
Qed.

(** The microseconds of a [timeval] count as milliseconds. *)
Lemma timeval_scale sec usec : in_time (sec * 10 ^ 6) -> in_time (sec * 10 ^ 6 + usec * 1000) -> 0 <= usec < 10 ^ 6 ->
  exists d, of_timeval o sec usec = Some d /\ at_us d (sec * 10 ^ 6 + usec * 1000).
Proof.
  intros H H' Hu. unfold of_timeval, mul, arith. change (bits long <? 32) with false. change (signed long) with true. cbn iota.
  replace (in_type long (usec * 1000)) with true.
  2: { symmetry. unfold in_type, t_min, t_max, long. cbn -[Z.pow Z.sub Z.opp Z.mul]. apply andb_true_iff. rewrite !Z.leb_le. lia. }
  eexists. split; [reflexivity|]. unfold at_us. cbn [_tm]. rewrite law_duration by lia.
  replace ((0 * 3600 + 0 * 60 + 0) * 10 ^ 6 + usec * 1000) with (usec * 1000) by lia.
  apply law_plus; [now apply law_from_time_t|exact H'].
Qed.

(** [today] in a zone is the UTC day at the hour of the offset. *)
Lemma today_is_utc_day c tz n : num (universal_day c) = Some n -> in_days (n + 1) -> 0 <= hours_offset tz < 24 -> 0 <= minutes_offset tz < 60 ->
  addr (name tz) <> addr (name timezone.UTC) -> addr (name tz) <> addr (name timezone.LOCAL) ->
  exists d, today o c tz = Some d /\ at_us d (n * DAY + (hours_offset tz * 3600 + minutes_offset tz * 60) * 10 ^ 6).
Proof.
  intros Hn Hr Hh Hm N1 N2. unfold today. destruct (Z.eqb_spec (addr (name tz)) (addr (name timezone.UTC))); [congruence|].
  destruct (Z.eqb_spec (addr (name tz)) (addr (name timezone.LOCAL))); [congruence|].
  set (h := hours_offset tz) in *. set (m := minutes_offset tz) in *. rewrite duration_pos by lia.
  destruct (law_clock ((h * 3600 + m * 60 + 0) * 10 ^ 6) ltac:(lia)) as (-> & -> & _).
  replace ((h * 3600 + m * 60 + 0) * 10 ^ 6 / (3600 * 10 ^ 6)) with h by (Z.to_euclidean_division_equations; lia).
  replace ((h * 3600 + m * 60 + 0) * 10 ^ 6 / (60 * 10 ^ 6) mod 60) with m by (Z.to_euclidean_division_equations; lia).
  destruct (make_at _ n h m 0 Hn Hh Hm ltac:(lia)) as (d & E & A). exists d. split; [exact E|]. now rewrite Z.add_0_r in A.
Qed.
End Laws.

(** ** Witnesses *)

Import Gregorian.

(** Thursday 29 February 2024, 12:34:56. *)
Definition sample_us : Z := 19782 * DAY + 45296 * 10 ^ 6.
Definition sample : date_time ptime := Dt (Some (Some sample_us)).

Lemma period_bounds_witness :
  (let* d := start_of_week calendar sample in us (_tm d)) = Some (19779 * DAY)
  /\ (let* d := end_of_quarter calendar sample in us (_tm d)) = Some (19813 * DAY + 86399 * 10 ^ 6)
  /\ bounds_of calendar num us Week sample.
Proof.
  split; [vm_compute; reflexivity|]. split; [vm_compute; reflexivity|].
  apply (period_bounds calendar num us Week sample sample_us); [vm_compute; reflexivity|]. intros _. vm_compute. split; discriminate.
Defined.

Lemma period_steps_witness : steps_to calendar num us Quarter (4 * 2024 - 9) 9 (pre_quarter calendar sample 9)
  /\ (let* d := pre_quarter calendar sample 9 in us (_tm d)) = Some (number 2021 10 1 * DAY).
Proof.
  split; [|vm_compute; reflexivity].
  apply (period_steps calendar num us Quarter false sample sample_us 9); [vm_compute; reflexivity|discriminate|lia].
Defined.

Lemma weekday_steps_witness : exists dt' k, next_weekday calendar sample monday 1 = Some dt' /\ first_of calendar num us Day k dt'
  /\ (k + 4) mod 7 = 1 /\ 19789 < k <= 19796.
Proof.
  destruct (weekday_steps calendar num us sample sample_us monday 1) as [N _];
    [vm_compute; reflexivity|unfold named; cbn; lia|lia|]. apply N. vm_compute. split; discriminate.
Defined.

Lemma working_days_witness : exists j d, next_working_day calendar (default_working_day calendar) 9 sample 3 = Some d
  /\ first_of calendar num us Day (19782 + 1 * Z.of_nat j) d /\ worked monday_to_friday 1 19782 j = 3.
Proof.
  destruct (working_days calendar num us (default_working_day calendar) monday_to_friday true 9 sample sample_us 3) as (_ & _ & N);
    [intros d k; apply (default_working calendar num us)|vm_compute; reflexivity|lia| |apply N; lia].
  intros j Hj. change (sample_us / DAY) with 19782. unfold in_days, min_day, max_day. lia.
Defined.

Lemma epoch_roundtrip_witness : sec_since_epoch calendar sample = Some 1709210096
  /\ exists d, from_sec_since_epoch calendar (-5) = Some d /\ at_us us d (- 5 * 10 ^ 6) /\ sec_since_epoch calendar d = Some (-5).
Proof.
  destruct (epoch_roundtrip calendar num us sample sample_us (-5)) as (E & _ & N & _); [vm_compute; reflexivity|].
  split; [exact E|]. apply N. vm_compute. split; congruence.
Defined.

Lemma date_time_order_witness : leb calendar sample sample = true /\ is_null calendar (null calendar) = true.
Proof.
  destruct (date_time_order calendar num us sample sample_us sample sample_us) as (_ & _ & _ & E & _ & _ & _ & E');
    [vm_compute; reflexivity..|]. split; [exact E|exact E'].
Defined.
