(* ===== verification/StringUtil.v ===== *)
(** * String utilities

    [util/string_util.hpp]: searches, splitting, replacement, trimming,
    comparison, the text of an address, the bounded copy, the conversions
    through the C library and the cache of regular expressions.  Characters are
    numbers below 256.  The regular expressions of the standard library and its
    multibyte conversions are parameters; the cache is a list, a reference into
    it a position.  [None] is undefined behaviour where it is not [npos] or an
    empty optional. *)

From Stdlib Require Import ZArith Lia List Bool.
From stdpp Require Import base tactics list option.
From S2P Require Import Prelude.

Open Scope hj_scope.
Open Scope nat_scope.

Module StringUtil.

Abbreviation str := (list Z).

(** ** [std::string_view] *)

(** [sub] occurs at [pos]. *)
Definition occurs_at (s sub : str) (pos : nat) : bool := bool_decide (take (length sub) (drop pos s) = sub).
Fixpoint find_from (n : nat) (s sub : str) (pos : nat) : option nat :=
  match n with
  | O => None
  | S n => if occurs_at s sub pos then Some pos else find_from n s sub (S pos)
  end.
(** [find]; [npos] is [None]. *)
Definition find (s sub : str) (pos : nat) : option nat := find_from (S (length s) - pos) s sub pos.
Definition mem (c : Z) (target : str) : bool := bool_decide (c ∈ target).
Fixpoint find_first_not_of (s target : str) : option nat :=
  match s with
  | [] => None
  | c :: s => if mem c target then S <$> find_first_not_of s target else Some 0
  end.
Fixpoint find_first_of (s target : str) : option nat :=
  match s with
  | [] => None
  | c :: s => if mem c target then Some 0 else S <$> find_first_of s target
  end.
Definition find_last_not_of (s target : str) : option nat :=
  (fun i => length s - 1 - i) <$> find_first_not_of (rev s) target.
(** [substr] within the bounds. *)
Definition substr (s : str) (pos n : nat) : str := take n (drop pos s).
(** [std::string::erase] from a position. *)
Definition erase (s : str) (pos : nat) (n : option nat) : str :=
  take pos s ++ match n with Some n => drop (pos + n) s | None => [] end.

(** ** Searches *)

Definition contains (src sub : str) : bool := match find src sub 0 with Some _ => true | None => false end.
Definition starts_with (src prefix : str) : bool :=
  (length prefix <=? length src) && bool_decide (substr src 0 (length prefix) = prefix).
Definition ends_with (src suffix : str) : bool :=
  (length suffix <=? length src) && bool_decide (drop (length src - length suffix) src = suffix).

(** ** Splitting and replacing *)

Fixpoint split_loop (fuel : nat) (s delimiter : str) (result : list str) (start : nat) (found : option nat) : option (list str * nat) :=
  match fuel with
  | O => None
  | S fuel =>
      match found with
      | None => Some (result, start)
      | Some found =>
          let result := if start <? found then result ++ [substr s start (found - start)] else result in
          let start := found + length delimiter in
          split_loop fuel s delimiter result start (find s delimiter start)
      end
  end.
Definition split (s delimiter : str) : option (list str) :=
  if (length s =? 0) || (length delimiter =? 0) then Some [s] else
  let* (result, start) := split_loop (S (S (length s))) s delimiter [] 0 (find s delimiter 0) in
  Some (if start <? length s then result ++ [drop start s] else result).

Fixpoint replace_loop (fuel : nat) (s from to : str) (pos : nat) : option str :=
  match fuel with
  | O => None
  | S fuel =>
      match find s from pos with
      | None => Some s
      | Some pos => replace_loop fuel (take pos s ++ to ++ drop (pos + length from) s) from to (pos + length to)
      end
  end.
(** The loop ends in at most a turn for each character. *)
Definition replace_all (s from to : str) : option str :=
  if length from =? 0 then Some s else replace_loop (S (length s)) s from to 0.
Definition replace_all_inplace (s from to : str) : option str :=
  if length from =? 0 then Some s else replace_loop (S (length s)) s from to 0.

(** ** Trimming *)

(** [" \t\n\r\f\v"] *)
Definition spaces : str := [32; 9; 10; 13; 12; 11]%Z.
Definition trim_left (s target : str) : str :=
  match find_first_not_of s target with None => [] | Some i => drop i s end.
Definition trim_right (s target : str) : str :=
  match find_last_not_of s target with None => [] | Some i => substr s 0 (i + 1) end.
Definition trim (s target : str) : str := trim_left (trim_right s target) target.
(** [npos + 1] is 0; erasing [npos] characters erases the rest. *)
Definition trim_inplace (s target : str) : str :=
  let s := erase s (match find_last_not_of s target with Some i => i + 1 | None => 0 end) None in
  erase s 0 (find_first_not_of s target).

(** ** Case *)

(** In the "C" locale. *)
Definition tolower (c : Z) : Z := if ((65 <=? c) && (c <=? 90))%Z then (c + 32)%Z else c.
Definition toupper (c : Z) : Z := if ((97 <=? c) && (c <=? 122))%Z then (c - 32)%Z else c.
Definition to_lower (s : str) : str := map tolower s.
Definition to_upper (s : str) : str := map toupper s.
Fixpoint iequal (a b : str) : bool :=
  match a, b with
  | [], [] => true
  | x :: a, y :: b => (tolower x =? tolower y)%Z && iequal a b
  | _, _ => false
  end.

(** ** C strings *)

(** The characters before the terminator, read from a buffer. *)
Fixpoint c_str (m : str) : option str :=
  match m with
  | [] => None
  | c :: m => if (c =? 0)%Z then Some [] else let* s := c_str m in Some (c :: s)
  end.
(** A pointer: an address and the buffer there, or null. *)
Definition equal (a b : option (Z * str)) : option bool :=
  match a, b with
  | None, None => Some true
  | Some (p, ma), Some (q, mb) =>
      if (p =? q)%Z then Some true else let* x := c_str ma in let* y := c_str mb in Some (bool_decide (x = y))
  | _, _ => Some false
  end.

(** [EINVAL] on this system. *)
Definition EINVAL : Z := 22%Z.
(** The result and the destination. *)
Definition strncpy_s (dest : option str) (destsz : nat) (src : option str) (count : nat) : option (Z * str) :=
  match dest, src with
  | Some dest, Some src =>
      if destsz =? 0 then Some (EINVAL, dest) else
      let max_copy := destsz - 1 in
      let* s := c_str src in
      let to_copy := if count <? length s then count else length s in
      let to_copy := if max_copy <? to_copy then max_copy else to_copy in
      if S to_copy <=? length dest
      then Some (0%Z, take to_copy s ++ 0%Z :: drop (S to_copy) dest) else None
  | _, _ => Some (EINVAL, default [] dest)
  end.

(** [snprintf] of an unsigned number in base 16 or 10. *)
Definition digit (d : Z) : Z := if (d <? 10)%Z then (48 + d)%Z else (87 + d)%Z.
Fixpoint print (fuel : nat) (base n : Z) : str :=
  match fuel with
  | O => []
  | S fuel => if (n <? base)%Z then [digit n] else print fuel base (n / base)%Z ++ [digit (n mod base)%Z]
  end.
(** A null pointer is 0; an address has 64 bits, the buffer 32 characters. *)
Definition from_ptr_addr (ptr : Z) (is_hex : bool) : str :=
  if (ptr =? 0)%Z then (if is_hex then [48; 120; 48] else [48])%Z
  else take 31 (if is_hex then [48; 120]%Z ++ print 64 16 ptr else print 64 10 ptr).

(** ** Conversions *)

Section Conversions.
(** [std::mbsrtowcs] and [std::wcsrtombs] on a whole string: what is converted,
    or the result -1. *)
Context (mbsrtowcs wcsrtombs : str -> option str).

(** A view and what lies behind it in memory: the library stops at the first
    terminator, the view's size is not used. *)
Definition utf8_to_wide_impl (utf8_str after : str) : option (option str) :=
  if length utf8_str =? 0 then Some (Some []) else
  let* s := c_str (utf8_str ++ after) in
  Some (let* w := mbsrtowcs s in Some (take (length w) w)).
Definition wide_to_utf8_impl (wide_str after : str) : option (option str) :=
  if length wide_str =? 0 then Some (Some []) else
  let* s := c_str (wide_str ++ after) in
  Some (let* w := wcsrtombs s in Some (take (length w) w)).

Definition to_wstring (src after : str) : option (option str) := utf8_to_wide_impl src after.
Definition to_wchar (src after : str) : option (option str) := to_wstring src after.
Definition from_wstring (src after : str) : option (option str) := wide_to_utf8_impl src after.
Definition from_wchar_opt (src : option str) : option (option str) :=
  match src with
  | None => Some (Some [])
  | Some m => let* s := c_str m in from_wstring s (drop (length s) m)
  end.
Definition to_wstring_safe (src after : str) : option str :=
  let* r := to_wstring src after in Some (match r with Some w => w | None => [] end).
Definition from_wstring_safe (src after : str) : option str :=
  let* r := from_wstring src after in Some (match r with Some w => w | None => [] end).
(** A [std::string] is followed by its terminator. *)
Definition string_to_wchar (src : str) : option str := to_wstring_safe src [0%Z].
Definition string_to_wstring (src : str) : option str := to_wstring_safe src [0%Z].
Definition from_wchar (src : option str) : option str :=
  match src with
  | None => Some []
  | Some _ => let* r := from_wchar_opt src in Some (match r with Some s => s | None => [] end)
  end.
Definition string_from_wstring (src : str) : option str :=
  let* r := from_wstring src [0%Z] in Some (match r with Some s => s | None => [] end).
End Conversions.

(** ** Regular expressions *)

Section Regex.
(** [std::regex] and its algorithms: the constructor, none when it throws; the
    first match, all of them, the pieces between them, replacement. *)
Context {R : Type} (compile : str -> option R) (regex_search : R -> str -> option str)
  (matches pieces : R -> str -> list str) (substitute : R -> str -> str -> str).

Definition MAX_CACHE_SIZE : nat := 32.
Record cache_entry := Entry { pattern : str; compiled : R; access_count : Z }.
#[local] Abbreviation cache := (list cache_entry).

Fixpoint lookup (p : str) (c : cache) (i : nat) : option nat :=
  match c with
  | [] => None
  | e :: c => if bool_decide (pattern e = p) then Some i else lookup p c (S i)
  end.
(** [std::min_element]: the first least entry. *)
Fixpoint min_element (best : nat) (least : Z) (i : nat) (c : cache) : nat :=
  match c with
  | [] => best
  | e :: c => if (access_count e <? least)%Z then min_element i (access_count e) (S i) c else min_element best least (S i) c
  end.
Definition evict (c : cache) : cache :=
  match c with
  | [] => []
  | e :: c' => let i := min_element 0 (access_count e) 1 c' in take i c ++ drop (S i) c
  end.
Definition touch (e : cache_entry) : cache_entry := Entry (pattern e) (compiled e) (wrap 64 (access_count e + 1)).

(** The position of the reference returned, none when the constructor throws. *)
Definition get_regex (p : str) (c : cache) : option nat * cache :=
  match lookup p c 0 with
  | Some i => (Some i, alter touch i c)
  | None =>
      let c := if MAX_CACHE_SIZE <=? length c then evict c else c in
      match compile p with
      | None => (None, c)
      | Some r => (Some (length c), c ++ [Entry p r 1])
      end
  end.
(** What a reference denotes. *)
Definition deref (c : cache) (i : nat) : option R := compiled <$> c !! i.
Definition clear (c : cache) : cache := [].

(** The regular expression a function works with. *)
Definition with_regex {A} (p : str) (c : cache) (fail : A) (f : R -> A) : option (A * cache) :=
  match get_regex p c with
  | (None, c) => Some (fail, c)
  | (Some i, c) => let* r := deref c i in Some (f r, c)
  end.
Definition regex_search_first (src p : str) (c : cache) : option (option str * cache) :=
  with_regex p c None (fun r => regex_search r src).
Definition regex_search_all (src p : str) (c : cache) : option (list str * cache) :=
  with_regex p c [] (fun r => matches r src).
Definition regex_split (s p : str) (c : cache) : option (list str * cache) :=
  with_regex p c [s] (fun r => pieces r s).
Definition regex_replace (s p replacement : str) (c : cache) : option (str * cache) :=
  with_regex p c s (fun r => substitute r s replacement).
Definition search (src p : str) (c : cache) : option (str * cache) :=
  let* (r, c) := regex_search_first src p c in Some (match r with Some s => s | None => [] end, c).
Definition search_n (src p : str) (c : cache) : option (list str * cache) := regex_search_all src p c.
Definition split_regex (s p : str) (c : cache) : option (list str * cache) := regex_split s p c.
(** ["^$.*+?{}[]|()\\"] *)
Definition specials : str := [94; 36; 46; 42; 43; 63; 123; 125; 91; 93; 124; 40; 41; 92]%Z.
Definition replace (s from to : str) (c : cache) : option (str * cache) :=
  match find_first_of from specials with
  | None => let* s := replace_all_inplace s from to in Some (s, c)
  | Some _ => regex_replace s from to c
  end.
End Regex.

Example split_runs : split [1; 2; 9; 9; 3; 9]%Z [9]%Z = Some [[1; 2]; [3]]%Z.
Proof. reflexivity. Qed.
Example replace_runs : replace_all [1; 1; 1; 2; 1]%Z [1; 1]%Z [1; 1; 1]%Z = Some [1; 1; 1; 1; 2; 1]%Z.
Proof. reflexivity. Qed.
Example trim_runs : (trim [32; 65; 32; 66; 9]%Z spaces, trim_inplace [32; 65; 32; 66; 9]%Z spaces) = ([65; 32; 66], [65; 32; 66])%Z.
Proof. reflexivity. Qed.
Example address_runs : from_ptr_addr 255 true = [48; 120; 102; 102]%Z.
Proof. reflexivity. Qed.

(** ** Finding *)

Lemma occurs_at_drop s sub k j : occurs_at (drop k s) sub j = occurs_at s sub (k + j).
Proof. unfold occurs_at. now rewrite drop_drop. Qed.

(** What follows an occurrence does not matter. *)
Lemma occurs_at_app a b sub q : q + length sub <= length a -> occurs_at (a ++ b) sub q = occurs_at a sub q.
Proof.
  intros H. unfold occurs_at. rewrite drop_app_le by lia. rewrite take_app_le by (rewrite length_drop; lia). reflexivity.
Qed.

Lemma occurs_at_spec s sub pos : pos <= length s ->
  occurs_at s sub pos = true <-> exists b, s = take pos s ++ sub ++ b.
Proof.
  intros Hp. unfold occurs_at. rewrite bool_decide_eq_true. split.
  - intros E. exists (drop (pos + length sub) s). rewrite <- drop_drop. rewrite <- E at 1. now rewrite !take_drop.
  - intros [b E]. rewrite E at 1. rewrite drop_app_length' by (rewrite length_take; lia). apply take_app_length.
Qed.

Lemma occurs_at_bound s sub pos : occurs_at s sub pos = true -> pos <= length s -> pos + length sub <= length s.
Proof.
  intros H Hp. apply occurs_at_spec in H as [b E]; [|exact Hp]. apply (f_equal length) in E.
  rewrite !length_app, length_take in E. lia.
Qed.

Lemma find_from_spec n s sub pos :
  match find_from n s sub pos with
  | Some p => pos <= p < pos + n /\ occurs_at s sub p = true /\ (forall q, pos <= q < p -> occurs_at s sub q = false)
  | None => forall q, pos <= q < pos + n -> occurs_at s sub q = false
  end.
Proof.
  revert pos. induction n as [|n IH]; intros pos; cbn [find_from]; [lia|]. destruct (occurs_at s sub pos) eqn:E; [split_and!; auto; lia|].
  specialize (IH (S pos)). destruct (find_from n s sub (S pos)) as [p|].
  - destruct IH as (H1 & H2 & H3). split_and!; auto; try lia. intros q Hq. destruct (decide (q = pos)) as [->|Hn]; [exact E|]. apply H3. lia.
  - intros q Hq. destruct (decide (q = pos)) as [->|Hn]; [exact E|]. apply IH. lia.
Qed.

Lemma find_spec s sub pos :
  match find s sub pos with
  | Some p => pos <= p <= length s /\ occurs_at s sub p = true /\ (forall q, pos <= q < p -> occurs_at s sub q = false)
  | None => forall q, pos <= q <= length s -> occurs_at s sub q = false
  end.
Proof.
  unfold find. pose proof (find_from_spec (S (length s) - pos) s sub pos) as H. destruct (find_from _ s sub pos) as [p|].
  - destruct H as (H1 & H2 & H3). split_and!; auto; lia.
  - intros q Hq. apply H. lia.
Qed.

(** The first occurrence, characterised. *)
Lemma find_first s sub pos p : pos <= p <= length s -> occurs_at s sub p = true ->
  (forall q, pos <= q < p -> occurs_at s sub q = false) -> find s sub pos = Some p.
Proof.
  intros Hp H1 H2. pose proof (find_spec s sub pos) as H. destruct (find s sub pos) as [p'|].
  - destruct H as (H3 & H4 & H5). f_equal. destruct (Nat.lt_trichotomy p p') as [Hl|[Hl|Hl]]; [|lia|].
    + rewrite H5 in H1 by lia. discriminate.
    + rewrite H2 in H4 by lia. discriminate.
  - rewrite H in H1 by lia. discriminate.
Qed.

Lemma find_drop s sub pos : pos <= length s -> find s sub pos = Nat.add pos <$> find (drop pos s) sub 0.
Proof.
  intros Hp. pose proof (find_spec (drop pos s) sub 0) as H. rewrite length_drop in H. destruct (find (drop pos s) sub 0) as [p|].
  - destruct H as (H1 & H2 & H3). rewrite occurs_at_drop in H2. apply find_first; [lia|exact H2|].
    intros q Hq. replace q with (pos + (q - pos)) by lia. rewrite <- occurs_at_drop. apply H3. lia.
  - pose proof (find_spec s sub pos) as H'. destruct (find s sub pos) as [p|]; [|reflexivity]. destruct H' as (H1 & H2 & _).
    replace p with (pos + (p - pos)) in H2 by lia. rewrite <- occurs_at_drop, H in H2 by lia. discriminate.
Qed.

Lemma contains_infix src sub : contains src sub = true <-> exists a b, src = a ++ sub ++ b.
Proof.
  unfold contains. pose proof (find_spec src sub 0) as H. destruct (find src sub 0) as [p|].
  - split; [|reflexivity]. intros _. destruct H as (H1 & H2 & _). apply occurs_at_spec in H2 as [b E]; [|lia]. eauto.
  - split; [discriminate|]. intros (a & b & E). exfalso.
    assert (Hl : length a <= length src) by (subst; rewrite length_app; lia).
    assert (Ht : occurs_at src sub (length a) = true).
    { apply occurs_at_spec; [exact Hl|]. exists b. subst. now rewrite take_app_length. }
    rewrite H in Ht by lia. discriminate.
Qed.

Lemma starts_with_spec src prefix : starts_with src prefix = true <-> exists b, src = prefix ++ b.
Proof.
  unfold starts_with, substr. rewrite andb_true_iff, bool_decide_eq_true, Nat.leb_le, drop_0. split.
  - intros [_ E]. exists (drop (length prefix) src). rewrite <- E at 1. now rewrite take_drop.
  - intros [b ->]. rewrite take_app_length, length_app. split; [lia|reflexivity].
Qed.

Lemma ends_with_spec src suffix : ends_with src suffix = true <-> exists a, src = a ++ suffix.
Proof.
  unfold ends_with. rewrite andb_true_iff, bool_decide_eq_true, Nat.leb_le. split.
  - intros [_ E]. exists (take (length src - length suffix) src). rewrite <- E at 2. now rewrite take_drop.
  - intros [a ->]. rewrite length_app. split; [lia|]. apply drop_app_length'. lia.
Qed.

(** ** Cutting at the occurrences *)

(** The pieces of a string around the occurrences of [d], each taken as far to
    the left as it can be. *)
Inductive cuts (d : str) : str -> list str -> Prop :=
| cut_last s : find s d 0 = None -> cuts d s [s]
| cut_more s i ps : find s d 0 = Some i -> cuts d (drop (i + length d) s) ps -> cuts d s (take i s :: ps).

Fixpoint join (d : str) (ps : list str) : str :=
  match ps with [] => [] | [p] => p | p :: ps => p ++ d ++ join d ps end.

Lemma cuts_ne d s ps : cuts d s ps -> ps <> [].
Proof. now destruct 1. Qed.

Lemma join_cons d p ps : ps <> [] -> join d (p :: ps) = p ++ d ++ join d ps.
Proof. now destruct ps. Qed.

Lemma find_bound s d p : find s d 0 = Some p -> p + length d <= length s.
Proof. intros E. pose proof (find_spec s d 0) as H. rewrite E in H. apply (occurs_at_bound s d p); [apply H|lia]. Qed.

Lemma find_split s d p : find s d 0 = Some p -> s = take p s ++ d ++ drop (p + length d) s.
Proof.
  intros E. pose proof (find_spec s d 0) as H. rewrite E in H. destruct H as (H1 & H2 & _).
  apply occurs_at_spec in H2 as [b Eb]; [|lia]. rewrite Eb at 1. do 2 f_equal. rewrite Eb at 1. rewrite app_assoc.
  symmetry. apply drop_app_length'. rewrite length_app, length_take. lia.
Qed.

Lemma cuts_total d s : d <> [] -> exists ps, cuts d s ps.
Proof.
  intros Hd. assert (Hl : 0 < length d) by (destruct d; [congruence|cbn; lia]).
  induction s as [s IH] using (induction_ltof1 _ (@length Z)). unfold ltof in IH. destruct (find s d 0) as [i|] eqn:E.
  - pose proof (find_bound s d i E). destruct (IH (drop (i + length d) s)) as [ps Hps]; [rewrite length_drop; lia|].
    exists (take i s :: ps). now apply cut_more.
  - exists [s]. now apply cut_last.
Qed.

Lemma cuts_join d s ps : cuts d s ps -> join d ps = s.
Proof.
  induction 1 as [s E|s i ps E H IH]; [reflexivity|]. rewrite join_cons by (eapply cuts_ne; exact H). rewrite IH.
  symmetry. now apply find_split.
Qed.

(** Each piece ends where the delimiter first occurs, the last has none. *)
Lemma cuts_leftmost d s ps : cuts d s ps ->
  exists init lst, ps = init ++ [lst] /\ Forall (fun p => find (p ++ d) d 0 = Some (length p)) init /\ contains lst d = false.
Proof.
  induction 1 as [s E|s i ps E H IH].
  - exists [], s. split_and!; [reflexivity|constructor|]. unfold contains. now rewrite E.
  - destruct IH as (init & lst & -> & H1 & H2). exists (take i s :: init), lst. split_and!; [reflexivity| |exact H2].
    constructor; [|exact H1]. pose proof (find_bound s d i E) as Hb. pose proof (find_spec s d 0) as Hs. rewrite E in Hs.
    destruct Hs as (H3 & H4 & H5). assert (Hl : length (take i s) = i) by (rewrite length_take; lia). rewrite Hl.
    assert (Hsame : forall q, q <= i -> occurs_at (take i s ++ d) d q = occurs_at s d q).
    { intros q Hq. rewrite (find_split s d i E) at 2. rewrite app_assoc. symmetry. apply occurs_at_app. rewrite length_app. lia. }
    apply find_first; [rewrite length_app; lia|now rewrite Hsame by lia|]. intros q Hq. rewrite Hsame by lia. apply H5. lia.
Qed.

Lemma cuts_length d s ps : d <> [] -> cuts d s ps -> length ps <= S (length s).
Proof.
  intros Hd. assert (Hl : 0 < length d) by (destruct d; [congruence|cbn; lia]). induction 1 as [s E|s i ps E H IH]; cbn; [lia|].
  rewrite length_drop in IH. pose proof (find_bound s d i E). lia.
Qed.

Definition nonempty (p : str) : bool := negb (length p =? 0).

(** The loop of [split] collects the pieces that are not empty. *)
Lemma split_loop_cuts d ps s fuel result start : cuts d (drop start s) ps -> start <= length s -> length ps < fuel ->
  exists result' start', split_loop fuel s d result start (find s d start) = Some (result', start')
    /\ (if start' <? length s then result' ++ [drop start' s] else result') = result ++ List.filter nonempty ps.
Proof.
  intros Hc. remember (drop start s) as rest eqn:Er. revert fuel result start Er.
  induction Hc as [rest E|rest i ps E Hc IH]; intros [|fuel] result start Er Hs Hf; cbn [length] in Hf; try lia; subst rest; cbn [split_loop];
    rewrite find_drop, E by exact Hs; cbn [fmap option_fmap option_map].
  - exists result, start. split; [reflexivity|]. cbn [List.filter]. unfold nonempty. rewrite length_drop.
    destruct (Nat.ltb_spec start (length s)); destruct (Nat.eqb_spec (length s - start) 0); cbn [negb]; try lia; now rewrite ?app_nil_r.
  - pose proof (find_bound _ d i E) as Hb. rewrite length_drop in Hb.
    destruct (IH fuel (if start <? start + i then result ++ [substr s start (start + i - start)] else result) (start + i + length d))
      as (r & st & E1 & E2); [rewrite drop_drop; f_equal; lia|lia|lia|].
    exists r, st. split; [exact E1|]. rewrite E2. cbn [List.filter]. unfold nonempty at 2, substr. rewrite length_take, length_drop.
    replace (start + i - start) with i by lia. replace (i `min` (length s - start)) with i by lia.
    destruct (Nat.ltb_spec start (start + i)); destruct (Nat.eqb_spec i 0); cbn [negb]; try lia; [|reflexivity].
    now rewrite <- app_assoc.
Qed.

(** The loop of [replace_all] puts the replacement between the pieces. *)
Lemma replace_loop_cuts d to ps rest fuel pre : cuts d rest ps -> length ps <= fuel ->
  replace_loop fuel (pre ++ rest) d to (length pre) = Some (pre ++ join to ps).
Proof.
  intros Hc. revert fuel pre. induction Hc as [rest E|rest i ps E Hc IH]; intros [|fuel] pre Hf; cbn [length] in Hf; try lia; cbn [replace_loop];
    rewrite find_drop, drop_app_length, E by (rewrite length_app; lia); cbn [fmap option_fmap option_map]; [reflexivity|].
  pose proof (find_bound _ d i E) as Hb. rewrite take_app_ge by lia. replace (length pre + i - length pre) with i by lia.
  rewrite drop_app_ge by lia. replace (length pre + i + length d - length pre) with (i + length d) by lia.
  specialize (IH fuel (pre ++ take i rest ++ to)). rewrite !length_app, length_take in IH.
  replace (i `min` length rest) with i in IH by lia. rewrite <- !app_assoc in IH.
  rewrite <- app_assoc. replace (length pre + i + length to) with (length pre + (i + length to)) by lia. rewrite IH by lia.
  now rewrite (join_cons to) by (eapply cuts_ne; exact Hc).
Qed.

(** A string is cut at the leftmost occurrences of a delimiter; splitting
    keeps the pieces that are not empty (the empty string is one piece), and
    replacing puts the replacement where the delimiter was, whatever the
    replacement contains. *)
Theorem string_cut (s d : str) (Hd : d <> []) :
  exists init lst, join d (init ++ [lst]) = s
  /\ Forall (fun p => find (p ++ d) d 0 = Some (length p)) init /\ contains lst d = false
  /\ split s d = Some (if length s =? 0 then [s] else List.filter nonempty (init ++ [lst]))
  /\ (forall to, replace_all s d to = Some (join to (init ++ [lst])) /\ replace_all_inplace s d to = replace_all s d to).
Proof.
  destruct (cuts_total d s Hd) as [ps Hc]. destruct (cuts_leftmost d s ps Hc) as (init & lst & -> & H1 & H2).
  exists init, lst. pose proof (cuts_length d s _ Hd Hc) as Hl. assert (Hn : (length d =? 0) = false) by (apply Nat.eqb_neq; destruct d; [congruence|discriminate]).
  split_and!; auto; [now apply cuts_join| |].
  - unfold split. rewrite Hn, orb_false_r. destruct (length s =? 0); [reflexivity|].
    destruct (split_loop_cuts d (init ++ [lst]) s (S (S (length s))) [] 0) as (r & st & -> & E); [now rewrite drop_0|lia|lia|]. now rewrite E.
  - intros to. split; [|reflexivity]. unfold replace_all. rewrite Hn. exact (replace_loop_cuts d to _ s (S (length s)) [] Hc Hl).
Qed.

Lemma string_cut_witness : split [1; 2; 9; 9; 3; 9]%Z [9]%Z = Some [[1; 2]; [3]]%Z
  /\ exists init lst, join [9%Z] (init ++ [lst]) = [1; 2; 9; 9; 3; 9]%Z /\ contains lst [9%Z] = false.
Proof.
  split; [reflexivity|]. destruct (string_cut [1; 2; 9; 9; 3; 9]%Z [9]%Z ltac:(discriminate)) as (init & lst & E & _ & Hc & _).
  exists init, lst. split; [exact E|exact Hc].
Defined.

(** ** Trimming *)

Lemma mem_spec c target : mem c target = true <-> c ∈ target.
Proof. apply bool_decide_eq_true. Qed.

Lemma find_first_not_of_spec s target :
  match find_first_not_of s target with
  | Some i => exists l c r, s = l ++ c :: r /\ length l = i /\ Forall (fun x => x ∈ target) l /\ c ∉ target
  | None => Forall (fun x => x ∈ target) s
  end.
Proof.
  induction s as [|c s IH]; cbn [find_first_not_of]; [constructor|]. destruct (mem c target) eqn:E.
  - apply mem_spec in E. destruct (find_first_not_of s target) as [i|]; cbn [fmap option_fmap option_map].
    + destruct IH as (l & c' & r & -> & H1 & H2 & H3). exists (c :: l), c', r. split_and!; cbn; auto.
    + now constructor.
  - exists [], c, s. split_and!; auto. intros H. apply mem_spec in H. congruence.
Qed.

Lemma trim_left_spec s target : exists l, s = l ++ trim_left s target /\ Forall (fun x => x ∈ target) l
  /\ match trim_left s target with [] => True | c :: _ => c ∉ target end.
Proof.
  unfold trim_left. pose proof (find_first_not_of_spec s target) as H. destruct (find_first_not_of s target) as [i|].
  - destruct H as (l & c & r & -> & <- & H1 & H2). exists l. rewrite drop_app_length. auto.
  - exists s. rewrite app_nil_r. auto.
Qed.

Lemma trim_right_rev s target : trim_right s target = rev (trim_left (rev s) target).
Proof.
  unfold trim_right, trim_left, find_last_not_of, substr. pose proof (find_first_not_of_spec (rev s) target) as H.
  destruct (find_first_not_of (rev s) target) as [i|]; cbn [fmap option_fmap option_map]; [|reflexivity].
  destruct H as (l & c & r & E & <- & _ & _). rewrite E, drop_app_length, drop_0.
  assert (Es : s = rev r ++ [c] ++ rev l) by (rewrite <- (rev_involutive s), E, rev_app_distr; cbn; now rewrite <- app_assoc).
  rewrite Es, app_assoc. cbn [rev]. apply take_app_length'. rewrite !length_app, !length_rev. cbn. lia.
Qed.

Lemma trim_right_spec s target : exists r, s = trim_right s target ++ r /\ Forall (fun x => x ∈ target) r
  /\ match rev (trim_right s target) with [] => True | c :: _ => c ∉ target end.
Proof.
  rewrite trim_right_rev, rev_involutive. destruct (trim_left_spec (rev s) target) as (l & E & H1 & H2).
  exists (rev l). split_and!; [|now apply List.Forall_rev|exact H2]. rewrite <- rev_app_distr, <- E. now rewrite rev_involutive.
Qed.

Lemma trim_inplace_eq s target : trim_inplace s target = trim s target.
Proof.
  unfold trim_inplace, trim. assert (E1 : erase s (match find_last_not_of s target with Some i => i + 1 | None => 0 end) None = trim_right s target).
  { unfold erase, trim_right, substr. rewrite app_nil_r. destruct (find_last_not_of s target); [now rewrite drop_0|reflexivity]. }
  rewrite E1. unfold erase, trim_left. cbn [take]. destruct (find_first_not_of _ target); reflexivity.
Qed.

(** Trimming removes exactly the longest runs of the target's characters at
    both ends; the two forms agree. *)
Theorem string_trim (s target : str) :
  (exists l r, s = l ++ trim s target ++ r /\ Forall (fun x => x ∈ target) l /\ Forall (fun x => x ∈ target) r)
  /\ match trim s target with [] => True | c :: _ => c ∉ target end
  /\ match rev (trim s target) with [] => True | c :: _ => c ∉ target end
  /\ trim_inplace s target = trim s target.
Proof.
  destruct (trim_right_spec s target) as (r & E & H1 & H2). destruct (trim_left_spec (trim_right s target) target) as (l & E' & H3 & H4).
  split_and!; [|exact H4| |apply trim_inplace_eq].
  - exists l, r. fold (trim s target) in E'. rewrite app_assoc, <- E'. auto.
  - unfold trim. destruct (trim_left (trim_right s target) target) as [|c m] eqn:Et; [exact I|]. rewrite E' in H2.
    destruct (rev (c :: m)) as [|x y] eqn:Er; [exact I|]. rewrite rev_app_distr, Er in H2. exact H2.
Qed.

(** ** Case and C strings *)

Lemma iequal_lower a b : iequal a b = bool_decide (to_lower a = to_lower b).
Proof.
  revert b. induction a as [|x a IH]; intros [|y b]; try reflexivity. cbn [iequal]. rewrite IH.
  change (to_lower (x :: a)) with (tolower x :: to_lower a). change (to_lower (y :: b)) with (tolower y :: to_lower b).
  destruct (Z.eqb_spec (tolower x) (tolower y)) as [E|E]; cbn [andb].
  - apply bool_decide_ext. split; [intros ->; now rewrite E|now intros [= _ ->]].
  - symmetry. apply bool_decide_eq_false. now intros [= H _].
Qed.

Lemma c_str_spec m s : c_str m = Some s -> exists r, m = s ++ 0%Z :: r /\ (0%Z ∉ s).
Proof.
  revert s. induction m as [|c m IH]; intros s; cbn [c_str]; [discriminate|]. destruct (Z.eqb_spec c 0) as [->|Hc].
  - intros [= <-]. exists m. split; [reflexivity|]. now intros H%elem_of_nil.
  - destruct (c_str m) as [s'|]; [|discriminate]. intros [= <-]. destruct (IH s' eq_refl) as (r & -> & Hn). exists r.
    split; [reflexivity|]. intros [H|H]%elem_of_cons; congruence.
Qed.

Lemma c_str_app s r : (0%Z ∉ s) -> c_str (s ++ 0%Z :: r) = Some s.
Proof.
  induction s as [|c s IH]; intros H; [reflexivity|]. cbn [app c_str]. apply not_elem_of_cons in H as [H1 H2].
  rewrite (proj2 (Z.eqb_neq c 0)) by congruence. now rewrite IH.
Qed.

(** The bounded copy leaves a terminated prefix of the source of at most
    [count] and [destsz - 1] characters, and nothing past [destsz] changes. *)
Theorem strncpy_bounds (dest src s : str) (destsz count : nat) (Hs : c_str src = Some s) (Hz : 0 < destsz <= length dest) :
  exists dest', strncpy_s (Some dest) destsz (Some src) count = Some (0%Z, dest')
  /\ c_str dest' = Some (take (count `min` (destsz - 1)) s)
  /\ length dest' = length dest /\ drop destsz dest' = drop destsz dest.
Proof.
  unfold strncpy_s. rewrite (proj2 (Nat.eqb_neq destsz 0)), Hs by lia.
  set (n := if destsz - 1 <? _ then _ else _). assert (Hn : n = (count `min` (destsz - 1)) `min` length s).
  { unfold n. destruct (Nat.ltb_spec count (length s)).
    - destruct (Nat.ltb_spec (destsz - 1) count); lia.
    - destruct (Nat.ltb_spec (destsz - 1) (length s)); lia. }
  rewrite (proj2 (Nat.leb_le _ _)) by lia. destruct (c_str_spec _ _ Hs) as (r & _ & H0). eexists. split; [reflexivity|].
  assert (Ht : take n s = take (count `min` (destsz - 1)) s).
  { rewrite Hn. rewrite <- take_take. now rewrite (take_ge s (length s)) by lia. }
  assert (Hl : length (take n s) = n) by (rewrite length_take; lia). rewrite <- Ht. split_and!.
  - apply c_str_app. intros Hin. apply H0. apply (elem_of_take _ _ _) in Hin as (i & Hi & _). now apply list_elem_of_lookup_2 in Hi.
  - rewrite length_app. cbn. rewrite length_drop. lia.
  - replace (take n s ++ 0%Z :: drop (S n) dest) with ((take n s ++ [0%Z]) ++ drop (S n) dest) by now rewrite <- app_assoc.
    rewrite drop_app_ge by (rewrite length_app; cbn; lia). rewrite drop_drop, length_app. cbn. f_equal. lia.
Qed.

Lemma strncpy_bounds_witness : strncpy_s (Some [7; 7; 7; 7]%Z) 3 (Some [1; 2; 3; 0]%Z) 9 = Some (0, [1; 2; 0; 7])%Z
  /\ exists d, strncpy_s (Some [7; 7; 7; 7]%Z) 3 (Some [1; 2; 3; 0]%Z) 9 = Some (0%Z, d) /\ drop 3 d = [7%Z].
Proof.
  split; [reflexivity|].
  destruct (strncpy_bounds [7; 7; 7; 7]%Z [1; 2; 3; 0]%Z [1; 2; 3]%Z 3 9 eq_refl ltac:(cbn; lia)) as (d & E & _ & _ & H).
  exists d. split; [exact E|exact H].
Defined.

(** ** Addresses *)

Definition number (base : Z) (s : str) : Z :=
  fold_left (fun n c => (n * base + (if (c <? 58)%Z then c - 48 else c - 87))%Z) s 0%Z.

Lemma number_text_snoc base s c : number base (s ++ [c]) = (number base s * base + (if (c <? 58)%Z then c - 48 else c - 87))%Z.
Proof. unfold number. now rewrite fold_left_app. Qed.

Lemma digit_number d : (0 <= d < 16)%Z -> (if (digit d <? 58)%Z then digit d - 48 else digit d - 87)%Z = d.
Proof. intros H. unfold digit. destruct (Z.ltb_spec d 10); decide_cmps; lia. Qed.

Lemma print_number base fuel n : (2 <= base <= 16)%Z -> (0 <= n < base ^ Z.of_nat fuel)%Z -> number base (print fuel base n) = n.
Proof.
  intros Hb. revert n. induction fuel as [|fuel IH]; intros n Hn; [cbn in *; lia|]. cbn [print].
  destruct (Z.ltb_spec n base) as [Hs|Hs].
  - cbn. apply digit_number. lia.
  - pose proof (Z.mod_pos_bound n base ltac:(lia)). rewrite number_text_snoc, digit_number by lia. rewrite IH.
    + pose proof (Z.div_mod n base). lia.
    + rewrite Nat2Z.inj_succ, Z.pow_succ_r in Hn by lia. split; [apply Z.div_pos; lia|apply Z.div_lt_upper_bound; lia].
Qed.

Lemma print_length base fuel n k : (2 <= base)%Z -> (0 <= n < base ^ Z.of_nat (S k))%Z -> length (print fuel base n) <= S k.
Proof.
  intros Hb. revert n k. induction fuel as [|fuel IH]; intros n k Hn; [cbn; lia|]. cbn [print].
  destruct (Z.ltb_spec n base) as [Hs|Hs]; [cbn; lia|]. rewrite length_app. cbn [length]. destruct k as [|k].
  - cbn in Hn. lia.
  - assert (length (print fuel base (n / base)) <= S k); [|lia]. apply IH.
    rewrite (Nat2Z.inj_succ (S k)), Z.pow_succ_r in Hn by lia. split; [apply Z.div_pos; lia|apply Z.div_lt_upper_bound; lia].
Qed.

Definition read_addr (is_hex : bool) (s : str) : option Z :=
  Some (if is_hex then number 16 (drop 2 s) else number 10 s).

(** The text of an address is never cut, and gives the address back. *)
#[export] Instance addr_codec is_hex : Codec (fun p => uint 64 p) (fun p => from_ptr_addr p is_hex) (read_addr is_hex).
Proof.
  intros p Hp. unfold read_addr, from_ptr_addr. f_equal. unfold uint in Hp. destruct (Z.eqb_spec p 0) as [->|Hn]; [now destruct is_hex|].
  assert (H16 : length (print 64 16 p) <= 16) by (apply (print_length 16 64 p 15); [lia|]; change (16 ^ Z.of_nat 16)%Z with (2 ^ 64)%Z; lia).
  assert (H10 : length (print 64 10 p) <= 20).
  { apply (print_length 10 64 p 19); [lia|]. assert (2 ^ 64 < 10 ^ Z.of_nat 20)%Z by reflexivity. lia. }
  destruct is_hex.
  - rewrite take_ge by (rewrite length_app; cbn [length]; lia). cbn [app]. rewrite !skipn_cons, drop_0. apply print_number; [lia|].
    assert (2 ^ 64 < 16 ^ Z.of_nat 64)%Z by reflexivity. lia.
  - rewrite take_ge by lia. apply print_number; [lia|]. assert (2 ^ 64 < 10 ^ Z.of_nat 64)%Z by reflexivity. lia.
Qed.

(** ** Conversions *)

(** A view that ends before its terminator is converted together with what
    follows it. *)
Lemma view_overread mbs s after : s <> [] -> (0%Z ∉ s ++ after) ->
  to_wstring mbs s (after ++ [0%Z]) = Some (let* w := mbs (s ++ after) in Some (take (length w) w)) /\ to_wstring mbs s after = None.
Proof.
  intros Hs Hn. unfold to_wstring, utf8_to_wide_impl. rewrite (proj2 (Nat.eqb_neq (length s) 0)) by (destruct s; [congruence|discriminate]).
  rewrite app_assoc, c_str_app by exact Hn. split; [reflexivity|]. destruct (c_str (s ++ after)) as [x|] eqn:E; [|reflexivity].
  apply c_str_spec in E as (r & E & _). exfalso. apply Hn. rewrite E. apply elem_of_app. right. now left.
Qed.

(** On a [std::string] without a zero inside, the whole string is converted. *)
Lemma string_to_wstring_spec mbs s : (0%Z ∉ s) -> (mbs [] = Some []) ->
  string_to_wstring mbs s = Some (match mbs s with Some w => w | None => [] end).
Proof.
  intros Hn H0. unfold string_to_wstring, to_wstring_safe, to_wstring, utf8_to_wide_impl. destruct s as [|c s]; cbn [length Nat.eqb].
  - now rewrite H0.
  - rewrite (c_str_app (c :: s) [] Hn). destruct (mbs (c :: s)) as [w|]; [|reflexivity]. now rewrite take_ge by lia.
Qed.

(** ** The cache of regular expressions *)

Section Cache.
Context {R : Type} (compile : str -> option R).

Record cache_ok (c : list (@cache_entry R)) : Prop := CacheOk
  { cache_small : length c <= MAX_CACHE_SIZE;
    cache_nodup : NoDup (pattern <$> c);
    cache_compiled : Forall (fun e => compile (pattern e) = Some (compiled e)) c }.

Lemma lookup_spec p (c : list (@cache_entry R)) i :
  match lookup p c i with
  | Some j => exists e, i <= j /\ c !! (j - i) = Some e /\ pattern e = p
  | None => p ∉ pattern <$> c
  end.
Proof.
  revert i. induction c as [|e c IH]; intros i; cbn [lookup]; [intros H%elem_of_nil; exact H|].
  destruct (bool_decide_reflect (pattern e = p)) as [Hp|Hp].
  - exists e. rewrite Nat.sub_diag. auto.
  - specialize (IH (S i)). destruct (lookup p c (S i)) as [j|].
    + destruct IH as (e' & H1 & H2 & H3). exists e'. split_and!; auto; [lia|]. replace (j - i) with (S (j - S i)) by lia. exact H2.
    + rewrite fmap_cons. intros [H|H]%elem_of_cons; congruence.
Qed.

(** The element removed is the first of the least used. *)
Lemma min_element_spec (c : list (@cache_entry R)) : forall pre best e, pre !! best = Some e ->
  (forall j e', pre !! j = Some e' -> (access_count e <= access_count e')%Z) ->
  (forall j e', j < best -> pre !! j = Some e' -> (access_count e < access_count e')%Z) ->
  exists e1, (pre ++ c) !! min_element best (access_count e) (length pre) c = Some e1
  /\ (forall j e', (pre ++ c) !! j = Some e' -> (access_count e1 <= access_count e')%Z)
  /\ (forall j e', j < min_element best (access_count e) (length pre) c -> (pre ++ c) !! j = Some e' -> (access_count e1 < access_count e')%Z).
Proof.
  induction c as [|x c IH]; intros pre best e Hb Hle Hlt; cbn [min_element]; [rewrite app_nil_r; eauto|].
  assert (Hlen : length (pre ++ [x]) = S (length pre)) by (rewrite length_app; cbn; lia).
  replace (pre ++ x :: c) with ((pre ++ [x]) ++ c) by now rewrite <- app_assoc. rewrite <- Hlen.
  assert (Hsplit : forall j e', (pre ++ [x]) !! j = Some e' -> pre !! j = Some e' \/ (j = length pre /\ e' = x)).
  { intros j e' Hj. apply lookup_app_Some in Hj as [Hj|[Hj1 Hj2]]; [now left|]. right. apply list_lookup_singleton_Some in Hj2 as [Hj2 ->]. split; [lia|reflexivity]. }
  destruct (Z.ltb_spec (access_count x) (access_count e)) as [Hx|Hx]; apply IH.
  - rewrite lookup_app_r, Nat.sub_diag by lia. reflexivity.
  - intros j e' [Hj|[_ ->]]%Hsplit; [|lia]. specialize (Hle _ _ Hj). lia.
  - intros j e' Hjl [Hj|[-> ->]]%Hsplit; [|lia]. specialize (Hle _ _ Hj). lia.
  - now apply lookup_app_l_Some.
  - intros j e' [Hj|[_ ->]]%Hsplit; [now apply (Hle j)|lia].
  - intros j e' Hjl [Hj|[-> ->]]%Hsplit; [now apply (Hlt j)|]. apply lookup_lt_Some in Hb. lia.
Qed.

Lemma evict_spec (c : list (@cache_entry R)) : c <> [] -> exists l e r, c = l ++ e :: r /\ evict c = l ++ r
  /\ Forall (fun e' => (access_count e < access_count e')%Z) l /\ Forall (fun e' => (access_count e <= access_count e')%Z) r.
Proof.
  intros Hne. destruct c as [|e0 c]; [congruence|]. cbn [evict].
  destruct (min_element_spec c [e0] 0 e0 eq_refl) as (e & H1 & H2 & H3).
  { intros [|j] e' Hj; [injection Hj as <-; lia|discriminate]. }
  { intros j e' Hj. lia. }
  cbn [app length] in *. set (i := min_element 0 (access_count e0) 1 c) in *.
  exists (take i (e0 :: c)), e, (drop (S i) (e0 :: c)). split_and!; [now rewrite take_drop_middle|reflexivity| |].
  - apply Forall_lookup. intros j e' Hj. apply lookup_take_Some in Hj as [Hj Hi]. now apply (H3 j).
  - apply Forall_lookup. intros j e' Hj. rewrite lookup_drop in Hj. now apply (H2 (S i + j)).
Qed.

Lemma evict_ok (c : list (@cache_entry R)) : cache_ok c -> cache_ok (evict c) /\ length (evict c) = length c - 1 /\ (forall p, p ∉ pattern <$> c -> p ∉ pattern <$> evict c).
Proof.
  intros [H1 H2 H3]. destruct (decide (c = [])) as [->|Hne]; [cbn; split_and!; auto; now constructor|].
  destruct (evict_spec c Hne) as (l & e & r & -> & -> & _). rewrite !fmap_app, fmap_cons in *. rewrite !length_app in *. cbn [length] in *.
  apply Forall_app in H3 as [H4 H5]. apply Forall_cons_1 in H5 as [_ H5]. split_and!; [constructor|lia|].
  - rewrite length_app. lia.
  - rewrite fmap_app. apply list.NoDup_app in H2 as (N1 & N2 & N3). apply list.NoDup_cons in N3 as [_ N3]. apply list.NoDup_app. split_and!; auto.
    intros x Hx Hr. apply (N2 x Hx). now right.
  - now apply Forall_app.
  - intros p Hp. rewrite elem_of_app, elem_of_cons in Hp. rewrite elem_of_app. tauto.
Qed.

Lemma touch_ok (c : list (@cache_entry R)) i : cache_ok c -> cache_ok (alter touch i c).
Proof.
  intros [H1 H2 H3]. constructor.
  - now rewrite length_alter.
  - replace (pattern <$> alter touch i c) with (pattern <$> c); [exact H2|]. apply list_eq. intros j. rewrite !list_lookup_fmap.
    destruct (decide (j = i)) as [->|Hj]; [|now rewrite list_lookup_alter_ne by congruence]. rewrite list_lookup_alter_eq. now destruct (c !! i).
  - apply Forall_alter; [exact H3|]. intros e _ He. exact He.
Qed.

(** The reference a call returns denotes the compiled pattern. *)
Lemma get_regex_spec p (c : list (@cache_entry R)) : cache_ok c ->
  cache_ok (get_regex compile p c).2
  /\ match compile p with
     | None => (get_regex compile p c).1 = None
     | Some r => exists i, (get_regex compile p c).1 = Some i /\ deref (get_regex compile p c).2 i = Some r
     end.
Proof.
  intros Hc. unfold get_regex. pose proof (lookup_spec p c 0) as Hl. destruct (lookup p c 0) as [i|].
  - destruct Hl as (e & _ & He & <-). rewrite Nat.sub_0_r in He. pose proof (cache_compiled c Hc) as Hf.
    rewrite Forall_lookup in Hf. rewrite (Hf i e He). cbn [fst snd]. split; [now apply touch_ok|]. exists i. split; [reflexivity|].
    unfold deref. rewrite list_lookup_alter_eq, He. reflexivity.
  - set (c1 := if MAX_CACHE_SIZE <=? length c then evict c else c).
    assert (Hc1 : cache_ok c1 /\ (p ∉ pattern <$> c1) /\ length c1 < MAX_CACHE_SIZE).
    { unfold c1. destruct (Nat.leb_spec MAX_CACHE_SIZE (length c)) as [Hn|Hn]; [|auto].
      destruct (evict_ok c Hc) as (H1 & H2 & H3). split_and!; auto. pose proof (cache_small c Hc). unfold MAX_CACHE_SIZE in *. lia. }
    destruct Hc1 as ([H1 H2 H3] & Hn & Hlt). destruct (compile p) as [r|] eqn:Ep; cbn [fst snd]; [|split; [now constructor|reflexivity]]. split.
    + constructor; [rewrite length_app; cbn; lia| |].
      * rewrite fmap_app. apply list.NoDup_app. split_and!; [exact H2| |apply NoDup_singleton]. intros x Hx [->|Hx']%elem_of_cons; [now apply Hn|now apply elem_of_nil in Hx'].
      * apply Forall_app. split; [exact H3|]. constructor; [exact Ep|constructor].
    + exists (length c1). split; [reflexivity|]. unfold deref. rewrite lookup_app_r, Nat.sub_diag by lia. reflexivity.
Qed.

Lemma with_regex_spec {A} p (c : list (@cache_entry R)) (fail : A) f : cache_ok c ->
  with_regex compile p c fail f = Some (match compile p with Some r => f r | None => fail end, (get_regex compile p c).2).
Proof.
  intros Hc. destruct (get_regex_spec p c Hc) as [_ H]. unfold with_regex. destruct (get_regex compile p c) as [[i|] c']; cbn [fst snd] in *.
  - destruct (compile p) as [r|]; [|discriminate]. destruct H as (j & [= <-] & ->). reflexivity.
  - destruct (compile p) as [r|]; [now destruct H as (j & H & _)|reflexivity].
Qed.
End Cache.

(** Whatever was looked up before, the functions on regular expressions
    answer as if each call compiled its pattern, and the cache stays a cache of
    at most 32 distinct patterns with their compiled forms. *)
Theorem regex_cache_transparent {R : Type} (compile : str -> option R) (regex_search : R -> str -> option str)
    (matches pieces : R -> str -> list str) (substitute : R -> str -> str -> str) (c : list cache_entry) (Hc : cache_ok compile c) (src p to : str) :
  let c' := (get_regex compile p c).2 in
  cache_ok compile c'
  /\ regex_search_first compile regex_search src p c
     = Some (match compile p with Some r => regex_search r src | None => None end, c')
  /\ regex_search_all compile matches src p c = Some (match compile p with Some r => matches r src | None => [] end, c')
  /\ regex_split compile pieces src p c = Some (match compile p with Some r => pieces r src | None => [src] end, c')
  /\ regex_replace compile substitute src p to c = Some (match compile p with Some r => substitute r src to | None => src end, c')
  /\ (find_first_of p specials = None -> p <> [] ->
      exists init lst, join p (init ++ [lst]) = src /\ replace compile substitute src p to c = Some (join to (init ++ [lst]), c)).
Proof.
  cbv zeta. split_and!.
  - now apply get_regex_spec.
  - exact (with_regex_spec compile p c None _ Hc).
  - exact (with_regex_spec compile p c [] _ Hc).
  - exact (with_regex_spec compile p c [src] _ Hc).
  - exact (with_regex_spec compile p c src _ Hc).
  - intros Hs Hp. destruct (cuts_total p src Hp) as [ps Hps]. pose proof (cuts_length p src _ Hp Hps).
    destruct (cuts_leftmost p src ps Hps) as (init & lst & -> & _ & _). exists init, lst. split; [now apply cuts_join|].
    unfold replace. rewrite Hs. unfold replace_all_inplace. rewrite (proj2 (Nat.eqb_neq (length p) 0)) by (destruct p; [congruence|discriminate]).
    pose proof (replace_loop_cuts p to (init ++ [lst]) src (S (length src)) [] Hps ltac:(assumption)) as E. cbn [app length] in E. now rewrite E.
Qed.

(** A cache of as many patterns as it may hold. *)
Definition demo_compile (p : str) : option str := if bool_decide (p = []) then None else Some p.
Definition demo_cache : list cache_entry := (fun i => Entry [Z.of_nat i] [Z.of_nat i] 1) <$> seq 1 32.
Lemma demo_cache_ok : cache_ok demo_compile demo_cache.
Proof.
  constructor; [cbn; unfold MAX_CACHE_SIZE; lia| |].
  - apply (bool_decide_eq_true_1 _). vm_compute. reflexivity.
  - apply Forall_fmap, Forall_true. intros i. reflexivity.
Qed.

Lemma regex_cache_transparent_witness :
  regex_search_first demo_compile (fun r s => if contains s r then Some r else None) [5; 6]%Z [6]%Z demo_cache
  = Some (Some [6]%Z, (get_regex demo_compile [6]%Z demo_cache).2).
Proof.
  destruct (regex_cache_transparent demo_compile (fun r s => if contains s r then Some r else None) (fun r s => [s]) (fun r s => [s])
    (fun r s to => s) demo_cache demo_cache_ok [5; 6]%Z [6]%Z [7]%Z) as (_ & E & _). exact E.
Defined.

(** A reference held while another thread looks up a new pattern denotes
    another expression: the mutex is released before the reference is used. *)
Lemma regex_reference_dangles : exists c c1 c2 i, cache_ok demo_compile c
  /\ get_regex demo_compile [32]%Z c = (Some i, c1) /\ deref c1 i = Some [32]%Z
  /\ (get_regex demo_compile [99]%Z c1).2 = c2 /\ deref c2 i = Some [99]%Z.
Proof.
  exists demo_cache. do 3 eexists. split; [exact demo_cache_ok|]. split_and!; [vm_compute; reflexivity|reflexivity|reflexivity|reflexivity].
Qed.

(** A pattern that is refused costs a full cache an entry. *)
Lemma regex_error_evicts : length (get_regex demo_compile [] demo_cache).2 = 31.
Proof. reflexivity. Qed.
End StringUtil.
