(* ===== verification/Utf8.v ===== *)
(** * UTF-8

    [encoding/utf8.hpp], the branch of C++17 on POSIX: the validity check, and
    the conversions between narrow and wide strings, buffers and streams.  The
    conversions of the C library, [wcsrtombs] and [mbsrtowcs] in the current
    locale, are parameters with the laws of a UTF-8 locale.  Characters are
    numbers; [None] is an access out of bounds. *)

From Stdlib Require Import ZArith Lia List Bool.
From stdpp Require Import base tactics list option.
From S2P Require Import Prelude Padding StringUtil.

Open Scope hj_scope.
Open Scope nat_scope.

Module Utf8.
Inductive error_code := ok | buffer_overflow | invalid_input | conversion_failed.
#[export] Instance error_code_eq_dec : EqDecision error_code.
Proof. solve_decision. Defined.

(** ** Validity *)

(** [str[i]] for [i < size], where [char]s are read as bytes: the masks of the
    code keep the low bits only. *)
Definition byte_at (str : list Z) (i : nat) : option Z := str !! i.
Definition continues (c : Z) : bool := (Z.land c 0xC0 =? 0x80)%Z.
(** The code points of sequences of three and of four bytes. *)
Definition cp3 (c c1 c2 : Z) : Z :=
  Z.lor (Z.lor (Z.shiftl (Z.land c 0x0F) 12) (Z.shiftl (Z.land c1 0x3F) 6)) (Z.land c2 0x3F).
Definition cp4 (c c1 c2 c3 : Z) : Z :=
  Z.lor (Z.lor (Z.lor (Z.shiftl (Z.land c 0x07) 18) (Z.shiftl (Z.land c1 0x3F) 12)) (Z.shiftl (Z.land c2 0x3F) 6)) (Z.land c3 0x3F).

(** One turn of the loop: [inl b] returns [b], [inr i] goes on at [i]. *)
Definition check_at (str : list Z) (i : nat) : option (bool + nat) :=
  let len := length str in
  let* c := byte_at str i in
  if (c <=? 0x7F)%Z then Some (inr (S i))
  else if (Z.land c 0xE0 =? 0xC0)%Z then
    if len <=? i + 1 then Some (inl false) else
    let* c1 := byte_at str (i + 1) in
    if negb (continues c1) then Some (inl false) else
    if (Z.land c 0xFE =? 0xC0)%Z then Some (inl false) else Some (inr (i + 2))
  else if (Z.land c 0xF0 =? 0xE0)%Z then
    if len <=? i + 2 then Some (inl false) else
    let* c1 := byte_at str (i + 1) in let* c2 := byte_at str (i + 2) in
    if negb (continues c1) || negb (continues c2) then Some (inl false) else
    let cp := cp3 c c1 c2 in
    if ((0xD800 <=? cp) && (cp <=? 0xDFFF))%Z then Some (inl false) else Some (inr (i + 3))
  else if (Z.land c 0xF8 =? 0xF0)%Z then
    if len <=? i + 3 then Some (inl false) else
    let* c1 := byte_at str (i + 1) in let* c2 := byte_at str (i + 2) in let* c3 := byte_at str (i + 3) in
    if negb (continues c1) || negb (continues c2) || negb (continues c3) then Some (inl false) else
    let cp := cp4 c c1 c2 c3 in
    if (0x10FFFF <? cp)%Z then Some (inl false) else Some (inr (i + 4))
  else Some (inl false).
Fixpoint is_valid_loop (fuel : nat) (str : list Z) (i : nat) : option bool :=
  match fuel with
  | O => None
  | S fuel =>
      if i <? length str then
        let* r := check_at str i in
        match r with inl b => Some b | inr i => is_valid_loop fuel str i end
      else Some true
  end.
Definition is_valid (str : list Z) : option bool := is_valid_loop (S (length str)) str 0.

(** ** Conversions *)

Section Conversions.
(** The conversions of the locale, on strings without a terminator. *)
Context (wcsrtombs mbsrtowcs : list Z -> option (list Z)) (UTF8_BUF_SZ : nat).

(** A string and its terminator, up to the first terminator. *)
Definition c_string (s : list Z) : list Z := default [] (StringUtil.c_str (s ++ [0%Z])).

Definition _decode (str : list Z) (ec : error_code) : list Z * error_code :=
  match wcsrtombs (c_string str) with None => ([], conversion_failed) | Some result => (result, ec) end.
Definition _decode_ok (str : list Z) : list Z := (_decode str ok).1.
Definition _decode_stream (out in_ : list Z) : list Z := fold_left (fun out wc => out ++ _decode_ok [wc]) in_ out.
(** [out] is a buffer of at least [out_len] elements, [in] a terminated one; the
    result is whether a pointer is returned, the buffer, its length and the code. *)
Definition _decode_buf (out : list Z) (out_len : nat) (in_ : list Z) (ec : error_code) : option (bool * list Z * nat * error_code) :=
  let* wstr := StringUtil.c_str in_ in
  let (str, ec) := _decode wstr ec in
  if negb (bool_decide (ec = ok)) then Some (false, out, out_len, ec) else
  if out_len <? length str + 1 then Some (false, out, out_len, buffer_overflow) else
  let* out := write out 0 str in
  let* out := write out (length str) [0%Z] in
  Some (true, out, length str + 1, ec).
Definition _encode (str : list Z) (ec : error_code) : list Z * error_code :=
  match mbsrtowcs (c_string str) with None => ([], conversion_failed) | Some result => (result, ec) end.
(** The loop stops at a piece that cannot be converted. *)
Fixpoint _encode_loop (fuel : nat) (out in_ : list Z) : option (list Z) :=
  match fuel with
  | O => None
  | S fuel =>
      let buffer := take UTF8_BUF_SZ in_ in
      if length buffer =? 0 then Some out else
      let (wstr, ec) := _encode buffer ok in
      if negb (bool_decide (ec = ok)) then Some out else
      _encode_loop fuel (out ++ wstr) (drop UTF8_BUF_SZ in_)
  end.
Definition _encode_stream (out in_ : list Z) : option (list Z) := _encode_loop (S (length in_)) out in_.
Definition _encode_buf (out : list Z) (out_len : nat) (in_ : list Z) (ec : error_code) : option (bool * list Z * nat * error_code) :=
  let* str := StringUtil.c_str in_ in
  let (wstr, ec) := _encode str ec in
  if negb (bool_decide (ec = ok)) then Some (false, out, out_len, ec) else
  if out_len <? length wstr + 1 then Some (false, out, out_len, buffer_overflow) else
  let* out := write out 0 wstr in
  let* out := write out (length wstr) [0%Z] in
  Some (true, out, length wstr + 1, ec).

(** [out_good], [in_good]: the states of the streams. *)
Definition decode_stream (out_good in_good : bool) (out in_ : list Z) : list Z :=
  if negb out_good || negb in_good then out else _decode_stream out in_.
Definition decode (str : list Z) (ec : error_code) : list Z * error_code :=
  match str with [] => ([], invalid_input) | _ => _decode str ec end.
Definition decode_ok (str : list Z) : list Z := (decode str ok).1.
(** Pointers may be null. *)
Definition decode_buf (out : option (list Z)) (out_len : nat) (in_ : option (list Z)) (ec : error_code) : option (bool * option (list Z) * nat * error_code) :=
  match out, in_ with
  | Some o, Some i =>
      if out_len <? 1 then Some (false, out, out_len, invalid_input) else
      let* (p, o, n, ec) := _decode_buf o out_len i ec in Some (p, Some o, n, ec)
  | _, _ => Some (false, out, out_len, invalid_input)
  end.
Definition encode_stream (out_good in_good : bool) (out in_ : list Z) : option (list Z) :=
  if negb out_good || negb in_good then Some out else _encode_stream out in_.
Definition encode (str : list Z) (ec : error_code) : list Z * error_code :=
  match str with [] => ([], invalid_input) | _ => _encode str ec end.
Definition encode_ok (str : list Z) : list Z := (encode str ok).1.
Definition encode_buf (out : option (list Z)) (out_len : nat) (in_ : option (list Z)) (ec : error_code) : option (bool * option (list Z) * nat * error_code) :=
  match out, in_ with
  | Some o, Some i =>
      if out_len <? 1 then Some (false, out, out_len, invalid_input) else
      let* (p, o, n, ec) := _encode_buf o out_len i ec in Some (p, Some o, n, ec)
  | _, _ => Some (false, out, out_len, invalid_input)
  end.
(** [cvt] changes nothing and reports an error. *)
Definition cvt {ios} (s : ios) (ec : error_code) : ios * error_code := (s, conversion_failed).
End Conversions.
End Utf8.

(** ** Reference *)

Import Utf8.

(** Scalar values, and their shortest encoding. *)
Definition scalar (c : Z) : Prop := (0 <= c < 0xD800 \/ 0xE000 <= c <= 0x10FFFF)%Z.
Definition encode_cp (c : Z) : list Z :=
  (if c <? 0x80 then [c]
   else if c <? 0x800 then [0xC0 + c / 64; 0x80 + c mod 64]
   else if c <? 0x10000 then [0xE0 + c / 4096; 0x80 + c / 64 mod 64; 0x80 + c mod 64]
   else [0xF0 + c / 262144; 0x80 + c / 4096 mod 64; 0x80 + c / 64 mod 64; 0x80 + c mod 64])%Z.
Definition utf8 (cps : list Z) : list Z := flat_map encode_cp cps.

(** Numbers of sequences of bytes. *)
Definition trail (c : Z) : Prop := (0x80 <= c <= 0xBF)%Z.
Definition value3 (c c1 c2 : Z) : Z := ((c - 0xE0) * 4096 + (c1 - 0x80) * 64 + (c2 - 0x80))%Z.
Definition value4 (c c1 c2 c3 : Z) : Z := ((c - 0xF0) * 262144 + (c1 - 0x80) * 4096 + (c2 - 0x80) * 64 + (c3 - 0x80))%Z.

(** Sequences: [strict] excludes those of three and four bytes for numbers that
    have shorter ones. *)
Inductive chunk (strict : bool) : list Z -> Prop :=
  | chunk1 c : (0 <= c <= 0x7F)%Z -> chunk strict [c]
  | chunk2 c c1 : (0xC2 <= c <= 0xDF)%Z -> trail c1 -> chunk strict [c; c1]
  | chunk3 c c1 c2 : (0xE0 <= c <= 0xEF)%Z -> trail c1 -> trail c2 -> ~ (0xD800 <= value3 c c1 c2 <= 0xDFFF)%Z ->
      (strict = true -> 0x800 <= value3 c c1 c2)%Z -> chunk strict [c; c1; c2]
  | chunk4 c c1 c2 c3 : (0xF0 <= c <= 0xF7)%Z -> trail c1 -> trail c2 -> trail c3 -> (value4 c c1 c2 c3 <= 0x10FFFF)%Z ->
      (strict = true -> 0x10000 <= value4 c c1 c2 c3)%Z -> chunk strict [c; c1; c2; c3].
Inductive text (strict : bool) : list Z -> Prop :=
  | text_nil : text strict []
  | text_app s r : chunk strict s -> text strict r -> text strict (s ++ r).

(** ** The masks *)

Lemma mask_of (f : Z -> bool) (g : Z -> bool) : forallb (fun n => Bool.eqb (f (Z.of_nat n)) (g (Z.of_nat n))) (List.seq 0 256) = true ->
  forall c, byte c -> f c = g c.
Proof. intros H c Hc. apply eqb_prop. apply (byte_forall (fun b => Bool.eqb (f b) (g b)) H c Hc). Qed.

Open Scope Z_scope.

Lemma continues_spec c : byte c -> continues c = (0x80 <=? c) && (c <=? 0xBF).
Proof. revert c. apply mask_of. vm_compute. reflexivity. Qed.
Lemma lead2_spec c : byte c -> (Z.land c 0xE0 =? 0xC0) = (0xC0 <=? c) && (c <=? 0xDF).
Proof. revert c. apply (mask_of (fun c => Z.land c 0xE0 =? 0xC0)). vm_compute. reflexivity. Qed.
Lemma overlong2_spec c : byte c -> (Z.land c 0xFE =? 0xC0) = (0xC0 <=? c) && (c <=? 0xC1).
Proof. revert c. apply (mask_of (fun c => Z.land c 0xFE =? 0xC0)). vm_compute. reflexivity. Qed.
Lemma lead3_spec c : byte c -> (Z.land c 0xF0 =? 0xE0) = (0xE0 <=? c) && (c <=? 0xEF).
Proof. revert c. apply (mask_of (fun c => Z.land c 0xF0 =? 0xE0)). vm_compute. reflexivity. Qed.
Lemma lead4_spec c : byte c -> (Z.land c 0xF8 =? 0xF0) = (0xF0 <=? c) && (c <=? 0xF7).
Proof. revert c. apply (mask_of (fun c => Z.land c 0xF8 =? 0xF0)). vm_compute. reflexivity. Qed.

Lemma land_ones c m k : m = Z.ones k -> 0 <= k -> Z.land c m = c mod 2 ^ k.
Proof. intros -> Hk. now apply Z.land_ones. Qed.

Lemma cp3_value c c1 c2 : 0xE0 <= c <= 0xEF -> trail c1 -> trail c2 -> cp3 c c1 c2 = value3 c c1 c2.
Proof.
  intros Hc H1 H2. unfold cp3, value3, trail in *. rewrite (land_ones c _ 4), (land_ones c1 _ 6), (land_ones c2 _ 6) by (reflexivity || lia).
  rewrite !Z.shiftl_mul_pow2 by lia. replace (c mod 2 ^ 4) with (c - 0xE0) by (change (2 ^ 4) with 16; Z.to_euclidean_division_equations; lia).
  replace (c1 mod 2 ^ 6) with (c1 - 0x80) by (change (2 ^ 6) with 64; Z.to_euclidean_division_equations; lia).
  replace (c2 mod 2 ^ 6) with (c2 - 0x80) by (change (2 ^ 6) with 64; Z.to_euclidean_division_equations; lia).
  rewrite (lor_shifted (c - 0xE0) _ 12) by (unfold uint; lia). replace ((c - 0xE0) * 2 ^ 12 + (c1 - 0x80) * 2 ^ 6) with (((c - 0xE0) * 64 + (c1 - 0x80)) * 2 ^ 6) by lia.
  rewrite lor_shifted by (unfold uint; lia). lia.
Qed.

Lemma cp4_value c c1 c2 c3 : 0xF0 <= c <= 0xF7 -> trail c1 -> trail c2 -> trail c3 -> cp4 c c1 c2 c3 = value4 c c1 c2 c3.
Proof.
  intros Hc H1 H2 H3. unfold cp4, value4, trail in *. rewrite (land_ones c _ 3), (land_ones c1 _ 6), (land_ones c2 _ 6), (land_ones c3 _ 6) by (reflexivity || lia).
  rewrite !Z.shiftl_mul_pow2 by lia. replace (c mod 2 ^ 3) with (c - 0xF0) by (change (2 ^ 3) with 8; Z.to_euclidean_division_equations; lia).
  replace (c1 mod 2 ^ 6) with (c1 - 0x80) by (change (2 ^ 6) with 64; Z.to_euclidean_division_equations; lia).
  replace (c2 mod 2 ^ 6) with (c2 - 0x80) by (change (2 ^ 6) with 64; Z.to_euclidean_division_equations; lia).
  replace (c3 mod 2 ^ 6) with (c3 - 0x80) by (change (2 ^ 6) with 64; Z.to_euclidean_division_equations; lia).
  rewrite (lor_shifted (c - 0xF0) _ 18) by (unfold uint; lia).
  replace ((c - 0xF0) * 2 ^ 18 + (c1 - 0x80) * 2 ^ 12) with (((c - 0xF0) * 64 + (c1 - 0x80)) * 2 ^ 12) by lia.
  rewrite lor_shifted by (unfold uint; lia).
  replace (((c - 0xF0) * 64 + (c1 - 0x80)) * 2 ^ 12 + (c2 - 0x80) * 2 ^ 6) with ((((c - 0xF0) * 64 + (c1 - 0x80)) * 64 + (c2 - 0x80)) * 2 ^ 6) by lia.
  rewrite lor_shifted by (unfold uint; lia). lia.
Qed.

(** ** One step of the check *)

(** The check on the rest of the text. *)
Definition check_rest (rest : list Z) : option (bool + nat) :=
  match rest with
  | [] => None
  | c :: rest =>
      if c <=? 0x7F then Some (inr 1%nat)
      else if Z.land c 0xE0 =? 0xC0 then
        match rest with
        | c1 :: _ => if negb (continues c1) then Some (inl false) else if Z.land c 0xFE =? 0xC0 then Some (inl false) else Some (inr 2%nat)
        | _ => Some (inl false)
        end
      else if Z.land c 0xF0 =? 0xE0 then
        match rest with
        | c1 :: c2 :: _ => if negb (continues c1) || negb (continues c2) then Some (inl false) else
            if (0xD800 <=? cp3 c c1 c2) && (cp3 c c1 c2 <=? 0xDFFF) then Some (inl false) else Some (inr 3%nat)
        | _ => Some (inl false)
        end
      else if Z.land c 0xF8 =? 0xF0 then
        match rest with
        | c1 :: c2 :: c3 :: _ => if negb (continues c1) || negb (continues c2) || negb (continues c3) then Some (inl false) else
            if 0x10FFFF <? cp4 c c1 c2 c3 then Some (inl false) else Some (inr 4%nat)
        | _ => Some (inl false)
        end
      else Some (inl false)
  end.

Lemma check_at_rest str i rest : drop i str = rest -> rest <> [] ->
  check_at str i = (let* r := check_rest rest in Some (match r with inl b => inl b | inr k => inr (i + k)%nat end)).
Proof.
  intros Hd Hne. assert (Hat : forall j, byte_at str (i + j) = rest !! j) by (intros j; unfold byte_at; rewrite <- Hd; symmetry; apply lookup_drop).
  assert (Hlen : length str = (i + length rest)%nat).
  { rewrite <- Hd, length_drop. enough (i < length str)%nat by lia. apply not_ge. intros Hge. apply Hne. rewrite <- Hd. now apply drop_ge. }
  unfold check_at. rewrite Hlen. replace (byte_at str i) with (rest !! 0%nat) by (rewrite <- Hat; f_equal; lia). rewrite !Hat.
  clear Hat Hlen Hd. destruct rest as [|c rest]; [congruence|]. clear Hne. unfold check_rest. change ((c :: rest) !! 0%nat) with (Some c). cbv beta iota.
  destruct (c <=? 0x7F); [do 2 f_equal; lia|].
  destruct (Z.land c 0xE0 =? 0xC0).
  { destruct rest as [|c1 rest]; cbn [length]; [now rewrite (proj2 (Nat.leb_le _ _)) by lia|]. rewrite (proj2 (Nat.leb_gt _ _)) by lia.
    change ((c :: c1 :: rest) !! 1%nat) with (Some c1). cbv beta iota. now repeat break_match. }
  destruct (Z.land c 0xF0 =? 0xE0).
  { destruct rest as [|c1 [|c2 rest]]; cbn [length]; [now rewrite (proj2 (Nat.leb_le _ _)) by lia..|]. rewrite (proj2 (Nat.leb_gt _ _)) by lia.
    change ((c :: c1 :: c2 :: rest) !! 1%nat) with (Some c1). change ((c :: c1 :: c2 :: rest) !! 2%nat) with (Some c2). cbv beta iota. now repeat break_match. }
  destruct (Z.land c 0xF8 =? 0xF0); [|reflexivity].
  destruct rest as [|c1 [|c2 [|c3 rest]]]; cbn [length]; [now rewrite (proj2 (Nat.leb_le _ _)) by lia..|]. rewrite (proj2 (Nat.leb_gt _ _)) by lia.
  change ((c :: c1 :: c2 :: c3 :: rest) !! 1%nat) with (Some c1). change ((c :: c1 :: c2 :: c3 :: rest) !! 2%nat) with (Some c2).
  change ((c :: c1 :: c2 :: c3 :: rest) !! 3%nat) with (Some c3). cbv beta iota. now repeat break_match.
Qed.

(** No sequence starts the text, or one does and its length is given. *)
Ltac no_chunk := right; split; [reflexivity|intros s r E C; inversion C; subst; cbn in E; simplify_eq; unfold trail in *; try lia].
Ltac some_chunk l := left; exists l; eexists; split_and!; [reflexivity|constructor; unfold trail; (lia || discriminate)|reflexivity].

Lemma check_rest_spec rest : bytes rest -> rest <> [] ->
  (exists s r, rest = s ++ r /\ chunk false s /\ check_rest rest = Some (inr (length s)))
  \/ check_rest rest = Some (inl false) /\ forall s r, rest = s ++ r -> ~ chunk false s.
Proof.
  intros Hr Hne. destruct rest as [|c rest]; [congruence|]. clear Hne. apply Forall_cons_1 in Hr as [Hc Hr]. cbn [check_rest]. unfold byte in Hc.
  destruct (Z.leb_spec c 0x7F) as [L|L]; [some_chunk [c]|]. rewrite lead2_spec, lead3_spec, lead4_spec, overlong2_spec by exact Hc.
  destruct (Z.leb_spec 0xC0 c), (Z.leb_spec c 0xDF), (Z.leb_spec 0xE0 c), (Z.leb_spec c 0xEF), (Z.leb_spec 0xF0 c), (Z.leb_spec c 0xF7); try lia; cbn [andb]; try no_chunk.
  - destruct rest as [|c1 rest]; [no_chunk|]. apply Forall_cons_1 in Hr as [B1 Hr]. rewrite continues_spec by exact B1.
    destruct (Z.leb_spec 0x80 c1), (Z.leb_spec c1 0xBF), (Z.leb_spec c 0xC1); cbn [andb negb]; try no_chunk. some_chunk [c; c1].
  - destruct rest as [|c1 rest]; [no_chunk|]. apply Forall_cons_1 in Hr as [B1 Hr]. destruct rest as [|c2 rest]; [no_chunk|]. apply Forall_cons_1 in Hr as [B2 Hr].
    rewrite (continues_spec c1), (continues_spec c2) by assumption.
    destruct (Z.leb_spec 0x80 c1), (Z.leb_spec c1 0xBF), (Z.leb_spec 0x80 c2), (Z.leb_spec c2 0xBF); cbn [andb negb orb]; try no_chunk.
    rewrite cp3_value by (unfold trail; lia). destruct (Z.leb_spec 0xD800 (value3 c c1 c2)), (Z.leb_spec (value3 c c1 c2) 0xDFFF); cbn [andb]; try no_chunk; some_chunk [c; c1; c2].
  - destruct rest as [|c1 rest]; [no_chunk|]. apply Forall_cons_1 in Hr as [B1 Hr]. destruct rest as [|c2 rest]; [no_chunk|]. apply Forall_cons_1 in Hr as [B2 Hr].
    destruct rest as [|c3 rest]; [no_chunk|]. apply Forall_cons_1 in Hr as [B3 Hr].
    rewrite (continues_spec c1), (continues_spec c2), (continues_spec c3) by assumption.
    destruct (Z.leb_spec 0x80 c1), (Z.leb_spec c1 0xBF), (Z.leb_spec 0x80 c2), (Z.leb_spec c2 0xBF), (Z.leb_spec 0x80 c3), (Z.leb_spec c3 0xBF); cbn [andb negb orb]; try no_chunk.
    rewrite cp4_value by (unfold trail; lia). destruct (Z.ltb_spec 0x10FFFF (value4 c c1 c2 c3)); [no_chunk|]; some_chunk [c; c1; c2; c3].
Qed.

(** ** Texts *)

Lemma chunk_weaken s : chunk true s -> chunk false s.
Proof. intros [c H|c c1 H H1|c c1 c2 H H1 H2 N S|c c1 c2 c3 H H1 H2 H3 N S]; constructor; try assumption; discriminate. Qed.

Lemma chunk_prefix s s' r r' : chunk false s -> chunk false s' -> s ++ r = s' ++ r' -> s = s'.
Proof. intros C C' E. inversion C; inversion C'; subst; cbn in E; simplify_eq; try reflexivity; lia. Qed.

Lemma chunk_nonempty b s : chunk b s -> s <> [].
Proof. intros [ ]; discriminate. Qed.

Lemma text_chunk s r : chunk false s -> text false (s ++ r) <-> text false r.
Proof.
  intros C. split; [|now apply text_app]. intros T. inversion T as [E|s' r' C' T' E].
  - symmetry in E. apply app_eq_nil in E as [-> _]. now destruct (chunk_nonempty _ _ C).
  - pose proof (chunk_prefix _ _ _ _ C' C E) as ->. now apply app_inv_head in E as ->.
Qed.

Lemma is_valid_loop_spec str : bytes str -> forall fuel i, (i <= length str)%nat -> (length str - i < fuel)%nat ->
  exists b, is_valid_loop fuel str i = Some b /\ (b = true <-> text false (drop i str)).
Proof.
  intros Hb. induction fuel as [|fuel IH]; intros i Hi Hf; [lia|]. cbn [is_valid_loop]. destruct (Nat.ltb_spec i (length str)) as [L|L].
  - assert (Hne : drop i str <> []) by (intros E; apply (f_equal length) in E; rewrite length_drop in E; cbn in E; lia).
    assert (Hr : bytes (drop i str)) by now apply Forall_drop.
    rewrite (check_at_rest str i _ eq_refl Hne). destruct (check_rest_spec _ Hr Hne) as [(s & r & E & C & ->)|[-> N]].
    + pose proof (f_equal length E) as El. rewrite length_drop, length_app in El. destruct (IH (i + length s)%nat) as (b & -> & Hb'); [lia| |].
      * enough (length s <> 0)%nat by lia. intros Hz. now apply nil_length_inv, (chunk_nonempty false) in Hz.
      * exists b. split; [reflexivity|]. rewrite Hb', E, text_chunk by exact C. now rewrite <- drop_drop, E, drop_app_length.
    + exists false. split; [reflexivity|]. split; [discriminate|]. intros T. inversion T as [E|s r C T' E]; [now rewrite <- E in Hne|].
      now destruct (N s r).
  - exists true. split; [reflexivity|]. rewrite drop_ge by lia. split; [constructor|reflexivity].
Qed.

(** Sequences without a shorter form are the encodings of the scalar values. *)
Lemma chunk_encode c : scalar c -> chunk true (encode_cp c).
Proof.
  intros H. unfold scalar in H. unfold encode_cp. destruct (Z.ltb_spec c 0x80); [constructor; lia|].
  destruct (Z.ltb_spec c 0x800); [constructor; unfold trail; Z.to_euclidean_division_equations; lia|].
  destruct (Z.ltb_spec c 0x10000).
  - assert (E : value3 (0xE0 + c / 4096) (0x80 + c / 64 mod 64) (0x80 + c mod 64) = c) by (unfold value3; Z.to_euclidean_division_equations; lia).
    constructor; try rewrite E; unfold trail; try (Z.to_euclidean_division_equations; lia).
  - assert (E : value4 (0xF0 + c / 262144) (0x80 + c / 4096 mod 64) (0x80 + c / 64 mod 64) (0x80 + c mod 64) = c) by (unfold value4; Z.to_euclidean_division_equations; lia).
    constructor; try rewrite E; unfold trail; try (Z.to_euclidean_division_equations; lia).
Qed.

Lemma encode_chunk s : chunk true s -> exists c, scalar c /\ s = encode_cp c.
Proof.
  unfold scalar. intros [c H|c c1 H H1|c c1 c2 H H1 H2 N S|c c1 c2 c3 H H1 H2 H3 N S].
  - exists c. split; [lia|]. unfold encode_cp. now rewrite (proj2 (Z.ltb_lt _ _)) by lia.
  - exists ((c - 0xC0) * 64 + (c1 - 0x80)). unfold trail in *. split; [lia|]. unfold encode_cp. decide_cmps. cbn [andb].
    f_equal; [Z.to_euclidean_division_equations; lia|]. f_equal. Z.to_euclidean_division_equations; lia.
  - exists (value3 c c1 c2). specialize (S eq_refl). unfold value3, trail in *. split; [lia|]. unfold encode_cp. decide_cmps.
    f_equal; [Z.to_euclidean_division_equations; lia|]. f_equal; [Z.to_euclidean_division_equations; lia|]. f_equal. Z.to_euclidean_division_equations; lia.
  - exists (value4 c c1 c2 c3). specialize (S eq_refl). unfold value4, trail in *. split; [lia|]. unfold encode_cp. decide_cmps.
    f_equal; [Z.to_euclidean_division_equations; lia|]. f_equal; [Z.to_euclidean_division_equations; lia|].
    f_equal; [Z.to_euclidean_division_equations; lia|]. f_equal. Z.to_euclidean_division_equations; lia.
Qed.

Lemma text_utf8 s : text true s <-> exists cps, Forall scalar cps /\ s = utf8 cps.
Proof.
  split.
  - induction 1 as [|s r C T (cps & Hc & ->)]; [now exists []|]. destruct (encode_chunk s C) as (c & Hs & ->). exists (c :: cps). split; [now constructor|reflexivity].
  - intros (cps & Hc & ->). induction Hc as [|c cps Hs Hc IH]; [constructor|]. cbn [utf8 flat_map]. apply text_app; [now apply chunk_encode|exact IH].
Qed.

Lemma text_weaken s : text true s -> text false s.
Proof. induction 1; [constructor|]. apply text_app; [now apply chunk_weaken|assumption]. Qed.

(** A sequence of three or of four bytes for a number that has a shorter one: it
    starts with [E0] and a byte below [A0], or with [F0] and one below [90]. *)
Definition overlong_pair (x y : Z) : Prop := x = 0xE0 /\ 0x80 <= y < 0xA0 \/ x = 0xF0 /\ 0x80 <= y < 0x90.
Definition overlong (str : list Z) : Prop := exists i x y, str !! i = Some x /\ str !! S i = Some y /\ overlong_pair x y.
(** The texts of RFC 3629. *)
Definition rfc3629 (str : list Z) : Prop := exists cps, Forall scalar cps /\ str = utf8 cps.

Lemma overlong_app a b : overlong b -> overlong (a ++ b).
Proof.
  intros (i & x & y & Hx & Hy & H). exists (length a + i)%nat, x, y. rewrite <- Nat.add_succ_r, !lookup_app_r by lia.
  replace (length a + i - length a)%nat with i by lia. replace (length a + S i - length a)%nat with (S i) by lia. auto.
Qed.
Lemma overlong_app_l a b : overlong a -> overlong (a ++ b).
Proof. intros (i & x & y & Hx & Hy & H). exists i, x, y. pose proof (lookup_lt_Some _ _ _ Hx). pose proof (lookup_lt_Some _ _ _ Hy). now rewrite !lookup_app_l by assumption. Qed.

Lemma chunk_overlong s : chunk false s -> chunk true s \/ overlong s.
Proof.
  intros [c H|c c1 H H1|c c1 c2 H H1 H2 N _|c c1 c2 c3 H H1 H2 H3 N _].
  - left. now constructor.
  - left. now constructor.
  - destruct (Z.le_gt_cases 0x800 (value3 c c1 c2)) as [L|L]; [left; now constructor|right].
    exists 0%nat, c, c1. split_and!; [reflexivity..|]. left. unfold value3, trail in *. lia.
  - destruct (Z.le_gt_cases 0x10000 (value4 c c1 c2 c3)) as [L|L]; [left; now constructor|right].
    exists 0%nat, c, c1. split_and!; [reflexivity..|]. right. unfold value4, trail in *. lia.
Qed.

Lemma text_overlong s : text false s -> text true s \/ overlong s.
Proof.
  induction 1 as [|s r C T [IH|IH]]; [left; constructor| |right; now apply overlong_app].
  destruct (chunk_overlong s C) as [C'|C']; [left; now constructor|right; now apply overlong_app_l].
Qed.

(** The first byte of an overlong sequence is no byte of a sequence but the
    first, which the next one would show to be too long. *)
Lemma strict_not_overlong s : text true s -> ~ overlong s.
Proof.
  induction 1 as [|s r C T IH]; intros (i & x & y & Hx & Hy & H); [discriminate|].
  destruct (Nat.lt_ge_cases i (length s)) as [L|L].
  - assert (Hlast : i = 0%nat /\ (1 < length s)%nat).
    { unfold overlong_pair in H. rewrite lookup_app_l in Hx by exact L.
      destruct C as [c Hc|c c1 Hc H1|c c1 c2 Hc H1 H2 N S|c c1 c2 c3 Hc H1 H2 H3 N S]; unfold trail in *; cbn [length] in *;
        destruct i as [|[|[|[|i]]]]; cbn in Hx; simplify_eq; lia. }
    destruct Hlast as [-> L']. rewrite !lookup_app_l in Hx, Hy by lia. unfold overlong_pair in H.
    destruct C as [c Hc|c c1 Hc H1|c c1 c2 Hc H1 H2 N S|c c1 c2 c3 Hc H1 H2 H3 N S]; unfold trail in *; cbn in Hx, Hy; simplify_eq; try lia;
      specialize (S eq_refl); unfold value3, value4 in *; lia.
  - apply IH. exists (i - length s)%nat, x, y. rewrite !lookup_app_r in Hx, Hy by lia.
    replace (S i - length s)%nat with (S (i - length s)) in Hy by lia. auto.
Qed.

(** C18: [is_valid] always answers, and accepts every text of RFC 3629.  On bytes
    without an overlong sequence of three or of four bytes it accepts exactly the
    texts of RFC 3629: truncated sequences, stray bytes, overlong sequences of two
    bytes, surrogates and numbers above 10FFFF are refused.  On bytes with one,
    which are never a text of RFC 3629, it does not do what its comment announces:
    they are accepted whenever the sequences are well formed otherwise, as
    [E0 80 AF] is. *)
Theorem utf8_is_valid str : bytes str -> exists b, is_valid str = Some b
  /\ (rfc3629 str -> b = true)
  /\ (~ overlong str -> (b = true <-> rfc3629 str))
  /\ (overlong str -> ~ rfc3629 str /\ (b = true <-> text false str))
  /\ is_valid [0xE0; 0x80; 0xAF] = Some true.
Proof.
  intros Hb. destruct (is_valid_loop_spec str Hb (S (length str)) 0 ltac:(lia) ltac:(lia)) as (b & E & H). rewrite drop_0 in H.
  assert (Hrfc : rfc3629 str <-> text true str) by (symmetry; apply text_utf8).
  exists b. split; [exact E|]. split_and!; [| | |reflexivity].
  - intros X. now apply H, text_weaken, Hrfc.
  - intros N. rewrite H, Hrfc. split; [|apply text_weaken]. intros T. now destruct (text_overlong str T).
  - intros O. split; [|exact H]. rewrite Hrfc. intros T. now apply (strict_not_overlong str T).
Qed.

Lemma utf8_is_valid_witness : exists b, is_valid (utf8 [0x41; 0xE9; 0x20AC; 0x1F600]) = Some b /\ b = true.
Proof.
  destruct (utf8_is_valid (utf8 [0x41; 0xE9; 0x20AC; 0x1F600])) as (b & E & H & _).
  - change (bytes (utf8 [0x41; 0xE9; 0x20AC; 0x1F600])) with (Forall byte [0x41; 0xC3; 0xA9; 0xE2; 0x82; 0xAC; 0xF0; 0x9F; 0x98; 0x80]).
    repeat (constructor; [unfold byte; lia|]). constructor.
  - exists b. split; [exact E|]. apply H. exists [0x41; 0xE9; 0x20AC; 0x1F600]. split; [|reflexivity]. repeat (constructor; [unfold scalar; lia|]). constructor.
Defined.

(** The comment of the code announces a check of overlong sequences: those of
    three and four bytes pass. *)
Lemma overlong_accepted : is_valid [0xE0; 0x80; 0xAF] = Some true /\ is_valid [0xF0; 0x80; 0x80; 0xAF] = Some true
  /\ is_valid [0xC0; 0xAF] = Some false /\ ~ text true [0xE0; 0x80; 0xAF].
Proof.
  split_and!; try reflexivity. intros T. inversion T as [|s r C T' E]. inversion C as [c H|c c1 H H1|c c1 c2 H H1 H2 N S|c c1 c2 c3 H H1 H2 H3 N S]; subst; cbn in E; simplify_eq; try lia.
  specialize (S eq_refl). unfold value3 in S. lia.
Qed.

(** Whether bytes are a text: [is_valid], and no overlong sequence. *)
Lemma overlong_decide s : overlong s \/ ~ overlong s.
Proof.
  induction s as [|x [|y s] IH]; [right; intros (i & ? & ? & Hx & _); discriminate|right; intros (i & ? & ? & _ & Hy & _); now destruct i|].
  destruct IH as [IH|IH]; [left; now apply (overlong_app [x])|].
  assert (D : overlong_pair x y \/ ~ overlong_pair x y) by (unfold overlong_pair; lia).
  destruct D as [D|D]; [left; now exists 0%nat, x, y|right]. intros ([|i] & a & b & Ha & Hb & H); [cbn in Ha, Hb; now simplify_eq|].
  apply IH. exists i, a, b. auto.
Qed.
Lemma text_decide s : bytes s -> text true s \/ ~ text true s.
Proof.
  intros Hb. destruct (overlong_decide s) as [O|O]; [right; intros T; now apply (strict_not_overlong s T)|].
  destruct (is_valid_loop_spec s Hb (S (length s)) 0 ltac:(lia) ltac:(lia)) as ([|] & _ & H); rewrite drop_0 in H.
  - left. now destruct (text_overlong s (proj1 H eq_refl)).
  - right. intros T. discriminate (proj2 H (text_weaken s T)).
Qed.

(** ** Conversions *)

(** Characters that are not the terminator. *)
Definition character (c : Z) : Prop := scalar c /\ c <> 0.

(** The C library in a UTF-8 locale, on strings without terminators. *)
Class Utf8Locale (wcsrtombs mbsrtowcs : list Z -> option (list Z)) : Prop :=
  { law_wcs l : Forall character l -> wcsrtombs l = Some (utf8 l);
    law_mbs l : Forall character l -> mbsrtowcs (utf8 l) = Some l;
    law_mbs_bad s : bytes s -> (0 ∉ s) -> ~ text true s -> mbsrtowcs s = None }.

Lemma utf8_app a b : utf8 (a ++ b) = utf8 a ++ utf8 b.
Proof. apply flat_map_app. Qed.

Lemma encode_cp_no_zero c : character c -> 0 ∉ encode_cp c.
Proof.
  intros [H N]. unfold scalar in H. unfold encode_cp. repeat break_match; reflect_bools; rewrite !list.not_elem_of_cons; repeat split; try apply not_elem_of_nil;
    Z.to_euclidean_division_equations; lia.
Qed.

Lemma utf8_no_zero l : Forall character l -> 0 ∉ utf8 l.
Proof.
  induction 1 as [|c l H _ IH]; [apply not_elem_of_nil|]. cbn [utf8 flat_map]. rewrite list.elem_of_app. intros [E|E]; [now apply encode_cp_no_zero in E|now apply IH].
Qed.

Lemma no_zero l : Forall character l -> 0 ∉ l.
Proof. intros H E. rewrite Forall_forall in H. destruct (H 0) as [_ N]; [now apply list_elem_of_In|]. now apply N. Qed.

Lemma c_string_id s : (0 ∉ s) -> c_string s = s.
Proof. intros H. unfold c_string. now rewrite StringUtil.c_str_app. Qed.

Lemma utf8_nonempty l : l <> [] -> utf8 l <> [].
Proof. destruct l as [|c l]; [congruence|]. intros _ E. cbn [utf8 flat_map] in E. apply app_eq_nil in E as [E _]. revert E. unfold encode_cp. now repeat break_match. Qed.

(** The text and its terminator in a buffer. *)
Lemma write_terminated (out s : list Z) : (length s + 1 <= length out)%nat ->
  (let* o := write out 0 s in write o (length s) [0]) = Some (s ++ 0 :: drop (length s + 1) out).
Proof.
  intros H. rewrite write_first by lia. rewrite write_next by (cbn [length]; lia). cbn [length]. now rewrite <- app_assoc.
Qed.

Section Locale.
Context (wcs mbs : list Z -> option (list Z)) `{!Utf8Locale wcs mbs}.

Lemma _decode_spec l ec : Forall character l -> _decode wcs l ec = (utf8 l, ec).
Proof. intros H. unfold _decode. rewrite c_string_id by now apply no_zero. now rewrite law_wcs. Qed.
Lemma _encode_spec l ec : Forall character l -> _encode mbs (utf8 l) ec = (l, ec).
Proof. intros H. unfold _encode. rewrite c_string_id by now apply utf8_no_zero. now rewrite law_mbs. Qed.

Lemma decode_stream_spec out l : Forall character l -> _decode_stream wcs out l = out ++ utf8 l.
Proof.
  intros H. unfold _decode_stream. revert out. induction H as [|c l Hc Hl IH]; intros out; cbn [fold_left]; [now rewrite app_nil_r|].
  rewrite IH. unfold _decode_ok. rewrite _decode_spec by (constructor; [exact Hc|constructor]). cbn [fst utf8 flat_map].
  now rewrite app_nil_r, <- app_assoc.
Qed.

(** A text without terminators has characters only. *)
Lemma text_characters s : text true s -> (0 ∉ s) -> exists l, Forall character l /\ s = utf8 l.
Proof.
  intros (l & Hl & ->)%text_utf8 Hz. exists l. split; [|reflexivity]. apply Forall_forall. intros c Hc. split; [rewrite Forall_forall in Hl; now apply Hl|].
  intros ->. apply Hz. apply list_elem_of_In, in_flat_map. exists 0. split; [exact Hc|now left].
Qed.

(** Pieces are converted up to the first that is not whole characters. *)
Lemma encode_loop_spec B : (0 < B)%nat -> forall fuel in_ out, bytes in_ -> (0 ∉ in_) -> (length in_ < fuel)%nat ->
  exists l n, _encode_loop mbs B fuel out in_ = Some (out ++ l) /\ Forall character l /\ utf8 l = take (n * B) in_
    /\ ((length in_ <= n * B)%nat \/ ~ text true (take B (drop (n * B) in_))).
Proof.
  intros HB. induction fuel as [|fuel IH]; intros in_ out Hb Hz Hf; [lia|]. cbn [_encode_loop].
  destruct (Nat.eqb_spec (length (take B in_)) 0) as [E|E].
  { exists [], 0%nat. rewrite app_nil_r. split_and!; [reflexivity|constructor|reflexivity|left]. rewrite length_take in E. lia. }
  assert (Hz' : 0 ∉ take B in_) by (intros Hin; apply Hz; now apply elem_of_take in Hin as (i & Hi & _); apply list_elem_of_lookup_2 in Hi).
  destruct (mbs (c_string (take B in_))) as [w|] eqn:Em.
  - assert (Ht : exists l, Forall character l /\ take B in_ = utf8 l).
    { apply text_characters; [|exact Hz']. destruct (text_decide (take B in_)) as [T|T]; [now apply Forall_take|exact T|]. rewrite c_string_id in Em by exact Hz'.
      rewrite law_mbs_bad in Em; [discriminate|now apply Forall_take|exact Hz'|exact T]. }
    destruct Ht as (l & Hl & El). rewrite El, _encode_spec by exact Hl. rewrite bool_decide_eq_true_2 by reflexivity. cbn [negb].
    rewrite length_take in E. destruct (IH (drop B in_) (out ++ l)) as (l' & n & E1 & Hl' & E2 & H).
    { now apply Forall_drop. }
    { intros Hin. apply Hz. rewrite <- (take_drop B in_). apply list.elem_of_app. now right. }
    { rewrite length_drop. lia. }
    exists (l ++ l'), (S n). rewrite E1, utf8_app, E2, <- El. split_and!; [now rewrite <- app_assoc|now apply Forall_app_2|now rewrite take_take_drop|].
    rewrite length_drop, drop_drop in H. cbn [Nat.mul]. destruct H as [H|H]; [left; lia|now right].
  - exists [], 0%nat. unfold _encode. rewrite Em, app_nil_r. split_and!; [reflexivity|constructor|reflexivity|]. right. rewrite drop_0. intros T.
    destruct (text_characters _ T Hz') as (l & Hl & El). rewrite c_string_id in Em by exact Hz'. rewrite El, law_mbs in Em by exact Hl. discriminate.
Qed.


(** A first piece that ends inside of a character stops the stream: nothing is
    written and no error is seen. *)
Lemma stream_stops B out content : (0 < B)%nat -> content <> [] -> bytes (take B content) -> (0 ∉ take B content) -> ~ text true (take B content) ->
  encode_stream mbs B true true out content = Some out.
Proof.
  intros HB Hne Hb Hz Ht. unfold encode_stream, _encode_stream. cbn [negb orb _encode_loop].
  destruct (Nat.eqb_spec (length (take B content)) 0) as [E|E]; [reflexivity|]. unfold _encode. rewrite c_string_id by exact Hz. rewrite law_mbs_bad by assumption.
  reflexivity.
Qed.

(** A text is cut at its first terminator. *)
Lemma decode_cut a b ec : Forall character a -> a <> [] -> decode wcs (a ++ 0 :: b) ec = (utf8 a, ec).
Proof.
  intros H Hne. unfold decode, _decode, c_string. rewrite <- app_assoc. cbn [app]. rewrite StringUtil.c_str_app by now apply no_zero.
  cbn [default from_option id]. rewrite law_wcs by exact H. now destruct a.
Qed.

(** A code left by an earlier call makes a conversion that succeeds return a
    null pointer. *)
Lemma stale_code out n l rest : Forall character l -> (0 < n)%nat ->
  decode_buf wcs (Some out) n (Some (l ++ 0 :: rest)) conversion_failed = Some (false, Some out, n, conversion_failed).
Proof.
  intros H Hn. unfold decode_buf, _decode_buf. rewrite (proj2 (Nat.ltb_ge n 1)) by lia. rewrite StringUtil.c_str_app by now apply no_zero.
  now rewrite _decode_spec by exact H.
Qed.
End Locale.

(** ** A UTF-8 locale *)

Definition character_b (c : Z) : bool := ((1 <=? c) && (c <? 0xD800)) || ((0xE000 <=? c) && (c <=? 0x10FFFF)).
Lemma character_b_spec c : character_b c = true <-> character c.
Proof. unfold character_b, character, scalar. rewrite orb_true_iff, !andb_true_iff, !Z.leb_le, Z.ltb_lt. lia. Qed.

Definition utf8_wcs (l : list Z) : option (list Z) := if forallb character_b l then Some (utf8 l) else None.
(** The number a sequence would have; it is encoded again to see if it has. *)
Definition candidate (s : list Z) : Z :=
  match s with
  | c :: r =>
      if c <? 0x80 then c
      else match r with
      | c1 :: r => if c <? 0xE0 then (c - 0xC0) * 64 + (c1 - 0x80)
          else match r with
          | c2 :: r => if c <? 0xF0 then value3 c c1 c2
              else match r with c3 :: _ => value4 c c1 c2 c3 | _ => 0 end
          | _ => 0
          end
      | _ => 0
      end
  | _ => 0
  end.
Fixpoint utf8_mbs_loop (fuel : nat) (s : list Z) : option (list Z) :=
  match fuel, s with
  | _, [] => Some []
  | O, _ => None
  | S fuel, _ =>
      let c := candidate s in
      if character_b c && bool_decide (take (length (encode_cp c)) s = encode_cp c) then
        let* l := utf8_mbs_loop fuel (drop (length (encode_cp c)) s) in Some (c :: l)
      else None
  end.
Definition utf8_mbs (s : list Z) : option (list Z) := utf8_mbs_loop (length s) s.

Lemma candidate_encode c r : character c -> candidate (encode_cp c ++ r) = c.
Proof.
  intros [H _]. unfold scalar in H. unfold encode_cp. destruct (Z.ltb_spec c 0x80); cbn [app candidate]; [now decide_cmps|].
  destruct (Z.ltb_spec c 0x800); cbn [app candidate].
  { replace (0xC0 + c / 64 <? 0x80) with false by (symmetry; apply Z.ltb_ge; Z.to_euclidean_division_equations; lia).
    replace (0xC0 + c / 64 <? 0xE0) with true by (symmetry; apply Z.ltb_lt; Z.to_euclidean_division_equations; lia). Z.to_euclidean_division_equations; lia. }
  destruct (Z.ltb_spec c 0x10000); cbn [app candidate].
  { replace (0xE0 + c / 4096 <? 0x80) with false by (symmetry; apply Z.ltb_ge; Z.to_euclidean_division_equations; lia).
    replace (0xE0 + c / 4096 <? 0xE0) with false by (symmetry; apply Z.ltb_ge; Z.to_euclidean_division_equations; lia).
    replace (0xE0 + c / 4096 <? 0xF0) with true by (symmetry; apply Z.ltb_lt; Z.to_euclidean_division_equations; lia).
    unfold value3. Z.to_euclidean_division_equations; lia. }
  replace (0xF0 + c / 262144 <? 0x80) with false by (symmetry; apply Z.ltb_ge; Z.to_euclidean_division_equations; lia).
  replace (0xF0 + c / 262144 <? 0xE0) with false by (symmetry; apply Z.ltb_ge; Z.to_euclidean_division_equations; lia).
  replace (0xF0 + c / 262144 <? 0xF0) with false by (symmetry; apply Z.ltb_ge; Z.to_euclidean_division_equations; lia).
  unfold value4. Z.to_euclidean_division_equations; lia.
Qed.

Lemma utf8_mbs_complete l : Forall character l -> forall fuel, (length (utf8 l) <= fuel)%nat -> utf8_mbs_loop fuel (utf8 l) = Some l.
Proof.
  induction 1 as [|c l Hc Hl IH]; intros fuel Hf; [now destruct fuel|]. cbn [utf8 flat_map] in *. fold (utf8 l) in *. rewrite length_app in Hf.
  assert (Hp : (0 < length (encode_cp c))%nat) by (unfold encode_cp; repeat break_match; cbn; lia).
  destruct fuel as [|fuel]; [lia|]. destruct (encode_cp c ++ utf8 l) as [|x s] eqn:E; [apply (f_equal length) in E; rewrite length_app in E; cbn in E; lia|].
  cbn [utf8_mbs_loop]. rewrite <- E. rewrite candidate_encode by exact Hc. rewrite (proj2 (character_b_spec c) Hc). cbn [andb].
  rewrite take_app_length, drop_app_length. rewrite (proj2 (bool_decide_eq_true _)) by reflexivity. now rewrite IH by lia.
Qed.

Lemma utf8_mbs_sound fuel : forall s l, utf8_mbs_loop fuel s = Some l -> Forall character l /\ s = utf8 l.
Proof.
  induction fuel as [|fuel IH]; intros [|x s] l; cbn [utf8_mbs_loop]; try discriminate; try (intros [= <-]; split; [constructor|reflexivity]).
  destruct (character_b (candidate (x :: s)) && _) eqn:E; [|discriminate]. apply andb_true_iff in E as [E1 E2]. apply bool_decide_eq_true in E2. apply character_b_spec in E1.
  destruct (utf8_mbs_loop fuel _) as [l'|] eqn:E3; [|discriminate]. intros [= <-]. apply IH in E3 as [H3 E3]. split; [now constructor|].
  set (c := candidate (x :: s)) in *. rewrite <- (take_drop (length (encode_cp c)) (x :: s)), E2, E3. reflexivity.
Qed.

#[export] Instance utf8_locale : Utf8Locale utf8_wcs utf8_mbs.
Proof.
  split.
  - intros l H. unfold utf8_wcs. replace (forallb character_b l) with true; [reflexivity|]. symmetry. apply forallb_forall. intros c Hc.
    apply character_b_spec. rewrite Forall_forall in H. now apply H.
  - intros l H. apply utf8_mbs_complete; [exact H|reflexivity].
  - intros s _ _ N. unfold utf8_mbs. destruct (utf8_mbs_loop _ s) as [l|] eqn:E; [|reflexivity]. apply utf8_mbs_sound in E as [H ->].
    exfalso. apply N, text_utf8. exists l. split; [|reflexivity]. revert H. apply Forall_impl. now intros c [Hc _].
Qed.

