(* ===== verification/TcpConn.v ===== *)
(** * A TCP connection

    [net/tcp/tcp_conn.hpp] over [net/tcp/tcp_socket.hpp]: queues of messages to
    send and to fill, a buffer in each direction, handlers that encode and
    decode, and the state of the two directions.  Handlers of the library run one
    at a time (one thread runs the context).  What the network does is in the
    state: how much each blocking send takes, what each blocking receive gives,
    and the asynchronous operations that are under way.  [None] is undefined
    behaviour, a failed assertion, an exception that leaves a handler, or a call that
    blocks for ever. *)

From Stdlib Require Import ZArith Lia List Bool.
From stdpp Require Import base tactics list option.
From S2P Require Import Prelude.

Open Scope hj_scope.
Open Scope nat_scope.

(** ** [tcp_socket] *)

Module Socket.
(** Whether there is a socket of the library, and [_is_connected]. *)
Record tcp_socket := Sock { _sock : bool; _is_connected : bool }.

Definition is_connected (s : tcp_socket) : bool := _sock s && _is_connected s.
Definition set_conn_status (b : bool) (s : tcp_socket) : tcp_socket := Sock (_sock s) b.
(** The attempts: whether each succeeds before its timer. *)
Fixpoint connect (attempts : list bool) (s : tcp_socket) : bool * tcp_socket :=
  match attempts with
  | [] => (false, s)
  | success :: attempts =>
      let s := Sock true success in
      if success then (true, s) else connect attempts s
  end.
(** Starting and completing. *)
Definition async_connect (s : tcp_socket) : bool * tcp_socket :=
  if is_connected s then (false, s) else (true, Sock true (_is_connected s)).
Definition connect_done (success : bool) (s : tcp_socket) : tcp_socket := set_conn_status success s.
Definition disconnect_anyway (s : tcp_socket) : tcp_socket := Sock false false.
Definition disconnect (s : tcp_socket) : tcp_socket := if is_connected s then disconnect_anyway s else s.
Definition close (s : tcp_socket) : tcp_socket := if is_connected s then disconnect_anyway s else s.
End Socket.

Module TcpConn.
Section TcpConn.
(** The handlers of the application: [encode] the bytes it writes for a message,
    [decode] how many bytes it takes from the front of the buffer, 0 for none.
    [rbuf_sz] and [wbuf_sz] are the sizes the buffers may not exceed; [NDEBUG] is
    how the header was compiled. *)
Context {msg : Type} (encode : msg -> list Z) (decode : msg -> list Z -> nat) (MTU rbuf_sz wbuf_sz : nat) (NDEBUG : bool).

(** What the application sees: a message was sent, a message was filled, the connection is over. *)
Inductive event := Sent (m : msg) | Received (m : msg) | Disconnected | Connected (success : bool).
Inductive task := AsyncSend | AsyncRecv.

Record handlers := Handlers { send_handler : bool; recv_handler : bool; disconn_handler : bool; encode_handler : bool; decode_handler : bool }.
(** A direction: [_w_closed], [_w_buf] and [_w_ch], or [_r_closed], ... *)
Record side := Side { closed : bool; buf : list Z; ch : list (option msg) }.
Record conn := Conn { sock : option Socket.tcp_socket; flag : Z; r : side; w : side; is_recving : bool; hs : handlers }.
(** The context: posted handlers, writes and reads under way, a connection under
    way; and the network: what blocking sends take and blocking receives give
    ([None] is an error).  A write has the bytes of a region of [_w_buf], a read a
    region of [_r_buf] to put bytes in: whether that is still where it was. *)
Record net := Net { posted : list task; writes : list (bool * list Z); reads : list bool; connecting : bool;
  accepts : list nat; arrivals : list (option (list Z)) }.
(** What has been seen: the bytes on the wire, the bytes put in [_r_buf], the bytes of
    each message that was encoded, and those each decoded message took. *)
Record trace := Trace { wire : list Z; received : list Z; encoded : list (list Z); taken : list (list Z) }.
Record world := World { this : conn; io : net; seen : trace; log : list event }.

Definition with_closed b (d : side) := Side b (buf d) (ch d).
Definition with_buf b (d : side) := Side (closed d) b (ch d).
Definition with_ch q (d : side) := Side (closed d) (buf d) q.
Definition upd (f : conn -> conn) (s : world) := World (f (this s)) (io s) (seen s) (log s).
Definition upd_io (f : net -> net) (s : world) := World (this s) (f (io s)) (seen s) (log s).
Definition upd_seen (f : trace -> trace) (s : world) := World (this s) (io s) (f (seen s)) (log s).
Definition note (e : event) (s : world) := World (this s) (io s) (seen s) (log s ++ [e]).
Definition upd_sock (f : Socket.tcp_socket -> Socket.tcp_socket) := upd (fun c => Conn (f <$> sock c) (flag c) (r c) (w c) (is_recving c) (hs c)).
Definition drop_sock := upd (fun c => Conn None (flag c) (r c) (w c) (is_recving c) (hs c)).
Definition upd_r f := upd (fun c => Conn (sock c) (flag c) (f (r c)) (w c) (is_recving c) (hs c)).
Definition upd_w f := upd (fun c => Conn (sock c) (flag c) (r c) (f (w c)) (is_recving c) (hs c)).
Definition store_recving b := upd (fun c => Conn (sock c) (flag c) (r c) (w c) b (hs c)).
Definition post (t : task) := upd_io (fun n => Net (posted n ++ [t]) (writes n) (reads n) (connecting n) (accepts n) (arrivals n)).
Definition set_posted q := upd_io (fun n => Net q (writes n) (reads n) (connecting n) (accepts n) (arrivals n)).
Definition set_writes q := upd_io (fun n => Net (posted n) q (reads n) (connecting n) (accepts n) (arrivals n)).
Definition set_reads k := upd_io (fun n => Net (posted n) (writes n) k (connecting n) (accepts n) (arrivals n)).
Definition set_connecting b := upd_io (fun n => Net (posted n) (writes n) (reads n) b (accepts n) (arrivals n)).
Definition set_accepts q := upd_io (fun n => Net (posted n) (writes n) (reads n) (connecting n) q (arrivals n)).
Definition set_arrivals q := upd_io (fun n => Net (posted n) (writes n) (reads n) (connecting n) (accepts n) q).
Definition on_wire b := upd_seen (fun t => Trace (wire t ++ b) (received t) (encoded t) (taken t)).
Definition arrived b := upd_seen (fun t => Trace (wire t) (received t ++ b) (encoded t) (taken t)).
Definition note_encoded b := upd_seen (fun t => Trace (wire t) (received t) (encoded t ++ [b]) (taken t)).
Definition note_taken b := upd_seen (fun t => Trace (wire t) (received t) (encoded t) (taken t ++ [b])).

(** *** Flags and state *)

Definition get_flag (s : world) : Z := flag (this s).
Definition set_flag (f : Z) : world -> world := upd (fun c => Conn (sock c) (Z.lor (flag c) f) (r c) (w c) (is_recving c) (hs c)).
Definition unset_flag (f : Z) : world -> world := upd (fun c => Conn (sock c) (Z.land (flag c) (Z.lnot f)) (r c) (w c) (is_recving c) (hs c)).
Definition set_handlers (h : handlers) : world -> world := upd (fun c => Conn (sock c) (flag c) (r c) (w c) (is_recving c) h).
Definition is_connected (s : world) : bool := match sock (this s) with Some k => Socket.is_connected k | None => false end.
Definition is_w_closed (s : world) : bool := closed (w (this s)).
Definition is_r_closed (s : world) : bool := closed (r (this s)).

(** A message encoded into [_w_buf]; bytes of [_r_buf] taken by a message. *)
(** [_w_buf.prepare(MTU)] and [_r_buf.prepare(MTU)] throw when the buffer would
    exceed its size; they may move what the buffer holds, and the regions handed
    out before are not valid any more.  [_r_buf.commit] moves the place where a
    read under way was to put its bytes. *)
Definition dangle_w (s : world) : world := set_writes (map (fun '(_, b) => (false, b)) (writes (io s))) s.
Definition dangle_r (s : world) : world := set_reads (map (fun _ => false) (reads (io s))) s.
Definition prepare_w (s : world) : option world := if wbuf_sz <? length (buf (w (this s))) + MTU then None else Some (dangle_w s).
Definition prepare_r (s : world) : option world := if rbuf_sz <? length (buf (r (this s))) + MTU then None else Some (dangle_r s).
Definition commit_w (b : list Z) (s : world) : world := note_encoded b (upd_w (fun d => with_buf (buf d ++ b) d) s).
Definition consume_w (n : nat) : world -> world := upd_w (fun d => with_buf (drop n (buf d)) d).
Definition commit_r (b : list Z) (s : world) : world := arrived b (upd_r (fun d => with_buf (buf d ++ b) d) (dangle_r s)).
Definition consume_r (n : nat) (s : world) : world :=
  note_taken (take n (buf (r (this s)))) (upd_r (fun d => with_buf (drop n (buf d)) d) s).
Definition call_send_handler (m : msg) (s : world) : world := if send_handler (hs (this s)) then note (Sent m) s else s.
Definition call_recv_handler (m : msg) (s : world) : world := if recv_handler (hs (this s)) then note (Received m) s else s.

(** *** Blocking operations and disconnection *)

(** [_sock->send]: an exception counts as nothing sent. *)
Definition sock_send (b : list Z) (s : world) : option (nat * world) :=
  match accepts (io s) with
  | [] => None
  | k :: accepts' => Some (length (take k b), on_wire (take k b) (set_accepts accepts' s))
  end.
(** [_sock->recv]: an error fails the assertion, or counts as nothing received. *)
Definition sock_recv (s : world) : option (list Z * world) :=
  match arrivals (io s) with
  | [] => None
  | None :: arrivals' => if NDEBUG then Some ([], set_arrivals arrivals' s) else None
  | Some b :: arrivals' => Some (take MTU b, set_arrivals arrivals' s)
  end.

(** The methods call each other: [disconnect] sends and receives all, which may
    close a direction, which disconnects.  [disconnect] is the recursive call. *)
Section Body.
Variable disconnect : world -> option (bool * world).

Definition check_closed (s : world) : option world :=
  if is_w_closed s && is_r_closed s then let* (_, s) := disconnect s in Some s else Some s.
Definition set_w_closed_body (b : bool) (s : world) : option world := check_closed (upd_w (with_closed b) s).
Definition set_r_closed_body (b : bool) (s : world) : option world := check_closed (upd_r (with_closed b) s).

Fixpoint send_all_loop (fuel : nat) (s : world) : option (bool * world) :=
  match fuel with
  | O => None
  | S fuel =>
      if negb (is_connected s) || is_w_closed s then Some (false, s) else
      match ch (w (this s)) with
      | [] => Some (true, s)
      | m :: q =>
          let s := upd_w (with_ch q) s in
          match m with
          | None => Some (true, s)
          | Some m =>
              if negb (encode_handler (hs (this s))) then Some (true, s) else
              let* s := prepare_w s in
              let b := encode m in
              if MTU <? length b then None else
              if length b <? 1 then let* s := set_w_closed_body true s in Some (false, s) else
              let s := commit_w b s in
              let* (nsend, s) := sock_send (buf (w (this s))) s in
              if nsend <? length b then let* s := set_w_closed_body true s in Some (false, s) else
              send_all_loop fuel (call_send_handler m (consume_w nsend s))
          end
      end
  end.
Definition send_all_body (s : world) : option (bool * world) :=
  if is_w_closed s then Some (false, s) else send_all_loop (S (length (ch (w (this s))))) s.

Fixpoint recv_all_loop (fuel : nat) (s : world) : option (bool * world) :=
  match fuel with
  | O => None
  | S fuel =>
      if negb (is_connected s) || is_r_closed s then Some (false, s) else
      match ch (r (this s)) with
      | [] => Some (true, s)
      | m :: q =>
          let s := upd_r (with_ch q) s in
          match m with
          | None => Some (true, s)
          | Some m =>
              if negb (decode_handler (hs (this s))) then Some (true, s) else
              let sz := decode m (buf (r (this s))) in
              if 0 <? sz then recv_all_loop fuel (call_recv_handler m (consume_r sz s))
              else
                let s := upd_r (with_ch (q ++ [Some m])) s in
                let* s := prepare_r s in
                let* (b, s) := sock_recv s in
                recv_all_loop fuel (commit_r b s)
          end
      end
  end.
(** Every turn takes a message or what a receive gave. *)
Definition recv_all_body (s : world) : option (bool * world) :=
  if is_r_closed s then Some (false, s) else recv_all_loop (S (length (ch (r (this s))) + length (arrivals (io s)))) s.

Definition disconnect_body (s : world) : option (bool * world) :=
  if negb (is_connected s) then Some (false, s) else
  let* (_, s) := send_all_body s in
  let* (_, s) := recv_all_body s in
  let s := upd_sock Socket.disconnect s in
  let s := if disconn_handler (hs (this s)) then note Disconnected s else s in
  Some (true, s).
End Body.
Fixpoint disconnect_fuel (fuel : nat) (s : world) : option (bool * world) :=
  match fuel with O => None | S fuel => disconnect_body (disconnect_fuel fuel) s end.

(** Two levels are enough: [disconnect_enough]. *)
Definition disconnect : world -> option (bool * world) := disconnect_fuel 2.
Definition set_w_closed : bool -> world -> option world := set_w_closed_body disconnect.
Definition set_r_closed : bool -> world -> option world := set_r_closed_body disconnect.
Definition _send_all : world -> option (bool * world) := send_all_body disconnect.
Definition _recv_all : world -> option (bool * world) := recv_all_body.

(** *** Connecting *)

Definition open_directions (s : world) : option world :=
  let* s := set_w_closed false s in
  let* s := set_r_closed false s in Some (post AsyncRecv (post AsyncSend s)).
Definition connect (attempts : list bool) (s : world) : option (bool * world) :=
  if is_connected s then Some (false, s) else
  let* k := sock (this s) in
  let (ok, k) := Socket.connect attempts k in
  let s := upd_sock (fun _ => k) s in
  if negb ok then Some (false, s) else let* s := open_directions s in Some (true, s).
(** Starting; the handler runs later. *)
Definition async_connect (s : world) : option (bool * world) :=
  if is_connected s then Some (false, s) else
  let* k := sock (this s) in
  let (_, k) := Socket.async_connect k in Some (true, set_connecting true (upd_sock (fun _ => k) s)).
Definition async_connect_done (success : bool) (s : world) : option world :=
  let s := upd_sock (Socket.connect_done success) (set_connecting false s) in
  let* s := if success then open_directions s else Some s in Some (note (Connected success) s).

(** *** Sending and receiving *)

Definition send (m : option msg) (s : world) : option (bool * world) :=
  if negb (is_connected s) || is_w_closed s then Some (false, s) else
  _send_all (upd_w (fun d => with_ch (ch d ++ [m]) d) s).
Definition recv (m : option msg) (s : world) : option (bool * world) :=
  if negb (is_connected s) || is_r_closed s then Some (false, s) else
  _recv_all (upd_r (fun d => with_ch (ch d ++ [m]) d) s).
Definition async_send (m : option msg) (s : world) : bool * world :=
  if negb (is_connected s) || is_w_closed s then (false, s) else
  (true, post AsyncSend (upd_w (fun d => with_ch (ch d ++ [m]) d) s)).
Definition async_recv (m : option msg) (s : world) : bool * world :=
  if negb (is_connected s) || is_r_closed s then (false, s) else
  (true, post AsyncRecv (upd_r (fun d => with_ch (ch d ++ [m]) d) s)).
Definition close (s : world) : option world :=
  let* s := set_w_closed true s in
  let* s := set_r_closed true s in
  match sock (this s) with
  | None => Some s
  | Some _ => Some (drop_sock (upd_sock Socket.close s))
  end.

(** [_async_send(err, sz)] *)
Definition _async_send (err : bool) (sz : nat) (s : world) : option world :=
  let* s := if err then set_w_closed true s else Some s in
  if negb (is_connected s) || is_w_closed s then Some s else
  let s := consume_w sz s in
  match ch (w (this s)) with
  | [] => Some s
  | m :: q =>
      let s := upd_w (with_ch q) s in
      match m with
      | None => Some s
      | Some m =>
          if negb (encode_handler (hs (this s))) then Some s else
          let* s := prepare_w s in
          let b := encode m in
          if MTU <? length b then None else
          if length b <? 1 then set_w_closed true s else
          let s := commit_w b s in
          let s := set_writes (writes (io s) ++ [(true, b)]) s in
          Some (call_send_handler m s)
      end
  end.
(** The loop of [_async_recv]: whether it goes on to read. *)
Fixpoint async_recv_loop (fuel : nat) (s : world) : option (bool * world) :=
  match fuel with
  | O => None
  | S fuel =>
      match ch (r (this s)) with
      | [] => Some (false, s)
      | m :: q =>
          let s := upd_r (with_ch q) s in
          match m with
          | None => Some (false, s)
          | Some m =>
              if negb (decode_handler (hs (this s))) then Some (false, s) else
              let sz := decode m (buf (r (this s))) in
              if 0 <? sz then async_recv_loop fuel (call_recv_handler m (consume_r sz s))
              else Some (true, upd_r (with_ch (q ++ [Some m])) s)
          end
      end
  end.
(** [_async_recv(err, sz)], where a read has put [data] in the buffer. *)
Definition _async_recv (err : bool) (data : list Z) (s : world) : option world :=
  let* s := if err then set_r_closed true s else Some s in
  if negb (is_connected s) || is_r_closed s then Some s else
  let s := if 0 <? length data then store_recving false (commit_r data s) else s in
  let* (reading, s) := async_recv_loop (S (length (ch (r (this s))))) s in
  if negb reading then Some s else
  if is_recving (this s) then Some s else
  let* s := prepare_r s in
  Some (set_reads (reads (io s) ++ [true]) (store_recving true s)).

(** *** What can happen *)

Inductive op :=
  | Connect (attempts : list bool) | AsyncConnect | ConnectDone (success : bool) | Disconnect | Send_ (m : option msg) | Recv_ (m : option msg)
  | ASend (m : option msg) | ARecv (m : option msg) | Close | SetWClosed (b : bool) | SetRClosed (b : bool)
  | Run (* the first posted handler *) | WriteDone (err : bool) (sz : nat) (* the first write *)
  | ReadDone (data : list Z) | ReadError.

Definition exec (e : op) (s : world) : option world :=
  match e with
  | Connect a => let* (_, s) := connect a s in Some s
  | AsyncConnect => let* (_, s) := async_connect s in Some s
  | ConnectDone ok => if connecting (io s) then async_connect_done ok s else Some s
  | Disconnect => let* (_, s) := disconnect s in Some s
  | Send_ m => let* (_, s) := send m s in Some s
  | Recv_ m => let* (_, s) := recv m s in Some s
  | ASend m => Some (async_send m s).2
  | ARecv m => Some (async_recv m s).2
  | Close => close s
  | SetWClosed b => set_w_closed b s
  | SetRClosed b => set_r_closed b s
  | Run =>
      match posted (io s) with
      | [] => Some s
      | t :: q =>
          let s := set_posted q s in
          match t with AsyncSend => _async_send false 0 s | AsyncRecv => _async_recv false [] s end
      end
  | WriteDone err sz =>
      match writes (io s) with
      | [] => Some s
      | (valid, b) :: q =>
          let s := set_writes q s in
          if err then _async_send true 0 s else
          if valid : bool then _async_send false (length (take sz b)) (on_wire (take sz b) s) else None
      end
  | ReadDone data =>
      match reads (io s) with
      | [] => Some s
      | valid :: q => let b := take MTU data in
          if length b =? 0 then Some s else if valid : bool then _async_recv false b (set_reads q s) else None
      end
  | ReadError => match reads (io s) with [] => Some s | _ :: q => _async_recv true [] (set_reads q s) end
  end.
Fixpoint run (es : list op) (s : world) : option world :=
  match es with [] => Some s | e :: es => let* s := exec e s in run es s end.
(** A new connection object. *)
Definition fresh (h : handlers) (accepts : list nat) (arrivals : list (option (list Z))) : world :=
  World (Conn (Some (Socket.Sock true false)) 0 (Side false [] []) (Side false [] []) false h)
    (Net [] [] [] false accepts arrivals) (Trace [] [] [] []) [].
End TcpConn.
End TcpConn.
