(* ===== verification/TcpConnThm.v ===== *)
(** * A TCP connection: theorems

    What [TcpConn] promises: disconnection returns however the methods call each
    other; the messages an application fills are the frames of the byte stream,
    however the stream is cut into reads, and a message that waits has a read
    under way; messages go out in the order they were sent; closing is final.
    The last section shows where the code falls short. *)

From Stdlib Require Import ZArith Lia List Bool.
From stdpp Require Import base tactics list option.
From S2P Require Import Prelude TcpConn.

Open Scope hj_scope.
Open Scope nat_scope.
Import TcpConn.TcpConn.

Section Conn.
Context {msg : Type} (encode : msg -> list Z) (decode : msg -> list Z -> nat) (MTU rbuf_sz wbuf_sz : nat) (NDEBUG : bool).
Abbreviation world := (world (msg := msg)).
Abbreviation exec := (exec encode decode MTU rbuf_sz wbuf_sz NDEBUG).
Abbreviation run := (run encode decode MTU rbuf_sz wbuf_sz NDEBUG).

(** ** Closing *)

(** The end of [disconnect]. *)
Definition down (s : world) : world :=
  if is_connected s then
    let s' := upd_sock Socket.disconnect s in if disconn_handler (hs (this s)) then note Disconnected s' else s'
  else s.
Definition settle (s : world) : world := if is_w_closed s && is_r_closed s then down s else s.

Lemma disconnect_closed d s : is_w_closed s = true -> is_r_closed s = true ->
  disconnect_body encode decode MTU rbuf_sz wbuf_sz NDEBUG d s = Some (is_connected s, down s).
Proof.
  intros Hw Hr. unfold disconnect_body, down. destruct (is_connected s); cbn [negb]; [|reflexivity].
  unfold send_all_body. rewrite Hw. unfold recv_all_body. rewrite Hr. reflexivity.
Qed.

Lemma check_closed_spec n s : check_closed (disconnect_fuel encode decode MTU rbuf_sz wbuf_sz NDEBUG (S n)) s = Some (settle s).
Proof.
  unfold check_closed, settle. destruct (is_w_closed s) eqn:Hw; [|reflexivity]. destruct (is_r_closed s) eqn:Hr; [|reflexivity].
  cbn [andb disconnect_fuel]. now rewrite disconnect_closed.
Qed.

Lemma set_w_closed_spec b s : set_w_closed encode decode MTU rbuf_sz wbuf_sz NDEBUG b s = Some (settle (upd_w (with_closed b) s)).
Proof. apply check_closed_spec. Qed.
Lemma set_r_closed_spec b s : set_r_closed encode decode MTU rbuf_sz wbuf_sz NDEBUG b s = Some (settle (upd_r (with_closed b) s)).
Proof. apply check_closed_spec. Qed.

(** The mutual recursion of [disconnect], [_send_all] and the closing of the
    directions is two levels deep: more fuel gives the same, and setting a
    direction always returns. *)
Theorem disconnect_enough n s :
  disconnect_fuel encode decode MTU rbuf_sz wbuf_sz NDEBUG (2 + n) s = disconnect encode decode MTU rbuf_sz wbuf_sz NDEBUG s
  /\ (forall b, set_w_closed encode decode MTU rbuf_sz wbuf_sz NDEBUG b s = Some (settle (upd_w (with_closed b) s)))
  /\ (forall b, set_r_closed encode decode MTU rbuf_sz wbuf_sz NDEBUG b s = Some (settle (upd_r (with_closed b) s))).
Proof.
  split_and!; [|intros b; apply set_w_closed_spec|intros b; apply set_r_closed_spec].
  unfold disconnect. cbn [disconnect_fuel Nat.add]. unfold disconnect_body at 1 3. destruct (negb (is_connected s)); [reflexivity|].
  assert (E : forall fuel s, send_all_loop encode MTU wbuf_sz (disconnect_fuel encode decode MTU rbuf_sz wbuf_sz NDEBUG (S n)) fuel s
    = send_all_loop encode MTU wbuf_sz (disconnect_fuel encode decode MTU rbuf_sz wbuf_sz NDEBUG 1) fuel s).
  { induction fuel as [|fuel IH]; intros t; [reflexivity|]. cbn [send_all_loop]. destruct (negb (is_connected t) || is_w_closed t); [reflexivity|].
    destruct (ch (w (this t))) as [|[m|] q]; [reflexivity| |reflexivity]. cbv zeta. destruct (negb (encode_handler _)); [reflexivity|].
    destruct (prepare_w _) as [t1|]; [|reflexivity]. destruct (MTU <? _); [reflexivity|]. unfold set_w_closed_body.
    destruct (length (encode m) <? 1); [now rewrite !check_closed_spec|].
    destruct (sock_send _ _) as [[k t']|]; [|reflexivity]. destruct (k <? _); [now rewrite !check_closed_spec|]. apply IH. }
  unfold send_all_body. destruct (is_w_closed s); [reflexivity|]. rewrite E. reflexivity.
Qed.

(** What [settle] leaves alone. *)
Lemma settle_same s : seen (settle s) = seen s /\ io (settle s) = io s /\ r (this (settle s)) = r (this s) /\ w (this (settle s)) = w (this s)
  /\ is_recving (this (settle s)) = is_recving (this s) /\ hs (this (settle s)) = hs (this s).
Proof. unfold settle, down. destruct (_ && _), (is_connected s); try (now split_and!). cbv zeta. destruct (disconn_handler _); now split_and!. Qed.

Lemma settle_connected s : is_connected (settle s) = is_connected s && negb (is_w_closed s && is_r_closed s).
Proof.
  unfold settle, down. destruct (_ && _); cbn [negb]; [|now rewrite andb_true_r]. rewrite andb_false_r. destruct (is_connected s) eqn:E; [|exact E].
  cbv zeta. assert (H : is_connected (upd_sock Socket.disconnect s) = false).
  { unfold is_connected in *. cbn. destruct (sock (this s)) as [k|]; [|discriminate]. cbn. unfold Socket.disconnect. now rewrite E. }
  now destruct (disconn_handler _).
Qed.

(** The callback of a disconnection. *)
Definition over (s : world) : list (event (msg := msg)) := if is_connected s && disconn_handler (hs (this s)) then [Disconnected] else [].

Lemma settle_log s : log (settle s) = log s ++ (if is_w_closed s && is_r_closed s then over s else []).
Proof.
  unfold settle, down, over. destruct (_ && _); [|now rewrite app_nil_r]. destruct (is_connected s); cbn [andb]; [|now rewrite app_nil_r].
  cbv zeta. destruct (disconn_handler _); cbn; [reflexivity|now rewrite app_nil_r].
Qed.

Lemma sock_connected (s s' : world) : sock (this s) = sock (this s') -> is_connected s = is_connected s'.
Proof. unfold is_connected. now intros ->. Qed.

(** [close]: both directions are closed, the socket is gone, nothing is sent, and
    the end of a connection is reported once. *)
Lemma close_spec s : exists s', close encode decode MTU rbuf_sz wbuf_sz NDEBUG s = Some s' /\ sock (this s') = None
  /\ is_w_closed s' = true /\ is_r_closed s' = true /\ seen s' = seen s /\ log s' = log s ++ over s /\ io s' = io s.
Proof.
  unfold close. rewrite set_w_closed_spec. set (s1 := settle (upd_w (with_closed true) s)). rewrite set_r_closed_spec. set (s2 := settle (upd_r (with_closed true) s1)).
  assert (W1 : is_w_closed s1 = true) by (unfold s1, is_w_closed; now rewrite (proj1 (proj2 (proj2 (proj2 (settle_same _)))))).
  assert (W2 : is_w_closed s2 = true) by (unfold s2, is_w_closed; rewrite (proj1 (proj2 (proj2 (proj2 (settle_same _))))); exact W1).
  assert (R2 : is_r_closed s2 = true) by (unfold s2, is_r_closed; now rewrite (proj1 (proj2 (proj2 (settle_same _))))).
  assert (S2 : seen s2 = seen s) by (unfold s2, s1; rewrite (proj1 (settle_same _)); cbn; now rewrite (proj1 (settle_same _))).
  assert (C1 : is_connected s1 = is_connected s && negb (is_r_closed s)) by (unfold s1; now rewrite settle_connected).
  assert (H1 : hs (this s1) = hs (this s)) by (unfold s1; now rewrite (proj2 (proj2 (proj2 (proj2 (proj2 (settle_same _))))))).
  assert (L2 : log s2 = log s ++ over s).
  { unfold s2. rewrite settle_log. change (is_w_closed (upd_r (with_closed true) s1)) with (is_w_closed s1). rewrite W1. cbn [andb].
    change (is_r_closed (upd_r (with_closed true) s1)) with true. cbn iota. change (log (upd_r (with_closed true) s1)) with (log s1).
    unfold s1 at 1. rewrite settle_log. change (is_w_closed (upd_w (with_closed true) s)) with true. cbn [andb]. change (is_r_closed (upd_w (with_closed true) s)) with (is_r_closed s).
    unfold over. change (is_connected (upd_r (with_closed true) s1)) with (is_connected s1). change (hs (this (upd_r (with_closed true) s1))) with (hs (this s1)). rewrite C1, H1.
    change (log (upd_w (with_closed true) s)) with (log s). change (is_connected (upd_w (with_closed true) s)) with (is_connected s). change (hs (this (upd_w (with_closed true) s))) with (hs (this s)).
    destruct (is_r_closed s), (is_connected s); cbn [andb negb]; rewrite <- ?app_assoc, ?app_nil_r; reflexivity. }
  assert (I2 : io s2 = io s) by (unfold s2, s1; rewrite (proj1 (proj2 (settle_same _))); cbn; now rewrite (proj1 (proj2 (settle_same _)))).
  destruct (sock (this s2)) as [k|] eqn:K; [|exists s2; now split_and!]. eexists. split; [reflexivity|]. split_and!; [reflexivity|exact W2|exact R2|exact S2|exact L2|exact I2].
Qed.

(** Operations that do not connect. *)
Definition not_connecting (e : op (msg := msg)) : Prop := match e with Connect _ | AsyncConnect | ConnectDone _ => False | _ => True end.

Lemma settle_idle s : is_connected s = false -> settle s = s.
Proof. intros H. unfold settle, down. rewrite H. now destruct (_ && _). Qed.

(** No region that was handed out has been moved. *)
Definition intact (s : world) : Prop := Forall (fun w => w.1 = true) (writes (io s)) /\ Forall (eq true) (reads (io s)).

Lemma closed_step e s : sock (this s) = None -> not_connecting e -> intact s -> exists s', exec e s = Some s' /\ sock (this s') = None
  /\ log s' = log s /\ encoded (seen s') = encoded (seen s) /\ taken (seen s') = taken (seen s) /\ received (seen s') = received (seen s) /\ intact s'.
Proof.
  intros K He Hi. assert (C : forall t : world, sock (this t) = None -> is_connected t = false) by (intros t Kt; unfold is_connected; now rewrite Kt).
  pose proof (C s K) as Cs. assert (D : forall n (t : world), sock (this t) = None -> disconnect_fuel encode decode MTU rbuf_sz wbuf_sz NDEBUG (S n) t = Some (false, t)).
  { intros n t Kt. cbn [disconnect_fuel]. unfold disconnect_body. now rewrite (C t Kt). }
  destruct e; cbn [TcpConn.TcpConn.exec not_connecting] in *; try contradiction.
  - unfold disconnect. rewrite D by exact K. exists s. now split_and!.
  - unfold send. rewrite Cs. exists s. now split_and!.
  - unfold recv. rewrite Cs. exists s. now split_and!.
  - unfold async_send. rewrite Cs. exists s. now split_and!.
  - unfold async_recv. rewrite Cs. exists s. now split_and!.
  - destruct (close_spec s) as (s' & E & K' & _ & _ & S' & L & I'). exists s'. rewrite S', L. unfold over. rewrite Cs. cbn [andb]. rewrite app_nil_r. unfold intact. rewrite I'. destruct Hi. now split_and!.
  - rewrite set_w_closed_spec, settle_idle by (now apply C). eexists. split; [reflexivity|]. now split_and!.
  - rewrite set_r_closed_spec, settle_idle by (now apply C). eexists. split; [reflexivity|]. now split_and!.
  - destruct (posted (io s)) as [|t q]; [exists s; now split_and!|]. destruct t; unfold _async_send, _async_recv; rewrite (C (set_posted q s) K); cbn [negb orb];
      eexists; (split; [reflexivity|now split_and!]).
  - destruct Hi as [Hw Hr]. destruct (writes (io s)) as [|[valid b] q] eqn:W; [exists s; split_and!; try easy; split; [rewrite W; constructor|exact Hr]|]. apply Forall_cons_1 in Hw as [Hv Hw]. cbn in Hv. subst valid.
    destruct err; unfold _async_send.
    + rewrite set_w_closed_spec, settle_idle by (now apply C). rewrite (C (upd_w (with_closed true) (set_writes q s)) K). eexists. split; [reflexivity|]. now split_and!.
    + rewrite (C (on_wire (take sz b) (set_writes q s)) K). eexists. split; [reflexivity|]. now split_and!.
  - destruct Hi as [Hw Hr]. destruct (reads (io s)) as [|valid k] eqn:R; [exists s; split_and!; try easy; split; [exact Hw|rewrite R; constructor]|]. apply Forall_cons_1 in Hr as [<- Hr].
    destruct (length (take MTU data) =? 0); [exists s; split_and!; try easy; split; [exact Hw|rewrite R; now constructor]|].
    unfold _async_recv. rewrite (C (set_reads k s) K). eexists. split; [reflexivity|]. now split_and!.
  - destruct Hi as [Hw Hr]. destruct (reads (io s)) as [|valid k] eqn:R; [exists s; split_and!; try easy; split; [exact Hw|rewrite R; constructor]|]. apply Forall_cons_1 in Hr as [_ Hr].
    unfold _async_recv. rewrite set_r_closed_spec, settle_idle by (now apply C).
    rewrite (C (upd_r (with_closed true) (set_reads k s)) K). eexists. split; [reflexivity|]. now split_and!.
Qed.

(** [close] returns, closes both directions, sends nothing and reports the end of
    a connection exactly once; afterwards, whatever handlers run and whatever is
    called except connecting, no message is encoded or filled, no handler of the
    application is called, and, if no region of a buffer was moved under an
    operation on it, no call fails. *)
Theorem tcp_close_final s : exists s', close encode decode MTU rbuf_sz wbuf_sz NDEBUG s = Some s' /\ is_connected s' = false
  /\ is_w_closed s' = true /\ is_r_closed s' = true /\ wire (seen s') = wire (seen s) /\ log s' = log s ++ over s
  /\ (intact s -> forall es, Forall not_connecting es -> exists t, run es s' = Some t /\ is_connected t = false /\ log t = log s'
       /\ encoded (seen t) = encoded (seen s) /\ taken (seen t) = taken (seen s) /\ received (seen t) = received (seen s)).
Proof.
  destruct (close_spec s) as (s' & E & K & W & R & S' & L & Hio). exists s'. split_and!; try assumption; [unfold is_connected; now rewrite K|now rewrite S'|].
  rewrite <- S'. intros Hi. assert (Hi' : intact s') by (unfold intact; now rewrite Hio). clear E W R S' L Hio Hi. intros es. revert s' K Hi'. induction es as [|e es IH]; intros s' K Hi Hes.
  - exists s'. unfold is_connected. rewrite K. now split_and!.
  - apply Forall_cons_1 in Hes as [He Hes]. destruct (closed_step e s' K He Hi) as (s1 & E & K1 & L1 & E1 & T1 & R1 & Hi1).
    destruct (IH s1 K1 Hi1 Hes) as (t & Et & Ct & Lt & E2 & T2 & R2). exists t. cbn [TcpConn.TcpConn.run]. rewrite E. split_and!; congruence.
Qed.

(** ** Framing *)

Section Framing.
(** The handler cuts the stream into frames: how many bytes it takes depends on
    the bytes only, and not on those that follow. *)
Context (frame : list Z -> nat) (decode_frame : forall m b, decode m b = frame b)
  (frame_le : forall b, frame b <= length b) (frame_more : forall b c, 0 < frame b -> frame (b ++ c) = frame b).

Fixpoint parse (fuel : nat) (b : list Z) : list (list Z) :=
  match fuel with
  | O => []
  | S fuel => if frame b =? 0 then [] else take (frame b) b :: parse fuel (drop (frame b) b)
  end.
(** The frames of a stream. *)
Definition frames (b : list Z) : list (list Z) := parse (length b) b.

Lemma parse_enough f1 : forall f2 b, length b <= f1 -> length b <= f2 -> parse f1 b = parse f2 b.
Proof.
  induction f1 as [|f1 IH]; intros [|f2] b H1 H2; try reflexivity.
  - cbn [parse]. pose proof (frame_le b). now rewrite (proj2 (Nat.eqb_eq (frame b) 0)) by lia.
  - cbn [parse]. pose proof (frame_le b). now rewrite (proj2 (Nat.eqb_eq (frame b) 0)) by lia.
  - cbn [parse]. destruct (Nat.eqb_spec (frame b) 0) as [E|E]; [reflexivity|]. f_equal. apply IH; rewrite length_drop; lia.
Qed.

Lemma frames_cons b : 0 < frame b -> frames b = take (frame b) b :: frames (drop (frame b) b).
Proof.
  intros H. pose proof (frame_le b). unfold frames. destruct (length b) as [|n] eqn:E; [lia|]. cbn [parse]. rewrite (proj2 (Nat.eqb_neq _ _)) by lia.
  f_equal. apply parse_enough; rewrite length_drop; lia.
Qed.

Lemma frames_nil b : frame b = 0 -> frames b = [].
Proof. intros E. unfold frames. destruct (length b); [reflexivity|]. cbn [parse]. now rewrite E. Qed.

(** More bytes do not change the frames that were complete. *)
Lemma frames_more fs : forall x y c, x = concat fs ++ y -> frames x = fs ++ frames y -> frames (x ++ c) = fs ++ frames (y ++ c).
Proof.
  induction fs as [|f fs IH]; intros x y c Ex Ef; [cbn in *; now subst|].
  assert (Hp : 0 < frame x) by (destruct (decide (frame x = 0)) as [E|E]; [rewrite frames_nil in Ef by exact E; discriminate|lia]).
  pose proof (frames_cons x Hp) as Ec. rewrite Ec in Ef. cbn [app] in Ef. injection Ef as Ef1 Ef2.
  pose proof (frame_le x) as Hl. assert (Ed : drop (frame x) x = concat fs ++ y).
  { cbn [concat] in Ex. rewrite Ex at 2. rewrite <- app_assoc, <- Ef1. apply drop_app_length'. rewrite length_take. lia. }
  rewrite frames_cons by (rewrite frame_more by exact Hp; exact Hp). rewrite frame_more by exact Hp.
  rewrite take_app_le, drop_app_le by exact Hl. cbn [app]. rewrite Ef1. f_equal. now apply IH.
Qed.

(** What was taken are the first frames of what was received; the rest is in the
    buffer. *)
Definition framed (s : world) : Prop :=
  received (seen s) = concat (taken (seen s)) ++ buf (r (this s)) /\ frames (received (seen s)) = taken (seen s) ++ frames (buf (r (this s))).

Lemma framed_same s s' : received (seen s') = received (seen s) -> taken (seen s') = taken (seen s) -> buf (r (this s')) = buf (r (this s)) ->
  framed s -> framed s'.
Proof. unfold framed. now intros -> -> ->. Qed.

Lemma framed_settle s : framed s -> framed (settle s).
Proof. destruct (settle_same s) as (E1 & _ & E2 & _). apply framed_same; now rewrite ?E1, ?E2. Qed.

Lemma framed_commit b s : framed s -> framed (commit_r b s).
Proof.
  intros [H1 H2]. split; cbn.
  - now rewrite H1, app_assoc.
  - now apply frames_more.
Qed.

Lemma framed_consume m (s : world) : framed s -> 0 < decode m (buf (r (this s))) -> framed (consume_r (decode m (buf (r (this s)))) s).
Proof.
  rewrite decode_frame. intros [H1 H2] Hp. split; cbn.
  - rewrite H1, concat_app. cbn [concat]. now rewrite app_nil_r, <- app_assoc, take_drop.
  - rewrite H2, (frames_cons _ Hp) at 1. now rewrite <- app_assoc.
Qed.

Lemma framed_recv_handler m s : framed s -> framed (call_recv_handler m s).
Proof. apply framed_same; unfold call_recv_handler; now destruct (recv_handler _). Qed.
Lemma framed_send_handler m s : framed s -> framed (call_send_handler m s).
Proof. apply framed_same; unfold call_send_handler; now destruct (send_handler _). Qed.
(** Steps that touch neither the input buffer nor what is known of it. *)
Ltac same_input := first [assumption | eapply framed_same; [reflexivity|reflexivity|reflexivity|]; same_input].

Lemma framed_set_w b s s' : set_w_closed encode decode MTU rbuf_sz wbuf_sz NDEBUG b s = Some s' -> framed s -> framed s'.
Proof. rewrite set_w_closed_spec. intros [= <-] H. apply framed_settle. same_input. Qed.
Lemma framed_set_r b s s' : set_r_closed encode decode MTU rbuf_sz wbuf_sz NDEBUG b s = Some s' -> framed s -> framed s'.
Proof. rewrite set_r_closed_spec. intros [= <-] H. apply framed_settle. same_input. Qed.

Lemma framed_send_all n fuel : forall s r, send_all_loop encode MTU wbuf_sz (disconnect_fuel encode decode MTU rbuf_sz wbuf_sz NDEBUG (S n)) fuel s = Some r -> framed s -> framed r.2.
Proof.
  induction fuel as [|fuel IH]; intros s r; cbn [send_all_loop]; [discriminate|]. destruct (_ || _); [now intros [= <-]|].
  destruct (ch (w (this s))) as [|[m|] q]; [now intros [= <-]| |intros [= <-] H; same_input]. cbv zeta.
  destruct (negb _); [intros [= <-] H; same_input|]. unfold prepare_w. destruct (wbuf_sz <? _); [discriminate|]. destruct (MTU <? _); [discriminate|]. unfold set_w_closed_body.
  destruct (length (encode m) <? 1); [rewrite check_closed_spec; intros [= <-] H; apply framed_settle; same_input|].
  unfold sock_send. destruct (accepts _) as [|k acc]; [discriminate|]. cbv zeta beta iota.
  destruct (length (take k _) <? _); [rewrite check_closed_spec; intros [= <-] H; apply framed_settle; same_input|].
  intros E H. apply (IH _ _ E), framed_send_handler. same_input.
Qed.

Lemma framed_recv_all fuel : forall s r, recv_all_loop decode MTU rbuf_sz NDEBUG fuel s = Some r -> framed s -> framed r.2.
Proof.
  induction fuel as [|fuel IH]; intros s r; cbn [recv_all_loop]; [discriminate|]. destruct (_ || _); [now intros [= <-]|].
  destruct (ch (TcpConn.TcpConn.r (this s))) as [|[m|] q] eqn:Eq; [now intros [= <-]| |intros [= <-] H; same_input]. cbv zeta.
  destruct (negb _); [intros [= <-] H; same_input|].
  set (s1 := upd_r (with_ch q) s). intros E H. assert (H1 : framed s1) by (unfold s1; same_input). destruct (Nat.ltb_spec 0 (decode m (buf (TcpConn.TcpConn.r (this s1))))) as [L|L].
  - apply (IH _ _ E). apply framed_recv_handler. now apply framed_consume.
  - unfold prepare_r in E. destruct (rbuf_sz <? _); [discriminate|]. unfold sock_recv in E. destruct (arrivals _) as [|[b|] arr]; [discriminate| |].
    + apply (IH _ _ E). apply framed_commit. same_input.
    + destruct NDEBUG; [|discriminate]. apply (IH _ _ E). apply framed_commit. same_input.
Qed.

Lemma framed_disconnect s r : disconnect encode decode MTU rbuf_sz wbuf_sz NDEBUG s = Some r -> framed s -> framed r.2.
Proof.
  unfold disconnect. cbn [disconnect_fuel]. unfold disconnect_body at 1. destruct (negb _); [now intros [= <-]|].
  intros E H. destruct (send_all_body _ _ _ _ s) as [[b1 s1]|] eqn:E1; [|discriminate]. destruct (recv_all_body _ _ _ _ s1) as [[b2 s2]|] eqn:E2; [|discriminate].
  assert (H1 : framed s1).
  { unfold send_all_body in E1. destruct (is_w_closed s); [injection E1 as <- <-; exact H|exact (framed_send_all 0 _ s (b1, s1) E1 H)]. }
  assert (H2 : framed s2).
  { unfold recv_all_body in E2. destruct (is_r_closed s1); [injection E2 as <- <-; exact H1|exact (framed_recv_all _ s1 (b2, s2) E2 H1)]. }
  cbv zeta in E. injection E as <-. cbn [snd]. destruct (disconn_handler _); same_input.
Qed.

Lemma framed_async_send err sz s s' : _async_send encode decode MTU rbuf_sz wbuf_sz NDEBUG err sz s = Some s' -> framed s -> framed s'.
Proof.
  unfold _async_send. intros E H. assert (Hs : exists s1, (if err then set_w_closed encode decode MTU rbuf_sz wbuf_sz NDEBUG true s else Some s) = Some s1 /\ framed s1).
  { destruct err; [|now exists s]. rewrite set_w_closed_spec. eexists. split; [reflexivity|]. apply framed_settle. same_input. }
  destruct Hs as (s1 & E1 & H1). rewrite E1 in E. clear E1 H. destruct (_ || _); [now injection E as <-|].
  cbv zeta in E. destruct (ch (w (this (consume_w sz s1)))) as [|[m|] q]; [injection E as <-; same_input| |injection E as <-; same_input].
  destruct (negb _); [injection E as <-; same_input|]. unfold prepare_w in E. destruct (wbuf_sz <? _); [discriminate|]. destruct (MTU <? _); [discriminate|]. destruct (length (encode m) <? 1).
  - apply (framed_set_w _ _ _ E). same_input.
  - injection E as <-. apply framed_send_handler. same_input.
Qed.

Lemma framed_recv_loop fuel : forall s r, async_recv_loop decode fuel s = Some r -> framed s -> framed r.2.
Proof.
  induction fuel as [|fuel IH]; intros s r; cbn [async_recv_loop]; [discriminate|]. destruct (ch (TcpConn.TcpConn.r (this s))) as [|[m|] q]; [now intros [= <-]| |intros [= <-] H; same_input].
  cbv zeta. destruct (negb _); [intros [= <-] H; same_input|]. set (s1 := upd_r (with_ch q) s). intros E H. assert (H1 : framed s1) by (unfold s1; same_input).
  destruct (Nat.ltb_spec 0 (decode m (buf (TcpConn.TcpConn.r (this s1))))) as [L|L].
  - apply (IH _ _ E). apply framed_recv_handler. now apply framed_consume.
  - injection E as <-. cbn [snd]. same_input.
Qed.

Lemma framed_async_recv err data s s' : _async_recv encode decode MTU rbuf_sz wbuf_sz NDEBUG err data s = Some s' -> framed s -> framed s'.
Proof.
  unfold _async_recv. intros E H. assert (Hs : exists s1, (if err then set_r_closed encode decode MTU rbuf_sz wbuf_sz NDEBUG true s else Some s) = Some s1 /\ framed s1).
  { destruct err; [|now exists s]. rewrite set_r_closed_spec. eexists. split; [reflexivity|]. apply framed_settle. same_input. }
  destruct Hs as (s1 & E1 & H1). rewrite E1 in E. clear E1 H. destruct (_ || _); [now injection E as <-|]. cbv zeta in E.
  assert (H2 : framed (if 0 <? length data then store_recving false (commit_r data s1) else s1)).
  { destruct (0 <? length data); [|exact H1]. apply (framed_same (commit_r data s1)); [reflexivity..|]. now apply framed_commit. }
  revert E H2. generalize (if 0 <? length data then store_recving false (commit_r data s1) else s1). intros s2 E H2.
  destruct (async_recv_loop decode _ s2) as [[reading s3]|] eqn:E3; [|discriminate]. pose proof (framed_recv_loop _ _ _ E3 H2) as H3. cbn [snd] in H3.
  destruct (negb reading); [now injection E as <-|]. destruct (is_recving (this s3)); [now injection E as <-|]. unfold prepare_r in E. destruct (rbuf_sz <? _); [discriminate|]. injection E as <-. same_input.
Qed.

Lemma framed_open s s' : open_directions encode decode MTU rbuf_sz wbuf_sz NDEBUG s = Some s' -> framed s -> framed s'.
Proof.
  unfold open_directions. rewrite set_w_closed_spec, set_r_closed_spec. intros [= <-] H.
  apply (framed_same (settle (upd_r (with_closed false) (settle (upd_w (with_closed false) s))))); [reflexivity..|].
  apply framed_settle. apply (framed_same (settle (upd_w (with_closed false) s))); [reflexivity..|]. apply framed_settle. same_input.
Qed.

(** Every operation keeps the invariant. *)
Lemma framed_step e s s' : exec e s = Some s' -> framed s -> framed s'.
Proof.
  intros E H. destruct e; cbn [TcpConn.TcpConn.exec] in E.
  - unfold connect in E. destruct (is_connected s); [now injection E as <-|]. destruct (sock (this s)) as [k|]; [|discriminate].
    destruct (Socket.connect attempts k) as [ok k']. destruct ok; cbn [negb] in E; [|injection E as <-; same_input].
    destruct (open_directions _ _ _ _ _ _ _) as [s1|] eqn:E1; [|discriminate]. injection E as <-. apply (framed_open _ _ E1). same_input.
  - unfold async_connect in E. destruct (is_connected s); [now injection E as <-|]. destruct (sock (this s)) as [k|]; [|discriminate].
    destruct (Socket.async_connect k) as [ok k']. injection E as <-. same_input.
  - destruct (connecting (io s)); [|now injection E as <-]. unfold async_connect_done in E. destruct success.
    + destruct (open_directions _ _ _ _ _ _ _) as [s1|] eqn:E1; [|discriminate]. injection E as <-.
      apply (framed_same s1); [reflexivity..|]. apply (framed_open _ _ E1). same_input.
    + injection E as <-. same_input.
  - destruct (disconnect _ _ _ _ _ _ s) as [[b s1]|] eqn:E1; [|discriminate]. injection E as <-. exact (framed_disconnect _ _ E1 H).
  - unfold send, _send_all, send_all_body in E. destruct (_ || _); [now injection E as <-|]. destruct (is_w_closed _); [injection E as <-; same_input|].
    destruct (send_all_loop _ _ _ _ _ _) as [[b s1]|] eqn:E1; [|discriminate]. injection E as <-. unfold disconnect in E1. apply (framed_send_all 1 _ _ _ E1). same_input.
  - unfold recv, _recv_all, recv_all_body in E. destruct (_ || _); [now injection E as <-|]. destruct (is_r_closed _); [injection E as <-; same_input|].
    destruct (recv_all_loop _ _ _ _ _ _) as [[b s1]|] eqn:E1; [|discriminate]. injection E as <-. apply (framed_recv_all _ _ _ E1). same_input.
  - injection E as <-. unfold async_send. destruct (_ || _); [exact H|]. cbn [snd]. same_input.
  - injection E as <-. unfold async_recv. destruct (_ || _); [exact H|]. cbn [snd]. same_input.
  - unfold close in E. destruct (set_w_closed _ _ _ _ _ _ true s) as [s1|] eqn:E1; [|discriminate]. destruct (set_r_closed _ _ _ _ _ _ true s1) as [s2|] eqn:E2; [|discriminate].
    pose proof (framed_set_r _ _ _ E2 (framed_set_w _ _ _ E1 H)) as H2. destruct (sock (this s2)); injection E as <-; [same_input|exact H2].
  - exact (framed_set_w _ _ _ E H).
  - exact (framed_set_r _ _ _ E H).
  - destruct (posted (io s)) as [|[] q]; [now injection E as <-|apply (framed_async_send _ _ _ _ E); same_input|apply (framed_async_recv _ _ _ _ E); same_input].
  - destruct (writes (io s)) as [|[valid b] q]; [now injection E as <-|]. cbv zeta in E. destruct err; [|destruct valid; [|discriminate]]; apply (framed_async_send _ _ _ _ E); same_input.
  - destruct (reads (io s)) as [|valid k]; [now injection E as <-|]. cbv zeta in E. destruct (length (take MTU data) =? 0); [now injection E as <-|].
    destruct valid; [|discriminate]. apply (framed_async_recv _ _ _ _ E). same_input.
  - destruct (reads (io s)) as [|valid k]; [now injection E as <-|]. apply (framed_async_recv _ _ _ _ E). same_input.
Qed.

Lemma framed_run es : forall s s', run es s = Some s' -> framed s -> framed s'.
Proof.
  induction es as [|e es IH]; intros s s' E H; cbn [TcpConn.TcpConn.run] in E; [now injection E as <-|].
  destruct (exec e s) as [s1|] eqn:E1; [|discriminate]. apply (IH _ _ E). exact (framed_step _ _ _ E1 H).
Qed.

Lemma framed_fresh h acc arr : framed (fresh (msg := msg) h acc arr).
Proof. split; reflexivity. Qed.

(** *** A connection without errors *)

(** Connecting, queueing messages, handlers that run, writes and reads that
    complete; no message is null. *)
Definition quiet (e : op (msg := msg)) : Prop :=
  match e with
  | Connect _ | Run | WriteDone false _ | ReadDone _ => True
  | ASend m | ARecv m => is_Some m
  | _ => False
  end.

Definition has_recv_task (s : world) : Prop := AsyncRecv ∈ posted (io s).
(** One read is under way when [_is_recving] says so; a message that waits has a
    handler posted, or a read under way and no complete frame in the buffer. *)
Record waiting (s : world) : Prop := Waiting
  { q_open : is_r_closed s = false;
    q_msgs : Forall is_Some (ch (r (this s)));
    q_decode : decode_handler (hs (this s)) = true;
    q_reads : reads (io s) = if is_recving (this s) then [true] else [];
    q_off : is_connected s = false -> posted (io s) = [] /\ ch (r (this s)) = [] /\ sock (this s) <> None /\ is_recving (this s) = false;
    q_ready : ch (r (this s)) <> [] -> ~ has_recv_task s -> is_recving (this s) = true /\ frame (buf (r (this s))) = 0 }.

(** What the sending side does not touch. *)
Definition same_recv (s s' : world) : Prop :=
  r (this s') = r (this s) /\ is_recving (this s') = is_recving (this s) /\ hs (this s') = hs (this s)
  /\ sock (this s') = sock (this s) /\ reads (io s') = reads (io s) /\ posted (io s') = posted (io s).

Lemma waiting_same s s' : same_recv s s' -> waiting s -> waiting s'.
Proof.
  intros (E1 & E2 & E3 & E4 & E5 & E6) [H1 H2 H3 H4 H5 H6].
  assert (C : is_connected s' = is_connected s) by (unfold is_connected; now rewrite E4).
  split; unfold is_r_closed, has_recv_task in *; rewrite ?E1, ?E2, ?E3, ?E4, ?E5, ?E6, ?C in *; assumption.
Qed.

Lemma settle_open s : is_r_closed s = false -> settle s = s.
Proof. intros H. unfold settle. rewrite H. now rewrite andb_false_r. Qed.

Lemma async_send_same sz s s' : is_r_closed s = false -> _async_send encode decode MTU rbuf_sz wbuf_sz NDEBUG false sz s = Some s' -> same_recv s s'.
Proof.
  intros Ho. unfold _async_send. destruct (_ || _); [now intros [= <-]|]. cbv zeta.
  destruct (ch (w (this (consume_w sz s)))) as [|[m|] q]; [now intros [= <-]| |now intros [= <-]]. destruct (negb _); [now intros [= <-]|].
  unfold prepare_w. destruct (wbuf_sz <? _); [discriminate|].
  destruct (MTU <? _); [discriminate|]. destruct (length (encode m) <? 1).
  - rewrite set_w_closed_spec, settle_open by exact Ho. now intros [= <-].
  - intros [= <-]. unfold call_send_handler. now destruct (send_handler _).
Qed.

(** The loop empties the queue, or stops at a frame that is not complete. *)
Lemma recv_loop_spec fuel : forall s, length (ch (r (this s))) < fuel -> Forall is_Some (ch (r (this s))) -> decode_handler (hs (this s)) = true ->
  exists reading s', async_recv_loop decode fuel s = Some (reading, s')
    /\ Forall is_Some (ch (r (this s'))) /\ is_r_closed s' = is_r_closed s /\ hs (this s') = hs (this s) /\ sock (this s') = sock (this s)
    /\ is_recving (this s') = is_recving (this s) /\ io s' = io s /\ w (this s') = w (this s)
    /\ if reading : bool then frame (buf (r (this s'))) = 0 else ch (r (this s')) = [].
Proof.
  induction fuel as [|fuel IH]; intros s Hf Hm Hd; [lia|]. cbn [async_recv_loop].
  destruct (ch (r (this s))) as [|m q] eqn:Eq; [exists false, s; rewrite Eq; now split_and!|]. apply Forall_cons_1 in Hm as [[m' ->] Hm]. cbv zeta.
  change (decode_handler (hs (this (upd_r (with_ch q) s)))) with (decode_handler (hs (this s))). rewrite Hd. cbn [negb].
  change (buf (r (this (upd_r (with_ch q) s)))) with (buf (r (this s))). rewrite decode_frame.
  destruct (Nat.ltb_spec 0 (frame (buf (r (this s))))) as [L|L].
  - set (s1 := call_recv_handler m' (consume_r (frame (buf (r (this s)))) (upd_r (with_ch q) s))).
    assert (Es1 : ch (r (this s1)) = q /\ is_r_closed s1 = is_r_closed s /\ hs (this s1) = hs (this s) /\ sock (this s1) = sock (this s)
      /\ is_recving (this s1) = is_recving (this s) /\ io s1 = io s /\ w (this s1) = w (this s)) by (unfold s1, call_recv_handler; now destruct (recv_handler _)).
    destruct Es1 as (E1 & E2 & E3 & E4 & E5 & E6 & E7). cbn [length] in Hf.
    destruct (IH s1) as (b & s' & E & F1 & F2 & F3 & F4 & F5 & F6 & F8 & F7); [rewrite E1; lia|now rewrite E1|now rewrite E3|].
    exists b, s'. split; [exact E|]. split_and!; try assumption; congruence.
  - exists true. eexists. split; [reflexivity|]. split_and!; try reflexivity; [|cbn; lia]. cbn. apply Forall_app. split; [exact Hm|]. constructor; [now eexists|constructor].
Qed.

(** A buffer without a complete frame leaves room for a read. *)
Hypothesis room : forall b, rbuf_sz < length b + MTU -> 0 < frame b.

Lemma prepare_room (s : world) : frame (buf (r (this s))) = 0 -> prepare_r MTU rbuf_sz s = Some (dangle_r s).
Proof. intros H. unfold prepare_r. destruct (Nat.ltb_spec rbuf_sz (length (buf (r (this s))) + MTU)) as [L|L]; [|reflexivity]. apply room in L. lia. Qed.

Lemma waiting_async_recv data s : is_r_closed s = false -> Forall is_Some (ch (r (this s))) -> decode_handler (hs (this s)) = true ->
  reads (io s) = (if is_recving (this s) then [true] else []) -> is_connected s = true ->
  exists s', _async_recv encode decode MTU rbuf_sz wbuf_sz NDEBUG false data (if 0 <? length data then set_reads [] s else s) = Some s'
    /\ waiting s' /\ w (this s') = w (this s) /\ writes (io s') = writes (io s).
Proof.
  intros H1 H2 H3 H4 Hc. unfold _async_recv. set (s0 := if 0 <? length data then set_reads [] s else s).
  assert (E0 : this s0 = this s) by (unfold s0; now destruct (0 <? _)).
  unfold is_connected, is_r_closed in *. rewrite E0, Hc, H1. cbn [negb orb].
  set (s1 := if 0 <? length data then store_recving false (commit_r data s0) else s0).
  assert (E1 : ch (r (this s1)) = ch (r (this s)) /\ closed (r (this s1)) = closed (r (this s)) /\ hs (this s1) = hs (this s) /\ sock (this s1) = sock (this s)
    /\ reads (io s1) = (if is_recving (this s1) then [true] else []) /\ posted (io s1) = posted (io s) /\ w (this s1) = w (this s) /\ writes (io s1) = writes (io s)).
  { unfold s1, s0. destruct (0 <? length data); cbn; now split_and!. }
  destruct E1 as (E1 & E2 & E3 & E4 & E5 & E6 & E7 & E8).
  destruct (recv_loop_spec (S (length (ch (r (this s1))))) s1) as (reading & s2 & E & F1 & F2 & F3 & F4 & F5 & F6 & F8 & F7); [lia|now rewrite E1|now rewrite E3|].
  rewrite E. assert (C2 : match sock (this s2) with Some k => Socket.is_connected k | None => false end = true) by (now rewrite F4, E4).
  unfold is_r_closed in F2. rewrite E2, H1 in F2. destruct reading; cbn [negb].
  - destruct (is_recving (this s2)) eqn:R2.
    + exists s2. split_and!; [reflexivity| |congruence|congruence].
      split; unfold is_connected, is_r_closed; [exact F2|exact F1|now rewrite F3, E3|now rewrite F6, E5, R2, <- F5|now rewrite C2|now intros _ _].
    + rewrite prepare_room by exact F7. eexists. split_and!; [reflexivity| |cbn; congruence|cbn; congruence].
      split; unfold is_connected, is_r_closed; cbn; [exact F2|exact F1|now rewrite F3, E3| |now rewrite C2|now intros _ _].
      now rewrite F6, E5, <- F5.
  - exists s2. split_and!; [reflexivity| |congruence|congruence].
    split; unfold is_connected, is_r_closed; [exact F2|exact F1|now rewrite F3, E3|now rewrite F6, E5, F5|now rewrite C2|]. now rewrite F7.
Qed.

Lemma connect_fails attempts : forall k ok k', Socket.connect attempts k = (ok, k') -> Socket.is_connected k = false ->
  Socket.is_connected k' = ok.
Proof.
  induction attempts as [|a attempts IH]; intros k ok k' E Hk; cbn in E; [now injection E as <- <-|].
  destruct a; [now injection E as <- <-|]. now apply (IH _ _ _ E).
Qed.

(** Nothing to send, and nothing being sent. *)
Definition idle (s : world) : Prop := ch (w (this s)) = [] /\ writes (io s) = [].
Definition silent (e : op (msg := msg)) : Prop := match e with ASend _ => False | _ => True end.

Lemma waiting_async_send sz s : waiting s -> (idle s -> is_Some (_async_send encode decode MTU rbuf_sz wbuf_sz NDEBUG false sz s))
  /\ forall s', _async_send encode decode MTU rbuf_sz wbuf_sz NDEBUG false sz s = Some s' -> waiting s' /\ (idle s -> idle s').
Proof.
  intros H. split.
  - intros [Hq _]. unfold _async_send. destruct (_ || _); [eauto|]. cbv zeta. change (ch (w (this (consume_w sz s)))) with (ch (w (this s))). rewrite Hq. eauto.
  - intros s' E. split; [exact (waiting_same _ _ (async_send_same _ _ _ (q_open _ H) E) H)|]. intros [Hq Hw]. revert E. unfold _async_send.
    destruct (_ || _); [intros [= <-]; now split|]. cbv zeta. change (ch (w (this (consume_w sz s)))) with (ch (w (this s))). rewrite Hq. intros [= <-]. now split.
Qed.

(** A step goes well if nothing is being sent, and keeps what is known. *)
Definition goes_on (e : op (msg := msg)) (s : world) : Prop :=
  (silent e -> idle s -> is_Some (exec e s)) /\ forall s', exec e s = Some s' -> waiting s' /\ (silent e -> idle s -> idle s').

Lemma goes_on_to e s s1 : exec e s = Some s1 -> waiting s1 -> ch (w (this s1)) = ch (w (this s)) -> writes (io s1) = writes (io s) -> goes_on e s.
Proof.
  intros E W Ew Ei. split; rewrite E; [eauto|]. intros s' [= <-]. split; [exact W|]. intros _ [H1 H2]. split; congruence.
Qed.

Lemma waiting_connect a s : waiting s -> goes_on (Connect a) s.
Proof.
  intros H. pose proof H as [H1 H2 H3 H4 H5 H6]. destruct (is_connected s) eqn:C; [apply (goes_on_to _ s s); cbn; unfold connect; now rewrite ?C|].
  destruct (H5 eq_refl) as (P & Q & K & R0). destruct (sock (this s)) as [k|] eqn:Ek; [|congruence].
  destruct (Socket.connect a k) as [ok k'] eqn:Ec. assert (Hk : Socket.is_connected k = false) by (unfold is_connected in C; now rewrite Ek in C).
  pose proof (connect_fails _ _ _ _ Ec Hk) as Hk'. destruct ok.
  - eapply goes_on_to; [cbn; unfold connect; rewrite C, Ek, Ec; cbn [negb]; unfold open_directions;
      rewrite set_w_closed_spec, settle_open by exact H1; rewrite set_r_closed_spec, settle_open by reflexivity; reflexivity| | |reflexivity].
    + split; unfold is_connected, is_r_closed, has_recv_task; cbn; try assumption; [reflexivity|rewrite Ek; cbn; now rewrite Hk'|].
      intros _ N. exfalso. apply N. rewrite P. cbn. right. now left.
    + reflexivity.
  - eapply goes_on_to; [cbn; unfold connect; rewrite C, Ek, Ec; reflexivity| |reflexivity|reflexivity].
    split; unfold is_connected, is_r_closed, has_recv_task in *; cbn; try assumption.
    intros _. rewrite Ek. cbn. split_and!; [exact P|exact Q|discriminate|exact R0].
Qed.

Lemma waiting_step e s : MTU <> 0 -> quiet e -> waiting s -> goes_on e s.
Proof.
  intros HM Hq H. pose proof H as [H1 H2 H3 H4 H5 H6].
  destruct e; cbn [quiet] in Hq; try contradiction.
  - now apply waiting_connect.
  - split; [easy|]. cbn. intros s' [= <-]. split; [|easy]. unfold async_send. destruct (_ || _) eqn:B; [exact H|]. cbn [snd]. split; unfold is_connected, is_r_closed, has_recv_task in *; cbn; try assumption.
    + intros C. apply orb_false_iff in B as [B _]. apply negb_false_iff in B. congruence.
    + intros Hne N. apply H6; [exact Hne|]. intros X. apply N. apply elem_of_app. now left.
  - eapply goes_on_to; [reflexivity|..]; unfold async_recv; destruct (_ || _) eqn:B; try exact H; try reflexivity. cbn [snd]. split; unfold is_connected, is_r_closed, has_recv_task in *; cbn; try assumption.
    + apply Forall_app. split; [exact H2|]. now constructor; [|constructor].
    + intros C. apply orb_false_iff in B as [B _]. apply negb_false_iff in B. congruence.
    + intros _ N. exfalso. apply N. apply elem_of_app. right. now left.
  - destruct (posted (io s)) as [|t q] eqn:P; [apply (goes_on_to _ s s); cbn; now rewrite ?P|].
    assert (C : is_connected s = true) by (destruct (is_connected s); [reflexivity|]; now destruct (H5 eq_refl)).
    destruct t.
    + unfold goes_on. cbn. rewrite P. assert (W : waiting (set_posted q s)).
      { split; unfold is_connected, is_r_closed, has_recv_task in *; cbn; try assumption; [now rewrite C|].
        intros Hne N. apply H6; [exact Hne|]. rewrite P. intros X. apply elem_of_cons in X as [X|X]; [discriminate|now apply N]. }
      destruct (waiting_async_send 0 _ W) as [S1 S2]. split; [intros _ Hi; now apply S1|]. intros s' E. destruct (S2 s' E). now split.
    + destruct (waiting_async_recv [] (set_posted q s)) as (s' & E & W & Ew & Ei); try assumption. apply (goes_on_to _ s s'); [cbn; now rewrite P|exact W|now rewrite Ew|exact Ei].
  - destruct (writes (io s)) as [|[valid b] q] eqn:Ew; [apply (goes_on_to _ s s); cbn; now rewrite ?Ew|]. destruct err; [contradiction|].
    unfold goes_on. cbn. rewrite Ew. split; [intros _ [_ Hi]; congruence|]. destruct valid; [|easy]. intros s' E.
    destruct (waiting_async_send (length (take sz b)) (on_wire (take sz b) (set_writes q s))) as [_ S2]; [apply (waiting_same s); [now repeat split|exact H]|].
    destruct (S2 s' E) as [W _]. split; [exact W|]. intros _ [_ Hi]. congruence.
  - destruct (reads (io s)) as [|valid k] eqn:R; [apply (goes_on_to _ s s); cbn; now rewrite ?R|].
    destruct (Nat.eqb_spec (length (take MTU data)) 0) as [E0|E0]; [apply (goes_on_to _ s s); cbn; rewrite ?R; try easy; now rewrite (proj2 (Nat.eqb_eq _ _) E0)|].
    assert (Hk : k = [] /\ valid = true) by (destruct (is_recving (this s)); [now injection H4 as -> ->|discriminate]). destruct Hk as [-> ->].
    assert (C : is_connected s = true) by (destruct (is_connected s) eqn:C; [reflexivity|]; destruct (H5 eq_refl) as (_ & _ & _ & R0); rewrite R0 in H4; discriminate).
    destruct (waiting_async_recv (take MTU data) s) as (s' & E & W & Ew & Ei); try assumption; [now rewrite R|]. rewrite (proj2 (Nat.ltb_lt _ _)) in E by lia.
    apply (goes_on_to _ s s'); [cbn; rewrite R, (proj2 (Nat.eqb_neq _ _) E0); exact E|exact W|now rewrite Ew|exact Ei].
Qed.

Lemma waiting_run es : MTU <> 0 -> Forall quiet es -> forall s, waiting s ->
  (Forall silent es -> idle s -> is_Some (run es s)) /\ forall s', run es s = Some s' -> waiting s'.
Proof.
  intros HM. induction es as [|e es IH]; intros Hes s H; cbn [TcpConn.TcpConn.run]; [split; [eauto|now intros s' [= <-]]|].
  apply Forall_cons_1 in Hes as [He Hes]. destruct (waiting_step e s HM He H) as [S1 S2]. split.
  - intros Hsil Hi. apply Forall_cons_1 in Hsil as [Hs Hsil]. destruct (S1 Hs Hi) as [s1 E]. rewrite E. destruct (S2 s1 E) as [W1 I1].
    destruct (IH Hes s1 W1) as [S3 _]. apply S3; [exact Hsil|now apply I1].
  - intros s' E. destruct (exec e s) as [s1|] eqn:E1; [|discriminate]. destruct (S2 s1 eq_refl) as [W1 _]. now apply (IH Hes s1 W1).
Qed.

(** C20: the frames of the bytes received.  Whatever operations are called and
    whatever the network does, as long as no operation is undefined (a read
    completes into a region that a blocking receive has moved, a buffer would
    exceed its size) the bytes that messages took are the first frames of the
    bytes received, in order, and the rest is in the buffer.  While the
    connection is opened once or more by [connect], messages are queued by
    [async_recv] and [async_send], handlers run, and reads and writes complete
    without errors, and if a buffer of [rbuf_sz] bytes less one read holds a frame:
    at most one read is under way, into a region no one has moved, and a message
    that waits has a handler posted, or a read under way and every frame received
    has been delivered.  When nothing is sent, nothing is undefined either.  Failed
    reads, blocking receives and closing are not part of the second half: after a
    failed read no read is ever started again. *)
Theorem tcp_receive h acc arr :
  (forall es s, run es (fresh h acc arr) = Some s -> framed s)
  /\ (MTU <> 0 -> decode_handler h = true -> forall es, Forall quiet es ->
      (Forall silent es -> is_Some (run es (fresh h acc arr)))
      /\ forall s, run es (fresh h acc arr) = Some s ->
        (reads (io s) = [] \/ reads (io s) = [true])
        /\ (ch (r (this s)) <> [] -> ~ has_recv_task s -> reads (io s) = [true] /\ taken (seen s) = frames (received (seen s)))).
Proof.
  assert (F : forall es s, run es (fresh h acc arr) = Some s -> framed s) by (intros es s E; exact (framed_run es _ _ E (framed_fresh h acc arr))).
  split; [exact F|]. intros HM Hd es Hes. destruct (waiting_run es HM Hes (fresh h acc arr)) as [S1 S2].
  - split; unfold is_connected, is_r_closed, has_recv_task; cbn; try reflexivity; [apply Forall_nil; exact I|exact Hd|intros _; split_and!; congruence|congruence].
  - split; [intros Hsil; now apply S1|]. intros s E. destruct (S2 s E) as [_ _ _ Hr _ Hw].
    split; [rewrite Hr; destruct (is_recving _); auto|]. intros Hne N. destruct (Hw Hne N) as [R B].
    split; [now rewrite Hr, R|]. destruct (F es s E) as [_ Ef]. rewrite Ef, (frames_nil _ B). now rewrite app_nil_r.
Qed.

End Framing.

(** ** Sending *)

(** Quiet operations whose writes complete in full. *)
Definition full (e : op (msg := msg)) : Prop := match e with WriteDone _ sz => MTU <= sz | _ => True end.

(** The messages [async_send] accepts. *)
Fixpoint accepted (es : list (op (msg := msg))) (s : world) : list msg :=
  match es with
  | [] => []
  | e :: es => (match e with ASend (Some m) => if (async_send (Some m) s).1 then [m] else [] | _ => [] end)
      ++ match exec e s with Some s' => accepted es s' | None => [] end
  end.
Definition is_send (t : task) : bool := match t with AsyncSend => true | AsyncRecv => false end.
Definition send_tasks (s : world) : nat := length (List.filter is_send (posted (io s))).

(** Accepted messages were encoded in order or are in the queue; what was encoded
    is on the wire or being written; each message in the queue has a handler or a
    completion to take it. *)
Record sending (acc : list msg) (s : world) : Prop := Sending
  { n_open : is_w_closed s = false /\ is_r_closed s = false;
    n_encode : encode_handler (hs (this s)) = true;
    n_off : is_connected s = false -> posted (io s) = [] /\ writes (io s) = [] /\ ch (w (this s)) = [] /\ sock (this s) <> None;
    n_order : exists done queue, acc = done ++ queue /\ encoded (seen s) = map encode done /\ ch (w (this s)) = map Some queue;
    n_wire : wire (seen s) ++ concat (map snd (writes (io s))) = concat (encoded (seen s));
    n_short : Forall (fun b => length b.2 <= MTU) (writes (io s));
    n_taken : length (ch (w (this s))) <= send_tasks s + length (writes (io s)) }.

(** What the receiving side does not touch. *)
Definition same_send (s s' : world) : Prop :=
  w (this s') = w (this s) /\ hs (this s') = hs (this s) /\ sock (this s') = sock (this s) /\ closed (r (this s')) = closed (r (this s))
  /\ writes (io s') = writes (io s) /\ posted (io s') = posted (io s) /\ wire (seen s') = wire (seen s) /\ encoded (seen s') = encoded (seen s).

Lemma sending_same acc s s' : same_send s s' -> sending acc s -> sending acc s'.
Proof.
  intros (E1 & E2 & E3 & E4 & E5 & E6 & E7 & E8) [H1 H2 H3 H4 H5 H6 H7].
  assert (C : is_connected s' = is_connected s) by (unfold is_connected; now rewrite E3).
  split; unfold is_w_closed, is_r_closed, send_tasks in *; rewrite ?E1, ?E2, ?E3, ?E4, ?E5, ?E6, ?E7, ?E8, ?C in *; assumption.
Qed.

Lemma recv_loop_same fuel : forall s r, async_recv_loop decode fuel s = Some r -> same_send s r.2.
Proof.
  induction fuel as [|fuel IH]; intros s r; cbn [async_recv_loop]; [discriminate|]. destruct (ch (TcpConn.TcpConn.r (this s))) as [|[m|] q]; [now intros [= <-]| |now intros [= <-]].
  cbv zeta. destruct (negb _); [now intros [= <-]|]. destruct (0 <? _); [|now intros [= <-]]. intros E. apply IH in E.
  destruct E as (E1 & E2 & E3 & E4 & E5 & E6 & E7 & E8). revert E1 E2 E3 E4 E5 E6 E7 E8. unfold call_recv_handler. destruct (recv_handler _); now repeat split.
Qed.

Lemma async_recv_same data s s' : _async_recv encode decode MTU rbuf_sz wbuf_sz NDEBUG false data s = Some s' -> same_send s s'.
Proof.
  unfold _async_recv. destruct (_ || _); [now intros [= <-]|]. cbv zeta. set (s1 := if 0 <? length data then _ else s).
  assert (H1 : same_send s s1) by (unfold s1; destruct (0 <? length data); now repeat split). revert H1. generalize s1. clear s1. intros s1 H1.
  destruct (async_recv_loop decode _ s1) as [[reading s2]|] eqn:E; [|discriminate]. apply recv_loop_same in E. cbn [snd] in E.
  destruct H1 as (A1 & A2 & A3 & A4 & A5 & A6 & A7 & A8), E as (B1 & B2 & B3 & B4 & B5 & B6 & B7 & B8).
  destruct (negb reading); [intros [= <-]; repeat split; congruence|]. destruct (is_recving (this s2)); [intros [= <-]; repeat split; cbn; congruence|].
  unfold prepare_r. destruct (rbuf_sz <? _); [discriminate|]. intros [= <-]; repeat split; cbn; congruence.
Qed.

(** One run of the handler: a message leaves the queue and a write starts, or the
    queue is empty; the regions of writes under way may have moved. *)
Lemma async_send_spec sz s s' : is_w_closed s = false -> encode_handler (hs (this s)) = true -> is_connected s = true ->
  (forall m, 0 < length (encode m) <= MTU) -> forall queue, ch (w (this s)) = map Some queue ->
  _async_send encode decode MTU rbuf_sz wbuf_sz NDEBUG false sz s = Some s' ->
    is_w_closed s' = false /\ closed (r (this s')) = closed (r (this s)) /\ hs (this s') = hs (this s) /\ sock (this s') = sock (this s)
    /\ posted (io s') = posted (io s) /\ wire (seen s') = wire (seen s)
    /\ ch (w (this s')) = map Some (tail queue)
    /\ encoded (seen s') = encoded (seen s) ++ map encode (take 1 queue)
    /\ map snd (writes (io s')) = map snd (writes (io s)) ++ map encode (take 1 queue).
Proof.
  intros Hw He Hc Hm queue Hq. unfold _async_send. rewrite Hc, Hw. cbn [negb orb]. cbv zeta.
  change (ch (w (this (consume_w sz s)))) with (ch (w (this s))). rewrite Hq. destruct queue as [|m queue]; cbn [map].
  - intros [= <-]. cbn. rewrite !app_nil_r. now split_and!.
  - change (encode_handler (hs (this (upd_w (with_ch (map Some queue)) (consume_w sz s))))) with (encode_handler (hs (this s))). rewrite He. cbn [negb].
    unfold prepare_w. destruct (wbuf_sz <? _); [discriminate|].
    destruct (Hm m) as [Hp Hl]. rewrite (proj2 (Nat.ltb_ge _ _)), (proj2 (Nat.ltb_ge _ _)) by lia. intros [= <-].
    assert (Ed : forall l : list (bool * list Z), map snd (map (fun '(_, b) => (false, b)) l) = map snd l) by (induction l as [|[v b] l IH]; cbn; congruence).
    unfold call_send_handler. destruct (send_handler _); cbn; (split_and!; try reflexivity; try assumption); now rewrite map_app, Ed.
Qed.

Lemma flush_step acc sz (s s' : world) : (forall m, 0 < length (encode m) <= MTU) ->
  is_w_closed s = false -> is_r_closed s = false -> encode_handler (hs (this s)) = true -> is_connected s = true ->
  (exists done queue, acc = done ++ queue /\ encoded (seen s) = map encode done /\ ch (w (this s)) = map Some queue) ->
  wire (seen s) ++ concat (map snd (writes (io s))) = concat (encoded (seen s)) -> Forall (fun b => length b.2 <= MTU) (writes (io s)) ->
  length (ch (w (this s))) <= S (send_tasks s + length (writes (io s))) ->
  _async_send encode decode MTU rbuf_sz wbuf_sz NDEBUG false sz s = Some s' -> sending acc s'.
Proof.
  intros Hm Hw Hr He Hc (done & queue & Ea & Ee & Eq) Hwire Hs Hn E.
  destruct (async_send_spec sz s s' Hw He Hc Hm queue Eq E) as (W & R & HS & K & P & Wi & Q & En & Wr).
  assert (C : is_connected s' = true) by (unfold is_connected in *; now rewrite K).
  assert (Hl : length (writes (io s')) = length (writes (io s)) + length (take 1 queue)).
  { apply (f_equal length) in Wr. now rewrite length_app, !length_map in Wr. }
  split.
  - split; [exact W|]. unfold is_r_closed in *. now rewrite R.
  - now rewrite HS.
  - now rewrite C.
  - exists (done ++ take 1 queue), (tail queue). split_and!; [|now rewrite En, Ee, map_app|exact Q]. rewrite Ea, <- app_assoc. f_equal. now destruct queue.
  - rewrite Wi, En, Wr, !concat_app, app_assoc, Hwire. reflexivity.
  - assert (F : Forall (fun b => length b <= MTU) (map snd (writes (io s')))).
    { rewrite Wr. apply list.Forall_app. split; [now apply list.Forall_fmap|]. apply list.Forall_forall. intros b Hb. apply list_elem_of_In, in_map_iff in Hb as (m & <- & _). apply Hm. }
    exact (proj1 (list.Forall_fmap snd _ _) F).
  - rewrite Q, Hl, length_map. unfold send_tasks in *. rewrite P. rewrite Eq, length_map in Hn. destruct queue; cbn in *; lia.
Qed.

Lemma sending_step acc e s : (forall m, 0 < length (encode m) <= MTU) -> quiet e -> full e -> sending acc s -> forall s', exec e s = Some s' ->
  sending (acc ++ (match e with ASend (Some m) => if (async_send (Some m) s).1 then [m] else [] | _ => [] end)) s'.
Proof.
  intros Hm Hq Hf H s' E. pose proof H as [[Hw Hr] He Ho (done & queue & Ea & Ee & Eq) Hwire Hs Hn].
  assert (C : posted (io s) <> [] \/ writes (io s) <> [] -> is_connected s = true).
  { intros N. destruct (is_connected s); [reflexivity|]. destruct (Ho eq_refl) as (P & W & _). now destruct N. }
  destruct e; cbn [quiet full TcpConn.TcpConn.exec] in *; try contradiction; rewrite ?app_nil_r.
  - unfold connect in E. destruct (is_connected s) eqn:C'; [now injection E as <-|]. destruct (Ho eq_refl) as (P & W & Q & K). destruct (sock (this s)) as [k|] eqn:Ek; [|congruence].
    destruct (Socket.connect attempts k) as [ok k'] eqn:Ec. assert (Hk : Socket.is_connected k = false) by (unfold is_connected in C'; now rewrite Ek in C').
    pose proof (connect_fails _ _ _ _ Ec Hk) as Hk'. destruct ok; cbn [negb] in E.
    + unfold open_directions in E. rewrite set_w_closed_spec, settle_open in E by exact Hr. rewrite set_r_closed_spec, settle_open in E by reflexivity. injection E as <-.
      split; cbn; try assumption; [now split|unfold is_connected; cbn; rewrite Ek; cbn; now rewrite Hk'|now exists done, queue|unfold send_tasks; rewrite Q; cbn; lia].
    + injection E as <-. split; cbn; try assumption; [now split|intros _; rewrite Ek; now split_and!|now exists done, queue].
  - injection E as <-. unfold async_send. destruct (_ || _) eqn:B; cbn [fst snd].
    + destruct m; rewrite ?app_nil_r; exact H.
    + destruct Hq as [m' ->]. apply orb_false_iff in B as [B _]. apply negb_false_iff in B. split; cbn; try assumption; [now split|unfold is_connected in *; cbn; now rewrite B| |].
      * exists done, (queue ++ [m']). rewrite Ea, Eq, map_app, <- app_assoc. now split_and!.
      * unfold send_tasks in *. cbn. rewrite filter_app, !length_app. cbn. lia.
  - injection E as <-. unfold async_recv. destruct (_ || _) eqn:B; cbn [snd]; [exact H|]. apply orb_false_iff in B as [B _]. apply negb_false_iff in B.
    split; cbn; try assumption; [now split|unfold is_connected in *; cbn; now rewrite B|now exists done, queue|].
    unfold send_tasks in *. cbn. rewrite filter_app, length_app. cbn. lia.
  - destruct (posted (io s)) as [|t q] eqn:P; [now injection E as <-|]. assert (C1 : is_connected s = true) by (apply C; left; congruence). destruct t.
    + apply (flush_step acc 0 (set_posted q s) s' Hm); try assumption; [now exists done, queue|].
      unfold send_tasks in *. rewrite P in Hn. cbn in *. lia.
    + apply async_recv_same in E. apply (sending_same _ _ _ E). split; cbn; try assumption; [now split|unfold is_connected in *; cbn; now rewrite C1|now exists done, queue|].
      unfold send_tasks in *. rewrite P in Hn. exact Hn.
  - destruct (writes (io s)) as [|[valid b] q] eqn:W; [now injection E as <-|]. assert (C1 : is_connected s = true) by (apply C; right; congruence). destruct err; [contradiction|].
    destruct valid; [|discriminate]. apply list.Forall_cons in Hs as [Hb Hs]. cbn in Hb. rewrite take_ge in E by lia.
    apply (flush_step acc (length b) (on_wire b (set_writes q s)) s' Hm); try assumption; [now exists done, queue| |unfold send_tasks in *; cbn in *; try rewrite W in Hn; cbn in *; lia].
    cbn in *. now rewrite <- app_assoc.
  - destruct (reads (io s)) as [|valid k]; [now injection E as <-|]. cbv zeta in E. destruct (length (take MTU data) =? 0); [now injection E as <-|].
    destruct valid; [|discriminate].
    apply async_recv_same in E. apply (sending_same _ _ _ E). apply (sending_same acc s); [now repeat split|exact H].
Qed.

Lemma sending_run es : (forall m, 0 < length (encode m) <= MTU) -> Forall (fun e => quiet e /\ full e) es -> forall acc s s', sending acc s -> run es s = Some s' ->
  sending (acc ++ accepted es s) s'.
Proof.
  intros Hm. induction 1 as [|e es [Hq Hf] Hes IH]; intros acc s s' H E; cbn [TcpConn.TcpConn.run accepted] in *.
  - injection E as <-. now rewrite app_nil_r.
  - destruct (exec e s) as [s1|] eqn:E1; [|discriminate]. rewrite app_assoc. apply (IH _ _ _ (sending_step acc e s Hm Hq Hf H s1 E1) E).
Qed.

(** While nothing fails, writes complete in full and none is under way when the
    next message is encoded, the wire and the writes
    under way hold the encodings of the messages that were accepted, in order
    and without gaps; a message that is still queued has a handler posted or a
    write under way, and with nothing left to do the wire has them all. *)
Theorem tcp_send_order h acc arr es s : (forall m, 0 < length (encode m) <= MTU) -> encode_handler h = true ->
  Forall (fun e => quiet e /\ full e) es -> run es (fresh h acc arr) = Some s ->
  exists done queue, accepted es (fresh h acc arr) = done ++ queue /\ ch (w (this s)) = map Some queue
    /\ wire (seen s) ++ concat (map snd (writes (io s))) = concat (map encode done)
    /\ length queue <= send_tasks s + length (writes (io s))
    /\ (posted (io s) = [] -> writes (io s) = [] -> wire (seen s) = concat (map encode (accepted es (fresh h acc arr)))).
Proof.
  intros Hm He Hes E.
  assert (H0 : sending [] (fresh h acc arr)).
  { split; cbn; try reflexivity; [now split|exact He|intros _; split_and!; congruence|now exists [], []|now apply list.Forall_nil]. }
  pose proof (sending_run es Hm Hes [] _ s H0 E) as [_ _ _ (done & queue & Ea & Ee & Eq) Hwire _ Hn]. cbn [app] in Ea.
  exists done, queue. rewrite Ea. rewrite Eq, length_map in Hn. split_and!; [reflexivity|exact Eq|now rewrite Hwire, Ee|exact Hn|].
  intros P W. unfold send_tasks in Hn. rewrite P, W in Hn. cbn in Hn. destruct queue; [|cbn in Hn; lia]. rewrite W in Hwire. cbn in Hwire.
  rewrite !app_nil_r in *. now rewrite Hwire, Ee.
Qed.
End Conn.

(** ** A protocol *)

(** Messages are bytes; a frame is a length, at most 8, and as many bytes. *)
Definition frame_length (n : Z) : nat := Z.to_nat n mod 9.
Definition prefix_frame (b : list Z) : nat :=
  match b with [] => 0 | n :: rest => if frame_length n <=? length rest then S (frame_length n) else 0 end.
Lemma prefix_frame_le b : prefix_frame b <= length b.
Proof. unfold prefix_frame. destruct b as [|n rest]; [reflexivity|]. destruct (Nat.leb_spec (frame_length n) (length rest)); cbn [length]; lia. Qed.
Lemma prefix_frame_more b c : 0 < prefix_frame b -> prefix_frame (b ++ c) = prefix_frame b.
Proof.
  unfold prefix_frame. destruct b as [|n rest]; cbn [app]; [cbn; lia|]. rewrite length_app. destruct (Nat.leb_spec (frame_length n) (length rest)); [|lia].
  intros _. now rewrite (proj2 (Nat.leb_le _ _)) by lia.
Qed.
Lemma prefix_frame_room b : 64 < length b + 16 -> 0 < prefix_frame b.
Proof.
  unfold prefix_frame. destruct b as [|n rest]; cbn [length]; [lia|]. intros H. assert (frame_length n < 9) by (apply Nat.mod_upper_bound; lia).
  rewrite (proj2 (Nat.leb_le _ _)) by lia. lia.
Qed.
Definition encode_bytes (m : list Z) : list Z := Z.of_nat (length (take 8 m)) :: take 8 m.
Definition all_handlers : handlers := Handlers true true true true true.
Definition demo_run (acc : list nat) (arr : list (option (list Z))) (es : list (op (msg := list Z))) : option (world (msg := list Z)) :=
  run encode_bytes (fun _ => prefix_frame) 16 64 64 true es (fresh all_handlers acc arr).
Definition start : list (op (msg := list Z)) := [Connect [true]; Run; Run].

Lemma encode_bytes_size m : 0 < length (encode_bytes m) <= 16.
Proof. unfold encode_bytes. cbn [length]. rewrite length_take. lia. Qed.

Definition two_messages : list (op (msg := list Z)) := start ++ [ARecv (Some []); ARecv (Some []); Run; Run; ReadDone [2; 7]%Z; ReadDone [8; 1]%Z].

Lemma tcp_receive_witness : exists s, demo_run [] [] two_messages = Some s
  /\ reads (io s) = [true] /\ taken (seen s) = frames prefix_frame (received (seen s)).
Proof.
  destruct (tcp_receive encode_bytes (fun _ => prefix_frame) 16 64 64 true prefix_frame (fun _ _ => eq_refl) prefix_frame_le prefix_frame_more prefix_frame_room all_handlers [] []) as [_ H].
  destruct (H ltac:(discriminate) eq_refl two_messages) as [H1 H2].
  - repeat (apply list.Forall_cons; split; [first [exact I|now eexists]|]). now apply list.Forall_nil.
  - destruct H1 as [s E]; [repeat (apply list.Forall_cons; split; [exact I|]); now apply list.Forall_nil|].
    exists s. split; [exact E|]. destruct (H2 s E) as [_ W]. vm_compute in E. injection E as <-. apply W; [discriminate|]. intros X. inversion X.
Defined.

Definition two_sends : list (op (msg := list Z)) :=
  start ++ [ASend (Some [1; 2]%Z); Run; WriteDone false 16; ASend (Some [3]%Z); Run; WriteDone false 16].

Lemma two_sends_ok : Forall (fun e => quiet e /\ full 16 e) two_sends.
Proof. repeat (apply list.Forall_cons; split; [split; [first [exact I|now eexists]|first [exact I|cbn; lia]]|]). now apply list.Forall_nil. Qed.
Lemma two_sends_run : exists s, run encode_bytes (fun _ => prefix_frame) 16 64 64 true two_sends (fresh all_handlers [] []) = Some s.
Proof. vm_compute. eexists. reflexivity. Qed.

Lemma tcp_send_order_witness : exists s, run encode_bytes (fun _ => prefix_frame) 16 64 64 true two_sends (fresh all_handlers [] []) = Some s /\ exists done queue,
  accepted encode_bytes (fun _ => prefix_frame) 16 64 64 true two_sends (fresh all_handlers [] []) = done ++ queue
  /\ wire (seen s) ++ concat (map snd (writes (io s))) = concat (map encode_bytes done).
Proof.
  destruct two_sends_run as [s E]. exists s. split; [exact E|].
  destruct (tcp_send_order encode_bytes (fun _ => prefix_frame) 16 64 64 true all_handlers [] [] two_sends s encode_bytes_size eq_refl two_sends_ok E) as (done & queue & A & _ & W & _).
  exists done, queue. split; [exact A|exact W].
Defined.

Lemma tcp_close_final_witness : exists s', close encode_bytes (fun _ => prefix_frame) 16 64 64 true (fresh all_handlers [] []) = Some s' /\ is_connected s' = false.
Proof.
  destruct (tcp_close_final encode_bytes (fun _ => prefix_frame) 16 64 64 true (fresh all_handlers [] [])) as (s' & E & C & _). exists s'. split; [exact E|exact C].
Defined.

(** ** Where the code falls short *)

(** A write that takes part of a message: the rest is never sent. *)
Lemma partial_write_loses : exists s, demo_run [] [] (start ++ [ASend (Some [1; 2]%Z); Run; WriteDone false 1]) = Some s
  /\ posted (io s) = [] /\ writes (io s) = [] /\ wire (seen s) = [2]%Z /\ buf (w (this s)) = [1; 2]%Z /\ is_w_closed s = false.
Proof. eexists. split; [vm_compute; reflexivity|]. now split_and!. Qed.

(** A second message is encoded while the first is being written: the buffer may
    move under the write. *)
Lemma write_region_moves : exists s, demo_run [] [] (start ++ [ASend (Some [1]%Z); ASend (Some [2]%Z); Run; Run]) = Some s
  /\ writes (io s) = [(false, [1; 1]%Z); (true, [1; 2]%Z)]
  /\ demo_run [] [] (start ++ [ASend (Some [1]%Z); ASend (Some [2]%Z); Run; Run; WriteDone false 16]) = None.
Proof. eexists. split; [vm_compute; reflexivity|]. now split. Qed.

(** A blocking receive while a read is under way takes the region of the read. *)
Lemma read_region_moves : exists s, demo_run [] [Some [1; 5]%Z; Some [1; 6]%Z] (start ++ [ARecv (Some []); Run; Recv_ (Some [])]) = Some s
  /\ reads (io s) = [false] /\ taken (seen s) = [[1; 5]%Z; [1; 6]%Z]
  /\ demo_run [] [Some [1; 5]%Z; Some [1; 6]%Z] (start ++ [ARecv (Some []); Run; Recv_ (Some []); ReadDone [1; 7]%Z]) = None.
Proof. eexists. split; [vm_compute; reflexivity|]. now split_and!. Qed.

(** A frame longer than the buffer less one read: [prepare] throws, out of the
    handler. *)
Lemma long_frame_throws : exists s, run encode_bytes (fun _ => prefix_frame) 4 4 64 true (start ++ [ARecv (Some []); Run]) (fresh all_handlers [] []) = Some s
  /\ exec encode_bytes (fun _ => prefix_frame) 4 4 64 true (ReadDone [8; 1; 1]%Z) s = None.
Proof. eexists. split; [vm_compute; reflexivity|]. now vm_compute. Qed.

(** A blocking send while a write is under way sends its bytes too. *)
Lemma mixed_sends_repeat : exists s, demo_run [16] [] (start ++ [ASend (Some [1]%Z); Run; Send_ (Some [2]%Z)]) = Some s
  /\ wire (seen s) = [1; 1; 1; 2]%Z /\ writes (io s) = [(false, [1; 1]%Z)].
Proof. eexists. split; [vm_compute; reflexivity|]. now split. Qed.

(** After a read has failed, a new connection of the same object never reads:
    [_is_recving] is still set. *)
Lemma reconnected_is_deaf : exists s, demo_run [] [] (start ++ [ARecv (Some []); Run; ReadError; SetWClosed true; Connect [true]; Run; Run; ARecv (Some []); Run]) = Some s
  /\ is_connected s = true /\ is_r_closed s = false /\ posted (io s) = [] /\ reads (io s) = [] /\ length (ch (r (this s))) = 2 /\ is_recving (this s) = true.
Proof. eexists. split; [vm_compute; reflexivity|]. now split_and!. Qed.

(** [disconnect] with the input closed and a send that fails reports the end of
    the connection twice. *)
Lemma end_reported_twice : exists s, demo_run [0] [] (start ++ [SetRClosed true; ASend (Some [1]%Z); Disconnect]) = Some s
  /\ log s = [Disconnected; Disconnected].
Proof. eexists. split; [vm_compute; reflexivity|]. reflexivity. Qed.

(** With [NDEBUG] a blocking receive goes on for as long as the reads fail. *)
Lemma failed_reads_loop {msg} (decode : msg -> list Z -> nat) MTU rbuf_sz m fuel : forall n (s : world (msg := msg)), arrivals (io s) = replicate n None ->
  is_connected s = true -> is_r_closed s = false -> ch (r (this s)) = [Some m] -> decode_handler (hs (this s)) = true -> decode m (buf (r (this s))) = 0 ->
  recv_all_loop decode MTU rbuf_sz true fuel s = None.
Proof.
  induction fuel as [|fuel IH]; intros n s Ha Hc Hr Hq Hd Hz; [reflexivity|]. cbn [recv_all_loop]. rewrite Hc, Hr, Hq. cbn [negb orb]. cbv zeta.
  change (decode_handler (hs (this (upd_r (with_ch []) s)))) with (decode_handler (hs (this s))). rewrite Hd. cbn [negb].
  change (buf (r (this (upd_r (with_ch []) s)))) with (buf (r (this s))). rewrite Hz. cbn [Nat.ltb Nat.leb]. unfold prepare_r. destruct (rbuf_sz <? _); [reflexivity|].
  unfold sock_recv, dangle_r. match goal with |- context [arrivals (io ?t)] => change (arrivals (io t)) with (arrivals (io s)) end. rewrite Ha. destruct n as [|n]; [reflexivity|].
  cbn [replicate]. apply (IH n); cbn; try assumption; [reflexivity|reflexivity|]. now rewrite app_nil_r.
Qed.

Lemma failed_reads_go_on {msg} (decode : msg -> list Z -> nat) MTU rbuf_sz m n (s : world (msg := msg)) : arrivals (io s) = replicate n None ->
  is_connected s = true -> is_r_closed s = false -> ch (r (this s)) = [] -> decode_handler (hs (this s)) = true -> decode m (buf (r (this s))) = 0 ->
  recv decode MTU rbuf_sz true (Some m) s = None.
Proof.
  intros Ha Hc Hr Hq Hd Hz. unfold recv, _recv_all, recv_all_body. rewrite Hc, Hr. cbn [negb orb].
  change (is_r_closed (upd_r (fun d => with_ch (ch d ++ [Some m]) d) s)) with (is_r_closed s). rewrite Hr.
  apply (failed_reads_loop decode MTU rbuf_sz m _ n); try assumption. cbn. now rewrite Hq.
Qed.
