(* ===== verification/Dialer.v ===== *)
(** * Dialing and listening

    [net/tcp/tcp_dialer.hpp] and [net/tcp/tcp_listener.hpp] over the sockets of
    [TcpConn].  The dialer keeps the set of its sockets under a lock; several
    threads use it, one locked section or one call of a socket at a time.  The
    listener is used by one thread; what the network and the library answer is an
    argument. *)

From Stdlib Require Import ZArith Lia List Bool.
From stdpp Require Import base tactics list option gmap strings.
From S2P Require Import Prelude TcpConn.

Open Scope hj_scope.
Open Scope nat_scope.

(** ** [tcp_dialer] *)

Module Dialer.
Import Socket.

(** Sockets are numbered as they are made. *)
Record dialer := Make { _socks : gset nat; _max_size : nat }.
Definition tcp_dialer (max_size : nat) : dialer := Make ∅ max_size.
Definition dialer_size (d : dialer) : nat := base.size (_socks d).
Definition is_exist (s : nat) (d : dialer) : bool := bool_decide (s ∈ _socks d).
Definition full (d : dialer) : bool := _max_size d <? dialer_size d.
Definition _add (s : nat) (d : dialer) : bool * dialer :=
  if full d then (false, d)
  else (negb (is_exist s d), Make ({[s]} ∪ _socks d) (_max_size d)).
Definition _del (s : nat) (d : dialer) : bool * dialer := (is_exist s d, Make (_socks d ∖ {[s]}) (_max_size d)).
(** The handler on each socket, in the order of the set, until it gives false; one
    that throws ([None]) goes on.  The sockets it was called on. *)
Fixpoint range (handler : nat -> option bool) (socks : list nat) : list nat :=
  match socks with
  | [] => []
  | s :: socks => s :: match handler s with Some false => [] | _ => range handler socks end
  end.

(** What a thread does, and where it is. *)
Inductive op := Dial | AsyncDial | Remove (s : option nat) | Close.
Inductive pc :=
  | Start (o : op)
  | Dialing (s : nat) | Adding (s : nat)  (* dial: connecting, and connected *)
  | ADialing (s : nat) | AAdding (s : nat)  (* async_dial: its handler to run, and running *)
  | Removing (s : nat) | Erasing (s : nat)  (* remove: found, and closed *)
  | Returned (s : option nat)  (* what dial returned *)
  | Called (failed : bool) (s : option nat)  (* what the handler was given *)
  | Threw | Finished.
Record system := Sys { this : dialer; sockets : list tcp_socket; threads : list pc }.

Definition set_this (d : dialer) (y : system) : system := Sys d (sockets y) (threads y).
Definition set_socket (s : nat) (k : tcp_socket) (y : system) : system := Sys (this y) (<[s := k]> (sockets y)) (threads y).
Definition goto (t : nat) (p : pc) (y : system) : system := Sys (this y) (sockets y) (<[t := p]> (threads y)).
(** [std::make_shared<tcp_socket>(_io)] *)
Definition make_socket (y : system) : nat * system := (length (sockets y), Sys (this y) (sockets y ++ [Sock true false]) (threads y)).
Definition with_socket (s : nat) (f : tcp_socket -> tcp_socket) (y : system) : system :=
  Sys (this y) (alter f s (sockets y)) (threads y).

(** *** The sections *)

(** [dial], up to the connection and after it; [attempts] is empty when the address
    is none, or the attempts are zero.  A socket that is dropped is closed. *)
Definition dial_start (t : nat) (y : system) : system :=
  if full (this y) then goto t (Returned None) y else let (s, y) := make_socket y in goto t (Dialing s) y.
Definition dial_connect (t s : nat) (attempts : list bool) (y : system) : system :=
  match sockets y !! s with
  | None => y
  | Some k => let (ok, k) := connect attempts k in
      let y := set_socket s k y in
      if ok then goto t (Adding s) y else goto t (Returned None) (with_socket s close y)
  end.
Definition dial_add (t s : nat) (y : system) : system :=
  let (ok, d) := _add s (this y) in
  let y := set_this d y in
  if ok then goto t (Returned (Some s)) y else goto t (Returned None) (with_socket s close y).
(** [async_dial]: the start, which throws when the address is none; then the handler. *)
Definition async_start (t : nat) (address : bool) (y : system) : system :=
  if full (this y) then goto t (Called true None) y else
  let (s, y) := make_socket y in
  if address then goto t (ADialing s) (with_socket s (fun k => snd (async_connect k)) y) else goto t Threw y.
Definition async_done (t s : nat) (ok : bool) (y : system) : system :=
  let y := with_socket s (connect_done ok) y in
  if ok then goto t (AAdding s) y else goto t (Called true None) (with_socket s close y).
Definition async_add (t s : nat) (y : system) : system :=
  let (_, d) := _add s (this y) in goto t (Called false (Some s)) (set_this d y).
(** [remove] *)
Definition remove_start (t : nat) (s : option nat) (y : system) : system :=
  match s with
  | None => goto t Finished y
  | Some s => if is_exist s (this y) then goto t (Removing s) y else goto t Finished y
  end.
Definition remove_close (t s : nat) (y : system) : system :=
  goto t (Erasing s) (with_socket s (fun k => if is_connected k then close k else k) y).
Definition remove_erase (t s : nat) (y : system) : system :=
  let (_, d) := _del s (this y) in goto t Finished (set_this d y).
(** [close], which the destructor calls too *)
Definition close_all (t : nat) (y : system) : system :=
  goto t Finished (Sys (Make ∅ (_max_size (this y))) (imap (fun s k => if is_exist s (this y) then close k else k) (sockets y)) (threads y)).

(** A section of a thread, or the owner of a socket that closes it. *)
Inductive step : system -> system -> Prop :=
| step_dial y t : threads y !! t = Some (Start Dial) -> step y (dial_start t y)
| step_connect y t s attempts : threads y !! t = Some (Dialing s) -> step y (dial_connect t s attempts y)
| step_add y t s : threads y !! t = Some (Adding s) -> step y (dial_add t s y)
| step_async y t address : threads y !! t = Some (Start AsyncDial) -> step y (async_start t address y)
| step_done y t s ok : threads y !! t = Some (ADialing s) -> step y (async_done t s ok y)
| step_async_add y t s : threads y !! t = Some (AAdding s) -> step y (async_add t s y)
| step_remove y t s : threads y !! t = Some (Start (Remove s)) -> step y (remove_start t s y)
| step_remove_close y t s : threads y !! t = Some (Removing s) -> step y (remove_close t s y)
| step_erase y t s : threads y !! t = Some (Erasing s) -> step y (remove_erase t s y)
| step_close y t : threads y !! t = Some (Start Close) -> step y (close_all t y)
| step_user y s : s ∈ _socks (this y) -> step y (with_socket s close y).

Definition initial (max_size : nat) (ops : list op) : system := Sys (tcp_dialer max_size) [] (Start <$> ops).
End Dialer.

(** ** [tcp_listener] *)

Module Listener.
Import Socket.

(** An address of the library and a port. *)
Record endpoint := Endpoint { address : Z; port : Z }.
#[global] Instance endpoint_dec : EqDecision endpoint.
Proof. solve_decision. Defined.
(** [endpoint_t()], which is also [{v4(), 0}] *)
Definition endpoint_t : endpoint := Endpoint 0 0.
Definition v4 (port : Z) : endpoint := Endpoint 0 port.

Record acceptor := Acceptor { bound : endpoint; is_open : bool }.
(** [lost] sockets are owned by nothing; [waiting] handlers (whether there is one)
    wait for a connection to a socket of their own. *)
Record listener := Listener { _acceptor : option acceptor; _binded_endpoint : endpoint; _closed : bool; _accept_handler : bool;
  lost : nat; waiting : list bool }.
Definition tcp_listener (handler : bool) : listener := Listener None endpoint_t false handler 0 [].
Definition is_closed (l : listener) : bool := _closed l.

(** What the library answers: to the construction of an acceptor and to
    its option, and to an accept. *)
Inductive making := Made | NotMade | NotSet.
Inductive answer := Accepted | Failed_ | Thrown.
Inductive outcome (A : Type) := Ret (a : A) | Throw.
#[global] Arguments Ret {A}. #[global] Arguments Throw {A}.

Definition set_acceptor (a : option acceptor) (l : listener) : listener :=
  Listener a (_binded_endpoint l) (_closed l) (_accept_handler l) (lost l) (waiting l).
Definition set_binded (ep : endpoint) (l : listener) : listener :=
  Listener (_acceptor l) ep (_closed l) (_accept_handler l) (lost l) (waiting l).
Definition lose (l : listener) : listener :=
  Listener (_acceptor l) (_binded_endpoint l) (_closed l) (_accept_handler l) (S (lost l)) (waiting l).
Definition set_waiting (w : list bool) (l : listener) : listener :=
  Listener (_acceptor l) (_binded_endpoint l) (_closed l) (_accept_handler l) (lost l) w.
(** A closed acceptor accepts nothing. *)
Definition answered (a : acceptor) (ans : answer) : answer := if is_open a then ans else match ans with Accepted => Failed_ | _ => ans end.
Definition close_acceptor (l : listener) : listener :=
  match _acceptor l with Some a => set_acceptor (Some (Acceptor (bound a) false)) l | None => l end.

(** [accept()] *)
Definition accept (ans : answer) (l : listener) : option tcp_socket * listener :=
  match _acceptor l with
  | None => (None, l)
  | Some a =>
      match answered a ans with
      | Accepted => (Some (set_conn_status true (Sock true false)), l)
      | _ => (None, lose l)
      end
  end.
(** The part [accept(ep)] and [async_accept(ep, fn)] share: the acceptor of an endpoint. *)
Definition bind_to (ep : endpoint) (mk : making) (l : listener) : outcome unit * listener :=
  if decide (_binded_endpoint l = ep) then (Ret tt, l) else
  let l := close_acceptor l in
  match mk with
  | NotMade => (Throw, l)
  | NotSet => (Throw, set_acceptor (Some (Acceptor ep true)) l)
  | Made => (Ret tt, set_binded ep (set_acceptor (Some (Acceptor ep true)) l))
  end.
Definition accept_ep (ep : endpoint) (mk : making) (ans : answer) (l : listener) : outcome (option tcp_socket) * listener :=
  match bind_to ep mk l with
  | (Throw, l) => (Throw, l)
  | (Ret _, l) => let (s, l) := accept ans l in (Ret s, l)
  end.
Definition accept_port (port : Z) := accept_ep (v4 port).
(** [make_address] of a text, which throws when it is none. *)
Definition accept_ip (ip : option Z) (port : Z) (mk : making) (ans : answer) (l : listener) : outcome (option tcp_socket) * listener :=
  match ip with None => (Throw, l) | Some a => accept_ep (Endpoint a port) mk ans l end.

(** [async_accept(fn)]: whether the library takes the call. *)
Definition async_accept (fn : bool) (taken : bool) (l : listener) : listener :=
  match _acceptor l with
  | None => l
  | Some _ => if taken then set_waiting (waiting l ++ [fn]) l else l
  end.
Definition async_accept_ep (ep : endpoint) (fn : bool) (mk : making) (taken : bool) (l : listener) : outcome unit * listener :=
  match bind_to ep mk l with (Throw, l) => (Throw, l) | (Ret _, l) => (Ret tt, async_accept fn taken l) end.
(** The overloads without a handler use [_accept_handler]. *)
Definition async_accept_default (ep : endpoint) (mk : making) (taken : bool) (l : listener) : outcome unit * listener :=
  async_accept_ep ep (_accept_handler l) mk taken l.
Definition async_accept_ip (ip : option Z) (port : Z) (fn : option bool) (mk : making) (taken : bool) (l : listener) : outcome unit * listener :=
  match ip with
  | None => (Throw, l)
  | Some a => async_accept_ep (Endpoint a port) (match fn with Some fn => fn | None => _accept_handler l end) mk taken l
  end.
(** The first handler runs: what it is given, if there is one. *)
Definition accept_done (ok : bool) (l : listener) : option (option tcp_socket) * listener :=
  match waiting l with
  | [] => (None, l)
  | fn :: w =>
      let l := set_waiting w l in
      if ok then (if fn then Some (Some (set_conn_status true (Sock true false))) else None, l)
      else (if fn then Some None else None, l)
  end.
Definition close (l : listener) : listener :=
  if _closed l then l else
  let l := Listener (_acceptor l) (_binded_endpoint l) true (_accept_handler l) (lost l) (waiting l) in
  set_binded endpoint_t (set_acceptor None (close_acceptor l)).
Definition set_option (fine : bool) (l : listener) : bool :=
  match _acceptor l with Some a => is_open a && fine | None => false end.
End Listener.
