(* ===== verification/DialerThm.v ===== *)
(** * Dialing and listening: theorems

    The set of a dialer is bounded and has every connected socket that [dial]
    returned, whatever the threads do; a listener accepts where it was last told
    to, and calls its handlers in order. *)

From Stdlib Require Import ZArith Lia List Bool.
From stdpp Require Import base tactics list option gmap strings.
From S2P Require Import Prelude TcpConn Dialer.

Open Scope hj_scope.
Open Scope nat_scope.

(** ** The dialer *)

Section Dial.
Import Socket Dialer.

Definition conn (y : system) (s : nat) : Prop := exists k, sockets y !! s = Some k /\ is_connected k = true.

(** The socket of a thread; one of a dial under way; one the thread may have
    connected and not in the set. *)
Definition holds (p : pc) : option nat :=
  match p with
  | Dialing s | Adding s | ADialing s | AAdding s | Removing s | Erasing s => Some s
  | Returned r | Called _ r => r
  | _ => None
  end.
Definition pending (p : pc) : option nat := match p with Dialing s | Adding s | ADialing s | AAdding s => Some s | _ => None end.
Definition loose (p : pc) : option nat := match p with Adding s | AAdding s => Some s | Called false r => r | _ => None end.

Definition thread_ok (y : system) (p : pc) : Prop :=
  (forall s, holds p = Some s -> s < length (sockets y))
  /\ (forall s, pending p = Some s -> s ∉ _socks (this y))
  /\ match p with
     | Erasing s => ~ conn y s
     | Returned (Some s) => conn y s -> s ∈ _socks (this y)
     | _ => True
     end.

Record inv (max : nat) (y : system) : Prop :=
  { inv_max : _max_size (this y) = max;
    inv_bound : dialer_size (this y) <= S max;
    inv_made : forall s, s ∈ _socks (this y) -> s < length (sockets y);
    inv_thread : forall t p, threads y !! t = Some p -> thread_ok y p;
    inv_alone : forall t t' p p' s, threads y !! t = Some p -> threads y !! t' = Some p' -> t <> t' ->
      pending p = Some s -> holds p' <> Some s;
    inv_conn : forall s, conn y s -> s ∈ _socks (this y) \/ exists t p, threads y !! t = Some p /\ loose p = Some s }.

Lemma dialer_initial_inv max ops : inv max (initial max ops).
Proof.
  split; cbn.
  - reflexivity.
  - unfold dialer_size; cbn. rewrite size_empty. lia.
  - intros s Hs. set_solver.
  - intros t p. rewrite list_lookup_fmap_Some. intros (o & -> & _). now repeat split.
  - intros t t' p p' s. rewrite !list_lookup_fmap_Some. intros (o & -> & _). discriminate.
  - intros s (k & Hk & _). discriminate.
Qed.

(** What a section may do to a socket of others: close it, or take it out of the
    set when it is closed. *)
Definition spares (y y' : system) (s : nat) : Prop :=
  (conn y' s -> conn y s /\ (s ∈ _socks (this y) -> s ∈ _socks (this y'))) /\ (s ∈ _socks (this y') -> s ∈ _socks (this y)).

Lemma thread_ok_spared y y' p : length (sockets y) <= length (sockets y') -> (forall s, holds p = Some s -> spares y y' s) ->
  thread_ok y p -> thread_ok y' p.
Proof.
  intros Hl Hsp (H1 & H2 & H3). split_and!.
  - intros s Hs. specialize (H1 s Hs). lia.
  - intros s Hs Hin. apply (H2 s Hs). apply Hsp; [|exact Hin]. now destruct p.
  - destruct p as [| | | | | |s|[s|]| | |]; try exact I; cbn in Hsp; destruct (Hsp s eq_refl) as [Ha Hb].
    + intros Hc. now apply H3, Ha.
    + intros Hc. apply Ha in Hc as [Hc Hi]. auto.
Qed.

(** One thread goes on; [a] is the socket it may connect or put in the set, which
    no other holds. *)
Lemma inv_move max y y' t p p' (a : option nat) : inv max y -> threads y !! t = Some p -> threads y' = <[t := p']> (threads y) ->
  _max_size (this y') = max -> dialer_size (this y') <= S max -> length (sockets y) <= length (sockets y') ->
  (forall s, s ∈ _socks (this y') -> s < length (sockets y')) ->
  (forall s, a <> Some s -> spares y y' s) ->
  (forall s t' q, a = Some s -> t' <> t -> threads y !! t' = Some q -> holds q <> Some s) ->
  thread_ok y' p' ->
  (forall s, holds p' = Some s -> a = Some s \/ holds p = Some s \/ s ∈ _socks (this y)) ->
  (forall s, pending p' = Some s -> a = Some s) ->
  (forall s, loose p = Some s -> a = Some s) ->
  (forall s, a = Some s -> conn y' s -> s ∈ _socks (this y') \/ loose p' = Some s) ->
  inv max y'.
Proof.
  intros Hi Et Eth Hmax Hb Hlen Hmade Hsp Ha Hp' Hh Hpd Hl Hc.
  assert (Hlt : t < length (threads y)) by (now apply lookup_lt_Some in Et).
  assert (Hnew : <[t := p']> (threads y) !! t = Some p') by (now apply list_lookup_insert_eq).
  split; [exact Hmax|exact Hb|exact Hmade| | |]; rewrite Eth.
  - intros t' q Hq. destruct (update_cases _ _ _ _ _ _ Et Hq) as [[-> ->]|[Hne Hq']]; [exact Hp'|].
    apply (thread_ok_spared y); [exact Hlen| |eapply inv_thread; eauto]. intros s Hs. apply Hsp. intros E. now apply (Ha s t' q E Hne Hq').
  - intros t1 t2 q1 q2 s H1 H2 Hne Hs.
    destruct (update_cases _ _ _ _ _ _ Et H1) as [[-> ->]|[Hn1 H1']], (update_cases _ _ _ _ _ _ Et H2) as [[-> ->]|[Hn2 H2']]; [done| | |].
    + apply (Ha s t2 q2); auto.
    + intros Hh2. destruct (Hh s Hh2) as [E|[E|E]].
      * apply (Ha s t1 q1 E Hn1 H1'). now destruct q1.
      * exact (inv_alone _ _ Hi t1 t q1 p s H1' Et Hn1 Hs E).
      * destruct (inv_thread _ _ Hi t1 q1 H1') as (_ & Hx & _). exact (Hx s Hs E).
    + exact (inv_alone _ _ Hi t1 t2 q1 q2 s H1' H2' Hne Hs).
  - intros s Hcs. destruct (decide (a = Some s)) as [E|E].
    + destruct (Hc s E Hcs) as [H|H]; [now left|right; eauto].
    + destruct (Hsp s E) as [Hsp1 _]. destruct (Hsp1 Hcs) as [Hcs' Hin].
      destruct (inv_conn _ _ Hi s Hcs') as [H|(t' & q & Hq & Hlq)]; [left; auto|]. right. exists t', q. split; [|exact Hlq].
      rewrite list_lookup_insert_ne; [exact Hq|]. intros ->. rewrite Et in Hq. injection Hq as ->. now apply E, Hl.
Qed.

(** The common case: the set stays, and only the socket of the thread may connect. *)
Lemma inv_local max y sks t p p' : inv max y -> threads y !! t = Some p -> length sks = length (sockets y) ->
  let y' := goto t p' (Sys (this y) sks (threads y)) in
  (forall s, pending p <> Some s -> conn y' s -> conn y s) ->
  thread_ok y' p' ->
  (forall s, holds p' = Some s -> holds p = Some s \/ s ∈ _socks (this y)) ->
  (forall s, pending p' = Some s -> pending p = Some s) ->
  (forall s, loose p = Some s -> pending p = Some s) ->
  (forall s, pending p = Some s -> conn y' s -> s ∈ _socks (this y) \/ loose p' = Some s) ->
  inv max y'.
Proof.
  intros Hi Et Hl y' Hsp Hp' Hh Hpd Hlo Hc. pose proof Hi as [Hmax Hb Hm _ Hal _].
  apply (inv_move max y y' t p p' (pending p)); auto; unfold y'; cbn [goto this sockets].
  - lia.
  - intros s Hs. specialize (Hm s Hs). lia.
  - intros s Hs. split; [|auto]. intros H. split; [|auto]. now apply Hsp.
  - intros s t' q Hs Hne Hq. now apply (Hal t t' p q).
Qed.

Lemma with_same y : Sys (this y) (sockets y) (threads y) = y.
Proof. now destruct y. Qed.

Lemma length_with_socket s f y : length (sockets (with_socket s f y)) = length (sockets y).
Proof. apply length_alter. Qed.

Lemma conn_other y y' s : sockets y' !! s = sockets y !! s -> conn y' s <-> conn y s.
Proof. unfold conn. now intros ->. Qed.

Lemma conn_with_other s s' f y : s <> s' -> conn (with_socket s f y) s' <-> conn y s'.
Proof. intros H. apply conn_other. cbn. now apply list_lookup_alter_ne. Qed.

Lemma conn_with_same s f y : (forall k, is_connected (f k) = false) -> ~ conn (with_socket s f y) s.
Proof. intros Hf (k & Hk & Hc). cbn in Hk. rewrite list_lookup_alter_eq in Hk. apply fmap_Some in Hk as (k' & _ & ->). now rewrite Hf in Hc. Qed.

Lemma conn_with s f y s' : (forall k, is_connected (f k) = true -> is_connected k = true) -> conn (with_socket s f y) s' -> conn y s'.
Proof.
  intros Hf (k & Hk & Hc). destruct (decide (s = s')) as [<-|Hne]; [|apply (conn_with_other s s' f y Hne); exists k; auto].
  cbn in Hk. rewrite list_lookup_alter_eq in Hk. apply fmap_Some in Hk as (k' & Hk & ->). exists k'. auto.
Qed.

Lemma close_disconnects k : is_connected (close k) = false.
Proof. unfold close. destruct (is_connected k) eqn:E; [reflexivity|exact E]. Qed.
Lemma close_connected k : is_connected (close k) = true -> is_connected k = true.
Proof. now rewrite close_disconnects. Qed.
Lemma remove_connected k : is_connected (if is_connected k then close k else k) = false.
Proof. destruct (is_connected k) eqn:E; [apply close_disconnects|exact E]. Qed.

Lemma thread_over y p : holds p = None -> thread_ok y p.
Proof. intros H. destruct p as [| | | | | | |[]|? []| |]; try discriminate; repeat split; discriminate. Qed.

(** *** The sections *)

(** A socket is made. *)
Lemma inv_fresh max y t o p' k : inv max y -> threads y !! t = Some (Start o) -> is_connected k = false ->
  p' = Threw \/ p' = Dialing (length (sockets y)) \/ p' = ADialing (length (sockets y)) ->
  inv max (goto t p' (Sys (this y) (sockets y ++ [k]) (threads y))).
Proof.
  intros Hi Et Hk Hp. pose proof Hi as [Hmax Hb Hm Ht Hal Hc].
  assert (Hold : forall s, conn (goto t p' (Sys (this y) (sockets y ++ [k]) (threads y))) s -> conn y s).
  { intros s (k' & Hk' & Hc'). cbn in Hk'. exists k'. split; [|exact Hc'].
    apply lookup_app_Some in Hk' as [Hk'|[_ Hk']]; [exact Hk'|]. apply list_lookup_singleton_Some in Hk' as [_ <-]. congruence. }
  apply (inv_move max y _ t (Start o) p' (Some (length (sockets y)))); auto; cbn [goto this sockets threads loose]; try rewrite length_app; cbn [length].
  - lia.
  - intros s Hs. specialize (Hm s Hs). lia.
  - intros s _. split; [|auto]. intros H. split; [now apply Hold|auto].
  - intros s t' q [= <-] _ Hq H. destruct (Ht t' q Hq) as (H1 & _). specialize (H1 _ H). lia.
  - assert (Hn : length (sockets y) ∉ _socks (this y)) by (intros H; specialize (Hm _ H); lia).
    destruct Hp as [->|[->| ->]]; [now apply thread_over| |]; (split_and!; [|now intros s [= <-]|exact I]);
      intros s [= <-]; cbn; rewrite length_app; cbn; lia.
  - intros s Hs. left. destruct Hp as [->|[->| ->]]; [discriminate|exact Hs|exact Hs].
  - intros s Hs. destruct Hp as [->|[->| ->]]; [discriminate|exact Hs|exact Hs].
  - discriminate.
  - intros s [= <-] Hcs. destruct (Hold _ Hcs) as (k' & Hk' & _). apply lookup_lt_Some in Hk'. lia.
Qed.

(** A thread ends: its socket, if it is the only one to have it, is not connected. *)
Lemma inv_end max y sks t p p' : inv max y -> threads y !! t = Some p -> length sks = length (sockets y) ->
  let y' := goto t p' (Sys (this y) sks (threads y)) in
  (forall s, conn y' s -> conn y s /\ pending p <> Some s) ->
  holds p' = None -> (forall s, loose p = Some s -> pending p = Some s) -> inv max y'.
Proof.
  intros Hi Et Hl y' Hsp Hh Hlo. apply (inv_local max y sks t p p'); auto.
  - intros s _ H. now apply Hsp.
  - now apply thread_over.
  - intros s Hs. congruence.
  - intros s Hs. now destruct p'.
  - intros s Hs H. now apply Hsp in H as [_ H].
Qed.

Lemma inv_dial_start max y t : inv max y -> threads y !! t = Some (Start Dial) -> inv max (dial_start t y).
Proof.
  intros Hi Et. unfold dial_start. destruct (full (this y)).
  - apply (inv_end max y (sockets y) t (Start Dial)); auto; try done; now intros s H.
  - apply (inv_fresh max y t Dial); auto.
Qed.

Lemma alter_end {A} (f : A -> A) (l : list A) x : alter f (length l) (l ++ [x]) = l ++ [f x].
Proof. induction l as [|y l IH]; [reflexivity|]. cbn. f_equal. exact IH. Qed.

Lemma inv_async_start max y t address : inv max y -> threads y !! t = Some (Start AsyncDial) -> inv max (async_start t address y).
Proof.
  intros Hi Et. unfold async_start. destruct (full (this y)).
  - apply (inv_end max y (sockets y) t (Start AsyncDial)); auto; try done; now intros s H.
  - cbn [make_socket]. destruct address; [|apply (inv_fresh max y t AsyncDial); auto].
    unfold with_socket; cbn [this sockets threads]. rewrite alter_end. apply (inv_fresh max y t AsyncDial); auto.
Qed.

Lemma thread_pending max y t p s : inv max y -> threads y !! t = Some p -> pending p = Some s ->
  s < length (sockets y) /\ (s ∉ _socks (this y)) /\ holds p = Some s.
Proof.
  intros Hi Et Hp. destruct (inv_thread _ _ Hi t p Et) as (H1 & H2 & _).
  assert (Hh : holds p = Some s) by (now destruct p). auto.
Qed.

(** The socket of a dial is changed, and the thread goes on with it if it is connected. *)
Lemma inv_changed max y t p p' s f : inv max y -> threads y !! t = Some p -> pending p = Some s ->
  loose p = None -> (p' = Adding s \/ p' = AAdding s) ->
  inv max (goto t p' (with_socket s f y)).
Proof.
  intros Hi Et Hp Hlo Hp'. destruct (thread_pending _ _ _ _ _ Hi Et Hp) as (Hs & Hn & Hh).
  assert (Hp2 : pending p' = Some s /\ holds p' = Some s /\ loose p' = Some s) by (destruct Hp' as [->| ->]; repeat split).
  destruct Hp2 as (P1 & P2 & P3).
  apply (inv_local max y (alter f s (sockets y)) t p p'); auto.
  - apply length_alter.
  - intros s' Hs' H. apply (conn_with_other s s' f y); [congruence|exact H].
  - split_and!; [intros s' E|intros s' E|now destruct Hp' as [->| ->]]; cbn [goto this sockets]; rewrite ?length_alter; congruence.
  - intros s' E. left. congruence.
  - congruence.
  - congruence.
  - intros s' E _. right. congruence.
Qed.

(** The socket of a dial is closed and dropped. *)
Lemma inv_dropped max y t p p' s f : inv max y -> threads y !! t = Some p -> pending p = Some s -> holds p' = None ->
  (forall s, loose p = Some s -> pending p = Some s) -> (forall k, is_connected (f k) = false) ->
  inv max (goto t p' (with_socket s f y)).
Proof.
  intros Hi Et Hp Hh Hlo Hf. apply (inv_end max y (alter f s (sockets y)) t p p'); auto.
  - apply length_alter.
  - intros s' H. destruct (decide (s = s')) as [<-|Hne]; [now destruct (conn_with_same s f y Hf)|].
    split; [|congruence]. now apply (conn_with_other s s' f y Hne).
Qed.

Lemma with_with s f g y : with_socket s f (with_socket s g y) = with_socket s (fun k => f (g k)) y.
Proof.
  unfold with_socket; cbn. f_equal. revert s. induction (sockets y) as [|k l IH]; intros [|s]; try reflexivity.
  cbn. f_equal. apply IH.
Qed.

Lemma set_as_with s k k' y : sockets y !! s = Some k -> set_socket s k' y = with_socket s (fun _ => k') y.
Proof.
  intros Ek. unfold set_socket, with_socket. f_equal. apply list_eq. intros i. destruct (decide (s = i)) as [<-|].
  - rewrite list_lookup_insert_eq by (now apply lookup_lt_Some in Ek). now rewrite list_lookup_alter_eq, Ek.
  - now rewrite list_lookup_insert_ne, list_lookup_alter_ne.
Qed.

(** The part of [connect] that fails is a change of the socket that leaves it unconnected. *)
Lemma inv_dial_connect max y t s attempts : inv max y -> threads y !! t = Some (Dialing s) -> inv max (dial_connect t s attempts y).
Proof.
  intros Hi Et. unfold dial_connect. destruct (sockets y !! s) as [k|] eqn:Ek; [|exact Hi].
  destruct (connect attempts k) as [ok k'].
  rewrite (set_as_with s k k' y Ek). destruct ok; [eapply inv_changed; eauto|].
  rewrite with_with. eapply inv_dropped; eauto; [done|]. intros _. apply close_disconnects.
Qed.

Lemma inv_async_done max y t s ok : inv max y -> threads y !! t = Some (ADialing s) -> inv max (async_done t s ok y).
Proof.
  intros Hi Et. unfold async_done. destruct ok; [eapply inv_changed; eauto|].
  rewrite with_with. eapply inv_dropped; eauto; [done|]. intros k. apply close_disconnects.
Qed.

(** The socket enters the set, or finds it full. *)
Lemma size_add s (X : gset nat) : size ({[s]} ∪ X) <= S (size X).
Proof. rewrite size_union_alt. rewrite size_singleton. assert (size (X ∖ {[s]}) <= size X) by (apply subseteq_size; set_solver). lia. Qed.

Lemma inv_added max y t p p' s : inv max y -> threads y !! t = Some p -> pending p = Some s ->
  full (this y) = false -> p' = Returned (Some s) \/ p' = Called false (Some s) ->
  inv max (goto t p' (set_this (_add s (this y)).2 y)).
Proof.
  intros Hi Et Hp Hf Hp'. destruct (thread_pending _ _ _ _ _ Hi Et Hp) as (Hs & Hn & Hh). pose proof Hi as [Hmax Hb Hm Ht Hal Hc].
  assert (Hp2 : pending p' = None /\ holds p' = Some s) by (destruct Hp' as [->| ->]; repeat split). destruct Hp2 as [P1 P2].
  unfold _add. rewrite Hf. unfold full in Hf. apply Nat.ltb_ge in Hf. unfold dialer_size in *.
  apply (inv_move max y _ t p p' (Some s)); auto; cbn [goto set_this this sockets threads _socks _max_size snd].
  - unfold dialer_size; cbn. pose proof (size_add s (_socks (this y))). lia.
  - intros s' [->%elem_of_singleton|H]%elem_of_union; auto.
  - intros s' Hne. split; cbn [goto set_this this _socks]; [|set_solver]. intros H. split; [exact H|set_solver].
  - intros s' t' q [= <-] Hne Hq. now apply (Hal t t' p q).
  - split_and!; [|congruence|]; cbn [goto set_this this sockets _socks].
    + intros s' E. congruence.
    + destruct Hp' as [->| ->]; [|exact I]. intros _. set_solver.
  - intros s' E. left. congruence.
  - intros s' E. congruence.
  - intros s' E. f_equal. destruct p as [| | | | | | | |[] []| |]; cbn in *; congruence.
  - intros s' [= <-] _. left. set_solver.
Qed.

Lemma inv_dial_add max y t s : inv max y -> threads y !! t = Some (Adding s) -> inv max (dial_add t s y).
Proof.
  intros Hi Et. destruct (thread_pending _ _ _ _ s Hi Et eq_refl) as (Hs & Hn & _). unfold dial_add.
  destruct (full (this y)) eqn:Hf.
  - unfold _add. rewrite Hf. unfold set_this. rewrite with_same. eapply inv_dropped; eauto. apply close_disconnects.
  - pose proof (inv_added max y t (Adding s) (Returned (Some s)) s Hi Et eq_refl Hf ltac:(auto)) as H.
    unfold _add in *. rewrite Hf in *. unfold is_exist in *. rewrite bool_decide_eq_false_2 by exact Hn. exact H.
Qed.

Lemma inv_async_add max y t s : inv max y -> threads y !! t = Some (AAdding s) -> inv max (async_add t s y).
Proof.
  intros Hi Et. destruct (thread_pending _ _ _ _ s Hi Et eq_refl) as (Hs & Hn & _). unfold async_add.
  destruct (full (this y)) eqn:Hf.
  - unfold _add. rewrite Hf. unfold set_this. rewrite with_same. rewrite <- (with_same y) at 1.
    apply (inv_local max y (sockets y) t (AAdding s)); auto; cbn.
    + split_and!; [|discriminate|exact I]. intros s' [= <-]. exact Hs.
    + discriminate.
  - pose proof (inv_added max y t (AAdding s) (Called false (Some s)) s Hi Et eq_refl Hf ltac:(auto)) as H.
    unfold _add in *. rewrite Hf in *. exact H.
Qed.

(** A socket that is found is nobody's dial; one that is closed may leave the set. *)
Lemma inv_remove_start max y t s : inv max y -> threads y !! t = Some (Start (Remove s)) -> inv max (remove_start t s y).
Proof.
  intros Hi Et. assert (Hend : inv max (goto t Finished y)).
  { apply (inv_end max y (sockets y) t (Start (Remove s))); auto; try done; now intros x H. }
  destruct s as [s|]; [|exact Hend]. unfold remove_start, is_exist. destruct (bool_decide_reflect (s ∈ _socks (this y))) as [Hs|]; [|exact Hend].
  rewrite <- (with_same y) at 1. apply (inv_local max y (sockets y) t (Start (Remove (Some s)))); auto; cbn; try discriminate; try now intros.
  - split_and!; [|discriminate|exact I]. intros s' [= <-]. now apply (inv_made _ _ Hi).
  - intros s' [= <-]. auto.
Qed.

Lemma inv_remove_close max y t s : inv max y -> threads y !! t = Some (Removing s) -> inv max (remove_close t s y).
Proof.
  intros Hi Et. unfold remove_close. destruct (inv_thread _ _ Hi t _ Et) as (H1 & _).
  apply (inv_local max y (alter (fun k => if is_connected k then close k else k) s (sockets y)) t (Removing s)); auto; cbn; try discriminate.
  - apply length_alter.
  - intros s' _. apply conn_with. intros k. now rewrite remove_connected.
  - split_and!; [|discriminate|].
    + intros s' [= <-]. cbn. rewrite length_alter. now apply H1.
    + apply conn_with_same. intros k. apply remove_connected.
Qed.

Lemma inv_remove_erase max y t s : inv max y -> threads y !! t = Some (Erasing s) -> inv max (remove_erase t s y).
Proof.
  intros Hi Et. unfold remove_erase, _del. destruct (inv_thread _ _ Hi t _ Et) as (_ & _ & Hc). pose proof Hi as [Hmax Hb Hm Ht Hal _].
  apply (inv_move max y _ t (Erasing s) Finished None); auto; cbn [goto set_this this sockets threads _socks _max_size]; try discriminate.
  - unfold dialer_size in *; cbn. enough (size (_socks (this y) ∖ {[s]}) <= size (_socks (this y))) by lia. apply subseteq_size. set_solver.
  - intros s' [H _]%elem_of_difference. auto.
  - intros s' _. split; cbn [goto set_this this _socks]; [|set_solver]. intros H. split; [exact H|]. intros Hin.
    apply elem_of_difference. split; [exact Hin|]. intros ->%elem_of_singleton. now apply Hc.
  - now apply thread_over.
Qed.

Lemma closed_all max y t s : inv max y -> conn (close_all t y) s -> conn y s /\ s ∉ _socks (this y).
Proof.
  intros Hi (k & Hk & Hc). cbn in Hk. rewrite list_lookup_imap in Hk. apply fmap_Some in Hk as (k' & Hk' & ->).
  unfold is_exist in Hc. destruct (bool_decide_reflect (s ∈ _socks (this y))); [now rewrite close_disconnects in Hc|].
  split; [now exists k'|assumption].
Qed.

Lemma inv_close_all max y t : inv max y -> threads y !! t = Some (Start Close) -> inv max (close_all t y).
Proof.
  intros Hi Et. pose proof Hi as [Hmax Hb Hm Ht Hal _].
  apply (inv_move max y _ t (Start Close) Finished None); auto; cbn [close_all goto this sockets threads _socks _max_size]; try discriminate.
  - unfold dialer_size; cbn. rewrite size_empty. lia.
  - rewrite length_imap. lia.
  - intros s _. split; [|cbn; set_solver]. intros H. apply (closed_all max y t s Hi) in H as [H1 H2]. split; [exact H1|]. intros H. now destruct H2.
  - now apply thread_over.
Qed.

Lemma inv_user max y s : inv max y -> s ∈ _socks (this y) -> inv max (with_socket s close y).
Proof.
  intros [Hmax Hb Hm Ht Hal Hc] Hs. split; cbn [with_socket this sockets threads]; auto.
  - intros s' H. rewrite length_alter. auto.
  - intros t p Et. apply (thread_ok_spared y); [cbn; rewrite length_alter; lia| |eauto]. intros s' _.
    split; [|auto]. intros H. split; [|auto]. eapply conn_with; [apply close_connected|exact H].
  - intros s' H. apply Hc. eapply conn_with; [apply close_connected|exact H].
Qed.

Lemma dialer_step_inv max y y' : inv max y -> step y y' -> inv max y'.
Proof.
  intros Hi Hs. destruct Hs; auto using inv_dial_start, inv_dial_connect, inv_dial_add, inv_async_start, inv_async_done, inv_async_add,
    inv_remove_start, inv_remove_close, inv_remove_erase, inv_close_all, inv_user.
Qed.

Lemma dialer_steps_inv max y y' : inv max y -> rtc step y y' -> inv max y'.
Proof. intros Hi Hs. induction Hs; eauto using dialer_step_inv. Qed.
End Dial.

(** ** The listener *)

Section Listen.
Import Listener.

(** The acceptor is open and bound to the endpoint that is kept. *)
Definition valid (l : listener) : Prop :=
  match _acceptor l with Some a => is_open a = true /\ bound a = _binded_endpoint l | None => _binded_endpoint l = endpoint_t end.

Inductive lop :=
  | Accept (ans : answer) | AcceptEp (ep : endpoint) (mk : making) (ans : answer) | AcceptIp (ip : option Z) (port : Z) (mk : making) (ans : answer)
  | AsyncAccept (fn taken : bool) | AsyncEp (ep : endpoint) (fn : option bool) (mk : making) (taken : bool)
  | AsyncIp (ip : option Z) (port : Z) (fn : option bool) (mk : making) (taken : bool) | Done (ok : bool) | CloseL.
(** The listener afterwards, and what was accepted: an endpoint for each connection
    that was returned. *)
Definition exec (o : lop) (l : listener) : listener * list endpoint :=
  let here (l : listener) := match _acceptor l with Some a => [bound a] | None => [] end in
  match o with
  | Accept ans => let (r, l) := accept ans l in (l, match r with Some _ => here l | None => [] end)
  | AcceptEp ep mk ans => let (r, l) := accept_ep ep mk ans l in (l, match r with Ret (Some _) => here l | _ => [] end)
  | AcceptIp ip port mk ans => let (r, l) := accept_ip ip port mk ans l in (l, match r with Ret (Some _) => here l | _ => [] end)
  | AsyncAccept fn taken => (async_accept fn taken l, [])
  | AsyncEp ep fn mk taken => (snd (match fn with Some fn => async_accept_ep ep fn mk taken l | None => async_accept_default ep mk taken l end), [])
  | AsyncIp ip port fn mk taken => (snd (async_accept_ip ip port fn mk taken l), [])
  | Done ok => (snd (accept_done ok l), [])
  | CloseL => (close l, [])
  end.
Definition exec_all (os : list lop) (l : listener) : listener := fold_left (fun l o => fst (exec o l)) os l.
(** Acceptors that can be made. *)
Definition makes (o : lop) : Prop :=
  match o with AcceptEp _ mk _ | AcceptIp _ _ mk _ | AsyncEp _ _ mk _ | AsyncIp _ _ _ mk _ => mk = Made | _ => True end.

Lemma bind_valid ep l : valid l -> exists l', bind_to ep Made l = (Ret tt, l') /\ valid l' /\ _binded_endpoint l' = ep
  /\ lost l' = lost l /\ waiting l' = waiting l /\ (ep <> endpoint_t -> _acceptor l' = Some (Acceptor ep true)).
Proof.
  intros Hv. unfold bind_to. destruct (decide (_binded_endpoint l = ep)) as [E|E].
  - exists l. split_and!; auto. intros Hne. unfold valid in Hv. destruct (_acceptor l) as [[b o]|]; [|congruence].
    cbn in Hv. destruct Hv as [-> ->]. now rewrite E.
  - eexists. split; [reflexivity|]. unfold close_acceptor. destruct (_acceptor l); cbn; split_and!; auto.
Qed.

Lemma accept_valid ans l : valid l -> valid (accept ans l).2 /\ _acceptor (accept ans l).2 = _acceptor l
  /\ _binded_endpoint (accept ans l).2 = _binded_endpoint l.
Proof.
  unfold accept. intros Hv. destruct (_acceptor l) as [a|] eqn:Ea; [|auto]. unfold valid in *. rewrite Ea in Hv.
  destruct (answered a ans); cbn; rewrite Ea; auto.
Qed.

Lemma async_accept_valid fn taken l : valid l -> valid (async_accept fn taken l).
Proof. unfold async_accept, valid. intros Hv. destruct (_acceptor l) as [a|] eqn:Ea; [destruct taken|]; cbn; now rewrite ?Ea. Qed.

Lemma accept_ep_valid ep ans l : valid l -> valid (accept_ep ep Made ans l).2 /\ _binded_endpoint (accept_ep ep Made ans l).2 = ep.
Proof.
  intros Hv. unfold accept_ep. destruct (bind_valid ep l Hv) as (l' & -> & Hv' & Hb & _).
  pose proof (accept_valid ans l' Hv') as Ha. destruct (accept ans l') as [r l2]. cbn in *. destruct Ha as (H1 & _ & H2). split; [exact H1|congruence].
Qed.

Lemma async_ep_valid ep fn taken l : valid l -> valid (async_accept_ep ep fn Made taken l).2.
Proof. intros Hv. unfold async_accept_ep. destruct (bind_valid ep l Hv) as (l' & -> & Hv' & _). now apply async_accept_valid. Qed.

Lemma exec_valid o l : makes o -> valid l -> valid (exec o l).1.
Proof.
  intros Hm Hv. destruct o as [ans|ep mk ans|ip port mk ans|fn taken|ep fn mk taken|ip port fn mk taken|ok|]; cbn in Hm |- *; subst.
  - pose proof (accept_valid ans l Hv) as H. destruct (accept ans l). apply H.
  - pose proof (accept_ep_valid ep ans l Hv) as H. destruct (accept_ep ep Made ans l). apply H.
  - destruct ip as [a|]; cbn; [|exact Hv]. pose proof (accept_ep_valid (Endpoint a port) ans l Hv) as H. destruct (accept_ep _ Made ans l). apply H.
  - now apply async_accept_valid.
  - destruct fn; now apply async_ep_valid.
  - destruct ip as [a|]; cbn; [|exact Hv]. now apply async_ep_valid.
  - unfold accept_done. destruct (waiting l); [exact Hv|]. now destruct ok.
  - unfold close. now destruct (_closed l).
Qed.

Lemma exec_all_valid os l : Forall makes os -> valid l -> valid (exec_all os l).
Proof. intros Hm. revert l. induction Hm as [|o os Ho _ IH]; intros l Hv; [exact Hv|]. apply IH, exec_valid; assumption. Qed.
End Listen.

(** ** Theorems *)

(** C27: whatever the threads do, the set of a dialer has at most one socket more
    than its maximum, a socket that [dial] returned is in the set as long as it is
    connected, and every connected socket is in the set, or between its connection
    and its entry, or was given to the handler of an asynchronous dial.  [close]
    leaves only the latter connected. *)
Theorem dialer_tracks max ops y : rtc Dialer.step (Dialer.initial max ops) y ->
  Dialer.dialer_size (Dialer.this y) <= S max
  /\ (forall t s, Dialer.threads y !! t = Some (Dialer.Returned (Some s)) -> conn y s -> Dialer.is_exist s (Dialer.this y) = true)
  /\ (forall s, conn y s -> Dialer.is_exist s (Dialer.this y) = true \/ exists t p, Dialer.threads y !! t = Some p /\ loose p = Some s)
  /\ (forall t s, Dialer.threads y !! t = Some (Dialer.Start Dialer.Close) -> conn (Dialer.close_all t y) s ->
       exists t' p, Dialer.threads y !! t' = Some p /\ loose p = Some s).
Proof.
  intros Hs. pose proof (dialer_steps_inv max _ _ (dialer_initial_inv max ops) Hs) as Hi. pose proof Hi as [Hmax Hb Hm Ht Hal Hc].
  unfold Dialer.is_exist. split_and!.
  - exact Hb.
  - intros t s E Hcs. apply bool_decide_eq_true. destruct (Ht t _ E) as (_ & _ & H). auto.
  - intros s Hcs. rewrite bool_decide_eq_true. auto.
  - intros t s E Hcs. destruct (closed_all max y t s Hi Hcs) as [H1 H2]. destruct (Hc s H1); [contradiction|assumption].
Qed.

Lemma dialer_tracks_witness : let y := Dialer.dial_add 0 0 (Dialer.dial_connect 0 0 [false; true] (Dialer.dial_start 0 (Dialer.initial 0 [Dialer.Dial]))) in
  Dialer.threads y !! 0 = Some (Dialer.Returned (Some 0)) /\ conn y 0 /\ Dialer.is_exist 0 (Dialer.this y) = true.
Proof.
  intros y. assert (Hs : rtc Dialer.step (Dialer.initial 0 [Dialer.Dial]) y).
  { eapply rtc_l; [eapply (Dialer.step_dial _ 0); reflexivity|]. eapply rtc_l; [eapply (Dialer.step_connect _ 0 0 [false; true]); reflexivity|].
    eapply rtc_l; [eapply (Dialer.step_add _ 0 0); reflexivity|]. apply rtc_refl. }
  assert (Hc : conn y 0) by (exists (Socket.Sock true true); split; reflexivity).
  split; [reflexivity|]. split; [exact Hc|]. exact (proj1 (proj2 (dialer_tracks 0 [Dialer.Dial] y Hs)) 0 0 eq_refl Hc).
Defined.

(** As long as acceptors can be made, after any calls a listener that is told
    an endpoint, other than the unspecified one, is open there and returns a
    connected socket for a connection; what it accepts later without an endpoint is
    accepted there; and a handler is called once, after those before it. *)
Theorem listener_accepts os h ep : Forall makes os -> ep <> Listener.endpoint_t ->
  let l := exec_all os (Listener.tcp_listener h) in
  exists l', Listener.accept_ep ep Listener.Made Listener.Accepted l = (Listener.Ret (Some (Socket.Sock true true)), l')
    /\ Listener._acceptor l' = Some (Listener.Acceptor ep true) /\ Listener.lost l' = Listener.lost l
    /\ exec (Accept Listener.Accepted) l' = (l', [ep])
    /\ (forall fn, exists l2, Listener.async_accept_ep ep fn Listener.Made true l = (Listener.Ret tt, l2)
          /\ Listener.waiting l2 = Listener.waiting l ++ [fn] /\ Listener._acceptor l2 = Some (Listener.Acceptor ep true)
          /\ forall ok, Listener.waiting (Listener.accept_done ok l2).2 = tail (Listener.waiting l2)).
Proof.
  intros Hm Hne l. assert (Hv : valid l) by (now apply exec_all_valid).
  destruct (bind_valid ep l Hv) as (l' & Hb & Hv' & He & Hl & Hw & Ha). specialize (Ha Hne).
  exists l'. unfold Listener.accept_ep, Listener.async_accept_ep. rewrite Hb. split_and!; auto.
  - unfold Listener.accept. now rewrite Ha.
  - cbn. unfold Listener.accept. rewrite Ha. cbn. now rewrite Ha.
  - intros fn. unfold Listener.async_accept. rewrite Ha. eexists. split; [reflexivity|]. cbn. rewrite Hw, Ha. split_and!; auto.
    intros ok. unfold Listener.accept_done; cbn. destruct (Listener.waiting l ++ [fn]); [reflexivity|]. now destruct ok.
Qed.

Lemma listener_accepts_witness : let ep := Listener.v4 80 in
  exists l', Listener.accept_ep ep Listener.Made Listener.Accepted (exec_all [AcceptEp (Listener.v4 81) Listener.Made Listener.Failed_] (Listener.tcp_listener true))
    = (Listener.Ret (Some (Socket.Sock true true)), l') /\ Listener._acceptor l' = Some (Listener.Acceptor ep true).
Proof.
  intros ep. destruct (listener_accepts [AcceptEp (Listener.v4 81) Listener.Made Listener.Failed_] true ep) as (l' & H1 & H2 & _).
  - repeat constructor.
  - discriminate.
  - exists l'. split; [exact H1|exact H2].
Defined.

(** ** Where the code differs from what it means *)

(** The maximum is exceeded by one. *)
Lemma dialer_over : exists y, rtc Dialer.step (Dialer.initial 0 [Dialer.Dial]) y /\ Dialer._max_size (Dialer.this y) < Dialer.dialer_size (Dialer.this y).
Proof.
  eexists. split; [|shelve].
  eapply rtc_l; [eapply (Dialer.step_dial _ 0); reflexivity|]. eapply rtc_l; [eapply (Dialer.step_connect _ 0 0 [true]); reflexivity|].
  eapply rtc_l; [eapply (Dialer.step_add _ 0 0); reflexivity|]. apply rtc_refl.
  Unshelve. vm_compute. lia.
Qed.

(** An asynchronous dial that finds the set full hands out its socket all the same:
    it is connected, and the dialer does not know it. *)
Lemma async_untracked y t s : Dialer.full (Dialer.this y) = true -> t < length (Dialer.threads y) ->
  Dialer.this (Dialer.async_add t s y) = Dialer.this y /\ Dialer.threads (Dialer.async_add t s y) !! t = Some (Dialer.Called false (Some s))
  /\ (conn y s -> conn (Dialer.async_add t s y) s).
Proof.
  intros Hf Ht. unfold Dialer.async_add, Dialer._add. rewrite Hf. cbn. split_and!; auto. now rewrite list_lookup_insert_eq.
Qed.

(** A dial that is connected while [close] runs enters the set of the closed dialer. *)
Lemma dial_after_close y t s : ~ s ∈ Dialer._socks (Dialer.this y) -> conn y s ->
  let y' := Dialer.dial_add t s (Dialer.close_all (S t) y) in conn y' s /\ Dialer.is_exist s (Dialer.this y') = true.
Proof.
  intros Hn (k & Hk & Hc) y'.
  assert (Hf : Dialer.full (Dialer.this (Dialer.close_all (S t) y)) = false) by (apply Nat.ltb_ge; unfold Dialer.dialer_size; cbn; rewrite size_empty; lia).
  assert (He : Dialer.is_exist s (Dialer.this (Dialer.close_all (S t) y)) = false) by (apply bool_decide_eq_false_2, not_elem_of_empty).
  unfold y', Dialer.dial_add, Dialer._add. rewrite Hf, He. split.
  - exists k. split; [|exact Hc]. cbn. rewrite list_lookup_imap, Hk. cbn. unfold Dialer.is_exist. now rewrite bool_decide_eq_false_2.
  - apply bool_decide_eq_true. cbn. set_solver.
Qed.

(** When the acceptor of a new endpoint cannot be made the old one is closed and
    stays: at the old endpoint no connection is accepted any more. *)
Lemma stale_acceptor ep ep' l mk : Listener._acceptor l <> None -> Listener._binded_endpoint l = ep -> ep' <> ep ->
  let l' := (Listener.bind_to ep' Listener.NotMade l).2 in
  (Listener.bind_to ep' Listener.NotMade l).1 = Listener.Throw /\ (Listener.accept_ep ep mk Listener.Accepted l').1 = Listener.Ret None.
Proof.
  intros Ha He Hne. assert (E : Listener.bind_to ep' Listener.NotMade l = (Listener.Throw, Listener.close_acceptor l)).
  { unfold Listener.bind_to. now rewrite He, decide_False by congruence. }
  rewrite E. cbn [fst snd]. split; [reflexivity|]. unfold Listener.accept_ep, Listener.bind_to, Listener.close_acceptor.
  destruct (Listener._acceptor l) as [a|]; [|congruence]. cbn [Listener.set_acceptor Listener._binded_endpoint]. now rewrite He, decide_True.
Qed.

(** Any port: the endpoint is the unspecified one, for which no acceptor is made. *)
Lemma any_port_ignored h mk ans : Listener.accept_port 0 mk ans (Listener.tcp_listener h) = (Listener.Ret None, Listener.tcp_listener h).
Proof. reflexivity. Qed.

(** A listener that is used after it was closed cannot be closed. *)
Lemma close_once ep l : Listener._closed l = true -> ep <> Listener._binded_endpoint l ->
  exists l', Listener.bind_to ep Listener.Made l = (Listener.Ret tt, l') /\ Listener.close l' = l' /\ Listener._acceptor l' = Some (Listener.Acceptor ep true).
Proof.
  intros Hc Hne. unfold Listener.bind_to. rewrite decide_False by congruence. eexists. split; [reflexivity|].
  unfold Listener.close. cbn. unfold Listener.close_acceptor. destruct (Listener._acceptor l); cbn; rewrite Hc; auto.
Qed.

(** A socket for an accept that fails is never freed. *)
Lemma accept_leaks ans l : ans <> Listener.Accepted -> Listener._acceptor l <> None -> Listener.lost (Listener.accept ans l).2 = S (Listener.lost l).
Proof.
  intros Ha Hn. unfold Listener.accept. destruct (Listener._acceptor l) as [a|]; [|congruence]. unfold Listener.answered.
  destruct (Listener.is_open a), ans; congruence || reflexivity.
Qed.
