(* ===== verification/Ws.v ===== *)
(** * Web sockets

    [net/http/ws_client.hpp] and [net/http/ws_server.hpp]: a client and a server, plain
    or over TLS.  An operation that does not block is pending until the library
    completes it, with success or an error, and then its handler is called; a step
    that needs more starts the next.  What the network gives is an argument.  [None]
    is a null or dangling pointer, a second read or write on one stream while one is
    pending, which the library forbids, or waiting for ever. *)

From Stdlib Require Import ZArith Lia List Bool.
From stdpp Require Import base tactics list option gmap.
From S2P Require Import Prelude Dialer.

Open Scope hj_scope.
Open Scope nat_scope.

(** A message; a stream: whether it is open, what has come, what was sent. *)
Definition message : Type := list Z.
Record stream := Stream { opened : bool; inbox : list message; outbox : list message }.
Inductive result := Ok | NotConnected | Failed.
#[global] Instance result_dec : EqDecision result.
Proof. solve_decision. Defined.

(** ** The client *)

Module Client.

(** What is written: a copy, or the caller's string. *)
Inductive source := Copied (m : message) | Ref (t : nat).
(** Pending operations, with the number of their handler. *)
Inductive op := Resolving (h : nat) | Connecting (h : nat) | Securing (h : nat) | Shaking (h : nat)
  | Writing (h : nat) (m : source) | Reading (h : nat) | Closing (h : nat).
(** A handler that was called: the kind of its operation, and what it was given. *)
Inductive kind := OnConnect | OnSend | OnRecv | OnClose.
Record call := Called { handler : nat; on : kind; err : result; text : message }.
(** [texts] are the caller's strings; the caller has a pointer ([user]) to the client,
    which is there ([alive]).  [delivered] and [received] are what has come and what the
    caller has got. *)
Record client := Client { _ws : option stream; _connected : bool; _buffer : message; pending : list op; calls : list call;
  texts : gmap nat message; user : bool; alive : bool; delivered : list message; received : list message }.
Definition ws_client : client := Client (Some (Stream false [] [])) false [] [] [] ∅ true true [] [].

Definition set_ws (w : option stream) (s : client) : client := Client w (_connected s) (_buffer s) (pending s) (calls s) (texts s) (user s) (alive s) (delivered s) (received s).
Definition set_connected (b : bool) (s : client) : client := Client (_ws s) b (_buffer s) (pending s) (calls s) (texts s) (user s) (alive s) (delivered s) (received s).
Definition set_buffer (b : message) (s : client) : client := Client (_ws s) (_connected s) b (pending s) (calls s) (texts s) (user s) (alive s) (delivered s) (received s).
Definition set_pending (l : list op) (s : client) : client := Client (_ws s) (_connected s) (_buffer s) l (calls s) (texts s) (user s) (alive s) (delivered s) (received s).
Definition set_texts (m : gmap nat message) (s : client) : client := Client (_ws s) (_connected s) (_buffer s) (pending s) (calls s) m (user s) (alive s) (delivered s) (received s).
Definition set_user (b : bool) (s : client) : client := Client (_ws s) (_connected s) (_buffer s) (pending s) (calls s) (texts s) b (alive s) (delivered s) (received s).
Definition set_alive (b : bool) (s : client) : client := Client (_ws s) (_connected s) (_buffer s) (pending s) (calls s) (texts s) (user s) b (delivered s) (received s).
Definition deliver (m : message) (s : client) : client := Client (_ws s) (_connected s) (_buffer s) (pending s) (calls s) (texts s) (user s) (alive s) (delivered s ++ [m]) (received s).
Definition got (m : message) (s : client) : client := Client (_ws s) (_connected s) (_buffer s) (pending s) (calls s) (texts s) (user s) (alive s) (delivered s) (received s ++ [m]).
Definition called (c : call) (s : client) : client := Client (_ws s) (_connected s) (_buffer s) (pending s) (calls s ++ [c]) (texts s) (user s) (alive s) (delivered s) (received s).
Definition start (o : op) (s : client) : client := set_pending (pending s ++ [o]) s.

Definition is_writing (o : op) : bool := match o with Writing _ _ => true | _ => false end.
Definition is_reading (o : op) : bool := match o with Reading _ => true | _ => false end.
Definition handler_of (o : op) : nat := match o with Resolving h | Connecting h | Securing h | Shaking h | Writing h _ | Reading h | Closing h => h end.

Section Kind.
(** [ws_client_ssl], or [ws_client]. *)
Variable ssl : bool.

(** [connect]: what resolving, connecting and the handshakes give. *)
Definition connect (resolved joined secured shaken : bool) (s : client) : option (bool * client) :=
  if negb resolved then Some (false, s) else
  let* w := _ws s in
  if negb joined || (ssl && negb secured) || negb shaken then Some (false, s)
  else Some (true, set_connected true (set_ws (Some (Stream true (inbox w) (outbox w))) s)).
Definition async_connect (h : nat) (s : client) : option client := Some (start (Resolving h) s).
(** [send]: whether the library writes. *)
Definition send (m : message) (ok : bool) (s : client) : option (bool * client) :=
  if negb (_connected s) then Some (false, s) else
  let* w := _ws s in
  if existsb is_writing (pending s) then None else
  if ok then Some (true, set_ws (Some (Stream (opened w) (inbox w) (outbox w ++ [m]))) s) else Some (false, s).
Definition async_send (t : nat) (h : nat) (s : client) : option client :=
  let* m := texts s !! t in
  if negb (_connected s) then Some (called (Called h OnSend NotConnected []) s) else
  let* _ := _ws s in
  if existsb is_writing (pending s) then None else Some (start (Writing h (if ssl then Ref t else Copied m)) s).
(** [recv]: the message, unless the library fails; without one it waits. *)
Definition recv (ok : bool) (s : client) : option (option message * client) :=
  if negb (_connected s) then Some (None, s) else
  let* w := _ws s in
  if existsb is_reading (pending s) then None else
  if ok then match inbox w with
    | [] => None
    | m :: l => Some (Some m, got m (set_ws (Some (Stream (opened w) l (outbox w))) s))
    end
  else Some (None, s).
Definition async_recv (h : nat) (s : client) : option client :=
  if negb (_connected s) then Some (called (Called h OnRecv NotConnected []) s) else
  let* _ := _ws s in
  if existsb is_reading (pending s) then None else Some (start (Reading h) s).
Definition close (s : client) : client :=
  if negb (_connected s) then s else set_ws None (set_connected false s).
Definition async_close (h : nat) (s : client) : client :=
  if negb (_connected s) then called (Called h OnClose NotConnected []) s else
  let s := set_connected false s in
  match _ws s with None => s | Some _ => start (Closing h) s end.

(** The plain client is kept by what is pending; the other is not, but what is pending
    points to it. *)
Definition destroy (s : client) : client := set_alive false (close s).
Definition collect (s : client) : client := if negb (user s) && (length (pending s) =? 0) && alive s then destroy s else s.
Definition drop (s : client) : client := let s := set_user false s in if ssl then destroy s else collect s.
Definition captured (o : op) : bool := match o with Writing _ _ => false | _ => ssl end.

(** What is read: the message, or all that the buffer of the client has kept. *)
Definition read_done (h : nat) (m : message) (s : client) : client :=
  if ssl then
    let s := set_buffer (_buffer s ++ m) s in
    let t := if (length m =? 0) || (length (_buffer s) =? 0) then [] else _buffer s in
    called (Called h OnRecv Ok t) (got t s)
  else called (Called h OnRecv Ok m) (got m s).
(** An operation is completed; one that starts another uses the stream. *)
Definition finish (o : op) (ok : bool) (s : client) : option client :=
  if captured o && negb (alive s) then None else
  match o, ok with
  | Resolving h, true => let* _ := _ws s in Some (start (Connecting h) s)
  | Connecting h, true => let* _ := _ws s in Some (start (if ssl then Securing h else Shaking h) s)
  | Securing h, true => let* _ := _ws s in Some (start (Shaking h) s)
  | Shaking h, true => let* w := _ws s in Some (called (Called h OnConnect Ok []) (set_connected true (set_ws (Some (Stream true (inbox w) (outbox w))) s)))
  | Writing h m, true =>
      let* w := _ws s in
      let* m := match m with Copied m => Some m | Ref t => texts s !! t end in
      Some (called (Called h OnSend Ok []) (set_ws (Some (Stream (opened w) (inbox w) (outbox w ++ [m]))) s))
  | Reading h, true =>
      let* w := _ws s in
      match inbox w with
      | [] => None
      | m :: l => Some (read_done h m (set_ws (Some (Stream (opened w) l (outbox w))) s))
      end
  | Resolving h, false | Connecting h, false | Securing h, false | Shaking h, false => Some (called (Called h OnConnect Failed []) s)
  | Writing h _, false => Some (called (Called h OnSend Failed []) s)
  | Reading h, false => Some (called (Called h OnRecv Failed []) s)
  | Closing h, _ => Some (called (Called h OnClose Ok []) (set_ws None s))
  end.
Definition complete (i : nat) (ok : bool) (s : client) : option client :=
  let* o := pending s !! i in
  let* s := finish o ok (set_pending (delete i (pending s)) s) in
  Some (collect s).
(** A message comes from the peer. *)
Definition arrive (m : message) (s : client) : option client :=
  let* w := _ws s in Some (deliver m (set_ws (Some (Stream (opened w) (inbox w ++ [m]) (outbox w))) s)).

Inductive action := Connect (resolved joined secured shaken : bool) | AsyncConnect (h : nat) | Send (m : message) (ok : bool) | AsyncSend (t h : nat)
  | Recv (ok : bool) | AsyncRecv (h : nat) | Close | AsyncClose (h : nat) | Drop | Text (t : nat) (m : option message) | Arrive (m : message) | Complete (i : nat) (ok : bool).
Definition act (a : action) (s : client) : option client :=
  match a with
  | Connect r j t k => let* (_, s) := connect r j t k s in Some s
  | AsyncConnect h => async_connect h s
  | Send m ok => let* (_, s) := send m ok s in Some s
  | AsyncSend t h => async_send t h s
  | Recv ok => let* (_, s) := recv ok s in Some s
  | AsyncRecv h => async_recv h s
  | Close => Some (close s)
  | AsyncClose h => Some (async_close h s)
  | Drop => Some (drop s)
  | Text t m => Some (set_texts (partial_alter (fun _ => m) t (texts s)) s)
  | Arrive m => arrive m s
  | Complete i ok => complete i ok s
  end.
Fixpoint acts (l : list action) (s : client) : option client := match l with [] => Some s | a :: l => let* s := act a s in acts l s end.
End Kind.
End Client.

(** ** The server *)

Module Server.
Import Dialer.Listener.

Inductive op := Accepting (h : nat) | Securing (h : nat) | Shaking (h w : nat) | Writing (h w : nat) (m : message) | Reading (h w : nat) | Closing (w : nat) (lft : nat) (h : option nat).
(** A call: the handler, the error, the stream, the message. *)
Record call := Called { handler : nat; err : result; ws : option nat; text : message }.
(** [counts] are the shared counters of the calls of [async_close]; [locked] is the mutex. *)
Record server := Server { _acceptor : option bool; _binded_endpoint : endpoint; _closed : bool; locked : bool;
  streams : gmap nat stream; counts : gmap nat nat; pending : list op; calls : list call }.
Definition ws_server : server := Server None endpoint_t false false ∅ ∅ [] [].
Definition set_acceptor (a : option bool) (s : server) : server := Server a (_binded_endpoint s) (_closed s) (locked s) (streams s) (counts s) (pending s) (calls s).
Definition set_binded (e : endpoint) (s : server) : server := Server (_acceptor s) e (_closed s) (locked s) (streams s) (counts s) (pending s) (calls s).
Definition set_closed (b : bool) (s : server) : server := Server (_acceptor s) (_binded_endpoint s) b (locked s) (streams s) (counts s) (pending s) (calls s).
Definition set_locked (b : bool) (s : server) : server := Server (_acceptor s) (_binded_endpoint s) (_closed s) b (streams s) (counts s) (pending s) (calls s).
Definition set_streams (m : gmap nat stream) (s : server) : server := Server (_acceptor s) (_binded_endpoint s) (_closed s) (locked s) m (counts s) (pending s) (calls s).
Definition set_counts (m : gmap nat nat) (s : server) : server := Server (_acceptor s) (_binded_endpoint s) (_closed s) (locked s) (streams s) m (pending s) (calls s).
Definition set_pending (l : list op) (s : server) : server := Server (_acceptor s) (_binded_endpoint s) (_closed s) (locked s) (streams s) (counts s) l (calls s).
Definition called (c : call) (s : server) : server := Server (_acceptor s) (_binded_endpoint s) (_closed s) (locked s) (streams s) (counts s) (pending s) (calls s ++ [c]).
Definition start (o : op) (s : server) : server := set_pending (pending s ++ [o]) s.
Definition new_stream (s : server) : nat * server := let w := fresh (dom (streams s)) in (w, set_streams (<[w := Stream false [] []]> (streams s)) s).
Definition shut (s : server) : server := set_binded endpoint_t (set_acceptor None s).
Definition ready (s : server) : bool := negb (_closed s) && match _acceptor s with Some true => true | _ => false end.

Section Kind.
Variable ssl : bool.

(** [accept(err)]: the acceptor gives a socket or throws; the handshakes. *)
Definition accept (taken secured shaken : bool) (s : server) : option (outcome (result * option nat) * server) :=
  if locked s then None else
  if negb (ready s) then Some (Ret (NotConnected, None), s) else
  if negb taken then Some (Throw, s) else
  if ssl && negb secured then Some (Ret (Failed, None), s) else
  if negb shaken then Some (Ret (Failed, None), s) else
  let (w, s) := new_stream s in Some (Ret (Ok, Some w), set_streams (alter (fun x => Stream true (inbox x) (outbox x)) w (streams s)) s).
(** [accept(ep, err)] locks by hand: a constructor that throws leaves the lock. *)
Definition accept_ep (ep : endpoint) (mk : making) (taken secured shaken : bool) (s : server) : option (outcome (result * option nat) * server) :=
  if locked s then None else
  if decide (_binded_endpoint s = ep) then accept taken secured shaken s else
  let s := set_acceptor None s in
  match mk with
  | NotMade => Some (Throw, set_locked true s)
  | NotSet => Some (Throw, set_locked true (set_acceptor (Some true) s))
  | Made => accept taken secured shaken (set_binded ep (set_acceptor (Some true) s))
  end.
Definition accept_port (port : Z) := accept_ep (v4 port).
Definition async_accept (h : nat) (s : server) : server := if negb (ready s) then called (Called h NotConnected None []) s else start (Accepting h) s.
Definition async_accept_ep (ep : endpoint) (mk : making) (h : nat) (s : server) : outcome unit * server :=
  if _closed s then (Ret tt, called (Called h NotConnected None []) s) else
  if decide (_binded_endpoint s = ep) then (Ret tt, async_accept h s) else
  let s := set_acceptor (match _acceptor s with Some _ => Some false | None => None end) s in
  match mk with
  | NotMade => (Throw, s)
  | NotSet => (Throw, set_acceptor (Some true) s)
  | Made => (Ret tt, async_accept h (set_binded ep (set_acceptor (Some true) s)))
  end.
Definition writing (w : nat) (o : op) : bool := match o with Writing _ w' _ => w' =? w | _ => false end.
Definition reading (w : nat) (o : op) : bool := match o with Reading _ w' => w' =? w | _ => false end.
(** [recv]: a buffer of 1024 bytes. *)
Definition recv (w : option nat) (ok : bool) (s : server) : option (result * message * server) :=
  match w with
  | Some w =>
      if _closed s then Some (NotConnected, [], s) else
      let* x := streams s !! w in
      if existsb (reading w) (pending s) then None else
      if negb ok then Some (Failed, [], s) else
      match inbox x with
      | [] => None
      | m :: l => if 1024 <? length m then Some (Failed, [], s) else Some (Ok, m, set_streams (<[w := Stream (opened x) l (outbox x)]> (streams s)) s)
      end
  | None => Some (NotConnected, [], s)
  end.
Definition async_recv (w : option nat) (h : nat) (s : server) : option server :=
  match w with
  | Some v => if _closed s then Some (called (Called h NotConnected w []) s) else
      let* _ := streams s !! v in if existsb (reading v) (pending s) then None else Some (start (Reading h v) s)
  | None => Some (called (Called h NotConnected None []) s)
  end.
Definition send (w : option nat) (m : message) (ok : bool) (s : server) : option (result * nat * server) :=
  match w with
  | Some w =>
      if _closed s then Some (NotConnected, 0, s) else
      let* x := streams s !! w in
      if existsb (writing w) (pending s) then None else
      if ok then Some (Ok, length m, set_streams (<[w := Stream (opened x) (inbox x) (outbox x ++ [m])]> (streams s)) s) else Some (Failed, 0, s)
  | None => Some (NotConnected, 0, s)
  end.
Definition async_send (w : option nat) (m : message) (h : nat) (s : server) : option server :=
  match w with
  | Some v => if _closed s then Some (called (Called h NotConnected w []) s) else
      let* _ := streams s !! v in if existsb (writing v) (pending s) then None else Some (start (Writing h v m) s)
  | None => Some (called (Called h NotConnected None []) s)
  end.
Definition close (s : server) : option server :=
  if _closed s then Some s else if locked s then None else Some (shut (set_closed true s)).
(** The streams to close: the plain server leaves after the first that is open. *)
Fixpoint close_conns (conns : list (option nat)) (lft : nat) (h : option nat) (s : server) : bool * server :=
  match conns with
  | [] => (true, s)
  | w :: conns =>
      match w with
      | None => close_conns conns lft h s
      | Some w =>
          match streams s !! w with
          | Some x => if opened x then let s := start (Closing w lft h) s in if ssl then close_conns conns lft h s else (false, s) else close_conns conns lft h s
          | None => close_conns conns lft h s
          end
      end
  end.
Definition call_close (h : option nat) (r : result) (s : server) : server := match h with Some h => called (Called h r None []) s | None => s end.
Definition async_close (h : option nat) (conns : list (option nat)) (s : server) : option server :=
  if _closed s then Some (call_close h NotConnected s) else
  let s := set_closed true s in
  if locked s then None else
  let s := shut s in
  let lft := fresh (dom (counts s)) in
  let s := set_counts (<[lft := length conns]> (counts s)) s in
  let (all, s) := close_conns conns lft h s in
  Some (if all then call_close h Ok s else s).
(** An operation is completed. *)
Definition finish (o : op) (ok : bool) (s : server) : option server :=
  match o, ok with
  | Accepting h, false | Securing h, false => Some (called (Called h Failed None []) s)
  | Accepting h, true => if ssl then Some (start (Securing h) s) else let (w, s) := new_stream s in Some (start (Shaking h w) s)
  | Securing h, true => let (w, s) := new_stream s in Some (start (Shaking h w) s)
  | Shaking h w, true => Some (called (Called h Ok (Some w) []) (set_streams (alter (fun x => Stream true (inbox x) (outbox x)) w (streams s)) s))
  | Shaking h w, false => Some (called (Called h Failed (Some w) []) s)
  | Writing h w m, true => let* x := streams s !! w in Some (called (Called h Ok (Some w) []) (set_streams (<[w := Stream (opened x) (inbox x) (outbox x ++ [m])]> (streams s)) s))
  | Writing h w m, false => Some (called (Called h Failed (Some w) []) s)
  | Reading h w, true =>
      let* x := streams s !! w in
      match inbox x with
      | [] => None
      | m :: l => Some (called (Called h Ok (Some w) m) (set_streams (<[w := Stream (opened x) l (outbox x)]> (streams s)) s))
      end
  | Reading h w, false => Some (called (Called h Failed (Some w) []) s)
  | Closing w lft h, _ =>
      let s := set_streams (alter (fun x => Stream false (inbox x) (outbox x)) w (streams s)) s in
      let* n := counts s !! lft in
      let n := n - 1 in
      let s := set_counts (<[lft := n]> (counts s)) s in
      Some (if 0 <? n then s else call_close h Ok s)
  end.
Definition complete (i : nat) (ok : bool) (s : server) : option server :=
  let* o := pending s !! i in finish o ok (set_pending (delete i (pending s)) s).
End Kind.
End Server.
