(* ===== verification/WsThm.v ===== *)
(** * Web sockets: theorems

    Each handler is called once for each operation that was started, and messages are
    received in the order in which they came, over every sequence of calls that keeps
    to the library's rules and every order of completions; what the server does when
    it closes; and where the client over TLS and the server do otherwise. *)

From Stdlib Require Import ZArith Lia List Bool.
From stdpp Require Import base tactics list option gmap.
From S2P Require Import Prelude Dialer Ws.

Open Scope hj_scope.
Open Scope nat_scope.

(** ** Counting *)

Section Counting.
Context {A : Type}.
Definition cnt (f : A -> bool) (l : list A) : nat := length (List.filter f l).
Lemma cnt_app f l k : cnt f (l ++ k) = cnt f l + cnt f k.
Proof. unfold cnt. now rewrite List.filter_app, length_app. Qed.
Lemma cnt_one f x : cnt f [x] = if f x then 1 else 0.
Proof. unfold cnt. cbn. now destruct (f x). Qed.
Lemma cnt_delete f i l x : l !! i = Some x -> cnt f l = cnt f (delete i l) + if f x then 1 else 0.
Proof.
  revert i. induction l as [|y l IH]; intros i H; [discriminate|]. destruct i as [|i].
  - injection H as ->. change (delete 0 (x :: l)) with l. unfold cnt. cbn. destruct (f x); cbn; lia.
  - specialize (IH i H). change (delete (S i) (y :: l)) with (y :: delete i l). unfold cnt in *. cbn. destruct (f y); cbn; lia.
Qed.
Lemma cnt_exists f l : existsb f l = false <-> cnt f l = 0.
Proof. unfold cnt. induction l as [|y l IH]; cbn; [easy|]. destruct (f y); cbn; [split; [discriminate|lia]|exact IH]. Qed.
End Counting.

(** ** The client *)

Section ClientThm.
Import Client.

Definition connecting (o : op) : bool := match o with Resolving _ | Connecting _ | Securing _ | Shaking _ => true | _ => false end.
Definition closing (o : op) : bool := match o with Closing _ => true | _ => false end.
Definition on_handler (h : nat) (o : op) : bool := handler_of o =? h.
Definition on_call (h : nat) (c : call) : bool := handler c =? h.
(** How often the handler was called, or will be. *)
Definition times (h : nat) (s : client) : nat := cnt (on_call h) (calls s) + cnt (on_handler h) (pending s).
(** The handler that an action gives. *)
Definition given (a : action) : option nat := match a with AsyncConnect h | AsyncSend _ h | AsyncRecv h | AsyncClose h => Some h | _ => None end.
Definition gives (h : nat) (a : action) : nat := match given a with Some h' => if h' =? h then 1 else 0 | None => 0 end.

(** What the caller keeps to: it connects a client that is neither connected, connecting
    nor closed; reads, or writes, one at a time; and uses the client while it has it.
    What the network keeps to: a read ends with a message. *)
Definition free_to (busy : op -> bool) (s : client) : Prop := _connected s = true -> cnt busy (pending s) = 0.
Definition has_message (s : client) : Prop := exists w m l, _ws s = Some w /\ inbox w = m :: l.
(** An operation that is completed with success. *)
Definition ends_well (o : op) (ok : bool) (s : client) : Prop := ok = true -> match o with Writing _ _ => is_Some (_ws s) | Reading _ => has_message s | _ => True end.
Definition fair (a : action) (s : client) : Prop :=
  match a with
  | Connect _ _ _ _ | AsyncConnect _ => user s = true /\ _connected s = false /\ is_Some (_ws s) /\ cnt connecting (pending s) = 0 /\ cnt closing (pending s) = 0
  | Send _ _ => user s = true /\ free_to is_writing s
  | AsyncSend t _ => user s = true /\ free_to is_writing s /\ is_Some (texts s !! t)
  | Recv ok => user s = true /\ free_to is_reading s /\ (_connected s = true -> ok = true -> has_message s)
  | AsyncRecv _ => user s = true /\ free_to is_reading s
  | Close | AsyncClose _ | Drop => user s = true
  | Text _ _ => True
  | Arrive _ => is_Some (_ws s)
  | Complete i ok => exists o, pending s !! i = Some o /\ ends_well o ok s
  end.

(** Connected, connecting and closing exclude each other and, but for closing, have a
    stream; what was received and what is there are what has come; a string that is
    being written is a copy. *)
Record sound (s : client) : Prop := {
  sound_phase : (if _connected s then 1 else 0) + cnt connecting (pending s) + cnt closing (pending s) <= 1;
  sound_ws : _connected s = true \/ cnt connecting (pending s) <> 0 -> is_Some (_ws s);
  sound_order : match _ws s with Some w => delivered s = received s ++ inbox w | None => received s `prefix_of` delivered s end;
  sound_copy : forall h t, (Writing h (Ref t) ∉ pending s) }.

Lemma order_reset s w : _ws s = Some w -> delivered s = received s ++ inbox w -> received s `prefix_of` delivered s.
Proof. intros _ ->. now exists (inbox w). Qed.

Lemma sound_start o s : sound s -> connecting o = false -> closing o = false -> (forall h t, o <> Writing h (Ref t)) -> sound (start o s).
Proof.
  intros [H1 H2 H3 H4] Hc Hk Hw. split; cbn [_connected _ws delivered received pending start set_pending].
  - rewrite !cnt_app, !cnt_one, Hc, Hk. lia.
  - rewrite cnt_app, cnt_one, Hc, Nat.add_0_r. exact H2.
  - exact H3.
  - intros h t H. apply elem_of_app in H as [H|H]; [exact (H4 h t H)|]. apply list_elem_of_singleton in H. exact (Hw h t (eq_sym H)).
Qed.
Lemma sound_called c s : sound s -> sound (called c s).
Proof. intros [H1 H2 H3 H4]. now split. Qed.
Lemma times_start h o s : times h (start o s) = times h s + if handler_of o =? h then 1 else 0.
Proof. unfold times, start. cbn [pending calls set_pending]. rewrite cnt_app, cnt_one. unfold on_handler at 2. lia. Qed.
Lemma times_called h c s : times h (called c s) = times h s + if handler c =? h then 1 else 0.
Proof. unfold times, called. cbn [pending calls]. rewrite cnt_app, cnt_one. unfold on_call at 2. lia. Qed.

Lemma sound_close s : sound s -> sound (close s).
Proof.
  intros [H1 H2 H3 H4]. unfold close. destruct (_connected s) eqn:E; cbn [negb]; [|split; auto; now rewrite E].
  split; cbn [_connected _ws delivered received pending set_ws set_connected].
  - lia.
  - intros [H|H]; [discriminate|lia].
  - destruct (_ws s) as [w|] eqn:Ew; [now apply (order_reset s w)|exact H3].
  - exact H4.
Qed.
Lemma times_close h s : times h (close s) = times h s.
Proof. unfold close. now destruct (_connected s). Qed.
Lemma sound_collect s : sound s -> sound (collect s).
Proof. intros H. unfold collect. destruct (_ && _); [|exact H]. unfold destroy. destruct (sound_close s H) as [H1 H2 H3 H4]. now split. Qed.
Lemma times_collect h s : times h (collect s) = times h s.
Proof. unfold collect. destruct (_ && _); [|reflexivity]. exact (times_close h s). Qed.
(** The stream's state and what was sent; a message comes; a message is received. *)
Lemma sound_stream b o w s : sound s -> _ws s = Some w -> sound (set_ws (Some (Stream b (inbox w) o)) s).
Proof. intros [H1 H2 H3 H4] Ew. rewrite Ew in H3. split; cbn; eauto. Qed.
Lemma sound_arrive m w s : sound s -> _ws s = Some w -> sound (deliver m (set_ws (Some (Stream (opened w) (inbox w ++ [m]) (outbox w))) s)).
Proof. intros [H1 H2 H3 H4] Ew. rewrite Ew in H3. split; cbn; eauto. now rewrite H3, app_assoc. Qed.
Lemma sound_got m l w s : sound s -> _ws s = Some w -> inbox w = m :: l -> sound (got m (set_ws (Some (Stream (opened w) l (outbox w))) s)).
Proof. intros [H1 H2 H3 H4] Ew Em. rewrite Ew, Em in H3. split; cbn; eauto. now rewrite H3, <- app_assoc. Qed.
(** A completed operation is taken away. *)
Lemma sound_delete i o s : sound s -> pending s !! i = Some o ->
  let s' := set_pending (delete i (pending s)) s in sound s' /\ forall h, times h s = times h s' + if handler_of o =? h then 1 else 0.
Proof.
  intros [H1 H2 H3 H4] Ho. pose proof (cnt_delete connecting i _ o Ho) as Hc. pose proof (cnt_delete closing i _ o Ho) as Hk.
  split.
  - split; cbn [_connected _ws delivered received pending set_pending].
    + lia.
    + intros [H|H]; apply H2; [now left|right; lia].
    + exact H3.
    + intros h t H. apply (H4 h t). revert H. apply sublist_subseteq, sublist_delete.
  - intros h. unfold times. cbn [calls pending set_pending]. rewrite (cnt_delete (on_handler h) i _ o Ho). unfold on_handler at 2. lia.
Qed.
(** The client becomes connected, or goes on connecting. *)
Lemma sound_next o s : sound s -> is_Some (_ws s) -> _connected s = false -> cnt connecting (pending s) = 0 -> cnt closing (pending s) = 0 ->
  connecting o = true -> closing o = false -> (forall h t, o <> Writing h (Ref t)) -> sound (start o s).
Proof.
  intros [H1 H2 H3 H4] Hs Hn Hc Hk Ho Ho' Hw. split; cbn [_connected _ws delivered received pending start set_pending].
  - rewrite !cnt_app, !cnt_one, Ho, Ho', Hn. lia.
  - auto.
  - exact H3.
  - intros h t H. apply elem_of_app in H as [H|H]; [exact (H4 h t H)|]. apply list_elem_of_singleton in H. exact (Hw h t (eq_sym H)).
Qed.
Lemma sound_connected w s : sound s -> _ws s = Some w -> cnt connecting (pending s) = 0 -> cnt closing (pending s) = 0 ->
  sound (set_connected true (set_ws (Some (Stream true (inbox w) (outbox w))) s)).
Proof. intros [H1 H2 H3 H4] Ew Hc Hk. rewrite Ew in H3. split; cbn [_connected _ws delivered received pending set_ws set_connected inbox]; eauto. lia. Qed.

Lemma sound_connect r j t k s b s' : sound s -> connect false r j t k s = Some (b, s') -> cnt connecting (pending s) = 0 -> cnt closing (pending s) = 0 -> sound s' /\ forall h, times h s' = times h s.
Proof.
  intros H Hc Hn Hk. unfold connect in Hc. destruct r; cbn [negb] in Hc; [|now injection Hc as <- <-].
  destruct (_ws s) as [w|] eqn:Ew; [|discriminate].
  destruct (_ || _); injection Hc as <- <-; [easy|]. split; [|easy]. now apply sound_connected.
Qed.
Lemma closed_order s : sound s -> _connected s = false -> cnt connecting (pending s) = 0 -> sound (set_ws None s).
Proof.
  intros [H1 H2 H3 H4] Hn Hc. split; cbn [_connected _ws delivered received pending set_ws]; auto.
  - now intros [H|H]; [rewrite H in Hn|lia].
  - destruct (_ws s) as [w|] eqn:Ew; [now apply (order_reset s w)|exact H3].
Qed.
Lemma finish_runs i o ok s : sound s -> pending s !! i = Some o -> ends_well o ok s ->
  exists s', finish false o ok (set_pending (delete i (pending s)) s) = Some s' /\ sound s' /\ forall h, times h s' = times h s.
Proof.
  intros H Ho Hok. destruct (sound_delete i o s H Ho) as [Hd Ht]. destruct H as [H1 H2 H3 H4].
  pose proof (cnt_delete connecting i _ o Ho) as Hc. pose proof (cnt_delete closing i _ o Ho) as Hk.
  set (s0 := set_pending (delete i (pending s)) s) in *.
  assert (Hfail : forall k r, let s' := called (Called (handler_of o) k r []) s0 in sound s' /\ forall h, times h s' = times h s).
  { intros k r. split; [now apply sound_called|]. intros h. now rewrite times_called, Ht. }
  destruct o; cbn [connecting closing] in Hc, Hk; destruct ok; cbn [finish captured andb]; try (eexists; split; [reflexivity|apply Hfail]).
  (* Going on connecting. *)
  all: try (destruct H2 as [w Hw]; [right; lia|]; change (_ws s) with (_ws s0) in Hw; rewrite Hw).
  all: try (eexists; split; [reflexivity|split; [apply sound_next; try easy; cbn [_connected pending set_pending s0]; destruct (_connected s); try easy; lia|intros h0; rewrite times_start, Ht; reflexivity]]).
  - (* connected *) eexists. split; [reflexivity|]. split; [|intros h0; rewrite times_called, Ht; reflexivity].
    apply sound_called, sound_connected; auto; cbn [pending set_pending s0]; lia.
  - (* written *) destruct (Hok eq_refl) as [w Hw]. change (_ws s) with (_ws s0) in Hw. rewrite Hw.
    destruct m as [m|t]; [|exfalso; exact (H4 h t (list_elem_of_lookup_2 _ _ _ Ho))].
    eexists. split; [reflexivity|]. split; [now apply sound_called, sound_stream|]. intros h'. rewrite times_called, Ht. reflexivity.
  - (* read *) destruct (Hok eq_refl) as (w & m & l & Hw & Hm). change (_ws s) with (_ws s0) in Hw. rewrite Hw, Hm.
    eexists. split; [reflexivity|]. unfold read_done. split; [now apply sound_called, sound_got|]. intros h'. rewrite times_called, Ht. reflexivity.
  - (* closed *) eexists. split; [reflexivity|]. split; [|intros h'; rewrite times_called, Ht; reflexivity].
    apply sound_called, closed_order; auto; cbn [_connected pending set_pending s0]; destruct (_connected s); try easy; lia.
  - eexists. split; [reflexivity|]. split; [|intros h'; rewrite times_called, Ht; reflexivity].
    apply sound_called, closed_order; auto; cbn [_connected pending set_pending s0]; destruct (_connected s); try easy; lia.
Qed.

(** A step runs, keeps the client sound and counts a handler. *)
Definition runs (x : option client) (s : client) (o : option nat) : Prop :=
  exists s', x = Some s' /\ sound s' /\ forall h, times h s' = times h s + match o with Some h' => if h' =? h then 1 else 0 | None => 0 end.
Lemma runs_quietly s s' : sound s' -> (forall h, times h s' = times h s) -> runs (Some s') s None.
Proof. intros H Ht. exists s'. split; [easy|]. split; [easy|]. intros h. rewrite Ht. lia. Qed.
Lemma runs_start o s : sound (start o s) -> runs (Some (start o s)) s (Some (handler_of o)).
Proof. intros H. eexists. split; [reflexivity|]. split; [easy|]. intros h. now rewrite times_start. Qed.
Lemma runs_called c s : sound s -> runs (Some (called c s)) s (Some (handler c)).
Proof. intros H. eexists. split; [reflexivity|]. split; [now apply sound_called|]. intros h. now rewrite times_called. Qed.

Lemma connect_runs r j t k s : sound s -> fair (Connect r j t k) s -> runs (act false (Connect r j t k) s) s None.
Proof.
  intros H (_ & Hn & [w Hw] & Hc & Hk). cbn [act].
  destruct (connect false r j t k s) as [[b s']|] eqn:E.
  - destruct (sound_connect _ _ _ _ _ _ _ H E Hc Hk) as [Hs Ht]. now apply runs_quietly.
  - unfold connect in E. rewrite Hw in E. now destruct (negb r), (negb j || (false && negb t) || negb k).
Qed.
(** Sending and receiving use a stream that is there and not busy. *)
Lemma connected_stream (busy : op -> bool) s : sound s -> free_to busy s -> _connected s = true -> exists w, _ws s = Some w /\ existsb busy (pending s) = false.
Proof. intros H Hb E. destruct (sound_ws s H (or_introl E)) as [w Hw]. exists w. split; [easy|]. now apply cnt_exists, Hb. Qed.
Lemma send_runs m ok s : sound s -> fair (Send m ok) s -> runs (act false (Send m ok) s) s None.
Proof.
  intros H [_ Hb]. cbn [act]. unfold send. destruct (_connected s) eqn:E; cbn [negb]; [|now apply runs_quietly].
  destruct (connected_stream _ s H Hb E) as (w & Hw & ->). rewrite Hw.
  destruct ok; apply runs_quietly; try easy. now apply sound_stream.
Qed.
Lemma recv_runs ok s : sound s -> fair (Recv ok) s -> runs (act false (Recv ok) s) s None.
Proof.
  intros H (_ & Hb & Hr). cbn [act]. unfold recv. destruct (_connected s) eqn:E; cbn [negb]; [|now apply runs_quietly].
  destruct (connected_stream _ s H Hb E) as (w & Hw & ->). rewrite Hw. destruct ok; [|now apply runs_quietly].
  destruct (Hr eq_refl eq_refl) as (w' & m & l & Hw' & Hm). rewrite Hw in Hw'. injection Hw' as <-. rewrite Hm.
  apply runs_quietly; [now apply sound_got|easy].
Qed.
Lemma async_send_runs t h s : sound s -> fair (AsyncSend t h) s -> runs (act false (AsyncSend t h) s) s (Some h).
Proof.
  intros H (_ & Hb & [m Hm]). cbn [act]. unfold async_send. rewrite Hm. destruct (_connected s) eqn:E; cbn [negb]; [|now apply (runs_called (Called h _ _ _))].
  destruct (connected_stream _ s H Hb E) as (w & -> & ->). now apply (runs_start (Writing h _)), sound_start.
Qed.
Lemma async_recv_runs h s : sound s -> fair (AsyncRecv h) s -> runs (act false (AsyncRecv h) s) s (Some h).
Proof.
  intros H [_ Hb]. cbn [act]. unfold async_recv. destruct (_connected s) eqn:E; cbn [negb]; [|now apply (runs_called (Called h _ _ _))].
  destruct (connected_stream _ s H Hb E) as (w & -> & ->). now apply (runs_start (Reading h)), sound_start.
Qed.
Lemma async_close_runs h s : sound s -> runs (act false (AsyncClose h) s) s (Some h).
Proof.
  intros H. cbn [act]. unfold async_close. destruct (_connected s) eqn:E; cbn [negb]; [|now apply (runs_called (Called h _ _ _))].
  destruct (sound_ws s H (or_introl E)) as [w Hw]. change (_ws (set_connected false s)) with (_ws s). rewrite Hw.
  apply (runs_start (Closing h) (set_connected false s)). destruct H as [H1 H2 H3 H4]. rewrite E in H1.
  split; cbn [_connected _ws delivered received pending start set_pending set_connected].
  - rewrite !cnt_app, !cnt_one. cbn [connecting closing]. lia.
  - rewrite cnt_app, cnt_one. cbn [connecting]. intros [?|?]; [discriminate|lia].
  - exact H3.
  - intros h' t Hin. apply elem_of_app in Hin as [Hin|Hin]; [exact (H4 h' t Hin)|]. apply list_elem_of_singleton in Hin. discriminate.
Qed.
Lemma complete_runs i ok s : sound s -> fair (Complete i ok) s -> runs (act false (Complete i ok) s) s None.
Proof.
  intros H (o & Ho & Hok). cbn [act]. unfold complete. rewrite Ho.
  destruct (finish_runs i o ok s H Ho Hok) as (s' & -> & Hs & Ht). apply runs_quietly; [now apply sound_collect|]. intros h. now rewrite times_collect.
Qed.
(** Each action runs, and counts its handler. *)
Lemma act_runs a s : sound s -> fair a s -> runs (act false a s) s (given a).
Proof.
  intros H Hf. destruct a as [r j t k|h|m ok|t h|ok|h| |h| |t m|m|i ok].
  - now apply connect_runs.
  - destruct Hf as (_ & Hn & Hs & Hc & Hk). now apply (runs_start (Resolving h)), sound_next.
  - now apply send_runs.
  - now apply async_send_runs.
  - now apply recv_runs.
  - now apply async_recv_runs.
  - apply runs_quietly; [now apply sound_close|]. intros h. apply times_close.
  - now apply async_close_runs.
  - apply runs_quietly; [apply sound_collect; destruct H; now split|]. intros h. exact (times_collect h (set_user false s)).
  - apply runs_quietly; [destruct H; now split|easy].
  - destruct Hf as [w Hw]. cbn [act]. unfold arrive. rewrite Hw. apply runs_quietly; [now apply sound_arrive|easy].
  - now apply complete_runs.
Qed.

(** The actions of a fair caller and network, one after the other. *)
Fixpoint keeps (l : list action) (s : client) : Prop :=
  match l with [] => True | a :: l => fair a s /\ match act false a s with Some s' => keeps l s' | None => True end end.
Lemma acts_run l s : sound s -> keeps l s -> exists s', acts false l s = Some s' /\ sound s' /\ forall h, times h s' = times h s + list_sum (map (gives h) l).
Proof.
  revert s. induction l as [|a l IH]; intros s H Hk; [exists s; split; [easy|]; split; [easy|]; intros h; cbn; lia|].
  destruct Hk as [Hf Hk]. destruct (act_runs a s H Hf) as (s' & E & Hs & Ht). cbn [acts]. rewrite E in Hk |- *.
  destruct (IH s' Hs Hk) as (s'' & -> & Hs' & Ht'). exists s''. split; [easy|]. split; [easy|].
  intros h. rewrite Ht', Ht. unfold gives. cbn [map list_sum foldr]. unfold gives. change (foldr Nat.add 0) with list_sum. lia.
Qed.

(** The same, decided. *)
Definition is_some {A} (o : option A) : bool := match o with Some _ => true | None => false end.
Definition does_free (busy : op -> bool) (s : client) : bool := negb (_connected s) || negb (existsb busy (pending s)).
Definition does_have (s : client) : bool := match _ws s with Some w => negb (length (inbox w) =? 0) | None => false end.
Definition does (a : action) (s : client) : bool :=
  match a with
  | Connect _ _ _ _ | AsyncConnect _ => user s && negb (_connected s) && is_some (_ws s) && negb (existsb connecting (pending s)) && negb (existsb closing (pending s))
  | Send _ _ => user s && does_free is_writing s
  | AsyncSend t _ => user s && does_free is_writing s && is_some (texts s !! t)
  | Recv ok => user s && does_free is_reading s && (negb (_connected s) || negb ok || does_have s)
  | AsyncRecv _ => user s && does_free is_reading s
  | Close | AsyncClose _ | Drop => user s
  | Text _ _ => true
  | Arrive _ => is_some (_ws s)
  | Complete i ok => match pending s !! i with Some o => negb ok || match o with Writing _ _ => is_some (_ws s) | Reading _ => does_have s | _ => true end | None => false end
  end.
Fixpoint does_all (l : list action) (s : client) : bool :=
  match l with [] => true | a :: l => does a s && match act false a s with Some s' => does_all l s' | None => true end end.
Lemma is_some_spec {A} (o : option A) : is_some o = true -> is_Some o.
Proof. destruct o; [eauto|discriminate]. Qed.
Lemma free_spec busy s : does_free busy s = true -> free_to busy s.
Proof. unfold does_free, free_to. intros H E. rewrite E in H. now apply cnt_exists, negb_true_iff. Qed.
Lemma have_spec s : does_have s = true -> has_message s.
Proof. unfold does_have, has_message. destruct (_ws s) as [w|]; [|discriminate]. destruct (inbox w) as [|m l] eqn:E; [discriminate|eauto]. Qed.
Lemma does_fair a s : does a s = true -> fair a s.
Proof.
  intros H. destruct a as [r j t k|h|m ok|t h|ok|h| |h| |t m|m|i ok]; cbn [does fair] in *; rewrite ?andb_true_iff, ?orb_true_iff, ?negb_true_iff in H; try easy.
  1,2: destruct H as ((((? & ?) & ?) & Hc) & Hk); rewrite cnt_exists in Hc, Hk; auto using is_some_spec.
  - destruct H; auto using free_spec.
  - destruct H as [[? ?] ?]; auto using free_spec, is_some_spec.
  - destruct H as [[? ?] H]; split; [easy|]; split; [now apply free_spec|]. intros E1 E2. destruct H as [[H|H]|H]; [congruence|congruence|now apply have_spec].
  - destruct H; auto using free_spec.
  - now apply is_some_spec.
  - destruct (pending s !! i) as [o|]; [|discriminate]. exists o. split; [easy|]. intros ->. destruct o; cbn in H; auto using is_some_spec, have_spec.
Qed.
Lemma does_keep l s : does_all l s = true -> keeps l s.
Proof.
  revert s. induction l as [|a l IH]; intros s H; [easy|]. cbn [does_all] in H. apply andb_true_iff in H as [Ha H].
  split; [now apply does_fair|]. destruct (act false a s); [now apply IH|easy].
Qed.

(** What the caller keeps to is needed: a closed client has no stream, which connecting
    uses, and the library takes one read and one write at a time. *)
Lemma closed_cannot_connect s : _connected s = true ->
  (forall j t k, act false (Connect true j t k) (close s) = None) /\
  forall h, acts false [AsyncConnect h; Complete (length (pending s)) true] (close s) = None.
Proof.
  intros E. unfold close. rewrite E. cbn [negb]. split; [reflexivity|]. intros h. cbn [acts act async_connect]. unfold complete.
  cbn [pending start set_pending set_ws set_connected]. now rewrite list_lookup_middle.
Qed.
Lemma one_reader s : _connected s = true -> existsb is_reading (pending s) = true -> forall ok h, act false (Recv ok) s = None /\ act false (AsyncRecv h) s = None.
Proof. intros E B ok h. cbn [act]. unfold recv, async_recv. rewrite E, B. cbn [negb]. now destruct (_ws s). Qed.
Lemma one_writer s : _connected s = true -> existsb is_writing (pending s) = true -> forall m ok t h, act false (Send m ok) s = None /\ act false (AsyncSend t h) s = None.
Proof. intros E B m ok t h. cbn [act]. unfold send, async_send. rewrite E, B. cbn [negb]. destruct (_ws s), (texts s !! t); now split. Qed.

(** Two messages come, and are read while one is sent; then the client is closed, and
    dropped before that is done. *)
Definition session : list action :=
  [AsyncConnect 1; Complete 0 true; Complete 0 true; Complete 0 true; Text 5 (Some [104; 105]%Z); Arrive [1]%Z; AsyncRecv 2; AsyncSend 5 3; Text 5 None;
   Complete 1 true; Complete 0 true; Arrive [2]%Z; Recv true; AsyncRecv 4; AsyncClose 6; Drop; Complete 0 false; Complete 0 true].

(** The client over TLS reads every message into one buffer, which it never empties: the
    second message comes with the first in front. *)
Definition connected (h : nat) : list action := [AsyncConnect h; Complete 0 true; Complete 0 true; Complete 0 true; Complete 0 true].
Lemma ssl_repeats_messages : exists s,
  acts true (connected 1 ++ [Arrive [1]; Arrive [2]; AsyncRecv 2; Complete 0 true; AsyncRecv 3; Complete 0 true])%Z ws_client = Some s /\
  delivered s = [[1]; [2]]%Z /\ received s = [[1]; [1; 2]]%Z.
Proof. eexists. split; [vm_compute; reflexivity|now split]. Qed.
(** It writes from the caller's string, which may be gone. *)
Lemma ssl_send_dangles : acts true (connected 1 ++ [Text 5 (Some [104])%Z; AsyncSend 5 2; Text 5 None; Complete 0 true]) ws_client = None.
Proof. reflexivity. Qed.
(** What is pending points to a client that may be gone. *)
Lemma ssl_client_dangles : acts true [AsyncConnect 1; Drop; Complete 0 true] ws_client = None.
Proof. reflexivity. Qed.
(** A client that was closed cannot connect again: it has no stream. *)
Lemma no_reconnect : acts false [Connect true true true true; Close; Connect true true true true] ws_client = None.
Proof. reflexivity. Qed.
(** Closing while a connection is made does nothing: the client is then connected. *)
Lemma close_is_lost : exists s, acts false [AsyncConnect 1; Close; Complete 0 true; Complete 0 true; Complete 0 true] ws_client = Some s /\ _connected s = true.
Proof. eexists. split; [vm_compute; reflexivity|easy]. Qed.
End ClientThm.

(** ** The server *)

Section ServerThm.
Import Dialer.Listener Server.
Context (ssl : bool).

(** Everything but [async_close]. *)
Inductive step :=
  | AsyncAccept (h : nat) | AsyncAcceptAt (ep : endpoint) (h : nat) | AsyncRecv (w : option nat) (h : nat) | AsyncSend (w : option nat) (m : message) (h : nat)
  | Accept (taken secured shaken : bool) | AcceptAt (ep : endpoint) (taken secured shaken : bool) | Recv (w : option nat) (ok : bool) | Send (w : option nat) (m : message) (ok : bool)
  | CloseAll | Arrive (w : nat) (m : message) | Complete (i : nat) (ok : bool).
Definition arrive (w : nat) (m : message) (s : server) : server := set_streams (alter (fun x => Stream (opened x) (inbox x ++ [m]) (outbox x)) w (streams s)) s.
Definition take_step (a : step) (s : server) : option server :=
  match a with
  | AsyncAccept h => Some (async_accept h s)
  | AsyncAcceptAt ep h => Some (async_accept_ep ep Made h s).2
  | AsyncRecv w h => async_recv w h s
  | AsyncSend w m h => async_send w m h s
  | Accept a b c => let* (_, s) := accept ssl a b c s in Some s
  | AcceptAt ep a b c => let* (_, s) := accept_ep ssl ep Made a b c s in Some s
  | Recv w ok => let* (_, _, s) := recv w ok s in Some s
  | Send w m ok => let* (_, _, s) := send w m ok s in Some s
  | CloseAll => close s
  | Arrive w m => Some (arrive w m s)
  | Complete i ok => complete ssl i ok s
  end.
Fixpoint take_steps (l : list step) (s : server) : option server := match l with [] => Some s | a :: l => let* s := take_step a s in take_steps l s end.
Definition handed (a : step) : option nat := match a with AsyncAccept h | AsyncAcceptAt _ h | AsyncRecv _ h | AsyncSend _ _ h => Some h | _ => None end.
Definition hands (h : nat) (a : step) : nat := match handed a with Some h' => if h' =? h then 1 else 0 | None => 0 end.

(** A stream that is there and not busy, with a message when one is read. *)
Definition can_use (busy : nat -> op -> bool) (w : option nat) (s : server) : bool :=
  match w with Some w => bool_decide (is_Some (streams s !! w)) && negb (existsb (busy w) (pending s)) | None => true end.
Definition has_come (w : option nat) (s : server) : bool :=
  match w with Some w => match streams s !! w with Some x => negb (length (inbox x) =? 0) | None => false end | None => true end.
Definition allowed (a : step) (s : server) : bool :=
  match a with
  | AsyncRecv w _ => can_use reading w s
  | AsyncSend w _ _ => can_use writing w s
  | Recv w ok => can_use reading w s && (negb ok || has_come w s)
  | Send w _ _ => can_use writing w s
  | Complete i ok => match pending s !! i with Some (Reading _ w) => negb ok || has_come (Some w) s | o => is_some o end
  | _ => true
  end.
Fixpoint all_allowed (l : list step) (s : server) : bool :=
  match l with [] => true | a :: l => allowed a s && match take_step a s with Some s' => all_allowed l s' | None => true end end.

(** The streams of what is pending are there; no stream is being closed; the mutex is free. *)
Definition has_stream (m : gmap nat stream) (o : op) : Prop :=
  match o with Accepting _ | Securing _ => True | Shaking _ w | Writing _ w _ | Reading _ w => is_Some (m !! w) | Closing _ _ _ => False end.
Definition served (s : server) : Prop := locked s = false /\ Forall (has_stream (streams s)) (pending s).
Definition on_op (h : nat) (o : op) : bool := match o with Accepting h' | Securing h' | Shaking h' _ | Writing h' _ _ | Reading h' _ => h' =? h | Closing _ _ _ => false end.
Definition on_answer (h : nat) (c : call) : bool := handler c =? h.
Definition answers (h : nat) (s : server) : nat := cnt (on_answer h) (calls s) + cnt (on_op h) (pending s).
Definition serves (x : option server) (s : server) (o : option nat) : Prop :=
  exists s', x = Some s' /\ served s' /\ forall h, answers h s' = answers h s + match o with Some h' => if h' =? h then 1 else 0 | None => 0 end.

Lemma has_stream_mono m m' o : (forall w, is_Some (m !! w) -> is_Some (m' !! w)) -> has_stream m o -> has_stream m' o.
Proof. destruct o; cbn; auto. Qed.
Lemma served_streams m s : served s -> (forall w, is_Some (streams s !! w) -> is_Some (m !! w)) -> served (set_streams m s).
Proof. intros [Hl H] Hm. split; [exact Hl|]. apply (Forall_impl _ _ _ H). intros o. now apply has_stream_mono. Qed.
Lemma served_start o s : served s -> has_stream (streams s) o -> served (start o s).
Proof. intros [Hl H] Ho. split; [exact Hl|]. apply Forall_app. now split; [|apply Forall_singleton]. Qed.
Lemma served_alter f w s : served s -> served (set_streams (alter f w (streams s)) s).
Proof. intros H. apply served_streams; [easy|]. intros v Hv. now apply lookup_alter_is_Some. Qed.
Lemma served_insert x w s : served s -> served (set_streams (<[w := x]> (streams s)) s).
Proof. intros H. apply served_streams; [easy|]. intros v Hv. apply lookup_insert_is_Some'. now right. Qed.
Lemma answers_called h c s : answers h (called c s) = answers h s + if handler c =? h then 1 else 0.
Proof. unfold answers, called. cbn [pending calls]. rewrite cnt_app, cnt_one. unfold on_answer at 2. lia. Qed.
Lemma answers_start h o s : answers h (start o s) = answers h s + if on_op h o then 1 else 0.
Proof. unfold answers, start. cbn [pending calls set_pending]. rewrite cnt_app, cnt_one. lia. Qed.
Lemma serves_quietly s s' : served s' -> (forall h, answers h s' = answers h s) -> serves (Some s') s None.
Proof. intros H Ht. exists s'. split; [easy|]. split; [easy|]. intros h. rewrite Ht. lia. Qed.
Lemma serves_called c s : served s -> serves (Some (called c s)) s (Some (handler c)).
Proof. intros H. eexists. split; [reflexivity|]. split; [exact H|]. intros h. apply answers_called. Qed.
Lemma serves_start o h s : served s -> has_stream (streams s) o -> (forall h', on_op h' o = (h =? h')) -> serves (Some (start o s)) s (Some h).
Proof. intros H Ho Hh. eexists. split; [reflexivity|]. split; [now apply served_start|]. intros h'. now rewrite answers_start, Hh. Qed.
Lemma can_use_spec busy w s : can_use busy (Some w) s = true -> is_Some (streams s !! w) /\ existsb (busy w) (pending s) = false.
Proof. cbn. intros H. apply andb_true_iff in H as [H1 H2]. apply bool_decide_eq_true in H1. now apply negb_true_iff in H2. Qed.
Lemma has_come_spec w s : has_come (Some w) s = true -> exists x m l, streams s !! w = Some x /\ inbox x = m :: l.
Proof. cbn. destruct (streams s !! w) as [x|]; [|discriminate]. destruct (inbox x) as [|m l] eqn:E; [discriminate|eauto]. Qed.

Lemma accept_serves a b c s : served s -> serves (take_step (Accept a b c) s) s None.
Proof.
  intros H. cbn [take_step]. unfold accept. rewrite (proj1 H).
  destruct (negb (ready s)); [now apply serves_quietly|]. destruct (negb a); [now apply serves_quietly|].
  destruct (ssl && negb b); [now apply serves_quietly|]. destruct (negb c); [now apply serves_quietly|].
  apply serves_quietly; [|easy]. unfold new_stream. now apply served_alter, served_insert.
Qed.
Lemma served_at ep s : served s -> served (set_binded ep (set_acceptor (Some true) (set_acceptor None s))).
Proof. easy. Qed.
Lemma accept_at_serves ep a b c s : served s -> serves (take_step (AcceptAt ep a b c) s) s None.
Proof.
  intros H. pose proof (proj1 H) as Hl. cbn [take_step]. unfold accept_ep. rewrite Hl.
  destruct (decide _); [now apply accept_serves|]. exact (accept_serves a b c _ (served_at ep s H)).
Qed.
Lemma async_accept_serves h s : served s -> serves (Some (async_accept h s)) s (Some h).
Proof. intros H. unfold async_accept. destruct (negb (ready s)); [now apply (serves_called (Called h _ _ _))|now apply serves_start]. Qed.
Lemma async_accept_at_serves ep h s : served s -> serves (take_step (AsyncAcceptAt ep h) s) s (Some h).
Proof.
  intros H. cbn [take_step]. unfold async_accept_ep. destruct (_closed s); [now apply (serves_called (Called h _ _ _))|].
  destruct (decide _); [now apply async_accept_serves|].
  destruct (async_accept_serves h (set_binded ep (set_acceptor (Some true) s)) H) as (s' & E & Hs & Ht). exists s'. split; [|easy]. rewrite <- E. now destruct (_acceptor s).
Qed.
Lemma async_recv_serves w h s : served s -> can_use reading w s = true -> serves (async_recv w h s) s (Some h).
Proof.
  intros H Hu. destruct w as [w|]; cbn [async_recv]; [|now apply (serves_called (Called h _ _ _))].
  destruct (_closed s); [now apply (serves_called (Called h _ _ _))|]. apply can_use_spec in Hu as [[x Hx] ->]. rewrite Hx. apply serves_start; [easy|cbn; eauto|easy].
Qed.
Lemma async_send_serves w m h s : served s -> can_use writing w s = true -> serves (async_send w m h s) s (Some h).
Proof.
  intros H Hu. destruct w as [w|]; cbn [async_send]; [|now apply (serves_called (Called h _ _ _))].
  destruct (_closed s); [now apply (serves_called (Called h _ _ _))|]. apply can_use_spec in Hu as [[x Hx] ->]. rewrite Hx. apply serves_start; [easy|cbn; eauto|easy].
Qed.
Lemma recv_serves w ok s : served s -> allowed (Recv w ok) s = true -> serves (take_step (Recv w ok) s) s None.
Proof.
  intros H Hu. destruct w as [w|]; cbn [take_step recv allowed] in *; [|now apply serves_quietly].
  destruct (_closed s); [now apply serves_quietly|]. apply andb_true_iff in Hu as [Hu Hc]. apply can_use_spec in Hu as [[x Hx] ->]. rewrite Hx.
  destruct ok; cbn [negb orb] in *; [|now apply serves_quietly].
  apply has_come_spec in Hc as (x' & m & l & Hx' & Hm). rewrite Hx in Hx'. injection Hx' as <-. rewrite Hm.
  destruct (1024 <? length m); apply serves_quietly; try easy. now apply served_insert.
Qed.
Lemma send_serves w m ok s : served s -> can_use writing w s = true -> serves (take_step (Send w m ok) s) s None.
Proof.
  intros H Hu. destruct w as [w|]; cbn [take_step send]; [|now apply serves_quietly].
  destruct (_closed s); [now apply serves_quietly|]. apply can_use_spec in Hu as [[x Hx] ->]. rewrite Hx.
  destruct ok; apply serves_quietly; try easy. now apply served_insert.
Qed.
Lemma close_serves s : served s -> serves (close s) s None.
Proof. intros H. pose proof (proj1 H) as Hl. unfold close. destruct (_closed s); [now apply serves_quietly|]. rewrite Hl. now apply serves_quietly. Qed.

(** An operation is taken away, and its handler called or the next one started. *)
Lemma served_delete i o s : served s -> pending s !! i = Some o -> let s' := set_pending (delete i (pending s)) s in
  served s' /\ has_stream (streams s) o /\ forall h, answers h s = answers h s' + if on_op h o then 1 else 0.
Proof.
  intros [Hl H] Ho. split; [|split].
  - split; [exact Hl|]. cbn [pending streams set_pending]. now apply Forall_delete.
  - exact (proj1 (Forall_lookup _ _) H i o Ho).
  - intros h. unfold answers. cbn [calls pending set_pending]. rewrite (cnt_delete (on_op h) i _ o Ho). lia.
Qed.
Lemma serves_done (x : option server) s s' o h : served s' -> (forall h', on_op h' o = (h =? h')) -> (forall h', answers h' s = answers h' s' + if on_op h' o then 1 else 0) ->
  serves x s' (Some h) -> serves x s None.
Proof. intros H Ho Ht (s'' & -> & Hs & Ht'). exists s''. split; [easy|]. split; [easy|]. intros h'. rewrite Ht', Ht, Ho. lia. Qed.
Lemma complete_serves i ok s : served s -> allowed (Complete i ok) s = true -> serves (complete ssl i ok s) s None.
Proof.
  intros H Hf. unfold complete. cbn [allowed] in Hf. destruct (pending s !! i) as [o|] eqn:Ho; [|discriminate].
  destruct (served_delete i o s H Ho) as (Hd & Hs & Ht). set (s0 := set_pending (delete i (pending s)) s) in *.
  assert (Hcall : forall h c m, handler c = h -> served (set_streams m s0) -> (forall h', on_op h' o = (h =? h')) -> serves (Some (called c (set_streams m s0))) s None).
  { intros h c m <- Hm Hh. apply (serves_done _ s (set_streams m s0) o (handler c)); auto. now apply serves_called. }
  assert (Hstart : forall h o' m, served (set_streams m s0) -> has_stream m o' -> (forall h', on_op h' o = (h =? h')) -> (forall h', on_op h' o' = (h =? h')) -> serves (Some (start o' (set_streams m s0))) s None).
  { intros h o' m Hm Ho' Hh Hh'. apply (serves_done _ s (set_streams m s0) o h); auto. now apply serves_start. }
  assert (Hq : forall h c, handler c = h -> (forall h', on_op h' o = (h =? h')) -> serves (Some (called c s0)) s None).
  { intros h c Hc Hh. exact (Hcall h c (streams s0) Hc Hd Hh). }
  destruct o as [h|h|h w|h w m|h w|w lft h], ok; cbn [finish has_stream] in *; try now apply (Hq h).
  - destruct ssl; [now apply (Hstart h _ (streams s0))|].
    apply (Hstart h); [now apply served_insert|apply lookup_insert_is_Some'; now left|easy|easy].
  - apply (Hstart h); [now apply served_insert|apply lookup_insert_is_Some'; now left|easy|easy].
  - apply (Hcall h); [easy|now apply served_alter|easy].
  - destruct Hs as [x Hx]. change (streams s) with (streams s0) in Hx. rewrite Hx. apply (Hcall h); [easy|now apply served_insert|easy].
  - apply has_come_spec in Hf as (x & m & l & Hx & Hm). change (streams s) with (streams s0) in Hx. rewrite Hx, Hm.
    apply (Hcall h); [easy|now apply served_insert|easy].
  - easy.
  - easy.
Qed.
Lemma step_serves a s : served s -> allowed a s = true -> serves (take_step a s) s (handed a).
Proof.
  intros H Ha. destruct a; cbn [allowed handed] in *.
  - now apply async_accept_serves.
  - now apply async_accept_at_serves.
  - now apply async_recv_serves.
  - now apply async_send_serves.
  - now apply accept_serves.
  - now apply accept_at_serves.
  - now apply recv_serves.
  - now apply send_serves.
  - now apply close_serves.
  - apply serves_quietly; [now apply served_alter|easy].
  - now apply complete_serves.
Qed.
Lemma steps_serve l s : served s -> all_allowed l s = true -> exists s', take_steps l s = Some s' /\ forall h, answers h s' = answers h s + list_sum (map (hands h) l).
Proof.
  revert s. induction l as [|a l IH]; intros s H Hk; [exists s; split; [easy|]; intros h; cbn; lia|].
  cbn [all_allowed] in Hk. apply andb_true_iff in Hk as [Ha Hk].
  destruct (step_serves a s H Ha) as (s' & E & Hs & Ht). cbn [take_steps]. rewrite E in Hk |- *.
  destruct (IH s' Hs Hk) as (s'' & -> & Ht'). exists s''. split; [easy|].
  intros h. rewrite Ht', Ht. cbn [map list_sum foldr]. unfold hands at 2. change (foldr Nat.add 0) with list_sum. lia.
Qed.

(** Plain or over TLS, whatever is accepted, received and sent, in whichever order the
    operations are completed, with success or not, and whenever it is closed, the server
    never fails while each stream is read, and written, by one operation at a time; and
    each handler is called, or will be, once for each operation it was given to. *)
Theorem ws_server_handlers (l : list step) (H : all_allowed l ws_server = true) :
  exists s, take_steps l ws_server = Some s /\
    forall h, cnt (on_answer h) (calls s) + cnt (on_op h) (pending s) = list_sum (map (hands h) l).
Proof. apply (steps_serve l ws_server); [split; [easy|constructor]|easy]. Qed.
End ServerThm.

Lemma ws_server_handlers_witness :
  let l := [AsyncAcceptAt (Dialer.Listener.v4 80) 1; Complete 0 true; Complete 0 true; AsyncRecv (Some 0) 2; Arrive 0 [1]%Z; AsyncAccept 3; CloseAll; Complete 1 false; Complete 0 true] in
  exists s, take_steps false l Server.ws_server = Some s /\
    forall h, cnt (on_answer h) (Server.calls s) + cnt (on_op h) (Server.pending s) = list_sum (map (hands h) l).
Proof. apply ws_server_handlers. vm_compute. reflexivity. Defined.

Section ServerFindings.
Import Dialer.Listener Server.

Definition is_open_in (s : server) (w : option nat) : bool := match w with Some w => match streams s !! w with Some x => opened x | None => false end | None => false end.
(** The plain server closes the first stream that is open and leaves the others. *)
Lemma plain_closes_first conns lft h s :
  close_conns false conns lft h s =
    match List.find (is_open_in s) conns with Some (Some w) => (false, start (Closing w lft h) s) | _ => (true, s) end.
Proof.
  induction conns as [|[w|] conns IH]; cbn [close_conns List.find is_open_in]; [easy| |exact IH].
  destruct (streams s !! w) as [x|]; [|exact IH]. destruct (opened x); [easy|exact IH].
Qed.
(** With two, its handler is not called when that is closed: it waits for the other, which stays open. *)
Definition with_streams (n : nat) : server := set_acceptor (Some true) (set_streams (list_to_map (map (fun w => (w, Stream true [] [])) (seq 0 n))) ws_server).
Lemma plain_close_waits : exists s, (let* s := async_close false (Some 7) [Some 0; Some 1] (with_streams 2) in complete false 0 true s) = Some s /\
  calls s = [] /\ pending s = [] /\ is_open_in s (Some 1) = true.
Proof. eexists. split; [vm_compute; reflexivity|now split]. Qed.
(** With one it is called, when that is closed. *)
Lemma plain_close_one : exists s s', async_close false (Some 7) [Some 0] (with_streams 1) = Some s /\ calls s = [] /\
  complete false 0 true s = Some s' /\ calls s' = [Called 7 Ok None []].
Proof. do 2 eexists. split; [vm_compute; reflexivity|]. split; [easy|]. split; [vm_compute; reflexivity|easy]. Qed.
(** Over TLS the handler is called before anything is closed, and again after it. *)
Lemma ssl_close_twice : exists s s', async_close true (Some 7) [Some 0; Some 1] (with_streams 2) = Some s /\ calls s = [Called 7 Ok None []] /\ is_open_in s (Some 0) = true /\
  (let* s := complete true 0 true s in complete true 0 true s) = Some s' /\ calls s' = [Called 7 Ok None []; Called 7 Ok None []].
Proof. do 2 eexists. split; [vm_compute; reflexivity|]. split; [easy|]. split; [easy|]. split; [vm_compute; reflexivity|easy]. Qed.
(** An acceptor that cannot be made leaves the mutex locked: the server cannot be closed,
    or destroyed, any more. *)
Lemma accept_keeps_lock : exists s, accept_ep false (v4 80) NotMade true true true ws_server = Some (Throw, s) /\ close s = None.
Proof. eexists. split; [vm_compute; reflexivity|reflexivity]. Qed.
(** And the old endpoint still counts as bound, though nothing listens there. *)
Lemma async_accept_stale : let s := (async_accept_ep (v4 81) NotMade 2 (async_accept_ep (v4 80) Made 1 ws_server).2).2 in
  ready (async_accept_ep (v4 80) Made 3 s).2 = false /\ calls (async_accept_ep (v4 80) Made 3 s).2 = [Called 3 NotConnected None []].
Proof. now split. Qed.
(** Port 0, any free port, is what a server that is bound to nothing is bound to. *)
Lemma port_zero_not_bound taken secured shaken : accept_port false 0 Made taken secured shaken ws_server = Some (Ret (NotConnected, None), ws_server).
Proof. reflexivity. Qed.
(** A failure of the acceptor is thrown, not returned in the error. *)
Lemma accept_throws ssl secured shaken s : ready s = true -> locked s = false -> accept ssl false secured shaken s = Some (Throw, s).
Proof. intros Hr Hl. unfold accept. now rewrite Hr, Hl. Qed.
(** [recv] fails on a message of more than 1024 bytes, which [async_recv] receives. *)
Lemma recv_limit m l w s x : _closed s = false -> pending s = [] -> streams s !! w = Some x -> inbox x = m :: l -> 1024 < length m ->
  recv (Some w) true s = Some (Failed, [], s) /\
  exists s', (let* s := async_recv (Some w) 1 s in complete false 0 true s) = Some s' /\ calls s' = calls s ++ [Called 1 Ok (Some w) m].
Proof.
  intros Hc Hp Hx Hm Hl. unfold recv, async_recv. rewrite Hc, Hx, Hp, Hm. cbn [existsb negb].
  apply Nat.ltb_lt in Hl. rewrite Hl. split; [easy|].
  unfold complete. cbn [pending start set_pending]. rewrite Hp. cbn. rewrite Hx, Hm. eexists. now split.
Qed.
End ServerFindings.
