(* ===== verification/Zmq.v ===== *)
(** * Messages over ZeroMQ

    [net/zmq.hpp]: sockets, multipart messages, channels between threads, the loops
    that move messages between a socket and a channel, the poller, and who closes
    what.  The library's sockets are scripts: what each call that receives gives,
    and whether each call that sends succeeds.  A call of a script that is used up
    blocks for ever, which is [None]. *)

From Stdlib Require Import ZArith Lia List Bool.
From stdpp Require Import base tactics list option gmap.
From S2P Require Import Prelude.

Open Scope hj_scope.
Open Scope nat_scope.

(** ** Messages and sockets *)

Module Zmq.
Export State.

Definition EINTR : Z := 4.
(** A part of a message, and whether more follow; or an error. *)
Definition part : Type := list Z.
Inductive reception := Got (data : part) (more : bool) | Err (errno : Z).
#[global] Instance reception_dec : EqDecision reception.
Proof. solve_decision. Defined.
(** A [zmq_msg_t]: initialised, handed to the library, or closed. *)
Inductive msg := Open (data : part) | Sent | Closed.
(** [rx] is for the socket that is received from, [tx] for the one that is sent to: an
    error or none.  [sent] are the parts with their flag ([ZMQ_SNDMORE]); [owned]
    messages are initialised; [spoilt] counts the closed messages that were closed. *)
Record world := World { rx : list reception; tx : list (option Z); sent : list (part * bool); owned : Z; spoilt : nat }.

Abbreviation M := (State.M world).
(** [while(true)]: the body leaves with a result, or goes on. *)
Fixpoint loop {A} (fuel : nat) (body : M (option A)) : M A :=
  match fuel with
  | O => fun _ => None
  | S fuel => do r <- body; match r with Some a => ret a | None => loop fuel body end
  end.
(** Every turn makes a call that receives or sends. *)
Definition while_true {A} (body : M (option A)) : M A := fun w => loop (S (length (rx w) + length (tx w))) body w.

Definition zmq_msg_init : M msg := fun w => Some (Open [], World (rx w) (tx w) (sent w) (owned w + 1) (spoilt w)).
Definition zmq_msg_init_data (data : part) : M msg := fun w => Some (Open data, World (rx w) (tx w) (sent w) (owned w + 1) (spoilt w)).
Definition zmq_msg_close (m : msg) : M msg := fun w =>
  match m with
  | Open _ => Some (Closed, World (rx w) (tx w) (sent w) (owned w - 1) (spoilt w))
  | Sent => Some (Closed, w)
  | Closed => Some (Closed, World (rx w) (tx w) (sent w) (owned w) (S (spoilt w)))
  end.
Definition zmq_msg_size (m : msg) : nat := match m with Open d => length d | _ => 0 end.
(** What was received; whether more follow stays with the socket ([ZMQ_RCVMORE]). *)
Definition zmq_msg_recv : M (Z + part * bool) := fun w =>
  match rx w with
  | [] => None
  | Err e :: q => Some (inl e, World q (tx w) (sent w) (owned w) (spoilt w))
  | Got d more :: q => Some (inr (d, more), World q (tx w) (sent w) (owned w) (spoilt w))
  end.
(** [zmq_send]: none, or the error. *)
Definition zmq_send (data : part) (more : bool) : M (option Z) := fun w =>
  match tx w with
  | [] => None
  | Some e :: q => Some (Some e, World (rx w) q (sent w) (owned w) (spoilt w))
  | None :: q => Some (None, World (rx w) q (sent w ++ [(data, more)]) (owned w) (spoilt w))
  end.
Definition give : M msg := fun w => Some (Sent, World (rx w) (tx w) (sent w) (owned w - 1) (spoilt w)).
(** A message that is sent is the library's; one that is not stays. *)
Definition zmq_msg_send (m : msg) : M (option Z * msg) :=
  do e <- zmq_send (match m with Open d => d | _ => [] end) false;
  match e with
  | None => do m <- match m with Open _ => give | _ => ret m end; ret (None, m)
  | Some e => ret (Some e, m)
  end.

(** *** [socket_base] *)

Fixpoint send_multipart (parts : list part) : M bool :=
  match parts with
  | [] => ret true
  | p :: parts =>
      do sent <- while_true (
        do e <- zmq_send p (match parts with [] => false | _ => true end);
        ret (match e with None => Some true | Some e => if (e =? EINTR)%Z then None else Some false end));
      if sent then send_multipart parts else ret false
  end.
(** The loop carries what is in [dst]. *)
Fixpoint recv_multipart_loop (fuel : nat) (dst : list part) : M (bool * list part) :=
  match fuel with
  | O => fun _ => None
  | S fuel =>
      do m <- zmq_msg_init;
      do r <- zmq_msg_recv;
      match r with
      | inl e => do _ <- zmq_msg_close m; if (e =? EINTR)%Z then recv_multipart_loop fuel dst else ret (false, dst)
      | inr (d, more) =>
          let dst := dst ++ [d] in
          do _ <- zmq_msg_close (Open d);
          if negb more then ret (true, dst) else recv_multipart_loop fuel dst
      end
  end.
Definition recv_multipart : M (bool * list part) := fun w => recv_multipart_loop (S (length (rx w))) [] w.

(** *** Receiving and sending one message *)

(** [recv(zmq_msg_t &)]: the error, or the message. *)
Definition recv_msg (m : msg) : M (option Z * msg) :=
  while_true (do r <- zmq_msg_recv;
    ret (match r with inr (d, _) => Some (None, Open d) | inl e => if (e =? EINTR)%Z then None else Some (Some e, m) end)).
(** Into a string: the number of bytes, or -1 with the string as it was. *)
Definition recv_string (dst : part) : M (Z * part) :=
  do m <- zmq_msg_init;
  while_true (do r <- zmq_msg_recv;
    match r with
    | inr (d, _) => do _ <- zmq_msg_close (Open d); ret (Some (Z.of_nat (length d), d))
    | inl e => if (e =? EINTR)%Z then ret None else do _ <- zmq_msg_close m; ret (Some ((-1)%Z, dst))
    end).
Definition send_msg (m : msg) : M (option Z * msg) :=
  while_true (do r <- zmq_msg_send m;
    ret (match r with (None, m) => Some (None, m) | (Some e, m) => if (e =? EINTR)%Z then None else Some (Some e, m) end)).
Definition send_string (data : part) : M (option Z) :=
  while_true (do e <- zmq_send data false;
    ret (match e with None => Some None | Some e => if (e =? EINTR)%Z then None else Some (Some e) end)).

(** [r_chan] and [w_chan]: on an error the message is closed. *)
Definition chan_recv (m : msg) : M (bool * msg) :=
  while_true (do r <- zmq_msg_recv;
    match r with
    | inr (d, _) => ret (Some (true, Open d))
    | inl e => if (e =? EINTR)%Z then ret None else do m <- zmq_msg_close m; ret (Some (false, m))
    end).
Definition chan_recv_string (dst : part) : M (bool * part) :=
  do m <- zmq_msg_init;
  while_true (do r <- zmq_msg_recv;
    match r with
    | inr (d, _) => do _ <- zmq_msg_close (Open d); ret (Some (true, d))
    | inl e => if (e =? EINTR)%Z then ret None else do _ <- zmq_msg_close m; ret (Some (false, dst))
    end).
Definition chan_send (m : msg) : M (bool * msg) :=
  while_true (do r <- zmq_msg_send m;
    match r with
    | (None, m) => ret (Some (true, m))
    | (Some e, m) => if (e =? EINTR)%Z then ret None else do m <- zmq_msg_close m; ret (Some (false, m))
    end).
Definition chan_send_string (data : part) : M bool := do m <- zmq_msg_init_data data; do r <- chan_send m; ret (fst r).

(** *** The loops between a socket and a channel *)

(** [consumer::safe_pull] and [subscriber::safe_recv]. *)
Definition safe_pull : M unit :=
  while_true (
    do buf <- zmq_msg_init;
    do r <- recv_msg buf;
    match r with
    | (Some _, buf) => do _ <- zmq_msg_close buf; ret (Some tt)
    | (None, buf) =>
        let is_poison_pill := zmq_msg_size buf =? 0 in
        do r <- chan_send buf;
        match r with
        | (false, buf) => do _ <- zmq_msg_close buf; ret (Some tt)
        | (true, _) => ret (if is_poison_pill then Some tt else None)
        end
    end).
(** [producer::safe_push] and [publisher::safe_pub]. *)
Definition safe_push : M unit :=
  while_true (
    do buf <- zmq_msg_init;
    do r <- chan_recv buf;
    match r with
    | (false, buf) => do _ <- zmq_msg_close buf; ret (Some tt)
    | (true, buf) =>
        let is_poison_pill := zmq_msg_size buf =? 0 in
        do r <- send_msg buf;
        match r with
        | (Some _, buf) => do _ <- zmq_msg_close buf; ret (Some tt)
        | (None, _) => ret (if is_poison_pill then Some tt else None)
        end
    end).
End Zmq.

(** ** [poller] *)

Module Poller.
(** A socket of the library, or null; a descriptor. *)
Record item := Item { socket : option nat; fd : Z; events : Z; revents : Z }.
Record poller := Poller { _items : list item; _user_datas : list (option nat) }.
Definition empty : poller := Poller [] [].
Definition poller_size (p : poller) : nat := length (_items p).
Definition _add (sock : option nat) (f : Z) (ev : Z) (data : option nat) (p : poller) : poller :=
  Poller (_items p ++ [Item sock f ev 0]) (_user_datas p ++ [data]).
Definition matches (sock : option nat) (f : Z) (i : item) : bool :=
  match sock with Some _ => bool_decide (socket i = sock) | None => (fd i =? f)%Z end.
Fixpoint _modify_loop (sock : option nat) (f : Z) (ev : Z) (l : list item) : Z * list item :=
  match l with
  | [] => ((-1)%Z, [])
  | i :: l => if matches sock f i then (0%Z, Item (socket i) (fd i) ev (revents i) :: l)
              else let (r, l) := _modify_loop sock f ev l in (r, i :: l)
  end.
Definition _modify (sock : option nat) (f : Z) (ev : Z) (p : poller) : Z * poller :=
  let (r, l) := _modify_loop sock f ev (_items p) in (r, Poller l (_user_datas p)).
(** The index of the first match; [erase] at an index past the end is undefined. *)
Fixpoint position (sock : option nat) (f : Z) (l : list item) : option nat :=
  match l with [] => None | i :: l => if matches sock f i then Some 0 else S <$> position sock f l end.
Definition erase {A} (i : nat) (l : list A) : option (list A) := if i <? length l then Some (take i l ++ drop (S i) l) else None.
Definition _remove (sock : option nat) (f : Z) (p : poller) : option (Z * poller) :=
  match position sock f (_items p) with
  | None => Some ((-1)%Z, p)
  | Some i => let* l := erase i (_items p) in let* ds := erase i (_user_datas p) in Some (0%Z, Poller l ds)
  end.
(** [add], [modify] and [remove] of a socket, which is null when it was moved from, or
    of a descriptor. *)
Inductive key := Sock (s : option nat) | Fd (f : Z).
#[global] Instance key_dec : EqDecision key.
Proof. solve_decision. Defined.
Definition add (k : key) (ev : Z) (data : option nat) (p : poller) : poller :=
  match k with Sock s => _add s 0 ev data p | Fd f => _add None f ev data p end.
Definition modify (k : key) (ev : Z) (p : poller) : Z * poller := match k with Sock s => _modify s 0 ev p | Fd f => _modify None f ev p end.
Definition remove (k : key) (p : poller) : option (Z * poller) := match k with Sock s => _remove s 0 p | Fd f => _remove None f p end.

(** What the calls of [zmq_poll] give: an error, or the events of each item. *)
Inductive polled := PErr (errno : Z) | Ready (rs : list Z).
Definition set_revents (rs : list Z) (l : list item) : list item :=
  zip_with (fun i r => Item (socket i) (fd i) (events i) r) l rs.
Definition ready_count (rs : list Z) : Z := Z.of_nat (length (filter (fun r => r <> 0%Z) rs)).
Fixpoint poll_loop (calls : list polled) (p : poller) : option (Z * poller) :=
  match calls with
  | [] => None
  | PErr e :: calls => if (e =? 4)%Z then poll_loop calls p else Some ((-1)%Z, p)
  | Ready rs :: _ => Some (ready_count rs, Poller (set_revents rs (_items p)) (_user_datas p))
  end.
Definition poll (calls : list polled) (p : poller) : option (Z * poller) :=
  match _items p with [] => Some (0%Z, p) | _ => poll_loop calls p end.
(** The data and events of the first item that is ready, if any. *)
Fixpoint first_ready (l : list item) (ds : list (option nat)) : option (option (option nat * Z)) :=
  match l with
  | [] => Some None
  | i :: l =>
      if (revents i =? 0)%Z then first_ready l (tail ds) else
      match ds with [] => None | d :: _ => Some (Some (d, revents i)) end
  end.
Definition wait_for (calls : list polled) (p : poller) : option (Z * option (option nat * Z) * poller) :=
  let* (rc, p) := poll calls p in
  if (rc <=? 0)%Z then Some (rc, None, p) else
  let* r := first_ready (_items p) (_user_datas p) in Some (rc, r, p).
End Poller.

(** ** Contexts and sockets *)

Module Handles.
(** Shared pointers, by their holder, to context objects; context objects with their
    [_ctx]; socket objects with their [_ctx] and [_sock]; and what the library has:
    contexts, and sockets with their context. *)
Record st := St { ptrs : gmap nat nat; ctxs : gmap nat (option nat); socks : gmap nat (option nat * option nat); lib_ctx : gset nat; lib_sock : gmap nat nat }.
Definition start : st := St ∅ ∅ ∅ ∅ ∅.
(** [zmq_ctx_term] of a context that is not there is undefined; while a socket of the
    context is open it blocks.  Both are [None]. *)
Definition zmq_ctx_term (c : nat) (s : st) : option st :=
  if decide (c ∈ lib_ctx s) then
    if decide (map_Forall (fun _ c' => c' <> c) (lib_sock s)) then Some (St (ptrs s) (ctxs s) (socks s) (lib_ctx s ∖ {[c]}) (lib_sock s)) else None
  else None.
Definition zmq_close (z : nat) (s : st) : option st :=
  match lib_sock s !! z with Some _ => Some (St (ptrs s) (ctxs s) (socks s) (lib_ctx s) (delete z (lib_sock s))) | None => None end.
(** [~context]. *)
Definition context_destroy (o : nat) (s : st) : option st :=
  let* c := ctxs s !! o in
  let* s := match c with Some c => zmq_ctx_term c s | None => Some s end in
  Some (St (ptrs s) (delete o (ctxs s)) (socks s) (lib_ctx s) (lib_sock s)).
(** The last of the pointers that goes destroys the context. *)
Definition held (o : nat) (s : st) : bool :=
  negb (bool_decide (map_Forall (fun _ o' => o' <> o) (ptrs s))) || negb (bool_decide (map_Forall (fun _ '(p, _) => p <> Some o) (socks s))).
Definition release (o : option nat) (s : st) : option st :=
  match o with Some o => if held o s then Some s else context_destroy o s | None => Some s end.
(** [context::create], into a pointer that is empty; copies of pointers; their end. *)
Definition create (p : nat) (s : st) : option st :=
  match ptrs s !! p with
  | Some _ => None
  | None => let o := fresh (dom (ctxs s)) in let c := fresh (lib_ctx s) in
      Some (St (<[p := o]> (ptrs s)) (<[o := Some c]> (ctxs s)) (socks s) ({[c]} ∪ lib_ctx s) (lib_sock s))
  end.
Definition share (p q : nat) (s : st) : option st :=
  match ptrs s !! q with
  | Some _ => None
  | None => let* o := ptrs s !! p in Some (St (<[q := o]> (ptrs s)) (ctxs s) (socks s) (lib_ctx s) (lib_sock s))
  end.
Definition drop_ptr (p : nat) (s : st) : option st :=
  let* o := ptrs s !! p in release (Some o) (St (delete p (ptrs s)) (ctxs s) (socks s) (lib_ctx s) (lib_sock s)).
(** [socket_base(ctx, type)], from a copy of a pointer: whether the library makes the
    socket.  When it throws there is no object. *)
Definition socket_base (n p : nat) (made : bool) (s : st) : option st :=
  match socks s !! n with
  | Some _ => None
  | None =>
      let* o := ptrs s !! p in
      let* c := ctxs s !! o in
      match c with
      | Some c => if made then let z := fresh (dom (lib_sock s)) in Some (St (ptrs s) (ctxs s) (<[n := (Some o, Some z)]> (socks s)) (lib_ctx s) (<[z := c]> (lib_sock s)))
                  else Some s
      | None => Some s
      end
  end.
Definition close_ptr (z : option nat) (s : st) : option st := match z with Some z => zmq_close z s | None => Some s end.
(** [~socket_base]: the body closes the socket, then the pointer goes. *)
Definition socket_destroy (n : nat) (s : st) : option st :=
  let* (o, z) := socks s !! n in
  let* s := close_ptr z s in
  release o (St (ptrs s) (ctxs s) (delete n (socks s)) (lib_ctx s) (lib_sock s)).
Definition socket_move (n m : nat) (s : st) : option st :=
  match socks s !! n with
  | Some _ => None
  | None => let* v := socks s !! m in Some (St (ptrs s) (ctxs s) (<[n := v]> (<[m := (None, None)]> (socks s))) (lib_ctx s) (lib_sock s))
  end.
Definition socket_assign (n m : nat) (s : st) : option st :=
  if decide (n = m) then Some s else
  let* (o, z) := socks s !! n in
  let* v := socks s !! m in
  let* s := close_ptr z s in
  release o (St (ptrs s) (ctxs s) (<[n := v]> (<[m := (None, None)]> (socks s))) (lib_ctx s) (lib_sock s)).
(** [context::operator=] of the contexts behind two pointers. *)
Definition context_assign (p q : nat) (s : st) : option st :=
  let* a := ptrs s !! p in let* b := ptrs s !! q in
  if decide (a = b) then Some s else
  let* ca := ctxs s !! a in let* cb := ctxs s !! b in
  let* s := match ca with Some c => zmq_ctx_term c s | None => Some s end in
  Some (St (ptrs s) (<[a := cb]> (<[b := None]> (ctxs s))) (socks s) (lib_ctx s) (lib_sock s)).
Inductive action := Create (p : nat) | Share (p q : nat) | Drop (p : nat) | NewSocket (n p : nat) (made : bool) | EndSocket (n : nat) | MoveSocket (n m : nat) | AssignSocket (n m : nat).
Definition act (a : action) : st -> option st :=
  match a with
  | Create p => create p | Share p q => share p q | Drop p => drop_ptr p | NewSocket n p made => socket_base n p made
  | EndSocket n => socket_destroy n | MoveSocket n m => socket_move n m | AssignSocket n m => socket_assign n m
  end.
Fixpoint acts (l : list action) (s : st) : option st := match l with [] => Some s | a :: l => let* s := act a s in acts l s end.
End Handles.

(** ** [broker] *)

Module Broker.
(** The results of the calls of [zmq_proxy] (0, or -1 with the error) until one is
    returned. *)
Fixpoint proxy (calls : list (option Z)) : option Z :=
  match calls with
  | [] => None
  | None :: _ => Some 0%Z
  | Some e :: calls => if (e =? Zmq.EINTR)%Z then proxy calls else Some (-1)%Z
  end.
(** The two bindings: the front end is bound when the back end was. *)
Definition bind (back front : Z) : Z * bool := if negb (back =? 0)%Z then (back, false) else (front, true).
End Broker.
