(* ===== verification/ZmqThm.v ===== *)
(** * Messages over ZeroMQ: theorems

    Interrupted calls are made again; a multipart message that is sent is the one
    that is received; the loops between a socket and a channel move the messages in
    order up to the first empty one, or to the first error, and close what they
    initialise; the poller is an association list. *)

From Stdlib Require Import ZArith Lia List Bool.
From stdpp Require Import base tactics list option gmap.
From S2P Require Import Prelude Zmq.

Open Scope hj_scope.
Open Scope nat_scope.

(** ** Loops *)

Section Loops.
Import Zmq.

Definition size_of (w : world) : nat := length (rx w) + length (tx w).
(** A turn that goes on has made a call. *)
Definition consuming {A} (body : M (option A)) : Prop := forall w r w', body w = Some (r, w') -> r = None -> size_of w' < size_of w.

Lemma loop_enough {A} (body : M (option A)) n k w : consuming body -> size_of w < n -> size_of w < k -> loop n body w = loop k body w.
Proof.
  intros Hb. revert k w. induction n as [|n IH]; intros k w Hn Hk; [lia|]. destruct k as [|k]; [lia|].
  cbn [loop]. unfold bind. destruct (body w) as [[[a|] w']|] eqn:E; try reflexivity.
  specialize (Hb w None w' E eq_refl). apply IH; lia.
Qed.

Lemma while_unfold {A} (body : M (option A)) w : consuming body ->
  while_true body w = match body w with
    | None => None | Some (Some a, w') => Some (a, w') | Some (None, w') => while_true body w' end.
Proof.
  intros Hb. unfold while_true at 1. cbn [loop]. unfold bind. destruct (body w) as [[[a|] w']|] eqn:E; try reflexivity.
  pose proof (Hb w None w' E eq_refl) as Hlt. unfold while_true. apply loop_enough; auto; unfold size_of in Hlt |- *; lia.
Qed.

(** ** What a call that is made again gives *)

Fixpoint next (l : list reception) : option (reception * list reception) :=
  match l with
  | [] => None
  | Err e :: q => if (e =? EINTR)%Z then next q else Some (Err e, q)
  | r :: q => Some (r, q)
  end.
Fixpoint next_tx (l : list (option Z)) : option (option Z * list (option Z)) :=
  match l with
  | [] => None
  | Some e :: q => if (e =? EINTR)%Z then next_tx q else Some (Some e, q)
  | None :: q => Some (None, q)
  end.

Lemma next_shorter l r q : next l = Some (r, q) -> length q < length l.
Proof. induction l as [|[d more|e] l IH]; cbn; [discriminate|intros [= <- <-]; lia|]. destruct (e =? EINTR)%Z; [intros H; apply IH in H; lia|intros [= <- <-]; lia]. Qed.
Lemma next_tx_shorter l r q : next_tx l = Some (r, q) -> length q < length l.
Proof. induction l as [|[e|] l IH]; cbn; [discriminate| |intros [= <- <-]; lia]. destruct (e =? EINTR)%Z; [intros H; apply IH in H; lia|intros [= <- <-]; lia]. Qed.

(** The bodies of the loops over one call: on an interruption nothing but the script
    changes, on another result the loop leaves. *)
Lemma receive_loop {A} (body : M (option A)) (fin : reception -> world -> option (A * world)) :
  (forall w, body w = match rx w with
     | [] => None
     | r :: q => let w' := World q (tx w) (sent w) (owned w) (spoilt w) in
         match r with
         | Err e => if (e =? EINTR)%Z then Some (None, w') else option_map (fun '(a, w) => (Some a, w)) (fin r w')
         | Got _ _ => option_map (fun '(a, w) => (Some a, w)) (fin r w')
         end
     end) ->
  forall w, while_true body w = match next (rx w) with
    | None => None | Some (r, q) => fin r (World q (tx w) (sent w) (owned w) (spoilt w)) end.
Proof.
  intros Hb.
  assert (Hc : consuming body).
  { intros w r w'. rewrite Hb. unfold size_of. destruct (rx w) as [|[d more|e] q]; [discriminate| |].
    - destruct (fin _ _) as [[a w2]|]; [|discriminate]. intros [= <- <-]. discriminate.
    - destruct (e =? EINTR)%Z; [intros [= <- <-] _; cbn; lia|]. destruct (fin _ _) as [[a w2]|]; [|discriminate]. intros [= <- <-]. discriminate. }
  intros w. destruct w as [l t s ow sp]. cbn [rx tx sent owned spoilt]. induction l as [|[d more|e] q IH]; rewrite while_unfold, Hb by exact Hc; cbn [rx tx sent owned spoilt next].
  - reflexivity.
  - now destruct (fin _ _) as [[a w2]|].
  - destruct (e =? EINTR)%Z; [exact IH|]. now destruct (fin _ _) as [[a w2]|].
Qed.

Lemma send_loop {A} (body : M (option A)) (fin : option Z -> world -> option (A * world)) :
  (forall w, body w = match tx w with
     | [] => None
     | r :: q => let w' := World (rx w) q (sent w) (owned w) (spoilt w) in
         match r with
         | Some e => if (e =? EINTR)%Z then Some (None, w') else option_map (fun '(a, w) => (Some a, w)) (fin r w')
         | None => option_map (fun '(a, w) => (Some a, w)) (fin r w')
         end
     end) ->
  forall w, while_true body w = match next_tx (tx w) with
    | None => None | Some (r, q) => fin r (World (rx w) q (sent w) (owned w) (spoilt w)) end.
Proof.
  intros Hb.
  assert (Hc : consuming body).
  { intros w r w'. rewrite Hb. unfold size_of. destruct (tx w) as [|[e|] q]; [discriminate| |].
    - destruct (e =? EINTR)%Z; [intros [= <- <-] _; cbn; lia|]. destruct (fin _ _) as [[a w2]|]; [|discriminate]. intros [= <- <-]. discriminate.
    - destruct (fin _ _) as [[a w2]|]; [|discriminate]. intros [= <- <-]. discriminate. }
  intros w. destruct w as [t l s ow sp]. cbn [rx tx sent owned spoilt]. induction l as [|[e|] q IH]; rewrite while_unfold, Hb by exact Hc; cbn [rx tx sent owned spoilt next_tx].
  - reflexivity.
  - destruct (e =? EINTR)%Z; [exact IH|]. now destruct (fin _ _) as [[a w2]|].
  - now destruct (fin _ _) as [[a w2]|].
Qed.

(** *** The operations *)

Lemma recv_msg_eval m w : recv_msg m w = match next (rx w) with
  | None => None
  | Some (r, q) => Some (match r with Got d _ => (None, Open d) | Err e => (Some e, m) end, World q (tx w) (sent w) (owned w) (spoilt w)) end.
Proof.
  unfold recv_msg. rewrite (receive_loop _ (fun r w => Some (match r with Got d _ => (None, Open d) | Err e => (Some e, m) end, w))); [reflexivity|].
  intros w'. unfold bind, zmq_msg_recv, ret. destruct (rx w') as [|[d more|e] q]; [reflexivity|reflexivity|]. now destruct (e =? EINTR)%Z.
Qed.

Lemma chan_recv_eval m w : chan_recv m w = match next (rx w) with
  | None => None
  | Some (Got d _, q) => Some ((true, Open d), World q (tx w) (sent w) (owned w) (spoilt w))
  | Some (Err _, q) => bind (zmq_msg_close m) (fun m => ret (false, m)) (World q (tx w) (sent w) (owned w) (spoilt w)) end.
Proof.
  unfold chan_recv. rewrite (receive_loop _ (fun r => match r with Got d _ => ret (true, Open d) | Err e => bind (zmq_msg_close m) (fun m => ret (false, m)) end)).
  { destruct (next (rx w)) as [[[d more|e] q]|]; reflexivity. }
  intros w'. unfold bind at 1, zmq_msg_recv. destruct (rx w') as [|[d more|e] q]; [reflexivity|reflexivity|]. destruct (e =? EINTR)%Z; [reflexivity|]. now destruct m.
Qed.

(** What is sent of a message. *)
Definition data_of (m : msg) : part := match m with Open d => d | _ => [] end.
(** A message that is sent is no longer owned. *)
Definition handed (m : msg) (o : Z) : Z := match m with Open _ => (o - 1)%Z | _ => o end.
Definition after (m : msg) : msg := match m with Open _ => Sent | _ => m end.

Lemma msg_send_eval m w : zmq_msg_send m w = match tx w with
  | [] => None
  | Some e :: q => Some ((Some e, m), World (rx w) q (sent w) (owned w) (spoilt w))
  | None :: q => Some ((None, after m), World (rx w) q (sent w ++ [(data_of m, false)]) (handed m (owned w)) (spoilt w)) end.
Proof. unfold zmq_msg_send, bind, zmq_send, ret. destruct (tx w) as [|[e|] q]; [reflexivity|reflexivity|]. now destruct m. Qed.

Lemma send_msg_eval m w : send_msg m w = match next_tx (tx w) with
  | None => None
  | Some (Some e, q) => Some ((Some e, m), World (rx w) q (sent w) (owned w) (spoilt w))
  | Some (None, q) => Some ((None, after m), World (rx w) q (sent w ++ [(data_of m, false)]) (handed m (owned w)) (spoilt w)) end.
Proof.
  unfold send_msg. rewrite (send_loop _ (fun r w => match r with
    | Some e => Some ((Some e, m), w)
    | None => Some ((None, after m), World (rx w) (tx w) (sent w ++ [(data_of m, false)]) (handed m (owned w)) (spoilt w)) end)).
  { destruct (next_tx (tx w)) as [[[e|] q]|]; reflexivity. }
  intros w'. unfold bind at 1. rewrite msg_send_eval. destruct (tx w') as [|[e|] q]; [reflexivity| |reflexivity]. unfold ret. now destruct (e =? EINTR)%Z.
Qed.

Lemma chan_send_eval m w : chan_send m w = match next_tx (tx w) with
  | None => None
  | Some (Some e, q) => bind (zmq_msg_close m) (fun m => ret (false, m)) (World (rx w) q (sent w) (owned w) (spoilt w))
  | Some (None, q) => Some ((true, after m), World (rx w) q (sent w ++ [(data_of m, false)]) (handed m (owned w)) (spoilt w)) end.
Proof.
  unfold chan_send. rewrite (send_loop _ (fun r w => match r with
    | Some e => bind (zmq_msg_close m) (fun m => ret (false, m)) w
    | None => Some ((true, after m), World (rx w) (tx w) (sent w ++ [(data_of m, false)]) (handed m (owned w)) (spoilt w)) end)).
  { destruct (next_tx (tx w)) as [[[e|] q]|]; reflexivity. }
  intros w'. unfold bind at 1. rewrite msg_send_eval. destruct (tx w') as [|[e|] q]; [reflexivity| |reflexivity].
  destruct (e =? EINTR)%Z; [reflexivity|]. now destruct m.
Qed.

(** ** Between a socket and a channel *)

(** The messages up to the first error or the first empty one; whether there is
    such an end; how many messages are taken before an error. *)
Fixpoint heard (l : list reception) : list part :=
  match l with
  | [] => []
  | Err e :: q => if (e =? EINTR)%Z then heard q else []
  | Got d _ :: q => d :: (if length d =? 0 then [] else heard q)
  end.
Fixpoint stops (l : list reception) : bool :=
  match l with
  | [] => false
  | Err e :: q => if (e =? EINTR)%Z then stops q else true
  | Got d _ :: q => if length d =? 0 then true else stops q
  end.
Fixpoint room (l : list (option Z)) : nat :=
  match l with [] => 0 | Some e :: q => if (e =? EINTR)%Z then room q else 0 | None :: q => S (room q) end.

Lemma heard_next l : heard l = match next l with Some (Got d _, q) => d :: (if length d =? 0 then [] else heard q) | _ => [] end.
Proof. induction l as [|[d more|e] q IH]; cbn [heard next]; [reflexivity..|]. now destruct (e =? EINTR)%Z. Qed.
Lemma stops_next l : stops l = match next l with Some (Got d _, q) => if length d =? 0 then true else stops q | Some (Err _, _) => true | None => false end.
Proof. induction l as [|[d more|e] q IH]; cbn [stops next]; [reflexivity..|]. now destruct (e =? EINTR)%Z. Qed.
Lemma room_next l : room l = match next_tx l with Some (None, q) => S (room q) | _ => 0 end.
Proof. induction l as [|[e|] q IH]; cbn [room next_tx]; [reflexivity| |reflexivity]. now destruct (e =? EINTR)%Z. Qed.

(** One turn: [a] and [b] messages are closed twice on an error of the one side, of
    the other. *)
Definition turn (a b : nat) : M (option unit) := fun w =>
  match next (rx w) with
  | None => None
  | Some (Err _, q) => Some (Some tt, World q (tx w) (sent w) (owned w) (a + spoilt w))
  | Some (Got d _, q) =>
      match next_tx (tx w) with
      | None => None
      | Some (Some _, t) => Some (Some tt, World q t (sent w) (owned w) (b + spoilt w))
      | Some (None, t) => Some (if length d =? 0 then Some tt else None, World q t (sent w ++ [(d, false)]) (owned w) (spoilt w))
      end
  end.

Lemma turn_consuming body a b : (forall w, body w = turn a b w) -> consuming body.
Proof.
  intros Hb w r w'. rewrite Hb. unfold turn, size_of. destruct (next (rx w)) as [[[d more|e] q]|] eqn:En; try discriminate; apply next_shorter in En.
  - destruct (next_tx (tx w)) as [[[e|] t]|] eqn:Et; try discriminate; apply next_tx_shorter in Et; intros [= <- <-] H; try discriminate. cbn. lia.
  - intros [= <- <-] H. discriminate.
Qed.

Lemma add_sub_one (z : Z) : (z + 1 - 1)%Z = z.
Proof. lia. Qed.

Lemma safe_pull_turn w : (do buf <- zmq_msg_init;
    do r <- recv_msg buf;
    match r with
    | (Some _, buf) => do _ <- zmq_msg_close buf; ret (Some tt)
    | (None, buf) =>
        let is_poison_pill := zmq_msg_size buf =? 0 in
        do r <- chan_send buf;
        match r with
        | (false, buf) => do _ <- zmq_msg_close buf; ret (Some tt)
        | (true, _) => ret (if is_poison_pill then Some tt else None)
        end
    end) w = turn 0 1 w.
Proof.
  unfold bind at 1, zmq_msg_init. unfold bind at 1. rewrite recv_msg_eval. unfold turn. cbn [rx tx sent owned spoilt].
  destruct (next (rx w)) as [[[d more|e] q]|]; [| |reflexivity].
  - cbn [zmq_msg_size]. unfold bind at 1. rewrite chan_send_eval. cbn [rx tx sent owned spoilt data_of handed after].
    destruct (next_tx (tx w)) as [[[e|] t]|]; [| |reflexivity].
    + unfold bind, zmq_msg_close, ret. cbn [rx tx sent owned spoilt]. now rewrite add_sub_one.
    + unfold ret. now rewrite add_sub_one.
  - unfold bind, zmq_msg_close, ret. cbn [rx tx sent owned spoilt]. now rewrite add_sub_one.
Qed.

Lemma safe_push_turn w : (do buf <- zmq_msg_init;
    do r <- chan_recv buf;
    match r with
    | (false, buf) => do _ <- zmq_msg_close buf; ret (Some tt)
    | (true, buf) =>
        let is_poison_pill := zmq_msg_size buf =? 0 in
        do r <- send_msg buf;
        match r with
        | (Some _, buf) => do _ <- zmq_msg_close buf; ret (Some tt)
        | (None, _) => ret (if is_poison_pill then Some tt else None)
        end
    end) w = turn 1 0 w.
Proof.
  unfold bind at 1, zmq_msg_init. unfold bind at 1. rewrite chan_recv_eval. unfold turn. cbn [rx tx sent owned spoilt].
  destruct (next (rx w)) as [[[d more|e] q]|]; [| |reflexivity].
  - cbn [zmq_msg_size]. unfold bind at 1. rewrite send_msg_eval. cbn [rx tx sent owned spoilt data_of handed after].
    destruct (next_tx (tx w)) as [[[e|] t]|]; [| |reflexivity].
    + unfold bind, zmq_msg_close, ret. cbn [rx tx sent owned spoilt]. now rewrite add_sub_one.
    + unfold ret. now rewrite add_sub_one.
  - unfold bind, zmq_msg_close, ret. cbn [rx tx sent owned spoilt]. now rewrite add_sub_one.
Qed.

(** Every run moves messages heard, in order, and closes what it initialised; with an
    end and room for them it moves them all. *)
Lemma bridge_moves body a b w : (forall w, body w = turn a b w) -> a + b <= 1 ->
  (forall w', while_true body w = Some (tt, w') -> exists l, sent w' = sent w ++ ((., false) <$> l) /\ l `prefix_of` heard (rx w)
     /\ owned w' = owned w /\ spoilt w' <= S (spoilt w))
  /\ (stops (rx w) = true -> length (heard (rx w)) <= room (tx w) ->
     exists w', while_true body w = Some (tt, w') /\ sent w' = sent w ++ ((., false) <$> heard (rx w)) /\ owned w' = owned w).
Proof.
  intros Hb Hab. remember (length (rx w)) as n eqn:En. revert w En.
  induction (lt_wf n) as [n _ IH]. intros w ->. rewrite while_unfold, Hb by (eapply turn_consuming, Hb). rewrite heard_next, stops_next. unfold turn.
  destruct (next (rx w)) as [[[d more|e] q]|] eqn:Enx; [| |split; discriminate].
  - pose proof (next_shorter _ _ _ Enx) as Hlt. rewrite room_next. destruct (next_tx (tx w)) as [[[e|] t]|].
    + split; [|cbn; lia]. intros w' [= <-]. exists []. cbn. rewrite app_nil_r. split_and!; auto using prefix_nil; lia.
    + destruct (length d =? 0) eqn:Ed.
      * split; [intros w' [= <-]; exists [d]; cbn; split_and!; auto; reflexivity|]. intros _ _. eexists. split; [reflexivity|]. auto.
      * destruct (IH (length q) Hlt (World q t (sent w ++ [(d, false)]) (owned w) (spoilt w)) eq_refl) as [IH1 IH2]. cbn [rx tx sent owned spoilt] in *. split.
        -- intros w' E. destruct (IH1 w' E) as (l & H1 & H2 & H3 & H4). exists (d :: l). split_and!; auto.
           ++ rewrite H1, <- app_assoc. reflexivity.
           ++ now apply prefix_cons.
        -- intros Hs Hr. cbn in Hr. destruct (IH2 Hs ltac:(lia)) as (w' & E & H1 & H2). exists w'. split_and!; auto.
           rewrite H1, <- app_assoc. reflexivity.
    + split; [discriminate|cbn; lia].
  - split.
    + intros w' [= <-]. exists []. cbn. rewrite app_nil_r. split_and!; auto using prefix_nil; lia.
    + intros _ _. eexists. split; [reflexivity|]. cbn. now rewrite app_nil_r.
Qed.

(** ** Multipart messages *)

(** The parts as they are sent. *)
Fixpoint frames (parts : list part) : list (part * bool) :=
  match parts with [] => [] | p :: parts => (p, match parts with [] => false | _ => true end) :: frames parts end.
(** A script without its interruptions. *)
Definition clean (l : list reception) : list reception := filter (fun r => r <> Err EINTR) l.
Definition got (l : list (part * bool)) : list reception := (fun '(d, more) => Got d more) <$> l.

Lemma send_part_eval p more w : while_true (do e <- zmq_send p more;
    ret (match e with None => Some true | Some e => if (e =? EINTR)%Z then None else Some false end)) w
  = match next_tx (tx w) with
    | None => None
    | Some (Some e, q) => Some (false, World (rx w) q (sent w) (owned w) (spoilt w))
    | Some (None, q) => Some (true, World (rx w) q (sent w ++ [(p, more)]) (owned w) (spoilt w)) end.
Proof.
  rewrite (send_loop _ (fun r w => match r with Some e => Some (false, w) | None => Some (true, World (rx w) (tx w) (sent w ++ [(p, more)]) (owned w) (spoilt w)) end)).
  { destruct (next_tx (tx w)) as [[[e|] q]|]; reflexivity. }
  intros w'. unfold bind, zmq_send, ret. destruct (tx w') as [|[e|] q]; [reflexivity| |reflexivity]. now destruct (e =? EINTR)%Z.
Qed.

Lemma send_multipart_ok parts w : length parts <= room (tx w) ->
  exists q, send_multipart parts w = Some (true, World (rx w) q (sent w ++ frames parts) (owned w) (spoilt w)).
Proof.
  revert w. induction parts as [|p parts IH]; intros w Hr; cbn [send_multipart].
  - exists (tx w). unfold ret. rewrite app_nil_r. now destruct w.
  - unfold bind at 1. rewrite send_part_eval. rewrite room_next in Hr. cbn [length] in Hr.
    destruct (next_tx (tx w)) as [[[e|] q]|]; [lia| |lia].
    destruct (IH (World (rx w) q (sent w ++ [(p, match parts with [] => false | _ => true end)]) (owned w) (spoilt w)) ltac:(cbn; lia)) as (q' & ->).
    exists q'. cbn [rx sent owned spoilt]. now rewrite <- app_assoc.
Qed.

(** When a part cannot be sent the ones before it have been. *)
Lemma send_multipart_fails parts w r w' : send_multipart parts w = Some (r, w') ->
  exists k, sent w' = sent w ++ take k (frames parts) /\ (r = false -> k < length parts).
Proof.
  revert w. induction parts as [|p parts IH]; intros w; cbn [send_multipart].
  - intros [= <- <-]. exists 0. rewrite app_nil_r. split; [reflexivity|discriminate].
  - unfold bind at 1. rewrite send_part_eval. destruct (next_tx (tx w)) as [[[e|] q]|]; try discriminate.
    + intros [= <- <-]. exists 0. rewrite app_nil_r. split; [reflexivity|]. cbn. lia.
    + intros H. destruct (IH _ H) as (k & Hk & Hf). exists (S k). cbn [sent] in Hk. rewrite Hk, <- app_assoc. split; [reflexivity|].
      intros ->. specialize (Hf eq_refl). cbn. lia.
Qed.

Lemma recv_multipart_ok fuel parts dst w r : parts <> [] -> length (rx w) < fuel -> clean (rx w) = got (frames parts) ++ r ->
  exists q, recv_multipart_loop fuel dst w = Some ((true, dst ++ parts), World q (tx w) (sent w) (owned w) (spoilt w)) /\ clean q = r.
Proof.
  revert parts dst w. induction fuel as [|fuel IH]; intros parts dst [l t s ow sp] Hne Hf Hc; cbn [rx tx sent owned spoilt] in *; [lia|].
  destruct parts as [|p parts]; [congruence|]. cbn [recv_multipart_loop]. unfold bind, zmq_msg_init, zmq_msg_recv; cbn [rx tx sent owned spoilt].
  destruct l as [|[d more|e] l]; [discriminate| |]; cbn [length] in Hf; unfold clean in Hc.
  - rewrite filter_cons_True in Hc by discriminate. cbn [frames got fmap list_fmap app] in Hc. injection Hc as -> -> Hc.
    cbn [zmq_msg_close owned rx tx sent spoilt]. rewrite add_sub_one. destruct parts as [|p2 parts]; cbn [negb].
    + exists l. split; [reflexivity|exact Hc].
    + destruct (IH (p2 :: parts) (dst ++ [p]) (World l t s ow sp) ltac:(discriminate) ltac:(cbn; lia) Hc) as (q & E & Hq).
      exists q. split; [|exact Hq]. rewrite E. cbn [tx sent owned spoilt]. now rewrite <- app_assoc.
  - destruct (decide (e = EINTR)) as [->|Hn].
    + rewrite filter_cons_False in Hc by (intros H; now apply H). cbn [zmq_msg_close owned rx tx sent spoilt]. rewrite add_sub_one, Z.eqb_refl.
      apply (IH (p :: parts) dst (World l t s ow sp)); [discriminate|cbn; lia|exact Hc].
    + rewrite filter_cons_True in Hc by congruence. discriminate.
Qed.

Lemma got_app l k : got (l ++ k) = got l ++ got k.
Proof. apply fmap_app. Qed.

(** A multipart message whose parts all have room is sent whole, as its parts in
    order, each but the last with [ZMQ_SNDMORE]; and a socket that has those parts
    gives the message back, between any interruptions, and leaves exactly what comes
    after.  Nothing that was initialised stays open. *)
Theorem zmq_multipart parts w r w2 : parts <> [] -> length parts <= room (tx w) ->
  exists q, send_multipart parts w = Some (true, World (rx w) q (sent w ++ frames parts) (owned w) (spoilt w))
  /\ (clean (rx w2) = got (frames parts ++ r) ->
      exists q2, recv_multipart w2 = Some ((true, parts), World q2 (tx w2) (sent w2) (owned w2) (spoilt w2)) /\ clean q2 = got r).
Proof.
  intros Hne Hr. destruct (send_multipart_ok parts w Hr) as (q & E). exists q. split; [exact E|]. rewrite got_app. intros Hc.
  unfold recv_multipart. apply (recv_multipart_ok _ parts [] w2 (got r) Hne); [lia|exact Hc].
Qed.

Lemma zmq_multipart_witness :
  exists q q2, send_multipart [[1]; []; [2; 3]]%Z (World [] [None; Some EINTR; None; None] [] 0 0)
    = Some (true, World [] q [([1]%Z, true); ([], true); ([2; 3]%Z, false)] 0 0)
  /\ recv_multipart (World [Err EINTR; Got [1]%Z true; Got [] true; Err EINTR; Got [2; 3]%Z false; Got [9]%Z false] [] [] 0 0)
    = Some ((true, [[1]; []; [2; 3]]%Z), World q2 [] [] 0 0) /\ clean q2 = [Got [9]%Z false].
Proof.
  destruct (zmq_multipart [[1]; []; [2; 3]]%Z (World [] [None; Some EINTR; None; None] [] 0 0) [([9]%Z, false)]
    (World [Err EINTR; Got [1]%Z true; Got [] true; Err EINTR; Got [2; 3]%Z false; Got [9]%Z false] [] [] 0 0)) as (q & E & H).
  - discriminate.
  - vm_compute. lia.
  - destruct (H ltac:(reflexivity)) as (q2 & E2 & H2). exists q, q2. split; [exact E|]. split; [exact E2|exact H2].
Defined.

(** The loops that move messages between a socket and a channel ([safe_pull],
    [safe_recv]; [safe_push], [safe_pub]) hand over what they hear and nothing else: in
    order, each message once, up to and with the first empty one, or up to the first
    error on either side, calls that are interrupted made again.  When what is heard
    has an end and there is room for it they return having moved all of it.  They leave
    no message open. *)
Theorem zmq_bridge body w : body = safe_pull \/ body = safe_push ->
  (forall w', body w = Some (tt, w') -> exists l, sent w' = sent w ++ ((., false) <$> l) /\ l `prefix_of` heard (rx w)
     /\ owned w' = owned w /\ spoilt w' <= S (spoilt w))
  /\ (stops (rx w) = true -> length (heard (rx w)) <= room (tx w) ->
     exists w', body w = Some (tt, w') /\ sent w' = sent w ++ ((., false) <$> heard (rx w)) /\ owned w' = owned w).
Proof.
  intros [-> | ->].
  - apply (bridge_moves _ 0 1); [exact safe_pull_turn|lia].
  - apply (bridge_moves _ 1 0); [exact safe_push_turn|lia].
Qed.

Lemma zmq_bridge_witness :
  let w := World [Got [1]%Z false; Err EINTR; Got [2]%Z true; Got [] false; Got [3]%Z false] [None; None; Some EINTR; None; None] [] 0 0 in
  heard (rx w) = [[1]; [2]; []]%Z /\ exists w', safe_pull w = Some (tt, w') /\ sent w' = [([1], false); ([2], false); ([], false)]%Z /\ owned w' = 0%Z.
Proof.
  split; [reflexivity|]. destruct (zmq_bridge safe_pull (World [Got [1]%Z false; Err EINTR; Got [2]%Z true; Got [] false; Got [3]%Z false] [None; None; Some EINTR; None; None] [] 0 0) (or_introl eq_refl)) as [_ H].
  destruct (H eq_refl ltac:(vm_compute; lia)) as (w' & E & Hs & Ho). exists w'. split; [exact E|]. split; [exact Hs|exact Ho].
Defined.

(** A message received into a string is the next one, and is closed; an error leaves
    the string as it was. *)
Lemma recv_string_eval dst w : recv_string dst w = match next (rx w) with
  | None => None
  | Some (Got d _, q) => Some ((Z.of_nat (length d), d), World q (tx w) (sent w) (owned w) (spoilt w))
  | Some (Err _, q) => Some (((-1)%Z, dst), World q (tx w) (sent w) (owned w) (spoilt w)) end.
Proof.
  unfold recv_string. unfold bind at 1, zmq_msg_init. rewrite (receive_loop _ (fun r => match r with
    | Got d _ => bind (zmq_msg_close (Open d)) (fun _ => ret (Z.of_nat (length d), d))
    | Err _ => bind (zmq_msg_close (Open [])) (fun _ => ret ((-1)%Z, dst)) end)).
  - cbn [rx tx sent owned spoilt]. destruct (next (rx w)) as [[[d more|e] q]|]; [| |reflexivity]; unfold bind, zmq_msg_close, ret; cbn [rx tx sent owned spoilt]; now rewrite add_sub_one.
  - intros w'. unfold bind at 1, zmq_msg_recv. destruct (rx w') as [|[d more|e] q]; [reflexivity|reflexivity|]. now destruct (e =? EINTR)%Z.
Qed.

(** *** What goes wrong *)

(** A channel that fails closes the message it was given, and the loop closes it again. *)
Lemma bridge_closes_twice w d m q e t : next (rx w) = Some (Got d m, q) -> next_tx (tx w) = Some (Some e, t) ->
  exists w', safe_pull w = Some (tt, w') /\ spoilt w' = S (spoilt w).
Proof.
  intros H1 H2. unfold safe_pull. rewrite while_unfold by (eapply turn_consuming, safe_pull_turn). rewrite safe_pull_turn. unfold turn. rewrite H1, H2. eauto.
Qed.
(** An empty message, which a peer may well send, ends the loop: what comes after it stays. *)
Lemma empty_message_ends w m q t : next (rx w) = Some (Got [] m, q) -> next_tx (tx w) = Some (None, t) ->
  safe_pull w = Some (tt, World q t (sent w ++ [([], false)]) (owned w) (spoilt w)).
Proof.
  intros H1 H2. unfold safe_pull. rewrite while_unfold by (eapply turn_consuming, safe_pull_turn). rewrite safe_pull_turn. unfold turn. now rewrite H1, H2.
Qed.
(** The parts of a message received over the loop are messages of their own. *)
Lemma bridge_splits_parts : exists w', safe_pull (World [Got [1]%Z true; Got [2]%Z false; Err 11] [None; None] [] 0 0) = Some (tt, w') /\ sent w' = [([1], false); ([2], false)]%Z.
Proof. eexists. split; vm_compute; reflexivity. Qed.
(** A multipart message whose second part would block leaves its first part in the
    socket, with more announced: the next message continues it. *)
Lemma partial_multipart_joins : exists q,
  (do _ <- send_multipart [[1]; [2]]%Z; send_multipart [[3]]%Z) (World [] [None; Some 11%Z; None] [] 0 0) = Some (true, World [] q [([1], true); ([3], false)]%Z 0 0)
  /\ (do _ <- ret tt; recv_multipart) (World [Got [1] true; Got [3] false]%Z [] [] 0 0) = Some ((true, [[1]; [3]]%Z), World [] [] [] 0 0).
Proof. eexists. split; vm_compute; reflexivity. Qed.
(** A reception that fails part way keeps the parts there were. *)
Lemma partial_reception d q e w : rx w = Got d true :: Err e :: q -> (e =? EINTR)%Z = false ->
  recv_multipart w = Some ((false, [d]), World q (tx w) (sent w) (owned w) (spoilt w)).
Proof.
  destruct w as [l t s o sp]. cbn [rx]. intros -> He. unfold recv_multipart. cbn [rx length]. cbn [recv_multipart_loop]. unfold bind, zmq_msg_init, zmq_msg_recv, zmq_msg_close, ret.
  cbn [rx tx sent owned spoilt negb app]. rewrite He. now rewrite !add_sub_one.
Qed.
End Loops.

(** ** The poller *)

Section Polling.
Import Poller.

(** The poller promised: entries with a key, the events asked for and the data. *)
Definition entry : Type := key * Z * option nat.
(** The keys that name one thing: a socket that is there, a descriptor that is not 0. *)
Definition proper (k : key) : Prop := match k with Sock s => s <> None | Fd f => f <> 0%Z end.
Fixpoint change (k : key) (ev : Z) (l : list entry) : option (list entry) :=
  match l with
  | [] => None
  | (k', ev', d) :: l => if decide (k' = k) then Some ((k', ev, d) :: l) else ((k', ev', d) ::.) <$> change k ev l
  end.
Fixpoint forget (k : key) (l : list entry) : option (list entry) :=
  match l with
  | [] => None
  | (k', ev', d) :: l => if decide (k' = k) then Some l else ((k', ev', d) ::.) <$> forget k l
  end.
(** The first of the entries whose events, in [rs], are not 0. *)
Fixpoint find_ready (rs : list Z) (l : list entry) : option (option nat * Z) :=
  match rs, l with
  | r :: rs, (_, _, d) :: l => if (r =? 0)%Z then find_ready rs l else Some (d, r)
  | _, _ => None
  end.

(** An item and its data are an entry. *)
Definition is_item (i : item) (d : option nat) (e : entry) : Prop :=
  proper e.1.1 /\ events i = e.1.2 /\ d = e.2 /\ match e.1.1 with Sock s => socket i = s /\ fd i = 0%Z | Fd f => socket i = None /\ fd i = f end.
Definition rep (p : poller) (l : list entry) : Prop := Forall3 is_item (_items p) (_user_datas p) l.
Definition sock_of (k : key) : option nat := match k with Sock s => s | Fd _ => None end.
Definition fd_of (k : key) : Z := match k with Sock _ => 0%Z | Fd f => f end.

Lemma matches_key i d e k : is_item i d e -> proper k -> matches (sock_of k) (fd_of k) i = bool_decide (e.1.1 = k).
Proof.
  destruct e as [[k' ev] d']. cbn. intros (Hp & _ & _ & H) Hk. apply eq_bool_prop_intro. destruct k as [[s|]|f], k' as [[s'|]|f']; cbn in *; try congruence; destruct H as [H1 H2].
  - rewrite !bool_decide_spec. rewrite H1. split; congruence.
  - rewrite !bool_decide_spec. rewrite H1. split; congruence.
  - rewrite bool_decide_spec, H2. destruct (0 =? f)%Z eqn:E; split; cbn; try congruence; try easy. apply Z.eqb_eq in E. congruence.
  - rewrite bool_decide_spec, H2. destruct (f' =? f)%Z eqn:E; split; cbn; try congruence; try easy. apply Z.eqb_eq in E. congruence. apply Z.eqb_neq in E. congruence.
Qed.

Lemma modify_rep k ev p l : proper k -> rep p l ->
  match change k ev l with
  | Some l' => exists p', modify k ev p = (0%Z, p') /\ rep p' l'
  | None => modify k ev p = ((-1)%Z, p)
  end.
Proof.
  intros Hk. destruct p as [its ds]. unfold rep. cbn [_items _user_datas].
  assert (E : modify k ev (Poller its ds) = let (r, l) := _modify_loop (sock_of k) (fd_of k) ev its in (r, Poller l ds)) by now destruct k.
  rewrite E. clear E. intros H. enough (G : match change k ev l with
    | Some l' => exists its', _modify_loop (sock_of k) (fd_of k) ev its = (0%Z, its') /\ Forall3 is_item its' ds l'
    | None => _modify_loop (sock_of k) (fd_of k) ev its = ((-1)%Z, its) end).
  { destruct (change k ev l); [destruct G as (its' & -> & G); eauto|now rewrite G]. }
  induction H as [|i d e its ds l He H IH]; [reflexivity|]. cbn [_modify_loop]. rewrite (matches_key i d e k He Hk).
  destruct e as [[k' ev'] d']. cbn [change fst snd]. destruct (decide (k' = k)) as [->|Hn].
  - rewrite bool_decide_true by reflexivity. eexists. split; [reflexivity|]. constructor; [|exact H]. destruct He as (H1 & H2 & H3 & H4). cbn in *. now repeat split.
  - rewrite bool_decide_false by exact Hn. destruct (change k ev l) as [l'|]; cbn [fmap option_fmap option_map].
    + destruct IH as (its' & -> & IH). eexists. split; [reflexivity|]. now constructor.
    + now rewrite IH.
Qed.

Lemma remove_rep k p l : proper k -> rep p l ->
  match forget k l with
  | Some l' => exists p', remove k p = Some (0%Z, p') /\ rep p' l'
  | None => remove k p = Some ((-1)%Z, p)
  end.
Proof.
  intros Hk. destruct p as [its ds]. unfold rep. cbn [_items _user_datas].
  assert (E : remove k (Poller its ds) = _remove (sock_of k) (fd_of k) (Poller its ds)) by now destruct k.
  rewrite E. clear E. unfold _remove. cbn [_items _user_datas]. intros H. enough (G : match forget k l with
    | Some l' => exists n its' ds', position (sock_of k) (fd_of k) its = Some n /\ erase n its = Some its' /\ erase n ds = Some ds' /\ Forall3 is_item its' ds' l'
    | None => position (sock_of k) (fd_of k) its = None end).
  { destruct (forget k l); [destruct G as (n & its' & ds' & -> & -> & -> & G)|rewrite G]; cbn; eauto. }
  induction H as [|i d e its ds l He H IH]; [reflexivity|]. cbn [position]. rewrite (matches_key i d e k He Hk).
  destruct e as [[k' ev'] d']. cbn [forget fst snd]. destruct (decide (k' = k)) as [->|Hn].
  - rewrite bool_decide_true by reflexivity. exists 0, its, ds. auto.
  - rewrite bool_decide_false by exact Hn. destruct (forget k l) as [l'|]; cbn [fmap option_fmap option_map].
    + destruct IH as (n & its' & ds' & -> & E1 & E2 & IH). exists (S n), (i :: its'), (d :: ds'). split; [reflexivity|].
      unfold erase in *. cbn [length]. change (S n <? S (length its)) with (n <? length its). change (S n <? S (length ds)) with (n <? length ds).
      destruct (n <? length its); [|discriminate]. destruct (n <? length ds); [|discriminate]. injection E1 as <-. injection E2 as <-. split; [reflexivity|]. split; [reflexivity|]. now constructor.
    + now rewrite IH.
Qed.

Lemma set_revents_rep its ds l rs : Forall3 is_item its ds l -> length rs = length l ->
  Forall3 is_item (set_revents rs its) ds l /\ first_ready (set_revents rs its) ds = Some (find_ready rs l).
Proof.
  intros H. revert rs. induction H as [|i d e its ds l He H IH]; intros rs Hl; [destruct rs; [split; [constructor|reflexivity]|discriminate]|].
  destruct rs as [|r rs]; [discriminate|]. cbn in Hl. destruct (IH rs ltac:(lia)) as [IH1 IH2]. split; [constructor; [exact He|exact IH1]|].
  cbn. destruct e as [[k ev] d']. destruct He as (_ & _ & Hd & _). cbn in Hd. subst d'. now destruct (r =? 0)%Z.
Qed.

Lemma find_ready_none rs l : ready_count rs = 0%Z -> find_ready rs l = None.
Proof.
  revert l. induction rs as [|r rs IH]; intros l H; [reflexivity|]. destruct l as [|[[k ev] d] l]; [reflexivity|]. cbn. unfold ready_count in *.
  destruct (decide (r = 0%Z)) as [->|Hn]; [rewrite Z.eqb_refl; apply IH|rewrite filter_cons_True in H by exact Hn; cbn in H; lia].
  now rewrite filter_cons_False in H by (intros G; now apply G).
Qed.

(** The poller is a list of entries, a key with its events and its data: adding
    appends one; modifying and removing act on the first with the key, its data going
    with it, or give -1 and change nothing; and waiting, after any interruptions, gives
    the number of entries that are ready and the data and events of the first of them.
    Nothing is read or erased past the end. *)
Theorem zmq_poller p l : rep p l ->
  (forall k ev d, proper k -> rep (add k ev d p) (l ++ [(k, ev, d)]) /\ poller_size (add k ev d p) = S (poller_size p))
  /\ (forall k ev, proper k -> match change k ev l with
        Some l' => exists p', modify k ev p = (0%Z, p') /\ rep p' l' | None => modify k ev p = ((-1)%Z, p) end)
  /\ (forall k, proper k -> match forget k l with
        Some l' => exists p', remove k p = Some (0%Z, p') /\ rep p' l' | None => remove k p = Some ((-1)%Z, p) end)
  /\ (forall n rs calls, length rs = length l -> l <> [] -> exists p', wait_for (replicate n (PErr 4) ++ Ready rs :: calls) p = Some (ready_count rs, find_ready rs l, p') /\ rep p' l).
Proof.
  intros Hr. split_and!.
  - intros k ev d Hk. split; [|now destruct k; unfold poller_size; cbn; rewrite length_app, Nat.add_comm].
    unfold rep in *. destruct k; apply Forall3_app; auto; (constructor; [|constructor]); repeat split; auto.
  - intros k ev Hk. now apply modify_rep.
  - intros k Hk. now apply remove_rep.
  - intros n rs calls Hl Hne. unfold wait_for, poll. pose proof (Forall3_length_lr _ _ _ _ Hr) as Hlen. destruct (_items p) as [|i0 is0] eqn:Ei; [destruct l; [congruence|discriminate]|].
    assert (Hp : poll_loop (replicate n (PErr 4) ++ Ready rs :: calls) p = Some (ready_count rs, Poller (set_revents rs (_items p)) (_user_datas p))) by (induction n as [|n IH]; [reflexivity|exact IH]).
    rewrite Hp. destruct (set_revents_rep _ _ _ rs Hr Hl) as [H1 H2]. cbn [_items _user_datas].
    exists (Poller (set_revents rs (_items p)) (_user_datas p)). split; [|exact H1]. destruct (ready_count rs <=? 0)%Z eqn:E.
    + apply Z.leb_le in E. rewrite find_ready_none; [reflexivity|]. unfold ready_count in *. lia.
    + now rewrite H2.
Qed.

Lemma zmq_poller_witness :
  let p := add (Fd 5) 1 (Some 8) (add (Sock (Some 3)) 1 (Some 7) empty) in
  exists p1 p2, wait_for [PErr 4; Ready [0; 1]%Z] p = Some (1%Z, Some (Some 8, 1%Z), p1) /\ remove (Sock (Some 3)) p1 = Some (0%Z, p2) /\ rep p2 [(Fd 5, 1%Z, Some 8)].
Proof.
  set (l := [(Sock (Some 3), 1%Z, Some 7); (Fd 5, 1%Z, Some 8)]).
  destruct (zmq_poller empty [] ltac:(constructor)) as [A _]. destruct (A (Sock (Some 3)) 1%Z (Some 7) ltac:(discriminate)) as [R1 _].
  destruct (zmq_poller _ _ R1) as [B _]. destruct (B (Fd 5) 1%Z (Some 8) ltac:(discriminate)) as [R2 _].
  destruct (zmq_poller _ _ R2) as (_ & _ & _ & W). destruct (W 1 [0; 1]%Z [] eq_refl ltac:(discriminate)) as (p1 & E1 & R3).
  destruct (zmq_poller _ _ R3) as (_ & _ & X & _). destruct (X (Sock (Some 3)) ltac:(discriminate)) as (p2 & E2 & R4).
  exists p1, p2. split; [exact E1|]. split; [exact E2|exact R4].
Defined.

(** Descriptor 0 finds the first item that is a socket, and so does a socket that was
    moved from. *)
Lemma descriptor_zero_removes_sockets s ev d p : _items p = [] -> _user_datas p = [] ->
  remove (Fd 0) (add (Sock (Some s)) ev d p) = Some (0%Z, p) /\ remove (Sock None) (add (Sock (Some s)) ev d p) = Some (0%Z, p).
Proof. destruct p as [its ds]. cbn. intros -> ->. now split. Qed.
End Polling.

(** ** Contexts and sockets *)

Section Lifetimes.
Import Handles.

Definition holder (o : nat) (s : st) : Prop := (exists p, ptrs s !! p = Some o) \/ (exists n z, socks s !! n = Some (Some o, z)).

(** Every context of the library has one object, which is held (but for [x]); every
    socket of the library has one object, whose pointer keeps its context. *)
Record tidy (x : option nat) (s : st) : Prop := {
  tidy_ctx : forall o c, ctxs s !! o = Some c -> exists c', c = Some c' /\ c' ∈ lib_ctx s;
  tidy_inj : forall o1 o2 c, ctxs s !! o1 = Some (Some c) -> ctxs s !! o2 = Some (Some c) -> o1 = o2;
  tidy_all : forall c, c ∈ lib_ctx s -> exists o, ctxs s !! o = Some (Some c);
  tidy_ptr : forall p o, ptrs s !! p = Some o -> is_Some (ctxs s !! o);
  tidy_sock : forall n o z, socks s !! n = Some (o, z) -> (o = None /\ z = None) \/
    exists o' z' c, o = Some o' /\ z = Some z' /\ ctxs s !! o' = Some (Some c) /\ lib_sock s !! z' = Some c;
  tidy_one : forall n1 n2 o1 o2 z, socks s !! n1 = Some (o1, Some z) -> socks s !! n2 = Some (o2, Some z) -> n1 = n2;
  tidy_open : forall z c, lib_sock s !! z = Some c -> exists n o, socks s !! n = Some (o, Some z);
  tidy_held : forall o c, ctxs s !! o = Some c -> Some o = x \/ holder o s }.

Lemma held_spec o s : held o s = true <-> holder o s.
Proof.
  unfold held, holder. rewrite orb_true_iff, !negb_true_iff, !bool_decide_eq_false. split.
  - intros [H|H].
    + left. apply map_not_Forall in H; [|apply _]. destruct H as (p & o' & E & H). exists p. rewrite E. f_equal. now apply dec_stable.
    + right. apply map_not_Forall in H; [|intros n [q z]; apply _]. destruct H as (n & [q z] & E & H). exists n, z. rewrite E. repeat f_equal. now apply dec_stable.
  - intros [[p E]|(n & z & E)]; [left|right]; intros H; now apply H in E.
Qed.

Lemma release_ok x s : (forall o, x = Some o -> is_Some (ctxs s !! o)) -> tidy x s -> exists s', release x s = Some s' /\ tidy None s'
  /\ ptrs s' = ptrs s /\ socks s' = socks s /\ lib_sock s' = lib_sock s.
Proof.
  intros Hx T. destruct x as [o|]; cbn [release]; [|exists s; split_and!; auto]. destruct (held o s) eqn:Eh.
  - exists s. split_and!; auto. apply held_spec in Eh. destruct T. split; auto. intros o' c E. destruct (tidy_held0 o' c E) as [[= ->]|H]; auto.
  - assert (Hn : ~ holder o s) by (rewrite <- held_spec; congruence). destruct (Hx o eq_refl) as [c0 Ec]. destruct (tidy_ctx _ _ T _ _ Ec) as (c & -> & Hc).
    assert (Hs : map_Forall (fun _ c' => c' <> c) (lib_sock s)).
    { intros z c' Ez ->. destruct (tidy_open _ _ T _ _ Ez) as (n & q & En). destruct (tidy_sock _ _ T _ _ _ En) as [[_ [=]]|(o' & z' & c' & -> & [= <-] & E1 & E2)].
      rewrite Ez in E2. injection E2 as <-. rewrite (tidy_inj _ _ T _ _ _ E1 Ec) in En. apply Hn. right. eauto. }
    unfold context_destroy. rewrite Ec. unfold zmq_ctx_term. rewrite decide_True by exact Hc. rewrite decide_True by exact Hs.
    eexists. split; [reflexivity|]. split; [|auto].
    assert (Hk : forall o' v, ctxs s !! o' = Some v -> o' <> o -> delete o (ctxs s) !! o' = Some v) by (intros o' v E N; now rewrite lookup_delete_ne).
    split; cbn [ptrs ctxs socks lib_ctx lib_sock].
    + intros o' c' E. apply lookup_delete_Some in E as [N E]. destruct (tidy_ctx _ _ T _ _ E) as (c2 & -> & H2). exists c2. split; [reflexivity|].
      assert (c2 <> c) by (intros ->; apply N; exact (tidy_inj _ _ T _ _ _ Ec E)). set_solver.
    + intros o1 o2 c' E1 E2. apply lookup_delete_Some in E1 as [_ E1], E2 as [_ E2]. exact (tidy_inj _ _ T _ _ _ E1 E2).
    + intros c' H. destruct (tidy_all _ _ T c') as [o' E]; [set_solver|]. exists o'. apply Hk; [exact E|]. intros ->. rewrite Ec in E. injection E as ->. set_solver.
    + intros p o' E. destruct (tidy_ptr _ _ T _ _ E) as [v Ev]. exists v. apply Hk; [exact Ev|]. intros ->. apply Hn. left. eauto.
    + intros n q z E. destruct (tidy_sock _ _ T _ _ _ E) as [H|(o' & z' & c' & -> & -> & E1 & E2)]; [now left|]. right. exists o', z', c'. split_and!; auto.
      apply Hk; [exact E1|]. intros ->. apply Hn. right. eauto.
    + apply (tidy_one _ _ T).
    + apply (tidy_open _ _ T).
    + intros o' c' E. apply lookup_delete_Some in E as [N E]. destruct (tidy_held _ _ T _ _ E) as [[= ->]|H]; [congruence|]. right. exact H.
Qed.

(** What the callers keep: names that are free for what is new, there for what is used. *)
Definition allowed (a : action) (s : st) : Prop :=
  match a with
  | Create p => ptrs s !! p = None
  | Share p q => ptrs s !! q = None /\ is_Some (ptrs s !! p)
  | Drop p => is_Some (ptrs s !! p)
  | NewSocket n p _ => socks s !! n = None /\ is_Some (ptrs s !! p)
  | EndSocket n => is_Some (socks s !! n)
  | MoveSocket n m => socks s !! n = None /\ is_Some (socks s !! m)
  | AssignSocket n m => is_Some (socks s !! n) /\ is_Some (socks s !! m)
  end.
#[local] Instance allowed_dec a s : Decision (allowed a s).
Proof. destruct a; cbn; apply _. Defined.

Lemma create_ok p s : ptrs s !! p = None -> tidy None s -> exists s', create p s = Some s' /\ tidy None s'.
Proof.
  intros Hp T. unfold create. rewrite Hp. eexists. split; [reflexivity|].
  set (o := fresh (dom (ctxs s))). set (c := fresh (lib_ctx s)).
  assert (Ho : ctxs s !! o = None) by (apply not_elem_of_dom; apply is_fresh). assert (Hc : (c ∉ lib_ctx s)) by apply is_fresh.
  assert (Hk : forall o' v, ctxs s !! o' = Some v -> <[o := Some c]> (ctxs s) !! o' = Some v) by (intros o' v E; rewrite lookup_insert_ne; congruence).
  assert (Hh : forall o', holder o' s -> holder o' (St (<[p := o]> (ptrs s)) (<[o := Some c]> (ctxs s)) (socks s) ({[c]} ∪ lib_ctx s) (lib_sock s))).
  { intros o' [[q E]|H]; [left|now right]. exists q. cbn. rewrite lookup_insert_ne; congruence. }
  split; cbn [ptrs ctxs socks lib_ctx lib_sock].
  - intros o' c' E. apply lookup_insert_Some in E as [[<- <-]|[_ E]]; [exists c; split; [reflexivity|set_solver]|]. destruct (tidy_ctx _ _ T _ _ E) as (c2 & -> & H). exists c2. split; [reflexivity|set_solver].
  - intros o1 o2 c' E1 E2. apply lookup_insert_Some in E1 as [[<- [= <-]]|[N1 E1]], E2 as [[<- E2]|[N2 E2]]; try reflexivity.
    + destruct (tidy_ctx _ _ T _ _ E2) as (? & [= <-] & ?). contradiction.
    + injection E2 as <-. destruct (tidy_ctx _ _ T _ _ E1) as (? & [= <-] & ?). contradiction.
    + exact (tidy_inj _ _ T _ _ _ E1 E2).
  - intros c' H. destruct (decide (c' = c)) as [->|N]; [exists o; now rewrite lookup_insert_eq|]. destruct (tidy_all _ _ T c') as [o' E]; [set_solver|]. eauto.
  - intros q o' E. apply lookup_insert_Some in E as [[_ <-]|[_ E]]; [rewrite lookup_insert_eq; eauto|]. destruct (tidy_ptr _ _ T _ _ E) as [v Ev]. eauto.
  - intros n q z E. destruct (tidy_sock _ _ T _ _ _ E) as [H|(o' & z' & c' & H1 & H2 & E1 & E2)]; [now left|]. right. exists o', z', c'. auto.
  - apply (tidy_one _ _ T).
  - apply (tidy_open _ _ T).
  - intros o' c' E. right. apply lookup_insert_Some in E as [[<- _]|[_ E]]; [left; exists p; cbn; now rewrite lookup_insert_eq|].
    destruct (tidy_held _ _ T _ _ E) as [[=]|H]. auto.
Qed.

(** A change of the pointers alone: [x] may lose its last. *)
Lemma ptrs_ok x m s : tidy None s -> (forall p o, m !! p = Some o -> is_Some (ctxs s !! o)) ->
  (forall p o, ptrs s !! p = Some o -> Some o = x \/ exists q, m !! q = Some o) ->
  tidy x (St m (ctxs s) (socks s) (lib_ctx s) (lib_sock s)).
Proof.
  intros T H1 H2. destruct T. split; auto. cbn. intros o c E. destruct (tidy_held0 o c E) as [[=]|[[p H]|H]]; [|right; right; exact H].
  destruct (H2 p o H) as [->|H3]; [now left|right; left; exact H3].
Qed.

Lemma socket_base_ok n p made s : socks s !! n = None -> is_Some (ptrs s !! p) -> tidy None s -> exists s', socket_base n p made s = Some s' /\ tidy None s'.
Proof.
  intros Hn [o Hp] T. unfold socket_base. rewrite Hn, Hp. destruct (tidy_ptr _ _ T _ _ Hp) as [v Ev]. rewrite Ev. destruct (tidy_ctx _ _ T _ _ Ev) as (c & -> & Hc).
  destruct made; [|eauto]. eexists. split; [reflexivity|]. set (z := fresh (dom (lib_sock s))).
  assert (Hz : lib_sock s !! z = None) by (apply not_elem_of_dom; apply is_fresh).
  assert (Hno : forall n' q, socks s !! n' <> Some (q, Some z)).
  { intros n' q E. destruct (tidy_sock _ _ T _ _ _ E) as [[_ [=]]|(o' & z' & c' & _ & [= <-] & _ & E2)]. congruence. }
  split; cbn [ptrs ctxs socks lib_ctx lib_sock].
  - apply (tidy_ctx _ _ T).
  - apply (tidy_inj _ _ T).
  - apply (tidy_all _ _ T).
  - apply (tidy_ptr _ _ T).
  - intros n' q z' E. apply lookup_insert_Some in E as [[<- [= <- <-]]|[_ E]]; [right; exists o, z, c; split_and!; auto; apply lookup_insert_eq|].
    destruct (tidy_sock _ _ T _ _ _ E) as [H|(o' & z2 & c' & -> & -> & E1 & E2)]; [now left|]. right. exists o', z2, c'. split_and!; auto. rewrite lookup_insert_ne; congruence.
  - intros n1 n2 o1 o2 z' E1 E2. apply lookup_insert_Some in E1 as [[<- [= <- <-]]|[N1 E1]], E2 as [[<- E2]|[N2 E2]]; try reflexivity.
    + now destruct (Hno n2 o2).
    + injection E2 as <- <-. now destruct (Hno n1 o1).
    + exact (tidy_one _ _ T _ _ _ _ _ E1 E2).
  - intros z' c' E. apply lookup_insert_Some in E as [[<- _]|[_ E]]; [exists n, (Some o); apply lookup_insert_eq|].
    destruct (tidy_open _ _ T _ _ E) as (n' & q & En). exists n', q. rewrite lookup_insert_ne; congruence.
  - intros o' c' E. right. destruct (tidy_held _ _ T _ _ E) as [[=]|[H|(n' & z' & H)]]; [now left|]. right. exists n', z'. cbn. rewrite lookup_insert_ne; congruence.
Qed.

(** A socket object that goes, its socket closed: the others stay; its pointer is left to release. *)
Lemma close_ok n o z s : socks s !! n = Some (o, z) -> tidy None s ->
  exists s', close_ptr z s = Some s' /\ ptrs s' = ptrs s /\ ctxs s' = ctxs s /\ socks s' = socks s
  /\ tidy o (St (ptrs s) (ctxs s) (delete n (socks s)) (lib_ctx s') (lib_sock s')) /\ (forall o', o = Some o' -> is_Some (ctxs s !! o')).
Proof.
  intros En T.
  assert (G : forall L, (forall n' o' z' c, n' <> n -> socks s !! n' = Some (o', Some z') -> lib_sock s !! z' = Some c -> L !! z' = Some c) ->
    (forall z' c, L !! z' = Some c -> lib_sock s !! z' = Some c /\ Some z' <> z) -> tidy o (St (ptrs s) (ctxs s) (delete n (socks s)) (lib_ctx s) L)).
  { intros L H1 H2. split; cbn [ptrs ctxs socks lib_ctx lib_sock].
    - apply (tidy_ctx _ _ T).
    - apply (tidy_inj _ _ T).
    - apply (tidy_all _ _ T).
    - apply (tidy_ptr _ _ T).
    - intros n' q z' E. apply lookup_delete_Some in E as [N E]. destruct (tidy_sock _ _ T _ _ _ E) as [H|(o' & z2 & c' & -> & -> & E1 & E2)]; [now left|]. right. exists o', z2, c'. split_and!; eauto.
    - intros n1 n2 o1 o2 z' E1 E2. apply lookup_delete_Some in E1 as [_ E1], E2 as [_ E2]. exact (tidy_one _ _ T _ _ _ _ _ E1 E2).
    - intros z' c E. destruct (H2 z' c E) as [E2 Hz]. destruct (tidy_open _ _ T _ _ E2) as (n' & q & E'). exists n', q. rewrite lookup_delete_ne; [exact E'|]. intros <-. congruence.
    - intros o' c E. destruct (tidy_held _ _ T _ _ E) as [[=]|[H|(n' & z' & H)]]; [right; now left|]. destruct (decide (n' = n)) as [->|N].
      + left. congruence.
      + right. right. exists n', z'. cbn. now rewrite lookup_delete_ne. }
  destruct (tidy_sock _ _ T _ _ _ En) as [[-> ->]|(o' & z' & c & -> & -> & E1 & E2)]; cbn [close_ptr].
  - exists s. do 4 (split; [reflexivity|]). split; [|discriminate]. apply G; [auto|]. intros z' c E. split; [exact E|discriminate].
  - unfold zmq_close. rewrite E2. eexists. split; [reflexivity|]. cbn. do 3 (split; [reflexivity|]). split; [|intros ? [= <-]; eauto]. apply G.
    + intros n' q z2 c' N E E3. rewrite lookup_delete_ne; [exact E3|]. intros <-. apply N. exact (tidy_one _ _ T _ _ _ _ _ E En).
    + intros z2 c' E. apply lookup_delete_Some in E as [N E]. split; [exact E|congruence].
Qed.

Lemma rename_ok x n m v s : socks s !! n = None -> socks s !! m = Some v -> tidy x s ->
  tidy x (St (ptrs s) (ctxs s) (<[n := v]> (<[m := (None, None)]> (socks s))) (lib_ctx s) (lib_sock s)).
Proof.
  intros Hn Hm T. assert (Hnm : n <> m) by congruence.
  assert (Hi : forall k q z, <[n := v]> (<[m := (None, None)]> (socks s)) !! k = Some (q, z) -> (q = None /\ z = None) \/ (k = n /\ v = (q, z)) \/ (k <> m /\ socks s !! k = Some (q, z))).
  { intros k q z E. apply lookup_insert_Some in E as [[<- E]|[_ E]]; [auto|]. apply lookup_insert_Some in E as [[_ [= <- <-]]|[N E]]; auto. }
  assert (Hj : forall k q z, socks s !! k = Some (q, z) -> exists k', <[n := v]> (<[m := (None, None)]> (socks s)) !! k' = Some (q, z)).
  { intros k q z E. destruct (decide (k = m)) as [->|N]; [exists n; rewrite lookup_insert_eq; congruence|]. exists k. rewrite !lookup_insert_ne; congruence. }
  split; cbn [ptrs ctxs socks lib_ctx lib_sock]; try apply T.
  - intros k q z E. apply Hi in E as [H|[[-> ->]|[_ E]]]; [now left| |]; eapply (tidy_sock _ _ T); eauto.
  - intros k1 k2 q1 q2 z E1 E2. apply Hi in E1 as [[_ [=]]|[[-> ->]|[N1 E1]]], E2 as [[_ [=]]|[[-> E2]|[N2 E2]]]; try reflexivity.
    + destruct N2. symmetry. exact (tidy_one _ _ T _ _ _ _ _ Hm E2).
    + destruct N1. rewrite E2 in Hm. exact (tidy_one _ _ T _ _ _ _ _ E1 Hm).
    + exact (tidy_one _ _ T _ _ _ _ _ E1 E2).
  - intros z c E. destruct (tidy_open _ _ T _ _ E) as (k & q & Ek). destruct (Hj _ _ _ Ek) as [k' Ek']. eauto.
  - intros o c E. destruct (tidy_held _ _ T _ _ E) as [H|[H|(k & z & H)]]; [now left|right; now left|]. right. right. destruct (Hj _ _ _ H) as [k' Ek']. cbn. eauto.
Qed.

Lemma act_ok a s : allowed a s -> tidy None s -> exists s', act a s = Some s' /\ tidy None s'.
Proof.
  intros Ha T. destruct a as [p|p q|p|n p made|n|n m|n m]; cbn [act allowed] in *.
  - now apply create_ok.
  - destruct Ha as [Hq [o Hp]]. unfold share. rewrite Hq, Hp. eexists. split; [reflexivity|]. apply ptrs_ok; [exact T| |].
    + intros p' o' E. apply lookup_insert_Some in E as [[_ <-]|[_ E]]; [exact (tidy_ptr _ _ T _ _ Hp)|exact (tidy_ptr _ _ T _ _ E)].
    + intros p' o' E. right. exists p'. rewrite lookup_insert_ne; congruence.
  - destruct Ha as [o Hp]. unfold drop_ptr. rewrite Hp. cbn [mbind option_bind].
    destruct (release_ok (Some o) (St (delete p (ptrs s)) (ctxs s) (socks s) (lib_ctx s) (lib_sock s))) as (s' & E & T' & _).
    + intros ? [= <-]. exact (tidy_ptr _ _ T _ _ Hp).
    + apply ptrs_ok; [exact T| |].
      * intros p' o' E. apply lookup_delete_Some in E as [_ E]. exact (tidy_ptr _ _ T _ _ E).
      * intros p' o' E. destruct (decide (p' = p)) as [->|N]; [left; congruence|]. right. exists p'. now rewrite lookup_delete_ne.
    + rewrite E. eauto.
  - destruct Ha. now apply socket_base_ok.
  - destruct Ha as [[o z] En]. unfold socket_destroy. rewrite En. cbn [mbind option_bind]. destruct (close_ok _ _ _ _ En T) as (s1 & E1 & Hp & Hc & Hs & T1 & Hx). rewrite E1. cbn [mbind option_bind]. rewrite Hp, Hc, Hs.
    destruct (release_ok _ (St (ptrs s) (ctxs s) (delete n (socks s)) (lib_ctx s1) (lib_sock s1)) Hx T1) as (s' & E & T' & _). eauto.
  - destruct Ha as [Hn [v Hm]]. unfold socket_move. rewrite Hn, Hm. eexists. split; [reflexivity|]. now apply rename_ok.
  - destruct Ha as [[[o z] En] [v Em]]. unfold socket_assign. destruct (decide (n = m)) as [->|Hnm]; [eauto|]. rewrite En. cbn [mbind option_bind]. rewrite Em. cbn [mbind option_bind].
    destruct (close_ok _ _ _ _ En T) as (s1 & E1 & Hp & Hc & Hs & T1 & Hx). rewrite E1. cbn [mbind option_bind]. rewrite Hp, Hc, Hs.
    assert (Em' : delete n (socks s) !! m = Some v) by now rewrite lookup_delete_ne.
    pose proof (rename_ok o n m v (St (ptrs s) (ctxs s) (delete n (socks s)) (lib_ctx s1) (lib_sock s1)) (lookup_delete_eq _ _) Em' T1) as T2. cbn [ptrs ctxs socks lib_ctx lib_sock] in T2.
    rewrite insert_insert_ne, insert_delete_eq, insert_insert_ne in T2 by congruence.
    destruct (release_ok _ (St (ptrs s) (ctxs s) (<[n := v]> (<[m := (None, None)]> (socks s))) (lib_ctx s1) (lib_sock s1)) Hx T2) as (s' & E & T' & _). eauto.
Qed.

Fixpoint in_order (l : list action) (s : st) : Prop :=
  match l with [] => True | a :: l => allowed a s /\ match act a s with Some s' => in_order l s' | None => True end end.

Lemma start_tidy : tidy None start.
Proof. split; cbn; intros; try (now rewrite lookup_empty in * |-); set_solver. Qed.

(** C29: whatever the callers make, share, move, assign and end, a context is terminated
    once and after the last of its sockets was closed (terminating it before would
    block), no socket is closed twice, and when no pointer and no socket object is left
    the library has no context and no socket. *)
Theorem zmq_lifetimes l : in_order l start -> exists s, acts l start = Some s
  /\ (ptrs s = ∅ -> socks s = ∅ -> lib_ctx s = ∅ /\ lib_sock s = ∅).
Proof.
  assert (G : forall l s, in_order l s -> tidy None s -> exists s', acts l s = Some s' /\ tidy None s').
  { intros l'. induction l' as [|a l' IH]; intros s Hl T; [eauto|]. destruct Hl as [Ha Hl]. destruct (act_ok a s Ha T) as (s1 & E & T1). cbn [acts]. rewrite E in *. exact (IH s1 Hl T1). }
  intros Hl. destruct (G l start Hl start_tidy) as (s & E & T). exists s. split; [exact E|]. intros Hp Hs. split.
  - apply set_eq. intros c. split; [|set_solver]. intros H. destruct (tidy_all _ _ T c H) as [o Eo]. destruct (tidy_held _ _ T _ _ Eo) as [[=]|[[p E2]|(n & z & E2)]]; [rewrite Hp in E2|rewrite Hs in E2]; discriminate E2.
  - apply map_eq. intros z. rewrite lookup_empty. destruct (lib_sock s !! z) as [c|] eqn:Ez; [|reflexivity]. destruct (tidy_open _ _ T _ _ Ez) as (n & o & En). rewrite Hs in En. discriminate En.
Qed.

Definition sample_actions : list action :=
  [Create 0; NewSocket 0 0 true; Share 0 1; Drop 0; NewSocket 1 1 true; NewSocket 2 1 false; Drop 1; MoveSocket 3 0; EndSocket 0; Create 0; NewSocket 4 0 true; AssignSocket 4 3; EndSocket 3; Drop 0; EndSocket 1; EndSocket 4].
Lemma zmq_lifetimes_witness : in_order sample_actions start /\ exists s, acts sample_actions start = Some s /\ ptrs s = ∅ /\ socks s = ∅ /\ lib_ctx s = ∅ /\ lib_sock s = ∅.
Proof.
  assert (H : in_order sample_actions start) by (vm_compute; repeat split; eauto). split; [exact H|].
  destruct (zmq_lifetimes sample_actions H) as (s & E & G). exists s. split; [exact E|].
  assert (Hp : ptrs s = ∅) by (vm_compute in E; injection E as <-; reflexivity). assert (Hs : socks s = ∅) by (vm_compute in E; injection E as <-; reflexivity).
  destruct (G Hp Hs) as [H1 H2]. auto.
Defined.

(** Assigning to a context, which is public, terminates the one there was although
    sockets of it are open: it blocks. *)
Lemma context_assign_blocks s p q o o' c c' z : ptrs s !! p = Some o -> ptrs s !! q = Some o' -> o <> o' ->
  ctxs s !! o = Some (Some c) -> ctxs s !! o' = Some (Some c') -> lib_sock s !! z = Some c -> context_assign p q s = None.
Proof.
  intros Hp Hq N Hc Hc' Hz. unfold context_assign. rewrite Hp. cbn [mbind option_bind]. rewrite Hq. cbn [mbind option_bind]. rewrite decide_False by exact N. rewrite Hc. cbn [mbind option_bind]. rewrite Hc'. cbn [mbind option_bind].
  unfold zmq_ctx_term. destruct (decide (c ∈ lib_ctx s)); [|reflexivity]. rewrite decide_False; [reflexivity|]. intros H. now apply H in Hz.
Qed.
End Lifetimes.
