(* ===== verification/Gpu.v ===== *)
(** * Computing on graphics cards

    [hardware/gpu.h], built for OpenCL or for CUDA: devices, contexts, programs with
    their kernels and arguments, buffers, copies that block or not, launches.  What
    belongs to the caller - contexts, programs, buffers, memory - has a name; what the
    library or [malloc] gives is an object that must be given back.  Calls of the
    library succeed or fail by a script, and succeed when it is used up; a call with a
    handle that is not live, an access out of bounds and a null dereference are [None].
    Small blocks are always there for [malloc], as the code assumes without a check. *)

From Stdlib Require Import Ascii String ZArith Lia List Bool.
From stdpp Require Import base tactics list option strings pretty gmap.
From S2P Require Import Prelude.

Open Scope hj_scope.
Open Scope nat_scope.

Module Gpu.
Export State.

(** ** Data *)

Inductive backend := OpenCL | CUDA.
#[global] Instance backend_dec : EqDecision backend.
Proof. solve_decision. Defined.
(** A pointer that may be null. *)
Definition ptr : Type := option nat.
Inductive access := ReadWrite | ReadOnly | WriteOnly.
Record gpu_device_info_t := Info { id : ptr; name : string; vendor : string; version : string; global_mem_sz : Z; compute_units : Z; work_group_sz : Z }.
Record gpu_context_t := Ctx { context : ptr; queue : ptr; device : ptr }.
Record gpu_program_t := Prog { program : ptr; kernel : ptr; kernel_params : ptr; param_count : Z; param_capacity : Z }.
Record gpu_buffer_t := Buf { mem : ptr; size : nat }.
Definition no_ctx : gpu_context_t := Ctx None None None.
Definition no_prog : gpu_program_t := Prog None None None 0 0.
Definition no_buf : gpu_buffer_t := Buf None 0.
(** An argument of a kernel: bytes, memory shared by a group, a buffer. *)
Inductive arg := Value (v : list Z) | Local (n : nat) | Buffer (m : nat).
(** Objects: of the library, with the arguments of a kernel of OpenCL; and blocks. *)
Inductive obj := Context | Queue | Program | Kernel (args : gmap Z arg) | Mem (acc : access) | Pinned
  | Device (d : Z) | Arg (a : arg) | Params (l : list ptr) | Infos (l : list gpu_device_info_t).
(** The sizes of a launch: the grid of OpenCL with its groups, or of CUDA. *)
Record launch := Launch { launched : nat; with_args : gmap Z arg; grid : list Z; block : option (list Z) }.
(** What a queue is given: the caller's memory and buffers by their names. *)
Inductive command := ToDevice (m h n : nat) | FromDevice (h m n : nat) | Copy (d m n : nat) | Run (l : launch).
Record st := St { answers : list bool; objs : gmap nat obj; mems : gmap nat (list Z); host : gmap nat (list Z); pending : list (ptr * command);
  ctxs : gmap nat gpu_context_t; progs : gmap nat gpu_program_t; bufs : gmap nat gpu_buffer_t }.
Abbreviation M := (State.M st).

Definition set_answers f (s : st) : st := St (f (answers s)) (objs s) (mems s) (host s) (pending s) (ctxs s) (progs s) (bufs s).
Definition set_objs f (s : st) : st := St (answers s) (f (objs s)) (mems s) (host s) (pending s) (ctxs s) (progs s) (bufs s).
Definition set_mems f (s : st) : st := St (answers s) (objs s) (f (mems s)) (host s) (pending s) (ctxs s) (progs s) (bufs s).
Definition set_host f (s : st) : st := St (answers s) (objs s) (mems s) (f (host s)) (pending s) (ctxs s) (progs s) (bufs s).
Definition set_pending f (s : st) : st := St (answers s) (objs s) (mems s) (host s) (f (pending s)) (ctxs s) (progs s) (bufs s).
Definition set_ctxs f (s : st) : st := St (answers s) (objs s) (mems s) (host s) (pending s) (f (ctxs s)) (progs s) (bufs s).
Definition set_progs f (s : st) : st := St (answers s) (objs s) (mems s) (host s) (pending s) (ctxs s) (f (progs s)) (bufs s).
Definition set_bufs f (s : st) : st := St (answers s) (objs s) (mems s) (host s) (pending s) (ctxs s) (progs s) (f (bufs s)).

(** ** The library *)

Definition ask : M bool := fun s => match answers s with [] => Some (true, s) | a :: _ => Some (a, set_answers tail s) end.
(** Names are not used twice: a command that is pending keeps its buffer. *)
Definition new (o : obj) : M nat := fun s => let p := fresh (dom (objs s) ∪ dom (mems s)) in Some (p, set_objs <[p := o]> s).
(** The object behind a handle or a pointer. *)
Definition deref (p : ptr) : M obj := do p <- lift p; do o <- gets (fun s => objs s !! p); lift o.
(** [if(p) release(p)]. *)
Definition release (p : ptr) : M unit :=
  match p with None => ret tt | Some _ => do _ <- deref p; modify (set_objs (fun m => match p with Some p => delete p m | None => m end)) end.
(** A structure of the caller. *)
Definition look {A} (f : st -> gmap nat A) (v : nat) : M A := do a <- gets (fun s => f s !! v); lift a.
(** A call with a handle: one that is null is refused. *)
Definition handle (p : ptr) : M bool := match p with None => ret false | Some _ => do _ <- deref p; ask end.

(** ** Devices *)

Section Devices.
(** What the library finds: the graphics cards of each platform.  A device has an
    identity, texts, numbers, and (CUDA) properties that can be read. *)
Record found_t := Found { d_id : Z; d_name : string; d_vendor : string; d_version : string; d_major : Z; d_minor : Z; d_mem : Z; d_units : Z; d_group : Z; d_props : bool }.
Variables (b : backend) (platforms : list (list found_t)).

Definition zeroed : gpu_device_info_t := Info None "" "" "" 0 0 0.
(** A text that does not fit with its end is an error, and the field stays empty. *)
Definition text (n : nat) (s : string) : string := if String.length s <? n then s else ""%string.
Definition info_opencl (p : nat) (d : found_t) : gpu_device_info_t :=
  Info (Some p) (text 256 (d_name d)) (text 128 (d_vendor d)) (text 128 (d_version d)) (d_mem d) (d_units d) (wrap 32 (d_group d)).
Definition info_cuda (p : nat) (d : found_t) : gpu_device_info_t :=
  Info (Some p) (substring 0 255 (d_name d)) "NVIDIA" ("Compute Capability " ++ pretty (d_major d) ++ "." ++ pretty (d_minor d))%string (d_mem d) (wrap 32 (d_units d)) (wrap 32 (d_group d)).
Fixpoint fill_devices (info : nat -> found_t -> gpu_device_info_t) (l : list found_t) : M (list gpu_device_info_t) :=
  match l with
  | [] => ret []
  | d :: l => do p <- new (Device (d_id d)); do js <- fill_devices info l; ret (info p d :: js)
  end.
(** A platform without a card ends the loop. *)
Fixpoint fill_platforms (l : list (list found_t)) : M (list gpu_device_info_t) :=
  match l with
  | [] => ret []
  | ds :: l => if length ds =? 0 then ret [] else do a <- fill_devices info_opencl ds; do r <- fill_platforms l; ret (a ++ r)
  end.
Definition pad (n : nat) (l : list gpu_device_info_t) : list gpu_device_info_t := l ++ replicate (n - length l) zeroed.
(** The result, the array and its length. *)
Definition _gpu_get_devices_by_opencl : M (Z * ptr * nat) :=
  match platforms with
  | [] => ret (0%Z, None, 0)
  | _ =>
      do ok <- ask;
      if negb ok then ret ((-1)%Z, None, 0) else
      let total_devices := length (concat platforms) in
      if total_devices =? 0 then ret (0%Z, None, 0) else
      do ok <- ask;
      if negb ok then ret ((-1)%Z, None, 0) else
      do l <- fill_platforms platforms;
      do p <- new (Infos (pad total_devices l)); ret (0%Z, Some p, total_devices)
  end.
(** A device whose properties cannot be read keeps its place, all zero. *)
Fixpoint fill_cuda (l : list found_t) : M (list gpu_device_info_t) :=
  match l with
  | [] => ret []
  | d :: l =>
      if d_props d then do p <- new (Device (d_id d)); do r <- fill_cuda l; ret (info_cuda p d :: r)
      else do r <- fill_cuda l; ret (zeroed :: r)
  end.
Definition _gpu_get_devices_by_cuda : M (Z * ptr * nat) :=
  let ds := concat platforms in
  if length ds =? 0 then ret (0%Z, None, 0) else
  do ok <- ask;
  if negb ok then ret ((-1)%Z, None, 0) else
  do l <- fill_cuda ds; do p <- new (Infos l); ret (0%Z, Some p, length ds).
Definition is_opencl_available : bool := match b with OpenCL => negb (length platforms =? 0) | CUDA => false end.
Definition is_cuda_available : bool := match b with OpenCL => false | CUDA => negb (length (concat platforms) =? 0) end.
Definition gpu_count : M nat :=
  match b with
  | OpenCL => match platforms with [] => ret 0 | _ => do ok <- ask; ret (if ok then length (concat platforms) else 0) end
  | CUDA => ret (length (concat platforms))
  end.
Definition the_infos (o : obj) : option (list gpu_device_info_t) := match o with Infos l => Some l | _ => None end.
Definition read_infos (p : ptr) : M (list gpu_device_info_t) := do o <- deref p; lift (the_infos o).
Definition gpu_device_get : M (Z * ptr * nat) :=
  do total <- gpu_count;
  if total =? 0 then ret (0%Z, None, 0) else
  do ok <- ask;
  if negb ok then ret ((-1)%Z, None, 0) else
  do infos <- new (Infos (replicate total zeroed));
  do (r, p, n) <- match b with OpenCL => _gpu_get_devices_by_opencl | CUDA => _gpu_get_devices_by_cuda end;
  if (r =? 0)%Z then
    do l <- match p with None => ret [] | Some _ => read_infos p end;
    if total <? n then undefined else
    do _ <- modify (set_objs <[infos := Infos (take n l ++ drop n (replicate total zeroed))]>);
    do _ <- release p; ret (0%Z, Some infos, n)
  else ret (0%Z, Some infos, 0).
(** [count] elements are read and their identities given back. *)
Fixpoint free_ids (l : list gpu_device_info_t) : M unit := match l with [] => ret tt | i :: l => do _ <- release (id i); free_ids l end.
Definition gpu_device_free (infos : ptr) (count : nat) : M Z :=
  match infos with
  | None => ret (-1)%Z
  | Some _ => do l <- read_infos infos; if length l <? count then undefined else do _ <- free_ids (take count l); do _ <- release infos; ret 0%Z
  end.
(** The devices the callback is called with. *)
Fixpoint visit (callback : gpu_device_info_t -> bool) (l : list gpu_device_info_t) : list gpu_device_info_t :=
  match l with [] => [] | i :: l => i :: (if callback i then visit callback l else []) end.
Definition gpu_device_foreach (callback : option (gpu_device_info_t -> bool)) : M (list gpu_device_info_t) :=
  match callback with
  | None => ret []
  | Some f =>
      do (r, p, n) <- gpu_device_get;
      if negb (r =? 0)%Z || (n =? 0) then ret [] else
      match p with
      | None => ret []
      | Some _ => do l <- read_infos p; do _ <- gpu_device_free p n; ret (visit f (take n l))
      end
  end.
End Devices.

Section Backend.
(** The back end; whether [GPU_ENABLE_OPENCL] or [GPU_ENABLE_CUDA] is defined; what a
    launch does to the buffers; the bytes of a new buffer. *)
Variables (b : backend) (platforms : list (list found_t)) (kernels : bool) (run : launch -> gmap nat (list Z) -> gmap nat (list Z)) (junk : Z).

(** A copy was checked to be within both when it was issued. *)
Definition over (n : nat) (src dst : list Z) : list Z := let n := n `min` (length src `min` length dst) in take n src ++ drop n dst.
Definition exec (c : command) (s : st) : st :=
  match c with
  | ToDevice m h n => set_mems (alter (over n (default [] (host s !! h))) m) s
  | FromDevice h m n => set_host (alter (over n (default [] (mems s !! m))) h) s
  | Copy d m n => set_mems (alter (over n (default [] (mems s !! m))) d) s
  | Run l => set_mems (run l) s
  end.
(** The first command of a queue is done; all of them are. *)
Fixpoint take_command (q : ptr) (l : list (ptr * command)) : option (command * list (ptr * command)) :=
  match l with
  | [] => None
  | (q', c) :: l => if decide (q' = q) then Some (c, l) else let* (c', l') := take_command q l in Some (c', (q', c) :: l')
  end.
Definition progress (q : ptr) (s : st) : st := match take_command q (pending s) with Some (c, l) => exec c (set_pending (fun _ => l) s) | None => s end.
Definition finish (q : ptr) (s : st) : st := Nat.iter (length (pending s)) (progress q) s.
Definition enqueue (q : ptr) (c : command) : M unit := modify (set_pending (fun l => l ++ [(q, c)])).
(** [clFinish] and [cudaStreamSynchronize]: the stream may be null. *)
Definition stream (q : ptr) : M bool := match b, q with CUDA, None => ask | _, _ => handle q end.
Definition synchronize (q : ptr) : M bool := do ok <- stream q; if ok then do _ <- modify (finish q); ret true else ret false.

(** ** Contexts *)

(** The device of the caller, or the first of those found, whose identity is copied
    before they are given back. *)
Definition the_device (o : obj) : option Z := match o with Device d => Some d | _ => None end.
Definition device_of (p : ptr) : M Z := do o <- deref p; lift (the_device o).
Definition first_device : M (option Z) :=
  do (r, p, n) <- gpu_device_get b platforms;
  if negb (r =? 0)%Z || (n =? 0) then ret None else
  do l <- read_infos p;
  do i <- lift (head l);
  do d <- device_of (id i);
  do _ <- gpu_device_free p n; ret (Some d).
Definition given (info : option gpu_device_info_t) : ptr := match info with Some i => id i | None => None end.
Definition gpu_context_create (v : ptr) (info : option gpu_device_info_t) : M bool :=
  match v with
  | None => ret false
  | Some v =>
      do _ <- modify (set_ctxs <[v := no_ctx]>);
      match b with
      | OpenCL =>
          do device <- match given info with Some _ => do d <- device_of (given info); ret (Some d) | None => first_device end;
          match device with
          | None => ret false
          | Some d =>
              do ok <- ask;
              if negb ok then ret false else
              do c <- new Context;
              do ok <- ask;
              if negb ok then do _ <- release (Some c); ret false else
              do q <- new Queue;
              do d <- new (Device d);
              do _ <- modify (set_ctxs <[v := Ctx (Some c) (Some q) (Some d)]>); ret true
          end
      | CUDA =>
          do d <- match given info with Some _ => device_of (given info) | None => ret 0%Z end;
          do ok <- ask;
          if negb ok then ret false else
          do ok <- ask;
          if negb ok then ret false else
          do q <- new Queue;
          do d <- new (Device d);
          do _ <- modify (set_ctxs <[v := Ctx None (Some q) (Some d)]>); ret true
      end
  end.
Definition gpu_context_free (v : ptr) : M Z :=
  match v with
  | None => ret (-1)%Z
  | Some v =>
      do c <- look ctxs v;
      do _ <- release (queue c);
      do _ <- match b with OpenCL => release (context c) | CUDA => ret tt end;
      do _ <- release (device c);
      do _ <- modify (set_ctxs <[v := no_ctx]>); ret 0%Z
  end.
Definition gpu_sync (v : ptr) : M bool := match v with None => ret false | Some v => do c <- look ctxs v; synchronize (queue c) end.

(** ** Buffers *)

Definition create_buffer (acc : access) (v c : ptr) (n : nat) : M bool :=
  match v, c with
  | Some v, Some c =>
      if n =? 0 then ret false else
      do _ <- modify (set_bufs <[v := no_buf]>);
      do ok <- match b with OpenCL => do c <- look ctxs c; handle (context c) | CUDA => ask end;
      if negb ok then ret false else
      do m <- new (Mem (match b with OpenCL => acc | CUDA => ReadWrite end));
      do _ <- modify (set_mems <[m := replicate n junk]>);
      do _ <- modify (set_bufs <[v := Buf (Some m) n]>); ret true
  | _, _ => ret false
  end.
Definition gpu_malloc : ptr -> ptr -> nat -> M bool := create_buffer ReadWrite.
Definition gpu_malloc_read_only : ptr -> ptr -> nat -> M bool := create_buffer ReadOnly.
Definition gpu_malloc_write_only : ptr -> ptr -> nat -> M bool := create_buffer WriteOnly.
Definition malloc_host (o : obj) (v : ptr) (n : nat) : M bool :=
  match v with
  | None => ret false
  | Some v =>
      if n =? 0 then ret false else
      do _ <- modify (set_bufs <[v := no_buf]>);
      match b with
      | OpenCL => ret true
      | CUDA => do ok <- ask; if negb ok then ret false else
          do m <- new o; do _ <- modify (set_mems <[m := replicate n junk]>); do _ <- modify (set_bufs <[v := Buf (Some m) n]>); ret true
      end
  end.
Definition gpu_malloc_pinned : ptr -> nat -> M bool := malloc_host Pinned.
Definition gpu_malloc_unified : ptr -> nat -> M bool := malloc_host (Mem ReadWrite).
(** [cudaFree] refuses memory of the host. *)
Definition gpu_buffer_free (v : ptr) : M Z :=
  match v with
  | None => ret (-1)%Z
  | Some v =>
      do bf <- look bufs v;
      match mem bf with
      | None => ret (-1)%Z
      | Some m =>
          do o <- deref (Some m);
          do ok <- match o with Pinned => ret false | _ => ask end;
          if negb ok then ret (-1)%Z else
          do _ <- release (Some m); do _ <- modify (set_bufs <[v := no_buf]>); ret 0%Z
      end
  end.
(** ** Programs and kernels *)

Definition set_prog (v : nat) (p : gpu_program_t) : M unit := modify (set_progs <[v := p]>).
(** The length left in [log_sz]; [build] is the length of the library's log, with its
    end (OpenCL), or of its error (CUDA).  [log] is the room of the caller's buffer. *)
Definition build_log (log log_sz : option nat) (build : nat) : M (option nat) :=
  match b, log, log_sz with
  | OpenCL, Some room, Some _ => if 0 <? build then (if room <? build then undefined else ret (Some build)) else ret (Some 0)
  | CUDA, Some room, Some n =>
      let copy_len := Nat.min build (if 0 <? n then n - 1 else 0) in
      if (0 <? copy_len) && (room <? S copy_len) then undefined else ret (Some copy_len)
  | _, _, Some _ => ret (Some 0)
  | _, _, None => ret None
  end.
Definition gpu_program_create_from_source (v c : ptr) (log log_sz : option nat) (source : option string) (build : nat) : M (bool * option nat) :=
  match v, c, source with
  | Some v, Some c, Some _ =>
      do _ <- set_prog v no_prog;
      do ok <- match b with OpenCL => do cx <- look ctxs c; do _ <- device_of (device cx); handle (context cx) | CUDA => ret true end;
      if negb ok then ret (false, log_sz) else
      match b with
      | OpenCL =>
          do p <- new Program;
          do ok <- ask;
          if negb ok then do n <- build_log log log_sz build; do _ <- release (Some p); ret (false, n) else
          do _ <- lift log_sz; do _ <- set_prog v (Prog (Some p) None None 0 0); ret (true, Some 0)
      | CUDA =>
          do ok <- ask;
          if negb ok then do n <- build_log log log_sz build; ret (false, n) else
          do p <- new Program;
          do _ <- lift log_sz; do _ <- set_prog v (Prog (Some p) None None 0 0); ret (true, Some 0)
      end
  | _, _, _ => ret (false, log_sz)
  end.
Definition gpu_program_free (v : ptr) : M Z :=
  match v with
  | None => ret (-1)%Z
  | Some v =>
      do p <- look progs v;
      do _ <- match b with OpenCL => release (kernel p) | CUDA => ret tt end;
      do _ <- release (program p);
      do _ <- set_prog v no_prog; ret 0%Z
  end.
(** A function of CUDA belongs to its module. *)
Definition gpu_kernel_create (v : ptr) (kernel_name : option string) : M bool :=
  match v with
  | None => ret false
  | Some v =>
      do p <- look progs v;
      match program p, kernel_name with
      | Some _, Some _ =>
          if negb kernels then ret false else
          do ok <- handle (program p);
          if negb ok then ret false else
          match b with
          | OpenCL => do k <- new (Kernel ∅); do _ <- release (kernel p);
              do _ <- set_prog v (Prog (program p) (Some k) (kernel_params p) (param_count p) (param_capacity p)); ret true
          | CUDA => do _ <- set_prog v (Prog (program p) (program p) (kernel_params p) (param_count p) (param_capacity p)); ret true
          end
      | _, _ => ret false
      end
  end.

Definition the_args (o : obj) : option (gmap Z arg) := match o with Kernel a => Some a | _ => None end.
Definition the_params (o : obj) : option (list ptr) := match o with Params l => Some l | _ => None end.
Definition write (p : nat) (o : obj) : M unit := modify (set_objs <[p := o]>).
Definition read_params (p : ptr) : M (list ptr) := match p with None => ret [] | Some _ => do o <- deref p; lift (the_params o) end.
(** The array of arguments of CUDA grows by [realloc]; [int] may overflow. *)
Definition grow (v : nat) (p : gpu_program_t) (arg_index : Z) : M (option gpu_program_t) :=
  if (arg_index <? param_capacity p)%Z then ret (Some p) else
  let new_capacity := (arg_index + 8)%Z in
  if (2 ^ 31 <=? new_capacity)%Z then undefined else
  do ok <- ask;
  if negb ok then ret None else
  do l <- read_params (kernel_params p);
  do n <- new (Params (take (Z.to_nat (param_capacity p)) l ++ replicate (Z.to_nat (new_capacity - param_capacity p)) None));
  do _ <- release (kernel_params p);
  let p := Prog (program p) (kernel p) (Some n) (param_count p) new_capacity in
  do _ <- set_prog v p; ret (Some p).
Definition set_arg (v : nat) (p : gpu_program_t) (arg_index : Z) (a : arg) : M bool :=
  match b with
  | OpenCL =>
      do o <- deref (kernel p); do args <- lift (the_args o);
      do ok <- ask;
      if negb ok then ret false else
      do k <- lift (kernel p); do _ <- write k (Kernel (<[arg_index := a]> args)); ret true
  | CUDA =>
      do p <- grow v p arg_index;
      match p with
      | None => ret false
      | Some p =>
          do l <- read_params (kernel_params p);
          do old <- lift (l !! Z.to_nat arg_index);
          do _ <- release old;
          do ok <- ask;
          do n <- lift (kernel_params p);
          if negb ok then do _ <- write n (Params (<[Z.to_nat arg_index := None]> l)); ret false else
          do _ <- match a with Local _ => undefined | _ => ret tt end;
          do q <- new (Arg a);
          do _ <- write n (Params (<[Z.to_nat arg_index := Some q]> l));
          do _ <- if (param_count p <=? arg_index)%Z then set_prog v (Prog (program p) (kernel p) (kernel_params p) (arg_index + 1) (param_capacity p)) else ret tt;
          ret true
      end
  end.
Definition gpu_set_kernel_arg (v : ptr) (arg_index : Z) (a : arg) : M bool :=
  match v with
  | None => ret false
  | Some v =>
      do p <- look progs v;
      match kernel p with
      | None => ret false
      | Some _ => if (arg_index <? 0)%Z then ret false else set_arg v p arg_index a
      end
  end.
Definition gpu_set_kernel_arg_buffer (v : ptr) (arg_index : Z) (buffer : ptr) : M bool :=
  match v with
  | None => ret false
  | Some v =>
      do p <- look progs v;
      match kernel p, buffer with
      | Some _, Some u =>
          do bf <- look bufs u;
          match mem bf with
          | None => ret false
          | Some m => if (arg_index <? 0)%Z then ret false else set_arg v p arg_index (Buffer m)
          end
      | _, _ => ret false
      end
  end.

(** ** Launches *)

(** [unsigned int] from [size_t]; the blocks that cover a size. *)
Definition block_size (dflt local : Z) : Z := if (0 <? local)%Z then wrap 32 local else dflt.
Definition grid_size (global block : Z) : option Z :=
  if (block =? 0)%Z then None else Some (wrap 32 (wrap 64 (global + block - 1) / block)).
Fixpoint grid_sizes (gs bs : list Z) : option (list Z) :=
  match gs, bs with g :: gs, x :: bs => let* n := grid_size g x in let* r := grid_sizes gs bs in Some (n :: r) | _, _ => Some [] end.
Definition blocks (dflt : Z) (global : list Z) (local : option (list Z)) : list Z :=
  match local with Some l => map (block_size dflt) l | None => map (fun _ => dflt) global end.
Fixpoint args_from (i : Z) (l : list ptr) (m : gmap nat obj) : gmap Z arg :=
  match l with
  | [] => ∅
  | p :: l => let rest := args_from (i + 1) l m in
      match p with Some p => match m !! p with Some (Arg a) => <[i := a]> rest | _ => rest end | None => rest end
  end.
Definition launch_of (p : gpu_program_t) (k : nat) (global : list Z) (local : option (list Z)) (dflt : Z) : M launch :=
  match b with
  | OpenCL => do o <- deref (Some k); do args <- lift (the_args o);
      ret (Launch k args global (match local with Some l => if forallb (fun x => 0 <? x)%Z l then Some l else None | None => None end))
  | CUDA => let bs := blocks dflt global local in
      do g <- lift (grid_sizes global bs); do l <- read_params (kernel_params p); do m <- gets objs; ret (Launch k (args_from 0 l m) g (Some bs))
  end.
Definition execute (dflt : Z) (v c : ptr) (global local : option (list Z)) : M bool :=
  match v with
  | None => ret false
  | Some v =>
      do p <- look progs v;
      match kernel p, c, global with
      | Some k, Some c, Some global =>
          if existsb (fun x => x =? 0)%Z global then ret false else
          do cx <- look ctxs c;
          do l <- launch_of p k global local dflt;
          do ok <- stream (queue cx);
          if ok then do _ <- enqueue (queue cx) (Run l); ret true else ret false
      | _, _, _ => ret false
      end
  end.
Definition gpu_execute_kernel_1d (v c : ptr) (global local : Z) : M bool := execute 256 v c (Some [global]) (Some [local]).
Definition gpu_execute_kernel_2d : ptr -> ptr -> option (list Z) -> option (list Z) -> M bool := execute 16.
Definition gpu_execute_kernel_3d : ptr -> ptr -> option (list Z) -> option (list Z) -> M bool := execute 8.

(** ** Copies *)

(** [n] bytes of a buffer, of the caller's memory. *)
Definition in_mem (m n : nat) : M unit := do _ <- deref (Some m); do l <- look mems m; if length l <? n then undefined else ret tt.
Definition in_host (h n : nat) : M unit := do l <- look host h; if length l <? n then undefined else ret tt.
Definition issue (q : ptr) (c : command) : M bool := do ok <- stream q; if ok then do _ <- enqueue q c; ret true else ret false.
(** A copy that blocks: OpenCL has one call for it, but not between buffers. *)
Definition issue_blocking (q : ptr) (c : command) : M bool := do ok <- issue q c; if ok then match b with OpenCL => do _ <- modify (finish q); ret true | CUDA => synchronize q end else ret false.
Definition issue_finish (q : ptr) (c : command) : M bool := do ok <- issue q c; if ok then synchronize q else ret false.

Definition to_device (go : ptr -> command -> M bool) (dst src : ptr) (n : nat) (c : ptr) : M bool :=
  match dst with
  | None => ret false
  | Some dst =>
      do d <- look bufs dst;
      match mem d, src, c with
      | Some m, Some h, Some c =>
          if (n =? 0) || (size d <? n) then ret false else
          do cx <- look ctxs c; do _ <- in_mem m n; do _ <- in_host h n; go (queue cx) (ToDevice m h n)
      | _, _, _ => ret false
      end
  end.
Definition from_device (go : ptr -> command -> M bool) (dst src : ptr) (n : nat) (c : ptr) : M bool :=
  match src with
  | None => ret false
  | Some src =>
      do d <- look bufs src;
      match mem d, dst, c with
      | Some m, Some h, Some c =>
          if (n =? 0) || (size d <? n) then ret false else
          do cx <- look ctxs c; do _ <- in_mem m n; do _ <- in_host h n; go (queue cx) (FromDevice h m n)
      | _, _, _ => ret false
      end
  end.
(** A buffer copied onto itself is refused by OpenCL, and undefined for CUDA. *)
Definition device_to_device (go : ptr -> command -> M bool) (dst src : ptr) (n : nat) (c : ptr) : M bool :=
  match dst, src with
  | Some dst, Some src =>
      do d <- look bufs dst; do e <- look bufs src;
      match mem d, mem e, c with
      | Some m, Some m', Some c =>
          if (n =? 0) || (size d <? n) || (size e <? n) then ret false else
          do cx <- look ctxs c; do _ <- in_mem m n; do _ <- in_mem m' n;
          if m =? m' then match b with OpenCL => ret false | CUDA => undefined end else go (queue cx) (Copy m m' n)
      | _, _, _ => ret false
      end
  | _, _ => ret false
  end.
Definition gpu_memcpy_to_device : ptr -> ptr -> nat -> ptr -> M bool := to_device issue_blocking.
Definition gpu_memcpy_to_device_async : ptr -> ptr -> nat -> ptr -> M bool := to_device issue.
Definition gpu_memcpy_from_device : ptr -> ptr -> nat -> ptr -> M bool := from_device issue_blocking.
Definition gpu_memcpy_from_device_async : ptr -> ptr -> nat -> ptr -> M bool := from_device issue.
Definition gpu_memcpy_device_to_device : ptr -> ptr -> nat -> ptr -> M bool := device_to_device issue_finish.
Definition gpu_memcpy_device_to_device_async : ptr -> ptr -> nat -> ptr -> M bool := device_to_device issue.
End Backend.
End Gpu.
