(* ===== verification/GpuThm.v ===== *)
(** * Computing on graphics cards: theorems

    The devices found are those of the platforms, and what finding them takes is given
    back; launches cover their grid; copies that do not block, followed by a
    synchronisation, do what the copies that block do, whenever the device gets to
    them; and contexts, programs and buffers are given back once, in every order. *)

From Stdlib Require Import Ascii String ZArith Lia List Bool.
From stdpp Require Import base tactics list option strings gmap.
From S2P Require Import Prelude Gpu.

Open Scope hj_scope.
Open Scope nat_scope.

(** ** Launches *)

Section Launches.
Import Gpu.

(** A launch of CUDA covers its grid: the blocks number as many as are needed for
    the size, no fewer and no more, as long as their number fits in 32 bits. *)
Theorem gpu_grid dflt local g : (0 < dflt < 2 ^ 32)%Z -> (0 <= local < 2 ^ 32)%Z -> (0 < g)%Z ->
  let x := block_size dflt local in
  (g + x - 1 < 2 ^ 64)%Z -> ((g + x - 1) / x < 2 ^ 32)%Z ->
  (0 < x)%Z /\ exists n, grid_size g x = Some n /\ ((n - 1) * x < g <= n * x)%Z.
Proof.
  intros Hd Hl Hg x H64 H32.
  assert (Hx : (0 < x < 2 ^ 32)%Z).
  { unfold x, block_size. destruct (Z.ltb_spec 0 local); [rewrite wrap_small by (unfold uint; lia); lia|lia]. }
  split; [lia|]. unfold grid_size. destruct (x =? 0)%Z eqn:E; [apply Z.eqb_eq in E; lia|]. eexists. split; [reflexivity|].
  rewrite (wrap_small 64) by (unfold uint; lia).
  rewrite wrap_small by (split; [apply Z.div_pos; lia|exact H32]).
  pose proof (Z.mul_div_le (g + x - 1) x ltac:(lia)). pose proof (Z.mul_succ_div_gt (g + x - 1) x ltac:(lia)).
  unfold Z.succ in *. lia.
Qed.
Lemma gpu_grid_witness : (0 < block_size 256 0)%Z /\ exists n, grid_size 1000 (block_size 256 0) = Some n /\ ((n - 1) * 256 < 1000 <= n * 256)%Z.
Proof. apply (gpu_grid 256 0 1000); first [lia|vm_compute; congruence]. Defined.

(** A grid of 2^40 is launched as no block at all; a group of 2^32 divides by zero. *)
Lemma large_grid_is_empty : grid_size (2 ^ 40) (block_size 256 0) = Some 0%Z /\ grid_size 1 (block_size 256 (2 ^ 32)) = None.
Proof. now split. Qed.
End Launches.

(** ** Devices *)

Section Devices.
Import Gpu.

Lemma object_eval p o s : objs s !! p = Some o -> deref (Some p) s = Some (o, s).
Proof. intros H. unfold deref, bind, lift, gets. now rewrite H. Qed.
Lemma new_fresh s : objs s !! fresh (dom (objs s) ∪ dom (mems s)) = None.
Proof. apply not_elem_of_dom. intros H. apply (is_fresh (dom (objs s) ∪ dom (mems s))). set_solver. Qed.
Lemma release_eval p o s : objs s !! p = Some o -> release (Some p) s = Some (tt, set_objs (delete p) s).
Proof. intros H. unfold release, bind. now rewrite (object_eval p o s H). Qed.
Lemma ask_nil s : answers s = [] -> ask s = Some (true, s).
Proof. unfold ask. now intros ->. Qed.

(** The identities of a list of devices. *)
Definition ids (l : list gpu_device_info_t) : list nat := omap id l.
Lemma ids_cons i l : ids (i :: l) = match id i with Some p => p :: ids l | None => ids l end.
Proof. reflexivity. Qed.
(** What was made for the list: each identity once, new, and live; the rest is as it was. *)
Record made (l : list gpu_device_info_t) (m m' : gmap nat obj) : Prop := {
  made_once : NoDup (ids l);
  made_new : forall p, p ∈ ids l -> m !! p = None;
  made_live : forall p, p ∈ ids l -> is_Some (m' !! p);
  made_rest : forall q, (q ∉ ids l) -> m' !! q = m !! q }.
Definition with_objs (m : gmap nat obj) (s : st) : st := set_objs (fun _ => m) s.

Lemma made_nil m : made [] m m.
Proof. split; [constructor|set_solver|set_solver|auto]. Qed.
Lemma made_zeroed l m m' : made l m m' -> made (zeroed :: l) m m'.
Proof. intros [H1 H2 H3 H4]. now split. Qed.
Lemma made_cons i p d l m m' : id i = Some p -> m !! p = None -> made l (<[p := Device d]> m) m' -> made (i :: l) m m'.
Proof.
  intros Hi Hp [H1 H2 H3 H4].
  assert (Hn : (p ∉ ids l)) by (intros H; apply H2 in H; rewrite lookup_insert_eq in H; discriminate).
  assert (E : ids (i :: l) = p :: ids l) by (unfold ids; cbn; now rewrite Hi).
  split; rewrite E.
  - now constructor.
  - intros q [->|H]%elem_of_cons; [exact Hp|]. specialize (H2 q H). rewrite lookup_insert_None in H2. apply H2.
  - intros q [->|H]%elem_of_cons; [|auto]. rewrite H4 by exact Hn. rewrite lookup_insert_eq. eauto.
  - intros q [Hq H]%not_elem_of_cons. rewrite H4 by exact H. now rewrite lookup_insert_ne.
Qed.
Lemma made_app l l2 m m1 m2 : made l m m1 -> made l2 m1 m2 -> made (l ++ l2) m m2.
Proof.
  intros [A1 A2 A3 A4] [B1 B2 B3 B4].
  assert (E : ids (l ++ l2) = ids l ++ ids l2) by apply omap_app.
  assert (Hd : forall p, p ∈ ids l -> (p ∉ ids l2)) by (intros p H H2; apply A3 in H as [o H]; apply B2 in H2; congruence).
  split; rewrite E.
  - apply NoDup_app. auto.
  - intros p [H|H]%elem_of_app; [auto|]. specialize (B2 p H). rewrite A4 in B2; [exact B2|]. intros H'. exact (Hd p H' H).
  - intros p [H|H]%elem_of_app; [rewrite B4; auto|auto].
  - intros q [H H2]%not_elem_of_app. now rewrite B4, A4.
Qed.

(** An entry says what its device is. *)
Definition describes (b : backend) (m : gmap nat obj) (i : gpu_device_info_t) (d : found_t) : Prop :=
  match b with
  | OpenCL => exists p, i = info_opencl p d /\ m !! p = Some (Device (d_id d))
  | CUDA => if d_props d then exists p, i = info_cuda p d /\ m !! p = Some (Device (d_id d)) else i = zeroed
  end.

Lemma fill_devices_spec info l s : (forall p d, id (info p d) = Some p) ->
  exists js m, fill_devices info l s = Some (js, with_objs m s) /\ made js (objs s) m
  /\ Forall2 (fun i d => exists p, i = info p d /\ m !! p = Some (Device (d_id d))) js l.
Proof.
  intros Hi. revert s. induction l as [|d l IH]; intros s; cbn [fill_devices].
  - exists [], (objs s). destruct s. split; [reflexivity|]. split; [apply made_nil|constructor].
  - unfold bind at 1, new. set (p := fresh (dom (objs s) ∪ dom (mems s))). assert (Hp : objs s !! p = None) by apply new_fresh.
    unfold bind. destruct (IH (set_objs <[p := Device (d_id d)]> s)) as (js & m & E & Hm & Hf). rewrite E.
    exists (info p d :: js), m. split; [reflexivity|]. split; [apply (made_cons _ p (d_id d)); auto|]. constructor; [|exact Hf]. exists p. split; [reflexivity|].
    rewrite (made_rest _ _ _ Hm), <- (lookup_insert_eq (objs s) p (Device (d_id d))); [reflexivity|].
    intros H. apply (made_new _ _ _ Hm) in H. cbn in H. rewrite lookup_insert_eq in H. discriminate.
Qed.

Lemma fill_platforms_spec ps s : Forall (fun ds => ds <> []) ps ->
  exists js m, fill_platforms ps s = Some (js, with_objs m s) /\ made js (objs s) m /\ Forall2 (describes OpenCL m) js (concat ps).
Proof.
  intros Hps. revert s. induction Hps as [|ds ps Hd _ IH]; intros s; cbn [fill_platforms].
  - exists [], (objs s). destruct s. split; [reflexivity|]. split; [apply made_nil|constructor].
  - destruct ds as [|d ds]; [congruence|]. cbn [length Nat.eqb concat]. set (l := d :: ds).
    unfold bind at 1. destruct (fill_devices_spec info_opencl l s ltac:(reflexivity)) as (js & m & E & Hm & Hf). rewrite E.
    unfold bind. destruct (IH (with_objs m s)) as (js2 & m2 & E2 & Hm2 & Hf2). rewrite E2.
    exists (js ++ js2), m2. split; [reflexivity|]. split; [exact (made_app _ _ _ _ _ Hm Hm2)|]. apply Forall2_app; [|exact Hf2].
    eapply Forall2_impl; [exact Hf|]. intros i d' (p & -> & Hp). exists p. split; [reflexivity|]. rewrite (made_rest _ _ _ Hm2); [exact Hp|].
    intros H. apply (made_new _ _ _ Hm2) in H. cbn in H. congruence.
Qed.

Lemma fill_cuda_spec l s : exists js m, fill_cuda l s = Some (js, with_objs m s) /\ made js (objs s) m /\ Forall2 (describes CUDA m) js l.
Proof.
  revert s. induction l as [|d l IH]; intros s; cbn [fill_cuda].
  - exists [], (objs s). destruct s. split; [reflexivity|]. split; [apply made_nil|constructor].
  - destruct (d_props d) eqn:Ed.
    + unfold bind at 1, new. set (p := fresh (dom (objs s) ∪ dom (mems s))). assert (Hp : objs s !! p = None) by apply new_fresh.
      unfold bind. destruct (IH (set_objs <[p := Device (d_id d)]> s)) as (js & m & E & Hm & Hf). rewrite E.
      exists (info_cuda p d :: js), m. split; [reflexivity|]. split; [apply (made_cons _ p (d_id d)); auto|]. constructor; [|exact Hf]. cbn. rewrite Ed. exists p. split; [reflexivity|].
      rewrite (made_rest _ _ _ Hm), <- (lookup_insert_eq (objs s) p (Device (d_id d))); [reflexivity|].
      intros H. apply (made_new _ _ _ Hm) in H. cbn in H. rewrite lookup_insert_eq in H. discriminate.
    + unfold bind. destruct (IH s) as (js & m & E & Hm & Hf). rewrite E. exists (zeroed :: js), m. split; [reflexivity|]. split; [now apply made_zeroed|]. constructor; [cbn; now rewrite Ed|exact Hf].
Qed.

Lemma free_ids_spec l s : NoDup (ids l) -> (forall p, p ∈ ids l -> is_Some (objs s !! p)) ->
  exists m, free_ids l s = Some (tt, with_objs m s) /\ forall q, m !! q = if decide (q ∈ ids l) then None else objs s !! q.
Proof.
  revert s. induction l as [|i l IH]; intros s Hn Hl; cbn [free_ids].
  - exists (objs s). destruct s. split; [reflexivity|]. intros q. rewrite decide_False; [reflexivity|apply not_elem_of_nil].
  - rewrite ids_cons in Hn, Hl |- *. unfold bind. destruct (id i) as [p|].
    + apply NoDup_cons in Hn as [Hp Hn]. destruct (Hl p) as [o Ho]; [left|]. rewrite (release_eval p o s Ho).
      destruct (IH (set_objs (delete p) s) Hn) as (m & E & Hm).
      { intros q Hq. cbn. rewrite lookup_delete_ne by (intros ->; contradiction). apply Hl. now right. }
      rewrite E. exists m. split; [reflexivity|]. intros q. rewrite Hm. cbn. destruct (decide (q = p)) as [->|Hq].
      * rewrite decide_False by exact Hp. rewrite decide_True by left. apply lookup_delete_eq.
      * rewrite lookup_delete_ne by congruence. destruct (decide (q ∈ ids l)) as [H|H].
        -- rewrite decide_True by (now right). reflexivity.
        -- rewrite decide_False by (now apply not_elem_of_cons). reflexivity.
    + cbn. destruct (IH s Hn Hl) as (m & E & Hm). rewrite E. exists m. split; [reflexivity|exact Hm].
Qed.

(** The library's calls all succeed; for OpenCL every platform has a card. *)
Definition plain (b : backend) (platforms : list (list found_t)) : Prop := b = OpenCL -> Forall (fun ds => ds <> []) platforms.

Lemma concat_length_0 {A} (l : list (list A)) : length (concat l) = 0 -> concat l = [].
Proof. now destruct (concat l). Qed.

Lemma get_devices_spec b ps s : plain b ps -> concat ps <> [] -> answers s = [] ->
  exists p l m, match b with OpenCL => _gpu_get_devices_by_opencl ps | CUDA => _gpu_get_devices_by_cuda ps end s = Some ((0%Z, Some p, length (concat ps)), with_objs (<[p := Infos l]> m) s)
  /\ m !! p = None /\ made l (objs s) m /\ Forall2 (describes b m) l (concat ps).
Proof.
  intros Hp Hne Ha. assert (H0 : (length (concat ps) =? 0) = false) by (apply Nat.eqb_neq; intros H; apply Hne, concat_length_0, H).
  destruct b.
  - destruct (fill_platforms_spec ps s (Hp eq_refl)) as (l & m & E & Hm & Hf). unfold _gpu_get_devices_by_opencl. destruct ps as [|d ps]; [easy|].
    unfold bind at 1. rewrite (ask_nil s Ha). cbn [negb]. rewrite H0. unfold bind at 1. rewrite (ask_nil s Ha). cbn [negb]. unfold bind at 1. rewrite E.
    unfold bind, new, ret. exists (fresh (dom m ∪ dom (mems s))), l, m. cbn [objs with_objs set_objs]. split.
    + unfold pad. pose proof (Forall2_length _ _ _ Hf) as ->. rewrite Nat.sub_diag. cbn [replicate]. rewrite app_nil_r. reflexivity.
    + split; [exact (new_fresh (with_objs m s))|]. split; [exact Hm|exact Hf].
  - destruct (fill_cuda_spec (concat ps) s) as (l & m & E & Hm & Hf). unfold _gpu_get_devices_by_cuda. rewrite H0. unfold bind at 1. rewrite (ask_nil s Ha). cbn [negb].
    unfold bind at 1. rewrite E. unfold bind, new, ret. exists (fresh (dom m ∪ dom (mems s))), l, m. split; [reflexivity|]. split; [exact (new_fresh (with_objs m s))|]. split; [exact Hm|exact Hf].
Qed.

Lemma gpu_count_eval b ps s : answers s = [] -> gpu_count b ps s = Some (length (concat ps), s).
Proof. intros Ha. unfold gpu_count. destruct b; [|reflexivity]. destruct ps; [reflexivity|]. unfold bind. now rewrite (ask_nil s Ha). Qed.

(** The devices that are listed are those of the platforms, in order, each with
    its texts, numbers and identity; and giving the list back gives back everything
    that finding them took, exactly. *)
Theorem gpu_devices b ps s : plain b ps -> concat ps <> [] -> answers s = [] ->
  exists p l s', gpu_device_get b ps s = Some ((0%Z, Some p, length (concat ps)), s')
  /\ objs s' !! p = Some (Infos l) /\ Forall2 (describes b (objs s')) l (concat ps)
  /\ gpu_device_free (Some p) (length (concat ps)) s' = Some (0%Z, s).
Proof.
  intros Hp Hne Ha. set (n := length (concat ps)). assert (H0 : (n =? 0) = false) by (apply Nat.eqb_neq; intros H; apply Hne, concat_length_0, H).
  unfold gpu_device_get. unfold bind at 1. rewrite (gpu_count_eval b ps s Ha). fold n. rewrite H0. unfold bind at 1. rewrite (ask_nil s Ha). cbn [negb].
  unfold bind at 1, new at 1. set (q := fresh (dom (objs s) ∪ dom (mems s))). assert (Hq : objs s !! q = None) by apply new_fresh.
  set (s1 := set_objs <[q := Infos (replicate n zeroed)]> s). unfold bind at 1.
  destruct (get_devices_spec b ps s1 Hp Hne Ha) as (p & l & m & E & Hmp & Hm & Hf). rewrite E. fold n. clear E.
  pose proof (Forall2_length _ _ _ Hf) as Hlen. fold n in Hlen.
  assert (Hqi : (q ∉ ids l)) by (intros H; apply (made_new _ _ _ Hm) in H; cbn in H; rewrite lookup_insert_eq in H; discriminate).
  assert (Hmq : m !! q = Some (Infos (replicate n zeroed))) by (rewrite (made_rest _ _ _ Hm) by exact Hqi; cbn; apply lookup_insert_eq).
  assert (Hpq : p <> q) by congruence.
  cbn [Z.eqb]. unfold bind at 1, read_infos. unfold bind at 1. rewrite (object_eval p (Infos l)) by (cbn; apply lookup_insert_eq). cbn [the_infos lift].
  rewrite Nat.ltb_irrefl. unfold bind at 1, modify. rewrite take_ge, drop_ge, app_nil_r by (rewrite ?length_replicate; lia).
  unfold bind at 1. rewrite (release_eval p (Infos l)) by (cbn; rewrite lookup_insert_ne by congruence; apply lookup_insert_eq). unfold ret.
  assert (Em : delete p (<[q := Infos l]> (<[p := Infos l]> m)) = <[q := Infos l]> m).
  { apply map_eq. intros x. destruct (decide (x = p)) as [->|Hx]; [rewrite lookup_delete_eq, lookup_insert_ne by congruence; now symmetry|]. rewrite lookup_delete_ne by congruence.
    destruct (decide (x = q)) as [->|Hx2]; [now rewrite !lookup_insert_eq|]. now rewrite !lookup_insert_ne by congruence. }
  exists q, l, (with_objs (<[q := Infos l]> m) s). split; [unfold with_objs, set_objs; cbn; do 3 f_equal; exact Em|]. cbn [objs with_objs set_objs].
  split; [apply lookup_insert_eq|]. split.
  - eapply Forall2_impl; [exact Hf|]. intros i d Hd. unfold describes in *. destruct b; [|destruct (d_props d); [|exact Hd]]; destruct Hd as (x & -> & Hx); exists x; (split; [reflexivity|]); rewrite lookup_insert_ne; congruence.
  - unfold gpu_device_free, read_infos. unfold bind at 1 2. rewrite (object_eval q (Infos l)) by (cbn; apply lookup_insert_eq). cbn [the_infos lift].
    rewrite Hlen, Nat.ltb_irrefl. rewrite <- Hlen at 1. rewrite take_ge by lia. unfold bind at 1.
    match goal with |- context [free_ids l ?w] => destruct (free_ids_spec l w) as (m2 & E2 & Hm2) end.
    + apply (made_once _ _ _ Hm).
    + intros x Hx. cbn. rewrite lookup_insert_ne by congruence. now apply (made_live _ _ _ Hm).
    + rewrite E2. unfold bind. rewrite (release_eval q (Infos l)) by (cbn; rewrite Hm2, decide_False by exact Hqi; cbn; apply lookup_insert_eq).
      cbn. unfold ret. do 2 f_equal. destruct s as [a o me h pe c pr bu]. unfold set_objs. cbn. f_equal. apply map_eq. intros x. cbn in *.
      destruct (decide (x = q)) as [->|Hx]; [rewrite lookup_delete_eq; now symmetry|]. rewrite lookup_delete_ne by congruence. rewrite Hm2. destruct (decide (x ∈ ids l)) as [H|H].
      * pose proof (made_new _ _ _ Hm x H) as H2. cbn in H2. now rewrite lookup_insert_ne in H2 by congruence.
      * rewrite lookup_insert_ne by congruence. rewrite (made_rest _ _ _ Hm x H). cbn. now rewrite lookup_insert_ne by congruence.
Qed.

Definition card (n : Z) : found_t := Found n "card" "vendor" "1.2" 7 5 1024 8 256 true.
Lemma gpu_devices_witness : exists p l s', gpu_device_get OpenCL [[card 1; card 2]; [card 3]] (St [] ∅ ∅ ∅ [] ∅ ∅ ∅) = Some ((0%Z, Some p, 3), s')
  /\ objs s' !! p = Some (Infos l) /\ Forall2 (describes OpenCL (objs s')) l [card 1; card 2; card 3] /\ gpu_device_free (Some p) 3 s' = Some (0%Z, St [] ∅ ∅ ∅ [] ∅ ∅ ∅).
Proof.
  apply (gpu_devices OpenCL [[card 1; card 2]; [card 3]]); [|discriminate|reflexivity]. intros _. repeat constructor; discriminate.
Defined.

(** A platform without a card - one for the processor - hides those after it: the
    entries are all zero, and making a context reads a null identity. *)
Lemma empty_platform_hides : gpu_device_foreach OpenCL [[]; [card 1]] (Some (fun _ => true)) (St [] ∅ ∅ ∅ [] ∅ ∅ ∅) = Some ([zeroed], St [] ∅ ∅ ∅ [] ∅ ∅ ∅)
  /\ gpu_context_create OpenCL [[]; [card 1]] (Some 0) None (St [] ∅ ∅ ∅ [] ∅ ∅ ∅) = None.
Proof. split; vm_compute; reflexivity. Qed.
End Devices.

(** ** Copies that do not block *)

Section Async.
Import Gpu.
Variables (b : backend) (run : launch -> gmap nat (list Z) -> gmap nat (list Z)).
(** The context that is used, and its queue. *)
Variables (c : nat) (cx : gpu_context_t).
Abbreviation q := (queue cx).

Inductive copy := Up (dst src : ptr) (n : nat) | Down (dst src : ptr) (n : nat) | Across (dst src : ptr) (n : nat).
Definition copy_async (x : copy) : M bool :=
  match x with
  | Up d h n => gpu_memcpy_to_device_async b d h n (Some c)
  | Down h d n => gpu_memcpy_from_device_async b h d n (Some c)
  | Across d e n => gpu_memcpy_device_to_device_async b d e n (Some c)
  end.
Definition copy_blocking (x : copy) : M bool :=
  match x with
  | Up d h n => gpu_memcpy_to_device b run d h n (Some c)
  | Down h d n => gpu_memcpy_from_device b run h d n (Some c)
  | Across d e n => gpu_memcpy_device_to_device b run d e n (Some c)
  end.

(** What the checks of a copy look at: not the bytes, nor what is pending. *)
Record alike (s t : st) : Prop := {
  alike_objs : objs s = objs t; alike_ctxs : ctxs s = ctxs t; alike_bufs : bufs s = bufs t; alike_answers : answers s = answers t;
  alike_mems : forall m, length <$> mems s !! m = length <$> mems t !! m;
  alike_host : forall h, length <$> host s !! h = length <$> host t !! h }.
Lemma alike_refl s : alike s s.
Proof. now split. Qed.
Lemma alike_trans s t u : alike s t -> alike t u -> alike s u.
Proof. intros [] []. split; congruence. Qed.

Definition moves (x : command) : Prop := match x with Run _ => False | _ => True end.

Section Twin.
Variables (s t : st) (go go' : ptr -> command -> M bool) (R : option (bool * st) -> option (bool * st) -> Prop).
Hypothesis Hst : alike s t.
Hypothesis Hc : ctxs s !! c = Some cx.
Hypothesis Hgo : forall x, moves x -> R (go q x s) (go' q x t).
Hypothesis Hnone : R None None.
Hypothesis Hfalse : R (Some (false, s)) (Some (false, t)).

Lemma twin_bufs d (f g : gpu_buffer_t -> M bool) : (forall x, R (f x s) (g x t)) -> R (bind (look bufs d) f s) (bind (look bufs d) g t).
Proof. intros H. unfold bind, look, lift, gets, bind. rewrite (alike_bufs _ _ Hst). destruct (bufs t !! d); auto. Qed.
Lemma twin_ctx (f g : gpu_context_t -> M bool) : R (f cx s) (g cx t) -> R (bind (look ctxs c) f s) (bind (look ctxs c) g t).
Proof. intros H. unfold bind, look, lift, gets, bind. rewrite <- (alike_ctxs _ _ Hst), Hc. exact H. Qed.
Lemma twin_mem m n (f g : M bool) : R (f s) (g t) -> R (bind (in_mem m n) (fun _ => f) s) (bind (in_mem m n) (fun _ => g) t).
Proof.
  intros H. unfold bind, in_mem, deref, look, lift, gets, undefined, ret, bind. rewrite (alike_objs _ _ Hst). destruct (objs t !! m); [|exact Hnone].
  pose proof (alike_mems _ _ Hst m) as E. destruct (mems s !! m) as [l|], (mems t !! m) as [k|]; try discriminate; [|exact Hnone]. injection E as ->. now destruct (length k <? n).
Qed.
Lemma twin_host h n (f g : M bool) : R (f s) (g t) -> R (bind (in_host h n) (fun _ => f) s) (bind (in_host h n) (fun _ => g) t).
Proof.
  intros H. unfold bind, in_host, look, lift, gets, undefined, ret, bind.
  pose proof (alike_host _ _ Hst h) as E. destruct (host s !! h) as [l|], (host t !! h) as [k|]; try discriminate; [|exact Hnone]. injection E as ->. now destruct (length k <? n).
Qed.

Lemma to_device_twin d h n : R (to_device go d h n (Some c) s) (to_device go' d h n (Some c) t).
Proof.
  unfold to_device. destruct d as [d|]; [|exact Hfalse]. apply twin_bufs. intros u. destruct (mem u) as [m|]; [|exact Hfalse]. destruct h as [h|]; [|exact Hfalse].
  destruct ((n =? 0) || (size u <? n)); [exact Hfalse|]. now apply twin_ctx, twin_mem, twin_host, Hgo.
Qed.
Lemma from_device_twin h d n : R (from_device go h d n (Some c) s) (from_device go' h d n (Some c) t).
Proof.
  unfold from_device. destruct d as [d|]; [|exact Hfalse]. apply twin_bufs. intros u. destruct (mem u) as [m|]; [|exact Hfalse]. destruct h as [h|]; [|exact Hfalse].
  destruct ((n =? 0) || (size u <? n)); [exact Hfalse|]. now apply twin_ctx, twin_mem, twin_host, Hgo.
Qed.
Lemma device_to_device_twin d e n : R (device_to_device b go d e n (Some c) s) (device_to_device b go' d e n (Some c) t).
Proof.
  unfold device_to_device. destruct d as [d|]; [|exact Hfalse]. destruct e as [e|]; [|exact Hfalse]. apply twin_bufs. intros u. apply twin_bufs. intros w.
  destruct (mem u) as [m|]; [|exact Hfalse]. destruct (mem w) as [m'|]; [|exact Hfalse].
  destruct ((n =? 0) || (size u <? n) || (size w <? n)); [exact Hfalse|]. apply twin_ctx, twin_mem, twin_mem.
  destruct (m =? m'); [destruct b; [exact Hfalse|exact Hnone]|now apply Hgo].
Qed.
End Twin.

(** *** The queue *)

Definition run_all (l : list (ptr * command)) (s : st) : st := fold_left (fun s x => exec run x.2 s) l s.
Definition ours (s : st) : Prop := Forall (fun x => x.1 = q /\ moves x.2) (pending s).

Lemma exec_pending x f s : exec run x (set_pending f s) = set_pending f (exec run x s).
Proof. now destruct x. Qed.
Lemma pending_exec x s : pending (exec run x s) = pending s.
Proof. now destruct x. Qed.
Lemma finish_all s : ours s -> finish run q s = run_all (pending s) (set_pending (fun _ => []) s).
Proof.
  unfold finish, ours. remember (pending s) as l eqn:El. intros H. revert s El. induction H as [|[q' x] l [Hq Hm] _ IH]; intros s El.
  - destruct s. cbn in *. now subst.
  - cbn [fst snd] in *. subst q'. cbn [length]. unfold run_all. cbn [fold_left snd].
    assert (E : progress run q s = exec run x (set_pending (fun _ => l) s)) by (unfold progress; rewrite <- El; cbn; now rewrite decide_True).
    rewrite Nat.iter_succ_r, E. rewrite IH by now rewrite pending_exec. unfold run_all. f_equal. now destruct x.
Qed.

Lemma length_over n src dst : length (over n src dst) = length dst.
Proof. unfold over. rewrite length_app, length_take, length_drop. lia. Qed.
Lemma alter_alike (f : list Z -> list Z) i (m : gmap nat (list Z)) j : (forall l, length (f l) = length l) -> length <$> alter f i m !! j = length <$> m !! j.
Proof.
  intros Hf. destruct (decide (i = j)) as [->|H]; [rewrite lookup_alter_eq|now rewrite lookup_alter_ne]. destruct (m !! j); cbn; [now rewrite Hf|reflexivity].
Qed.
Lemma exec_alike x s : moves x -> alike (exec run x s) s.
Proof. destruct x; cbn; try easy; intros _; split; try reflexivity; intros j; cbn; apply alter_alike; intros; apply length_over. Qed.
Lemma alike_pending f s : alike (set_pending f s) s.
Proof. now split. Qed.
Lemma run_all_alike l s : Forall (fun x => x.1 = q /\ moves x.2) l -> alike (run_all l s) s.
Proof.
  intros H. revert s. induction H as [|x l [_ Hm] _ IH]; intros s; [apply alike_refl|]. unfold run_all. cbn [fold_left]. eapply alike_trans; [apply IH|now apply exec_alike].
Qed.
Lemma finish_alike s : ours s -> alike (finish run q s) s.
Proof. intros H. rewrite finish_all by exact H. eapply alike_trans; [now apply run_all_alike|apply alike_pending]. Qed.
Lemma finish_empty s : ours s -> pending (finish run q s) = [].
Proof.
  intros H. rewrite finish_all by exact H. clear H. generalize (pending s). intros l. assert (E : pending (set_pending (fun _ => []) s) = []) by reflexivity. revert E. generalize (set_pending (fun _ => []) s).
  induction l as [|x l IH]; intros t E; [exact E|]. unfold run_all. cbn [fold_left]. apply IH. now rewrite pending_exec.
Qed.
(** Issuing adds a command at the end; the device takes the first. *)
Definition issued (x : command) (s : st) : st := set_pending (fun l => l ++ [(q, x)]) s.
Lemma issued_ours x s : ours s -> moves x -> ours (issued x s).
Proof. intros H Hx. unfold ours, issued. cbn. apply Forall_app. split; [exact H|]. constructor; [now split|constructor]. Qed.
Lemma finish_issued x s : ours s -> moves x -> finish run q (issued x s) = exec run x (finish run q s).
Proof.
  intros H Hx. rewrite finish_all by now apply issued_ours. rewrite finish_all by exact H. unfold run_all, issued. cbn [pending set_pending]. rewrite fold_left_app. reflexivity.
Qed.
Lemma progress_ours s : ours s -> ours (progress run q s) /\ finish run q (progress run q s) = finish run q s /\ alike (progress run q s) s.
Proof.
  intros H. unfold progress. destruct (pending s) as [|[q' x] l] eqn:E; [cbn; split; [exact H|split; [reflexivity|apply alike_refl]]|].
  assert (H' := H). unfold ours in H. rewrite E in H. apply Forall_cons in H as [[Hq Hx] H]. cbn in Hq, Hx. subst q'. cbn [take_command]. rewrite decide_True by reflexivity.
  assert (Ho : ours (exec run x (set_pending (fun _ => l) s))) by (unfold ours; now rewrite pending_exec). split; [exact Ho|]. split.
  - rewrite (finish_all _ Ho), (finish_all s H'), E, pending_exec. unfold run_all. cbn [pending set_pending fold_left snd]. f_equal. now destruct x.
  - eapply alike_trans; [now apply exec_alike|apply alike_pending].
Qed.

(** *** Issuing and blocking *)

Definition steady (s : st) : Prop := answers s = [] /\ ctxs s !! c = Some cx /\ stream b q s = Some (true, s).
Lemma stream_alike s t : alike s t -> answers s = [] -> stream b q s = Some (true, s) -> stream b q t = Some (true, t).
Proof.
  intros [Ho _ _ Ha _ _] E. rewrite E in Ha. symmetry in Ha. unfold stream, handle.
  destruct b, (queue cx) as [p|]; unfold bind, ret, deref, bind, lift, gets; rewrite ?Ho; try discriminate; try (destruct (objs t !! p); [|discriminate]); intros _; now apply ask_nil.
Qed.
Lemma steady_alike s t : alike s t -> steady s -> steady t.
Proof. intros H (H1 & H2 & H3). split; [now rewrite <- (alike_answers _ _ H)|]. split; [now rewrite <- (alike_ctxs _ _ H)|]. now apply (stream_alike s). Qed.
Lemma issue_eval x s : steady s -> issue b q x s = Some (true, issued x s).
Proof. intros (_ & _ & H). unfold issue. unfold bind at 1. rewrite H. reflexivity. Qed.
Lemma ours_empty s : pending s = [] -> ours s.
Proof. intros H. unfold ours. rewrite H. constructor. Qed.
Lemma finish_id s : pending s = [] -> finish run q s = s.
Proof. unfold finish. now intros ->. Qed.
Lemma synchronize_eval s : steady s -> synchronize b run q s = Some (true, finish run q s).
Proof. intros (_ & _ & H). unfold synchronize. unfold bind at 1. rewrite H. reflexivity. Qed.
Lemma blocking_eval x s : steady s -> pending s = [] -> moves x -> issue_blocking b run q x s = Some (true, exec run x s) /\ issue_finish b run q x s = Some (true, exec run x s).
Proof.
  intros Hs Hp Hx. assert (E : finish run q (issued x s) = exec run x s) by (rewrite finish_issued, finish_id; auto using ours_empty).
  assert (Hi : steady (issued x s)) by (apply (steady_alike s); [unfold issued; now split|exact Hs]).
  unfold issue_blocking, issue_finish. unfold bind at 1 3. rewrite !(issue_eval x s Hs). split; [destruct b eqn:Eb|]; [unfold bind, modify, ret; now rewrite E| |]; rewrite <- ?Eb, synchronize_eval by exact Hi; now rewrite E.
Qed.

(** A copy issued on [s] and one that blocks after what is pending on [s]. *)
Lemma copy_twin x s : steady s -> ours s ->
  match copy_async x s with
  | Some (r, s') => copy_blocking x (finish run q s) = Some (r, finish run q s') /\ ours s' /\ alike s' s
  | None => copy_blocking x (finish run q s) = None
  end.
Proof.
  intros Hs Ho. set (t := finish run q s).
  set (R := fun (o o' : option (bool * st)) => match o with Some (r, s') => o' = Some (r, finish run q s') /\ ours s' /\ alike s' s | None => o' = None end).
  change (R (copy_async x s) (copy_blocking x t)).
  assert (Ht : alike s t) by (destruct (finish_alike s Ho); split; auto). assert (Hst : steady t) by exact (steady_alike _ _ Ht Hs). assert (Hpt : pending t = []) by now apply finish_empty.
  assert (Hgo : forall y, moves y -> R (issue b q y s) (Some (true, exec run y t))).
  { intros y Hy. rewrite (issue_eval y s Hs). split; [now rewrite finish_issued|]. split; [now apply issued_ours|now split]. }
  assert (Hf : R (Some (false, s)) (Some (false, t))) by (split; [reflexivity|split; [exact Ho|apply alike_refl]]).
  destruct Hs as (Ha & Hc & Hq). destruct x as [d h n|h d n|d e n]; cbn [copy_async copy_blocking].
  - apply (to_device_twin s t (issue b) (issue_blocking b run) R Ht Hc); auto; [|easy]. intros y Hy. destruct (blocking_eval y t Hst Hpt Hy) as [-> _]. now apply Hgo.
  - apply (from_device_twin s t (issue b) (issue_blocking b run) R Ht Hc); auto; [|easy]. intros y Hy. destruct (blocking_eval y t Hst Hpt Hy) as [-> _]. now apply Hgo.
  - apply (device_to_device_twin s t (issue b) (issue_finish b run) R Ht Hc); auto; [|easy]. intros y Hy. destruct (blocking_eval y t Hst Hpt Hy) as [_ ->]. now apply Hgo.
Qed.

(** Copies are issued; at any time the device does the next command. *)
Inductive turn := Issue (x : copy) | Tick.
Fixpoint asynchronous (l : list turn) (s : st) : option (list bool * st) :=
  match l with
  | [] => Some ([], s)
  | Issue x :: l => let* (r, s) := copy_async x s in let* (rs, s) := asynchronous l s in Some (r :: rs, s)
  | Tick :: l => asynchronous l (progress run q s)
  end.
Fixpoint blocking (l : list copy) (s : st) : option (list bool * st) :=
  match l with [] => Some ([], s) | x :: l => let* (r, s) := copy_blocking x s in let* (rs, s) := blocking l s in Some (r :: rs, s) end.
Definition copies (l : list turn) : list copy := omap (fun t => match t with Issue x => Some x | Tick => None end) l.

Lemma asynchronous_blocking l s : steady s -> ours s ->
  match asynchronous l s with
  | Some (rs, s') => blocking (copies l) (finish run q s) = Some (rs, finish run q s') /\ ours s' /\ alike s' s
  | None => blocking (copies l) (finish run q s) = None
  end.
Proof.
  revert s. induction l as [|[x|] l IH]; intros s Hs Ho.
  - cbn. split; [reflexivity|split; [exact Ho|apply alike_refl]].
  - change (copies (Issue x :: l)) with (x :: copies l). cbn [asynchronous blocking]. pose proof (copy_twin x s Hs Ho) as H. destruct (copy_async x s) as [[r s1]|]; [|now rewrite H].
    destruct H as (E & Ho1 & Ha). rewrite E. assert (Hs1 : steady s1) by (apply (steady_alike s); [destruct Ha; split; auto|exact Hs]).
    specialize (IH s1 Hs1 Ho1). destruct (asynchronous l s1) as [[rs s2]|]; [|now rewrite IH]. destruct IH as (E2 & Ho2 & Ha2). rewrite E2. split; [reflexivity|]. split; [exact Ho2|]. exact (alike_trans _ _ _ Ha2 Ha).
  - change (copies (Tick :: l)) with (copies l). cbn [asynchronous]. destruct (progress_ours s Ho) as (Ho1 & E & Ha).
    assert (Hs1 : steady (progress run q s)) by (apply (steady_alike s); [destruct Ha; split; auto|exact Hs]).
    specialize (IH _ Hs1 Ho1). rewrite E in IH. destruct (asynchronous l (progress run q s)) as [[rs s2]|]; [|exact IH]. destruct IH as (E2 & Ho2 & Ha2). split; [exact E2|]. split; [exact Ho2|]. exact (alike_trans _ _ _ Ha2 Ha).
Qed.

(** C30: copies that do not block, in any number and order, with the device doing them
    whenever it does, and then [gpu_sync]: the same results, and the same bytes
    everywhere, as the copies that block, one after the other; and the ones are
    defined exactly when the others are. *)
Theorem gpu_async l s : steady s -> pending s = [] ->
  match asynchronous l s with
  | Some (rs, s1) => exists s2, gpu_sync b run (Some c) s1 = Some (true, s2) /\ blocking (copies l) s = Some (rs, s2)
  | None => blocking (copies l) s = None
  end.
Proof.
  intros Hs Hp. pose proof (asynchronous_blocking l s Hs (ours_empty s Hp)) as H. rewrite (finish_id s Hp) in H. destruct (asynchronous l s) as [[rs s1]|]; [|exact H].
  destruct H as (E & Ho & Ha). exists (finish run q s1). split; [|exact E].
  assert (Hs1 : steady s1) by (apply (steady_alike s); [destruct Ha; split; auto|exact Hs]).
  unfold gpu_sync, look. unfold bind at 1, gets, lift, bind. destruct Hs1 as (H1 & H2 & H3) eqn:EH. rewrite H2. now apply synchronize_eval.
Qed.
End Async.

(** ** Lifetimes *)

Section Lives.
Import Gpu.
Variables (b : backend) (ps : list (list found_t)) (kernels : bool) (run : launch -> gmap nat (list Z) -> gmap nat (list Z)) (junk : Z).

(** A call that makes something: when it fails nothing is left of it; when it succeeds,
    freeing it, if the library does, gives the objects back as they were. *)
Definition undone (made : option (bool * st)) (free : M Z) (m : gmap nat obj) : Prop :=
  match made with
  | Some (true, s') => answers s' = [] -> exists s'', free s' = Some (0%Z, s'') /\ objs s'' = m
  | Some (false, s') => objs s' = m
  | None => False
  end.

Lemma ask_any s : exists r a, ask s = Some (r, set_answers (fun _ => a) s).
Proof. unfold ask. destruct s as [[|x l] o m h p c pr bu]; eauto. Qed.
Lemma new_spec o s : exists p, objs s !! p = None /\ new o s = Some (p, set_objs <[p := o]> s).
Proof. eexists. split; [apply new_fresh|reflexivity]. Qed.
(** Sequencing, when the first program is known. *)
Lemma bind_some {A B} (x : M A) (f : A -> M B) s a s' : x s = Some (a, s') -> bind x f s = f a s'.
Proof. intros H. unfold bind. now rewrite H. Qed.

Lemma release_then {B} p o (f : unit -> M B) s : objs s !! p = Some o -> bind (release (Some p)) f s = f tt (set_objs (delete p) s).
Proof. intros H. exact (bind_some _ _ _ _ _ (release_eval p o s H)). Qed.

(** [q] and [d] were made after [c]; they are given back in the order of the code. *)
Lemma context_given_back c q d oc oq od (m : gmap nat obj) : m !! c = None -> <[c := oc]> m !! q = None -> <[q := oq]> (<[c := oc]> m) !! d = None ->
  <[d := od]> (<[q := oq]> (<[c := oc]> m)) !! q = Some oq /\ delete q (<[d := od]> (<[q := oq]> (<[c := oc]> m))) !! c = Some oc
  /\ delete c (delete q (<[d := od]> (<[q := oq]> (<[c := oc]> m)))) !! d = Some od
  /\ delete d (delete c (delete q (<[d := od]> (<[q := oq]> (<[c := oc]> m))))) = m.
Proof.
  intros Hc Hq Hd. apply lookup_insert_None in Hq as [Hq Hcq]. rewrite !lookup_insert_None in Hd. destruct Hd as ((Hd & Hcd) & Hqd). split_and!.
  - rewrite lookup_insert_ne by congruence. apply lookup_insert_eq.
  - rewrite lookup_delete_ne, !lookup_insert_ne by congruence. apply lookup_insert_eq.
  - rewrite !lookup_delete_ne by congruence. apply lookup_insert_eq.
  - apply map_eq. intros x. destruct (decide (x = d)) as [->|Hxd]; [rewrite lookup_delete_eq; now symmetry|].
    destruct (decide (x = c)) as [->|Hxc]; [rewrite lookup_delete_ne, lookup_delete_eq by congruence; now symmetry|].
    destruct (decide (x = q)) as [->|Hxq]; [rewrite !lookup_delete_ne, lookup_delete_eq by congruence; now symmetry|].
    now rewrite !lookup_delete_ne, !lookup_insert_ne by congruence.
Qed.

Lemma device_of_eval p d s : objs s !! p = Some (Device d) -> device_of (Some p) s = Some (d, s).
Proof. intros H. unfold device_of. now rewrite (bind_some _ _ _ _ _ (object_eval p _ s H)). Qed.

(** The device is the caller's, or the first of CUDA. *)
Definition chosen (info : option gpu_device_info_t) (s : st) : Prop :=
  match given info with Some p => exists d, objs s !! p = Some (Device d) | None => b = CUDA end.
Lemma context_undone v info s : chosen info s -> undone (gpu_context_create b ps (Some v) info s) (gpu_context_free b (Some v)) (objs s).
Proof.
  intros Hc. unfold gpu_context_create, chosen in *. unfold bind at 1, modify at 1. set (s0 := set_ctxs <[v := no_ctx]> s).
  change (objs s) with (objs s0) in Hc |- *. generalize dependent s0. clear s. intros s Hc.
  assert (Hfree : forall x (s1 : st), ctxs s1 !! v = Some x -> gpu_context_free b (Some v) s1 = bind (release (queue x)) (fun _ => bind (match b with OpenCL => release (context x) | CUDA => ret tt end) (fun _ => bind (release (device x)) (fun _ => bind (modify (set_ctxs <[v := no_ctx]>)) (fun _ => ret 0%Z)))) s1).
  { intros x s1 H. unfold gpu_context_free. rewrite (bind_some _ _ _ x s1); [reflexivity|]. unfold look, bind, gets, lift. now rewrite H. }
  destruct b.
  - destruct (given info) as [p|]; [|discriminate]. destruct Hc as [d Hd]. unfold bind at 1. rewrite (bind_some _ _ _ _ _ (device_of_eval p d s Hd)). cbn [ret].
    unfold bind at 1. destruct (ask_any s) as (r & a & ->). destruct r; [|reflexivity]. cbn [negb].
    destruct (new_spec Context (set_answers (fun _ => a) s)) as (c & Hcn & Ec). rewrite (bind_some _ _ _ _ _ Ec). clear Ec. set (s1 := set_objs _ _).
    unfold bind at 1. destruct (ask_any s1) as (r & a' & ->). destruct r; cbn [negb].
    + destruct (new_spec Queue (set_answers (fun _ => a') s1)) as (q & Hq & Eq). rewrite (bind_some _ _ _ _ _ Eq). clear Eq. set (s2 := set_objs _ _).
      destruct (new_spec (Device d) s2) as (e & He & Ee). rewrite (bind_some _ _ _ _ _ Ee). clear Ee.
      unfold bind, modify, ret. cbn [undone]. intros _. cbn in Hcn, Hq, He.
      destruct (context_given_back c q e Context Queue (Device d) (objs s) Hcn Hq He) as (H1 & H2 & H3 & H4).
      rewrite (Hfree (Ctx (Some c) (Some q) (Some e))) by (cbn; apply lookup_insert_eq). cbn [queue context device].
      eexists. split.
      * rewrite (release_then q Queue) by exact H1. rewrite (release_then c Context) by exact H2. rewrite (release_then e (Device d)) by exact H3. reflexivity.
      * exact H4.
    + rewrite (release_then c Context) by (cbn; apply lookup_insert_eq). cbn. now apply delete_insert_id.
  - assert (Hd : exists d, match given info with Some _ => device_of (given info) | None => ret 0%Z end s = Some (d, s)).
    { destruct (given info) as [p|]; [destruct Hc as [d Hd]; exists d; now apply device_of_eval|eexists; reflexivity]. }
    destruct Hd as [d Hd]. rewrite (bind_some _ _ _ _ _ Hd).
    unfold bind at 1. destruct (ask_any s) as (r & a & ->). destruct r; [|reflexivity]. cbn [negb].
    unfold bind at 1. destruct (ask_any (set_answers (fun _ => a) s)) as (r & a' & ->). destruct r; [|reflexivity]. cbn [negb].
    destruct (new_spec Queue (set_answers (fun _ => a') (set_answers (fun _ => a) s))) as (q & Hq & Eq). rewrite (bind_some _ _ _ _ _ Eq). clear Eq. set (s2 := set_objs _ _).
    destruct (new_spec (Device d) s2) as (e & He & Ee). rewrite (bind_some _ _ _ _ _ Ee). clear Ee.
    unfold bind, modify, ret. cbn [undone]. intros _. cbn in Hq, He. apply lookup_insert_None in He as [He Hqe].
    rewrite (Hfree (Ctx None (Some q) (Some e))) by (cbn; apply lookup_insert_eq). cbn [queue context device].
    eexists. split.
    + rewrite (release_then q Queue) by (cbn; rewrite lookup_insert_ne by congruence; apply lookup_insert_eq). unfold bind at 1, ret at 1.
      rewrite (release_then e (Device d)) by (cbn; rewrite lookup_delete_ne by congruence; apply lookup_insert_eq). reflexivity.
    + cbn. apply map_eq. intros x. destruct (decide (x = e)) as [->|Hx]; [rewrite lookup_delete_eq; now symmetry|]. destruct (decide (x = q)) as [->|Hx2]; [rewrite lookup_delete_ne, lookup_delete_eq by congruence; now symmetry|].
      now rewrite !lookup_delete_ne, !lookup_insert_ne by congruence.
Qed.

(** A handle that is null, or live. *)
Definition live (p : ptr) (s : st) : Prop := match p with Some p => is_Some (objs s !! p) | None => True end.
Lemma handle_any p s : live p s -> exists r a, handle p s = Some (r, set_answers (fun _ => a) s).
Proof.
  intros H. unfold handle. destruct p as [p|]; [|exists false, (answers s); destruct s; reflexivity].
  destruct H as [o H]. unfold bind at 1. rewrite (object_eval p o s H). apply ask_any.
Qed.
Lemma look_eval {A} (f : st -> gmap nat A) v x s : f s !! v = Some x -> look f v s = Some (x, s).
Proof. intros H. unfold look, bind, gets, lift. now rewrite H. Qed.

Lemma look_then {A B} (g : st -> gmap nat A) v x (f : A -> M B) s : g s !! v = Some x -> bind (look g v) f s = f x s.
Proof. intros H. exact (bind_some _ _ _ _ _ (look_eval g v x s H)). Qed.
Lemma deref_then {B} p o (f : obj -> M B) s : objs s !! p = Some o -> bind (deref (Some p)) f s = f o s.
Proof. intros H. exact (bind_some _ _ _ _ _ (object_eval p o s H)). Qed.

Lemma buffer_undone acc v c n cx s : ctxs s !! c = Some cx -> (b = OpenCL -> live (context cx) s) ->
  undone (create_buffer b junk acc (Some v) (Some c) n s) (gpu_buffer_free (Some v)) (objs s).
Proof.
  intros Hc Hl. unfold create_buffer. destruct (n =? 0); [reflexivity|]. unfold bind at 1, modify at 1. set (s0 := set_bufs <[v := no_buf]> s).
  assert (Hok : exists r a, match b with OpenCL => bind (look ctxs c) (fun c => handle (context c)) | CUDA => ask end s0 = Some (r, set_answers (fun _ => a) s0)).
  { destruct b; [|apply ask_any]. rewrite (bind_some _ _ _ _ _ (look_eval ctxs c cx s0 Hc)). apply handle_any. now apply Hl. }
  destruct Hok as (r & a & E). rewrite (bind_some _ _ _ _ _ E). destruct r; [|reflexivity]. cbn [negb].
  set (o := Mem match b with OpenCL => acc | CUDA => ReadWrite end). destruct (new_spec o (set_answers (fun _ => a) s0)) as (m & Hm & Em). rewrite (bind_some _ _ _ _ _ Em). clear Em.
  unfold bind, modify, ret. cbn [undone]. intros Ha. unfold gpu_buffer_free.
  rewrite (look_then bufs v (Buf (Some m) n)) by (cbn; apply lookup_insert_eq). cbn [mem].
  rewrite (deref_then m o) by (cbn; apply lookup_insert_eq). unfold o. rewrite (bind_some _ _ _ _ _ (ask_nil _ Ha)). cbn [negb].
  rewrite (release_then m o) by (cbn; apply lookup_insert_eq). eexists. split; [reflexivity|]. cbn. now apply delete_insert_id.
Qed.

(** The caller's buffer has room for the log of a build that fails. *)
Definition log_fits (log log_sz : option nat) (build : nat) : Prop :=
  match log, log_sz with Some room, Some n => match b with OpenCL => build <= room | CUDA => n <= room end | _, _ => True end.
Lemma build_log_fits log log_sz build s : log_fits log log_sz build -> exists n, build_log b log log_sz build s = Some (n, s).
Proof.
  unfold build_log, log_fits. destruct b, log as [room|], log_sz as [n|]; intros H; try (eexists; reflexivity).
  - destruct (0 <? build); [|eexists; reflexivity]. destruct (room <? build) eqn:E; [apply Nat.ltb_lt in E; lia|]. eexists; reflexivity.
  - match goal with |- context [if ?t then undefined else _] => destruct t eqn:E end; [|eexists; reflexivity]. apply andb_true_iff in E as [E1 E2]. apply Nat.ltb_lt in E1, E2. destruct (0 <? n) eqn:E3; [apply Nat.ltb_lt in E3|]; lia.
Qed.

Definition drop_log (x : option ((bool * option nat) * st)) : option (bool * st) := match x with Some ((r, _), s) => Some (r, s) | None => None end.
Lemma program_undone v c log n source build cx d p s : ctxs s !! c = Some cx -> (b = OpenCL -> device cx = Some p /\ objs s !! p = Some (Device d) /\ live (context cx) s) -> log_fits log (Some n) build ->
  undone (drop_log (gpu_program_create_from_source b (Some v) (Some c) log (Some n) (Some source) build s)) (gpu_program_free b (Some v)) (objs s).
Proof.
  intros Hc Hl Hf. unfold gpu_program_create_from_source, set_prog. unfold bind at 1, modify at 1. set (s0 := set_progs <[v := no_prog]> s).
  assert (Hok : exists r a, match b with OpenCL => bind (look ctxs c) (fun cx => bind (device_of (device cx)) (fun _ => handle (context cx))) | CUDA => ret true end s0 = Some (r, set_answers (fun _ => a) s0)).
  { destruct b; [|exists true, (answers s0); destruct s; reflexivity]. destruct (Hl eq_refl) as (Hd & Hp & Hx). rewrite (bind_some _ _ _ _ _ (look_eval ctxs c cx s0 Hc)). rewrite Hd, (bind_some _ _ _ _ _ (device_of_eval p d s0 Hp)). now apply handle_any. }
  destruct Hok as (r & a & E). rewrite (bind_some _ _ _ _ _ E). destruct r; [|reflexivity]. cbn [negb]. set (s1 := set_answers (fun _ => a) s0).
  assert (Hfree : forall q (s2 : st), progs s2 !! v = Some (Prog (Some q) None None 0 0) -> objs s2 !! q = Some Program -> gpu_program_free b (Some v) s2 = Some (0%Z, set_progs <[v := no_prog]> (set_objs (delete q) s2))).
  { intros q s2 H1 H2. unfold gpu_program_free, set_prog. rewrite (bind_some _ _ _ _ _ (look_eval progs v _ s2 H1)). cbn [kernel program].
    rewrite (bind_some _ _ s2 tt s2) by now destruct b. now rewrite (release_then q Program) by exact H2. }
  destruct b eqn:Eb; rewrite <- Eb in *.
  - destruct (new_spec Program s1) as (q & Hq & Eq). rewrite (bind_some _ _ _ _ _ Eq). clear Eq. set (s2 := set_objs _ _).
    destruct (ask_any s2) as (r & a' & Er). rewrite (bind_some _ _ _ _ _ Er). destruct r; cbn [negb].
    + unfold bind, lift, modify, ret. cbn [drop_log undone]. intros _. eexists. split; [apply (Hfree q); [cbn; apply lookup_insert_eq|cbn; apply lookup_insert_eq]|]. cbn. now apply delete_insert_id.
    + destruct (build_log_fits log (Some n) build (set_answers (fun _ => a') s2) Hf) as [k Ek]. rewrite (bind_some _ _ _ _ _ Ek). rewrite (release_then q Program) by (cbn; apply lookup_insert_eq). cbn. now apply delete_insert_id.
  - destruct (ask_any s1) as (r & a' & Er). rewrite (bind_some _ _ _ _ _ Er). destruct r; cbn [negb].
    + destruct (new_spec Program (set_answers (fun _ => a') s1)) as (q & Hq & Eq). rewrite (bind_some _ _ _ _ _ Eq). clear Eq.
      unfold bind, lift, modify, ret. cbn [drop_log undone]. intros _. eexists. split; [apply (Hfree q); [cbn; apply lookup_insert_eq|cbn; apply lookup_insert_eq]|]. cbn. now apply delete_insert_id.
    + destruct (build_log_fits log (Some n) build (set_answers (fun _ => a') s1) Hf) as [k Ek]. rewrite (bind_some _ _ _ _ _ Ek). reflexivity.
Qed.

(** Making a context, a buffer or a program, whatever the library's calls give:
    when it fails nothing is left behind; when it succeeds, freeing it gives back
    exactly what was made.  Nothing null, dead or out of bounds is used on the way. *)
Theorem gpu_lifetimes v c cx d p s : ctxs s !! c = Some cx -> (b = OpenCL -> device cx = Some p /\ objs s !! p = Some (Device d) /\ live (context cx) s) ->
  (forall info, chosen info s -> undone (gpu_context_create b ps (Some v) info s) (gpu_context_free b (Some v)) (objs s))
  /\ (forall acc n, undone (create_buffer b junk acc (Some v) (Some c) n s) (gpu_buffer_free (Some v)) (objs s))
  /\ (forall log n source build, log_fits log (Some n) build ->
      undone (drop_log (gpu_program_create_from_source b (Some v) (Some c) log (Some n) (Some source) build s)) (gpu_program_free b (Some v)) (objs s)).
Proof.
  intros Hc Hl. split_and!.
  - intros info. apply context_undone.
  - intros acc n. apply (buffer_undone acc v c n cx s Hc). intros Hb. now apply Hl.
  - intros log n source build. now apply (program_undone v c log n source build cx d p).
Qed.
End Lives.

Section AsyncWitness.
Import Gpu.
Definition the_st : st := St [] {[0 := Context; 1 := Queue; 2 := Device 7; 3 := Mem ReadWrite; 4 := Mem ReadWrite]}
  {[3 := [0; 0; 0]%Z; 4 := [0; 0; 0]%Z]} {[0 := [5; 6; 7]%Z; 1 := [0; 0]%Z]} [] {[0 := Ctx (Some 0) (Some 1) (Some 2)]} ∅ {[0 := Buf (Some 3) 3; 1 := Buf (Some 4) 3]}.
Lemma gpu_async_witness : exists s1 s2, asynchronous OpenCL (fun _ m => m) 0 (Ctx (Some 0) (Some 1) (Some 2)) [Issue (Up (Some 0) (Some 0) 3); Issue (Across (Some 1) (Some 0) 3); Tick; Issue (Down (Some 1) (Some 1) 2)] the_st = Some ([true; true; true], s1)
  /\ host s1 !! 1 = Some [0; 0]%Z /\ gpu_sync OpenCL (fun _ m => m) (Some 0) s1 = Some (true, s2) /\ host s2 !! 1 = Some [5; 6]%Z.
Proof.
  pose proof (gpu_async OpenCL (fun _ m => m) 0 (Ctx (Some 0) (Some 1) (Some 2)) [Issue (Up (Some 0) (Some 0) 3); Issue (Across (Some 1) (Some 0) 3); Tick; Issue (Down (Some 1) (Some 1) 2)] the_st) as H.
  destruct (asynchronous _ _ _ _ _ _) as [[rs s1]|] eqn:E; [|vm_compute in E; discriminate E].
  destruct H as (s2 & E1 & E2); [vm_compute; auto|reflexivity|]. vm_compute in E. injection E as <- <-. vm_compute in E2. injection E2 as <-.
  eexists _, _. split; [reflexivity|]. split; [reflexivity|]. split; [exact E1|reflexivity].
Defined.

(** Not synchronised, the caller's memory does not have the bytes yet. *)
Lemma unsynchronised_read : exists s1, gpu_memcpy_from_device_async OpenCL (Some 0) (Some 0) 3 (Some 0) the_st = Some (true, s1) /\ host s1 = host the_st.
Proof. eexists. split; [vm_compute; reflexivity|]. vm_compute. reflexivity. Qed.
End AsyncWitness.

Section GpuFindings.
Import Gpu.
Lemma gpu_lifetimes_witness : exists s1 s2, gpu_context_create OpenCL [] (Some 5) (Some (Info (Some 2) "" "" "" 0 0 0)) (set_answers (fun _ => []) the_st) = Some (true, s1)
  /\ gpu_context_free OpenCL (Some 5) s1 = Some (0%Z, s2) /\ objs s2 = objs the_st.
Proof.
  destruct (gpu_lifetimes OpenCL [] 0 5 0 (Ctx (Some 0) (Some 1) (Some 2)) 7 2 (set_answers (fun _ => []) the_st)) as (H & _ & _); [reflexivity| |].
  - intros _. split; [reflexivity|]. split; [reflexivity|]. vm_compute. eauto.
  - specialize (H (Some (Info (Some 2) "" "" "" 0 0 0)) ltac:(eexists; reflexivity)).
    destruct (gpu_context_create _ _ _ _ _) as [[[|] s1]|] eqn:E; [|vm_compute in E; discriminate E|contradiction].
    destruct H as (s2 & E2 & H); [vm_compute in E; injection E as <-; reflexivity|]. exists s1, s2. split; [reflexivity|]. split; [exact E2|exact H].
Defined.

(** *** What goes wrong *)

(** Built as the build files build it no kernel is ever made, and none can run. *)
Lemma no_kernels b v name s p : progs s !! v = Some p -> gpu_kernel_create b false (Some v) name s = Some (false, s).
Proof. intros H. unfold gpu_kernel_create. rewrite (bind_some _ _ _ _ _ (look_eval progs v p s H)). destruct (program p); [|reflexivity]. now destruct name. Qed.

(** The arguments of a kernel of CUDA are not freed with its program. *)
Definition cuda_st : st := St [] {[0 := Program]} ∅ ∅ [] ∅ {[0 := Prog (Some 0) (Some 0) None 0 0]} ∅.
Lemma cuda_arguments_leak : exists s1 s2, gpu_set_kernel_arg CUDA (Some 0) 0 (Value [1%Z]) cuda_st = Some (true, s1)
  /\ gpu_program_free CUDA (Some 0) s1 = Some (0%Z, s2) /\ base.size (dom (objs s2)) = 2.
Proof. eexists _, _. split; [vm_compute; reflexivity|]. split; [vm_compute; reflexivity|]. vm_compute. reflexivity. Qed.
(** Pinned memory is freed as memory of the device, which is refused. *)
Lemma pinned_not_freed junk : exists s1, gpu_malloc_pinned CUDA junk (Some 0) 4 cuda_st = Some (true, s1) /\ gpu_buffer_free (Some 0) s1 = Some ((-1)%Z, s1).
Proof. eexists. split; [vm_compute; reflexivity|]. vm_compute. reflexivity. Qed.
(** With OpenCL pinned and unified memory are said to be there, and are null. *)
Lemma pinned_is_null junk v n s : n <> 0 -> gpu_malloc_pinned OpenCL junk (Some v) n s = Some (true, set_bufs <[v := no_buf]> s).
Proof. intros H. unfold gpu_malloc_pinned, malloc_host. destruct (n =? 0) eqn:E; [apply Nat.eqb_eq in E; contradiction|reflexivity]. Qed.
(** A log longer than the caller's buffer is written past its end, whatever [log_sz]
    says; with no [log_sz] a build that succeeds writes through null. *)
Lemma build_log_overflows s room n build : room < build -> build_log OpenCL (Some room) (Some n) build s = None.
Proof. intros H. unfold build_log. replace (0 <? build) with true by (symmetry; apply Nat.ltb_lt; lia). replace (room <? build) with true by (symmetry; apply Nat.ltb_lt; lia). reflexivity. Qed.
Lemma no_log_size v c log source build cx s : ctxs s !! c = Some cx -> answers s = [] -> gpu_program_create_from_source CUDA (Some v) (Some c) log None (Some source) build s = None.
Proof.
  intros Hc Ha. unfold gpu_program_create_from_source, set_prog. unfold bind at 1, modify at 1. unfold bind at 1, ret at 1. cbn [negb].
  rewrite (bind_some _ _ _ _ _ (ask_nil (set_progs <[v := no_prog]> s) Ha)). cbn [negb]. destruct (new_spec Program (set_progs <[v := no_prog]> s)) as (q & _ & E). now rewrite (bind_some _ _ _ _ _ E).
Qed.
(** Allocating into a buffer that has memory loses it. *)
Lemma malloc_over_live junk : exists s1 s2, gpu_malloc OpenCL junk (Some 0) (Some 0) 3 the_st = Some (true, s1) /\ gpu_buffer_free (Some 0) s1 = Some (0%Z, s2)
  /\ objs s2 !! 3 = Some (Mem ReadWrite) /\ forall v u, bufs s2 !! v = Some u -> mem u <> Some 3.
Proof.
  eexists _, _. split; [vm_compute; reflexivity|]. split; [vm_compute; reflexivity|]. split; [reflexivity|].
  refine (bool_decide_unpack (map_Forall (fun _ u => mem u <> Some 3) _) _). vm_compute. exact I.
Qed.
End GpuFindings.
