(* ===== verification/Base64.v ===== *)
(** * Base64

    [crypto/base64.hpp]: encoding and decoding of buffers, strings, streams and files
    over the filters of the cryptographic library, and the check of a text.  What the
    filters give is a parameter; [Rfc] is the encoding of RFC 4648 itself, in which
    their documentation is stated. *)

From Stdlib Require Import Ascii String ZArith Lia List Bool.
From stdpp Require Import base tactics list option strings gmap.
From S2P Require Import Prelude.

Open Scope hj_scope.
Open Scope Z_scope.

(** ** The encoding *)

Module Rfc.
(** The character of a number of 6 bits, and back. *)
Definition char_of (n : Z) : Z :=
  if n <? 26 then 65 + n else if n <? 52 then 97 + (n - 26) else if n <? 62 then 48 + (n - 52) else if n =? 62 then 43 else 47.
Definition of_char (c : Z) : option Z :=
  if (65 <=? c) && (c <=? 90) then Some (c - 65) else
  if (97 <=? c) && (c <=? 122) then Some (c - 97 + 26) else
  if (48 <=? c) && (c <=? 57) then Some (c - 48 + 52) else
  if c =? 43 then Some 62 else if c =? 47 then Some 63 else None.
Definition pad : Z := 61.
(** Three bytes are four characters; one or two that are left are padded. *)
Fixpoint encode (l : list Z) : list Z :=
  match l with
  | a :: b :: c :: l =>
      char_of (a / 4) :: char_of (a mod 4 * 16 + b / 16) :: char_of (b mod 16 * 4 + c / 64) :: char_of (c mod 64) :: encode l
  | [a; b] => [char_of (a / 4); char_of (a mod 4 * 16 + b / 16); char_of (b mod 16 * 4); pad]
  | [a] => [char_of (a / 4); char_of (a mod 4 * 16); pad; pad]
  | [] => []
  end.
Fixpoint decode (l : list Z) : option (list Z) :=
  match l with
  | [] => Some []
  | [p; q; r; s] =>
      let* x := of_char p in let* y := of_char q in
      if (r =? pad) && (s =? pad) then Some [x * 4 + y / 16] else
      let* z := of_char r in
      if s =? pad then Some [x * 4 + y / 16; y mod 16 * 16 + z / 4] else
      let* t := of_char s in Some [x * 4 + y / 16; y mod 16 * 16 + z / 4; z mod 4 * 64 + t]
  | p :: q :: r :: s :: l =>
      let* x := of_char p in let* y := of_char q in let* z := of_char r in let* t := of_char s in
      let* rest := decode l in Some (x * 4 + y / 16 :: y mod 16 * 16 + z / 4 :: z mod 4 * 64 + t :: rest)
  | _ => None
  end.
End Rfc.

(** ** The class *)

Module Base64.
Export State.

Definition BASE64_BUF_SIZE : nat := Z.to_nat 16384.
Inductive error_code := ok | invalid_input | buffer_overflow | encode_failed | decode_failed | file_open_failed | file_read_failed | file_write_failed.
#[global] Instance error_code_dec : EqDecision error_code.
Proof. solve_decision. Defined.
(** Calls that may fail - making a filter, opening a file for writing, writing - take
    their results from a script, and succeed when it is used up.  [live] counts what is
    open: filters and files. *)
Record world := World { answers : list bool; live : Z; files : gmap string (list Z) }.
Abbreviation M := (State.M world).
Definition ask : M bool := fun w => match answers w with [] => Some (true, w) | a :: l => Some (a, World l (live w) (files w)) end.
Definition open (n : Z) : M unit := modify (fun w => World (answers w) (live w + n) (files w)).
Definition close (n : Z) : M unit := modify (fun w => World (answers w) (live w - n) (files w)).
Definition set_file (p : string) (l : list Z) : M unit := modify (fun w => World (answers w) (live w) (<[p := l]> (files w))).
(** [BIO_new]. *)
Definition bio_new : M bool := do a <- ask; do _ <- open (if a then 1 else 0); ret a.

Section Filters.
(** What is in memory after the bytes were written and flushed; what reading gives
    before the end, [None] when the first read is an error; what has come through of
    bytes that were not flushed. *)
Variables (bio_encode : list Z -> list Z) (bio_decode : list Z -> option (list Z)) (bio_partial : list Z -> list Z).

(** [static_cast<int>] of a length: a negative length writes nothing. *)
Definition to_int (n : nat) : Z := sint_of 32 (Z.of_nat n).
Definition written (src : list Z) : list Z := take (Z.to_nat (to_int (length src))) src.

(** *** Encoding *)

(** A buffer, whose length the caller also gives. *)
Definition encode (dst : list Z) (dst_len : nat) (src : list Z) : M (error_code * list Z * nat) :=
  if (length src =? 0)%nat || (dst_len =? 0)%nat then ret (invalid_input, dst, dst_len) else
  do a <- bio_new;
  if negb a then ret (encode_failed, dst, dst_len) else
  do a <- bio_new;
  if negb a then do _ <- close 1; ret (encode_failed, dst, dst_len) else
  let buffer := bio_encode (written src) in
  if (dst_len <? length buffer)%nat then do _ <- close 2; ret (buffer_overflow, dst, dst_len) else
  if (length dst <? length buffer)%nat then undefined else
  do _ <- close 2; ret (ok, buffer ++ drop (length buffer) dst, length buffer).
Definition encode_len_reserve (src_len : nat) : nat := ((src_len + 2) / 3 * 4)%nat.
Definition encode_string (src : list Z) : M (error_code * list Z) :=
  let n := encode_len_reserve (length src) in
  do (ec, dst, n) <- encode (replicate n 0) n src;
  if decide (ec = ok) then ret (ok, take n dst) else ret (ec, []).
(** [in.read(buffer, n) || in.gcount() > 0]: the chunks of what is left. *)
Fixpoint chunks (fuel n : nat) (l : list Z) : list (list Z) :=
  match fuel, l with
  | _, [] | O, _ => []
  | S fuel, _ => take n l :: chunks fuel n (drop n l)
  end.
Definition reads (n : nat) (l : list Z) : list (list Z) := chunks (length l) n l.
(** The chunks are written to the filter, until one is not. *)
Fixpoint write_chunks (l : list (list Z)) (acc : list Z) : M (bool * list Z) :=
  match l with
  | [] => ret (true, acc)
  | c :: l => do a <- ask; if a then write_chunks l (acc ++ c) else ret (false, acc)
  end.
(** A stream: whether it is good, and what is left in it, or was put into it. *)
Definition encode_stream (out : bool * list Z) (inp : bool * list Z) : M (error_code * list Z) :=
  if negb (fst inp) || negb (fst out) then ret (invalid_input, snd out) else
  do a <- bio_new;
  if negb a then ret (encode_failed, snd out) else
  do a <- bio_new;
  if negb a then do _ <- close 1; ret (encode_failed, snd out) else
  do (r, l) <- write_chunks (reads BASE64_BUF_SIZE (snd inp)) [];
  if negb r then do _ <- close 2; ret (encode_failed, snd out) else
  do _ <- close 2; ret (ok, snd out ++ bio_encode l).
(** [fopen(path, "wb")] empties the file. *)
Definition open_write (p : string) : M bool := do a <- ask; if a then do _ <- open 1; do _ <- set_file p []; ret true else ret false.
Definition open_read (p : string) : M bool :=
  do f <- gets (fun w => files w !! p);
  match f with Some _ => do _ <- open 1; ret true | None => ret false end.
Definition content (p : string) : M (list Z) := gets (fun w => default [] (files w !! p)).
Definition encode_file (dst_file_path src_file_path : string) : M error_code :=
  do a <- open_read src_file_path;
  if negb a then ret file_open_failed else
  do a <- open_write dst_file_path;
  if negb a then do _ <- close 1; ret file_open_failed else
  do _ <- open 1;
  do a <- bio_new;
  if negb a then do _ <- close 3; ret encode_failed else
  do s <- content src_file_path;
  do (r, l) <- write_chunks (reads BASE64_BUF_SIZE s) [];
  do _ <- set_file dst_file_path (if r then bio_encode l else bio_partial l);
  do _ <- close 4;
  ret (if r then ok else encode_failed).

(** *** Decoding *)

Definition decode (dst : list Z) (dst_len : nat) (src : list Z) : M (error_code * list Z * nat) :=
  if negb (length src mod 4 =? 0)%nat then ret (invalid_input, dst, dst_len) else
  do a <- if (to_int (length src) <? 0) then ret false else bio_new;
  if negb a then ret (decode_failed, dst, dst_len) else
  do a <- bio_new;
  if negb a then do _ <- close 1; ret (decode_failed, dst, dst_len) else
  match bio_decode (take (Z.to_nat (to_int (length src))) src) with
  | None => do _ <- close 2; ret (decode_failed, dst, dst_len)
  | Some l =>
      let l := take (Z.to_nat (to_int dst_len)) l in
      if (length dst <? length l)%nat then undefined else
      do _ <- close 2; ret (ok, l ++ drop (length l) dst, length l)
  end.
Definition decode_len_reserve (src_len : nat) : nat := (src_len / 4 * 3)%nat.
Definition decode_string (src : list Z) : M (error_code * list Z) :=
  let n := decode_len_reserve (length src) in
  do (ec, dst, n) <- decode (replicate n 0) n src;
  if decide (ec = ok) then ret (ok, take n dst) else ret (ec, []).
(** The input is gathered, then read through the filter in pieces. *)
Definition decode_stream (out : list Z) (inp : bool * list Z) : M (error_code * list Z) :=
  do a <- bio_new;
  if negb a then ret (decode_failed, out) else
  let input_buf := concat (reads BASE64_BUF_SIZE (if fst inp then snd inp else [])) in
  do a <- if (to_int (length input_buf) <? 0) then ret false else bio_new;
  if negb a then do _ <- close 1; ret (decode_failed, out) else
  do _ <- close 2;
  ret (ok, out ++ match bio_decode (take (Z.to_nat (to_int (length input_buf))) input_buf) with Some l => concat (reads BASE64_BUF_SIZE l) | None => [] end).
Definition decode_file (dst_file_path src_file_path : string) : M error_code :=
  do a <- open_read src_file_path;
  if negb a then ret file_open_failed else
  do a <- open_write dst_file_path;
  if negb a then do _ <- close 1; ret file_open_failed else
  do _ <- open 1;
  do a <- bio_new;
  if negb a then do _ <- close 3; ret decode_failed else
  do s <- content src_file_path;
  do (r, l) <- write_chunks (reads 4096 (default [] (bio_decode s))) [];
  do _ <- set_file dst_file_path l;
  do _ <- close 4;
  ret (if r then ok else file_write_failed).
End Filters.

(** *** The check of a text *)

Definition is_letter (c : Z) : bool :=
  ((65 <=? c) && (c <=? 90)) || ((97 <=? c) && (c <=? 122)) || ((48 <=? c) && (c <=? 57)) || (c =? 43) || (c =? 47).
(** [left] counts the characters from the current one to the end. *)
Fixpoint is_valid_loop (l : list Z) (pad : nat) : bool :=
  match l with
  | [] => true
  | c :: r =>
      let c := sint_of 8 c in
      if is_letter c then if (0 <? pad)%nat then false else is_valid_loop r pad else
      if c =? 61 then
        let pad := S pad in
        if (2 <? pad)%nat then false else if (2 <? length l)%nat then false else is_valid_loop r pad
      else false
  end.
Definition is_valid (buf : option (list Z)) : bool :=
  match buf with
  | None => false
  | Some l => if (length l =? 0)%nat then false else if negb (length l mod 4 =? 0)%nat then false else is_valid_loop l 0
  end.
(** A file stream: its bytes, where it is, whether it is open; the result and where it
    is then. *)
Definition is_valid_stream (opened : bool) (data : list Z) (pos : nat) : bool * nat :=
  if negb opened then (false, pos) else
  let l := reads BASE64_BUF_SIZE (drop pos data) in
  match list_find (fun c => is_valid (Some c) = false) l with
  | Some (i, c) => (false, (pos + length (concat (take (S i) l)))%nat)
  | None => let total_len := length (concat l) in (negb (total_len =? 0)%nat && (total_len mod 4 =? 0)%nat, pos)
  end.
Definition is_valid_file (w : world) (path : string) : bool :=
  match files w !! path with Some l => fst (is_valid_stream true l 0) | None => false end.
End Base64.
