(* ===== verification/Base64Thm.v ===== *)
(** * Base64: theorems

    The encoding of RFC 4648 can be decoded; what every form of [encode] gives is that
    encoding, every form of [decode] undoes it, and nothing stays open whatever fails;
    the check accepts exactly the texts of the alphabet with their padding. *)

From Stdlib Require Import Ascii String ZArith Lia List Bool.
From stdpp Require Import base tactics list option strings gmap.
From S2P Require Import Prelude Base64.

Open Scope hj_scope.
Open Scope Z_scope.

(** ** RFC 4648 *)

Section Encoding.
Import Rfc.

Lemma triple_ind {A} (P : list A -> Prop) : P [] -> (forall a, P [a]) -> (forall a b, P [a; b]) -> (forall a b c l, P l -> P (a :: b :: c :: l)) -> forall l, P l.
Proof. intros H0 H1 H2 H3. fix IH 1. intros [|a [|b [|c l]]]; [exact H0|exact (H1 a)|exact (H2 a b)|exact (H3 a b c l (IH l))]. Qed.

(** A fact of every number of 6 bits, by enumeration. *)
Lemma six_forall (P : Z -> bool) : forallb (fun n => P (Z.of_nat n)) (List.seq 0 64) = true -> forall n, 0 <= n < 64 -> P n = true.
Proof. intros H n Hn. rewrite forallb_forall in H. rewrite <- (Z2Nat.id n) by lia. apply H, in_seq. lia. Qed.
Lemma of_char_of n : 0 <= n < 64 -> of_char (char_of n) = Some n.
Proof.
  intros Hn. pose proof (six_forall (fun n => match of_char (char_of n) with Some m => m =? n | None => false end) ltac:(vm_compute; reflexivity) n Hn) as H. cbv beta in H.
  destruct (of_char (char_of n)); [|discriminate]. now apply Z.eqb_eq in H as ->.
Qed.
Lemma char_not_pad n : 0 <= n < 64 -> (char_of n =? pad) = false.
Proof. intros Hn. pose proof (six_forall (fun n => negb (char_of n =? pad)) ltac:(vm_compute; reflexivity) n Hn) as H. now apply negb_true_iff in H. Qed.
Lemma char_of_letter n : 0 <= n < 64 -> Base64.is_letter (sint_of 8 (char_of n)) = true.
Proof. exact (six_forall (fun n => Base64.is_letter (sint_of 8 (char_of n))) ltac:(vm_compute; reflexivity) n). Qed.

(** The bytes from the groups of 6 bits. *)
Lemma regroup a b c : byte a -> byte b -> byte c ->
  (0 <= a / 4 < 64 /\ 0 <= a mod 4 * 16 + b / 16 < 64 /\ 0 <= b mod 16 * 4 + c / 64 < 64 /\ 0 <= c mod 64 < 64)
  /\ a / 4 * 4 + (a mod 4 * 16 + b / 16) / 16 = a /\ (a mod 4 * 16 + b / 16) mod 16 * 16 + (b mod 16 * 4 + c / 64) / 4 = b
  /\ (b mod 16 * 4 + c / 64) mod 4 * 64 + c mod 64 = c.
Proof. unfold byte. intros. repeat split; Z.to_euclidean_division_equations; lia. Qed.
Lemma byte_0 : byte 0.
Proof. unfold byte. lia. Qed.

Lemma encode_cons4 l : encode l <> [] -> exists p q r s m, encode l = p :: q :: r :: s :: m.
Proof. destruct l as [|a [|b [|c l]]]; cbn; [congruence|eauto 10..]. Qed.
Lemma encode_nil l : encode l = [] -> l = [].
Proof. destruct l as [|a [|b [|c l]]]; cbn; congruence. Qed.
Lemma decode_cons p q r s l x y z t : l <> [] -> of_char p = Some x -> of_char q = Some y -> of_char r = Some z -> of_char s = Some t ->
  decode (p :: q :: r :: s :: l) = match decode l with Some rest => Some (x * 4 + y / 16 :: y mod 16 * 16 + z / 4 :: z mod 4 * 64 + t :: rest) | None => None end.
Proof.
  intros Hl H1 H2 H3 H4. destruct l as [|u l]; [congruence|].
  change (decode (p :: q :: r :: s :: u :: l)) with (let* x := of_char p in let* y := of_char q in let* z := of_char r in let* t := of_char s in
    let* rest := decode (u :: l) in Some (x * 4 + y / 16 :: y mod 16 * 16 + z / 4 :: z mod 4 * 64 + t :: rest)).
  now rewrite H1, H2, H3, H4.
Qed.

Lemma decode_encode l : bytes l -> decode (encode l) = Some l.
Proof.
  induction l as [|a|a b|a b c l IH] using triple_ind; intros Hl; cbn [encode].
  - reflexivity.
  - apply Forall_cons in Hl as [Ha _]. destruct (regroup a 0 0 Ha byte_0 byte_0) as ((H1 & H2 & _) & E1 & _). change (0 / 16) with 0 in *. rewrite Z.add_0_r in *.
    cbn [decode]. rewrite !of_char_of by assumption. rewrite Z.eqb_refl. cbn [andb]. now rewrite E1.
  - apply Forall_cons in Hl as [Ha Hl]. apply Forall_cons in Hl as [Hb _]. destruct (regroup a b 0 Ha Hb byte_0) as ((H1 & H2 & H3 & _) & E1 & E2 & _). change (0 / 64) with 0 in *. rewrite Z.add_0_r in H3, E2.
    cbn [decode]. rewrite !of_char_of by assumption. rewrite (char_not_pad _ H3), Z.eqb_refl. cbn [andb]. now rewrite E1, E2.
  - apply Forall_cons in Hl as [Ha Hl]. apply Forall_cons in Hl as [Hb Hl]. apply Forall_cons in Hl as [Hc Hl]. specialize (IH Hl).
    destruct (regroup a b c Ha Hb Hc) as ((H1 & H2 & H3 & H4) & E1 & E2 & E3). destruct l as [|d l].
    + cbn [encode decode]. rewrite !of_char_of by assumption. rewrite (char_not_pad _ H3), (char_not_pad _ H4). cbn [andb]. now rewrite E1, E2, E3.
    + assert (Hne : encode (d :: l) <> []) by (intros H; apply encode_nil in H; discriminate).
      rewrite (decode_cons _ _ _ _ _ _ _ _ _ Hne (of_char_of _ H1) (of_char_of _ H2) (of_char_of _ H3) (of_char_of _ H4)), IH. now rewrite E1, E2, E3.
Qed.
Lemma length_encode l : length (encode l) = Base64.encode_len_reserve (length l).
Proof.
  unfold Base64.encode_len_reserve. induction l as [|a|a b|a b c l IH] using triple_ind; [reflexivity..|]. cbn [encode length]. rewrite IH.
  replace (S (S (S (length l))) + 2)%nat with (length l + 2 + 1 * 3)%nat by lia. rewrite Nat.div_add by lia. lia.
Qed.
End Encoding.

(** ** The check *)

Section Check.
Import Base64.
Definition letter (c : Z) : Prop := is_letter (sint_of 8 c) = true.
(** A text: letters, and at most two signs of padding at its end. *)
Definition text (l : list Z) : Prop := l <> [] /\ (length l mod 4 = 0)%nat /\ exists body k, l = body ++ replicate k Rfc.pad /\ Forall letter body /\ (k <= 2)%nat.

Lemma sint_byte c : byte c -> sint_of 8 c = 61 -> c = 61.
Proof. intros Hc H. pose proof (byte_forall (fun c => implb (sint_of 8 c =? 61) (c =? 61)) ltac:(vm_compute; reflexivity) c Hc) as E. cbn in E. rewrite H in E. cbn in E. lia. Qed.

Lemma loop_pads l pad : is_valid_loop l (S pad) = true -> bytes l -> l = replicate (length l) Rfc.pad.
Proof.
  revert pad. induction l as [|c l IH]; intros pad H Hb; [reflexivity|]. apply Forall_cons in Hb as [Hc Hb]. cbn [is_valid_loop] in H. destruct (is_letter (sint_of 8 c)); [discriminate|].
  destruct (sint_of 8 c =? 61) eqn:E; [|discriminate]. apply Z.eqb_eq in E. apply (sint_byte c Hc) in E. subst c.
  destruct (2 <? S (S pad))%nat; [discriminate|]. destruct (2 <? length (61%Z :: l))%nat; [discriminate|]. cbn [length replicate]. f_equal. exact (IH _ H Hb).
Qed.
Lemma check_loop l : bytes l -> is_valid_loop l 0 = true <-> exists body k, l = body ++ replicate k Rfc.pad /\ Forall letter body /\ (k <= 2)%nat.
Proof.
  induction l as [|c l IH]; intros Hb.
  - split; [intros _; exists [], 0%nat; auto with lia|reflexivity].
  - apply Forall_cons in Hb as [Hc Hb]. specialize (IH Hb). cbn [is_valid_loop]. destruct (is_letter (sint_of 8 c)) eqn:El.
    + cbn [Nat.ltb Nat.leb]. rewrite IH. split.
      * intros (body & k & -> & Hf & Hk). exists (c :: body), k. split; [reflexivity|]. split; [now constructor|exact Hk].
      * intros ([|d body] & k & E & Hf & Hk).
        -- destruct k as [|k]; [discriminate|]. injection E as -> _. vm_compute in El. discriminate El.
        -- injection E as -> ->. apply Forall_cons in Hf as [_ Hf]. eauto.
    + destruct (sint_of 8 c =? 61) eqn:E6.
      * apply Z.eqb_eq in E6. apply (sint_byte c Hc) in E6. subst c. change (2 <? 1)%nat with false. cbv iota. destruct (2 <? length (61%Z :: l))%nat eqn:Elen.
        -- split; [discriminate|]. intros ([|d body] & k & E & Hf & Hk).
           ++ apply Nat.ltb_lt in Elen. apply (f_equal length) in E. cbn in E, Elen. rewrite length_replicate in E. lia.
           ++ injection E as <- _. apply Forall_cons in Hf as [Hd _]. unfold letter in Hd. congruence.
        -- apply Nat.ltb_ge in Elen. cbn [length] in Elen. split.
           ++ intros H. apply loop_pads in H; [|exact Hb]. exists [], (S (length l)). cbn [replicate app]. rewrite <- H. split; [reflexivity|]. split; [constructor|lia].
           ++ intros ([|d body] & k & E & Hf & Hk).
              ** destruct k as [|k]; [discriminate|]. injection E as ->. destruct k as [|[|k]]; [reflexivity|reflexivity|lia].
              ** injection E as <- _. apply Forall_cons in Hf as [Hd _]. unfold letter in Hd. congruence.
      * split; [discriminate|]. intros ([|d body] & k & E & Hf & Hk).
        -- destruct k as [|k]; [discriminate|]. injection E as -> _. vm_compute in E6. discriminate E6.
        -- injection E as <- _. apply Forall_cons in Hf as [Hd _]. unfold letter in Hd. congruence.
Qed.

(** The check of a text accepts exactly what is not empty, has a length that is a
    multiple of four, and is letters of the alphabet with at most two signs of padding
    at the end. *)
Theorem base64_check l : bytes l -> is_valid (Some l) = true <-> text l.
Proof.
  intros Hb. unfold is_valid, text. destruct (length l =? 0)%nat eqn:E0.
  - apply Nat.eqb_eq in E0. apply nil_length_inv in E0. split; [discriminate|]. now intros [H _].
  - apply Nat.eqb_neq in E0. destruct (length l mod 4 =? 0)%nat eqn:E4; cbn [negb].
    + apply Nat.eqb_eq in E4. rewrite (check_loop l Hb). split; [intros H; split; [intros ->; now apply E0|auto]|tauto].
    + apply Nat.eqb_neq in E4. split; [discriminate|]. tauto.
Qed.
Lemma base64_check_witness : text [81; 81; 61; 61] /\ is_valid (Some [81; 61; 81; 61]) = false.
Proof. split; [apply (base64_check [81; 81; 61; 61]); [repeat constructor; unfold byte; lia|reflexivity]|reflexivity]. Defined.
End Check.

(** ** Nothing stays open *)

Section Closing.
Import Base64.

(** The program returns, and what is open changes by a number its result gives. *)
Definition shifts {A} (x : M A) (n : A -> Z) : Prop := forall w, post x w (fun a w' => live w' = live w + n a).

Lemma shifts_ret {A} (a : A) n : n a = 0 -> shifts (ret a) n.
Proof. intros H w. apply post_ret. lia. Qed.
Lemma shifts_bind {A B} (x : M A) (f : A -> M B) n k : shifts x n -> (forall a, shifts (f a) (fun b => k b - n a)) -> shifts (bind x f) k.
Proof.
  intros Hx Hf w. apply post_bind. eapply post_weaken; [apply Hx|]. intros a w' H. cbv beta in H. eapply post_weaken; [apply Hf|]. cbv beta. intros b w2 H2. lia.
Qed.
Lemma shifts_ext {A} (x : M A) n k : shifts x n -> (forall a, n a = k a) -> shifts x k.
Proof. intros H E w. eapply post_weaken; [apply H|]. cbv beta. intros a w' H'. rewrite <- E. exact H'. Qed.
Lemma shifts_ask : shifts ask (fun _ => 0).
Proof. intros [[|a l] o f]; cbn; lia. Qed.
Lemma shifts_open n : shifts (open n) (fun _ => n).
Proof. intros w. cbn. lia. Qed.
Lemma shifts_close n : shifts (close n) (fun _ => - n).
Proof. intros w. cbn. lia. Qed.
Lemma shifts_gets {A} (f : world -> A) : shifts (gets f) (fun _ => 0).
Proof. intros w. apply post_gets. lia. Qed.
Lemma shifts_set_file p l : shifts (set_file p l) (fun _ => 0).
Proof. intros w. cbn. lia. Qed.
Lemma shifts_bio_new : shifts bio_new (fun a => if a then 1 else 0).
Proof.
  eapply shifts_bind; [apply shifts_ask|]. intros a. eapply shifts_bind; [apply shifts_open|]. intros ?. apply shifts_ret. cbv beta. destruct a; lia.
Qed.
Lemma shifts_open_write p : shifts (open_write p) (fun a => if a then 1 else 0).
Proof.
  eapply shifts_bind; [apply shifts_ask|]. intros [|]; [|now apply shifts_ret]. eapply shifts_bind; [apply shifts_open|]. intros ?.
  eapply shifts_bind; [apply shifts_set_file|]. intros ?. apply shifts_ret. cbv beta. lia.
Qed.
Lemma shifts_open_read p : shifts (open_read p) (fun a => if a then 1 else 0).
Proof.
  eapply shifts_bind; [apply shifts_gets|]. intros [l|]; [|now apply shifts_ret]. eapply shifts_bind; [apply shifts_open|]. intros ?. apply shifts_ret. cbv beta. lia.
Qed.
Lemma shifts_write_chunks l acc : shifts (write_chunks l acc) (fun _ => 0).
Proof.
  revert acc. induction l as [|c l IH]; intros acc; cbn [write_chunks]; [now apply shifts_ret|].
  eapply shifts_bind; [apply shifts_ask|]. intros [|]; [|now apply shifts_ret]. eapply shifts_ext; [apply IH|]. reflexivity.
Qed.
End Closing.

(** The rules, tried in turn; a test is a case. *)
Create HintDb shifts.
#[export] Hint Resolve shifts_ask shifts_open shifts_close shifts_gets shifts_set_file shifts_bio_new shifts_open_write shifts_open_read shifts_write_chunks : shifts.
Ltac shift_step :=
  lazymatch goal with
  | |- shifts (State.ret _) _ => apply shifts_ret; cbv beta iota; lia
  | |- shifts (State.bind (if ?t then _ else _) _) _ => destruct t eqn:?
  | |- shifts (State.bind (State.ret ?x) ?f) ?k => change (shifts (f x) k); cbv beta iota; cbn [negb]
  | |- shifts (State.bind _ _) _ => eapply shifts_bind; [solve [eauto with shifts]|intros ?; cbv beta]
  | |- shifts (if negb ?a then _ else _) _ => destruct a; cbn [negb]
  | |- shifts (if ?t then _ else _) _ => destruct t eqn:?
  | |- shifts (let x := _ in _) _ => cbv zeta
  | |- shifts (match ?t with _ => _ end) _ => destruct t
  end.
Ltac shifting := repeat shift_step.

Section Safety.
Import Base64.
Variables (bio_encode : list Z -> list Z) (bio_decode : list Z -> option (list Z)) (bio_partial : list Z -> list Z).

Lemma shifts_encode dst dst_len src : (dst_len <= length dst)%nat -> shifts (encode bio_encode dst dst_len src) (fun _ => 0).
Proof.
  intros H. unfold encode. shifting. reflect_bools. lia.
Qed.
Lemma to_int_le n : (Z.to_nat (to_int n) <= n)%nat.
Proof.
  unfold to_int, sint_of. pose proof (Z.mod_le (Z.of_nat n) (2 ^ 32) ltac:(lia) ltac:(lia)) as H. pose proof (Z.mod_pos_bound (Z.of_nat n) (2 ^ 32) ltac:(lia)) as H2.
  unfold wrap. destruct (Z.testbit _ _); lia.
Qed.
Lemma shifts_decode dst dst_len src : (dst_len <= length dst)%nat -> shifts (decode bio_decode dst dst_len src) (fun _ => 0).
Proof.
  intros H. unfold decode. shifting; reflect_bools; rewrite length_take in *; pose proof (to_int_le dst_len); lia.
Qed.
Lemma shifts_encode_string src : shifts (encode_string bio_encode src) (fun _ => 0).
Proof. unfold encode_string. eapply shifts_bind; [apply shifts_encode; rewrite length_replicate; lia|]. intros [[ec d] n]. shifting. Qed.
Lemma shifts_decode_string src : shifts (decode_string bio_decode src) (fun _ => 0).
Proof. unfold decode_string. eapply shifts_bind; [apply shifts_decode; rewrite length_replicate; lia|]. intros [[ec d] n]. shifting. Qed.
Lemma shifts_encode_stream out inp : shifts (encode_stream bio_encode out inp) (fun _ => 0).
Proof. unfold encode_stream. shifting. Qed.
Lemma shifts_encode_file d f : shifts (encode_file bio_encode bio_partial d f) (fun _ => 0).
Proof. unfold encode_file. shifting. Qed.
Lemma shifts_decode_stream out inp : shifts (decode_stream bio_decode out inp) (fun _ => 0).
Proof. unfold decode_stream. shifting. Qed.
Lemma shifts_decode_file d f : shifts (decode_file bio_decode d f) (fun _ => 0).
Proof. unfold decode_file. shifting. Qed.

(** Whatever is not available - a filter, a file to write, room to write - every
    form of encoding and decoding returns, within its buffers, and closes all it opened. *)
Theorem base64_closes w :
  (forall dst dst_len src, (dst_len <= length dst)%nat -> post (encode bio_encode dst dst_len src) w (fun _ w' => live w' = live w) /\ post (decode bio_decode dst dst_len src) w (fun _ w' => live w' = live w))
  /\ (forall src, post (encode_string bio_encode src) w (fun _ w' => live w' = live w) /\ post (decode_string bio_decode src) w (fun _ w' => live w' = live w))
  /\ (forall out inp, post (encode_stream bio_encode out inp) w (fun _ w' => live w' = live w) /\ post (decode_stream bio_decode (snd out) inp) w (fun _ w' => live w' = live w))
  /\ (forall dst src, post (encode_file bio_encode bio_partial dst src) w (fun _ w' => live w' = live w) /\ post (decode_file bio_decode dst src) w (fun _ w' => live w' = live w)).
Proof.
  assert (G : forall {A} (x : M A), shifts x (fun _ => 0) -> post x w (fun _ w' => live w' = live w)).
  { intros A x H. eapply post_weaken; [apply H|]. cbv beta. intros _ w' E. lia. }
  split_and!; intros; split; apply G; auto using shifts_encode, shifts_decode, shifts_encode_string, shifts_decode_string, shifts_encode_stream, shifts_decode_stream, shifts_encode_file, shifts_decode_file.
Qed.
End Safety.

(** ** Round trips *)

Section RoundTrip.
Import Base64.
(** What the filters do, as they are documented: the encoding of RFC 4648, without
    newlines, and its inverse. *)
Class B64Laws (bio_encode : list Z -> list Z) (bio_decode : list Z -> option (list Z)) : Prop := {
  b64_encode : forall l, bytes l -> bio_encode l = Rfc.encode l;
  b64_decode : forall l, bytes l -> bio_decode (Rfc.encode l) = Some l }.
#[global] Instance rfc_laws : B64Laws Rfc.encode Rfc.decode.
Proof. split; [reflexivity|exact decode_encode]. Qed.

Context {bio_encode : list Z -> list Z} {bio_decode : list Z -> option (list Z)} (bio_partial : list Z -> list Z) `{!B64Laws bio_encode bio_decode}.

Lemma concat_chunks fuel n l : (0 < n)%nat -> (length l <= fuel)%nat -> concat (chunks fuel n l) = l.
Proof.
  intros Hn. revert l. induction fuel as [|fuel IH]; intros l Hl; [apply Nat.le_0_r, nil_length_inv in Hl; now subst|].
  destruct l as [|x l]; [reflexivity|]. cbn [chunks concat]. rewrite IH; [apply take_drop|]. rewrite length_drop. cbn [length] in *. lia.
Qed.
Lemma concat_reads n l : (0 < n)%nat -> concat (reads n l) = l.
Proof. intros Hn. now apply concat_chunks. Qed.
Lemma buf_size_pos : (0 < BASE64_BUF_SIZE)%nat.
Proof. unfold BASE64_BUF_SIZE. lia. Qed.
Lemma write_chunks_all l acc w : answers w = [] -> write_chunks l acc w = Some ((true, acc ++ concat l), w).
Proof.
  intros Hw. revert acc. induction l as [|c l IH]; intros acc; cbn [write_chunks concat]; [now rewrite app_nil_r|]. unfold bind at 1, ask. rewrite Hw. rewrite IH. now rewrite app_assoc.
Qed.
Lemma to_int_small n : Z.of_nat n < 2 ^ 31 -> to_int n = Z.of_nat n.
Proof.
  intros H. unfold to_int, sint_of. rewrite (wrap_small 32) by (unfold uint; lia). change (32 - 1) with 31. rewrite (uint_testbit 31) by (unfold uint; lia). reflexivity.
Qed.

(** A state in which all calls succeed; opening and closing in turn. *)
Lemma bio_new_eval w : answers w = [] -> bio_new w = Some (true, World [] (live w + 1) (files w)).
Proof. intros H. unfold bio_new, bind, ask. rewrite H. unfold open, modify, ret. now rewrite H. Qed.
Lemma world_eta w n : answers w = [] -> n = live w -> World [] n (files w) = w.
Proof. destruct w as [a l f]. cbn. now intros -> ->. Qed.

Variables (src : list Z).
Hypothesis Hb : bytes src.
Hypothesis Hlen : Z.of_nat (encode_len_reserve (length src)) < 2 ^ 31.
Abbreviation e := (Rfc.encode src).

Lemma length_src_e : (length src <= decode_len_reserve (length e) /\ length src <= length e /\ length e mod 4 = 0)%nat.
Proof.
  rewrite length_encode. unfold encode_len_reserve, decode_len_reserve. rewrite Nat.div_mul, Nat.Div0.mod_mul by lia. pose proof (Nat.div_mod (length src + 2) 3 ltac:(lia)) as H. pose proof (Nat.mod_upper_bound (length src + 2) 3 ltac:(lia)). lia.
Qed.
Lemma e_small : Z.of_nat (length e) < 2 ^ 31.
Proof. now rewrite length_encode. Qed.
Lemma src_small : Z.of_nat (length src) < 2 ^ 31.
Proof. pose proof e_small. pose proof length_src_e. lia. Qed.
Lemma all_written (l : list Z) : Z.of_nat (length l) < 2 ^ 31 -> take (Z.to_nat (to_int (length l))) l = l.
Proof. intros H. rewrite to_int_small by exact H. rewrite Nat2Z.id. now apply take_ge. Qed.

Lemma enc_src : bio_encode src = e.
Proof. exact (b64_encode src Hb). Qed.
Lemma dec_e : bio_decode e = Some src.
Proof. exact (b64_decode src Hb). Qed.

Lemma encode_string_ok w : answers w = [] -> src <> [] -> encode_string bio_encode src w = Some ((ok, e), w).
Proof.
  intros Hw Hne. assert (H0 : length src <> 0%nat) by (intros H; now apply nil_length_inv in H).
  unfold encode_string, encode. unfold written. rewrite all_written by apply src_small. rewrite enc_src. rewrite length_replicate, length_encode.
  assert (E1 : ((length src =? 0)%nat || (encode_len_reserve (length src) =? 0)%nat) = false).
  { apply orb_false_iff. split; apply Nat.eqb_neq; [exact H0|]. rewrite <- length_encode. destruct length_src_e as (_ & H & _). lia. }
  rewrite E1. unfold bind at 1 2. rewrite (bio_new_eval w Hw). cbn [negb]. unfold bind at 1. rewrite (bio_new_eval (World [] (live w + 1) (files w)) eq_refl). cbn [negb answers live files]. rewrite Nat.ltb_irrefl.
  unfold bind, close, modify, ret. cbn [answers live files]. rewrite decide_True by reflexivity.
  rewrite drop_ge by (rewrite length_replicate; lia). rewrite app_nil_r, take_ge by (rewrite length_encode; lia). rewrite world_eta; [reflexivity|exact Hw|lia].
Qed.
Lemma decode_string_ok w : answers w = [] -> decode_string bio_decode e w = Some ((ok, src), w).
Proof.
  intros Hw. destruct length_src_e as (L1 & L2 & L3). unfold decode_string, decode. rewrite L3. cbn [Nat.eqb negb].
  rewrite to_int_small by apply e_small. destruct (Z.of_nat (length e) <? 0) eqn:E; [apply Z.ltb_lt in E; lia|].
  unfold bind at 1 2. rewrite (bio_new_eval w Hw). cbn [negb]. unfold bind at 1. rewrite (bio_new_eval (World [] (live w + 1) (files w)) eq_refl). cbn [negb answers live files].
  rewrite Nat2Z.id, (take_ge e) by lia. rewrite dec_e. rewrite length_replicate.
  assert (Hd : Z.of_nat (decode_len_reserve (length e)) < 2 ^ 31).
  { pose proof e_small. assert (decode_len_reserve (length e) <= length e)%nat; [|lia]. unfold decode_len_reserve. pose proof (Nat.div_mod (length e) 4 ltac:(lia)). lia. }
  rewrite (to_int_small _ Hd), Nat2Z.id, (take_ge src) by exact L1. destruct (decode_len_reserve (length e) <? length src)%nat eqn:E2; [apply Nat.ltb_lt in E2; lia|].
  unfold bind, close, modify, ret. cbn [answers live files]. rewrite decide_True by reflexivity. rewrite take_app_length. rewrite world_eta; [reflexivity|exact Hw|lia].
Qed.

Lemma encode_stream_ok o w : answers w = [] -> encode_stream bio_encode (true, o) (true, src) w = Some ((ok, o ++ e), w).
Proof.
  intros Hw. unfold encode_stream. cbn [fst snd negb orb]. unfold bind at 1. rewrite (bio_new_eval w Hw). cbn [negb]. unfold bind at 1. rewrite (bio_new_eval (World [] (live w + 1) (files w)) eq_refl). cbn [negb answers live files].
  unfold bind at 1. rewrite write_chunks_all by reflexivity. cbn [app negb]. rewrite concat_reads by apply buf_size_pos. rewrite enc_src.
  unfold bind, close, modify, ret. cbn [answers live files]. rewrite world_eta; [reflexivity|exact Hw|lia].
Qed.
Lemma decode_stream_ok o w : answers w = [] -> decode_stream bio_decode o (true, e) w = Some ((ok, o ++ src), w).
Proof.
  intros Hw. unfold decode_stream. cbn [fst snd]. unfold bind at 1. rewrite (bio_new_eval w Hw). cbn [negb]. rewrite concat_reads by apply buf_size_pos.
  rewrite to_int_small by apply e_small. destruct (Z.of_nat (length e) <? 0) eqn:E; [apply Z.ltb_lt in E; lia|]. unfold bind at 1. rewrite (bio_new_eval (World [] (live w + 1) (files w)) eq_refl). cbn [negb answers live files].
  rewrite Nat2Z.id, (take_ge e) by lia. rewrite dec_e, concat_reads by apply buf_size_pos.
  unfold bind, close, modify, ret. cbn [answers live files]. rewrite world_eta; [reflexivity|exact Hw|lia].
Qed.

(** Files: the destination is another file than the source. *)
Definition with_file (p : string) (l : list Z) (w : world) : world := World (answers w) (live w) (<[p := l]> (files w)).
Lemma opens_read p l w : files w !! p = Some l -> open_read p w = Some (true, World (answers w) (live w + 1) (files w)).
Proof. intros H. unfold open_read, bind, gets. rewrite H. reflexivity. Qed.
Lemma opens_write p w : answers w = [] -> open_write p w = Some (true, World [] (live w + 1) (<[p := []]> (files w))).
Proof. intros H. unfold open_write, bind, ask. rewrite H. unfold open, modify, ret, set_file, modify. cbn. now rewrite H. Qed.
Lemma with_file_eta w p x y n : answers w = [] -> n = live w -> World [] n (<[p := x]> (<[p := y]> (files w))) = with_file p x w.
Proof. intros H ->. unfold with_file. now rewrite insert_insert_eq, H. Qed.

Lemma encode_file_ok d f w : answers w = [] -> d <> f -> files w !! f = Some src -> encode_file bio_encode bio_partial d f w = Some (ok, with_file d e w).
Proof.
  intros Hw Hd Hf. unfold encode_file. unfold bind at 1. rewrite (opens_read f src w Hf), Hw. cbn [negb]. unfold bind at 1. rewrite opens_write by reflexivity. cbn [negb]. unfold bind at 1, open, modify at 1. cbn [answers live files].
  unfold bind at 1. rewrite bio_new_eval by reflexivity. cbn [negb answers live files]. unfold bind at 1, content, gets. cbn [files]. rewrite lookup_insert_ne by exact Hd. rewrite Hf. cbn [default from_option].
  unfold bind at 1. rewrite write_chunks_all by reflexivity. cbn [app id default from_option]. rewrite concat_reads by apply buf_size_pos. rewrite enc_src.
  unfold bind, set_file, close, modify, ret. cbn [answers live files]. rewrite with_file_eta; [reflexivity|exact Hw|lia].
Qed.
Lemma decode_file_ok d f w : answers w = [] -> d <> f -> files w !! f = Some e -> decode_file bio_decode d f w = Some (ok, with_file d src w).
Proof.
  intros Hw Hd Hf. unfold decode_file. unfold bind at 1. rewrite (opens_read f e w Hf), Hw. cbn [negb]. unfold bind at 1. rewrite opens_write by reflexivity. cbn [negb]. unfold bind at 1, open, modify at 1. cbn [answers live files].
  unfold bind at 1. rewrite bio_new_eval by reflexivity. cbn [negb answers live files]. unfold bind at 1, content, gets. cbn [files]. rewrite lookup_insert_ne by exact Hd. rewrite Hf. cbn [default from_option id].
  rewrite dec_e. cbn [default from_option id]. unfold bind at 1. rewrite write_chunks_all by reflexivity. cbn [app]. rewrite concat_reads by lia.
  unfold bind, set_file, close, modify, ret. cbn [answers live files]. rewrite with_file_eta; [reflexivity|exact Hw|lia].
Qed.

Lemma byte_pad : byte Rfc.pad.
Proof. unfold byte, Rfc.pad. lia. Qed.
(** The encoding is letters and padding. *)
Lemma encode_bytes_valid l : bytes l -> bytes (Rfc.encode l) /\ exists body k, Rfc.encode l = body ++ replicate k Rfc.pad /\ Forall letter body /\ (k <= 2)%nat.
Proof.
  assert (Hc : forall n, 0 <= n < 64 -> byte (Rfc.char_of n)) by (intros n Hn; pose proof (six_forall (fun n => (0 <=? Rfc.char_of n) && (Rfc.char_of n <? 256)) ltac:(vm_compute; reflexivity) n Hn) as H; apply andb_true_iff in H as [H1 H2]; unfold byte; lia).
  induction l as [|a|a b|a b c l IH] using triple_ind; intros Hl; cbn [Rfc.encode].
  - split; [constructor|]. exists [], 0%nat. auto with lia.
  - apply Forall_cons in Hl as [Ha _]. destruct (regroup a 0 0 Ha byte_0 byte_0) as ((H1 & H2 & _) & _). change (0 / 16) with 0 in *. rewrite Z.add_0_r in *.
    split; [unfold bytes; rewrite !Forall_cons; split_and!; auto using byte_pad|]. eexists [_; _], 2%nat. split; [reflexivity|]. split; [|lia]. rewrite !Forall_cons. split_and!; try now apply char_of_letter. constructor.
  - apply Forall_cons in Hl as [Ha Hl]. apply Forall_cons in Hl as [Hb' _]. destruct (regroup a b 0 Ha Hb' byte_0) as ((H1 & H2 & H3 & _) & _). change (0 / 64) with 0 in *. rewrite Z.add_0_r in *.
    split; [unfold bytes; rewrite !Forall_cons; split_and!; auto using byte_pad|]. eexists [_; _; _], 1%nat. split; [reflexivity|]. split; [|lia]. rewrite !Forall_cons. split_and!; try now apply char_of_letter. constructor.
  - apply Forall_cons in Hl as [Ha Hl]. apply Forall_cons in Hl as [Hb' Hl]. apply Forall_cons in Hl as [Hc' Hl]. destruct (regroup a b c Ha Hb' Hc') as ((H1 & H2 & H3 & H4) & _).
    destruct (IH Hl) as (HB & body & k & E & Hf & Hk). split; [unfold bytes; rewrite !Forall_cons; split_and!; auto|]. rewrite E. exists (Rfc.char_of (a / 4) :: Rfc.char_of (a mod 4 * 16 + b / 16) :: Rfc.char_of (b mod 16 * 4 + c / 64) :: Rfc.char_of (c mod 64) :: body), k.
    split; [reflexivity|]. split; [|exact Hk]. rewrite !Forall_cons. split_and!; try now apply char_of_letter. exact Hf.
Qed.

(** C31: encoding is that of RFC 4648 and decoding gives the bytes back, for strings,
    streams and files, of any contents shorter than 2^31 when encoded; what is encoded
    passes the check. *)
Theorem base64_roundtrip w : answers w = [] -> src <> [] ->
  (encode_string bio_encode src w = Some ((ok, e), w) /\ decode_string bio_decode e w = Some ((ok, src), w) /\ is_valid (Some e) = true)
  /\ (forall o, encode_stream bio_encode (true, o) (true, src) w = Some ((ok, o ++ e), w) /\ decode_stream bio_decode o (true, e) w = Some ((ok, o ++ src), w))
  /\ (forall a b c, a <> b -> b <> c -> files w !! a = Some src -> encode_file bio_encode bio_partial b a w = Some (ok, with_file b e w)
      /\ decode_file bio_decode c b (with_file b e w) = Some (ok, with_file c src (with_file b e w))).
Proof.
  intros Hw Hne. split; [|split].
  - split; [now apply encode_string_ok|]. split; [now apply decode_string_ok|]. destruct (encode_bytes_valid src Hb) as (HB & Hx). apply (base64_check e HB). split; [intros H; now apply encode_nil in H|].
    split; [apply length_src_e|exact Hx].
  - intros o. split; [now apply encode_stream_ok|now apply decode_stream_ok].
  - intros a b c Hab Hbc Hf. split; [apply encode_file_ok; auto|]. apply decode_file_ok; [exact Hw|congruence|]. apply lookup_insert_eq.
Qed.
End RoundTrip.

Section Base64Witness.
Import Base64.
Lemma base64_roundtrip_witness : encode_string Rfc.encode [77; 97] (World [] 0 ∅) = Some ((ok, [84; 87; 69; 61]), World [] 0 ∅)
  /\ decode_string Rfc.decode [84; 87; 69; 61] (World [] 0 ∅) = Some ((ok, [77; 97]), World [] 0 ∅).
Proof.
  destruct (base64_roundtrip (bio_encode := Rfc.encode) (bio_decode := Rfc.decode) (fun l => l) [77; 97] ltac:(repeat constructor; unfold byte; lia) ltac:(vm_compute; reflexivity) (World [] 0 ∅) eq_refl ltac:(discriminate)) as ((H1 & H2 & _) & _).
  split; [exact H1|exact H2].
Defined.

(** *** What goes wrong *)

(** Decoding into a buffer that is too small is reported as done, with what fits. *)
Lemma short_decode_is_ok : decode Rfc.decode [0] 1 [84; 87; 69; 61] (World [] 0 ∅) = Some ((ok, [77], 1%nat), World [] 0 ∅).
Proof. vm_compute. reflexivity. Qed.
(** A stream is checked by blocks of 16384 bytes, each as a text of its own: padding is
    accepted at the end of each. *)
Definition block : list Z := replicate (Z.to_nat 16383) 65 ++ [61].
Lemma padding_inside_accepted : fst (is_valid_stream true (block ++ block) 0) = true /\ is_valid (Some (block ++ block)) = false.
Proof. split; vm_compute; reflexivity. Qed.
(** A text that is not valid leaves the stream behind it. *)
Lemma invalid_moves_stream : is_valid_stream true [33; 33; 33; 33] 0 = (false, 4%nat).
Proof. vm_compute. reflexivity. Qed.
(** Encoding a file onto itself empties it. *)
Lemma encode_onto_itself : exists w, encode_file Rfc.encode (fun l => l) "f" "f" (World [] 0 {["f"%string := [1; 2; 3]]}) = Some (ok, w) /\ files w !! "f"%string = Some [].
Proof. eexists. split; [vm_compute; reflexivity|]. vm_compute. reflexivity. Qed.
(** What is too long for [int] is cut, or dropped, and reported as done. *)
Lemma long_input_dropped src : Z.of_nat (length src) = 2 ^ 31 -> written src = [].
Proof. intros H. unfold written, to_int. rewrite H. reflexivity. Qed.
End Base64Witness.
