(* ===== verification/CText.v ===== *)
(** * C text

    The strings, arrays of characters, lines, scanned and printed numbers of the C
    library, as the headers of the hardware use them.  A text is the characters of a C
    string before its end; an array has cells that were not written ([None]): reading
    such a cell, or past the end, is undefined. *)

From Stdlib Require Import Ascii String ZArith Lia List Bool.
From stdpp Require Import base tactics list option.
From S2P Require Import Prelude.

Open Scope hj_scope.
Open Scope Z_scope.

(** ** Texts *)

Definition text : Type := list ascii.
Definition lit (s : string) : text := list_ascii_of_string s.
Definition code (a : ascii) : Z := Z.of_N (N_of_ascii a).
Definition NUL : ascii := Eval cbv in ascii_of_N 0.
Definition LF : ascii := Eval cbv in ascii_of_N 10.
Definition is_digit (a : ascii) : bool := (48 <=? code a) && (code a <=? 57).
Definition is_space (a : ascii) : bool := (code a =? 32) || (9 <=? code a) && (code a <=? 13).
Definition text_eqb (s t : text) : bool := bool_decide (s = t).
(** [strncmp(s, t, n) == 0] *)
Definition starts (t s : text) : bool := text_eqb (take (length t) s) t.
(** [strstr(s, t) != NULL] *)
Fixpoint contains (t s : text) : bool := starts t s || match s with [] => false | _ :: s => contains t s end.
(** What follows the first, or the last, [a], if there is one: [strchr], [strrchr]. *)
Fixpoint after (a : ascii) (s : text) : option text := match s with [] => None | b :: s => if decide (a = b) then Some s else after a s end.
Fixpoint after_last (a : ascii) (s : text) : option text :=
  match s with [] => None | b :: s => match after_last a s with Some t => Some t | None => if decide (a = b) then Some s else None end end.
Fixpoint skip (p : ascii -> bool) (s : text) : text := match s with [] => [] | a :: t => if p a then skip p t else s end.
Fixpoint span (p : ascii -> bool) (s : text) : text := match s with [] => [] | a :: t => if p a then a :: span p t else [] end.
(** A C string ends at the first [NUL]. *)
Definition is_nul (a : ascii) : bool := bool_decide (a = NUL).
Definition c_string (s : text) : text := span (fun a => negb (is_nul a)) s.

(** ** Files, line by line *)

(** [fgets] with an array of [n]: the line, with its end, or as much as there is room for. *)
Fixpoint line (n : nat) (f : text) : text :=
  match n, f with S n, a :: f => if decide (a = LF) then [a] else a :: line n f | _, _ => [] end.
Definition fgets (n : nat) (f : text) : option (text * text) :=
  match f with [] => None | _ => let l := line (n - 1) f in Some (c_string l, drop (length l) f) end.
(** All the lines that a loop on [fgets] reads. *)
Fixpoint lines_fuel (fuel n : nat) (f : text) : list text :=
  match fuel with O => [] | S fuel => match fgets n f with None => [] | Some (l, f) => l :: lines_fuel fuel n f end end.
Definition lines (n : nat) (f : text) : list text := lines_fuel (length f) n f.

(** ** Numbers *)

Definition digit (n : Z) : ascii := ascii_of_N (Z.to_N (48 + n)).
Definition value (s : text) : Z := fold_left (fun v a => v * 10 + (code a - 48)) s 0.
Fixpoint dec_fuel (fuel : nat) (n : Z) : text :=
  match fuel with O => [] | S fuel => (if n <? 10 then [] else dec_fuel fuel (n / 10)) ++ [digit (n mod 10)] end.
(** [%lu] *)
Definition dec (n : Z) : text := dec_fuel (S (Z.to_nat (Z.log2 n))) n.
(** Half to even, as in printing: the integer next to [a / b]. *)
Definition nearest (a b : Z) : Z :=
  let q := a / b in let r := a mod b in
  if 2 * r <? b then q else if b <? 2 * r then q + 1 else if Z.even q then q else q + 1.
(** [%.2f] of a number of hundredths. *)
Definition fixed2 (n : Z) : text := dec (n / 100) ++ ["."%char] ++ [digit (n / 10 mod 10); digit (n mod 10)].
(** [%8lu]: blanks before. *)
Definition padded (n : nat) (t : text) : text := replicate (n - length t) " "%char ++ t.

(** [(double) n] of an integer: 53 bits, half to even. *)
Definition to_double (n : Z) : Z := let e := Z.max 0 (Z.log2 n - 52) in nearest n (2 ^ e) * 2 ^ e.

(** ** Scanning *)

(** A blank, a character, [%lu], [%s] with its width. *)
Inductive directive := Blank | Char (a : ascii) | Lu | Word (width : option nat).
Inductive scanned := Num (z : Z) | Txt (t : text).
Definition chars (s : string) : list directive := map Char (lit s).
(** A sign and digits; what does not fit is the largest number. *)
Definition strtoul (s : text) : option (Z * text) :=
  let '(neg, s) := match s with a :: t => if decide (a = "-"%char) then (true, t) else if decide (a = "+"%char) then (false, t) else (false, s) | [] => (false, s) end in
  match span is_digit s with
  | [] => None
  | d => let v := value d in Some (if 2 ^ 64 <=? v then 2 ^ 64 - 1 else if (neg : bool) then wrap 64 (- v) else v, skip is_digit s)
  end.
Fixpoint sscanf (f : list directive) (s : text) : list scanned :=
  match f with
  | [] => []
  | Blank :: f => sscanf f (skip is_space s)
  | Char a :: f => match s with b :: s => if decide (a = b) then sscanf f s else [] | [] => [] end
  | Lu :: f => match strtoul (skip is_space s) with Some (v, s) => Num v :: sscanf f s | None => [] end
  | Word w :: f =>
      let s := skip is_space s in
      let t := span (fun a => negb (is_space a)) s in
      let t := match w with Some w => take w t | None => t end in
      match t with [] => [] | _ => Txt t :: sscanf f (drop (length t) s) end
  end.

(** ** Arrays of characters *)

Definition array : Type := list (option ascii).
Definition uninit (n : nat) : array := replicate n None.
Definition zeroed (n : nat) : array := replicate n (Some NUL).
(** The string that an array holds. *)
Fixpoint c_str (a : array) : option text :=
  match a with
  | Some x :: a => if is_nul x then Some [] else let* t := c_str a in Some (x :: t)
  | _ => None
  end.
Definition write (t : text) (a : array) : option array := if (length a <? length t)%nat then None else Some (map Some t ++ drop (length t) a).
(** [strncpy(a, t, n)]: no end when there is no room for it. *)
Definition strncpy (n : nat) (t : text) (a : array) : option array := write (take n (t ++ replicate n NUL)) a.
(** [snprintf(a, n, "%s", t)] always ends what it writes. *)
Definition snprintf (n : nat) (t : text) (a : array) : option array := match n with O => Some a | S n => write (take n t ++ [NUL]) a end.
(** [%s] stores the word and its end. *)
Definition store (t : text) (a : array) : option array := write (t ++ [NUL]) a.
Definition set_char (i : nat) (x : ascii) (a : array) : option array := if (i <? length a)%nat then Some (<[i := Some x]> a) else None.

(** ** Laws *)

Definition no_nul (t : text) : Prop := Forall (fun a => is_nul a = false) t.

Lemma c_str_end t a : no_nul t -> c_str (map Some t ++ Some NUL :: a) = Some t.
Proof. induction 1 as [|x t Hx Ht IH]; [reflexivity|]. cbn. now rewrite Hx, IH. Qed.
Lemma write_spec t a : (length t <= length a)%nat -> write t a = Some (map Some t ++ drop (length t) a).
Proof. intros H. unfold write. destruct (Nat.ltb_spec (length a) (length t)); [lia|reflexivity]. Qed.
Lemma write_length t a b : write t a = Some b -> length b = length a.
Proof. unfold write. destruct (Nat.ltb_spec (length a) (length t)); [discriminate|]. intros [= <-]. rewrite length_app, length_map, length_drop. lia. Qed.
Lemma no_nul_take n t : no_nul t -> no_nul (take n t).
Proof. apply Forall_take. Qed.

Lemma snprintf_spec n t a : no_nul t -> (0 < n <= length a)%nat -> exists b, snprintf n t a = Some b /\ c_str b = Some (take (n - 1) t) /\ length b = length a.
Proof.
  intros Ht Hn. destruct n as [|n]; [lia|]. cbn [snprintf]. replace (S n - 1)%nat with n by lia.
  assert (Hl : (length (take n t ++ [NUL]) <= length a)%nat) by (rewrite length_app, length_take; cbn; lia).
  eexists. split; [now apply write_spec|]. split.
  - rewrite map_app, <- app_assoc. apply c_str_end, no_nul_take, Ht.
  - exact (write_length _ _ _ (write_spec _ _ Hl)).
Qed.
Lemma strncpy_spec n t a : no_nul t -> (length t < n)%nat -> (n <= length a)%nat -> exists b, strncpy n t a = Some b /\ c_str b = Some t /\ length b = length a.
Proof.
  intros Ht Hn Ha. unfold strncpy.
  assert (E : take n (t ++ replicate n NUL) = t ++ NUL :: replicate (n - length t - 1) NUL).
  { rewrite take_app, (take_ge t) by lia. f_equal. rewrite take_replicate. replace (Nat.min _ n) with (S (n - length t - 1)) by lia. reflexivity. }
  rewrite E. assert (Hl : (length (t ++ NUL :: replicate (n - length t - 1) NUL) <= length a)%nat) by (rewrite length_app; cbn; rewrite length_replicate; lia).
  eexists. split; [now apply write_spec|]. split.
  - rewrite map_app. cbn [map app]. rewrite <- app_assoc. cbn [app]. now apply c_str_end.
  - exact (write_length _ _ _ (write_spec _ _ Hl)).
Qed.
Lemma store_spec t a : no_nul t -> (length t < length a)%nat -> exists b, store t a = Some b /\ c_str b = Some t /\ length b = length a.
Proof.
  intros Ht Hl. unfold store. assert (Hl' : (length (t ++ [NUL]) <= length a)%nat) by (rewrite length_app; cbn; lia).
  eexists. split; [now apply write_spec|]. split; [rewrite map_app, <- app_assoc; now apply c_str_end|exact (write_length _ _ _ (write_spec _ _ Hl'))].
Qed.
Lemma store_overflows t a : (length a <= length t)%nat -> store t a = None.
Proof. intros H. unfold store, write. rewrite length_app. cbn [length]. destruct (Nat.ltb_spec (length a) (length t + 1)); [reflexivity|lia]. Qed.

(** ** Printed numbers are read back *)

Lemma span_app p t s : Forall (fun a => p a = true) t -> (forall a r, s = a :: r -> p a = false) -> span p (t ++ s) = t /\ skip p (t ++ s) = s.
Proof.
  induction 1 as [|x t Hx Ht IH]; intros Hs; cbn.
  - destruct s as [|a r]; [easy|]. cbn. now rewrite (Hs a r eq_refl).
  - rewrite Hx. destruct (IH Hs) as [-> ->]. easy.
Qed.
Lemma code_digit n : 0 <= n < 10 -> code (digit n) = 48 + n.
Proof. intros H. unfold code, digit. rewrite N_ascii_embedding by lia. lia. Qed.
Lemma digit_is_digit n : 0 <= n < 10 -> is_digit (digit n) = true.
Proof. intros H. unfold is_digit. rewrite code_digit by lia. now decide_cmps. Qed.
Lemma value_snoc t n : 0 <= n < 10 -> value (t ++ [digit n]) = value t * 10 + n.
Proof. intros H. unfold value. rewrite fold_left_app. cbn. rewrite code_digit by lia. lia. Qed.
Lemma dec_fuel_spec fuel n : 0 <= n < 2 ^ Z.of_nat fuel -> Forall (fun a => is_digit a = true) (dec_fuel fuel n) /\ (fuel <> O -> value (dec_fuel fuel n) = n).
Proof.
  revert n. induction fuel as [|fuel IH]; intros n Hn; [now split; [constructor|]|]. cbn [dec_fuel].
  pose proof (Z.mod_pos_bound n 10 ltac:(lia)) as Hm. pose proof (Z.div_mod n 10 ltac:(lia)) as Hd.
  destruct (Z.ltb_spec n 10) as [Hl|Hl].
  - split; [repeat constructor; now apply digit_is_digit|]. intros _. change (value ([] ++ [digit (n mod 10)]) = n). rewrite value_snoc by lia. cbn. rewrite Z.mod_small; lia.
  - replace (Z.of_nat (S fuel)) with (Z.of_nat fuel + 1) in Hn by lia. rewrite Z.pow_add_r in Hn by lia.
    destruct (IH (n / 10)) as [IH1 IH2]; [split; [apply Z.div_pos; lia|apply Z.div_lt_upper_bound; lia]|].
    split; [apply Forall_app; split; [exact IH1|repeat constructor; now apply digit_is_digit]|].
    intros _. rewrite value_snoc by lia. rewrite IH2; [lia|]. intros ->. cbn in Hn. lia.
Qed.
Lemma dec_bound n : 0 <= n -> n < 2 ^ Z.of_nat (S (Z.to_nat (Z.log2 n))).
Proof.
  intros H. rewrite Nat2Z.inj_succ, Z2Nat.id by apply Z.log2_nonneg. destruct (Z.eq_dec n 0) as [->|Hz]; [reflexivity|]. apply Z.log2_spec. lia.
Qed.
Lemma dec_digits n : 0 <= n -> Forall (fun a => is_digit a = true) (dec n).
Proof. intros H. apply dec_fuel_spec. split; [easy|now apply dec_bound]. Qed.
Lemma dec_value n : 0 <= n -> value (dec n) = n.
Proof. intros H. apply dec_fuel_spec; [split; [easy|now apply dec_bound]|easy]. Qed.
Lemma dec_not_nil n : dec n <> [].
Proof. unfold dec. cbn [dec_fuel]. destruct (if n <? 10 then [] else _); easy. Qed.
Lemma digit_not a x : is_digit a = true -> is_digit x = false -> a <> x.
Proof. congruence. Qed.
Lemma strtoul_dec n s : 0 <= n < 2 ^ 64 -> (forall a r, s = a :: r -> is_digit a = false) -> strtoul (dec n ++ s) = Some (n, s).
Proof.
  intros Hn Hs. pose proof (dec_digits n ltac:(lia)) as Hd. pose proof (span_app is_digit (dec n) s Hd Hs) as [E1 E2].
  pose proof (dec_value n ltac:(lia)) as Hv. unfold strtoul. destruct (dec n) as [|a t] eqn:E; [now apply dec_not_nil in E|].
  apply Forall_cons_iff in Hd as [Ha _]. cbn [app].
  rewrite decide_False by (now apply (digit_not a "-"%char)). rewrite decide_False by (now apply (digit_not a "+"%char)).
  change (a :: t ++ s) with ((a :: t) ++ s). rewrite E1, E2, Hv. decide_cmps. easy.
Qed.
Lemma skip_none (p : ascii -> bool) s : (forall a r, s = a :: r -> p a = false) -> skip p s = s.
Proof. destruct s as [|a r]; [easy|]. intros H. cbn. now rewrite (H a r eq_refl). Qed.
Lemma skip_blanks p n t s : p " "%char = true -> (forall a r, t ++ s = a :: r -> p a = false) -> skip p (padded n t ++ s) = t ++ s.
Proof.
  intros Hp Ht. unfold padded. rewrite <- app_assoc. induction (n - length t)%nat as [|k IH]; cbn; [now apply skip_none|]. now rewrite Hp.
Qed.
Lemma digit_not_space a : is_digit a = true -> is_space a = false.
Proof. unfold is_digit, is_space. intros H. apply andb_true_iff in H as [H1 H2]. apply Z.leb_le in H1, H2. decide_cmps. easy. Qed.
(** A number printed in a field, and scanned. *)
Lemma sscanf_Lu n k s f : 0 <= n < 2 ^ 64 -> (forall a r, s = a :: r -> is_digit a = false) ->
  sscanf (Lu :: f) (padded k (dec n) ++ s) = Num n :: sscanf f s.
Proof.
  intros Hn Hs. cbn [sscanf]. rewrite skip_blanks; [now rewrite strtoul_dec| reflexivity|].
  intros a r E. pose proof (dec_digits n ltac:(lia)) as Hd. destruct (dec n) as [|b t] eqn:E'; [now apply dec_not_nil in E'|].
  injection E as <- _. apply Forall_cons_iff in Hd as [Hb _]. now apply digit_not_space.
Qed.
Lemma sscanf_chars t f s : sscanf (map Char t ++ f) (t ++ s) = sscanf f s.
Proof. induction t as [|a t IH]; cbn; [easy|]. now rewrite decide_True by easy. Qed.
(** A word, that is read whole. *)
Definition word (t : text) : Prop := t <> [] /\ Forall (fun a => negb (is_space a) = true) t.
Lemma sscanf_Word w t s f : word t -> (forall n, w = Some n -> (length t <= n)%nat) -> (forall a r, s = a :: r -> is_space a = true) ->
  sscanf (Word w :: f) (t ++ s) = Txt t :: sscanf f s.
Proof.
  intros [Hn Ht] Hw Hs. cbn [sscanf]. rewrite skip_none.
  2: { intros a r E. destruct t as [|b t]; [easy|]. injection E as <- _. apply Forall_cons_iff in Ht as [Hb _]. now apply negb_true_iff. }
  destruct (span_app (fun a => negb (is_space a)) t s Ht) as [-> _]; [intros a r E; now rewrite (Hs a r E)|].
  replace (match w with Some w => take w t | None => t end) with t by (destruct w as [n|]; [rewrite take_ge; auto|easy]).
  destruct t as [|b t]; [easy|]. now rewrite drop_app_length.
Qed.

(** ** Files of lines *)

Definition plain (t : text) : Prop := Forall (fun a => a <> LF /\ is_nul a = false) t.
Lemma line_whole n t f : plain t -> (length t < n)%nat -> line n (t ++ LF :: f) = t ++ [LF].
Proof.
  intros Ht. revert n. induction Ht as [|a t [Ha _] Ht IH]; intros n Hn; destruct n as [|n]; cbn in Hn |- *; try lia.
  - now rewrite decide_True.
  - rewrite decide_False by easy. now rewrite IH by lia.
Qed.
Lemma c_string_plain t : plain t -> c_string (t ++ [LF]) = t ++ [LF].
Proof.
  intros Ht. unfold c_string. rewrite <- (app_nil_r (t ++ [LF])) at 1. apply span_app; [|easy].
  apply Forall_app. split; [|repeat constructor]. revert Ht. apply Forall_impl. now intros a [_ ->].
Qed.
Lemma fgets_whole n t f : plain t -> (length t + 1 < n)%nat -> fgets n (t ++ LF :: f) = Some (t ++ [LF], f).
Proof.
  intros Ht Hn. assert (E : fgets n (t ++ LF :: f) = let l := line (n - 1) (t ++ LF :: f) in Some (c_string l, drop (length l) (t ++ LF :: f))) by now destruct t.
  rewrite E, line_whole by (auto; lia). cbv zeta. rewrite c_string_plain by easy. f_equal. f_equal.
  change (t ++ LF :: f) with (t ++ [LF] ++ f). now rewrite app_assoc, drop_app_length.
Qed.
Definition ended (t : text) : text := t ++ [LF].
Lemma lines_file n ls : Forall (fun t => plain t /\ (length t + 1 < n)%nat) ls -> lines n (concat (map ended ls)) = map ended ls.
Proof.
  intros H. unfold lines. assert (Hf : (length ls <= length (concat (map ended ls)))%nat).
  { clear H. induction ls as [|t ls IH]; cbn; [lia|]. unfold ended at 1. rewrite !length_app. cbn. lia. }
  revert Hf. generalize (length (concat (map ended ls))). induction H as [|t ls [Ht Hn] _ IH]; intros fuel Hf; [now destruct fuel|].
  destruct fuel as [|fuel]; [cbn in Hf; lia|]. cbn [lines_fuel map concat]. unfold ended at 1. rewrite <- app_assoc. cbn [app].
  rewrite fgets_whole by easy. rewrite IH by (cbn in Hf; lia). easy.
Qed.

(** ** Rounding, and the length of what is printed *)

Lemma nearest_error a b : 0 < b -> 2 * Z.abs (nearest a b * b - a) <= b.
Proof.
  intros Hb. unfold nearest. pose proof (Z.div_mod a b ltac:(lia)) as Hd. pose proof (Z.mod_pos_bound a b Hb) as Hm.
  set (q := a / b) in *. set (r := a mod b) in *.
  destruct (Z.ltb_spec (2 * r) b); [nia|]. destruct (Z.ltb_spec b (2 * r)); [nia|]. destruct (Z.even q); nia.
Qed.
Lemma nearest_le a b k : 0 < b -> a <= k * b -> nearest a b <= k.
Proof. intros Hb H. pose proof (nearest_error a b Hb). nia. Qed.
Lemma nearest_nonneg a b : 0 < b -> 0 <= a -> 0 <= nearest a b.
Proof. intros Hb H. pose proof (nearest_error a b Hb). nia. Qed.
Lemma to_double_error n : 0 <= n -> Z.abs (to_double n - n) * 2 ^ 53 <= n.
Proof.
  intros Hn. unfold to_double. set (e := Z.max 0 (Z.log2 n - 52)). pose proof (nearest_error n (2 ^ e) ltac:(lia)) as He.
  destruct (Z.le_gt_cases (Z.log2 n) 52) as [Hl|Hl].
  - replace e with 0 in * by lia. change (2 ^ 0) with 1 in *. replace (nearest n 1 * 1 - n) with 0 by lia. lia.
  - assert (Hp : 2 ^ e * 2 ^ 52 <= n).
    { rewrite <- Z.pow_add_r by lia. replace (e + 52) with (Z.log2 n) by lia. apply Z.log2_spec. destruct (Z.eq_dec n 0) as [->|]; [cbn in Hl; lia|lia]. }
    change (2 ^ 53) with (2 * 2 ^ 52). nia.
Qed.
Lemma to_double_bound n : 0 <= n < 2 ^ 64 -> 0 <= to_double n <= 2 ^ 64.
Proof.
  intros Hn. unfold to_double. set (e := Z.max 0 (Z.log2 n - 52)).
  assert (He : 0 <= e <= 64). { assert (Z.log2 n <= Z.log2 (2 ^ 64)) by (apply Z.log2_le_mono; lia). change (Z.log2 (2 ^ 64)) with 64 in *. lia. }
  assert (Hp : 2 ^ 64 = 2 ^ (64 - e) * 2 ^ e) by (rewrite <- Z.pow_add_r by lia; f_equal; lia).
  split; [apply Z.mul_nonneg_nonneg; [apply nearest_nonneg; lia|lia]|].
  apply Z.le_trans with (2 ^ (64 - e) * 2 ^ e); [|lia]. apply Z.mul_le_mono_nonneg_r; [lia|]. apply nearest_le; lia.
Qed.
Lemma dec_fuel_length fuel n k : 0 <= n < 10 ^ Z.of_nat (S k) -> (length (dec_fuel fuel n) <= S k)%nat.
Proof.
  revert n k. induction fuel as [|fuel IH]; intros n k Hn; cbn [dec_fuel]; [cbn; lia|]. rewrite length_app. cbn [length].
  destruct (Z.ltb_spec n 10); [cbn; lia|]. destruct k as [|k]; [change (10 ^ Z.of_nat 1) with 10 in Hn; lia|].
  specialize (IH (n / 10) k). rewrite Nat2Z.inj_succ, Z.pow_succ_r in Hn by lia.
  assert (0 <= n / 10 < 10 ^ Z.of_nat (S k)) by (split; [apply Z.div_pos; lia|apply Z.div_lt_upper_bound; lia]). lia.
Qed.
Lemma dec_length n k : 0 <= n < 10 ^ Z.of_nat (S k) -> (length (dec n) <= S k)%nat.
Proof. apply dec_fuel_length. Qed.
Lemma fixed2_length n k : 0 <= n < 100 * 10 ^ Z.of_nat (S k) -> (length (fixed2 n) <= S k + 3)%nat.
Proof.
  intros Hn. unfold fixed2. rewrite !length_app. cbn [length]. pose proof (dec_length (n / 100) k). 
  assert (0 <= n / 100 < 10 ^ Z.of_nat (S k)) by (split; [apply Z.div_pos; lia|apply Z.div_lt_upper_bound; lia]). lia.
Qed.
Lemma is_nul_digit a : is_digit a = true -> is_nul a = false.
Proof. intros H. apply bool_decide_eq_false. intros ->. discriminate. Qed.
Lemma dec_no_nul n : 0 <= n -> no_nul (dec n).
Proof. intros H. eapply Forall_impl; [|exact (dec_digits n H)]. apply is_nul_digit. Qed.
Lemma fixed2_no_nul n : 0 <= n -> no_nul (fixed2 n).
Proof.
  intros H. unfold fixed2. apply Forall_app. split; [apply dec_no_nul, Z.div_pos; lia|].
  repeat constructor; apply is_nul_digit, digit_is_digit, Z.mod_pos_bound; lia.
Qed.
