(* ===== verification/Disk.v ===== *)
(** * Disks

    [hardware/disk.h] on Linux: sizes as text, the disks of [/proc/partitions], names of
    file systems, what is known of a disk and of a mounted partition, and the test of
    the speed.  What the system answers - the files, the devices, the file systems that
    are mounted - are arguments; what is open and what is allocated is a state. *)

From Stdlib Require Import Ascii String ZArith Lia List Bool.
From stdpp Require Import base tactics list option.
From S2P Require Import Prelude CText.

Open Scope hj_scope.
Open Scope Z_scope.

Module Disk.
Export State.

Definition DISK_MAX_PATH_LENGTH : nat := Z.to_nat 4096.
Definition DISK_MAX_DEVICE_NAME : nat := 256.
Definition DISK_MAX_VOLUME_LABEL : nat := 256.
Definition DISK_SECTOR_SIZE_DEFAULT : Z := 512.

Inductive disk_err_t := DISK_OK | DISK_ERROR_INVALID_PARAMETER | DISK_ERROR_BUFFER_TOO_SMALL | DISK_ERROR_NOT_FOUND | DISK_ERROR_ACCESS_DENIED | DISK_ERROR_IO_ERROR.
#[global] Instance disk_err_dec : EqDecision disk_err_t.
Proof. solve_decision. Defined.
Inductive disk_type_t := DISK_TYPE_UNKNOWN | DISK_TYPE_HDD | DISK_TYPE_SSD | DISK_TYPE_OPTICAL | DISK_TYPE_REMOVABLE | DISK_TYPE_NETWORK | DISK_TYPE_RAM.
Inductive filesystem_type_t := FILESYSTEM_UNKNOWN | FILESYSTEM_NTFS | FILESYSTEM_FAT16 | FILESYSTEM_FAT32 | FILESYSTEM_EXFAT | FILESYSTEM_EXT2
  | FILESYSTEM_EXT3 | FILESYSTEM_EXT4 | FILESYSTEM_XFS | FILESYSTEM_BTRFS | FILESYSTEM_ZFS | FILESYSTEM_F2FS | FILESYSTEM_HFS_PLUS | FILESYSTEM_APFS
  | FILESYSTEM_UFS | FILESYSTEM_JFS | FILESYSTEM_REISERFS | FILESYSTEM_ISO9660 | FILESYSTEM_UDF | FILESYSTEM_SWAP | FILESYSTEM_TMPFS | FILESYSTEM_PROCFS
  | FILESYSTEM_SYSFS.
#[global] Instance filesystem_type_dec : EqDecision filesystem_type_t.
Proof. solve_decision. Defined.

(** Fields that stay zero are left out. *)
Record disk_info_t := DiskInfo { device_name : array; model : array; serial : array; type : disk_type_t; total_size : Z; sector_size : Z; sector_count : Z;
  removable : bool; read_only : bool; rpm : Z; temperature : Z }.
Record partition_info_t := Partition { p_device_name : array; p_mount_point : array; volume_label : array; filesystem : filesystem_type_t;
  p_total_size : Z; used_size : Z; available_size : Z; p_read_only : bool }.

(** ** Sizes *)

Definition units : list string := ["B"; "KB"; "MB"; "GB"; "TB"; "PB"]%string.
(** How often [size] is divided by 1024: it is [m / 1024 ^ u], exactly. *)
Fixpoint scale (fuel : nat) (m : Z) (u : nat) : nat :=
  match fuel with O => u | S fuel => if (1024 * 1024 ^ Z.of_nat u <=? m) && (u <? length units - 1)%nat then scale fuel m (S u) else u end.
Definition size_text (bytes : Z) : text :=
  let m := to_double bytes in
  let u := scale (length units) m 0 in
  (if (u =? 0)%nat then dec m else fixed2 (nearest (100 * m) (1024 ^ Z.of_nat u))) ++ lit " " ++ lit (nth u units EmptyString).
Definition disk_format_size (bytes : Z) (buffer : option array) (buffer_size : nat) : option (disk_err_t * option array) :=
  match buffer with
  | None => Some (DISK_ERROR_INVALID_PARAMETER, None)
  | Some buffer =>
      if (buffer_size =? 0)%nat then Some (DISK_ERROR_INVALID_PARAMETER, Some buffer) else
      let t := size_text bytes in
      let* buffer := snprintf buffer_size t buffer in
      Some (if (buffer_size <=? length t)%nat then DISK_ERROR_BUFFER_TOO_SMALL else DISK_OK, Some buffer)
  end.
Definition disk_init : disk_err_t := DISK_OK.

(** ** Names of file systems *)

Definition is_name (s : text) (names : list string) : bool := existsb (fun n => text_eqb s (lit n)) names.
Fixpoint first_name (s : text) (l : list (list string * filesystem_type_t)) : filesystem_type_t :=
  match l with [] => FILESYSTEM_UNKNOWN | (names, t) :: l => if is_name s names then t else first_name s l end.
Definition disk_filesystem_type_from_string (fs_name : option text) : filesystem_type_t :=
  match fs_name with
  | None => FILESYSTEM_UNKNOWN
  | Some s => first_name s
      [(["ntfs"; "NTFS"], FILESYSTEM_NTFS); (["fat16"; "FAT16"], FILESYSTEM_FAT16); (["fat32"; "FAT32"], FILESYSTEM_FAT32); (["exfat"; "exFAT"], FILESYSTEM_EXFAT);
       (["ext2"], FILESYSTEM_EXT2); (["ext3"], FILESYSTEM_EXT3); (["ext4"], FILESYSTEM_EXT4); (["xfs"; "XFS"], FILESYSTEM_XFS); (["btrfs"], FILESYSTEM_BTRFS);
       (["zfs"; "ZFS"], FILESYSTEM_ZFS); (["f2fs"; "F2FS"], FILESYSTEM_F2FS); (["hfs+"; "HFS+"], FILESYSTEM_HFS_PLUS); (["apfs"; "APFS"], FILESYSTEM_APFS);
       (["ufs"; "UFS"], FILESYSTEM_UFS); (["jfs"; "JFS"], FILESYSTEM_JFS); (["reiserfs"; "REISERFS"], FILESYSTEM_REISERFS);
       (["iso9660"; "ISO9660"], FILESYSTEM_ISO9660); (["udf"; "UDF"], FILESYSTEM_UDF); (["swap"; "SWAP"], FILESYSTEM_SWAP);
       (["tmpfs"; "TMPFS"], FILESYSTEM_TMPFS); (["procfs"; "PROCFS"], FILESYSTEM_PROCFS); (["sysfs"; "SYSFS"], FILESYSTEM_SYSFS)]%string
  end.
Definition filesystem_names : list (filesystem_type_t * string) :=
  [(FILESYSTEM_NTFS, "NTFS"); (FILESYSTEM_FAT16, "FAT16"); (FILESYSTEM_FAT32, "FAT32"); (FILESYSTEM_EXFAT, "exFAT"); (FILESYSTEM_EXT2, "ext2");
   (FILESYSTEM_EXT3, "ext3"); (FILESYSTEM_EXT4, "ext4"); (FILESYSTEM_XFS, "XFS"); (FILESYSTEM_BTRFS, "Btrfs"); (FILESYSTEM_ZFS, "ZFS");
   (FILESYSTEM_F2FS, "F2FS"); (FILESYSTEM_HFS_PLUS, "HFS+"); (FILESYSTEM_APFS, "APFS"); (FILESYSTEM_UFS, "UFS"); (FILESYSTEM_JFS, "JFS");
   (FILESYSTEM_REISERFS, "ReiserFS"); (FILESYSTEM_ISO9660, "ISO9660"); (FILESYSTEM_UDF, "UDF"); (FILESYSTEM_SWAP, "Linux swap");
   (FILESYSTEM_TMPFS, "tmpfs"); (FILESYSTEM_PROCFS, "proc"); (FILESYSTEM_SYSFS, "sysfs"); (FILESYSTEM_UNKNOWN, "Unknown")]%string.
Fixpoint find_name (t : filesystem_type_t) (l : list (filesystem_type_t * string)) : string :=
  match l with [] => "UNKNOWN"%string | (u, n) :: l => if decide (u = t) then n else find_name t l end.
Definition disk_filesystem_type_to_string (t : filesystem_type_t) : string := find_name t filesystem_names.

(** ** The system *)

(** A device: whether it is a block device, can be opened, with [O_DIRECT], and if not
    whether that is for lack of rights; what [ioctl] says of its size and its sectors. *)
Record device := Device { block : bool; can_open : bool; can_direct : bool; denied : bool; size64 : option Z; ssz : option Z }.
(** What [statvfs] says. *)
Record statvfs := Vfs { f_blocks : Z; f_frsize : Z; f_bavail : Z; f_bfree : Z; f_rdonly : bool }.
(** Open descriptors and files, blocks of memory; the results of the reads to come, and
    the times, in nanoseconds, that the clock gives; whether memory is left; whether the
    caches of the system were dropped. *)
Record world := World { handles : nat; blocks : nat; reads : list Z; clock : list Z; memory : bool; dropped : bool }.
Abbreviation M := (State.M world).
Definition opens : M unit := modify (fun w => World (S (handles w)) (blocks w) (reads w) (clock w) (memory w) (dropped w)).
Definition closes : M unit := fun w => match handles w with O => None | S n => Some (tt, World n (blocks w) (reads w) (clock w) (memory w) (dropped w)) end.
Definition allocates : M bool := fun w => if memory w then Some (true, World (handles w) (S (blocks w)) (reads w) (clock w) true (dropped w)) else Some (false, w).
Definition frees : M unit := fun w => match blocks w with O => None | S n => Some (tt, World (handles w) n (reads w) (clock w) (memory w) (dropped w)) end.
(** A read gives what the script says, and nothing after that. *)
Definition reads_one : M Z := fun w => match reads w with [] => Some (0, w) | n :: l => Some (n, World (handles w) (blocks w) l (clock w) (memory w) (dropped w)) end.
Definition now : M Z := fun w => match clock w with [] => Some (0, w) | t :: l => Some (t, World (handles w) (blocks w) (reads w) l (memory w) (dropped w)) end.
Definition drops : M unit := modify (fun w => World (handles w) (blocks w) (reads w) (clock w) (memory w) true).

Section System.
(** The files that can be read, with their contents; the devices; the file systems at
    their mount points; whether the caches may be dropped. *)
Variables (files : text -> option text) (nodes : text -> option device) (mounted : text -> option statvfs) (may_drop : bool).

(** ** Counting disks *)

Definition is_disk (name : text) : bool :=
  if starts (lit "sd") name && (length name =? 3)%nat then true else
  if starts (lit "nvme") name && negb (contains (lit "p") name) then true else
  if starts (lit "hd") name && (length name =? 3)%nat then true else
  if starts (lit "mmcblk") name && negb (contains (lit "p") name) then true else
  starts (lit "vd") name && (length name =? 3)%nat.
Definition partition_format : list directive := [Lu; Blank; Lu; Blank; Lu; Blank; Word (Some 63%nat)].
(** What a line adds; the check of the size comes after it, and changes nothing. *)
Definition count_line (n : Z) (l : text) : Z :=
  match sscanf partition_format l with
  | [Num _; Num _; Num _; Txt device_name] => if is_disk device_name then wrap 32 (n + 1) else n
  | _ => n
  end.
Definition disk_count : M Z :=
  match files (lit "/proc/partitions") with
  | None => ret 0
  | Some f =>
      do _ <- opens;
      match lines 256 f with
      | _ :: _ :: ls => let n := fold_left count_line ls 0 in do _ <- closes; ret n
      | _ => do _ <- closes; ret 0
      end
  end.

(** ** One disk *)

(** The path of a device in an array of 256, which [strncpy] may leave without an end. *)
Definition full_path (device_name : text) : option array :=
  if starts (lit "/dev/") device_name then strncpy 255 device_name (uninit 256) else snprintf 256 (lit "/dev/" ++ device_name) (uninit 256).
Definition ended_path (device_name : text) : option array := let* a := full_path device_name in set_char 255 NUL a.
Definition path (a : option array) : M text := do a <- lift a; lift (c_str a).
(** [open]: the device, if it is there and can be opened. *)
Definition open (p : text) : M (option device) :=
  match nodes p with Some d => if can_open d then do _ <- opens; ret (Some d) else ret None | None => ret None end.
Definition base_name (device_name : text) : text := match after_last "/"%char device_name with Some t => t | None => device_name end.
(** [type] and [rpm], from the file of the system that says whether the disk turns. *)
Definition rotational (device_name : text) : M (disk_type_t * Z) :=
  do p <- path (snprintf 512 (lit "/sys/block/" ++ base_name device_name ++ lit "/queue/rotational") (uninit 512));
  match files p with
  | None => ret (DISK_TYPE_UNKNOWN, 0)
  | Some f =>
      do _ <- opens;
      match fgets 16 f with
      | Some (l, _) =>
          do _ <- closes;
          match l with a :: _ => if decide (a = "0"%char) then ret (DISK_TYPE_SSD, 0) else ret (DISK_TYPE_HDD, 7200) | [] => ret (DISK_TYPE_HDD, 7200) end
      | None => ret (DISK_TYPE_UNKNOWN, 0)
      end
  end.
(** The size of the sectors, and how many there are. *)
Definition sectors (d : device) (total : Z) : option (Z * Z) :=
  match ssz d with
  | Some s => let s := wrap 64 s in if s =? 0 then None else Some (s, total / s)
  | None => Some (DISK_SECTOR_SIZE_DEFAULT, total / DISK_SECTOR_SIZE_DEFAULT)
  end.
(** [info] is a pointer that is not null; what it points to afterwards. *)
Definition blank_info (name : array) : disk_info_t := DiskInfo name (zeroed DISK_MAX_DEVICE_NAME) (zeroed DISK_MAX_DEVICE_NAME) DISK_TYPE_UNKNOWN 0 0 0 false false 0 (-1).
Definition disk_info (device_name : option text) (info : bool) : M (disk_err_t * option disk_info_t) :=
  match device_name, info with
  | Some name, true =>
      do field <- lift (strncpy (DISK_MAX_DEVICE_NAME - 1) name (zeroed DISK_MAX_DEVICE_NAME));
      do p <- path (full_path name);
      do fd <- open p;
      match fd with
      | None => ret (DISK_ERROR_ACCESS_DENIED, Some (blank_info field))
      | Some d =>
          let total := match size64 d with Some n => n | None => 0 end in
          do (size, count) <- lift (sectors d total);
          do (t, r) <- rotational name;
          do _ <- closes;
          let size := if size =? 0 then DISK_SECTOR_SIZE_DEFAULT else size in
          do m <- lift (strncpy (DISK_MAX_DEVICE_NAME - 1) (lit "Generic Disk") (zeroed DISK_MAX_DEVICE_NAME));
          do s <- lift (strncpy (DISK_MAX_DEVICE_NAME - 1) (lit "Unknown") (zeroed DISK_MAX_DEVICE_NAME));
          ret (DISK_OK, Some (DiskInfo field m s t total size count false false r (-1)))
      end
  | _, _ => ret (DISK_ERROR_INVALID_PARAMETER, None)
  end.

(** ** A mounted partition *)

(** The words of a line in their arrays: each is stored if it was scanned. *)
Definition stored (w : option scanned) (n : nat) : option array := match w with Some (Txt t) => store t (uninit n) | _ => Some (uninit n) end.
(** The loop: the line of the mount point, or none.  [!sscanf(...) == 3] never holds. *)
Fixpoint find_mount (mount_point : text) (ls : list text) : option (option (text * text)) :=
  match ls with
  | [] => Some None
  | l :: ls =>
      let w := sscanf [Word None; Blank; Word None; Blank; Word None] l in
      let* device := stored (w !! 0%nat) 256 in
      let* mountpoint := stored (w !! 1%nat) 256 in
      let* fstype := stored (w !! 2%nat) 64 in
      let* m := c_str mountpoint in
      if text_eqb m mount_point then let* d := c_str device in let* t := c_str fstype in Some (Some (d, t)) else find_mount mount_point ls
  end.
Definition disk_get_partition_by_mount (mount_point : option text) (info : bool) : M (disk_err_t * option partition_info_t) :=
  match mount_point, info with
  | Some mount_point, true =>
      do field <- lift (strncpy (DISK_MAX_PATH_LENGTH - 1) mount_point (zeroed DISK_MAX_PATH_LENGTH));
      let '(total, avail, used, ro) := match mounted mount_point with
        | Some v => let total := wrap 64 (f_blocks v * f_frsize v) in
                    (total, wrap 64 (f_bavail v * f_frsize v), wrap 64 (total - wrap 64 (f_bfree v * f_frsize v)), f_rdonly v)
        | None => (0, 0, 0, false)
        end in
      let info := Partition (zeroed DISK_MAX_DEVICE_NAME) field (zeroed DISK_MAX_VOLUME_LABEL) FILESYSTEM_UNKNOWN total used avail ro in
      match files (lit "/proc/mounts") with
      | None => ret (DISK_ERROR_NOT_FOUND, Some info)
      | Some f =>
          do _ <- opens;
          do found <- lift (find_mount mount_point (lines 1024 f));
          do info <- match found with
            | Some (d, t) =>
                do name <- lift (strncpy (DISK_MAX_DEVICE_NAME - 1) d (p_device_name info));
                ret (Partition name field (zeroed DISK_MAX_VOLUME_LABEL) (disk_filesystem_type_from_string (Some t)) total used avail ro)
            | None => ret info
            end;
          do _ <- closes;
          ret (DISK_OK, Some info)
      end
  | _, _ => ret (DISK_ERROR_INVALID_PARAMETER, None)
  end.

(** ** Whether a disk is ready *)

Definition disk_is_ready (device_name : option text) : M bool :=
  match device_name with
  | None | Some [] => ret false
  | Some name =>
      do p <- path (ended_path name);
      match nodes p with
      | None => ret false
      | Some d =>
          if negb (block d) then ret false else
          do fd <- open p;
          match fd with
          | Some _ => do _ <- closes; ret true
          | None => ret (denied d)
          end
      end
  end.

(** ** All disks *)

Definition disk_patterns : list string :=
  ["/dev/sda"; "/dev/sdb"; "/dev/sdc"; "/dev/sdd"; "/dev/nvme0n1"; "/dev/nvme1n1"; "/dev/nvme2n1"; "/dev/hda"; "/dev/hdb"; "/dev/hdc"; "/dev/hdd"]%string.
Definition accessible (p : text) : bool := match nodes p with Some _ => true | None => false end.
(** The caller's array, and how many of it are in use. *)
Fixpoint enumerate_loop (patterns : list string) (disks : list disk_info_t) (max_disks count : nat) : M (list disk_info_t * nat) :=
  match patterns with
  | [] => ret (disks, count)
  | p :: patterns =>
      if (max_disks <=? count)%nat then ret (disks, count) else
      if negb (accessible (lit p)) then enumerate_loop patterns disks max_disks count else
      if (length disks <=? count)%nat then undefined else
      do (result, info) <- disk_info (Some (lit p)) true;
      let disks := match info with Some i => <[count := i]> disks | None => disks end in
      enumerate_loop patterns disks max_disks (if decide (result = DISK_OK) then S count else count)
  end.
Definition disk_enumerate (disks : option (list disk_info_t)) (max_disks : nat) (actual_count : bool) : M (disk_err_t * list disk_info_t * nat) :=
  match disks with
  | Some disks =>
      if negb actual_count || (max_disks =? 0)%nat then ret (DISK_ERROR_INVALID_PARAMETER, disks, O) else
      do (disks, n) <- enumerate_loop disk_patterns disks max_disks 0; ret (DISK_OK, disks, n)
  | None => ret (DISK_ERROR_INVALID_PARAMETER, [], O)
  end.

(** ** The speed of reading *)

Definition buffer_size : Z := 1024 * 1024.
(** Blocks are read until a read fails, or is short. *)
Fixpoint read_loop (iterations : nat) (total_read : Z) : M (option Z) :=
  match iterations with
  | O => ret (Some total_read)
  | S n =>
      do bytes_read <- reads_one;
      if bytes_read <? 0 then ret None else
      let total_read := total_read + bytes_read in
      if bytes_read <? buffer_size then ret (Some total_read) else read_loop n total_read
  end.
(** What follows the opening of the device.  The speed: bytes in nanoseconds, or none
    when no time has passed. *)
Definition timed_read (d : device) (total_bytes : Z) (iterations : nat) : M (disk_err_t * option (Z * Z)) :=
  do got <- allocates;
  if negb got then do _ <- closes; ret (DISK_ERROR_BUFFER_TOO_SMALL, None) else
  if match size64 d with Some n => n <? total_bytes | None => false end then do _ <- frees; do _ <- closes; ret (DISK_ERROR_INVALID_PARAMETER, None) else
  do _ <- if may_drop then do _ <- opens; do _ <- drops; closes else ret tt;
  do start_time <- now;
  do total_read <- read_loop iterations 0;
  match total_read with
  | None => do _ <- frees; do _ <- closes; ret (DISK_ERROR_IO_ERROR, None)
  | Some n =>
      do end_time <- now;
      do _ <- frees; do _ <- closes;
      ret (DISK_OK, if 0 <? end_time - start_time then Some (n, end_time - start_time) else None)
  end.
Definition disk_read_speed_test (device_name : option text) (test_size_mb : Z) (read_speed : bool) : M (disk_err_t * option (Z * Z)) :=
  match device_name, read_speed with
  | Some name, true =>
      if test_size_mb =? 0 then ret (DISK_ERROR_INVALID_PARAMETER, None) else
      let test_size_mb := if 1024 <? test_size_mb then 1024 else test_size_mb in
      let total_bytes := test_size_mb * 1024 * 1024 in
      let iterations := wrap 32 (total_bytes / buffer_size) in
      if iterations =? 0 then ret (DISK_ERROR_INVALID_PARAMETER, None) else
      do p <- path (ended_path name);
      do fd <- match nodes p with
        | Some d => if can_direct d then do _ <- opens; ret (Some d) else open p
        | None => ret None
        end;
      match fd with None => ret (DISK_ERROR_ACCESS_DENIED, None) | Some d => timed_read d total_bytes (Z.to_nat iterations) end
  | _, _ => ret (DISK_ERROR_INVALID_PARAMETER, None)
  end.
End System.
End Disk.
