(* ===== verification/DiskThm.v ===== *)
(** * Disks: theorems

    What a size reads as and how much room it takes; disks counted as the kernel lists
    them; the partition of a mount point; what is closed and freed; the disks that are
    enumerated; and where the code does otherwise than it means to. *)

From Stdlib Require Import Ascii String ZArith Lia List Bool.
From stdpp Require Import base tactics list option.
From S2P Require Import Prelude CText Disk.

Open Scope hj_scope.
Open Scope Z_scope.
Import Disk.

(** ** Sizes *)

Lemma scale_spec fuel m u : (length units - 1 - u <= fuel)%nat -> (u = 0%nat \/ 1024 ^ Z.of_nat u <= m) -> (u < length units)%nat ->
  let v := scale fuel m u in (v = 0%nat \/ 1024 ^ Z.of_nat v <= m) /\ (v < length units)%nat /\ (m < 1024 ^ Z.of_nat (S v) \/ v = (length units - 1)%nat).
Proof.
  revert u. induction fuel as [|fuel IH]; intros u Hf Hm Hu; cbn [scale].
  - split; [easy|]. split; [easy|]. right. cbn in *. lia.
  - destruct (Z.leb_spec (1024 * 1024 ^ Z.of_nat u) m) as [Hl|Hl]; cbn [andb]; [|split; [easy|]; split; [easy|]; left; rewrite Nat2Z.inj_succ, Z.pow_succ_r by lia; lia].
    destruct (Nat.ltb_spec u (length units - 1)) as [Hu'|Hu']; [|split; [easy|]; split; [easy|]; right; cbn in *; lia].
    apply IH; [lia| |cbn in *; lia]. right. rewrite Nat2Z.inj_succ, Z.pow_succ_r by lia. lia.
Qed.
Lemma unit_length u : (length (lit (nth u units EmptyString)) <= 2)%nat.
Proof. do 6 (destruct u as [|u]; [cbn; lia|]). cbn. destruct u; cbn; lia. Qed.
Lemma unit_no_nul u : no_nul (lit (nth u units EmptyString)).
Proof. do 6 (destruct u as [|u]; [repeat constructor|]). destruct u; constructor. Qed.

(** The text of a size: [h] hundredths of the unit [u]. *)
Definition reads_as (bytes : Z) (t : text) : Prop :=
  exists m u h, Z.abs (m - bytes) * 2 ^ 53 <= bytes /\ (u < length units)%nat /\
    (u = 0%nat \/ 1024 ^ Z.of_nat u <= m) /\ (m < 1024 ^ Z.of_nat (S u) \/ u = (length units - 1)%nat) /\
    2 * Z.abs (h * 1024 ^ Z.of_nat u - 100 * m) <= 1024 ^ Z.of_nat u /\
    t = (if (u =? 0)%nat then dec m else fixed2 h) ++ lit " " ++ lit (nth u units EmptyString).
Lemma size_text_reads bytes : 0 <= bytes < 2 ^ 64 -> reads_as bytes (size_text bytes).
Proof.
  intros Hb. unfold size_text. set (m := to_double bytes).
  destruct (scale_spec (length units) m 0 ltac:(cbn; lia) ltac:(now left) ltac:(cbn; lia)) as (H1 & H2 & H3). set (u := scale _ _ _) in *.
  exists m, u, (nearest (100 * m) (1024 ^ Z.of_nat u)). split; [now apply to_double_error|]. split; [easy|]. split; [easy|]. split; [easy|].
  split; [apply nearest_error; lia|easy].
Qed.
Lemma hundredths_bound m u : 0 <= m <= 2 ^ 64 -> (u < length units)%nat -> (m < 1024 ^ Z.of_nat (S u) \/ u = (length units - 1)%nat) ->
  nearest (100 * m) (1024 ^ Z.of_nat u) <= 100 * 2 ^ 14.
Proof.
  intros Hm Hu Hs. apply nearest_le; [lia|]. destruct Hs as [Hs| ->].
  - rewrite Nat2Z.inj_succ, Z.pow_succ_r in Hs by lia. lia.
  - change (1024 ^ Z.of_nat (length units - 1)) with (2 ^ 50). lia.
Qed.
Lemma size_text_length bytes : 0 <= bytes < 2 ^ 64 -> (length (size_text bytes) <= 11)%nat.
Proof.
  intros Hb. unfold size_text. set (m := to_double bytes). pose proof (to_double_bound bytes Hb) as Hm. fold m in Hm.
  destruct (scale_spec (length units) m 0 ltac:(cbn; lia) ltac:(now left) ltac:(cbn; lia)) as (H1 & H2 & H3). set (u := scale _ _ _) in *.
  rewrite !length_app. pose proof (unit_length u) as Hl. cbn [lit length list_ascii_of_string] in *.
  destruct (Nat.eqb_spec u 0) as [E|E].
  - assert (m < 1024) by (rewrite E in H3; change (1024 ^ Z.of_nat 1) with 1024 in H3; cbn in H3; lia).
    pose proof (dec_length m 3). change (10 ^ Z.of_nat 4) with 10000 in *. lia.
  - pose proof (hundredths_bound m u Hm H2 H3) as Hh. pose proof (nearest_nonneg (100 * m) (1024 ^ Z.of_nat u) ltac:(lia) ltac:(lia)).
    pose proof (fixed2_length (nearest (100 * m) (1024 ^ Z.of_nat u)) 4). change (100 * 10 ^ Z.of_nat 5) with 10000000 in *. lia.
Qed.
Lemma size_text_no_nul bytes : 0 <= bytes < 2 ^ 64 -> no_nul (size_text bytes).
Proof.
  intros Hb. unfold size_text. pose proof (to_double_bound bytes Hb) as Hm. apply Forall_app. split.
  - destruct (_ =? 0)%nat; [apply dec_no_nul; lia|apply fixed2_no_nul, nearest_nonneg; lia].
  - apply Forall_app. split; [repeat constructor|apply unit_no_nul].
Qed.

(** A size is written as a number of at most six hundredths-rounded digits and the
    largest unit that is not larger than it - exact up to the 53 bits of a double and the
    nearest hundredth -, within the buffer whatever its length; what does not fit is cut
    and reported, and 12 characters are always enough. *)
Theorem disk_format_size_fits bytes buffer n (Hb : 0 <= bytes < 2 ^ 64) (Hn : (0 < n <= length buffer)%nat) :
  exists e b t, disk_format_size bytes (Some buffer) n = Some (e, Some b) /\ length b = length buffer /\
    reads_as bytes t /\ c_str b = Some (take (n - 1) t) /\ (e = DISK_OK <-> (length t < n)%nat) /\ ((12 <= n)%nat -> e = DISK_OK).
Proof.
  unfold disk_format_size. destruct (Nat.eqb_spec n 0) as [E|_]; [lia|].
  destruct (snprintf_spec n (size_text bytes) buffer (size_text_no_nul bytes Hb) Hn) as (b & -> & Hs & Hl).
  do 3 eexists. split; [reflexivity|]. split; [exact Hl|]. split; [now apply size_text_reads|]. split; [exact Hs|].
  pose proof (size_text_length bytes Hb). destruct (Nat.leb_spec n (length (size_text bytes))); split; try lia; try split; try easy; lia.
Qed.
Lemma disk_format_size_fits_witness : size_text 1536 = lit "1.50 KB" /\
  exists e b t, disk_format_size 1536 (Some (uninit 8)) 8 = Some (e, Some b) /\ length b = length (uninit 8) /\
    reads_as 1536 t /\ c_str b = Some (take (8 - 1) t) /\ (e = DISK_OK <-> (length t < 8)%nat) /\ ((12 <= 8)%nat -> e = DISK_OK).
Proof. split; [vm_compute; reflexivity|]. apply (disk_format_size_fits 1536 (uninit 8) 8); [lia|cbn; lia]. Defined.
(** Just below a unit the text rounds up to 1024 of the smaller one. *)
Lemma size_rounds_to_unit : size_text (2 ^ 20 - 1) = lit "1024.00 KB".
Proof. vm_compute. reflexivity. Qed.

(** ** Names *)

(** The name of a file system is read back as that file system, but for the four
    whose name is not among the ones that are known. *)
Theorem filesystem_names_roundtrip t :
  disk_filesystem_type_from_string (Some (lit (disk_filesystem_type_to_string t))) = t <->
  t <> FILESYSTEM_BTRFS /\ t <> FILESYSTEM_REISERFS /\ t <> FILESYSTEM_SWAP /\ t <> FILESYSTEM_PROCFS.
Proof. destruct t; vm_compute; split; try easy; intros (? & ? & ? & ?); congruence. Qed.

(** ** Counting *)

(** A line of [/proc/partitions], as the kernel prints it. *)
Record partition := Part { major : Z; minor : Z; part_blocks : Z; name : text }.
Definition partition_line (p : partition) : text :=
  padded 4 (dec (major p)) ++ lit "  " ++ padded 7 (dec (minor p)) ++ lit " " ++ padded 10 (dec (part_blocks p)) ++ lit " " ++ name p.
Definition partitions_file (l : list partition) : text := concat (map ended (lit "major minor  #blocks  name" :: [] :: map partition_line l)).
Definition fine_word (n : nat) (t : text) : Prop := word t /\ no_nul t /\ (length t <= n)%nat.
Definition fine_partition (p : partition) : Prop := 0 <= major p < 2 ^ 64 /\ 0 <= minor p < 2 ^ 64 /\ 0 <= part_blocks p < 2 ^ 64 /\ fine_word 63 (name p).

Lemma plain_app s t : plain s -> plain t -> plain (s ++ t).
Proof. intros. now apply Forall_app. Qed.
Lemma plain_digits t : Forall (fun a => is_digit a = true) t -> plain t.
Proof. apply Forall_impl. intros a H. split; [intros ->; discriminate|now apply is_nul_digit]. Qed.
Lemma plain_padded n t : plain t -> plain (padded n t).
Proof. intros H. apply plain_app; [|easy]. apply Forall_replicate. easy. Qed.
Lemma plain_word t : word t -> no_nul t -> plain t.
Proof.
  intros [_ Hw] Hn. unfold no_nul in Hn. apply Forall_forall. intros a Ha.
  rewrite Forall_forall in Hw, Hn. split; [|now apply Hn]. intros ->. now specialize (Hw LF Ha).
Qed.
Lemma field_length n t k : (n <= k)%nat -> (length t <= k)%nat -> (length (padded n t) <= k)%nat.
Proof. intros. unfold padded. rewrite length_app, length_replicate. lia. Qed.
Lemma dec_length_64 n : 0 <= n < 2 ^ 64 -> (length (dec n) <= 20)%nat.
Proof. intros H. apply (dec_length n 19). change (10 ^ Z.of_nat 20) with 100000000000000000000. lia. Qed.
Lemma partition_line_plain p : fine_partition p -> plain (partition_line p) /\ (length (partition_line p) + 1 < 256)%nat.
Proof.
  intros (H1 & H2 & H3 & Hw & Hn & Hl). split.
  - assert (Hd : forall k n, 0 <= n < 2 ^ 64 -> plain (padded k (dec n))) by (intros k n H; apply plain_padded, plain_digits, dec_digits; lia).
    assert (Hb : plain (lit "  ") /\ plain (lit " ")) by (split; repeat constructor; easy). unfold partition_line.
    do 3 (apply plain_app; [now apply Hd|]; apply plain_app; [apply Hb|]). now apply plain_word.
  - unfold partition_line. rewrite !length_app.
    pose proof (field_length 4 _ 20 ltac:(lia) (dec_length_64 _ H1)). pose proof (field_length 7 _ 20 ltac:(lia) (dec_length_64 _ H2)).
    pose proof (field_length 10 _ 20 ltac:(lia) (dec_length_64 _ H3)).
    change (length (lit "  ")) with 2%nat. change (length (lit " ")) with 1%nat. lia.
Qed.
Lemma blank_then f s : sscanf (Blank :: f) s = sscanf f (skip is_space s).
Proof. reflexivity. Qed.
Lemma skip_padded n t s : Forall (fun a => is_digit a = true) t -> t <> [] -> skip is_space (padded n t ++ s) = t ++ s.
Proof.
  intros Ht Hn. apply skip_blanks; [easy|]. intros a r E. destruct t as [|b t]; [easy|]. injection E as <- _.
  apply Forall_cons_iff in Ht as [Hb _]. now apply digit_not_space.
Qed.
(** After blanks that were skipped, or not, a number is scanned. *)
Lemma sscanf_next k n s f (b : text) : 0 <= n < 2 ^ 64 -> (forall a r, s = a :: r -> is_digit a = false) -> Forall (fun a => is_space a = true) b ->
  sscanf (Blank :: Lu :: f) (b ++ padded k (dec n) ++ s) = Num n :: sscanf f s.
Proof.
  intros Hn Hs Hb. rewrite blank_then.
  replace (skip is_space (b ++ padded k (dec n) ++ s)) with (dec n ++ s); [exact (sscanf_Lu n 0 s f Hn Hs)|].
  induction Hb as [|a b Ha Hb IH]; cbn; [symmetry; apply skip_padded; [apply dec_digits; lia|apply dec_not_nil]|now rewrite Ha].
Qed.
Lemma count_line_partition n p : fine_partition p -> count_line n (ended (partition_line p)) = if is_disk (name p) then wrap 32 (n + 1) else n.
Proof.
  intros (H1 & H2 & H3 & Hw & Hn & Hl). unfold count_line, ended, partition_line, partition_format. rewrite <- !app_assoc.
  rewrite sscanf_Lu by (auto; intros a r E; injection E as <- _; easy).
  rewrite (sscanf_next 7 (minor p) _ _ (lit "  ")) by (auto; try (repeat constructor); intros a r E; injection E as <- _; easy).
  rewrite (sscanf_next 10 (part_blocks p) _ _ (lit " ")) by (auto; try (repeat constructor); intros a r E; injection E as <- _; easy).
  rewrite blank_then.
  assert (Hs : skip is_space (lit " " ++ name p ++ [LF]) = name p ++ [LF]).
  { destruct Hw as [Hne Hw]. cbn. destruct (name p) as [|a t]; [easy|]. apply Forall_cons_iff in Hw as [Ha _]. cbn. apply negb_true_iff in Ha. now rewrite Ha. }
  rewrite Hs, sscanf_Word; [reflexivity|easy|intros k [= <-]; lia|intros a r [= <- _]; easy].
Qed.
Definition count_of (l : list partition) : Z := Z.of_nat (length (List.filter (fun p => is_disk (name p)) l)).
Lemma count_fold l n : Forall fine_partition l -> fold_left count_line (map ended (map partition_line l)) (wrap 32 n) = wrap 32 (n + count_of l).
Proof.
  intros H. revert n. induction H as [|p l Hp Hl IH]; intros n; cbn [map fold_left]; [unfold count_of; cbn; f_equal; lia|].
  rewrite count_line_partition by easy. unfold count_of. cbn [List.filter]. destruct (is_disk (name p)).
  - replace (wrap 32 (wrap 32 n + 1)) with (wrap 32 (n + 1)) by (unfold wrap; now rewrite Z.add_mod_idemp_l). rewrite IH. f_equal. unfold count_of. cbn [length]. lia.
  - exact (IH n).
Qed.
Lemma lines_of_partitions l : Forall fine_partition l -> lines 256 (partitions_file l) = map ended (lit "major minor  #blocks  name" :: [] :: map partition_line l).
Proof.
  intros H. apply lines_file. constructor; [split; [repeat constructor; easy|cbn; lia]|]. constructor; [split; [constructor|cbn; lia]|].
  induction H as [|p l Hp _ IH]; constructor; [now apply partition_line_plain|easy].
Qed.
(** Of the partitions that the kernel lists, the disks are counted: those whose names
    are [sd], [hd] or [vd] and one more character, or begin with [nvme] or [mmcblk] and
    have no p; and what was opened is closed. *)
Theorem disk_count_counts files l w (Hf : files (lit "/proc/partitions") = Some (partitions_file l)) (Hl : Forall fine_partition l) :
  disk_count files w = Some (wrap 32 (count_of l), w).
Proof.
  unfold disk_count, bind. rewrite Hf, lines_of_partitions by easy. cbn [map].
  change (fold_left count_line (map ended (map partition_line l)) 0) with (fold_left count_line (map ended (map partition_line l)) (wrap 32 0)).
  rewrite count_fold by easy. now destruct w.
Qed.
Definition some_partitions : list partition := [Part 8 0 500107608 (lit "sda"); Part 8 1 1024 (lit "sda1"); Part 259 0 1000204632 (lit "nvme0n1"); Part 259 1 512 (lit "nvme0n1p1")].
Lemma disk_count_counts_witness :
  let files p := if text_eqb p (lit "/proc/partitions") then Some (partitions_file some_partitions) else None in
  let w := World 0 0 [] [] true false in disk_count files w = Some (wrap 32 (count_of some_partitions), w) /\ wrap 32 (count_of some_partitions) = 2.
Proof.
  split; [|vm_compute; reflexivity]. apply disk_count_counts; [vm_compute; reflexivity|].
  repeat constructor; cbn; try lia; try discriminate.
Defined.
(** A disk of any size is counted: the check of the size does nothing.  So is the
    boot area of a card, which is no disk of its own; a twenty-seventh disk is not. *)
Lemma small_disk_counted : count_line 0 (ended (partition_line (Part 8 0 1 (lit "sda")))) = 1.
Proof. vm_compute. reflexivity. Qed.
Lemma disk_names : is_disk (lit "mmcblk0boot0") = true /\ is_disk (lit "sdaa") = false /\ is_disk (lit "xvda") = false.
Proof. vm_compute. easy. Qed.

(** ** Paths *)

Definition dev_path (name : text) : text := if starts (lit "/dev/") name then name else lit "/dev/" ++ name.
Lemma dev_no_nul name : no_nul name -> no_nul (dev_path name).
Proof. intros H. unfold dev_path. destruct (starts _ _); [easy|]. apply Forall_app. split; [repeat constructor|easy]. Qed.
Lemma c_str_insert_tail a t i : c_str a = Some t -> (length t <= i)%nat -> c_str (<[i := Some NUL]> a) = Some t.
Proof.
  revert t i. induction a as [|[x|] a IH]; intros t i H Hi; try discriminate. cbn in H.
  destruct (is_nul x) eqn:E.
  - injection H as <-. destruct i; [easy|]. cbn. now rewrite E.
  - destruct (c_str a) as [s|] eqn:Es; [|discriminate]. injection H as <-. destruct i; [cbn in Hi; lia|]. cbn. rewrite E. rewrite (IH s); [easy|easy|cbn in Hi; lia].
Qed.
Lemma c_str_cut t a i : no_nul t -> length t = i -> (i < length a)%nat -> c_str (<[i := Some NUL]> (map Some t ++ drop i a)) = Some t.
Proof.
  intros Ht <- Hl. replace (length t) with (length (map Some t) + 0)%nat at 1 by (rewrite length_map; lia).
  rewrite insert_app_r. destruct (drop (length t) a) as [|x r] eqn:E; [apply (f_equal length) in E; rewrite length_drop in E; cbn in E; lia|].
  now apply c_str_end.
Qed.
Lemma set_char_spec i a : (i < length a)%nat -> set_char i NUL a = Some (<[i := Some NUL]> a).
Proof. intros H. unfold set_char. destruct (Nat.ltb_spec i (length a)); [easy|lia]. Qed.
Lemma full_path_spec name : no_nul name -> starts (lit "/dev/") name = false \/ (length name < 255)%nat ->
  exists a, full_path name = Some a /\ c_str a = Some (take 255 (dev_path name)) /\ length a = 256%nat.
Proof.
  intros Hn Hl. pose proof (dev_no_nul name Hn) as Hd. unfold full_path, dev_path in *. destruct (starts (lit "/dev/") name).
  - destruct Hl as [|Hl]; [discriminate|]. rewrite (take_ge name 255) by lia. exact (strncpy_spec 255 name (uninit 256) Hn Hl (le_S _ _ (le_n 255))).
  - exact (snprintf_spec 256 _ (uninit 256) Hd (conj (Nat.lt_0_succ 255) (le_n 256))).
Qed.
(** With its end put back, the path is the name, cut to 255 characters. *)
Lemma ended_path_spec name : no_nul name -> exists a, ended_path name = Some a /\ c_str a = Some (take 255 (dev_path name)).
Proof.
  intros Hn. unfold ended_path.
  destruct (starts (lit "/dev/") name) eqn:Es; [destruct (Nat.lt_ge_cases (length name) 255) as [Hl|Hl]|].
  - destruct (full_path_spec name Hn (or_intror Hl)) as (a & -> & Hs & Ha). rewrite set_char_spec by lia.
    eexists. split; [reflexivity|]. apply c_str_insert_tail; [exact Hs|]. unfold dev_path. rewrite Es, length_take. lia.
  - unfold full_path, dev_path, strncpy. rewrite Es, take_app_le by lia.
    assert (Ht : length (take 255 name) = 255%nat) by (rewrite length_take; lia).
    rewrite write_spec by (rewrite Ht; cbn; lia). rewrite Ht.
    rewrite set_char_spec by (rewrite length_app, length_map, Ht, length_drop; unfold uninit; rewrite length_replicate; lia).
    eexists. split; [reflexivity|]. apply c_str_cut; [now apply no_nul_take|easy|unfold uninit; rewrite length_replicate; lia].
  - destruct (full_path_spec name Hn (or_introl Es)) as (a & -> & Hs & Ha). rewrite set_char_spec by lia.
    eexists. split; [reflexivity|]. apply c_str_insert_tail; [exact Hs|rewrite length_take; lia].
Qed.
Lemma path_post a p w (Q : text -> world -> Prop) : (exists b, a = Some b /\ c_str b = Some p) -> Q p w -> post (path a) w Q.
Proof. intros (b & -> & E) H. unfold path. apply post_bind, (post_lift _ b); [easy|]. now apply (post_lift _ p). Qed.

(** ** What is opened is closed *)

Definition same (w w' : world) : Prop := handles w' = handles w /\ blocks w' = blocks w.
Section Closing.
Context (files : text -> option text) (nodes : text -> option device) (may_drop : bool).

Lemma ready_closes name w : no_nul name -> post (disk_is_ready nodes (Some name)) w (fun _ w' => w' = w).
Proof.
  intros Hn. unfold disk_is_ready. destruct name as [|a name]; [easy|]. set (n := a :: name) in *.
  destruct (ended_path_spec n Hn) as (b & Eb & Es). apply post_bind, (path_post _ _ _ _ (ex_intro _ b (conj Eb Es))).
  unfold open. destruct (nodes _) as [d|] eqn:Ed; [|easy]. destruct (block d); [|easy]. cbn [negb].
  destruct (can_open d); [now destruct w|easy].
Qed.

Lemma read_loop_post n total w : Forall (fun r => r <= buffer_size) (reads w) ->
  post (read_loop n total) w (fun r w' => same w w' /\ match r with Some t => t <= total + Z.of_nat n * buffer_size | None => True end).
Proof.
  revert total w. induction n as [|n IH]; intros total w Hr; [split; [easy|lia]|].
  apply post_bind. unfold post at 1, reads_one. destruct (reads w) as [|r l] eqn:E.
  - change (same w w /\ total + 0 <= total + Z.of_nat (S n) * buffer_size). split; [easy|]. unfold buffer_size. lia.
  - apply Forall_cons_iff in Hr as [Hr Hl].
    destruct (r <? 0); [easy|]. destruct (Z.ltb_spec r buffer_size); [split; [easy|unfold buffer_size in *; lia]|].
    eapply post_weaken; [apply IH, Hl|]. intros [t|] w' [Hs Ht]; split; try easy. unfold buffer_size in *. lia.
Qed.
Definition close_blocks (w : world) : world := World (pred (handles w)) (blocks w) (reads w) (clock w) (memory w) (dropped w).
Lemma timed_read_post d total n w : handles w <> O -> Forall (fun r => r <= buffer_size) (reads w) ->
  post (timed_read may_drop d total n) w (fun r w' => same (close_blocks w) w' /\ match r with (e, Some (t, ns)) => e = DISK_OK /\ t <= Z.of_nat n * buffer_size /\ 0 < ns | _ => True end).
Proof.
  intros Hh Hr. destruct w as [[|h] b rs cl mem dr]; [easy|]. cbn [reads] in Hr. unfold timed_read.
  destruct mem; [|easy]. apply post_bind. unfold allocates, post at 1. cbn [memory negb handles blocks reads clock].
  destruct (match size64 d with Some _ => _ | None => _ end); [easy|].
  assert (Hrest : forall dr, post (do start_time <- now; do total_read <- read_loop n 0;
      match total_read with
      | None => do _ <- frees; do _ <- closes; ret (DISK_ERROR_IO_ERROR, None)
      | Some n => do end_time <- now; do _ <- frees; do _ <- closes; ret (DISK_OK, if 0 <? end_time - start_time then Some (n, end_time - start_time) else None)
      end) (World (S h) (S b) rs cl true dr)
      (fun r w' => same (close_blocks (World (S h) b rs cl true dr)) w' /\ match r with (e, Some (t, ns)) => e = DISK_OK /\ t <= Z.of_nat n * buffer_size /\ 0 < ns | _ => True end)).
  { intros dr'. apply post_bind. set (w0 := World _ _ _ _ _ _).
    assert (E : exists t cl', now w0 = Some (t, World (S h) (S b) rs cl' true dr')) by (unfold now, w0; cbn; destruct cl; eauto).
    destruct E as (t & cl' & E). unfold post at 1. rewrite E. apply post_bind.
    eapply post_weaken; [apply read_loop_post; exact Hr|]. intros r [h1 b1 rs1 cl1 m1 d1] [[Eh Eb] Ht]. cbn in Eh, Eb. subst h1 b1.
    destruct r as [r|]; [|easy]. apply post_bind. unfold now, post at 1. cbn [clock].
    destruct cl1 as [|t1 cl1]; (apply post_bind; unfold frees, post at 1; cbn [blocks]; apply post_bind; unfold closes, post at 1; cbn [handles]; apply post_ret; split; [easy|]).
    - destruct (Z.ltb_spec 0 (0 - t)); [|easy]. repeat split; lia.
    - destruct (Z.ltb_spec 0 (t1 - t)); [|easy]. repeat split; lia. }
  destruct may_drop; [exact (Hrest true)|exact (Hrest dr)].
Qed.
Definition megabytes (mb : Z) : Z := if 1024 <? mb then 1024 else mb.
Lemma speed_closes name mb w : no_nul name -> 0 <= mb < 2 ^ 32 -> Forall (fun r => r <= buffer_size) (reads w) ->
  post (disk_read_speed_test nodes may_drop (Some name) mb true) w
    (fun r w' => same w w' /\ match r with (e, Some (n, ns)) => e = DISK_OK /\ n <= megabytes mb * 2 ^ 20 /\ 0 < ns | _ => True end).
Proof.
  intros Hn Hm Hr. unfold disk_read_speed_test. destruct (Z.eqb_spec mb 0); [easy|]. fold (megabytes mb). set (m := megabytes mb).
  assert (Hb : 0 < m <= 1024) by (unfold m, megabytes; destruct (Z.ltb_spec 1024 mb); lia).
  replace (m * 1024 * 1024 / buffer_size) with m by (unfold buffer_size; rewrite <- Z.mul_assoc, Z.div_mul; lia).
  rewrite wrap_small by (unfold uint; lia). destruct (Z.eqb_spec m 0); [lia|].
  destruct (ended_path_spec name Hn) as (b & Eb & Es). apply post_bind, (path_post _ _ _ _ (ex_intro _ b (conj Eb Es))).
  assert (Hrest : forall d, post (timed_read may_drop d (m * 1024 * 1024) (Z.to_nat m)) (World (S (handles w)) (blocks w) (reads w) (clock w) (memory w) (dropped w))
    (fun r w' => same w w' /\ match r with (e, Some (n, ns)) => e = DISK_OK /\ n <= m * 2 ^ 20 /\ 0 < ns | _ => True end)).
  { intros d. eapply post_weaken; [now apply timed_read_post|]. intros [e [[t ns]|]] w' [Hs Ht]; split; try easy. rewrite Z2Nat.id in Ht by lia. destruct Ht as (He & Ht & Hns). split; [easy|]. split; [unfold buffer_size in Ht; lia|easy]. }
  unfold open. destruct (nodes _) as [d|] eqn:Ed; [|easy].
  destruct (can_direct d); [exact (Hrest d)|]. destruct (can_open d); [exact (Hrest d)|easy].
Qed.

(** What [ioctl] answers of sectors can be divided by; the file that says whether a disk
    turns is not empty. *)
Definition sane_device (d : device) : Prop := match ssz d with Some s => 0 < s < 2 ^ 31 | None => True end.
Definition rotational_path (name : text) : text := take 511 (lit "/sys/block/" ++ base_name name ++ lit "/queue/rotational").
Definition sane_name (name : text) : Prop := no_nul name /\ (starts (lit "/dev/") name = false \/ (length name < 255)%nat) /\ files (rotational_path name) <> Some [].
Definition info_of (name : text) (d : device) (i : disk_info_t) : Prop :=
  c_str (device_name i) = Some (take 255 name) /\ total_size i = match size64 d with Some n => n | None => 0 end /\
  sector_size i = match ssz d with Some s => s | None => DISK_SECTOR_SIZE_DEFAULT end /\ sector_count i = total_size i / sector_size i.
Lemma no_nul_base name : no_nul name -> no_nul (base_name name).
Proof.
  intros H. unfold base_name. assert (Ha : forall t, after_last "/"%char name = Some t -> no_nul t).
  { induction H as [|a l Ha Hl IH]; cbn; [discriminate|]. destruct (after_last "/" l) as [u|]; [intros t [= <-]; now apply IH|].
    destruct (decide _); [intros t [= <-]; exact Hl|discriminate]. }
  destruct (after_last _ _); [now apply Ha|easy].
Qed.
Lemma rotational_closes name w : sane_name name -> post (rotational files name) w (fun _ w' => w' = w).
Proof.
  intros (Hn & _ & Hf). unfold rotational. set (p := lit "/sys/block/" ++ base_name name ++ lit "/queue/rotational") in *.
  assert (Hp : no_nul p) by (apply Forall_app; split; [repeat constructor|apply Forall_app; split; [now apply no_nul_base|repeat constructor]]).
  destruct (snprintf_spec 512 p (uninit 512) Hp) as (b & Eb & Es & _); [unfold uninit; rewrite length_replicate; lia|].
  apply post_bind, (path_post _ _ _ _ (ex_intro _ b (conj Eb Es))).
  destruct (files _) as [f|] eqn:Ef; [|easy]. destruct f as [|a f]; [now destruct Hf|].
  cbn [fgets]. apply post_bind. unfold opens, modify, post at 1.
  apply post_bind. unfold closes, post at 1. cbn [handles].
  destruct (c_string _) as [|x l]; [now destruct w|]. destruct (decide _); now destruct w.
Qed.
Lemma strncpy_field t n : no_nul t -> (0 < n)%nat -> exists a, strncpy (n - 1) t (zeroed n) = Some a /\ c_str a = Some (take (n - 1) t) /\ length a = n.
Proof.
  intros Ht Hn. unfold strncpy.
  assert (Hl : (length (take (n - 1) (t ++ replicate (n - 1) NUL)) = n - 1)%nat) by (rewrite length_take, length_app, length_replicate; lia).
  assert (Hz : length (zeroed n) = n) by (unfold zeroed; apply length_replicate).
  rewrite write_spec by lia. rewrite Hl. eexists. split; [reflexivity|]. split.
  - unfold zeroed. rewrite drop_replicate. replace (n - (n - 1))%nat with 1%nat by lia. cbn [replicate].
    destruct (Nat.lt_ge_cases (length t) (n - 1)) as [H|H].
    + rewrite take_app, (take_ge t) by lia. rewrite map_app, <- app_assoc. rewrite take_replicate.
      replace (Nat.min _ _) with (S (n - 1 - length t - 1)) by lia. now apply c_str_end.
    + rewrite take_app_le by lia. now apply c_str_end, no_nul_take.
  - rewrite length_app, length_map, Hl, length_drop. lia.
Qed.
Lemma info_closes name w : sane_name name -> (forall p d, nodes p = Some d -> sane_device d) ->
  post (disk_info files nodes (Some name) true) w (fun r w' => w' = w /\
    match nodes (take 255 (dev_path name)) with
    | Some d => if can_open d then exists i, r = (DISK_OK, Some i) /\ info_of name d i else r.1 = DISK_ERROR_ACCESS_DENIED
    | None => r.1 = DISK_ERROR_ACCESS_DENIED
    end).
Proof.
  intros Hs Hd. pose proof Hs as (Hn & Hl & _). unfold disk_info. 
  destruct (strncpy_field name DISK_MAX_DEVICE_NAME Hn (Nat.lt_0_succ 255)) as (field & Ef & Ec & _).
  apply post_bind, (post_lift _ field); [exact Ef|].
  destruct (full_path_spec name Hn Hl) as (b & Eb & Es & _). apply post_bind, (path_post _ _ _ _ (ex_intro _ b (conj Eb Es))).
  apply post_bind. unfold open. destruct (nodes _) as [d|] eqn:Ed; [|easy]. destruct (can_open d); [|easy].
  apply post_bind. unfold opens, modify, post at 1. apply post_ret. specialize (Hd _ _ Ed).
  set (total := match size64 d with Some n => n | None => 0 end). 
  assert (E : exists s, sectors d total = Some (s, total / s) /\ s = match ssz d with Some s => s | None => DISK_SECTOR_SIZE_DEFAULT end /\ s <> 0).
  { unfold sectors, sane_device in *. destruct (ssz d) as [s|]; [|eexists; split; [reflexivity|easy]].
    rewrite wrap_small by (unfold uint; lia). destruct (Z.eqb_spec s 0); [lia|]. eexists. split; [reflexivity|]. split; [easy|lia]. }
  destruct E as (s & Esec & Hs1 & Hs2). apply post_bind, (post_lift _ (s, total / s)); [exact Esec|].
  apply post_bind. eapply post_weaken; [now apply rotational_closes|]. intros [t r] w' ->.
  apply post_bind. unfold closes, post at 1. cbn [handles].
  apply post_bind. eapply post_lift; [reflexivity|]. apply post_bind. eapply post_lift; [reflexivity|]. apply post_ret.
  destruct (Z.eqb_spec s 0); [easy|]. split; [now destruct w|]. eexists. split; [reflexivity|]. repeat split; auto.
Qed.

(** ** All disks *)

Definition openable (p : string) : bool := match nodes (lit p) with Some d => can_open d | None => false end.
Definition describes (p : string) (i : disk_info_t) : Prop := exists d, nodes (lit p) = Some d /\ info_of (lit p) d i.
Definition sane_pattern (p : string) : Prop := starts (lit "/dev/") (lit p) = true /\ no_nul (lit p) /\ (length (lit p) < 255)%nat /\ files (rotational_path (lit p)) <> Some [].
Lemma pattern_info p w : sane_pattern p -> (forall q d, nodes q = Some d -> sane_device d) ->
  post (disk_info files nodes (Some (lit p)) true) w (fun r w' => w' = w /\ if openable p then exists i, r = (DISK_OK, Some i) /\ describes p i else r.1 <> DISK_OK).
Proof.
  intros (Hs & Hn & Hl & Hf) Hd. eapply post_weaken; [apply info_closes; [|exact Hd]; split; [easy|]; split; [now right|easy]|].
  intros r w' [-> H]. split; [easy|]. unfold dev_path in H. rewrite Hs, take_ge in H by lia. unfold openable, describes.
  destruct (nodes (lit p)) as [d|]; [|now rewrite H]. destruct (can_open d); [|now rewrite H]. destruct H as (i & -> & Hi). eauto.
Qed.
Lemma enumerate_loop_post ps disks max c w : Forall sane_pattern ps -> (forall q d, nodes q = Some d -> sane_device d) -> (c <= max <= length disks)%nat ->
  post (enumerate_loop files nodes ps disks max c) w (fun '(ds, n) w' => w' = w /\ length ds = length disks /\
    n = Nat.min max (c + length (List.filter openable ps)) /\ (forall j, (j < c)%nat -> ds !! j = disks !! j) /\
    forall k p, List.filter openable ps !! k = Some p -> (c + k < n)%nat -> exists i, ds !! (c + k)%nat = Some i /\ describes p i).
Proof.
  intros Hps Hd. revert disks c. induction Hps as [|p ps Hp Hps IH]; intros disks c Hc; cbn [enumerate_loop List.filter].
  - split; [easy|]. split; [easy|]. split; [cbn; lia|easy].
  - destruct (Nat.leb_spec max c) as [Hm|Hm].
    { split; [easy|]. split; [easy|]. split; [lia|]. split; [easy|]. intros k q _ Hk. lia. }
    assert (Ho : accessible nodes (lit p) = false -> openable p = false) by (unfold accessible, openable; now destruct (nodes (lit p))).
    destruct (accessible nodes (lit p)) eqn:Ea; cbn [negb]; [|rewrite Ho by easy; now apply IH].
    destruct (Nat.leb_spec (length disks) c); [lia|]. apply post_bind. eapply post_weaken; [now apply pattern_info|].
    intros [e i] w' [-> Hr]. cbn [fst] in Hr. set (disks' := match i with Some i => <[c := i]> disks | None => disks end).
    assert (Hlen : length disks' = length disks) by (unfold disks'; destruct i; [apply length_insert|easy]).
    assert (Hkeep : forall j, (j < c)%nat -> disks' !! j = disks !! j) by (intros j Hj; unfold disks'; destruct i; [apply list_lookup_insert_ne; lia|easy]).
    destruct (openable p).
    + destruct Hr as (i' & [= -> ->] & Hi). rewrite decide_True by easy.
      eapply post_weaken; [apply (IH disks' (S c)); lia|]. intros [ds n] w' (-> & H1 & H2 & H3 & H4). cbn [length].
      split; [easy|]. split; [lia|]. split; [lia|]. split; [intros j Hj; rewrite H3 by lia; now apply Hkeep|].
      intros [|k] q Hq Hk; cbn in Hq.
      * injection Hq as <-. rewrite Nat.add_0_r. rewrite H3 by lia. exists i'. split; [apply list_lookup_insert_eq; lia|easy].
      * replace (c + S k)%nat with (S c + k)%nat by lia. apply H4; [easy|lia].
    + rewrite decide_False by easy. eapply post_weaken; [apply (IH disks' c); lia|]. intros [ds n] w' (-> & H1 & H2 & H3 & H4).
      split; [easy|]. split; [lia|]. split; [easy|]. split; [intros j Hj; rewrite H3 by lia; now apply Hkeep|easy].
Qed.
End Closing.

(** The disks that are enumerated are the devices of the fixed list of names that can
    be opened, in its order, as many as there is room for, each with its name and the
    sizes the system gives; and every file that was opened is closed. *)
Theorem disk_enumerate_lists files nodes disks max w (Hm : (0 < max <= length disks)%nat)
    (Hf : Forall (sane_pattern files) disk_patterns) (Hd : forall p d, nodes p = Some d -> sane_device d) :
  exists ds n, disk_enumerate files nodes (Some disks) max true w = Some ((DISK_OK, ds, n), w) /\ length ds = length disks /\
    n = Nat.min max (length (List.filter (openable nodes) disk_patterns)) /\
    forall k p, List.filter (openable nodes) disk_patterns !! k = Some p -> (k < n)%nat -> exists i, ds !! k = Some i /\ describes nodes p i.
Proof.
  pose proof (enumerate_loop_post files nodes disk_patterns disks max 0 w Hf Hd ltac:(lia)) as H. apply post_some in H as ([ds n] & w' & E & -> & H1 & H2 & _ & H4).
  exists ds, n. split; [|split; [exact H1|split; [exact H2|exact H4]]]. unfold disk_enumerate. cbn [negb orb]. destruct (Nat.eqb_spec max 0); [lia|]. unfold bind. now rewrite E.
Qed.
Definition example_nodes (p : text) : option device :=
  if text_eqb p (lit "/dev/sdb") then Some (Device true true true false (Some 1000000) (Some 512)) else
  if text_eqb p (lit "/dev/hda") then Some (Device true false false true None None) else
  if text_eqb p (lit "/dev/nvme0n1") then Some (Device true true false false (Some 4096000) None) else None.
Definition example_files (p : text) : option text := if text_eqb p (lit "/sys/block/sdb/queue/rotational") then Some (lit "1" ++ [LF]) else None.
Definition no_info : disk_info_t := DiskInfo [] [] [] DISK_TYPE_UNKNOWN 0 0 0 false false 0 0.
Lemma disk_enumerate_lists_witness : let w := World 0 0 [] [] true false in
  (exists i j k, disk_enumerate example_files example_nodes (Some [no_info; no_info; no_info]) 3 true w = Some ((DISK_OK, [i; j; k], 2%nat), w) /\ rpm i = 7200 /\ sector_count j = 8000) /\
  exists ds n, disk_enumerate example_files example_nodes (Some [no_info; no_info; no_info]) 3 true w = Some ((DISK_OK, ds, n), w) /\ length ds = 3%nat /\
    n = Nat.min 3 (length (List.filter (openable example_nodes) disk_patterns)) /\
    forall k p, List.filter (openable example_nodes) disk_patterns !! k = Some p -> (k < n)%nat -> exists i, ds !! k = Some i /\ describes example_nodes p i.
Proof.
  split; [do 3 eexists; split; [vm_compute; reflexivity|split; reflexivity]|]. apply disk_enumerate_lists; [cbn; lia| |].
  - repeat constructor; cbn; try lia; try (vm_compute; discriminate).
  - intros p d. unfold example_nodes. repeat (destruct (text_eqb _ _); [intros [= <-]; cbn; lia|]). discriminate.
Defined.

(** Asking whether a disk is ready and testing its speed close what they open and
    free what they allocate, on every path, for a name of any length; the test reads no
    more than it was asked, and a speed is given only when time has passed. *)
Theorem disk_closes nodes may_drop name mb w (Hn : no_nul name) (Hm : 0 <= mb < 2 ^ 32) (Hr : Forall (fun r => r <= buffer_size) (reads w)) :
  post (disk_is_ready nodes (Some name)) w (fun _ w' => w' = w) /\
  post (disk_read_speed_test nodes may_drop (Some name) mb true) w
    (fun r w' => handles w' = handles w /\ blocks w' = blocks w /\ match r with (e, Some (n, ns)) => e = DISK_OK /\ n <= Z.min mb 1024 * 2 ^ 20 /\ 0 < ns | _ => True end).
Proof.
  split; [now apply ready_closes|]. eapply post_weaken; [now apply speed_closes|]. intros [e [[n ns]|]] w' [[Hh Hb] H]; (split; [exact Hh|]; split; [exact Hb|]); [|easy].
  unfold megabytes in H. destruct (Z.ltb_spec 1024 mb); destruct H as (He & Hle & Hns); (split; [exact He|]; split; [|exact Hns]); lia.
Qed.
Lemma disk_closes_witness : let w := World 1 0 [buffer_size; 5000] [7; 1007] true false in
  (exists r w', disk_read_speed_test example_nodes true (Some (lit "sdb")) 2 true w = Some (r, w') /\ r.1 = DISK_ERROR_INVALID_PARAMETER) /\
  post (disk_is_ready example_nodes (Some (lit "sdb"))) w (fun _ w' => w' = w) /\
  post (disk_read_speed_test example_nodes true (Some (lit "sdb")) 2 true) w
    (fun r w' => handles w' = handles w /\ blocks w' = blocks w /\ match r with (e, Some (n, ns)) => e = DISK_OK /\ n <= Z.min 2 1024 * 2 ^ 20 /\ 0 < ns | _ => True end).
Proof.
  split; [do 2 eexists; split; [vm_compute; reflexivity|reflexivity]|]. apply disk_closes; [repeat constructor|lia|].
  repeat constructor; unfold buffer_size; lia.
Defined.

(** ** Mounted partitions *)

(** A line of [/proc/mounts]: device, mount point, file system, and the rest. *)
Record mount := Mount { m_device : text; m_point : text; m_type : text; m_rest : text }.
Definition mount_line (m : mount) : text := m_device m ++ lit " " ++ m_point m ++ lit " " ++ m_type m ++ lit " " ++ m_rest m.
Definition mounts_file (l : list mount) : text := concat (map ended (map mount_line l)).
Definition fine_mount (m : mount) : Prop := fine_word 255 (m_device m) /\ fine_word 255 (m_point m) /\ fine_word 63 (m_type m) /\
  plain (m_rest m) /\ (length (mount_line m) + 1 < 1024)%nat.
Lemma stored_word t n : fine_word (n - 1) t -> (0 < n)%nat -> exists a, stored (Some (Txt t)) n = Some a /\ c_str a = Some t.
Proof.
  intros (_ & Hn & Hl) H0. cbn [stored]. destruct (store_spec t (uninit n) Hn) as (a & E & Es & _); [unfold uninit; rewrite length_replicate; lia|eauto].
Qed.
Lemma skip_word t s : word t -> skip is_space (lit " " ++ t ++ s) = t ++ s.
Proof. intros [Hne Hw]. destruct t as [|a t]; [easy|]. apply Forall_cons_iff in Hw as [Ha _]. cbn. apply negb_true_iff in Ha. now rewrite Ha. Qed.
Lemma scan_mount m : fine_mount m ->
  sscanf [Word None; Blank; Word None; Blank; Word None] (ended (mount_line m)) = [Txt (m_device m); Txt (m_point m); Txt (m_type m)].
Proof.
  intros ((H1 & _) & (H2 & _) & (H3 & _) & _). unfold ended, mount_line. rewrite <- !app_assoc.
  rewrite sscanf_Word by (try easy; intros a r [= <- _]; easy). rewrite blank_then, skip_word by easy.
  rewrite sscanf_Word by (try easy; intros a r [= <- _]; easy). rewrite blank_then, skip_word by easy.
  now rewrite sscanf_Word by (try easy; intros a r [= <- _]; easy).
Qed.
(** The first partition that is mounted there. *)
Definition mounted_at (p : text) (l : list mount) : option mount := List.find (fun m => text_eqb (m_point m) p) l.
Lemma find_mount_spec p l : Forall fine_mount l ->
  find_mount p (map ended (map mount_line l)) = Some (match mounted_at p l with Some m => Some (m_device m, m_type m) | None => None end).
Proof.
  induction 1 as [|m l Hm Hl IH]; [easy|]. cbn [map find_mount mounted_at List.find]. rewrite scan_mount by easy. cbn [lookup list_lookup].
  destruct Hm as (Hd & Hp & Ht & _).
  destruct (stored_word _ 256 Hd ltac:(lia)) as (a & -> & Ea). destruct (stored_word _ 256 Hp ltac:(lia)) as (b & -> & Eb).
  destruct (stored_word _ 64 Ht ltac:(lia)) as (c & -> & Ec). rewrite Eb. destruct (text_eqb (m_point m) p); [now rewrite Ea, Ec|exact IH].
Qed.
Lemma mount_line_plain m : fine_mount m -> plain (mount_line m).
Proof.
  intros ((H1 & N1 & _) & (H2 & N2 & _) & (H3 & N3 & _) & H4 & _). assert (Hb : plain (lit " ")) by (repeat constructor; easy).
  unfold mount_line. apply plain_app; [now apply plain_word|]. apply plain_app; [easy|]. apply plain_app; [now apply plain_word|]. apply plain_app; [easy|].
  apply plain_app; [now apply plain_word|]. now apply plain_app.
Qed.
(** Of the file systems that the kernel lists, the first at the mount point is found:
    its device and its type; the sizes are those the system gives; without one the
    device is empty and the type unknown, and the result is ok all the same. *)
Theorem disk_partition_found files mounted p l w (Hf : files (lit "/proc/mounts") = Some (mounts_file l)) (Hl : Forall fine_mount l) (Hp : no_nul p) :
  exists i, disk_get_partition_by_mount files mounted (Some p) true w = Some ((DISK_OK, Some i), w) /\
    c_str (p_device_name i) = Some (match mounted_at p l with Some m => m_device m | None => [] end) /\
    filesystem i = match mounted_at p l with Some m => disk_filesystem_type_from_string (Some (m_type m)) | None => FILESYSTEM_UNKNOWN end /\
    p_total_size i = match mounted p with Some v => wrap 64 (f_blocks v * f_frsize v) | None => 0 end /\
    p_read_only i = match mounted p with Some v => f_rdonly v | None => false end.
Proof.
  destruct (strncpy_field p DISK_MAX_PATH_LENGTH Hp ltac:(apply Nat.ltb_lt; vm_compute; reflexivity)) as (field & Ef & _ & _).
  assert (El : lines 1024 (mounts_file l) = map ended (map mount_line l)).
  { apply lines_file, Forall_map. revert Hl. apply Forall_impl. intros m Hm. split; [now apply mount_line_plain|apply Hm]. }
  unfold disk_get_partition_by_mount. unfold bind at 1, lift at 1. rewrite Ef.
  destruct (match mounted p with Some v => _ | None => _ end) as [[[total avail] used] ro] eqn:Ev. rewrite Hf, El.
  unfold bind at 1, opens, modify. unfold bind at 1, lift at 1. rewrite find_mount_spec by easy.
  assert (Et : total = match mounted p with Some v => wrap 64 (f_blocks v * f_frsize v) | None => 0 end /\ ro = match mounted p with Some v => f_rdonly v | None => false end)
    by (destruct (mounted p); injection Ev as <- <- <- <-; easy). destruct Et as [-> ->].
  destruct (mounted_at p l) as [m|] eqn:Em.
  - apply find_some in Em as [Hin _]. rewrite List.Forall_forall in Hl. destruct (Hl m Hin) as ((_ & Hn & Hlen) & _).
    destruct (strncpy_field (m_device m) DISK_MAX_DEVICE_NAME Hn (Nat.lt_0_succ 255)) as (d & Ed & Ec & _).
    unfold bind, lift. cbn [p_device_name]. rewrite Ed. cbn. eexists. split; [now destruct w|]. split; [|easy]. cbn. rewrite Ec, take_ge; [easy|exact Hlen].
  - eexists. split; [now destruct w|]. easy.
Qed.
Definition some_mounts : list mount := [Mount (lit "proc") (lit "/proc") (lit "proc") (lit "rw 0 0"); Mount (lit "/dev/sda2") (lit "/") (lit "ext4") (lit "rw,relatime 0 0")].
Lemma disk_partition_found_witness :
  let files p := if text_eqb p (lit "/proc/mounts") then Some (mounts_file some_mounts) else None in
  let mounted p := if text_eqb p (lit "/") then Some (Vfs 1000 4096 300 400 false) else None in let w := World 0 0 [] [] true false in
  exists i, disk_get_partition_by_mount files mounted (Some (lit "/")) true w = Some ((DISK_OK, Some i), w) /\
    c_str (p_device_name i) = Some (match mounted_at (lit "/") some_mounts with Some m => m_device m | None => [] end) /\
    filesystem i = match mounted_at (lit "/") some_mounts with Some m => disk_filesystem_type_from_string (Some (m_type m)) | None => FILESYSTEM_UNKNOWN end /\
    p_total_size i = match mounted (lit "/") with Some v => wrap 64 (f_blocks v * f_frsize v) | None => 0 end /\
    p_read_only i = match mounted (lit "/") with Some v => f_rdonly v | None => false end.
Proof.
  apply disk_partition_found; [reflexivity| |repeat constructor].
  repeat constructor; cbn; try lia; try discriminate.
Defined.

(** ** What is undefined, or lost *)

(** A line with fewer words is not passed over: the arrays are read before they are written. *)
Lemma short_line_undefined p ls : find_mount p (ended (lit "none") :: ls) = None.
Proof. reflexivity. Qed.
(** A mount point of 256 characters or more is stored past the end of its array. *)
Lemma long_mount_overflows p d m rest ls : word d -> no_nul d -> (length d < 256)%nat -> word m -> (256 <= length m)%nat ->
  find_mount p ((d ++ lit " " ++ m ++ lit " " ++ rest) :: ls) = None.
Proof.
  intros Hd Hn Hl Hm Hlm. cbn [find_mount].
  rewrite sscanf_Word by (try easy; intros a r [= <- _]; easy). rewrite blank_then, skip_word by easy.
  rewrite sscanf_Word by (try easy; intros a r [= <- _]; easy). cbn [lookup list_lookup].
  assert (Hw : fine_word 255 d) by (split; [easy|]; split; [easy|lia]). destruct (stored_word d 256 Hw ltac:(lia)) as (a & -> & _).
  cbn [stored]. rewrite store_overflows; [easy|unfold uninit; now rewrite length_replicate].
Qed.
(** A path of 255 characters or more has no end in its array. *)
Lemma long_path_undefined files nodes name w : starts (lit "/dev/") name = true -> (255 <= length name)%nat -> no_nul name ->
  disk_info files nodes (Some name) true w = None.
Proof.
  intros Hs Hl Hn. unfold disk_info, bind, lift. destruct (strncpy_field name DISK_MAX_DEVICE_NAME Hn (Nat.lt_0_succ 255)) as (field & -> & _).
  unfold path, bind, lift, full_path, strncpy. rewrite Hs, take_app_le by lia.
  assert (Ht : length (take 255 name) = 255%nat) by (rewrite length_take; lia).
  rewrite write_spec by (rewrite Ht; cbn; lia). rewrite Ht.
  assert (E : forall t a, no_nul t -> c_str (map Some t ++ None :: a) = None).
  { intros t a. induction 1 as [|x t Hx _ IH]; [easy|]. cbn. now rewrite Hx, IH. }
  unfold uninit. rewrite drop_replicate. change (replicate (256 - 255) (@None ascii)) with [@None ascii]. now rewrite E by now apply no_nul_take.
Qed.
(** Sectors of no bytes are divided by. *)
Lemma zero_sectors d total : ssz d = Some 0 -> sectors d total = None.
Proof. intros H. unfold sectors. now rewrite H. Qed.
(** An empty file of the system is not closed. *)
Lemma rotational_leaks : let files p := if text_eqb p (lit "/sys/block/sdb/queue/rotational") then Some [] else None in
  exists i, disk_info files example_nodes (Some (lit "/dev/sdb")) true (World 0 0 [] [] true false) = Some ((DISK_OK, i), World 1 0 [] [] true false).
Proof. eexists. vm_compute. reflexivity. Qed.
(** Disks that are counted are not enumerated. *)
Lemma counted_not_enumerated : is_disk (lit "vda") = true /\ is_disk (lit "mmcblk0") = true /\ is_disk (lit "sde") = true /\
  existsb (fun p => text_eqb (lit p) (lit "/dev/vda") || text_eqb (lit p) (lit "/dev/mmcblk0") || text_eqb (lit p) (lit "/dev/sde")) disk_patterns = false.
Proof. vm_compute. easy. Qed.
