(* ===== verification/Host.v ===== *)
(** * Memory and processors

    [hardware/ram.h] and [hardware/cpu.h] on Linux with the GNU library: the memory of
    the system and of the process, allocation and protection, sizes as text; the names
    of the processor, its cores, delays.  What the system answers is an argument; the
    files that are open, and the blocks that are allocated, are a state. *)

From Stdlib Require Import Ascii String ZArith Lia List Bool.
From Stdlib Require Import Floats.SpecFloat.
From stdpp Require Import base tactics list option gmap.
From S2P Require Import Prelude Doubles CText.

Open Scope hj_scope.
Open Scope Z_scope.

(** ** [ram.h] *)

Module Ram.
Export State.

Definition RAM_BYTES_PER_KB : Z := 1024.
Definition RAM_BYTES_PER_MB : Z := 1024 * 1024.
Definition RAM_BYTES_PER_GB : Z := 1024 * 1024 * 1024.
Inductive ram_err_t := RAM_SUCCESS | RAM_ERR_INVALID_PARAMETER | RAM_ERR_SYSTEM_ERROR | RAM_ERR_INSUFFICIENT_MEMORY | RAM_ERR_ALLOCATION_FAILED | RAM_ERR_PROTECTION_VIOLATION.
#[global] Instance ram_err_dec : EqDecision ram_err_t.
Proof. solve_decision. Defined.
Inductive ram_type_t := RAM_TYPE_UNKNOWN | RAM_TYPE_DDR | RAM_TYPE_DDR2 | RAM_TYPE_DDR3 | RAM_TYPE_DDR4 | RAM_TYPE_DDR5 | RAM_TYPE_SDRAM | RAM_TYPE_SRAM | RAM_TYPE_RDRAM.
(** Fields that stay zero are left out. *)
Record ram_module_info_t := Module_ { manufacturer : array; part_number : array; m_type : ram_type_t; capacity : Z; slot_number : Z }.
Record ram_system_info_t := SystemInfo { total_physical : Z; available_physical : Z; used_physical : Z; total_virtual : Z; available_virtual : Z; used_virtual : Z;
  total_swap : Z; available_swap : Z; used_swap : Z; page_size : Z; memory_load : double }.
Record ram_statistics_t := Statistics { peak_usage : Z; current_usage : Z }.

(** What [sysinfo] gives; a memory: the blocks and the mappings that are live, the files
    that are open. *)
Record sysinfo := Sysinfo { totalram : Z; freeram : Z; totalswap : Z; freeswap : Z; mem_unit : Z }.
Record world := World { live : gset Z; mapped : gmap Z Z; opened : nat }.
Abbreviation M := (State.M world).
Definition opens : M unit := modify (fun w => World (live w) (mapped w) (S (opened w))).
Definition closes : M unit := fun w => match opened w with O => None | S n => Some (tt, World (live w) (mapped w) n) end.

(** *** What the system says *)

(** [sscanf(line, "KEY: %lu kB", &value) == 1] *)
Definition scan_value (key : string) (l : text) : option Z :=
  match sscanf (chars key ++ [Char ":"%char; Blank; Lu; Blank; Char "k"%char; Char "B"%char]) l with [Num v] => Some v | _ => None end.
(** Two values are looked for in each line, the second when the first is not there. *)
Definition scan_two (key1 key2 : string) (v : Z * Z) (l : text) : Z * Z :=
  match scan_value key1 l with
  | Some x => (wrap 64 (x * 1024), v.2)
  | None => match scan_value key2 l with Some x => (v.1, wrap 64 (x * 1024)) | None => v end
  end.
Definition of_Z (z : Z) : double := binary_normalize 53 1024 z 0 false.
Definition load (used total : Z) : double := SFmul 53 1024 (SFdiv 53 1024 (of_Z used) (of_Z total)) (of_Z 100).

Section System.
Variables (files : text -> option text) (si : option sysinfo) (pagesize : Z).

Definition ram_get_system_info (info : bool) : M (ram_err_t * option ram_system_info_t) :=
  if negb info then ret (RAM_ERR_INVALID_PARAMETER, None) else
  match si with
  | None => ret (RAM_ERR_SYSTEM_ERROR, None)
  | Some si =>
      let total := wrap 64 (totalram si * mem_unit si) in
      let available := wrap 64 (freeram si * mem_unit si) in
      let used := wrap 64 (total - available) in
      let swap := wrap 64 (totalswap si * mem_unit si) in
      let free := wrap 64 (freeswap si * mem_unit si) in
      let ml := if 0 <? total then load used total else dzero in
      let page := if 0 <? pagesize then wrap 32 pagesize else 0 in
      match files (lit "/proc/meminfo") with
      | None => ret (RAM_ERR_SYSTEM_ERROR, Some (SystemInfo total available used 0 0 0 swap free (wrap 64 (swap - free)) page ml))
      | Some f =>
          do _ <- opens;
          let '(tv, uv) := fold_left (scan_two "VmallocTotal" "VmallocUsed") (lines 256 f) (0, 0) in
          do _ <- closes;
          ret (RAM_SUCCESS, Some (SystemInfo total available used tv (wrap 64 (tv - uv)) uv swap free (wrap 64 (swap - free)) page ml))
      end
  end.
(** The modules are one, of all the memory. *)
Definition ram_get_modules (modules : option (list ram_module_info_t)) (max_modules : nat) (actual_count : bool) : M (ram_err_t * option (list ram_module_info_t) * nat) :=
  match modules with
  | Some m =>
      if negb actual_count || (max_modules =? 0)%nat then ret (RAM_ERR_INVALID_PARAMETER, modules, O) else
      do (result, info) <- ram_get_system_info true;
      match result, info with
      | RAM_SUCCESS, Some info =>
          if (length m =? 0)%nat then undefined else
          do name <- lift (strncpy 63 (lit "Unknown") (zeroed 64));
          do part <- lift (strncpy 31 (lit "System RAM") (zeroed 32));
          ret (RAM_SUCCESS, Some (<[0%nat := Module_ name part RAM_TYPE_UNKNOWN (total_physical info) 1]> m), 1%nat)
      | r, _ => ret (r, modules, O)
      end
  | None => ret (RAM_ERR_INVALID_PARAMETER, None, O)
  end.
Definition ram_get_page_size (page_size : bool) : ram_err_t * option Z :=
  if negb page_size then (RAM_ERR_INVALID_PARAMETER, None) else
  if 0 <? pagesize then (RAM_SUCCESS, Some (wrap 32 pagesize)) else (RAM_ERR_SYSTEM_ERROR, None).
Definition ram_get_process_usage (stats : bool) : M (ram_err_t * option ram_statistics_t) :=
  if negb stats then ret (RAM_ERR_INVALID_PARAMETER, None) else
  match files (lit "/proc/self/status") with
  | None => ret (RAM_ERR_SYSTEM_ERROR, Some (Statistics 0 0))
  | Some f =>
      do _ <- opens;
      let '(rss, hwm) := fold_left (scan_two "VmRSS" "VmHWM") (lines 256 f) (0, 0) in
      do _ <- closes;
      ret (RAM_SUCCESS, Some (Statistics hwm rss))
  end.
End System.

(** *** Allocation and protection *)

Definition ram_init : ram_err_t := RAM_SUCCESS.
(** [posix_memalign]: the block it gives, or that there is no memory; the alignment must
    be a power of two and a multiple of the size of a pointer. *)
Definition ram_allocate_aligned (given : option Z) (size alignment : Z) (ptr : bool) : M (ram_err_t * option Z) :=
  if negb ptr || (size =? 0) || (alignment =? 0) || negb (Z.land alignment (alignment - 1) =? 0) then ret (RAM_ERR_INVALID_PARAMETER, None) else
  if negb (alignment mod 8 =? 0) then ret (RAM_ERR_INVALID_PARAMETER, None) else
  match given with
  | None => ret (RAM_ERR_INSUFFICIENT_MEMORY, None)
  | Some p => do _ <- modify (fun w => World ({[p]} ∪ live w) (mapped w) (opened w)); ret (RAM_SUCCESS, Some p)
  end.
Definition ram_free_aligned (ptr : option Z) : M ram_err_t :=
  match ptr with
  | None => ret RAM_ERR_INVALID_PARAMETER
  | Some p => fun w => if bool_decide (p ∈ live w) then Some (RAM_SUCCESS, World (live w ∖ {[p]}) (mapped w) (opened w)) else None
  end.
(** [mmap] and [munmap]; what was mapped may be unmapped once. *)
Definition ram_allocate_large_pages (given : option Z) (size : Z) (ptr : bool) : M (ram_err_t * option Z) :=
  if negb ptr || (size =? 0) then ret (RAM_ERR_INVALID_PARAMETER, None) else
  match given with
  | None => ret (RAM_ERR_ALLOCATION_FAILED, None)
  | Some p => do _ <- modify (fun w => World (live w) (<[p := size]> (mapped w)) (opened w)); ret (RAM_SUCCESS, Some p)
  end.
Definition ram_free_large_pages (fine : bool) (ptr : option Z) (size : Z) : M ram_err_t :=
  match ptr with
  | None => ret RAM_ERR_INVALID_PARAMETER
  | Some p => if size =? 0 then ret RAM_ERR_INVALID_PARAMETER else
      if negb fine then ret RAM_ERR_SYSTEM_ERROR else do _ <- modify (fun w => World (live w) (delete p (mapped w)) (opened w)); ret RAM_SUCCESS
  end.
(** The flags of [mprotect]. *)
Definition RAM_PROTECTION_READ : Z := 1.
Definition RAM_PROTECTION_WRITE : Z := 2.
Definition RAM_PROTECTION_EXECUTE : Z := 4.
Definition PROT_NONE : Z := 0.
Definition PROT_READ : Z := 1.
Definition PROT_WRITE : Z := 2.
Definition PROT_EXEC : Z := 4.
Definition flag (protection a b p : Z) : Z := if negb (Z.land protection a =? 0) then Z.lor p b else p.
Definition posix_protection (protection : Z) : Z :=
  flag protection RAM_PROTECTION_EXECUTE PROT_EXEC (flag protection RAM_PROTECTION_WRITE PROT_WRITE (flag protection RAM_PROTECTION_READ PROT_READ PROT_NONE)).
(** A call on a region, that the system makes or not. *)
Definition on_region (system : Z -> Z -> bool) (ptr : option Z) (size : Z) (e : ram_err_t) : ram_err_t :=
  match ptr with None => RAM_ERR_INVALID_PARAMETER | Some p => if size =? 0 then RAM_ERR_INVALID_PARAMETER else if system p size then RAM_SUCCESS else e end.
Definition ram_protect_memory (mprotect : Z -> Z -> Z -> bool) (ptr : option Z) (size protection : Z) : ram_err_t :=
  on_region (fun p n => mprotect p n (posix_protection protection)) ptr size RAM_ERR_PROTECTION_VIOLATION.
Definition ram_lock_memory (mlock : Z -> Z -> bool) (ptr : option Z) (size : Z) : ram_err_t := on_region mlock ptr size RAM_ERR_SYSTEM_ERROR.
Definition ram_unlock_memory (munlock : Z -> Z -> bool) (ptr : option Z) (size : Z) : ram_err_t := on_region munlock ptr size RAM_ERR_SYSTEM_ERROR.
Definition ram_prefetch_memory (madvise : Z -> Z -> bool) (ptr : option Z) (size : Z) : ram_err_t := on_region madvise ptr size RAM_ERR_SYSTEM_ERROR.
Definition ram_is_valid_address (ptr : option Z) (size : Z) (for_write is_valid : bool) : ram_err_t * option bool :=
  match ptr with
  | None => (RAM_ERR_INVALID_PARAMETER, None)
  | Some _ => if negb is_valid || (size =? 0) then (RAM_ERR_INVALID_PARAMETER, None) else (RAM_SUCCESS, Some (0 <? size))
  end.

(** *** Text *)

Definition ram_type_to_string (t : ram_type_t) : string :=
  match t with
  | RAM_TYPE_DDR => "DDR" | RAM_TYPE_DDR2 => "DDR2" | RAM_TYPE_DDR3 => "DDR3" | RAM_TYPE_DDR4 => "DDR4" | RAM_TYPE_DDR5 => "DDR5"
  | RAM_TYPE_SDRAM => "SDRAM" | RAM_TYPE_SRAM => "SRAM" | RAM_TYPE_RDRAM => "RDRAM" | RAM_TYPE_UNKNOWN => "Unknown"
  end%string.
(** The unit is chosen by the integer; the division by a power of two is exact. *)
Definition in_unit (bytes unit : Z) (name : string) : text := fixed2 (nearest (100 * to_double bytes) unit) ++ lit name.
Definition size_text (bytes : Z) : text :=
  if RAM_BYTES_PER_GB <=? bytes then in_unit bytes RAM_BYTES_PER_GB " GB" else
  if RAM_BYTES_PER_MB <=? bytes then in_unit bytes RAM_BYTES_PER_MB " MB" else
  if RAM_BYTES_PER_KB <=? bytes then in_unit bytes RAM_BYTES_PER_KB " KB" else dec bytes ++ lit " bytes".
Definition ram_format_size (bytes : Z) (buffer : option array) (buffer_size : nat) : option (ram_err_t * option array) :=
  match buffer with
  | None => Some (RAM_ERR_INVALID_PARAMETER, None)
  | Some b => if (buffer_size =? 0)%nat then Some (RAM_ERR_INVALID_PARAMETER, Some b) else
      let* b := snprintf buffer_size (size_text bytes) b in Some (RAM_SUCCESS, Some b)
  end.
End Ram.

(** ** [cpu.h] *)

Module Cpu.
Export State.

Inductive cpu_error_t := CPU_OK | CPU_ERR_INVALID_ARG | CPU_ERR_INTERNAL | CPU_ERR_OPEN_FILE_FAILED | CPU_ERR_READ_INFO_FAILED | CPU_ERR_SYSCONF_FAILED.
#[global] Instance cpu_error_dec : EqDecision cpu_error_t.
Proof. solve_decision. Defined.
(** The files that are open. *)
Abbreviation M := (State.M nat).
Definition opens : M unit := modify S.
Definition closes : M unit := fun n => match n with O => None | S n => Some (tt, n) end.

Definition is_blank (a : ascii) : bool := bool_decide (a = " "%char).
(** [buf[0] = 0] when there is room. *)
Definition empty (buf : array) (size : nat) : option array := if (0 <? size)%nat then set_char 0 NUL buf else Some buf.
(** The line without its end, when it has one. *)
Definition chomp (p : text) : text := match last p with Some a => if decide (a = LF) then take (length p - 1) p else p | None => p end.
(** What follows the colon, in the buffer; a buffer of size 0 has the length [-1]. *)
Definition copy_value (p : text) (buf : array) (size : nat) : option array :=
  let p := chomp (skip is_blank p) in
  if (length p <? size)%nat then write (p ++ [NUL]) buf
  else match size with O => None | S n => write (take n p ++ [NUL]) buf end.
(** The first line with the key and a colon. *)
Fixpoint find_value (key : string) (ls : list text) : option text :=
  match ls with
  | [] => None
  | l :: ls => if contains (lit key) l then match after ":"%char l with Some p => Some p | None => find_value key ls end else find_value key ls
  end.
Definition cpuinfo (key : string) (files : text -> option text) (buf : array) (size : nat) : M (cpu_error_t * array) :=
  match files (lit "/proc/cpuinfo") with
  | None => do b <- lift (empty buf size); ret (CPU_ERR_OPEN_FILE_FAILED, b)
  | Some f =>
      do _ <- opens;
      match find_value key (lines 256 f) with
      | Some p => do b <- lift (copy_value p buf size); do _ <- closes; ret (CPU_OK, b)
      | None => do _ <- closes; do b <- lift (empty buf size); ret (CPU_ERR_READ_INFO_FAILED, b)
      end
  end.
Definition cpu_brand := cpuinfo "model name".
Definition cpu_vendor := cpuinfo "vendor_id".

Definition cpu_core_num (online : Z) : Z := if 0 <? online then wrap 32 online else 1.
(** [CPU_SET] of a core that has no bit in the set does nothing. *)
Definition cpu_set (core : Z) : gset Z := if (0 <=? core) && (core <? 1024) then {[core]} else ∅.
Definition cpu_core_bind (setaffinity : gset Z -> bool) (core : Z) : cpu_error_t := if setaffinity (cpu_set core) then CPU_OK else CPU_ERR_INTERNAL.
(** [count] cores in the first cells, while there is room. *)
Fixpoint list_cores (fuel : nat) (i max_cpus len count : nat) (buf : list Z) : option (nat * list Z) :=
  match fuel with
  | O => Some (count, buf)
  | S fuel => if (i <? max_cpus)%nat && (count <? len)%nat then
      if (count <? length buf)%nat then list_cores fuel (S i) max_cpus len (S count) (<[count := Z.of_nat i]> buf) else None
      else Some (count, buf)
  end.
Definition cpu_core_list (online : Z) (buf : option (list Z)) (len : option nat) : option (cpu_error_t * option (list Z) * option nat) :=
  match buf, len with
  | Some b, Some n =>
      if online <=? 0 then Some (CPU_ERR_SYSCONF_FAILED, buf, Some O) else
      let max_cpus := Z.to_nat (wrap 32 online) in
      let* (count, b) := list_cores max_cpus 0 max_cpus n 0 b in Some (CPU_OK, Some b, Some count)
  | _, None => Some (CPU_ERR_INVALID_ARG, buf, None)
  | None, Some _ => Some (CPU_ERR_INVALID_ARG, buf, Some O)
  end.
Definition cpu_id (sched_getcpu : Z) : Z := if 0 <=? sched_getcpu then wrap 32 sched_getcpu else 0.
Definition cpu_tscp_read (lo hi cpu_id : Z) (aux : bool) : Z * option Z := (Z.lor (Z.shiftl hi 32) lo, if aux then Some cpu_id else None).

(** A time: seconds and nanoseconds. *)
Definition timespec : Type := Z * Z.
Definition NSEC : Z := 1000000000.
(** When the delay is over, in [uint64_t] arithmetic but for the seconds. *)
Definition target (start : timespec) (cycles : Z) : timespec :=
  let target_nanoseconds := wrap 64 (cycles * 1000) / 3000 in
  let target_nanoseconds := if target_nanoseconds =? 0 then 1 else target_nanoseconds in
  let target_ns := wrap 64 (start.2 + target_nanoseconds) in
  if NSEC <=? target_ns then (start.1 + target_ns / NSEC, target_ns mod NSEC) else (start.1, target_ns).
Definition before (t u : timespec) : bool := (t.1 <? u.1) || ((t.1 =? u.1) && (t.2 <? u.2)).
(** The loop reads the clock until it is not before the target: the reading, if there
    is one among the first [fuel]. *)
Fixpoint wait (fuel : nat) (clock : nat -> timespec) (i : nat) (t : timespec) : option nat :=
  match fuel with O => None | S fuel => if before (clock i) t then wait fuel clock (S i) t else Some i end.
(** The clock is read first for the start.  Without a clock it sleeps, or pauses. *)
Inductive delay := Nothing | Until (i : option nat) | Sleeps (us : Z) | Pauses (n : Z).
Definition cpu_delay (fuel : nat) (clock : option (nat -> timespec)) (cycles : Z) : delay :=
  if cycles =? 0 then Nothing else
  match clock with
  | Some c => Until (wait fuel c 1 (target (c 0%nat) cycles))
  | None => if 3000 <? cycles then Sleeps (wrap 32 (cycles / 3000)) else Pauses (cycles / 100)
  end.
End Cpu.
