(* ===== verification/HostThm.v ===== *)
(** * Memory and processors: theorems

    What the kernel's files say is what is reported; sizes as text; flags of protection;
    the name of the processor within its buffer; lists of cores; delays that wait long
    enough and end; and where the code does otherwise than it means to. *)

From Stdlib Require Import Ascii String ZArith Lia List Bool.
From stdpp Require Import base tactics list option gmap.
From S2P Require Import Prelude CText Host.

Open Scope hj_scope.
Open Scope Z_scope.

(** ** Files of names and values *)

(** A line: a name, a colon, and a number of kilobytes or something else. *)
Inductive body := Kilobytes (sep : text) (k : nat) (v : Z) | Else (t : text).
Record entry := Entry { e_name : text; e_body : body }.
Definition body_text (b : body) : text := match b with Kilobytes sep k v => sep ++ padded k (dec v) ++ lit " kB" | Else t => t end.
Definition entry_line (e : entry) : text := e_name e ++ ":"%char :: body_text (e_body e).
Definition entries_file (l : list entry) : text := concat (map ended (map entry_line l)).
Definition no_colon (t : text) : Prop := Forall (fun a => a <> ":"%char) t.
Definition fine_entry (keys : list string) (e : entry) : Prop :=
  no_colon (e_name e) /\ plain (entry_line e) /\ (length (entry_line e) + 1 < 256)%nat /\
  match e_body e with Kilobytes sep _ v => Forall (fun a => is_space a = true) sep /\ 0 <= v < 2 ^ 64 | Else _ => Forall (fun k => e_name e <> lit k) keys end.
(** What the last line of that name says, in bytes. *)
Definition reported (key : string) (l : list entry) (d : Z) : Z :=
  fold_left (fun d e => match e_body e with Kilobytes _ _ v => if text_eqb (e_name e) (lit key) then wrap 64 (v * 1024) else d | Else _ => d end) l d.

Lemma scan_other key name f s : no_colon key -> no_colon name -> name <> key -> sscanf (map Char key ++ Char ":"%char :: f) (name ++ ":"%char :: s) = [].
Proof.
  intros Hk. revert name. induction Hk as [|a key Ha Hk IH]; intros name Hn Hne.
  - destruct name as [|b name]; [easy|]. apply Forall_cons_iff in Hn as [Hb _]. cbn. now rewrite decide_False by congruence.
  - destruct name as [|b name]; cbn; [now rewrite decide_False|]. apply Forall_cons_iff in Hn as [Hb Hn].
    destruct (decide (a = b)) as [->|]; [|easy]. apply IH; [easy|congruence].
Qed.
Lemma scan_entry key e keys : no_colon (lit key) -> fine_entry keys e -> In key keys ->
  Ram.scan_value key (ended (entry_line e)) = match e_body e with Kilobytes _ _ v => if text_eqb (e_name e) (lit key) then Some v else None | Else _ => None end.
Proof.
  intros Hk (Hn & _ & _ & Hb) Hin. unfold Ram.scan_value, ended, entry_line, chars. rewrite <- app_assoc. cbn [app].
  unfold text_eqb. destruct (decide (e_name e = lit key)) as [E|E].
  - destruct (e_body e) as [sep k v|t]; [|rewrite List.Forall_forall in Hb; now apply Hb in Hin].
    rewrite bool_decide_eq_true_2 by easy. destruct Hb as [Hs Hv]. rewrite E, sscanf_chars. cbn [sscanf]. rewrite decide_True by easy.
    cbn [body_text]. rewrite <- !app_assoc.
    change (Lu :: [Blank; Char "k"%char; Char "B"%char]) with ([Lu; Blank; Char "k"%char; Char "B"%char]).
    assert (H : skip is_space (sep ++ padded k (dec v) ++ lit " kB" ++ [LF]) = dec v ++ lit " kB" ++ [LF]).
    { induction Hs as [|a sep Ha Hs IH]; cbn [app skip]; [|now rewrite Ha].
      apply skip_blanks; [easy|]. intros a r Er. pose proof (dec_digits v ltac:(lia)) as Hd. destruct (dec v) as [|b t] eqn:Ed; [now apply dec_not_nil in Ed|].
      injection Er as <- _. apply Forall_cons_iff in Hd as [Hd _]. now apply digit_not_space. }
    pose proof (sscanf_Lu v 0 (lit " kB" ++ [LF]) [Blank; Char "k"%char; Char "B"%char] Hv) as HL. cbn [padded replicate Nat.sub app] in HL.
    cbn [sscanf] in HL. unfold padded in HL. cbn in HL. rewrite H.
    assert (H2 : skip is_space (dec v ++ lit " kB" ++ [LF]) = dec v ++ lit " kB" ++ [LF]).
    { apply skip_none. intros a r Er. pose proof (dec_digits v ltac:(lia)) as Hd. destruct (dec v) as [|b t] eqn:Ed; [now apply dec_not_nil in Ed|].
      injection Er as <- _. apply Forall_cons_iff in Hd as [Hd _]. now apply digit_not_space. }
    rewrite H2, strtoul_dec by (easy || (intros a r [= <- _]; easy)). reflexivity.
  - rewrite scan_other by easy. destruct (e_body e); [now rewrite bool_decide_eq_false_2|easy].
Qed.
Lemma scan_entries key1 key2 l v : no_colon (lit key1) -> no_colon (lit key2) -> lit key1 <> lit key2 -> Forall (fine_entry [key1; key2]) l ->
  fold_left (Ram.scan_two key1 key2) (map ended (map entry_line l)) v = (reported key1 l v.1, reported key2 l v.2).
Proof.
  intros H1 H2 Hne H. revert v. induction H as [|e l He _ IH]; intros [v1 v2]; [easy|]. cbn [map fold_left]. rewrite IH.
  unfold reported. cbn [fold_left fst snd]. unfold Ram.scan_two.
  rewrite (scan_entry key1 e _ H1 He), (scan_entry key2 e _ H2 He) by (cbn; auto).
  destruct (e_body e) as [sep k v|t]; [|easy]. unfold text_eqb. destruct (decide (e_name e = lit key1)) as [E|E].
  - rewrite bool_decide_eq_true_2 by easy. rewrite bool_decide_eq_false_2 by congruence. easy.
  - rewrite (bool_decide_eq_false_2 (e_name e = lit key1)) by easy. now destruct (bool_decide _).
Qed.
Lemma lines_of_entries keys l : Forall (fine_entry keys) l -> lines 256 (entries_file l) = map ended (map entry_line l).
Proof. intros H. apply lines_file, Forall_map. refine (Forall_impl _ _ _ H _). now intros e (_ & H1 & H2 & _). Qed.
Lemma key_no_colon (s : string) : existsb (fun a => bool_decide (a = ":"%char)) (lit s) = false -> no_colon (lit s).
Proof.
  intros H. apply List.Forall_forall. intros a Ha ->. assert (existsb (fun a => bool_decide (a = ":"%char)) (lit s) = true); [|congruence].
  apply existsb_exists. exists ":"%char. split; [easy|now apply bool_decide_eq_true_2].
Qed.

(** ** Memory *)

Section Memory.
Import Ram.

(** The memory that is reported is what the system says: the physical memory and the
    swap in units, divided into what is available and what is used; the virtual memory as
    the last lines of the kernel's file say, whatever else the file holds; and the same
    for the memory of the process; the files are closed. *)
Theorem ram_reports files si pagesize mem status w
    (Hu : 0 <= freeram si <= totalram si) (Hs : 0 <= freeswap si <= totalswap si) (Hm : 0 <= mem_unit si)
    (Ht : totalram si * mem_unit si < 2 ^ 64) (Hw : totalswap si * mem_unit si < 2 ^ 64)
    (Hf : files (lit "/proc/meminfo") = Some (entries_file mem)) (Hl : Forall (fine_entry ["VmallocTotal"; "VmallocUsed"]%string) mem)
    (Hg : files (lit "/proc/self/status") = Some (entries_file status)) (Hk : Forall (fine_entry ["VmRSS"; "VmHWM"]%string) status) :
  (exists i, ram_get_system_info files (Some si) pagesize true w = Some ((RAM_SUCCESS, Some i), w) /\
    total_physical i = totalram si * mem_unit si /\ available_physical i = freeram si * mem_unit si /\ used_physical i + available_physical i = total_physical i /\
    total_swap i = totalswap si * mem_unit si /\ used_swap i + available_swap i = total_swap i /\
    total_virtual i = reported "VmallocTotal" mem 0 /\ used_virtual i = reported "VmallocUsed" mem 0) /\
  ram_get_process_usage files true w = Some ((RAM_SUCCESS, Some (Statistics (reported "VmHWM" status 0) (reported "VmRSS" status 0))), w).
Proof.
  split.
  - unfold ram_get_system_info. cbn [negb]. rewrite Hf, (lines_of_entries _ _ Hl).
    rewrite (scan_entries "VmallocTotal" "VmallocUsed" mem (0, 0)) by (easy || now apply key_no_colon).
    rewrite !(wrap_small 64 (_ * mem_unit si)) by (unfold uint; nia). rewrite !(wrap_small 64 (_ * _ - _)) by (unfold uint; nia).
    eexists. split; [now destruct w|]. cbn. repeat split; lia.
  - unfold ram_get_process_usage. cbn [negb]. rewrite Hg, (lines_of_entries _ _ Hk).
    rewrite (scan_entries "VmRSS" "VmHWM" status (0, 0)) by (easy || now apply key_no_colon). now destruct w.
Qed.

Definition meminfo : list entry := [Entry (lit "MemTotal") (Kilobytes (lit "       ") 8 16302124); Entry (lit "VmallocTotal") (Kilobytes (lit " ") 14 34359738367);
  Entry (lit "VmallocUsed") (Kilobytes (lit "  ") 12 70120); Entry (lit "HugePages_Total") (Else (lit "       0"))].
Definition self_status : list entry := [Entry (lit "Name") (Else (lit "	bash")); Entry (lit "VmHWM") (Kilobytes (lit "	") 8 5120); Entry (lit "VmRSS") (Kilobytes (lit "	") 8 4096)].
Lemma ram_reports_witness :
  let files p := if text_eqb p (lit "/proc/meminfo") then Some (entries_file meminfo) else if text_eqb p (lit "/proc/self/status") then Some (entries_file self_status) else None in
  let si := Sysinfo 4000000 1000000 500000 500000 4096 in let w := World ∅ ∅ 0 in
  (exists i, ram_get_system_info files (Some si) 4096 true w = Some ((RAM_SUCCESS, Some i), w) /\
    total_physical i = 4000000 * 4096 /\ available_physical i = 1000000 * 4096 /\ used_physical i + available_physical i = total_physical i /\
    total_swap i = 500000 * 4096 /\ used_swap i + available_swap i = total_swap i /\
    total_virtual i = reported "VmallocTotal" meminfo 0 /\ used_virtual i = reported "VmallocUsed" meminfo 0) /\
  ram_get_process_usage files true w = Some ((RAM_SUCCESS, Some (Statistics (reported "VmHWM" self_status 0) (reported "VmRSS" self_status 0))), w).
Proof.
  apply (ram_reports _ (Sysinfo 4000000 1000000 500000 500000 4096)); cbn [freeram totalram freeswap totalswap mem_unit]; try lia; try reflexivity.
  - repeat constructor; cbn; try lia; try discriminate.
  - repeat constructor; cbn; try lia; try discriminate.
Defined.
(** The flags of the library are those of the system. *)
Lemma protection_flags p : posix_protection p = Z.land p 7.
Proof.
  assert (H : posix_protection p = posix_protection (Z.land p 7)) by (unfold posix_protection, flag; rewrite <- !Z.land_assoc; reflexivity). rewrite H.
  assert (Hr : 0 <= Z.land p 7 < 8) by (change 7 with (Z.ones 3); rewrite Z.land_ones by lia; apply Z.mod_pos_bound; lia).
  assert (Hc : Z.land p 7 = 0 \/ Z.land p 7 = 1 \/ Z.land p 7 = 2 \/ Z.land p 7 = 3 \/ Z.land p 7 = 4 \/ Z.land p 7 = 5 \/ Z.land p 7 = 6 \/ Z.land p 7 = 7) by lia.
  now destruct Hc as [-> |[-> |[-> |[-> |[-> |[-> |[-> | ->]]]]]]].
Qed.
(** What is allocated can be freed, once. *)
Lemma allocate_then_free size alignment p w : 0 < size -> alignment <> 0 -> Z.land alignment (alignment - 1) = 0 -> alignment mod 8 = 0 -> p ∉ live w ->
  exists w', ram_allocate_aligned (Some p) size alignment true w = Some ((RAM_SUCCESS, Some p), w') /\ live w' = {[p]} ∪ live w /\
    ram_free_aligned (Some p) w' = Some (RAM_SUCCESS, w).
Proof.
  intros Hs Ha Hp Hm Hn. unfold ram_allocate_aligned. rewrite Hp, Hm. destruct (Z.eqb_spec size 0); [lia|]. destruct (Z.eqb_spec alignment 0); [lia|]. cbn.
  eexists. split; [reflexivity|]. split; [easy|]. unfold ram_free_aligned. rewrite bool_decide_eq_true_2 by (cbn; set_solver).
  destruct w as [l m o]. cbn. do 3 f_equal. set_solver.
Qed.
(** Alignments of 1, 2 and 4, which are powers of two, are refused. *)
Lemma small_alignments given size w : 0 < size -> forall a, a = 1 \/ a = 2 \/ a = 4 -> ram_allocate_aligned given size a true w = Some ((RAM_ERR_INVALID_PARAMETER, None), w).
Proof. intros Hs a [-> |[-> | ->]]; unfold ram_allocate_aligned; destruct (Z.eqb_spec size 0); try lia; reflexivity. Qed.
(** Every address is valid, mapped or not. *)
Lemma every_address_valid p size for_write : 0 < size -> ram_is_valid_address (Some p) size for_write true = (RAM_SUCCESS, Some true).
Proof. intros H. unfold ram_is_valid_address. destruct (Z.eqb_spec size 0); [lia|]. cbn. now decide_cmps. Qed.

(** A size as text: bytes, or hundredths of a unit. *)
Definition ram_reads_as (bytes : Z) (t : text) : Prop :=
  (bytes < 1024 /\ t = dec bytes ++ lit " bytes") \/
  exists m h unit name, In (unit, name) [(1024, " KB"); (1024 * 1024, " MB"); (1024 * 1024 * 1024, " GB")]%string /\
    unit <= bytes /\ (bytes < 1024 * unit \/ name = " GB"%string) /\ Z.abs (m - bytes) * 2 ^ 53 <= bytes /\ 2 * Z.abs (h * unit - 100 * m) <= unit /\ t = fixed2 h ++ lit name.
Lemma ram_text_reads bytes : 0 <= bytes -> ram_reads_as bytes (size_text bytes).
Proof.
  intros Hb. unfold size_text, in_unit, RAM_BYTES_PER_GB, RAM_BYTES_PER_MB, RAM_BYTES_PER_KB.
  assert (Hu : forall unit name, In (unit, name) [(1024, " KB"); (1024 * 1024, " MB"); (1024 * 1024 * 1024, " GB")]%string -> unit <= bytes -> (bytes < 1024 * unit \/ name = " GB"%string) -> 0 < unit ->
    ram_reads_as bytes (fixed2 (nearest (100 * to_double bytes) unit) ++ lit name)).
  { intros unit name Hi Hl Hh Hp. right. exists (to_double bytes), (nearest (100 * to_double bytes) unit), unit, name.
    split; [easy|]. split; [easy|]. split; [easy|]. split; [now apply to_double_error|]. split; [now apply nearest_error|easy]. }
  destruct (Z.leb_spec (1024 * 1024 * 1024) bytes); [apply Hu; [cbn; auto|lia|now right|lia]|].
  destruct (Z.leb_spec (1024 * 1024) bytes); [apply Hu; [cbn; auto|lia|left; lia|lia]|].
  destruct (Z.leb_spec 1024 bytes); [apply Hu; [cbn; auto|lia|left; lia|lia]|]. left. split; [lia|easy].
Qed.
Lemma ram_text_no_nul bytes : 0 <= bytes < 2 ^ 64 -> no_nul (size_text bytes).
Proof.
  intros Hb. pose proof (to_double_bound bytes Hb) as Hm. unfold size_text, in_unit, RAM_BYTES_PER_GB, RAM_BYTES_PER_MB, RAM_BYTES_PER_KB.
  repeat (destruct (_ <=? _); [apply Forall_app; split; [apply fixed2_no_nul, nearest_nonneg; lia|repeat constructor]|]).
  apply Forall_app. split; [apply dec_no_nul; lia|repeat constructor].
Qed.
(** Within the buffer; a text that does not fit is cut, and success reported. *)
Lemma ram_format_fits bytes buffer n : 0 <= bytes < 2 ^ 64 -> (0 < n <= length buffer)%nat ->
  exists b t, ram_format_size bytes (Some buffer) n = Some (RAM_SUCCESS, Some b) /\ length b = length buffer /\ ram_reads_as bytes t /\ c_str b = Some (take (n - 1) t).
Proof.
  intros Hb Hn. unfold ram_format_size. destruct (Nat.eqb_spec n 0) as [E|_]; [lia|].
  destruct (snprintf_spec n (size_text bytes) buffer (ram_text_no_nul bytes Hb) Hn) as (b & -> & Hs & Hl).
  do 2 eexists. split; [reflexivity|]. split; [exact Hl|]. split; [apply ram_text_reads; lia|exact Hs].
Qed.
Lemma format_cuts : exists b, ram_format_size (1536 * 1024) (Some (uninit 4)) 4 = Some (RAM_SUCCESS, Some b) /\ c_str b = Some (lit "1.5").
Proof. eexists. split; vm_compute; reflexivity. Qed.
End Memory.

(** ** Processors *)

Section Processors.
Import Cpu.

Lemma chomp_ended t : chomp (t ++ [LF]) = t.
Proof. unfold chomp. rewrite last_snoc, decide_True by easy. rewrite length_app. cbn. now rewrite Nat.add_sub, take_app_length. Qed.
(** A line of [/proc/cpuinfo]: the first that holds the key, in its name or its value. *)
Record info_line := InfoLine { i_name : text; i_value : text }.
Definition info_text (e : info_line) : text := i_name e ++ ":"%char :: lit " " ++ i_value e.
Definition cpuinfo_file (l : list info_line) : text := concat (map ended (map info_text l)).
Definition fine_info (e : info_line) : Prop := no_colon (i_name e) /\ plain (info_text e) /\ (length (info_text e) + 1 < 256)%nat /\ head (i_value e) <> Some " "%char /\ i_value e <> [].
Definition holds (key : string) (e : info_line) : bool := contains (lit key) (ended (info_text e)).
Lemma after_colon name s : no_colon name -> after ":"%char (name ++ ":"%char :: s) = Some s.
Proof. induction 1 as [|a name Ha _ IH]; cbn; [now rewrite decide_True|]. now rewrite decide_False by congruence. Qed.
Lemma find_value_spec key l : Forall fine_info l ->
  find_value key (map ended (map info_text l)) = match List.find (holds key) l with Some e => Some (lit " " ++ i_value e ++ [LF]) | None => None end.
Proof.
  induction 1 as [|e l He _ IH]; [easy|]. cbn [map find_value List.find]. fold (holds key e). destruct (holds key e); [|exact IH].
  unfold ended, info_text. rewrite <- app_assoc. cbn [app]. now rewrite after_colon by apply He.
Qed.
Lemma chomp_value v : head v <> Some " "%char -> v <> [] -> chomp (skip is_blank (lit " " ++ v ++ [LF])) = v.
Proof.
  intros Hh Hn. assert (E : skip is_blank (v ++ [LF]) = v ++ [LF]) by (apply skip_none; intros a r Ea; destruct v as [|b v]; [easy|]; injection Ea as <- _; apply bool_decide_eq_false_2; intros ->; now apply Hh).
  change (skip is_blank (lit " " ++ v ++ [LF])) with (skip is_blank (v ++ [LF])). now rewrite E, chomp_ended.
Qed.
Lemma copy_value_spec v buf size : head v <> Some " "%char -> v <> [] -> no_nul v -> (0 < size <= length buf)%nat ->
  exists b, copy_value (lit " " ++ v ++ [LF]) buf size = Some b /\ c_str b = Some (take (size - 1) v) /\ length b = length buf.
Proof.
  intros Hh Hne Hn Hs. unfold copy_value. rewrite chomp_value by easy. destruct size as [|size]; [lia|]. replace (S size - 1)%nat with size by lia.
  destruct (Nat.ltb_spec (length v) (S size)) as [Hl|Hl].
  - rewrite (take_ge v size) by lia. exact (store_spec v buf Hn ltac:(lia)).
  - exact (store_spec (take size v) buf (no_nul_take _ _ Hn) ltac:(rewrite length_take; lia)).
Qed.
(** The brand and the vendor of the processor are what the first line that holds their
    key says after the colon, cut to the buffer with its end; without such a line the
    buffer is empty and the error says so; the file is closed. *)
Theorem cpuinfo_reads key files l buf size w (Hf : files (lit "/proc/cpuinfo") = Some (cpuinfo_file l)) (Hl : Forall fine_info l)
    (Hs : (0 < size <= length buf)%nat) :
  exists e b, cpuinfo key files buf size w = Some ((e, b), w) /\ length b = length buf /\
    match List.find (holds key) l with
    | Some i => e = CPU_OK /\ c_str b = Some (take (size - 1) (i_value i))
    | None => e = CPU_ERR_READ_INFO_FAILED /\ c_str b = Some []
    end.
Proof.
  assert (El : lines 256 (cpuinfo_file l) = map ended (map info_text l)).
  { apply lines_file, Forall_map. refine (Forall_impl _ _ _ Hl _). now intros i (_ & H1 & H2 & _). }
  unfold cpuinfo. rewrite Hf, El, find_value_spec by easy. unfold bind, opens, modify, closes, lift.
  destruct (List.find (holds key) l) as [i|] eqn:Ei.
  - apply find_some in Ei as [Hin _]. rewrite List.Forall_forall in Hl. destruct (Hl i Hin) as (_ & Hp & _ & Hh & Hne).
    destruct (copy_value_spec (i_value i) buf size Hh Hne) as (b & E & Ec & Hb); [|lia|].
    { unfold info_text, plain in Hp. apply Forall_app in Hp as [_ Hp]. apply Forall_cons_iff in Hp as [_ Hp]. apply Forall_app in Hp as [_ Hp].
      refine (Forall_impl _ _ _ Hp _). now intros a [_ Ha]. }
    rewrite E. eexists _, b. split; [reflexivity|]. easy.
  - unfold empty. destruct (Nat.ltb_spec 0 size); [|lia]. unfold set_char. destruct (Nat.ltb_spec 0 (length buf)); [|lia].
    eexists _, _. split; [reflexivity|]. split; [apply length_insert|]. split; [easy|]. now destruct buf.
Qed.
Definition some_cpuinfo : list info_line := [InfoLine (lit "vendor_id	") (lit "GenuineIntel"); InfoLine (lit "model name	") (lit "Xeon(R) @ 2.00GHz")].
Lemma cpuinfo_reads_witness : let files p := if text_eqb p (lit "/proc/cpuinfo") then Some (cpuinfo_file some_cpuinfo) else None in
  (exists b, cpu_brand files (uninit 5) 5 0%nat = Some ((CPU_OK, b), 0%nat) /\ c_str b = Some (lit "Xeon")) /\
  exists e b, cpuinfo "vendor_id" files (uninit 20) 20 0%nat = Some ((e, b), 0%nat) /\ length b = 20%nat /\
    match List.find (holds "vendor_id") some_cpuinfo with
    | Some i => e = CPU_OK /\ c_str b = Some (take (20 - 1) (i_value i))
    | None => e = CPU_ERR_READ_INFO_FAILED /\ c_str b = Some []
    end.
Proof.
  split; [eexists; split; [vm_compute; reflexivity|reflexivity]|]. apply (cpuinfo_reads "vendor_id" _ some_cpuinfo (uninit 20)); [reflexivity| |cbn; lia].
  repeat constructor; cbn; try lia; try discriminate.
Defined.
(** A buffer of no size: its length less one is the largest number. *)
Lemma no_room key files l buf : files (lit "/proc/cpuinfo") = Some (cpuinfo_file l) -> Forall fine_info l -> (exists e, List.find (holds key) l = Some e) ->
  cpuinfo key files buf 0 0%nat = None.
Proof.
  intros Hf Hl [e He]. assert (El : lines 256 (cpuinfo_file l) = map ended (map info_text l)).
  { apply lines_file, Forall_map. refine (Forall_impl _ _ _ Hl _). now intros i (_ & H1 & H2 & _). }
  unfold cpuinfo. rewrite Hf, El, find_value_spec, He by easy. unfold bind, opens, modify, lift, copy_value. now destruct (chomp _).
Qed.

Lemma list_cores_spec fuel i mx len count buf : (fuel = mx - i)%nat -> (i <= mx)%nat -> (count <= len <= length buf)%nat -> count = i ->
  (forall j, (j < count)%nat -> buf !! j = Some (Z.of_nat j)) ->
  exists b, list_cores fuel i mx len count buf = Some (Nat.max count (Nat.min mx len), b) /\ length b = length buf /\
    (forall j, (j < Nat.max count (Nat.min mx len))%nat -> b !! j = Some (Z.of_nat j)).
Proof.
  revert i count buf. induction fuel as [|fuel IH]; intros i count buf Hf Hi Hc -> Hb; cbn [list_cores].
  - exists buf. replace (Nat.max i (Nat.min mx len)) with i by lia. easy.
  - destruct (Nat.ltb_spec i mx); [|lia]. destruct (Nat.ltb_spec i len) as [Hl|Hl]; cbn [andb].
    + destruct (Nat.ltb_spec i (length buf)); [|lia].
      destruct (IH (S i) (S i) (<[i := Z.of_nat i]> buf)) as (b & -> & Hlb & H1); try lia.
      * rewrite length_insert. lia.
      * intros j Hj. destruct (decide (j = i)) as [->|]; [apply list_lookup_insert_eq; lia|rewrite list_lookup_insert_ne by lia; apply Hb; lia].
      * replace (Nat.max i (Nat.min mx len)) with (Nat.max (S i) (Nat.min mx len)) by lia. rewrite length_insert in Hlb. eauto.
    + exists buf. replace (Nat.max i (Nat.min mx len)) with i by lia. easy.
Qed.
(** The cores are numbered from 0: as many as are online, or as there is room for. *)
Lemma cpu_core_list_lists online buf n : 0 < online < 2 ^ 32 -> (n <= length buf)%nat ->
  exists b, cpu_core_list online (Some buf) (Some n) = Some (CPU_OK, Some b, Some (Nat.min (Z.to_nat online) n)) /\ length b = length buf /\
    forall j, (j < Nat.min (Z.to_nat online) n)%nat -> b !! j = Some (Z.of_nat j).
Proof.
  intros Ho Hn. unfold cpu_core_list. decide_cmps. rewrite wrap_small by (unfold uint; lia).
  destruct (list_cores_spec (Z.to_nat online) 0 (Z.to_nat online) n 0 buf) as (b & -> & Hl & Hb); try lia.
  exists b. rewrite Nat.max_0_l in *. easy.
Qed.

(** *** Delays *)

Definition nanoseconds (t : timespec) : Z := t.1 * NSEC + t.2.
Definition proper (t : timespec) : Prop := 0 <= t.2 < NSEC.
Lemma before_spec t u : proper t -> proper u -> before t u = true <-> nanoseconds t < nanoseconds u.
Proof.
  unfold proper, nanoseconds, before, NSEC. intros Ht Hu. rewrite orb_true_iff, andb_true_iff, !Z.ltb_lt, Z.eqb_eq. split; intros H; [destruct H; nia|].
  destruct (Z.lt_trichotomy t.1 u.1) as [|[|]]; [now left|right; split; [easy|nia]|nia].
Qed.
Lemma target_spec start cycles : proper start -> 0 < cycles -> cycles * 1000 < 2 ^ 64 ->
  proper (target start cycles) /\ nanoseconds (target start cycles) = nanoseconds start + Z.max 1 (cycles / 3).
Proof.
  intros Hp Hc Hb. unfold target. rewrite (wrap_small 64 (cycles * 1000)) by (unfold uint; lia).
  replace (cycles * 1000 / 3000) with (cycles / 3) by (change 3000 with (3 * 1000); rewrite Z.div_mul_cancel_r by lia; easy).
  assert (H3 : 0 <= cycles / 3 <= cycles) by (split; [apply Z.div_pos; lia|apply Z.div_le_upper_bound; lia]).
  set (n := if cycles / 3 =? 0 then 1 else cycles / 3). assert (Hn : n = Z.max 1 (cycles / 3)) by (unfold n; destruct (Z.eqb_spec (cycles / 3) 0); lia).
  unfold proper, nanoseconds, NSEC in *. rewrite wrap_small by (unfold uint; lia).
  destruct (Z.leb_spec 1000000000 (start.2 + n)); cbn [fst snd].
  - pose proof (Z.div_mod (start.2 + n) 1000000000 ltac:(lia)). pose proof (Z.mod_pos_bound (start.2 + n) 1000000000 ltac:(lia)). lia.
  - lia.
Qed.
Lemma wait_reads clock t i k : (forall j, proper (clock j)) -> proper t -> (i <= k)%nat -> nanoseconds t <= nanoseconds (clock k) ->
  exists j, (i <= j <= k)%nat /\ nanoseconds t <= nanoseconds (clock j) /\ (forall m, (i <= m < j)%nat -> nanoseconds (clock m) < nanoseconds t) /\
    forall fuel, (k - i < fuel)%nat -> wait fuel clock i t = Some j.
Proof.
  intros Hc Ht Hi Hk. remember (k - i)%nat as d eqn:Ed. revert i Hi Ed. induction d as [|d IH]; intros i Hi Ed.
  - assert (i = k) as -> by lia. exists k. split; [lia|]. split; [easy|]. split; [lia|]. intros [|fuel] Hf; [lia|]. cbn.
    destruct (before (clock k) t) eqn:E; [apply before_spec in E; auto; lia|easy].
  - destruct (before (clock i) t) eqn:E.
    + destruct (IH (S i)) as (j & Hj & H1 & H2 & H3); [lia|lia|]. exists j. split; [lia|]. split; [easy|]. split.
      * intros m Hm. destruct (decide (m = i)) as [->|]; [now apply before_spec|apply H2; lia].
      * intros [|fuel] Hf; [lia|]. cbn. rewrite E. apply H3. lia.
    + exists i. split; [lia|]. split; [destruct (Z.le_gt_cases (nanoseconds t) (nanoseconds (clock i))); [easy|apply before_spec in H; auto; congruence]|].
      split; [lia|]. intros [|fuel] Hf; [lia|]. cbn. now rewrite E.
Qed.
(** With a clock that goes on, a delay ends, at the first reading that is a third of
    a nanosecond for each cycle, and at least one nanosecond, after the start. *)
Theorem cpu_delay_waits clock cycles (Hc : 0 < cycles) (Hb : cycles * 1000 < 2 ^ 64) (Hp : forall j, proper (clock j))
    (Hg : forall n, exists k, (0 < k)%nat /\ n <= nanoseconds (clock k)) :
  let over := nanoseconds (clock 0%nat) + Z.max 1 (cycles / 3) in
  exists j k, over <= nanoseconds (clock j) /\ (forall m, (0 < m < j)%nat -> nanoseconds (clock m) < over) /\
    forall fuel, (k < fuel)%nat -> cpu_delay fuel (Some clock) cycles = Until (Some j).
Proof.
  intros over. destruct (target_spec (clock 0%nat) cycles (Hp 0%nat) Hc Hb) as [Ht Et]. fold over in Et.
  destruct (Hg over) as (k & Hk & Hok). rewrite <- Et in Hok.
  destruct (wait_reads clock (target (clock 0%nat) cycles) 1 k Hp Ht ltac:(lia) Hok) as (j & _ & H1 & H2 & H3). rewrite Et in H1, H2.
  exists j, (k - 1)%nat. split; [easy|]. split; [intros m Hm; apply H2; lia|]. intros fuel Hf. unfold cpu_delay. decide_cmps. now rewrite H3.
Qed.
(** A clock that counts halves of a second. *)
Definition half_seconds (n : nat) : timespec := (Z.of_nat n / 2, Z.of_nat n mod 2 * 500000000).
Lemma cpu_delay_waits_witness :
  cpu_delay 10 (Some half_seconds) 4000000000 = Until (Some 3%nat) /\
  let over := nanoseconds (half_seconds 0) + Z.max 1 (4000000000 / 3) in
  exists j k, over <= nanoseconds (half_seconds j) /\ (forall m, (0 < m < j)%nat -> nanoseconds (half_seconds m) < over) /\
    forall fuel, (k < fuel)%nat -> cpu_delay fuel (Some half_seconds) 4000000000 = Until (Some j).
Proof.
  split; [vm_compute; reflexivity|]. apply cpu_delay_waits; [lia|lia| |].
  - intros j. unfold proper, half_seconds, NSEC. cbn [snd]. pose proof (Z.mod_pos_bound (Z.of_nat j) 2 ltac:(lia)). lia.
  - intros n. exists (S (2 * Z.to_nat n))%nat. split; [lia|]. unfold nanoseconds, half_seconds, NSEC. cbn [fst snd].
    pose proof (Z.mod_pos_bound (Z.of_nat (S (2 * Z.to_nat n))) 2 ltac:(lia)). pose proof (Z.div_mod (Z.of_nat (S (2 * Z.to_nat n))) 2 ltac:(lia)). lia.
Defined.
(** More cycles than that wrap around: the delay is short. *)
Lemma long_delay_wraps : target (0, 0) (2 ^ 64) = (0, 1).
Proof. vm_compute. reflexivity. Qed.
End Processors.
