(* ===== verification/Filepath.v ===== *)
(** * Files and directories

    [io/filepath.hpp]: listing, searching, creating, copying, removing and renaming.  A
    file system gives each path - the names of its parts, which the library reads from
    its text - a file or a directory; it has no links, and its calls fail only for what
    is there or is missing.  The order in which a directory is read is a parameter. *)

From Stdlib Require Import String ZArith Lia List Bool.
From stdpp Require Import base tactics list option gmap strings.
From S2P Require Import Prelude.

Open Scope hj_scope.
Open Scope nat_scope.

Module Filepath.

Abbreviation path := (list string).
Inductive entry := File (content : list Z) | Dir.
#[global] Instance entry_dec : EqDecision entry.
Proof. solve_decision. Defined.
Abbreviation fs := (gmap path entry).

Definition is_dir (w : fs) (p : path) : bool := match w !! p with Some Dir => true | _ => false end.
Definition is_exist (w : fs) (p : path) : bool := match w !! p with Some _ => true | None => false end.
Definition size (w : fs) (file : path) : Z :=
  if negb (is_exist w file) || is_dir w file then (-1)%Z else match w !! file with Some (File c) => Z.of_nat (length c) | _ => (-1)%Z end.
Definition parent (p : path) : path := removelast p.
Definition filename (p : path) : string := List.last p EmptyString.
(** What is directly below. *)
Definition child_of (p q : path) : option string :=
  match last q with Some n => if decide (q = p ++ [n]) then Some n else None | None => None end.
Definition names (w : fs) (p : path) : list string := omap (fun '(q, _) => child_of p q) (map_to_list w).

Section Library.
(** The order in which the names of a directory are read. *)
Variable order : list string -> list string.

(** [directory_iterator], which throws on what is no directory. *)
Definition directory_iterator (w : fs) (p : path) : option (list path) := if is_dir w p then Some (map (fun n => p ++ [n]) (order (names w p))) else None.
(** [recursive_directory_iterator]: each entry before what is below it. *)
Fixpoint below (fuel : nat) (w : fs) (p : path) : list path :=
  match fuel with
  | O => []
  | S fuel => match directory_iterator w p with Some l => concat (map (fun q => q :: below fuel w q) l) | None => [] end
  end.
(** Deeper than any path. *)
Definition depth (w : fs) : nat := S (foldr Nat.max 0 (map (fun e => length e.1) (map_to_list w))).
Definition recursive_directory_iterator (w : fs) (p : path) : option (list path) := if is_dir w p then Some (below (depth w) w p) else None.
Definition iterate (w : fs) (p : path) (recursive : bool) : list path :=
  match if recursive then recursive_directory_iterator w p else directory_iterator w p with Some l => l | None => [] end.

(** A visitor with a state, until it says no. *)
Fixpoint visit {St : Type} (fn : path -> St -> bool * St) (l : list path) (s : St) : St :=
  match l with [] => s | p :: l => let (go, s) := fn p s in if go then visit fn l s else s end.
Definition walk {St : Type} (w : fs) (p : path) (fn : path -> St -> bool * St) (recursive : bool) (s : St) : St := visit fn (iterate w p recursive) s.
Definition list_dir (w : fs) (p : path) : list path := iterate w p false.
(** Before the first that is not greater; at the end nothing is inserted. *)
Fixpoint insert_before (greater : path -> path -> bool) (item : path) (li : list path) : list path :=
  match li with [] => [] | q :: li => if greater q item then q :: insert_before greater item li else item :: q :: li end.
Definition list_sorted (w : fs) (p : path) (greater : path -> path -> bool) : list path :=
  fold_left (fun li item => match li with [] => [item] | _ => insert_before greater item li end) (iterate w p false) [].
Definition find_if (w : fs) (p : path) (matches : string -> bool) (recursive : bool) : list path := List.filter (fun q => matches (filename q)) (iterate w p recursive).
Definition find (w : fs) (p : path) (file : string) (recursive : bool) : list path :=
  if negb (is_exist w p) then [] else find_if w p (fun n => bool_decide (n = file)) recursive.
(** [regex_match] of a pattern, which throws when it is none. *)
Definition find_by_regex (regex : string -> option (string -> bool)) (w : fs) (p : path) (pattern : string) (recursive : bool) : list path :=
  match regex pattern with None => [] | Some re => find_if w p re recursive end.

(** [create_directory]: whether it was created; [None] when it throws. *)
Definition create_directory (p : path) (w : fs) : option (bool * fs) :=
  match w !! p with
  | Some Dir => Some (false, w)
  | Some (File _) => None
  | None => if is_dir w (parent p) then Some (true, <[p := Dir]> w) else None
  end.
(** The missing directories on the way, from the first. *)
Fixpoint create_missing (done todo : path) (w : fs) : option (bool * fs) :=
  match todo with
  | [] => Some (false, w)
  | n :: todo =>
      let p := done ++ [n] in
      let* (b, w) := create_directory p w in
      match todo with [] => Some (b, w) | _ => create_missing p todo w end
  end.
Definition create_directories (p : path) (w : fs) : option (bool * fs) := create_missing [] p w.
Definition make_dir (p : path) (recursive : bool) (w : fs) : bool * fs :=
  match if recursive then create_directories p w else create_directory p w with Some r => r | None => (false, w) end.
Definition make_file (p : path) (w : fs) : bool * fs :=
  if is_exist w p then (false, w) else if is_dir w (parent p) then (true, <[p := File []]> w) else (false, w).

(** [boost::filesystem::copy_file] does not replace what is there. *)
Definition copy_entry (from to : path) (w : fs) : option fs :=
  match w !! from, w !! to with
  | Some (File c), None => if is_dir w (parent to) then Some (<[to := File c]> w) else None
  | _, _ => None
  end.
Definition copy_file (from to : path) (w : fs) : bool * fs := match copy_entry from to w with Some w => (is_exist w to, w) | None => (false, w) end.
(** The result, and what was copied until then; [None] out of fuel.  The entries of a
    directory, one after the other, with the function that copies a directory. *)
Fixpoint copy_all (copy : path -> path -> fs -> option (bool * fs)) (to : path) (l : list path) (w : fs) : option (bool * fs) :=
  match l with
  | [] => Some (true, w)
  | p :: l =>
      let dest := to ++ [filename p] in
      if is_dir w p then let* (ok, w) := copy p dest w in if ok then copy_all copy to l w else Some (false, w)
      else match copy_entry p dest w with Some w => copy_all copy to l w | None => Some (false, w) end
  end.
Fixpoint copy_dir (fuel : nat) (from to : path) (w : fs) : option (bool * fs) :=
  match fuel with
  | O => None
  | S fuel =>
      if negb (is_exist w from) || negb (is_dir w from) then Some (false, w) else
      match if is_exist w to then Some w else let* (_, w) := create_directory to w in Some w with
      | None => Some (false, w)
      | Some w => match directory_iterator w from with None => Some (false, w) | Some l => copy_all (copy_dir fuel) to l w end
      end
  end.
(** [remove_all] and [remove]. *)
Definition under (p q : path) : bool := bool_decide (p `prefix_of` q).
Definition remove_all (p : path) (w : fs) : nat * fs :=
  (length (List.filter (fun e => under p e.1) (map_to_list w)), filter (fun e => under p e.1 = false) w).
Definition remove (p : path) (recursive : bool) (w : fs) : nat * fs :=
  if recursive then remove_all p w else
  match w !! p with
  | None => (0, w)
  | Some Dir => match names w p with [] => (1, delete p w) | _ => (0, w) end
  | Some (File _) => (1, delete p w)
  end.
(** [rename]: what is below comes along; a directory replaces only an empty directory and
    a file only a file; [None] when it throws. *)
Definition moved (from to q : path) : path := if under from q then to ++ drop (length from) q else q.
Definition move (from to : path) (w : fs) : fs :=
  list_to_map (map (fun e => (moved from to e.1, e.2)) (map_to_list (filter (fun e => under to e.1 = false \/ under from e.1 = true) w))).
Definition rename_entry (from to : path) (w : fs) : option fs :=
  if decide (from = to) then (if is_exist w from then Some w else None) else
  if under from to || negb (is_dir w (parent to)) then None else
  match w !! from, w !! to with
  | Some _, None | Some (File _), Some (File _) => Some (move from to w)
  | Some Dir, Some Dir => match names w to with [] => Some (move from to w) | _ => None end
  | _, _ => None
  end.
Definition rename (from to : path) (w : fs) : path * fs := match rename_entry from to w with Some w => (if is_exist w to then to else from, w) | None => (from, w) end.
End Library.
End Filepath.
