(* ===== verification/FilepathThm.v ===== *)
(** * Files and directories: theorems

    A directory that is copied is the same below its new name, and nothing else changes;
    a search finds what is below with that name, each once; what is removed is gone; and
    where the code does otherwise than it means to. *)

From Stdlib Require Import String ZArith Lia List Bool.
From stdpp Require Import base tactics list option gmap strings.
From S2P Require Import Prelude Filepath.

Open Scope hj_scope.
Open Scope nat_scope.
Import Filepath.

(** ** Names *)

Lemma child_of_spec p q n : child_of p q = Some n <-> q = p ++ [n].
Proof.
  unfold child_of. destruct (last q) as [m|] eqn:E.
  - destruct (decide (q = p ++ [m])) as [Hq|Hq]; split; intros H.
    + injection H as ->. exact Hq.
    + f_equal. rewrite H in Hq. now apply app_inj_tail in Hq as [_ ->].
    + discriminate.
    + rewrite H, last_snoc in E. injection E as ->. now destruct Hq.
  - split; intros H; [discriminate|]. now rewrite H, last_snoc in E.
Qed.
Lemma names_spec (w : fs) p n : n ∈ names w p <-> is_Some (w !! (p ++ [n])).
Proof.
  unfold names. rewrite list_elem_of_omap. split.
  - intros ([q e] & Hq & Hc). apply elem_of_map_to_list in Hq. apply child_of_spec in Hc as ->. eauto.
  - intros [e He]. exists (p ++ [n], e). split; [now apply elem_of_map_to_list|now apply child_of_spec].
Qed.
Lemma names_NoDup (w : fs) p : NoDup (names w p).
Proof.
  unfold names. assert (H : NoDup (map_to_list w).*1) by apply NoDup_fst_map_to_list. revert H.
  induction (map_to_list w) as [|[q e] l IH]; cbn; intros H; [constructor|]. apply NoDup_cons in H as [Hq H].
  destruct (child_of p q) as [n|] eqn:E; [|now apply IH]. constructor; [|now apply IH].
  intros Hn. apply list_elem_of_omap in Hn as ([q' e'] & Hin & Hc). apply child_of_spec in E as ->. apply child_of_spec in Hc as ->.
  apply Hq, list_elem_of_fmap. now exists (p ++ [n], e').
Qed.
Lemma filename_child p n : filename (p ++ [n]) = n.
Proof. unfold filename. apply List.last_last. Qed.
Lemma parent_child p n : parent (p ++ [n]) = p.
Proof. unfold parent. apply removelast_last. Qed.
Lemma is_dir_spec w p : is_dir w p = true <-> w !! p = Some Dir.
Proof. unfold is_dir. destruct (w !! p) as [[c|]|]; split; congruence. Qed.
Lemma is_exist_spec w p : is_exist w p = true <-> is_Some (w !! p).
Proof. unfold is_exist. destruct (w !! p) as [e|]; split; try easy; eauto. now intros [? ?]. Qed.

Section Order.
Context (order : list string -> list string) (Horder : forall l, order l ≡ₚ l).

Definition children (w : fs) (p : path) : list string := order (names w p).
Lemma children_spec w p n : n ∈ children w p <-> is_Some (w !! (p ++ [n])).
Proof. unfold children. rewrite Horder. apply names_spec. Qed.
Lemma children_NoDup w p : NoDup (children w p).
Proof. unfold children. rewrite Horder. apply names_NoDup. Qed.

(** ** Copying *)

(** Every entry below [p] is in a directory. *)
Definition closed (w : fs) (p : path) : Prop := forall rel n, is_Some (w !! (p ++ rel ++ [n])) -> w !! (p ++ rel) = Some Dir.
Lemma closed_child w p n : closed w p -> closed w (p ++ [n]).
Proof. intros H rel m. rewrite <- !app_assoc. exact (H ([n] ++ rel) m). Qed.
(** [w'] has at [to] what [w] has at [from], and otherwise what [w] has. *)
Definition copied (w : fs) (from to : path) (w' : fs) : Prop :=
  (forall rel, w' !! (to ++ rel) = w !! (from ++ rel)) /\ forall p, under to p = false -> w' !! p = w !! p.
Lemma under_spec p q : under p q = true <-> exists rel, q = p ++ rel.
Proof. unfold under. rewrite bool_decide_eq_true. reflexivity. Qed.
Lemma under_false p q : under p q = false <-> forall rel, q <> p ++ rel.
Proof.
  unfold under. rewrite bool_decide_eq_false. split; intros H; [intros rel ->; apply H; now exists rel|intros [rel ->]; now apply (H rel)].
Qed.
Lemma under_app p rel : under p (p ++ rel) = true.
Proof. apply under_spec. now exists rel. Qed.

(** Part of a directory is copied: the children [done]. *)
Definition part_copied (w : fs) (from to : path) (done : list string) (w' : fs) : Prop :=
  w' !! to = Some Dir /\ (forall n rel, w' !! (to ++ n :: rel) = if decide (n ∈ done) then w !! (from ++ n :: rel) else None) /\
  forall p, under to p = false -> w' !! p = w !! p.
Lemma apart from to rel : under from to = false -> under to from = false -> under to (from ++ rel) = false.
Proof.
  intros H1 H2. apply under_false. intros r E. rewrite under_false in H1, H2.
  apply app_eq_app in E as [l [[-> ->]|[-> ->]]]; [now apply (H2 l)|now apply (H1 l)].
Qed.
Lemma part_source w from to done w' rel : under from to = false -> under to from = false -> part_copied w from to done w' -> w' !! (from ++ rel) = w !! (from ++ rel).
Proof. intros H1 H2 (_ & _ & H). now apply H, apart. Qed.

Lemma closed_up w p n rel : closed w p -> is_Some (w !! (p ++ n :: rel)) -> is_Some (w !! (p ++ [n])) /\ (rel <> [] -> w !! (p ++ [n]) = Some Dir).
Proof.
  intros Hcl. induction rel as [|x rel IH] using rev_ind; intros Hs; [easy|].
  pose proof (Hcl (n :: rel) x Hs) as Hd. destruct (IH ltac:(rewrite Hd; eauto)) as [H1 H2]. split; [exact H1|]. intros _.
  destruct rel as [|y rel]; [exact Hd|now apply H2].
Qed.
Lemma under_snoc p q n m : under p q = false -> p <> q -> under (p ++ [n]) (q ++ [m]) = false.
Proof.
  intros H Hne. rewrite under_false in *. intros rel E. destruct rel as [|r rel _] using rev_ind.
  - rewrite app_nil_r in E. apply app_inj_tail in E as [E _]. congruence.
  - rewrite app_assoc in E. apply app_inj_tail in E as [E _]. apply (H ([n] ++ rel)). now rewrite E, <- app_assoc.
Qed.
Lemma under_cons to n m rel : n <> m -> under (to ++ [n]) (to ++ m :: rel) = false.
Proof. intros H. apply under_false. intros r E. rewrite <- app_assoc in E. apply app_inv_head in E. injection E as ->. now destruct H. Qed.
Lemma under_shorter p n q : under p q = false -> under (p ++ [n]) q = false.
Proof. rewrite !under_false. intros H rel ->. apply (H (n :: rel)). now rewrite <- app_assoc. Qed.
Lemma not_under_parent p n : under (p ++ [n]) p = false.
Proof. apply under_false. intros rel E. apply (f_equal length) in E. rewrite !length_app in E. cbn in E. lia. Qed.
Lemma insert_not_under {x : entry} (w : fs) to p : under to p = false -> <[to := x]> w !! p = w !! p.
Proof. intros H. apply lookup_insert_ne. intros <-. rewrite under_false in H. apply (H []). now rewrite app_nil_r. Qed.

(** One more child is there. *)
Lemma part_step w from to done wi wj n : part_copied w from to done wi ->
  (forall rel, wj !! (to ++ n :: rel) = w !! (from ++ n :: rel)) -> (forall p, under (to ++ [n]) p = false -> wj !! p = wi !! p) -> part_copied w from to (n :: done) wj.
Proof.
  intros (Htd & Hti & Hto) Ha Hb. split; [rewrite Hb; [exact Htd|apply not_under_parent]|split].
  - intros m rel. destruct (decide (m = n)) as [->|Hm]; [rewrite decide_True by (now left); apply Ha|].
    rewrite Hb by (now apply under_cons). rewrite Hti. apply (decide_ext (A := option entry)). rewrite elem_of_cons. tauto.
  - intros p Hu. rewrite Hb by (now apply under_shorter). now apply Hto.
Qed.
Lemma part_ext w from to done done' wi : (forall n, n ∈ done <-> n ∈ done') -> part_copied w from to done wi -> part_copied w from to done' wi.
Proof. intros Hd (A & B & C). split; [easy|]. split; [|easy]. intros n rel. rewrite B. apply (decide_ext (A := option entry)), Hd. Qed.

(** The entries of a directory, when what copies a directory does. *)
Lemma copy_all_copies copy w from to (Hcl : closed w from) (Hne : from <> to) (H1 : under from to = false) (H2 : under to from = false) :
  (forall n wi, w !! (from ++ [n]) = Some Dir -> (forall rel, wi !! ((from ++ [n]) ++ rel) = w !! ((from ++ [n]) ++ rel)) ->
     (forall rel, wi !! ((to ++ [n]) ++ rel) = None) -> wi !! to = Some Dir ->
     exists wj, copy (from ++ [n]) (to ++ [n]) wi = Some (true, wj) /\ copied wi (from ++ [n]) (to ++ [n]) wj) ->
  forall l done wi, part_copied w from to done wi -> NoDup l -> (forall n, n ∈ l -> is_Some (w !! (from ++ [n])) /\ n ∉ done) ->
  exists w', copy_all copy to (map (fun n => from ++ [n]) l) wi = Some (true, w') /\ part_copied w from to (l ++ done) w'.
Proof.
  intros Hcopy l. induction l as [|n l IHl]; intros done wi Hpc Hnd Hl; [now exists wi|].
  apply NoDup_cons in Hnd as [Hnl Hnd]. destruct (Hl n) as [[e He] Hnn]; [now left|]. cbn [map copy_all]. rewrite filename_child.
  assert (Hsrc : forall rel, wi !! (from ++ rel) = w !! (from ++ rel)) by (intros rel; now apply (part_source w from to done wi)).
  pose proof Hpc as (Htd & Hti & Hto).
  assert (Hnext : forall wj, part_copied w from to (n :: done) wj ->
    exists w', copy_all copy to (map (fun n => from ++ [n]) l) wj = Some (true, w') /\ part_copied w from to ((n :: l) ++ done) w').
  { intros wj Hj. destruct (IHl (n :: done) wj Hj Hnd) as (w' & E & Hw').
    - intros m Hm. destruct (Hl m) as [Hs Hd']; [now right|]. split; [easy|]. intros [->|]%elem_of_cons; easy.
    - exists w'. split; [exact E|]. revert Hw'. apply part_ext. intros m. rewrite !elem_of_app, !elem_of_cons. tauto. }
  unfold is_dir at 1. rewrite Hsrc, He. destruct e as [c|].
  - unfold copy_entry. rewrite Hsrc, He, Hti, decide_False by easy. rewrite parent_child, (proj2 (is_dir_spec wi to)) by easy.
    apply Hnext, (part_step _ _ _ _ wi); [easy| |intros p; apply insert_not_under].
    intros [|m rel]; [now rewrite lookup_insert_eq, He|].
    rewrite lookup_insert_ne by (intros E; apply app_inv_head in E; discriminate). rewrite Hti, decide_False by easy.
    destruct (w !! (from ++ n :: m :: rel)) as [x|] eqn:Ex; [|easy]. destruct (closed_up w from n (m :: rel) Hcl ltac:(rewrite Ex; eauto)) as [_ Hd].
    now rewrite Hd in He.
  - destruct (Hcopy n wi He) as (wj & -> & Hj1 & Hj2); [intros rel; rewrite <- app_assoc; apply Hsrc|intros rel; rewrite <- app_assoc; cbn; now rewrite Hti, decide_False|easy|].
    apply Hnext, (part_step _ _ _ _ wi); [easy| |exact Hj2]. intros rel. specialize (Hj1 rel). rewrite <- !app_assoc, Hsrc in Hj1. exact Hj1.
Qed.
Lemma part_start w from to : (forall rel, w !! (to ++ rel) = None) -> part_copied w from to [] (<[to := Dir]> w).
Proof.
  intros Ht. split; [apply lookup_insert_eq|]. split; [|intros p; apply insert_not_under].
  intros n rel. rewrite lookup_insert_ne; [apply Ht|]. intros E. apply (f_equal length) in E. rewrite length_app in E. cbn in E. lia.
Qed.
Lemma part_all w from to l w' : closed w from -> w !! from = Some Dir -> (forall n, n ∈ l <-> is_Some (w !! (from ++ [n]))) -> part_copied w from to l w' -> copied w from to w'.
Proof.
  intros Hcl Hf Hl (A & B & C). split; [|exact C]. intros [|n rel]; [now rewrite !app_nil_r, A, Hf|]. rewrite B. destruct (decide (n ∈ l)) as [Hn|Hn]; [easy|].
  destruct (w !! (from ++ n :: rel)) as [x|] eqn:Ex; [|easy]. destruct Hn. apply Hl. apply (closed_up w from n rel Hcl). rewrite Ex. eauto.
Qed.
Lemma copy_dir_copies fuel w from to :
  closed w from -> (forall rel, is_Some (w !! (from ++ rel)) -> length rel < fuel) ->
  w !! from = Some Dir -> (forall rel, w !! (to ++ rel) = None) -> w !! parent to = Some Dir -> under from to = false -> under to from = false ->
  exists w', copy_dir order fuel from to w = Some (true, w') /\ copied w from to w'.
Proof.
  revert w from to. induction fuel as [|fuel IH]; intros w from to Hcl Hd Hf Ht Hp H1 H2.
  { specialize (Hd []). rewrite app_nil_r in Hd. destruct (Nat.nlt_0_r 0). apply Hd. eauto. }
  cbn [copy_dir]. rewrite (proj2 (is_exist_spec w from)), (proj2 (is_dir_spec w from)) by eauto. cbn [negb orb].
  pose proof (Ht []) as Ht0. rewrite app_nil_r in Ht0. unfold is_exist at 1. rewrite Ht0.
  unfold create_directory. rewrite Ht0. rewrite (proj2 (is_dir_spec w (parent to))) by easy.
  assert (Hne : from <> to) by (intros ->; now rewrite Hf in Ht0).
  pose proof (part_start w from to Ht) as Hstart. set (w0 := <[to := Dir]> w) in *. clearbody w0.
  assert (Hsrc : forall rel, w0 !! (from ++ rel) = w !! (from ++ rel)) by (intros rel; now apply (part_source w from to [] w0)).
  assert (Hf0 : w0 !! from = Some Dir) by (rewrite <- (app_nil_r from), Hsrc, app_nil_r; exact Hf).
  unfold directory_iterator. rewrite (proj2 (is_dir_spec w0 from)) by easy. fold (children w0 from).
  assert (Hch : forall n, n ∈ children w0 from <-> is_Some (w !! (from ++ [n]))) by (intros n; rewrite children_spec; now rewrite Hsrc).
  destruct (copy_all_copies (copy_dir order fuel) w from to Hcl Hne H1 H2) with (l := children w0 from) (done := @nil string) (wi := w0) as (w' & E & Hw').
  - intros n wi He Hs Hn Htd. apply IH; auto.
    + intros rel m. rewrite !Hs. now apply closed_child.
    + intros rel. rewrite Hs, <- app_assoc. intros Hx. specialize (Hd ([n] ++ rel) Hx). cbn in Hd. lia.
    + rewrite <- (app_nil_r (from ++ [n])), Hs, app_nil_r. exact He.
    + now rewrite parent_child.
    + now apply under_snoc.
    + apply under_snoc; auto.
  - exact Hstart.
  - apply children_NoDup.
  - intros n Hn. split; [now apply Hch|apply not_elem_of_nil].
  - exists w'. split; [exact E|]. apply (part_all w from to (children w0 from)); auto. now rewrite app_nil_r in Hw'.
Qed.

Lemma depth_spec (w : fs) (p : path) : is_Some (w !! p) -> length p < depth w.
Proof.
  intros [e He]. apply elem_of_map_to_list in He. unfold depth. apply Nat.lt_succ_r. induction (map_to_list w) as [|x l IH]; [now apply not_elem_of_nil in He|].
  cbn. apply elem_of_cons in He as [<-|He]; [cbn; lia|specialize (IH He); lia].
Qed.
(** C33: a directory is copied to a new name in a directory, not below itself: what is
    below the new name is then what was below the old one, to any depth, and nothing
    else has changed. *)
Theorem copy_dir_correct w from to fuel (Hcl : closed w from) (Hf : w !! from = Some Dir) (Ht : forall rel, w !! (to ++ rel) = None)
    (Hp : w !! parent to = Some Dir) (H1 : under from to = false) (Hfuel : depth w <= fuel) :
  exists w', copy_dir order fuel from to w = Some (true, w') /\
    (forall rel, w' !! (to ++ rel) = w !! (from ++ rel)) /\ (forall p, under to p = false -> w' !! p = w !! p).
Proof.
  apply copy_dir_copies; auto.
  - intros rel Hs. apply depth_spec in Hs. rewrite length_app in Hs. lia.
  - apply under_false. intros rel E. rewrite E, Ht in Hf. discriminate.
Qed.

(** ** Searching *)

Lemma below_spec (fuel : nat) (w : fs) (p q : path) : closed w p -> (forall rel, is_Some (w !! (p ++ rel)) -> length rel <= fuel) ->
  (q ∈ below order fuel w p <-> exists rel, rel <> [] /\ q = p ++ rel /\ is_Some (w !! q) /\ w !! p = Some Dir).
Proof.
  revert p. induction fuel as [|fuel IH]; intros p Hcl Hd; cbn [below].
  - split; [intros H; now apply not_elem_of_nil in H|]. intros (rel & Hn & -> & Hs & _). specialize (Hd rel Hs). destruct rel; [easy|cbn in Hd; lia].
  - unfold directory_iterator. destruct (is_dir w p) eqn:Ed.
    + apply is_dir_spec in Ed. rewrite list_elem_of_In, in_concat. setoid_rewrite in_map_iff. setoid_rewrite in_map_iff.
      assert (Hsub : forall n, closed w (p ++ [n]) /\ forall rel, is_Some (w !! ((p ++ [n]) ++ rel)) -> length rel <= fuel).
      { intros n. split; [now apply closed_child|]. intros rel. rewrite <- app_assoc. intros Hs. specialize (Hd (n :: rel) Hs). cbn in Hd. lia. }
      split.
      * intros (l & (q' & <- & n & <- & Hn) & Hq). apply list_elem_of_In, children_spec in Hn. cbn in Hq. destruct Hq as [<-|Hq]; [exists [n]; split; [easy|]; now split|].
        apply list_elem_of_In, IH in Hq as (rel & _ & -> & Hs & _); try apply Hsub. exists (n :: rel). rewrite <- app_assoc in *. split; [easy|]. now split.
      * intros ([|n rel] & Hn & -> & Hs & _); [easy|]. exists ((p ++ [n]) :: below order fuel w (p ++ [n])).
        pose proof (closed_up w p n rel Hcl Hs) as [Hs1 Hs2]. split; [exists (p ++ [n]); split; [easy|]; exists n; split; [easy|]; now apply list_elem_of_In, children_spec|].
        cbn. destruct rel as [|m rel]; [now left|]. right. apply list_elem_of_In, IH; try apply Hsub. exists (m :: rel). rewrite <- app_assoc. split; [easy|]. split; [easy|]. split; [exact Hs|]. now apply Hs2.
    + split; [intros H; now apply not_elem_of_nil in H|]. intros (rel & _ & _ & _ & H). apply is_dir_spec in H. congruence.
Qed.
Lemma below_NoDup (fuel : nat) (w : fs) (p : path) : NoDup (below order fuel w p).
Proof.
  revert p. induction fuel as [|fuel IH]; intros p; cbn [below]; [constructor|]. unfold directory_iterator. destruct (is_dir w p); [|constructor].
  assert (Hb : forall f x y, y ∈ below order f w x -> exists rel, rel <> [] /\ y = x ++ rel).
  { intros f. induction f as [|f IHf]; intros x y; cbn [below]; [intros H; now apply not_elem_of_nil in H|]. unfold directory_iterator.
    destruct (is_dir w x); [|intros H; now apply not_elem_of_nil in H]. rewrite list_elem_of_In, in_concat. setoid_rewrite in_map_iff. setoid_rewrite in_map_iff.
    intros (l & (q' & <- & n & <- & _) & Hq). cbn in Hq. destruct Hq as [<-|Hq]; [now exists [n]|].
    apply list_elem_of_In, IHf in Hq as (rel & _ & ->). exists (n :: rel). now rewrite <- app_assoc. }
  assert (Hnd := children_NoDup w p). fold (children w p). induction (children w p) as [|n l IHl]; cbn [map concat]; [constructor|].
  apply NoDup_cons in Hnd as [Hn Hnd]. apply NoDup_app. split; [|split; [|now apply IHl]].
  - constructor; [|apply IH]. intros H. apply Hb in H as (rel & Hr & E). rewrite <- (app_nil_r (p ++ [n])) in E at 1. apply app_inv_head in E. now subst.
  - intros q Hq Hin. assert (exists rel, q = p ++ n :: rel) as [rel ->].
    { apply elem_of_cons in Hq as [->|Hq]; [now exists []|]. apply Hb in Hq as (rel & _ & ->). exists rel. now rewrite <- app_assoc. }
    rewrite list_elem_of_In, in_concat in Hin. setoid_rewrite in_map_iff in Hin. setoid_rewrite in_map_iff in Hin.
    destruct Hin as (k & (q' & <- & m & <- & Hm) & Hk). apply Hn. assert (m = n) as <-; [|now apply list_elem_of_In].
    cbn in Hk. destruct Hk as [E|Hk]; [apply app_inv_head in E; now injection E|].
    apply list_elem_of_In, Hb in Hk as (r & _ & E). rewrite <- app_assoc in E. apply app_inv_head in E. now injection E as ->.
Qed.
(** A search finds, each once, the entries of that name directly below a directory,
    or at any depth below it; and nothing when there is no such directory. *)
Theorem find_correct w p file recursive (Hcl : closed w p) :
  NoDup (find order w p file recursive) /\
  forall q, q ∈ find order w p file recursive <->
    exists rel, rel <> [] /\ q = p ++ rel /\ (recursive = false -> length rel = 1) /\ filename q = file /\ is_Some (w !! q) /\ w !! p = Some Dir.
Proof.
  assert (Hi : NoDup (iterate order w p recursive) /\ forall q, q ∈ iterate order w p recursive <->
    exists rel, rel <> [] /\ q = p ++ rel /\ (recursive = false -> length rel = 1) /\ is_Some (w !! q) /\ w !! p = Some Dir).
  { unfold iterate. destruct recursive.
    - unfold recursive_directory_iterator. destruct (is_dir w p) eqn:Ed.
      + split; [apply below_NoDup|]. intros q. rewrite below_spec; auto.
        * split; intros (rel & H); exists rel; intuition congruence.
        * intros rel Hs. apply depth_spec in Hs. rewrite length_app in Hs. lia.
      + split; [constructor|]. intros q. split; [intros H; now apply not_elem_of_nil in H|]. intros (rel & _ & _ & _ & _ & H). apply is_dir_spec in H. congruence.
    - unfold directory_iterator. destruct (is_dir w p) eqn:Ed.
      + fold (children w p). split.
        * apply (NoDup_fmap_2 (fun n => p ++ [n])), children_NoDup. 
        * intros q. rewrite list_elem_of_fmap. setoid_rewrite children_spec. apply is_dir_spec in Ed. split.
          -- intros (n & -> & Hn). exists [n]. easy.
          -- intros (rel & Hr & -> & Hl & Hs & _). specialize (Hl eq_refl). destruct rel as [|n [|m rel]]; try easy. exists n. easy.
      + split; [constructor|]. intros q. split; [intros H; now apply not_elem_of_nil in H|]. intros (rel & _ & _ & _ & _ & H). apply is_dir_spec in H. congruence. }
  unfold find, find_if. destruct (is_exist w p) eqn:Ex; cbn [negb].
  - destruct Hi as [Hn Hi]. split; [now apply NoDup_ListNoDup, List.NoDup_filter, NoDup_ListNoDup|]. intros q. rewrite list_elem_of_In, filter_In, <- list_elem_of_In, Hi, bool_decide_eq_true.
    split; [intros [(rel & H) Hf]; exists rel; tauto|]. intros (rel & H). split; [exists rel|]; tauto.
  - split; [constructor|]. intros q. split; [intros H; now apply not_elem_of_nil in H|]. intros (rel & _ & _ & _ & _ & _ & H).
    assert (is_exist w p = true) by (apply is_exist_spec; eauto). congruence.
Qed.

(** ** Removing, and what goes wrong *)

(** Everything there and below is gone, and counted. *)
Lemma remove_all_spec (w : fs) (p : path) : forall q : path, (remove_all p w).2 !! q = if under p q then None else w !! q.
Proof.
  intros q. unfold remove_all. cbn [snd]. destruct (under p q) eqn:E.
  - apply map_lookup_filter_None. right. intros x _ H. cbn in H. congruence.
  - apply option_eq. intros e. rewrite map_lookup_filter_Some. cbn. tauto.
Qed.
(** An empty directory that is copied into itself is copied for ever. *)
Lemma copy_into_itself (fuel : nat) (w : fs) (from : path) (b : string) :
  w !! from = Some Dir -> (forall rel : path, rel <> [] -> w !! (from ++ rel) = None) -> copy_dir order fuel from (from ++ [b]) w = None.
Proof.
  revert w from. induction fuel as [|fuel IH]; intros w from Hf Hb; [easy|]. cbn [copy_dir].
  rewrite (proj2 (is_exist_spec w from)), (proj2 (is_dir_spec w from)) by eauto. cbn [negb orb].
  unfold is_exist, create_directory. rewrite Hb by easy. rewrite parent_child, (proj2 (is_dir_spec w from)) by easy.
  set (w0 := <[from ++ [b] := Dir]> w).
  assert (Hf0 : w0 !! from = Some Dir) by (unfold w0; rewrite insert_not_under; [easy|apply not_under_parent]).
  unfold directory_iterator. rewrite (proj2 (is_dir_spec w0 from)) by easy. fold (children w0 from).
  assert (Hc : children w0 from = [b]).
  { apply Permutation_singleton_r. apply NoDup_Permutation; [apply children_NoDup|apply NoDup_singleton|]. intros n. rewrite children_spec, list_elem_of_singleton.
    unfold w0. destruct (decide (n = b)) as [->|Hn]; [rewrite lookup_insert_eq; split; eauto|].
    rewrite lookup_insert_ne, Hb by (easy || (intros E; apply app_inv_head in E; congruence)). split; [now intros [? ?]|easy]. }
  rewrite Hc. cbn [map copy_all]. rewrite filename_child, (proj2 (is_dir_spec w0 (from ++ [b]))) by (unfold w0; apply lookup_insert_eq).
  rewrite IH; [easy|unfold w0; apply lookup_insert_eq|]. intros rel Hr. unfold w0. rewrite lookup_insert_ne.
  - rewrite <- app_assoc. now apply Hb.
  - intros E. rewrite <- (app_nil_r (from ++ [b])) in E at 1. apply app_inv_head in E. congruence.
Qed.
End Order.

(** The sorted list leaves out what belongs at its end. *)
Lemma insert_drops greater item li : Forall (fun q => greater q item = true) li -> insert_before greater item li = li.
Proof. induction 1 as [|q li Hq _ IH]; cbn; [easy|]. now rewrite Hq, IH. Qed.
Definition sample : fs := list_to_map [([], Dir); (["a"], Dir); (["a"; "x"], File [1]%Z); (["a"; "d"], Dir); (["a"; "d"; "x"], File [2]%Z); (["b"], Dir)]%string.
Lemma sorted_list_drops : list_sorted (fun l => l) sample ["a"%string] (fun _ _ => true) <> list_dir (fun l => l) sample ["a"%string] /\
  length (list_sorted (fun l => l) sample ["a"%string] (fun _ _ => true)) = 1 /\ length (list_dir (fun l => l) sample ["a"%string]) = 2.
Proof. split; [|split]; vm_compute; congruence. Qed.

(** *** The theorems on an example *)

Definition is_closed (w : fs) (p : path) : bool := forallb (fun e => negb (under p (parent e.1)) || negb (length p <? length e.1) || is_dir w (parent e.1)) (map_to_list w).
Lemma is_closed_spec (w : fs) (p : path) : is_closed w p = true -> closed w p.
Proof.
  intros H rel n [e He]. apply elem_of_map_to_list, list_elem_of_In in He. unfold is_closed in H. rewrite forallb_forall in H. specialize (H _ He). cbn [fst] in H.
  rewrite app_assoc, parent_child, under_app in H. cbn [negb orb] in H. apply orb_true_iff in H as [H|H]; [|now apply is_dir_spec].
  apply negb_true_iff, Nat.ltb_ge in H. rewrite !length_app in H. cbn in H. lia.
Qed.
Lemma nothing_below (w : fs) (p : path) : forallb (fun e => negb (under p e.1)) (map_to_list w) = true -> forall rel : path, w !! (p ++ rel) = None.
Proof.
  intros H rel. destruct (w !! (p ++ rel)) as [e|] eqn:E; [|easy]. apply elem_of_map_to_list, list_elem_of_In in E. rewrite forallb_forall in H. specialize (H _ E). cbn in H.
  now rewrite under_app in H.
Qed.
Lemma copy_dir_correct_witness :
  exists w', copy_dir (fun l => l) 4 ["a"] ["b"; "c"] sample = Some (true, w') /\
    (forall rel : path, w' !! (["b"; "c"] ++ rel) = sample !! (["a"] ++ rel)) /\ (forall p : path, under ["b"; "c"] p = false -> w' !! p = sample !! p).
Proof.
  apply copy_dir_correct; [easy|apply is_closed_spec; vm_compute; reflexivity|reflexivity|apply nothing_below; vm_compute; reflexivity|reflexivity|reflexivity|].
  vm_compute. lia.
Defined.
Lemma find_correct_witness :
  length (find (fun l => l) sample ["a"%string] "x" true) = 2 /\ NoDup (find (fun l => l) sample ["a"%string] "x" true) /\
  forall q, q ∈ find (fun l => l) sample ["a"%string] "x" true <->
    exists rel, rel <> [] /\ q = ["a"%string] ++ rel /\ (true = false -> length rel = 1) /\ filename q = "x"%string /\ is_Some (sample !! q) /\ sample !! ["a"%string] = Some Dir.
Proof. split; [vm_compute; reflexivity|]. apply find_correct; [easy|]. apply is_closed_spec. vm_compute. reflexivity. Defined.
