(* ===== verification/Env.v ===== *)
(** * The environment

    [os/env.h] on Linux: the time of compilation read from the texts of the compiler, and
    the limits and facts of the system.  What the system answers is an argument; the
    files that are open are a state.  Theorems: the time of compilation and the sizes of
    caches are read from what the compiler and the kernel write; every question closes
    what it opens; and where the code does otherwise than it means to. *)

From Stdlib Require Import Ascii String ZArith Lia List Bool.
From stdpp Require Import base tactics list option.
From S2P Require Import Prelude Ints CText.

Open Scope hj_scope.
Open Scope Z_scope.

Module Env.
Export State.

(** ** The time of compilation *)

Section Compiled.
(** [__DATE__] and [__TIME__]. *)
Variables (date time : text).
Definition at_ (t : text) (i : nat) : ascii := nth i t NUL.
Definition is_at (i : nat) (c : ascii) : bool := bool_decide (at_ date i = c).
Definition figure (t : text) (i : nat) : Z := code (at_ t i) - 48.
Definition COMPILE_YEAR : Z := figure date 7 * 1000 + figure date 8 * 100 + figure date 9 * 10 + figure date 10.
Definition COMPILE_MONTH : Z :=
  if is_at 0 "J" && is_at 1 "a" then 1 else
  if is_at 0 "F" then 2 else
  if is_at 0 "M" && is_at 2 "r" then 3 else
  if is_at 0 "A" && is_at 1 "p" then 4 else
  if is_at 0 "M" && is_at 2 "y" then 5 else
  if is_at 0 "J" && is_at 2 "n" then 6 else
  if is_at 0 "J" && is_at 2 "l" then 7 else
  if is_at 0 "A" && is_at 1 "u" then 8 else
  if is_at 0 "S" then 9 else
  if is_at 0 "O" then 10 else
  if is_at 0 "N" then 11 else 12.
Definition COMPILE_DAY : Z := (if is_at 4 " " then 0 else figure date 4) * 10 + figure date 5.
Definition two (i : nat) : Z := figure time i * 10 + figure time (S i).
Definition COMPILE_HOUR : Z := two 0.
Definition COMPILE_MINUTE : Z := two 3.
Definition COMPILE_SECOND : Z := two 6.
Definition COMPILE_TIME_LEN : nat := 20.
(** [%0nd] of a number that is not negative. *)
Definition zeros (n : nat) (t : text) : text := replicate (n - length t) "0"%char ++ t.
Definition COMPILE_TIME_FMT (y m d h i s : Z) : text :=
  zeros 4 (dec y) ++ lit "-" ++ zeros 2 (dec m) ++ lit "-" ++ zeros 2 (dec d) ++ lit " " ++ zeros 2 (dec h) ++ lit ":" ++ zeros 2 (dec i) ++ lit ":" ++ zeros 2 (dec s).
Definition _COMPILE_TIME : option array :=
  snprintf COMPILE_TIME_LEN (COMPILE_TIME_FMT COMPILE_YEAR COMPILE_MONTH COMPILE_DAY COMPILE_HOUR COMPILE_MINUTE COMPILE_SECOND) (zeroed COMPILE_TIME_LEN).
End Compiled.

(** ** The system *)

Inductive conf_t := CONF_AIO_MAX | CONF_ARG_MAX | CONF_BOOT_TIME | CONF_CLK_TCK | CONF_CPU_COUNT | CONF_CPU_CACHE_LINE_SIZE | CONF_CPU_FREQUENCY
  | CONF_CPU_L1_CACHE_SIZE | CONF_CPU_L2_CACHE_SIZE | CONF_CPU_L3_CACHE_SIZE | CONF_FILE_SIZE_MAX | CONF_NAME_MAX | CONF_GETGR_R_SIZE_MAX
  | CONF_GETPW_R_SIZE_MAX | CONF_GROUP_ID | CONF_HEAP_SIZE_MAX | CONF_HOST_NAME_MAX | CONF_LOGIN_NAME_MAX | CONF_MEMORY_TOTAL | CONF_MEMORY_PAGE_SIZE
  | CONF_MSG_QUEUE_SIZE_MAX | CONF_MSG_MAX | CONF_NETWORK_INTERFACES | CONF_NGROUPS_MAX | CONF_OPEN_MAX | CONF_PATH_MAX | CONF_PIPE_BUF
  | CONF_PROCESS_CHILD_MAX | CONF_SEM_NSEMS_MAX | CONF_SEM_VALUE_MAX | CONF_STACK_SIZE_MAX | CONF_SWAP_SIZE_TOTAL | CONF_SYMLOOP_MAX | CONF_THREADS_MAX
  | CONF_TIMEZONE_OFFSET | CONF_TTY_NAME_MAX | CONF_UPTIME_SECONDS | CONF_USER_ID | CONF_VIRTUAL_MEMORY_MAX.
(** What [sysinfo] says; a broken-down time, by the seconds that [mktime] makes of it. *)
Record sysinfo := Sysinfo { uptime : Z; totalram : Z; totalswap : Z; mem_unit : Z }.
(** The files that are open. *)
Abbreviation M := (State.M nat).
Definition opens : M unit := modify S.
Definition closes : M unit := fun n => match n with O => None | S n => Some (tt, n) end.

(** [%d]: blanks, a sign, digits. *)
Definition scan_d (s : text) : option (Z * text) :=
  let s := skip is_space s in
  let '(neg, s) := match s with a :: t => if decide (a = "-"%char) then (true, t) else if decide (a = "+"%char) then (false, t) else (false, s) | [] => (false, s) end in
  match span is_digit s with [] => None | d => Some (sint_of 32 (if (neg : bool) then - value d else value d), skip is_digit s) end.
(** [atoi], which is 0 without a number. *)
Definition atoi (s : text) : Z := match scan_d s with Some (n, _) => n | None => 0 end.
(** [int * int] that does not fit is undefined. *)
Definition int_mul (a b : Z) : option Z := let p := a * b in if (- 2 ^ 31 <=? p) && (p <? 2 ^ 31) then Some p else None.
(** "32K" and the end of its line: the character before the end is the unit. *)
Definition cache_size (l : text) : option Z :=
  let size := atoi l in
  let* i := nsub (length l) 2 in
  let* unit := l !! i in
  if decide (unit = "K"%char) then int_mul size 1024 else
  if decide (unit = "M"%char) then let* n := int_mul size 1024 in int_mul n 1024 else Some size.

Section System.
(** The files; [sysconf] and [pathconf] by the names of their constants, [sysinfo], the hard limits, the
    families of the addresses of the network interfaces, the user and the group; what
    [mktime] makes of the time of [gmtime]. *)
Variables (files : text -> option text) (sysconf pathconf : string -> Z) (si : option sysinfo) (rlimit : string -> option Z) (interfaces : option (list (option Z)))
  (uid gid sem_value_max now : Z) (gmtime : Z -> Z).
Definition AF_INET : Z := 2.

(** A number at the start of a file. *)
Definition file_number (p : string) : M Z :=
  match files (lit p) with
  | None => ret (-1)
  | Some f => do _ <- opens; do _ <- closes; ret (match scan_d f with Some (n, _) => n | None => -1 end)
  end.
Definition file_cache (p : string) : M Z :=
  match files (lit p) with
  | None => ret (-1)
  | Some f => do _ <- opens;
      match fgets 32 f with
      | Some (l, _) => do n <- lift (cache_size l); do _ <- closes; ret n
      | None => do _ <- closes; ret (-1)
      end
  end.
(** The whole part of the number after "cpu MHz :", which begins with a digit. *)
Fixpoint frequency (ls : list text) : Z :=
  match ls with
  | [] => -1
  | l :: ls =>
      match (if starts (lit "cpu MHz") l then sscanf (chars "cpu MHz" ++ [Blank; Char ":"%char; Blank; Lu]) l else []) with
      | [Num n] => n
      | _ => frequency ls
      end
  end.
Definition cpu_frequency : M Z :=
  match files (lit "/proc/cpuinfo") with
  | None => ret (-1)
  | Some f => do _ <- opens; let n := frequency (lines 256 f) in do _ <- closes; ret n
  end.
Definition semaphores : M Z :=
  match files (lit "/proc/sys/kernel/sem") with
  | None => ret (-1)
  | Some f => do _ <- opens; do _ <- closes; ret (
      match scan_d f with Some (semmsl, f) => match scan_d f with Some (_, f) => match scan_d f with Some (_, f) => match scan_d f with Some _ => semmsl | None => -1 end
      | None => -1 end | None => -1 end | None => -1 end)
  end.
Definition limit (name : string) : M Z := ret (match rlimit name with Some n => sint_of 64 n | None => -1 end).
Definition path_limit (name : string) (d : Z) : M Z := let v := pathconf name in ret (if 0 <? v then v else d).
(** [localtime] and [gmtime] fill the same structure: the second is in both. *)
Definition timezone : Z := let tm := gmtime now in (tm - tm) / 60.
Definition env_get (conf : conf_t) : M Z :=
  match conf with
  | CONF_AIO_MAX => ret (sysconf "_SC_AIO_MAX") | CONF_ARG_MAX => ret (sysconf "_SC_ARG_MAX")
  | CONF_BOOT_TIME => ret (match si with Some si => now - uptime si | None => -1 end)
  | CONF_CLK_TCK => ret (sysconf "_SC_CLK_TCK") | CONF_CPU_COUNT => ret (sysconf "_SC_NPROCESSORS_ONLN")
  | CONF_CPU_CACHE_LINE_SIZE => file_number "/sys/devices/system/cpu/cpu0/cache/index0/coherency_line_size"
  | CONF_CPU_FREQUENCY => cpu_frequency
  | CONF_CPU_L1_CACHE_SIZE => file_cache "/sys/devices/system/cpu/cpu0/cache/index0/size"
  | CONF_CPU_L2_CACHE_SIZE => file_cache "/sys/devices/system/cpu/cpu0/cache/index2/size"
  | CONF_CPU_L3_CACHE_SIZE => file_cache "/sys/devices/system/cpu/cpu0/cache/index3/size"
  | CONF_FILE_SIZE_MAX => limit "RLIMIT_FSIZE"
  | CONF_NAME_MAX => path_limit "_PC_NAME_MAX" 255 | CONF_GETGR_R_SIZE_MAX => ret (sysconf "_SC_GETGR_R_SIZE_MAX") | CONF_GETPW_R_SIZE_MAX => ret (sysconf "_SC_GETPW_R_SIZE_MAX")
  | CONF_GROUP_ID => ret gid
  | CONF_HEAP_SIZE_MAX => limit "RLIMIT_AS"
  | CONF_HOST_NAME_MAX => ret (sysconf "_SC_HOST_NAME_MAX") | CONF_LOGIN_NAME_MAX => ret (sysconf "_SC_LOGIN_NAME_MAX")
  | CONF_MEMORY_TOTAL => ret (match si with Some si => sint_of 64 (totalram si * mem_unit si) | None => -1 end)
  | CONF_MEMORY_PAGE_SIZE => ret (sysconf "_SC_PAGESIZE")
  | CONF_MSG_QUEUE_SIZE_MAX => file_number "/proc/sys/fs/mqueue/msg_max"
  | CONF_MSG_MAX => file_number "/proc/sys/fs/mqueue/msgsize_max"
  | CONF_NETWORK_INTERFACES => ret (match interfaces with Some l => Z.of_nat (length (List.filter (fun a => match a with Some f => f =? AF_INET | None => false end) l)) | None => -1 end)
  | CONF_NGROUPS_MAX => ret (sysconf "_SC_NGROUPS_MAX") | CONF_OPEN_MAX => ret (sysconf "_SC_OPEN_MAX")
  | CONF_PATH_MAX => path_limit "_PC_PATH_MAX" 4096 | CONF_PIPE_BUF => path_limit "_PC_PIPE_BUF" 4096 | CONF_PROCESS_CHILD_MAX => ret (sysconf "_SC_CHILD_MAX")
  | CONF_SEM_NSEMS_MAX => semaphores
  | CONF_SEM_VALUE_MAX => ret sem_value_max
  | CONF_STACK_SIZE_MAX => limit "RLIMIT_STACK"
  | CONF_SWAP_SIZE_TOTAL => ret (match si with Some si => sint_of 64 (totalswap si * mem_unit si) | None => -1 end)
  | CONF_SYMLOOP_MAX => ret (sysconf "_SC_SYMLOOP_MAX") | CONF_THREADS_MAX => ret (sysconf "_SC_THREAD_THREADS_MAX")
  | CONF_TIMEZONE_OFFSET => ret timezone
  | CONF_TTY_NAME_MAX => ret (sysconf "_SC_TTY_NAME_MAX")
  | CONF_UPTIME_SECONDS => ret (match si with Some si => uptime si | None => -1 end)
  | CONF_USER_ID => ret uid
  | CONF_VIRTUAL_MEMORY_MAX => limit "RLIMIT_AS"
  end.
End System.
End Env.

Open Scope hj_scope.
Open Scope Z_scope.
Import Env.

(** ** The time of compilation *)

(** [__DATE__] is the month, the day in a field of two, and the year; [__TIME__] the
    hour, the minute and the second, with zeros. *)
Definition months : list string := ["Jan"; "Feb"; "Mar"; "Apr"; "May"; "Jun"; "Jul"; "Aug"; "Sep"; "Oct"; "Nov"; "Dec"]%string.
Definition two_digits (n : Z) : text := [digit (n / 10); digit (n mod 10)].
Definition four_digits (n : Z) : text := two_digits (n / 100) ++ two_digits (n mod 100).
Definition date_text (y m d : Z) : text :=
  lit (nth (Z.to_nat (m - 1)) months EmptyString) ++ lit " " ++ (if d <? 10 then lit " " else [digit (d / 10)]) ++ [digit (d mod 10)] ++ lit " " ++ four_digits y.
Definition time_text (h i s : Z) : text := two_digits h ++ lit ":" ++ two_digits i ++ lit ":" ++ two_digits s.
Definition iso_text (y m d h i s : Z) : text :=
  four_digits y ++ lit "-" ++ two_digits m ++ lit "-" ++ two_digits d ++ lit " " ++ two_digits h ++ lit ":" ++ two_digits i ++ lit ":" ++ two_digits s.

Lemma in_range lo n (P : Z -> Prop) : Forall P (map (fun k => lo + Z.of_nat k) (seq 0 n)) -> forall z, lo <= z < lo + Z.of_nat n -> P z.
Proof.
  intros H z Hz. rewrite List.Forall_forall in H. apply H. apply in_map_iff. exists (Z.to_nat (z - lo)). split; [lia|]. apply in_seq. lia.
Qed.
Lemma month_read m y d : 1 <= m <= 12 -> COMPILE_MONTH (date_text y m d) = m.
Proof.
  intros Hm. assert (H : forall m, 1 <= m < 1 + Z.of_nat 12 -> COMPILE_MONTH (date_text y m d) = m); [|apply H; lia].
  apply in_range. cbn [seq map]. repeat constructor.
Qed.
Lemma month_length m : 1 <= m <= 12 -> exists a b c, lit (nth (Z.to_nat (m - 1)) months EmptyString) = [a; b; c].
Proof.
  intros Hm. assert (H : forall m, 1 <= m < 1 + Z.of_nat 12 -> exists a b c, lit (nth (Z.to_nat (m - 1)) months EmptyString) = [a; b; c]); [|apply H; lia].
  apply in_range. cbn [seq map]. repeat constructor; do 3 eexists; reflexivity.
Qed.
Lemma figure_digit n : 0 <= n < 10 -> code (digit n) - 48 = n.
Proof. intros H. rewrite code_digit by lia. lia. Qed.
Lemma digits_of n : 0 <= n < 100 -> 0 <= n / 10 < 10 /\ 0 <= n mod 10 < 10 /\ n / 10 * 10 + n mod 10 = n.
Proof. intros H. pose proof (Z.div_mod n 10 ltac:(lia)). pose proof (Z.mod_pos_bound n 10 ltac:(lia)). lia. Qed.
Lemma hundreds_of n : 1000 <= n < 10000 -> 0 <= n / 100 < 100 /\ 0 <= n mod 100 < 100 /\ n / 100 * 100 + n mod 100 = n.
Proof. intros H. pose proof (Z.div_mod n 100 ltac:(lia)). pose proof (Z.mod_pos_bound n 100 ltac:(lia)). lia. Qed.
Lemma date_read y m d : 1000 <= y < 10000 -> 1 <= m <= 12 -> 1 <= d <= 31 -> COMPILE_YEAR (date_text y m d) = y /\ COMPILE_DAY (date_text y m d) = d.
Proof.
  intros Hy Hm Hd. destruct (month_length m Hm) as (a & b & c & E). unfold date_text. rewrite E.
  destruct (hundreds_of y Hy) as (H1 & H2 & H3). destruct (digits_of _ H1) as (A1 & A2 & A3). destruct (digits_of _ H2) as (B1 & B2 & B3). destruct (digits_of d ltac:(lia)) as (D1 & D2 & D3).
  assert (Eq : forall x, COMPILE_YEAR ([a; b; c] ++ lit " " ++ [x] ++ [digit (d mod 10)] ++ lit " " ++ four_digits y) = y).
  { intros x. unfold COMPILE_YEAR, figure, at_, four_digits, two_digits. cbn [nth app lit list_ascii_of_string]. rewrite !figure_digit by easy. lia. }
  destruct (Z.ltb_spec d 10).
  - split; [apply Eq|]. unfold COMPILE_DAY, figure, is_at, at_. cbn [nth app lit list_ascii_of_string]. rewrite bool_decide_eq_true_2 by easy. rewrite figure_digit by easy. rewrite Z.mod_small by lia. lia.
  - split; [apply Eq|]. unfold COMPILE_DAY, is_at, figure, at_. cbn [nth app lit list_ascii_of_string]. 
    rewrite bool_decide_eq_false_2; [rewrite !figure_digit by easy; lia|]. intros Ea. pose proof (digit_is_digit (d / 10) D1) as Hg. rewrite Ea in Hg. discriminate.
Qed.
Lemma two_read n s t : 0 <= n < 100 -> forall i, nth i s NUL = digit (n / 10) -> nth (S i) s NUL = digit (n mod 10) -> t = s -> two t i = n.
Proof. intros Hn i H1 H2 ->. destruct (digits_of n Hn) as (A & B & C). unfold two, figure, at_. rewrite H1, H2, !figure_digit by easy. lia. Qed.
Lemma zeros_two n : 0 <= n < 100 -> zeros 2 (dec n) = two_digits n.
Proof. intros Hn. revert n Hn. apply (in_range 0 100). cbn [seq map]. repeat constructor. Qed.
Lemma dec_fuel_irrelevant f g k : 0 <= k < 2 ^ Z.of_nat f -> 0 <= k < 2 ^ Z.of_nat g -> f <> O -> g <> O -> dec_fuel f k = dec_fuel g k.
Proof.
  revert g k. induction f as [|f IH]; intros g k Hf Hg Hf0 Hg0; [easy|]. destruct g as [|g]; [easy|]. cbn [dec_fuel]. destruct (Z.ltb_spec k 10); [easy|]. f_equal.
  rewrite Nat2Z.inj_succ, Z.pow_succ_r in Hf, Hg by lia.
  apply IH; try (split; [apply Z.div_pos; lia|apply Z.div_lt_upper_bound; lia]); intros ->; cbn in *; lia.
Qed.
Lemma dec_ten n : 10 <= n -> dec n = dec (n / 10) ++ [digit (n mod 10)].
Proof.
  intros Hn. unfold dec at 1. cbn [dec_fuel]. destruct (Z.ltb_spec n 10); [lia|]. f_equal. unfold dec. apply dec_fuel_irrelevant; try easy.
  - split; [apply Z.div_pos; lia|]. rewrite Z2Nat.id by apply Z.log2_nonneg. assert (Hs : n < 2 ^ Z.succ (Z.log2 n)) by (apply Z.log2_spec; lia).
    rewrite Z.pow_succ_r in Hs by apply Z.log2_nonneg. apply Z.div_lt_upper_bound; lia.
  - split; [apply Z.div_pos; lia|]. apply dec_bound, Z.div_pos; lia.
  - intros E. assert (0 < Z.log2 n) by (apply Z.log2_pos; lia). lia.
Qed.
Lemma zeros_four n : 1000 <= n < 10000 -> zeros 4 (dec n) = four_digits n.
Proof.
  intros Hn. assert (E : dec n = [digit (n / 10 / 10 / 10); digit (n / 10 / 10 mod 10); digit (n / 10 mod 10); digit (n mod 10)]).
  { pose proof (Z.div_le_lower_bound n 10 100 ltac:(lia) ltac:(lia)). pose proof (Z.div_lt_upper_bound n 10 1000 ltac:(lia) ltac:(lia)).
    pose proof (Z.div_le_lower_bound (n / 10) 10 10 ltac:(lia) ltac:(lia)). pose proof (Z.div_lt_upper_bound (n / 10) 10 100 ltac:(lia) ltac:(lia)).
    pose proof (Z.div_le_lower_bound (n / 10 / 10) 10 1 ltac:(lia) ltac:(lia)). pose proof (Z.div_lt_upper_bound (n / 10 / 10) 10 10 ltac:(lia) ltac:(lia)).
    rewrite dec_ten, dec_ten, dec_ten by lia. rewrite <- !app_assoc. cbn [app].
    assert (Ed : forall k, 1 <= k < 1 + Z.of_nat 9 -> dec k = [digit k]) by (apply in_range; cbn [seq map]; repeat constructor). rewrite Ed by lia. easy. }
  unfold zeros. rewrite E. cbn [length Nat.sub replicate app]. unfold four_digits, two_digits.
  replace (n / 100 / 10) with (n / 10 / 10 / 10) by (Z.to_euclidean_division_equations; lia). replace (n / 100 mod 10) with (n / 10 / 10 mod 10) by (Z.to_euclidean_division_equations; lia).
  replace (n mod 100 / 10) with (n / 10 mod 10) by (Z.to_euclidean_division_equations; lia). replace (n mod 100 mod 10) with (n mod 10) by (Z.to_euclidean_division_equations; lia). easy.
Qed.

Lemma time_read h i s : 0 <= h < 100 -> 0 <= i < 100 -> 0 <= s < 100 ->
  COMPILE_HOUR (time_text h i s) = h /\ COMPILE_MINUTE (time_text h i s) = i /\ COMPILE_SECOND (time_text h i s) = s.
Proof.
  intros Hh Hi Hs. split; [|split]; [apply (two_read h (time_text h i s))|apply (two_read i (time_text h i s))|apply (two_read s (time_text h i s))]; easy.
Qed.
(** The time of compilation is what the compiler writes: for every date and time, the
    year, the month, the day, the hour, the minute and the second are read from the texts
    of the compiler, also where the day has one digit, and the text that is made of them is
    the one of ISO 8601, whole and ended within its twenty characters. *)
Theorem env_compile_time y m d h i s : 1000 <= y < 10000 -> 1 <= m <= 12 -> 1 <= d <= 31 -> 0 <= h < 24 -> 0 <= i < 60 -> 0 <= s <= 60 ->
  let date := date_text y m d in let time := time_text h i s in
  (COMPILE_YEAR date, COMPILE_MONTH date, COMPILE_DAY date) = (y, m, d) /\
  (COMPILE_HOUR time, COMPILE_MINUTE time, COMPILE_SECOND time) = (h, i, s) /\
  (exists buf, _COMPILE_TIME date time = Some buf /\ c_str buf = Some (iso_text y m d h i s) /\ length buf = COMPILE_TIME_LEN).
Proof.
  intros Hy Hm Hd Hh Hi Hs date time. destruct (date_read y m d Hy Hm Hd) as [Ey Ed]. destruct (time_read h i s) as (Eh & Ei & Es); try lia.
  assert (Em := month_read m y d Hm). unfold _COMPILE_TIME. fold date in Ey, Em, Ed. fold time in Eh, Ei, Es. rewrite Ey, Em, Ed, Eh, Ei, Es. split; [easy|]. split; [easy|].
  assert (Ef : COMPILE_TIME_FMT y m d h i s = iso_text y m d h i s) by (unfold COMPILE_TIME_FMT, iso_text; rewrite zeros_four, !zeros_two by lia; easy).
  rewrite Ef. destruct (snprintf_spec COMPILE_TIME_LEN (iso_text y m d h i s) (zeroed COMPILE_TIME_LEN)) as (buf & E1 & E2 & E3); [|unfold COMPILE_TIME_LEN; cbn; lia|].
  { assert (Hn : forall k, 0 <= k < 10 -> is_nul (digit k) = false) by (intros k Hk; apply is_nul_digit; now apply digit_is_digit).
    unfold iso_text, four_digits, two_digits. repeat (apply Forall_app; split); repeat constructor; apply Hn; Z.to_euclidean_division_equations; lia. }
  exists buf. split; [easy|]. split; [|exact E3]. rewrite E2. easy.
Qed.
Lemma env_compile_time_witness : let date := date_text 2025 9 3 in let time := time_text 7 5 59 in
  date = lit "Sep  3 2025" /\ time = lit "07:05:59" /\
  ((COMPILE_YEAR date, COMPILE_MONTH date, COMPILE_DAY date) = (2025, 9, 3) /\
   (COMPILE_HOUR time, COMPILE_MINUTE time, COMPILE_SECOND time) = (7, 5, 59) /\
   (exists buf, _COMPILE_TIME date time = Some buf /\ c_str buf = Some (iso_text 2025 9 3 7 5 59) /\ length buf = COMPILE_TIME_LEN)).
Proof. split; [reflexivity|]. split; [reflexivity|]. apply (env_compile_time 2025 9 3 7 5 59); lia. Defined.

(** ** Files of the kernel *)

Lemma scan_d_dec n s : 0 <= n < 2 ^ 31 -> (forall a r, s = a :: r -> is_digit a = false) -> scan_d (dec n ++ s) = Some (n, s).
Proof.
  intros Hn Hs. pose proof (dec_digits n ltac:(lia)) as Hd. destruct (span_app is_digit (dec n) s Hd Hs) as [E1 E2].
  pose proof (dec_value n ltac:(lia)) as Hv. pose proof (dec_not_nil n) as Hz. unfold scan_d. rewrite skip_none.
  2: { intros a r E. destruct (dec n) as [|b t]; [easy|]. injection E as <- _. apply Forall_cons_iff in Hd as [Hb _]. now apply digit_not_space. }
  destruct (dec n) as [|a t]; [easy|]. apply Forall_cons_iff in Hd as [Ha _]. cbn [app].
  rewrite decide_False by (now apply (digit_not a "-"%char)). rewrite decide_False by (now apply (digit_not a "+"%char)).
  change (a :: t ++ s) with ((a :: t) ++ s). rewrite E1, E2, Hv. now rewrite sint_of_id by (easy || (unfold sint; cbn; lia)).
Qed.
Lemma digits_plain t : Forall (fun a => is_digit a = true) t -> plain t.
Proof. apply Forall_impl. intros a Ha. split; [intros ->; discriminate|now apply is_nul_digit]. Qed.
Lemma dec_short n : 0 <= n < 2 ^ 31 -> (length (dec n) <= 10)%nat.
Proof. intros Hn. apply dec_length. change (10 ^ Z.of_nat 10) with 10000000000. lia. Qed.
Lemma last_before (t : text) a b : nsub (length (t ++ [a; b])) 2 = Some (length t) /\ (t ++ [a; b] : text) !! length t = Some a.
Proof.
  rewrite length_app. cbn [length]. split; [|change ((t ++ [a; b]) !! length t = Some a); now rewrite lookup_app_r, Nat.sub_diag by lia].
  unfold nsub. destruct (Nat.leb_spec 2 (length t + 2)) as [_|]; [f_equal; lia|lia].
Qed.
Lemma cache_size_units n unit k : In (unit, k) [("K"%char, 1024); ("M"%char, 1024 * 1024)] -> 0 <= n -> n * k < 2 ^ 31 -> cache_size (dec n ++ [unit; LF]) = Some (n * k).
Proof.
  intros Hu Hn Hk. unfold cache_size, atoi. rewrite scan_d_dec; [|cbn in Hu; destruct Hu as [[= <- <-]|[[= <- <-]|[]]]; lia|].
  2: { intros a r [= <- _]. cbn in Hu. now destruct Hu as [[= <- _]|[[= <- _]|[]]]. }
  destruct (last_before (dec n) unit LF) as [-> E]. rewrite E.
  cbn in Hu. destruct Hu as [[= <- <-]|[[= <- <-]|[]]]; unfold int_mul; decide_cmps; cbn [andb].
  - now rewrite decide_True by easy.
  - rewrite decide_False by easy. rewrite decide_True by easy. decide_cmps. cbn [andb]. f_equal. lia.
Qed.
Lemma cache_size_plain n : 0 <= n < 2 ^ 31 -> cache_size (dec n ++ [LF]) = Some n.
Proof.
  intros Hn. unfold cache_size, atoi. rewrite scan_d_dec; [|easy|now intros a r [= <- _]].
  destruct (exists_last (dec_not_nil n)) as (t & x & E). pose proof (dec_digits n ltac:(lia)) as Hd. rewrite E in Hd |- *. apply Forall_app in Hd as [_ Hx]. apply Forall_cons_iff in Hx as [Hx _].
  rewrite <- app_assoc. cbn [app]. destruct (last_before t x LF) as [-> E2]. rewrite E2.
  rewrite decide_False by (intros ->; discriminate). now rewrite decide_False by (intros ->; discriminate).
Qed.
(** The texts of a size. *)
Definition units : list (text * Z) := [(lit "K", 1024); (lit "M", 1024 * 1024); ([], 1)].
(** The size of a cache is the one that the kernel writes, in kilobytes, in megabytes
    or without a unit, whatever follows in the file, and the file is closed. *)
Theorem env_cache_size files p n unit k rest w : In (unit, k) units -> 0 <= n -> n * k < 2 ^ 31 ->
  files (lit p) = Some ((dec n ++ unit) ++ LF :: rest) -> file_cache files p w = Some (n * k, w).
Proof.
  intros Hu Hn Hk Hf. unfold file_cache. rewrite Hf.
  assert (Hs : 0 <= n < 2 ^ 31) by (cbn in Hu; destruct Hu as [[= _ <-]|[[= _ <-]|[[= _ <-]|[]]]]; lia).
  pose proof (dec_short n Hs) as Hl. pose proof (digits_plain _ (dec_digits n Hn)) as Hd.
  assert (Hp : plain (dec n ++ unit) /\ (length (dec n ++ unit) + 1 < 32)%nat).
  { rewrite length_app. cbn in Hu. destruct Hu as [[= <- _]|[[= <- _]|[[= <- _]|[]]]]; (split; [apply Forall_app; split; [exact Hd|apply List.Forall_forall; intros a Ha; cbn in Ha; destruct Ha as [<-|[]] || destruct Ha; now split]|cbn [length]; lia]). }
  rewrite fgets_whole by apply Hp. rewrite <- app_assoc.
  assert (E : cache_size (dec n ++ unit ++ [LF]) = Some (n * k)); [|unfold bind, opens, closes, lift, modify, ret; rewrite E; reflexivity].
  cbn in Hu. destruct Hu as [[= <- <-]|[[= <- <-]|[[= <- <-]|[]]]].
  - apply (cache_size_units n "K"%char 1024); cbn; auto.
  - apply (cache_size_units n "M"%char (1024 * 1024)); cbn; auto.
  - cbn [app]. rewrite Z.mul_1_r. apply cache_size_plain. exact Hs.
Qed.
Lemma env_cache_size_witness :
  let files p := if text_eqb p (lit "/cache/size") then Some (lit "32K" ++ [LF]) else None in
  file_cache files "/cache/size" 0%nat = Some (32 * 1024, 0%nat).
Proof. apply (env_cache_size _ "/cache/size" 32 (lit "K") 1024 []); [now left|lia|lia|reflexivity]. Defined.

(** Every question that the system answers leaves as many files open as there were,
    whatever the system says; and every question is answered, but for the sizes of caches
    whose file has a line that is only the end of a line, or a size beyond an [int]. *)
Theorem env_get_answers files sysconf pathconf si rlimit interfaces uid gid sem_value_max now gmtime conf w :
  let get := env_get files sysconf pathconf si rlimit interfaces uid gid sem_value_max now gmtime in
  (forall v w', get conf w = Some (v, w') -> w' = w) /\
  ((forall p f l r, files p = Some f -> fgets 32 f = Some (l, r) -> is_Some (cache_size l)) -> exists v, get conf w = Some (v, w)).
Proof.
  assert (Hc : forall p, (forall v w', file_cache files p w = Some (v, w') -> w' = w) /\
     ((forall p f l r, files p = Some f -> fgets 32 f = Some (l, r) -> is_Some (cache_size l)) -> exists v, file_cache files p w = Some (v, w))).
  { intros p. unfold file_cache, bind, opens, closes, modify, lift, ret. destruct (files (lit p)) as [f|] eqn:E; [|split; [now intros ? ? [= <- <-]|now eexists]].
    destruct (fgets 32 f) as [[l r]|] eqn:El; [|split; [now intros ? ? [= <- <-]|now eexists]].
    split; [destruct (cache_size l); [now intros ? ? [= <- <-]|easy]|]. intros H. destruct (H _ _ _ _ E El) as [v ->]. now eexists. }
  assert (Hr : forall (m : M Z), (exists v, m w = Some (v, w)) -> (forall v w', m w = Some (v, w') -> w' = w) /\
     ((forall p f l r, files p = Some f -> fgets 32 f = Some (l, r) -> is_Some (cache_size l)) -> exists v, m w = Some (v, w))).
  { intros m [v E]. split; [intros v' w'; rewrite E; now intros [= _ <-]|intros _; now exists v]. }
  intros get. destruct conf; try apply Hc; apply Hr; cbn [get env_get];
    unfold file_number, cpu_frequency, semaphores, limit, path_limit, bind, opens, closes, modify, ret;
    repeat match goal with |- context [match files ?p with _ => _ end] => destruct (files p) end; now eexists.
Qed.
Lemma env_get_answers_witness :
  let files p := if text_eqb p (lit "/sys/devices/system/cpu/cpu0/cache/index0/size") then Some (lit "48K" ++ [LF]) else None in
  exists v, env_get files (fun _ => 1) (fun _ => 1) None (fun _ => None) None 0 0 1 0 (fun z => z) CONF_CPU_L1_CACHE_SIZE 0%nat = Some (v, 0%nat).
Proof.
  intros files. apply env_get_answers. intros p f l r Hf Hl. unfold files in Hf. destruct (text_eqb _ _); [|easy]. injection Hf as <-. injection Hl as <- _. vm_compute. now eexists.
Defined.

(** ** What the code does otherwise *)

(** The offset of the time zone is 0, everywhere. *)
Lemma timezone_zero now gmtime : timezone now gmtime = 0.
Proof. unfold timezone. now rewrite Z.sub_diag. Qed.
(** A line without a size: the character before the start of the array is read. *)
Lemma empty_line_undefined files p w : files (lit p) = Some [LF] -> file_cache files p w = None.
Proof. intros E. unfold file_cache. now rewrite E. Qed.
(** Two gigabytes of cache are beyond an [int], although the answer has 64 bits. *)
Lemma large_cache_overflows : cache_size (lit "2048M" ++ [LF]) = None.
Proof. reflexivity. Qed.
(** No limit, and the total of a memory beyond 2^63, are the answer that says that nothing is known. *)
Lemma unlimited_is_unknown rlimit name w : rlimit name = Some (2 ^ 64 - 1) -> limit rlimit name w = Some (-1, w).
Proof. intros E. unfold limit. now rewrite E. Qed.
