(* ===== verification/Board.v ===== *)
(** * Firmware and network interfaces

    [hardware/bios.h]: the files of the kernel (Linux), and the table of structures of the
    firmware, byte by byte (Windows).  [hardware/nic.h]: the Linux branches over what the
    system answers.  Theorems: strings of the table are found where they were written,
    whatever surrounds them; counters are read from what the kernel prints; interfaces are
    listed in order; and where the code does otherwise than it means to. *)

From Stdlib Require Import Ascii String ZArith Lia List Bool.
From stdpp Require Import base tactics list option.
From S2P Require Import Prelude CText.

Open Scope hj_scope.
Open Scope Z_scope.

Module Bios.
Export State.

Inductive bios_error_t := BIOS_OK | BIOS_FAILED | BIOS_ERROR_NULL_POINTER | BIOS_ERROR_BUFFER_TOO_SMALL | BIOS_ERROR_NOT_FOUND | BIOS_ERROR_SYSTEM_CALL_FAILED | BIOS_ERROR_PARSE_FAILED
  | BIOS_ERROR_NOT_SUPPORTED | BIOS_ERROR_MEMORY_ALLOCATION.
Definition SMBIOS_TYPE_BIOS : Z := 0.
Definition BIOS_ROM_SIZE_UNIT : Z := 64 * 1024.
(** What is written to the buffer of the caller, if anything. *)
Record bios_info_t := Info { vendor : text; version : text; release_date : text; serial_number : text; starting_segment : Z; rom_size : Z }.
Definition bios_safe_string_copy (dst_size : nat) (src : text) : bios_error_t * option text :=
  if (dst_size =? 0)%nat then (BIOS_ERROR_NULL_POINTER, None) else if (dst_size <=? length src)%nat then (BIOS_ERROR_BUFFER_TOO_SMALL, None) else (BIOS_OK, Some src).

(** The files that are open, the memory that is allocated. *)
Record world := World { open_files : nat; allocated : nat }.
Definition opens : M world unit := modify (fun w => World (S (open_files w)) (allocated w)).
Definition closes : M world unit := fun w => match open_files w with O => None | S n => Some (tt, World n (allocated w)) end.
Definition mallocs : M world unit := modify (fun w => World (open_files w) (S (allocated w))).
Definition frees : M world unit := fun w => match allocated w with O => None | S n => Some (tt, World (open_files w) n) end.

(** ** The files of the kernel *)

Section Linux.
Variable files : text -> option text.
(** Without the end of the line. *)
Definition chomp (l : text) : text := match rev l with a :: r => if decide (a = LF) then rev r else l | [] => l end.
Definition bios_sys_file_read (path : string) (buffer_size : nat) : M world (bios_error_t * option text) :=
  if (buffer_size =? 0)%nat then ret (BIOS_ERROR_NULL_POINTER, None) else
  match files (lit path) with
  | None => ret (BIOS_ERROR_NOT_FOUND, None)
  | Some f =>
      do _ <- opens;
      match fgets buffer_size f with
      | None => do _ <- closes; ret (BIOS_ERROR_SYSTEM_CALL_FAILED, None)
      | Some (l, _) => do _ <- closes; ret (BIOS_OK, Some (chomp l))
      end
  end.
Definition bios_vendor (size : nat) := bios_sys_file_read "/sys/class/dmi/id/bios_vendor" size.
Definition bios_version (size : nat) := bios_sys_file_read "/sys/class/dmi/id/bios_version" size.
Definition bios_release_date (size : nat) := bios_sys_file_read "/sys/class/dmi/id/bios_date" size.
Definition bios_serial_num (size : nat) := bios_sys_file_read "/sys/class/dmi/id/bios_serial" size.
Definition bios_starting_segment : bios_error_t := BIOS_ERROR_NOT_SUPPORTED.
Definition bios_rom_size : bios_error_t := BIOS_ERROR_NOT_SUPPORTED.
Definition found (t : option text) : text := default [] t.
(** The first error ends it; what was read before it stays. *)
Definition bios_info : M world (bios_error_t * bios_info_t) :=
  do v <- bios_vendor 128;
  match v with
  | (BIOS_OK, v) =>
      do x <- bios_version 64;
      match x with
      | (BIOS_OK, x) =>
          do d <- bios_release_date 32;
          match d with
          | (BIOS_OK, d) =>
              do s <- bios_serial_num 128;
              match s with (BIOS_OK, s) => ret (BIOS_OK, Info (found v) (found x) (found d) (found s) 0 0) | (e, s) => ret (e, Info (found v) (found x) (found d) (found s) 0 0) end
          | (e, d) => ret (e, Info (found v) (found x) (found d) [] 0 0)
          end
      | (e, x) => ret (e, Info (found v) (found x) [] [] 0 0)
      end
  | (e, v) => ret (e, Info (found v) [] [] [] 0 0)
  end.
End Linux.

(** ** The table of the firmware *)

(** Bytes; reading past the end is undefined. *)
Definition to_zero : list Z -> nat := fix go l := match l with [] => O | b :: l => if b =? 0 then O else S (go l) end.
Definition to_double_zero : list Z -> nat := fix go l := match l with a :: (b :: _) as l' => if (a =? 0) && (b =? 0) then O else S (go l') | _ => O end.
Section Smbios.
Variables (buf : list Z).
Definition byte_at (p : nat) : option Z := buf !! p.
Definition end_ : nat := length buf.
(** The loop passes a string at each turn. *)
Fixpoint pass_strings (n p : nat) : nat :=
  match n with
  | O => p
  | S n => if (p <? end_ - 1)%nat then let q := (p + to_zero (drop p buf))%nat in pass_strings n (if (q <? end_)%nat then S q else q) else p
  end.
Definition smbios_find_string (entry entry_length : nat) (string_index : Z) : option (option nat) :=
  if string_index =? 0 then Some None else
  let p := (entry + entry_length)%nat in
  if (end_ <=? p)%nat then Some None else
  let p := pass_strings (Z.to_nat string_index - 1) p in
  if (end_ <=? p)%nat then Some None else
  let* b := byte_at p in Some (if b =? 0 then None else Some p).
(** The characters up to a zero, that has to be there. *)
Definition string_at (p : nat) : option (list Z) := let n := to_zero (drop p buf) in if (p + n <? end_)%nat then Some (take n (drop p buf)) else None.
Definition next_entry (p len : nat) : nat := let n := (p + len)%nat in (n + to_double_zero (drop n buf) + 2)%nat.
(** The first structure of a type, at [p]; its length. *)
Fixpoint first_entry (fuel : nat) (type : Z) (p : nat) : option (option (nat * nat)) :=
  match fuel with
  | O => None
  | S fuel =>
      if (p + 4 <=? end_)%nat then
        let* t := byte_at p in let* len := byte_at (p + 1) in
        if len <? 4 then Some None else
        if t =? type then Some (Some (p, Z.to_nat len)) else first_entry fuel type (next_entry p (Z.to_nat len))
      else Some None
  end.
(** In [smbios_parse_entry], once the table is there. *)
Definition parse_entry (type : Z) (string_index_offset output_size : nat) : option (bios_error_t * option (list Z)) :=
  let* e := first_entry (S end_) type 8 in
  match e with
  | None => Some (BIOS_ERROR_NOT_FOUND, None)
  | Some (p, len) =>
      if (len <=? string_index_offset)%nat then Some (BIOS_ERROR_PARSE_FAILED, None) else
      let* string_index := byte_at (p + string_index_offset) in
      let* str := smbios_find_string p len string_index in
      match str with
      | None => Some (BIOS_ERROR_NOT_FOUND, None)
      | Some s => let* t := string_at s in Some (if (output_size <=? length t)%nat then (BIOS_ERROR_BUFFER_TOO_SMALL, None) else (BIOS_OK, Some t))
      end
  end.
End Smbios.

Section Windows.
(** The table; whether the second call answers as the first; whether there is memory. *)
Variables (table : option (list Z)) (same memory : bool).
Definition smbios_get_data : M world (bios_error_t * list Z) :=
  match table with
  | None | Some [] => ret (BIOS_ERROR_SYSTEM_CALL_FAILED, [])
  | Some buffer =>
      if negb memory then ret (BIOS_ERROR_MEMORY_ALLOCATION, []) else
      do _ <- mallocs;
      if negb same then do _ <- frees; ret (BIOS_ERROR_SYSTEM_CALL_FAILED, []) else ret (BIOS_OK, buffer)
  end.
Definition smbios_parse_entry (type : Z) (string_index_offset output_size : nat) : M world (bios_error_t * option (list Z)) :=
  if (output_size =? 0)%nat then ret (BIOS_ERROR_NULL_POINTER, None) else
  do d <- smbios_get_data;
  match d with (BIOS_OK, buffer) => lift (parse_entry buffer type string_index_offset output_size) | (e, _) => ret (e, None) end.
Definition smbios_vendor (size : nat) := smbios_parse_entry SMBIOS_TYPE_BIOS 4 size.
Definition smbios_version (size : nat) := smbios_parse_entry SMBIOS_TYPE_BIOS 5 size.
Definition smbios_release_date (size : nat) := smbios_parse_entry SMBIOS_TYPE_BIOS 8 size.
Definition smbios_serial_num (size : nat) := smbios_parse_entry SMBIOS_TYPE_BIOS 1 size.
(** A number of the structure of the firmware, if it is long enough. *)
Definition with_bios_entry (least : nat) (f : list Z -> nat -> option Z) : M world (bios_error_t * option Z) :=
  do d <- smbios_get_data;
  match d with
  | (BIOS_OK, buffer) =>
      if (length buffer <=? 8)%nat then ret (BIOS_ERROR_SYSTEM_CALL_FAILED, None) else
      do e <- lift (first_entry buffer (S (length buffer)) SMBIOS_TYPE_BIOS 8);
      match e with
      | Some (p, len) => if (least <=? len)%nat then do v <- lift (f buffer p); do _ <- frees; ret (BIOS_OK, Some v) else do _ <- frees; ret (BIOS_ERROR_NOT_FOUND, None)
      | None => do _ <- frees; ret (BIOS_ERROR_NOT_FOUND, None)
      end
  | _ => ret (BIOS_ERROR_SYSTEM_CALL_FAILED, None)
  end.
Definition smbios_starting_segment : M world (bios_error_t * option Z) :=
  with_bios_entry 8 (fun b p => let* lo := b !! (p + 6)%nat in let* hi := b !! (p + 7)%nat in Some (wrap 16 (Z.lor lo (Z.shiftl hi 8)))).
Definition smbios_rom_size : M world (bios_error_t * option Z) :=
  with_bios_entry 9 (fun b p => let* n := b !! (p + 8)%nat in Some (n * BIOS_ROM_SIZE_UNIT)).
End Windows.
End Bios.

Module Nic.
Export State.

Definition NIC_MAX_INTERFACES : nat := 32.
Definition NIC_MAX_NAME_LENGTH : nat := 256.
Inductive nic_error_t := NIC_SUCCESS | NIC_ERROR_INVALID_PARAMETER | NIC_ERROR_ACCESS_DENIED | NIC_ERROR_NOT_FOUND | NIC_ERROR_INSUFFICIENT_BUFFER | NIC_ERROR_SYSTEM_ERROR
  | NIC_ERROR_NOT_SUPPORTED | NIC_ERROR_TIMEOUT | NIC_ERROR_INVALID_STATE | NIC_ERROR_INSUFFICIENT_MEMORY.
Inductive nic_type_t := NIC_TYPE_UNKNOWN | NIC_TYPE_ETHERNET | NIC_TYPE_WIRELESS | NIC_TYPE_LOOPBACK | NIC_TYPE_PPP | NIC_TYPE_TUNNEL | NIC_TYPE_VIRTUAL.
Inductive nic_status_t := NIC_STATUS_UNKNOWN | NIC_STATUS_UP | NIC_STATUS_DOWN.

(** What [getifaddrs] lists: an address of an interface, of a family. *)
Inductive sockaddr := packet | inet (bytes : list Z) | inet6 (bytes : list Z) | other.
Record ifaddr := Ifaddr { ifa_name : text; ifa_flags : Z; ifa_addr : option sockaddr; ifa_netmask : option (list Z) }.
Definition IFF_UP : Z := 1.
(** An address: its bytes and its text. *)
Definition ip_t : Type := list Z * text.
Definition no_ip : ip_t := ([], []).
(** The members that are set; the others are 0. *)
Record nic_info_t := Info { name : text; type : nic_type_t; status : nic_status_t; index : Z; is_wireless : bool; ip_address : ip_t; subnet_mask : ip_t; ipv6_address : ip_t }.
Record nic_statistics_t := Statistics { bytes_sent : Z; bytes_received : Z; packets_sent : Z; packets_received : Z; errors_sent : Z; errors_received : Z; drops_sent : Z; drops_received : Z }.
Definition no_statistics : nic_statistics_t := Statistics 0 0 0 0 0 0 0 0.

Definition nic_init : nic_error_t := NIC_SUCCESS.

(** Lists and files that are not closed, and the commands that were run. *)
Record world := World { lists : nat; open_files : nat; commands : list text }.
Definition gets_list : M world unit := modify (fun w => World (S (lists w)) (open_files w) (commands w)).
Definition frees_list : M world unit := fun w => match lists w with O => None | S n => Some (tt, World n (open_files w) (commands w)) end.
Definition opens : M world unit := modify (fun w => World (lists w) (S (open_files w)) (commands w)).
Definition closes : M world unit := fun w => match open_files w with O => None | S n => Some (tt, World (lists w) n (commands w)) end.

Section System.
Variables (files : text -> option text) (ifaddrs : option (list ifaddr)) (if_nametoindex : text -> Z) (inet_ntop6 : list Z -> text) (succeeds : text -> bool).

Definition nic_get_interface_count : M world (nic_error_t * option Z) :=
  match ifaddrs with
  | None => ret (NIC_ERROR_SYSTEM_ERROR, None)
  | Some l => do _ <- gets_list; do _ <- frees_list;
      ret (NIC_SUCCESS, Some (wrap 32 (Z.of_nat (length (List.filter (fun a => match ifa_addr a with Some packet => true | _ => false end) l)))))
  end.

(** [inet_ntop] of four bytes. *)
Definition inet_ntop (b : list Z) : text :=
  match b with [] => [] | x :: l => dec x ++ concat (map (fun y => "."%char :: dec y) l) end.
Definition type_of (n : text) : nic_type_t :=
  if starts (lit "lo") n then NIC_TYPE_LOOPBACK else
  if starts (lit "eth") n || starts (lit "en") n then NIC_TYPE_ETHERNET else
  if starts (lit "wlan") n || starts (lit "wifi") n then NIC_TYPE_WIRELESS else NIC_TYPE_UNKNOWN.
Definition is_type_wireless (t : nic_type_t) : bool := match t with NIC_TYPE_WIRELESS => true | _ => false end.
Definition info_of (a : ifaddr) (addr : sockaddr) : nic_info_t :=
  let t := type_of (ifa_name a) in
  let st := if negb (Z.land (ifa_flags a) IFF_UP =? 0) then NIC_STATUS_UP else NIC_STATUS_DOWN in
  let ip := match addr with inet b => (b, inet_ntop b) | _ => no_ip end in
  let mask := match addr, ifa_netmask a with inet _, Some b => (b, inet_ntop b) | _, _ => no_ip end in
  let ip6 := match addr with inet6 b => (b, inet_ntop6 b) | _ => no_ip end in
  Info (take (NIC_MAX_NAME_LENGTH - 1) (ifa_name a)) t st (if_nametoindex (ifa_name a)) (is_type_wireless t) ip mask ip6.
Fixpoint enumerate_loop (l : list ifaddr) (max_interfaces count : nat) : list nic_info_t :=
  match l with
  | [] => []
  | a :: l =>
      if (count <? max_interfaces)%nat then
        match ifa_addr a with Some addr => info_of a addr :: enumerate_loop l max_interfaces (S count) | None => enumerate_loop l max_interfaces count end
      else []
  end.
Definition nic_enumerate_interfaces (max_interfaces : nat) : M world (nic_error_t * list nic_info_t) :=
  match ifaddrs with
  | None => ret (NIC_ERROR_SYSTEM_ERROR, [])
  | Some l => do _ <- gets_list; let r := enumerate_loop l max_interfaces 0 in do _ <- frees_list; ret (NIC_SUCCESS, r)
  end.
Fixpoint find_name (n : text) (l : list nic_info_t) : option nic_info_t := match l with [] => None | i :: l => if text_eqb (name i) n then Some i else find_name n l end.
Definition nic_get_interface_info (interface_name : text) : M world (nic_error_t * option nic_info_t) :=
  do r <- nic_enumerate_interfaces NIC_MAX_INTERFACES;
  match r with
  | (NIC_SUCCESS, l) => match find_name interface_name l with Some i => ret (NIC_SUCCESS, Some i) | None => ret (NIC_ERROR_NOT_FOUND, None) end
  | (e, _) => ret (e, None)
  end.

(** ["%63[^:]: %lu %lu %lu %lu %*u %*u %*u %*u %lu %lu %lu %lu"]: the name, and twelve numbers,
    of which four are not kept. *)
Definition numbers : list directive := [Char ":"%char; Blank; Lu; Blank; Lu; Blank; Lu; Blank; Lu; Blank; Lu; Blank; Lu; Blank; Lu; Blank; Lu; Blank; Lu; Blank; Lu; Blank; Lu; Blank; Lu].
Definition scan_device (l : text) : option (text * nic_statistics_t) :=
  let n := take 63 (span (fun a => negb (bool_decide (a = ":"%char))) l) in
  match n with
  | [] => None
  | _ =>
      match sscanf numbers (drop (length n) l) with
      | [Num rb; Num rp; Num re; Num rd; Num _; Num _; Num _; Num _; Num tb; Num tp; Num te; Num td] => Some (n, Statistics tb rb tp rp te re td rd)
      | _ => None
      end
  end.
Definition is_blank (a : ascii) : bool := bool_decide (a = " "%char).
Fixpoint find_device (interface_name : text) (ls : list text) : option nic_statistics_t :=
  match ls with
  | [] => None
  | l :: ls => match scan_device l with Some (n, s) => if text_eqb (skip is_blank n) interface_name then Some s else find_device interface_name ls | None => find_device interface_name ls end
  end.
(** The first two lines are passed. *)
Definition nic_get_statistics (interface_name : text) : M world (nic_error_t * nic_statistics_t) :=
  match files (lit "/proc/net/dev") with
  | None => ret (NIC_ERROR_SYSTEM_ERROR, no_statistics)
  | Some f =>
      do _ <- opens;
      let r := find_device interface_name (drop 2 (lines 512 f)) in
      do _ <- closes;
      ret (match r with Some s => (NIC_SUCCESS, s) | None => (NIC_ERROR_NOT_FOUND, no_statistics) end)
  end.

(** A command of at most 255 characters for the shell. *)
Definition command (before interface_name after : text) : text := take 255 (before ++ interface_name ++ after).
Definition run_command (c : text) : M world nic_error_t :=
  do _ <- modify (fun w => World (lists w) (open_files w) (commands w ++ [c])); ret (if succeeds c then NIC_SUCCESS else NIC_ERROR_SYSTEM_ERROR).
Definition nic_enable_interface (interface_name : text) : M world nic_error_t := run_command (command (lit "ip link set ") interface_name (lit " up")).
Definition nic_disable_interface (interface_name : text) : M world nic_error_t := run_command (command (lit "ip link set ") interface_name (lit " down")).
End System.
End Nic.

Open Scope hj_scope.
Open Scope Z_scope.

(** ** The table of the firmware *)

Import Bios.
(** A structure: its type, two bytes of a handle, the rest of its fields, its strings. *)
Record structure := Structure { s_type : Z; s_handle : list Z; s_fields : list Z; s_strings : list (list Z) }.
Definition s_length (s : structure) : nat := (4 + length (s_fields s))%nat.
Definition strings_bytes (l : list (list Z)) : list Z := concat (map (fun t => t ++ [0]) l).
(** After the strings a zero, or two where there is none. *)
Definition tail_bytes (l : list (list Z)) : list Z := match l with [] => [0; 0] | _ => strings_bytes l ++ [0] end.
Definition head_bytes (s : structure) : list Z := s_type s :: Z.of_nat (s_length s) :: s_handle s ++ s_fields s.
Definition structure_bytes (s : structure) : list Z := head_bytes s ++ tail_bytes (s_strings s).
Definition table_bytes (l : list structure) : list Z := concat (map structure_bytes l).
Definition no_zero (t : list Z) : Prop := t <> [] /\ Forall (fun b => b <> 0) t.
Definition fine (s : structure) : Prop := length (s_handle s) = 2%nat /\ (s_length s < 256)%nat /\ Forall no_zero (s_strings s).

Open Scope nat_scope.
Lemma to_zero_at t r : Forall (fun b => b <> 0%Z) t -> to_zero (t ++ 0%Z :: r) = length t.
Proof. induction 1 as [|b t Hb Ht IH]; cbn; [easy|]. destruct (Z.eqb_spec b 0); [easy|]. now rewrite IH. Qed.
Lemma to_double_zero_string t c r : no_zero t -> to_double_zero (t ++ c :: r) = length t + to_double_zero (c :: r).
Proof.
  intros [_ Ht]. induction Ht as [|b t Hb Ht IH]; [easy|]. cbn [app length]. destruct (t ++ c :: r) as [|e l] eqn:E; [now apply app_eq_nil in E as [_ ?]|].
  rewrite Nat.add_succ_l, <- IH. cbn [to_double_zero]. destruct (Z.eqb_spec b 0); [easy|]. reflexivity.
Qed.
Lemma to_double_zero_tail l r : Forall no_zero l -> to_double_zero (tail_bytes l ++ r) + 2 = length (tail_bytes l).
Proof.
  intros H. destruct l as [|t l]; [easy|]. unfold tail_bytes. rewrite length_app. cbn [length].
  enough (E : to_double_zero ((strings_bytes (t :: l) ++ [0%Z]) ++ r) + 1 = length (strings_bytes (t :: l))) by lia.
  revert t H. induction l as [|u l IH]; intros t H; inversion H as [|? ? Ht Hl]; subst.
  - unfold strings_bytes. cbn [map concat]. rewrite app_nil_r, <- !app_assoc. cbn [app]. rewrite to_double_zero_string by exact Ht.
    rewrite length_app. cbn. lia.
  - unfold strings_bytes in *. cbn [map concat] in *. rewrite <- !app_assoc. change (t ++ [0%Z] ++ ?x) with (t ++ 0%Z :: x). rewrite to_double_zero_string by exact Ht.
    specialize (IH u Hl). rewrite <- !app_assoc in IH. rewrite !length_app in *. cbn [length] in *.
    inversion Hl as [|? ? Hu _]; subst. destruct u as [|b u]; [now destruct Hu|]. assert (Hb : b <> 0%Z) by (destruct Hu as [_ Hu]; now apply Forall_cons_iff in Hu).
    match goal with |- context [to_double_zero (0%Z :: ?x)] => assert (E : to_double_zero (0%Z :: x) = S (to_double_zero x)) by (cbn [app to_double_zero]; destruct (Z.eqb_spec b 0); [easy|reflexivity]) end.
    rewrite E. cbn [app] in *. cbn [length] in *. rewrite !length_app in *. cbn [length] in *. lia.
Qed.

Section Table.
Variables (pre : list Z) (s : structure) (post_ : list Z).
Let buf := pre ++ structure_bytes s ++ post_.
Let p := length pre.
Hypothesis Hs : fine s.
Lemma head_length : length (head_bytes s) = s_length s.
Proof. destruct Hs as (H & _ & _). unfold head_bytes, s_length. cbn. rewrite length_app. lia. Qed.
Lemma drop_structure : drop (p + s_length s) buf = tail_bytes (s_strings s) ++ post_.
Proof. unfold buf, p, structure_bytes. rewrite drop_app_add', <- app_assoc by easy. now rewrite <- head_length, drop_app_length. Qed.
Lemma byte_of_head i b : head_bytes s !! i = Some b -> buf !! (p + i) = Some b.
Proof.
  intros H. unfold buf, structure_bytes. rewrite lookup_app_r by (unfold p; lia). replace (p + i - length pre) with i by (unfold p; lia). rewrite <- app_assoc.
  rewrite lookup_app_l; [exact H|]. now apply lookup_lt_Some in H.
Qed.
Lemma first_entry_here fuel type : (s_type s = type)%Z -> first_entry buf (S fuel) type p = Some (Some (p, s_length s)).
Proof.
  intros Ht. cbn [first_entry]. assert (Hl : p + 4 <= end_ buf).
  { unfold end_, buf, structure_bytes. rewrite !length_app, head_length. unfold p, s_length. lia. }
  destruct (Nat.leb_spec (p + 4) (end_ buf)); [|lia]. unfold byte_at. rewrite <- (Nat.add_0_r p) at 1. rewrite (byte_of_head 0 (s_type s)) by easy. rewrite (byte_of_head 1 (Z.of_nat (s_length s))) by easy.
  destruct (Z.ltb_spec (Z.of_nat (s_length s)) 4); [unfold s_length in *; lia|]. rewrite Ht, Z.eqb_refl, Nat2Z.id. reflexivity.
Qed.
Lemma first_entry_next fuel type : s_type s <> type -> first_entry buf (S fuel) type p = first_entry buf fuel type (length (pre ++ structure_bytes s)).
Proof.
  intros Ht. cbn [first_entry]. assert (Hl : p + 4 <= end_ buf).
  { unfold end_, buf, structure_bytes. rewrite !length_app, head_length. unfold p, s_length. lia. }
  destruct (Nat.leb_spec (p + 4) (end_ buf)); [|lia]. unfold byte_at. rewrite <- (Nat.add_0_r p) at 1. rewrite (byte_of_head 0 (s_type s)) by easy. rewrite (byte_of_head 1 (Z.of_nat (s_length s))) by easy.
  destruct (Z.ltb_spec (Z.of_nat (s_length s)) 4); [unfold s_length in *; lia|]. destruct (Z.eqb_spec (s_type s) type); [easy|]. f_equal. unfold next_entry. rewrite Nat2Z.id, drop_structure.
  destruct Hs as (_ & _ & Hz). pose proof (to_double_zero_tail (s_strings s) post_ Hz). unfold structure_bytes. rewrite !length_app, head_length. fold p. lia.
Qed.
(** The strings from the [i]-th. *)
Lemma pass_strings_ok k : k < length (s_strings s) -> pass_strings buf k (p + s_length s) = p + s_length s + length (strings_bytes (take k (s_strings s))).
Proof.
  intros Hk. destruct Hs as (_ & _ & Hz).
  assert (Hgen : forall done l m, strings_bytes (s_strings s) = strings_bytes done ++ strings_bytes l -> Forall no_zero l -> m < length l ->
    pass_strings buf m (p + s_length s + length (strings_bytes done)) = p + s_length s + length (strings_bytes (done ++ take m l))).
  { intros done l m. revert done l. induction m as [|m IH]; intros done l E Hl Hm; [cbn; now rewrite app_nil_r|]. destruct l as [|t l]; [cbn in Hm; lia|].
    apply Forall_cons_iff in Hl as [Ht Hl]. cbn [pass_strings]. destruct (s_strings s) as [|t0 l0] eqn:Ess.
    { exfalso. unfold strings_bytes in E. cbn in E. destruct (concat (map (fun t => t ++ [0%Z]) done)); cbn in E; [destruct t; easy|easy]. }
    assert (Ed : drop (p + s_length s + length (strings_bytes done)) buf = strings_bytes (t :: l) ++ [0%Z] ++ post_).
    { rewrite <- drop_drop, drop_structure, Ess. unfold tail_bytes. rewrite E, <- !app_assoc. now rewrite drop_app_length. }
    assert (Eb : end_ buf = p + s_length s + length (strings_bytes done) + length (strings_bytes (t :: l) ++ [0%Z] ++ post_)).
    { rewrite <- Ed, length_drop. unfold end_. assert (p + s_length s + length (strings_bytes done) < length buf); [|lia].
      destruct (Nat.lt_ge_cases (p + s_length s + length (strings_bytes done)) (length buf)) as [|Hge]; [easy|]. rewrite drop_ge in Ed by easy. symmetry in Ed. apply app_eq_nil in Ed as [_ Ed]. easy. }
    assert (Et : strings_bytes (t :: l) = t ++ 0%Z :: strings_bytes l) by (unfold strings_bytes; cbn; now rewrite <- app_assoc).
    rewrite Ed, Et, <- app_assoc. cbn [app]. rewrite to_zero_at by apply Ht. rewrite Et in Eb. rewrite !length_app in Eb. cbn [length] in Eb.
    destruct (Nat.ltb_spec (p + s_length s + length (strings_bytes done)) (end_ buf - 1)); [|lia]. destruct (Nat.ltb_spec (p + s_length s + length (strings_bytes done) + length t) (end_ buf)); [|lia].
    assert (Edt : length (strings_bytes (done ++ [t])) = length (strings_bytes done) + length t + 1) by (unfold strings_bytes; rewrite map_app, concat_app, !length_app; cbn; rewrite !length_app; cbn; lia).
    replace (S (p + s_length s + length (strings_bytes done) + length t)) with (p + s_length s + length (strings_bytes (done ++ [t]))) by lia.
    rewrite (IH (done ++ [t]) l); [cbn [take]; now rewrite <- app_assoc| |exact Hl|cbn in Hm; lia].
    unfold strings_bytes in *. rewrite map_app, concat_app. cbn [map concat]. rewrite app_nil_r. cbn [map concat] in E. rewrite E. now rewrite <- !app_assoc. }
  specialize (Hgen [] (s_strings s) k eq_refl Hz Hk). cbn in Hgen. now rewrite Nat.add_0_r in Hgen.
Qed.
End Table.
Lemma first_entry_skips type before : forall pre rest fuel, Forall fine before -> Forall (fun s => s_type s <> type) before ->
  first_entry (pre ++ table_bytes before ++ rest) (length before + fuel) type (length pre) = first_entry (pre ++ table_bytes before ++ rest) fuel type (length (pre ++ table_bytes before)).
Proof.
  induction before as [|s l IH]; intros pre rest fuel Hf Ht; [unfold table_bytes; cbn; now rewrite app_nil_r|]. apply Forall_cons_iff in Hf as [Hs Hf]. apply Forall_cons_iff in Ht as [Hn Ht].
  unfold table_bytes. cbn [map concat length Nat.add]. fold (table_bytes l). rewrite <- app_assoc. rewrite first_entry_next by easy.
  specialize (IH (pre ++ structure_bytes s) rest fuel Hf Ht). rewrite <- !app_assoc in IH. exact IH.
Qed.
Lemma string_here pre s post_ k t : fine s -> s_strings s !! k = Some t ->
  let buf := pre ++ structure_bytes s ++ post_ in smbios_find_string buf (length pre) (s_length s) (Z.of_nat (S k)) = Some (Some (length pre + s_length s + length (strings_bytes (take k (s_strings s))))) /\
  string_at buf (length pre + s_length s + length (strings_bytes (take k (s_strings s)))) = Some t.
Proof.
  intros Hs Hk buf. pose proof (lookup_lt_Some _ _ _ Hk) as Hkl. pose proof (pass_strings_ok pre s post_ Hs k Hkl) as Hp. fold buf in Hp.
  set (q := length pre + s_length s + length (strings_bytes (take k (s_strings s)))) in *.
  assert (Ht : no_zero t) by (destruct Hs as (_ & _ & Hz); rewrite Forall_lookup in Hz; exact (Hz k t Hk)).
  assert (Ed : exists r, drop q buf = t ++ 0%Z :: r).
  { unfold q. rewrite <- drop_drop. unfold buf. rewrite (drop_structure pre s post_ Hs). unfold tail_bytes. destruct (s_strings s) as [|t0 l0] eqn:E; [easy|]. rewrite <- E in *.
    assert (Es : strings_bytes (s_strings s) = strings_bytes (take k (s_strings s)) ++ t ++ 0%Z :: strings_bytes (drop (S k) (s_strings s))).
    { rewrite <- (take_drop_middle _ _ _ Hk) at 1. unfold strings_bytes. rewrite map_app, concat_app. cbn [map concat]. now rewrite <- !app_assoc. }
    rewrite Es, <- !app_assoc. rewrite drop_app_length. cbn [app]. now eexists. }
  destruct Ed as [r Ed].
  assert (Eb : end_ buf = q + length t + S (length r)).
  { assert (Hql : q <= length buf) by (destruct (Nat.le_gt_cases q (length buf)) as [|Hg]; [easy|]; rewrite drop_ge in Ed by lia; symmetry in Ed; now apply app_eq_nil in Ed as [_ ?]).
    assert (El : length (drop q buf) = length t + S (length r)) by (rewrite Ed, length_app; easy). rewrite length_drop in El. unfold end_. lia. }
  split.
  - unfold smbios_find_string. destruct (Z.eqb_spec (Z.of_nat (S k)) 0); [lia|]. assert (Hq : length pre + s_length s <= q) by (unfold q; lia).
    destruct (Nat.leb_spec (end_ buf) (length pre + s_length s)); [lia|]. replace (Z.to_nat (Z.of_nat (S k)) - 1) with k by lia. rewrite Hp.
    destruct (Nat.leb_spec (end_ buf) q); [lia|]. unfold byte_at. replace (buf !! q) with (drop q buf !! 0) by (rewrite lookup_drop; f_equal; lia). rewrite Ed.
    destruct Ht as [Hn Ht]. destruct t as [|b t]; [easy|]. apply Forall_cons_iff in Ht as [Hb _]. cbn. now destruct (Z.eqb_spec b 0).
  - unfold string_at. rewrite Ed, to_zero_at by apply Ht. destruct (Nat.ltb_spec (q + length t) (end_ buf)); [|lia]. now rewrite take_app_length.
Qed.
(** In a table of the firmware the string that a field of the first structure of a type
    numbers is found as it was written, whatever comes before and after it, if there is room
    for it and its end; field and strings of other structures are not looked at; without a
    structure of the type, or with the number 0, nothing is found; and memory is read inside
    of the table only. *)
Theorem smbios_strings_found header before s after_ type off size k t : length header = 8 -> Forall fine (before ++ s :: after_) -> Forall (fun s => s_type s <> type) before -> s_type s = type ->
  off < s_length s -> s_strings s !! k = Some t ->
  (head_bytes s !! off = Some (Z.of_nat (S k)) ->
     parse_entry (header ++ table_bytes (before ++ s :: after_)) type off size = Some (if size <=? length t then (BIOS_ERROR_BUFFER_TOO_SMALL, None) else (BIOS_OK, Some t))) /\
  (head_bytes s !! off = Some 0%Z -> parse_entry (header ++ table_bytes (before ++ s :: after_)) type off size = Some (BIOS_ERROR_NOT_FOUND, None)) /\
  parse_entry (header ++ table_bytes before) type off size = Some (BIOS_ERROR_NOT_FOUND, None).
Proof.
  intros Hh Hf Hb Ht Ho Hk. apply Forall_app in Hf as [Hf1 Hf2]. apply Forall_cons_iff in Hf2 as [Hs _].
  assert (Elen : forall l rest, Forall fine l -> length l <= length (header ++ table_bytes l ++ rest)).
  { intros l rest _. rewrite length_app. enough (length l <= length (table_bytes l)) by (rewrite length_app; lia). induction l as [|x l IH]; [easy|]. assert (1 <= length (structure_bytes x)) by (unfold structure_bytes, head_bytes; cbn; lia). unfold table_bytes in *. cbn. rewrite length_app. lia. }
  set (pre := header ++ table_bytes before). set (post_ := table_bytes after_). set (buf := pre ++ structure_bytes s ++ post_).
  assert (Ebuf : header ++ table_bytes (before ++ s :: after_) = buf).
  { unfold buf, pre, post_, table_bytes. rewrite map_app, concat_app. cbn [map concat]. now rewrite <- !app_assoc. }
  assert (E1 : first_entry buf (S (end_ buf)) type 8 = Some (Some (length pre, s_length s))).
  { pose proof (Elen before (structure_bytes s ++ post_) Hf1) as Hl. pose proof (first_entry_skips type before header (structure_bytes s ++ post_) (S (end_ buf - length before)) Hf1 Hb) as E.
    rewrite app_assoc in Hl, E. fold pre in Hl, E. fold buf in Hl, E. rewrite Hh in E. unfold end_ in *. replace (length before + S (length buf - length before)) with (S (length buf)) in E by lia. rewrite E.
    exact (first_entry_here pre s post_ Hs _ type Ht). }
  split; [|split].
  - intros Hi. rewrite Ebuf. unfold parse_entry. rewrite E1. destruct (Nat.leb_spec (s_length s) off); [lia|]. unfold byte_at. unfold buf at 1. rewrite (byte_of_head pre s post_ off _ Hi).
    destruct (string_here pre s post_ k t Hs Hk) as [E3 E2]. fold buf in E2, E3. now rewrite E3, E2.
  - intros Hi. rewrite Ebuf. unfold parse_entry. rewrite E1. destruct (Nat.leb_spec (s_length s) off); [lia|]. unfold byte_at. unfold buf at 1. rewrite (byte_of_head pre s post_ off _ Hi). reflexivity.
  - unfold parse_entry. pose proof (Elen before [] Hf1) as Hl. pose proof (first_entry_skips type before header [] (S (end_ (header ++ table_bytes before) - length before)) Hf1 Hb) as E.
    rewrite app_nil_r in Hl, E. rewrite Hh in E. unfold end_ in *. replace (length before + S (length (header ++ table_bytes before) - length before)) with (S (length (header ++ table_bytes before))) in E by lia. fold pre in E. rewrite E.
    cbn [first_entry]. unfold end_. destruct (Nat.leb_spec (length pre + 4) (length pre)); [lia|reflexivity].
Qed.
(** A table: the firmware, with two strings, and a board. *)
Definition firmware : structure := Structure 0 [0; 0]%Z [1; 2; 0; 224; 0; 15]%Z [[65; 66]; [49; 46; 48]]%Z.
Definition board : structure := Structure 2 [1; 0]%Z [1]%Z [[77]]%Z.
Lemma smbios_strings_found_witness : let header := [0; 3; 0; 0; 40; 0; 0; 0]%Z in
  (head_bytes firmware !! 5 = Some 2%Z -> parse_entry (header ++ table_bytes ([board] ++ firmware :: [])) 0 5 64 = Some (if 64 <=? 3 then (BIOS_ERROR_BUFFER_TOO_SMALL, None) else (BIOS_OK, Some [49; 46; 48]%Z))) /\
  (head_bytes firmware !! 5 = Some 0%Z -> parse_entry (header ++ table_bytes ([board] ++ firmware :: [])) 0 5 64 = Some (BIOS_ERROR_NOT_FOUND, None)) /\
  parse_entry (header ++ table_bytes [board]) 0 5 64 = Some (BIOS_ERROR_NOT_FOUND, None).
Proof.
  assert (Hf : forall x, x = board \/ x = firmware -> fine x).
  { intros x [-> | ->]; (split; [reflexivity|split; [cbn; lia|]]); repeat constructor; discriminate. }
  refine (smbios_strings_found [0; 3; 0; 0; 40; 0; 0; 0]%Z [board] firmware [] 0 5 64 1 [49; 46; 48]%Z eq_refl _ _ eq_refl _ eq_refl).
  - repeat constructor; try discriminate; cbn; lia.
  - repeat constructor; discriminate.
  - cbn. lia.
Defined.

(** *** What the code does otherwise *)

(** The copy of the table is not freed by [smbios_parse_entry]. *)
Lemma table_leaks : smbios_vendor (Some ([0; 3; 0; 0; 40; 0; 0; 0]%Z ++ structure_bytes firmware)) true true 64 (World 0 0) = Some ((BIOS_OK, Some [65; 66]%Z), World 0 1).
Proof. reflexivity. Qed.
(** The number of the string of the serial number is the length of the structure. *)
Lemma serial_is_length : head_bytes firmware !! 1 = Some (Z.of_nat (s_length firmware)) /\
  smbios_serial_num (Some ([0; 3; 0; 0; 40; 0; 0; 0]%Z ++ structure_bytes firmware)) true true 64 (World 0 0) = Some ((BIOS_ERROR_NOT_FOUND, None), World 0 1).
Proof. split; reflexivity. Qed.
(** The size of the memory is read from the number of the string of the date. *)
Lemma rom_size_is_date : smbios_rom_size (Some ([0; 3; 0; 0; 40; 0; 0; 0]%Z ++ structure_bytes firmware)) true true (World 0 0) = Some ((BIOS_OK, Some 0%Z), World 0 0) /\
  nth_error (structure_bytes firmware) 9 = Some 15%Z.
Proof. split; reflexivity. Qed.
(** A number beyond the strings finds the bytes of the next structure. *)
Lemma string_of_next_structure : parse_entry ([0; 3; 0; 0; 40; 0; 0; 0]%Z ++ structure_bytes (Structure 0 [0; 0]%Z [3]%Z [[65]]%Z) ++ structure_bytes board) 0 4 64 = Some (BIOS_OK, Some (2 :: 5 :: 1 :: nil)%Z).
Proof. reflexivity. Qed.
(** A length that goes past the end of the table is not noticed: the field is read outside of it. *)
Lemma cut_table_undefined : parse_entry ([0; 3; 0; 0; 40; 0; 0; 0; 0; 20; 0; 0]%Z) 0 8 64 = None.
Proof. reflexivity. Qed.
(** And so is a string without an end. *)
Lemma endless_string_undefined : parse_entry ([0; 3; 0; 0; 40; 0; 0; 0; 0; 5; 0; 0; 1; 65; 66]%Z) 0 4 64 = None.
Proof. reflexivity. Qed.

(** ** The files of the kernel *)

(** A line that has room is read without its end, and the file is closed. *)
Lemma bios_file_reads files path t rest size w : plain t -> length t + 1 < size -> files (lit path) = Some (t ++ LF :: rest) ->
  bios_sys_file_read files path size w = Some ((BIOS_OK, Some t), w).
Proof.
  intros Ht Hs Hf. unfold bios_sys_file_read. destruct (Nat.eqb_spec size 0); [lia|]. rewrite Hf, fgets_whole by easy. unfold bind, opens, closes, modify, ret. cbn.
  unfold chomp. rewrite rev_app_distr. cbn. rewrite rev_involutive. now destruct w.
Qed.

(** ** Network interfaces *)

Import Nic.
Lemma enumerate_spec ntop6 idx l max : forall count, count <= max ->
  enumerate_loop idx ntop6 l max count = take (max - count) (omap (fun a => match ifa_addr a with Some addr => Some (info_of idx ntop6 a addr) | None => None end) l).
Proof.
  induction l as [|a l IH]; intros count Hc; cbn [enumerate_loop omap list_omap]; [now rewrite take_nil|]. destruct (Nat.ltb_spec count max) as [Hlt|Hge].
  - destruct (ifa_addr a) as [addr|] eqn:Ea; [|now apply IH]. rewrite IH by lia. replace (max - count) with (S (max - S count)) by lia. reflexivity.
  - replace (max - count) with 0 by lia. reflexivity.
Qed.
(** The interfaces are listed in the order of the system, one for each address that is
    there, as many as there is room for; the list of the system is freed. *)
Theorem nic_lists l ntop6 idx max w :
  nic_enumerate_interfaces (Some l) idx ntop6 max w =
  Some ((NIC_SUCCESS, take max (omap (fun a => match ifa_addr a with Some addr => Some (info_of idx ntop6 a addr) | None => None end) l)), w).
Proof.
  unfold nic_enumerate_interfaces, bind, gets_list, frees_list, modify, ret. cbn. rewrite enumerate_spec by lia. rewrite Nat.sub_0_r. now destruct w.
Qed.

(** *** Counters *)

(** A field: a blank, and a number in a width. *)
Definition field (p : nat * Z) : text := " "%char :: padded p.1 (dec p.2).
Definition fields_text (l : list (nat * Z)) : text := concat (map field l).
Definition device_line (indent : nat) (n : text) (l : list (nat * Z)) : text := replicate indent " "%char ++ n ++ ":"%char :: fields_text l.
Definition counters_of (l : list (nat * Z)) : option nic_statistics_t :=
  match map snd l with rb :: rp :: re :: rd :: _ :: _ :: _ :: _ :: tb :: tp :: te :: td :: _ => Some (Statistics tb rb tp rp te re td rd) | _ => None end.
Definition fine_number (p : nat * Z) : Prop := (0 <= p.2 < 2 ^ 64)%Z.
Definition ends (s : text) : Prop := forall a r, s = a :: r -> is_digit a = false.

Lemma fields_end l s : ends s -> ends (fields_text l ++ s).
Proof. intros H. destruct l as [|p l]; [exact H|]. intros a r [= <- _]. reflexivity. Qed.
Lemma scan_field k n s f : fine_number (k, n) -> ends s -> sscanf (Blank :: Lu :: f) (field (k, n) ++ s) = Num n :: sscanf f s.
Proof.
  intros Hn Hs. unfold field. cbn [app sscanf skip fst snd]. change (is_space " ") with true. cbv iota.
  assert (E : skip is_space (padded k (dec n) ++ s) = dec n ++ s).
  { apply skip_blanks; [easy|]. intros a r E. pose proof (dec_digits n ltac:(unfold fine_number in Hn; cbn in Hn; lia)) as Hd. destruct (dec n) as [|b t] eqn:Ed; [now apply dec_not_nil in Ed|]. injection E as <- _. apply Forall_cons_iff in Hd as [Hb _]. now apply digit_not_space. }
  rewrite E. pose proof (sscanf_Lu n 0 s f Hn Hs) as H. unfold padded in H. cbn in H. exact H.
Qed.
Lemma scan_char a f s : sscanf (Char a :: f) (a :: s) = sscanf f s.
Proof. cbn. now rewrite decide_True. Qed.
Lemma scan_fields l s : Forall fine_number l -> length l = 12 -> ends s -> sscanf numbers (":"%char :: fields_text l ++ s) = map (fun p => Num p.2) l.
Proof.
  intros Hl Hn Hs. do 12 (destruct l as [|[? ?] l]; [discriminate|]). destruct l; [|discriminate]. unfold numbers. rewrite scan_char.
  unfold fields_text. cbn [map concat]. rewrite <- !app_assoc. cbn [app]. repeat (apply Forall_cons_iff in Hl as [? Hl]).
  assert (Hf : forall p s, ends (field p ++ s)) by (intros p s' a r [= <- _]; easy).
  repeat (rewrite scan_field; [|assumption|first [apply Hf|exact Hs]]). reflexivity.
Qed.
(** A device: how far its name is indented, its name, its numbers. *)
Record device := Device { d_indent : nat; d_name : text; d_numbers : list (nat * Z) }.
Definition line_of (d : device) : text := device_line (d_indent d) (d_name d) (d_numbers d).
Definition fine_device (d : device) : Prop :=
  d_name d <> [] /\ (forall a r, d_name d = a :: r -> a <> " "%char) /\ Forall (fun a => a <> ":"%char) (d_name d) /\ d_indent d + length (d_name d) <= 63 /\
  12 <= length (d_numbers d) /\ Forall fine_number (d_numbers d) /\ plain (line_of d) /\ length (line_of d) + 1 < 512.
Fixpoint device_named (n : text) (l : list device) : option device := match l with [] => None | d :: l => if text_eqb (d_name d) n then Some d else device_named n l end.

Lemma fields_text_app l k : fields_text (l ++ k) = fields_text l ++ fields_text k.
Proof. unfold fields_text. now rewrite map_app, concat_app. Qed.
Lemma scan_device_line d : fine_device d -> exists s, scan_device (line_of d ++ [LF]) = Some (replicate (d_indent d) " "%char ++ d_name d, s) /\ counters_of (d_numbers d) = Some s.
Proof.
  intros (Hn & Hb & Hc & Hl & H12 & Hf & _ & _). destruct d as [k n l]. unfold line_of, device_line in *. cbn [d_indent d_name d_numbers] in *.
  set (pre := replicate k " "%char ++ n). assert (Ep : length pre = k + length n) by (unfold pre; now rewrite length_app, length_replicate).
  assert (El : (replicate k " "%char ++ n ++ ":"%char :: fields_text l) ++ [LF] = pre ++ ":"%char :: fields_text (take 12 l) ++ (fields_text (drop 12 l) ++ [LF])).
  { unfold pre. rewrite <- !app_assoc. cbn [app]. do 3 f_equal. rewrite app_assoc, <- fields_text_app, take_drop. reflexivity. }
  rewrite El. unfold scan_device.
  destruct (span_app (fun a => negb (bool_decide (a = ":"%char))) pre (":"%char :: fields_text (take 12 l) ++ (fields_text (drop 12 l) ++ [LF]))) as [-> _].
  { unfold pre. apply Forall_app. split; [|eapply Forall_impl; [|exact Hc]; intros a Ha; now rewrite bool_decide_eq_false_2]. apply Forall_replicate. reflexivity. }
  { intros a r [= <- _]. reflexivity. }
  rewrite take_ge by lia. rewrite drop_app_length. assert (Hpn : pre <> []) by (unfold pre; destruct k; [exact Hn|easy]). destruct pre as [|a0 pre0] eqn:Epre; [easy|].
  rewrite scan_fields; [|now apply Forall_take|rewrite length_take; lia|apply fields_end; intros a r [= <- _]; reflexivity].
  unfold counters_of. do 12 (destruct l as [|[? ?] l]; [cbn in H12; lia|]). cbn [take map snd]. eexists. split; reflexivity.
Qed.
Lemma skip_indent k n : n <> [] -> (forall a r, n = a :: r -> a <> " "%char) -> skip is_blank (replicate k " "%char ++ n) = n.
Proof.
  intros Hn Hb. induction k as [|k IH]; [|exact IH]. cbn. apply skip_none. intros a r E. unfold is_blank. now rewrite bool_decide_eq_false_2 by exact (Hb a r E).
Qed.
Lemma find_device_lines n l : Forall fine_device l -> find_device n (map ended (map line_of l)) = match device_named n l with Some d => counters_of (d_numbers d) | None => None end.
Proof.
  induction 1 as [|d l Hd Hl IH]; [easy|]. cbn [map find_device device_named]. destruct (scan_device_line d Hd) as (s & E & Ec). unfold ended at 1. rewrite E.
  destruct Hd as (Hn & Hb & _). rewrite skip_indent by easy. destruct (text_eqb (d_name d) n); [now rewrite Ec|exact IH].
Qed.
(** The counters of an interface are those that the kernel prints on the first line of
    its name, after two lines that are passed, whatever the widths of the fields and the
    numbers of the other interfaces; an interface that is not there is not found; and the
    file is closed. *)
Theorem nic_counters_read files h1 h2 l n w : Forall (fun t => plain t /\ length t + 1 < 512) [h1; h2] -> Forall fine_device l ->
  files (lit "/proc/net/dev") = Some (concat (map ended ([h1; h2] ++ map line_of l))) ->
  exists r, nic_get_statistics files n w = Some (r, w) /\
    match device_named n l with Some d => counters_of (d_numbers d) = Some r.2 /\ r.1 = NIC_SUCCESS | None => r = (NIC_ERROR_NOT_FOUND, no_statistics) end.
Proof.
  intros Hh Hl Hf. unfold nic_get_statistics. rewrite Hf. rewrite lines_file.
  2: { apply Forall_app. split; [exact Hh|]. apply List.Forall_forall. intros t Ht. apply in_map_iff in Ht as (d & <- & Hd). rewrite List.Forall_forall in Hl. now destruct (Hl d Hd) as (_ & _ & _ & _ & _ & _ & H1 & H2). }
  change (drop 2 (map ended ([h1; h2] ++ map line_of l))) with (map ended (map line_of l)). rewrite find_device_lines by exact Hl.
  assert (Ew : forall x : nic_error_t * nic_statistics_t, (do _ <- opens; do _ <- closes; ret x) w = Some (x, w)) by (intros x; unfold bind, opens, closes, modify, ret; cbn; now destruct w).
  rewrite Ew. eexists. split; [reflexivity|]. destruct (device_named n l) as [d|] eqn:E; [|reflexivity].
  assert (Hd : fine_device d). { clear Hf Ew Hh. induction Hl as [|x l Hx Hl IH]; [easy|]. cbn in E. destruct (text_eqb (d_name x) n); [injection E as ->; exact Hx|now apply IH]. }
  destruct (scan_device_line d Hd) as (s & _ & ->). easy.
Qed.
Definition lo_device : device := Device 4 (lit "lo") [(7, 1000%Z); (7, 10%Z); (4, 0%Z); (4, 0%Z); (4, 0%Z); (5, 0%Z); (10, 0%Z); (9, 0%Z); (8, 1000%Z); (7, 10%Z); (4, 0%Z); (4, 0%Z); (4, 0%Z)].
Definition eth_device : device := Device 2 (lit "eth0") [(7, 123456789012%Z); (7, 345%Z); (4, 1%Z); (4, 2%Z); (4, 0%Z); (5, 0%Z); (10, 0%Z); (9, 6%Z); (8, 99%Z); (7, 9%Z); (4, 3%Z); (4, 4%Z); (4, 0%Z)].
Lemma nic_counters_read_witness :
  let file := concat (map ended ([lit "Inter-|   Receive"; lit " face |bytes"] ++ map line_of [lo_device; eth_device])) in
  exists r, nic_get_statistics (fun p => if text_eqb p (lit "/proc/net/dev") then Some file else None) (lit "eth0") (World 0 0 []) = Some (r, World 0 0 []) /\
    match device_named (lit "eth0") [lo_device; eth_device] with Some d => counters_of (d_numbers d) = Some r.2 /\ r.1 = NIC_SUCCESS | None => r = (NIC_ERROR_NOT_FOUND, no_statistics) end.
Proof.
  assert (Hp : forall t, forallb (fun a => negb (bool_decide (a = LF)) && negb (is_nul a)) t = true -> plain t).
  { intros t Ht. apply List.Forall_forall. intros a Ha. rewrite forallb_forall in Ht. specialize (Ht a Ha). reflect_bools. split; [|easy]. intros ->. easy. }
  intros file. apply (nic_counters_read _ (lit "Inter-|   Receive") (lit " face |bytes") [lo_device; eth_device]); [| |reflexivity].
  - constructor; [split; [now apply Hp|cbn; lia]|]. constructor; [split; [now apply Hp|cbn; lia]|constructor].
  - assert (Hd : forall d, In d [lo_device; eth_device] -> fine_device d); [|constructor; [apply Hd; now left|constructor; [apply Hd; right; now left|constructor]]].
    intros d [<-|[<-|[]]]; (split; [easy|]); (split; [intros a r [= <- _]; easy|]); (split; [repeat constructor; discriminate|]); (split; [cbn; lia|]); (split; [cbn; lia|]); (split; [repeat constructor; cbn; lia|]); (split; [apply Hp; vm_compute; reflexivity|vm_compute; lia]).
Defined.

(** *** What the code does otherwise *)

(** An interface is listed once for each of its addresses: the one that is found by its name
    is the first, which has no IP address; and there are more in the list than are counted. *)
Definition eth_addresses : list ifaddr := [Ifaddr (lit "eth0") 1 (Some packet) None; Ifaddr (lit "eth0") 1 (Some (inet [10; 0; 0; 2]%Z)) (Some [255; 255; 255; 0]%Z)].
Lemma found_without_address idx ntop6 :
  nic_get_interface_info (Some eth_addresses) idx ntop6 (lit "eth0") (World 0 0 []) =
    Some ((NIC_SUCCESS, Some (Info (lit "eth0") NIC_TYPE_ETHERNET NIC_STATUS_UP (idx (lit "eth0")) false no_ip no_ip no_ip)), World 0 0 []) /\
  nic_get_interface_count (Some eth_addresses) (World 0 0 []) = Some ((NIC_SUCCESS, Some 1%Z), World 0 0 []) /\
  (exists a b, nic_enumerate_interfaces (Some eth_addresses) idx ntop6 8 (World 0 0 []) = Some ((NIC_SUCCESS, [a; b]), World 0 0 [])).
Proof.
  split; [reflexivity|]. split; [reflexivity|].
  exists (info_of idx ntop6 (Ifaddr (lit "eth0") 1 (Some packet) None) packet), (info_of idx ntop6 (Ifaddr (lit "eth0") 1 (Some (inet [10; 0; 0; 2]%Z)) (Some [255; 255; 255; 0]%Z)) (inet [10; 0; 0; 2]%Z)). reflexivity.
Qed.
(** An interface after the first 32 addresses is not found. *)
Lemma last_not_found idx ntop6 : nic_get_interface_info (Some (repeat (Ifaddr (lit "lo") 1 (Some packet) None) 32 ++ eth_addresses)) idx ntop6 (lit "eth0") (World 0 0 []) = Some ((NIC_ERROR_NOT_FOUND, None), World 0 0 []).
Proof. reflexivity. Qed.
(** A wireless interface of today is of an unknown type, and some others are loopbacks. *)
Lemma types_by_prefix : type_of (lit "wlp3s0") = NIC_TYPE_UNKNOWN /\ type_of (lit "lowpan0") = NIC_TYPE_LOOPBACK /\ type_of (lit "enclosure") = NIC_TYPE_ETHERNET.
Proof. repeat split. Qed.
(** The name is a part of a command of the shell. *)
Lemma name_is_command succeeds : nic_enable_interface succeeds (lit "lo down; reboot #") (World 0 0 []) =
  Some (if succeeds (lit "ip link set lo down; reboot # up") then NIC_SUCCESS else NIC_ERROR_SYSTEM_ERROR, World 0 0 [lit "ip link set lo down; reboot # up"]).
Proof. reflexivity. Qed.
