(* ===== verification/Db.v ===== *)
(** * Databases

    [db/db_conn.hpp]: values, tables of results, what a connection is, and the guard of a
    transaction, over any connection ([DbConn]).  The clients of [db/sqlite.hpp] and
    [db/redis.hpp] own a handle of their library in the same way: [Owner]. *)

From Stdlib Require Import Ascii String ZArith Lia List Bool.
From stdpp Require Import base tactics list option gmap.
From S2P Require Import Prelude CText.

Open Scope hj_scope.
Open Scope nat_scope.

Module Db.
Export State.

(** ** Values and tables *)

(** No error is [None]. *)
Inductive errc := not_connected | bad_message | invalid_argument | io_error.
Definition err_t : Type := option errc.
(** A view of characters or bytes, that may be null. *)
Definition view : Type := option text.
Definition seen (v : view) : text := default [] v.
(** A double is its 64 bits. *)
Inductive val_in_t := in_null | in_int64 (z : Z) | in_double (d : Z) | in_text (v : view) | in_blob (v : view).
Inductive out_val_t := out_null | out_int64 (z : Z) | out_double (d : Z) | out_text (t : text) | out_blob (t : text).
Record exec_result := ExecResult { ec : err_t; affected_rows : Z; last_insert_id : Z }.

Record ret_t := RetT { rows : nat; cols : nat; data : list out_val_t }.
Definition ret_new : ret_t := RetT 0 0 [].
Definition ret_dim (rows cols : nat) : ret_t := RetT rows cols [].
Definition empty (o : ret_t) : bool := bool_decide (data o = []).
Definition clear (o : ret_t) : ret_t := RetT 0 0 [].
Definition set_dim (rows cols : nat) (o : ret_t) : ret_t := RetT rows cols [].
Definition emplace_back (v : out_val_t) (o : ret_t) : ret_t := RetT (rows o) (cols o) (data o ++ [v]).
Definition emplace_all (l : list out_val_t) (o : ret_t) : ret_t := fold_left (fun o v => emplace_back v o) l o.
(** An assertion that does not hold is undefined. *)
Definition get (o : ret_t) (r c : nat) : option out_val_t := if (r <? rows o) && (c <? cols o) then data o !! (r * cols o + c) else None.
(** [o[r][c]]: the column is not checked. *)
Definition row (o : ret_t) (r : nat) : option nat := if (r <? rows o) && (r * cols o <? length (data o)) then Some (r * cols o) else None.
Definition row_view (o : ret_t) (r c : nat) : option out_val_t := let* b := row o r in data o !! (b + c).
Definition is_null (o : ret_t) (r c : nat) : option bool := let* v := get o r c in Some (match v with out_null => true | _ => false end).
(** [alternative] is the one of the type. *)
Definition get_if {T} (alternative : out_val_t -> option T) (o : ret_t) (r c : nat) : option (option T) := let* v := get o r c in Some (alternative v).
Definition get_or {T} (alternative : out_val_t -> option T) (o : ret_t) (r c : nat) (default_val : T) : option T :=
  let* p := get_if alternative o r c in Some (match p with Some v => v | None => default_val end).
Definition as_int64 (v : out_val_t) : option Z := match v with out_int64 z => Some z | _ => None end.
Definition as_text (v : out_val_t) : option text := match v with out_text t => Some t | _ => None end.

(** ** Connections and transactions *)

(** What a kind of connection implements, over its state. *)
Class DbConn (W : Type) :=
  { exec_impl : text -> list val_in_t -> M W exec_result;
    query_impl : ret_t -> text -> list val_in_t -> M W (err_t * ret_t);
    begin_impl : M W err_t; commit_impl : M W err_t; rollback_impl : M W err_t }.

Section Guard.
Context {W : Type} `{DbConn W}.
Definition exec (sql : text) (args : list val_in_t) : M W exec_result := exec_impl sql args.
Definition query (outs : ret_t) (sql : text) (args : list val_in_t) : M W (err_t * ret_t) := query_impl outs sql args.
Definition begin : M W err_t := begin_impl.
Definition commit : M W err_t := commit_impl.
Definition rollback : M W err_t := rollback_impl.

(** The guard is the flag [_is_active]. *)
Definition trans_guard : M W bool := do e <- begin; ret (bool_decide (e = None)).
Definition guard_commit (is_active : bool) : M W (err_t * bool) :=
  if negb is_active then ret (None, is_active) else
  do e <- commit; ret (e, match e with None => false | Some _ => is_active end).
(** What the rollback gives, which the destructor ignores. *)
Definition guard_destroy (is_active : bool) : M W err_t := if is_active then rollback else ret None.

(** A block with a guard: statements, and commits by the guard; what each gave. *)
Inductive use := Exec (sql : text) (args : list val_in_t) | Query (sql : text) (args : list val_in_t) | Commit.
Fixpoint run (l : list use) (is_active : bool) : M W (list err_t * bool) :=
  match l with
  | [] => ret ([], is_active)
  | Exec sql args :: l => do r <- exec sql args; do q <- run l is_active; ret (ec r :: q.1, q.2)
  | Query sql args :: l => do r <- query ret_new sql args; do q <- run l is_active; ret (r.1 :: q.1, q.2)
  | Commit :: l => do p <- guard_commit is_active; do q <- run l p.2; ret (p.1 :: q.1, q.2)
  end.
(** Whether the transaction began, what each use gave, and what the rollback did. *)
Definition block (l : list use) : M W (bool * list err_t * err_t) :=
  do active <- trans_guard; do q <- run l active; do e <- guard_destroy q.2; ret (active, q.1, e).
End Guard.

(** What a connection with transactions promises.  What is stored changes only by a
    commit, or outside of a transaction.  Statements that are [plain] do not end it, but
    one that fails may have rolled it back, and then those after it are outside.  A
    rollback ends it, unless its text could not be prepared. *)
Class Transactional (W D : Type) `{DbConn W} :=
  { fine : W -> Prop; stored : W -> D; opened : W -> bool; plain_sql : text -> Prop;
    leaves (e : err_t) (w w' : W) : Prop :=
      (opened w = false -> opened w' = false) /\ (opened w = true -> stored w' = stored w /\ (e = None -> opened w' = true));
    begin_law w : fine w -> opened w = false ->
      post begin w (fun e w' => fine w' /\ stored w' = stored w /\ opened w' = bool_decide (e = None));
    exec_law sql args w : fine w -> plain_sql sql -> post (exec sql args) w (fun r w' => fine w' /\ leaves (ec r) w w');
    query_law outs sql args w : fine w -> plain_sql sql -> post (query outs sql args) w (fun r w' => fine w' /\ leaves r.1 w w');
    commit_law w : fine w -> post commit w (fun e w' => fine w' /\ match e with
      | None => opened w' = false | Some _ => stored w' = stored w /\ (opened w = false -> opened w' = false) end);
    rollback_law w : fine w -> post rollback w (fun e w' => fine w' /\ stored w' = stored w /\ (opened w = false \/ e <> Some bad_message -> opened w' = false)) }.
End Db.

(** ** Owning a handle *)

Module Owner.
Section Owner.
(** An object has a handle, or null, and other members. *)
Context {I : Type}.
Record state := State { objects : gmap nat (option nat * I); live : gset nat; next : nat }.
Definition init : state := State ∅ ∅ 0.
Definition get (self : nat) (s : state) : option (option nat * I) := objects s !! self.
Definition put (self : nat) (x : option nat * I) (s : state) : option state :=
  let* _ := objects s !! self in Some (State (<[self := x]> (objects s)) (live s) (next s)).
Definition construct (self : nat) (i : I) (s : state) : option state :=
  match objects s !! self with Some _ => None | None => Some (State (<[self := (None, i)]> (objects s)) (live s) (next s)) end.
(** Freeing a handle that is not live is undefined. *)
Definition free (h : nat) (s : state) : option state :=
  if decide (h ∈ live s) then Some (State (objects s) (live s ∖ {[h]}) (next s)) else None.
Definition free_ptr (p : option nat) (s : state) : option state := match p with Some h => free h s | None => Some s end.
Definition close (self : nat) (s : state) : option state :=
  let* (p, i) := get self s in let* s := free_ptr p s in put self (None, i) s.
(** The library gives a new handle. *)
Definition open (self : nat) (i : I) (s : state) : option state :=
  put self (Some (next s), i) (State (objects s) ({[next s]} ∪ live s) (S (next s))).
(** [std::exchange(other._ptr, nullptr)]; [moved]: what is left of the other members. *)
Definition move_construct (moved : I -> I) (self other : nat) (s : state) : option state :=
  let* (p, i) := get other s in let* s := construct self i s in let* s := put other (None, moved i) s in put self (p, i) s.
Definition move_assign (moved : I -> I) (self other : nat) (s : state) : option state :=
  if self =? other then Some s else
  let* s := close self s in let* (p, i) := get other s in let* s := put other (None, moved i) s in put self (p, i) s.
Definition destroy (self : nat) (s : state) : option state :=
  let* s := close self s in Some (State (delete self (objects s)) (live s) (next s)).

(** Each live handle is of one object. *)
Record owned (s : state) : Prop :=
  { owned_live self h i : objects s !! self = Some (Some h, i) -> h ∈ live s;
    owned_by h : h ∈ live s -> exists self i, objects s !! self = Some (Some h, i);
    owned_once self other h i j : objects s !! self = Some (Some h, i) -> objects s !! other = Some (Some h, j) -> self = other;
    owned_next h : h ∈ live s -> h < next s }.
End Owner.
#[global] Arguments state : clear implicits.
End Owner.
