(* ===== verification/DbThm.v ===== *)
(** * Databases: theorems

    Tables of results by row and column; handles that are owned once, whatever is called;
    a guarded block that leaves no transaction open and, when it stops at the first
    failure, stores nothing without a commit, on every connection with transactions. *)

From Stdlib Require Import Ascii String ZArith Lia List Bool.
From stdpp Require Import base tactics list option gmap.
From S2P Require Import Prelude CText Db.

Open Scope hj_scope.
Open Scope nat_scope.
Import Db.

(** ** Tables *)

Lemma emplace_all_data l o : rows (emplace_all l o) = rows o /\ cols (emplace_all l o) = cols o /\ data (emplace_all l o) = data o ++ l.
Proof.
  unfold emplace_all. revert o. induction l as [|v l IH]; intros o; cbn; [now rewrite app_nil_r|]. destruct (IH (emplace_back v o)) as (-> & -> & ->).
  cbn. now rewrite <- app_assoc.
Qed.
(** The table of rows that have the same length. *)
Definition table (n : nat) (l : list (list out_val_t)) (o : ret_t) : Prop := rows o = length l /\ cols o = n /\ data o = concat l /\ Forall (fun r => length r = n) l.
Lemma concat_cell {A} n (l : list (list A)) r c x : Forall (fun r => length r = n) l -> c < n -> l !! r = Some x -> concat l !! (r * n + c) = x !! c.
Proof.
  intros H Hc. revert r. induction H as [|y l Hy H IH]; intros r Hr; [easy|]. destruct r as [|r]; cbn in Hr |- *.
  - injection Hr as ->. now rewrite lookup_app_l by lia.
  - rewrite lookup_app_r by lia. rewrite <- (IH r Hr). f_equal. lia.
Qed.
Lemma length_concat_same {A} n (l : list (list A)) : Forall (fun r => length r = n) l -> length (concat l) = length l * n.
Proof. induction 1 as [|y l Hy H IH]; cbn; [easy|]. rewrite length_app. lia. Qed.
Lemma table_get n l o r c : table n l o -> r < length l -> c < n -> get o r c = (l !! r) ≫= (.!! c) /\ row_view o r c = get o r c /\ is_Some (get o r c).
Proof.
  intros (Hr & Hc & Hd & Hf) Hlr Hlc. destruct (lookup_lt_is_Some_2 l r Hlr) as [x Ex].
  assert (Hx : length x = n) by (rewrite Forall_lookup in Hf; exact (Hf r x Ex)). pose proof (length_concat_same n l Hf) as Hlen.
  unfold row_view, row, get. rewrite Hr, Hc, Hd. destruct (Nat.ltb_spec r (length l)); [|lia]. destruct (Nat.ltb_spec c n); [|lia]. cbn [andb].
  pose proof (concat_cell n l r c x Hf Hlc Ex) as Hcell. destruct (Nat.ltb_spec (r * n) (length (concat l))); [|rewrite Hlen in *; nia].
  rewrite Hcell, Ex. split; [easy|]. split; [easy|]. apply lookup_lt_is_Some_2. lia.
Qed.
(** A column that does not exist is not refused through a row: it is in the next row. *)
Lemma row_view_runs_over : let o := emplace_all [out_int64 1; out_int64 2; out_int64 3; out_int64 4] (ret_dim 2 2) in
  row_view o 0 3 = Some (out_int64 4) /\ get o 0 3 = None /\ row_view o 1 2 = None.
Proof. repeat split. Qed.

(** ** Handles *)

Import Owner.
Section Owned.
Context {I : Type}.
Implicit Types s : Owner.state I.

Lemma owned_init : owned (init : Owner.state I).
Proof. split; cbn; [easy|easy|easy|easy]. Qed.
Ltac lk := repeat match goal with
  | H : context [<[?i := _]> _ !! ?j] |- _ => destruct (decide (i = j)) as [?|]; [subst; rewrite lookup_insert_eq in H|rewrite lookup_insert_ne in H by easy] end; simplify_eq.
Lemma put_owned s self p i j s' : owned s -> objects s !! self = Some (p, j) -> put self (p, i) s = Some s' -> owned s'.
Proof.
  intros [A B C D] E. unfold put. rewrite E. intros [= <-]. split; cbn.
  - intros o h k H. lk; eauto.
  - intros h Hh. destruct (B h Hh) as (o & k & Ho). destruct (decide (self = o)) as [->|]; [|exists o, k; now rewrite lookup_insert_ne].
    rewrite Ho in E. injection E as <- <-. exists o, i. now rewrite lookup_insert_eq.
  - intros o o' h k k' H1 H2. lk; eauto.
  - easy.
Qed.
Lemma construct_owned s self i s' : owned s -> construct self i s = Some s' -> owned s' /\ objects s' !! self = Some (None, i).
Proof.
  intros [A B C D]. unfold construct. destruct (objects s !! self) eqn:E; [easy|]. intros [= <-]. cbn. rewrite lookup_insert_eq. split; [|easy]. split; cbn.
  - intros o h k H. lk; eauto.
  - intros h Hh. destruct (B h Hh) as (o & k & Ho). exists o, k. rewrite lookup_insert_ne by congruence. easy.
  - intros o o' h k k' H1 H2. lk; eauto.
  - easy.
Qed.
Lemma close_owned s self p i : owned s -> objects s !! self = Some (p, i) ->
  exists s', close self s = Some s' /\ owned s' /\ objects s' = <[self := (None, i)]> (objects s) /\ next s' = next s /\ live s' = live s ∖ (match p with Some h => {[h]} | None => ∅ end).
Proof.
  intros [A B C D] E. unfold close, get. rewrite E. destruct p as [h|]; cbn.
  - unfold free. rewrite decide_True by (now apply (A self h i)). cbn. unfold put. cbn. rewrite E. eexists. split; [easy|]. split; [|easy]. split; cbn.
    + intros o h' k H. lk; pose proof (A o h' k H). assert (h <> h') by (intros ->; apply (C self o h' i k) in E; [congruence|easy]). set_solver.
    + intros h' Hh. apply elem_of_difference in Hh as [Hh Hn]. destruct (B h' Hh) as (o & k & Ho). exists o, k. rewrite lookup_insert_ne; [easy|]. intros ->. rewrite E in Ho. set_solver.
    + intros o o' h' k k' H1 H2. lk; eauto.
    + intros h' Hh. apply D. set_solver.
  - unfold put. rewrite E. eexists. split; [easy|]. split; [|cbn; split; [easy|split; [easy|set_solver]]]. split; cbn.
    + intros o h' k H. lk; eauto.
    + intros h' Hh. destruct (B h' Hh) as (o & k & Ho). exists o, k. rewrite lookup_insert_ne; [easy|congruence].
    + intros o o' h' k k' H1 H2. lk; eauto.
    + easy.
Qed.
Lemma open_owned s self i j : owned s -> objects s !! self = Some (None, j) ->
  exists s', open self i s = Some s' /\ owned s' /\ objects s' = <[self := (Some (next s), i)]> (objects s) /\ live s' = {[next s]} ∪ live s /\ next s' = S (next s).
Proof.
  intros [A B C D] E. unfold open, put. cbn. rewrite E. eexists. split; [easy|]. split; [|easy].
  assert (Hn : next s ∉ live s) by (intros H; apply D in H; lia). split; cbn.
  - intros o h k H. lk; [set_solver|]. pose proof (A o h k H). set_solver.
  - intros h Hh. apply elem_of_union in Hh as [Hh|Hh].
    + apply elem_of_singleton in Hh; subst h. exists self, i. now rewrite lookup_insert_eq.
    + destruct (B h Hh) as (o & k & Ho). exists o, k. rewrite lookup_insert_ne; [easy|congruence].
  - intros o o' h k k' H1 H2. lk; eauto; exfalso; apply Hn; eauto.
  - intros h Hh. apply elem_of_union in Hh as [Hh|Hh]; [apply elem_of_singleton in Hh; subst h; lia|]. apply D in Hh. lia.
Qed.
End Owned.

(** ** Transactions *)

Section Guarded.
Context {W D : Type} `{DbConn W} `{!Transactional W D}.

(** What a block uses is statements that leave transactions alone. *)
Definition plain_use (u : use) : Prop := match u with Exec sql _ | Query sql _ => plain_sql (D := D) sql | Commit => True end.
(** No statement follows a use that failed; a commit succeeded. *)
Definition is_commit (u : use) : bool := match u with Commit => true | _ => false end.
Fixpoint stops (l : list use) (rs : list err_t) : Prop :=
  match l, rs with u :: l, e :: rs => (e <> None -> forallb is_commit l = true) /\ stops l rs | _, _ => True end.
Fixpoint committed (l : list use) (rs : list err_t) : bool :=
  match l, rs with u :: l, e :: rs => (is_commit u && bool_decide (e = None)) || committed l rs | _, _ => false end.

(** A use by a guard that is active, or not. *)
Definition run_spec (l : list use) (b : bool) (w : W) (q : list err_t * bool) (w' : W) : Prop :=
  fine (D := D) w' /\ (q.2 = false -> opened (D := D) w' = false) /\
  (b = true -> committed l q.1 = false -> q.2 = true /\
    (stops l q.1 -> opened (D := D) w = true \/ forallb is_commit l = true -> stored (D := D) w' = stored (D := D) w)).
Lemma run_statement u l b w e w1 q w2 : is_commit u = false -> leaves (D := D) e w w1 -> run_spec l b w1 q w2 -> run_spec (u :: l) b w (e :: q.1, q.2) w2.
Proof.
  intros Hu [L1 L2] (K1 & K2 & K3). split; [exact K1|]. split; [exact K2|]. cbn. rewrite Hu. cbn. intros Hb Hc. destruct (K3 Hb Hc) as [Hq Hs]. split; [exact Hq|].
  intros [S1 S2] [Ho|Ho]; [|discriminate]. destruct (L2 Ho) as [E Hop]. rewrite <- E. apply Hs; [exact S2|]. destruct e as [e|]; [right; now apply S1|left; auto].
Qed.
Lemma run_post l : Forall plain_use l -> forall b w, fine (D := D) w -> (b = false -> opened (D := D) w = false) -> post (run l b) w (run_spec l b w).
Proof.
  induction 1 as [|u l Hu Hl IH]; intros b w Hw Hb; [apply post_ret; split; [exact Hw|]; split; [exact Hb|]; cbn; now repeat split|].
  destruct u as [sql args|sql args|]; cbn [run]; apply post_bind.
  - eapply post_weaken; [exact (exec_law sql args w Hw Hu)|]. intros r w1 [F1 L1]. apply post_bind. eapply post_weaken; [apply IH; [exact F1|intros E; now apply L1, Hb]|].
    intros q w2 K. apply post_ret. now apply run_statement with w1.
  - eapply post_weaken; [exact (query_law ret_new sql args w Hw Hu)|]. intros r w1 [F1 L1]. apply post_bind. eapply post_weaken; [apply IH; [exact F1|intros E; now apply L1, Hb]|].
    intros q w2 K. apply post_ret. now apply run_statement with w1.
  - unfold guard_commit. destruct b; cbn [negb].
    + apply post_bind. eapply post_weaken; [exact (commit_law w Hw)|]. intros e w1 [F1 H1]. apply post_ret. cbn. apply post_bind.
      eapply post_weaken; [apply IH; [exact F1|destruct e; [discriminate|auto]]|]. intros q w2 (K1 & K2 & K3). apply post_ret. split; [exact K1|]. split; [exact K2|]. cbn.
      destruct e as [e|]; cbn; [|discriminate]. intros _ Hc. destruct (K3 eq_refl Hc) as [Hq Hs]. split; [exact Hq|]. intros [S1 S2] _. rewrite <- (proj1 H1).
      apply Hs; [exact S2|]. right. now apply S1.
    + apply post_ret. cbn. apply post_bind. eapply post_weaken; [apply IH; [exact Hw|exact Hb]|]. intros q w2 (K1 & K2 & _). apply post_ret. split; [exact K1|]. split; [exact K2|]. cbn. discriminate.
Qed.
(** A block with a guard, on any connection with transactions, whatever fails in it: when
    it ends no transaction is open, unless the rollback could not be prepared; and if the
    transaction began, no commit succeeded and no statement followed a failure, what is
    stored is what was stored before. *)
Definition block_spec (l : list use) (w : W) (r : bool * list err_t * err_t) (w' : W) : Prop :=
  fine (D := D) w' /\ (r.2 <> Some bad_message -> opened (D := D) w' = false) /\
  (r.1.1 = true -> committed l r.1.2 = false -> stops l r.1.2 -> stored (D := D) w' = stored (D := D) w).
Lemma block_post l w : Forall plain_use l -> fine (D := D) w -> opened (D := D) w = false -> post (block l) w (block_spec l w).
Proof.
  intros Hl Hw Ho. unfold block, trans_guard. do 2 apply post_bind. eapply post_weaken; [exact (begin_law w Hw Ho)|]. intros e w1 (F1 & S1 & O1). apply post_ret.
  apply post_bind. eapply post_weaken; [apply (run_post l Hl _ w1 F1); congruence|]. intros [cs b] w2 (F2 & O2 & S2). cbn in *. apply post_bind. unfold guard_destroy.
  destruct b.
  - eapply post_weaken; [exact (rollback_law w2 F2)|]. intros e3 w3 (F3 & S3 & O3). apply post_ret. split; [exact F3|]. cbn. split; [auto|]. intros H1 H2 H3. rewrite S3, <- S1.
    destruct (S2 H1 H2) as [_ Hst]. apply Hst; [exact H3|]. left. now rewrite O1, H1.
  - do 2 apply post_ret. split; [exact F2|]. cbn. split; [auto|]. intros H1 H2. now destruct (S2 H1 H2).
Qed.
(** A block whose transaction did not begin says that it was committed. *)
Lemma commit_without_begin (w : W) : guard_commit false w = Some ((None, false), w).
Proof. reflexivity. Qed.
End Guarded.

(** ** A connection with transactions *)

(** A log: what is stored, and what the open transaction has on top; the statement
    "fail" fails, and so does a commit that follows it in its transaction; "full" fails
    and rolls the transaction back. *)
Module Log.
Record log := Log { kept : list text; working : option (list text); broken : bool }.
Definition do_exec (sql : text) (w : log) : exec_result * log :=
  if text_eqb sql (lit "fail") then (ExecResult (Some bad_message) 0 0, Log (kept w) (working w) true) else
  if text_eqb sql (lit "full") then (ExecResult (Some io_error) 0 0, Log (kept w) None (broken w)) else
  (ExecResult None 1 0, match working w with Some l => Log (kept w) (Some (l ++ [sql])) (broken w) | None => Log (kept w ++ [sql]) None (broken w) end).
#[export] Instance log_conn : DbConn log :=
  {| exec_impl sql _ := fun w => Some (do_exec sql w);
     query_impl outs sql _ := fun w => Some ((None, set_dim (length (kept w)) 1 outs), w);
     begin_impl := fun w => match working w with Some _ => Some (Some bad_message, w) | None => Some (None, Log (kept w) (Some (kept w)) false) end;
     commit_impl := fun w => match working w with
       | None => Some (Some bad_message, w)
       | Some l => if broken w then Some (Some bad_message, w) else Some (None, Log l None false) end;
     rollback_impl := fun w => match working w with None => Some (Some bad_message, w) | Some _ => Some (None, Log (kept w) None false) end |}.
#[export, refine] Instance log_transactional : Transactional log (list text) :=
  {| fine _ := True; stored := kept; opened w := match working w with Some _ => true | None => false end; plain_sql _ := True |}.
Proof.
  all: intros; destruct w as [k [l|] b]; unfold post, begin, exec, query, commit, rollback; cbn [begin_impl exec_impl query_impl commit_impl rollback_impl log_conn].
  all: unfold do_exec; repeat destruct (text_eqb _ _).
  all: repeat (case_match; simplify_eq); cbn in *; try discriminate; split_and!; try easy; try (intros [|]; easy).
Defined.
End Log.
Import Log.
Example log_block : forall l, l = [Exec (lit "a") []; Exec (lit "fail") []; Commit] ->
  post (block l) (Log [lit "x"] None false) (block_spec (D := list text) l (Log [lit "x"] None false)).
Proof. intros l ->. apply block_post; [repeat constructor|exact Logic.I|reflexivity]. Qed.
(** The guard does not notice that a failure rolled its transaction back: what follows is
    stored at once, though the only commit failed. *)
Lemma goes_on_after_rollback : block [Exec (lit "a") []; Exec (lit "full") []; Exec (lit "b") []; Commit] (Log [lit "x"] None false) =
  Some ((true, [None; Some io_error; None; Some bad_message], Some bad_message), Log [lit "x"; lit "b"] None false).
Proof. reflexivity. Qed.
