(* ===== verification/Sqlite.v ===== *)
(** * SQLite

    [db/sqlite.hpp]: a connection that owns a handle of the library.  The library's
    engine is a parameter; the world has the objects, the live handles, the engine and the
    live statements, so that a statement that is not finalised, or used after, shows. *)

From Stdlib Require Import Ascii String ZArith Lia List Bool.
From stdpp Require Import base tactics list option gmap.
From S2P Require Import Prelude CText Db.

Open Scope hj_scope.
Open Scope nat_scope.

Module Sqlite.
Export Db.

Definition SQLITE_OK : Z := 0.
Definition SQLITE_MISUSE : Z := 21.
Definition SQLITE_ROW : Z := 100.
Definition SQLITE_DONE : Z := 101.
(** What a column of a row is. *)
Inductive column_t := c_integer (z : Z) | c_float (d : Z) | c_text (t : text) | c_blob (t : text) | c_null.

(** ** The library *)

(** [D]: the engine; [P]: a prepared statement.  [prepare] gives an error, or a statement
    that is null when there is nothing to compile. *)
Record engine_t (D P : Type) := Engine
  { lib_open : D -> text -> Z * bool * D;
    lib_close : D -> nat -> D;
    lib_errmsg : D -> nat -> text;
    lib_prepare : D -> nat -> text -> Z -> option (option P) * D;
    lib_bind : D -> P -> Z -> val_in_t -> Z -> Z * P * D;
    lib_step : D -> P -> Z * P * D;
    lib_column_count : P -> nat;
    lib_column : P -> nat -> column_t;
    lib_changes : D -> nat -> Z;
    lib_rowid : D -> nat -> Z }.
#[global] Arguments lib_open {D P}. #[global] Arguments lib_close {D P}. #[global] Arguments lib_errmsg {D P}. #[global] Arguments lib_prepare {D P}. #[global] Arguments lib_bind {D P}.
#[global] Arguments lib_step {D P}. #[global] Arguments lib_column_count {D P}. #[global] Arguments lib_column {D P}. #[global] Arguments lib_changes {D P}. #[global] Arguments lib_rowid {D P}.

(** The other members: [_db_path] and [_last_err]. *)
Record info := Info { _db_path : text; _last_err : text }.
Record world (D P : Type) := World { own : Owner.state info; engine : D; stmts : gmap nat P; next_stmt : nat }.
#[global] Arguments World {D P}. #[global] Arguments own {D P}. #[global] Arguments engine {D P}. #[global] Arguments stmts {D P}. #[global] Arguments next_stmt {D P}.

Section Sqlite.
Context {D P : Type} (lib : engine_t D P).
Abbreviation M := (State.M (world D P)).

Definition with_own (f : Owner.state info -> option (Owner.state info)) : M unit :=
  fun w => let* o := f (own w) in Some (tt, World o (engine w) (stmts w) (next_stmt w)).
Definition set_engine (d : D) : M unit := modify (fun w => World (own w) d (stmts w) (next_stmt w)).
Definition get_object (self : nat) : M (option nat * info) := fun w => let* x := Owner.get self (own w) in Some (x, w).
Definition get_engine : M D := gets engine.
Definition set_error (self : nat) (e : text) : M unit :=
  with_own (fun o => let* (p, i) := Owner.get self o in Owner.put self (p, Info (_db_path i) e) o).
(** A handle that is used is live. *)
Definition live_db (h : nat) : M unit := fun w => if decide (h ∈ Owner.live (own w)) then Some (tt, w) else None.
(** [_last_err = sqlite3_errmsg(_db)] *)
Definition keep_error (self h : nat) : M unit := do _ <- live_db h; do d <- get_engine; set_error self (lib_errmsg lib d h).

(** *** Statements: null, or live *)
Definition new_stmt (p : option P) : M (option nat) :=
  match p with
  | None => ret None
  | Some p => fun w => Some (Some (next_stmt w), World (own w) (engine w) (<[next_stmt w := p]> (stmts w)) (S (next_stmt w)))
  end.
Definition get_stmt (s : nat) : M P := fun w => let* p := stmts w !! s in Some (p, w).
Definition put_stmt (s : nat) (p : P) : M unit := fun w => let* _ := stmts w !! s in Some (tt, World (own w) (engine w) (<[s := p]> (stmts w)) (next_stmt w)).
Definition finalize (s : option nat) : M unit :=
  match s with
  | None => ret tt
  | Some s => fun w => let* _ := stmts w !! s in Some (tt, World (own w) (engine w) (delete s (stmts w)) (next_stmt w))
  end.
Definition prepare (h : nat) (sql : text) (n : Z) : M (option (option nat)) :=
  do _ <- live_db h; do d <- get_engine;
  let '(r, d) := lib_prepare lib d h sql n in do _ <- set_engine d;
  match r with None => ret None | Some p => do s <- new_stmt p; ret (Some s) end.
Definition bind_value (s : option nat) (idx : Z) (v : val_in_t) (n : Z) : M Z :=
  match s with
  | None => ret SQLITE_MISUSE
  | Some s => do p <- get_stmt s; do d <- get_engine; let '(rc, p, d) := lib_bind lib d p idx v n in do _ <- set_engine d; do _ <- put_stmt s p; ret rc
  end.
Definition step (s : option nat) : M Z :=
  match s with
  | None => ret SQLITE_MISUSE
  | Some s => do p <- get_stmt s; do d <- get_engine; let '(rc, p, d) := lib_step lib d p in do _ <- set_engine d; do _ <- put_stmt s p; ret rc
  end.

(** ** The class *)

Definition sqlite (self : nat) : M unit := with_own (Owner.construct self (Info [] [])).
(** [sqlite3_close_v2] also of what is left of a failed open. *)
Definition close (self : nat) : M unit :=
  do p <- get_object self;
  match p.1 with
  | None => ret tt
  | Some h => do _ <- live_db h; do d <- get_engine; do _ <- set_engine (lib_close lib d h); with_own (Owner.close self)
  end.
Definition open (self : nat) (filename : text) : M bool :=
  do _ <- close self;
  do _ <- set_error self [];
  do d <- get_engine;
  let '(rc, handle, d) := lib_open lib d (c_string filename) in
  do _ <- set_engine d;
  do x <- get_object self; let '(_, i) := x in
  do _ <- (if (handle : bool) then with_own (Owner.open self i) else ret tt);
  if (rc =? SQLITE_OK)%Z then do y <- get_object self; do _ <- with_own (Owner.put self (y.1, Info filename (_last_err i))); ret true else
  do y <- get_object self;
  match y.1 with
  | Some h => do _ <- keep_error self h; do d <- get_engine; do _ <- set_engine (lib_close lib d h); do _ <- with_own (Owner.close self); ret false
  | None => do _ <- set_error self (lit "Failed to allocate sqlite memory"); ret false
  end.
Definition is_open (self : nat) : M bool := do x <- get_object self; ret (bool_decide (x.1 <> None)).
Definition get_last_error (self : nat) : M text := do x <- get_object self; ret (_last_err x.2).
Definition path (self : nat) : M text := do x <- get_object self; ret (_db_path x.2).
(** A string that was moved from is empty. *)
Definition moved (i : info) : info := Info [] [].
Definition sqlite_move (self other : nat) : M unit := with_own (Owner.move_construct moved self other).
Definition assign_move (self other : nat) : M unit :=
  if self =? other then ret tt else do _ <- close self; with_own (Owner.move_assign moved self other).
Definition destroy (self : nat) : M unit := do _ <- close self; with_own (Owner.destroy self).

(** [_bind_stmt_args]: the length of texts and blobs is an [int]. *)
Definition value_length (v : val_in_t) : Z := match v with in_text t | in_blob t => sint_of 32 (Z.of_nat (length (seen t))) | _ => 0%Z end.
Fixpoint bind_stmt_args (self h : nat) (stmt : option nat) (i : nat) (args : list val_in_t) : M bool :=
  match args with
  | [] => ret true
  | a :: args =>
      do rc <- bind_value stmt (Z.of_nat i + 1) a (value_length a);
      if (rc =? SQLITE_OK)%Z then bind_stmt_args self h stmt (S i) args else do _ <- keep_error self h; ret false
  end.
Definition failed (e : errc) : exec_result := ExecResult (Some e) 0 0.
Definition exec_sqlite (self : nat) (sql : text) (args : list val_in_t) : M exec_result :=
  do x <- get_object self;
  match x.1 with
  | None => ret (failed not_connected)
  | Some h =>
      do r <- prepare h sql (sint_of 32 (Z.of_nat (length sql)));
      match r with
      | None => do _ <- keep_error self h; ret (failed bad_message)
      | Some stmt =>
          do bound <- bind_stmt_args self h stmt 0 args;
          if negb bound then do _ <- finalize stmt; ret (failed invalid_argument) else
          do rc <- step stmt;
          do res <- (if (rc =? SQLITE_DONE)%Z || (rc =? SQLITE_ROW)%Z then do _ <- live_db h; do d <- get_engine; ret (ExecResult None (lib_changes lib d h) (lib_rowid lib d h))
                     else do _ <- keep_error self h; ret (failed io_error));
          do _ <- finalize stmt; ret res
      end
  end.

Definition out_of (c : column_t) : out_val_t :=
  match c with c_integer z => out_int64 z | c_float d => out_double d | c_text t => out_text t | c_blob t => out_blob t | c_null => out_null end.
Definition columns (p : P) (cols : nat) : list out_val_t := map (fun c => out_of (lib_column lib p c)) (seq 0 cols).
Definition column_count (s : option nat) : M nat := match s with None => ret 0 | Some s => do p <- get_stmt s; ret (lib_column_count lib p) end.
(** The loop: the values of the rows, how many rows, the last code. *)
Fixpoint fetch (fuel : nat) (stmt : option nat) (cols : nat) (temp_data : list out_val_t) (rows_cnt : nat) : M (list out_val_t * nat * Z) :=
  match fuel with
  | O => undefined
  | S fuel =>
      do rc <- step stmt;
      if (rc =? SQLITE_ROW)%Z then
        do vs <- (match stmt with Some s => do p <- get_stmt s; ret (columns p cols) | None => ret [] end);
        fetch fuel stmt cols (temp_data ++ vs) (S rows_cnt)
      else ret (temp_data, rows_cnt, rc)
  end.
Definition query_sqlite (fuel : nat) (self : nat) (outs : ret_t) (sql : text) (args : list val_in_t) : M (err_t * ret_t) :=
  do x <- get_object self;
  match x.1 with
  | None => ret (Some not_connected, outs)
  | Some h =>
      do r <- prepare h sql (sint_of 32 (Z.of_nat (length sql)));
      match r with
      | None => do _ <- keep_error self h; ret (Some bad_message, outs)
      | Some stmt =>
          do bound <- bind_stmt_args self h stmt 0 args;
          if negb bound then do _ <- finalize stmt; ret (Some invalid_argument, outs) else
          do cols <- column_count stmt;
          do q <- fetch fuel stmt cols [] 0; let '(temp_data, rows_cnt, rc) := q in
          do _ <- finalize stmt;
          if negb (rc =? SQLITE_DONE)%Z then do _ <- keep_error self h; ret (Some io_error, outs) else
          ret (None, emplace_all temp_data (set_dim rows_cnt cols outs))
      end
  end.
Definition begin_sqlite (self : nat) : M err_t := do r <- exec_sqlite self (lit "BEGIN TRANSACTION;") []; ret (ec r).
Definition commit_sqlite (self : nat) : M err_t := do r <- exec_sqlite self (lit "COMMIT;") []; ret (ec r).
Definition rollback_sqlite (self : nat) : M err_t := do r <- exec_sqlite self (lit "ROLLBACK;") []; ret (ec r).
(** An object is a connection. *)
Definition sqlite_conn (fuel self : nat) : DbConn (world D P) :=
  {| exec_impl := exec_sqlite self; query_impl := query_sqlite fuel self; begin_impl := begin_sqlite self; commit_impl := commit_sqlite self; rollback_impl := rollback_sqlite self |}.
End Sqlite.
End Sqlite.
