(* ===== verification/SqliteThm.v ===== *)
(** * SQLite: theorems

    Every operation uses live handles and live statements only, finalises its statement on
    every path and leaves each handle with one object; a query gives the rows of the
    statement as a table; a connection over an engine with transactions keeps the promises
    of [Transactional], so a block with a guard that stops at its first failure
    is atomic; and where the code does otherwise than it means to. *)

From Stdlib Require Import Ascii String ZArith Lia List Bool.
From stdpp Require Import base tactics list option gmap.
From S2P Require Import Prelude CText Db DbThm Sqlite.

Open Scope hj_scope.
Open Scope nat_scope.
Import Owner Sqlite.

Section Engine.
Context {D P : Type} (lib : engine_t D P).
Implicit Types w : world D P.

(** ** Frames *)

Record good w : Prop := { g_own : owned (own w); g_stmts s : next_stmt w <= s -> stmts w !! s = None }.
(** The object has that handle. *)
Definition at_ (self h : nat) w : Prop := exists i, objects (own w) !! self = Some (Some h, i).
(** Who has which handle does not change. *)
Definition frame w w' : Prop :=
  owned (own w') /\ live (own w') = live (own w) /\ Owner.next (own w') = Owner.next (own w) /\ (forall o, fst <$> objects (own w') !! o = fst <$> objects (own w) !! o).

Lemma frame_refl w : owned (own w) -> frame w w.
Proof. intros H. split; [exact H|easy]. Qed.
Lemma frame_trans w1 w2 w3 : frame w1 w2 -> frame w2 w3 -> frame w1 w3.
Proof. intros (A & B & C & E) (A' & B' & C' & E'). split; [easy|]. split; [congruence|]. split; [congruence|]. intros o. now rewrite E'. Qed.
Lemma frame_at self h w w' : frame w w' -> at_ self h w -> at_ self h w'.
Proof.
  intros (_ & _ & _ & E) [i Hi]. specialize (E self). rewrite Hi in E. unfold at_. destruct (objects (own w') !! self) as [[p j]|]; cbn in E; [|easy].
  injection E as ->. now exists j.
Qed.
Lemma frame_own w w' : own w' = own w -> owned (own w) -> frame w w'.
Proof. intros E H. unfold frame. now rewrite E. Qed.

Lemma set_error_post self h e w : owned (own w) -> at_ self h w ->
  post (set_error self e) w (fun _ w' => frame w w' /\ engine w' = engine w /\ stmts w' = stmts w /\ next_stmt w' = next_stmt w).
Proof.
  intros Ho [i Hi]. unfold set_error, with_own, post, Owner.get. rewrite Hi. unfold put. rewrite Hi. cbn. split; [|easy]. unfold frame. cbn. split; [|split; [easy|split; [easy|]]].
  - apply (put_owned (own w) self (Some h) (Info (_db_path i) e) i); [easy|easy|]. unfold put. now rewrite Hi.
  - intros o. destruct (decide (self = o)) as [<-|]; [rewrite lookup_insert_eq, Hi; easy|now rewrite lookup_insert_ne].
Qed.
Lemma at_live self h w : owned (own w) -> at_ self h w -> h ∈ live (own w).
Proof. intros Ho [i Hi]. exact (owned_live _ Ho _ _ _ Hi). Qed.
Lemma live_db_post h w (Q : unit -> world D P -> Prop) : h ∈ live (own w) -> Q tt w -> post (live_db h) w Q.
Proof. intros Hh HQ. unfold live_db, post. now rewrite decide_True by easy. Qed.
Lemma keep_error_post self h w : owned (own w) -> at_ self h w ->
  post (keep_error lib self h) w (fun _ w' => frame w w' /\ engine w' = engine w /\ stmts w' = stmts w /\ next_stmt w' = next_stmt w).
Proof.
  intros Ho Ha. unfold keep_error. apply post_bind, live_db_post; [exact (at_live _ _ _ Ho Ha)|]. apply post_bind, post_gets. now apply (set_error_post self h).
Qed.
Lemma get_object_post self h w (Q : option nat * info -> world D P -> Prop) : at_ self h w -> (forall i, Q (Some h, i) w) -> post (get_object self) w Q.
Proof. intros [i Hi] HQ. unfold get_object, post, Owner.get. rewrite Hi. apply HQ. Qed.

(** ** What an operation does to the engine *)

(** The values are given to the statement, one after the other, until one is refused. *)
Fixpoint bind_spec (d : D) (p : P) (i : nat) (args : list val_in_t) : bool * D * P :=
  match args with
  | [] => (true, d, p)
  | a :: args => let '(rc, p, d) := lib_bind lib d p (Z.of_nat i + 1) a (value_length a) in if (rc =? SQLITE_OK)%Z then bind_spec d p (S i) args else (false, d, p)
  end.
Definition text_length (t : text) : Z := sint_of 32 (Z.of_nat (length t)).
Definition exec_spec (d : D) (h : nat) (sql : text) (args : list val_in_t) : exec_result * D :=
  match lib_prepare lib d h sql (text_length sql) with
  | (None, d) => (failed bad_message, d)
  | (Some None, d) => (failed match args with [] => io_error | _ => invalid_argument end, d)
  | (Some (Some p), d) =>
      let '(b, d, p) := bind_spec d p 0 args in
      if negb b then (failed invalid_argument, d) else
      let '(rc, _, d) := lib_step lib d p in
      (if (rc =? SQLITE_DONE)%Z || (rc =? SQLITE_ROW)%Z then ExecResult None (lib_changes lib d h) (lib_rowid lib d h) else failed io_error, d)
  end.
(** The rows of a statement, up to the last code. *)
Inductive yields (cols : nat) : P -> D -> list (list out_val_t) -> Z -> D -> Prop :=
| yields_end p d rc p' d' : lib_step lib d p = (rc, p', d') -> rc <> SQLITE_ROW -> yields cols p d [] rc d'
| yields_row p d p1 d1 rows rc d' : lib_step lib d p = (SQLITE_ROW, p1, d1) -> yields cols p1 d1 rows rc d' -> yields cols p d (columns lib p1 cols :: rows) rc d'.

(** A statement that is at work. *)
Definition working (s : nat) (p : P) w w' : Prop := frame w w' /\ stmts w' = <[s := p]> (stmts w) /\ next_stmt w' = next_stmt w.
Lemma bind_post self h s args : forall i w p, good w -> at_ self h w -> stmts w !! s = Some p ->
  post (bind_stmt_args lib self h (Some s) i args) w (fun b w' => exists p', bind_spec (engine w) p i args = (b, engine w', p') /\ working s p' w w').
Proof.
  induction args as [|a args IH]; intros i w p Hg Ha Hs; cbn [bind_stmt_args bind_spec].
  - apply post_ret. exists p. split; [easy|]. split; [apply frame_refl, Hg|]. split; [now rewrite insert_id|easy].
  - apply post_bind. unfold bind_value, get_stmt, get_engine, set_engine, put_stmt, bind, gets, modify, post, ret. rewrite Hs. cbn [fst snd].
    destruct (lib_bind lib (engine w) p (Z.of_nat i + 1) a (value_length a)) as [[rc p1] d1] eqn:E. cbn. rewrite Hs. cbn.
    set (w1 := World (own w) d1 (<[s := p1]> (stmts w)) (next_stmt w)).
    assert (Hg1 : good w1). { split; [apply Hg|]. cbn. intros k Hk. destruct (decide (s = k)) as [<-|]; [rewrite (g_stmts w Hg s Hk) in Hs; easy|]. rewrite lookup_insert_ne by easy. now apply (g_stmts w Hg). }
    assert (Hf1 : frame w w1) by (apply frame_own; [easy|apply Hg]).
    destruct (rc =? SQLITE_OK)%Z eqn:Erc.
    + pose proof (IH (S i) w1 p1 Hg1 (frame_at _ _ _ _ Hf1 Ha) ltac:(cbn; apply lookup_insert_eq)) as IH'. unfold post in IH' |- *.
      destruct (bind_stmt_args lib self h (Some s) (S i) args w1) as [[b w']|]; [|easy]. destruct IH' as (p' & E1 & Hf & Hst & Hn). exists p'. split; [exact E1|].
      split; [now apply (frame_trans w w1)|]. split; [rewrite Hst; cbn; now rewrite insert_insert_eq|easy].
    + pose proof (keep_error_post self h w1 (g_own w1 Hg1) (frame_at _ _ _ _ Hf1 Ha)) as K. unfold post, bind, ret in *.
      destruct (keep_error lib self h w1) as [[u w']|]; [|easy]. destruct K as (Hf & He & Hst & Hn). exists p1. split; [now rewrite He|].
      split; [now apply (frame_trans w w1)|]. now rewrite Hst, Hn.
Qed.
Lemma bind_null_post self h args i w : good w -> at_ self h w ->
  post (bind_stmt_args lib self h None i args) w (fun b w' => b = (match args with [] => true | _ => false end) /\ frame w w' /\ engine w' = engine w /\ stmts w' = stmts w /\ next_stmt w' = next_stmt w).
Proof.
  intros Hg Ha. destruct args as [|a args]; cbn [bind_stmt_args]; [apply post_ret; split; [easy|]; split; [apply frame_refl, Hg|easy]|].
  apply post_bind. apply post_ret. cbn. apply post_bind. eapply post_weaken; [exact (keep_error_post self h w (g_own w Hg) Ha)|]. intros ? w' K. apply post_ret. now split.
Qed.

(** Preparing: nothing, or a new statement. *)
Lemma prepare_post self h sql n w : good w -> at_ self h w ->
  post (prepare lib h sql n) w (fun r w' => frame w w' /\ good w' /\
    match lib_prepare lib (engine w) h sql n with
    | (None, d) => r = None /\ engine w' = d /\ stmts w' = stmts w
    | (Some None, d) => r = Some None /\ engine w' = d /\ stmts w' = stmts w
    | (Some (Some p), d) => r = Some (Some (next_stmt w)) /\ engine w' = d /\ stmts w' = <[next_stmt w := p]> (stmts w)
    end).
Proof.
  intros Hg Ha. unfold prepare. apply post_bind, live_db_post; [apply (at_live self); [apply Hg|easy]|]. apply post_bind, post_gets.
  destruct (lib_prepare lib (engine w) h sql n) as [[[p|]|] d] eqn:E; apply post_bind, post_modify; cbn.
  - unfold post, bind, ret. cbn. split; [apply frame_own; [easy|apply Hg]|]. split; [|easy]. split; [apply Hg|]. cbn. intros s Hs. rewrite lookup_insert_ne by lia. apply (g_stmts w Hg). lia.
  - unfold post, bind, ret. cbn. split; [apply frame_own; [easy|apply Hg]|]. split; [|easy]. split; [apply Hg|]. exact (g_stmts w Hg).
  - unfold post, ret. cbn. split; [apply frame_own; [easy|apply Hg]|]. split; [|easy]. split; [apply Hg|]. exact (g_stmts w Hg).
Qed.
(** After an operation: the handles, and the statements, are those there were. *)
Definition after w w' : Prop := frame w w' /\ good w' /\ stmts w' = stmts w.
Lemma finalize_post w s p w' : stmts w !! s = None -> good w -> frame w w' -> good w' -> stmts w' = <[s := p]> (stmts w) ->
  post (finalize (Some s)) w' (fun _ w'' => after w w'' /\ engine w'' = engine w').
Proof.
  intros Hs Hg Hf Hg' E. unfold finalize, post. rewrite E, lookup_insert_eq. cbn. split; [|easy].
  assert (Ed : delete s (<[s := p]> (stmts w)) = stmts w) by now apply delete_insert_id. split; [exact Hf|]. split; [|exact Ed].
  split; [apply Hg'|]. cbn. rewrite Ed. intros k Hk. destruct (stmts w !! k) eqn:Ek; [|easy]. pose proof (g_stmts w' Hg' k Hk) as H. rewrite E in H.
  destruct (decide (s = k)) as [<-|]; [congruence|]. rewrite lookup_insert_ne in H by easy. congruence.
Qed.
Lemma working_good s p w w' : good w -> working s p w w' -> is_Some (stmts w !! s) -> good w'.
Proof.
  intros Hg (Hf & Hs & Hn) [q Hq]. split; [apply Hf|]. rewrite Hs, Hn. intros k Hk. destruct (decide (s = k)) as [<-|]; [rewrite (g_stmts w Hg s Hk) in Hq; easy|].
  rewrite lookup_insert_ne by easy. now apply (g_stmts w Hg).
Qed.
Lemma step_post s p w (Q : Z -> world D P -> Prop) : stmts w !! s = Some p ->
  (forall rc p' d, lib_step lib (engine w) p = (rc, p', d) -> Q rc (World (own w) d (<[s := p']> (stmts w)) (next_stmt w))) -> post (step lib (Some s)) w Q.
Proof.
  intros Hs HQ. unfold step, get_stmt, get_engine, set_engine, put_stmt, bind, gets, modify, post, ret. rewrite Hs. cbn.
  destruct (lib_step lib (engine w) p) as [[rc p'] d] eqn:E. cbn. rewrite Hs. cbn. now apply HQ.
Qed.
Lemma exec_post self h sql args w : good w -> at_ self h w ->
  post (exec_sqlite lib self sql args) w (fun r w' => after w w' /\ (r, engine w') = exec_spec (engine w) h sql args).
Proof.
  intros Hg Ha. unfold exec_sqlite, exec_spec. apply post_bind, (get_object_post self h); [easy|]. intros i. cbn [fst].
  apply post_bind. eapply post_weaken; [exact (prepare_post self h sql (text_length sql) w Hg Ha)|]. intros r w1 (F1 & G1 & H1).
  fold (text_length sql). pose proof (frame_at _ _ _ _ F1 Ha) as A1. destruct (lib_prepare lib (engine w) h sql (text_length sql)) as [[[p|]|] d]; destruct H1 as (-> & E1 & S1).
  - apply post_bind. pose proof (bind_post self h (next_stmt w) args 0 w1 p G1 A1) as B. rewrite S1, lookup_insert_eq in B. eapply post_weaken; [exact (B eq_refl)|].
    intros b w2 (p2 & E2 & W2). rewrite E1 in E2. rewrite E2. assert (F2 := frame_trans _ _ _ F1 (proj1 W2)). assert (G2 : good w2) by (apply (working_good _ p2 w1 w2 G1 W2); rewrite S1, lookup_insert_eq; now eexists).
    assert (S2 : stmts w2 = <[next_stmt w := p2]> (stmts w)) by (destruct W2 as (_ & -> & _); rewrite S1; apply insert_insert_eq).
    assert (Hn : stmts w !! next_stmt w = None) by (apply (g_stmts w Hg); lia).
    destruct b; cbn [negb].
    + apply post_bind. apply (step_post _ p2); [rewrite S2; apply lookup_insert_eq|]. intros rc p3 d3 E3. rewrite E3. set (w3 := World _ _ _ _).
      assert (W3 : working (next_stmt w) p3 w2 w3) by (split; [apply frame_own; [easy|apply G2]|easy]).
      assert (G3 : good w3) by (apply (working_good _ p3 w2 w3 G2 W3); rewrite S2, lookup_insert_eq; now eexists). assert (F3 := frame_trans _ _ _ F2 (proj1 W3)).
      assert (S3 : stmts w3 = <[next_stmt w := p3]> (stmts w)) by (cbn; rewrite S2; apply insert_insert_eq).
      assert (A3 := frame_at _ _ _ _ F3 Ha). apply post_bind. destruct ((rc =? SQLITE_DONE)%Z || (rc =? SQLITE_ROW)%Z).
      * apply post_bind, live_db_post; [apply (at_live self); [apply G3|easy]|]. apply post_bind, post_gets, post_ret. apply post_bind.
        eapply post_weaken; [exact (finalize_post w _ p3 w3 Hn Hg F3 G3 S3)|]. intros ? w4 [H4 E4]. apply post_ret. split; [exact H4|]. now rewrite E4.
      * apply post_bind. eapply post_weaken; [exact (keep_error_post self h w3 (g_own w3 G3) A3)|]. intros ? w4 (F4 & E4 & S4 & N4). apply post_ret. apply post_bind.
        assert (G4 : good w4) by (split; [apply F4|rewrite S4, N4; apply G3]).
        eapply post_weaken; [refine (finalize_post w _ p3 w4 Hn Hg (frame_trans _ _ _ F3 F4) G4 _); now rewrite S4|]. intros ? w5 [H5 E5]. apply post_ret. split; [exact H5|]. now rewrite E5, E4.
    + apply post_bind. eapply post_weaken; [exact (finalize_post w _ p2 w2 Hn Hg F2 G2 S2)|]. intros ? w4 [H4 E4]. apply post_ret. split; [exact H4|]. now rewrite E4.
  - apply post_bind. eapply post_weaken; [exact (bind_null_post self h args 0 w1 G1 A1)|]. intros b w2 (-> & F2 & E2 & S2 & N2).
    assert (G2 : good w2) by (split; [apply F2|rewrite S2, N2; apply G1]). assert (A2 := frame_at _ _ _ _ F2 A1).
    destruct args as [|a args]; cbn [negb].
    + apply post_bind, post_ret. cbn. apply post_bind. apply post_bind. eapply post_weaken; [exact (keep_error_post self h w2 (g_own w2 G2) A2)|]. intros ? w3 (F3 & E3 & S3 & N3).
      apply post_ret. apply post_bind, post_ret, post_ret. split; [|congruence]. split; [exact (frame_trans _ _ _ F1 (frame_trans _ _ _ F2 F3))|]. split; [split; [apply F3|rewrite S3, N3; apply G2]|congruence].
    + apply post_bind, post_ret, post_ret. split; [|congruence]. split; [exact (frame_trans _ _ _ F1 F2)|]. split; [easy|congruence].
  - apply post_bind. eapply post_weaken; [exact (keep_error_post self h w1 (g_own w1 G1) A1)|]. intros ? w3 (F3 & E3 & S3 & N3). apply post_ret.
    split; [|congruence]. split; [exact (frame_trans _ _ _ F1 F3)|]. split; [split; [apply F3|rewrite S3, N3; apply G1]|congruence].
Qed.

(** ** Queries *)

Lemma columns_length p n : length (columns lib p n) = n.
Proof. unfold columns. now rewrite length_map, length_seq. Qed.
Lemma yields_width cols p d rows rc d' : yields cols p d rows rc d' -> Forall (fun r => length r = cols) rows.
Proof. induction 1; constructor; [apply columns_length|easy]. Qed.
Lemma fetch_post s cols fuel : forall w p tmp cnt rows rc d', good w -> stmts w !! s = Some p -> yields cols p (engine w) rows rc d' -> length rows < fuel ->
  post (fetch lib fuel (Some s) cols tmp cnt) w (fun q w' => q = (tmp ++ concat rows, cnt + length rows, rc) /\ engine w' = d' /\ exists p', working s p' w w').
Proof.
  induction fuel as [|fuel IH]; intros w p tmp cnt rows rc d' Hg Hs Hy Hf; [lia|]. cbn [fetch]. apply post_bind. apply (step_post _ p _ _ Hs).
  intros rc1 p1 d1 E1. set (w1 := World (own w) d1 (<[s := p1]> (stmts w)) (next_stmt w)). assert (W1 : working s p1 w w1) by (split; [apply frame_own; [easy|apply Hg]|easy]).
  assert (G1 : good w1) by (apply (working_good s p1 w w1 Hg W1); exists p; exact Hs). assert (S1 : stmts w1 !! s = Some p1) by apply lookup_insert_eq.
  inversion Hy as [? ? ? ? ? E Hr|? ? p2 d2 rows' ? ? E Hy']; subst; rewrite E in E1; injection E1 as <- <- <-.
  - destruct (Z.eqb_spec rc SQLITE_ROW); [easy|]. apply post_ret. cbn. rewrite app_nil_r, Nat.add_0_r. split; [easy|]. split; [easy|]. now exists p'.
  - rewrite Z.eqb_refl. apply post_bind. unfold get_stmt. apply post_bind. unfold post at 1. rewrite S1. apply post_ret.
    eapply post_weaken; [refine (IH w1 p2 (tmp ++ columns lib p2 cols) (S cnt) rows' rc d' G1 S1 _ _); [exact Hy'|cbn in Hf; lia]|].
    intros q w' (-> & E' & p' & (F & S' & N')). split; [cbn; rewrite <- app_assoc; now rewrite Nat.add_succ_r|]. split; [easy|]. exists p'.
    split; [exact (frame_trans _ _ _ (proj1 W1) F)|]. split; [rewrite S'; cbn; apply insert_insert_eq|easy].
Qed.
(** Every statement comes to an end, before the fuel does. *)
Definition halts (fuel : nat) : Prop := 0 < fuel /\ forall p d, exists rows rc d', yields (lib_column_count lib p) p d rows rc d' /\ length rows < fuel.
(** What a query gives, and what it does to the engine. *)
Definition query_answers (h : nat) (outs : ret_t) (sql : text) (args : list val_in_t) (d : D) (r : err_t * ret_t) (d' : D) : Prop :=
  match lib_prepare lib d h sql (text_length sql) with
  | (None, d1) => r = (Some bad_message, outs) /\ d' = d1
  | (Some None, d1) => r = (Some match args with [] => io_error | _ => invalid_argument end, outs) /\ d' = d1
  | (Some (Some p), d1) =>
      let '(b, d2, p2) := bind_spec d1 p 0 args in
      if negb b then r = (Some invalid_argument, outs) /\ d' = d2 else
      exists rows rc, yields (lib_column_count lib p2) p2 d2 rows rc d' /\
        if (rc =? SQLITE_DONE)%Z then r.1 = None /\ table (lib_column_count lib p2) rows r.2 else r = (Some io_error, outs)
  end.
Lemma query_post fuel self h outs sql args w : halts fuel -> good w -> at_ self h w ->
  post (query_sqlite lib fuel self outs sql args) w (fun r w' => after w w' /\ query_answers h outs sql args (engine w) r (engine w')).
Proof.
  intros [Hf0 Hh] Hg Ha. unfold query_sqlite, query_answers. apply post_bind, (get_object_post self h); [easy|]. intros i. cbn [fst].
  apply post_bind. eapply post_weaken; [exact (prepare_post self h sql (text_length sql) w Hg Ha)|]. intros r w1 (F1 & G1 & H1).
  fold (text_length sql). pose proof (frame_at _ _ _ _ F1 Ha) as A1. destruct (lib_prepare lib (engine w) h sql (text_length sql)) as [[[p|]|] d]; destruct H1 as (-> & E1 & S1).
  - apply post_bind. pose proof (bind_post self h (next_stmt w) args 0 w1 p G1 A1) as B. rewrite S1, lookup_insert_eq in B. eapply post_weaken; [exact (B eq_refl)|].
    intros b w2 (p2 & E2 & W2). rewrite E1 in E2. rewrite E2. assert (F2 := frame_trans _ _ _ F1 (proj1 W2)). assert (G2 : good w2) by (apply (working_good _ p2 w1 w2 G1 W2); rewrite S1, lookup_insert_eq; now eexists).
    assert (S2 : stmts w2 = <[next_stmt w := p2]> (stmts w)) by (destruct W2 as (_ & -> & _); rewrite S1; apply insert_insert_eq).
    assert (Hn : stmts w !! next_stmt w = None) by (apply (g_stmts w Hg); lia). assert (L2 : stmts w2 !! next_stmt w = Some p2) by (rewrite S2; apply lookup_insert_eq).
    destruct b; cbn [negb].
    + apply post_bind. unfold column_count, get_stmt. apply post_bind. unfold post at 1. rewrite L2. apply post_ret.
      destruct (Hh p2 (engine w2)) as (rows & rc & d3 & Hy & Hl). apply post_bind. eapply post_weaken; [exact (fetch_post _ _ fuel w2 p2 [] 0 rows rc d3 G2 L2 Hy Hl)|].
      intros q w3 (-> & E3 & p3 & W3). cbn [app Nat.add].
      assert (G3 : good w3) by (apply (working_good _ p3 w2 w3 G2 W3); exists p2; exact L2). assert (F3 := frame_trans _ _ _ F2 (proj1 W3)).
      assert (S3 : stmts w3 = <[next_stmt w := p3]> (stmts w)) by (destruct W3 as (_ & -> & _); rewrite S2; apply insert_insert_eq).
      apply post_bind. eapply post_weaken; [exact (finalize_post w _ p3 w3 Hn Hg F3 G3 S3)|]. intros ? w4 [(F4 & G4 & S4) E4].
      destruct (rc =? SQLITE_DONE)%Z eqn:Erc; cbn [negb].
      * apply post_ret. split; [exact (conj F4 (conj G4 S4))|]. exists rows, rc. rewrite E4, E3, Erc. split; [easy|]. split; [easy|]. unfold table. cbn [snd].
        destruct (emplace_all_data (concat rows) (set_dim (length rows) (lib_column_count lib p2) outs)) as (-> & -> & ->). cbn. split; [easy|]. split; [easy|]. split; [easy|]. exact (yields_width _ _ _ _ _ _ Hy).
      * apply post_bind. eapply post_weaken; [exact (keep_error_post self h w4 (g_own w4 G4) (frame_at _ _ _ _ F4 Ha))|]. intros ? w5 (F5 & E5 & S5 & N5). apply post_ret.
        split; [split; [exact (frame_trans _ _ _ F4 F5)|split; [split; [apply F5|rewrite S5, N5; apply G4]|congruence]]|]. exists rows, rc. rewrite E5, E4, E3, Erc. now split.
    + apply post_bind. eapply post_weaken; [exact (finalize_post w _ p2 w2 Hn Hg F2 G2 S2)|]. intros ? w4 [H4 E4]. apply post_ret. split; [exact H4|]. now rewrite E4.
  - apply post_bind. eapply post_weaken; [exact (bind_null_post self h args 0 w1 G1 A1)|]. intros b w2 (-> & F2 & E2 & S2 & N2).
    assert (G2 : good w2) by (split; [apply F2|rewrite S2, N2; apply G1]). assert (A2 := frame_at _ _ _ _ F2 A1).
    destruct args as [|a args]; cbn [negb].
    + apply post_bind, post_ret. apply post_bind. destruct fuel as [|fuel]; [lia|]. apply post_bind, post_ret, post_ret. apply post_bind, post_ret. cbn.
      apply post_bind. eapply post_weaken; [exact (keep_error_post self h w2 (g_own w2 G2) A2)|]. intros ? w3 (F3 & E3 & S3 & N3).
      apply post_ret. split; [|split; [easy|congruence]]. split; [exact (frame_trans _ _ _ F1 (frame_trans _ _ _ F2 F3))|]. split; [split; [apply F3|rewrite S3, N3; apply G2]|congruence].
    + apply post_bind, post_ret, post_ret. split; [|split; [easy|congruence]]. split; [exact (frame_trans _ _ _ F1 F2)|]. split; [easy|congruence].
  - apply post_bind. eapply post_weaken; [exact (keep_error_post self h w1 (g_own w1 G1) A1)|]. intros ? w3 (F3 & E3 & S3 & N3). apply post_ret.
    split; [|split; [easy|congruence]]. split; [exact (frame_trans _ _ _ F1 F3)|]. split; [split; [apply F3|rewrite S3, N3; apply G1]|congruence].
Qed.

(** ** Handles *)

Lemma with_own_post f w o (Q : unit -> world D P -> Prop) : f (own w) = Some o -> Q tt (World o (engine w) (stmts w) (next_stmt w)) -> post (with_own f) w Q.
Proof. intros E HQ. unfold with_own, post. now rewrite E. Qed.
Lemma good_own w o d : good w -> owned o -> good (World o d (stmts w) (next_stmt w)).
Proof. intros Hg Ho. split; [exact Ho|apply Hg]. Qed.
(** The object, after [close]. *)
Definition closed (self : nat) w w' : Prop :=
  good w' /\ stmts w' = stmts w /\ exists p i, objects (own w) !! self = Some (p, i) /\ objects (own w') = <[self := (None, i)]> (objects (own w)) /\ engine w' = match p with Some h => lib_close lib (engine w) h | None => engine w end.
Lemma close_post self w : good w -> is_Some (objects (own w) !! self) -> post (close lib self) w (fun _ w' => closed self w w').
Proof.
  intros Hg [[p i] Hi]. unfold close. apply post_bind. unfold get_object, post at 1, Owner.get. rewrite Hi. cbn [fst]. destruct p as [h|].
  - apply post_bind, live_db_post; [exact (owned_live _ (g_own w Hg) _ _ _ Hi)|]. apply post_bind, post_gets. apply post_bind, post_modify.
    destruct (close_owned (own w) self _ i (g_own w Hg) Hi) as (o & E & Ho & Eo & _). apply (with_own_post _ _ o); [exact E|]. split; [exact (good_own w o _ Hg Ho)|]. split; [easy|]. exists (Some h), i. cbn [own engine]. rewrite Eo. split; [exact Hi|now split].
  - apply post_ret. split; [easy|]. split; [easy|]. exists None, i. split; [easy|]. now rewrite insert_id by easy.
Qed.
Lemma set_error_any self e w p i : good w -> objects (own w) !! self = Some (p, i) ->
  post (set_error self e) w (fun _ w' => good w' /\ stmts w' = stmts w /\ engine w' = engine w /\ objects (own w') = <[self := (p, Info (_db_path i) e)]> (objects (own w))).
Proof.
  intros Hg Hi. unfold set_error. apply (with_own_post _ _ (State (<[self := (p, Info (_db_path i) e)]> (objects (own w))) (live (own w)) (next (own w)))).
  - unfold Owner.get, put. now rewrite Hi.
  - split; [|easy]. apply good_own; [easy|]. apply (put_owned (own w) self p (Info (_db_path i) e) i); [apply Hg|easy|]. unfold put. now rewrite Hi.
Qed.
Lemma keep_error_any self h w i : good w -> objects (own w) !! self = Some (Some h, i) ->
  post (keep_error lib self h) w (fun _ w' => good w' /\ stmts w' = stmts w /\ engine w' = engine w /\ objects (own w') = <[self := (Some h, Info (_db_path i) (lib_errmsg lib (engine w) h))]> (objects (own w))).
Proof.
  intros Hg Hi. unfold keep_error. apply post_bind, live_db_post; [exact (owned_live _ (g_own w Hg) _ _ _ Hi)|]. apply post_bind, post_gets. now apply set_error_any.
Qed.
Lemma put_post self q w p i (Q : unit -> world D P -> Prop) : good w -> objects (own w) !! self = Some (p, i) ->
  (forall w', good w' -> stmts w' = stmts w -> engine w' = engine w -> objects (own w') = <[self := (p, q)]> (objects (own w)) -> Q tt w') -> post (with_own (put self (p, q))) w Q.
Proof.
  intros Hg Hi HQ. set (o := State (<[self := (p, q)]> (objects (own w))) (live (own w)) (next (own w))). assert (E : put self (p, q) (own w) = Some o) by (unfold put; now rewrite Hi).
  apply (with_own_post _ _ o); [exact E|]. apply HQ; cbn; try easy. apply good_own; [easy|]. now apply (put_owned (own w) self p q i); [apply Hg| |].
Qed.
(** A failed [open] leaves the object without a handle; one that succeeded leaves it with one, if the library gave one. *)
Lemma open_post self filename w : good w -> is_Some (objects (own w) !! self) ->
  post (open lib self filename) w (fun b w' => good w' /\ stmts w' = stmts w /\ exists p i, objects (own w') = <[self := (p, i)]> (objects (own w)) /\ (b = false -> p = None)).
Proof.
  intros Hg Hs. unfold open. apply post_bind. eapply post_weaken; [exact (close_post self w Hg Hs)|]. intros [] w1 (G1 & S1 & p & i & Hi & O1 & _).
  assert (I1 : objects (own w1) !! self = Some (None, i)) by (rewrite O1; apply lookup_insert_eq).
  apply post_bind. eapply post_weaken; [exact (set_error_any self [] w1 None i G1 I1)|]. intros [] w2 (G2 & S2 & _ & O2). set (i2 := Info (_db_path i) []) in *.
  apply post_bind, post_gets. destruct (lib_open lib (engine w2) (c_string filename)) as [[rc handle] d]. apply post_bind, post_modify.
  set (w3 := World (own w2) d (stmts w2) (next_stmt w2)). assert (I3 : objects (own w3) !! self = Some (None, i2)) by (cbn; rewrite O2; apply lookup_insert_eq). assert (G3 : good w3) by (apply good_own; [easy|apply G2]).
  apply post_bind. unfold get_object at 1, post at 1, Owner.get. rewrite I3. apply post_bind.
  assert (H4 : post (if handle then with_own (Owner.open self i2) else ret tt) w3 (fun _ w4 => good w4 /\ stmts w4 = stmts w /\ exists q, objects (own w4) = <[self := (q, i2)]> (objects (own w)))).
  { assert (Eo : forall q, <[self := (q, i2)]> (objects (own w3)) = <[self := (q, i2)]> (objects (own w))) by (intros q; cbn; now rewrite O2, O1, !insert_insert_eq).
    destruct handle.
    - destruct (open_owned (own w3) self i2 i2 (g_own _ G3) I3) as (o & E & Ho & Ob & _). apply (with_own_post _ _ o); [exact E|]. split; [exact (good_own w3 o _ G3 Ho)|]. split; [cbn; congruence|].
      exists (Some (next (own w3))). cbn [own]. rewrite Ob. apply Eo.
    - apply post_ret. split; [easy|]. split; [cbn; congruence|]. exists None. rewrite <- Eo. now rewrite insert_id by easy. }
  eapply post_weaken; [exact H4|]. intros [] w4 (G4 & S4 & q & O4). assert (I4 : objects (own w4) !! self = Some (q, i2)) by (rewrite O4; apply lookup_insert_eq).
  destruct (rc =? SQLITE_OK)%Z; apply post_bind; unfold get_object, post at 1, Owner.get; rewrite I4; cbn [fst].
  - apply post_bind. apply (put_post self _ _ q i2 _ G4 I4). intros w5 G5 S5 _ O5. apply post_ret. split; [easy|]. split; [congruence|]. exists q, (Info filename (_last_err i2)). rewrite O5, O4, insert_insert_eq. now split.
  - destruct q as [h|].
    + apply post_bind. eapply post_weaken; [exact (keep_error_any self h w4 i2 G4 I4)|]. intros [] w5 (G5 & S5 & _ & O5). set (i5 := Info _ _) in O5.
      assert (I5 : objects (own w5) !! self = Some (Some h, i5)) by (rewrite O5; apply lookup_insert_eq).
      apply post_bind, post_gets. apply post_bind, post_modify. apply post_bind.
      destruct (close_owned (own w5) self _ i5 (g_own _ G5) I5) as (o & E & Ho & Ob & _). apply (with_own_post _ _ o); [exact E|]. apply post_ret.
      split; [exact (good_own w5 o _ G5 Ho)|]. split; [cbn; congruence|]. exists None, i5. cbn [own]. rewrite Ob, O5, O4, !insert_insert_eq. now split.
    + apply post_bind. eapply post_weaken; [exact (set_error_any self _ w4 None i2 G4 I4)|]. intros [] w5 (G5 & S5 & _ & O5). apply post_ret.
      split; [easy|]. split; [congruence|]. exists None, (Info (_db_path i2) (lit "Failed to allocate sqlite memory")). rewrite O5, O4, insert_insert_eq. now split.
Qed.

Lemma move_owned (o : Owner.state info) self other p i mv : owned o -> objects o !! other = Some (p, i) -> objects o !! self = None ->
  exists o', Owner.move_construct mv self other o = Some o' /\ owned o'.
Proof.
  intros Ho Hi Hn. assert (Hne : self <> other) by congruence. unfold move_construct, Owner.get, construct. rewrite Hi, Hn. unfold put. cbn.
  rewrite lookup_insert_ne, Hi by easy. cbn. rewrite lookup_insert_ne, lookup_insert_eq by easy. eexists. split; [reflexivity|].
  destruct Ho as [A B C E]. split; cbn.
  - intros k h j H. destruct (decide (self = k)) as [<-|]; [rewrite lookup_insert_eq in H; simplify_eq; eauto|]. rewrite lookup_insert_ne in H by easy.
    destruct (decide (other = k)) as [<-|]; [rewrite lookup_insert_eq in H; easy|]. rewrite !lookup_insert_ne in H by easy. eauto.
  - intros h Hh. destruct (B h Hh) as (k & j & Hk). destruct (decide (other = k)) as [<-|].
    + rewrite Hk in Hi. injection Hi as <- <-. exists self, j. now rewrite lookup_insert_eq.
    + exists k, j. rewrite !lookup_insert_ne by congruence. easy.
  - intros k k' h j j' H1 H2.
    assert (K : forall k j, <[self:=(p, i)]> (<[other:=(None, mv i)]> (<[self:=(None, i)]> (objects o))) !! k = Some (Some h, j) -> exists k0, objects o !! k0 = Some (Some h, j) /\ k0 <> self /\ k = (if decide (k0 = other) then self else k0)).
    { clear - Hn Hi Hne. intros k j H. destruct (decide (self = k)) as [<-|]; [rewrite lookup_insert_eq in H; simplify_eq; exists other; now rewrite decide_True|]. rewrite lookup_insert_ne in H by easy.
      destruct (decide (other = k)) as [<-|]; [rewrite lookup_insert_eq in H; easy|]. rewrite !lookup_insert_ne in H by easy. exists k. now rewrite decide_False. }
    destruct (K k j H1) as (k1 & L1 & _ & ->). destruct (K k' j' H2) as (k2 & L2 & _ & ->). now rewrite (C k1 k2 h j j' L1 L2).
  - easy.
Qed.
Lemma assign_owned (o : Owner.state info) self other i p j mv : owned o -> objects o !! self = Some (None, i) -> objects o !! other = Some (p, j) -> self <> other ->
  exists o', Owner.move_assign mv self other o = Some o' /\ owned o'.
Proof.
  intros Ho Hs Hi Hne. unfold move_assign. destruct (Nat.eqb_spec self other); [easy|]. unfold Owner.close, Owner.get. rewrite Hs. cbn. unfold put. rewrite Hs. cbn.
  rewrite lookup_insert_ne, Hi by easy. cbn. rewrite lookup_insert_ne, lookup_insert_eq by easy. eexists. split; [reflexivity|].
  destruct Ho as [A B C E]. split; cbn.
  - intros k h l H. destruct (decide (self = k)) as [<-|]; [rewrite lookup_insert_eq in H; simplify_eq; eauto|]. rewrite lookup_insert_ne in H by easy.
    destruct (decide (other = k)) as [<-|]; [rewrite lookup_insert_eq in H; easy|]. rewrite !lookup_insert_ne in H by easy. eauto.
  - intros h Hh. destruct (B h Hh) as (k & l & Hk). destruct (decide (other = k)) as [<-|].
    + rewrite Hk in Hi. injection Hi as <- <-. exists self, l. now rewrite lookup_insert_eq.
    + exists k, l. rewrite !lookup_insert_ne by congruence. easy.
  - intros k k' h l l' H1 H2.
    assert (K : forall k l, <[self:=(p, j)]> (<[other:=(None, mv j)]> (<[self:=(None, i)]> (objects o))) !! k = Some (Some h, l) -> exists k0, objects o !! k0 = Some (Some h, l) /\ k = (if decide (k0 = other) then self else k0)).
    { clear - Hs Hi Hne. intros k l H. destruct (decide (self = k)) as [<-|]; [rewrite lookup_insert_eq in H; simplify_eq; exists other; now rewrite decide_True|]. rewrite lookup_insert_ne in H by easy.
      destruct (decide (other = k)) as [<-|]; [rewrite lookup_insert_eq in H; easy|]. rewrite !lookup_insert_ne in H by easy. exists k. now rewrite decide_False. }
    destruct (K k l H1) as (k1 & L1 & ->). destruct (K k' l' H2) as (k2 & L2 & ->). now rewrite (C k1 k2 h l l' L1 L2).
  - easy.
Qed.

(** ** Any sequence of calls *)

Inductive call :=
| New (self : nat) | Open (self : nat) (filename : text) | Close (self : nat) | Move (self other : nat) | Assign (self other : nat) | Destroy (self : nat)
| Exec (self : nat) (sql : text) (args : list val_in_t) | Query (self : nat) (sql : text) (args : list val_in_t).
(** The objects that are used exist, and the ones that are made do not. *)
Definition exists_obj (self : nat) w : bool := bool_decide (is_Some (objects (own w) !! self)).
Definition legal (c : call) w : bool :=
  match c with
  | New self => negb (exists_obj self w)
  | Open self _ | Close self | Destroy self | Exec self _ _ | Query self _ _ => exists_obj self w
  | Move self other => negb (exists_obj self w) && exists_obj other w
  | Assign self other => exists_obj self w && exists_obj other w
  end.
Definition perform (fuel : nat) (c : call) : State.M (world D P) unit :=
  match c with
  | New self => sqlite self | Open self f => do _ <- open lib self f; ret tt | Close self => close lib self
  | Move self other => sqlite_move self other | Assign self other => assign_move lib self other | Destroy self => destroy lib self
  | Exec self sql args => do _ <- exec_sqlite lib self sql args; ret tt | Query self sql args => do _ <- query_sqlite lib fuel self ret_new sql args; ret tt
  end.
(** A call that is not legal is not made. *)
Fixpoint calls (fuel : nat) (l : list call) : State.M (world D P) unit :=
  match l with [] => ret tt | c :: l => do _ <- (fun w => if legal c w then perform fuel c w else Some (tt, w)); calls fuel l end.

Lemma exec_closed_object self sql args w i : objects (own w) !! self = Some (None, i) -> exec_sqlite lib self sql args w = Some (failed not_connected, w).
Proof. intros H. unfold exec_sqlite, bind, get_object, Owner.get. now rewrite H. Qed.
Lemma query_closed_object fuel self outs sql args w i : objects (own w) !! self = Some (None, i) -> query_sqlite lib fuel self outs sql args w = Some ((Some not_connected, outs), w).
Proof. intros H. unfold query_sqlite, bind, get_object, Owner.get. now rewrite H. Qed.
Lemma exists_obj_spec self w : exists_obj self w = true <-> is_Some (objects (own w) !! self).
Proof. unfold exists_obj. apply bool_decide_eq_true. Qed.
Lemma perform_post fuel c w : halts fuel -> good w -> legal c w = true -> post (perform fuel c) w (fun _ w' => good w' /\ stmts w' = stmts w).
Proof.
  intros Hh Hg Hl. destruct c as [self|self f|self|self other|self other|self|self sql args|self sql args]; cbn [legal perform] in *.
  - unfold sqlite. apply negb_true_iff, bool_decide_eq_false, eq_None_not_Some in Hl. set (o := State (<[self := (None, Info [] [])]> (objects (own w))) (live (own w)) (next (own w))).
    assert (E : construct self (Info [] []) (own w) = Some o) by (unfold construct; now rewrite Hl). apply (with_own_post _ _ o); [exact E|]. split; [|easy].
    apply good_own; [easy|]. now apply (construct_owned (own w) self (Info [] [])); [apply Hg|].
  - apply exists_obj_spec in Hl. apply post_bind. eapply post_weaken; [exact (open_post self f w Hg Hl)|]. intros b w' (G & S & _). now apply post_ret.
  - apply exists_obj_spec in Hl. eapply post_weaken; [exact (close_post self w Hg Hl)|]. intros ? w' (G & S & _). now split.
  - apply andb_true_iff in Hl as [H1 H2]. apply negb_true_iff, bool_decide_eq_false, eq_None_not_Some in H1. apply exists_obj_spec in H2 as [[p i] Hi].
    unfold sqlite_move. destruct (move_owned (own w) self other p i moved (g_own w Hg) Hi H1) as (o & E & Ho). apply (with_own_post _ _ o); [exact E|]. split; [exact (good_own w o _ Hg Ho)|easy].
  - apply andb_true_iff in Hl as [H1 H2]. apply exists_obj_spec in H1, H2. unfold assign_move. destruct (Nat.eqb_spec self other) as [|Hne]; [now apply post_ret|].
    apply post_bind. eapply post_weaken; [exact (close_post self w Hg H1)|]. intros ? w1 (G1 & S1 & p & i & _ & O1 & _). destruct H2 as [[q j] Hq].
    destruct (assign_owned (own w1) self other i q j moved (g_own _ G1)) as (o & E & Ho); [rewrite O1; apply lookup_insert_eq|now rewrite O1, lookup_insert_ne|easy|].
    apply (with_own_post _ _ o); [exact E|]. split; [exact (good_own w1 o _ G1 Ho)|exact S1].
  - apply exists_obj_spec in Hl. unfold destroy. apply post_bind. eapply post_weaken; [exact (close_post self w Hg Hl)|]. intros ? w1 (G1 & S1 & p & i & _ & O1 & _).
    assert (I1 : objects (own w1) !! self = Some (None, i)) by (rewrite O1; apply lookup_insert_eq). destruct (close_owned (own w1) self None i (g_own _ G1) I1) as (o & E & Ho & Eo & _).
    set (o' := State (delete self (objects o)) (live o) (next o)). assert (E' : Owner.destroy self (own w1) = Some o') by (unfold Owner.destroy; now rewrite E).
    apply (with_own_post _ _ o'); [exact E'|]. split; [|exact S1]. apply good_own; [easy|]. assert (Is : objects o !! self = Some (None, i)) by (rewrite Eo; apply lookup_insert_eq).
    destruct Ho as [A B C F]. split; cbn.
    + intros k h j H. apply lookup_delete_Some in H as [_ H]. eauto.
    + intros h H. destruct (B h H) as (k & j & Hk). exists k, j. rewrite lookup_delete_ne; [easy|congruence].
    + intros k k' h j j' K1 K2. apply lookup_delete_Some in K1 as [_ K1], K2 as [_ K2]. eauto.
    + exact F.
  - apply exists_obj_spec in Hl as [[[h|] i] Hi].
    + apply post_bind. eapply post_weaken; [exact (exec_post self h sql args w Hg (ex_intro _ i Hi))|]. intros r w' [(F & G & S) _]. now apply post_ret.
    + apply post_bind. unfold post at 1. rewrite (exec_closed_object self sql args w i Hi). now apply post_ret.
  - apply exists_obj_spec in Hl as [[[h|] i] Hi].
    + apply post_bind. eapply post_weaken; [exact (query_post fuel self h ret_new sql args w Hh Hg (ex_intro _ i Hi))|]. intros r w' [(F & G & S) _]. now apply post_ret.
    + apply post_bind. unfold post at 1. rewrite (query_closed_object fuel self ret_new sql args w i Hi). now apply post_ret.
Qed.
(** C34: whatever is called on any number of connections, in any order, and whatever the
    library answers: no handle and no statement is used after it is gone, every statement is
    finalised by the call that prepared it, each handle is of one object, and once every
    object is destroyed every handle was closed. *)
Theorem sqlite_releases fuel l d : halts fuel ->
  post (calls fuel l) (World Owner.init d ∅ 0) (fun _ w => owned (own w) /\ stmts w = ∅ /\ (objects (own w) = ∅ -> live (own w) = ∅)).
Proof.
  intros Hh. assert (H : forall w, good w -> post (calls fuel l) w (fun _ w' => good w' /\ stmts w' = stmts w)).
  { induction l as [|c l IH]; intros w Hg; cbn [calls]; [now apply post_ret|]. apply post_bind. unfold post at 1. destruct (legal c w) eqn:El; [|now apply IH].
    pose proof (perform_post fuel c w Hh Hg El) as Hp. unfold post in Hp. destruct (perform fuel c w) as [[u w']|]; [|easy]. destruct Hp as [G S].
    eapply post_weaken; [exact (IH w' G)|]. intros ? w'' [G' S']. split; [easy|congruence]. }
  eapply post_weaken; [apply H; split; [apply owned_init|easy]|]. intros ? w [G S]. cbn in S. split; [apply G|]. split; [exact S|].
  intros E. apply set_eq. intros h. split; [|easy]. intros Hin. destruct (owned_by _ (g_own w G) h Hin) as (k & i & Hk). rewrite E in Hk. easy.
Qed.

(** ** What is answered *)

(** On an open connection a statement and a query do to the engine what preparing the
    text, giving the values in their order until one is refused, and stepping does; a query
    gives every row up to the end as a table, all or nothing, errors are told apart, and the
    handles and the statements are those there were before. *)
Theorem sqlite_answers fuel self h outs sql args w : halts fuel -> good w -> at_ self h w ->
  post (exec_sqlite lib self sql args) w (fun r w' => after w w' /\ (r, engine w') = exec_spec (engine w) h sql args) /\
  post (query_sqlite lib fuel self outs sql args) w (fun r w' => after w w' /\ query_answers h outs sql args (engine w) r (engine w')).
Proof. intros Hh Hg Ha. split; [now apply exec_post|now apply query_post]. Qed.

(** ** Transactions *)

Section Transactions.
Context {S : Type} (durable : D -> S) (in_trans : D -> bool) (plain_program : P -> Prop) (plain : text -> Prop) (self h fuel : nat).
(** What the documentation of the library says of the handle.  Preparing and giving
    values store nothing.  A statement that is not about transactions stores nothing while
    one is open, and leaves it open when it succeeds; one that fails may have rolled it
    back, as the library does by itself for a full disk, an error of the system, no
    memory, a busy file and an interrupt, and by ON CONFLICT ROLLBACK.  BEGIN opens one.
    COMMIT ends it, or fails, and is an error outside of one.  ROLLBACK, once prepared,
    ends it, and does no harm outside of one. *)
Definition done (rc : Z) : bool := (rc =? SQLITE_DONE)%Z || (rc =? SQLITE_ROW)%Z.
Definition keeps (ok : bool) (d d' : D) : Prop := durable d' = durable d /\ (in_trans d = false -> in_trans d' = false) /\ (ok = true -> in_trans d' = in_trans d).
Definition left_by (ok : bool) (d d' : D) : Prop :=
  (in_trans d = false -> in_trans d' = false) /\ (in_trans d = true -> durable d' = durable d /\ (ok = true -> in_trans d' = true)).
Definition compiled (r : option (option P)) : bool := match r with Some _ => true | None => false end.
Definition prepared (sql : text) (d : D) (p : P) (d' : D) : Prop := lib_prepare lib d h sql (text_length sql) = (Some (Some p), d').
Record transactions : Prop :=
  { tr_prepare d sql r d' : lib_prepare lib d h sql (text_length sql) = (r, d') -> keeps (compiled r) d d' /\ (plain sql -> forall p, r = Some (Some p) -> plain_program p);
    tr_bind d p i v n rc p' d' : lib_bind lib d p i v n = (rc, p', d') -> keeps (rc =? SQLITE_OK)%Z d d' /\ (plain_program p -> plain_program p');
    tr_step d p rc p' d' : plain_program p -> lib_step lib d p = (rc, p', d') -> plain_program p' /\ left_by (done rc) d d';
    tr_begin d p d1 rc p' d' : prepared (lit "BEGIN TRANSACTION;") d p d1 -> lib_step lib d1 p = (rc, p', d') -> in_trans d = false ->
      durable d' = durable d /\ in_trans d' = done rc;
    tr_commit d p d1 rc p' d' : prepared (lit "COMMIT;") d p d1 -> lib_step lib d1 p = (rc, p', d') ->
      if done rc then in_trans d' = false else keeps false d d';
    tr_rollback d r d1 : lib_prepare lib d h (lit "ROLLBACK;") (text_length (lit "ROLLBACK;")) = (r, d1) -> r <> Some None /\
      forall p rc p' d', r = Some (Some p) -> lib_step lib d1 p = (rc, p', d') -> durable d' = durable d /\ in_trans d' = false }.

Hypotheses (Ht : transactions) (Hh : halts fuel).

Lemma keeps_after b c d1 d2 d3 : keeps b d1 d2 -> (b = true -> keeps c d2 d3) -> (b = false -> d3 = d2) -> keeps (b && c) d1 d3.
Proof.
  intros (A & B & C) H2 H3. destruct b; [|rewrite H3 by easy; easy]. destruct (H2 eq_refl) as (A' & B' & C'). repeat split; [congruence|auto|]. cbn. intros E. rewrite C' by easy. auto.
Qed.
Lemma left_after c d1 d2 d3 : keeps true d1 d2 -> left_by c d2 d3 -> left_by c d1 d3.
Proof. intros (A & B & C) [A' B']. split; [auto|]. intros E. rewrite <- A. apply B'. now rewrite C. Qed.
Lemma keeps_left b d1 d2 : keeps b d1 d2 -> left_by b d1 d2.
Proof. intros (A & B & C). split; [exact B|]. intros E. split; [exact A|]. intros Hb. now rewrite C. Qed.
Lemma bind_keeps args : forall i d p b d' p', bind_spec d p i args = (b, d', p') -> keeps b d d' /\ (plain_program p -> plain_program p').
Proof.
  induction args as [|a args IH]; intros i d p b d' p'; cbn; [now intros [= <- <- <-]|]. destruct (lib_bind lib d p (Z.of_nat i + 1) a (value_length a)) as [[rc p1] d1] eqn:E.
  destruct (tr_bind Ht _ _ _ _ _ _ _ _ E) as [S1 P1]. destruct (rc =? SQLITE_OK)%Z; [|now intros [= <- <- <-]]. intros H. destruct (IH _ _ _ _ _ _ H) as [S2 P2].
  split; [exact (keeps_after true b _ _ _ S1 (fun _ => S2) ltac:(discriminate))|auto].
Qed.
(** A statement of the transaction itself. *)
Lemma exec_spec_nil d sql : exec_spec d h sql [] =
  match lib_prepare lib d h sql (text_length sql) with
  | (None, d) => (failed bad_message, d) | (Some None, d) => (failed io_error, d)
  | (Some (Some p), d) => let '(rc, _, d) := lib_step lib d p in (if done rc then ExecResult None (lib_changes lib d h) (lib_rowid lib d h) else failed io_error, d)
  end.
Proof. unfold exec_spec. destruct (lib_prepare lib d h sql (text_length sql)) as [[[p|]|] d1]; [|easy|easy]. cbn. reflexivity. Qed.
Definition no_error (e : err_t) : bool := match e with None => true | Some _ => false end.
Lemma left_weaken (b c : bool) d d' : left_by b d d' -> (c = true -> b = true) -> left_by c d d'.
Proof. intros [A B] H. split; [exact A|]. intros E. destruct (B E) as [B1 B2]. auto. Qed.
Lemma exec_plain d sql args r d' : exec_spec d h sql args = (r, d') -> plain sql -> left_by (no_error (ec r)) d d'.
Proof.
  intros E Hp. unfold exec_spec in E. destruct (lib_prepare lib d h sql (text_length sql)) as [r1 d1] eqn:E1. destruct (tr_prepare Ht _ _ _ _ E1) as [S1 P1].
  destruct r1 as [[p|]|]; cbn [compiled] in S1.
  2,3: injection E as <- <-; apply (left_weaken _ _ _ _ (keeps_left _ _ _ S1)); now destruct args.
  destruct (bind_spec d1 p 0 args) as [[b d2] p2] eqn:E2. destruct (bind_keeps _ _ _ _ _ _ _ E2) as [S2 P2]. apply (left_after _ _ _ _ S1).
  destruct b; cbn [negb] in E; [|injection E as <- <-; now apply keeps_left in S2]. apply (left_after _ _ _ _ S2).
  destruct (lib_step lib d2 p2) as [[rc p3] d3] eqn:E3. destruct (tr_step Ht _ _ _ _ _ (P2 (P1 Hp p eq_refl)) E3) as [_ S3].
  injection E as <- <-. apply (left_weaken _ _ _ _ S3). fold (done rc). now destruct (done rc).
Qed.
Lemma yields_plain cols p d rows rc d' : yields cols p d rows rc d' -> plain_program p -> left_by (done rc) d d'.
Proof.
  induction 1 as [p d rc p' d' E _|p d p1 d1 rows rc d' E Hy IH]; intros Hp; destruct (tr_step Ht _ _ _ _ _ Hp E) as (P1 & A & B); [now split|].
  destruct (IH P1) as [A' B']. split; [auto|]. intros Hi. destruct (B Hi) as [B1 B2]. rewrite <- B1. now apply B', B2.
Qed.
Lemma query_plain outs sql args d r d' : query_answers h outs sql args d r d' -> plain sql -> left_by (no_error r.1) d d'.
Proof.
  intros Hq Hp. unfold query_answers in Hq. destruct (lib_prepare lib d h sql (text_length sql)) as [r1 d1] eqn:E1. destruct (tr_prepare Ht _ _ _ _ E1) as [S1 P1].
  destruct r1 as [[p|]|]; cbn [compiled] in S1.
  2,3: destruct Hq as [-> ->]; apply (left_weaken _ _ _ _ (keeps_left _ _ _ S1)); now destruct args.
  destruct (bind_spec d1 p 0 args) as [[b d2] p2] eqn:E2. destruct (bind_keeps _ _ _ _ _ _ _ E2) as [S2 P2]. apply (left_after _ _ _ _ S1).
  destruct b; cbn [negb] in Hq; [|destruct Hq as [-> ->]; now apply keeps_left in S2]. apply (left_after _ _ _ _ S2).
  destruct Hq as (rows & rc & Hy & Hr). apply (left_weaken _ _ _ _ (yields_plain _ _ _ _ _ _ Hy (P2 (P1 Hp p eq_refl)))). unfold done. destruct (rc =? SQLITE_DONE)%Z; [easy|].
  rewrite Hr. easy.
Qed.
#[local] Existing Instance sqlite_conn.
#[refine] Instance sqlite_transactional (ss : gmap nat P) : @Transactional (world D P) S (sqlite_conn lib fuel self) :=
  {| fine w := good w /\ stmts w = ss /\ at_ self h w; stored w := durable (engine w); opened w := in_trans (engine w); plain_sql := plain |}.
Proof.
  - intros w (Hg & Hs & Ha) Hi. apply post_bind. eapply post_weaken; [exact (exec_post self h (lit "BEGIN TRANSACTION;") [] w Hg Ha)|]. intros r w' [(F & G & K) E]. apply post_ret.
    split; [exact (conj G (conj (eq_trans K Hs) (frame_at _ _ _ _ F Ha)))|]. rewrite exec_spec_nil in E.
    destruct (lib_prepare lib (engine w) h (lit "BEGIN TRANSACTION;") _) as [r1 d1] eqn:E1. destruct (tr_prepare Ht _ _ _ _ E1) as [(S1 & T1 & _) _].
    destruct r1 as [[p|]|]; [|injection E as -> ->; cbn; auto|injection E as -> ->; cbn; auto].
    destruct (lib_step lib d1 p) as [[rc p'] d'] eqn:E2. injection E as -> ->. destruct (tr_begin Ht _ _ _ _ _ _ E1 E2 Hi) as [A B]. split; [exact A|]. rewrite B. now destruct (done rc).
  - intros sql args w (Hg & Hs & Ha) Hp. eapply post_weaken; [exact (exec_post self h sql args w Hg Ha)|]. intros r w' [(F & G & K) E]. split; [exact (conj G (conj (eq_trans K Hs) (frame_at _ _ _ _ F Ha)))|].
    destruct (exec_plain _ _ _ _ _ (eq_sym E) Hp) as [A B]; split; [exact A|]; intros Hi; destruct (B Hi) as [B1 B2]; split; [exact B1|]; intros Er; rewrite Er in B2; now apply B2.
  - intros outs sql args w (Hg & Hs & Ha) Hp. eapply post_weaken; [exact (query_post fuel self h outs sql args w Hh Hg Ha)|]. intros r w' [(F & G & K) E]. split; [exact (conj G (conj (eq_trans K Hs) (frame_at _ _ _ _ F Ha)))|].
    destruct (query_plain _ _ _ _ _ _ E Hp) as [A B]; split; [exact A|]; intros Hi; destruct (B Hi) as [B1 B2]; split; [exact B1|]; intros Er; rewrite Er in B2; now apply B2.
  - intros w (Hg & Hs & Ha). apply post_bind. eapply post_weaken; [exact (exec_post self h (lit "COMMIT;") [] w Hg Ha)|]. intros r w' [(F & G & K) E]. apply post_ret.
    split; [exact (conj G (conj (eq_trans K Hs) (frame_at _ _ _ _ F Ha)))|]. rewrite exec_spec_nil in E.
    destruct (lib_prepare lib (engine w) h (lit "COMMIT;") _) as [r1 d1] eqn:E1. destruct (tr_prepare Ht _ _ _ _ E1) as [(S1 & T1 & _) _].
    destruct r1 as [[p|]|]; [|injection E as -> ->; cbn; auto|injection E as -> ->; cbn; auto].
    destruct (lib_step lib d1 p) as [[rc p'] d'] eqn:E2. injection E as -> ->. pose proof (tr_commit Ht _ _ _ _ _ _ E1 E2) as A. destruct (done rc); cbn; [exact A|]. now destruct A as (A1 & A2 & _).
  - intros w (Hg & Hs & Ha). apply post_bind. eapply post_weaken; [exact (exec_post self h (lit "ROLLBACK;") [] w Hg Ha)|]. intros r w' [(F & G & K) E]. apply post_ret.
    split; [exact (conj G (conj (eq_trans K Hs) (frame_at _ _ _ _ F Ha)))|]. rewrite exec_spec_nil in E.
    destruct (lib_prepare lib (engine w) h (lit "ROLLBACK;") _) as [r1 d1] eqn:E1. destruct (tr_prepare Ht _ _ _ _ E1) as [(S1 & T1 & _) _]. destruct (tr_rollback Ht _ _ _ E1) as [Hn A].
    destruct r1 as [[p|]|]; [|easy|injection E as -> ->; cbn; split; [exact S1|intros [H|H]; [auto|easy]]].
    destruct (lib_step lib d1 p) as [[rc p'] d'] eqn:E2. injection E as -> ->. destruct (A p _ _ _ eq_refl E2) as [A1 A2]. auto.
Defined.
End Transactions.
End Engine.

(** ** An engine *)

(** The log, as an engine: its programs are their texts. *)
Definition log_step (d : Log.log) (p : text) : Z * text * Log.log :=
  if text_eqb p (lit "BEGIN TRANSACTION;") then match Log.working d with Some _ => (1%Z, p, d) | None => (SQLITE_DONE, p, Log.Log (Log.kept d) (Some (Log.kept d)) false) end else
  if text_eqb p (lit "COMMIT;") then
    match Log.working d with None => (1%Z, p, d) | Some l => if Log.broken d then (1%Z, p, d) else (SQLITE_DONE, p, Log.Log l None false) end else
  if text_eqb p (lit "ROLLBACK;") then (match Log.working d with None => 1%Z | Some _ => SQLITE_DONE end, p, Log.Log (Log.kept d) None false) else
  let '(r, d) := Log.do_exec p d in (match ec r with None => SQLITE_DONE | Some _ => 1%Z end, p, d).
Definition log_engine : engine_t Log.log text :=
  {| lib_open d _ := (SQLITE_OK, true, d); lib_close d _ := d; lib_errmsg _ _ := lit "error"; lib_prepare d _ sql _ := (Some (Some sql), d);
     lib_bind d p _ _ _ := (SQLITE_OK, p, d); lib_step := log_step; lib_column_count _ := 0; lib_column _ _ := c_null; lib_changes _ _ := 1%Z; lib_rowid _ _ := 0%Z |}.
Definition log_in_trans (d : Log.log) : bool := match Log.working d with Some _ => true | None => false end.
Definition log_plain (t : text) : Prop := t <> lit "BEGIN TRANSACTION;" /\ t <> lit "COMMIT;" /\ t <> lit "ROLLBACK;".

Lemma log_step_code d p : let '(rc, _, _) := log_step d p in rc <> SQLITE_ROW.
Proof. unfold log_step, Log.do_exec. repeat case_match; simplify_eq; easy. Qed.
Lemma log_halts : halts log_engine 1.
Proof. split; [lia|]. intros p d. pose proof (log_step_code d p) as H. destruct (log_step d p) as [[rc p'] d'] eqn:E. exists [], rc, d'. split; [now apply (yields_end _ _ _ _ _ p')|cbn; lia]. Qed.
Lemma log_transactions h : transactions log_engine Log.kept log_in_trans log_plain log_plain h.
Proof.
  split.
  - intros d sql r d' [= <- <-]. split; [now repeat split|]. intros Hp p [= <-]. exact Hp.
  - intros d p i v n rc p' d' [= <- <- <-]. split; [now repeat split|easy].
  - intros d p rc p' d' (H1 & H2 & H3). cbn. unfold log_step, text_eqb. rewrite !bool_decide_eq_false_2 by easy. unfold Log.do_exec, log_in_trans, left_by.
    destruct (text_eqb p (lit "fail")); [|destruct (text_eqb p (lit "full"))]; cbn; intros [= <- <- <-]; cbn; (split; [now split|]); destruct (Log.working d); repeat split; easy.
  - intros d p d1 rc p' d' [= <- <-] E Hi. cbn in E. unfold log_step in E. cbn in E. unfold log_in_trans in Hi |- *. destruct (Log.working d); [easy|]. injection E as <- <- <-. now split.
  - intros d p d1 rc p' d' [= <- <-] E. cbn in E. unfold log_step in E. cbn in E. unfold keeps, log_in_trans. destruct (Log.working d) eqn:Ew; [|injection E as <- <- <-; cbn; now rewrite Ew].
    destruct (Log.broken d); injection E as <- <- <-; cbn; [rewrite Ew; now repeat split|easy].
  - intros d r d1 [= <- <-]. split; [easy|]. intros p rc p' d' [= <-] E. cbn in E. unfold log_step in E. cbn in E. injection E as <- <- <-. now split.
Qed.
(** An open connection to it. *)
Definition log_world : world Log.log text := World (State {[0 := (Some 0, Info [] [])]} {[0]} 1) (Log.Log [lit "x"] None false) ∅ 0.
Lemma log_world_good : good log_world /\ at_ 0 0 log_world.
Proof.
  split; [|exists (Info [] []); reflexivity]. split; [|easy]. cbn. split; cbn.
  - intros k h i H. apply lookup_singleton_Some in H as [<- [= <- <-]]. set_solver.
  - intros h Hh. apply elem_of_singleton in Hh. subst h. exists 0, (Info [] []). reflexivity.
  - intros k k' h i j H H'. apply lookup_singleton_Some in H as [<- _]. now apply lookup_singleton_Some in H' as [<- _].
  - intros h Hh. apply elem_of_singleton in Hh. lia.
Qed.
Lemma sqlite_releases_witness :
  post (calls log_engine 1 [New 0; Open 0 (lit "a.db"); Exec 0 (lit "insert") [in_int64 1]; Query 0 (lit "select") []; Open 0 (lit "b.db"); Move 1 0; Assign 1 1; Destroy 1; Destroy 0]) (World Owner.init (Log.Log [] None false) ∅ 0)
    (fun _ w => owned (own w) /\ stmts w = ∅ /\ (objects (own w) = ∅ -> live (own w) = ∅)).
Proof. apply (sqlite_releases log_engine 1), log_halts. Defined.
Lemma sqlite_answers_witness :
  post (exec_sqlite log_engine 0 (lit "insert") [in_null] ) log_world (fun r w' => after log_world w' /\ (r, engine w') = exec_spec log_engine (engine log_world) 0 (lit "insert") [in_null]) /\
  post (query_sqlite log_engine 1 0 ret_new (lit "insert") [in_null]) log_world (fun r w' => after log_world w' /\ query_answers log_engine 0 ret_new (lit "insert") [in_null] (engine log_world) r (engine w')).
Proof. apply (sqlite_answers log_engine 1); [exact log_halts|exact (proj1 log_world_good)|exact (proj2 log_world_good)]. Defined.

(** ** What the code does otherwise *)

(** A file that could not be opened leaves the path of the one before. *)
Definition failing_engine : engine_t Log.log text :=
  {| lib_open d f := if text_eqb f (lit "a.db") then (SQLITE_OK, true, d) else (14%Z, true, d); lib_close d _ := d; lib_errmsg _ _ := lit "unable to open"; lib_prepare d _ sql _ := (Some (Some sql), d);
     lib_bind d p _ _ _ := (SQLITE_OK, p, d); lib_step := log_step; lib_column_count _ := 0; lib_column _ _ := c_null; lib_changes _ _ := 1%Z; lib_rowid _ _ := 0%Z |}.
Lemma failed_open_keeps_path :
  (do _ <- sqlite 0; do a <- open failing_engine 0 (lit "a.db"); do b <- open failing_engine 0 (lit "b.db"); do o <- is_open 0; do p <- path 0; ret (a, b, o, p))
    (World Owner.init (Log.Log [] None false) ∅ 0) =
  Some ((true, false, false, lit "a.db"), World (State {[0 := (None, Info (lit "a.db") (lit "unable to open"))]} ∅ 2) (Log.Log [] None false) ∅ 0).
Proof. vm_compute. reflexivity. Qed.
(** The table of a query that failed is the one of the query before. *)
Lemma failed_query_keeps_table fuel outs i (w : world Log.log text) self : objects (own w) !! self = Some (None, i) ->
  query_sqlite log_engine fuel self outs (lit "select") [] w = Some ((Some not_connected, outs), w).
Proof. apply query_closed_object. Qed.
