(* ===== verification/Redis.v ===== *)
(** * Redis

    [db/redis.hpp]: commands with places for values, sent over a context of the library,
    which is a parameter.  The numbers among the values are written into strings of a
    vector, and the command has pointers to their characters: a pointer to a short string
    dangles once the vector has moved its strings. *)

From Stdlib Require Import Ascii String ZArith Lia List Bool.
From stdpp Require Import base tactics list option gmap.
From S2P Require Import Prelude CText Db.

Open Scope hj_scope.
Open Scope nat_scope.

Module Redis.
Export Db.

(** [std::to_string] of a signed number; of a double, it is a parameter. *)
Definition sdec (z : Z) : text := if (z <? 0)%Z then lit "-" ++ dec (- z) else dec z.

(** ** The words of a command *)

Section Words.
Variable to_string_double : Z -> text.

(** A pointer to characters that stay, or into the vector as it was after so many moves. *)
Inductive word := Stays (t : text) | Buffer (moves i : nat).
Record command := Command { arg_buffers : list text; capacity : nat; moves : nat; argv : list word }.
(** [push_back] with the doubling of the standard library. *)
Definition push_buffer (t : text) (c : command) : command :=
  let c := if length (arg_buffers c) <? capacity c then c else Command (arg_buffers c) (Nat.max 1 (2 * capacity c)) (S (moves c)) (argv c) in
  Command (arg_buffers c ++ [t]) (capacity c) (moves c) (argv c).
Definition push_word (w : word) (c : command) : command := Command (arg_buffers c) (capacity c) (moves c) (argv c ++ [w]).
Definition push_back_of (t : text) (c : command) : command :=
  let c := push_buffer t c in push_word (Buffer (moves c) (length (arg_buffers c) - 1)) c.
Definition append_val_in (v : val_in_t) (c : command) : command :=
  match v with
  | in_null => push_word (Stays []) c
  | in_int64 z => push_back_of (sdec z) c
  | in_double d => push_back_of (to_string_double d) c
  | in_text t => push_word (Stays (seen t)) c
  | in_blob b => push_word (Stays (seen b)) c
  end.
(** A token of the template; the values that are left. *)
Definition add_token (token : text) (p : command * list val_in_t) : command * list val_in_t :=
  let '(c, args) := p in
  if text_eqb token (lit "?") || text_eqb token (lit "%s") then
    match args with [] => (c, []) | a :: args => (append_val_in a c, args) end
  else (push_word (Stays token) c, args).
Definition end_token (token : text) (p : command * list val_in_t) : command * list val_in_t := match token with [] => p | _ => add_token token p end.
(** The loop over the characters: a token is what is between blanks. *)
Fixpoint scan (cmd_tmpl token : text) (p : command * list val_in_t) : command * list val_in_t :=
  match cmd_tmpl with
  | [] => end_token token p
  | a :: s => if decide (a = " "%char) then scan s [] (end_token token p) else scan s (token ++ [a]) p
  end.
Definition build (cmd_tmpl : text) (args : list val_in_t) : command := (scan cmd_tmpl [] (Command [] 0 0 [], args)).1.
(** What a string keeps in itself, when it is moved. *)
Definition short (t : text) : bool := length t <=? 15.
Definition resolve (c : command) (w : word) : option text :=
  match w with
  | Stays t => Some t
  | Buffer m i => let* t := arg_buffers c !! i in if (m =? moves c) || negb (short t) then Some t else None
  end.
Fixpoint all_words (c : command) (l : list word) : option (list text) :=
  match l with [] => Some [] | w :: l => let* t := resolve c w in let* ts := all_words c l in Some (t :: ts) end.
End Words.

(** ** The library *)

Inductive reply := r_string (t : text) | r_status (t : view) | r_integer (z : Z) | r_error (t : view) | r_array (l : list reply) | r_other.
(** [C]: a context, its error, and how it answers. *)
Record hiredis (C : Type) := Hiredis
  { lib_connect : text -> Z -> Z -> Z -> option C;
    lib_err : C -> Z; lib_errstr : C -> text;
    lib_command : C -> list text -> option reply * C;
    to_string_double : Z -> text }.
#[global] Arguments lib_connect {C}. #[global] Arguments lib_err {C}. #[global] Arguments lib_errstr {C}. #[global] Arguments lib_command {C}. #[global] Arguments to_string_double {C}.

(** The member [_last_err] is the other member of an object. *)
Record world (C : Type) := World { own : Owner.state text; contexts : gmap nat C }.
#[global] Arguments World {C}. #[global] Arguments own {C}. #[global] Arguments contexts {C}.

Section Redis.
Context {C : Type} (lib : hiredis C).
Abbreviation M := (State.M (world C)).
Definition with_own (f : Owner.state text -> option (Owner.state text)) : M unit := fun w => let* o := f (own w) in Some (tt, World o (contexts w)).
Definition get_object (self : nat) : M (option nat * text) := fun w => let* x := Owner.get self (own w) in Some (x, w).
Definition set_error (self : nat) (e : text) : M unit := with_own (fun o => let* (p, _) := Owner.get self o in Owner.put self (p, e) o).
(** A context that is used is live. *)
Definition deref (h : nat) : M C := fun w => if decide (h ∈ Owner.live (own w)) then let* c := contexts w !! h in Some (c, w) else None.
Definition put_context (h : nat) (c : C) : M unit := fun w => Some (tt, World (own w) (<[h := c]> (contexts w))).
Definition drop_context (h : nat) : M unit := fun w => Some (tt, World (own w) (delete h (contexts w))).

Definition redis (self : nat) : M unit := with_own (Owner.construct self []).
Definition close (self : nat) : M unit :=
  do x <- get_object self;
  match x.1 with None => ret tt | Some h => do _ <- deref h; do _ <- with_own (Owner.close self); drop_context h end.
Definition redis_move (self other : nat) : M unit := with_own (Owner.move_construct (fun _ => []) self other).
Definition assign_move (self other : nat) : M unit :=
  if self =? other then ret tt else do _ <- close self; with_own (Owner.move_assign (fun _ => []) self other).
Definition destroy (self : nat) : M unit := do _ <- close self; with_own (Owner.destroy self).
Definition is_connected (self : nat) : M bool :=
  do x <- get_object self; match x.1 with None => ret false | Some h => do c <- deref h; ret (lib_err lib c =? 0)%Z end.
Definition get_last_error (self : nat) : M text := do x <- get_object self; ret x.2.

(** [_exec]; [reply] null is [None]. *)
Definition exec_command (self : nat) (cmd_tmpl : text) (args : list val_in_t) : M (option reply) :=
  let c := build (to_string_double lib) cmd_tmpl args in
  match argv c with
  | [] => do _ <- set_error self (lit "Empty command"); ret None
  | _ =>
      do x <- get_object self;
      match x.1 with
      | None => undefined
      | Some h =>
          do words <- lift (all_words c (argv c));
          do ctx <- deref h; let '(r, ctx) := lib_command lib ctx words in
          do _ <- put_context h ctx;
          match r with None => do _ <- set_error self (lib_errstr lib ctx); ret None | Some r => ret (Some r) end
      end
  end.
Definition error_text (t : view) (d : text) : text := match t with Some t => t | None => d end.
Definition exec_redis (self : nat) (sql : text) (args : list val_in_t) : M exec_result :=
  do connected <- is_connected self;
  if negb connected then ret (ExecResult (Some not_connected) 0 0) else
  do r <- exec_command self sql args;
  match r with
  | None => ret (ExecResult (Some io_error) 0 0)
  | Some (r_error t) => do _ <- set_error self (error_text t (lit "Redis execution error")); ret (ExecResult (Some bad_message) 0 0)
  | Some (r_integer z) => ret (ExecResult None z 0)
  | Some (r_status t) => ret (ExecResult None (match t with Some t => if text_eqb t (lit "OK") then 1 else 0 | None => 0 end) 0)
  | Some _ => ret (ExecResult None 0 0)
  end.
(** [_parse_reply_to_ret] *)
Definition value_of (r : reply) : out_val_t :=
  match r with r_string t => out_text t | r_status t => out_text (seen t) | r_integer z => out_int64 z | _ => out_null end.
Definition parse_reply_to_ret (r : reply) (outs : ret_t) : ret_t :=
  match r with
  | r_array l => emplace_all (map value_of l) (set_dim (length l) 1 outs)
  | r => emplace_back (value_of r) (set_dim 1 1 outs)
  end.
Definition query_redis (self : nat) (outs : ret_t) (sql : text) (args : list val_in_t) : M (err_t * ret_t) :=
  let outs := clear outs in
  do connected <- is_connected self;
  if negb connected then ret (Some not_connected, outs) else
  do r <- exec_command self sql args;
  match r with
  | None => ret (Some io_error, outs)
  | Some (r_error t) => do _ <- set_error self (error_text t (lit "Redis query error")); ret (Some bad_message, outs)
  | Some r => ret (None, parse_reply_to_ret r outs)
  end.
Definition begin_redis (self : nat) : M err_t := do r <- exec_redis self (lit "MULTI") []; ret (ec r).
Definition commit_redis (self : nat) : M err_t := do r <- exec_redis self (lit "EXEC") []; ret (ec r).
Definition rollback_redis (self : nat) : M err_t := do r <- exec_redis self (lit "DISCARD") []; ret (ec r).
Definition redis_conn (self : nat) : DbConn (world C) :=
  {| exec_impl := exec_redis self; query_impl := query_redis self; begin_impl := begin_redis self; commit_impl := commit_redis self; rollback_impl := rollback_redis self |}.

(** The time that is waited for: seconds and microseconds. *)
Definition adopt (self : nat) (c : C) : M unit :=
  fun w => let h := Owner.next (own w) in let* o := (let* (_, i) := Owner.get self (own w) in Owner.open self i (own w)) in Some (tt, World o (<[h := c]> (contexts w))).
Definition connect (self : nat) (host : text) (port timeout_ms : Z) (password : text) (db : Z) : M bool :=
  do _ <- close self; do _ <- set_error self [];
  match lib_connect lib (c_string host) port (Z.quot timeout_ms 1000) (Z.rem timeout_ms 1000 * 1000) with
  | None => do _ <- set_error self (lit "Failed to allocate redis context"); ret false
  | Some ctx =>
      do _ <- adopt self ctx;
      if negb (lib_err lib ctx =? 0)%Z then do _ <- set_error self (lib_errstr lib ctx); do _ <- close self; ret false else
      do ok <- (match password with [] => ret true | _ => do r <- exec_redis self (lit "AUTH ?") [in_text (Some password)]; ret (bool_decide (ec r = None)) end);
      if negb ok then ret false else
      if (0 <? db)%Z then do r <- exec_redis self (lit "SELECT ?") [in_int64 db]; ret (bool_decide (ec r = None)) else ret true
  end.
End Redis.
End Redis.
