(* ===== verification/RedisThm.v ===== *)
(** * Redis: theorems

    The command that is sent is the template with its places filled in order, as long as
    the pointers to its numbers hold; replies as results and tables; and where the code
    does otherwise than it means to. *)

From Stdlib Require Import Ascii String ZArith Lia List Bool.
From stdpp Require Import base tactics list option gmap.
From S2P Require Import Prelude CText Db DbThm Redis.

Open Scope hj_scope.
Open Scope nat_scope.
Import Owner Redis.

(** ** Commands *)

(** The pieces between blanks. *)
Fixpoint pieces (s : text) : list text :=
  match s with
  | [] => [[]]
  | a :: s => if decide (a = " "%char) then [] :: pieces s else match pieces s with p :: ps => (a :: p) :: ps | [] => [[a]] end
  end.
Definition words_of (s : text) : list text := List.filter (fun t => negb (bool_decide (t = []))) (pieces s).
Definition is_place (t : text) : bool := text_eqb t (lit "?") || text_eqb t (lit "%s").

Section Words.
Variable to_string_double : Z -> text.
Definition value_text (v : val_in_t) : text :=
  match v with in_null => [] | in_int64 z => sdec z | in_double d => to_string_double d | in_text t | in_blob t => seen t end.
(** The places take the values in order; one without a value is left out. *)
Fixpoint fill (ts : list text) (args : list val_in_t) : list text :=
  match ts with
  | [] => []
  | t :: ts => if is_place t then match args with [] => fill ts [] | a :: args => value_text a :: fill ts args end else t :: fill ts args
  end.
Definition is_number (v : val_in_t) : bool := match v with in_int64 _ | in_double _ => true | _ => false end.
Definition numbers (l : list val_in_t) : nat := length (List.filter is_number l).
(** The pointers hold: there is one number at most, or every number has more than 15 characters. *)
Definition pointers_hold (args : list val_in_t) : Prop := numbers args <= 1 \/ Forall (fun v => is_number v = true -> short (value_text v) = false) args.

Lemma pieces_cons s : exists p ps, pieces s = p :: ps.
Proof. destruct s as [|a s]; cbn; [now eexists _, _|]. destruct (decide (a = " "%char)); [now eexists _, _|]. destruct (pieces s); now eexists _, _. Qed.
Lemma scan_pieces s token p :
  scan to_string_double s token p = fold_left (fun p t => end_token to_string_double t p) (match pieces s with x :: xs => (token ++ x) :: xs | [] => [] end) p.
Proof.
  revert token p. induction s as [|a s IH]; intros token p; cbn [scan pieces]; [now rewrite app_nil_r|]. destruct (pieces_cons s) as (x & xs & E). destruct (decide (a = " "%char)).
  - rewrite IH, E. cbn. now rewrite app_nil_r.
  - rewrite IH, E, <- app_assoc. reflexivity.
Qed.
Lemma fold_words l p : fold_left (fun p t => end_token to_string_double t p) l p = fold_left (fun p t => add_token to_string_double t p) (List.filter (fun t => negb (bool_decide (t = []))) l) p.
Proof. revert p. induction l as [|[|a t] l IH]; intros p; cbn [fold_left List.filter]; [easy| |]; rewrite IH; [easy|]. now rewrite bool_decide_eq_false_2. Qed.
Lemma build_words s args : build to_string_double s args = (fold_left (fun p t => add_token to_string_double t p) (words_of s) (Command [] 0 0 [], args)).1.
Proof. unfold build, words_of. rewrite scan_pieces, <- fold_words. destruct (pieces_cons s) as (x & xs & ->). reflexivity. Qed.

(** The words resolve to [ts], and what is left can be added. *)
Definition sound (c : command) (ts : list text) : Prop := all_words c (argv c) = Some ts.
Definition room (c : command) (rest : list val_in_t) : Prop :=
  (arg_buffers c = [] /\ numbers rest <= 1) \/ numbers rest = 0 \/ (Forall (fun t => short t = false) (arg_buffers c) /\ Forall (fun v => is_number v = true -> short (value_text v) = false) rest).
Lemma all_words_app c l k : all_words c (l ++ k) = let* a := all_words c l in let* b := all_words c k in Some (a ++ b).
Proof.
  induction l as [|w l IH]; cbn; [now destruct (all_words c k)|]. destruct (resolve c w); [|easy]. rewrite IH. destruct (all_words c l); [|easy]. now destruct (all_words c k).
Qed.
Lemma all_words_ext c c' l ts : (forall w t, In w l -> resolve c w = Some t -> resolve c' w = Some t) -> all_words c l = Some ts -> all_words c' l = Some ts.
Proof.
  revert ts. induction l as [|w l IH]; intros ts H; cbn; [easy|]. destruct (resolve c w) as [t|] eqn:E; [|easy]. rewrite (H w t (or_introl eq_refl) E).
  destruct (all_words c l) as [us|] eqn:El; [|easy]. rewrite (IH us); [easy| |easy]. intros w' t' Hw. apply H. now right.
Qed.
Lemma push_word_sound c ts t : sound c ts -> sound (push_word (Stays t) c) (ts ++ [t]).
Proof.
  unfold sound. intros H. cbn [push_word argv]. rewrite all_words_app. rewrite (all_words_ext c _ _ ts); [easy| |exact H]. intros [u|m i] u'; now cbn.
Qed.
Lemma push_number_sound c ts t : sound c ts -> (arg_buffers c = [] \/ Forall (fun t => short t = false) (arg_buffers c)) -> sound (push_back_of t c) (ts ++ [t]).
Proof.
  unfold sound. intros H Hb. unfold push_back_of. set (c1 := push_buffer t c). assert (Eb : arg_buffers c1 = arg_buffers c ++ [t]) by (unfold c1, push_buffer; now destruct (_ <? _)).
  assert (Ea : argv c1 = argv c) by (unfold c1, push_buffer; now destruct (_ <? _)). clearbody c1. cbn [push_word argv]. rewrite Ea, all_words_app.
  rewrite (all_words_ext c _ _ ts); [| |exact H].
  - cbn. rewrite Eb, length_app. cbn. replace (length (arg_buffers c) + 1 - 1) with (length (arg_buffers c)) by lia. rewrite lookup_app_r, Nat.sub_diag by lia. cbn. now rewrite Nat.eqb_refl.
  - intros [u|m i] u' _; [easy|]. cbn [resolve push_word arg_buffers moves]. rewrite Eb. destruct (arg_buffers c !! i) as [b|] eqn:E; [|easy].
    rewrite lookup_app_l by (apply lookup_lt_Some in E; exact E). rewrite E. destruct Hb as [Hb|Hb]; [rewrite Hb in E; easy|].
    assert (Hs : short b = false) by (rewrite Forall_lookup in Hb; exact (Hb i b E)). rewrite Hs. cbn. rewrite !orb_true_r. easy.
Qed.
Lemma add_token_sound t c args ts : sound c ts -> room c args -> let '(c', args') := add_token to_string_double t (c, args) in
  room c' args' /\ exists us, sound c' (ts ++ us) /\ forall rest, fill (t :: rest) args = us ++ fill rest args'.
Proof.
  intros Hs Hr. unfold add_token. fold (is_place t). cbn [fill]. destruct (is_place t).
  2: { split; [exact Hr|]. exists [t]. split; [now apply push_word_sound|easy]. }
  destruct args as [|a args]; [split; [exact Hr|]; exists []; rewrite app_nil_r; now split|].
  assert (Hv : forall c', (is_number a = false -> arg_buffers c' = arg_buffers c) -> (is_number a = true -> arg_buffers c' = arg_buffers c ++ [value_text a]) -> room c' args).
  { intros c' E1 E2. unfold room, numbers in *. cbn [List.filter] in Hr. destruct (is_number a) eqn:En.
    - rewrite (E2 eq_refl). destruct Hr as [[Hr1 Hr2]|[Hr|[Hr1 Hr2]]]; cbn [length] in *; [right; left; lia|lia|]. apply Forall_cons_iff in Hr2 as [Ha Hr2]. right. right. split; [|easy].
      apply Forall_app. split; [easy|]. repeat constructor. now apply Ha.
    - rewrite (E1 eq_refl). destruct Hr as [Hr|[Hr|[Hr1 Hr2]]]; [now left|right; now left|]. apply Forall_cons_iff in Hr2 as [_ Hr2]. right. now right. }
  assert (Hb : is_number a = true -> arg_buffers c = [] \/ Forall (fun t => short t = false) (arg_buffers c)).
  { intros En. unfold room, numbers in Hr. cbn [List.filter] in Hr. rewrite En in Hr. cbn [length] in Hr. destruct Hr as [[Hr _]|[Hr|[Hr _]]]; [now left|lia|now right]. }
  assert (Ep : forall u, arg_buffers (push_back_of u c) = arg_buffers c ++ [u]) by (intros u; unfold push_back_of, push_buffer; now destruct (_ <? _)).
  split; [apply Hv; intros E; destruct a; try easy; cbn [append_val_in]; rewrite ?Ep; easy|]. exists [value_text a]. split; [|easy].
  destruct a; cbn [append_val_in value_text]; try (now apply push_word_sound); apply push_number_sound; try easy; now apply Hb.
Qed.
Lemma words_sound l : forall c args ts, sound c ts -> room c args -> sound (fold_left (fun p t => add_token to_string_double t p) l (c, args)).1 (ts ++ fill l args).
Proof.
  induction l as [|t l IH]; intros c args ts Hs Hr; cbn [fold_left]; [cbn; now rewrite app_nil_r|].
  pose proof (add_token_sound t c args ts Hs Hr) as H. destruct (add_token to_string_double t (c, args)) as [c' args']. destruct H as (Hr' & us & Hs' & Hf). rewrite Hf, app_assoc. now apply IH.
Qed.
Lemma command_sound s args : pointers_hold args -> let c := build to_string_double s args in all_words c (argv c) = Some (fill (words_of s) args).
Proof.
  intros Hp. rewrite build_words. cbv zeta. change (fill (words_of s) args) with ([] ++ fill (words_of s) args). apply words_sound; [easy|].
  destruct Hp as [Hp|Hp]; [left; now split|]. right. right. now split.
Qed.
End Words.

(** ** Replies *)

Section Client.
Context {C : Type} (lib : hiredis C).
Implicit Types w : world C.
Record fit w : Prop := { fit_own : owned (own w); fit_ctx h : h ∈ live (own w) -> is_Some (contexts w !! h) }.
(** The object has that handle, with that context, and the others are as they were. *)
Definition keeps w w' : Prop := fit w' /\ live (own w') = live (own w) /\ forall o, fst <$> objects (own w') !! o = fst <$> objects (own w) !! o.
Definition exec_reply (r : option reply) : exec_result :=
  match r with
  | None => ExecResult (Some io_error) 0 0 | Some (r_error _) => ExecResult (Some bad_message) 0 0
  | Some (r_integer z) => ExecResult None z 0 | Some (r_status (Some t)) => ExecResult None (if text_eqb t (lit "OK") then 1 else 0) 0
  | Some _ => ExecResult None 0 0
  end.
Definition query_reply (r : option reply) (p : err_t * ret_t) : Prop :=
  match r with
  | None => p = (Some io_error, ret_new) | Some (r_error _) => p = (Some bad_message, ret_new)
  | Some (r_array l) => p.1 = None /\ table 1 (map (fun r => [value_of r]) l) p.2
  | Some r => p.1 = None /\ table 1 [[value_of r]] p.2
  end.

Lemma set_error_keeps self e w p i : fit w -> objects (own w) !! self = Some (p, i) -> post (set_error self e) w (fun _ w' => keeps w w' /\ contexts w' = contexts w).
Proof.
  intros Hf Hi. unfold set_error, with_own, post, Owner.get. rewrite Hi. unfold put. rewrite Hi. split; [|easy]. split; [|split; [easy|]].
  - split; [|exact (fit_ctx w Hf)]. apply (put_owned (own w) self p e i); [apply Hf|easy|]. unfold put. now rewrite Hi.
  - intros o. cbn. destruct (decide (self = o)) as [<-|]; [now rewrite lookup_insert_eq, Hi|now rewrite lookup_insert_ne].
Qed.
Lemma put_context_fit h c w : fit w -> keeps w (World (own w) (<[h := c]> (contexts w))).
Proof.
  intros Hf. split; [|easy]. split; [apply Hf|]. intros k Hk. cbn. destruct (decide (h = k)) as [<-|]; [rewrite lookup_insert_eq; now eexists|]. rewrite lookup_insert_ne by easy. now apply (fit_ctx w Hf).
Qed.
Lemma keeps_trans w1 w2 w3 : keeps w1 w2 -> keeps w2 w3 -> keeps w1 w3.
Proof. intros (A & B & E) (A' & B' & E'). split; [easy|]. split; [congruence|]. intros o. now rewrite E'. Qed.
Lemma keeps_object w w' self p i : keeps w w' -> objects (own w) !! self = Some (p, i) -> exists j, objects (own w') !! self = Some (p, j).
Proof. intros (_ & _ & E) Hi. specialize (E self). rewrite Hi in E. destruct (objects (own w') !! self) as [[q j]|]; [|easy]. cbn in E. injection E as ->. now exists j. Qed.

Lemma exec_command_post self h c i s args w : fit w -> objects (own w) !! self = Some (Some h, i) -> contexts w !! h = Some c -> pointers_hold (to_string_double lib) args ->
  let ws := fill (to_string_double lib) (words_of s) args in
  post (exec_command lib self s args) w (fun r w' => keeps w w' /\
    match ws with [] => r = None /\ contexts w' = contexts w | _ => let '(rep, c') := lib_command lib c ws in r = rep /\ contexts w' = <[h := c']> (contexts w) end).
Proof.
  intros Hf Hi Hc Hp ws. pose proof (command_sound (to_string_double lib) s args Hp) as Hw. cbv zeta in Hw. fold ws in Hw. unfold exec_command.
  destruct (argv (build (to_string_double lib) s args)) as [|a l] eqn:Ea.
  - cbn in Hw. injection Hw as Hw. rewrite <- Hw. apply post_bind. eapply post_weaken; [exact (set_error_keeps self _ w _ i Hf Hi)|]. intros ? w' [K E]. apply post_ret. now split.
  - assert (Hn : ws <> []).
    { intros E. rewrite E in Hw. cbn in Hw. destruct (resolve _ a); [|easy]. now destruct (all_words _ l). }
    apply post_bind. unfold get_object, post at 1, Owner.get. rewrite Hi. cbn [fst]. apply post_bind. unfold lift, post at 1. rewrite Hw. apply post_bind. unfold deref, post at 1.
    rewrite decide_True by exact (owned_live _ (fit_own w Hf) _ _ _ Hi). rewrite Hc.
    assert (Em : match ws with [] => (None, c) | _ => lib_command lib c ws end = lib_command lib c ws) by (destruct ws; easy). destruct (lib_command lib c ws) as [rep c'] eqn:El.
    apply post_bind. unfold put_context, post at 1. pose proof (put_context_fit h c' w Hf) as K1.
    assert (Hgoal : forall (r : option reply) w', keeps w w' -> contexts w' = <[h:=c']> (contexts w) -> r = rep ->
      keeps w w' /\ match ws with [] => r = None /\ contexts w' = contexts w | _ :: _ => r = rep /\ contexts w' = <[h:=c']> (contexts w) end) by (intros r w' K E ->; split; [easy|]; destruct ws; easy).
    destruct rep as [rep|]; [apply post_ret; now apply Hgoal|]. apply post_bind.
    eapply post_weaken; [refine (set_error_keeps self _ _ (Some h) i (proj1 K1) _); exact Hi|]. intros ? w' [K E]. apply post_ret. apply Hgoal; [exact (keeps_trans _ _ _ K1 K)|exact E|easy].
Qed.
Lemma connected_post self h c i w : fit w -> objects (own w) !! self = Some (Some h, i) -> contexts w !! h = Some c -> is_connected lib self w = Some ((lib_err lib c =? 0)%Z, w).
Proof.
  intros Hf Hi Hc. unfold is_connected, bind, get_object, Owner.get. rewrite Hi. cbn [fst]. unfold deref. rewrite decide_True by exact (owned_live _ (fit_own w Hf) _ _ _ Hi). now rewrite Hc.
Qed.
(** C36: on a connected client, as long as the pointers to the numbers hold, the command that
    is sent is the words of the template with its places filled in order, once; the reply
    is told as the result of a statement, or as a table with a row for each element; and no
    handle changes. *)
Theorem redis_answers self h c i sql args outs w : fit w -> objects (own w) !! self = Some (Some h, i) -> contexts w !! h = Some c -> lib_err lib c = 0%Z ->
  pointers_hold (to_string_double lib) args ->
  let ws := fill (to_string_double lib) (words_of sql) args in
  let answer := match ws with [] => (None, c) | _ => lib_command lib c ws end in
  post (exec_redis lib self sql args) w (fun r w' => keeps w w' /\ contexts w' !! h = Some answer.2 /\ r = exec_reply answer.1) /\
  post (query_redis lib self outs sql args) w (fun r w' => keeps w w' /\ contexts w' !! h = Some answer.2 /\ query_reply answer.1 r).
Proof.
  intros Hf Hi Hc He Hp ws answer. pose proof (connected_post self h c i w Hf Hi Hc) as Hcon. rewrite He in Hcon. cbn in Hcon.
  pose proof (exec_command_post self h c i sql args w Hf Hi Hc Hp) as Hx. cbv zeta in Hx. fold ws in Hx.
  assert (Hy : post (exec_command lib self sql args) w (fun r w' => keeps w w' /\ contexts w' !! h = Some answer.2 /\ r = answer.1)).
  { eapply post_weaken; [exact Hx|]. intros r w' [K H]. split; [exact K|]. unfold answer. destruct ws as [|t ts]; [destruct H as [-> ->]; now split|].
    destruct (lib_command lib c (t :: ts)) as [rep c']. destruct H as [-> ->]. split; [apply lookup_insert_eq|easy]. }
  split; unfold exec_redis, query_redis; apply post_bind; unfold post at 1; rewrite Hcon; cbn [negb]; apply post_bind; (eapply post_weaken; [exact Hy|]); intros r w' (K & E & ->).
  - destruct answer.1 as [[t|[t|]|z|t|l|]|]; try (now apply post_ret). destruct (keeps_object w w' self _ i K Hi) as [j Hj]. apply post_bind.
    eapply post_weaken; [exact (set_error_keeps self _ w' _ j (proj1 K) Hj)|]. intros ? w'' [K' E']. apply post_ret. split; [exact (keeps_trans _ _ _ K K')|]. now rewrite E'.
  - assert (H1 : forall v, table 1 [[v]] (emplace_back v (set_dim 1 1 (clear outs)))) by (intros v; repeat split; repeat constructor).
    destruct answer.1 as [[t|t|z|t|l|]|]; try (apply post_ret; split; [exact K|]; split; [exact E|]; split; [easy|apply H1]); try (now apply post_ret).
    + destruct (keeps_object w w' self _ i K Hi) as [j Hj]. apply post_bind. eapply post_weaken; [exact (set_error_keeps self _ w' _ j (proj1 K) Hj)|]. intros ? w'' [K' E']. apply post_ret.
      split; [exact (keeps_trans _ _ _ K K')|]. split; [now rewrite E'|easy].
    + apply post_ret. split; [exact K|]. split; [exact E|]. split; [easy|]. cbn [snd parse_reply_to_ret]. destruct (emplace_all_data (map value_of l) (set_dim (length l) 1 (clear outs))) as (A & B & D).
      unfold table. rewrite A, B, D, length_map. split; [easy|]. split; [easy|]. split; [cbn; clear; induction l as [|r l IH]; [easy|]; cbn; now rewrite IH|].
      clear. induction l; cbn; now constructor.
Qed.
End Client.

(** A server that keeps a list of strings. *)
Definition push_server : hiredis (list text) :=
  {| lib_connect _ _ _ _ := Some []; lib_err _ := 0%Z; lib_errstr _ := [];
     lib_command c ws := match ws with
       | [_; v] => (Some (r_integer (Z.of_nat (S (length c)))), c ++ [v])
       | [_] => (Some (r_array (map r_string c)), c)
       | _ => (Some (r_error (Some (lit "ERR"))), c) end;
     to_string_double _ := lit "0.000000" |}.
Definition push_world : world (list text) := World (State {[0 := (Some 0, [])]} {[0]} 1) {[0 := [lit "a"]]}.
Lemma push_world_fit : fit push_world.
Proof.
  split; [split; cbn|cbn].
  - intros k h i H. apply lookup_singleton_Some in H as [<- [= <- <-]]. set_solver.
  - intros h Hh. apply elem_of_singleton in Hh. subst h. exists 0, []. reflexivity.
  - intros k k' h i j H H'. apply lookup_singleton_Some in H as [<- _]. now apply lookup_singleton_Some in H' as [<- _].
  - intros h Hh. apply elem_of_singleton in Hh. lia.
  - intros h Hh. apply elem_of_singleton in Hh. subst h. rewrite lookup_singleton_eq. now eexists.
Qed.
Lemma redis_answers_witness :
  let ws := fill (to_string_double push_server) (words_of (lit "PUSH  ?")) [in_int64 (-42)] in
  let answer := match ws with [] => (None, [lit "a"]) | _ => lib_command push_server [lit "a"] ws end in
  ws = [lit "PUSH"; lit "-42"] /\
  (post (exec_redis push_server 0 (lit "PUSH  ?") [in_int64 (-42)]) push_world (fun r w' => keeps push_world w' /\ contexts w' !! 0 = Some answer.2 /\ r = exec_reply answer.1) /\
   post (query_redis push_server 0 ret_new (lit "PUSH  ?") [in_int64 (-42)]) push_world (fun r w' => keeps push_world w' /\ contexts w' !! 0 = Some answer.2 /\ query_reply answer.1 r)).
Proof.
  split; [reflexivity|]. refine (redis_answers push_server 0 0 [lit "a"] [] (lit "PUSH  ?") [in_int64 (-42)] ret_new push_world push_world_fit _ _ eq_refl _); [reflexivity|reflexivity|].
  left. cbv. lia.
Defined.

(** ** What the code does otherwise *)

(** Two short numbers: the second moves the first, and the command has a pointer to where it was. *)
Lemma two_numbers_dangle dtoa a b : short (sdec a) = true -> let c := build dtoa (lit "HSET k f ? g ?") [in_int64 a; in_int64 b] in all_words c (argv c) = None.
Proof.
  intros Ha. cbv zeta. rewrite build_words. change (words_of (lit "HSET k f ? g ?")) with [lit "HSET"; lit "k"; lit "f"; lit "?"; lit "g"; lit "?"].
  assert (E : forall x y, (fold_left (fun p t => add_token dtoa t p) [lit "HSET"; lit "k"; lit "f"; lit "?"; lit "g"; lit "?"] (Command [] 0 0 [], [in_int64 x; in_int64 y])).1 =
    Command [sdec x; sdec y] 2 2 [Stays (lit "HSET"); Stays (lit "k"); Stays (lit "f"); Buffer 1 0; Stays (lit "g"); Buffer 2 1]) by reflexivity.
  rewrite E. cbn -[sdec short]. now rewrite Ha.
Qed.
(** A transaction that the server refused to make is told to be committed. *)
Definition watching : hiredis unit :=
  {| lib_connect _ _ _ _ := Some tt; lib_err _ := 0%Z; lib_errstr _ := [];
     lib_command c ws := (Some (if bool_decide (ws = [lit "EXEC"]) then r_other else r_status (Some (lit "OK"))), c); to_string_double _ := [] |}.
Lemma aborted_is_committed : let w := World (State {[0 := (Some 0, [])]} {[0]} 1) {[0 := tt]} in commit_redis watching 0 w = Some (None, w).
Proof. vm_compute. reflexivity. Qed.
(** After a password that was refused [connect] is false, and the client is connected. *)
Definition refusing : hiredis unit :=
  {| lib_connect _ _ _ _ := Some tt; lib_err _ := 0%Z; lib_errstr _ := []; lib_command c ws := (Some (r_error (Some (lit "WRONGPASS"))), c); to_string_double _ := [] |}.
Lemma refused_but_connected :
  (do _ <- redis 0; do a <- connect refusing 0 (lit "localhost") 6379 2000 (lit "secret") 0; do b <- is_connected refusing 0; ret (a, b)) (World Owner.init ∅) =
  Some ((false, true), World (State {[0 := (Some 0, lit "WRONGPASS")]} {[0]} 1) {[0 := tt]}).
Proof. vm_compute. reflexivity. Qed.
(** A place inside a word is not a place, and one without a value is left out. *)
Lemma places_are_words dtoa : fill dtoa (words_of (lit "SET key:? ?")) [in_int64 7] = [lit "SET"; lit "key:?"; lit "7"] /\ fill dtoa (words_of (lit "SET k ?")) [] = [lit "SET"; lit "k"].
Proof. split; reflexivity. Qed.
