(* ===== verification/Qr.v ===== *)
(** * QR codes

    [ai/qrcode.hpp]: a text is drawn as an image of the modules that the library gives,
    images are written to and read from PGM files.  What the library makes of a text, and
    finds in an image, is a parameter. *)

From Stdlib Require Import Ascii String ZArith Lia List Bool.
From stdpp Require Import base tactics list option gmap.
From S2P Require Import Prelude CText.

Open Scope hj_scope.
Open Scope Z_scope.

Module Qr.
Export State.

Inductive error_code := invalid_text | invalid_scale | invalid_margin | invalid_bitmap | encode_failed | pgm_write_failed | allocation_failed | resize_failed | begin_parse_failed
  | bm_data_insufficient | pgm_open_failed | pgm_read_failed | magic_parse_failed | token_value_convert_failed | token_value_out_of_range | token_empty.
Definition message (e : error_code) : string :=
  match e with
  | invalid_text => "Invalid text" | invalid_scale => "Invalid scale" | invalid_margin => "Invalid margin" | invalid_bitmap => "Invalid bitmap"
  | encode_failed => "QR code encoding failed" | pgm_write_failed => "Failed to write PGM file" | allocation_failed => "Memory allocation failed"
  | resize_failed => "Failed to resize QR code parser" | begin_parse_failed => "Failed to begin QR code parsing" | bm_data_insufficient => "Bitmap data is insufficient"
  | pgm_open_failed => "Failed to open PGM file" | pgm_read_failed => "Failed to read PGM file" | magic_parse_failed => "Failed to parse PGM magic number"
  | token_value_convert_failed => "Failed to convert token value" | token_value_out_of_range => "Token value out of range" | token_empty => "Token is empty"
  end%string.
(** An image: bytes by rows. *)
Record bitmap := Bitmap { width : Z; height : Z; data : list Z }.
Definition blank : bitmap := Bitmap 0 0 [].
(** A call gives an error or none, or throws. *)
Inductive outcome := Done (e : option error_code) | Thrown.

(** ** The library and the system *)

Record qrcode := Code { modules : Z; module_data : list Z }.
Record library := Library
  { encode_string : text -> Z -> Z -> option qrcode;
    (** What the allocator gives: a vector of so many bytes, or an exception. *)
    allocates : Z -> bool;
    quirc_new : bool; quirc_resize : Z -> Z -> bool; quirc_begin : Z -> Z -> option (Z * Z);
    quirc_decode : list Z -> Z -> Z -> list (option text) }.
(** The codes and parsers that are not freed; the files; how much a file can grow, and how
    much of what is written to a stream is kept back until it is closed. *)
Abbreviation path := (list ascii).
Record world := World { codes : nat; parsers : nat; files : gmap path text }.
Record system := System { opens_out : path -> bool; room : nat; kept_back : nat -> nat }.

Section Qr.
Variables (lib : library) (sys : system).
Abbreviation M := (State.M world).
Definition new_code : M unit := modify (fun w => World (S (codes w)) (parsers w) (files w)).
Definition free_code : M unit := fun w => match codes w with O => None | S n => Some (tt, World n (parsers w) (files w)) end.
Definition new_parser : M unit := modify (fun w => World (codes w) (S (parsers w)) (files w)).
Definition free_parser : M unit := fun w => match parsers w with O => None | S n => Some (tt, World (codes w) n (files w)) end.

(** ** Drawing *)

(** [int] arithmetic. *)
Definition int (z : Z) : option Z := if (- 2 ^ 31 <=? z) && (z <? 2 ^ 31) then Some z else None.
Definition size_max : Z := 2 ^ 64 - 1.
(** A byte of a vector. *)
Definition read_byte (l : list Z) (i : Z) : option Z := if i <? 0 then None else l !! Z.to_nat i.
Definition write_byte (i v : Z) (l : list Z) : option (list Z) := if (0 <=? i) && (i <? Z.of_nat (length l)) then Some (<[Z.to_nat i := v]> l) else None.
(** [for(int i = 0; i < n; ++i)] *)
Definition for_int {S} (n : Z) (f : Z -> S -> option S) (s : S) : option S := for_up (fun i => f (Z.of_nat i)) 0 (Z.to_nat n) s.
Definition draw_row (img_size row x0 scale : Z) (d : list Z) : option (list Z) :=
  for_int scale (fun x d => write_byte (wrap 64 (row + x0 + x)) 0 d) d.
Definition draw_module (img_size y0 x0 scale : Z) (d : list Z) : option (list Z) :=
  for_int scale (fun y d => draw_row img_size (wrap 64 ((y0 + y) * img_size)) x0 scale d) d.
Definition draw_at (q : qrcode) (scale margin img_size r c : Z) (d : list Z) : option (list Z) :=
  let* i := int (r * modules q) in let* i := int (i + c) in
  let* m := read_byte (module_data q) i in
  if negb (Z.odd m) then Some d else
  let* y := int (margin + r) in let* x := int (margin + c) in
  draw_module img_size (wrap 64 (y * scale)) (wrap 64 (x * scale)) scale d.
Definition draw (q : qrcode) (scale margin img_size : Z) (d : list Z) : option (list Z) :=
  for_int (modules q) (fun r d => for_int (modules q) (fun c d => draw_at q scale margin img_size r c d) d) d.

(** The bitmap is changed in place. *)
Definition encode (out : bitmap) (txt : text) (version ec_level scale margin : Z) : M (outcome * bitmap) :=
  match txt with
  | [] => ret (Done (Some invalid_text), out)
  | _ =>
      if scale <=? 0 then ret (Done (Some invalid_scale), out) else
      if margin <? 0 then ret (Done (Some invalid_margin), out) else
      match encode_string lib (c_string txt) version ec_level with
      | None => ret (Done (Some encode_failed), out)
      | Some q =>
          do _ <- new_code;
          if modules q <=? 0 then do _ <- free_code; ret (Done (Some encode_failed), out) else
          let side := wrap 64 (modules q + wrap 64 (2 * margin)) in
          let img_size64 := wrap 64 (side * scale) in
          if img_size64 =? 0 then do _ <- free_code; ret (Done (Some encode_failed), out) else
          if size_max <? img_size64 then do _ <- free_code; ret (Done (Some encode_failed), out) else
          if (0 <? img_size64) && (size_max / img_size64 <? img_size64) then do _ <- free_code; ret (Done (Some encode_failed), out) else
          let pixels := wrap 64 (img_size64 * img_size64) in
          let out := Bitmap (sint_of 32 img_size64) (sint_of 32 img_size64) (data out) in
          if negb (allocates lib pixels) then do _ <- free_code; ret (Thrown, out) else
          do d <- lift (draw q scale margin img_size64 (replicate (Z.to_nat pixels) 255));
          do _ <- free_code; ret (Done None, Bitmap (width out) (height out) d)
      end
  end.

(** ** PGM files *)

Definition byte_char (b : Z) : ascii := ascii_of_N (Z.to_N b).
Definition sdec (z : Z) : text := if z <? 0 then lit "-" ++ dec (- z) else dec z.
Definition header (bm : bitmap) : text := lit "P5" ++ [LF] ++ sdec (width bm) ++ lit " " ++ sdec (height bm) ++ [LF] ++ lit "255" ++ [LF].
Definition pgm_text (bm : bitmap) : text := header bm ++ map byte_char (data bm).
(** The file is as long as there is room; the failure is seen before the stream is closed,
    if it is one of what was not kept back. *)
Definition set_file (p : path) (t : text) : M unit := modify (fun w => World (codes w) (parsers w) (<[p := t]> (files w))).
Definition encode_file (pgm : path) (txt : text) (version ec_level scale margin : Z) : M outcome :=
  do r <- encode blank txt version ec_level scale margin;
  match r with
  | (Done None, bm) =>
      if negb (opens_out sys (c_string pgm)) then ret (Done (Some pgm_write_failed)) else
      let t := pgm_text bm in
      do _ <- set_file (c_string pgm) (take (room sys) t);
      if (room sys <? length t - kept_back sys (length t))%nat then ret (Done (Some pgm_write_failed)) else ret (Done None)
  | (e, _) => ret e
  end.

(** ** Parsing *)

Definition decode (results : list text) (bm : bitmap) : M (outcome * list text) :=
  if bool_decide (data bm = []) || (width bm <=? 0) || (height bm <=? 0) then ret (Done (Some invalid_bitmap), results) else
  if negb (quirc_new lib) then ret (Done (Some allocation_failed), results) else
  do _ <- new_parser;
  if negb (quirc_resize lib (width bm) (height bm)) then do _ <- free_parser; ret (Done (Some resize_failed), results) else
  match quirc_begin lib (width bm) (height bm) with
  | None => do _ <- free_parser; ret (Done (Some begin_parse_failed), results)
  | Some (w, h) =>
      let expect := wrap 64 (wrap 64 w * wrap 64 h) in
      if Z.of_nat (length (data bm)) <? expect then do _ <- free_parser; ret (Done (Some bm_data_insufficient), results) else
      let found := omap id (quirc_decode lib (take (Z.to_nat expect) (data bm)) w h) in
      do _ <- free_parser; ret (Done None, results ++ found)
  end.

(** The token, and the rest of the file. *)
Definition skip_line (f : text) : text := match after LF f with Some f => f | None => [] end.
Fixpoint token_end (f : text) : text * text :=
  match f with
  | [] => ([], [])
  | c :: f => if is_space c then ([], f) else if decide (c = "#"%char) then ([], skip_line f) else let '(tk, f) := token_end f in (c :: tk, f)
  end.
Fixpoint token_start (fuel : nat) (f : text) : option (text * text) :=
  match fuel, f with
  | S fuel, c :: f => if is_space c then token_start fuel f else if decide (c = "#"%char) then token_start fuel (skip_line f) else let '(tk, f) := token_end f in Some (c :: tk, f)
  | _, _ => None
  end.
Definition read_token (f : text) : option (text * text) := token_start (length f) f.
(** [std::stoi]: a number and what follows; an exception without one, or out of range. *)
Definition stoi (s : text) : option Z :=
  let s := skip is_space s in
  let '(neg, s) := match s with a :: t => if decide (a = "-"%char) then (true, t) else if decide (a = "+"%char) then (false, t) else (false, s) | [] => (false, s) end in
  match span is_digit s with [] => None | d => int (if (neg : bool) then - value d else value d) end.
Definition char_byte (a : ascii) : Z := code a.
Definition decode_file (results : list text) (pgm : path) : M (outcome * list text) :=
  do f <- gets (fun w => files w !! c_string pgm);
  match f with
  | None => ret (Done (Some pgm_open_failed), results)
  | Some f =>
      match read_token f with
      | Some (magic, f) =>
          if negb (text_eqb magic (lit "P5")) then ret (Done (Some magic_parse_failed), results) else
          match read_token f with
          | None => ret (Done (Some token_empty), results)
          | Some (wtok, f) =>
              match read_token f with
              | None => ret (Done (Some token_empty), results)
              | Some (htok, f) =>
                  match read_token f with
                  | None => ret (Done (Some token_empty), results)
                  | Some (maxvtok, f) =>
                      match stoi wtok, stoi htok, stoi maxvtok with
                      | Some w, Some h, Some maxv =>
                          if (w <=? 0) || (h <=? 0) || (maxv <=? 0) || (255 <? maxv) then ret (Done (Some token_value_out_of_range), results) else
                          let n := wrap 64 (w * h) in
                          if negb (allocates lib n) then ret (Thrown, results) else
                          if Z.of_nat (length f) <? n then ret (Done (Some pgm_read_failed), results) else
                          decode results (Bitmap w h (map char_byte (take (Z.to_nat n) f)))
                      | _, _, _ => ret (Done (Some token_value_convert_failed), results)
                      end
                  end
              end
          end
      | None => ret (Done (Some magic_parse_failed), results)
      end
  end.
End Qr.
End Qr.
