(* ===== verification/QrThm.v ===== *)
(** * QR codes: theorems

    The image of a code, pixel by pixel; files that are read back as the image that was
    written; every error with its cause and everything freed; and where the code does
    otherwise than it means to. *)

From Stdlib Require Import Ascii String ZArith Lia List Bool.
From stdpp Require Import base tactics list option gmap.
From S2P Require Import Prelude Ints CText Qr.

Open Scope hj_scope.
Open Scope Z_scope.
Import Qr.

(** ** The image *)

(** Whether the pixel at row [i] and column [j] is of a dark module. *)
Definition dark (q : qrcode) (r c : Z) : bool :=
  (0 <=? r) && (r <? modules q) && (0 <=? c) && (c <? modules q) && match module_data q !! Z.to_nat (r * modules q + c) with Some m => Z.odd m | None => false end.
Definition side_of (q : qrcode) (scale margin : Z) : Z := (modules q + 2 * margin) * scale.
Definition pixel (q : qrcode) (scale margin i j : Z) : Z := if dark q (i / scale - margin) (j / scale - margin) then 0 else 255.
Definition image (q : qrcode) (scale margin : Z) : bitmap :=
  let n := side_of q scale margin in
  Bitmap n n (map (fun k => pixel q scale margin (Z.of_nat k / n) (Z.of_nat k mod n)) (seq 0 (Z.to_nat (n * n)))).
(** What the library gives, as it says: a square of 21 to 177 modules. *)
Definition code_ok (q : qrcode) : Prop := 0 < modules q <= 177 /\ length (module_data q) = Z.to_nat (modules q * modules q).
Definition library_ok (lib : library) : Prop :=
  (forall t v e q, encode_string lib t v e = Some q -> code_ok q) /\ (forall n, allocates lib n = true -> n < 2 ^ 62).

Section Draw.
Variables (q : qrcode) (scale margin : Z).
Hypotheses (Hq : code_ok q) (Hs : 0 < scale) (Hm : 0 <= margin).
Let N := side_of q scale margin.
Hypothesis HN : N < 2 ^ 31.
(** The pixels that are dark so far. *)
Definition shaded (P : Z -> Z -> bool) (d : list Z) : Prop :=
  length d = Z.to_nat (N * N) /\ forall i j, 0 <= i < N -> 0 <= j < N -> d !! Z.to_nat (i * N + j) = Some (if P i j then 0 else 255).

Lemma N_pos : 0 < N.
Proof. unfold N, side_of. destruct Hq as [H _]. nia. Qed.
Lemma in_block i k : i / scale = k <-> k * scale <= i < k * scale + scale.
Proof. split; [intros <-; pose proof (Z.div_mod i scale ltac:(lia)); pose proof (Z.mod_pos_bound i scale Hs); nia|]. intros H. symmetry. apply (Z.div_unique i scale k (i - k * scale)); lia. Qed.
Lemma shaded_ext P P' d : (forall i j, 0 <= i < N -> 0 <= j < N -> P i j = P' i j) -> shaded P d -> shaded P' d.
Proof. intros H [A B]. split; [easy|]. intros i j Hi Hj. rewrite <- H by easy. now apply B. Qed.
Lemma cell_inj i j k l : 0 <= i < N -> 0 <= j < N -> 0 <= k < N -> 0 <= l < N -> Z.to_nat (i * N + j) = Z.to_nat (k * N + l) -> i = k /\ j = l.
Proof. intros Hi Hj Hk Hl H. assert (E : i * N + j = k * N + l).
  { apply Z2Nat.inj; [pose proof (Z.mul_nonneg_nonneg i N); lia|pose proof (Z.mul_nonneg_nonneg k N); lia|exact H]. }
  assert (Ei : i = k); [|subst k; split; [easy|lia]].
  rewrite (Z.div_unique (i * N + j) N i j) by lia. rewrite E. symmetry. apply (Z.div_unique _ N k l); lia.
Qed.
(** One more dark pixel. *)
Lemma shade_one P d y x : shaded P d -> 0 <= y < N -> 0 <= x < N ->
  exists d', write_byte (y * N + x) 0 d = Some d' /\ shaded (fun i j => P i j || ((i =? y) && (j =? x))) d'.
Proof.
  intros [A B] Hy Hx. unfold write_byte. rewrite A. pose proof N_pos as HN0. rewrite Z2Nat.id by nia. assert (Hb : y * N + x < N * N) by nia. decide_cmps. cbn [andb].
  eexists. split; [reflexivity|]. split; [now rewrite length_insert|]. intros i j Hi Hj.
  destruct (Z.eqb_spec i y) as [->|Hne]; cbn [andb]; [destruct (Z.eqb_spec j x) as [->|Hne]|].
  - rewrite orb_true_r. apply list_lookup_insert_eq. rewrite A. apply Z2Nat.inj_lt; [|apply Z.mul_nonneg_nonneg; lia|exact Hb]. pose proof (Z.mul_nonneg_nonneg y N). lia.
  - rewrite orb_false_r. rewrite list_lookup_insert_ne; [now apply B|]. intros E. apply cell_inj in E; lia.
  - rewrite orb_false_r. rewrite list_lookup_insert_ne; [now apply B|]. intros E. apply cell_inj in E; lia.
Qed.
Lemma draw_row_shades P d y x0 : shaded P d -> 0 <= y < N -> 0 <= x0 -> x0 + scale <= N ->
  exists d', draw_row N (y * N) x0 scale d = Some d' /\ shaded (fun i j => P i j || ((i =? y) && ((x0 <=? j) && (j <? x0 + scale)))) d'.
Proof.
  intros Hd Hy Hx Hx1. unfold draw_row, for_int. pose proof N_pos as HN0.
  destruct (for_up_inv (fun n d => shaded (fun i j => P i j || ((i =? y) && ((x0 <=? j) && (j <? x0 + Z.of_nat n)))) d) (fun i d => write_byte (wrap 64 (y * N + x0 + Z.of_nat i)) 0 d) 0 (Z.to_nat scale) d) as (d' & E & H).
  - revert Hd. apply shaded_ext. intros i j Hi Hj. destruct (Z.leb_spec x0 j), (Z.ltb_spec j (x0 + Z.of_nat 0)); try lia; now rewrite andb_false_r, orb_false_r.
  - intros k e Hk He. rewrite wrap_small by (unfold uint; split; [nia|]; assert (y * N + N <= N * N) by nia; change (2 ^ 64) with (2 ^ 31 * 2 ^ 33); nia).
    rewrite <- Z.add_assoc. destruct (shade_one _ e y (x0 + Z.of_nat k) He Hy ltac:(lia)) as (e' & E & H). exists e'. split; [exact E|]. revert H. apply shaded_ext. intros i j Hi Hj.
    destruct (Z.eqb_spec i y); cbn [andb]; [|now rewrite !orb_false_r]. rewrite <- orb_assoc. f_equal.
    destruct (Z.leb_spec x0 j), (Z.ltb_spec j (x0 + Z.of_nat k)), (Z.eqb_spec j (x0 + Z.of_nat k)), (Z.ltb_spec j (x0 + Z.of_nat (S k))); cbn; try lia; easy.
  - exists d'. split; [exact E|]. revert H. apply shaded_ext. intros i j Hi Hj. now rewrite Nat.add_0_l, Z2Nat.id by lia.
Qed.
Lemma draw_module_shades P d y0 x0 : shaded P d -> 0 <= y0 -> y0 + scale <= N -> 0 <= x0 -> x0 + scale <= N ->
  exists d', draw_module N y0 x0 scale d = Some d' /\ shaded (fun i j => P i j || (((y0 <=? i) && (i <? y0 + scale)) && ((x0 <=? j) && (j <? x0 + scale)))) d'.
Proof.
  intros Hd Hy Hy1 Hx Hx1. unfold draw_module, for_int. pose proof N_pos as HN0.
  destruct (for_up_inv (fun n d => shaded (fun i j => P i j || (((y0 <=? i) && (i <? y0 + Z.of_nat n)) && ((x0 <=? j) && (j <? x0 + scale)))) d)
    (fun i d => draw_row N (wrap 64 ((y0 + Z.of_nat i) * N)) x0 scale d) 0 (Z.to_nat scale) d) as (d' & E & H).
  - revert Hd. apply shaded_ext. intros i j Hi Hj. destruct (Z.leb_spec y0 i), (Z.ltb_spec i (y0 + Z.of_nat 0)); cbn [andb]; try lia; now rewrite ?andb_false_l, orb_false_r.
  - intros k e Hk He. rewrite wrap_small by (unfold uint; split; [nia|]; assert ((y0 + Z.of_nat k) * N <= N * N) by nia; change (2 ^ 64) with (2 ^ 31 * 2 ^ 33); nia).
    destruct (draw_row_shades _ e (y0 + Z.of_nat k) x0 He ltac:(lia) Hx Hx1) as (e' & E & H). exists e'. split; [exact E|]. revert H. apply shaded_ext. intros i j Hi Hj.
    rewrite <- orb_assoc. f_equal. rewrite <- andb_orb_distrib_l. f_equal.
    destruct (Z.leb_spec y0 i), (Z.ltb_spec i (y0 + Z.of_nat k)), (Z.eqb_spec i (y0 + Z.of_nat k)), (Z.ltb_spec i (y0 + Z.of_nat (S k))); cbn; try lia; easy.
  - exists d'. split; [exact E|]. revert H. apply shaded_ext. intros i j Hi Hj. now rewrite Nat.add_0_l, Z2Nat.id by lia.
Qed.
(** The modules before the [n]-th, by rows. *)
Definition drawn (n : Z) (i j : Z) : bool :=
  let r := i / scale - margin in let c := j / scale - margin in dark q r c && (r * modules q + c <? n).
Lemma draw_at_shades d r c : 0 <= r < modules q -> 0 <= c < modules q -> shaded (drawn (r * modules q + c)) d ->
  exists d', draw_at q scale margin N r c d = Some d' /\ shaded (drawn (r * modules q + c + 1)) d'.
Proof.
  intros Hr Hc Hd. destruct Hq as [Hmod Hlen]. unfold draw_at, int. assert (Hi : 0 <= r * modules q + c < modules q * modules q) by nia.
  assert (Hside : modules q + 2 * margin <= N) by (unfold N, side_of; nia). assert (Hrm : 0 <= r * modules q) by nia. assert (Hmm : modules q * modules q < 2 ^ 31) by nia. decide_cmps. cbn [andb]. decide_cmps. cbn [andb].
  unfold read_byte. decide_cmps. destruct (lookup_lt_is_Some_2 (module_data q) (Z.to_nat (r * modules q + c))) as [m Em]; [rewrite Hlen; apply Z2Nat.inj_lt; lia|]. rewrite Em.
  assert (Hdark : dark q r c = Z.odd m) by (unfold dark; decide_cmps; now rewrite Em).
  assert (Hone : forall i j, drawn (r * modules q + c + 1) i j = drawn (r * modules q + c) i j || (dark q r c && ((i / scale - margin =? r) && (j / scale - margin =? c)))).
  { intros i j. unfold drawn. set (r' := i / scale - margin). set (c' := j / scale - margin). destruct (Z.eqb_spec r' r) as [->|Hne1]; [destruct (Z.eqb_spec c' c) as [->|Hne2]|].
    - destruct (dark q r c); cbn; [|easy]. decide_cmps. now rewrite orb_true_r.
    - rewrite !andb_false_r, orb_false_r. f_equal. destruct (Z.ltb_spec (r * modules q + c') (r * modules q + c + 1)), (Z.ltb_spec (r * modules q + c') (r * modules q + c)); lia.
    - rewrite !andb_false_r, orb_false_r. destruct (dark q r' c') eqn:Ed; cbn; [|easy]. unfold dark in Ed. reflect_bools.
      destruct (Z.ltb_spec (r' * modules q + c') (r * modules q + c + 1)), (Z.ltb_spec (r' * modules q + c') (r * modules q + c)); try easy; exfalso; nia. }
  destruct (Z.odd m) eqn:Eo; cbn [negb].
  2: { exists d. split; [easy|]. revert Hd. apply shaded_ext. intros i j _ _. rewrite Hone, Hdark. cbn. now rewrite orb_false_r. }
  decide_cmps. cbn [andb]. rewrite !wrap_small by (unfold uint, N, side_of in *; change (2 ^ 64) with (2 ^ 31 * 2 ^ 33); nia).
  destruct (draw_module_shades _ d ((margin + r) * scale) ((margin + c) * scale) Hd) as (d' & E & H); try (unfold N, side_of; nia). exists d'. split; [exact E|]. revert H. apply shaded_ext. intros i j _ _.
  rewrite Hone, Hdark. cbn. f_equal.
  assert (Hb : forall k x, (k * scale <=? x) && (x <? k * scale + scale) = (x / scale - margin =? k - margin)).
  { intros k x. pose proof (in_block x k) as HB. destruct (Z.leb_spec (k * scale) x), (Z.ltb_spec x (k * scale + scale)), (Z.eqb_spec (x / scale - margin) (k - margin)); cbn; try easy; exfalso; (assert (x / scale <> k) by (rewrite HB; lia) || assert (x / scale = k) by (rewrite HB; lia)); lia. }
  rewrite !Hb. f_equal; f_equal; lia.
Qed.
Lemma dark_range r c : dark q r c = true -> 0 <= r < modules q /\ 0 <= c < modules q.
Proof. unfold dark. intros H. reflect_bools. lia. Qed.
Lemma draw_shades d : shaded (drawn 0) d -> exists d', draw q scale margin N d = Some d' /\ shaded (drawn (modules q * modules q)) d'.
Proof.
  intros Hd. destruct Hq as [Hmod _]. unfold draw, for_int.
  destruct (for_up_inv (fun r d => shaded (drawn (Z.of_nat r * modules q)) d) (fun r d => for_up (fun c => draw_at q scale margin N (Z.of_nat r) (Z.of_nat c)) 0 (Z.to_nat (modules q)) d) 0 (Z.to_nat (modules q)) d) as (d' & E & H).
  - exact Hd.
  - intros r e Hr He. destruct (for_up_inv (fun c d => shaded (drawn (Z.of_nat r * modules q + Z.of_nat c)) d) (fun c => draw_at q scale margin N (Z.of_nat r) (Z.of_nat c)) 0 (Z.to_nat (modules q)) e) as (e' & E & H).
    + now rewrite Z.add_0_r.
    + intros c x Hc Hx. destruct (draw_at_shades x (Z.of_nat r) (Z.of_nat c) ltac:(lia) ltac:(lia) Hx) as (x' & E & H). exists x'. split; [exact E|]. now rewrite Nat2Z.inj_succ, <- Z.add_1_r, Z.add_assoc.
    + exists e'. split; [exact E|]. rewrite Nat.add_0_l, Z2Nat.id in H by lia. now rewrite Nat2Z.inj_succ, Z.mul_succ_l.
  - exists d'. split; [exact E|]. now rewrite Nat.add_0_l, Z2Nat.id in H by lia.
Qed.
Lemma draw_image : draw q scale margin N (replicate (Z.to_nat (N * N)) 255) = Some (data (image q scale margin)).
Proof.
  pose proof N_pos as HN0. destruct (draw_shades (replicate (Z.to_nat (N * N)) 255)) as (d & E & [Hl Hd]).
  - split; [apply length_replicate|]. intros i j Hi Hj.
    assert (Hz : drawn 0 i j = false).
    { unfold drawn. destruct (dark q (i / scale - margin) (j / scale - margin)) eqn:Ed; [|easy]. apply dark_range in Ed as [Hr Hc]. cbn. apply Z.ltb_ge. nia. }
    rewrite Hz. apply lookup_replicate_2. apply Z2Nat.inj_lt; [|apply Z.mul_nonneg_nonneg; lia|nia]. pose proof (Z.mul_nonneg_nonneg i N). lia.
  - rewrite E. f_equal. apply list_eq. intros k. unfold image. cbn [data]. fold N.
    destruct (Nat.lt_ge_cases k (Z.to_nat (N * N))) as [Hk|Hk].
    2: { rewrite !lookup_ge_None_2; [easy| |lia]. rewrite length_map, length_seq. exact Hk. }
    assert (Hzk : Z.of_nat k < N * N) by (apply Nat2Z.inj_lt in Hk; rewrite Z2Nat.id in Hk; [exact Hk|apply Z.mul_nonneg_nonneg; lia]).
    pose proof (Z.div_mod (Z.of_nat k) N ltac:(lia)) as Hdm. pose proof (Z.mod_pos_bound (Z.of_nat k) N HN0) as Hmb.
    assert (Hi : 0 <= Z.of_nat k / N < N) by (split; [apply Z.div_pos; lia|apply Z.div_lt_upper_bound; lia]).
    specialize (Hd _ _ Hi Hmb). replace (Z.to_nat (Z.of_nat k / N * N + Z.of_nat k mod N)) with k in Hd by (rewrite (Z.mul_comm _ N), <- Hdm; lia). rewrite Hd.
    rewrite list_lookup_fmap, lookup_seq_lt by exact Hk. cbn. f_equal. unfold pixel, drawn.
    destruct (dark q (Z.of_nat k / N / scale - margin) (Z.of_nat k mod N / scale - margin)) eqn:Ed; [|easy]. apply dark_range in Ed as [Hr Hc]. cbn [andb].
    destruct (Z.ltb_spec ((Z.of_nat k / N / scale - margin) * modules q + (Z.of_nat k mod N / scale - margin)) (modules q * modules q)); [easy|nia].
Qed.
End Draw.

(** ** Files *)

(** A token: no blanks, and no comment. *)
Definition token (t : text) : Prop := t <> [] /\ Forall (fun a => is_space a = false /\ a <> "#"%char) t.
Lemma token_end_word t c f : Forall (fun a => is_space a = false /\ a <> "#"%char) t -> is_space c = true -> token_end (t ++ c :: f) = (t, f).
Proof.
  intros Ht Hc. induction Ht as [|a t [Ha Hn] Ht IH]; cbn [app token_end]; [now rewrite Hc|]. rewrite Ha, decide_False by easy. now rewrite IH.
Qed.
Lemma read_token_word t c f : token t -> is_space c = true -> read_token (t ++ c :: f) = Some (t, f).
Proof.
  intros [Hn Ht] Hc. destruct t as [|a t]; [easy|]. apply Forall_cons_iff in Ht as [[Ha Hne] Ht]. unfold read_token. cbn [app length token_start].
  rewrite Ha, decide_False by easy. now rewrite token_end_word.
Qed.
Lemma dec_token n : 0 <= n -> token (dec n).
Proof.
  intros Hn. split; [apply dec_not_nil|]. refine (Forall_impl _ _ _ (dec_digits n Hn) _). intros a Ha. split; [now apply digit_not_space|]. intros ->. discriminate.
Qed.
Lemma stoi_dec n : 0 <= n < 2 ^ 31 -> stoi (dec n) = Some n.
Proof.
  intros Hn. pose proof (dec_digits n ltac:(lia)) as Hd. pose proof (dec_value n ltac:(lia)) as Hv. pose proof (dec_not_nil n) as Hz.
  destruct (span_app is_digit (dec n) [] Hd) as [E _]; [easy|]. rewrite app_nil_r in E. unfold stoi. rewrite skip_none.
  2: { intros a r Ea. rewrite Ea in Hd. apply Forall_cons_iff in Hd as [Hd _]. now apply digit_not_space. }
  destruct (dec n) as [|a t] eqn:Ed; [easy|]. apply Forall_cons_iff in Hd as [Ha _].
  rewrite decide_False by (now apply (digit_not a "-"%char)). rewrite decide_False by (now apply (digit_not a "+"%char)). rewrite E, Hv. unfold int. decide_cmps. easy.
Qed.
Lemma char_byte_char b : byte b -> char_byte (byte_char b) = b.
Proof. intros Hb. unfold byte in Hb. unfold char_byte, code, byte_char. rewrite N_ascii_embedding by lia. lia. Qed.
Lemma pgm_bytes l : bytes l -> map char_byte (map byte_char l) = l.
Proof. intros H. rewrite map_map. induction H as [|b l Hb H IH]; cbn; [easy|]. now rewrite char_byte_char, IH. Qed.
(** An image of that size. *)
Definition whole (bm : bitmap) : Prop := 0 < width bm < 2 ^ 31 /\ 0 < height bm < 2 ^ 31 /\ Z.of_nat (length (data bm)) = width bm * height bm /\ bytes (data bm).
Lemma decode_pgm lib results pgm bm w : whole bm -> allocates lib (width bm * height bm) = true -> files w !! c_string pgm = Some (pgm_text bm) ->
  decode_file lib results pgm w = decode lib results bm w.
Proof.
  intros (Hw & Hh & Hl & Hb) Ha Hf. unfold decode_file, bind, gets. rewrite Hf. unfold pgm_text, header, sdec. decide_cmps. rewrite <- !app_assoc. cbn [app].
  change (lit "P5" ++ LF :: dec (width bm) ++ lit " " ++ dec (height bm) ++ LF :: lit "255" ++ LF :: map byte_char (data bm)) with (lit "P5" ++ LF :: (dec (width bm) ++ " "%char :: (dec (height bm) ++ LF :: (lit "255" ++ LF :: map byte_char (data bm))))).
  rewrite read_token_word by (easy || (split; [easy|repeat constructor; easy])). change (text_eqb (lit "P5") (lit "P5")) with true. cbn [negb].
  rewrite read_token_word by (easy || (apply dec_token; lia)). rewrite read_token_word by (easy || (apply dec_token; lia)). rewrite read_token_word by (easy || (split; [easy|repeat constructor; easy])).
  rewrite !stoi_dec by lia. change (stoi (lit "255")) with (Some 255). decide_cmps. cbn [orb].
  assert (Hn : uint 64 (width bm * height bm)) by (unfold uint; nia). rewrite wrap_small by exact Hn. rewrite Ha. cbn [negb]. rewrite length_map, Hl, Z.ltb_irrefl.
  rewrite take_ge by (rewrite length_map; lia). rewrite pgm_bytes by exact Hb. now destruct bm.
Qed.
Lemma image_whole q scale margin : code_ok q -> 0 < scale -> 0 <= margin -> side_of q scale margin < 2 ^ 31 -> whole (image q scale margin).
Proof.
  intros [Hq _] Hs Hm HN. assert (H0 : 0 < side_of q scale margin) by (unfold side_of; nia). unfold whole, image. cbn [width height data]. split; [lia|]. split; [lia|].
  split; [rewrite length_map, length_seq; nia|]. apply Forall_forall. intros x Hx. apply list_elem_of_fmap in Hx as (k & -> & _). unfold pixel. destruct (dark _ _ _); unfold byte; lia.
Qed.

(** ** Encoding *)

Section Encode.
Context (lib : library) (sys : system) (Hlib : library_ok lib).

(** What [encode] does, with what is known of the image it gives. *)
Lemma encode_post out txt version ec_level scale margin w : sint 32 scale -> sint 32 margin ->
  post (encode lib out txt version ec_level scale margin) w (fun r w' => w' = w /\
    match r.1 with
    | Done None => exists q, encode_string lib (c_string txt) version ec_level = Some q /\ r.2 = image q scale margin /\ whole (image q scale margin) /\ allocates lib (width r.2 * height r.2) = true
    | Done (Some e) => r.2 = out /\ match e with
        | invalid_text => txt = [] | invalid_scale => scale <= 0 | invalid_margin => margin < 0
        | encode_failed => encode_string lib (c_string txt) version ec_level = None \/ exists q, encode_string lib (c_string txt) version ec_level = Some q /\ 2 ^ 64 <= side_of q scale margin * side_of q scale margin
        | _ => False end
    | Thrown => data r.2 = data out /\ exists n, allocates lib n = false
    end).
Proof.
  intros Hsi Hmi. unfold sint in Hsi, Hmi. cbn in Hsi, Hmi. unfold encode. destruct txt as [|a txt]; [now apply post_ret|].
  destruct (Z.leb_spec scale 0) as [Hs|Hs]; [apply post_ret; cbn; lia || (split; [easy|now split])|]. destruct (Z.ltb_spec margin 0) as [Hm|Hm]; [apply post_ret; split; [easy|now split]|].
  destruct (encode_string lib (c_string (a :: txt)) version ec_level) as [q|] eqn:Eq; [|apply post_ret; split; [easy|split; [easy|now left]]].
  assert (Hq : code_ok q) by exact (proj1 Hlib _ _ _ _ Eq). pose proof Hq as [Hmod _].
  set (N := side_of q scale margin).
  assert (HN : 0 < N < 2 ^ 64) by (unfold N, side_of; nia).
  assert (EN : wrap 64 (wrap 64 (modules q + wrap 64 (2 * margin)) * scale) = N).
  { rewrite (wrap_small 64 (2 * margin)) by (unfold uint; lia). rewrite (wrap_small 64 (modules q + 2 * margin)) by (unfold uint; lia). now rewrite wrap_small by (unfold uint; unfold N, side_of in HN; lia). }
  assert (Ew : World (codes w) (parsers w) (files w) = w) by now destruct w.
  apply post_bind, post_modify. rewrite EN. destruct (Z.leb_spec (modules q) 0); [lia|]. destruct (Z.eqb_spec N 0); [lia|]. unfold size_max. destruct (Z.ltb_spec (2 ^ 64 - 1) N); [lia|].
  destruct (Z.ltb_spec 0 N); [|lia]. cbn [andb]. destruct (Z.ltb_spec ((2 ^ 64 - 1) / N) N) as [Hbig|Hsmall].
  - apply post_bind. unfold free_code, post at 1. cbn [codes parsers files]. rewrite Ew. apply post_ret. split; [easy|]. split; [easy|]. right. exists q. split; [easy|]. fold N.
    pose proof (Z.div_lt_upper_bound (2 ^ 64 - 1) N N ltac:(lia)). pose proof (Z.mul_div_le (2 ^ 64 - 1) N ltac:(lia)). pose proof (Z.div_le_lower_bound (2 ^ 64 - 1) N N ltac:(lia)). lia.
  - assert (HNN : 0 <= N * N < 2 ^ 64). { split; [nia|]. pose proof (Z.mul_div_le (2 ^ 64 - 1) N ltac:(lia)). nia. }
    rewrite (wrap_small 64 (N * N)) by exact HNN. destruct (allocates lib (N * N)) eqn:Ea; cbn [negb].
    + assert (HN31 : N < 2 ^ 31) by (pose proof (proj2 Hlib _ Ea); nia). apply post_bind. eapply post_lift; [apply (draw_image q scale margin Hq Hs Hm HN31)|].
      apply post_bind. unfold free_code, post at 1. cbn [codes parsers files]. rewrite Ew. apply post_ret. split; [easy|]. exists q. split; [easy|]. cbn [snd width height].
      rewrite sint_of_id by (easy || (unfold sint; cbn; lia)). split; [reflexivity|]. split; [now apply image_whole|exact Ea].
    + apply post_bind. unfold free_code, post at 1. cbn [codes parsers files]. rewrite Ew. apply post_ret. split; [easy|]. split; [easy|]. now exists (N * N).
Qed.
(** C37: a text is drawn as the image of the code that the library gives for it: a square of
    the modules and the margins, each scaled, dark where its module is and white elsewhere,
    to the pixel; an error has its cause and leaves the image; an allocation that is
    refused is thrown; and the code is freed, whatever happens. *)
Theorem qr_encode_image out txt version ec_level scale margin w : sint 32 scale -> sint 32 margin ->
  post (encode lib out txt version ec_level scale margin) w (fun r w' => w' = w /\
    match r.1 with
    | Done None => exists q, encode_string lib (c_string txt) version ec_level = Some q /\ r.2 = image q scale margin
    | Done (Some e) => r.2 = out /\ match e with
        | invalid_text => txt = [] | invalid_scale => scale <= 0 | invalid_margin => margin < 0
        | encode_failed => encode_string lib (c_string txt) version ec_level = None \/ exists q, encode_string lib (c_string txt) version ec_level = Some q /\ 2 ^ 64 <= side_of q scale margin * side_of q scale margin
        | _ => False end
    | Thrown => data r.2 = data out /\ exists n, allocates lib n = false
    end).
Proof.
  intros Hs Hm. eapply post_weaken; [exact (encode_post out txt version ec_level scale margin w Hs Hm)|]. intros [[[e|]|] bm] w' [H1 H2]; (split; [exact H1|]); try exact H2.
  destruct H2 as (q & E & H2 & _). now exists q.
Qed.
(** What is written to a file is read back: where the file is written whole, decoding
    it finds what decoding the image finds, whatever is found. *)
Theorem qr_file_roundtrip pgm txt version ec_level scale margin w : sint 32 scale -> sint 32 margin ->
  (forall q, encode_string lib (c_string txt) version ec_level = Some q -> (length (pgm_text (image q scale margin)) <= room sys)%nat) ->
  post (encode_file lib sys pgm txt version ec_level scale margin) w (fun o w' =>
    match o with
    | Done None => exists q, encode_string lib (c_string txt) version ec_level = Some q /\ forall results, decode_file lib results pgm w' = decode lib results (image q scale margin) w'
    | _ => w' = w end).
Proof.
  intros Hs Hm Hr. unfold encode_file. apply post_bind. eapply post_weaken; [exact (encode_post blank txt version ec_level scale margin w Hs Hm)|].
  intros [[[e|]|] bm] w' [-> H]; cbn [fst snd] in H; [now apply post_ret| |now apply post_ret]. destruct H as (q & E & -> & Hw & Ha).
  destruct (opens_out sys (c_string pgm)); cbn [negb]; [|now apply post_ret]. apply post_bind, post_modify. specialize (Hr q E).
  destruct (Nat.ltb_spec (room sys) (length (pgm_text (image q scale margin)) - kept_back sys (length (pgm_text (image q scale margin))))%nat); [lia|].
  apply post_ret. exists q. split; [exact E|]. intros results. apply decode_pgm; [exact Hw|exact Ha|]. cbn. rewrite take_ge by exact Hr. apply lookup_insert_eq.
Qed.
End Encode.

(** ** Decoding *)

Lemma stoi_bound t z : stoi t = Some z -> - 2 ^ 31 <= z < 2 ^ 31.
Proof.
  unfold stoi. destruct (match skip is_space t with [] => _ | _ => _ end) as [neg s]. destruct (span is_digit s); [easy|]. unfold int.
  destruct ((- 2 ^ 31 <=? _) && _) eqn:E; [|easy]. intros [= <-]. apply andb_true_iff in E as [E1%Z.leb_le E2%Z.ltb_lt]. lia.
Qed.

(** What the format is: tokens, with spaces and comments between them. *)
Inductive gap : text -> Prop :=
| gap_nil : gap []
| gap_space c g : is_space c = true -> gap g -> gap (c :: g)
| gap_comment l g : (LF ∉ l) -> gap g -> gap ("#"%char :: l ++ LF :: g).
(** A comment that the end of the file ends, or none. *)
Definition open_comment (f : text) : Prop := f = [] \/ exists l, f = "#"%char :: l /\ (LF ∉ l).
Definition no_token (f : text) : Prop := exists g f', f = g ++ f' /\ gap g /\ open_comment f'.
(** What ends a token, and what follows. *)
Definition token_ended (f rest : text) : Prop :=
  (exists c, is_space c = true /\ f = c :: rest) \/ (exists l, (LF ∉ l) /\ f = "#"%char :: l ++ LF :: rest) \/ (open_comment f /\ rest = []).
Definition next_token (f t rest : text) : Prop := exists g f', f = g ++ t ++ f' /\ gap g /\ token t /\ token_ended f' rest.

Lemma skip_line_spec f : (exists l rest, f = l ++ LF :: rest /\ (LF ∉ l) /\ skip_line f = rest) \/ ((LF ∉ f) /\ skip_line f = []).
Proof.
  unfold skip_line. induction f as [|c f IH]; cbn [after]; [right; split; [apply not_elem_of_nil|easy]|]. destruct (decide (LF = c)) as [<-|Hc].
  - left. exists [], f. split; [easy|]. split; [apply not_elem_of_nil|easy].
  - destruct IH as [(l & rest & -> & Hl & E)|[Hl E]].
    + left. exists (c :: l), rest. split; [easy|]. split; [now apply not_elem_of_cons|exact E].
    + right. split; [now apply not_elem_of_cons|exact E].
Qed.
Lemma skip_line_short f : (length (skip_line f) <= length f)%nat.
Proof. destruct (skip_line_spec f) as [(l & rest & -> & _ & ->)|[_ ->]]; cbn; [rewrite length_app; cbn|]; lia. Qed.
Lemma token_end_spec f t rest : token_end f = (t, rest) -> exists f', f = t ++ f' /\ Forall (fun a => is_space a = false /\ a <> "#"%char) t /\ token_ended f' rest.
Proof.
  revert t rest. induction f as [|c f IH]; intros t rest; cbn [token_end].
  - intros [= <- <-]. exists []. split; [easy|]. split; [constructor|]. right. right. split; [now left|easy].
  - destruct (is_space c) eqn:Ec; [intros [= <- <-]; exists (c :: f); split; [easy|]; split; [constructor|]; left; now exists c|].
    destruct (decide (c = "#"%char)) as [->|Hc].
    + intros [= <- <-]. exists ("#"%char :: f). split; [easy|]. split; [constructor|]. right. destruct (skip_line_spec f) as [(l & r & -> & Hl & ->)|[Hl ->]].
      * left. now exists l.
      * right. split; [right; now exists f|easy].
    + destruct (token_end f) as [tk r]. intros [= <- <-]. destruct (IH tk r eq_refl) as (f' & -> & Ht & He). exists f'. split; [easy|]. split; [now constructor|exact He].
Qed.
Lemma token_start_spec fuel f : (length f <= fuel)%nat -> match token_start fuel f with Some (t, rest) => next_token f t rest | None => no_token f end.
Proof.
  revert f. induction fuel as [|fuel IH]; intros f Hf; [destruct f; [|cbn in Hf; lia]; exists [], []; split; [easy|]; split; [constructor|now left]|].
  destruct f as [|c f]; cbn [token_start]; [exists [], []; split; [easy|]; split; [constructor|now left]|]. cbn [length] in Hf.
  destruct (is_space c) eqn:Ec; [|destruct (decide (c = "#"%char)) as [->|Hc]].
  - specialize (IH f ltac:(lia)). destruct (token_start fuel f) as [[t rest]|]; destruct IH as (g & f' & -> & Hg & H); exists (c :: g), f'; (split; [easy|]); (split; [now constructor|exact H]).
  - specialize (IH (skip_line f) ltac:(pose proof (skip_line_short f); lia)). destruct (skip_line_spec f) as [(l & r & -> & Hl & E)|[Hl E]]; rewrite E in IH |- *.
    + destruct (token_start fuel r) as [[t rest]|]; destruct IH as (g & f' & -> & Hg & H); exists ("#"%char :: l ++ LF :: g), f'; (split; [cbn; now rewrite <- app_assoc|]); (split; [now constructor|exact H]).
    + destruct fuel; cbn; (exists [], ("#"%char :: f); split; [easy|]; split; [constructor|]; right; now exists f).
  - destruct (token_end f) as [tk rest] eqn:Et. destruct (token_end_spec f tk rest Et) as (f' & -> & Ht & He). exists [], f'. split; [easy|]. split; [constructor|]. split; [|exact He].
    split; [easy|]. now constructor.
Qed.
Lemma read_token_spec f : match read_token f with Some (t, rest) => next_token f t rest | None => no_token f end.
Proof. now apply token_start_spec. Qed.

(** The first tokens of a file, and what follows them; its header; the image it has. *)
Inductive tokens : text -> list text -> text -> Prop :=
| tokens_nil f : tokens f [] f
| tokens_cons f t f1 ts rest : next_token f t f1 -> tokens f1 ts rest -> tokens f (t :: ts) rest.
Definition reads_header (f : text) (wd ht maxv : Z) (rest : text) : Prop :=
  exists a b c, tokens f [lit "P5"; a; b; c] rest /\ stoi a = Some wd /\ stoi b = Some ht /\ stoi c = Some maxv.
Definition in_range (wd ht maxv : Z) : Prop := 0 < wd /\ 0 < ht /\ 0 < maxv <= 255.
Definition reads_image (lib : library) (f : text) (bm : bitmap) : Prop :=
  exists wd ht maxv rest, reads_header f wd ht maxv rest /\ in_range wd ht maxv /\ allocates lib (wd * ht) = true /\ wd * ht <= Z.of_nat (length rest) /\
    bm = Bitmap wd ht (map char_byte (take (Z.to_nat (wd * ht)) rest)).
(** What each outcome says of the file that is there, and of what the library did. *)
Definition parser_ready (lib : library) (bm : bitmap) (wd ht : Z) : Prop :=
  quirc_new lib = true /\ quirc_resize lib (width bm) (height bm) = true /\ quirc_begin lib (width bm) (height bm) = Some (wd, ht).
Definition image_of (wd ht : Z) : Z := wrap 64 (wrap 64 wd * wrap 64 ht).
Definition explains (lib : library) (results : list text) (f : text) (r : outcome * list text) : Prop :=
  match r.1 with
  | Done None => exists bm wd ht, reads_image lib f bm /\ parser_ready lib bm wd ht /\ image_of wd ht <= Z.of_nat (length (data bm)) /\
      r.2 = results ++ omap id (quirc_decode lib (take (Z.to_nat (image_of wd ht)) (data bm)) wd ht)
  | Done (Some magic_parse_failed) => no_token f \/ exists t rest, next_token f t rest /\ t <> lit "P5"
  | Done (Some token_empty) => exists ts rest, tokens f (lit "P5" :: ts) rest /\ (length ts < 3)%nat /\ no_token rest
  | Done (Some token_value_convert_failed) => exists a b c rest, tokens f [lit "P5"; a; b; c] rest /\ (stoi a = None \/ stoi b = None \/ stoi c = None)
  | Done (Some token_value_out_of_range) => exists wd ht maxv rest, reads_header f wd ht maxv rest /\ ~ in_range wd ht maxv
  | Thrown => exists wd ht maxv rest, reads_header f wd ht maxv rest /\ in_range wd ht maxv /\ allocates lib (wd * ht) = false
  | Done (Some pgm_read_failed) => exists wd ht maxv rest, reads_header f wd ht maxv rest /\ in_range wd ht maxv /\ allocates lib (wd * ht) = true /\ Z.of_nat (length rest) < wd * ht
  | Done (Some allocation_failed) => exists bm, reads_image lib f bm /\ quirc_new lib = false
  | Done (Some resize_failed) => exists bm, reads_image lib f bm /\ quirc_new lib = true /\ quirc_resize lib (width bm) (height bm) = false
  | Done (Some begin_parse_failed) => exists bm, reads_image lib f bm /\ quirc_new lib = true /\ quirc_resize lib (width bm) (height bm) = true /\ quirc_begin lib (width bm) (height bm) = None
  | Done (Some bm_data_insufficient) => exists bm wd ht, reads_image lib f bm /\ parser_ready lib bm wd ht /\ Z.of_nat (length (data bm)) < image_of wd ht
  | Done (Some _) => False
  end.
Lemma image_there lib f bm : reads_image lib f bm -> bool_decide (data bm = []) || (width bm <=? 0) || (height bm <=? 0) = false.
Proof.
  intros (wd & ht & maxv & rest & _ & (H1 & H2 & _) & _ & Hl & ->). cbn [data width height]. rewrite !orb_false_iff, !Z.leb_gt. split; [|exact H2]. split; [|exact H1].
  apply bool_decide_eq_false. intros E. apply (f_equal length) in E. rewrite length_map, length_take in E. cbn in E. assert (0 < wd * ht) by nia. lia.
Qed.
(** Decoding the image of a file. *)
Lemma decode_explained lib results f bm w : reads_image lib f bm ->
  post (decode lib results bm) w (fun r w' => w' = w /\ (r.1 <> Done None -> r.2 = results) /\ explains lib results f r).
Proof.
  intros Hi. assert (Ew : World (codes w) (parsers w) (files w) = w) by now destruct w. unfold decode. rewrite (image_there lib f bm Hi).
  assert (Hfree : forall r, (r.1 <> Done None -> r.2 = results) -> explains lib results f r ->
    post (bind (free_parser) (fun _ => ret r)) (World (codes w) (S (parsers w)) (files w)) (fun r w' => w' = w /\ (r.1 <> Done None -> r.2 = results) /\ explains lib results f r)).
  { intros r H1 H2. apply post_bind. unfold free_parser, post at 1. cbn [parsers codes files]. rewrite Ew. now apply post_ret. }
  destruct (quirc_new lib) eqn:En; cbn [negb]; [|apply post_ret; split; [easy|]; split; [easy|]; now exists bm].
  apply post_bind, post_modify. destruct (quirc_resize lib (width bm) (height bm)) eqn:Er; cbn [negb]; [|apply Hfree; [easy|]; now exists bm].
  destruct (quirc_begin lib (width bm) (height bm)) as [[wd ht]|] eqn:Eb; [|apply Hfree; [easy|]; now exists bm].
  fold (image_of wd ht). destruct (Z.ltb_spec (Z.of_nat (length (data bm))) (image_of wd ht)); (apply Hfree; [easy|]; exists bm, wd, ht; now repeat split).
Qed.
(** C38: reading a file frees its parser on every path and changes nothing else; results
    are added only by success.  Each outcome says exactly what it should: the file is not
    there; it does not begin with its magic number; one of the numbers of its header is
    missing, is none, or is out of range; the image is too large to allocate, or cut short;
    or the image is whole and the library refused it, at the step that is named; and with
    success, what the library found in the image was added. *)
Theorem qr_decode_errors lib results pgm w :
  post (decode_file lib results pgm) w (fun r w' => w' = w /\ (r.1 <> Done None -> r.2 = results) /\
    match files w !! c_string pgm with None => r.1 = Done (Some pgm_open_failed) | Some f => explains lib results f r end).
Proof.
  unfold decode_file. apply post_bind, post_gets. destruct (files w !! c_string pgm) as [f|]; [|now apply post_ret].
  assert (Hret : forall o, o <> Done None -> explains lib results f (o, results) -> post (ret (o, results)) w (fun r w' => w' = w /\ (r.1 <> Done None -> r.2 = results) /\ explains lib results f r)).
  { intros o Ho H. now apply post_ret. }
  pose proof (read_token_spec f) as S0. destruct (read_token f) as [[magic f1]|]; [|apply Hret; [easy|now left]].
  unfold text_eqb. destruct (bool_decide_reflect (magic = lit "P5")) as [->|Hm]; cbn [negb]; [|apply Hret; [easy|]; right; now exists magic, f1].
  pose proof (read_token_spec f1) as S1. destruct (read_token f1) as [[a f2]|].
  2:{ apply Hret; [easy|]. exists [], f1. split; [|split; [cbn; lia|exact S1]]. repeat (econstructor; eauto). }
  pose proof (read_token_spec f2) as S2. destruct (read_token f2) as [[b f3]|].
  2:{ apply Hret; [easy|]. exists [a], f2. split; [|split; [cbn; lia|exact S2]]. repeat (econstructor; eauto). }
  pose proof (read_token_spec f3) as S3. destruct (read_token f3) as [[c rest]|].
  2:{ apply Hret; [easy|]. exists [a; b], f3. split; [|split; [cbn; lia|exact S3]]. repeat (econstructor; eauto). }
  assert (Ht : tokens f [lit "P5"; a; b; c] rest) by repeat (econstructor; eauto).
  destruct (stoi a) as [wd|] eqn:Ea; [|apply Hret; [easy|]; exists a, b, c, rest; auto]. destruct (stoi b) as [ht|] eqn:Eb; [|apply Hret; [easy|]; exists a, b, c, rest; auto].
  destruct (stoi c) as [maxv|] eqn:Ec; [|apply Hret; [easy|]; exists a, b, c, rest; auto].
  assert (Hh : reads_header f wd ht maxv rest) by now exists a, b, c.
  destruct ((wd <=? 0) || (ht <=? 0) || (maxv <=? 0) || (255 <? maxv)) eqn:Er.
  - apply Hret; [easy|]. exists wd, ht, maxv, rest. split; [exact Hh|]. intros (H1 & H2 & H3). rewrite !orb_true_iff, !Z.leb_le, Z.ltb_lt in Er. lia.
  - rewrite !orb_false_iff, !Z.leb_gt, Z.ltb_ge in Er. assert (Hr : in_range wd ht maxv) by (unfold in_range; lia).
    assert (Hn : wrap 64 (wd * ht) = wd * ht). { apply wrap_small. unfold uint. pose proof (stoi_bound _ _ Ea). pose proof (stoi_bound _ _ Eb). nia. }
    rewrite Hn. destruct (allocates lib (wd * ht)) eqn:El; cbn [negb]; [|apply Hret; [easy|]; now exists wd, ht, maxv, rest].
    destruct (Z.ltb_spec (Z.of_nat (length rest)) (wd * ht)); [apply Hret; [easy|]; now exists wd, ht, maxv, rest|].
    apply decode_explained. now exists wd, ht, maxv, rest.
Qed.

(** ** A small code *)

Definition small_code : qrcode := Code 2 [1; 0; 2; 3].
Definition small_library : library :=
  {| encode_string t _ _ := if text_eqb t (lit "x") then Some small_code else None; allocates n := n <? 1000; quirc_new := true; quirc_resize _ _ := true; quirc_begin w h := Some (w, h);
     quirc_decode d _ _ := [if bool_decide (d = data (image small_code 1 0)) then Some (lit "x") else None] |}.
Definition small_system : system := System (fun _ => true) 100%nat (fun n => n).
Lemma small_library_ok : library_ok small_library.
Proof. split; [|intros n H; cbn in H; apply Z.ltb_lt in H; lia]. intros t v e q. cbn. destruct (text_eqb _ _); [|easy]. intros [= <-]. split; [cbn; lia|reflexivity]. Qed.
Lemma qr_encode_image_witness :
  image small_code 2 1 = Bitmap 8 8 (repeat 255 18 ++ [0; 0] ++ repeat 255 6 ++ [0; 0] ++ repeat 255 8 ++ [0; 0] ++ repeat 255 6 ++ [0; 0] ++ repeat 255 18) /\
  post (encode small_library blank (lit "x") 0 0 2 1) (World 0 0 ∅) (fun r w' => w' = World 0 0 ∅ /\
    match r.1 with
    | Done None => exists q, encode_string small_library (c_string (lit "x")) 0 0 = Some q /\ r.2 = image q 2 1
    | Done (Some e) => r.2 = blank /\ match e with
        | invalid_text => lit "x" = [] | invalid_scale => 2 <= 0 | invalid_margin => 1 < 0
        | encode_failed => encode_string small_library (c_string (lit "x")) 0 0 = None \/ exists q, encode_string small_library (c_string (lit "x")) 0 0 = Some q /\ 2 ^ 64 <= side_of q 2 1 * side_of q 2 1
        | _ => False end
    | Thrown => data r.2 = data blank /\ exists n, allocates small_library n = false
    end).
Proof. split; [vm_compute; reflexivity|]. apply (qr_encode_image small_library small_library_ok); unfold sint; cbn; lia. Defined.
Lemma qr_file_roundtrip_witness :
  post (encode_file small_library small_system (lit "x.pgm") (lit "x") 0 0 1 0) (World 0 0 ∅) (fun o w' =>
    match o with
    | Done None => exists q, encode_string small_library (c_string (lit "x")) 0 0 = Some q /\ forall results, decode_file small_library results (lit "x.pgm") w' = decode small_library results (image q 1 0) w'
    | _ => w' = World 0 0 ∅ end).
Proof.
  apply (qr_file_roundtrip small_library small_system small_library_ok); [unfold sint; cbn; lia|unfold sint; cbn; lia|]. intros q. cbn. intros [= <-]. vm_compute. lia.
Defined.
Example qr_written_and_read :
  (do o <- encode_file small_library small_system (lit "x.pgm") (lit "x") 0 0 1 0; do r <- decode_file small_library [] (lit "x.pgm"); ret (o, r)) (World 0 0 ∅) =
  Some ((Done None, (Done None, [lit "x"])), World 0 0 {[lit "x.pgm" := pgm_text (image small_code 1 0)]}).
Proof. vm_compute. reflexivity. Qed.

(** ** What the code does otherwise *)

(** An allocation that is refused leaves an image of the new size with the bytes of the old one. *)
Lemma thrown_leaves_mixed : encode small_library (image small_code 1 0) (lit "x") 0 0 20 5 (World 0 0 ∅) = Some ((Thrown, Bitmap 240 240 (data (image small_code 1 0))), World 0 0 ∅).
Proof. vm_compute. reflexivity. Qed.
(** A disk that is full shows only when the stream is closed: the file is cut, and success reported. *)
Lemma cut_file_is_success :
  (do o <- encode_file small_library (System (fun _ => true) 12 (fun n => n)) (lit "x.pgm") (lit "x") 0 0 1 0; do r <- decode_file small_library [] (lit "x.pgm"); ret (o, r)) (World 0 0 ∅) =
  Some ((Done None, (Done (Some pgm_read_failed), [])), World 0 0 {[lit "x.pgm" := take 12 (pgm_text (image small_code 1 0))]}).
Proof. vm_compute. reflexivity. Qed.
(** A header alone makes the reader allocate what it asks for, and throw. *)
Lemma header_throws : decode_file small_library [] (lit "x.pgm") (World 0 0 {[lit "x.pgm" := lit "P5 2147483647 2147483647 255 "]}) = Some ((Thrown, []), World 0 0 {[lit "x.pgm" := lit "P5 2147483647 2147483647 255 "]}).
Proof. vm_compute. reflexivity. Qed.
(** The largest value is read and not used: an image of zeros and ones is not made black and white. Numbers may be followed by anything. *)
Lemma largest_value_unused : 
  let f := lit "P5 2 2x 1 " ++ map byte_char [1; 0; 1; 0] in decode_file small_library [] (lit "x.pgm") (World 0 0 {[lit "x.pgm" := f]}) = decode small_library [] (Bitmap 2 2 [1; 0; 1; 0]) (World 0 0 {[lit "x.pgm" := f]}).
Proof. vm_compute. reflexivity. Qed.
