(* ===== verification/Udp.v ===== *)
(** * Datagrams

    [net/udp/udp_socket.hpp]: a socket over one of the library, which may be gone, with the
    handlers that wait.  What the library answers is a parameter.  An exception that leaves
    a function that is [noexcept] ends the program.  Theorem: every handler is called once. *)

From Stdlib Require Import Ascii String ZArith Lia List Bool.
From stdpp Require Import base tactics list option.
From S2P Require Import Prelude CText.

Open Scope hj_scope.
Open Scope nat_scope.

Module Udp.

Inductive error_code := not_open | invalid_argument | other.
Definition message (e : error_code) : string := match e with not_open => "Socket not open" | invalid_argument => "Invalid argument" | other => "Other error" end.
(** No error, one of the class, one of the library. *)
Inductive err := none | own (e : error_code) | lib_err (e : Z) | aborted.
Record endpoint_t := Endpoint { addr : text; port : Z }.
Definition any_address : text := lit "0.0.0.0".
(** Data of the caller: a pointer that may be null, and a length. *)
Definition buffer : Type := option text.

(** The socket of the library: open, bound, connected. *)
Record sock_t := Sock { opened : bool; local : option endpoint_t; remote : option endpoint_t }.
Record library := Library
  { opens : bool -> option sock_t; opens_at : endpoint_t -> option sock_t; make_address : text -> option text;
    set_opt : sock_t -> err; do_bind : sock_t -> endpoint_t -> err; do_connect : sock_t -> endpoint_t -> err;
    send_to : sock_t -> list text -> endpoint_t -> nat + err; receive_from : sock_t -> list nat -> (list text * endpoint_t * nat) + err }.
(** What waits: a handler; what was called: a handler, its error, its count. *)
Record state := State { _sock : option sock_t; pending : list nat; called : list (nat * err * nat) }.
Inductive outcome (A : Type) := Ret (a : A) | Throw | Terminate.
#[global] Arguments Ret {A}. #[global] Arguments Throw {A}. #[global] Arguments Terminate {A}.

Section Udp.
Variable lib : library.

(** ** Construction *)

Definition construct (s : option sock_t) : outcome state := match s with Some s => Ret (State (Some s) [] []) | None => Throw end.
Definition endpoint (ip : text) (p : Z) : option endpoint_t := let* a := make_address lib ip in Some (Endpoint a p).
Definition socket (ipv6 : bool) : outcome state := construct (opens lib ipv6).
Definition socket_at (ep : endpoint_t) : outcome state := construct (opens_at lib ep).
Definition socket_ip (ip : text) (p : Z) : outcome state := match endpoint ip p with Some ep => socket_at ep | None => Throw end.
Definition socket_of (s : option sock_t) : state := State s [] [].

(** ** Operations *)

Definition is_open (s : state) : bool := match _sock s with Some k => opened k | None => false end.
Definition set_sock (k : sock_t) (s : state) : state := State (Some k) (pending s) (called s).
(** [remote_endpoint] throws without one. *)
Definition is_connected (s : state) : outcome bool :=
  match _sock s with
  | Some k => if opened k then match remote k with Some ep => Ret (negb (text_eqb (addr ep) any_address)) | None => Terminate end else Ret false
  | None => Ret false
  end.
(** [f] of the socket, if it is open. *)
Definition with_open {A} (s : state) (closed : A) (f : sock_t -> A) : A := match _sock s with Some k => if opened k then f k else closed | None => closed end.
Definition set_option (s : state) : err := with_open s (own not_open) (fun k => set_opt lib k).
Definition is_ok (e : err) : bool := match e with none => true | _ => false end.
Definition bind (ep : endpoint_t) (s : state) : err * state :=
  with_open s (own not_open, s) (fun k =>
    if (port ep =? 0)%Z then (own invalid_argument, s) else
    let e := do_bind lib k ep in (e, if is_ok e then set_sock (Sock (opened k) (Some ep) (remote k)) s else s)).
Definition bind_port (p : Z) (s : state) : outcome (err * state) := match endpoint any_address p with Some ep => Ret (bind ep s) | None => Terminate end.
Definition connect (ep : endpoint_t) (s : state) : err * state :=
  with_open s (own not_open, s) (fun k => let e := do_connect lib k ep in (e, if is_ok e then set_sock (Sock (opened k) (local k) (Some ep)) s else s)).
Definition connect_ip (ip : text) (p : Z) (s : state) : outcome (err * state) := match endpoint ip p with Some ep => Ret (connect ep s) | None => Terminate end.
Definition disconnect (s : state) : err * state := connect (Endpoint any_address 0) s.
Definition send_all (bufs : list text) (ep : endpoint_t) (s : state) : nat * err :=
  with_open s (0, own not_open) (fun k => match send_to lib k bufs ep with inl n => (n, none) | inr e => (0, e) end).
Definition send_buf (buf : text) (ep : endpoint_t) (s : state) : nat * err := send_all [buf] ep s.
Definition send (data : buffer) (ep : endpoint_t) (s : state) : nat * err := match data with None | Some [] => (0, own invalid_argument) | Some t => send_buf t ep s end.
(** What was received, from whom, how much. *)
Definition recv_all (sizes : list nat) (s : state) : (list text * option endpoint_t * nat) * err :=
  with_open s (([], None, 0), own not_open) (fun k => match receive_from lib k sizes with inl (ts, ep, n) => ((ts, Some ep, n), none) | inr e => (([], None, 0), e) end).
Definition recv_buf (size : nat) (s : state) := recv_all [size] s.
Definition recv (data : option nat) (s : state) : (list text * option endpoint_t * nat) * err :=
  match data with None | Some 0 => (([], None, 0), own invalid_argument) | Some n => recv_buf n s end.

(** ** Handlers *)

Definition call (h : nat) (e : err) (n : nat) (s : state) : state := State (_sock s) (pending s) (called s ++ [(h, e, n)]).
Definition start (h : nat) (s : state) : state := with_open s (call h (own not_open) 0 s) (fun _ => State (_sock s) (pending s ++ [h]) (called s)).
Definition async_send_buf (h : nat) (s : state) : state := start h s.
Definition async_send (data : buffer) (h : nat) (s : state) : state := match data with None | Some [] => call h (own invalid_argument) 0 s | Some _ => async_send_buf h s end.
Definition async_recv_buf (h : nat) (s : state) : state := start h s.
Definition async_recv (data : option nat) (h : nat) (s : state) : state := match data with None | Some 0 => call h (own invalid_argument) 0 s | Some _ => async_recv_buf h s end.
(** The socket is gone: the library calls what waits with an error. *)
Definition close (s : state) : state := State None [] (called s ++ map (fun h => (h, aborted, 0)) (pending s)).
Definition destroy (s : state) : state := close s.
(** The [i]-th operation that waits is done. *)
Definition complete (i : nat) (e : err) (n : nat) (s : state) : option state :=
  let* h := pending s !! i in Some (call h e n (State (_sock s) (take i (pending s) ++ drop (S i) (pending s)) (called s))).

(** ** Any sequence *)

Inductive event := Bind (ep : endpoint_t) | Connect (ep : endpoint_t) | Disconnect | AsyncSend (data : buffer) (h : nat) | AsyncRecv (data : option nat) (h : nat) | Close | Complete (i : nat) (e : err) (n : nat).
Definition step (ev : event) (s : state) : state :=
  match ev with
  | Bind ep => (bind ep s).2 | Connect ep => (connect ep s).2 | Disconnect => (disconnect s).2
  | AsyncSend d h => async_send d h s | AsyncRecv d h => async_recv d h s | Close => close s
  | Complete i e n => match complete i e n s with Some s => s | None => s end
  end.
Definition run (l : list event) (s : state) : state := fold_left (fun s ev => step ev s) l s.
End Udp.
End Udp.

Open Scope hj_scope.
Open Scope nat_scope.
Import Udp.

(** How often a handler was given to a socket, and called or waits. *)
Definition is_handler (h : nat) (ev : event) : bool := match ev with AsyncSend _ k | AsyncRecv _ k => k =? h | _ => false end.
Definition given (h : nat) (l : list event) : nat := length (List.filter (is_handler h) l).
Definition calls_of (h : nat) (s : state) : nat := length (List.filter (fun c => c.1.1 =? h) (called s)).
Definition waits_of (h : nat) (s : state) : nat := length (List.filter (Nat.eqb h) (pending s)).
Definition known (h : nat) (s : state) : nat := calls_of h s + waits_of h s.

Lemma known_call h k e n s : known h (call k e n s) = known h s + (if k =? h then 1 else 0).
Proof. unfold known, calls_of, waits_of, call. cbn. rewrite filter_app, length_app. cbn. destruct (k =? h); cbn; lia. Qed.
Lemma known_start h k s : known h (start k s) = known h s + (if k =? h then 1 else 0).
Proof.
  unfold start, with_open. assert (H : known h (State (_sock s) (pending s ++ [k]) (called s)) = known h s + (if k =? h then 1 else 0)).
  { unfold known, calls_of, waits_of. cbn. rewrite filter_app, length_app. cbn. rewrite (Nat.eqb_sym h k). destruct (k =? h); cbn; lia. }
  destruct (_sock s) as [x|]; [destruct (opened x); [exact H|]|]; apply known_call.
Qed.
Lemma known_close h s : known h (close s) = known h s.
Proof.
  unfold known, calls_of, waits_of, close. cbn. rewrite filter_app, length_app, Nat.add_0_r. f_equal. induction (pending s) as [|k l IH]; [easy|]. cbn. rewrite (Nat.eqb_sym h k).
  destruct (k =? h); cbn; now rewrite IH.
Qed.
Lemma known_complete h i e n s s' : complete i e n s = Some s' -> known h s' = known h s.
Proof.
  unfold complete. destruct (pending s !! i) as [k|] eqn:E; [|easy]. intros [= <-]. rewrite known_call. unfold known, calls_of, waits_of. cbn. rewrite <- (take_drop_middle _ _ _ E) at 3.
  rewrite !filter_app, !length_app. cbn [List.filter]. rewrite (Nat.eqb_sym h k). destruct (k =? h); cbn [length]; lia.
Qed.
Lemma known_sock h k s : known h (set_sock k s) = known h s.
Proof. reflexivity. Qed.
Lemma known_step lib h ev s : known h (step lib ev s) = known h s + (if is_handler h ev then 1 else 0).
Proof.
  destruct ev as [ep|ep| |d k|d k| |i e n]; cbn [step is_handler]; rewrite ?Nat.add_0_r.
  - unfold bind, with_open. destruct (_sock s) as [x|]; [|easy]. destruct (opened x); [|easy]. destruct (port ep =? 0)%Z; [easy|]. cbn. now destruct (is_ok _).
  - unfold connect, with_open. destruct (_sock s) as [x|]; [|easy]. destruct (opened x); [|easy]. cbn. now destruct (is_ok _).
  - unfold disconnect, connect, with_open. destruct (_sock s) as [x|]; [|easy]. destruct (opened x); [|easy]. cbn. now destruct (is_ok _).
  - unfold async_send. destruct d as [[|a t]|]; [apply known_call|apply known_start|apply known_call].
  - unfold async_recv. destruct d as [[|n]|]; [apply known_call|apply known_start|apply known_call].
  - apply known_close.
  - destruct (complete i e n s) as [s'|] eqn:E; [exact (known_complete h _ _ _ _ _ E)|easy].
Qed.
(** Whatever is done with a socket, and in whatever order the library is done with it,
    each handler was called or waits as often as it was given, and once the socket is closed
    none waits; a socket that is closed refuses everything, calling the handler at once. *)
Theorem udp_handlers_once lib s l h :
  calls_of h (run lib l (socket_of s)) + waits_of h (run lib l (socket_of s)) = given h l /\
  calls_of h (run lib (l ++ [Close]) (socket_of s)) = given h l /\
  (let c := close (run lib l (socket_of s)) in (forall ep, bind lib ep c = (own not_open, c)) /\ (forall ep, connect lib ep c = (own not_open, c)) /\
    (forall t ts ep, send lib (Some (t :: ts)) ep c = (0, own not_open)) /\ (forall n, recv lib (Some (S n)) c = (([], None, 0), own not_open)) /\ is_connected c = Ret false /\
    (forall t ts k, called (async_send (Some (t :: ts)) k c) = called c ++ [(k, own not_open, 0)])).
Proof.
  assert (H : forall l s, known h (run lib l s) = known h s + given h l).
  { clear. induction l as [|ev l IH]; intros s; [unfold run, given; cbn; lia|]. change (known h (run lib l (step lib ev s)) = known h s + given h (ev :: l)). rewrite IH, known_step. unfold given. cbn. destruct (is_handler h ev); cbn; lia. }
  split; [exact (H l (socket_of s))|]. split.
  - pose proof (H l (socket_of s)) as E. unfold run in *. rewrite fold_left_app. cbn [fold_left step]. rewrite <- (known_close h) in E. unfold known, waits_of, close in E. cbn in E. rewrite Nat.add_0_r in E. exact E.
  - repeat split.
Qed.
Lemma udp_handlers_once_example : let l := [AsyncSend (Some (lit "a")) 1; AsyncRecv (Some 100) 2; AsyncSend (Some []) 3; Complete 0 none 1] in
  called (run (Library (fun _ => None) (fun _ => None) (fun _ => None) (fun _ => none) (fun _ _ => none) (fun _ _ => none) (fun _ _ _ => inl 0) (fun _ _ => inr aborted)) (l ++ [Close]) (socket_of (Some (Sock true None None)))) =
  [(3, own invalid_argument, 0); (1, none, 1); (2, aborted, 0)].
Proof. reflexivity. Qed.

(** ** What the code does otherwise *)

(** To ask whether an open socket is connected ends the program, when it is not. *)
Lemma asking_terminates s : is_connected (socket_of (Some (Sock true s None))) = Terminate.
Proof. reflexivity. Qed.
(** To connect to a text that is no address ends the program, although there is a place for the error. *)
Lemma bad_address_terminates lib ip p s : make_address lib ip = None -> connect_ip lib ip p s = Terminate.
Proof. intros E. unfold connect_ip, endpoint. now rewrite E. Qed.
(** A port that the system would choose is refused. *)
Lemma free_port_refused lib a k s : opened k = true -> bind lib (Endpoint a 0) (State (Some k) (pending s) (called s)) = (own invalid_argument, State (Some k) (pending s) (called s)).
Proof. intros H. unfold bind, with_open. cbn. now rewrite H. Qed.
