(* ===== verification/Endian.v ===== *)
(** * Byte order

    [encoding/endian.hpp]: the portable swaps of bytes, and the conversions of an integer
    to either order on a machine of either order.  An integer is stored as the bytes of
    its two's complement, in the order of the machine. *)

From Stdlib Require Import ZArith Lia List Bool.
From stdpp Require Import base tactics list option.
From S2P Require Import Prelude Ints.

Open Scope hj_scope.
Open Scope Z_scope.

Module Endian.

(** ** Storage *)

(** The [k]-th byte of a number, and [n] bytes from the first or from the last. *)
Definition byte_of (v : Z) (k : nat) : Z := Z.land (Z.shiftr v (8 * Z.of_nat k)) 255.
Definition little (n : nat) (v : Z) : list Z := map (byte_of v) (seq 0 n).
Definition big (n : nat) (v : Z) : list Z := map (fun k => byte_of v (n - 1 - k)) (seq 0 n).
(** [sizeof]. *)
Definition size_of (t : ity) : nat := Z.to_nat (bits t / 8).
Definition stored (big_endian : bool) (t : ity) (v : Z) : list Z := if big_endian then big (size_of t) v else little (size_of t) v.

(** ** Swaps *)

Definition ENDIAN_SWAP16 (x : Z) : Z := wrap 16 (Z.lor (Z.shiftr x 8) (Z.shiftl x 8)).
Definition ENDIAN_SWAP32 (x : Z) : Z :=
  Z.lor (Z.lor (Z.lor (Z.land (Z.shiftr x 24) 0xFF) (Z.land (Z.shiftr x 8) 0xFF00)) (Z.land (wrap 32 (Z.shiftl x 8)) 0xFF0000)) (Z.land (wrap 32 (Z.shiftl x 24)) 0xFF000000).
Definition ENDIAN_SWAP64 (x : Z) : Z :=
  Z.lor (Z.lor (Z.lor (Z.lor (Z.lor (Z.lor (Z.lor
    (Z.shiftr (Z.land x 0xFF00000000000000) 56)
    (Z.shiftr (Z.land x 0x00FF000000000000) 40))
    (Z.shiftr (Z.land x 0x0000FF0000000000) 24))
    (Z.shiftr (Z.land x 0x000000FF00000000) 8))
    (wrap 64 (Z.shiftl (Z.land x 0x00000000FF000000) 8)))
    (wrap 64 (Z.shiftl (Z.land x 0x0000000000FF0000) 24)))
    (wrap 64 (Z.shiftl (Z.land x 0x000000000000FF00) 40)))
    (wrap 64 (Z.shiftl (Z.land x 0x00000000000000FF) 56)).

(** ** Conversions *)

Section Machine.
(** The order of the machine. *)
Variable host_big : bool.

Definition is_big_endian : bool := match stored host_big (Ity 32 false) 0x01020304 with c :: _ => c =? 0x01 | [] => false end.
(** The functions of the network: parameter and result are unsigned. *)
Definition htons (v : Z) : Z := let u := wrap 16 v in if host_big then u else ENDIAN_SWAP16 u.
Definition htonl (v : Z) : Z := let u := wrap 32 v in if host_big then u else ENDIAN_SWAP32 u.
(** The result is converted to the type of the argument. *)
Definition to_big_endian (t : ity) (v : Z) : Z :=
  if (size_of t =? 2)%nat then convert t (htons v)
  else if (size_of t =? 4)%nat then convert t (htonl v)
  else if (size_of t =? 8)%nat then
    convert t (Z.lor (htonl (Z.shiftr v 32)) (wrap 64 (Z.shiftl (htonl (Z.land v 0xFFFFFFFF)) 32)))
  else v.
Definition to_little_endian (t : ity) (v : Z) : Z :=
  if is_big_endian then
    if (size_of t =? 2)%nat then convert t (ENDIAN_SWAP16 (wrap 16 v))
    else if (size_of t =? 4)%nat then convert t (ENDIAN_SWAP32 (wrap 32 v))
    else if (size_of t =? 8)%nat then convert t (ENDIAN_SWAP64 (wrap 64 v))
    else v
  else v.
End Machine.

(** ** Bytes of a number *)

Lemma byte_of_testbit v k i : 0 <= i -> Z.testbit (byte_of v k) i = (i <? 8) && Z.testbit v (8 * Z.of_nat k + i).
Proof.
  intros H. unfold byte_of. rewrite Z.land_spec, testbit_255, Z.shiftr_spec, andb_comm by lia. f_equal. f_equal. lia.
Qed.
(** Two numbers have a byte in common when they have its bits in common. *)
Lemma byte_of_ext v w k l : (forall i, 0 <= i < 8 -> Z.testbit v (8 * Z.of_nat k + i) = Z.testbit w (8 * Z.of_nat l + i)) -> byte_of v k = byte_of w l.
Proof.
  intros H. apply Z.bits_inj'. intros i Hi. rewrite !byte_of_testbit by lia. destruct (Z.ltb_spec i 8); [|easy]. rewrite H by lia. easy.
Qed.
Lemma byte_of_wrap v w k : 8 * Z.of_nat k + 8 <= w -> byte_of (wrap w v) k = byte_of v k.
Proof. intros H. apply byte_of_ext. intros i Hi. rewrite wrap_testbit by lia. decide_cmps. easy. Qed.

(** Every byte below [n] of [f v] is the byte of [v] on the other side. *)
Definition reverses (n : nat) (f : Z -> Z) : Prop := forall v k, uint (8 * Z.of_nat n) v -> (k < n)%nat -> byte_of (f v) k = byte_of v (n - 1 - k).

Lemma mask_testbit m i : 0 <= m -> Z.testbit (Z.shiftl 255 m) i = (m <=? i) && (i <? m + 8).
Proof. intros H. destruct (Z.neg_nonneg_cases i) as [N|N]; [rewrite Z.testbit_neg_r by lia; now decide_cmps|]. now apply testbit_byte_mask. Qed.
(** One byte, bit by bit: each term of the swap keeps the byte or clears it. *)
Ltac byte_of_swap v :=
  apply byte_of_ext; intros i Hi; cbn [Z.of_nat Nat.sub];
  repeat first [rewrite mask_testbit by lia | rewrite wrap_testbit by lia | rewrite Z.lor_spec | rewrite Z.land_spec | rewrite Z.shiftr_spec by lia | rewrite Z.shiftl_spec by lia];
  decide_cmps; rewrite ?andb_true_r, ?andb_false_r, ?orb_false_r, ?orb_false_l, ?andb_true_l, ?andb_false_l;
  repeat match goal with
  | |- context [Z.testbit v ?j] => first [rewrite (Z.testbit_neg_r v j) by lia | match goal with H : uint ?w v |- _ => rewrite (uint_testbit w v j) by (assumption || lia) end]
  end; rewrite ?orb_false_r, ?orb_false_l, ?andb_false_r; apply (f_equal (Z.testbit v)); lia.
Lemma swap16_reverses : reverses 2 ENDIAN_SWAP16.
Proof. intros v k Hv Hk. cbn in Hv. do 2 (destruct k as [|k]; [unfold ENDIAN_SWAP16; byte_of_swap v|]). lia. Qed.
(** The masks of the code are bytes of ones. *)
Lemma swap32_mask_form x : ENDIAN_SWAP32 x = Z.lor (Z.lor (Z.lor (Z.land (Z.shiftr x 24) (Z.shiftl 255 0)) (Z.land (Z.shiftr x 8) (Z.shiftl 255 8)))
  (Z.land (wrap 32 (Z.shiftl x 8)) (Z.shiftl 255 16))) (Z.land (wrap 32 (Z.shiftl x 24)) (Z.shiftl 255 24)).
Proof. reflexivity. Qed.
Lemma swap32_reverses : reverses 4 ENDIAN_SWAP32.
Proof. intros v k Hv Hk. cbn in Hv. do 4 (destruct k as [|k]; [rewrite swap32_mask_form; byte_of_swap v|]). lia. Qed.
Lemma swap64_mask_form x : ENDIAN_SWAP64 x =
  Z.lor (Z.lor (Z.lor (Z.lor (Z.lor (Z.lor (Z.lor
    (Z.shiftr (Z.land x (Z.shiftl 255 56)) 56) (Z.shiftr (Z.land x (Z.shiftl 255 48)) 40)) (Z.shiftr (Z.land x (Z.shiftl 255 40)) 24)) (Z.shiftr (Z.land x (Z.shiftl 255 32)) 8))
    (wrap 64 (Z.shiftl (Z.land x (Z.shiftl 255 24)) 8))) (wrap 64 (Z.shiftl (Z.land x (Z.shiftl 255 16)) 24))) (wrap 64 (Z.shiftl (Z.land x (Z.shiftl 255 8)) 40))) (wrap 64 (Z.shiftl (Z.land x (Z.shiftl 255 0)) 56)).
Proof. reflexivity. Qed.
Lemma SWAP64_reverses : reverses 8 ENDIAN_SWAP64.
Proof. intros v k Hv Hk. cbn in Hv. do 8 (destruct k as [|k]; [rewrite swap64_mask_form; byte_of_swap v|]). lia. Qed.

(** ** Stored integers *)

(** The types of the header: of one, two, four or eight bytes. *)
Definition sized (t : ity) : Prop := bits t = 8 * Z.of_nat (size_of t) /\ In (size_of t) [1; 2; 4; 8]%nat.

Lemma byte_of_convert t z k : sized t -> (k < size_of t)%nat -> byte_of (convert t z) k = byte_of z k.
Proof.
  intros [E _] Hk. rewrite <- (byte_of_wrap z (bits t)), <- (byte_of_wrap (convert t z) (bits t)) by lia. f_equal.
  unfold convert. destruct (signed t); [apply wrap_sint_of; lia|apply wrap_wrap; lia].
Qed.
Lemma little_ext n v w : (forall k, (k < n)%nat -> byte_of v k = byte_of w k) -> little n v = little n w.
Proof. intros H. apply map_ext_in. intros k Hk%in_seq. apply H. lia. Qed.
Lemma big_ext n v w : (forall k, (k < n)%nat -> byte_of v k = byte_of w k) -> big n v = big n w.
Proof. intros H. apply map_ext_in. intros k Hk%in_seq. apply H. lia. Qed.
Lemma little_of_reversed n v w : (forall k, (k < n)%nat -> byte_of v k = byte_of w (n - 1 - k)) -> little n v = big n w.
Proof. intros H. apply map_ext_in. intros k Hk%in_seq. apply H. lia. Qed.
Lemma big_of_reversed n v w : (forall k, (k < n)%nat -> byte_of v k = byte_of w (n - 1 - k)) -> big n v = little n w.
Proof. intros H. apply map_ext_in. intros k Hk%in_seq. rewrite H by lia. f_equal. lia. Qed.
(** A swap of a reduced number reverses the bytes of the number. *)
Lemma reverses_wrap n f v k : reverses n f -> (k < n)%nat -> byte_of (f (wrap (8 * Z.of_nat n) v)) k = byte_of v (n - 1 - k).
Proof. intros R H. rewrite R by first [exact H|apply wrap_uint; lia]. apply byte_of_wrap. lia. Qed.

Lemma swap32_high x i : 32 <= i -> Z.testbit (ENDIAN_SWAP32 x) i = false.
Proof. intros H. rewrite swap32_mask_form, !Z.lor_spec, !Z.land_spec, !mask_testbit by lia. decide_cmps. now rewrite !andb_false_r. Qed.
(** Two halves of a number of eight bytes. *)
Lemma byte_of_halves a b k : (forall i, 32 <= i -> Z.testbit a i = false) -> (k < 8)%nat ->
  byte_of (Z.lor a (wrap 64 (Z.shiftl b 32))) k = if (k <? 4)%nat then byte_of a k else byte_of b (k - 4).
Proof.
  intros Ha Hk. destruct (Nat.ltb_spec k 4); apply byte_of_ext; intros i Hi; rewrite Z.lor_spec, wrap_testbit, Z.shiftl_spec by lia; decide_cmps.
  - rewrite (Z.testbit_neg_r b) by lia. now rewrite orb_false_r.
  - rewrite Ha by lia. cbn. f_equal. lia.
Qed.

Lemma is_big_endian_host h : is_big_endian h = h.
Proof. now destruct h. Qed.
(** ** What is stored *)

Lemma sized_cases (P : nat -> Prop) t : sized t -> P 1%nat -> P 2%nat -> P 4%nat -> P 8%nat -> P (size_of t).
Proof. intros [_ [<-|[<-|[<-|[<-|[]]]]]]; auto. Qed.
Lemma little_bytes h t v k : sized t -> (k < size_of t)%nat -> byte_of (to_little_endian h t v) k = if h && negb (size_of t =? 1)%nat then byte_of v (size_of t - 1 - k) else byte_of v k.
Proof.
  intros S Hk. unfold to_little_endian. rewrite is_big_endian_host. destruct h; [|easy]. pose proof S as [_ [E|[E|[E|[E|[]]]]]]; rewrite <- E in *; cbn -[ENDIAN_SWAP16 ENDIAN_SWAP32 ENDIAN_SWAP64 byte_of Nat.sub]; [easy| | |];
  (rewrite byte_of_convert by first [exact S|lia]).
  - exact (reverses_wrap 2 _ v k swap16_reverses Hk).
  - exact (reverses_wrap 4 _ v k swap32_reverses Hk).
  - exact (reverses_wrap 8 _ v k SWAP64_reverses Hk).
Qed.
Lemma big_bytes t v k : sized t -> (k < size_of t)%nat -> byte_of (to_big_endian false t v) k = byte_of v (size_of t - 1 - k).
Proof.
  intros S Hk. unfold to_big_endian. pose proof S as [_ [E|[E|[E|[E|[]]]]]]; rewrite <- E in *; cbn -[ENDIAN_SWAP16 ENDIAN_SWAP32 byte_of Nat.sub];
  [now replace (1 - 1 - k)%nat with k by lia| | |]; (rewrite byte_of_convert by first [exact S|lia]).
  - exact (reverses_wrap 2 _ v k swap16_reverses Hk).
  - exact (reverses_wrap 4 _ v k swap32_reverses Hk).
  - unfold htonl. cbn [negb]. rewrite byte_of_halves by (exact (swap32_high _) || exact Hk). destruct (Nat.ltb_spec k 4).
    + rewrite (reverses_wrap 4 _ _ _ swap32_reverses) by lia. apply byte_of_ext. intros i Hi. rewrite Z.shiftr_spec by lia. f_equal. lia.
    + rewrite (reverses_wrap 4 _ _ _ swap32_reverses) by lia. apply byte_of_ext. intros i Hi. rewrite Z.land_spec, (Z.testbit_ones_nonneg 32) by lia.
      decide_cmps. rewrite andb_true_r. f_equal. lia.
Qed.
(** On a machine of the other order, of fewer bytes than eight. *)
Lemma big_bytes_host t v k : sized t -> size_of t <> 8%nat -> (k < size_of t)%nat -> byte_of (to_big_endian true t v) k = byte_of v k.
Proof.
  intros S H8 Hk. unfold to_big_endian. pose proof S as [_ [E|[E|[E|[E|[]]]]]]; rewrite <- E in *; cbn -[byte_of]; [easy| | |easy];
  (rewrite byte_of_convert by first [exact S|lia]); unfold htons, htonl; apply byte_of_wrap; lia.
Qed.
Lemma sized_pos t : sized t -> 0 < bits t.
Proof. intros [E H]. rewrite E. revert H. generalize (size_of t). intros n H. cbn in H. lia. Qed.
(** A number of the type is known by its bytes. *)
Lemma little_inj t v w : sized t -> in_type t v = true -> (forall k, (k < size_of t)%nat -> byte_of w k = byte_of v k) -> convert t w = v.
Proof.
  intros S Hv H. pose proof (sized_pos t S) as Hp. destruct S as [E _].
  rewrite <- (convert_id t v Hp Hv). assert (Hw : wrap (bits t) w = wrap (bits t) v).
  { apply Z.bits_inj'. intros i Hi. rewrite !wrap_testbit by lia. destruct (Z.ltb_spec i (bits t)); [|easy]. cbn.
    pose proof (Z.mod_pos_bound i 8 ltac:(lia)). pose proof (Z.div_mod i 8 ltac:(lia)). assert (0 <= i / 8) by (apply Z.div_pos; lia).
    pose proof (f_equal (fun b => Z.testbit b (i mod 8)) (H (Z.to_nat (i / 8)) ltac:(lia))) as B. cbn beta in B. rewrite !byte_of_testbit in B by lia.
    replace (8 * Z.of_nat (Z.to_nat (i / 8)) + i mod 8) with i in B by lia. revert B. decide_cmps. easy. }
  unfold convert. destruct (signed t); [|exact Hw]. now rewrite <- (sint_of_wrap _ w), Hw, sint_of_wrap.
Qed.
Lemma to_big_converted t v : sized t -> size_of t <> 1%nat -> exists z, to_big_endian false t v = convert t z.
Proof. intros [_ Hs] H. unfold to_big_endian. destruct Hs as [E|[E|[E|[E|[]]]]]; rewrite <- E in *; cbn [Nat.eqb]; [easy|..]; now eexists. Qed.
(** On a machine of either order, what is stored of a number converted to little endian
    is its bytes from the lowest, and of a number converted to big endian its bytes from the
    highest, for signed and unsigned types of every width, but for eight bytes on a machine
    that is big endian; converted twice, a number of the type is itself. *)
Theorem endian_stored t v : sized t ->
  (forall host, stored host t (to_little_endian host t v) = little (size_of t) v) /\
  (forall host, (host = true -> size_of t <> 8%nat) -> stored host t (to_big_endian host t v) = big (size_of t) v) /\
  (in_type t v = true -> to_big_endian false t (to_big_endian false t v) = v).
Proof.
  intros S. pose proof S as [_ Hs]. split; [|split].
  - intros h. unfold stored. destruct h; [apply big_of_reversed|apply little_ext]; intros k Hk; rewrite little_bytes by assumption; [|easy]. cbn.
    destruct (Nat.eqb_spec (size_of t) 1) as [E|]; [|easy]. cbn. f_equal. lia.
  - intros h H. unfold stored. destruct h; [apply big_ext|apply little_of_reversed]; intros k Hk; [apply big_bytes_host; auto|now apply big_bytes].
  - intros Hv. assert (Hk : forall k, (k < size_of t)%nat -> byte_of (to_big_endian false t (to_big_endian false t v)) k = byte_of v k).
    { intros k Hk. rewrite !big_bytes by first [exact S|lia]. f_equal. lia. }
    destruct (decide (size_of t = 1%nat)) as [E|E]; [unfold to_big_endian; now rewrite E|].
    destruct (to_big_converted t (to_big_endian false t v) S E) as [z Ez]. rewrite Ez in Hk |- *. apply (little_inj t v z S Hv). intros k Hl. rewrite <- Hk by exact Hl. now rewrite byte_of_convert.
Qed.
Lemma endian_stored_witness : sized (Ity 64 true) /\ stored false (Ity 64 true) (to_big_endian false (Ity 64 true) (-2)) = [255; 255; 255; 255; 255; 255; 255; 254] /\ to_big_endian false (Ity 64 true) (to_big_endian false (Ity 64 true) (-2)) = -2.
Proof.
  assert (H : sized (Ity 64 true)) by (split; [reflexivity|cbn; auto 6]). split; [exact H|]. destruct (endian_stored (Ity 64 true) (-2) H) as (_ & B & R). split; [exact (B false ltac:(easy))|exact (R eq_refl)].
Defined.
(** Eight bytes on a machine that is big endian: the halves change places, where nothing should. *)
Lemma big_host_swaps_halves : stored true (Ity 64 false) (to_big_endian true (Ity 64 false) 0x0102030405060708) = [5; 6; 7; 8; 1; 2; 3; 4].
Proof. reflexivity. Qed.
End Endian.
