(* ===== verification/Dbuffer.v ===== *)
(** * Double buffer

    [io/dbuffer.hpp]: two containers, one that is written and one that is read, and the two
    atomic pointers that say which is which.  The methods are given once alone, and once as
    the steps that threads interleave: each load and store of a pointer is a step, and a
    copy has a beginning and an end, since a container is not copied atomically.  The
    atomics are sequentially consistent here, which the code does not ask for.  Theorems:
    alone, what is read is what was written last; with one thread that writes, a read is not
    disturbed by the write that is going on when it begins. *)

From Stdlib Require Import Lia List Bool.
From stdpp Require Import base tactics list option.
From S2P Require Import Prelude.

Open Scope hj_scope.
Open Scope nat_scope.

Module Dbuffer.
Section Dbuffer.
Context {C : Type}.

(** What a copy does: it succeeds or not, or throws, and what the source and the
    destination are after it. *)
Inductive copied := Copied (ok : bool) (src dst : C) | Thrown (src dst : C).
Definition copy_fn : Type := C -> C -> copied.
Definition src_of (c : copied) : C := match c with Copied _ s _ | Thrown s _ => s end.
Definition dst_of (c : copied) : C := match c with Copied _ _ d | Thrown _ d => d end.
(** The copy of the class: an assignment that throws is caught. *)
Definition _default_copy (assign : C -> option C) : copy_fn := fun src dst => match assign src with Some d => Copied true src d | None => Copied false src dst end.

Variable _copy : copy_fn.

(** ** Alone *)

(** The slots are named by a boolean. *)
Record dbuffer := Dbuf { data : bool -> C; _back : bool; _front : bool }.
Definition construct (empty : C) : dbuffer := Dbuf (fun _ => empty) false true.
Definition set_data (b : bool) (v : C) (s : dbuffer) : dbuffer := Dbuf (fun x => if eqb x b then v else data s x) (_back s) (_front s).
Definition swap (s : dbuffer) : dbuffer := Dbuf (data s) (_front s) (_back s).
(** The result is none when the copy throws; the value of the caller is returned too. *)
Definition write (value : C) (s : dbuffer) : option bool * C * dbuffer :=
  let back := _back s in let c := _copy value (data s back) in let s' := set_data back (dst_of c) s in
  match c with Copied true _ _ => (Some true, src_of c, swap s') | Copied false _ _ => (Some false, src_of c, s') | Thrown _ _ => (None, src_of c, s') end.
Definition write_move (value : C) (s : dbuffer) : bool * dbuffer := (true, swap (set_data (_back s) value s)).
Definition read (value : C) (s : dbuffer) : option bool * C * dbuffer :=
  let front := _front s in let c := _copy (data s front) value in
  (match c with Copied ok _ _ => Some ok | Thrown _ _ => None end, dst_of c, set_data front (src_of c) s).

(** ** Threads *)

(** Where a thread is: in [write] ([moved] if the value is moved) with the pointer it
    loaded, before, or in, the copy; in [swap] with what it loaded; in [read]. *)
Inductive pc :=
  | Idle | Loaded (moved : bool) (v : C) (b : bool) | Copying (moved : bool) (v : C) (b : bool)
  | Swap0 | Swap1 (tmp : bool) | Swap2 (tmp b : bool) | Swap3 (tmp : bool)
  | Reading (f : bool) (v : C) | ReadCopying (f : bool) (v : C).
Inductive op := Write (moved : bool) (v : C) | DoSwap | Read (v : C).
(** A thread calls a method, or goes on. *)
Inductive ev := Call (i : nat) (o : op) | Go (i : nat).
(** The last field is what the reads gave. *)
Record state := State { buf : dbuffer; threads : list pc; results : list (nat * option bool * C) }.
Definition with_pc (i : nat) (p : pc) (s : state) : state := State (buf s) (<[i := p]> (threads s)) (results s).
Definition with_buf (d : dbuffer) (s : state) : state := State d (threads s) (results s).
Definition set_front (b : bool) (d : dbuffer) : dbuffer := Dbuf (data d) (_back d) b.
Definition set_back (b : bool) (d : dbuffer) : dbuffer := Dbuf (data d) b (_front d).
Definition call (i : nat) (o : op) (s : state) : state :=
  match o with
  | Write m v => with_pc i (Loaded m v (_back (buf s))) s
  | DoSwap => with_pc i Swap0 s
  | Read v => with_pc i (Reading (_front (buf s)) v) s
  end.
Definition write_end (i : nat) (m : bool) (v : C) (b : bool) (s : state) : state :=
  if m then with_pc i Swap0 (with_buf (set_data b v (buf s)) s) else
  let c := _copy v (data (buf s) b) in
  with_pc i (match c with Copied true _ _ => Swap0 | _ => Idle end) (with_buf (set_data b (dst_of c) (buf s)) s).
Definition read_end (i : nat) (f : bool) (v : C) (s : state) : state :=
  let c := _copy (data (buf s) f) v in
  State (set_data f (src_of c) (buf s)) (<[i := Idle]> (threads s)) (results s ++ [(i, match c with Copied ok _ _ => Some ok | Thrown _ _ => None end, dst_of c)]).
Definition go (i : nat) (p : pc) (s : state) : state :=
  match p with
  | Idle => s
  | Loaded m v b => with_pc i (Copying m v b) s
  | Copying m v b => write_end i m v b s
  | Swap0 => with_pc i (Swap1 (_front (buf s))) s
  | Swap1 tmp => with_pc i (Swap2 tmp (_back (buf s))) s
  | Swap2 tmp b => with_pc i (Swap3 tmp) (with_buf (set_front b (buf s)) s)
  | Swap3 tmp => with_pc i Idle (with_buf (set_back tmp (buf s)) s)
  | Reading f v => with_pc i (ReadCopying f v) s
  | ReadCopying f v => read_end i f v s
  end.
Definition step (e : ev) (s : state) : state :=
  match e with
  | Call i o => match threads s !! i with Some Idle => call i o s | _ => s end
  | Go i => match threads s !! i with Some p => go i p s | None => s end
  end.
Definition run (l : list ev) (s : state) : state := fold_left (fun s e => step e s) l s.
Definition start (empty : C) (n : nat) : state := State (construct empty) (replicate n Idle) [].

(** Two copies at once, one of them into the container: undefined behaviour. *)
Definition races (p q : pc) : bool :=
  match p, q with
  | Copying _ _ b, Copying _ _ b' => eqb b b'
  | Copying _ _ b, ReadCopying f _ | ReadCopying f _, Copying _ _ b => eqb b f
  | _, _ => false
  end.
Definition race (s : state) : Prop := exists i j p q, i <> j /\ threads s !! i = Some p /\ threads s !! j = Some q /\ races p q = true.
End Dbuffer.
#[global] Arguments copied C : clear implicits.
#[global] Arguments copy_fn C : clear implicits.
#[global] Arguments dbuffer C : clear implicits.
#[global] Arguments state C : clear implicits.
#[global] Arguments pc C : clear implicits.
#[global] Arguments op C : clear implicits.
#[global] Arguments ev C : clear implicits.

(** A copy that leaves the source, and gives it when it succeeds. *)
Class Copy {C} (cp : copy_fn C) : Prop := { copy_keeps : forall a b, src_of (cp a b) = a; copy_gives : forall a b x y, cp a b = Copied true x y -> y = a }.
#[export] Instance default_copies {C} (assign : C -> option C) (H : forall a d, assign a = Some d -> d = a) : Copy (_default_copy assign).
Proof. split; intros a b; unfold _default_copy; destruct (assign a) eqn:E; cbn; [easy|easy| |easy]. intros x y [= <- <-]. eauto. Defined.
End Dbuffer.

Open Scope hj_scope.
Open Scope nat_scope.
Import Dbuffer.

Section Dbuffer.
Context {C : Type} (cp : copy_fn C) {HC : Copy cp}.
Implicit Types (s : state C) (d : dbuffer C) (l : list (ev C)) (p : pc C).

(** ** Alone *)

(** What a read would give. *)
Definition value d : C := data d (_front d).
Lemma data_set b v d x : data (set_data b v d) x = if eqb x b then v else data d x.
Proof. reflexivity. Qed.
Lemma data_keep f v d x : data (set_data f (src_of (cp (data d f) v)) d) x = data d x.
Proof. rewrite copy_keeps, data_set. destruct (eqb_spec x f); congruence. Qed.
(** Alone, what a write that succeeds wrote is what is read next, a write that fails or
    throws leaves what is read, and a read leaves it. *)
Theorem dbuffer_alone d v w : _back d <> _front d ->
  (let '(r, v', d') := write cp v d in v' = v /\ _back d' <> _front d' /\ value d' = if decide (r = Some true) then v else value d) /\
  (let '(r, d') := write_move v d in r = true /\ _back d' <> _front d' /\ value d' = v) /\
  (let '(r, w', d') := read cp w d in value d' = value d /\ (_back d', _front d') = (_back d, _front d) /\ (r = Some true -> w' = value d)).
Proof.
  intros H. unfold write, write_move, read, value, swap. split; [|split].
  - pose proof (copy_keeps v (data d (_back d))) as K. pose proof (copy_gives v (data d (_back d))) as G. destruct (cp v (data d (_back d))) as [[] a b|a b]; cbn in *; subst a.
    + split; [easy|]. split; [congruence|]. rewrite decide_True by easy. rewrite eqb_reflx. now apply (G v).
    + split; [easy|]. split; [congruence|]. rewrite decide_False by easy. destruct (eqb_spec (_front d) (_back d)); congruence.
    + split; [easy|]. split; [congruence|]. rewrite decide_False by easy. destruct (eqb_spec (_front d) (_back d)); congruence.
  - cbn. split; [easy|]. split; [congruence|]. now rewrite eqb_reflx.
  - rewrite data_keep. split; [easy|]. split; [easy|]. pose proof (copy_gives (data d (_front d)) w) as G. destruct (cp _ w) as [[] a b|a b]; cbn; intros [=]. now apply (G a).
Qed.

(** ** One writer *)

Definition quiet p : bool := match p with Idle | Reading _ _ | ReadCopying _ _ => true | _ => false end.
(** The pointers, as the writer knows them. *)
Definition knows d p : Prop :=
  match p with
  | Loaded _ _ b | Copying _ _ b => b = _back d /\ _back d <> _front d
  | Swap1 tmp => tmp = _front d /\ _back d <> _front d
  | Swap2 tmp b => tmp = _front d /\ b = _back d /\ _back d <> _front d
  | Swap3 tmp => _back d = _front d /\ tmp <> _front d
  | _ => _back d <> _front d
  end.
(** Only [w] writes. *)
Definition allowed (w : nat) (e : ev C) : bool := match e with Call i (Write _ _) | Call i DoSwap => i =? w | _ => true end.
Definition begins (e : ev C) : bool := match e with Call _ (Write _ _) => true | _ => false end.
Definition calls (w : nat) (e : ev C) : bool := match e with Call i _ => i =? w | _ => false end.
Record one_writer (w : nat) s : Prop :=
  { ow_others : forall j p, j <> w -> threads s !! j = Some p -> quiet p = true;
    ow_writer : forall p, threads s !! w = Some p -> knows (buf s) p }.

(** What a step does: the thread that goes, and where it is after. *)
Definition ev_thread (e : ev C) : nat := match e with Call i _ | Go i => i end.
Lemma step_other e s j : j <> ev_thread e -> threads (step cp e s) !! j = threads s !! j.
Proof.
  destruct e as [i o|i]; cbn; intros H; destruct (threads s !! i) as [p|] eqn:E; try easy.
  - destruct p; try easy; destruct o; cbn; now rewrite list_lookup_insert_ne.
  - destruct p; cbn; try easy; try (unfold write_end; destruct moved; cbn); try now rewrite list_lookup_insert_ne.
Qed.
Lemma lookup_self (l : list (pc C)) i p q : l !! i = Some p -> <[i := q]> l !! i = Some q.
Proof. intros H. apply list_lookup_insert_eq. now apply lookup_lt_Some in H. Qed.

(** A thread that only reads leaves the pointers and what is in the containers. *)
Definition same d d' : Prop := _back d' = _back d /\ _front d' = _front d /\ forall x, data d' x = data d x.
Lemma knows_same d d' p : same d d' -> knows d p -> knows d' p.
Proof. intros (B & F & _). destruct p; cbn; now rewrite B, F. Qed.
Lemma reader_step w e s : one_writer w s -> allowed w e = true -> ev_thread e <> w ->
  same (buf s) (buf (step cp e s)) /\ (forall p, threads (step cp e s) !! ev_thread e = Some p -> quiet p = true).
Proof.
  intros [O _] A H. assert (R : same (buf s) (buf s)) by easy. destruct e as [i o|i]; cbn in *; destruct (threads s !! i) as [p|] eqn:E; try (split; [exact R|rewrite E; easy]).
  - pose proof (O i p H E) as Q. destruct p; try (split; [exact R|intros p' E'; rewrite E in E'; injection E' as <-; exact Q]).
    destruct o; try (apply Nat.eqb_eq in A; easy). cbn. split; [exact R|]. rewrite (lookup_self _ _ _ _ E). now intros p [= <-].
  - pose proof (O i p H E) as Q. destruct p; try easy; cbn.
    + split; [exact R|]. rewrite E. now intros p [= <-].
    + split; [exact R|]. rewrite (lookup_self _ _ _ _ E). now intros p [= <-].
    + split; [split; [easy|split; [easy|intros x; apply data_keep]]|]. rewrite (lookup_self _ _ _ _ E). now intros p [= <-].
Qed.
(** The writer. *)
Lemma writer_step w e s : one_writer w s -> ev_thread e = w -> forall p, threads (step cp e s) !! w = Some p -> knows (buf (step cp e s)) p.
Proof.
  intros [_ W] H p. destruct e as [i o|i]; cbn in *; subst i; destruct (threads s !! w) as [q|] eqn:E; try (rewrite E; easy).
  - pose proof (W q eq_refl) as K. destruct q; try (rewrite E; intros [= <-]; exact K). destruct o; cbn; rewrite (lookup_self _ _ _ _ E); intros [= <-]; exact K || easy.
  - pose proof (W q eq_refl) as K. destruct q; cbn in K |- *; try (rewrite E; intros [= <-]; exact K).
    + rewrite (lookup_self _ _ _ _ E). now intros [= <-].
    + unfold write_end. destruct moved; cbn; [rewrite (lookup_self _ _ _ _ E); now intros [= <-]|]. rewrite (lookup_self _ _ _ _ E). intros [= <-]. destruct (cp v _) as [[] ? ?|? ?]; cbn; tauto.
    + rewrite (lookup_self _ _ _ _ E). now intros [= <-].
    + rewrite (lookup_self _ _ _ _ E). intros [= <-]. cbn. tauto.
    + rewrite (lookup_self _ _ _ _ E). intros [= <-]. cbn. destruct K as (-> & -> & K). split; [easy|congruence].
    + rewrite (lookup_self _ _ _ _ E). intros [= <-]. cbn. now destruct K.
    + rewrite (lookup_self _ _ _ _ E). now intros [= <-].
    + rewrite (lookup_self _ _ _ _ E). now intros [= <-].
Qed.
Lemma one_writer_step w e s : one_writer w s -> allowed w e = true -> one_writer w (step cp e s).
Proof.
  intros I A. destruct (decide (ev_thread e = w)) as [H|H]; split.
  - intros j p Hj. rewrite step_other by congruence. now apply (ow_others w s I).
  - now apply writer_step.
  - intros j p Hj. destruct (decide (j = ev_thread e)) as [->|N]; [now apply (reader_step w)|]. rewrite step_other by easy. now apply (ow_others w s I).
  - intros p. rewrite step_other by congruence. intros E. apply (knows_same (buf s)); [now apply (reader_step w)|]. now apply (ow_writer w s I).
Qed.
Lemma one_writer_run w l s : one_writer w s -> Forall (fun e => allowed w e = true) l -> one_writer w (run cp l s).
Proof. intros I H. revert s I. induction H as [|e l A _ IH]; intros s I; [exact I|]. apply IH, one_writer_step; assumption. Qed.
Lemma one_writer_start w empty n : one_writer w (start empty n).
Proof. split; [intros j p _|intros p]; cbn; intros [-> _]%lookup_replicate_1; easy. Qed.

(** ** A read, and the write that is going on *)

(** The container [f] has [v], and the writer is not about to write it. *)
Definition safe_at w (f : bool) (v : C) s : Prop :=
  data (buf s) f = v /\ forall m x b, threads s !! w = Some (Loaded m x b) \/ threads s !! w = Some (Copying m x b) -> b <> f.
Lemma safe_step w f v e s : one_writer w s -> safe_at w f v s -> allowed w e = true -> begins e = false -> safe_at w f v (step cp e s).
Proof.
  intros I [D B] A N. destruct (decide (ev_thread e = w)) as [H|H].
  2: { split; [destruct (reader_step w e s I A H) as [(_ & _ & S) _]; now rewrite S|]. intros m x b. rewrite step_other by congruence. apply B. }
  unfold safe_at. destruct e as [i o|i]; cbn in *; subst i; destruct (threads s !! w) as [q|] eqn:E; rewrite ?E in B; try (rewrite E; split; [exact D|intros m1 x1 b1 [?|?]; easy]).
  - destruct q; try (rewrite E; split; [exact D|intros m1 x1 b1; apply (B m1 x1 b1)]). destruct o; [easy| |]; cbn; rewrite (lookup_self _ _ _ _ E); (split; [exact D|]); intros m1 x1 b1 [[=]|[=]].
  - destruct q; cbn; try (rewrite E; split; [exact D|intros m1 x1 b1; apply (B m1 x1 b1)]).
    all: try (rewrite (lookup_self _ _ _ _ E); split; [exact D|]; intros m1 x1 b1 [[=]|[=]]; subst; apply (B m1 x1 b1); now (left + right)).
    + unfold write_end. assert (Hb : b <> f) by (apply (B moved v0 b); now right).
      destruct moved; cbn; rewrite (lookup_self _ _ _ _ E).
      * split; [destruct (eqb_spec f b); congruence|]. intros m1 x1 b1 [[=]|[=]].
      * split; [destruct (eqb_spec f b); congruence|]. destruct (cp v0 _) as [[] ? ?|? ?]; intros m1 x1 b1 [[=]|[=]].
    + rewrite (lookup_self _ _ _ _ E). split; [exact (eq_trans (data_keep f0 v0 (buf s) f) D)|]. intros m1 x1 b1 [[=]|[=]].
Qed.
Definition gentle w (e : ev C) : Prop := allowed w e = true /\ begins e = false.
Lemma safe_run w f v l s : one_writer w s -> safe_at w f v s -> Forall (gentle w) l -> one_writer w (run cp l s) /\ safe_at w f v (run cp l s).
Proof.
  intros I S H. revert s I S. induction H as [|e l [A N] _ IH]; intros s I S; [easy|]. apply IH; [now apply one_writer_step|now apply safe_step].
Qed.
Lemma safe_now w s : one_writer w s -> safe_at w (_front (buf s)) (value (buf s)) s.
Proof. intros [_ W]. split; [easy|]. intros m x b [E|E]; pose proof (W _ E) as K; cbn in K; intuition congruence. Qed.

(** ** What a write leaves *)

(** Where the value of the write of [w] is. *)
Definition carries w (m : bool) (v : C) s : Prop :=
  match threads s !! w with
  | Some (Loaded m' v' b) | Some (Copying m' v' b) => m' = m /\ v' = v
  | Some Swap0 | Some (Swap1 _) | Some (Swap2 _ _) => data (buf s) (_back (buf s)) = v
  | Some (Swap3 _) | Some Idle => value (buf s) = v
  | _ => False
  end.
Lemma carries_step w m v e s : (m = false -> forall c, exists x, cp v c = Copied true x v) -> one_writer w s -> carries w m v s -> allowed w e = true -> calls w e = false -> carries w m v (step cp e s).
Proof.
  intros Hc I K A N. destruct (decide (ev_thread e = w)) as [H|H].
  2: { destruct (reader_step w e s I A H) as [(B & F & S) _]. unfold carries, value in *. rewrite step_other by congruence. rewrite B, F, !S. exact K. }
  destruct e as [i o|i]; cbn in H; subst i; [cbn in N; now rewrite Nat.eqb_refl in N|].
  unfold carries in *. cbn [step]. destruct (threads s !! w) as [q|] eqn:E; [|easy]. pose proof (ow_writer w s I q E) as W.
  destruct q; try easy; cbn [go with_pc with_buf buf threads]; try (rewrite (lookup_self _ _ _ _ E)); try (now rewrite E); cbn in W |- *; try exact K.
  - destruct K as [-> ->]. destruct W as [-> W]. unfold write_end. destruct m; cbn; rewrite (lookup_self _ _ _ _ E); cbn; [now rewrite eqb_reflx|].
    destruct (Hc eq_refl (data (buf s) (_back (buf s)))) as [x ->]. cbn. now rewrite eqb_reflx.
  - destruct W as (_ & -> & _). exact K.
Qed.
Lemma carries_run w m v l s : (m = false -> forall c, exists x, cp v c = Copied true x v) -> one_writer w s -> carries w m v s ->
  Forall (fun e => allowed w e = true /\ calls w e = false) l -> carries w m v (run cp l s).
Proof.
  intros Hc I K H. revert s I K. induction H as [|e l [A N] _ IH]; intros s I K; [exact K|]. apply IH; [now apply one_writer_step|now apply carries_step].
Qed.
(** C39: with one thread that writes, whatever the order of the steps: a read that begins while a
    write is going on is not disturbed as long as no other write begins, no copy into the
    container it reads goes on, and it gives what was to be read when it began; and once a write
    has returned, its value is what is to be read. *)
Theorem dbuffer_one_writer w n empty before : Forall (fun e => allowed w e = true) before ->
  let s := run cp before (start empty n) in
  (forall r v l, r <> w -> threads s !! r = Some Idle -> Forall (gentle w) l ->
    let f := _front (buf s) in let t := run cp l (step cp (Call r (Read v)) s) in
    threads t !! r = Some (ReadCopying f v) ->
    (forall j q, threads t !! j = Some q -> races q (ReadCopying f v) = false) /\
    exists ok, results (step cp (Go r) t) = results t ++ [(r, ok, dst_of (cp (value (buf s)) v))]) /\
  (forall m v l, threads s !! w = Some Idle -> (m = false -> forall c, exists x, cp v c = Copied true x v) ->
    Forall (fun e => allowed w e = true /\ calls w e = false) l ->
    let t := run cp l (step cp (Call w (Write m v)) s) in threads t !! w = Some Idle -> value (buf t) = v).
Proof.
  intros A s. assert (I : one_writer w s) by (apply one_writer_run; [apply one_writer_start|exact A]). split.
  - intros r v l Hr E G f t Et. assert (I' : one_writer w (step cp (Call r (Read v)) s)) by now apply one_writer_step.
    assert (S' : safe_at w f (value (buf s)) (step cp (Call r (Read v)) s)) by (apply safe_step; try easy; now apply safe_now).
    destruct (safe_run w f _ l _ I' S' G) as [It [D B]]. fold t in It, D, B. split.
    + intros j q Ej. destruct (decide (j = w)) as [->|N].
      * destruct q; try easy. cbn. apply eqb_false_iff. apply (B moved v0). now right.
      * pose proof (ow_others w t It j q N Ej) as Q. now destruct q.
    + cbn. rewrite Et. cbn. unfold read_end. rewrite D. eexists. reflexivity.
  - intros m v l E Hc H t Et. assert (K : carries w m v (step cp (Call w (Write m v)) s)) by (unfold carries; cbn; rewrite E; cbn; now rewrite (lookup_self _ _ _ _ E)).
    assert (I' : one_writer w (step cp (Call w (Write m v)) s)) by (apply one_writer_step; [exact I|cbn; apply Nat.eqb_refl]).
    pose proof (carries_run w m v l _ Hc I' K H) as K'. fold t in K'. unfold carries in K'. now rewrite Et in K'.
Qed.

(** ** The steps of a thread alone are the method *)

Lemma steps_write i v s : threads s !! i = Some Idle -> buf (run cp (Call i (Write false v) :: replicate 6 (Go i)) s) = (write cp v (buf s)).2.
Proof.
  intros E. unfold run. cbn [fold_left replicate]. cbn [step]. rewrite E. do 2 (cbn [step call go with_pc threads buf]; rewrite ?list_insert_insert_eq, (lookup_self _ _ _ _ E)).
  cbn [go]. unfold write_end, write. cbn [with_pc with_buf threads buf]. destruct (cp v (data (buf s) (_back (buf s)))) as [[] a b|a b];
    rewrite ?list_insert_insert_eq; cbn [step with_pc threads buf]; repeat (rewrite ?list_insert_insert_eq, (lookup_self _ _ _ _ E); cbn [step go with_pc with_buf threads buf]); reflexivity.
Qed.
Lemma steps_read i v s : threads s !! i = Some Idle -> buf (run cp [Call i (Read v); Go i; Go i] s) = (read cp v (buf s)).2.
Proof.
  intros E. unfold run. cbn [fold_left]. cbn [step]. rewrite E. do 2 (cbn [step call go with_pc threads buf]; rewrite ?list_insert_insert_eq, (lookup_self _ _ _ _ E)). reflexivity.
Qed.

(** ** What the code does otherwise *)

(** Once both pointers are the same, they are for ever: what is written is what is read. *)
Definition at_one (x : bool) s : Prop :=
  _back (buf s) = x /\ _front (buf s) = x /\
  forall i p, threads s !! i = Some p -> match p with Swap1 t | Swap3 t => t = x | Swap2 t b => t = x /\ b = x | _ => True end.
Lemma at_one_step x e s : at_one x s -> at_one x (step cp e s).
Proof.
  intros (B & F & H). assert (P : forall i j p q t, threads s !! i = Some t -> <[i := q]> (threads s) !! j = Some p -> p = q \/ threads s !! j = Some p).
  { intros i j p q t E Ej. destruct (decide (i = j)) as [->|N]; [rewrite (lookup_self _ _ _ _ E) in Ej; injection Ej as <-; now left|right]. now rewrite list_lookup_insert_ne in Ej. }
  destruct e as [i o|i]; cbn; destruct (threads s !! i) as [t|] eqn:E; try easy.
  - destruct t; try easy. destruct o; cbn; (split; [easy|split; [easy|]]); intros j p Ej; destruct (P i j p _ _ E Ej) as [->|E']; auto; now apply (H j).
  - pose proof (H i t E) as K. destruct t; cbn; try easy; unfold write_end; try destruct moved; cbn; cbn in K; (split; [try easy; now destruct K|split; [try easy; now destruct K|]]);
      intros j p Ej; destruct (P i j p _ _ E Ej) as [->|E']; try (now apply (H j)); cbn; try easy; destruct (cp v _) as [[] ? ?|? ?]; easy.
Qed.
Lemma collapsed_for_ever x s l : _back (buf s) = x -> _front (buf s) = x -> (forall i p, threads s !! i = Some p -> p = Idle) -> _back (buf (run cp l s)) = _front (buf (run cp l s)).
Proof.
  intros B F H. assert (I : at_one x s) by (split; [easy|split; [easy|]]; intros i p E; now rewrite (H i p E)).
  clear -I. revert s I. induction l as [|e l IH]; intros s I; [destruct I as (B & F & _); cbn; congruence|]. apply IH, at_one_step, I.
Qed.
End Dbuffer.

(** ** Examples *)

Definition assign_nat : copy_fn nat := _default_copy Some.
#[export] Instance assign_nat_copies : Copy assign_nat.
Proof. apply default_copies. now intros a d [= ->]. Defined.
Definition gos (i n : nat) : list (ev nat) := replicate n (Go i).

Lemma dbuffer_alone_witness : let d := set_data true 7 (construct 0) in value (write assign_nat 5 d).2 = 5 /\ (read assign_nat 9 d).1.2 = 7.
Proof.
  pose proof (dbuffer_alone assign_nat (set_data true 7 (construct 0)) 5 9 ltac:(easy)) as (W & _ & R). split; [exact (proj2 (proj2 W))|exact (proj2 (proj2 R) eq_refl)].
Defined.
(** The first thread writes 5 while the second reads. *)
Lemma dbuffer_one_writer_witness :
  let s := run assign_nat (Call 0 (Write false 5) :: gos 0 2) (start 0 2) in
  let t := run assign_nat (gos 0 3 ++ gos 1 1) (step assign_nat (Call 1 (Read 9)) s) in
  races (Copying false 5 false) (ReadCopying true 9) = false /\ results (step assign_nat (Go 1) t) = [(1, Some true, 0)] /\
  value (buf (run assign_nat (gos 0 6) (step assign_nat (Call 0 (Write false 5)) (start 0 2)))) = 5.
Proof.
  cbv zeta. destruct (dbuffer_one_writer assign_nat 0 2 0 (Call 0 (Write false 5) :: gos 0 2) ltac:(repeat constructor)) as [R _].
  destruct (dbuffer_one_writer assign_nat 0 2 0 [] ltac:(constructor)) as [_ W].
  specialize (R 1 9 (gos 0 3 ++ gos 1 1) ltac:(easy) eq_refl ltac:(repeat constructor) eq_refl). destruct R as [R _].
  split; [reflexivity|]. split; [reflexivity|]. apply (W false 5 (gos 0 6)); [reflexivity| |repeat constructor|reflexivity]. intros _ c. now exists 5.
Defined.
(** Two writes, one after the other, overtake a read. *)
Lemma write_overtakes_read : let l := [Call 1 (Read 0); Go 1; Call 0 (Write false 1)] ++ gos 0 6 ++ [Call 0 (Write false 2); Go 0] in
  Forall (fun e => allowed 0 e = true) l /\ race (run assign_nat l (start 0 2)).
Proof. split; [repeat constructor|]. exists 0, 1, (Copying false 2 true), (ReadCopying true 0). easy. Qed.
(** Two threads that write leave both pointers the same. *)
Lemma two_writers_collapse : let s := run assign_nat ([Call 0 DoSwap; Go 0; Call 1 DoSwap; Go 1] ++ gos 0 3 ++ gos 1 3) (start 0 2) in
  threads s = [Idle; Idle] /\ _back (buf s) = true /\ _front (buf s) = true.
Proof. easy. Qed.
