(* ===== verification/SharedMemory.v ===== *)
(** * Shared memory

    [sync/shared_memory.hpp] on POSIX: an object that owns a descriptor and a mapping of a
    piece of memory with a name.  The world has the pieces, their names, the open
    descriptors and the mappings; which calls the system refuses is a parameter.  The
    theorems follow: what is taken is given back. *)

From Stdlib Require Import String ZArith Lia List Bool.
From stdpp Require Import base tactics list option gmap strings.
From S2P Require Import Prelude.

Open Scope hj_scope.
Open Scope nat_scope.

Module SharedMemory.
Export State.

Record world := World { sizes : gmap nat nat; names : gmap string nat; fds : gmap nat nat; maps : list (nat * nat); next : nat }.
Record system := System { open_refused : world -> string -> bool; truncate_refused : world -> bool; map_refused : world -> bool; unmap_refused : world -> nat -> bool }.
(** [MAP_FAILED] is no null pointer. *)
Inductive ptr := Null | MAP_FAILED | At (a : nat).
#[export] Instance ptr_eq_dec : EqDecision ptr.
Proof. solve_decision. Defined.
(** [flag]: to create it, if there is none. *)
Record flags := Flags { create : bool; read_write : bool }.
Definition default_flags : flags := Flags true true.
Record shared_memory := Shm { _name : string; _sz : nat; _fd : option nat; _ptr : ptr }.

Section SharedMemory.
Variable sys : system.

(** ** The system *)

Definition shm_open (name : string) (op : flags) : M world (option nat) := fun w =>
  if open_refused sys w name then Some (None, w) else
  let fd := next w in
  match names w !! name with
  | Some o => Some (Some fd, World (sizes w) (names w) (<[fd := o]> (fds w)) (maps w) (S fd))
  | None => if create op then Some (Some fd, World (<[S fd := 0]> (sizes w)) (<[name := S fd]> (names w)) (<[fd := S fd]> (fds w)) (maps w) (S (S fd))) else Some (None, w)
  end.
Definition ftruncate (fd n : nat) : M world bool := fun w =>
  if truncate_refused sys w then Some (false, w) else
  match fds w !! fd with Some o => Some (true, World (<[o := n]> (sizes w)) (names w) (fds w) (maps w) (next w)) | None => Some (false, w) end.
Definition close (fd : nat) : M world unit := modify (fun w => World (sizes w) (names w) (delete fd (fds w)) (maps w) (next w)).
(** Nothing is mapped of no length. *)
Definition mmap (n fd : nat) : M world ptr := fun w =>
  if (n =? 0) || map_refused sys w then Some (MAP_FAILED, w) else
  match fds w !! fd with Some _ => Some (At (next w), World (sizes w) (names w) (fds w) ((next w, n) :: maps w) (S (next w))) | None => Some (MAP_FAILED, w) end.
Definition munmap (p : ptr) (n : nat) : M world bool := fun w =>
  match p with
  | At a => if unmap_refused sys w a then Some (false, w) else Some (true, World (sizes w) (names w) (fds w) (List.filter (fun m => negb (m.1 =? a)) (maps w)) (next w))
  | _ => Some (false, w)
  end.
Definition shm_unlink (name : string) : M world bool := fun w =>
  match names w !! name with Some _ => Some (true, World (sizes w) (delete name (names w)) (fds w) (maps w) (next w)) | None => Some (false, w) end.

(** ** The class *)

Definition is_fd_valid (s : shared_memory) : bool := match _fd s with Some _ => true | None => false end.
Definition addr (s : shared_memory) : ptr := _ptr s.
Definition size (s : shared_memory) : nat := _sz s.
Definition remove (name : string) : M world bool := shm_unlink name.
(** None when the constructor throws. *)
Definition construct (name : string) (sz : nat) (op : flags) : M world (option shared_memory) :=
  do fd <- shm_open name op;
  match fd with
  | Some d => do _ <- ftruncate d sz; ret (Some (Shm name sz fd Null))
  | None => ret None
  end.
Definition map (s : shared_memory) : M world (ptr * shared_memory) :=
  match _fd s with
  | None => ret (Null, s)
  | Some fd => do p <- mmap (size s) fd; let s := Shm (_name s) (_sz s) (_fd s) p in ret (match p with MAP_FAILED => Null | _ => p end, s)
  end.
Definition unmap (s : shared_memory) : M world (bool * shared_memory) :=
  match _ptr s with
  | Null => ret (true, s)
  | p => do ok <- munmap p (size s); ret (if ok then (true, Shm (_name s) (_sz s) (_fd s) Null) else (false, s))
  end.
Definition destroy (s : shared_memory) : M world unit := do _ <- unmap s; match _fd s with Some fd => close fd | None => ret tt end.

(** Any calls between the constructor and the destructor. *)
Inductive call := Map | Unmap.
Definition step (c : call) (s : shared_memory) : M world shared_memory := match c with Map => do r <- map s; ret r.2 | Unmap => do r <- unmap s; ret r.2 end.
Fixpoint run (l : list call) (s : shared_memory) : M world shared_memory := match l with [] => ret s | c :: l => do s <- step c s; run l s end.
Definition life (name : string) (sz : nat) (op : flags) (l : list call) : M world unit :=
  do s <- construct name sz op; match s with Some s => do s <- run l s; destroy s | None => ret tt end.
End SharedMemory.

(** ** What is owned *)

(** Numbers of descriptors and addresses are new. *)
Record sound (w : world) : Prop := { fds_old : forall d, is_Some (fds w !! d) -> d < next w; maps_old : Forall (fun m => m.1 < next w) (maps w) }.
(** The mappings of the world are those of [base] and that of the object. *)
Definition owned (s : shared_memory) : list (nat * nat) := match _ptr s with At a => [(a, _sz s)] | _ => [] end.
Record owns (base : world) (s : shared_memory) (w : world) : Prop :=
  { own_sound : sound w; own_maps : maps w = owned s ++ maps base; own_fds : exists d o, _fd s = Some d /\ fds base !! d = None /\ fds w = <[d := o]> (fds base);
    own_old : Forall (fun m => match _ptr s with At a => m.1 < a | _ => True end) (maps base) }.
(** A caller that maps only what is not mapped, as a sequence of calls that says so. *)
Fixpoint once (mapped : bool) (l : list call) : bool := match l with [] => true | Map :: l => negb mapped && once true l | Unmap :: l => once false l end.
(** The system unmaps what is mapped. *)
Class Unmaps (sys : system) : Prop := unmaps : forall w a, In a (List.map fst (maps w)) -> unmap_refused sys w a = false.

Section Laws.
Context (sys : system) {HU : Unmaps sys}.
Implicit Types (w base : world) (s : shared_memory).

(** The object keeps its length, its name and what is not its own. *)
Definition keeps w w' : Prop := sizes w' = sizes w /\ names w' = names w.
Lemma filter_own a n l : Forall (fun m : nat * nat => m.1 < a) l -> List.filter (fun m => negb (m.1 =? a)) ((a, n) :: l) = l.
Proof.
  intros H. cbn. rewrite Nat.eqb_refl. cbn. induction H as [|m l Hm _ IH]; [easy|]. cbn. rewrite (proj2 (Nat.eqb_neq _ _)) by lia. cbn. now f_equal.
Qed.
Lemma unmap_owned base s w : owns base s w -> post (unmap sys s) w (fun r w' => owns base r.2 w' /\ keeps w w' /\ owned r.2 = [] /\ _fd r.2 = _fd s).
Proof.
  intros [[F L] M (d & o & E & N & X) O]. unfold unmap, owned in *. destruct (_ptr s) as [| |a] eqn:P.
  - cbn. split; [split; [easy| |eauto|]; unfold owned; now rewrite P|]. split; [easy|]. split; [now rewrite P|easy].
  - cbn. split; [split; [easy| |eauto|]; unfold owned; now rewrite P|]. split; [easy|]. split; [now rewrite P|easy].
  - unfold post, bind, munmap. rewrite unmaps by (rewrite M; now left). cbn. rewrite M. cbn [app]. rewrite (filter_own _ _ _ O). split; [|easy]. split; cbn; [|easy|eauto|].
    + split; [easy|]. cbn. rewrite M in L. now inversion L.
    + now apply Forall_forall.
Qed.
Lemma map_owned base s w : owns base s w -> owned s = [] -> post (map sys s) w (fun r w' => owns base r.2 w' /\ keeps w w').
Proof.
  intros [[F L] M (d & o & E & N & X) O] Ho. unfold map, post, bind, mmap. rewrite E, Ho in *. cbn in M.
  destruct (_ || _); cbn.
  - split; [|easy]. split; cbn; [easy|easy|eauto|]. now apply Forall_forall.
  - rewrite X, lookup_insert_eq. cbn. split; [|easy]. split; cbn.
    + split; cbn; [intros d' H; rewrite <- X in H; specialize (F d' H); lia|]. constructor; [cbn; lia|]. eapply Forall_impl; [exact L|]. cbn. intros m H. lia.
    + now rewrite M.
    + eauto.
    + rewrite <- M. exact L.
Qed.
Lemma run_owned base l : forall s w mapped, owns base s w -> (mapped = false -> owned s = []) -> once mapped l = true ->
  post (run sys l s) w (fun s' w' => owns base s' w' /\ keeps w w').
Proof.
  induction l as [|c l IH]; intros s w mapped I Hm H; [now cbn|]. cbn [run]. apply post_bind.
  assert (K : forall w1 w2, keeps w w1 -> keeps w1 w2 -> keeps w w2) by (intros w1 w2 [A B] [A' B']; split; congruence).
  destruct c; cbn [step once] in *; apply post_bind.
  - apply andb_true_iff in H as [Hn H]. destruct mapped; [easy|]. eapply post_weaken; [apply (map_owned base); auto|]. intros [p s'] w' [I' K']. apply post_ret.
    eapply post_weaken; [apply (IH s' w' true I'); easy|]. intros s2 w2 [I2 K2]. eauto.
  - eapply post_weaken; [apply (unmap_owned base); auto|]. intros [p s'] w' (I' & K' & E & _). apply post_ret.
    eapply post_weaken; [apply (IH s' w' false I'); easy|]. intros s2 w2 [I2 K2]. eauto.
Qed.
Lemma destroy_owned base s w : owns base s w -> post (destroy sys s) w (fun _ w' => fds w' = fds base /\ maps w' = maps base /\ keeps w w').
Proof.
  intros I. apply post_bind. eapply post_weaken; [exact (unmap_owned base s w I)|]. intros [b s'] w' ([_ M (d & o & E & N & X) _] & K & Ho & Ef). cbn in *.
  rewrite <- Ef, E. cbn. rewrite X. split; [now apply delete_insert_id|]. split; [now rewrite M, Ho|exact K].
Qed.
Lemma opened_owns name sz w w1 d o : sound w -> d = next w -> d < next w1 -> fds w1 = <[d := o]> (fds w) -> maps w1 = maps w -> owns w (Shm name sz (Some d) Null) w1.
Proof.
  intros [F L] -> Hn X M. assert (N : fds w !! next w = None).
  { destruct (fds w !! next w) as [y|] eqn:E; [|easy]. specialize (F _ (ex_intro _ y E)). lia. }
  split; cbn; [split|easy|eauto|now apply Forall_forall].
  - intros d'. rewrite X. intros [y Hy]. apply lookup_insert_Some in Hy as [[<- _]|[_ Hy]]; [easy|]. specialize (F d' (ex_intro _ y Hy)). lia.
  - rewrite M. eapply Forall_impl; [exact L|]. cbn. intros m Hm. lia.
Qed.
(** What the constructor makes, and when it throws. *)
Lemma construct_owns name sz op w : sound w ->
  post (construct sys name sz op) w (fun r w' => match r with
    | Some s => owns w s w' /\ owned s = [] /\ ((forall v, truncate_refused sys v = false) -> exists o, names w' !! name = Some o /\ sizes w' !! o = Some sz)
    | None => w' = w /\ (open_refused sys w name = true \/ create op = false) end).
Proof.
  intros S. unfold construct, post, bind, shm_open. destruct (open_refused sys w name) eqn:R; [cbn; auto|].
  destruct (names w !! name) as [o|] eqn:E; [|destruct (create op) eqn:C; [|cbn; auto]]; cbn; unfold ftruncate; cbn.
  - destruct (truncate_refused sys _) eqn:T; cbn; [|rewrite lookup_insert_eq; cbn]; (split; [eapply opened_owns; cbn; try easy; lia|]; split; [easy|]); intros HT; [now rewrite HT in T|].
    exists o. split; [exact E|apply lookup_insert_eq].
  - destruct (truncate_refused sys _) eqn:T; cbn; [|rewrite lookup_insert_eq; cbn]; (split; [eapply opened_owns; cbn; try easy; lia|]; split; [easy|]); intros HT; [now rewrite HT in T|].
    exists (Datatypes.S (next w)). split; apply lookup_insert_eq.
Qed.
(** From the constructor to the destructor, through any calls by a caller that does not map
    twice, whatever the system refuses, every descriptor and mapping is given back; and the
    piece of memory stays under its name, with its length, when the system made it. *)
Theorem shared_memory_released name sz op l w : sound w -> once false l = true ->
  post (life sys name sz op l) w (fun _ w' => fds w' = fds w /\ maps w' = maps w /\
    (open_refused sys w name = false -> create op = true -> (forall v, truncate_refused sys v = false) -> exists o, names w' !! name = Some o /\ sizes w' !! o = Some sz)).
Proof.
  intros S H. apply post_bind. eapply post_weaken; [exact (construct_owns name sz op w S)|]. intros [s|] w1; cbn.
  - intros (I & Ho & P). apply post_bind. eapply post_weaken; [exact (run_owned w l s w1 false I (fun _ => Ho) H)|]. intros s2 w2 [I2 [Z2 N2]].
    eapply post_weaken; [exact (destroy_owned w s2 w2 I2)|]. intros _ w3 (X & M & Z3 & N3). split; [exact X|]. split; [exact M|].
    intros _ _ HT. destruct (P HT) as (o & A & B). exists o. now rewrite N3, N2, Z3, Z2.
  - intros [-> R]. cbn. split; [easy|]. split; [easy|]. intros R1 C1. destruct R; congruence.
Qed.
End Laws.

(** ** An example, and what the code does otherwise *)

Definition kind_system : system := System (fun _ _ => false) (fun _ => false) (fun _ => false) (fun _ _ => false).
#[export] Instance kind_unmaps : Unmaps kind_system.
Proof. easy. Defined.
Definition empty_world : world := World ∅ ∅ ∅ [] 0.
Lemma shared_memory_released_witness : post (life kind_system "mem" 256 default_flags [Map; Unmap; Map]) empty_world (fun _ w' => fds w' = ∅ /\ maps w' = []) /\
  once false [Map; Unmap; Map] = true /\ forall v, truncate_refused kind_system v = false.
Proof.
  split; [|easy]. eapply post_weaken; [apply (shared_memory_released kind_system "mem" 256 default_flags [Map; Unmap; Map] empty_world); [split; [intros d [x H]; unfold empty_world in H; cbn [fds] in H; now rewrite lookup_empty in H|constructor]|reflexivity]|].
  cbn. intros _ w' (A & B & _). now split.
Defined.
(** Who maps twice loses the first mapping. *)
Lemma second_map_leaks : post (life kind_system "mem" 256 default_flags [Map; Map]) empty_world (fun _ w' => maps w' = [(2, 256)]).
Proof. reflexivity. Qed.
(** To open what is there, without saying its length, empties it. *)
Lemma opening_empties : post (do _ <- construct kind_system "mem" 256 default_flags; construct kind_system "mem" 0 default_flags) empty_world
  (fun _ w' => names w' !! "mem" = Some 1 /\ sizes w' !! 1 = Some 0).
Proof. split; reflexivity. Qed.
(** When the system does not map, the address that stays is not null, and it is unmapped in vain, for ever. *)
Definition no_map_system : system := System (fun _ _ => false) (fun _ => false) (fun _ => true) (fun _ _ => false).
Lemma failed_map_stays s d w : _fd s = Some d -> match map no_map_system s w with
  | Some ((p, s'), w') => p = Null /\ addr s' = MAP_FAILED /\ unmap no_map_system s' w' = Some ((false, s'), w') | None => False end.
Proof. intros E. unfold map, bind, mmap. rewrite E. cbn. rewrite orb_true_r. now cbn. Qed.
(** The length of memory whose length was refused is that which was asked for. *)
Definition no_truncate_system : system := System (fun _ _ => false) (fun _ => true) (fun _ => false) (fun _ _ => false).
Lemma refused_length_unseen : post (construct no_truncate_system "mem" 256 default_flags) empty_world (fun r w' => match r with Some s => size s = 256 /\ sizes w' !! 1 = Some 0 | None => False end).
Proof. split; reflexivity. Qed.
(** The class can be copied, and the copy owns the same descriptor: it outlives the object. *)
Lemma copy_dangles : post (do s <- construct kind_system "mem" 256 default_flags; match s with Some s => do _ <- destroy kind_system s; ret (_fd s) | None => ret None end) empty_world
  (fun fd w' => fd = Some 0 /\ fds w' !! 0 = None).
Proof. split; reflexivity. Qed.
End SharedMemory.
