(* ===== verification/Errors.v ===== *)
(** * Errors

    [testing/error.hpp]: the categories by name with their messages, the codes, the codes
    with a cause, and codes as numbers.  [testing/error_handler.hpp]: a state machine.  The
    library that runs the machine over the table is a parameter, and what is known of it is a
    class ([SmlLaws]): an event without a transition is ignored, a deferred one waits, a
    transition does its actions and then what waits is processed, in order.  Callbacks do not
    use the handler themselves, and do not throw; to call a callback that is empty throws, and
    all that processes events is [noexcept].  The theorems of each follow it. *)

From Stdlib Require Import String ZArith Lia List Bool.
From stdpp Require Import base tactics list option gmap strings.
From S2P Require Import Prelude Ints Hex.

Open Scope hj_scope.
Open Scope nat_scope.

(** ** Codes *)

Module Error.
(** The categories, by name: the messages of each. *)
Record error_code := Code { value : Z; cat : string }.
Inductive nested_error_code := Nested (ec : error_code) (cause : option nested_error_code).
Definition category (name : string) (r : gmap string (gmap Z string)) : gmap string (gmap Z string) := match r !! name with Some _ => r | None => <[name := ∅]> r end.
Definition register_message (name : string) (ec : Z) (msg : string) (r : gmap string (gmap Z string)) : gmap string (gmap Z string) := <[name := <[ec := msg]> (default ∅ (r !! name))]> r.
Definition register_err (name : string) (ec : Z) (desc : string) (r : gmap string (gmap Z string)) : gmap string (gmap Z string) := register_message name ec desc (category name r).
Definition make_err (e : Z) (catname : string) (r : gmap string (gmap Z string)) : error_code * gmap string (gmap Z string) := (Code e catname, category catname r).
Definition message (r : gmap string (gmap Z string)) (ev : Z) (name : string) : string := default "unknown error"%string (default ∅ (r !! name) !! ev).
(** A code is an error when its value is not zero; two are equal by value and category. *)
Definition is_error (e : error_code) : bool := negb (value e =? 0)%Z.
Definition make_nested (e c : error_code) (catname : string) : nested_error_code := Nested e (Some (Nested c None)).
(** To and from [int]. *)
Definition int : ity := Ity 32 true.
Definition ec_to_int (err mask : Z) : Z := convert int (Z.land (convert int err) mask).
Definition ec_to_hex (err : Z) (upper_case : bool) (prefix : list Z) : list Z := prefix ++ Hex.print_hex 16 upper_case (wrap 32 (convert int err)).

(** What was registered last for a code, in the order of the calls. *)
Inductive call := Register (name : string) (ec : Z) (desc : string) | Make (e : Z) (name : string).
Definition step (c : call) (r : gmap string (gmap Z string)) : gmap string (gmap Z string) := match c with Register n e d => register_err n e d r | Make e n => (make_err e n r).2 end.
Definition run (l : list call) (r : gmap string (gmap Z string)) : gmap string (gmap Z string) := fold_left (fun r c => step c r) l r.
Fixpoint described (l : list call) (n : string) (e : Z) : option string :=
  match l with
  | [] => None
  | Register n' e' d :: l => if decide (n' = n /\ e' = e) then Some d else described l n e
  | Make _ _ :: l => described l n e
  end.
Lemma step_message c r n e : message (step c r) e n = match c with Register n' e' d => if decide (n' = n /\ e' = e) then d else message r e n | _ => message r e n end.
Proof.
  assert (K : forall m, default ∅ (category m r !! n) = default ∅ (r !! n)).
  { intros m. unfold category. destruct (r !! m) eqn:E; [easy|]. destruct (decide (m = n)) as [->|N]; [now rewrite lookup_insert_eq, E|now rewrite lookup_insert_ne]. }
  unfold message. destruct c as [n' e' d|e' n']; cbn; [|now rewrite K]. unfold register_err, register_message.
  destruct (decide (n' = n)) as [->|N]; [rewrite lookup_insert_eq; cbn; rewrite K|rewrite lookup_insert_ne, K by easy; now rewrite decide_False by tauto].
  destruct (decide (e' = e)) as [->|N]; [rewrite lookup_insert_eq, decide_True by easy; easy|rewrite lookup_insert_ne, decide_False by tauto; easy].
Qed.
(** The message of a code is what was registered last for its value in its category, whatever
    was registered and made before, for other codes or in other categories; a code printed in
    hexadecimal has the 32 bits of the number, behind the prefix. *)
Theorem messages_registered l n e up prefix err :
  message (run l ∅) e n = default "unknown error"%string (described (rev l) n e) /\
  exists digits, ec_to_hex err up prefix = prefix ++ digits /\ Hex.number digits = wrap 32 err /\ (in_type int err = true -> convert int (Hex.number digits) = err /\ ec_to_int err (-1) = err).
Proof.
  split.
  - rewrite <- (rev_involutive l) at 1. induction (rev l) as [|c t IH]; [easy|]. unfold run in *. cbn [rev]. rewrite fold_left_app. cbn [fold_left]. rewrite step_message. destruct c; cbn [described]; [|exact IH]. now destruct (decide _).
  - assert (W : wrap 32 (convert int err) = wrap 32 err) by (apply wrap_sint_of; lia). eexists. split; [reflexivity|]. rewrite W.
    destruct (Hex.print_hex_spec 15 up (wrap 32 err)) as [_ N]; [pose proof (wrap_uint 32 err ltac:(lia)) as U; unfold uint in U; cbn; lia|].
    split; [exact N|]. intros H. rewrite N. split; [unfold convert; cbn; rewrite sint_of_wrap by lia; exact (convert_id int err ltac:(easy) H)|].
    unfold ec_to_int. rewrite Z.land_m1_r. now rewrite !(convert_id int err ltac:(easy) H).
Qed.
Lemma messages_registered_witness : in_type int (-2) = true /\ message (run [Register "db" 1 "lost"; Make 2 "db"; Register "db" 1 "gone"] ∅) 1 "db" = "gone"%string /\ ec_to_int (-2) (-1) = (-2)%Z.
Proof.
  destruct (messages_registered [Register "db" 1 "lost"; Make 2 "db"; Register "db" 1 "gone"] "db" 1 true [] (-2)) as [M (d & _ & _ & R)].
  split; [reflexivity|]. split; [exact M|exact (proj2 (R eq_refl))].
Defined.
(** The category that is given to a code with a cause is not used. *)
Lemma cause_ignores_category e c n n' : make_nested e c n = make_nested e c n'.
Proof. reflexivity. Qed.
End Error.

Open Scope hj_scope.
Open Scope nat_scope.

Module ErrorHandler.

(** ** The table *)

Inductive state := idle | handling | failed | succed.
#[export] Instance state_eq_dec : EqDecision state.
Proof. solve_decision. Defined.
Definition name (s : state) : string := match s with idle => "idle" | handling => "handling" | failed => "failed" | succed => "succed" end.

Section Table.
Context {T : Type}.

(** A callback has a name; it may be empty. *)
Definition callback : Type := option nat.
Inductive event := finish | fail | abort | reset | err_event (ec : T) (cb : callback).
(** What an action does: a callback, and what is told of the transition. *)
Inductive action := Call (cb : callback) (ec : T) | on_transition (src dst : string).
Inductive transition := To (dst : state) (l : list action) | Defer | Ignored.
Definition table (s : state) (e : event) : transition :=
  match s, e with
  | idle, finish => To succed [on_transition "idle" "succed"]
  | idle, fail => To failed [on_transition "idle" "failed"]
  | idle, abort => To failed [on_transition "idle" "failed"]
  | idle, err_event ec cb => To handling [Call cb ec; on_transition "idle" "handling"]
  | idle, reset => To idle []
  | succed, finish => To succed []
  | succed, abort => To succed []
  | succed, err_event ec cb => To handling [Call cb ec; on_transition "succed" "handling"]
  | succed, reset => To idle [on_transition "succed" "idle"]
  | handling, finish => To succed [on_transition "handling" "succed"]
  | handling, fail => To failed [on_transition "handling" "failed"]
  | handling, reset => To idle [on_transition "handling" "idle"]
  | handling, abort => To failed [on_transition "handling" "failed"]
  | handling, err_event ec cb => Defer
  | failed, reset => To idle [on_transition "failed" "idle"]
  | _, _ => Ignored
  end.

(** ** The library *)

(** What waits, processed once each: the state after, what was done, what waits again. *)
Fixpoint drain (ws : list event) (s : state) : state * list action * list event :=
  match ws with
  | [] => (s, [], [])
  | e :: ws =>
      match table s e with
      | To d l => let '(s', l', again) := drain ws d in (s', l ++ l', again)
      | Defer => let '(s', l', again) := drain ws s in (s', l', e :: again)
      | Ignored => drain ws s
      end
  end.
Record machine := Machine { sm : Type; make : sm; current : sm -> state; waiting : sm -> list event; process_event : event -> sm -> list action * sm }.
Class SmlLaws (M : machine) : Prop :=
  { make_idle : current M (make M) = idle /\ waiting M (make M) = [];
    process_ignored : forall e m, table (current M m) e = Ignored ->
      let '(l, m') := process_event M e m in l = [] /\ current M m' = current M m /\ waiting M m' = waiting M m;
    process_deferred : forall e m, table (current M m) e = Defer ->
      let '(l, m') := process_event M e m in l = [] /\ current M m' = current M m /\ waiting M m' = waiting M m ++ [e];
    process_taken : forall e m d l, table (current M m) e = To d l ->
      let '(l', m') := process_event M e m in drain (waiting M m) d = (current M m', drop (length l) l', waiting M m') /\ take (length l) l' = l }.

(** ** The class *)

Inductive err_status := st_idle | st_handling | st_failed | st_succed | st_unknown.
Section Handler.
Variable M : machine.
(** [_is_ok], and the machine; what was done is recorded. *)
Record error_handler := Handler { _is_ok : T -> bool; _sm : sm M; done : list action }.
Definition construct (is_ok : T -> bool) : error_handler := Handler is_ok (make M) [].
(** The other constructors: what is no error, or is equal to a value. *)
Definition construct_default (as_bool : T -> bool) : error_handler := construct (fun t => negb (as_bool t)).
Definition construct_equal (eq : T -> T -> bool) (ok : T) : error_handler := construct (fun t => eq t ok).
(** None when the program ends: an action called an empty callback. *)
Definition is_empty (a : action) : bool := match a with Call None _ => true | _ => false end.
Definition process (e : event) (h : error_handler) : option error_handler :=
  let '(l, m) := process_event M e (_sm h) in if existsb is_empty l then None else Some (Handler (_is_ok h) m (done h ++ l)).
Definition match_ (err : T) (cb : callback) (h : error_handler) : option error_handler :=
  if _is_ok h err then process finish h else process (err_event err cb) h.
Definition do_finish (h : error_handler) : option error_handler := process finish h.
Definition do_fail (h : error_handler) : option error_handler := process fail h.
Definition do_abort (h : error_handler) : option error_handler := process abort h.
Definition do_reset (h : error_handler) : option error_handler := process reset h.
Definition destroy (h : error_handler) : option error_handler := process reset h.
Definition is_in (s : state) (h : error_handler) : bool := bool_decide (current M (_sm h) = s).
Definition is_idle (h : error_handler) : bool := is_in idle h.
Definition is_handling (h : error_handler) : bool := is_in handling h.
Definition is_succed (h : error_handler) : bool := is_in succed h.
Definition is_failed (h : error_handler) : bool := is_in failed h.
Definition status (h : error_handler) : err_status :=
  if is_idle h then st_idle else if is_handling h then st_handling else if is_succed h then st_succed else if is_failed h then st_failed else st_unknown.

(** Any calls. *)
Inductive call := Match (err : T) (cb : callback) | Finish | Fail | DoAbort | DoReset.
Definition step (c : call) (h : error_handler) : option error_handler :=
  match c with Match e cb => match_ e cb h | Finish => do_finish h | Fail => do_fail h | DoAbort => do_abort h | DoReset => do_reset h end.
Fixpoint run (l : list call) (h : error_handler) : option error_handler := match l with [] => Some h | c :: l => let* h := step c h in run l h end.
End Handler.
End Table.
#[global] Arguments event T : clear implicits.
#[global] Arguments action T : clear implicits.
#[global] Arguments machine T : clear implicits.
#[global] Arguments call T : clear implicits.
End ErrorHandler.

Open Scope hj_scope.
Open Scope nat_scope.
Import ErrorHandler.

Section Laws.
Context {T : Type} (M : machine T) {HM : SmlLaws M}.
Implicit Types (s : state) (e : event T) (ws : list (event T)) (c : call T).

(** ** What the laws say of one event *)

Definition react s ws e : state * list (action T) * list (event T) :=
  match table s e with
  | Ignored => (s, [], ws) | Defer => (s, [], ws ++ [e])
  | To d l => let '(s', l', again) := drain ws d in (s', l ++ l', again)
  end.
Lemma process_react e m : let '(l, m') := process_event M e m in (current M m', l, waiting M m') = react (current M m) (waiting M m) e.
Proof.
  unfold react. destruct (table (current M m) e) as [d l| |] eqn:E.
  - pose proof (process_taken e m d l E) as P. destruct (process_event M e m) as [l' m']. destruct P as [-> P].
    assert (E2 : l' = l ++ drop (length l) l') by (rewrite <- P at 1; symmetry; apply take_drop). now rewrite <- E2.
  - pose proof (process_deferred e m E) as P. destruct (process_event M e m) as [l' m']. now destruct P as (-> & -> & ->).
  - pose proof (process_ignored e m E) as P. destruct (process_event M e m) as [l' m']. now destruct P as (-> & -> & ->).
Qed.

(** ** What waits *)

(** The errors of a list of events, and of a list of actions, each with its callback. *)
Definition error_of e : list (callback * T) := match e with err_event ec cb => [(cb, ec)] | _ => [] end.
Definition errors ws : list (callback * T) := flat_map error_of ws.
Definition call_of (a : action T) : list (callback * T) := match a with ErrorHandler.Call cb ec => [(cb, ec)] | _ => [] end.
Definition calls (l : list (action T)) : list (callback * T) := flat_map call_of l.
(** An error with a callback. *)
Definition is_error e : bool := match e with err_event _ (Some _) => true | _ => false end.
(** The transitions that are told go on from each other. *)
Fixpoint path (from : string) (l : list (action T)) : option string :=
  match l with
  | [] => Some from
  | ErrorHandler.Call _ _ :: l => path from l
  | on_transition a b :: l => if String.eqb a from then path b l else None
  end.
Lemma path_app from l k : path from (l ++ k) = match path from l with Some b => path b k | None => None end.
Proof. revert from. induction l as [|[cb ec|a b] l IH]; intros from; cbn; [easy|apply IH|]. destruct (String.eqb a from); [apply IH|easy]. Qed.

(** What waits when a state begins: at most one error is taken. *)
Lemma drain_handling ws : Forall (fun e => is_error e = true) ws -> drain ws handling = (handling, [], ws).
Proof. induction 1 as [|e ws He _ IH]; [easy|]. destruct e; try easy. cbn. now rewrite IH. Qed.
Lemma drain_failed ws : Forall (fun e => is_error e = true) ws -> drain ws failed = (failed, [], []).
Proof. induction 1 as [|e ws He _ IH]; [easy|]. destruct e; try easy. Qed.
Lemma drain_free d ws : d = idle \/ d = succed -> Forall (fun e => is_error e = true) ws ->
  drain ws d = match ws with err_event ec cb :: t => (handling, [ErrorHandler.Call cb ec; on_transition (name d) "handling"], t) | _ => (d, [], []) end.
Proof. intros Hd H. destruct H as [|e ws He H]; [easy|]. destruct e; try easy. cbn. destruct Hd as [-> | ->]; cbn; now rewrite drain_handling. Qed.

(** ** Every event *)

(** [ws] waits in state [s] after [done]; [given] were the errors so far; [lost] that some may be lost. *)
Record ok s ws (done : list (action T)) (given : list (callback * T)) (lost : bool) : Prop :=
  { ok_errors : Forall (fun e => is_error e = true) ws; ok_wait : ws <> [] -> s = handling;
    ok_order : sublist (calls done ++ errors ws) given; ok_all : lost = false -> calls done ++ errors ws = given;
    ok_live : existsb is_empty done = false; ok_path : path "idle" done = Some (name s); ok_failed : lost = false -> s <> failed }.
Lemma ok_more s ws done given lost s' l ws' g lost' : ok s ws done given lost -> Forall (fun e => is_error e = true) ws' -> (ws' <> [] -> s' = handling) ->
  sublist (calls l ++ errors ws') (errors ws ++ g) -> (lost' = false -> lost = false /\ s' <> failed /\ calls l ++ errors ws' = errors ws ++ g) ->
  existsb is_empty l = false -> path (name s) l = Some (name s') -> ok s' ws' (done ++ l) (given ++ g) lost'.
Proof.
  intros [E W O A L P F] E' W' S A' L' P'. assert (C : forall a b, calls (a ++ b) = calls a ++ calls b) by (intros a b; apply flat_map_app). split; auto.
  - rewrite C, <- app_assoc. etransitivity; [apply sublist_app; [reflexivity|exact S]|]. rewrite app_assoc. now apply sublist_app.
  - intros H. destruct (A' H) as (Hl & _ & X). rewrite C, <- app_assoc, X, app_assoc. now rewrite A.
  - rewrite existsb_app, L. exact L'.
  - rewrite path_app, P. exact P'.
  - intros H. now destruct (A' H).
Qed.
Definition loses e : bool := match e with fail | abort => true | _ => false end.
Lemma react_ok s ws done given lost e : ok s ws done given lost -> is_error e = true \/ error_of e = [] ->
  let '(s', l, ws') := react s ws e in ok s' ws' (done ++ l) (given ++ error_of e) (lost || loses e).
Proof.
  intros I He. pose proof I as [E W _ _ _ _ F]. assert (N : s <> handling -> ws = []) by (destruct ws; [easy|intros H; now destruct H; apply W]).
  assert (EH := drain_handling ws E). assert (EF := drain_failed ws E). assert (EI := drain_free idle ws ltac:(auto) E). assert (ES := drain_free succed ws ltac:(auto) E).
  unfold react. destruct s; try (rewrite (N ltac:(easy)) in * ); destruct e as [| | | |ec cb]; cbn [table error_of loses drain] in *;
    try (destruct cb as [cb|]; [|destruct He; easy]); rewrite ?EF, ?EI, ?ES; rewrite ?orb_false_r, ?orb_true_r;
    try (destruct E as [|[| | | |x [y|]] ws Hx E]; try easy); (eapply ok_more; [exact I|..]); cbn; auto; try easy.
  all: unfold errors; rewrite ?app_nil_r, ?flat_map_app; cbn; try apply sublist_nil_l; try reflexivity; try easy.
  - rewrite app_comm_cons. apply Forall_app. split; [now constructor|now constructor].
  - intros H. now destruct (F H).
Qed.

(** ** Every sequence of calls *)

Section Calls.
Variable is_ok : T -> bool.
Definition event_of c : event T := match c with Match e cb => if is_ok e then finish else err_event e cb | Finish => finish | Fail => fail | DoAbort => abort | DoReset => reset end.
(** The errors that are given, with their callbacks. *)
Definition given (l : list (call T)) : list (callback * T) := flat_map (fun c => error_of (event_of c)) l.
(** An error has a callback. *)
Definition with_callback c : bool := match c with Match e None => is_ok e | _ => true end.
Lemma step_process c h : _is_ok M h = is_ok -> step M c h = process M (event_of c) h.
Proof. intros E. destruct c; try easy. cbn. unfold match_. rewrite E. now destruct (is_ok err). Qed.
Definition holds (h : error_handler M) (g : list (callback * T)) (lost : bool) : Prop := _is_ok M h = is_ok /\ ok (current M (_sm M h)) (waiting M (_sm M h)) (done M h) g lost.
Lemma step_holds c h g lost : holds h g lost -> with_callback c = true ->
  exists h', step M c h = Some h' /\ holds h' (g ++ error_of (event_of c)) (lost || loses (event_of c)).
Proof.
  intros [E I] W. rewrite step_process by exact E. unfold process. pose proof (process_react (event_of c) (_sm M h)) as R. destruct (process_event M (event_of c) (_sm M h)) as [l m].
  assert (He : is_error (event_of c) = true \/ error_of (event_of c) = []) by (destruct c as [e [cb|]| | | |]; cbn in *; auto; destruct (is_ok e); auto; easy).
  pose proof (react_ok _ _ _ _ _ _ I He) as K. rewrite <- R in K. pose proof (ok_live _ _ _ _ _ K) as L. rewrite existsb_app in L. apply orb_false_iff in L as [_ L]. rewrite L. eexists. split; [reflexivity|]. now split.
Qed.
Lemma calls_hold l : forall h g lost, holds h g lost -> Forall (fun c => with_callback c = true) l ->
  exists h', run M l h = Some h' /\ holds h' (g ++ given l) (lost || existsb (fun c => loses (event_of c)) l).
Proof.
  induction l as [|c l IH]; intros h g lost I H; [exists h; rewrite app_nil_r, orb_false_r; now split|]. inversion H as [|? ? Hc Hl]; subst.
  destruct (step_holds c h g lost I Hc) as (h1 & E1 & I1). destruct (IH h1 _ _ I1 Hl) as (h2 & E2 & I2). exists h2. cbn. rewrite E1, E2. split; [easy|].
  cbn in I2 |- *. now rewrite <- app_assoc, <- orb_assoc in I2.
Qed.
(** C40: over any library that runs machines as it says, a handler of errors whose errors have
    callbacks never ends the program, whatever is called: the errors that were handled, and then
    those that wait, are the errors that were given, in their order, and all of them unless the
    handler was made to fail; errors wait only while one is handled; the transitions that are
    told go on from each other, from idle to the state it is in; and it is in one of its states. *)
Theorem errors_handled_in_order l : Forall (fun c => with_callback c = true) l -> exists h, run M l (construct M is_ok) = Some h /\
  sublist (calls (done M h) ++ errors (waiting M (_sm M h))) (given l) /\
  (Forall (fun c => loses (event_of c) = false) l -> calls (done M h) ++ errors (waiting M (_sm M h)) = given l) /\
  (waiting M (_sm M h) <> [] -> status M h = st_handling) /\
  path "idle" (done M h) = Some (name (current M (_sm M h))) /\ status M h <> st_unknown.
Proof.
  intros H. destruct (make_idle (M := M)) as [Ei Ew]. assert (I : holds (construct M is_ok) [] false).
  { split; [easy|]. cbn. rewrite Ei, Ew. now split. }
  destruct (calls_hold l _ _ _ I H) as (h & E & _ & K). exists h. split; [exact E|]. split; [exact (ok_order _ _ _ _ _ K)|]. split; [|split; [|split; [exact (ok_path _ _ _ _ _ K)|]]].
  - intros N. apply (ok_all _ _ _ _ _ K). clear -N. cbn. induction N as [|c t Hc _ IH]; [easy|]. cbn. now rewrite Hc.
  - intros W. unfold status, is_idle, is_handling, is_in. now rewrite (ok_wait _ _ _ _ _ K W).
  - unfold status, is_idle, is_handling, is_succed, is_failed, is_in. now destruct (current M (_sm M h)).
Qed.
End Calls.
End Laws.

(** ** A library, an example, and what the code does otherwise *)

Definition simple_process {T} (e : event T) (m : state * list (event T)) : list (action T) * (state * list (event T)) :=
  let '(s, l, ws) := react m.1 m.2 e in (l, (s, ws)).
Definition simple (T : Type) : machine T := Machine _ (idle, []) fst snd simple_process.
#[export] Instance simple_laws T : SmlLaws (simple T).
Proof.
  split; [easy| | |].
  - intros e [s ws]; cbn; intros E; unfold simple_process, react; cbn; now rewrite E.
  - intros e [s ws]; cbn; intros E; unfold simple_process, react; cbn; now rewrite E.
  - intros e [s ws] d l; cbn; intros E; unfold simple_process, react; cbn; rewrite E. destruct (drain ws d) as [[s' l'] again]. cbn. now rewrite drop_app_length, take_app_length.
Defined.
(** Numbers as errors; zero is none. *)
Definition no_error (n : nat) : bool := n =? 0.
Lemma errors_handled_in_order_witness : let l := [Match 1 (Some 10); Match 2 (Some 20); Match 0 None; DoAbort] in
  Forall (fun c => with_callback no_error c = true) l /\
  exists h, run (simple nat) l (construct (simple nat) no_error) = Some h /\ sublist (calls (done _ h) ++ errors (waiting (simple nat) (_sm _ h))) [(Some 10, 1); (Some 20, 2)].
Proof.
  cbv zeta. assert (H : Forall (fun c => with_callback no_error c = true) [Match 1 (Some 10); Match 2 (Some 20); Match 0 None; DoAbort]) by (repeat constructor).
  split; [exact H|]. destruct (errors_handled_in_order (simple nat) no_error _ H) as (h & E & S & _). exists h. split; [exact E|exact S].
Defined.
(** An error that is given without a callback, as the default is, ends the program. *)
Lemma no_callback_ends h : _is_ok (simple nat) h 1 = false -> current (simple nat) (_sm _ h) = idle -> match_ (simple nat) 1 None h = None.
Proof. intros E I. unfold match_. rewrite E. destruct h as [ok [s ws] d]. cbn in I. subst s. unfold process. cbn. unfold simple_process, react. cbn. now destruct (drain ws handling) as [[? ?] ?]. Qed.
(** So it does later, when the error waits, from a function that is given no error. *)
Lemma no_callback_ends_later : match run (simple nat) [Match 1 (Some 10); Match 2 None] (construct (simple nat) no_error) with
  | Some h => status _ h = st_handling /\ do_finish _ h = None | None => False end.
Proof. now split. Qed.
(** An error that waits is lost when the handler is made to fail, or to abort. *)
Lemma failing_loses : match run (simple nat) [Match 1 (Some 10); Match 2 (Some 20); Fail; DoReset; Finish] (construct (simple nat) no_error) with
  | Some h => calls (done _ h) = [(Some 10, 1)] /\ waiting (simple nat) (_sm _ h) = [] /\ status _ h = st_succed | None => False end.
Proof. now repeat split. Qed.
(** The destructor calls the callback of an error that waits. *)
Lemma destructor_calls_back : match run (simple nat) [Match 1 (Some 10); Match 2 (Some 20)] (construct (simple nat) no_error) with
  | Some h => option_map (fun h => calls (done _ h)) (destroy _ h) = Some [(Some 10, 1); (Some 20, 2)] | None => False end.
Proof. reflexivity. Qed.
