(* ===== verification/Signals.v ===== *)
(** * Signals and processes

    [os/signal.hpp]: the callbacks of the signals, the one signal that waits, and what the
    system does with each signal.  [os/process.hpp] on POSIX: the list of the processes, read
    from the lines of a command. *)

From Stdlib Require Import Ascii String ZArith Lia List Bool.
From stdpp Require Import base tactics list option gmap.
From S2P Require Import Prelude CText.

Open Scope hj_scope.
Open Scope Z_scope.

Module Signals.

(** What the system does with a signal; the default ends the program. *)
Inductive disposition := SIG_DFL | SIG_IGN | Handle.
(** The system: which signals can be caught, whether a handler is for one signal only
    (System V) or stays (BSD and GNU), and which callbacks throw. *)
Record system := System { catchable : Z -> bool; resets : bool; throws : nat -> bool }.
(** A callback has a name, or is empty; what was called is recorded, with whether it threw. *)
Record state := State
  { _sig_last : Z; _callbacks : gmap Z (option nat); _one_shoot : gmap Z bool; dispositions : gmap Z disposition; called : list (option nat * Z * bool); alive : bool }.
Definition construct : state := State 0 ∅ ∅ ∅ [] true.
Definition disposition_of (sig : Z) (s : state) : disposition := default SIG_DFL (dispositions s !! sig).

Section Signals.
Variable sys : system.

Definition signal (sig : Z) (d : disposition) (s : state) : state :=
  if catchable sys sig then State (_sig_last s) (_callbacks s) (_one_shoot s) (<[sig := d]> (dispositions s)) (called s) (alive s) else s.
Definition _handle (sig : Z) (s : state) : state := State sig (_callbacks s) (_one_shoot s) (dispositions s) (called s) (alive s).
Definition last_signal (s : state) : Z := _sig_last s.
Definition is_registered (sig : Z) (s : state) : bool := match _callbacks s !! sig with Some _ => true | None => false end.
Definition is_one_shoot (sig : Z) (s : state) : bool := match _one_shoot s !! sig with Some b => b | None => false end.
Definition sigcatch (sig : Z) (cb : option nat) (one_shoot : bool) (s : state) : state :=
  signal sig Handle (State (_sig_last s) (<[sig := cb]> (_callbacks s)) (<[sig := one_shoot]> (_one_shoot s)) (dispositions s) (called s) (alive s)).
Definition sigcatch_all (sigs : list Z) (cb : option nat) (one_shoot : bool) (s : state) : state := fold_left (fun s sig => sigcatch sig cb one_shoot s) sigs s.
Definition sigignore (sigs : list Z) (s : state) : state := fold_left (fun s sig => signal sig SIG_IGN s) sigs s.
(** A signal comes, from [raise] or from outside. *)
Definition deliver (sig : Z) (s : state) : state :=
  if negb (alive s) then s else
  match disposition_of sig s with
  | Handle => let s := if resets sys then signal sig SIG_DFL s else s in _handle sig s
  | SIG_IGN => s
  | SIG_DFL => State (_sig_last s) (_callbacks s) (_one_shoot s) (dispositions s) (called s) false
  end.
(** [raise] refuses what is no signal. *)
Fixpoint sigraise (sigs : list Z) (s : state) : bool * state :=
  match sigs with
  | [] => (true, s)
  | sig :: sigs => if (1 <=? sig) && (sig <=? 64) then sigraise sigs (deliver sig s) else (false, s)
  end.
Definition call (cb : option nat) (sig : Z) (s : state) : state :=
  State (_sig_last s) (_callbacks s) (_one_shoot s) (dispositions s) (called s ++ [(cb, sig, match cb with Some k => throws sys k | None => true end)]) (alive s).
Definition erase (sig : Z) (s : state) : state := State (_sig_last s) (delete sig (_callbacks s)) (delete sig (_one_shoot s)) (dispositions s) (called s) (alive s).
Definition poll (s : state) : state :=
  let sig := _sig_last s in let s := State 0 (_callbacks s) (_one_shoot s) (dispositions s) (called s) (alive s) in
  if sig <=? 0 then s else
  match _callbacks s !! sig with
  | None => s
  | Some cb => let s := call cb sig s in if default false (_one_shoot s !! sig) then erase sig s else signal sig Handle s
  end.

(** Any events of a program. *)
Inductive event := Catch (sigs : list Z) (cb : option nat) (one_shoot : bool) | Ignore (sigs : list Z) | Raise (sigs : list Z) | Deliver (sig : Z) | Poll.
Definition step (e : event) (s : state) : state :=
  match e with
  | Catch l cb o => sigcatch_all l cb o s | Ignore l => sigignore l s | Raise l => (sigraise l s).2 | Deliver sig => deliver sig s | Poll => poll s
  end.
Definition run (l : list event) (s : state) : state := fold_left (fun s e => step e s) l s.
End Signals.
End Signals.

Module Process.
Definition is_ascii (a : ascii) : bool := code a <? 128.
(** [::isspace] and [::isdigit] of a negative [char] are undefined. *)
Definition all_ascii (t : text) : option unit := if forallb is_ascii t then Some tt else None.
Definition erase_spaces (t : text) : option text := let* _ := all_ascii t in Some (List.filter (fun a => negb (is_space a)) t).
(** What is before and after the last blank. *)
Fixpoint split_last (t : text) : option (text * text) :=
  match t with
  | [] => None
  | a :: t => match split_last t with Some (x, y) => Some (a :: x, y) | None => if decide (a = " "%char) then Some ([], t) else None end
  end.
(** [std::stoi] of digits: none when it throws. *)
Definition stoi (t : text) : option Z := if value t <? 2 ^ 31 then Some (value t) else None.

Inductive outcome := Done (result : list Z) | Threw (result : list Z).
(** [match_] of the two words of a line; none when it throws. *)
Section List.
Variable match_ : list text -> option bool.
(** The lines that are left, the pids that were found. *)
Fixpoint list_lines (ls : list text) (result : list Z) : option outcome :=
  match ls with
  | [] => Some (Done result)
  | line :: ls =>
      match split_last line with
      | None => list_lines ls result
      | Some (x, y) =>
          let* x := erase_spaces x in let* y := erase_spaces y in
          match match_ [x; y] with
          | None => Some (Threw result)
          | Some false => list_lines ls result
          | Some true =>
              if negb (match y with [] => true | _ => false end) && forallb is_digit y then
                match stoi y with Some pid => list_lines ls (result ++ [pid]) | None => list_lines ls result end
              else list_lines ls result
          end
      end
  end.
(** The output of the command, if it runs; the second result is whether the pipe stays open. *)
Definition list_ (output : option text) (result : list Z) : option (outcome * bool) :=
  match output with
  | None => Some (Done result, false)
  | Some out => let* r := list_lines (tl (lines 1024 out)) result in Some (r, match r with Done _ => false | Threw _ => true end)
  end.
End List.
End Process.

(** ** Signals: theorems *)

Section SignalLaws.
Import Signals.
Context (sys : system).
Implicit Types (s : state) (e : event) (l : list event).

(** How many calls there were, in all and for one signal. *)
Definition calls s : nat := length (called s).
Definition calls_for (sig : Z) s : nat := length (List.filter (fun c => c.1.2 =? sig) (called s)).
(** How many signals came. *)
Definition came e : nat := match e with Deliver _ => 1 | Raise l => length l | _ => 0 end.
Definition catches (sig : Z) e : bool := match e with Catch l _ _ => existsb (Z.eqb sig) l | _ => false end.

(** What a change of dispositions keeps. *)
Definition same s s' : Prop := _sig_last s' = _sig_last s /\ _callbacks s' = _callbacks s /\ _one_shoot s' = _one_shoot s /\ called s' = called s.
Lemma same_signal sig d s : same s (signal sys sig d s).
Proof. unfold signal. now destruct (catchable sys sig). Qed.
Lemma same_after s1 s2 s3 : same s1 s2 -> same s2 s3 -> same s1 s3.
Proof. intros (A & B & C & D) (A' & B' & C' & D'). repeat split; congruence. Qed.
Lemma same_sigignore sigs s : same s (sigignore sys sigs s).
Proof. unfold sigignore. revert s. induction sigs as [|x sigs IH]; intros s; [easy|]. cbn [fold_left]. eapply same_after; [apply same_signal|apply IH]. Qed.
(** What comes changes only the signal that waits. *)
Definition but_last s s' : Prop := _callbacks s' = _callbacks s /\ _one_shoot s' = _one_shoot s /\ called s' = called s.
Lemma deliver_but_last sig s : but_last s (deliver sys sig s).
Proof. unfold deliver. destruct (alive s), (disposition_of sig s); cbn; try easy. destruct (resets sys); [|easy]. now destruct (same_signal sig SIG_DFL s) as (_ & ? & ? & ?). Qed.
Lemma sigraise_but_last sigs : forall s, but_last s (sigraise sys sigs s).2.
Proof.
  induction sigs as [|x sigs IH]; intros s; cbn; [easy|]. destruct (_ && _); [|easy]. destruct (IH (deliver sys x s)) as (A & B & C), (deliver_but_last x s) as (A' & B' & C'). repeat split; congruence.
Qed.

(** Each signal that comes is called for at most once. *)
Definition waits s : nat := if _sig_last s =? 0 then 0 else 1.
Lemma poll_calls s : (calls (poll sys s) + waits (poll sys s) <= calls s + waits s)%nat.
Proof.
  unfold poll, waits, calls. destruct (Z.leb_spec (_sig_last s) 0) as [L|L]; cbn; [destruct (_sig_last s =? 0); lia|]. rewrite (proj2 (Z.eqb_neq (_sig_last s) 0)) by lia.
  destruct (_callbacks s !! _sig_last s) as [cb|]; cbn; [|lia]. destruct (default false _); [cbn; rewrite length_app; cbn; lia|].
  unfold signal. destruct (catchable sys _); cbn; rewrite length_app; cbn; lia.
Qed.
Lemma sigcatch_keeps sig cb o s : called (sigcatch sys sig cb o s) = called s /\ _sig_last (sigcatch sys sig cb o s) = _sig_last s.
Proof. unfold sigcatch, signal. now destruct (catchable sys sig). Qed.
Lemma sigcatch_all_keeps sigs cb o : forall s, called (sigcatch_all sys sigs cb o s) = called s /\ _sig_last (sigcatch_all sys sigs cb o s) = _sig_last s.
Proof. unfold sigcatch_all. induction sigs as [|x sigs IH]; intros s; [easy|]. cbn [fold_left]. destruct (IH (sigcatch sys x cb o s)) as [-> ->]. apply sigcatch_keeps. Qed.
Lemma step_calls e s : (calls (step sys e s) + waits (step sys e s) <= calls s + waits s + came e)%nat.
Proof.
  assert (W : forall s, (waits s <= 1)%nat) by (intros x; unfold waits; destruct (_ =? 0); lia).
  destruct e as [sigs cb o|sigs|sigs|sig|]; cbn [step came].
  - unfold calls, waits. destruct (sigcatch_all_keeps sigs cb o s) as [-> ->]. lia.
  - unfold calls, waits. destruct (same_sigignore sigs s) as (-> & _ & _ & ->). lia.
  - destruct sigs as [|x sigs]; [cbn; lia|]. unfold calls. destruct (sigraise_but_last (x :: sigs) s) as (_ & _ & ->). specialize (W (sigraise sys (x :: sigs) s).2). cbn [length]. lia.
  - unfold calls. destruct (deliver_but_last sig s) as (_ & _ & ->). specialize (W (deliver sys sig s)). lia.
  - pose proof (poll_calls s). lia.
Qed.
(** A signal that is caught once: it waits for its call, or it had it. *)
Definition once_left sig (n : nat) s : Prop :=
  (calls_for sig s = n /\ _one_shoot s !! sig = Some true) \/ (_callbacks s !! sig = None /\ (calls_for sig s <= S n)%nat).
Lemma calls_for_call sig cb x s : calls_for sig (call sys cb x s) = (calls_for sig s + if Z.eqb x sig then 1 else 0)%nat.
Proof. unfold calls_for, call. cbn. rewrite List.filter_app, length_app. cbn. destruct (x =? sig); cbn; lia. Qed.
Lemma calls_for_same sig s s' : called s' = called s -> calls_for sig s' = calls_for sig s.
Proof. unfold calls_for. now intros ->. Qed.
Lemma sigcatch_other sig x cb o s : sig <> x -> _callbacks (sigcatch sys x cb o s) !! sig = _callbacks s !! sig /\ _one_shoot (sigcatch sys x cb o s) !! sig = _one_shoot s !! sig.
Proof. intros N. unfold sigcatch, signal. destruct (catchable sys x); cbn; rewrite !lookup_insert_ne by congruence; easy. Qed.
Lemma once_step sig n e s : catches sig e = false -> once_left sig n s -> once_left sig n (step sys e s).
Proof.
  intros C I. destruct e as [sigs cb o|sigs|sigs|x|]; cbn [step catches] in *.
  - unfold sigcatch_all. revert s I. induction sigs as [|x sigs IH]; intros s I; [exact I|]. cbn in C. apply orb_false_iff in C as [N C]. apply Z.eqb_neq in N. cbn [fold_left]. apply (IH C).
    destruct (sigcatch_other sig x cb o s N) as [A B]. destruct (sigcatch_keeps x cb o s) as [D _]. unfold once_left in *. rewrite A, B, (calls_for_same _ _ _ D). exact I.
  - destruct (same_sigignore sigs s) as (_ & A & B & D). unfold once_left in *. rewrite A, B, (calls_for_same _ _ _ D). exact I.
  - destruct (sigraise_but_last sigs s) as (A & B & D). unfold once_left in *. rewrite A, B, (calls_for_same _ _ _ D). exact I.
  - destruct (deliver_but_last x s) as (A & B & D). unfold once_left in *. rewrite A, B, (calls_for_same _ _ _ D). exact I.
  - unfold poll. destruct (_ <=? 0); [exact I|]. cbn [_callbacks _one_shoot]. destruct (_callbacks s !! _sig_last s) as [cb|] eqn:E; [|exact I].
    assert (R : forall s', same (call sys cb (_sig_last s) (State 0 (_callbacks s) (_one_shoot s) (dispositions s) (called s) (alive s))) s' -> calls_for sig s' = (calls_for sig s + if Z.eqb (_sig_last s) sig then 1 else 0)%nat).
    { intros s' (_ & _ & _ & D). rewrite (calls_for_same _ _ _ D), calls_for_call. reflexivity. }
    destruct (Z.eqb_spec (_sig_last s) sig) as [Es|N].
    + rewrite Es in *. destruct I as [[I1 I2]|[I1 _]]; [|congruence]. cbn [call _one_shoot]. rewrite I2. cbn [default]. right. cbn. split; [apply lookup_delete_eq|]. unfold calls_for in *. cbn. rewrite List.filter_app, length_app. cbn. rewrite Z.eqb_refl. cbn. lia.
    + destruct (default false _).
      * unfold once_left, erase. cbn. rewrite !lookup_delete_ne by congruence. unfold calls_for in *. cbn. rewrite List.filter_app, length_app. cbn. rewrite (proj2 (Z.eqb_neq _ _) N). cbn. rewrite Nat.add_0_r. exact I.
      * pose proof (same_signal (_sig_last s) Handle (call sys cb (_sig_last s) (State 0 (_callbacks s) (_one_shoot s) (dispositions s) (called s) (alive s)))) as S. specialize (R _ S).
        destruct S as (_ & A & B & _). unfold once_left. rewrite A, B, R, Nat.add_0_r. exact I.
Qed.
(** A signal that is caught, and comes, and is polled, is called for, once, whether the
    callback throws or not, and is caught still or not, as was asked; whatever happens, there are
    no more calls than signals that came; and a signal that is caught once is called for once at
    most, until it is caught again. *)
Theorem signals_called sig cb one s l : 0 < sig -> catchable sys sig = true -> alive s = true ->
  (let t := poll sys (deliver sys sig (sigcatch sys sig cb one s)) in
    (exists threw, called t = called s ++ [(cb, sig, threw)]) /\ alive t = true /\ last_signal t = 0 /\ is_registered sig t = negb one /\ (one = false -> disposition_of sig t = Handle)) /\
  (calls (run sys l construct) <= list_sum (map came l))%nat /\
  (one = true -> Forall (fun e => catches sig e = false) l -> (calls_for sig (run sys l (sigcatch sys sig cb one s)) <= S (calls_for sig s))%nat).
Proof.
  intros P C A. split; [|split].
  - assert (K : deliver sys sig (sigcatch sys sig cb one s) = _handle sig (if resets sys then signal sys sig SIG_DFL (sigcatch sys sig cb one s) else sigcatch sys sig cb one s)).
    { unfold deliver, disposition_of, sigcatch, signal. rewrite C. cbn. rewrite A, lookup_insert_eq. reflexivity. }
    rewrite K. set (u := if resets sys then _ else _).
    assert (U : alive u = true /\ called u = called s /\ _callbacks u !! sig = Some cb /\ _one_shoot u !! sig = Some one /\ (resets sys = false -> disposition_of sig u = Handle)).
    { unfold u, sigcatch, signal, disposition_of. rewrite C. destruct (resets sys); cbn; rewrite !lookup_insert_eq; easy. }
    destruct U as (Ua & Ud & Uc & Uo & _). unfold poll, _handle. cbn [_sig_last _callbacks]. rewrite (proj2 (Z.leb_gt sig 0)) by lia. rewrite Uc. cbn [call _one_shoot]. rewrite Uo. cbn [default]. split.
    + eexists. destruct one; cbn; unfold signal; rewrite ?C; cbn; now rewrite Ud.
    + destruct one; cbn; unfold signal, is_registered, disposition_of, last_signal; rewrite ?C; cbn; rewrite ?lookup_delete_eq, ?lookup_insert_eq, ?Uc; easy.
  - assert (H : forall s, (calls (run sys l s) + waits (run sys l s) <= calls s + waits s + list_sum (map came l))%nat).
    { clear. induction l as [|e l IH]; intros s; [cbn; lia|]. change (run sys (e :: l) s) with (run sys l (step sys e s)). specialize (IH (step sys e s)). pose proof (step_calls e s). change (list_sum (map came (e :: l))) with (came e + list_sum (map came l))%nat. lia. }
    specialize (H construct). change (calls construct) with 0%nat in H. change (waits construct) with 0%nat in H. lia.
  - intros -> N. assert (I : once_left sig (calls_for sig s) (sigcatch sys sig cb true s)).
    { left. destruct (sigcatch_keeps sig cb true s) as [D _]. rewrite (calls_for_same _ _ _ D). split; [easy|]. unfold sigcatch, signal. rewrite C. apply lookup_insert_eq. }
    assert (K : once_left sig (calls_for sig s) (run sys l (sigcatch sys sig cb true s))).
    { revert I. generalize (sigcatch sys sig cb true s). induction N as [|e l He _ IH]; intros t I; [exact I|]. apply IH, once_step; assumption. }
    destruct K as [[-> _]|[_ K]]; lia.
Qed.
End SignalLaws.

Import Signals.
(** GNU: a handler stays; what can be caught is all but two signals. *)
Definition gnu : system := System (fun s => negb (s =? 9) && negb (s =? 19)) false (fun _ => false).
Lemma signals_called_witness : catchable gnu 2 = true /\ is_registered 2 (poll gnu (deliver gnu 2 (sigcatch gnu 2 (Some 7%nat) true construct))) = false /\
  (calls_for 2 (run gnu [Deliver 2; Poll; Raise [2%Z; 2%Z]; Poll] (sigcatch gnu 2 (Some 7%nat) true construct)) <= 1)%nat.
Proof.
  destruct (signals_called gnu 2 (Some 7%nat) true construct [Deliver 2; Poll; Raise [2%Z; 2%Z]; Poll] ltac:(easy) eq_refl eq_refl) as ((_ & _ & _ & R & _) & _ & O).
  split; [reflexivity|]. split; [exact R|]. apply (O eq_refl). repeat constructor.
Defined.
(** A signal that comes before another one was polled is lost. *)
Lemma second_signal_overwrites : called (run gnu [Catch [2; 15] (Some 7%nat) false; Deliver 2; Deliver 15; Poll; Poll] construct) = [(Some 7%nat, 15, false)].
Proof. reflexivity. Qed.
(** After the one call the system still gives the signal to the handler: it is swallowed, where it would have ended the program. *)
Lemma once_then_swallowed : let s := run gnu [Catch [2] (Some 7%nat) true; Deliver 2; Poll; Deliver 2; Poll] construct in
  alive s = true /\ length (called s) = 1%nat /\ is_registered 2 s = false /\ disposition_of 2 s = Handle.
Proof. now repeat split. Qed.
(** Where handlers are for one signal only, a second one before the poll ends the program. *)
Lemma second_signal_ends : alive (run (System (catchable gnu) true (throws gnu)) [Catch [2] (Some 7%nat) false; Deliver 2; Deliver 2] construct) = false.
Proof. reflexivity. Qed.
(** A signal that is ignored after it was caught is registered still. *)
Lemma ignored_is_registered : let s := run gnu [Catch [2] (Some 7%nat) false; Ignore [2]; Deliver 2; Poll] construct in is_registered 2 s = true /\ called s = [].
Proof. now split. Qed.

(** ** Processes: theorems *)

Module ProcessThm.
Import Process.
(** A line of the command: a name, blanks, a number. *)
Definition entry : Type := text * nat * Z.
Definition pid (e : entry) : Z := e.2.
Definition comm (e : entry) : text := List.filter (fun a => negb (is_space a)) e.1.1.
Definition entry_line (e : entry) : text := (e.1.1 ++ replicate e.1.2 " "%char) ++ " "%char :: dec (pid e).
Definition good (e : entry) : Prop := plain e.1.1 /\ forallb is_ascii e.1.1 = true /\ 0 <= pid e < 2 ^ 31 /\ (length (entry_line e) + 1 < 1024)%nat.

Lemma split_last_app x y : Forall (fun a => a <> " "%char) y -> split_last (x ++ " "%char :: y) = Some (x, y).
Proof.
  intros H. assert (E : split_last y = None) by (induction H as [|a y Ha _ IH]; cbn; [easy|]; rewrite IH; now rewrite decide_False).
  induction x as [|a x IH]; cbn; [now rewrite E, decide_True|now rewrite IH].
Qed.
Lemma digit_ascii a : is_digit a = true -> is_ascii a = true /\ negb (is_space a) = true /\ a <> " "%char.
Proof.
  intros H. pose proof (digit_not_space a H) as S. rewrite S. split; [|split; [easy|intros ->; easy]].
  unfold is_digit, is_ascii in *. apply andb_true_iff in H as [_ H]. apply Z.leb_le in H. apply Z.ltb_lt. lia.
Qed.
Lemma erase_digits t : Forall (fun a => is_digit a = true) t -> erase_spaces (t ++ [LF]) = Some t.
Proof.
  intros H. unfold erase_spaces, all_ascii. rewrite forallb_app. assert (E : forallb is_ascii t = true /\ List.filter (fun a => negb (is_space a)) t = t).
  { induction H as [|a t Ha _ [IH1 IH2]]; [easy|]. destruct (digit_ascii a Ha) as (A & B & _). cbn. now rewrite A, B, IH1, IH2. }
  destruct E as [-> E]. cbn. now rewrite List.filter_app, E, app_nil_r.
Qed.
Lemma erase_name t n : forallb is_ascii t = true -> erase_spaces (t ++ replicate n " "%char) = Some (List.filter (fun a => negb (is_space a)) t).
Proof.
  intros H. unfold erase_spaces, all_ascii. rewrite forallb_app, H. assert (E : forallb is_ascii (replicate n " "%char) = true /\ List.filter (fun a => negb (is_space a)) (replicate n " "%char) = []) by (induction n; easy).
  destruct E as [-> E]. cbn. now rewrite List.filter_app, E, app_nil_r.
Qed.
(** The pids that are listed: those that match. *)
Definition listed (m : list text -> bool) (es : list entry) : list Z := map pid (List.filter (fun e => m [comm e; dec (pid e)]) es).
Lemma list_lines_entries m es : Forall good es -> forall result, list_lines (fun l => Some (m l)) (map (fun e => ended (entry_line e)) es) result = Some (Done (result ++ listed m es)).
Proof.
  induction 1 as [|e es (P & A & B & L) _ IH]; intros result; cbn [map list_lines]; [unfold listed; cbn; now rewrite app_nil_r|].
  assert (D : Forall (fun a => is_digit a = true) (dec (pid e))) by (apply dec_digits; lia).
  unfold ended, entry_line. rewrite <- app_assoc. cbn [app]. rewrite split_last_app.
  2: { apply Forall_app. split; [|now repeat constructor]. eapply Forall_impl; [exact D|]. intros a Ha. now apply digit_ascii. }
  rewrite (erase_name _ _ A), (erase_digits _ D). fold (comm e). unfold listed. cbn [List.filter]. destruct (m [comm e; dec (pid e)]); [|apply IH].
  assert (F : forallb is_digit (dec (pid e)) = true) by (apply forallb_forall, List.Forall_forall; exact D). rewrite F.
  destruct (dec (pid e)) eqn:E; [now apply dec_not_nil in E|]. cbn [negb andb]. rewrite <- E. unfold stoi. rewrite dec_value by lia. rewrite (proj2 (Z.ltb_lt _ _)) by lia.
  rewrite IH. cbn [map]. now rewrite <- app_assoc.
Qed.
(** When the command prints a header and, for each process, its name, blanks and its number,
    the list has the numbers, in order, of those whose name without blanks and number match, and the
    pipe is closed. *)
Theorem processes_listed header es m result : plain header -> (length header + 1 < 1024)%nat -> Forall good es ->
  list_ (fun l => Some (m l)) (Some (concat (map ended (header :: map entry_line es)))) result = Some (Done (result ++ listed m es), false).
Proof.
  intros Ph Lh H. unfold list_. rewrite lines_file.
  - cbn [map tl]. rewrite map_map, (list_lines_entries m es H). reflexivity.
  - constructor; [now split|]. apply Forall_map. eapply Forall_impl; [exact H|]. intros e (P & A & B & L). cbn. split; [|exact L].
    apply Forall_app. split; [apply Forall_app; split; [exact P|induction e.1.2; constructor; easy]|]. constructor; [easy|]. eapply Forall_impl; [apply dec_digits; lia|]. intros a Ha. split; [now apply (digit_not a LF)|now apply is_nul_digit].
Qed.
Lemma processes_listed_witness : good (lit "sh", 3%nat, 42) /\
  list_ (fun _ => Some true) (Some (concat (map ended [lit "COMMAND PID"; entry_line (lit "sh", 3%nat, 42)]))) [] = Some (Done [42], false).
Proof.
  assert (G : good (lit "sh", 3%nat, 42)) by (unfold good, plain; cbn; repeat (split || constructor || lia || easy)).
  split; [exact G|]. apply (processes_listed (lit "COMMAND PID") [(lit "sh", 3%nat, 42)] (fun _ => true) []); [unfold plain; cbn; repeat constructor; easy|cbn; lia|now constructor].
Defined.
(** A callback that throws leaves the pipe open. *)
Lemma throwing_leaks : list_ (fun _ => None) (Some (concat (map ended [lit "COMMAND PID"; lit "sh 42"]))) [] = Some (Threw [], true).
Proof. reflexivity. Qed.
(** A name with a byte that is not ASCII is given to [isspace] as a negative number. *)
Lemma accents_undefined : list_ (fun _ => Some true) (Some (concat (map ended [lit "COMMAND PID"; ascii_of_nat 233 :: lit " 42"]))) [] = None.
Proof. reflexivity. Qed.
End ProcessThm.
